(* ===== verification/_CoqProject ===== *)
-Q . S2P
Prelude.v
Ord.v
Bytes.v
Hashing.v
Dag.v
DagCodec.v
Text.v
Accountability.v
Codec.v
Decode.v
Mandate.v
Evidence.v
Receipt.v
Preservation.v
Anchor.v
Authority.v
Intent.v
DisputeBundle.v
AccountabilityVerifier.v
Merkle.v
Content.v
Manifest.v
RecipientWrap.v
Seal.v
Commitment.v
CrossChain.v
ReplayDb.v
MintLease.v
Quorum.v
ProofTaxonomy.v
Signature.v
Checkpoint.v
Reference.v
Assurance.v
Verifier.v
Replay.v
Lease.v
SealRegistry.v
AcceptedState.v
Reorg.v
TransferState.v
Journal.v
Admission.v
Coordinator.v
Capabilities.v
Runtime.v
ExecutionLease.v
Send.v
SendExclusive.v
SendRecovery.v
Sanad.v
EventStore.v
Effects.v
Settlement.v
Materialize.v
MintGuard.v
Anchors.v
BitcoinSpv.v
AptosProofs.v
Finality.v
Watch.v
Events.v
CodecRules.v
Resolution.v
Schemas.v
ContentSerde.v
Cells.v
Algebra.v
ChainProofs.v
Consignment.v
BitcoinSeal.v
ProofCommitments.v
Rlp.v
WireForms.v
LockExclusive.v
Delivery.v
ProofDag.v
RuntimeParts.v
Wallet.v
Celestia.v
