(* ===== verification/Prelude.v ===== *)
(** * Parwana: a verification library for the Parwana (csv) client-side validation protocol

    Parwana moves rights ("sanads") between chains: a transition is a segment of a
    DAG committed to by a seal, its proof bundle is checked by a verifier that reports
    one reading per assurance dimension, a policy decides, registries make each seal,
    nullifier and consumed state usable once, and a runtime drives transfers through
    journals, leases and replay stores so that a crash or a rival neither repeats a
    step nor loses one.  This library models that core: the hashing and data crates
    (csv-hash, csv-codec, csv-wire, csv-schema, csv-content), the protocol crate
    (csv-protocol), the algebra and the proofs (csv-algebra, csv-proof), the verifier
    (csv-verifier), the accountability layer (csv-accountability and its verifier), the
    storage crate (csv-storage), the types at the chain boundary (csv-chain-ports), the
    coordinator's cells (csv-coordinator), the runtime (csv-runtime), delivery between
    peers (csv-p2p), keys and wallets (csv-keys, csv-wallet), and of the chain adapters
    the parts that prove and check.

    ** How the code is modelled

    - Rust's [Result] is [result E A], with the error as a value, [?] its bind and
      [if c { return Err(e) }] the notation [reject c with e ;; k]: theorems say which
      error a function returns, hence in which order it checks.  A panic is a value
      where the code can reach one.
    - Integers are [N] with the wrap-around of their width written where the code adds
      or subtracts ([add64], [sub64], [wrap32]); [as u32] on a length is the wrap of
      [u32_le].  Bytes are [list byte], a 32-byte array is [Bytes32], a record of a
      list and its length.  Strings are Rocq strings read as UTF-8 bytes ([Text]).
    - A [BTreeMap] or [HashMap] is a [gmap], a [BTreeSet] a sorted list where its
      order is observable ([Ord]).  Iteration over a [HashMap] takes its order as a
      parameter, and the theorems hold for every order.
    - Code that several callers run at once on one store is a tree of atomic accesses,
      each with a continuation on its answer; a system is a set of such trees and a
      schedule that says which makes its next access, with its own clock and fault.  A
      crash is a tree that makes no further access.  Code that the caller runs alone is
      a function from the store to the store, the calls it made and its result.
    - Loops are structural where they walk a list, and carry fuel otherwise.  Kahn's
      loop of [Dag] takes one unit per node and emits a node per turn; [collapse],
      [branch_loop], [build_loop], [proof_loop] and [mux_levels] take one per leaf and
      halve the level; [drain] takes three per record, which bounds two per record still
      to be downgraded plus one per identifier on the stack; the walk of [ChainProofs]
      takes one more than the number of commitments; the items of an RLP list as many
      turns as there are bytes; the searches of [ProofDag] as many as the identifiers
      that are mentioned, its sort one more than its nodes and its depth as many.
      Running one call alone takes its number of accesses: two for a call of the replay
      database, fourteen for a resumed send.  In each case a theorem shows the result is
      reached, not only that it is right, or shows the input on which it is not.
    - A [usize] is that of a 64-bit target.  CI also builds for wasm32, where it has four
      bytes: [Seal] and [ProofTaxonomy] have the width as an argument of the decoders of a
      seal and of the codec of a proof bundle, and state what fails there.
    - Third-party code is a parameter: SHA-256 ([sha256], a function; nothing is assumed of
      it.  A binding theorem concludes "equal, or two of these strings collide", where the
      list of strings, those the code hashes on the values compared, is written out:
      [Hashing.collision_in]), the signature crates
      ([Signature.SigCrates], the Ed25519 operations of [ProofCommitments]), the hash
      crates ([ProofTaxonomy.HashCrates], [CrossChain.NativeHashes]), encryption and key
      agreement ([RecipientWrap.Crypto], [Wallet.WalletCrates] and [Wallet.KeystoreCrates],
      with the laws of an authenticated cipher), curve
      arithmetic and base-58 ([Sanad.KeyCrates]), the Bloom filter crate
      ([SealRegistry.BloomOps], with the two laws it documents in [BloomLaws]), tries and
      RLP writers of Ethereum ([Rlp]), CBOR, JSON and TOML (the
      codecs of [Replay], [Checkpoint], [Journal], [Send], [EventStore], [Settlement],
      [Consignment], [Schemas] and [RuntimeParts], with a round-trip law where something
      is read back), redb tables ([ReplayDb.TableOps] and [TableLaws],
      [Journal.SeqTable], [EventStore.EventTable]: the laws of a map and of an ordered
      scan; transactions are serialised and abort when dropped, as redb documents), a
      chain backend ([Reorg.ChainBackend]), the answers of nodes and relays, those of
      Celestia and IPFS ([Celestia.Net], with the laws [NetLaws], which the crate's mocks
      meet) with the CID crate ([Celestia.CidCrate]), and the executor of a send.  The clock is an argument.  Implementations that serde derives
      are written out by its documentation where they matter ([ContentSerde]).

    ** The files

    Foundations: [Prelude] (results, machine integers, list lemmas), [Ord] (orders and
    [BTreeSet]), [Bytes] (arrays, little and big endian, readers, hex), [Text] (UTF-8,
    trimming, lower case; the class [PrefixFree] of encoders whose output can be told
    from what follows it: the binding theorems are found by its instances) and [Decode]
    (readers that are exact for an encoder, and how exactness composes).

    Data and its wire forms.

    - [Hashing] (csv-hash: tagged_hash.rs, domain_hash.rs, hash_registry.rs): tagged
      hashes and domains; the tags are prefix-free, so domains do not collide.
    - [Merkle] (csv-hash/src/merkle): the levels that several trees share, trees, proofs,
      the three verifiers, the streaming builder.  Completeness, soundness of inclusion,
      refinement of the batch tree by the streaming one, and what a root leaves open.
    - [Dag] and [DagCodec] (csv-hash/src/dag.rs): identities, Kahn's algorithm with
      its ready set, validation, sealing, the root; the two wire forms.  The order is
      correct and canonical, validation is exactly its specification, the root binds
      the contents, sealing is independent of listing, encodings round-trip.
    - [Seal] (csv-hash/src/seal.rs, csv-protocol/src/wire.rs) and [SealRegistry]
      (csv-hash/src/nullifier.rs): seal points with both wire forms and the registry of
      consumed seals.  Double use is detected exactly; the Bloom-filtered, cached
      registry refines the plain one, by a simulation over traces of operations.
    - [Commitment] (csv-hash: commit_mux.rs, commitment.rs): commitments, several
      protocols in one anchor.  [WireForms] (csv-wire: transfer_state.rs, transfer.rs,
      canonical.rs, proof.rs, primitives.rs, seal.rs): hexadecimal forms and what they
      lose.  [Consignment] (csv-protocol/src/envelope.rs, seal_protocol.rs; csv-wire:
      seal.rs, invoice.rs, consignment.rs): envelopes, invoices, consignments; an
      authorization is not redirected to another consignment.
    - [Codec] (csv-codec/src/manual_encoder.rs, csv-protocol/src/proof_validation.rs) and
      [CodecRules] (the other primitives of csv-codec); [Schemas] (csv-schema): schemas
      compiled, documents validated, versions compared.
    - [Sanad] (csv-protocol/src/sanad.rs, csv-hash/src/sanad.rs, csv-keys/src/bip44.rs):
      sanads, their owners and addresses, and ownership proofs.
    - [ProofTaxonomy] and [Signature] (csv-protocol/src/proof_taxonomy.rs,
      signature.rs): proofs, bundles, leaves, their codecs and digests; bundle
      signatures.
    - [Content], [Manifest], [ContentSerde] and [RecipientWrap] (csv-content): trees and
      disclosure, manifests with their two readers, hand-written visitors, and the
      sealing of an object for its recipients.

    Protocol.

    - [Reference] (csv-protocol/src/reference.rs, closure.rs): references with
      canonical encodings, closure proofs, checkpoints and their commitments.
    - [Resolution] (exclusivity.rs, state.rs, transition.rs, resolution.rs): whether an
      output may be consumed once, and how the inputs of a transition are resolved to one
      parent each.
    - [Assurance] and [Verifier] (csv-verifier/src): readings, reports and policies, the
      two entry points of the verifier.  Policies are characterised: what the runtime and
      offline policies accept is stated on the bundle and the context, and a replayed
      seal meets no policy.  [Anchors] (csv-verifier: anchors.rs, chain_proof_bundle.rs;
      csv-proof/src/zk_proof.rs): what is accepted of a chain.
    - [Replay] (csv-protocol/src/replay/registry.rs): consumed proofs and nullifiers,
      over runs and reachable states.
    - [CrossChain] (cross_chain.rs), [TransferState] (transfer_state), [Lease]
      (lease.rs): the registry of transfers and the standard verifier; the typed states
      as one sum with a call relation, and the stages; leases of a sanad.
    - [Finality], [Watch] and [Events] (csv-protocol: finality, monitor.rs, invariants.rs,
      failure_domains.rs, events.rs): the verifiers of finality, policies and monitors;
      tips, publications, queues and breakers; events and their registry.
    - [Reorg] (csv-protocol/src/reorg) and [Checkpoint] (deterministic_recovery.rs): the
      detector, the rollback decision, the reconciliation engine; checkpoints and
      recovery from the latest one that is intact.
    - [Algebra] (csv-algebra): stages of a transfer as types.  [ChainProofs],
      [ProofCommitments] and [ProofDag] (csv-proof): chains of commitments, enhanced
      commitments and mandate signatures, graphs of proofs with their order and depth.

    Accountability (csv-accountability, csv-accountability-verify).

    - [Accountability]: profiles and gates.  [Mandate], [Evidence], [Receipt],
      [Preservation], [Anchor], [Authority], [DisputeBundle]: the records, each with an
      exact codec, so that an identifier determines its record, and each with what its
      validation accepts.  [Intent]: intents as envelopes of profile bytes.
    - [AccountabilityVerifier]: the twelve stages, the disposition and the profile.

    Stores.

    - [AcceptedState] (csv-storage/src/accepted_state.rs): one successor per consumed
      state, and the reconciliation of a checkpoint with its descendants.
    - [ReplayDb] (csv-storage/src/traits.rs, backends): the redb backend is linearizable
      to the in-memory one under every schedule; the Postgres one is not.
    - [Journal] (csv-runtime/src/execution_journal.rs) and [EventStore]
      (event_envelope.rs, event_persistence.rs): interfaces that both the in-memory and
      the redb backend meet.

    Runtime (csv-runtime).

    - [MintLease] (distributed_coordinator_lease.rs): a mint under a lease and the
      replay database.  [ExecutionLease] (user_runtime_lease.rs): leases
      with fencing.
      [Quorum] (verification_quorum.rs): what counts as agreement.
    - [Admission] (csv-admission): permits.  [Capabilities] (csv-protocol/src/finality):
      what chains can do.  [Runtime] (runtime_mode.rs, policy.rs;
      csv-observability/src/runtime_health.rs): policies, the circuit breaker and health.
      [RuntimeParts]: recovery, queue, pressure, configuration, event bus, discovery,
      registry of adapters.
    - [Coordinator] and [Effects]: the errors and data of the coordinator (error.rs,
      failure_domain.rs, transfer_coordinator.rs, csv-chain-ports) and its accesses.
    - [Send] (send_transfer.rs and the send driver of transfer_coordinator.rs),
      [SendExclusive] and [SendRecovery]: sends as concurrent calls over journal,
      replay database and executor.  A seal is closed for one transfer only; a step the
      journal records is not repeated; a send whose seal was closed completes when it
      is resumed, and how a resumed call ends is computed exactly.
    - [Materialize], [MintGuard] and [LockExclusive] (transfer_coordinator.rs): the
      materialising transfer as programs of accesses, and a coordinator with its
      in-memory stores.  What has
      been answered before a lock and before a mint, whatever the stores and chains say
      and wherever the process stops; among calls side by side, a Sanad is locked once at
      a time; an interrupted transfer completes when it is resumed.
    - [Settlement] (csv-chain-ports/src/lib.rs, the builders of transfer_coordinator.rs,
      the release and refund of an escrow): what is signed determines what was attested;
      an escrow is settled at most once.
    - [Cells] (csv-coordinator): a cell as a state machine, its breaker and its queue.

    Chains and peers.

    - [BitcoinSpv] and [BitcoinSeal] (csv-bitcoin: proofs.rs, types.rs,
      runtime_adapter.rs, chain_verification.rs, sp1_guest/spv.rs; seal.rs, mpc_batch.rs,
      seal_protocol.rs): Merkle branches, and the guest that refines the host; the seals.
    - [AptosProofs] (csv-aptos: merkle.rs, proofs.rs) and [Rlp] (csv-ethereum: proofs.rs,
      mpt.rs): accumulators, and receipts read from RLP.
    - [Delivery] (csv-p2p): routers of proofs and consignments over their transports.
    - [Wallet] (csv-keys: bip44.rs, keystore.rs, file_keystore.rs; csv-wallet): derivation
      of keys, key files and their directory, the portable wallet file, whose costs are
      bounded before any key is derived, and seals in custody, each closed at most once.
    - [Celestia] (csv-celestia): namespaces, identifiers and locations of proofs, blobs,
      references to IPFS, metadata and its batches; the layer of data availability and its
      client over what the chain and IPFS answer; the seal protocol over both.  The codecs
      are exact, identifiers bind, and the client's store is read back below its threshold.

    ** How the parts interact

    [Verifier] calls [Assurance], [Signature], [ProofTaxonomy], [Seal] and [Dag];
    [Assurance] folds reports into the profiles of [Accountability] and reads closure
    results of [Reference]; [AcceptedState] stores those results; [SealRegistry] keys
    its log by the encoding of [Seal]; [AccountabilityVerifier] runs the records'
    validations; [Content] and [Commitment] build on the levels of [Merkle];
    [BitcoinSeal] batches with [Commitment]'s tree and proves with [BitcoinSpv];
    [Delivery] carries the bundles of [ProofTaxonomy] and the envelopes of [Consignment];
    everything hashes through [Hashing].  In the runtime, [MintLease] and [Send] are
    proved against the class [ReplayDb.ReplayStore], [Send] also against
    [Journal.Journal], and [Settlement] against [EventStore.EventLog]; the backends are
    its instances.  [Materialize] is written over [Effects], whose answers [MintGuard]
    leaves open and [LockExclusive] takes from [ReplayDb].

    ** What is not modelled

    Serialization derived by serde where nothing depends on it, logging, metrics,
    poisoned locks, I/O errors other than a failing transaction or a missing key
    file, and the asynchronous runtime; composite proofs; key generation. Of the
    chain adapters, building and signing transactions and the calls of nodes
    (networks decide what they answer), and the seal protocols of the chains other
    than Bitcoin and Celestia; the zero-knowledge provers. Mnemonics, the browser's
    key store and the client's store, which are third-party cryptography and
    databases; the command line, the software development kit and the servers, which
    are glue over the crates modelled here; contracts in other languages, bindings
    and tests. *)

From Stdlib Require Export NArith ZArith Lia Strings.Byte.
From stdpp Require Export base tactics decidable countable list gmap strings sorting.

(** ** Results

    Rust's [Result<A, E>].  The model keeps the error as a value, so that
    "which error, in which order of checks" is part of every statement. *)

Inductive result (E A : Type) : Type :=
| Ok (a : A)
| Err (e : E).
Global Arguments Ok {E A} a.
Global Arguments Err {E A} e.

Global Instance result_ret {E} : MRet (result E) := fun A a => Ok a.
Global Instance result_bind {E} : MBind (result E) :=
  fun A B f r => match r with Ok a => f a | Err e => Err e end.
Global Instance result_fmap {E} : FMap (result E) :=
  fun A B f r => match r with Ok a => Ok (f a) | Err e => Err e end.

Global Instance result_eq_dec {E A} `{EqDecision E, EqDecision A} :
  EqDecision (result E A).
Proof. solve_decision. Defined.

Definition is_ok {E A} (r : result E A) : bool :=
  match r with Ok _ => true | Err _ => false end.

Lemma is_ok_inv {E A} (r : result E A) : is_ok r = true -> { a | r = Ok a }.
Proof. destruct r; simpl; [eauto|done]. Qed.

(** [opt.ok_or(e)] *)
Definition ok_or {E A} (e : E) (o : option A) : result E A :=
  match o with Some a => Ok a | None => Err e end.

(** [r.map_err(f)] *)
Definition map_err {E F A} (f : E -> F) (r : result E A) : result F A :=
  match r with Ok a => Ok a | Err e => Err (f e) end.

(** [if c { return Err(e) }] followed by the rest of the body. *)
Definition guard_err {E A} (c : bool) (e : E) (k : result E A) : result E A :=
  if c then Err e else k.

Declare Scope parwana_scope.
Delimit Scope parwana_scope with par.
Open Scope parwana_scope.

Notation "'reject' c 'with' e ';;' k" := (guard_err c e k)
  (at level 100, c at level 99, e at level 99, k at level 200, right associativity,
   format "'reject'  c  'with'  e ';;' '//' k") : parwana_scope.

Lemma guard_err_ok {E A} (c : bool) (e : E) (k : result E A) a :
  guard_err c e k = Ok a <-> c = false /\ k = Ok a.
Proof. destruct c; simpl; naive_solver. Qed.

Lemma guard_err_err {E A} (c : bool) (e : E) (k : result E A) e' :
  guard_err c e k = Err e' <-> (c = true /\ e = e') \/ (c = false /\ k = Err e').
Proof. destruct c; simpl; naive_solver. Qed.

Lemma bind_ok {E A B} (r : result E A) (f : A -> result E B) b :
  r ≫= f = Ok b <-> exists a, r = Ok a /\ f a = Ok b.
Proof. destruct r; simpl; naive_solver. Qed.

Lemma map_err_ok {E F A} (f : E -> F) (r : result E A) a :
  map_err f r = Ok a <-> r = Ok a.
Proof. destruct r; simpl; naive_solver. Qed.

(** A fallible loop: [for x in l { f(x)?; }]. *)
Fixpoint try_each {E A} (f : A -> result E unit) (l : list A) : result E unit :=
  match l with
  | [] => Ok tt
  | x :: l' => match f x with Ok _ => try_each f l' | Err e => Err e end
  end.

Lemma try_each_ok {E A} (f : A -> result E unit) l :
  try_each f l = Ok tt <-> Forall (fun x => f x = Ok tt) l.
Proof.
  induction l as [|x l IH]; simpl; [naive_solver|].
  rewrite Forall_cons. destruct (f x) as [[]|e]; [|naive_solver].
  rewrite IH. naive_solver.
Qed.

(** A failing loop stops at its first failing element. *)
Lemma try_each_err {E A} (f : A -> result E unit) l e :
  try_each f l = Err e <->
  exists l1 x l2, l = l1 ++ x :: l2 /\ Forall (fun y => f y = Ok tt) l1 /\ f x = Err e.
Proof.
  induction l as [|x l IH]; simpl.
  - split; [done|]. intros (l1 & x & l2 & H & _). by destruct l1.
  - destruct (f x) as [[]|e'] eqn:Hx.
    + rewrite IH. split.
      * intros (l1 & y & l2 & -> & Hl & Hy). exists (x :: l1), y, l2. auto.
      * intros (l1 & y & l2 & Hl & Hok & Hy).
        destruct l1 as [|z l1]; injection Hl as -> ->; [congruence|].
        apply Forall_cons in Hok as [_ Hok]. eauto 10.
    + split.
      * intros [= ->]. by exists [], x, l.
      * intros (l1 & y & l2 & Hl & Hok & Hy).
        destruct l1 as [|z l1]; injection Hl as -> ->; [congruence|].
        apply Forall_cons in Hok as [Hz _]. congruence.
Qed.

(** ** Machine integers

    Rust's unsigned integers are values of [N] below the width's bound.  No
    profile of the workspace turns overflow checks on, so a plain [+] of a
    release build wraps: [add64] writes that out.  [saturating_sub] is [N.sub],
    which truncates at zero. *)

Definition u8_max : N := 255.
Definition u32_max : N := 4294967295.
Definition u64_max : N := 18446744073709551615.

Definition wrap32 (n : N) : N := (n mod 4294967296)%N.
Definition wrap64 (n : N) : N := (n mod 18446744073709551616)%N.
Definition add64 (a b : N) : N := wrap64 (a + b).
Definition sub64 (a b : N) : N := wrap64 (a + 18446744073709551616 - b).
Definition saturating_add64 (a b : N) : N := N.min (a + b) u64_max.
Definition saturating_mul64 (a b : N) : N := N.min (a * b) u64_max.
Definition checked_add64 (a b : N) : option N :=
  if (a + b <=? u64_max)%N then Some (a + b)%N else None.
Definition checked_sub64 (a b : N) : option N :=
  if (b <=? a)%N then Some (a - b)%N else None.

Lemma wrap64_small n : (n <= u64_max)%N -> wrap64 n = n.
Proof. unfold wrap64, u64_max. intros. apply N.mod_small. lia. Qed.

Lemma wrap32_small n : (n <= u32_max)%N -> wrap32 n = n.
Proof. unfold wrap32, u32_max. intros. apply N.mod_small. lia. Qed.

Lemma add64_small a b : (a + b <= u64_max)%N -> add64 a b = (a + b)%N.
Proof. apply wrap64_small. Qed.

Lemma wrap64_bound n : (wrap64 n <= u64_max)%N.
Proof.
  unfold wrap64, u64_max.
  pose proof (N.mod_lt n 18446744073709551616 ltac:(lia)). lia.
Qed.

Lemma sub64_small a b : (b <= a)%N -> (a <= u64_max)%N -> sub64 a b = (a - b)%N.
Proof.
  intros. unfold sub64, wrap64, u64_max in *.
  replace (a + 18446744073709551616 - b)%N with (a - b + 1 * 18446744073709551616)%N by lia.
  rewrite N.Div0.mod_add. apply N.mod_small. lia.
Qed.

#[export] Hint Rewrite @guard_err_ok @guard_err_err @bind_ok @map_err_ok @try_each_ok : result.

(** ** Bytes *)

Notation byte := Byte.byte.
Notation bytes := (list Byte.byte).

Global Instance byte_eq_dec : EqDecision byte := Byte.byte_eq_dec.

Global Program Instance byte_countable : Countable byte :=
  inj_countable Byte.to_N Byte.of_N _.
Next Obligation. intros b. apply Byte.of_to_N. Qed.

Definition byte_of (n : N) : byte := default Byte.x00 (Byte.of_N (n mod 256)).

Lemma byte_of_to_N b : byte_of (Byte.to_N b) = b.
Proof.
  unfold byte_of. rewrite N.mod_small.
  - by rewrite Byte.of_to_N.
  - pose proof (Byte.to_N_bounded b). lia.
Qed.

Lemma to_N_byte_of n : Byte.to_N (byte_of n) = (n mod 256)%N.
Proof.
  unfold byte_of. destruct (Byte.of_N (n mod 256)) as [b|] eqn:E; simpl.
  - by apply Byte.to_of_N.
  - apply Byte.of_N_None_iff in E.
    pose proof (N.mod_lt n 256 ltac:(lia)). lia.
Qed.

Lemma to_N_inj a b : Byte.to_N a = Byte.to_N b -> a = b.
Proof. intros H. rewrite <- (byte_of_to_N a), H. apply byte_of_to_N. Qed.

(** [s.as_bytes()]: a Rust string is its UTF-8 bytes, and so is a Rocq [string]. *)
Definition as_bytes (s : string) : bytes := String.list_byte_of_string s.

Lemma as_bytes_inj s t : as_bytes s = as_bytes t -> s = t.
Proof.
  unfold as_bytes. intros H.
  rewrite <- (String.string_of_list_byte_of_string s), H.
  apply String.string_of_list_byte_of_string.
Qed.

Lemma as_bytes_app s t : as_bytes (s +:+ t) = as_bytes s ++ as_bytes t.
Proof.
  unfold as_bytes. induction s as [|a s IH]; [done|].
  change (String a s +:+ t) with (String a (s +:+ t)).
  unfold String.list_byte_of_string in *. simpl. f_equal. exact IH.
Qed.

(** ** Generic list lemmas *)

Lemma existsb_eqb_In {A} `{EqDecision A} (x : A) l :
  existsb (fun y => bool_decide (x = y)) l = true <-> x ∈ l.
Proof.
  rewrite existsb_exists. split.
  - intros (y & Hy & Heq). apply bool_decide_eq_true in Heq. subst. by apply list_elem_of_In.
  - intros Hx. exists x. split; [by apply list_elem_of_In|]. by apply bool_decide_eq_true.
Qed.

Lemma app_eq_length_inj {A} (a b c d : list A) :
  length a = length c -> a ++ b = c ++ d -> a = c /\ b = d.
Proof. intros Hl H. by apply app_inj_1. Qed.

(** What precedes a separator is recovered when neither side contains it. *)
Lemma sep_app_inj {A} (c : A) (p q k l : list A) :
  c ∉ p -> c ∉ q -> p ++ c :: k = q ++ c :: l -> p = q /\ k = l.
Proof.
  intros Hp. revert q. induction p as [|x p IH]; intros [|y q] Hq H; simpl in H.
  - by injection H.
  - injection H as <- _. set_solver.
  - injection H as -> _. set_solver.
  - injection H as -> H. destruct (IH ltac:(set_solver) q ltac:(set_solver) H) as [-> ?]. done.
Qed.

(** Lists sorted by an asymmetric relation are determined by their elements. *)
Lemma sorted_ext {A} (R : relation A) (l k : list A) :
  (forall x y, R x y -> R y x -> False) -> StronglySorted R l -> StronglySorted R k ->
  (forall x, x ∈ l <-> x ∈ k) -> l = k.
Proof.
  intros Has Hl Hk Hin.
  assert (Hnd : forall l, StronglySorted R l -> NoDup l).
  { induction 1 as [|x m Hm IH Hx]; constructor; [|done]. intros Hm'.
    rewrite Forall_forall in Hx. eauto. }
  apply (StronglySorted_unique_strong R); [|done|done|].
  - intros x y _ _ H1 H2. by destruct (Has x y).
  - by apply NoDup_Permutation; [apply Hnd|apply Hnd|].
Qed.

(** ** Automation *)

(** Take apart a computation that succeeded: open every [match] in a hypothesis
    whose result is known, simplifying as it goes. *)
Ltac inv_match H :=
  repeat (simpl in H; case_match; simplify_eq; try done).

Ltac inv_ok :=
  repeat match goal with
  | H : guard_err _ _ _ = Ok _ |- _ => apply guard_err_ok in H; destruct H
  | H : _ ≫= _ = Ok _ |- _ => apply bind_ok in H; destruct H as (? & ? & ?)
  | H : map_err _ _ = Ok _ |- _ => apply map_err_ok in H
  | H : Ok _ = Ok _ |- _ => injection H as H; subst
  | H : Err _ = Ok _ |- _ => discriminate H
  | H : Ok _ = Err _ |- _ => discriminate H
  end.
