(* ===== verification/Ord.v ===== *)
(** * Total orders and ordered sets

    Rust's [Ord] as a type class, the instances the program uses (unsigned
    integers, byte strings, 32-byte arrays, [String], pairs, derived orders of
    enums), and [BTreeSet] as a strictly sorted list: iteration order is
    observable in the program (canonical node order, reason codes, digests), so
    it is part of the model. *)

From S2P Require Import Prelude.
From Stdlib Require Import Sorting.Sorted.

(** ** The interface *)

Class Ord (A : Type) := cmp : A -> A -> comparison.

Class OrdLaws (A : Type) `{Ord A} := {
  cmp_eq_iff : forall x y : A, cmp x y = Eq <-> x = y;
  cmp_opp : forall x y : A, cmp y x = CompOpp (cmp x y);
  cmp_lt_trans : forall x y z : A, cmp x y = Lt -> cmp y z = Lt -> cmp x z = Lt
}.

Definition leb {A} `{Ord A} (x y : A) : bool :=
  match cmp x y with Gt => false | _ => true end.
Definition ltb {A} `{Ord A} (x y : A) : bool :=
  match cmp x y with Lt => true | _ => false end.

Section OrdFacts.
Context {A : Type} `{OrdLaws A}.
Implicit Types x y z : A.

Lemma cmp_refl x : cmp x x = Eq.
Proof. by apply cmp_eq_iff. Qed.

Lemma cmp_gt_lt x y : cmp x y = Gt <-> cmp y x = Lt.
Proof. rewrite (cmp_opp x y). destruct (cmp x y); naive_solver. Qed.

Lemma cmp_lt_irrefl x : cmp x x <> Lt.
Proof. by rewrite cmp_refl. Qed.

Lemma leb_refl x : leb x x = true.
Proof. unfold leb. by rewrite cmp_refl. Qed.

Lemma leb_total x y : leb x y = false -> leb y x = true.
Proof. unfold leb. rewrite (cmp_opp x y). by destruct (cmp x y). Qed.

Lemma leb_antisym x y : leb x y = true -> leb y x = true -> x = y.
Proof.
  unfold leb. rewrite (cmp_opp x y). destruct (cmp x y) eqn:E; try done.
  intros _ _. by apply cmp_eq_iff.
Qed.

Lemma leb_ltb x y : leb x y = negb (ltb y x).
Proof. unfold leb, ltb. rewrite (cmp_opp x y). by destruct (cmp x y). Qed.

Lemma leb_spec x y : leb x y = true <-> cmp x y = Lt \/ x = y.
Proof.
  unfold leb. rewrite <- (cmp_eq_iff x y).
  destruct (cmp x y); naive_solver.
Qed.

Lemma leb_trans x y z : leb x y = true -> leb y z = true -> leb x z = true.
Proof.
  rewrite !leb_spec. intros [Hxy| ->] [Hyz| ->]; auto.
  left. by apply (cmp_lt_trans x y z).
Qed.
End OrdFacts.

(** ** Instances *)

Global Instance N_ord : Ord N := N.compare.
Global Instance N_ord_laws : OrdLaws N.
Proof.
  split; unfold cmp, N_ord.
  - intros. apply N.compare_eq_iff.
  - intros. apply N.compare_antisym.
  - intros x y z. rewrite !N.compare_lt_iff. lia.
Qed.

Global Instance nat_ord : Ord nat := Nat.compare.
Global Instance nat_ord_laws : OrdLaws nat.
Proof.
  split; unfold cmp, nat_ord.
  - intros. apply Nat.compare_eq_iff.
  - intros. apply Nat.compare_antisym.
  - intros x y z. rewrite !Nat.compare_lt_iff. lia.
Qed.

(** An order pulled back along an injection: derived orders of field-less enums
    (through the discriminant) and of newtypes. *)
Definition cmp_by {A B} `{Ord B} (f : A -> B) : Ord A := fun x y => cmp (f x) (f y).

Lemma cmp_by_laws {A B} `{OrdLaws B} (f : A -> B) :
  (forall x y, f x = f y -> x = y) -> @OrdLaws A (cmp_by f).
Proof.
  intros Hinj. split; unfold cmp_by; change (@cmp A (fun x y : A => cmp (f x) (f y)))
    with (fun x y : A => cmp (f x) (f y)); cbv beta.
  - intros x y. rewrite cmp_eq_iff. naive_solver.
  - intros x y. apply cmp_opp.
  - intros x y z. apply cmp_lt_trans.
Qed.

Global Instance byte_ord : Ord byte := cmp_by Byte.to_N.
Global Instance byte_ord_laws : OrdLaws byte.
Proof. apply cmp_by_laws. apply to_N_inj. Qed.

(** Slices and [Vec]s compare lexicographically. *)
Fixpoint cmp_list {A} `{Ord A} (l k : list A) : comparison :=
  match l, k with
  | [], [] => Eq
  | [], _ :: _ => Lt
  | _ :: _, [] => Gt
  | x :: l', y :: k' => match cmp x y with Eq => cmp_list l' k' | c => c end
  end.
Global Instance list_ord {A} `{Ord A} : Ord (list A) := cmp_list.
Global Instance list_ord_laws {A} `{OrdLaws A} : OrdLaws (list A).
Proof.
  split; unfold cmp, list_ord.
  - induction x as [|x l IH]; destruct y as [|y k]; simpl; try naive_solver.
    destruct (cmp x y) eqn:E.
    + apply cmp_eq_iff in E as ->. rewrite IH. naive_solver.
    + split; [done|]. intros [= -> ->]. by rewrite cmp_refl in E.
    + split; [done|]. intros [= -> ->]. by rewrite cmp_refl in E.
  - induction x as [|x l IH]; destruct y as [|y k]; simpl; try done.
    rewrite (cmp_opp x y). destruct (cmp x y); simpl; auto.
  - induction x as [|x l IH]; destruct y as [|y k], z as [|z m]; simpl; try done.
    destruct (cmp x y) eqn:E1, (cmp y z) eqn:E2; try done.
    + apply cmp_eq_iff in E1 as ->, E2 as ->. rewrite cmp_refl. apply IH.
    + apply cmp_eq_iff in E1 as ->. by rewrite E2.
    + apply cmp_eq_iff in E2 as ->. by rewrite E1.
    + by rewrite (cmp_lt_trans _ _ _ E1 E2).
Qed.

Global Instance pair_ord {A B} `{Ord A, Ord B} : Ord (A * B) := fun p q =>
  match cmp p.1 q.1 with Eq => cmp p.2 q.2 | c => c end.
Global Instance pair_ord_laws {A B} `{OrdLaws A, OrdLaws B} : OrdLaws (A * B).
Proof.
  split; unfold cmp, pair_ord.
  - intros [a b] [c d]; simpl. destruct (cmp a c) eqn:E.
    + apply cmp_eq_iff in E as ->. rewrite cmp_eq_iff. naive_solver.
    + split; [done|]. intros [= -> ->]. by rewrite cmp_refl in E.
    + split; [done|]. intros [= -> ->]. by rewrite cmp_refl in E.
  - intros [a b] [c d]; simpl. rewrite (cmp_opp a c).
    destruct (cmp a c); simpl; try done. apply cmp_opp.
  - intros [a b] [c d] [e f]; simpl.
    destruct (cmp a c) eqn:E1, (cmp c e) eqn:E2; try done.
    + apply cmp_eq_iff in E1 as ->, E2 as ->. rewrite cmp_refl. apply cmp_lt_trans.
    + apply cmp_eq_iff in E1 as ->. by rewrite E2.
    + apply cmp_eq_iff in E2 as ->. by rewrite E1.
    + by rewrite (cmp_lt_trans _ _ _ E1 E2).
Qed.

(** [String]s compare bytewise. *)
Global Instance string_ord : Ord string := cmp_by as_bytes.
Global Instance string_ord_laws : OrdLaws string.
Proof. apply cmp_by_laws. apply as_bytes_inj. Qed.

(** ** [BTreeSet] *)

Section BTreeSet.
Context {A : Type} `{OrdLaws A}.
Implicit Types (x y : A) (s l : list A).

Definition bset_ok (s : list A) : Prop := StronglySorted (fun x y => cmp x y = Lt) s.

Fixpoint bset_insert (x : A) (s : list A) : list A :=
  match s with
  | [] => [x]
  | y :: s' => match cmp x y with
               | Lt => x :: s
               | Eq => s
               | Gt => y :: bset_insert x s'
               end
  end.

Fixpoint bset_remove (x : A) (s : list A) : list A :=
  match s with
  | [] => []
  | y :: s' => match cmp x y with Eq => s' | _ => y :: bset_remove x s' end
  end.

(** [iter.collect::<BTreeSet<_>>()]; also [v.sort(); v.dedup()]. *)
Definition bset_of_list (l : list A) : list A := foldr bset_insert [] l.

Definition bset_mem (x : A) (s : list A) : bool :=
  existsb (fun y => match cmp x y with Eq => true | _ => false end) s.

Lemma bset_mem_spec x s : bset_mem x s = true <-> x ∈ s.
Proof.
  unfold bset_mem. rewrite existsb_exists. split.
  - intros (y & Hy & Hc). destruct (cmp x y) eqn:E; try done.
    apply cmp_eq_iff in E as ->. by apply list_elem_of_In.
  - intros Hx. exists x. rewrite cmp_refl. split; [by apply list_elem_of_In|done].
Qed.

Lemma elem_of_bset_insert x y s : y ∈ bset_insert x s <-> y = x \/ y ∈ s.
Proof.
  induction s as [|z s IH]; simpl.
  - rewrite list_elem_of_singleton. set_solver.
  - destruct (cmp x z) eqn:E.
    + apply cmp_eq_iff in E as ->. set_solver.
    + set_solver.
    + rewrite !elem_of_cons, IH. tauto.
Qed.

Lemma bset_insert_ok x s : bset_ok s -> bset_ok (bset_insert x s).
Proof.
  unfold bset_ok. induction s as [|z s IH]; simpl; intros Hs.
  - repeat constructor.
  - apply StronglySorted_inv in Hs as [Hs Hz].
    destruct (cmp x z) eqn:E; [by constructor| |].
    + constructor; [by constructor|]. constructor; [done|].
      eapply Forall_impl; [exact Hz|]. intros a Ha. by apply (cmp_lt_trans x z a).
    + constructor; [by apply IH|]. apply Forall_forall. intros a Ha.
      apply elem_of_bset_insert in Ha as [->|Ha]; [by apply cmp_gt_lt|].
      by apply (proj1 (Forall_forall _ _) Hz).
Qed.

Lemma bset_ok_NoDup s : bset_ok s -> NoDup s.
Proof.
  induction 1 as [|x s Hs IH Hx]; constructor; [|done].
  intros Hin. apply (proj1 (Forall_forall _ _) Hx) in Hin.
  by apply cmp_lt_irrefl in Hin.
Qed.

Lemma bset_of_list_ok l : bset_ok (bset_of_list l).
Proof. induction l; simpl; [constructor|by apply bset_insert_ok]. Qed.

Lemma elem_of_bset_of_list x l : x ∈ bset_of_list l <-> x ∈ l.
Proof.
  induction l as [|y l IH]; simpl; [done|].
  rewrite elem_of_bset_insert, IH, elem_of_cons. done.
Qed.

Lemma bset_head_min x s y : bset_ok (x :: s) -> y ∈ x :: s -> leb x y = true.
Proof.
  intros Hs Hy. apply StronglySorted_inv in Hs as [_ Hx].
  apply leb_spec. apply elem_of_cons in Hy as [->|Hy]; [by right|left].
  by apply (proj1 (Forall_forall _ _) Hx).
Qed.

Lemma elem_of_bset_remove x y s :
  bset_ok s -> y ∈ bset_remove x s <-> y <> x /\ y ∈ s.
Proof.
  induction s as [|z s IH]; simpl; intros Hs; [set_solver|].
  apply StronglySorted_inv in Hs as [Hs Hz].
  destruct (cmp x z) eqn:E.
  - apply cmp_eq_iff in E as ->. rewrite elem_of_cons. split; [|naive_solver].
    intros Hy. split; [|by right]. intros ->.
    apply (proj1 (Forall_forall _ _) Hz) in Hy. by apply cmp_lt_irrefl in Hy.
  - rewrite !elem_of_cons, IH by done. split; [|naive_solver].
    intros [->|?]; [|naive_solver]. split; [|by left]. intros ->.
    by apply cmp_lt_irrefl in E.
  - rewrite !elem_of_cons, IH by done. split; [|naive_solver].
    intros [->|?]; [|naive_solver]. split; [|by left]. intros ->.
    by rewrite cmp_refl in E.
Qed.

Lemma bset_remove_ok x s : bset_ok s -> bset_ok (bset_remove x s).
Proof.
  unfold bset_ok. induction s as [|z s IH]; simpl; intros Hs; [done|].
  pose proof Hs as Hs0. apply StronglySorted_inv in Hs as [Hs Hz].
  assert (Hrec : StronglySorted (fun a b => cmp a b = Lt) (z :: bset_remove x s)).
  { constructor; [by apply IH|]. apply Forall_forall. intros a Ha.
    apply elem_of_bset_remove in Ha as [_ Ha]; [|done].
    by apply (proj1 (Forall_forall _ _) Hz). }
  by destruct (cmp x z).
Qed.

(** A strictly sorted list is determined by its elements: the canonical form
    of a set. *)
Lemma bset_ext s t : bset_ok s -> bset_ok t -> (forall x, x ∈ s <-> x ∈ t) -> s = t.
Proof.
  revert t. induction s as [|x s IH]; intros [|y t] Hs Ht Heq; [done|set_solver|set_solver|].
  assert (x = y) as <-.
  { apply leb_antisym; [eapply bset_head_min; [exact Hs|]|eapply bset_head_min; [exact Ht|]].
    - apply Heq. by left.
    - apply Heq. by left. }
  f_equal. pose proof (bset_ok_NoDup _ Hs) as [Hns _]%NoDup_cons.
  pose proof (bset_ok_NoDup _ Ht) as [Hnt _]%NoDup_cons.
  apply StronglySorted_inv in Hs as [Hs _], Ht as [Ht _].
  apply IH; [done..|]. intros z. specialize (Heq z). rewrite !elem_of_cons in Heq.
  split; intros Hz; [assert (z <> x) by congruence|assert (z <> x) by congruence]; tauto.
Qed.

Lemma bset_of_list_id s : bset_ok s -> bset_of_list s = s.
Proof.
  intros Hs. apply bset_ext; [apply bset_of_list_ok|done|].
  intros x. apply elem_of_bset_of_list.
Qed.

Lemma bset_of_list_proper l k :
  (forall x, x ∈ l <-> x ∈ k) -> bset_of_list l = bset_of_list k.
Proof.
  intros Heq. apply bset_ext; try apply bset_of_list_ok.
  intros x. by rewrite !elem_of_bset_of_list.
Qed.

Lemma bset_insert_nonempty x s : bset_insert x s <> [].
Proof. destruct s as [|y s]; simpl; [done|]. by destruct (cmp x y). Qed.
End BTreeSet.

(** ** Maps in key order *)

(** The keys of a [BTreeMap], in its order. *)
Definition sorted_keys {A} (m : gmap string A) : list string :=
  bset_of_list (map fst (map_to_list m)).

(** The values of a [BTreeMap], in its order. *)
Definition sorted_values {A} (m : gmap string A) : list A :=
  omap (M := list) (fun k => m !! k) (sorted_keys m).

Lemma elem_of_sorted_keys {A} (m : gmap string A) k : k ∈ sorted_keys m <-> is_Some (m !! k).
Proof.
  unfold sorted_keys. rewrite elem_of_bset_of_list. rewrite list_elem_of_fmap. split.
  - intros ([k' a] & -> & Hin). apply elem_of_map_to_list in Hin. eauto.
  - intros [a Ha]. exists (k, a). split; [done|]. by apply elem_of_map_to_list.
Qed.

Lemma elem_of_sorted_values {A} (m : gmap string A) a :
  a ∈ sorted_values m <-> exists k, m !! k = Some a.
Proof.
  unfold sorted_values. rewrite list_elem_of_omap. split; [naive_solver|].
  intros (k & Hk). exists k. rewrite elem_of_sorted_keys. eauto.
Qed.
