(* ===== verification/Bytes.v ===== *)
(** * Byte strings: fixed-width arrays, integer encodings, cursors, hex

    [[u8; 32]] is a byte list with its length in the type; [to_le_bytes] and
    [to_be_bytes] are written out digit by digit; the cursor functions are the
    "read at [pos] if enough bytes remain" idiom every hand-written decoder of
    the program uses; [hex::encode] and [hex::decode] are the lower-case codec. *)

From S2P Require Import Prelude Ord.

(** ** [[u8; 32]] *)

Record Bytes32 := mkBytes32 {
  b32 : bytes;
  b32_len : Nat.eqb (length b32) 32 = true
}.

Lemma b32_length (h : Bytes32) : length (b32 h) = 32.
Proof. apply Nat.eqb_eq, b32_len. Qed.

Lemma b32_inj h k : b32 h = b32 k -> h = k.
Proof.
  destruct h as [h Hh], k as [k Hk]; simpl. intros ->. f_equal.
  apply Eqdep_dec.UIP_dec. apply Bool.bool_dec.
Qed.

Global Instance Bytes32_eq_dec : EqDecision Bytes32.
Proof.
  intros h k. destruct (decide (b32 h = b32 k)) as [E|E].
  - left. by apply b32_inj.
  - right. congruence.
Defined.

(** [<[u8; 32]>::try_from(slice)] *)
Definition to_b32 (l : bytes) : option Bytes32 :=
  match decide (Nat.eqb (length l) 32 = true) with
  | left H => Some (mkBytes32 l H)
  | right _ => None
  end.

Lemma to_b32_Some l h : to_b32 l = Some h <-> b32 h = l.
Proof.
  unfold to_b32. destruct (decide _) as [E|E].
  - split; [by intros [= <-]|]. intros Hl. f_equal. by apply b32_inj.
  - split; [done|]. intros <-. by rewrite b32_len in E.
Qed.

Lemma to_b32_b32 h : to_b32 (b32 h) = Some h.
Proof. by apply to_b32_Some. Qed.

Lemma to_b32_None l : to_b32 l = None <-> length l <> 32.
Proof.
  unfold to_b32. destruct (decide _) as [E|E].
  - pose proof (proj1 (Nat.eqb_eq _ _) E). split; [done|lia].
  - split; [|done]. intros _ Hl. apply E. by apply Nat.eqb_eq.
Qed.

Global Program Instance Bytes32_countable : Countable Bytes32 := inj_countable b32 to_b32 _.
Next Obligation. apply to_b32_b32. Qed.

Global Instance Bytes32_ord : Ord Bytes32 := cmp_by b32.
Global Instance Bytes32_ord_laws : OrdLaws Bytes32.
Proof. apply cmp_by_laws. apply b32_inj. Qed.

(** [[b; 32]] *)
Program Definition fill32 (b : byte) : Bytes32 := mkBytes32 (replicate 32 b) _.
Next Obligation. intros b. reflexivity. Qed.

Definition zero32 : Bytes32 := fill32 Byte.x00.

(** ** Integer encodings *)

Fixpoint le_bytes (n : nat) (v : N) : bytes :=
  match n with
  | O => []
  | S n' => byte_of v :: le_bytes n' (v / 256)
  end.

Fixpoint of_le_bytes (l : bytes) : N :=
  match l with
  | [] => 0
  | b :: l' => Byte.to_N b + 256 * of_le_bytes l'
  end.

Definition be_bytes (n : nat) (v : N) : bytes := reverse (le_bytes n v).
Definition of_be_bytes (l : bytes) : N := of_le_bytes (reverse l).

(** [(v as u32).to_le_bytes()] and friends: [as] truncates. *)
Definition u32_le (v : N) : bytes := le_bytes 4 v.
Definition u64_le (v : N) : bytes := le_bytes 8 v.
Definition u32_be (v : N) : bytes := be_bytes 4 v.
Definition u64_be (v : N) : bytes := be_bytes 8 v.

(** The length of a buffer as the program's [usize]. *)
Definition blen {A} (l : list A) : N := N.of_nat (length l).

Lemma length_le_bytes n v : length (le_bytes n v) = n.
Proof. revert v. induction n; simpl; auto. Qed.

Lemma length_be_bytes n v : length (be_bytes n v) = n.
Proof. unfold be_bytes. by rewrite length_reverse, length_le_bytes. Qed.

Lemma length_u32_le v : length (u32_le v) = 4.
Proof. apply length_le_bytes. Qed.

Lemma length_u64_le v : length (u64_le v) = 8.
Proof. apply length_le_bytes. Qed.

Lemma of_le_bytes_le_bytes n v : of_le_bytes (le_bytes n v) = (v mod 256 ^ N.of_nat n)%N.
Proof.
  revert v. induction n as [|n IH]; intros v; simpl le_bytes; simpl of_le_bytes.
  - by rewrite N.mod_1_r.
  - rewrite to_N_byte_of, IH, Nat2N.inj_succ, N.pow_succ_r'.
    rewrite N.Div0.mod_mul_r. lia.
Qed.

Lemma le_bytes_of_le_bytes l : le_bytes (length l) (of_le_bytes l) = l.
Proof.
  induction l as [|b l IH]; simpl; [done|].
  pose proof (Byte.to_N_bounded b).
  f_equal.
  - apply to_N_inj. rewrite to_N_byte_of.
    rewrite (N.mul_comm 256), N.Div0.mod_add, N.mod_small; lia.
  - rewrite (N.mul_comm 256), N.div_add by lia.
    rewrite N.div_small by lia. by rewrite N.add_0_l.
Qed.

Lemma of_le_bytes_bound l : (of_le_bytes l < 256 ^ blen l)%N.
Proof.
  unfold blen. induction l as [|b l IH]; [simpl; lia|].
  cbn [of_le_bytes length]. rewrite Nat2N.inj_succ, N.pow_succ_r'.
  pose proof (Byte.to_N_bounded b). lia.
Qed.

Lemma le_bytes_inj n v w :
  (v < 256 ^ N.of_nat n)%N -> (w < 256 ^ N.of_nat n)%N ->
  le_bytes n v = le_bytes n w -> v = w.
Proof.
  intros Hv Hw H. apply (f_equal of_le_bytes) in H.
  rewrite !of_le_bytes_le_bytes, !N.mod_small in H; done.
Qed.

Lemma be_bytes_inj n v w :
  (v < 256 ^ N.of_nat n)%N -> (w < 256 ^ N.of_nat n)%N ->
  be_bytes n v = be_bytes n w -> v = w.
Proof. intros Hv Hw H. apply (inj reverse) in H. by apply (le_bytes_inj n). Qed.

Lemma u32_le_inj v w : (v <= u32_max)%N -> (w <= u32_max)%N -> u32_le v = u32_le w -> v = w.
Proof. intros Hv Hw. apply (le_bytes_inj 4); unfold u32_max in *; simpl; lia. Qed.
Lemma u32_be_inj v w : (v <= u32_max)%N -> (w <= u32_max)%N -> u32_be v = u32_be w -> v = w.
Proof. intros Hv Hw. apply (be_bytes_inj 4); unfold u32_max in *; simpl; lia. Qed.
Lemma u64_be_inj v w : (v <= u64_max)%N -> (w <= u64_max)%N -> u64_be v = u64_be w -> v = w.
Proof. intros Hv Hw. apply (be_bytes_inj 8); unfold u64_max in *; simpl; lia. Qed.
Lemma u64_le_inj v w : (v <= u64_max)%N -> (w <= u64_max)%N -> u64_le v = u64_le w -> v = w.
Proof. intros Hv Hw. apply (le_bytes_inj 8); unfold u64_max in *; simpl; lia. Qed.

Lemma of_u32_le v : (v <= u32_max)%N -> of_le_bytes (u32_le v) = v.
Proof.
  intros Hv. unfold u32_le. rewrite of_le_bytes_le_bytes.
  apply N.mod_small. unfold u32_max in Hv. simpl. lia.
Qed.

Lemma of_u64_be v : (v <= u64_max)%N -> of_be_bytes (u64_be v) = v.
Proof.
  intros Hv. unfold of_be_bytes, u64_be, be_bytes. rewrite reverse_involutive, of_le_bytes_le_bytes.
  apply N.mod_small. unfold u64_max in Hv. simpl. lia.
Qed.

Lemma blen_app {A} (a b : list A) : blen (a ++ b) = (blen a + blen b)%N.
Proof. unfold blen. rewrite length_app. lia. Qed.

Lemma length_u64_be v : length (u64_be v) = 8.
Proof. apply length_be_bytes. Qed.

Lemma blen_u64_be v : blen (u64_be v) = 8%N.
Proof. unfold blen. by rewrite length_u64_be. Qed.

(** ** Reading at a cursor

    [if bytes.len() >= pos + k { .. &bytes[pos..pos + k]; pos += k } else { return Err(e) }].
    The model threads the unread suffix instead of [pos]; the two views are the
    same as long as [pos <= bytes.len()], which every successful read keeps. *)

Definition take_n {E} (k : nat) (e : E) (rest : bytes) : result E (bytes * bytes) :=
  if decide (k <= length rest) then Ok (take k rest, drop k rest) else Err e.

Definition read_u32_le {E} (e : E) (rest : bytes) : result E (N * bytes) :=
  '(b, rest') ← take_n 4 e rest; Ok (of_le_bytes b, rest').

Definition read_u64_le {E} (e : E) (rest : bytes) : result E (N * bytes) :=
  '(b, rest') ← take_n 8 e rest; Ok (of_le_bytes b, rest').

(** [if bytes.len() > pos { bytes[pos] } else { return Err(e) }] *)
Definition read_u8 {E} (e : E) (rest : bytes) : result E (byte * bytes) :=
  match rest with b :: rest' => Ok (b, rest') | [] => Err e end.

Definition read_b32 {E} (e : E) (rest : bytes) : result E (Bytes32 * bytes) :=
  '(b, rest') ← take_n 32 e rest;
  match to_b32 b with Some h => Ok (h, rest') | None => Err e end.

(** A 32-bit length, then that many bytes. *)
Definition read_sized {E} (e_len e_body : E) (rest : bytes) : result E (bytes * bytes) :=
  '(n, rest1) ← read_u32_le e_len rest;
  take_n (N.to_nat n) e_body rest1.

(** [for _ in 0..n { items.push(read()?) }] *)
Fixpoint read_many {E A} (n : nat) (rd : bytes -> result E (A * bytes)) (rest : bytes)
  : result E (list A * bytes) :=
  match n with
  | O => Ok ([], rest)
  | S n' => '(x, rest1) ← rd rest;
            '(xs, rest2) ← read_many n' rd rest1;
            Ok (x :: xs, rest2)
  end.

Lemma take_n_app {E} (e : E) a b : take_n (length a) e (a ++ b) = Ok (a, b).
Proof.
  unfold take_n. rewrite decide_True by (rewrite length_app; lia).
  by rewrite take_app_length, drop_app_length.
Qed.

Lemma take_n_app' {E} (e : E) k a b : length a = k -> take_n k e (a ++ b) = Ok (a, b).
Proof. intros <-. apply take_n_app. Qed.

Lemma take_n_ok {E} (e : E) k rest a b :
  take_n k e rest = Ok (a, b) <-> rest = a ++ b /\ length a = k.
Proof.
  unfold take_n. case_decide as Hk; split.
  - intros [= <- <-]. by rewrite take_drop, length_take_le.
  - intros [-> Ha]. by rewrite <- Ha, take_app_length, drop_app_length.
  - done.
  - intros [-> Ha]. rewrite length_app in Hk. lia.
Qed.

Lemma read_u32_le_app {E} (e : E) v rest :
  (v <= u32_max)%N -> read_u32_le e (u32_le v ++ rest) = Ok (v, rest).
Proof.
  intros Hv. unfold read_u32_le, u32_le.
  rewrite (take_n_app' e 4) by apply length_le_bytes. simpl.
  f_equal. f_equal. by apply of_u32_le.
Qed.

Lemma read_u64_le_app {E} (e : E) v rest :
  (v <= u64_max)%N -> read_u64_le e (u64_le v ++ rest) = Ok (v, rest).
Proof.
  intros Hv. unfold read_u64_le, u64_le.
  rewrite (take_n_app' e 8) by apply length_le_bytes. cbn [mbind result_bind].
  f_equal. f_equal. rewrite of_le_bytes_le_bytes. apply N.mod_small.
  unfold u64_max in Hv. simpl. lia.
Qed.

Lemma read_b32_app {E} (e : E) (h : Bytes32) rest : read_b32 e (b32 h ++ rest) = Ok (h, rest).
Proof.
  unfold read_b32. rewrite (take_n_app' e 32) by apply b32_length. simpl.
  by rewrite to_b32_b32.
Qed.

Lemma read_sized_app {E} (e1 e2 : E) body rest :
  (blen body <= u32_max)%N ->
  read_sized e1 e2 (u32_le (blen body) ++ body ++ rest) = Ok (body, rest).
Proof.
  intros Hb. unfold read_sized. rewrite read_u32_le_app by done. simpl.
  unfold blen. rewrite Nat2N.id. apply take_n_app.
Qed.

Lemma read_many_app {E A} (rd : bytes -> result E (A * bytes)) (enc : A -> bytes)
    (P : A -> Prop) xs rest :
  (forall x k, P x -> rd (enc x ++ k) = Ok (x, k)) -> Forall P xs ->
  read_many (length xs) rd (flat_map enc xs ++ rest) = Ok (xs, rest).
Proof.
  intros Hrd. induction 1 as [|x xs Hx Hxs IH]; simpl; [done|].
  rewrite <- app_assoc, Hrd by done. simpl. by rewrite IH.
Qed.

(** Reading never grows the input: the loops of the decoders terminate because
    they are bounded by their counts, and each read only consumes. *)
Lemma read_many_length {E A} (rd : bytes -> result E (A * bytes)) n rest xs rest' :
  read_many n rd rest = Ok (xs, rest') -> length xs = n.
Proof.
  revert rest xs rest'. induction n as [|n IH]; simpl; intros rest xs rest' H.
  - by injection H as <- <-.
  - destruct (rd rest) as [[x r1]|]; simpl in H; [|done].
    destruct (read_many n rd r1) as [[ys r2]|] eqn:Hm; simpl in H; [|done].
    injection H as <- <-. simpl. f_equal. by apply (IH r1 ys r2).
Qed.

(** ** Lower-case hexadecimal *)

Definition hex_digit (n : N) : byte :=
  if (n <? 10)%N then byte_of (48 + n) else byte_of (87 + n).

Definition hex_value (b : byte) : option N :=
  let n := Byte.to_N b in
  if (48 <=? n)%N && (n <=? 57)%N then Some (n - 48)%N
  else if (97 <=? n)%N && (n <=? 102)%N then Some (n - 87)%N
  else if (65 <=? n)%N && (n <=? 70)%N then Some (n - 55)%N
  else None.

(** [hex::encode] *)
Definition hex_encode (l : bytes) : bytes :=
  flat_map (fun b => [hex_digit (Byte.to_N b / 16); hex_digit (Byte.to_N b mod 16)]) l.

(** [hex::decode]: an odd length or a foreign character is an error. *)
Fixpoint hex_decode (l : bytes) : option bytes :=
  match l with
  | [] => Some []
  | [_] => None
  | a :: b :: l' =>
      x ← hex_value a; y ← hex_value b; r ← hex_decode l';
      Some (byte_of (16 * x + y) :: r)
  end.

Lemma hex_value_digit n : (n < 16)%N -> hex_value (hex_digit n) = Some n.
Proof.
  intros Hn. unfold hex_value, hex_digit.
  destruct (n <? 10)%N eqn:E; [apply N.ltb_lt in E|apply N.ltb_ge in E];
    rewrite !to_N_byte_of, !N.mod_small by lia;
    repeat match goal with
    | |- context [(?a <=? ?b)%N] => destruct (N.leb_spec a b); simpl
    end; f_equal; lia.
Qed.

Lemma hex_encode_cons b l :
  hex_encode (b :: l) =
  hex_digit (Byte.to_N b / 16) :: hex_digit (Byte.to_N b mod 16) :: hex_encode l.
Proof. reflexivity. Qed.

Lemma hex_decode_encode l : hex_decode (hex_encode l) = Some l.
Proof.
  induction l as [|b l IH]; [done|]. rewrite hex_encode_cons. cbn [hex_decode].
  pose proof (Byte.to_N_bounded b) as Hb.
  assert (Byte.to_N b / 16 < 16)%N by (apply N.Div0.div_lt_upper_bound; lia).
  assert (Byte.to_N b mod 16 < 16)%N by (apply N.mod_lt; lia).
  rewrite !hex_value_digit, IH by done. simpl. f_equal. f_equal.
  rewrite <- N.div_mod by lia. apply byte_of_to_N.
Qed.

Lemma hex_encode_inj l k : hex_encode l = hex_encode k -> l = k.
Proof.
  intros H. apply (f_equal hex_decode) in H. rewrite !hex_decode_encode in H. congruence.
Qed.

Lemma length_hex_encode l : length (hex_encode l) = 2 * length l.
Proof. induction l as [|b l IH]; [done|]. rewrite hex_encode_cons. simpl in *. lia. Qed.

#[export] Hint Rewrite length_le_bytes length_be_bytes length_hex_encode b32_length : bytes.
#[export] Hint Resolve b32_inj u32_le_inj u32_be_inj u64_be_inj u64_le_inj hex_encode_inj : bytes.
