(* ===== verification/Hashing.v ===== *)
(** * Hashing: domains, tagged hashes, the 32-byte [Hash] (crate csv-hash)

    SHA-256 itself lives in the sha2 crate, so it is a parameter
    [sha256 : bytes -> Bytes32].  No injectivity is ever assumed of it (no
    function into 32 bytes is injective): separation results conclude "the
    inputs agree, or here are two inputs on which sha256 collides". *)

From S2P Require Import Prelude Ord Bytes.

Notation Hash := Bytes32.

(** ** [Hash] (hash_registry.rs) *)

Module Hash.
Definition zero : Hash := zero32.
Definition new (b : Bytes32) : Hash := b.
Definition as_bytes (h : Hash) : bytes := b32 h.

Inductive HashParseError :=
| InvalidHex
| WrongLength (expected got : nat).

(** [Hash::to_hex] *)
Definition to_hex (h : Hash) : bytes := hex_encode (b32 h).

(** [strip_prefix("0x").or_else(strip_prefix("0X")).unwrap_or(s)] *)
Definition strip_0x (s : bytes) : bytes :=
  match s with
  | a :: b :: s' =>
      if decide (a = Byte.x30 /\ (b = Byte.x78 \/ b = Byte.x58)) then s' else s
  | _ => s
  end.

(** [Hash::from_hex] *)
Definition from_hex (s : bytes) : result HashParseError Hash :=
  match hex_decode (strip_0x s) with
  | None => Err InvalidHex
  | Some l =>
      match to_b32 l with
      | Some h => Ok h
      | None => Err (WrongLength 32 (length l))
      end
  end.

(** [TryFrom<&[u8]> for Hash] *)
Definition try_from (l : bytes) : result HashParseError Hash :=
  match to_b32 l with
  | Some h => Ok h
  | None => Err (WrongLength 32 (length l))
  end.
End Hash.

(** ** Hash domains (hash_registry.rs) *)

Inductive HashDomain :=
| BitcoinSealV1 | EthereumSealV1 | SolanaSealV1 | SuiSealV1 | AptosSealV1
| CelestiaSealV1 | StarkSealV1
| TransferCommitmentV1 | CommitmentVersion | CommitmentProtocolId
| CommitmentMpcRoot | CommitmentContractId | CommitmentPrevious
| CommitmentPayload | CommitmentSeal | CommitmentDomain
| DomSanadId | DomNullifier | ReplayIdV1
| VerificationProofV1 | VerificationResult | ProofLeafV1
| StealthAddressV1 | StealthNonceV1 | EphemeralPointV1
| ProtocolVersion | MerkleCombine | MerkleLeaf
| MpcProof.

Global Instance HashDomain_eq_dec : EqDecision HashDomain.
Proof. solve_decision. Defined.

(** [HashDomain::as_bytes] / [HashDomain::tag] (every tag is ASCII, so the
    [from_utf8] of [tag] never falls back). *)
Definition domain_tag (d : HashDomain) : string :=
  match d with
  | BitcoinSealV1 => "csv.bitcoin.seal.v1"
  | EthereumSealV1 => "csv.ethereum.seal.v1"
  | SolanaSealV1 => "csv.solana.seal.v1"
  | SuiSealV1 => "csv.sui.seal.v1"
  | AptosSealV1 => "csv.aptos.seal.v1"
  | CelestiaSealV1 => "csv.celestia.seal.v1"
  | StarkSealV1 => "csv.stark.seal.v1"
  | TransferCommitmentV1 => "csv.transfer.commitment.v1"
  | CommitmentVersion => "csv.commitment.version"
  | CommitmentProtocolId => "csv.commitment.protocol_id"
  | CommitmentMpcRoot => "csv.commitment.mpc_root"
  | CommitmentContractId => "csv.commitment.contract_id"
  | CommitmentPrevious => "csv.commitment.previous"
  | CommitmentPayload => "csv.commitment.payload"
  | CommitmentSeal => "csv.commitment.seal"
  | CommitmentDomain => "csv.commitment.domain"
  | DomSanadId => "csv.sanad.id"
  | DomNullifier => "csv.nullifier"
  | ReplayIdV1 => "csv.replay.id.v1"
  | VerificationProofV1 => "csv.verification.proof.v1"
  | VerificationResult => "csv.verification.result"
  | ProofLeafV1 => "csv.proof.leaf.v1"
  | StealthAddressV1 => "csv.stealth.address.v1"
  | StealthNonceV1 => "csv.stealth.nonce.v1"
  | EphemeralPointV1 => "csv.stealth.ephemeral.v1"
  | ProtocolVersion => "csv.protocol.version"
  | MerkleCombine => "csv.merkle.combine"
  | MerkleLeaf => "csv.merkle.leaf"
  | MpcProof => "csv.mpc.proof"
  end.

Definition all_domains : list HashDomain :=
  [ BitcoinSealV1; EthereumSealV1; SolanaSealV1; SuiSealV1; AptosSealV1;
    CelestiaSealV1; StarkSealV1; TransferCommitmentV1; CommitmentVersion;
    CommitmentProtocolId; CommitmentMpcRoot; CommitmentContractId;
    CommitmentPrevious; CommitmentPayload; CommitmentSeal; CommitmentDomain;
    DomSanadId; DomNullifier; ReplayIdV1; VerificationProofV1;
    VerificationResult; ProofLeafV1; StealthAddressV1; StealthNonceV1;
    EphemeralPointV1; ProtocolVersion; MerkleCombine; MerkleLeaf; MpcProof ].

Lemma elem_of_all_domains d : d ∈ all_domains.
Proof. apply list_elem_of_In. destruct d; vm_compute; tauto. Qed.

Inductive DomainCategory :=
| CatSeal | CatCommitment | CatIdentity | CatVerification | CatStealth
| CatProtocol | CatMpc.

(** [HashDomain::category] *)
Definition category (d : HashDomain) : DomainCategory :=
  match d with
  | BitcoinSealV1 | EthereumSealV1 | SolanaSealV1 | SuiSealV1 | AptosSealV1
  | CelestiaSealV1 | StarkSealV1 => CatSeal
  | TransferCommitmentV1 | CommitmentVersion | CommitmentProtocolId
  | CommitmentMpcRoot | CommitmentContractId | CommitmentPrevious
  | CommitmentPayload | CommitmentSeal | CommitmentDomain => CatCommitment
  | DomSanadId | DomNullifier | ReplayIdV1 => CatIdentity
  | VerificationProofV1 | VerificationResult | ProofLeafV1 => CatVerification
  | StealthAddressV1 | StealthNonceV1 | EphemeralPointV1 => CatStealth
  | ProtocolVersion | MerkleCombine | MerkleLeaf => CatProtocol
  | MpcProof => CatMpc
  end.

(** Is [a] a prefix of [b]? *)
Fixpoint prefixb (a b : bytes) : bool :=
  match a, b with
  | [], _ => true
  | x :: a', y :: b' => bool_decide (x = y) && prefixb a' b'
  | _ :: _, [] => false
  end.

Lemma prefixb_app a b x y : a ++ x = b ++ y -> prefixb a b || prefixb b a = true.
Proof.
  revert b. induction a as [|c a IH]; intros [|d b]; simpl; try done.
  intros [= -> H]. rewrite !bool_decide_true by done. simpl. by apply IH.
Qed.

(** ** Tagged hashes (tagged_hash.rs, domain_hash.rs) *)

Definition CSV_TAG_PREFIX : string := "urn:lnp-bp:csv:".

(** ** Collisions

    Two different strings of a given list with one hash.  The list is always explicit: it names
    the strings that the code hashes on the values a theorem compares, so that "equal, or a
    collision among them" says something of every hash function and of every pair of values. *)
Definition collision_in (h : bytes -> Bytes32) (l : list bytes) : Prop :=
  exists x y, x ∈ l /\ y ∈ l /\ x <> y /\ h x = h y.

Lemma collision_in_mono h l k : l ⊆ k -> collision_in h l -> collision_in h k.
Proof. intros Hs (x & y & Hx & Hy & H). exists x, y. auto. Qed.

Lemma collision_in_intro h l x y : x ∈ l -> y ∈ l -> x <> y -> h x = h y -> collision_in h l.
Proof. intros. by exists x, y. Qed.

Lemma hash_binds h l x y : x ∈ l -> y ∈ l -> h x = h y -> x = y \/ collision_in h l.
Proof. intros Hx Hy H. destruct (decide (x = y)); [by left|right]. by apply (collision_in_intro h l x y). Qed.

(** A collision among no strings but one is none. *)
Lemma no_collision_in_single h x : ~ collision_in h [x].
Proof. intros (a & b & ->%list_elem_of_singleton & ->%list_elem_of_singleton & H & _). done. Qed.

(** What is hashed for an entry is among what is hashed for a list. *)
Lemma flat_map_sub {A} (f : A -> list bytes) x l : x ∈ l -> f x ⊆ flat_map f l.
Proof. intros Hx b Hb. apply list_elem_of_In, in_flat_map. exists x. by rewrite <- !list_elem_of_In. Qed.

(** [pick]: membership in a list written with conses, appends, maps and flat maps.
    [hash_inj H]: from the equality [H] of two hashes to that of what was hashed, the collision
    being the one of the goal. *)
Create HintDb hashed.
Ltac pick :=
  lazymatch goal with
  | |- ?x ∈ ?x :: _ => apply list_elem_of_here
  | |- _ ∈ _ :: _ => apply list_elem_of_further; pick
  | |- _ ∈ _ ++ _ => apply elem_of_app; first [left; pick | right; pick]
  | |- _ ∈ [] => fail
  | H : ?x ∈ ?l |- ?x ∈ ?l => exact H
  | |- _ => first
      [ match goal with H : _ ⊆ ?l |- _ ∈ ?l => apply H; pick end
      | progress autounfold with hashed; pick
      | solve [eauto with hashed] ]
  end.

(** The strings hashed by a function that fails before it hashes. *)
Definition ok_list {E A} (r : result E A) : list A := match r with Ok a => [a] | Err _ => [] end.

Section Hashing.
Variable sha256 : bytes -> Bytes32.

(** [tagged_hash(domain, data)]: sha256(tag || data). *)
Definition tagged_preimage (d : HashDomain) (data : bytes) : bytes := as_bytes (domain_tag d) ++ data.
Definition tagged_hash (d : HashDomain) (data : bytes) : Hash :=
  sha256 (tagged_preimage d data).

(** [tagged_hash_str(tag, data)]: sha256(sha256(tag) || sha256(tag) || data). *)
Definition tagged_str_preimage (tag : bytes) (data : bytes) : bytes :=
  let tag_hash := b32 (sha256 tag) in tag_hash ++ tag_hash ++ data.
Definition tagged_hash_str (tag : bytes) (data : bytes) : Bytes32 :=
  sha256 (tagged_str_preimage tag data).

(** [csv_tagged_hash(name, data)], and the two strings it hashes *)
Definition csv_tag (name : bytes) : bytes := as_bytes CSV_TAG_PREFIX ++ name.
Definition csv_preimage (name : bytes) (data : bytes) : bytes := tagged_str_preimage (csv_tag name) data.
Definition csv_tagged_hash (name : bytes) (data : bytes) : Bytes32 :=
  tagged_hash_str (csv_tag name) data.

Definition csv_hashed (name : bytes) (data : bytes) : list bytes := [csv_tag name; csv_preimage name data].

(** [DomainSeparatedHash::<D>::hash(payload)], with [D::DOMAIN] as an argument. *)
Definition domain_hash (domain : string) (payload : bytes) : Hash :=
  csv_tagged_hash (as_bytes domain) payload.
Definition domain_preimage (domain : string) (payload : bytes) : bytes := csv_preimage (as_bytes domain) payload.

(** The separator loop of [hash_multiple]: a zero byte after every payload but
    the last. *)
Fixpoint join_payloads (payloads : list bytes) : bytes :=
  match payloads with
  | [] => []
  | [p] => p
  | p :: ps => p ++ [Byte.x00] ++ join_payloads ps
  end.

(** [DomainSeparatedHash::<D>::hash_multiple(payloads)] *)
Definition domain_hash_multiple (domain : string) (payloads : list bytes) : Hash :=
  csv_tagged_hash (as_bytes domain) (join_payloads payloads).
Definition multiple_preimage (domain : string) (payloads : list bytes) : bytes :=
  csv_preimage (as_bytes domain) (join_payloads payloads).

(** [Hash::sha256], [Hash::combine] *)
Definition hash_sha256 (data : bytes) : Hash := sha256 data.
Definition hash_combine (left right : Hash) : Hash :=
  tagged_hash MerkleCombine (b32 left ++ b32 right).

(** ** Separation *)

Lemma domain_tags_prefix_free d1 d2 :
  d1 <> d2 -> prefixb (as_bytes (domain_tag d1)) (as_bytes (domain_tag d2)) = false.
Proof.
  assert (Hall : forallb (fun a => forallb (fun b =>
    bool_decide (a = b)
    || negb (prefixb (as_bytes (domain_tag a)) (as_bytes (domain_tag b)))) all_domains)
    all_domains = true) by (vm_compute; reflexivity).
  intros Hne. rewrite forallb_forall in Hall.
  specialize (Hall d1 (proj1 (list_elem_of_In _ _) (elem_of_all_domains d1))).
  rewrite forallb_forall in Hall.
  specialize (Hall d2 (proj1 (list_elem_of_In _ _) (elem_of_all_domains d2))).
  rewrite bool_decide_false in Hall by done. simpl in Hall.
  by apply negb_true_iff in Hall.
Qed.

Lemma tagged_preimage_inj d1 d2 x y :
  tagged_preimage d1 x = tagged_preimage d2 y -> d1 = d2 /\ x = y.
Proof.
  unfold tagged_preimage. intros E. destruct (decide (d1 = d2)) as [->|Hne].
  - split; [done|]. by apply app_inv_head in E.
  - exfalso. apply prefixb_app in E.
    rewrite (domain_tags_prefix_free d1 d2), (domain_tags_prefix_free d2 d1) in E; done.
Qed.

(** A tagged hash determines the domain and the data. *)
Lemma tagged_hash_binds l d1 d2 x y : tagged_preimage d1 x ∈ l -> tagged_preimage d2 y ∈ l ->
  tagged_hash d1 x = tagged_hash d2 y -> (d1 = d2 /\ x = y) \/ collision_in sha256 l.
Proof.
  intros Hx Hy H. destruct (hash_binds _ _ _ _ Hx Hy H) as [E|?]; [left|by right].
  by apply tagged_preimage_inj.
Qed.

Lemma tagged_hash_same l d x y : tagged_preimage d x ∈ l -> tagged_preimage d y ∈ l ->
  tagged_hash d x = tagged_hash d y -> x = y \/ collision_in sha256 l.
Proof. intros Hx Hy H. destruct (tagged_hash_binds l d d x y Hx Hy H) as [[_ ?]|?]; auto. Qed.

Lemma csv_preimage_inj n x y : csv_preimage n x = csv_preimage n y -> x = y.
Proof. unfold csv_preimage, tagged_str_preimage. intros E%app_inv_head. by apply app_inv_head in E. Qed.

(** Under one name the hash determines the data; the names differ only if their tags collide. *)
Lemma csv_tagged_hash_binds l n x y : csv_preimage n x ∈ l -> csv_preimage n y ∈ l ->
  csv_tagged_hash n x = csv_tagged_hash n y -> x = y \/ collision_in sha256 l.
Proof.
  intros Hx Hy H. destruct (hash_binds _ _ _ _ Hx Hy H) as [E|?]; [left|by right].
  by apply csv_preimage_inj in E.
Qed.

Lemma domain_hash_binds l d x y : domain_preimage d x ∈ l -> domain_preimage d y ∈ l ->
  domain_hash d x = domain_hash d y -> x = y \/ collision_in sha256 l.
Proof. apply csv_tagged_hash_binds. Qed.

Lemma domain_hash_multiple_binds l d ps qs :
  multiple_preimage d ps ∈ l -> multiple_preimage d qs ∈ l ->
  domain_hash_multiple d ps = domain_hash_multiple d qs ->
  join_payloads ps = join_payloads qs \/ collision_in sha256 l.
Proof. apply csv_tagged_hash_binds. Qed.

Lemma tagged_hash_str_binds l tag x y : tagged_str_preimage tag x ∈ l -> tagged_str_preimage tag y ∈ l ->
  tagged_hash_str tag x = tagged_hash_str tag y -> x = y \/ collision_in sha256 l.
Proof.
  intros Hx Hy H. destruct (hash_binds _ _ _ _ Hx Hy H) as [E|?]; [left|by right].
  unfold tagged_str_preimage in E. apply app_inv_head in E. by apply app_inv_head in E.
Qed.

Lemma csv_names_bind l n1 n2 x y : csv_preimage n1 x ∈ l -> csv_preimage n2 y ∈ l ->
  csv_tag n1 ∈ l -> csv_tag n2 ∈ l ->
  csv_tagged_hash n1 x = csv_tagged_hash n2 y -> (n1 = n2 /\ x = y) \/ collision_in sha256 l.
Proof.
  intros Hx Hy H1 H2 H. destruct (hash_binds _ _ _ _ Hx Hy H) as [E|?]; [|by right].
  unfold csv_preimage, tagged_str_preimage in E.
  apply app_eq_length_inj in E as [E1 E]; [|by rewrite !b32_length].
  apply app_eq_length_inj in E as [_ E]; [|by rewrite !b32_length].
  apply b32_inj in E1. destruct (hash_binds _ _ _ _ H1 H2 E1) as [E3|?]; [left|by right].
  split; [|done]. by apply app_inv_head in E3.
Qed.

(** The joined payload list is not recoverable: a payload that contains the
    separator byte is read back as two. *)
Lemma join_payloads_ambiguous a b :
  join_payloads [a ++ [Byte.x00] ++ b] = join_payloads [a; b].
Proof. reflexivity. Qed.

(** Lists of payloads without the separator byte are recovered when they have
    the same number of payloads. *)
Lemma join_payloads_inj ps qs :
  Forall (fun p => Byte.x00 ∉ p) ps -> Forall (fun q => Byte.x00 ∉ q) qs ->
  length ps = length qs -> join_payloads ps = join_payloads qs -> ps = qs.
Proof.
  intros Hp. revert qs. induction Hp as [|p ps Hp Hps IH]; intros [|q qs] Hq Hl Hj; try done.
  apply Forall_cons in Hq as [Hq Hqs]. simpl in Hl.
  destruct ps as [|p' ps], qs as [|q' qs]; try done.
  - simpl in Hj. by subst.
  - change (p ++ Byte.x00 :: join_payloads (p' :: ps)
            = q ++ Byte.x00 :: join_payloads (q' :: qs)) in Hj.
    apply sep_app_inj in Hj as [-> E]; [|done..].
    f_equal. apply IH; [done|simpl in *; lia|done].
Qed.
End Hashing.

#[export] Hint Unfold csv_hashed : hashed.

(** [hash_names H]: as [hash_inj], for hashes under names that differ. *)
Ltac hash_names H :=
  lazymatch goal with
  | |- context [collision_in ?h ?l] =>
      apply (csv_names_bind h l) in H;
      [destruct H as [[H _]|H]; [done|solve [exact H | by right | auto 12]]|pick|pick|pick|pick]
  end.
Ltac hash_inj H :=
  let use lem := apply lem in H; [destruct H as [H|H]; [|solve [by right | auto 12]]|pick|pick] in
  lazymatch goal with
  | |- context [collision_in ?h ?l] =>
      lazymatch type of H with
      | tagged_hash _ ?d _ = tagged_hash _ ?d _ => use (tagged_hash_same h l)
      | tagged_hash _ _ _ = _ => use (tagged_hash_binds h l)
      | csv_tagged_hash _ _ _ = _ => use (csv_tagged_hash_binds h l)
      | domain_hash _ _ _ = _ => use (domain_hash_binds h l)
      | domain_hash_multiple _ _ _ = _ => use (domain_hash_multiple_binds h l)
      | tagged_hash_str _ _ _ = _ => use (tagged_hash_str_binds h l)
      | _ => use (hash_binds h l)
      end
  end.

(** A concrete stand-in for sha256, used only to evaluate the witnesses: a
    small polynomial checksum, little-endian in 32 bytes. *)
Definition toy_state (l : bytes) : N :=
  fold_left (fun acc b => (acc * 259 + Byte.to_N b + 1)
                          mod 2147483647)%N
            l 7%N.

Program Definition toy_hash (l : bytes) : Bytes32 := mkBytes32 (le_bytes 32 (toy_state l)) _.
Next Obligation. intros l. apply Nat.eqb_eq, length_le_bytes. Qed.

(** Hex round trip of [Hash]: printing and parsing back, with or without the
    [0x] prefix. *)
Lemma strip_0x_hex h : Hash.strip_0x (Hash.to_hex h) = Hash.to_hex h.
Proof.
  unfold Hash.to_hex. destruct h as [[|a [|b l]] Hl]; try done.
  cbn [b32]. rewrite !hex_encode_cons. cbn [Hash.strip_0x].
  rewrite decide_False; [done|]. intros [_ Hx].
  assert (Hd : forall n, (n < 16)%N -> hex_digit n <> Byte.x78 /\ hex_digit n <> Byte.x58).
  { intros n Hn. split; intros E.
    all: pose proof (hex_value_digit n Hn) as Hv; rewrite E in Hv; vm_compute in Hv; discriminate. }
  assert (Byte.to_N a mod 16 < 16)%N by (apply N.mod_lt; lia).
  specialize (Hd _ H). naive_solver.
Qed.

Lemma from_hex_to_hex h : Hash.from_hex (Hash.to_hex h) = Ok h.
Proof.
  unfold Hash.from_hex. rewrite strip_0x_hex. unfold Hash.to_hex.
  by rewrite hex_decode_encode, to_b32_b32.
Qed.

#[export] Hint Resolve from_hex_to_hex : bytes.
