(* ===== verification/Dag.v ===== *)
(** * State-transition DAG segments (csv-hash/src/dag.rs)

    Nodes and segments, their canonical identities, the relation checks, and the
    canonical order: Kahn's algorithm with a [BTreeSet] of ready nodes.  The
    specification of the order is [greedy]: every emitted identifier is the
    least one whose resolvable parents have all been emitted.  It mentions the
    nodes only as a set, so the canonical order does not depend on the order the
    nodes were supplied in. *)

From S2P Require Import Prelude Ord Bytes Hashing.
From Stdlib Require Import Sorting.Sorted.

Definition DAG_CONTENT_TAG : string := "dag-content-v2".
Definition DAG_EDGE_TAG : string := "dag-edge-v2".
Definition DAG_NODE_TAG : string := "dag-node-v2".
Definition DAG_ROOT_TAG : string := "dag-root-v2".

Inductive DagStructureError :=
| EmptySegment
| DuplicateNodeId (node : Hash)
| NodeIdMismatch (declared recomputed : Hash)
| SelfParent (node : Hash)
| DuplicateParent (node parent : Hash)
| MissingParent (node parent : Hash)
| Cycle (node : Hash)
| NoRoot
| NonCanonicalOrder (position : nat) (expected found : Hash)
| RootMismatch (declared recomputed : Hash).

Record DAGNode := mkNode {
  node_id : Hash;
  bytecode : bytes;
  signatures : list bytes;
  witnesses : list bytes;
  parents : list Hash
}.

Record DAGSegment := mkSegment {
  nodes : list DAGNode;
  root_commitment : Hash
}.

Global Instance DAGNode_eq_dec : EqDecision DAGNode.
Proof. solve_decision. Defined.

(** [for item in items { data.extend((item.len() as u32).to_le_bytes()); data.extend(item) }] *)
Definition sized (b : bytes) : bytes := u32_le (blen b) ++ b.
Definition sized_list (l : list bytes) : bytes := u32_le (blen l) ++ flat_map sized l.
Definition hash_list (l : list Hash) : bytes := u32_le (blen l) ++ flat_map b32 l.

Section Dag.
Variable sha256 : bytes -> Bytes32.
Local Notation csv_hash tag := (csv_tagged_hash sha256 (as_bytes tag)).

(** ** Identities *)

Definition content_bytes (n : DAGNode) : bytes :=
  sized (bytecode n) ++ sized_list (signatures n) ++ sized_list (witnesses n).

(** [DAGNode::content_digest], [edge_digest], [canonical_id] *)
Definition content_digest (n : DAGNode) : Hash := csv_hash DAG_CONTENT_TAG (content_bytes n).
Definition edge_digest (n : DAGNode) : Hash := csv_hash DAG_EDGE_TAG (hash_list (parents n)).
Definition canonical_id (n : DAGNode) : Hash :=
  csv_hash DAG_NODE_TAG (b32 (content_digest n) ++ b32 (edge_digest n)).

(** What is hashed for a node: its contents, its parents and the two digests. *)
Definition node_hashed (n : DAGNode) : list bytes :=
  [csv_preimage sha256 (as_bytes DAG_CONTENT_TAG) (content_bytes n);
   csv_preimage sha256 (as_bytes DAG_EDGE_TAG) (hash_list (parents n));
   csv_preimage sha256 (as_bytes DAG_NODE_TAG) (b32 (content_digest n) ++ b32 (edge_digest n))].

(** [DAGNode::sealed] *)
Definition node_sealed (bc : bytes) (sigs wits : list bytes) (ps : list Hash) : DAGNode :=
  let node := mkNode Hash.zero bc sigs wits ps in
  mkNode (canonical_id node) bc sigs wits ps.

(** [DAGNode::verify_identity] *)
Definition verify_identity (n : DAGNode) : result DagStructureError unit :=
  let recomputed := canonical_id n in
  if decide (node_id n = recomputed) then Ok tt
  else Err (NodeIdMismatch (node_id n) recomputed).

(** ** Kahn's algorithm *)

(** [index_of]: the first node with that identifier. *)
Definition index_of (ns : list DAGNode) (h : Hash) : option nat :=
  fst <$> list_find (fun n => node_id n = h) ns.

(** [children[p]]: the indices pushed there, one per resolvable edge. *)
Definition node_children (ns : list DAGNode) (p : nat) (indexed : nat * DAGNode) : list nat :=
  flat_map (fun parent => if decide (index_of ns parent = Some p) then [indexed.1] else [])
           (parents indexed.2).
Definition children (ns : list DAGNode) (p : nat) : list nat :=
  flat_map (node_children ns p) (imap pair ns).

(** [pending[i]]: the resolvable parents of node [i]. *)
Definition resolvable (ns : list DAGNode) (n : DAGNode) : nat :=
  length (filter (fun p => is_Some (index_of ns p)) (parents n)).
Definition initial_pending (ns : list DAGNode) : list nat := map (resolvable ns) ns.

Definition id_at (ns : list DAGNode) (i : nat) : Hash :=
  match ns !! i with Some n => node_id n | None => Hash.zero end.

(** The ready set: [BTreeSet<(Hash, usize)>]. *)
Definition initial_ready (ns : list DAGNode) : list (Hash * nat) :=
  bset_of_list (flat_map (fun '(i, c) => if c =? 0 then [(id_at ns i, i)] else [])
                         (imap pair (initial_pending ns))).

Record Kahn := mkKahn {
  k_ready : list (Hash * nat);
  k_pending : list nat;
  k_order : list nat
}.

(** [for child in &children[index] { .. }] *)
Definition visit_child (ns : list DAGNode) (st : list nat * list (Hash * nat)) (c : nat)
  : list nat * list (Hash * nat) :=
  let '(pending, ready) := st in
  let k := default 0 (pending !! c) - 1 in
  let pending' := <[c := k]> pending in
  (pending', if k =? 0 then bset_insert (id_at ns c, c) ready else ready).

Fixpoint kahn_loop (fuel : nat) (ns : list DAGNode) (st : Kahn) : Kahn :=
  match fuel with
  | O => st
  | S fuel' =>
      match k_ready st with
      | [] => st
      | (h, index) :: _ =>
          let ready := bset_remove (id_at ns index, index) (k_ready st) in
          let '(pending', ready') :=
            fold_left (visit_child ns) (children ns index) (k_pending st, ready) in
          kahn_loop fuel' ns (mkKahn ready' pending' (k_order st ++ [index]))
      end
  end.

(** [smallest]: the least identifier among the candidates. *)
Definition smallest (ns : list DAGNode) (candidates : list nat) : Hash :=
  match bset_of_list (map (id_at ns) candidates) with h :: _ => h | [] => Hash.zero end.

(** [topological_order] *)
Definition topological_order (ns : list DAGNode) : result DagStructureError (list nat) :=
  match ns with
  | [] => Ok []
  | _ =>
      let ready := initial_ready ns in
      match ready with
      | [] => Err (Cycle (smallest ns (seq 0 (length ns))))
      | _ =>
          let st := kahn_loop (length ns) ns (mkKahn ready (initial_pending ns) []) in
          if length (k_order st) =? length ns then Ok (k_order st)
          else Err (Cycle (smallest ns
                 (filter (fun i => i ∉ k_order st) (seq 0 (length ns)))))
      end
  end.

(** ** Relations *)

(** The duplicate-identifier loop of [check_relations]. *)
Fixpoint check_unique_ids (seen : list Hash) (ns : list DAGNode)
  : result DagStructureError unit :=
  match ns with
  | [] => Ok tt
  | n :: ns' =>
      if decide (node_id n ∈ seen) then Err (DuplicateNodeId (node_id n))
      else check_unique_ids (node_id n :: seen) ns'
  end.

(** The inner loop over the parents of one node. *)
Fixpoint check_parents (ids : list Hash) (id : Hash) (seen : list Hash) (ps : list Hash)
  : result DagStructureError unit :=
  match ps with
  | [] => Ok tt
  | p :: ps' =>
      if decide (p = id) then Err (SelfParent id)
      else if decide (p ∈ seen) then Err (DuplicateParent id p)
      else if decide (p ∈ ids) then check_parents ids id (p :: seen) ps'
      else Err (MissingParent id p)
  end.

(** [DAGSegment::check_relations] *)
Definition check_relations (s : DAGSegment) : result DagStructureError unit :=
  match nodes s with
  | [] => Err EmptySegment
  | _ =>
      _ ← check_unique_ids [] (nodes s);
      try_each (fun n => check_parents (map node_id (nodes s)) (node_id n) [] (parents n))
               (nodes s)
  end.

(** [DAGSegment::roots] *)
Definition roots (s : DAGSegment) : list Hash :=
  map node_id (filter (fun n => parents n = []) (nodes s)).

(** [DAGSegment::checked_order] *)
Definition checked_order (s : DAGSegment) : result DagStructureError (list nat) :=
  _ ← check_relations s;
  order ← topological_order (nodes s);
  match roots s with [] => Err NoRoot | _ => Ok order end.

(** [DAGSegment::validate_relations] *)
Definition validate_relations (s : DAGSegment) : result DagStructureError unit :=
  _ ← checked_order s; Ok tt.

(** [DAGSegment::canonical_order] *)
Definition canonical_order (s : DAGSegment) : result DagStructureError (list Hash) :=
  order ← checked_order s; Ok (map (id_at (nodes s)) order).

(** [root_of], [root_of_nodes] *)
Definition root_of (order : list Hash) : Hash := csv_hash DAG_ROOT_TAG (hash_list order).
Definition canonical_id_at (ns : list DAGNode) (i : nat) : Hash :=
  match ns !! i with Some n => canonical_id n | None => Hash.zero end.
Definition root_of_nodes (ns : list DAGNode) (order : list nat) : Hash :=
  csv_hash DAG_ROOT_TAG (hash_list (map (canonical_id_at ns) order)).

(** [DAGSegment::canonical_root] *)
Definition canonical_root (s : DAGSegment) : result DagStructureError Hash :=
  order ← checked_order s; Ok (root_of_nodes (nodes s) order).

(** The positional loop of [validate_structure]. *)
Definition check_position (ns : list DAGNode) (pi : nat * nat) : result DagStructureError unit :=
  let '(position, index) := pi in
  let expected := id_at ns index in
  let found := id_at ns position in
  if decide (found = expected) then Ok tt
  else Err (NonCanonicalOrder position expected found).

(** [DAGSegment::validate_structure] *)
Definition validate_structure (s : DAGSegment) : result DagStructureError unit :=
  order ← checked_order s;
  _ ← try_each verify_identity (nodes s);
  _ ← try_each (check_position (nodes s)) (imap pair order);
  let recomputed := root_of_nodes (nodes s) order in
  if decide (root_commitment s = recomputed) then Ok tt
  else Err (RootMismatch (root_commitment s) recomputed).

(** [DAGSegment::sealed] *)
Definition segment_sealed (ns : list DAGNode) : result DagStructureError DAGSegment :=
  match ns with
  | [] => Err EmptySegment
  | _ =>
      let ns' := map (fun n => node_sealed (bytecode n) (signatures n) (witnesses n) (parents n)) ns in
      let present := map node_id ns' in
      _ ← try_each (fun n => try_each (fun p =>
            if decide (p ∈ present) then Ok tt else Err (MissingParent (node_id n) p))
            (parents n)) ns';
      order ← topological_order ns';
      let ordered := omap (fun i => ns' !! i) order in
      let segment := mkSegment ordered (root_of_nodes ordered (seq 0 (length ordered))) in
      _ ← validate_structure segment;
      Ok segment
  end.
End Dag.

(** ** Lemmas: counting *)

Definition cnt (c : nat) (l : list nat) : nat := length (filter (fun x => x = c) l).

Lemma cnt_nil c : cnt c [] = 0.
Proof. done. Qed.

Lemma cnt_cons c d l : cnt c (d :: l) = (if decide (d = c) then 1 else 0) + cnt c l.
Proof. unfold cnt. rewrite filter_cons. by case_decide. Qed.

Lemma cnt_app c l k : cnt c (l ++ k) = cnt c l + cnt c k.
Proof. unfold cnt. by rewrite filter_app, length_app. Qed.

Lemma cnt_pos c l : 0 < cnt c l <-> c ∈ l.
Proof.
  induction l as [|d l IH].
  { rewrite cnt_nil. split; [lia|]. by intros ?%not_elem_of_nil. }
  rewrite cnt_cons, elem_of_cons. case_decide as Hd; split.
  - auto.
  - lia.
  - intros ?. right. apply IH. lia.
  - intros [?|Hin]; [congruence|]. apply IH in Hin. lia.
Qed.

Lemma length_filter_split {A} (P Q R : A -> Prop)
    `{!forall x, Decision (P x), !forall x, Decision (Q x), !forall x, Decision (R x)}
    (l : list A) :
  (forall x, x ∈ l -> (P x <-> Q x \/ R x)) -> (forall x, x ∈ l -> ~ (Q x /\ R x)) ->
  length (filter P l) = length (filter Q l) + length (filter R l).
Proof.
  induction l as [|x l IH]; intros HP HD; [done|].
  rewrite !filter_cons.
  specialize (IH (fun y Hy => HP y (list_elem_of_further _ _ _ Hy))
                 (fun y Hy => HD y (list_elem_of_further _ _ _ Hy))).
  specialize (HP x (list_elem_of_here _ _)). specialize (HD x (list_elem_of_here _ _)).
  repeat case_decide; simpl; try lia; tauto.
Qed.

(** ** Lemmas: indices *)

Lemma index_of_Some ns h i :
  index_of ns h = Some i -> exists n, ns !! i = Some n /\ node_id n = h.
Proof.
  unfold index_of. intros H. apply fmap_Some in H as ([j n] & Hf & ->).
  apply list_find_Some in Hf as (Hl & He & _). eauto.
Qed.

Lemma index_of_is_Some ns h : is_Some (index_of ns h) <-> h ∈ map node_id ns.
Proof.
  unfold index_of. rewrite fmap_is_Some. split.
  - intros [[i n] Hf]. apply list_find_Some in Hf as (Hl & <- & _).
    apply list_elem_of_fmap. exists n. split; [done|]. by eapply list_elem_of_lookup_2.
  - intros Hin. apply list_elem_of_fmap in Hin as (n & -> & Hn).
    by apply (list_find_elem_of _ _ n).
Qed.

Lemma index_of_lt ns h i : index_of ns h = Some i -> i < length ns.
Proof. intros (n & Hn & _)%index_of_Some. by eapply lookup_lt_Some. Qed.

Lemma index_of_unique ns i n :
  NoDup (map node_id ns) -> ns !! i = Some n -> index_of ns (node_id n) = Some i.
Proof.
  intros Hnd Hn.
  assert (is_Some (index_of ns (node_id n))) as [j Hj].
  { apply index_of_is_Some. apply list_elem_of_fmap. exists n. split; [done|].
    by eapply list_elem_of_lookup_2. }
  rewrite Hj. f_equal. apply index_of_Some in Hj as (m & Hm & He).
  eapply (NoDup_lookup (map node_id ns)); [done| |].
  - rewrite list_lookup_fmap. unfold fmap, option_fmap. rewrite Hm. simpl. done.
  - rewrite list_lookup_fmap, Hn. simpl. by rewrite He.
Qed.

Lemma id_at_lookup ns i n : ns !! i = Some n -> id_at ns i = node_id n.
Proof. unfold id_at. by intros ->. Qed.

(** ** Lemmas: unmet parents *)

Section Unmet.
Variable ns : list DAGNode.

Definition parents_at (i : nat) : list Hash :=
  match ns !! i with Some n => parents n | None => [] end.

Definition is_unmet (order : list nat) (p : Hash) : Prop :=
  match index_of ns p with Some j => j ∉ order | None => False end.

Global Instance is_unmet_dec order p : Decision (is_unmet order p).
Proof. unfold is_unmet. destruct (index_of ns p); apply _. Defined.

(** The parents of [i] that resolve inside the segment and are not in [order]. *)
Definition unmet (order : list nat) (i : nat) : nat :=
  length (filter (is_unmet order) (parents_at i)).

Lemma unmet_zero order i :
  unmet order i = 0 <->
  forall p j, p ∈ parents_at i -> index_of ns p = Some j -> j ∈ order.
Proof.
  unfold unmet. split.
  - intros Hz p j Hp Hj. destruct (decide (j ∈ order)) as [|Hn]; [done|].
    apply length_zero_iff_nil in Hz.
    assert (Hin : p ∈ filter (is_unmet order) (parents_at i)).
    { apply list_elem_of_filter. unfold is_unmet. by rewrite Hj. }
    rewrite Hz in Hin. set_solver.
  - intros Hall. apply length_zero_iff_nil.
    destruct (filter _ _) as [|p l] eqn:E; [done|].
    assert (Hin : p ∈ p :: l) by set_solver. rewrite <- E in Hin.
    apply list_elem_of_filter in Hin as [Hp Hin]. unfold is_unmet in Hp.
    destruct (index_of ns p) as [j|] eqn:Ej; [|done].
    exfalso. apply Hp. by apply (Hall p).
Qed.

Lemma unmet_set order order' i :
  (forall j, j ∈ order <-> j ∈ order') -> unmet order i = unmet order' i.
Proof.
  intros Heq. unfold unmet. f_equal. apply list_filter_iff. intros p.
  unfold is_unmet. destruct (index_of ns p); [|done]. by rewrite Heq.
Qed.

Lemma unmet_nil i n : ns !! i = Some n -> unmet [] i = resolvable ns n.
Proof.
  intros Hn. unfold unmet, resolvable, parents_at. rewrite Hn. f_equal.
  apply list_filter_iff. intros p. unfold is_unmet. destruct (index_of ns p) as [j|].
  - split; [eauto|set_solver].
  - split; [done|]. by intros [? ?].
Qed.

(** The edges into [i] from [p]: what the loop subtracts when [p] is emitted. *)
Lemma cnt_node_children p i j n :
  cnt i (node_children ns p (j, n))
  = if decide (j = i)
    then length (filter (fun q => index_of ns q = Some p) (parents n)) else 0.
Proof.
  unfold node_children. simpl. induction (parents n) as [|q l IH]; simpl.
  - by case_decide.
  - rewrite cnt_app, IH, filter_cons. clear IH.
    destruct (decide (index_of ns q = Some p)).
    + rewrite cnt_cons, cnt_nil. by case_decide.
    + rewrite cnt_nil. by case_decide.
Qed.

Lemma cnt_children_gen p i off l :
  cnt i (flat_map (node_children ns p) (imap (fun k n => (off + k, n)) l))
  = if decide (off <= i) then
      match l !! (i - off) with
      | Some n => length (filter (fun q => index_of ns q = Some p) (parents n))
      | None => 0
      end
    else 0.
Proof.
  revert off. induction l as [|n l IH]; intros off.
  - simpl. rewrite cnt_nil. by case_decide.
  - rewrite imap_cons. cbn [flat_map]. rewrite cnt_app, cnt_node_children.
    replace (imap ((fun k n0 => (off + k, n0)) ∘ S) l)
      with (imap (fun k n0 => (S off + k, n0)) l)
      by (apply imap_ext; intros; simpl; f_equal; lia).
    rewrite IH. destruct (decide (off + 0 = i)) as [<-|Hne].
    + rewrite decide_False by lia. rewrite decide_True by lia.
      replace (off + 0 - off) with 0 by lia. simpl. lia.
    + destruct (decide (S off <= i)) as [Hle|Hgt].
      * rewrite decide_True by lia. replace (i - off) with (S (i - S off)) by lia. done.
      * by rewrite decide_False by lia.
Qed.

Lemma cnt_children p i :
  cnt i (children ns p)
  = length (filter (fun q => index_of ns q = Some p) (parents_at i)).
Proof.
  unfold children. rewrite <- (imap_ext (fun k n => (0 + k, n)) pair) by done.
  rewrite cnt_children_gen, decide_True by lia. rewrite Nat.sub_0_r.
  unfold parents_at. by destruct (ns !! i).
Qed.

Lemma children_lt p c : c ∈ children ns p -> c < length ns.
Proof.
  intros Hc. apply cnt_pos in Hc. rewrite cnt_children in Hc. unfold parents_at in Hc.
  destruct (ns !! c) eqn:E; [by eapply lookup_lt_Some|]. simpl in Hc. lia.
Qed.

Lemma unmet_snoc order p i :
  p ∉ order -> unmet (order ++ [p]) i + cnt i (children ns p) = unmet order i.
Proof.
  intros Hp. rewrite cnt_children. unfold unmet. symmetry.
  apply length_filter_split.
  - intros q _. unfold is_unmet. destruct (index_of ns q) as [j|]; [|naive_solver].
    rewrite elem_of_app, list_elem_of_singleton.
    destruct (decide (j = p)) as [->|]; naive_solver.
  - intros q _ [H1 H2]. unfold is_unmet in H1. rewrite H2 in H1. set_solver.
Qed.

(** ** Lemmas: the loop *)

(** One child visited: what the set holds now, and what the rest of the walk adds. *)
Lemma visit_child_ready d cs (pending : list nat) ready k x :
  bset_ok ready -> pending !! d = Some k -> S (cnt d cs) <= k ->
  (x ∈ (if k - 1 =? 0 then bset_insert (id_at ns d, d) ready else ready) \/
   exists c, c ∈ cs /\ x = (id_at ns c, c) /\ <[d:=k - 1]> pending !! c = Some (cnt c cs)) <->
  (x ∈ ready \/
   exists c, c ∈ d :: cs /\ x = (id_at ns c, c) /\ pending !! c = Some (cnt c (d :: cs))).
Proof.
  intros Hok Hk Hdk. pose proof (lookup_lt_Some _ _ _ Hk) as Hd.
  assert (Hins : x ∈ (if k - 1 =? 0 then bset_insert (id_at ns d, d) ready else ready)
                 <-> x ∈ ready \/ (x = (id_at ns d, d) /\ k = 1)).
  { destruct (Nat.eqb_spec (k - 1) 0).
    - rewrite elem_of_bset_insert. assert (k = 1) by lia. naive_solver.
    - assert (k <> 1) by lia. naive_solver. }
  rewrite Hins. clear Hins. split.
  - intros [[Hr'|[-> ->]]|(c & Hc & -> & Hpc)]; [by left|right..].
    + exists d. rewrite cnt_cons, decide_True by done.
      split; [set_solver|]. split; [done|]. rewrite Hk. f_equal; lia.
    + exists c. split; [set_solver|]. split; [done|]. rewrite cnt_cons.
      destruct (decide (d = c)) as [<-|Hne].
      * rewrite list_lookup_insert_eq in Hpc by done. injection Hpc as Hpc.
        rewrite Hk. f_equal; lia.
      * by rewrite list_lookup_insert_ne in Hpc.
  - intros [Hr'|(c & Hc & -> & Hpc)]; [by left; left|].
    rewrite cnt_cons in Hpc. destruct (decide (d = c)) as [<-|Hne].
    + rewrite Hk in Hpc. injection Hpc as ->.
      destruct (decide (d ∈ cs)) as [Hin|Hin].
      * right. exists d. split; [done|]. split; [done|].
        rewrite list_lookup_insert_eq by done. f_equal; lia.
      * left; right. split; [done|].
        assert (~ 0 < cnt d cs) by (by rewrite cnt_pos). lia.
    + right. exists c. split; [set_solver|]. split; [done|].
      by rewrite list_lookup_insert_ne.
Qed.

Lemma visit_children_spec cs pending ready :
  bset_ok ready ->
  (forall c, c ∈ cs -> c < length pending) ->
  (forall c k, pending !! c = Some k -> cnt c cs <= k) ->
  forall p' r', fold_left (visit_child ns) cs (pending, ready) = (p', r') ->
  length p' = length pending /\
  (forall c k, pending !! c = Some k -> p' !! c = Some (k - cnt c cs)) /\
  bset_ok r' /\
  (forall x, x ∈ r' <-> x ∈ ready \/
     exists c, c ∈ cs /\ x = (id_at ns c, c) /\ pending !! c = Some (cnt c cs)).
Proof.
  revert pending ready. induction cs as [|d cs IH];
    intros pending ready Hok Hlt Hcnt p' r' Hfold.
  - simpl in Hfold. injection Hfold as <- <-. split; [done|]. split.
    + intros c k Hk. rewrite cnt_nil, Nat.sub_0_r. done.
    + split; [done|]. set_solver.
  - cbn [fold_left] in Hfold. unfold visit_child at 2 in Hfold.
    assert (Hd : d < length pending) by (apply Hlt; set_solver).
    destruct (lookup_lt_is_Some_2 _ _ Hd) as [k Hk]. rewrite Hk in Hfold. simpl in Hfold.
    pose proof (Hcnt d k Hk) as Hdk. rewrite cnt_cons, decide_True in Hdk by done.
    edestruct (IH (<[d:=k - 1]> pending)) as (Hl & Hp & Hr & Hx); [| | |exact Hfold|].
    + case_match; [by apply bset_insert_ok|done].
    + intros c Hc. rewrite length_insert. apply Hlt. set_solver.
    + intros c k' Hk'. destruct (decide (d = c)) as [<-|Hne].
      * rewrite list_lookup_insert_eq in Hk' by done. injection Hk' as <-. lia.
      * rewrite list_lookup_insert_ne in Hk' by done.
        pose proof (Hcnt c k' Hk') as H. rewrite cnt_cons, decide_False in H; done.
    + rewrite length_insert in Hl. split; [done|]. split; [|split; [done|]].
      * intros c k' Hk'. rewrite cnt_cons. destruct (decide (d = c)) as [<-|Hne].
        -- rewrite Hk in Hk'. injection Hk' as <-.
           rewrite (Hp d (k - 1)) by (by rewrite list_lookup_insert_eq). f_equal; lia.
        -- rewrite (Hp c k') by (by rewrite list_lookup_insert_ne). f_equal; lia.
      * intros x. rewrite Hx. by apply visit_child_ready.
Qed.

(** What is ready after [order] has been emitted. *)
Definition available (order : list nat) (i : nat) : Prop :=
  i < length ns /\ i ∉ order /\ unmet order i = 0.

(** Every emitted index was the least available one. *)
Definition greedy_idx (order : list nat) : Prop :=
  forall k i, order !! k = Some i ->
    available (take k order) i /\
    forall j, available (take k order) j -> leb (id_at ns i, i) (id_at ns j, j) = true.

Record kahn_inv (st : Kahn) : Prop := {
  inv_pending_len : length (k_pending st) = length ns;
  inv_pending : forall i, i < length ns -> k_pending st !! i = Some (unmet (k_order st) i);
  inv_ready_ok : bset_ok (k_ready st);
  inv_ready : forall x, x ∈ k_ready st <->
    exists i, x = (id_at ns i, i) /\ available (k_order st) i;
  inv_nodup : NoDup (k_order st);
  inv_order : forall i, i ∈ k_order st -> i < length ns /\ unmet (k_order st) i = 0;
  inv_greedy : greedy_idx (k_order st)
}.

Lemma unmet_mono order p i : unmet order i = 0 -> unmet (order ++ [p]) i = 0.
Proof. rewrite !unmet_zero. intros H q j Hq Hj. apply elem_of_app. left. by apply (H q). Qed.

Lemma greedy_idx_snoc order i :
  greedy_idx order -> available order i ->
  (forall j, available order j -> leb (id_at ns i, i) (id_at ns j, j) = true) ->
  greedy_idx (order ++ [i]).
Proof.
  intros Hg Hav Hmin k j Hk.
  destruct (decide (k < length order)) as [Hlt|Hge].
  - rewrite lookup_app_l in Hk by done. rewrite take_app_le by lia. by apply Hg.
  - rewrite lookup_app_r in Hk by lia.
    apply list_lookup_singleton_Some in Hk as [Hk <-].
    assert (k = length order) as -> by lia. rewrite take_app_length. done.
Qed.

(** The ready set after [i] has been emitted and its children visited. *)
Lemma kahn_ready_step st i x :
  kahn_inv st -> available (k_order st) i ->
  (x ∈ bset_remove (id_at ns i, i) (k_ready st) \/
   exists c, c ∈ children ns i /\ x = (id_at ns c, c) /\
             k_pending st !! c = Some (cnt c (children ns i))) <->
  (exists j, x = (id_at ns j, j) /\ available (k_order st ++ [i]) j).
Proof.
  intros Hinv (Hlt & Hni & Hz).
  rewrite elem_of_bset_remove by apply Hinv. rewrite (inv_ready _ Hinv). split.
  - intros [[Hne (j & -> & Hj1 & Hj2 & Hj3)]|(c & Hc & -> & Hpc)].
    + exists j. split; [done|]. split; [done|]. split; [|by apply unmet_mono].
      rewrite elem_of_app, list_elem_of_singleton. intros [?| ->]; [done|]. by apply Hne.
    + pose proof (children_lt _ _ Hc) as Hc'. exists c. split; [done|].
      rewrite (inv_pending _ Hinv) in Hpc by done. injection Hpc as Hpc.
      split; [done|]. pose proof (unmet_snoc (k_order st) i c Hni) as Hs.
      apply cnt_pos in Hc. split; [|lia].
      rewrite elem_of_app, list_elem_of_singleton. intros [Hin| ->]; [|lia].
      apply (inv_order _ Hinv) in Hin as [_ Hin]. lia.
  - intros (j & -> & Hj1 & Hj2 & Hj3). rewrite elem_of_app, list_elem_of_singleton in Hj2.
    apply Decidable.not_or in Hj2 as [Hj2 Hji].
    pose proof (unmet_snoc (k_order st) i j Hni) as Hs.
    destruct (decide (j ∈ children ns i)) as [Hin|Hin].
    + right. exists j. split; [done|]. split; [done|].
      rewrite (inv_pending _ Hinv) by done. f_equal; lia.
    + left. split; [by intros [= _ ->]|]. exists j. split; [done|].
      split; [done|]. split; [done|].
      assert (~ 0 < cnt j (children ns i)) by (by rewrite cnt_pos). lia.
Qed.

Lemma kahn_step st h i rest p' r' :
  kahn_inv st -> k_ready st = (h, i) :: rest ->
  fold_left (visit_child ns) (children ns i)
    (k_pending st, bset_remove (id_at ns i, i) (k_ready st)) = (p', r') ->
  kahn_inv (mkKahn r' p' (k_order st ++ [i])).
Proof.
  intros Hinv Hr Hfold.
  assert (Hi : available (k_order st) i /\ h = id_at ns i).
  { assert (Hin : (h, i) ∈ k_ready st) by (rewrite Hr; set_solver).
    apply (inv_ready _ Hinv) in Hin as (j & Heq & Hav). by injection Heq as -> ->. }
  destruct Hi as [Hav ->]. pose proof Hav as (Hlt & Hni & Hz).
  assert (Hcnt : forall c, cnt c (children ns i) <= unmet (k_order st) c).
  { intros c. pose proof (unmet_snoc (k_order st) i c Hni). lia. }
  edestruct (visit_children_spec (children ns i)) as (Hl & Hp & Hok & Hx); [| | |exact Hfold|].
  - apply bset_remove_ok, Hinv.
  - intros c Hc. rewrite (inv_pending_len _ Hinv). by eapply children_lt.
  - intros c k Hk.
    assert (c < length ns) by (rewrite <- (inv_pending_len _ Hinv); by eapply lookup_lt_Some).
    rewrite (inv_pending _ Hinv) in Hk by done. injection Hk as <-. apply Hcnt.
  - split; cbn [k_ready k_pending k_order].
    + by rewrite Hl, (inv_pending_len _ Hinv).
    + intros c Hc. rewrite (Hp c _ (inv_pending _ Hinv c Hc)). f_equal.
      pose proof (unmet_snoc (k_order st) i c Hni). lia.
    + done.
    + intros x. rewrite Hx. by apply kahn_ready_step.
    + apply NoDup_app. split; [apply Hinv|]. split; [set_solver|]. apply NoDup_singleton.
    + intros j. rewrite elem_of_app, list_elem_of_singleton. intros [Hj| ->].
      * apply (inv_order _ Hinv) in Hj as [? ?]. split; [done|]. by apply unmet_mono.
      * split; [done|]. by apply unmet_mono.
    + apply greedy_idx_snoc; [apply Hinv|done|]. intros j Hj.
      eapply (bset_head_min _ rest); [rewrite <- Hr; apply Hinv|].
      rewrite <- Hr. apply (inv_ready _ Hinv). by exists j.
Qed.

Lemma order_length_le order :
  NoDup order -> (forall i, i ∈ order -> i < length ns) -> length order <= length ns.
Proof.
  intros Hnd Hlt. rewrite <- (length_seq (length ns) 0).
  apply submseteq_length, NoDup_submseteq; [done|].
  intros i Hi. apply elem_of_seq. specialize (Hlt i Hi). lia.
Qed.

(** With as much fuel as nodes left to emit, the loop stops with nothing ready. *)
Lemma kahn_loop_spec fuel st :
  kahn_inv st -> length ns <= length (k_order st) + fuel ->
  kahn_inv (kahn_loop fuel ns st) /\ k_ready (kahn_loop fuel ns st) = [].
Proof.
  revert st. induction fuel as [|fuel IH]; intros st Hinv Hf; cbn [kahn_loop].
  - split; [done|]. destruct (k_ready st) as [|x l] eqn:E; [done|exfalso].
    assert (Hx : x ∈ k_ready st) by (rewrite E; set_solver).
    apply (inv_ready _ Hinv) in Hx as (i & _ & Hlt & Hni & _).
    pose proof (order_length_le (k_order st ++ [i])) as H.
    rewrite length_app in H. simpl in H. apply Nat.le_ngt in H; [lia| |].
    + apply NoDup_app. split; [apply Hinv|]. split; [set_solver|]. apply NoDup_singleton.
    + intros j. rewrite elem_of_app, list_elem_of_singleton.
      intros [Hj| ->]; [by apply (inv_order _ Hinv)|done].
  - destruct (k_ready st) as [|[h i] l] eqn:E; [by rewrite E|].
    destruct (fold_left _ _ _) as [p' r'] eqn:Ef.
    apply IH; [|cbn [k_order]; rewrite length_app; simpl; lia].
    rewrite <- E in Ef. by eapply kahn_step.
Qed.

Lemma initial_ready_spec x :
  x ∈ initial_ready ns <-> exists i, x = (id_at ns i, i) /\ available [] i.
Proof.
  unfold initial_ready. rewrite elem_of_bset_of_list, list_elem_of_In, in_flat_map.
  split.
  - intros ([i c] & Hin & Hx). apply list_elem_of_In in Hin.
    apply elem_of_lookup_imap in Hin as (i' & c' & [= <- <-] & Hl).
    destruct (Nat.eqb_spec c 0) as [->|]; [|done].
    destruct Hx as [<-|[]]. exists i. split; [done|].
    unfold initial_pending in Hl. rewrite list_lookup_fmap in Hl.
    destruct (ns !! i) as [n|] eqn:En; [|done]. simpl in Hl. injection Hl as Hl.
    split; [by eapply lookup_lt_Some|]. split; [set_solver|].
    by rewrite (unmet_nil i n).
  - intros (i & -> & Hlt & _ & Hz). destruct (lookup_lt_is_Some_2 _ _ Hlt) as [n En].
    exists (i, 0). split; [|by left]. apply list_elem_of_In.
    apply elem_of_lookup_imap. exists i, 0. split; [done|].
    unfold initial_pending. rewrite list_lookup_fmap, En. simpl. f_equal.
    by rewrite <- (unmet_nil i n).
Qed.

Lemma initial_inv : kahn_inv (mkKahn (initial_ready ns) (initial_pending ns) []).
Proof.
  split; cbn [k_ready k_pending k_order].
  - apply length_map.
  - intros i Hi. destruct (lookup_lt_is_Some_2 _ _ Hi) as [n En].
    unfold initial_pending. rewrite list_lookup_fmap, En. simpl. f_equal.
    symmetry. by apply unmet_nil.
  - apply bset_of_list_ok.
  - apply initial_ready_spec.
  - constructor.
  - set_solver.
  - intros k i Hk. by rewrite lookup_nil in Hk.
Qed.

(** The order [topological_order] returns. *)
Definition is_order (order : list nat) : Prop :=
  NoDup order /\ (forall i, i ∈ order <-> i < length ns) /\ greedy_idx order.

Lemma topological_order_ok order :
  topological_order ns = Ok order -> is_order order.
Proof.
  unfold topological_order. destruct ns as [|n0 l0] eqn:En.
  { intros [= <-]. split; [constructor|]. split; [set_solver by lia|].
    intros k i Hk. by rewrite lookup_nil in Hk. }
  rewrite <- En in *. intros H. destruct (initial_ready ns) as [|x l] eqn:Er; [done|].
  rewrite <- Er in H.
  destruct (kahn_loop_spec (length ns) _ initial_inv ltac:(simpl; lia)) as [Hinv _].
  destruct (Nat.eqb_spec (length (k_order (kahn_loop (length ns) ns
    (mkKahn (initial_ready ns) (initial_pending ns) [])))) (length ns)) as [Hlen|]; [|done].
  injection H as <-. split; [apply Hinv|]. split; [|apply Hinv].
  intros i. split; [by apply (inv_order _ Hinv)|]. intros Hi.
  destruct (decide (i ∈ k_order (kahn_loop (length ns) ns
    (mkKahn (initial_ready ns) (initial_pending ns) [])))) as [|Hni]; [done|exfalso].
  pose proof (order_length_le (k_order (kahn_loop (length ns) ns
    (mkKahn (initial_ready ns) (initial_pending ns) [])) ++ [i])) as Hle.
  rewrite length_app in Hle. simpl in Hle. apply Nat.le_ngt in Hle; [lia| |].
  + apply NoDup_app. split; [apply Hinv|]. split; [set_solver|]. apply NoDup_singleton.
  + intros j. rewrite elem_of_app, list_elem_of_singleton.
    intros [Hj| ->]; [by apply (inv_order _ Hinv)|done].
Qed.

(** A non-empty set of indices, each with a parent in the set. *)
Definition cyclic_core (stuck : nat -> Prop) : Prop :=
  (exists i, stuck i) /\
  forall i, stuck i -> i < length ns /\
    exists p j, p ∈ parents_at i /\ index_of ns p = Some j /\ stuck j.

Lemma stuck_core order :
  (forall i, i < length ns -> i ∉ order -> unmet order i <> 0) ->
  (exists i, i < length ns /\ i ∉ order) ->
  cyclic_core (fun i => i < length ns /\ i ∉ order).
Proof.
  intros Hst Hex. split; [done|]. intros i [Hi Hni]. split; [done|].
  specialize (Hst i Hi Hni).
  destruct (decide (Exists (is_unmet order) (parents_at i))) as [He|Hn].
  - apply Exists_exists in He as (p & Hp & Hj). unfold is_unmet in Hj.
    destruct (index_of ns p) as [j|] eqn:Ej; [|done].
    exists p, j. split; [done|]. split; [done|]. split; [by eapply index_of_lt|done].
  - exfalso. apply Hst. apply unmet_zero. intros p j Hp Hj.
    destruct (decide (j ∈ order)) as [|Hnj]; [done|]. exfalso. apply Hn.
    apply Exists_exists. exists p. split; [done|]. unfold is_unmet. by rewrite Hj.
Qed.

Lemma topological_order_err e :
  topological_order ns = Err e ->
  (exists h, e = Cycle h) /\ exists stuck, cyclic_core stuck.
Proof.
  unfold topological_order. destruct ns as [|n0 l0] eqn:En; [done|]. rewrite <- En in *.
  intros H. destruct (initial_ready ns) as [|x l] eqn:Er.
  - injection H as <-. split; [eauto|]. eexists. apply (stuck_core []).
    + intros i Hi Hni Hz. assert (Hin : (id_at ns i, i) ∈ initial_ready ns).
      { apply initial_ready_spec. exists i. split; [done|]. by split. }
      rewrite Er in Hin. set_solver.
    + exists 0. split; [rewrite En; simpl; lia|set_solver].
  - rewrite <- Er in H.
    destruct (kahn_loop_spec (length ns) _ initial_inv ltac:(simpl; lia)) as [Hinv Hemp].
    set (st := kahn_loop _ _ _) in *. clearbody st.
    destruct (Nat.eqb_spec (length (k_order st)) (length ns)) as [|Hlen]; [done|].
    injection H as <-. split; [eauto|]. eexists. apply (stuck_core (k_order st)).
    + intros i Hi Hni Hz. assert (Hin : (id_at ns i, i) ∈ k_ready st).
      { apply (inv_ready _ Hinv). exists i. split; [done|]. by split. }
      rewrite Hemp in Hin. set_solver.
    + destruct (decide (Exists (fun i => i ∉ k_order st) (seq 0 (length ns)))) as [He|Hn].
      * apply Exists_exists in He as (i & Hi & Hni). apply elem_of_seq in Hi.
        exists i. split; [lia|done].
      * exfalso. apply Hlen. apply Nat.le_antisymm.
        -- apply order_length_le; [apply Hinv|]. intros i Hi. by apply (inv_order _ Hinv).
        -- rewrite <- (length_seq (length ns) 0).
           apply submseteq_length, NoDup_submseteq; [apply NoDup_seq|].
           intros i Hi. destruct (decide (i ∈ k_order st)) as [|Hni]; [done|].
           exfalso. apply Hn. apply Exists_exists. by exists i.
Qed.
End Unmet.

(** ** Lemmas: the canonical order at the level of identifiers *)

(** [h] can be emitted after [S]: it is a node, not emitted yet, and its parents
    inside the segment all are. *)
Definition id_available (ns : list DAGNode) (S : list Hash) (h : Hash) : Prop :=
  exists n, n ∈ ns /\ node_id n = h /\ h ∉ S /\
    forall p, p ∈ parents n -> p ∈ map node_id ns -> p ∈ S.

Definition greedy_ids (ns : list DAGNode) (L : list Hash) : Prop :=
  forall k h, L !! k = Some h ->
    id_available ns (take k L) h /\
    forall h', id_available ns (take k L) h' -> leb h h' = true.

(** The specification of a canonical order. *)
Definition canonical_spec (ns : list DAGNode) (L : list Hash) : Prop :=
  greedy_ids ns L /\ forall h, h ∈ map node_id ns -> h ∈ L.

Lemma id_available_perm ns ns' S h :
  (forall n, n ∈ ns <-> n ∈ ns') -> id_available ns S h -> id_available ns' S h.
Proof.
  intros Heq (n & Hn & Hid & HS & Hp). exists n. split; [by apply Heq|].
  split; [done|]. split; [done|]. intros p Hpp Hin. apply Hp; [done|].
  apply list_elem_of_fmap in Hin as (m & -> & Hm). apply list_elem_of_fmap.
  exists m. split; [done|]. by apply Heq.
Qed.

Lemma greedy_ids_perm ns ns' L :
  (forall n, n ∈ ns <-> n ∈ ns') -> greedy_ids ns L -> greedy_ids ns' L.
Proof.
  intros Heq Hg k h Hk. destruct (Hg k h Hk) as [Ha Hm]. split.
  - by eapply id_available_perm.
  - intros h' Ha'. apply Hm. eapply id_available_perm; [|exact Ha']. intros n. by rewrite Heq.
Qed.

Lemma greedy_ids_NoDup ns L : greedy_ids ns L -> NoDup L.
Proof.
  intros Hg. apply NoDup_alt. intros i j h Hi Hj.
  assert (Hlt : forall a b, L !! a = Some h -> L !! b = Some h -> a < b -> False).
  { intros a b Ha Hb Hab. destruct (Hg b h Hb) as [(_ & _ & _ & Hni & _) _].
    apply Hni. apply list_elem_of_lookup. exists a. by rewrite lookup_take_lt. }
  destruct (Nat.lt_trichotomy i j) as [?|[?|?]]; [exfalso; eauto|done|exfalso; eauto].
Qed.

Lemma greedy_ids_sub ns L h : greedy_ids ns L -> h ∈ L -> h ∈ map node_id ns.
Proof.
  intros Hg [k Hk]%list_elem_of_lookup. destruct (Hg k h Hk) as [(n & Hn & <- & _) _].
  by apply list_elem_of_fmap_2.
Qed.

Lemma canonical_spec_unique ns ns' L L' :
  (forall n, n ∈ ns <-> n ∈ ns') -> canonical_spec ns L -> canonical_spec ns' L' -> L = L'.
Proof.
  intros Heq [Hg Hc] [Hg' Hc'].
  assert (Hg2 : greedy_ids ns L') by (eapply greedy_ids_perm; [|exact Hg']; intros; by rewrite Heq).
  assert (Hids : forall h, h ∈ map node_id ns <-> h ∈ map node_id ns').
  { intros h. split; intros (n & -> & Hn)%list_elem_of_fmap; apply list_elem_of_fmap_2;
      by apply Heq. }
  assert (Hlen : length L = length L').
  { apply Nat.le_antisymm; apply submseteq_length, NoDup_submseteq;
      try (by eapply greedy_ids_NoDup); intros h Hh.
    - apply Hc', Hids. by apply (greedy_ids_sub ns L).
    - apply Hc. by apply (greedy_ids_sub ns L'). }
  assert (Htake : forall k, take k L = take k L').
  { induction k as [|k IH]; [done|].
    destruct (L !! k) as [h|] eqn:Hk.
    - destruct (lookup_lt_is_Some_2 L' k) as [h' Hk'].
      { rewrite <- Hlen. by eapply lookup_lt_Some. }
      rewrite (take_S_r _ _ h), (take_S_r _ _ h'), IH by done. do 2 f_equal.
      destruct (Hg k h Hk) as [Ha Hm], (Hg2 k h' Hk') as [Ha' Hm'].
      rewrite IH in Ha, Hm. apply leb_antisym; auto.
    - assert (length L <= k) by (by apply lookup_ge_None).
      rewrite !take_ge by lia. rewrite !take_ge in IH by lia. done. }
  specialize (Htake (length L)). rewrite !take_ge in Htake by lia. done.
Qed.

Section Ids.
Variable ns : list DAGNode.
Hypothesis Hnd : NoDup (map node_id ns).

Lemma id_at_inj i j :
  i < length ns -> j < length ns -> id_at ns i = id_at ns j -> i = j.
Proof.
  intros Hi Hj He. destruct (lookup_lt_is_Some_2 _ _ Hi) as [n Hn].
  destruct (lookup_lt_is_Some_2 _ _ Hj) as [m Hm].
  rewrite (id_at_lookup _ _ _ Hn), (id_at_lookup _ _ _ Hm) in He.
  pose proof (index_of_unique _ _ _ Hnd Hn) as H1.
  rewrite He, (index_of_unique _ _ _ Hnd Hm) in H1. by injection H1.
Qed.

Lemma index_of_id_at i : i < length ns -> index_of ns (id_at ns i) = Some i.
Proof.
  intros Hi. destruct (lookup_lt_is_Some_2 _ _ Hi) as [n Hn].
  rewrite (id_at_lookup _ _ _ Hn). by apply index_of_unique.
Qed.

Lemma elem_of_map_id_at order i :
  (forall j, j ∈ order -> j < length ns) -> i < length ns ->
  id_at ns i ∈ map (id_at ns) order <-> i ∈ order.
Proof.
  intros Hlt Hi. split.
  - intros (j & He & Hj)%list_elem_of_fmap.
    by rewrite (id_at_inj i j Hi (Hlt j Hj) He).
  - intros ?. by apply list_elem_of_fmap_2.
Qed.

Lemma available_ids order i :
  (forall j, j ∈ order -> j < length ns) -> i < length ns ->
  available ns order i <-> id_available ns (map (id_at ns) order) (id_at ns i).
Proof.
  intros Hlt Hi. destruct (lookup_lt_is_Some_2 _ _ Hi) as [n Hn]. split.
  - intros (_ & Hni & Hz). exists n. split; [by eapply list_elem_of_lookup_2|].
    split; [by rewrite (id_at_lookup _ _ _ Hn)|]. split; [by rewrite elem_of_map_id_at|].
    intros p Hp Hin. apply index_of_is_Some in Hin as [j Hj].
    rewrite unmet_zero in Hz. pose proof (index_of_lt _ _ _ Hj) as Hjl.
    apply index_of_Some in Hj as Hjn. destruct Hjn as (m & Hm & <-).
    rewrite <- (id_at_lookup _ _ _ Hm). apply elem_of_map_id_at; [done|done|].
    apply (Hz (node_id m)); [|done]. unfold parents_at. by rewrite Hn.
  - intros (m & Hm & Hid & Hni & Hp).
    assert (m = n) as ->.
    { apply list_elem_of_lookup in Hm as [k Hk].
      assert (k = i) as ->; [|congruence].
      apply id_at_inj; [by eapply lookup_lt_Some|done|].
      by rewrite (id_at_lookup _ _ _ Hk). }
    split; [done|]. split; [by rewrite elem_of_map_id_at in Hni|].
    apply unmet_zero. intros p j Hpp Hj. unfold parents_at in Hpp. rewrite Hn in Hpp.
    pose proof (index_of_lt _ _ _ Hj) as Hjl.
    apply (elem_of_map_id_at order); [done|done|].
    apply index_of_Some in Hj as Hjn. destruct Hjn as (q & Hq & He).
    rewrite (id_at_lookup _ _ _ Hq), He. apply Hp; [done|].
    apply index_of_is_Some. eauto.
Qed.

Lemma leb_pair_fst (a b : Hash) (i j : nat) : leb (a, i) (b, j) = true -> leb a b = true.
Proof.
  unfold leb. change (cmp (a, i) (b, j))
    with (match cmp a b with Eq => cmp i j | c => c end). by destruct (cmp a b).
Qed.

Lemma is_order_canonical order :
  is_order ns order -> canonical_spec ns (map (id_at ns) order).
Proof.
  intros (Hno & Hall & Hg).
  assert (Hlt : forall k j, j ∈ take k order -> j < length ns).
  { intros k j (q & Hq & _)%elem_of_take. apply Hall. by eapply list_elem_of_lookup_2. }
  split.
  - intros k h Hk. rewrite list_lookup_fmap in Hk.
    destruct (order !! k) as [i|] eqn:Ho; [|done]. injection Hk as <-.
    destruct (Hg k i Ho) as [Ha Hm].
    assert (Hi : i < length ns) by apply Ha.
    change (take k (map (id_at ns) order)) with (take k (id_at ns <$> order)).
    rewrite <- fmap_take. split; [by apply available_ids; [eauto|done|]|].
    intros h' Ha'. pose proof Ha' as (m & Hmm & Hid & _).
    apply list_elem_of_lookup in Hmm as [j Hj].
    pose proof (lookup_lt_Some _ _ _ Hj) as Hjl.
    rewrite <- Hid, <- (id_at_lookup _ _ _ Hj) in Ha' |- *.
    apply available_ids in Ha'; [|eauto|done].
    by eapply leb_pair_fst, Hm.
  - intros h (n & -> & Hn)%list_elem_of_fmap. apply list_elem_of_lookup in Hn as [i Hi].
    rewrite <- (id_at_lookup _ _ _ Hi). apply list_elem_of_fmap_2, Hall.
    by eapply lookup_lt_Some.
Qed.

(** An order that emits every node rules a cyclic core out. *)
Lemma canonical_no_core L : canonical_spec ns L -> forall stuck, ~ cyclic_core ns stuck.
Proof.
  intros [Hg Hc] stuck [[i0 Hi0] Hcore].
  assert (Hno : forall k i, stuck i -> L !! k = Some (id_at ns i) -> False).
  { induction k as [k IH] using lt_wf_ind. intros i Hi Hk.
    destruct (Hcore i Hi) as (Hil & p & j & Hp & Hj & Hsj).
    destruct (Hg k _ Hk) as [(n & Hn & Hid & _ & Hpar) _].
    destruct (lookup_lt_is_Some_2 _ _ Hil) as [n' Hn'].
    assert (n = n') as ->.
    { apply list_elem_of_lookup in Hn as [q Hq].
      assert (q = i) as ->; [|congruence].
      apply id_at_inj; [by eapply lookup_lt_Some|done|].
      by rewrite (id_at_lookup _ _ _ Hq). }
    unfold parents_at in Hp. rewrite Hn' in Hp.
    assert (Hpt : p ∈ take k L) by (apply Hpar; [done|]; apply index_of_is_Some; eauto).
    apply list_elem_of_lookup in Hpt as [l Hl].
    apply lookup_take_Some in Hl as [Hl Hlk].
    apply index_of_Some in Hj as (m & Hm & <-).
    apply (IH l Hlk j Hsj). by rewrite (id_at_lookup _ _ _ Hm). }
  destruct (Hcore i0 Hi0) as (Hil & _).
  destruct (lookup_lt_is_Some_2 _ _ Hil) as [n Hn].
  assert (Hin : id_at ns i0 ∈ L).
  { apply Hc. rewrite (id_at_lookup _ _ _ Hn). apply list_elem_of_fmap_2.
    by eapply list_elem_of_lookup_2. }
  apply list_elem_of_lookup in Hin as [k Hk]. by apply (Hno k i0).
Qed.

Lemma topological_order_iff L :
  (exists order, topological_order ns = Ok order /\ L = map (id_at ns) order)
  <-> canonical_spec ns L.
Proof.
  split.
  - intros (order & Ho & ->). by apply is_order_canonical, topological_order_ok.
  - intros HL. destruct (topological_order ns) as [order|e] eqn:E.
    + exists order. split; [done|]. eapply canonical_spec_unique; [|exact HL|]; [done|].
      by apply is_order_canonical, topological_order_ok.
    + apply topological_order_err in E as (_ & stuck & Hs).
      exfalso. by apply (canonical_no_core L HL stuck).
Qed.
End Ids.

(** ** Lemmas: relations *)

(** What [check_relations] accepts. *)
Definition relations_ok (ns : list DAGNode) : Prop :=
  ns <> [] /\ NoDup (map node_id ns) /\
  forall n, n ∈ ns -> NoDup (parents n) /\ node_id n ∉ parents n /\
    forall p, p ∈ parents n -> p ∈ map node_id ns.

Lemma check_unique_ids_ok seen ns :
  check_unique_ids seen ns = Ok tt <->
  NoDup (map node_id ns) /\ forall h, h ∈ map node_id ns -> h ∉ seen.
Proof.
  revert seen. induction ns as [|n ns IH]; intros seen; simpl.
  - split; [|done]. intros _. split; [constructor|]. intros h Hh. by apply not_elem_of_nil in Hh.
  - rewrite NoDup_cons. case_decide as Hs.
    + split; [done|]. intros [_ H]. exfalso. by apply (H (node_id n)); [left|].
    + rewrite IH. split.
      * intros [Hn H]. split; [split; [|done]|].
        -- intros Hin. apply (H _ Hin). by left.
        -- intros h [->|Hh]%elem_of_cons; [done|]. intros Hc. apply (H h Hh). by right.
      * intros [[Hni Hn] H]. split; [done|]. intros h Hh [->|Hc]%elem_of_cons; [done|].
        apply (H h); [by right|done].
Qed.

Lemma check_parents_ok ids id seen ps :
  check_parents ids id seen ps = Ok tt <->
  NoDup ps /\ id ∉ ps /\ (forall p, p ∈ ps -> p ∉ seen /\ p ∈ ids).
Proof.
  revert seen. induction ps as [|p ps IH]; intros seen; simpl.
  - split; [|done]. intros _. split; [constructor|]. set_solver.
  - rewrite NoDup_cons. case_decide as H1; [split; [done|set_solver]|].
    case_decide as H2.
    { split; [done|]. intros (_ & _ & H). by destruct (H p (list_elem_of_here _ _)). }
    case_decide as H3.
    + rewrite IH. split.
      * intros (Hn & Hid & H). split; [split; [|done]|].
        -- intros Hin. destruct (H p Hin) as [Hc _]. apply Hc. by left.
        -- split; [set_solver|]. intros q [->|Hq]%elem_of_cons; [done|].
           destruct (H q Hq) as [? ?]. split; [|done]. set_solver.
      * intros ([Hni Hn] & Hid & H). split; [done|]. split; [set_solver|].
        intros q Hq. destruct (H q) as [? ?]; [by right|]. split; [|done].
        intros [->|?]%elem_of_cons; done.
    + split; [done|]. intros (_ & _ & H). by destruct (H p (list_elem_of_here _ _)).
Qed.

Lemma check_relations_ok s : check_relations s = Ok tt <-> relations_ok (nodes s).
Proof.
  unfold check_relations, relations_ok. destruct (nodes s) as [|n0 l0] eqn:En.
  { split; [done|]. by intros [? _]. }
  assert (Hne : nodes s <> []) by (by rewrite En).
  rewrite <- En. clear En. rewrite bind_ok. split.
  - intros ([] & Hu & Hp). apply check_unique_ids_ok in Hu as [Hu _].
    split; [done|]. split; [done|]. intros n Hn.
    apply try_each_ok in Hp. rewrite Forall_forall in Hp. specialize (Hp n Hn).
    apply check_parents_ok in Hp as (? & ? & H). split; [done|]. split; [done|].
    intros p Hpp. by destruct (H p Hpp).
  - intros (_ & Hu & Hp). exists tt. split.
    + apply check_unique_ids_ok. split; [done|]. intros h _. apply not_elem_of_nil.
    + apply try_each_ok, Forall_forall. intros n Hn.
      destruct (Hp n Hn) as (? & ? & H). apply check_parents_ok.
      split; [done|]. split; [done|]. intros p Hpp. split; [apply not_elem_of_nil|by apply H].
Qed.

Lemma relations_ok_perm ns ns' : ns ≡ₚ ns' -> relations_ok ns -> relations_ok ns'.
Proof.
  intros Hp (Hne & Hnd & H). split; [|split].
  - intros ->. by apply Permutation_nil_r in Hp.
  - by rewrite <- Hp.
  - intros n Hn. rewrite <- Hp in Hn. destruct (H n Hn) as (? & ? & Hin).
    split; [done|]. split; [done|]. intros p Hpp. rewrite <- Hp. auto.
Qed.

(** The root check never fires after a successful order: the first emitted node
    has no parent at all. *)
Lemma canonical_has_root s L :
  relations_ok (nodes s) -> canonical_spec (nodes s) L -> roots s <> [].
Proof.
  intros (Hne & Hnd & Hp) [Hg Hc] Hr.
  destruct L as [|h L].
  { destruct (nodes s) as [|n l]; [done|]. specialize (Hc (node_id n)). set_solver. }
  destruct (Hg 0 h eq_refl) as [(n & Hn & <- & _ & Hpar) _]. simpl in Hpar.
  assert (Hin : node_id n ∈ roots s); [|rewrite Hr in Hin; set_solver].
  unfold roots. apply list_elem_of_fmap_2, list_elem_of_filter. split; [|done].
  destruct (parents n) as [|p ps] eqn:Ep; [done|]. exfalso.
  destruct (Hp n Hn) as (_ & _ & Hin). rewrite Ep in Hin.
  specialize (Hpar p (list_elem_of_here _ _) (Hin p (list_elem_of_here _ _))). set_solver.
Qed.

Lemma checked_order_iff s L :
  (exists order, checked_order s = Ok order /\ L = map (id_at (nodes s)) order)
  <-> relations_ok (nodes s) /\ canonical_spec (nodes s) L.
Proof.
  unfold checked_order. split.
  - intros (order & H & ->). apply bind_ok in H as ([] & Hr & H).
    apply bind_ok in H as (order' & Ho & H). apply check_relations_ok in Hr.
    destruct (roots s); [done|]. injection H as ->. split; [done|].
    apply topological_order_iff; [apply Hr|]. eauto.
  - intros [Hr HL]. pose proof Hr as Hr'. apply check_relations_ok in Hr'. rewrite Hr'. simpl.
    destruct (proj2 (topological_order_iff (nodes s) (proj1 (proj2 Hr)) L) HL)
      as (order & Ho & ->).
    exists order. rewrite Ho. simpl.
    pose proof (canonical_has_root s _ Hr HL). by destruct (roots s).
Qed.

Lemma canonical_order_iff s L :
  canonical_order s = Ok L <-> relations_ok (nodes s) /\ canonical_spec (nodes s) L.
Proof.
  rewrite <- checked_order_iff. unfold canonical_order. rewrite bind_ok. split.
  - intros (o & Ho & H). injection H as <-. eauto.
  - intros (o & Ho & ->). eauto.
Qed.

(** ** Lemmas: self-delimiting encodings *)

Lemma sized_app_inj a b x y :
  (blen a <= u32_max)%N -> (blen b <= u32_max)%N ->
  sized a ++ x = sized b ++ y -> a = b /\ x = y.
Proof.
  unfold sized. rewrite <- !app_assoc. intros Ha Hb H.
  apply app_eq_length_inj in H as [Hl H]; [|unfold u32_le; by rewrite !length_le_bytes].
  apply u32_le_inj in Hl; [|done|done]. apply app_eq_length_inj in H as [-> ->]; [done|].
  unfold blen in Hl. lia.
Qed.

Definition all_sized (l : list bytes) : Prop :=
  (blen l <= u32_max)%N /\ Forall (fun b => (blen b <= u32_max)%N) l.

Lemma sized_list_app_inj l k x y :
  all_sized l -> all_sized k -> sized_list l ++ x = sized_list k ++ y -> l = k /\ x = y.
Proof.
  unfold sized_list. rewrite <- !app_assoc. intros [Hl Hfl] [Hk Hfk] H.
  apply app_eq_length_inj in H as [Hn H]; [|unfold u32_le; by rewrite !length_le_bytes].
  apply u32_le_inj in Hn; [|done|done]. unfold blen in Hn. apply Nat2N.inj in Hn.
  clear Hl Hk. revert k Hn Hfk H. induction Hfl as [|a l Ha Hl IH];
    intros [|b k] Hn Hfk H; try done.
  apply Forall_cons in Hfk as [Hb Hfk]. cbn [flat_map] in H. rewrite <- !app_assoc in H.
  apply sized_app_inj in H as [-> H]; [|done|done].
  apply IH in H as [-> ->]; [done|simpl in Hn; lia|done].
Qed.

Lemma hash_list_inj l k :
  (blen l <= u32_max)%N -> (blen k <= u32_max)%N -> hash_list l = hash_list k -> l = k.
Proof.
  unfold hash_list. intros Hl Hk H.
  apply app_eq_length_inj in H as [Hn H]; [|unfold u32_le; by rewrite !length_le_bytes].
  apply u32_le_inj in Hn; [|done|done]. unfold blen in Hn. apply Nat2N.inj in Hn.
  clear Hl Hk. revert k Hn H. induction l as [|a l IH]; intros [|b k] Hn H; try done.
  cbn [flat_map] in H. apply app_eq_length_inj in H as [H1%b32_inj H2]; [|by rewrite !b32_length].
  simpl in Hn. rewrite H1, (IH k); [done|lia|done].
Qed.

Definition node_sized (n : DAGNode) : Prop :=
  (blen (bytecode n) <= u32_max)%N /\ all_sized (signatures n) /\ all_sized (witnesses n) /\
  (blen (parents n) <= u32_max)%N.

Section Binding.
Variable sha256 : bytes -> Bytes32.
(** Among which strings a collision is looked for. *)
Variable hashed : list bytes.
Hint Unfold node_hashed : hashed.

Lemma content_bytes_inj n m :
  node_sized n -> node_sized m -> content_bytes n = content_bytes m ->
  bytecode n = bytecode m /\ signatures n = signatures m /\ witnesses n = witnesses m.
Proof.
  intros (Hb & Hs & Hw & _) (Hb' & Hs' & Hw' & _) H. unfold content_bytes in H.
  apply sized_app_inj in H as [-> H]; [|done|done].
  apply sized_list_app_inj in H as [-> H]; [|done|done].
  rewrite <- (app_nil_r (sized_list (witnesses n))), <- (app_nil_r (sized_list (witnesses m))) in H.
  apply sized_list_app_inj in H as [-> _]; done.
Qed.

Lemma canonical_id_inj n m :
  node_sized n -> node_sized m -> node_hashed sha256 n ⊆ hashed -> node_hashed sha256 m ⊆ hashed ->
  canonical_id sha256 n = canonical_id sha256 m ->
  (bytecode n = bytecode m /\ signatures n = signatures m /\ witnesses n = witnesses m /\
   parents n = parents m) \/ collision_in sha256 hashed.
Proof.
  intros Hn Hm Sn Sm H. unfold canonical_id in H. hash_inj H.
  apply app_eq_length_inj in H as [H1%b32_inj H2%b32_inj]; [|by rewrite !b32_length].
  unfold content_digest, edge_digest in H1, H2. hash_inj H1. hash_inj H2.
  apply content_bytes_inj in H1 as (? & ? & ?); [|done|done].
  apply hash_list_inj in H2; [|apply Hn|apply Hm]. left. auto.
Qed.

(** What [validate_structure] accepts, as one formula. *)
Definition structure_ok (s : DAGSegment) : Prop :=
  relations_ok (nodes s) /\ canonical_spec (nodes s) (map node_id (nodes s)) /\
  (forall n, n ∈ nodes s -> node_id n = canonical_id sha256 n) /\
  root_commitment s = root_of sha256 (map node_id (nodes s)).

Lemma check_positions_ok ns order :
  try_each (check_position ns) (imap pair order) = Ok tt <->
  forall k i, order !! k = Some i -> id_at ns k = id_at ns i.
Proof.
  rewrite try_each_ok, Forall_forall. split.
  - intros H k i Hk. specialize (H (k, i)). unfold check_position in H.
    case_decide; [done|]. exfalso. specialize (H ltac:(apply elem_of_lookup_imap; eauto)). done.
  - intros H [k i] (k' & i' & [= <- <-] & Hk)%elem_of_lookup_imap. unfold check_position.
    by rewrite decide_True by (by apply H).
Qed.

Lemma verify_identities_ok ns :
  try_each (verify_identity sha256) ns = Ok tt <->
  forall n, n ∈ ns -> node_id n = canonical_id sha256 n.
Proof.
  rewrite try_each_ok, Forall_forall. unfold verify_identity.
  split; intros H n Hn; specialize (H n Hn); by case_decide.
Qed.

Lemma positions_map_id ns order :
  length order = length ns ->
  (forall k i, order !! k = Some i -> id_at ns k = id_at ns i) <->
  map (id_at ns) order = map node_id ns.
Proof.
  intros Hlen. split.
  - intros H. apply list_eq. intros k. rewrite !list_lookup_fmap.
    destruct (order !! k) as [i|] eqn:Ho.
    + simpl. rewrite <- (H k i Ho).
      destruct (lookup_lt_is_Some_2 ns k) as [n Hn].
      { rewrite <- Hlen. by eapply lookup_lt_Some. }
      rewrite (id_at_lookup _ _ _ Hn), Hn. done.
    + assert (ns !! k = None) as ->; [|done].
      apply lookup_ge_None. rewrite <- Hlen. by apply lookup_ge_None.
  - intros H k i Ho. apply (f_equal (fun l => l !! k)) in H.
    rewrite !list_lookup_fmap, Ho in H. simpl in H.
    destruct (ns !! k) as [n|] eqn:Hn; [|done]. simpl in H. injection H as H.
    by rewrite (id_at_lookup _ _ _ Hn).
Qed.

Lemma canonical_order_length ns order :
  NoDup (map node_id ns) -> canonical_spec ns (map (id_at ns) order) ->
  length order = length ns.
Proof.
  intros Hnd [Hg Hc]. rewrite <- (length_map (id_at ns) order), <- (length_map node_id ns).
  apply Permutation_length, NoDup_Permutation; [by eapply greedy_ids_NoDup|done|].
  intros h. split; [by apply greedy_ids_sub|apply Hc].
Qed.

Lemma canonical_ids_at ns order :
  (forall n, n ∈ ns -> node_id n = canonical_id sha256 n) ->
  map (canonical_id_at sha256 ns) order = map (id_at ns) order.
Proof.
  intros H. apply list_fmap_ext. intros k i _. unfold canonical_id_at, id_at.
  destruct (ns !! i) as [n|] eqn:Hn; [|done]. symmetry. apply H.
  by eapply list_elem_of_lookup_2.
Qed.

Lemma validate_structure_ok s : validate_structure sha256 s = Ok tt <-> structure_ok s.
Proof.
  unfold validate_structure, structure_ok. split.
  - intros H. apply bind_ok in H as (order & Ho & H).
    apply bind_ok in H as ([] & Hid & H). apply bind_ok in H as ([] & Hpos & H).
    destruct (proj1 (checked_order_iff s (map (id_at (nodes s)) order))) as [Hr Hc]; [eauto|].
    pose proof (proj1 (verify_identities_ok _) Hid) as Hid'. clear Hid. rename Hid' into Hid.
    rewrite check_positions_ok in Hpos.
    apply positions_map_id in Hpos; [|apply canonical_order_length; [apply Hr|done]].
    rewrite Hpos in Hc. split; [done|]. split; [done|]. split; [done|].
    case_decide as Heq; [|done]. rewrite Heq. unfold root_of_nodes, root_of.
    by rewrite (canonical_ids_at _ _ Hid), Hpos.
  - intros (Hr & Hc & Hid & Hroot).
    destruct (proj2 (checked_order_iff s (map node_id (nodes s)))) as (order & Ho & Hm); [done|].
    rewrite Ho. simpl. apply verify_identities_ok in Hid as Hid'. rewrite Hid'. simpl.
    assert (Hpos : forall k i, order !! k = Some i -> id_at (nodes s) k = id_at (nodes s) i).
    { apply positions_map_id; [|done]. apply canonical_order_length; [apply Hr|].
      by rewrite <- Hm. }
    apply check_positions_ok in Hpos. rewrite Hpos. simpl.
    rewrite decide_True; [done|]. rewrite Hroot. unfold root_of_nodes, root_of.
    by rewrite (canonical_ids_at _ _ Hid), Hm.
Qed.

Lemma ids_determine_nodes (l k : list DAGNode) :
  Forall node_sized l -> Forall node_sized k ->
  (forall n, n ∈ l -> node_id n = canonical_id sha256 n) ->
  (forall n, n ∈ k -> node_id n = canonical_id sha256 n) ->
  flat_map (node_hashed sha256) l ⊆ hashed -> flat_map (node_hashed sha256) k ⊆ hashed ->
  map node_id l = map node_id k -> l = k \/ collision_in sha256 hashed.
Proof.
  intros Hl. revert k.
  induction Hl as [|n l Hn Hl IH]; intros [|m k] Hk Hil Hik Sl Sk H; try done; [by left|].
  apply Forall_cons in Hk as [Hm Hk]. injection H as Hid H.
  cbn [flat_map] in Sl, Sk. apply list_subseteq_app_iff_l in Sl as [Sn Sl], Sk as [Sm Sk].
  destruct (IH k) as [->|?]; [done| | |done..| |by right].
  { intros n' Hn'. apply Hil. by right. }
  { intros n' Hn'. apply Hik. by right. }
  pose proof Hid as Hcan.
  rewrite (Hil n), (Hik m) in Hcan by (by left).
  apply canonical_id_inj in Hcan as [(H1 & H2 & H3 & H4)|?]; [|by right|done..].
  left. f_equal. destruct n, m; simpl in *. congruence.
Qed.
End Binding.

(** ** Lemmas: sealing *)

Lemma omap_lookup_map (ns : list DAGNode) (order : list nat) :
  (forall i, i ∈ order -> i < length ns) ->
  map node_id (omap (M:=list) (fun i : nat => ns !! i) order) = map (id_at ns) order.
Proof.
  induction order as [|i order IH]; intros Hlt; [done|]. simpl.
  destruct (lookup_lt_is_Some_2 ns i) as [n Hn]; [apply Hlt; by left|].
  rewrite Hn. simpl. rewrite (id_at_lookup _ _ _ Hn). f_equal. apply IH. intros j Hj.
  apply Hlt. by right.
Qed.

Lemma omap_lookup_seq (ns : list DAGNode) :
  omap (M:=list) (fun i : nat => ns !! i) (seq 0 (length ns)) = ns.
Proof.
  assert (H : forall pre, omap (M:=list) (fun i : nat => (pre ++ ns) !! i) (seq (length pre) (length ns)) = ns).
  { induction ns as [|n l IH]; intros pre; [done|]. simpl.
    rewrite list_lookup_middle by done. f_equal.
    specialize (IH (pre ++ [n])). rewrite <- app_assoc, length_app in IH. simpl in IH.
    by rewrite Nat.add_1_r in IH. }
  apply (H []).
Qed.

Lemma is_order_perm ns order : is_order ns order -> order ≡ₚ seq 0 (length ns).
Proof.
  intros (Hnd & Hall & _). apply NoDup_Permutation; [done|apply NoDup_seq|].
  intros i. rewrite Hall, elem_of_seq. lia.
Qed.

Lemma ordered_perm (ns : list DAGNode) (order : list nat) :
  is_order ns order -> omap (M:=list) (fun i : nat => ns !! i) order ≡ₚ ns.
Proof.
  intros H. rewrite (is_order_perm _ _ H) at 1. by rewrite omap_lookup_seq.
Qed.

(** Nodes with pairwise distinct identifiers are determined, as a list, by
    their identifiers. *)
Lemma nodes_by_ids (ns l k : list DAGNode) :
  NoDup (map node_id ns) -> (forall n, n ∈ l -> n ∈ ns) -> (forall n, n ∈ k -> n ∈ ns) ->
  map node_id l = map node_id k -> l = k.
Proof.
  intros Hnd. revert k. induction l as [|n l IH]; intros [|m k] Hl Hk H; try done.
  injection H as Hid H. f_equal.
  - assert (Hn : n ∈ ns) by (apply Hl; by left). assert (Hm : m ∈ ns) by (apply Hk; by left).
    apply list_elem_of_lookup in Hn as [i Hi], Hm as [j Hj].
    assert (i = j) as ->; [|congruence].
    apply (id_at_inj ns Hnd); try (by eapply lookup_lt_Some).
    by rewrite (id_at_lookup _ _ _ Hi), (id_at_lookup _ _ _ Hj).
  - apply IH; [| |done]; intros q Hq; [apply Hl|apply Hk]; by right.
Qed.

Section Sealing.
Variable sha256 : bytes -> Bytes32.

Definition reseal (n : DAGNode) : DAGNode :=
  node_sealed sha256 (bytecode n) (signatures n) (witnesses n) (parents n).

Lemma segment_sealed_inv ns s :
  segment_sealed sha256 ns = Ok s ->
  NoDup (map node_id (map reseal ns)) /\
  (forall n p, n ∈ map reseal ns -> p ∈ parents n -> p ∈ map node_id (map reseal ns)) /\
  nodes s ≡ₚ map reseal ns /\
  canonical_spec (map reseal ns) (map node_id (nodes s)) /\
  validate_structure sha256 s = Ok tt /\
  root_commitment s
    = root_of_nodes sha256 (nodes s) (seq 0 (length (nodes s))).
Proof.
  unfold segment_sealed. destruct ns as [|n0 l0] eqn:En; [done|]. rewrite <- En in *. clear En.
  change (map (fun n => node_sealed sha256 (bytecode n) (signatures n) (witnesses n) (parents n)) ns)
    with (map reseal ns). set (N := map reseal ns). cbv zeta. intros H.
  apply bind_ok in H as ([] & Hp & H). apply bind_ok in H as (order & Ho & H).
  apply bind_ok in H as ([] & Hv & H). injection H as <-. cbn [nodes root_commitment].
  apply topological_order_ok in Ho as Hord.
  assert (Hperm := ordered_perm _ _ Hord).
  pose proof (proj1 (validate_structure_ok _ _) Hv) as (Hr & _).
  assert (Hnd : NoDup (map node_id N)).
  { destruct Hr as (_ & Hr & _). cbn [nodes] in Hr. by rewrite Hperm in Hr. }
  split; [done|]. split.
  { intros n p Hn Hpp. apply try_each_ok in Hp. rewrite Forall_forall in Hp.
    specialize (Hp n Hn). apply try_each_ok in Hp. rewrite Forall_forall in Hp.
    specialize (Hp p Hpp). by case_decide. }
  split; [done|]. split; [|done].
  rewrite omap_lookup_map by (intros i; apply Hord). by apply is_order_canonical.
Qed.

Lemma segment_sealed_intro ns s :
  ns <> [] ->
  NoDup (map node_id (map reseal ns)) ->
  (forall n p, n ∈ map reseal ns -> p ∈ parents n -> p ∈ map node_id (map reseal ns)) ->
  (forall n, n ∈ nodes s -> n ∈ map reseal ns) ->
  canonical_spec (map reseal ns) (map node_id (nodes s)) ->
  validate_structure sha256 s = Ok tt ->
  root_commitment s = root_of_nodes sha256 (nodes s) (seq 0 (length (nodes s))) ->
  segment_sealed sha256 ns = Ok s.
Proof.
  unfold segment_sealed. intros Hne Hnd Hp Hsub Hc Hv Hroot.
  destruct ns as [|n0 l0] eqn:En; [done|]. rewrite <- En in *. clear En.
  change (map (fun n => node_sealed sha256 (bytecode n) (signatures n) (witnesses n) (parents n)) ns)
    with (map reseal ns). set (N := map reseal ns) in *. cbv zeta.
  assert (Hpar : try_each (fun n => try_each (fun p =>
      if decide (p ∈ map node_id N) then Ok tt else Err (MissingParent (node_id n) p))
      (parents n)) N = Ok tt).
  { apply try_each_ok, Forall_forall. intros n Hn.
    apply try_each_ok, Forall_forall. intros p Hpp. rewrite decide_True; [done|]. eauto. }
  rewrite Hpar. simpl.
  destruct (proj2 (topological_order_iff N Hnd _) Hc) as (order & Ho & Hm).
  rewrite Ho. simpl.
  apply topological_order_ok in Ho as Hord.
  assert (Heq : omap (M:=list) (fun i : nat => N !! i) order = nodes s).
  { apply (nodes_by_ids N); [done| |done|].
    - intros n Hn. by rewrite (ordered_perm _ _ Hord) in Hn.
    - rewrite Hm. apply omap_lookup_map. intros i. apply Hord. }
  rewrite Heq, <- Hroot. destruct s as [sn sr]. cbn [nodes root_commitment] in *.
  rewrite Hv. done.
Qed.
End Sealing.

(** ** Properties *)

(** C7: [topological_order] is correct and complete on nodes with distinct identifiers, the
    precondition the code documents.  On success the order lists
    every node exactly once and every parent that resolves in the segment comes
    before its child; on failure the error is [Cycle] and there really is a
    non-empty set of nodes each having a parent in the set.  The two cases
    exclude each other. *)
Theorem topological_order_correct (ns : list DAGNode) :
  NoDup (map node_id ns) ->
  match topological_order ns with
  | Ok order =>
      order ≡ₚ seq 0 (length ns) /\
      (forall k i p j, order !! k = Some i -> p ∈ parents_at ns i -> index_of ns p = Some j ->
         exists l, l < k /\ order !! l = Some j) /\
      (forall stuck, ~ cyclic_core ns stuck)
  | Err e => (exists h, e = Cycle h) /\ exists stuck, cyclic_core ns stuck
  end.
Proof.
  intros Hnd. destruct (topological_order ns) as [order|e] eqn:E.
  - apply topological_order_ok in E as Hord. split; [by apply is_order_perm|]. split.
    + intros k i p j Hk Hp Hj. destruct Hord as (_ & _ & Hg).
      destruct (Hg k i Hk) as [(_ & _ & Hz) _]. rewrite unmet_zero in Hz.
      pose proof (Hz p j Hp Hj) as Hz'. apply elem_of_take in Hz' as (l & Hl & Hlk). eauto.
    + apply (canonical_no_core ns Hnd (map (id_at ns) order)). by apply is_order_canonical.
  - by apply topological_order_err.
Qed.

(** the canonical order is canonical.  Two segments with the same nodes in
    any order (and any claimed roots) have the same canonical order: the unique
    sequence that always emits the least identifier whose parents are out. *)
Theorem canonical_order_permutation (ns ns' : list DAGNode) (r r' : Hash) (L : list Hash) :
  ns ≡ₚ ns' ->
  canonical_order (mkSegment ns r) = Ok L ->
  canonical_order (mkSegment ns' r') = Ok L /\
  (forall L', canonical_spec ns' L' -> L' = L).
Proof.
  intros Hp HL. apply canonical_order_iff in HL as [Hr [Hg Hc]]. cbn [nodes] in *.
  assert (Hmem : forall n, n ∈ ns <-> n ∈ ns') by (intros n; by rewrite Hp).
  assert (HL' : canonical_spec ns' L).
  { split; [by eapply greedy_ids_perm|]. intros h Hh. apply Hc. by rewrite Hp. }
  split.
  - apply canonical_order_iff. cbn [nodes]. split; [by eapply relations_ok_perm|done].
  - intros L' HL2. by apply (canonical_spec_unique ns' ns').
Qed.

(** [validate_structure] accepts exactly the segments that are non-empty,
    with unique node identifiers, duplicate-free and resolvable parents and no
    self-parent, listed in their canonical order, every identifier recomputed
    from its contents and the root recomputed from the identifiers. *)
Theorem validate_structure_spec (sha256 : bytes -> Bytes32) (s : DAGSegment) :
  validate_structure sha256 s = Ok tt <->
  relations_ok (nodes s) /\ canonical_spec (nodes s) (map node_id (nodes s)) /\
  (forall n, n ∈ nodes s -> node_id n = canonical_id sha256 n) /\
  root_commitment s = root_of sha256 (map node_id (nodes s)).
Proof. apply validate_structure_ok. Qed.

(** What is hashed for a segment: its nodes and the list of their identifiers. *)
Definition segment_hashed (sha256 : bytes -> Bytes32) (s : DAGSegment) : list bytes :=
  csv_preimage sha256 (as_bytes DAG_ROOT_TAG) (hash_list (map node_id (nodes s)))
  :: flat_map (node_hashed sha256) (nodes s).
#[local] Hint Unfold segment_hashed : hashed.

(** C3: the root commitment binds the contents.  Two segments that validate and
    carry the same root have the same nodes (bytecode, signatures, witnesses,
    parents, order), or two of the strings hashed for the one and the other, for their
    contents, parents, identifiers and roots, collide.  Sizes are those the 32-bit
    length prefixes can carry. *)
Theorem dag_root_binds_nodes (sha256 : bytes -> Bytes32) (s1 s2 : DAGSegment) :
  Forall node_sized (nodes s1) -> Forall node_sized (nodes s2) ->
  (blen (nodes s1) <= u32_max)%N -> (blen (nodes s2) <= u32_max)%N ->
  validate_structure sha256 s1 = Ok tt -> validate_structure sha256 s2 = Ok tt ->
  root_commitment s1 = root_commitment s2 ->
  nodes s1 = nodes s2 \/ collision_in sha256 (segment_hashed sha256 s1 ++ segment_hashed sha256 s2).
Proof.
  intros Hs1 Hs2 Hl1 Hl2 H1 H2 Hroot.
  apply validate_structure_ok in H1 as (_ & _ & Hid1 & Hr1), H2 as (_ & _ & Hid2 & Hr2).
  rewrite Hr1, Hr2 in Hroot. unfold root_of in Hroot. hash_inj Hroot.
  apply hash_list_inj in Hroot; [|by unfold blen in *; rewrite length_map..].
  apply ids_determine_nodes; [done..| | |done]; unfold segment_hashed; set_solver.
Qed.

(** sealing.  A sealed segment validates, its nodes are the supplied ones
    with recomputed identifiers, and the result does not depend on the order
    the nodes were supplied in. *)
Theorem segment_sealed_canonical (sha256 : bytes -> Bytes32) (ns ns' : list DAGNode) s :
  segment_sealed sha256 ns = Ok s -> ns ≡ₚ ns' ->
  validate_structure sha256 s = Ok tt /\ nodes s ≡ₚ map (reseal sha256) ns /\
  segment_sealed sha256 ns' = Ok s.
Proof.
  intros H Hp. pose proof (segment_sealed_inv _ _ _ H) as (Hnd & Hpar & Hperm & Hc & Hv & Hroot).
  split; [done|]. split; [done|].
  assert (Hmap : map (reseal sha256) ns ≡ₚ map (reseal sha256) ns') by (by rewrite Hp).
  assert (Hmem : forall n, n ∈ map (reseal sha256) ns <-> n ∈ map (reseal sha256) ns')
    by (intros n; by rewrite Hmap).
  apply segment_sealed_intro.
  - intros ->. apply Permutation_nil_r in Hp as ->. done.
  - by rewrite <- Hmap.
  - intros n p Hn Hpp. apply Hmem in Hn. rewrite <- Hmap. eauto.
  - intros n Hn. apply Hmem. by rewrite <- Hperm.
  - destruct Hc as [Hg Hc]. split; [by eapply greedy_ids_perm|].
    intros h Hh. apply Hc. by rewrite Hmap.
  - done.
  - done.
Qed.

(** ** Witnesses *)

(** A diamond: two roots, a child of each, supplied out of order. *)
Definition demo_node (c : byte) (ps : list Hash) : DAGNode :=
  reseal toy_hash (mkNode Hash.zero [c] [] [] ps).
Definition demo_a := demo_node Byte.x61 [].
Definition demo_b := demo_node Byte.x62 [].
Definition demo_c := demo_node Byte.x63 [node_id demo_a; node_id demo_b].

Definition demo_supplied : list DAGNode := [demo_c; demo_b; demo_a].
Definition demo_listed : list DAGNode := [demo_a; demo_b; demo_c].

Lemma demo_perm : demo_supplied ≡ₚ demo_listed.
Proof. apply (Permutation_rev demo_supplied). Qed.

Lemma topological_order_correct_witness :
  exists order, topological_order demo_supplied = Ok order /\ order ≡ₚ seq 0 3.
Proof.
  destruct (is_ok_inv (topological_order demo_supplied) ltac:(by vm_compute)) as [order E].
  exists order. split; [exact E|].
  pose proof (topological_order_correct demo_supplied) as H. rewrite E in H. apply H.
  apply (bool_decide_unpack (NoDup (map node_id demo_supplied))). vm_compute. exact I.
Defined.

Lemma canonical_order_permutation_witness :
  exists L, canonical_order (mkSegment demo_supplied Hash.zero) = Ok L /\
            canonical_order (mkSegment demo_listed Hash.zero) = Ok L.
Proof.
  destruct (is_ok_inv (canonical_order (mkSegment demo_supplied Hash.zero))
              ltac:(by vm_compute)) as [L E].
  exists L. split; [exact E|].
  exact (proj1 (canonical_order_permutation demo_supplied demo_listed
                  Hash.zero Hash.zero L demo_perm E)).
Defined.

Lemma segment_sealed_canonical_witness :
  exists s, segment_sealed toy_hash demo_supplied = Ok s /\
            segment_sealed toy_hash demo_listed = Ok s.
Proof.
  destruct (is_ok_inv (segment_sealed toy_hash demo_supplied) ltac:(by vm_compute))
    as [s E].
  exists s. split; [exact E|].
  exact (proj2 (proj2 (segment_sealed_canonical toy_hash demo_supplied demo_listed s E demo_perm))).
Defined.

Lemma dag_root_binds_nodes_witness :
  exists s, segment_sealed toy_hash demo_supplied = Ok s /\
            (nodes s = nodes s \/
             collision_in toy_hash (segment_hashed toy_hash s ++ segment_hashed toy_hash s)).
Proof.
  destruct (is_ok_inv (segment_sealed toy_hash demo_supplied) ltac:(by vm_compute))
    as [s E].
  exists s. split; [exact E|].
  pose proof (segment_sealed_inv _ _ _ E) as (_ & _ & Hp & _ & Hv & _).
  assert (Hsz : Forall node_sized (nodes s)).
  { rewrite Hp. repeat constructor; unfold all_sized; vm_compute; try done; repeat constructor; done. }
  assert (Hl : (blen (nodes s) <= u32_max)%N).
  { unfold blen. rewrite Hp. vm_compute. done. }
  exact (dag_root_binds_nodes toy_hash s s Hsz Hsz Hl Hl Hv Hv eq_refl).
Defined.
