(* ===== verification/DagCodec.v ===== *)
(** * The wire forms of DAG nodes and segments (csv-hash/src/dag.rs)

    [to_canonical_bytes] / [from_canonical_bytes] of nodes and segments, and the
    MCE framing of a segment around the codec of nodes, whose two functions call
    each other without end: both are written with fuel, and return nothing on any
    amount of it.  The cursor decoders are written with the readers of Bytes.v;
    each of them returns the unread suffix, which the top-level decoders drop, as
    the code does: bytes after the last field are ignored. *)

From S2P Require Import Prelude Ord Bytes Hashing Dag.

(** ** Encoding *)

(** [DAGNode::to_canonical_bytes] *)
Definition node_to_canonical_bytes (n : DAGNode) : bytes :=
  b32 (node_id n) ++ sized (bytecode n) ++ sized_list (signatures n) ++
  sized_list (witnesses n) ++ hash_list (parents n).

(** [DAGSegment::to_canonical_bytes] *)
Definition segment_to_canonical_bytes (s : DAGSegment) : bytes :=
  sized_list (map node_to_canonical_bytes (nodes s)) ++ b32 (root_commitment s).

(** ** Decoding *)

Definition read_list {E A} (e : E) (rd : bytes -> result E (A * bytes)) (rest : bytes)
  : result E (list A * bytes) :=
  '(n, rest1) ← read_u32_le e rest; read_many (N.to_nat n) rd rest1.

(** The fields of a node in order, with the unread suffix. *)
Definition node_read (rest : bytes) : result string (DAGNode * bytes) :=
  '(id, rest) ← read_b32 "Insufficient bytes for node_id"%string rest;
  '(code, rest) ← read_sized "Insufficient bytes for bytecode length"%string
                             "Insufficient bytes for bytecode"%string rest;
  '(sigs, rest) ← read_list "Insufficient bytes for signatures length"%string
                    (read_sized "Insufficient bytes for signature length"%string
                                "Insufficient bytes for signature"%string) rest;
  '(wits, rest) ← read_list "Insufficient bytes for witnesses length"%string
                    (read_sized "Insufficient bytes for witness length"%string
                                "Insufficient bytes for witness"%string) rest;
  '(ps, rest) ← read_list "Insufficient bytes for parents length"%string
                  (read_b32 "Insufficient bytes for parent hash"%string) rest;
  Ok (mkNode id code sigs wits ps, rest).

(** [DAGNode::from_canonical_bytes] *)
Definition node_from_canonical_bytes (b : bytes) : result string DAGNode :=
  fst <$> node_read b.

(** One framed item: a length, that many bytes, decoded on their own. *)
Definition read_framed {E A} (e_len e_body : E) (dec : bytes -> result E A) (rest : bytes)
  : result E (A * bytes) :=
  '(body, rest) ← read_sized e_len e_body rest;
  x ← dec body;
  Ok (x, rest).

Definition segment_read {E} (e_n e_len e_body e_root : E) (dec : bytes -> result E DAGNode)
    (b : bytes) : result E (DAGSegment * bytes) :=
  '(ns, rest) ← read_list e_n (read_framed e_len e_body dec) b;
  '(root, rest) ← read_b32 e_root rest;
  Ok (mkSegment ns root, rest).

(** [DAGSegment::from_canonical_bytes] *)
Definition segment_from_canonical_bytes (b : bytes) : result string DAGSegment :=
  fst <$> segment_read "Insufficient bytes for nodes length"%string
            "Insufficient bytes for node length"%string
            "Insufficient bytes for node"%string
            "Insufficient bytes for root_commitment"%string
            node_from_canonical_bytes b.

(** ** The MCE framing

    A node has no MCE codec of its own: [encode] sends the format to [encode_mce], which is the
    trait's default (csv-codec/src/manual_encoder.rs) and sends it back to [encode]; decoding
    does the same.  The calls carry fuel, and [NotReturned] is a call that has not returned when it
    is spent: no amount is enough. *)

Inductive CodecError :=
| SerializationError (msg : string)
| DeserializationError (msg : string)
| IntegrityError (msg : string)
| SchemaValidationError (msg : string).

(** How a call of a node's codec ends. *)
Inductive Unencoded := CodecFailed (e : CodecError) | NotReturned.

Inductive EncodingFormat := MCE | ManualBinary.

(** [CanonicalEncoding for DAGNode] and the defaults of the trait it takes *)
Fixpoint node_encode (fuel : nat) (n : DAGNode) (f : EncodingFormat) : result Unencoded bytes :=
  match fuel with
  | O => Err NotReturned
  | S fuel => match f with
              | MCE => node_encode_mce fuel n
              | ManualBinary => Ok (node_to_canonical_bytes n)
              end
  end
with node_encode_mce (fuel : nat) (n : DAGNode) : result Unencoded bytes :=
  match fuel with O => Err NotReturned | S fuel => node_encode fuel n MCE end.

Fixpoint node_decode (fuel : nat) (b : bytes) (f : EncodingFormat) : result Unencoded DAGNode :=
  match fuel with
  | O => Err NotReturned
  | S fuel => match f with
              | MCE => node_decode_mce fuel b
              | ManualBinary =>
                  map_err (fun e => CodecFailed (DeserializationError e)) (node_from_canonical_bytes b)
              end
  end
with node_decode_mce (fuel : nat) (b : bytes) : result Unencoded DAGNode :=
  match fuel with O => Err NotReturned | S fuel => node_decode fuel b MCE end.

(** [for x in l { out.push(f(x)?) }] *)
Fixpoint try_map {E A B} (f : A -> result E B) (l : list A) : result E (list B) :=
  match l with
  | [] => Ok []
  | x :: l' => y ← f x; ys ← try_map f l'; Ok (y :: ys)
  end.

(** [DAGSegment::encode_mce] *)
Definition encode_mce (fuel : nat) (s : DAGSegment) : result Unencoded bytes :=
  bodies ← try_map (node_encode_mce fuel) (nodes s);
  Ok (u32_le (blen (nodes s)) ++ flat_map sized bodies ++ b32 (root_commitment s)).

(** [DAGSegment::decode_mce] *)
Definition decode_mce (fuel : nat) (b : bytes) : result Unencoded DAGSegment :=
  let short e := CodecFailed (DeserializationError e) in
  fst <$> segment_read (short "Insufficient bytes for nodes length"%string)
            (short "Insufficient bytes for node length"%string)
            (short "Insufficient bytes for node data"%string)
            (short "Insufficient bytes for root commitment"%string)
            (node_decode_mce fuel) b.

(** [CanonicalEncoding for DAGSegment]: the format selects the codec, and the
    manual decoder's message becomes a deserialization error. *)
Definition segment_encode (fuel : nat) (s : DAGSegment) (f : EncodingFormat) : result Unencoded bytes :=
  match f with MCE => encode_mce fuel s | ManualBinary => Ok (segment_to_canonical_bytes s) end.

Definition segment_decode (fuel : nat) (b : bytes) (f : EncodingFormat) : result Unencoded DAGSegment :=
  match f with
  | MCE => decode_mce fuel b
  | ManualBinary => map_err (fun e => CodecFailed (DeserializationError e)) (segment_from_canonical_bytes b)
  end.

(** ** Lemmas *)

Lemma read_list_app {E A} (e : E) (rd : bytes -> result E (A * bytes)) (enc : A -> bytes)
    (P : A -> Prop) xs rest :
  (forall x k, P x -> rd (enc x ++ k) = Ok (x, k)) -> Forall P xs -> (blen xs <= u32_max)%N ->
  read_list e rd (u32_le (blen xs) ++ flat_map enc xs ++ rest) = Ok (xs, rest).
Proof.
  intros Hrd Hxs Hl. unfold read_list. rewrite read_u32_le_app by done. simpl.
  unfold blen. rewrite Nat2N.id. by apply (read_many_app rd enc P).
Qed.

Lemma read_sized_sized {E} (e1 e2 : E) b rest :
  (blen b <= u32_max)%N -> read_sized e1 e2 (sized b ++ rest) = Ok (b, rest).
Proof. intros. unfold sized. rewrite <- app_assoc. by apply read_sized_app. Qed.

Lemma read_sized_list {E} (e e1 e2 : E) l rest :
  all_sized l -> read_list e (read_sized e1 e2) (sized_list l ++ rest) = Ok (l, rest).
Proof.
  intros [Hl Hs]. unfold sized_list. rewrite <- app_assoc.
  apply (read_list_app e _ sized (fun b => (blen b <= u32_max)%N)); [|done|done].
  intros. by apply read_sized_sized.
Qed.

Lemma read_hash_list {E} (e e1 : E) (l : list Hash) rest :
  (blen l <= u32_max)%N -> read_list e (read_b32 e1) (hash_list l ++ rest) = Ok (l, rest).
Proof.
  intros Hl. unfold hash_list. rewrite <- app_assoc.
  apply (read_list_app e _ b32 (fun _ => True)); [|by apply Forall_true|done].
  intros. apply read_b32_app.
Qed.

#[local] Opaque u32_le sized sized_list hash_list.

Lemma node_read_app n rest :
  node_sized n -> node_read (node_to_canonical_bytes n ++ rest) = Ok (n, rest).
Proof.
  intros (Hb & Hs & Hw & Hp). unfold node_read, node_to_canonical_bytes.
  rewrite <- !app_assoc, read_b32_app. simpl.
  rewrite read_sized_sized by done. simpl.
  rewrite read_sized_list by done. simpl.
  rewrite read_sized_list by done. simpl.
  rewrite read_hash_list by done. simpl. by destruct n.
Qed.

Lemma node_from_to n rest :
  node_sized n -> node_from_canonical_bytes (node_to_canonical_bytes n ++ rest) = Ok n.
Proof. intros H. unfold node_from_canonical_bytes. by rewrite node_read_app. Qed.

Lemma try_map_ok {E A B} (f : A -> result E B) l k :
  try_map f l = Ok k <-> Forall2 (fun x y => f x = Ok y) l k.
Proof.
  revert k. induction l as [|x l IH]; intros k; simpl.
  - split; [by intros [= <-]|]. by inversion 1.
  - rewrite bind_ok. split.
    + intros (y & Hy & H). apply bind_ok in H as (ys & Hys & [= <-]).
      constructor; [done|]. by apply IH.
    + inversion 1 as [|? y ? ys Hy Hys]; subst. exists y. split; [done|].
      apply bind_ok. exists ys. split; [by apply IH|done].
Qed.

Lemma read_many_framed {E A} (e1 e2 : E) (dec : bytes -> result E A) xs bodies rest :
  Forall2 (fun x b => dec b = Ok x) xs bodies ->
  Forall (fun b => (blen b <= u32_max)%N) bodies ->
  read_many (length xs) (read_framed e1 e2 dec) (flat_map sized bodies ++ rest) = Ok (xs, rest).
Proof.
  induction 1 as [|x b xs bodies Hx Hxs IH]; intros Hb; [done|].
  apply Forall_cons in Hb as [Hb1 Hb]. simpl. rewrite <- app_assoc.
  assert (Hr : forall k, read_framed e1 e2 dec (sized b ++ k) = Ok (x, k)).
  { intros k. unfold read_framed. rewrite read_sized_sized by done. simpl. by rewrite Hx. }
  rewrite Hr. simpl. by rewrite IH.
Qed.

Lemma segment_read_app {E} (e1 e2 e3 e4 : E) dec s bodies rest :
  Forall2 (fun n b => dec b = Ok n) (nodes s) bodies ->
  Forall (fun b => (blen b <= u32_max)%N) bodies ->
  (blen (nodes s) <= u32_max)%N ->
  segment_read e1 e2 e3 e4 dec
    (u32_le (blen (nodes s)) ++ flat_map sized bodies ++ b32 (root_commitment s) ++ rest)
  = Ok (s, rest).
Proof.
  intros Hd Hb Hl. unfold segment_read, read_list. rewrite read_u32_le_app by done. simpl.
  unfold blen. rewrite Nat2N.id, (read_many_framed e2 e3 dec _ bodies) by done. simpl.
  rewrite read_b32_app. simpl. by destruct s.
Qed.

(** What the length prefixes of a format can carry. *)
Definition segment_sized (s : DAGSegment) : Prop :=
  (blen (nodes s) <= u32_max)%N /\
  Forall (fun n => node_sized n /\ (blen (node_to_canonical_bytes n) <= u32_max)%N) (nodes s).

#[local] Transparent u32_le sized sized_list hash_list.
#[local] Arguments u32_le : simpl never.

Lemma segment_from_to s rest :
  segment_sized s ->
  segment_from_canonical_bytes (segment_to_canonical_bytes s ++ rest) = Ok s.
Proof.
  intros [Hl Hn]. unfold segment_from_canonical_bytes, segment_to_canonical_bytes, sized_list.
  assert (Hlen : blen (map node_to_canonical_bytes (nodes s)) = blen (nodes s))
    by (unfold blen; by rewrite length_map).
  rewrite <- !app_assoc, Hlen, segment_read_app; [done| | |done].
  - clear Hl Hlen. apply Forall2_fmap_r, Forall_Forall2_diag, (Forall_impl _ _ _ Hn).
    intros n [Hns _]. simpl. rewrite <- (app_nil_r (node_to_canonical_bytes n)).
    by apply node_from_to.
  - apply Forall_map. eapply Forall_impl; [exact Hn|]. simpl. by intros n [_ ?].
Qed.

(** A node's MCE codec returns at no fuel. *)
Lemma node_mce_unfinished fuel n :
  node_encode fuel n MCE = Err NotReturned /\ node_encode_mce fuel n = Err NotReturned.
Proof.
  induction fuel as [|fuel [IH1 IH2]]; [done|]. split; [exact IH2|exact IH1].
Qed.

Lemma node_decode_mce_unfinished fuel b :
  node_decode fuel b MCE = Err NotReturned /\ node_decode_mce fuel b = Err NotReturned.
Proof.
  induction fuel as [|fuel [IH1 IH2]]; [done|]. split; [exact IH2|exact IH1].
Qed.

(** A segment that the MCE form decodes to has no node. *)
Lemma decode_mce_empty fuel b s : decode_mce fuel b = Ok s -> nodes s = [].
Proof.
  unfold decode_mce. destruct (segment_read _ _ _ _ _ b) as [[t rest]|] eqn:H; [|done]. intros [= <-].
  unfold segment_read in H. apply bind_ok in H as ([ns r1] & Hn & H).
  apply bind_ok in H as ([root r2] & _ & [= <- _]). cbn.
  unfold read_list in Hn. apply bind_ok in Hn as ([n r0] & _ & Hn).
  destruct (N.to_nat n) as [|k]; [by injection Hn as <- _|].
  cbn [read_many] in Hn. apply bind_ok in Hn as ([x r3] & Hx & _). unfold read_framed in Hx.
  apply bind_ok in Hx as ([body r4] & _ & Hx).
  by rewrite (proj2 (node_decode_mce_unfinished fuel body)) in Hx.
Qed.

(** ** Properties *)

(** the wire forms of a segment.  In the manual form decoding what was encoded gives the
    segment back, whatever bytes follow, for sizes the 32-bit prefixes carry.  In the MCE
    form encoding returns exactly on segments without nodes, which then decode; on any other
    segment no fuel is enough, and no bytes decode to a segment that has a node. *)
Theorem segment_codec_roundtrip (fuel : nat) (s : DAGSegment) (junk : bytes) (Hs : segment_sized s) :
  (forall b, segment_encode fuel s ManualBinary = Ok b ->
     segment_decode fuel (b ++ junk) ManualBinary = Ok s) /\
  (nodes s = [] -> exists b, segment_encode fuel s MCE = Ok b /\ segment_decode fuel (b ++ junk) MCE = Ok s) /\
  (nodes s <> [] -> segment_encode fuel s MCE = Err NotReturned) /\
  (forall b t, segment_decode fuel b MCE = Ok t -> nodes t = []).
Proof.
  split; [|split; [|split]].
  - intros b [= <-]. cbn [segment_decode]. by rewrite segment_from_to.
  - intros Hn. exists (u32_le 0 ++ b32 (root_commitment s)). cbn [segment_encode segment_decode].
    unfold encode_mce. rewrite Hn. split; [done|]. unfold decode_mce.
    pose proof (segment_read_app (CodecFailed (DeserializationError "Insufficient bytes for nodes length"))
      (CodecFailed (DeserializationError "Insufficient bytes for node length"))
      (CodecFailed (DeserializationError "Insufficient bytes for node data"))
      (CodecFailed (DeserializationError "Insufficient bytes for root commitment"))
      (node_decode_mce fuel) s [] junk) as H.
    rewrite Hn in H. cbn [flat_map app] in H. rewrite <- app_assoc. cbn zeta.
    change (blen (@nil DAGNode)) with 0%N in H. rewrite H; [done|constructor|constructor|done].
  - intros Hn. cbn [segment_encode]. unfold encode_mce. destruct (nodes s) as [|n l]; [done|].
    cbn [try_map]. by rewrite (proj2 (node_mce_unfinished fuel n)).
  - apply decode_mce_empty.
Qed.

(** ** Witnesses *)

Definition sizedb (b : bytes) : bool := (blen b <=? u32_max)%N.
Definition node_sizedb (n : DAGNode) : bool :=
  sizedb (bytecode n) && ((blen (signatures n) <=? u32_max)%N && forallb sizedb (signatures n)) &&
  ((blen (witnesses n) <=? u32_max)%N && forallb sizedb (witnesses n)) &&
  (blen (parents n) <=? u32_max)%N.

Lemma node_sizedb_spec n : node_sizedb n = true -> node_sized n.
Proof.
  unfold node_sizedb, node_sized, all_sized, sizedb.
  rewrite !andb_true_iff, !forallb_forall, !N.leb_le, !Forall_forall.
  intros (((? & ? & Hs) & ? & Hw) & ?). repeat split; try done;
    intros b Hb; apply list_elem_of_In in Hb; apply N.leb_le; [by apply Hs|by apply Hw].
Qed.

Lemma segment_sized_intro s :
  (blen (nodes s) <=? u32_max)%N &&
    forallb (fun n => node_sizedb n && sizedb (node_to_canonical_bytes n)) (nodes s) = true ->
  segment_sized s.
Proof.
  intros [H1 H2]%andb_true_iff. split; [by apply N.leb_le|].
  apply Forall_forall. intros n Hn%list_elem_of_In.
  apply (proj1 (forallb_forall _ _) H2) in Hn as [Hn1 Hn2]%andb_true_iff.
  split; [by apply node_sizedb_spec|by apply N.leb_le].
Qed.

Lemma segment_codec_roundtrip_witness :
  segment_decode 9 (segment_to_canonical_bytes (mkSegment demo_listed Hash.zero) ++ [Byte.xff]) ManualBinary
    = Ok (mkSegment demo_listed Hash.zero) /\
  segment_encode 9 (mkSegment demo_listed Hash.zero) MCE = Err NotReturned.
Proof.
  assert (H : segment_sized (mkSegment demo_listed Hash.zero))
    by (apply segment_sized_intro; by vm_compute).
  destruct (segment_codec_roundtrip 9 (mkSegment demo_listed Hash.zero) [Byte.xff] H) as (H1 & _ & H3 & _).
  split; [by apply H1|by apply H3].
Defined.
