(* ===== verification/Text.v ===== *)
(** * Text: UTF-8, character classes, decimal rendering

    A Rust [String] is a byte string that is valid UTF-8; the model uses
    [string] for it and states validity where a decoder has to establish it.
    [from_utf8] follows the standard library's validation, whose error names the
    offset and length of the first bad sequence. *)

From stdpp Require Export pretty.
From S2P Require Import Prelude Ord Bytes.

(** ** Decoding one character *)

Inductive utf8_step_result :=
| Utf8Char (code : N) (width : nat)
| Utf8Bad (error_len : option nat).

Definition in_range (lo hi n : N) : bool := (lo <=? n)%N && (n <=? hi)%N.
Definition is_cont (b : byte) : bool := in_range 128 191 (Byte.to_N b).
Definition cont_bits (b : byte) : N := (Byte.to_N b - 128)%N.

(** The range of the second byte, by the first: excludes overlong forms,
    surrogates and code points above U+10FFFF. *)
Definition second_range (first : N) : N * N :=
  if (first =? 224)%N then (160, 191)%N
  else if (first =? 237)%N then (128, 159)%N
  else if (first =? 240)%N then (144, 191)%N
  else if (first =? 244)%N then (128, 143)%N
  else (128, 191)%N.

Definition second_ok (first : N) (b : byte) : bool :=
  let '(lo, hi) := second_range first in in_range lo hi (Byte.to_N b).

Definition utf8_step (b0 : byte) (rest : bytes) : utf8_step_result :=
  let n := Byte.to_N b0 in
  if (n <? 128)%N then Utf8Char n 1
  else if in_range 194 223 n then
    match rest with
    | [] => Utf8Bad None
    | b1 :: _ => if is_cont b1 then Utf8Char ((n - 192) * 64 + cont_bits b1) 2
                 else Utf8Bad (Some 1)
    end
  else if in_range 224 239 n then
    match rest with
    | [] => Utf8Bad None
    | b1 :: rest1 =>
        if second_ok n b1 then
          match rest1 with
          | [] => Utf8Bad None
          | b2 :: _ => if is_cont b2
                       then Utf8Char ((n - 224) * 4096 + cont_bits b1 * 64 + cont_bits b2) 3
                       else Utf8Bad (Some 2)
          end
        else Utf8Bad (Some 1)
    end
  else if in_range 240 244 n then
    match rest with
    | [] => Utf8Bad None
    | b1 :: rest1 =>
        if second_ok n b1 then
          match rest1 with
          | [] => Utf8Bad None
          | b2 :: rest2 =>
              if is_cont b2 then
                match rest2 with
                | [] => Utf8Bad None
                | b3 :: _ => if is_cont b3
                             then Utf8Char ((n - 240) * 262144 + cont_bits b1 * 4096
                                            + cont_bits b2 * 64 + cont_bits b3) 4
                             else Utf8Bad (Some 3)
                end
              else Utf8Bad (Some 2)
          end
        else Utf8Bad (Some 1)
    end
  else Utf8Bad (Some 1).

(** ** Validation

    [Utf8Error]: how much was valid, and the length of the bad sequence. *)
Record Utf8Error := mkUtf8Error { valid_up_to : nat; error_len : option nat }.

Fixpoint utf8_chars (fuel : nat) (pos : nat) (l : bytes) : result Utf8Error (list N) :=
  match fuel, l with
  | _, [] => Ok []
  | O, _ => Err (mkUtf8Error pos None)
  | S fuel', b :: rest =>
      match utf8_step b rest with
      | Utf8Char c w => cs ← utf8_chars fuel' (pos + w) (drop (w - 1) rest); Ok (c :: cs)
      | Utf8Bad e => Err (mkUtf8Error pos e)
      end
  end.

(** Every step consumes at least a byte, so the input's length is enough fuel. *)
Definition chars_of (l : bytes) : result Utf8Error (list N) := utf8_chars (length l) 0 l.

Definition is_utf8 (s : string) : bool := is_ok (chars_of (as_bytes s)).
Definition chars (s : string) : list N :=
  match chars_of (as_bytes s) with Ok cs => cs | Err _ => [] end.

Definition of_bytes (l : bytes) : string := String.string_of_list_byte l.

(** [String::from_utf8] *)
Definition from_utf8 (l : bytes) : result Utf8Error string :=
  _ ← chars_of l; Ok (of_bytes l).

Definition show_nat (n : nat) : string := pretty (N.of_nat n).

(** [Display for Utf8Error] *)
Definition utf8_error_message (e : Utf8Error) : string :=
  match error_len e with
  | Some k => "invalid utf-8 sequence of " +:+ show_nat k +:+ " bytes from index "
              +:+ show_nat (valid_up_to e)
  | None => "incomplete utf-8 byte sequence from index " +:+ show_nat (valid_up_to e)
  end.

(** ** Character classes *)

(** [char::is_whitespace]: Unicode White_Space. *)
Definition is_whitespace (c : N) : bool :=
  in_range 9 13 c || (c =? 32)%N || (c =? 133)%N || (c =? 160)%N || (c =? 5760)%N ||
  in_range 8192 8202 c || (c =? 8232)%N || (c =? 8233)%N || (c =? 8239)%N ||
  (c =? 8287)%N || (c =? 12288)%N.

(** [char::is_control]: general category Cc. *)
Definition is_control (c : N) : bool := in_range 0 31 c || in_range 127 159 c.

(** [s.trim() == s]: nothing to trim at either end. *)
Definition is_trimmed (s : string) : bool :=
  match chars s with
  | [] => true
  | c :: cs => negb (is_whitespace c) && negb (is_whitespace (List.last cs c))
  end.

(** [s.len()] counts bytes. *)
Definition slen (s : string) : N := blen (as_bytes s).

(** [s.to_lowercase()], on the ASCII letters.  The program compares the result
    with ASCII names only; no character outside ASCII lower-cases into one of
    the letters of those names, so folding ASCII decides the same comparisons. *)
Definition ascii_lower (b : byte) : byte :=
  if in_range 65 90 (Byte.to_N b) then byte_of (Byte.to_N b + 32) else b.
Definition to_lowercase (s : string) : string := of_bytes (map ascii_lower (as_bytes s)).

(** [xs.join(sep)] *)
Fixpoint join (sep : string) (l : list string) : string :=
  match l with
  | [] => EmptyString
  | [x] => x
  | x :: l' => x +:+ sep +:+ join sep l'
  end.

(** ** Lemmas *)

Lemma of_bytes_as_bytes s : of_bytes (as_bytes s) = s.
Proof. apply String.string_of_list_byte_of_string. Qed.

Lemma as_bytes_of_bytes l : as_bytes (of_bytes l) = l.
Proof. apply String.list_byte_of_string_of_list_byte. Qed.

Lemma from_utf8_as_bytes s : is_utf8 s = true -> from_utf8 (as_bytes s) = Ok s.
Proof.
  unfold is_utf8, from_utf8. destruct (chars_of (as_bytes s)); simpl; [|done].
  by rewrite of_bytes_as_bytes.
Qed.

Lemma from_utf8_ok l s : from_utf8 l = Ok s -> is_utf8 s = true /\ as_bytes s = l.
Proof.
  unfold from_utf8, is_utf8. intros (cs & Hc & [= <-])%bind_ok.
  by rewrite as_bytes_of_bytes, Hc.
Qed.

Lemma utf8_step_width b rest c w :
  utf8_step b rest = Utf8Char c w -> 1 <= w <= S (length rest).
Proof.
  unfold utf8_step, second_ok. intros H.
  repeat (case_match; simplify_eq/=; try lia).
Qed.

(** Fuel: with at least as much fuel as bytes, the answer no longer depends on it. *)
Lemma utf8_chars_fuel n m pos l :
  length l <= n -> length l <= m -> utf8_chars n pos l = utf8_chars m pos l.
Proof.
  revert m pos l. induction n as [|n IH]; intros [|m] pos [|b rest] Hn Hm; simpl in *; try lia;
    try done.
  destruct (utf8_step b rest) as [c w|e] eqn:Hs; [|done].
  apply utf8_step_width in Hs. f_equal. apply IH; rewrite length_drop; lia.
Qed.

(** ASCII text is its own character sequence. *)
Lemma utf8_chars_ascii n pos l :
  length l <= n -> Forall (fun b => (Byte.to_N b < 128)%N) l ->
  utf8_chars n pos l = Ok (map Byte.to_N l).
Proof.
  revert n pos. induction l as [|b l IH]; intros [|n] pos Hn Hl; simpl in *; try lia; try done.
  apply Forall_cons in Hl as [Hb Hl]. unfold utf8_step.
  rewrite (proj2 (N.ltb_lt _ _) Hb). simpl. rewrite IH; [done|lia|done].
Qed.

Lemma chars_ascii s :
  Forall (fun b => (Byte.to_N b < 128)%N) (as_bytes s) ->
  is_utf8 s = true /\ chars s = map Byte.to_N (as_bytes s).
Proof. intros H. unfold is_utf8, chars, chars_of. by rewrite utf8_chars_ascii. Qed.

(** * Canonical binary forms built from prefix-free pieces

    The program's digests hash byte strings assembled field by field: big-endian
    32-bit lengths, tagged options, counted lists.  Each piece is prefix free on
    the values its length field can carry, and prefix freeness composes, so a
    whole form is injective.  The little-endian forms of DAG segments and proof
    bundles are decoded, and are covered by their round trips instead. *)

(** [enc x] is determined by any byte string it starts. *)
Class PrefixFree {A} (P : A -> Prop) (enc : A -> bytes) : Prop :=
  prefix_free x y k l : P x -> P y -> enc x ++ k = enc y ++ l -> x = y /\ k = l.

Lemma prefix_free_inj {A} (P : A -> Prop) enc `{!PrefixFree P enc} x y :
  P x -> P y -> enc x = enc y -> x = y.
Proof. intros Hx Hy H. apply (prefix_free x y [] []); [done|done|]. by rewrite !app_nil_r. Qed.

(** Encodings of one fixed length are prefix free as soon as they are injective. *)
Lemma prefix_free_fixed {A} (P : A -> Prop) (enc : A -> bytes) n :
  (forall x, length (enc x) = n) -> (forall x y, P x -> P y -> enc x = enc y -> x = y) ->
  PrefixFree P enc.
Proof.
  intros Hn Hi x y k l Hx Hy H. apply app_eq_length_inj in H as [H ->]; [|by rewrite !Hn].
  split; [by apply Hi|done].
Qed.

(** ** Pieces *)

(** [push_u32], [value.to_be_bytes()] *)
Definition push_u32 (v : N) : bytes := u32_be v.
(** [push_text] *)
Definition push_text (s : string) : bytes := push_u32 (slen s) ++ as_bytes s.
(** A length and the bytes *)
Definition push_bytes (b : bytes) : bytes := push_u32 (blen b) ++ b.
(** [Some] and [None] as a tag byte *)
Definition push_option {A} (enc : A -> bytes) (o : option A) : bytes :=
  match o with Some x => Byte.x01 :: enc x | None => [Byte.x00] end.
(** A count and the items *)
Definition push_list {A} (enc : A -> bytes) (l : list A) : bytes :=
  push_u32 (blen l) ++ flat_map enc l.

Definition fits {A} (l : list A) : Prop := (blen l <= u32_max)%N.
Definition text_fits (s : string) : Prop := (slen s <= u32_max)%N.
Definition opt_ok {A} (P : A -> Prop) (o : option A) : Prop := forall x, o = Some x -> P x.
Definition list_ok {A} (P : A -> Prop) (l : list A) : Prop := fits l /\ Forall P l.

#[export] Instance pf_b32 : PrefixFree (fun _ => True) b32.
Proof. apply (prefix_free_fixed _ _ 32); [apply b32_length|]. intros. by apply b32_inj. Qed.

Lemma b32_app_inj (x y : Bytes32) k l : b32 x ++ k = b32 y ++ l -> x = y /\ k = l.
Proof. by apply (prefix_free (enc := b32)). Qed.

#[export] Instance pf_u32 : PrefixFree (fun v => v <= u32_max)%N push_u32.
Proof.
  apply (prefix_free_fixed _ _ 4); [intros; apply length_be_bytes|]. intros. by apply u32_be_inj.
Qed.

#[export] Instance pf_u64 : PrefixFree (fun v => v <= u64_max)%N u64_be.
Proof.
  apply (prefix_free_fixed _ _ 8); [intros; apply length_be_bytes|]. intros. by apply u64_be_inj.
Qed.

(** A one-byte tag. *)
Lemma pf_tag {A} (tag : A -> byte) : Inj eq eq tag -> PrefixFree (fun _ => True) (fun x => [tag x]).
Proof.
  intros Hi. apply (prefix_free_fixed _ _ 1); [done|]. intros x y _ _ [= H]. by apply Hi.
Qed.

#[export] Instance pf_bytes : PrefixFree fits push_bytes.
Proof.
  intros x y k l Hx Hy H. unfold push_bytes in H. rewrite <- !app_assoc in H.
  apply (prefix_free (enc := push_u32)) in H as [Hl H]; [|done|done].
  apply app_eq_length_inj in H; [done|]. unfold blen in Hl. lia.
Qed.

#[export] Instance pf_text : PrefixFree text_fits push_text.
Proof.
  intros x y k l Hx Hy H.
  apply (prefix_free (enc := push_bytes) (as_bytes x) (as_bytes y)) in H as [H ->]; [|done|done].
  split; [by apply as_bytes_inj|done].
Qed.

#[export] Instance pf_option {A} (P : A -> Prop) enc `{!PrefixFree P enc} :
  PrefixFree (opt_ok P) (push_option enc).
Proof.
  intros [x|] [y|] k l Hx Hy H; simpl in H; try done.
  - injection H as H. apply prefix_free in H as [-> ->]; [done|by apply Hx|by apply Hy].
  - by injection H as ->.
Qed.

Lemma pf_flat_map {A} (P : A -> Prop) enc `{!PrefixFree P enc} xs ys k l :
  length xs = length ys -> Forall P xs -> Forall P ys ->
  flat_map enc xs ++ k = flat_map enc ys ++ l -> xs = ys /\ k = l.
Proof.
  revert ys. induction xs as [|x xs IH]; intros [|y ys] Hl Hx Hy H; try done.
  simpl in H. rewrite <- !app_assoc in H.
  apply Forall_cons in Hx as [Hx Hxs], Hy as [Hy Hys].
  apply prefix_free in H as [-> H]; [|done|done].
  apply IH in H as [-> ->]; [done|by injection Hl|done|done].
Qed.

#[export] Instance pf_list {A} (P : A -> Prop) enc `{!PrefixFree P enc} :
  PrefixFree (list_ok P) (push_list enc).
Proof.
  intros x y k l [Hx Px] [Hy Py] H. unfold push_list in H. rewrite <- !app_assoc in H.
  apply (prefix_free (enc := push_u32)) in H as [Hl H]; [|done|done].
  apply (pf_flat_map P enc) in H; [done| |done|done]. unfold blen in Hl. lia.
Qed.
