(* ===== verification/Accountability.v ===== *)
(** * Assurance profiles and gates (csv-accountability/src/assurance.rs)

    The accountability layer's profile (eleven dimensions, each with a status,
    reason codes and limitations), its validation and canonical form, and the
    gate that turns a profile into Pass / AttentionRequired / Block. *)

From S2P Require Import Prelude Ord Bytes Hashing Text.
From Stdlib Require Import Sorting.Sorted.

Definition MAX_ASSURANCE_ITEMS : N := 128.
Definition MAX_ASSURANCE_TEXT_BYTES : N := 512.

Inductive AssuranceDimension :=
| Structural | Cryptographic | Identity | Authority | Temporal | SingleUse
| Execution | ExternalCorroboration | Completeness | Custody | Preservation.

Inductive DimensionStatus := Satisfied | NotSatisfied | Indeterminate | NotApplicable.

Global Instance AssuranceDimension_eq_dec : EqDecision AssuranceDimension.
Proof. solve_decision. Defined.
Global Instance DimensionStatus_eq_dec : EqDecision DimensionStatus.
Proof. solve_decision. Defined.

Definition ASSURANCE_DIMENSIONS : list AssuranceDimension :=
  [Structural; Cryptographic; Identity; Authority; Temporal; SingleUse;
   Execution; ExternalCorroboration; Completeness; Custody; Preservation].

(** Content identifiers are 32-byte digests. *)
Notation EvidenceNodeId := Bytes32.
Notation VerificationContextId := Bytes32.

Record DimensionResult := mkDimensionResult {
  dr_dimension : AssuranceDimension;
  dr_status : DimensionStatus;
  assurance_level : option string;
  dr_reason_codes : list string;
  supporting_evidence_refs : list EvidenceNodeId;
  dr_limitations : list string
}.

Record AssuranceProfile := mkAssuranceProfile {
  verification_context_id : VerificationContextId;
  profile_dimensions : list DimensionResult
}.

Inductive AssuranceError := InvalidDimensions | InvalidField | InvalidGateProfile.

(** ** Validation *)

Definition invalid_text (s : string) : bool :=
  (slen s =? 0)%N || (MAX_ASSURANCE_TEXT_BYTES <? slen s)%N || negb (is_trimmed s)
  || existsb is_control (chars s).

(** [v.windows(2).any(|pair| pair[0] >= pair[1])] *)
Fixpoint not_increasing {A} `{Ord A} (l : list A) : bool :=
  match l with
  | x :: l' => match l' with
               | y :: _ => negb (ltb x y) || not_increasing l'
               | [] => false
               end
  | [] => false
  end.

Definition invalid_dimension (r : DimensionResult) : bool :=
  (MAX_ASSURANCE_ITEMS <? blen (dr_reason_codes r))%N
  || (MAX_ASSURANCE_ITEMS <? blen (supporting_evidence_refs r))%N
  || (MAX_ASSURANCE_ITEMS <? blen (dr_limitations r))%N
  || match assurance_level r with Some v => invalid_text v | None => false end
  || existsb invalid_text (dr_reason_codes r)
  || existsb invalid_text (dr_limitations r)
  || not_increasing (dr_reason_codes r)
  || not_increasing (dr_limitations r)
  || not_increasing (supporting_evidence_refs r).

Definition profile_validate (p : AssuranceProfile) : result AssuranceError unit :=
  if negb (Nat.eqb (length (profile_dimensions p)) (length ASSURANCE_DIMENSIONS))
     || existsb (fun '(r, expected) => negb (bool_decide (dr_dimension r = expected)))
                (zip (profile_dimensions p) ASSURANCE_DIMENSIONS)
     || existsb invalid_dimension (profile_dimensions p)
  then Err InvalidDimensions else Ok tt.

(** ** Canonical form and identity *)

Definition dimension_tag (d : AssuranceDimension) : byte :=
  match d with
  | Structural => Byte.x00 | Cryptographic => Byte.x01 | Identity => Byte.x02
  | Authority => Byte.x03 | Temporal => Byte.x04 | SingleUse => Byte.x05
  | Execution => Byte.x06 | ExternalCorroboration => Byte.x07 | Completeness => Byte.x08
  | Custody => Byte.x09 | Preservation => Byte.x0a
  end.

Definition status_tag (s : DimensionStatus) : byte :=
  match s with
  | Satisfied => Byte.x00 | NotSatisfied => Byte.x01 | Indeterminate => Byte.x02
  | NotApplicable => Byte.x03
  end.

Definition dimension_bytes (r : DimensionResult) : bytes :=
  [dimension_tag (dr_dimension r)] ++ [status_tag (dr_status r)] ++
  push_option push_text (assurance_level r) ++ push_list push_text (dr_reason_codes r) ++
  push_list b32 (supporting_evidence_refs r) ++ push_list push_text (dr_limitations r).

Definition canonical_bytes (p : AssuranceProfile) : result AssuranceError bytes :=
  _ ← profile_validate p;
  Ok (b32 (verification_context_id p) ++ push_list dimension_bytes (profile_dimensions p)).

(** ** Gates *)

Inductive GateDisposition := Allow | Attention | DispositionBlock.

Record DimensionGateRule := mkRule {
  rule_dimension : AssuranceDimension;
  on_satisfied : GateDisposition;
  on_not_satisfied : GateDisposition;
  on_indeterminate : GateDisposition;
  on_not_applicable : GateDisposition
}.

Record GateProfile := mkGateProfile {
  registry_id : string;
  gate_version : N;
  rules : list DimensionGateRule
}.

Inductive GateOutcome := Pass | AttentionRequired | Block.

Record GateResult := mkGateResult {
  gate_profile_id : Hash;
  result_context_id : VerificationContextId;
  assurance_profile_id : Hash;
  outcome : GateOutcome
}.

Definition gate_validate (g : GateProfile) : result AssuranceError unit :=
  if (slen (registry_id g) =? 0)%N || (MAX_ASSURANCE_TEXT_BYTES <? slen (registry_id g))%N
     || (gate_version g =? 0)%N
     || negb (Nat.eqb (length (rules g)) (length ASSURANCE_DIMENSIONS))
     || existsb (fun '(r, expected) => negb (bool_decide (rule_dimension r = expected)))
                (zip (rules g) ASSURANCE_DIMENSIONS)
  then Err InvalidGateProfile else Ok tt.

Definition disposition_tag (d : GateDisposition) : byte :=
  match d with Allow => Byte.x00 | Attention => Byte.x01 | DispositionBlock => Byte.x02 end.

Definition rule_bytes (r : DimensionGateRule) : bytes :=
  [dimension_tag (rule_dimension r); disposition_tag (on_satisfied r);
   disposition_tag (on_not_satisfied r); disposition_tag (on_indeterminate r);
   disposition_tag (on_not_applicable r)].

Definition gate_bytes (g : GateProfile) : bytes :=
  push_text (registry_id g) ++ be_bytes 2 (gate_version g) ++ flat_map rule_bytes (rules g).

Definition disposition (rule : DimensionGateRule) (s : DimensionStatus) : GateDisposition :=
  match s with
  | Satisfied => on_satisfied rule
  | NotSatisfied => on_not_satisfied rule
  | Indeterminate => on_indeterminate rule
  | NotApplicable => on_not_applicable rule
  end.

(** One turn of the loop of [GateProfile::evaluate]. *)
Definition gate_step (current : GateOutcome) (d : GateDisposition) : GateOutcome :=
  match current, d with
  | _, DispositionBlock => Block
  | Pass, Attention => AttentionRequired
  | c, _ => c
  end.

Definition gate_dispositions (g : GateProfile) (p : AssuranceProfile) : list GateDisposition :=
  map (fun '(rule, r) => disposition rule (dr_status r)) (zip (rules g) (profile_dimensions p)).

Section Accountability.
Variable sha256 : bytes -> Bytes32.

(** [AssuranceProfile::id] *)
Definition profile_id (p : AssuranceProfile) : result AssuranceError Hash :=
  b ← canonical_bytes p;
  Ok (domain_hash sha256 "csv.accountability.assurance-profile.v1" b).

(** What [AssuranceProfile::id] hashes. *)
Definition profile_hashed (p : AssuranceProfile) : list bytes :=
  domain_preimage sha256 "csv.accountability.assurance-profile.v1" <$> ok_list (canonical_bytes p).

(** [GateProfile::id] *)
Definition gate_id (g : GateProfile) : result AssuranceError Hash :=
  _ ← gate_validate g;
  Ok (domain_hash sha256 "csv.accountability.gate-profile.v1" (gate_bytes g)).

(** [GateProfile::evaluate] *)
Definition gate_evaluate (g : GateProfile) (p : AssuranceProfile)
  : result AssuranceError GateResult :=
  _ ← gate_validate g;
  _ ← profile_validate p;
  let o := fold_left gate_step (gate_dispositions g p) Pass in
  gid ← gate_id g;
  pid ← profile_id p;
  Ok (mkGateResult gid (verification_context_id p) pid o).
End Accountability.

(** ** Lemmas: validation *)

Lemma not_increasing_spec {A} `{OrdLaws A} (l : list A) : not_increasing l = false <-> bset_ok l.
Proof.
  unfold bset_ok. assert (Ht : Relations_1.Transitive (fun x y : A => cmp x y = Lt)).
  { intros x y z. apply cmp_lt_trans. }
  induction l as [|x [|y l] IH].
  - split; [constructor|done].
  - split; [repeat constructor|done].
  - change (negb (ltb x y) || not_increasing (y :: l) = false
            <-> StronglySorted (fun x y => cmp x y = Lt) (x :: y :: l)).
    rewrite orb_false_iff, negb_false_iff, IH. unfold ltb. split.
    + intros [Hc Hs]. apply Sorted_StronglySorted; [done|].
      constructor; [by apply StronglySorted_Sorted|]. constructor. by destruct (cmp x y).
    + intros [Hs Hx]%StronglySorted_inv. apply Forall_cons in Hx as [Hx _]. by rewrite Hx.
Qed.

Lemma existsb_false {A} (f : A -> bool) l :
  existsb f l = false <-> Forall (fun x => f x = false) l.
Proof.
  induction l as [|x l IH]; simpl; [naive_solver|].
  by rewrite orb_false_iff, Forall_cons, IH.
Qed.

(** Two lists of the same length agree pointwise when no zipped pair differs. *)
Lemma zip_agree {A B} `{EqDecision B} (f : A -> B) (l : list A) (k : list B) :
  length l = length k ->
  existsb (fun '(x, y) => negb (bool_decide (f x = y))) (zip l k) = false <-> map f l = k.
Proof.
  revert k. induction l as [|x l IH]; intros [|y k] Hl; try done.
  simpl. rewrite orb_false_iff, negb_false_iff, bool_decide_eq_true, IH by (simpl in Hl; lia).
  naive_solver.
Qed.

Definition text_ok (s : string) : Prop := invalid_text s = false.

Lemma text_ok_fits s : text_ok s -> text_fits s.
Proof.
  unfold text_ok, invalid_text, text_fits, MAX_ASSURANCE_TEXT_BYTES, u32_max.
  rewrite !orb_false_iff, N.ltb_ge. intros (((_ & ?) & _) & _). lia.
Qed.

(** What [profile_validate] promises of one dimension. *)
Record dimension_ok (r : DimensionResult) : Prop := {
  ok_codes : (blen (dr_reason_codes r) <= MAX_ASSURANCE_ITEMS)%N;
  ok_refs : (blen (supporting_evidence_refs r) <= MAX_ASSURANCE_ITEMS)%N;
  ok_limits : (blen (dr_limitations r) <= MAX_ASSURANCE_ITEMS)%N;
  ok_level : opt_ok text_ok (assurance_level r);
  ok_code_texts : Forall text_ok (dr_reason_codes r);
  ok_limit_texts : Forall text_ok (dr_limitations r);
  ok_code_order : bset_ok (dr_reason_codes r);
  ok_limit_order : bset_ok (dr_limitations r);
  ok_ref_order : bset_ok (supporting_evidence_refs r)
}.

Lemma invalid_dimension_spec r : invalid_dimension r = false <-> dimension_ok r.
Proof.
  unfold invalid_dimension.
  rewrite !orb_false_iff, !N.ltb_ge, !not_increasing_spec, !existsb_false.
  assert (Hl : match assurance_level r with Some v => invalid_text v | None => false end = false
               <-> opt_ok text_ok (assurance_level r)).
  { destruct (assurance_level r) as [v|]; split; try done.
    - intros H w [= <-]. done.
    - intros H. by apply H. }
  rewrite Hl. split.
  - intros ((((((((? & ?) & ?) & ?) & ?) & ?) & ?) & ?) & ?). by constructor.
  - intros []. by repeat split.
Qed.

Lemma profile_validate_ok p :
  profile_validate p = Ok tt <->
  map dr_dimension (profile_dimensions p) = ASSURANCE_DIMENSIONS /\
  Forall dimension_ok (profile_dimensions p).
Proof.
  unfold profile_validate. destruct (Nat.eqb_spec (length (profile_dimensions p))
    (length ASSURANCE_DIMENSIONS)) as [Hl|Hl]; simpl negb.
  - rewrite orb_false_l. pose proof (zip_agree dr_dimension _ ASSURANCE_DIMENSIONS Hl) as Hz.
    destruct (existsb _ (zip _ _)) eqn:E1; [|destruct (existsb invalid_dimension _) eqn:E2].
    + split; [done|]. intros [Hm _]. by apply Hz in Hm.
    + split; [done|]. intros [_ Hf]. apply not_false_iff_true in E2. destruct E2.
      apply existsb_false. eapply Forall_impl; [exact Hf|]. apply invalid_dimension_spec.
    + split; [|done]. intros _. split; [by apply Hz|]. apply existsb_false in E2.
      eapply Forall_impl; [exact E2|]. apply invalid_dimension_spec.
  - split; [done|]. intros [Hm _]. by rewrite <- Hm, length_map in Hl.
Qed.

Lemma profile_validate_err p e : profile_validate p = Err e -> e = InvalidDimensions.
Proof. unfold profile_validate. case_match; congruence. Qed.

(** ** Lemmas: the canonical form is injective *)

#[export] Instance pf_dimension_tag : PrefixFree (fun _ => True) (fun d => [dimension_tag d]).
Proof. apply pf_tag. by intros [] []. Qed.
#[export] Instance pf_status_tag : PrefixFree (fun _ => True) (fun d => [status_tag d]).
Proof. apply pf_tag. by intros [] []. Qed.

Lemma list_text_ok l : (blen l <= MAX_ASSURANCE_ITEMS)%N -> Forall text_ok l -> list_ok text_fits l.
Proof.
  intros Hl Ht. split; [unfold fits, MAX_ASSURANCE_ITEMS, u32_max in *; lia|].
  eapply Forall_impl; [exact Ht|]. apply text_ok_fits.
Qed.

#[export] Instance pf_dimension : PrefixFree dimension_ok dimension_bytes.
Proof.
  intros x y k l Hx Hy H. unfold dimension_bytes in H. rewrite <- !app_assoc in H.
  apply (prefix_free (enc := fun d => [dimension_tag d])) in H as [H1 H]; [|done|done].
  apply (prefix_free (enc := fun d => [status_tag d])) in H as [H2 H]; [|done|done].
  apply (prefix_free (enc := push_option push_text)) in H as [H3 H]; cycle 1.
  { intros s Hs. apply text_ok_fits. by apply (ok_level x). }
  { intros s Hs. apply text_ok_fits. by apply (ok_level y). }
  apply (prefix_free (enc := push_list push_text)) in H as [H4 H]; cycle 1.
  { apply list_text_ok; apply Hx. } { apply list_text_ok; apply Hy. }
  apply (prefix_free (enc := push_list b32)) in H as [H5 H]; cycle 1.
  { split; [pose proof (ok_refs x Hx)|by apply Forall_true].
    unfold fits, MAX_ASSURANCE_ITEMS, u32_max in *. lia. }
  { split; [pose proof (ok_refs y Hy)|by apply Forall_true].
    unfold fits, MAX_ASSURANCE_ITEMS, u32_max in *. lia. }
  apply (prefix_free (enc := push_list push_text)) in H as [H6 H]; cycle 1.
  { apply list_text_ok; apply Hx. } { apply list_text_ok; apply Hy. }
  split; [|done]. destruct x, y; simpl in *. by subst.
Qed.

Lemma canonical_bytes_inj p q b :
  canonical_bytes p = Ok b -> canonical_bytes q = Ok b -> p = q.
Proof.
  unfold canonical_bytes. intros ([] & Hp & [= <-])%bind_ok ([] & Hq & Hb)%bind_ok.
  injection Hb as Hb. symmetry in Hb.
  apply profile_validate_ok in Hp as [Hpd Hp], Hq as [Hqd Hq].
  apply (prefix_free (enc := b32)) in Hb as [H1 Hb]; [|done|done].
  assert (Hfit : forall r, map dr_dimension (profile_dimensions r) = ASSURANCE_DIMENSIONS ->
                      fits (profile_dimensions r)).
  { intros r Hr. unfold fits, blen. rewrite <- (length_map dr_dimension), Hr. done. }
  apply (prefix_free_inj (list_ok dimension_ok) (push_list dimension_bytes)) in Hb;
    [|by split; [apply Hfit|]..].
  destruct p, q; simpl in *. by subst.
Qed.

(** ** Lemmas: gates *)

(** The loop computes the worst disposition seen. *)
Lemma gate_fold_block ds : fold_left gate_step ds Block = Block.
Proof. induction ds as [|[] ds IH]; simpl; done. Qed.

Lemma gate_fold_block_iff ds o :
  fold_left gate_step ds o = Block <-> o = Block \/ DispositionBlock ∈ ds.
Proof.
  revert o. induction ds as [|d ds IH]; intros o; simpl.
  - split; [by left|]. intros [?|H]; [done|]. by apply not_elem_of_nil in H.
  - rewrite IH, elem_of_cons. destruct o, d; simpl; naive_solver.
Qed.

Lemma gate_fold_pass_iff ds o :
  fold_left gate_step ds o = Pass <-> o = Pass /\ Forall (eq Allow) ds.
Proof.
  revert o. induction ds as [|d ds IH]; intros o; simpl; [naive_solver|].
  rewrite IH, Forall_cons. destruct o, d; simpl; naive_solver.
Qed.

(** ** Properties *)

(** an assurance profile identifier binds the whole profile: two profiles
    with the same identifier are equal, or what is hashed for the one and what is hashed
    for the other collide.  The validation that precedes hashing bounds every length, so no
    size hypothesis is needed. *)
Theorem profile_id_binds (sha256 : bytes -> Bytes32) (p q : AssuranceProfile) (h : Hash) :
  profile_id sha256 p = Ok h -> profile_id sha256 q = Ok h ->
  p = q \/ collision_in sha256 (profile_hashed sha256 p ++ profile_hashed sha256 q).
Proof.
  unfold profile_id, profile_hashed. intros (b & Hp & [= <-])%bind_ok (b' & Hq & Hh)%bind_ok.
  rewrite Hp, Hq. cbn. injection Hh as Hh. hash_inj Hh. subst b'. left. by apply (canonical_bytes_inj p q b).
Qed.

(** What a rule says of a status: one entry of a rule for each status. *)
Inductive rule_says (rule : DimensionGateRule) : DimensionStatus -> GateDisposition -> Prop :=
| SaysSatisfied : rule_says rule Satisfied (on_satisfied rule)
| SaysNotSatisfied : rule_says rule NotSatisfied (on_not_satisfied rule)
| SaysIndeterminate : rule_says rule Indeterminate (on_indeterminate rule)
| SaysNotApplicable : rule_says rule NotApplicable (on_not_applicable rule).

Lemma rule_says_disposition rule s d : rule_says rule s d <-> disposition rule s = d.
Proof. split; [by intros []|]. intros <-. destruct s; constructor. Qed.

(** The dispositions of the loop, dimension by dimension. *)
Lemma elem_of_dispositions g p d : d ∈ gate_dispositions g p <->
  exists i rule x, rules g !! i = Some rule /\ profile_dimensions p !! i = Some x /\ rule_says rule (dr_status x) d.
Proof.
  unfold gate_dispositions. rewrite list_elem_of_fmap. split.
  - intros ([rule x] & -> & (i & Hi)%list_elem_of_lookup). apply lookup_zip_Some in Hi as [Hr Hx].
    exists i, rule, x. by rewrite rule_says_disposition.
  - intros (i & rule & x & Hr & Hx & <-%rule_says_disposition). exists (rule, x). split; [done|].
    apply list_elem_of_lookup. exists i. by apply lookup_zip_Some.
Qed.

(** a gate evaluates only a valid gate against a valid profile, rule by rule
    on the same dimension, and its outcome is the worst disposition: Block exactly when
    some rule says block of the status of its dimension, Pass exactly when every rule
    allows that status, and AttentionRequired otherwise.  The result names the gate, the
    profile and its context.  Otherwise the first failing validation is the error. *)
Theorem gate_evaluate_spec (sha256 : bytes -> Bytes32) (g : GateProfile) (p : AssuranceProfile) :
  match gate_evaluate sha256 g p with
  | Ok r =>
      gate_validate g = Ok tt /\ profile_validate p = Ok tt /\
      map rule_dimension (rules g) = map dr_dimension (profile_dimensions p) /\
      gate_id sha256 g = Ok (gate_profile_id r) /\
      profile_id sha256 p = Ok (assurance_profile_id r) /\
      result_context_id r = verification_context_id p /\
      (outcome r = Block <-> exists i rule x, rules g !! i = Some rule /\
         profile_dimensions p !! i = Some x /\ rule_says rule (dr_status x) DispositionBlock) /\
      (outcome r = Pass <-> forall i rule x, rules g !! i = Some rule ->
         profile_dimensions p !! i = Some x -> rule_says rule (dr_status x) Allow)
  | Err e => gate_validate g = Err e \/ (gate_validate g = Ok tt /\ profile_validate p = Err e)
  end.
Proof.
  unfold gate_evaluate, gate_id, profile_id, canonical_bytes.
  destruct (gate_validate g) as [[]|e] eqn:Hg; simpl; [|by left].
  destruct (profile_validate p) as [[]|e] eqn:Hp; simpl; [|by right].
  split; [done|]. split; [done|]. split; [|do 3 (split; [done|])].
  - apply profile_validate_ok in Hp as [-> _]. unfold gate_validate in Hg.
    destruct (Nat.eqb_spec (length (rules g)) (length ASSURANCE_DIMENSIONS)) as [Hl|Hl].
    + apply (zip_agree rule_dimension); [done|].
      destruct (existsb _ (zip _ _)); [|done]. by rewrite orb_true_r in Hg.
    + simpl in Hg. by rewrite orb_true_r in Hg.
  - rewrite gate_fold_block_iff, gate_fold_pass_iff, elem_of_dispositions, Forall_forall.
    split; [naive_solver|]. split.
    + intros [_ H] i rule x Hr Hx. apply rule_says_disposition. symmetry. apply H.
      apply elem_of_dispositions. exists i, rule, x. by rewrite rule_says_disposition.
    + intros H. split; [done|]. intros d (i & rule & x & Hr & Hx & Hd)%elem_of_dispositions.
      specialize (H i rule x Hr Hx). rewrite rule_says_disposition in H, Hd. congruence.
Qed.

(** ** Witness *)

Definition demo_profile : AssuranceProfile :=
  mkAssuranceProfile zero32
    (map (fun d => mkDimensionResult d Indeterminate None ["A"%string; "B"%string] [] [])
         ASSURANCE_DIMENSIONS).

Lemma profile_id_binds_witness :
  exists h, profile_id toy_hash demo_profile = Ok h /\
            (demo_profile = demo_profile \/
             collision_in toy_hash (profile_hashed toy_hash demo_profile ++ profile_hashed toy_hash demo_profile)).
Proof.
  destruct (is_ok_inv (profile_id toy_hash demo_profile) ltac:(by vm_compute)) as [h E].
  exists h. split; [exact E|]. exact (profile_id_binds toy_hash _ _ h E E).
Defined.
