(* ===== verification/Codec.v ===== *)
(** * The manual codec and canonical proofs
    (csv-codec/src/manual_encoder.rs, csv-protocol/src/proof_validation.rs)

    The cursor primitives every hand-written encoding is built from, and the
    [CanonicalProof] record with its two formats.  Metadata is a [HashMap]: the
    order its entries are written in is a parameter of the encoders. *)

From S2P Require Import Prelude Ord Bytes Dag DagCodec Text.

(** ** [ManualEncoder] *)

Definition encode_bytes (data : bytes) : bytes := u32_le (blen data) ++ data.
Definition encode_option_bytes (data : option bytes) : bytes :=
  match data with Some b => Byte.x01 :: encode_bytes b | None => [Byte.x00] end.
Definition encode_hash (h : Bytes32) : bytes := b32 h.

Definition decode_u32_le : bytes -> result CodecError (N * bytes) :=
  read_u32_le (DeserializationError "Insufficient bytes for u32").
Definition decode_u64_le : bytes -> result CodecError (N * bytes) :=
  read_u64_le (DeserializationError "Insufficient bytes for u64").
Definition decode_hash : bytes -> result CodecError (Bytes32 * bytes) :=
  read_b32 (DeserializationError "Insufficient bytes for hash").

(** A length, then that many bytes; the second error is the caller's. *)
Definition decode_sized (e : string) (b : bytes) : result CodecError (bytes * bytes) :=
  '(n, rest) ← decode_u32_le b;
  take_n (N.to_nat n) (DeserializationError e) rest.
Definition decode_bytes : bytes -> result CodecError (bytes * bytes) :=
  decode_sized "Insufficient bytes for data".

Definition decode_option_bytes (b : bytes) : result CodecError (option bytes * bytes) :=
  '(flag, rest) ← read_u8 (DeserializationError "Insufficient bytes for option flag") b;
  if bool_decide (flag = Byte.x01)
  then '(data, rest) ← decode_bytes rest; Ok (Some data, rest)
  else Ok (None, rest).

(** ** [CanonicalProof] *)

Record CanonicalProof := mkCanonicalProof {
  cp_block_height : N;
  cp_block_hash : Bytes32;
  cp_state_root : Bytes32;
  cp_proof_nodes : list bytes;
  cp_metadata : gmap string bytes
}.

Inductive ProofValidationError :=
| ZeroBlockHash | ZeroStateRoot | EmptyProofNodes | InvalidMetadata (m : string).

Definition CanonicalProof_new (height : N) (block_hash state_root : Bytes32)
    (nodes : list bytes) : CanonicalProof :=
  mkCanonicalProof height block_hash state_root nodes ∅.
Definition with_metadata (p : CanonicalProof) (k : string) (v : bytes) : CanonicalProof :=
  mkCanonicalProof (cp_block_height p) (cp_block_hash p) (cp_state_root p)
    (cp_proof_nodes p) (<[k := v]> (cp_metadata p)).
Definition get_metadata (p : CanonicalProof) (k : string) : option bytes := cp_metadata p !! k.

(** [CanonicalProof::validate] *)
Definition cp_validate (p : CanonicalProof) : result ProofValidationError unit :=
  reject bool_decide (cp_block_hash p = zero32) with ZeroBlockHash ;;
  reject bool_decide (cp_state_root p = zero32) with ZeroStateRoot ;;
  reject bool_decide (cp_proof_nodes p = []) with EmptyProofNodes ;;
  Ok tt.

Section Encoders.
(** The order [for (key, value) in &self.metadata] visits the entries in. *)
Variable meta_order : gmap string bytes -> list (string * bytes).

Definition encode_entry (kv : string * bytes) : bytes :=
  encode_bytes (as_bytes kv.1) ++ encode_bytes kv.2.

(** What both formats write after the hashes. *)
Definition encode_tail (p : CanonicalProof) : bytes :=
  u32_le (blen (cp_proof_nodes p)) ++ flat_map encode_bytes (cp_proof_nodes p) ++
  u32_le (N.of_nat (size (cp_metadata p))) ++ flat_map encode_entry (meta_order (cp_metadata p)).

Definition cp_encode_mce (p : CanonicalProof) : bytes :=
  u64_le (cp_block_height p) ++ encode_hash (cp_block_hash p) ++
  encode_hash (cp_state_root p) ++ encode_tail p.

Definition cp_encode_manual (p : CanonicalProof) : bytes :=
  u64_le (cp_block_height p) ++ encode_bytes (b32 (cp_block_hash p)) ++
  encode_bytes (b32 (cp_state_root p)) ++ encode_tail p.

Definition cp_encode (p : CanonicalProof) (f : EncodingFormat) : result CodecError bytes :=
  match f with MCE => Ok (cp_encode_mce p) | ManualBinary => Ok (cp_encode_manual p) end.
End Encoders.

(** One key and its value; the key must be UTF-8. *)
Definition decode_entry (b : bytes) : result CodecError ((string * bytes) * bytes) :=
  '(key, rest) ← decode_bytes b;
  '(value, rest) ← decode_bytes rest;
  key ← map_err (fun e => DeserializationError
                   ("Invalid metadata key: " +:+ utf8_error_message e)) (from_utf8 key);
  Ok ((key, value), rest).

(** [metadata.insert(key, value)] in turn: the last of two equal keys stays. *)
Definition insert_all (l : list (string * bytes)) : gmap string bytes :=
  fold_left (fun m kv => <[kv.1 := kv.2]> m) l ∅.

(** The two decoders, which differ in the error of a truncated proof node. *)
Definition cp_decode (e_node : string) (b : bytes) : result CodecError CanonicalProof :=
  '(height, rest) ← decode_u64_le b;
  '(block_hash, rest) ← decode_hash rest;
  '(state_root, rest) ← decode_hash rest;
  '(n, rest) ← decode_u32_le rest;
  '(nodes, rest) ← read_many (N.to_nat n) (decode_sized e_node) rest;
  '(m, rest) ← decode_u32_le rest;
  '(entries, _) ← read_many (N.to_nat m) decode_entry rest;
  Ok (mkCanonicalProof height block_hash state_root nodes (insert_all entries)).

Definition cp_decode_mce : bytes -> result CodecError CanonicalProof :=
  cp_decode "Insufficient bytes for proof node".
Definition cp_decode_manual : bytes -> result CodecError CanonicalProof :=
  cp_decode "Insufficient bytes for data".
Definition cp_decode_format (b : bytes) (f : EncodingFormat) : result CodecError CanonicalProof :=
  match f with MCE => cp_decode_mce b | ManualBinary => cp_decode_manual b end.

(** ** Lemmas *)

Definition entry_ok (kv : string * bytes) : Prop :=
  is_utf8 kv.1 = true /\ (slen kv.1 <= u32_max)%N /\ (blen kv.2 <= u32_max)%N.

(** Every length and number of the proof fits its field, and keys are strings. *)
Definition cp_ok (p : CanonicalProof) : Prop :=
  (cp_block_height p <= u64_max)%N /\ all_sized (cp_proof_nodes p) /\
  (N.of_nat (size (cp_metadata p)) <= u32_max)%N /\
  map_Forall (fun k v => entry_ok (k, v)) (cp_metadata p).

Lemma decode_sized_app e b k :
  (blen b <= u32_max)%N -> decode_sized e (encode_bytes b ++ k) = Ok (b, k).
Proof.
  intros Hb. unfold encode_bytes. rewrite <- app_assoc.
  exact (read_sized_app (DeserializationError "Insufficient bytes for u32")
           (DeserializationError e) b k Hb).
Qed.

Lemma decode_entry_app kv k : entry_ok kv -> decode_entry (encode_entry kv ++ k) = Ok (kv, k).
Proof.
  destruct kv as [key v]. intros (Hu & Hk & Hv). unfold decode_entry, encode_entry, decode_bytes.
  cbn [fst snd] in *. rewrite <- app_assoc, decode_sized_app by done. cbn [mbind result_bind].
  rewrite decode_sized_app by done. cbn [mbind result_bind].
  by rewrite from_utf8_as_bytes.
Qed.

Lemma insert_all_cons m0 l :
  NoDup l.*1 -> (forall kv, kv ∈ l -> m0 !! kv.1 = None) ->
  fold_left (fun (m : gmap string bytes) kv => <[kv.1 := kv.2]> m) l m0 = list_to_map l ∪ m0.
Proof.
  revert m0. induction l as [|[k v] l IH]; intros m0 Hnd Hm; cbn [fold_left fmap list_fmap] in *.
  - by rewrite list_to_map_nil, (left_id_L ∅ (∪)).
  - apply NoDup_cons in Hnd as [Hk Hnd]. rewrite IH; [|done|].
    + cbn. rewrite <- insert_union_l, insert_union_r; [done|].
      apply not_elem_of_list_to_map_1. done.
    + intros [k' v'] Hkv. cbn. rewrite lookup_insert_ne.
      * apply (Hm (k', v')). by right.
      * intros ->. apply Hk. apply list_elem_of_fmap. by exists (k', v').
Qed.

Lemma insert_all_order (m : gmap string bytes) l : l ≡ₚ map_to_list m -> insert_all l = m.
Proof.
  intros Hl. unfold insert_all. rewrite insert_all_cons.
  - rewrite (right_id_L ∅ (∪)), (list_to_map_proper l (map_to_list m)); [|  |done].
    + apply list_to_map_to_list.
    + rewrite Hl. apply (NoDup_fst_map_to_list m).
  - rewrite Hl. apply (NoDup_fst_map_to_list m).
  - intros kv _. apply lookup_empty.
Qed.

(** Decoding what [encode_tail] wrote, after any two hashes. *)
Lemma cp_decode_tail meta_order e p (h r : Bytes32) junk :
  (forall m, meta_order m ≡ₚ map_to_list m) -> cp_ok p ->
  cp_decode e (u64_le (cp_block_height p) ++ b32 h ++ b32 r ++ encode_tail meta_order p ++ junk)
  = Ok (mkCanonicalProof (cp_block_height p) h r (cp_proof_nodes p) (cp_metadata p)).
Proof.
  intros Hord (Hh & [Hn Hnodes] & Hm & Hent). unfold cp_decode, encode_tail.
  unfold decode_u64_le, decode_hash, decode_u32_le. rewrite <- !app_assoc.
  rewrite read_u64_le_app by done. cbn [mbind result_bind].
  rewrite read_b32_app. cbn [mbind result_bind]. rewrite read_b32_app. cbn [mbind result_bind].
  rewrite read_u32_le_app by done. cbn [mbind result_bind].
  unfold blen at 1. rewrite Nat2N.id.
  rewrite (read_many_app _ encode_bytes (fun b => (blen b <= u32_max)%N));
    [|intros; by apply decode_sized_app|done]. cbn [mbind result_bind].
  rewrite read_u32_le_app by done. cbn [mbind result_bind]. rewrite Nat2N.id.
  assert (Hlen : size (cp_metadata p) = length (meta_order (cp_metadata p))).
  { rewrite (Permutation_length (Hord _)). symmetry. apply length_map_to_list. }
  rewrite Hlen, (read_many_app _ encode_entry entry_ok);
    [|intros; by apply decode_entry_app|].
  - cbn [mbind result_bind]. by rewrite (insert_all_order (cp_metadata p)) by apply Hord.
  - apply Forall_forall. intros [k v] Hkv. rewrite Hord, elem_of_map_to_list in Hkv.
    by apply Hent.
Qed.

(** A list that starts with [w] and goes on as itself repeats [w]. *)
Lemma self_shift (w l : bytes) n :
  length l = n * length w -> l = w ++ take (length l - length w) l ->
  l = concat (replicate n w).
Proof.
  revert l. induction n as [|n IH]; intros l Hl Heq; [by apply length_zero_iff_nil|].
  cbn [replicate concat]. rewrite Heq at 1. f_equal.
  destruct (decide (length w = 0)) as [Hw|Hw].
  { apply length_zero_iff_nil in Hw as ->. rewrite Nat.mul_0_r in Hl.
    apply length_zero_iff_nil in Hl as ->. rewrite take_nil. clear. by induction n. }
  set (l' := take (length l - length w) l) in *.
  assert (Hl' : length l' = n * length w) by (unfold l'; rewrite length_take; lia).
  destruct n as [|n]; [by apply length_zero_iff_nil|]. apply IH; [done|].
  assert (Hk : l' = take (length l') (w ++ l')).
  { rewrite <- Heq. unfold l'. rewrite length_take. f_equal; lia. }
  rewrite Hk at 1. rewrite take_app, take_ge by lia. done.
Qed.

Lemma decode_hash_shift (pre a b : bytes) :
  length pre + length a = 32 ->
  exists h, decode_hash (pre ++ a ++ b) = Ok (h, b) /\ b32 h = pre ++ a.
Proof.
  intros Hl. unfold decode_hash, read_b32. rewrite app_assoc.
  rewrite (take_n_app' _ 32) by (rewrite length_app; lia). cbn [mbind result_bind].
  destruct (to_b32 (pre ++ a)) as [h|] eqn:E.
  - exists h. split; [done|]. by apply to_b32_Some in E.
  - apply to_b32_None in E as []. by rewrite length_app.
Qed.

(** ** Theorems *)

(** The word the manual form writes before a 32-byte hash, eight times. *)
Definition repeated_length : bytes := concat (replicate 8 (u32_le 32)).

(** Reading back the hashes of the manual form as the decoder does. *)
Lemma manual_hashes (h r : Bytes32) k :
  exists h' r', decode_hash (encode_bytes (b32 h) ++ encode_bytes (b32 r) ++ k)
                = Ok (h', drop 28 (b32 h) ++ encode_bytes (b32 r) ++ k) /\
    b32 h' = u32_le 32 ++ take 28 (b32 h) /\
    decode_hash (drop 28 (b32 h) ++ encode_bytes (b32 r) ++ k)
    = Ok (r', drop 24 (b32 r) ++ k) /\
    b32 r' = drop 28 (b32 h) ++ u32_le 32 ++ take 24 (b32 r).
Proof.
  assert (Hlen : forall x : Bytes32, encode_bytes (b32 x) = u32_le 32 ++ b32 x).
  { intros x. unfold encode_bytes, blen. by rewrite b32_length. }
  rewrite !Hlen.
  destruct (decode_hash_shift (u32_le 32) (take 28 (b32 h)) (drop 28 (b32 h) ++ (u32_le 32 ++ b32 r) ++ k))
    as (h' & Hh & Hh'); [rewrite length_take, b32_length; done|].
  destruct (decode_hash_shift (drop 28 (b32 h) ++ u32_le 32) (take 24 (b32 r)) (drop 24 (b32 r) ++ k))
    as (r' & Hr & Hr').
  { rewrite length_app, length_drop, length_take, !b32_length. done. }
  exists h', r'. split; [|split; [done|split]].
  - rewrite <- Hh. f_equal. rewrite <- (take_drop 28 (b32 h)) at 1. by rewrite <- !app_assoc.
  - rewrite <- Hr. f_equal. rewrite <- (take_drop 24 (b32 r)) at 1. by rewrite <- !app_assoc.
  - by rewrite Hr', <- app_assoc.
Qed.

(** The MCE form of a canonical proof round-trips, whatever order the hash map
    lists its metadata in and whatever follows.  The manual form does not: its
    encoder puts a length before the two hashes and its decoder reads them without,
    so a proof whose decoding gives it back has, for block hash and state root
    both, the four length bytes eight times over. *)
Theorem canonical_proof_codec meta_order (p : CanonicalProof) (junk : bytes)
  (Hord : forall m, meta_order m ≡ₚ map_to_list m) (Hp : cp_ok p) :
  cp_decode_mce (cp_encode_mce meta_order p ++ junk) = Ok p /\
  (cp_decode_manual (cp_encode_manual meta_order p ++ junk) = Ok p ->
   b32 (cp_block_hash p) = repeated_length /\ b32 (cp_state_root p) = repeated_length).
Proof.
  split.
  - unfold cp_decode_mce, cp_encode_mce, encode_hash. rewrite <- !app_assoc.
    rewrite cp_decode_tail by done. by destruct p.
  - destruct p as [height h r nodes meta]. unfold cp_decode_manual, cp_encode_manual, cp_decode.
    cbn [cp_block_height cp_block_hash cp_state_root]. rewrite <- !app_assoc.
    unfold decode_u64_le. rewrite read_u64_le_app by apply Hp. cbn [mbind result_bind].
    destruct (manual_hashes h r (encode_tail meta_order (mkCanonicalProof height h r nodes meta)
                                 ++ junk)) as (h' & r' & E1 & Hh' & E2 & Hr').
    rewrite E1. cbn [mbind result_bind]. rewrite E2. cbn [mbind result_bind].
    intros H. inv_ok. repeat (case_match; inv_ok). simplify_eq.
    assert (Hh : b32 h = repeated_length).
    { apply self_shift; rewrite b32_length; [reflexivity|exact Hh']. }
    split; [done|]. change repeated_length with (concat (replicate 4 (u32_le 32 ++ u32_le 32))).
    apply self_shift; rewrite b32_length; [reflexivity|].
    rewrite Hr' at 1. by rewrite Hh.
Qed.

Definition sample_proof : CanonicalProof :=
  with_metadata (with_metadata (CanonicalProof_new 100 (fill32 Byte.x01) (fill32 Byte.x02)
                                  [[Byte.x03]; []]) "key1" [Byte.x05]) "key2" [].

Lemma sample_proof_ok : cp_ok sample_proof.
Proof.
  split; [by vm_compute|]. split; [split; [by vm_compute|]|split; [by vm_compute|]].
  - cbn. by rewrite !Forall_cons, Forall_nil.
  - apply map_Forall_insert_2; [by repeat split|].
    apply map_Forall_insert_2; [by repeat split|apply map_Forall_empty].
Qed.

Lemma canonical_proof_codec_witness :
  cp_decode_mce (cp_encode_mce map_to_list sample_proof ++ [Byte.xff]) = Ok sample_proof /\
  cp_decode_manual (cp_encode_manual map_to_list sample_proof ++ [Byte.xff]) <> Ok sample_proof.
Proof.
  destruct (canonical_proof_codec map_to_list sample_proof [Byte.xff] ltac:(done) sample_proof_ok)
    as [H1 H2].
  split; [exact H1|]. intros [E _]%H2. discriminate.
Defined.
