(* ===== verification/Decode.v ===== *)
(** * Exact readers

    The decoders of the accountability crate walk a cursor, field by field.  A reader
    is exact for an encoder when it succeeds on a byte string if and only if the string
    starts with the encoding of a value the reader's bounds allow, and it then returns
    that value and what follows.  Exactness gives both halves of a canonical codec, the
    round trip and the uniqueness of the encoding, and it composes: the fields of a
    record, an option behind a tag, a counted list.  The tactics at the end run a
    decoder forwards on bytes it accepted and backwards on an encoding. *)

From S2P Require Import Prelude Ord Bytes Text Codec.

Class Reads {E A} (P : A -> Prop) (enc : A -> bytes) (rd : bytes -> result E (A * bytes)) : Prop :=
  reads b x rest : rd b = Ok (x, rest) <-> P x /\ b = enc x ++ rest.
Global Hint Mode Reads - - - - ! : typeclass_instances.

(** What it says, written once for use as a rewrite rule. *)
Lemma reads_app {E A} (P : A -> Prop) enc (rd : bytes -> result E (A * bytes)) `{!Reads P enc rd} x rest :
  P x -> rd (enc x ++ rest) = Ok (x, rest).
Proof. intros Hx. by apply reads. Qed.

(** A format that is read back is determined by what it starts. *)
Lemma reads_prefix_free {E A} (P : A -> Prop) enc (rd : bytes -> result E (A * bytes)) `{!Reads P enc rd} :
  PrefixFree P enc.
Proof.
  intros x y k l Hx Hy H. pose proof (reads_app P enc rd x k Hx) as Hk.
  rewrite H, (reads_app P enc rd y l Hy) in Hk. by injection Hk as -> ->.
Qed.

(** A check followed by the rest of the body. *)
Lemma bind_unit_ok {E B} (r : result E unit) (k : result E B) b :
  (_ ← r; k) = Ok b <-> r = Ok tt /\ k = Ok b.
Proof. destruct r as [[]|]; cbn; naive_solver. Qed.

(** ** Integers *)

Definition u16_max : N := 65535.
Definition u16_le (v : N) : bytes := le_bytes 2 v.
Definition u16_be (v : N) : bytes := be_bytes 2 v.

(** [u16::from_le_bytes(self.take(2)?)] and its like *)
Definition read_u16_le {E} (e : E) (b : bytes) : result E (N * bytes) :=
  '(l, b) ← take_n 2 e b; Ok (of_le_bytes l, b).
Definition read_u16_be {E} (e : E) (b : bytes) : result E (N * bytes) :=
  '(l, b) ← take_n 2 e b; Ok (of_be_bytes l, b).
Definition read_u32_be {E} (e : E) (b : bytes) : result E (N * bytes) :=
  '(l, b) ← take_n 4 e b; Ok (of_be_bytes l, b).
Definition read_u64_be {E} (e : E) (b : bytes) : result E (N * bytes) :=
  '(l, b) ← take_n 8 e b; Ok (of_be_bytes l, b).

Lemma of_le_bytes_small n v : (v < 256 ^ N.of_nat n)%N -> of_le_bytes (le_bytes n v) = v.
Proof. intros Hv. rewrite of_le_bytes_le_bytes. by apply N.mod_small. Qed.

Lemma reads_le {E} n (e : E) :
  Reads (fun v => v < 256 ^ N.of_nat n)%N (le_bytes n)
    (fun b => '(l, b) ← take_n n e b; Ok (of_le_bytes l, b)).
Proof.
  intros b v rest. split.
  - intros ([l k] & Ht & [= <- <-])%bind_ok. apply take_n_ok in Ht as [-> <-].
    split; [apply of_le_bytes_bound|]. by rewrite le_bytes_of_le_bytes.
  - intros [Hv ->]. rewrite (take_n_app' e n) by apply length_le_bytes.
    cbn [mbind result_bind]. by rewrite of_le_bytes_small.
Qed.

Lemma reads_be {E} n (e : E) :
  Reads (fun v => v < 256 ^ N.of_nat n)%N (be_bytes n)
    (fun b => '(l, b) ← take_n n e b; Ok (of_be_bytes l, b)).
Proof.
  intros b v rest. unfold be_bytes, of_be_bytes. split.
  - intros ([l k] & Ht & [= <- <-])%bind_ok. apply take_n_ok in Ht as [-> <-].
    pose proof (of_le_bytes_bound (reverse l)) as Hb. unfold blen in Hb. rewrite length_reverse in Hb.
    split; [done|]. rewrite <- (length_reverse l), le_bytes_of_le_bytes. by rewrite reverse_involutive.
  - intros [Hv ->]. rewrite (take_n_app' e n) by (rewrite length_reverse; apply length_le_bytes).
    cbn [mbind result_bind]. by rewrite reverse_involutive, of_le_bytes_small.
Qed.

(** The same reader under an equivalent bound. *)
Lemma reads_iff {E A} (P Q : A -> Prop) enc (rd : bytes -> result E (A * bytes)) :
  Reads P enc rd -> (forall x, P x <-> Q x) -> Reads Q enc rd.
Proof. intros H HPQ b x rest. by rewrite (H b x rest), HPQ. Qed.

#[export] Instance reads_u16_le {E} (e : E) : Reads (fun v => v <= u16_max)%N u16_le (read_u16_le e).
Proof. eapply reads_iff; [apply (reads_le 2 e)|]. intros v. unfold u16_max. cbn. lia. Qed.
#[export] Instance reads_u16_be {E} (e : E) : Reads (fun v => v <= u16_max)%N u16_be (read_u16_be e).
Proof. eapply reads_iff; [apply (reads_be 2 e)|]. intros v. unfold u16_max. cbn. lia. Qed.
#[export] Instance reads_u32_le {E} (e : E) : Reads (fun v => v <= u32_max)%N u32_le (read_u32_le e).
Proof. eapply reads_iff; [apply (reads_le 4 e)|]. intros v. unfold u32_max. cbn. lia. Qed.
#[export] Instance reads_u32_be {E} (e : E) : Reads (fun v => v <= u32_max)%N push_u32 (read_u32_be e).
Proof. eapply reads_iff; [apply (reads_be 4 e)|]. intros v. unfold u32_max. cbn. lia. Qed.
#[export] Instance reads_u64_le {E} (e : E) : Reads (fun v => v <= u64_max)%N u64_le (read_u64_le e).
Proof. eapply reads_iff; [apply (reads_le 8 e)|]. intros v. unfold u64_max. cbn. lia. Qed.
#[export] Instance reads_u64_be {E} (e : E) : Reads (fun v => v <= u64_max)%N u64_be (read_u64_be e).
Proof. eapply reads_iff; [apply (reads_be 8 e)|]. intros v. unfold u64_max. cbn. lia. Qed.

(** ** Bytes, digests and text *)

Definition any {A} (x : A) : Prop := True.
Definition one (b : byte) : bytes := [b].

#[export] Instance reads_u8 {E} (e : E) : Reads any one (read_u8 e).
Proof.
  intros b x rest. unfold read_u8, one. destruct b as [|y b]; cbn [app].
  - split; [done|]. by intros [_ ?].
  - split; [by intros [= -> ->]|]. by intros [_ [= -> ->]].
Qed.

#[export] Instance reads_b32 {E} (e : E) : Reads any b32 (read_b32 e).
Proof.
  intros b x rest. split.
  - unfold read_b32. intros ([l k] & Ht & H)%bind_ok. apply take_n_ok in Ht as [-> _].
    destruct (to_b32 l) as [h|] eqn:Hh; [|done]. injection H as <- <-. apply to_b32_Some in Hh as <-.
    done.
  - intros [_ ->]. apply read_b32_app.
Qed.

(** A length no larger than a bound, then that many bytes. *)
Definition read_vec {E} (rdlen : bytes -> result E (N * bytes)) (max : N) (e_big e_short : E) (b : bytes)
  : result E (bytes * bytes) :=
  '(n, b) ← rdlen b;
  reject (max <? n)%N with e_big;;
  take_n (N.to_nat n) e_short b.

Lemma reads_vec {E} (rdlen : bytes -> result E (N * bytes)) Plen enclen max (e_big e_short : E)
    `{!Reads Plen enclen rdlen} :
  Reads (fun l => (blen l <= max)%N /\ Plen (blen l)) (fun l => enclen (blen l) ++ l)
    (read_vec rdlen max e_big e_short).
Proof.
  intros b l rest. unfold read_vec. split.
  - intros ([n k] & Hn & H)%bind_ok. apply reads in Hn as [Hp ->].
    apply guard_err_ok in H as [Hb Ht]. apply N.ltb_ge in Hb. apply take_n_ok in Ht as [-> Hl].
    assert (n = blen l) as -> by (unfold blen; lia). by rewrite <- app_assoc.
  - intros [[Hb Hp] ->]. rewrite <- app_assoc, (reads_app Plen enclen rdlen) by done.
    cbn [mbind result_bind]. apply guard_err_ok. split; [by apply N.ltb_ge|].
    apply take_n_ok. split; [done|]. unfold blen. lia.
Qed.

Definition vec_ok (max : N) (l : bytes) : Prop := (blen l <= max)%N /\ (blen l <= u32_max)%N.

#[export] Instance reads_vec_le {E} max (e e_big e_short : E) :
  Reads (vec_ok max) encode_bytes (read_vec (read_u32_le e) max e_big e_short).
Proof. exact (reads_vec (read_u32_le e) (fun v => v <= u32_max)%N u32_le max e_big e_short). Qed.
#[export] Instance reads_vec_be {E} max (e e_big e_short : E) :
  Reads (vec_ok max) push_bytes (read_vec (read_u32_be e) max e_big e_short).
Proof. exact (reads_vec (read_u32_be e) (fun v => v <= u32_max)%N push_u32 max e_big e_short). Qed.

(** The same without a bound. *)
Definition read_sized_be {E} (e : E) (b : bytes) : result E (bytes * bytes) :=
  '(n, b) ← read_u32_be e b; take_n (N.to_nat n) e b.

#[export] Instance reads_sized_be {E} (e : E) : Reads fits push_bytes (read_sized_be e).
Proof.
  intros b l rest. unfold read_sized_be. split.
  - intros ([n k] & Hn & Ht)%bind_ok. apply reads in Hn as [Hp ->]. apply take_n_ok in Ht as [-> Hl].
    assert (n = blen l) as -> by (unfold blen; lia). unfold push_bytes. by rewrite <- app_assoc.
  - intros [Hp ->]. unfold push_bytes. rewrite <- app_assoc, (reads_app _ push_u32 (read_u32_be e)) by done.
    cbn [mbind result_bind]. apply take_n_ok. split; [done|]. unfold blen. lia.
Qed.

#[export] Instance reads_sized_le {E} (e1 e2 : E) : Reads fits encode_bytes (read_sized e1 e2).
Proof.
  intros b l rest. unfold read_sized. split.
  - intros ([n k] & Hn & Ht)%bind_ok. apply reads in Hn as [Hp ->]. apply take_n_ok in Ht as [-> Hl].
    assert (n = blen l) as -> by (unfold blen; lia). unfold encode_bytes. by rewrite <- app_assoc.
  - intros [Hp ->]. unfold encode_bytes. rewrite <- app_assoc. exact (read_sized_app e1 e2 l rest Hp).
Qed.

(** [String::from_utf8(self.bytes()?)] *)
Definition read_string {E} (e : E) (rd : bytes -> result E (bytes * bytes)) (b : bytes)
  : result E (string * bytes) :=
  '(l, b) ← rd b;
  match from_utf8 l with Ok s => Ok (s, b) | Err _ => Err e end.

Definition text_in (P : bytes -> Prop) (s : string) : Prop := is_utf8 s = true /\ P (as_bytes s).
Definition encode_string (s : string) : bytes := encode_bytes (as_bytes s).

Lemma reads_string {E} (e : E) rd P enc `{!Reads P enc rd} :
  Reads (text_in P) (fun s => enc (as_bytes s)) (read_string e rd).
Proof.
  intros b s rest. unfold read_string. split.
  - intros ([l k] & Hl & H)%bind_ok. apply reads in Hl as [Hp ->].
    destruct (from_utf8 l) as [s'|] eqn:Hs; [|done]. injection H as <- <-.
    apply from_utf8_ok in Hs as [Hu <-]. by split.
  - intros [[Hu Hp] ->]. rewrite (reads_app P enc rd) by done. cbn [mbind result_bind].
    by rewrite from_utf8_as_bytes.
Qed.

#[export] Instance reads_string_le {E} (e : E) rd P `{!Reads P encode_bytes rd} :
  Reads (text_in P) encode_string (read_string e rd).
Proof. exact (reads_string e rd P encode_bytes). Qed.
#[export] Instance reads_string_be {E} (e : E) rd P `{!Reads P push_bytes rd} :
  Reads (text_in P) push_text (read_string e rd).
Proof. exact (reads_string e rd P push_bytes). Qed.

(** ** Options, tags and lists *)

(** [match cursor.byte()? { 0 => None, 1 => Some(..), _ => return Err(e) }] *)
Definition read_opt {E A} (e_short e_tag : E) (rd : bytes -> result E (A * bytes)) (b : bytes)
  : result E (option A * bytes) :=
  '(t, b) ← read_u8 e_short b;
  match t with
  | Byte.x00 => Ok (None, b)
  | Byte.x01 => '(x, b) ← rd b; Ok (Some x, b)
  | _ => Err e_tag
  end.

#[export] Instance reads_opt {E A} (e_short e_tag : E) (rd : bytes -> result E (A * bytes)) P enc
    `{!Reads P enc rd} :
  Reads (opt_ok P) (push_option enc) (read_opt e_short e_tag rd).
Proof.
  intros b o rest. unfold read_opt. split.
  - intros ([t k] & Ht & H)%bind_ok. apply reads in Ht as [_ ->].
    destruct t; try discriminate H.
    + injection H as <- <-. split; [|done]. intros x. done.
    + apply bind_ok in H as ([x k'] & Hx & [= <- <-]). apply reads in Hx as [Hp ->].
      split; [|done]. by intros y [= <-].
  - intros [Ho ->]. destruct o as [x|]; cbn; [|done].
    rewrite (reads_app P enc rd) by (by apply Ho). done.
Qed.

(** A value written as one byte. *)
Definition read_tag {E A} (e_short e_tag : E) (untag : byte -> option A) (b : bytes)
  : result E (A * bytes) :=
  '(t, b) ← read_u8 e_short b;
  match untag t with Some x => Ok (x, b) | None => Err e_tag end.

Lemma reads_tag {E A} (e_short e_tag : E) (untag : byte -> option A) (tag : A -> byte) :
  (forall t x, untag t = Some x <-> tag x = t) ->
  Reads any (fun x => one (tag x)) (read_tag e_short e_tag untag).
Proof.
  intros Ht b x rest. unfold read_tag. split.
  - intros ([t k] & Hk & H)%bind_ok. apply reads in Hk as [_ ->].
    destruct (untag t) as [y|] eqn:Hy; [|done]. injection H as <- <-. apply Ht in Hy as <-. done.
  - intros [_ ->]. cbn. by rewrite (proj2 (Ht (tag x) x) eq_refl).
Qed.

Lemma reads_many {E A} (rd : bytes -> result E (A * bytes)) P enc `{!Reads P enc rd} n b l rest :
  read_many n rd b = Ok (l, rest) <-> (length l = n /\ Forall P l) /\ b = flat_map enc l ++ rest.
Proof.
  split.
  - revert b l. induction n as [|n IH]; intros b l H; cbn in H.
    + injection H as <- <-. by split; [split|].
    + apply bind_ok in H as ([x k] & Hx & H). apply reads in Hx as [Hp ->].
      apply bind_ok in H as ([xs k'] & Hxs & [= <- <-]). apply IH in Hxs as ((Hl & Hf) & ->).
      cbn. rewrite <- app_assoc. split; [|done]. split; [by rewrite Hl|by constructor].
  - intros [[<- Hf] ->]. apply (read_many_app rd enc P); [|done]. intros x k Hx. by apply (reads_app P).
Qed.

(** A count no larger than a bound, then that many items. *)
Definition read_counted {E A} (rdlen : bytes -> result E (N * bytes)) (max : N) (e_big : E)
    (rd : bytes -> result E (A * bytes)) (b : bytes) : result E (list A * bytes) :=
  '(n, b) ← rdlen b;
  reject (max <? n)%N with e_big;;
  read_many (N.to_nat n) rd b.

Lemma reads_counted {E A} (rdlen : bytes -> result E (N * bytes)) Plen enclen max (e_big : E)
    (rd : bytes -> result E (A * bytes)) P enc `{!Reads Plen enclen rdlen, !Reads P enc rd} :
  Reads (fun l => ((blen l <= max)%N /\ Plen (blen l)) /\ Forall P l)
    (fun l => enclen (blen l) ++ flat_map enc l) (read_counted rdlen max e_big rd).
Proof.
  intros b l rest. unfold read_counted. split.
  - intros ([n k] & Hn & H)%bind_ok. apply reads in Hn as [Hp ->].
    apply guard_err_ok in H as [Hb Hm]. apply N.ltb_ge in Hb.
    apply (reads_many rd P enc) in Hm as ((Hl & Hf) & ->).
    assert (n = blen l) as -> by (unfold blen; lia). by rewrite <- app_assoc.
  - intros [((Hb & Hp) & Hf) ->]. rewrite <- app_assoc, (reads_app Plen enclen rdlen) by done.
    cbn [mbind result_bind]. apply guard_err_ok. split; [by apply N.ltb_ge|].
    apply (reads_many rd P enc). split; [|done]. split; [unfold blen; lia|done].
Qed.

Definition count_ok {A} (max : N) (P : A -> Prop) (l : list A) : Prop :=
  ((blen l <= max)%N /\ (blen l <= u32_max)%N) /\ Forall P l.
Definition encode_list {A} (enc : A -> bytes) (l : list A) : bytes :=
  u32_le (blen l) ++ flat_map enc l.

#[export] Instance reads_counted_le {E A} max (e e_big : E) (rd : bytes -> result E (A * bytes)) P enc
    `{!Reads P enc rd} :
  Reads (count_ok max P) (encode_list enc) (read_counted (read_u32_le e) max e_big rd).
Proof. exact (reads_counted (read_u32_le e) (fun v => v <= u32_max)%N u32_le max e_big rd P enc). Qed.
#[export] Instance reads_counted_be {E A} max (e e_big : E) (rd : bytes -> result E (A * bytes)) P enc
    `{!Reads P enc rd} :
  Reads (count_ok max P) (push_list enc) (read_counted (read_u32_be e) max e_big rd).
Proof. exact (reads_counted (read_u32_be e) (fun v => v <= u32_max)%N push_u32 max e_big rd P enc). Qed.

(** ** Automation *)

(** Run a decoder on bytes it accepted: each field read becomes a value within its
    bounds and the bytes become the encodings in order. *)
Ltac read_field H :=
  let x := fresh "x" in let k := fresh "k" in let Hx := fresh "Hx" in let Hp := fresh "Hp" in
  apply bind_ok in H as ((x & k) & Hx & H); apply reads in Hx as (Hp & ->); cbv beta iota in H.
Ltac read_fields H :=
  repeat match type of H with mbind _ _ = Ok _ => read_field H end.

(** Run a decoder on an encoding: each field is read back, leaving its bounds to show. *)
Ltac read_back :=
  repeat match goal with
  | |- context [mbind ?f (?rd (?l ++ ?k))] =>
      erewrite (reads_app _ _ rd _ k); [cbn [mbind result_bind]; cbv beta iota|]
  end.

(** The bounds that say nothing or are at hand. *)
Ltac field_bounds := first [done | by split | by intros ? ? | assumption].

(** A value that was validated before it is returned. *)
Lemma checked {E A} (f : A -> result E unit) x y : x = y -> f y = Ok tt -> (_ ← f x; Ok x) = Ok y.
Proof. by intros -> ->. Qed.

(** Compare two encodings field by field: what is encoded is equal, field by field, as far
    as each field fits. *)
#[export] Instance pf_u16_be : PrefixFree (fun v => v <= u16_max)%N u16_be :=
  reads_prefix_free _ _ (read_u16_be tt).
#[export] Instance pf_one : PrefixFree any one := reads_prefix_free _ _ (read_u8 tt).

Lemma opt_any {A} (o : option A) : opt_ok any o.
Proof. by intros ? ?. Qed.
Ltac easy_bound := first [exact I | assumption | apply opt_any].

Ltac peel_fields H :=
  match type of H with
  | ?enc ?x ++ ?k = ?enc ?y ++ ?l =>
      let E := fresh "E" in
      apply (prefix_free (enc := enc) x y k l) in H as [E H]; [peel_fields H|try easy_bound..]
  | _ => idtac
  end.
Ltac peel H :=
  apply (f_equal (fun b => b ++ [])) in H; rewrite <- ?app_assoc in H; peel_fields H.

(** [if !cursor.is_empty() { return Err(e) }] *)
Definition finish {E} (e : E) (b : bytes) : result E unit :=
  match b with [] => Ok tt | _ => Err e end.

Lemma finish_ok {E} (e : E) b : finish e b = Ok tt <-> b = [].
Proof. by destruct b. Qed.

(** The decoders that read a record, validate it and compare its encoding with the input
    accept exactly the encodings of valid records of Rust's types. *)
Lemma decode_checked {E A} (P T : A -> Prop) enc (rd : bytes -> result E (A * bytes)) `{!Reads P enc rd}
    (validate : A -> result E unit) (e_trail e_mis : E) b x :
  (forall y, P y -> T y) -> (forall y, T y -> validate y = Ok tt -> P y) ->
  ('(y, k) ← rd b; _ ← finish e_trail k; _ ← validate y;
   c ← (_ ← validate y; Ok (enc y)); reject negb (bool_decide (c = b)) with e_mis;; Ok y) = Ok x
  <-> T x /\ (_ ← validate x; Ok (enc x)) = Ok b.
Proof.
  intros HT HP. split.
  - intros H. read_field H. rewrite !bind_unit_ok, finish_ok in H. destruct H as (-> & Hv & H).
    rewrite Hv in H. cbn [mbind result_bind] in H. apply guard_err_ok in H as [_ [= <-]].
    rewrite Hv, app_nil_r. cbn [mbind result_bind]. auto.
  - intros [Ht (Hv & [= <-])%bind_unit_ok]. rewrite <- (app_nil_r (enc x)) at 1.
    rewrite (reads_app P enc rd) by auto. cbn [mbind result_bind finish]. rewrite Hv. cbn [mbind result_bind].
    by rewrite bool_decide_true.
Qed.
