(* ===== verification/Mandate.v ===== *)
(** * Action mandates (csv-accountability: id.rs, mandate.rs)

    A mandate authorises one dispatch of one intent, within a time window, under sorted
    constraints and evidence requirements.  Its canonical form is decoded strictly: the
    bytes accepted are exactly the encodings of valid mandates, so the identifier, a
    hash of those bytes, determines the mandate. *)

From S2P Require Import Prelude Ord Bytes Hashing Text Accountability Codec Decode.

(** ** Versions and identifiers *)

Record ProtocolVersion := mkVersion { major : N; minor : N }.
Notation ObjectVersion := N.
Notation IntentId := Bytes32.
Notation MandateId := Bytes32.
Notation AttemptId := Bytes32.

Global Instance ProtocolVersion_eq_dec : EqDecision ProtocolVersion.
Proof. solve_decision. Defined.

Definition ACCOUNTABILITY_PROTOCOL_VERSION : ProtocolVersion := mkVersion 0 1.
Definition ACCOUNTABILITY_OBJECT_VERSION : ObjectVersion := 1%N.

Definition supports (v other : ProtocolVersion) : bool :=
  (major v =? major other)%N && (minor other <=? minor v)%N.
(** [ObjectVersion::try_new] *)
Definition try_new {E} (e : E) (v : N) : result E ObjectVersion :=
  if (v =? 0)%N then Err e else Ok v.

(** ** Data *)

Definition MAX_MANDATE_IDENTITY_BYTES : N := 512.
Definition MAX_MANDATE_REQUIREMENTS : N := 64.
Definition MAX_REGISTRY_ID_BYTES : N := 128.
Definition MAX_SIGNATURE_BYTES : N := 8192.
Definition MAX_KEY_ID_BYTES : N := 512.
Definition ED25519_SIGNATURE_ALGORITHM : string := "org.diewan.signature.ed25519.v1".

Inductive MandateError :=
| UnsupportedVersion
| InvalidField (field : string)
| InvalidValidity
| InvalidDispatchLimit
| InvalidRequirements
| InvalidSignatureEnvelope
| InvalidEncoding.

Inductive MandateSubject := SubjectIdentity (identity : bytes) | ExecutorClass (class : string).
Global Instance MandateSubject_eq_dec : EqDecision MandateSubject.
Proof. solve_decision. Defined.

Record MandateRequirement := mkRequirement { registry_id : string; parameters_digest : Bytes32 }.
Record ExecutionPolicy := mkPolicy { policy_registry_id : string; policy_parameters_digest : Bytes32 }.
Record SignatureRequirements := mkSigReq { algorithm : string; key_id : bytes }.

Record ActionMandate := mkMandate {
  protocol_version : ProtocolVersion;
  mandate_version : ObjectVersion;
  intent_id : IntentId;
  issuer_identity : bytes;
  subject : MandateSubject;
  authority_domain : bytes;
  valid_from : N;
  expires_at : N;
  maximum_dispatches : N;
  constraints : list MandateRequirement;
  evidence_requirements : list MandateRequirement;
  execution_policy : ExecutionPolicy;
  parent_mandate : option MandateId;
  revocation_reference : option Bytes32;
  issued_at : N;
  nonce : Bytes32;
  signature_requirements : SignatureRequirements
}.

(** ** Validation *)

Definition is_ascii (s : string) : bool := forallb (fun b => (Byte.to_N b <? 128)%N) (as_bytes s).
(** [u8::is_ascii_control] *)
Definition is_ascii_control (b : byte) : bool := (Byte.to_N b <? 32)%N || (Byte.to_N b =? 127)%N.

Definition validate_bytes (value : bytes) (field : string) (maximum : N) : result MandateError unit :=
  if (blen value =? 0)%N || (maximum <? blen value)%N then Err (InvalidField field) else Ok tt.

Definition bad_registry_id (s : string) : bool :=
  (slen s =? 0)%N || (MAX_REGISTRY_ID_BYTES <? slen s)%N || negb (is_trimmed s) || negb (is_ascii s)
  || existsb is_ascii_control (as_bytes s).
Definition validate_registry_id (s : string) : result MandateError unit :=
  if bad_registry_id s then Err (InvalidField "registry_id") else Ok tt.

Definition validate_requirements (values : list MandateRequirement) (require_nonempty : bool)
  : result MandateError unit :=
  reject (MAX_MANDATE_REQUIREMENTS <? blen values)%N || (require_nonempty && (blen values =? 0)%N)
    with InvalidRequirements;;
  _ ← try_each (fun v => validate_registry_id (registry_id v)) values;
  reject not_increasing (registry_id <$> values) with InvalidRequirements;;
  Ok tt.

Definition validate_subject (s : MandateSubject) : result MandateError unit :=
  match s with
  | SubjectIdentity i => validate_bytes i "subject_identity" MAX_MANDATE_IDENTITY_BYTES
  | ExecutorClass c => validate_registry_id c
  end.

Definition mandate_validate (m : ActionMandate) : result MandateError unit :=
  reject negb (bool_decide (protocol_version m = ACCOUNTABILITY_PROTOCOL_VERSION))
         || negb (mandate_version m =? ACCOUNTABILITY_OBJECT_VERSION)%N with UnsupportedVersion;;
  _ ← validate_bytes (issuer_identity m) "issuer_identity" MAX_MANDATE_IDENTITY_BYTES;
  _ ← validate_bytes (authority_domain m) "authority_domain" MAX_MANDATE_IDENTITY_BYTES;
  _ ← validate_subject (subject m);
  reject (expires_at m <=? valid_from m)%N || (valid_from m <? issued_at m)%N with InvalidValidity;;
  reject negb (maximum_dispatches m =? 1)%N with InvalidDispatchLimit;;
  _ ← validate_requirements (constraints m) false;
  _ ← validate_requirements (evidence_requirements m) true;
  _ ← validate_registry_id (policy_registry_id (execution_policy m));
  reject negb (bool_decide (algorithm (signature_requirements m) = ED25519_SIGNATURE_ALGORITHM))
         || (blen (key_id (signature_requirements m)) =? 0)%N
         || (MAX_KEY_ID_BYTES <? blen (key_id (signature_requirements m)))%N
    with InvalidSignatureEnvelope;;
  Ok tt.

Definition is_valid_at (m : ActionMandate) (timestamp : N) : result MandateError bool :=
  _ ← mandate_validate m;
  Ok ((valid_from m <=? timestamp)%N && (timestamp <? expires_at m)%N).

(** ** The canonical form *)

Definition requirement_bytes (r : MandateRequirement) : bytes :=
  encode_string (registry_id r) ++ b32 (parameters_digest r).
Definition subject_bytes (s : MandateSubject) : bytes :=
  match s with
  | SubjectIdentity i => one Byte.x00 ++ encode_bytes i
  | ExecutorClass c => one Byte.x01 ++ encode_string c
  end.

Definition mandate_bytes (m : ActionMandate) : bytes :=
  u16_le (major (protocol_version m)) ++ u16_le (minor (protocol_version m)) ++
  u16_le (mandate_version m) ++ b32 (intent_id m) ++ encode_bytes (issuer_identity m) ++
  subject_bytes (subject m) ++ encode_bytes (authority_domain m) ++
  u64_le (valid_from m) ++ u64_le (expires_at m) ++ u32_le (maximum_dispatches m) ++
  encode_list requirement_bytes (constraints m) ++
  encode_list requirement_bytes (evidence_requirements m) ++
  encode_string (policy_registry_id (execution_policy m)) ++
  b32 (policy_parameters_digest (execution_policy m)) ++
  push_option b32 (parent_mandate m) ++ push_option b32 (revocation_reference m) ++
  u64_le (issued_at m) ++ b32 (nonce m) ++
  encode_string (algorithm (signature_requirements m)) ++
  encode_bytes (key_id (signature_requirements m)).

(** [ActionMandate::canonical_bytes] *)
Definition mandate_canonical_bytes (m : ActionMandate) : result MandateError bytes :=
  _ ← mandate_validate m; Ok (mandate_bytes m).

(** [Cursor] *)
Definition c_u16 := read_u16_le InvalidEncoding.
Definition c_u32 := read_u32_le InvalidEncoding.
Definition c_u64 := read_u64_le InvalidEncoding.
Definition c_bytes := read_vec (read_u32_le InvalidEncoding) MAX_SIGNATURE_BYTES InvalidEncoding InvalidEncoding.
Definition c_string := read_string InvalidEncoding c_bytes.
Definition c_digest := read_b32 InvalidEncoding.
Definition c_requirement (b : bytes) : result MandateError (MandateRequirement * bytes) :=
  '(id, b) ← c_string b;
  '(digest, b) ← c_digest b;
  Ok (mkRequirement id digest, b).
Definition c_requirements :=
  read_counted (read_u32_le InvalidEncoding) MAX_MANDATE_REQUIREMENTS InvalidRequirements c_requirement.
Definition c_optional := read_opt InvalidEncoding InvalidEncoding c_digest.
Definition c_subject (b : bytes) : result MandateError (MandateSubject * bytes) :=
  '(t, b) ← read_u8 InvalidEncoding b;
  match t with
  | Byte.x00 => '(i, b) ← c_bytes b; Ok (SubjectIdentity i, b)
  | Byte.x01 => '(c, b) ← c_string b; Ok (ExecutorClass c, b)
  | _ => Err InvalidEncoding
  end.

(** [ActionMandate::from_canonical_bytes] *)
Definition mandate_from_canonical_bytes (b : bytes) : result MandateError ActionMandate :=
  '(v_major, b) ← c_u16 b;
  '(v_minor, b) ← c_u16 b;
  '(v, b) ← c_u16 b;
  version ← try_new UnsupportedVersion v;
  '(intent, b) ← c_digest b;
  '(issuer, b) ← c_bytes b;
  '(subj, b) ← c_subject b;
  '(domain, b) ← c_bytes b;
  '(from, b) ← c_u64 b;
  '(until, b) ← c_u64 b;
  '(dispatches, b) ← c_u32 b;
  '(cs, b) ← c_requirements b;
  '(es, b) ← c_requirements b;
  '(policy_id, b) ← c_string b;
  '(policy_digest, b) ← c_digest b;
  '(parent, b) ← c_optional b;
  '(revocation, b) ← c_optional b;
  '(issued, b) ← c_u64 b;
  '(n, b) ← c_digest b;
  '(alg, b) ← c_string b;
  '(key, b) ← c_bytes b;
  _ ← finish InvalidEncoding b;
  let m := mkMandate (mkVersion v_major v_minor) version intent issuer subj domain from until dispatches
             cs es (mkPolicy policy_id policy_digest) parent revocation issued n (mkSigReq alg key) in
  _ ← mandate_validate m;
  Ok m.

Section Mandate.
Variable sha256 : bytes -> Bytes32.

(** [ActionMandate::id]: the two payloads joined by a zero byte. *)
Definition mandate_id (m : ActionMandate) : result MandateError MandateId :=
  canonical ← mandate_canonical_bytes m;
  Ok (domain_hash_multiple sha256 "csv.accountability.mandate.v1" [as_bytes "action-mandate-v1"; canonical]).
Definition signing_bytes (m : ActionMandate) : result MandateError bytes :=
  id ← mandate_id m; Ok (b32 id).
End Mandate.

(** ** The signature envelope *)

Record MandateSignatureEnvelope := mkEnvelope {
  env_version : ObjectVersion;
  env_algorithm : string;
  env_key_id : bytes;
  env_signature : bytes
}.

Definition validate_for (e : MandateSignatureEnvelope) (m : ActionMandate) : result MandateError unit :=
  _ ← mandate_validate m;
  reject negb (env_version e =? ACCOUNTABILITY_OBJECT_VERSION)%N with UnsupportedVersion;;
  reject negb (bool_decide (env_algorithm e = algorithm (signature_requirements m)))
         || negb (bool_decide (env_key_id e = key_id (signature_requirements m)))
         || negb (bool_decide (env_algorithm e = ED25519_SIGNATURE_ALGORITHM))
         || negb (blen (env_signature e) =? 64)%N || (MAX_SIGNATURE_BYTES <? blen (env_signature e))%N
    with InvalidSignatureEnvelope;;
  Ok tt.

Definition envelope_bytes (e : MandateSignatureEnvelope) : bytes :=
  u16_le (env_version e) ++ encode_string (env_algorithm e) ++ encode_bytes (env_key_id e) ++
  encode_bytes (env_signature e).
Definition envelope_canonical_bytes (e : MandateSignatureEnvelope) (m : ActionMandate)
  : result MandateError bytes :=
  _ ← validate_for e m; Ok (envelope_bytes e).
Definition envelope_from_canonical_bytes (b : bytes) (m : ActionMandate)
  : result MandateError MandateSignatureEnvelope :=
  '(v, b) ← c_u16 b;
  version ← try_new UnsupportedVersion v;
  '(alg, b) ← c_string b;
  '(key, b) ← c_bytes b;
  '(signature, b) ← c_bytes b;
  _ ← finish InvalidEncoding b;
  let e := mkEnvelope version alg key signature in
  _ ← validate_for e m;
  Ok e.

(** ** What validation promises *)

Definition sized (max : N) (l : bytes) : Prop := (0 < blen l <= max)%N.
Definition registry_id_ok (s : string) : Prop := bad_registry_id s = false.

Record requirements_ok (l : list MandateRequirement) : Prop := {
  reqs_few : (blen l <= MAX_MANDATE_REQUIREMENTS)%N;
  reqs_ids : Forall (fun r => registry_id_ok (registry_id r)) l;
  reqs_sorted : bset_ok (registry_id <$> l)
}.

Record mandate_ok (m : ActionMandate) : Prop := {
  ok_version : protocol_version m = ACCOUNTABILITY_PROTOCOL_VERSION;
  ok_object_version : mandate_version m = ACCOUNTABILITY_OBJECT_VERSION;
  ok_issuer : sized MAX_MANDATE_IDENTITY_BYTES (issuer_identity m);
  ok_domain : sized MAX_MANDATE_IDENTITY_BYTES (authority_domain m);
  ok_subject : match subject m with
               | SubjectIdentity i => sized MAX_MANDATE_IDENTITY_BYTES i
               | ExecutorClass c => registry_id_ok c
               end;
  ok_window : (issued_at m <= valid_from m < expires_at m)%N;
  ok_dispatches : maximum_dispatches m = 1%N;
  ok_constraints : requirements_ok (constraints m);
  ok_requirements : requirements_ok (evidence_requirements m);
  ok_some_requirement : evidence_requirements m <> [];
  ok_policy : registry_id_ok (policy_registry_id (execution_policy m));
  ok_algorithm : algorithm (signature_requirements m) = ED25519_SIGNATURE_ALGORITHM;
  ok_key : sized MAX_KEY_ID_BYTES (key_id (signature_requirements m))
}.

Lemma blen_pos {A} (l : list A) : (0 < blen l)%N <-> l <> [].
Proof. unfold blen. destruct l; cbn; split; try done; lia. Qed.

Lemma validate_bytes_ok l f max : validate_bytes l f max = Ok tt <-> sized max l.
Proof.
  unfold validate_bytes, sized. destruct (N.eqb_spec (blen l) 0), (N.ltb_spec max (blen l)); cbn;
    split; intros; try done; lia.
Qed.

Lemma validate_registry_id_ok s : validate_registry_id s = Ok tt <-> registry_id_ok s.
Proof. unfold validate_registry_id, registry_id_ok. by destruct (bad_registry_id s). Qed.

Lemma try_ids l : try_each (fun v => validate_registry_id (registry_id v)) l = Ok tt
  <-> Forall (fun r => registry_id_ok (registry_id r)) l.
Proof. rewrite try_each_ok. apply Forall_iff. intros r. apply validate_registry_id_ok. Qed.

Lemma validate_requirements_ok l some :
  validate_requirements l some = Ok tt <-> requirements_ok l /\ (some = true -> l <> []).
Proof.
  unfold validate_requirements.
  rewrite guard_err_ok, bind_unit_ok, guard_err_ok, try_ids, not_increasing_spec, orb_false_iff, N.ltb_ge.
  rewrite andb_false_iff, N.eqb_neq. split.
  - intros ([Hf Hs] & Hi & Ho & _). split; [done|]. intros ->. destruct Hs as [|Hs]; [done|].
    intros ->. done.
  - intros [[Hf Hi Ho] Hs]. split_and!; try done. destruct some; [right|by left].
    destruct l; [by destruct Hs|]. unfold blen. cbn. lia.
Qed.

Lemma validate_subject_ok s : validate_subject s = Ok tt
  <-> match s with SubjectIdentity i => sized MAX_MANDATE_IDENTITY_BYTES i
      | ExecutorClass c => registry_id_ok c end.
Proof. destruct s; [apply validate_bytes_ok|apply validate_registry_id_ok]. Qed.

Lemma mandate_validate_ok m : mandate_validate m = Ok tt <-> mandate_ok m.
Proof.
  unfold mandate_validate.
  rewrite ?guard_err_ok, ?bind_unit_ok, ?guard_err_ok, ?bind_unit_ok, ?guard_err_ok.
  rewrite !validate_bytes_ok, validate_subject_ok, !validate_requirements_ok, validate_registry_id_ok.
  rewrite !orb_false_iff, !negb_false_iff, !bool_decide_eq_true, !N.leb_gt, !N.ltb_ge, !N.eqb_eq, N.eqb_neq.
  split.
  - intros ([Hv Ho] & Hi & Hd & Hs & [Hw1 Hw2] & Hone & [Hc _] & [Hr Hn] & Hp & [[Ha Hk1] Hk2] & _).
    split; try done; unfold sized; try lia. by apply Hn.
  - intros []. unfold sized in ok_key0. split_and!; try done; lia.
Qed.

(** ** Reading back *)

#[export] Instance c_u16_reads : Reads (fun v => v <= u16_max)%N u16_le c_u16 := reads_u16_le _.
#[export] Instance c_u32_reads : Reads (fun v => v <= u32_max)%N u32_le c_u32 := reads_u32_le _.
#[export] Instance c_u64_reads : Reads (fun v => v <= u64_max)%N u64_le c_u64 := reads_u64_le _.
#[export] Instance c_digest_reads : Reads any b32 c_digest := reads_b32 _.
#[export] Instance c_bytes_reads : Reads (vec_ok MAX_SIGNATURE_BYTES) encode_bytes c_bytes := reads_vec_le _ _ _ _.
#[export] Instance c_string_reads : Reads (text_in (vec_ok MAX_SIGNATURE_BYTES)) encode_string c_string :=
  reads_string_le _ _ _.
#[export] Instance c_optional_reads : Reads (opt_ok any) (push_option b32) c_optional := reads_opt _ _ _ _ _.

Definition requirement_fits (r : MandateRequirement) : Prop :=
  text_in (vec_ok MAX_SIGNATURE_BYTES) (registry_id r).

#[export] Instance c_requirement_reads : Reads requirement_fits requirement_bytes c_requirement.
Proof.
  intros b r rest. unfold c_requirement, requirement_bytes. split.
  - intros H. read_fields H. injection H as <- <-. by rewrite <- app_assoc.
  - intros [Hr ->]. rewrite <- app_assoc. destruct r. read_back; done.
Qed.
#[export] Instance c_requirements_reads :
  Reads (count_ok MAX_MANDATE_REQUIREMENTS requirement_fits) (encode_list requirement_bytes) c_requirements :=
  reads_counted_le _ _ _ _ _ _.

Definition subject_fits (s : MandateSubject) : Prop :=
  match s with
  | SubjectIdentity i => vec_ok MAX_SIGNATURE_BYTES i
  | ExecutorClass c => text_in (vec_ok MAX_SIGNATURE_BYTES) c
  end.
#[export] Instance c_subject_reads : Reads subject_fits subject_bytes c_subject.
Proof.
  intros b s rest. unfold c_subject. split.
  - intros H. read_field H. destruct x; try discriminate H; read_fields H; injection H as <- <-.
    + split; [done|]. unfold subject_bytes. by rewrite <- app_assoc.
    + split; [done|]. unfold subject_bytes. by rewrite <- app_assoc.
  - intros [Hs ->]. destruct s as [i|c]; unfold subject_bytes; rewrite <- app_assoc; read_back; done.
Qed.

Lemma is_ascii_utf8 s : is_ascii s = true -> is_utf8 s = true.
Proof.
  intros H. apply chars_ascii. rewrite Forall_forall. intros b Hb.
  unfold is_ascii in H. rewrite forallb_forall in H. apply N.ltb_lt, H. by apply list_elem_of_In.
Qed.

Lemma registry_id_fits s : registry_id_ok s -> text_in (vec_ok MAX_SIGNATURE_BYTES) s.
Proof.
  unfold registry_id_ok, bad_registry_id. rewrite !orb_false_iff, !negb_false_iff, N.ltb_ge.
  intros ((((_ & Hl) & _) & Ha) & _). split; [by apply is_ascii_utf8|].
  unfold vec_ok, slen, MAX_REGISTRY_ID_BYTES, MAX_SIGNATURE_BYTES, u32_max in *. lia.
Qed.

Lemma requirements_fit l :
  requirements_ok l -> count_ok MAX_MANDATE_REQUIREMENTS requirement_fits l.
Proof.
  intros [Hf Hi _]. unfold count_ok, MAX_MANDATE_REQUIREMENTS, u32_max in *. split; [lia|].
  eapply Forall_impl; [exact Hi|]. intros r. apply registry_id_fits.
Qed.

Lemma sized_fits max l : sized max l -> (max <= MAX_SIGNATURE_BYTES)%N -> vec_ok MAX_SIGNATURE_BYTES l.
Proof. unfold sized, vec_ok, MAX_SIGNATURE_BYTES, u32_max. lia. Qed.

(** The timestamps are 64-bit integers. *)
Definition mandate_typed (m : ActionMandate) : Prop :=
  (valid_from m <= u64_max /\ expires_at m <= u64_max /\ issued_at m <= u64_max)%N.

Lemma try_new_ok {E} (e : E) v x : try_new e v = Ok x <-> v = x /\ v <> 0%N.
Proof. unfold try_new. destruct (N.eqb_spec v 0); naive_solver. Qed.

(** Both directions of the codec. *)
Lemma mandate_decode_iff (b : bytes) (m : ActionMandate) :
  mandate_from_canonical_bytes b = Ok m
  <-> mandate_typed m /\ mandate_canonical_bytes m = Ok b.
Proof.
  unfold mandate_from_canonical_bytes, mandate_canonical_bytes. rewrite bind_unit_ok. split.
  - intros H. read_fields H. apply bind_ok in H as (v & Hv & H). apply try_new_ok in Hv as [-> _].
    read_fields H. rewrite !bind_unit_ok, finish_ok in H. destruct H as (-> & Hm & [= <-]).
    split; [by split_and!|]. split; [done|]. by rewrite app_nil_r.
  - intros [(H1 & H2 & H3) [Hm [= <-]]]. pose proof Hm as Hok. apply mandate_validate_ok in Hok as [].
    assert (Hv : try_new UnsupportedVersion (mandate_version m) = Ok (mandate_version m)).
    { apply try_new_ok. by rewrite ok_object_version0. }
    assert (Hone : forall x, x = 1%N -> (x <= u16_max)%N /\ (x <= u32_max)%N) by (intros ? ->; done).
    unfold mandate_bytes. rewrite <- (app_nil_r (encode_bytes (key_id _))).
    read_back; [rewrite Hv; cbn [mbind result_bind]; read_back|..].
    all: try solve [field_bounds].
    all: try (by apply Hone || by apply requirements_fit || by apply registry_id_fits).
    all: try (eapply sized_fits; [eassumption|done]).
    + cbn [finish mbind result_bind]. apply checked; [|done].
      by destruct m as [[] ? ? ? ? ? ? ? ? ? ? [] ? ? ? ? []].
    + rewrite ok_algorithm0. by vm_compute.
    + unfold subject_fits. destruct (subject m); [by eapply sized_fits|by apply registry_id_fits].
    + rewrite ok_version0. vm_compute. discriminate.
    + rewrite ok_version0. vm_compute. discriminate.
Qed.

(** Decoding a mandate accepts exactly the canonical encodings of valid mandates:
    what is decoded is valid and encodes to the very bytes it was read from, and every
    valid mandate is read back from its encoding.  A mandate has one encoding. *)
Theorem mandate_codec_exact (b : bytes) (m : ActionMandate) :
  mandate_from_canonical_bytes b = Ok m
  <-> mandate_typed m /\ mandate_canonical_bytes m = Ok b.
Proof. apply mandate_decode_iff. Qed.

Lemma mandate_bytes_inj m n b :
  mandate_typed m -> mandate_typed n ->
  mandate_canonical_bytes m = Ok b -> mandate_canonical_bytes n = Ok b -> m = n.
Proof.
  intros Hm Hn Hbm Hbn.
  assert (H1 : mandate_from_canonical_bytes b = Ok m) by (by apply mandate_decode_iff).
  assert (H2 : mandate_from_canonical_bytes b = Ok n) by (by apply mandate_decode_iff).
  rewrite H1 in H2. by injection H2.
Qed.

Section Ids.
Variable sha256 : bytes -> Bytes32.

(** What is hashed last for the identifier of a valid mandate. *)
Definition mandate_preimage (m : ActionMandate) : bytes :=
  multiple_preimage sha256 "csv.accountability.mandate.v1" [as_bytes "action-mandate-v1"; mandate_bytes m].

(** An identifier names one valid mandate, unless what is hashed for two collides.  The tag that is
    hashed first has a fixed length, so the separator of the two payloads is not in doubt. *)
Lemma mandate_id_inj l m n id : mandate_preimage m ∈ l -> mandate_preimage n ∈ l ->
  mandate_typed m -> mandate_typed n -> mandate_id sha256 m = Ok id -> mandate_id sha256 n = Ok id ->
  m = n \/ collision_in sha256 l.
Proof.
  intros Sm Sn Hm Hn Him Hin. unfold mandate_id, mandate_preimage in *.
  apply bind_ok in Him as (b & Hb & [= Him]). apply bind_ok in Hin as (c & Hc & [= Hin]).
  assert (b = mandate_bytes m /\ c = mandate_bytes n) as [Eb Ec].
  { unfold mandate_canonical_bytes in *. apply bind_unit_ok in Hb as [_ [= <-]], Hc as [_ [= <-]]. done. }
  rewrite <- Hin, Eb, Ec in Him. hash_inj Him. rename Him into H. rewrite <- Eb, <- Ec in H. left.
  cbn [join_payloads] in H. apply app_inv_head in H. injection H as ->. by eapply mandate_bytes_inj.
Qed.

Lemma mandate_id_valid m id : mandate_id sha256 m = Ok id -> mandate_validate m = Ok tt.
Proof. unfold mandate_id, mandate_canonical_bytes. by intros (b & (Hv & _)%bind_unit_ok & _)%bind_ok. Qed.
End Ids.

(** A mandate of two requirements, valid from 100 until 200. *)
Definition demo_mandate : ActionMandate :=
  mkMandate (mkVersion 0 1) 1 (fill32 Byte.x01) [Byte.x02] (SubjectIdentity [Byte.x03])
    (as_bytes "tenant:acme") 100 200 1 []
    [mkRequirement "org.diewan.evidence.log.v1" (fill32 Byte.x04);
     mkRequirement "org.diewan.evidence.result.v1" (fill32 Byte.x05)]
    (mkPolicy "org.diewan.policy.v1" (fill32 Byte.x06)) None (Some (fill32 Byte.x07)) 90 (fill32 Byte.x08)
    (mkSigReq ED25519_SIGNATURE_ALGORITHM [Byte.x09]).

Example demo_mandate_valid : mandate_validate demo_mandate = Ok tt.
Proof. vm_compute. reflexivity. Qed.

(** * The life of a mandate (csv-accountability/src/state.rs)

    A mandate is proposed, issued, reserved for an attempt, and then consumed, released,
    or quarantined when nobody knows whether the dispatch happened.  The transition
    check ties each step to the state of the attempt and to how certain the dispatch is;
    a journal is a sequence of checked steps with consecutive revisions.  A reservation
    is a compare-and-set on the revision it was decided at. *)

Definition MAX_STATE_POLICY_ID_BYTES : N := 128.

Inductive MandateState :=
| Proposed | Issued | Reserved | Consumed | Expired | Revoked | Released | Quarantined | Abandoned.
Global Instance MandateState_eq_dec : EqDecision MandateState.
Proof. solve_decision. Defined.

Inductive ExecutionAttemptState :=
| Prepared | Dispatching | Accepted | Rejected | OutcomeAmbiguous | ReconciledAccepted
| ReconciledNotAccepted | AbandonedAmbiguous.
Global Instance ExecutionAttemptState_eq_dec : EqDecision ExecutionAttemptState.
Proof. solve_decision. Defined.

Inductive DispatchCertainty :=
| NotDispatched | DefinitePreAcceptanceRejection | PossiblyAccepted | DispatchAccepted.
Global Instance DispatchCertainty_eq_dec : EqDecision DispatchCertainty.
Proof. solve_decision. Defined.

Inductive QuarantineReleasePolicy :=
| Never
| ProfileDefined (policy_id : string) (policy_digest : Bytes32).

Record NonAcceptanceEvidence := mkNonAcceptance {
  na_policy_id : string;
  na_policy_digest : Bytes32;
  na_evidence_digest : Bytes32
}.

Record TransitionContext := mkTransition {
  dispatch_certainty : DispatchCertainty;
  quarantine_release_policy : QuarantineReleasePolicy;
  non_acceptance_evidence : option NonAcceptanceEvidence
}.
Definition before_dispatch : TransitionContext := mkTransition NotDispatched Never None.
Definition github_v1_ambiguous : TransitionContext := mkTransition PossiblyAccepted Never None.

Inductive TransitionError :=
| IllegalTransition | UnsafeRelease | InvalidNonAcceptanceEvidence | AttemptStateMismatch | InvalidJournal.

(** ** Transitions *)

(** [mandate_transition_edges] *)
Definition mandate_transition_edges : list (MandateState * MandateState) :=
  [(Proposed, Issued); (Issued, Reserved); (Issued, Revoked); (Issued, Expired);
   (Reserved, Consumed); (Reserved, Released); (Reserved, Quarantined);
   (Quarantined, Consumed); (Quarantined, Released); (Quarantined, Abandoned)].

(** The [matches!] of [validate_mandate_transition] *)
Definition legal_edge (from to : MandateState) : bool :=
  match from, to with
  | Proposed, Issued | Issued, Reserved | Issued, Revoked | Issued, Expired
  | Reserved, Consumed | Reserved, Released | Reserved, Quarantined
  | Quarantined, Consumed | Quarantined, Released | Quarantined, Abandoned => true
  | _, _ => false
  end.

Definition require_attempt (actual : option ExecutionAttemptState) (expected : ExecutionAttemptState)
  : result TransitionError unit :=
  if bool_decide (actual = Some expected) then Ok tt else Err AttemptStateMismatch.

Definition valid_policy_id (s : string) : bool :=
  negb (slen s =? 0)%N && (slen s <=? MAX_STATE_POLICY_ID_BYTES)%N && is_ascii s && is_trimmed s
  && negb (existsb is_ascii_control (as_bytes s)).

Definition validate_non_acceptance_evidence (c : TransitionContext) : result TransitionError unit :=
  reject negb (bool_decide (dispatch_certainty c = PossiblyAccepted)) with UnsafeRelease;;
  match quarantine_release_policy c with
  | Never => Err UnsafeRelease
  | ProfileDefined policy_id policy_digest =>
      reject negb (valid_policy_id policy_id) with InvalidNonAcceptanceEvidence;;
      evidence ← ok_or InvalidNonAcceptanceEvidence (non_acceptance_evidence c);
      reject negb (bool_decide (na_policy_id evidence = policy_id))
             || negb (bool_decide (na_policy_digest evidence = policy_digest))
             || bool_decide (na_evidence_digest evidence = zero32) with InvalidNonAcceptanceEvidence;;
      Ok tt
  end.

(** [if context.dispatch_certainty != expected { return Err(e) }] *)
Definition require_certainty (c : TransitionContext) (expected : DispatchCertainty) (e : TransitionError)
  : result TransitionError unit :=
  reject negb (bool_decide (dispatch_certainty c = expected)) with e;; Ok tt.

Definition validate_mandate_transition (from to : MandateState) (attempt : option ExecutionAttemptState)
    (c : TransitionContext) : result TransitionError unit :=
  reject negb (legal_edge from to) with IllegalTransition;;
  match from, to with
  | Issued, Reserved =>
      _ ← require_attempt attempt Prepared; require_certainty c NotDispatched AttemptStateMismatch
  | Reserved, Consumed =>
      _ ← require_attempt attempt Accepted; require_certainty c DispatchAccepted AttemptStateMismatch
  | Reserved, Released =>
      _ ← require_attempt attempt Rejected;
      require_certainty c DefinitePreAcceptanceRejection UnsafeRelease
  | Reserved, Quarantined =>
      _ ← require_attempt attempt OutcomeAmbiguous; require_certainty c PossiblyAccepted AttemptStateMismatch
  | Quarantined, Consumed =>
      _ ← require_attempt attempt ReconciledAccepted; require_certainty c DispatchAccepted AttemptStateMismatch
  | Quarantined, Released =>
      _ ← require_attempt attempt ReconciledNotAccepted; validate_non_acceptance_evidence c
  | Quarantined, Abandoned =>
      _ ← require_attempt attempt AbandonedAmbiguous; require_certainty c PossiblyAccepted AttemptStateMismatch
  | _, _ => match attempt with Some _ => Err AttemptStateMismatch | None => Ok tt end
  end.

(** ** The journal *)

Record MandateJournalEntry := mkEntry {
  entry_mandate_id : MandateId;
  previous_revision : N;
  revision : N;
  entry_from : MandateState;
  entry_to : MandateState;
  attempt_state : option ExecutionAttemptState;
  occurred_at : N;
  context : TransitionContext
}.

Definition earlier (time : N) (last_time : option N) : bool :=
  match last_time with Some t => (time <? t)%N | None => false end.

(** The loop of [validate_journal], from the state it has reached. *)
Fixpoint journal_from (mandate_id : MandateId) (state : MandateState) (rev : N) (last_time : option N)
    (entries : list MandateJournalEntry) : result TransitionError (MandateState * N) :=
  match entries with
  | [] => Ok (state, rev)
  | e :: entries' =>
      next ← ok_or InvalidJournal (checked_add64 rev 1);
      reject negb (bool_decide (entry_mandate_id e = mandate_id)) || negb (bool_decide (entry_from e = state))
             || negb (previous_revision e =? rev)%N || negb (revision e =? next)%N
             || earlier (occurred_at e) last_time with InvalidJournal;;
      _ ← validate_mandate_transition (entry_from e) (entry_to e) (attempt_state e) (context e);
      journal_from mandate_id (entry_to e) (revision e) (Some (occurred_at e)) entries'
  end.
Definition validate_journal (mandate_id : MandateId) (initial_state : MandateState) (initial_revision : N)
    (entries : list MandateJournalEntry) : result TransitionError (MandateState * N) :=
  journal_from mandate_id initial_state initial_revision None entries.

(** ** Reservations *)

Record ReservationSnapshot := mkSnapshot {
  snap_mandate_id : MandateId;
  snap_state : MandateState;
  snap_revision : N
}.
Record CasReservation := mkCas {
  cas_mandate_id : MandateId;
  expected_state : MandateState;
  expected_revision : N;
  next_state : MandateState;
  next_revision : N;
  reservation_token_digest : Bytes32
}.
Inductive ReservationError :=
| InvalidMandate | MandateMismatch | RevisionMismatch | NotIssued | NotCurrentlyValid | InvalidReservationToken.

Section Reservation.
Variable sha256 : bytes -> Bytes32.

Definition map_mandate_error {A} : result MandateError A -> result ReservationError A :=
  map_err (fun _ => InvalidMandate).

Definition validate_reservation_cas (m : ActionMandate) (snapshot : ReservationSnapshot)
    (expected : N) (reserved_at : N) (token : Bytes32) : result ReservationError CasReservation :=
  id ← map_mandate_error (mandate_id sha256 m);
  reject negb (bool_decide (snap_mandate_id snapshot = id)) with MandateMismatch;;
  reject negb (snap_revision snapshot =? expected)%N with RevisionMismatch;;
  next ← ok_or RevisionMismatch (checked_add64 expected 1);
  reject negb (bool_decide (snap_state snapshot = Issued)) with NotIssued;;
  valid ← map_mandate_error (is_valid_at m reserved_at);
  reject negb valid with NotCurrentlyValid;;
  reject bool_decide (token = zero32) with InvalidReservationToken;;
  Ok (mkCas id Issued expected Reserved next token).
End Reservation.

(** ** What the check allows *)

(** Evidence that a quarantined dispatch was not accepted, under the policy the profile
    defines. *)
Definition non_acceptance_shown (c : TransitionContext) : Prop :=
  dispatch_certainty c = PossiblyAccepted /\
  exists policy_id policy_digest digest,
    quarantine_release_policy c = ProfileDefined policy_id policy_digest /\
    valid_policy_id policy_id = true /\
    non_acceptance_evidence c = Some (mkNonAcceptance policy_id policy_digest digest) /\ digest <> zero32.

Inductive allowed (c : TransitionContext) : MandateState -> MandateState -> option ExecutionAttemptState -> Prop :=
| may_issue : allowed c Proposed Issued None
| may_revoke : allowed c Issued Revoked None
| may_expire : allowed c Issued Expired None
| may_reserve : dispatch_certainty c = NotDispatched -> allowed c Issued Reserved (Some Prepared)
| may_consume : dispatch_certainty c = DispatchAccepted -> allowed c Reserved Consumed (Some Accepted)
| may_release : dispatch_certainty c = DefinitePreAcceptanceRejection -> allowed c Reserved Released (Some Rejected)
| may_quarantine : dispatch_certainty c = PossiblyAccepted ->
    allowed c Reserved Quarantined (Some OutcomeAmbiguous)
| may_reconcile : dispatch_certainty c = DispatchAccepted ->
    allowed c Quarantined Consumed (Some ReconciledAccepted)
| may_free : non_acceptance_shown c -> allowed c Quarantined Released (Some ReconciledNotAccepted)
| may_abandon : dispatch_certainty c = PossiblyAccepted ->
    allowed c Quarantined Abandoned (Some AbandonedAmbiguous).

Lemma require_attempt_ok a x : require_attempt a x = Ok tt <-> a = Some x.
Proof. unfold require_attempt. by case_bool_decide. Qed.

Lemma require_certainty_ok c x e : require_certainty c x e = Ok tt <-> dispatch_certainty c = x.
Proof.
  unfold require_certainty. rewrite guard_err_ok, negb_false_iff, bool_decide_eq_true. naive_solver.
Qed.

Lemma non_acceptance_ok c : validate_non_acceptance_evidence c = Ok tt <-> non_acceptance_shown c.
Proof.
  unfold validate_non_acceptance_evidence, non_acceptance_shown.
  rewrite guard_err_ok, negb_false_iff, bool_decide_eq_true.
  destruct (quarantine_release_policy c) as [|pid pd].
  { split; [by intros []|]. by intros (_ & ? & ? & ? & ? & _). }
  rewrite guard_err_ok, bind_ok, negb_false_iff. split.
  - intros (Hc & Hv & e & He & Hk). rewrite guard_err_ok, !orb_false_iff, !negb_false_iff, !bool_decide_eq_true,
      bool_decide_eq_false in Hk. destruct Hk as [[[H1 H2] H3] _]. destruct e as [i d g]. cbn in *. subst.
    destruct (non_acceptance_evidence c) as [e|]; [|done]. injection He as ->.
    split; [done|]. by exists pid, pd, g.
  - intros (Hc & i & d & g & [= <- <-] & Hv & He & Hg). split; [done|]. split; [done|].
    eexists. rewrite He. split; [done|]. cbn. by rewrite !bool_decide_true, bool_decide_false by done.
Qed.

Lemma transition_ok from to a c : validate_mandate_transition from to a c = Ok tt <-> allowed c from to a.
Proof.
  unfold validate_mandate_transition. split.
  - rewrite guard_err_ok. intros [He H].
    destruct from, to; try discriminate He; clear He;
      rewrite ?bind_unit_ok, ?require_attempt_ok, ?require_certainty_ok, ?non_acceptance_ok in H;
      first [destruct H as [-> H]; by constructor | destruct a; [done|constructor]].
  - intros []; cbn [legal_edge negb guard_err];
      rewrite ?bind_unit_ok, ?require_attempt_ok, ?require_certainty_ok, ?non_acceptance_ok; done.
Qed.

(** The published table is the edges of the check. *)
Lemma transition_edges_exact from to :
  (from, to) ∈ mandate_transition_edges <-> legal_edge from to = true.
Proof.
  split.
  - rewrite list_elem_of_In. cbn. intros H. repeat (destruct H as [[= <- <-]|H]; [done|]). done.
  - destruct from, to; try done; intros _; apply list_elem_of_In; cbn; tauto.
Qed.

(** How many steps may still follow. *)
Definition steps_left (s : MandateState) : nat :=
  match s with Proposed => 4 | Issued => 3 | Reserved => 2 | Quarantined => 1 | _ => 0 end.

Lemma allowed_shortens c from to a : allowed c from to a -> S (steps_left to) <= steps_left from.
Proof. destruct 1; cbn; lia. Qed.

(** ** Valid journals *)

(** One entry against the state, the revision and the time reached before it. *)
Record entry_ok (id : MandateId) (state : MandateState) (rev : N) (last_time : option N)
    (e : MandateJournalEntry) : Prop := {
  eo_id : entry_mandate_id e = id;
  eo_from : entry_from e = state;
  eo_previous : previous_revision e = rev;
  eo_revision : revision e = (rev + 1)%N;
  eo_width : (rev + 1 <= u64_max)%N;
  eo_time : forall t, last_time = Some t -> (t <= occurred_at e)%N;
  eo_allowed : allowed (context e) state (entry_to e) (attempt_state e)
}.

Lemma journal_cons id s r t e es res :
  journal_from id s r t (e :: es) = Ok res
  <-> entry_ok id s r t e /\ journal_from id (entry_to e) (revision e) (Some (occurred_at e)) es = Ok res.
Proof.
  cbn [journal_from]. unfold checked_add64. destruct (N.leb_spec (r + 1) u64_max) as [Hr|Hr]; cbn [ok_or mbind result_bind].
  - rewrite guard_err_ok, bind_unit_ok, !orb_false_iff, !negb_false_iff, !bool_decide_eq_true, !N.eqb_eq.
    rewrite transition_ok. split.
    + intros (((((Hi & Hf) & Hp) & Hn) & Ht) & Ha & Hres). split; [|done]. subst. split; try done.
      intros x ->. cbn in Ht. by apply N.ltb_ge.
    + intros [[] Hres]. subst. split_and!; try done. destruct t as [x|]; [|done].
      cbn. by apply N.ltb_ge, eo_time0.
  - split; [done|]. intros [[] _]. lia.
Qed.

Lemma journal_bounds id s r t es s' r' :
  journal_from id s r t es = Ok (s', r') ->
  r' = (r + blen es)%N /\ length es + steps_left s' <= steps_left s.
Proof.
  revert s r t. induction es as [|e es IH]; intros s r t H.
  - injection H as <- <-. unfold blen. cbn. split; lia.
  - apply journal_cons in H as [[] H]. apply IH in H as [-> Hl]. apply allowed_shortens in eo_allowed0.
    rewrite eo_revision0. unfold blen in *. cbn [length]. split; lia.
Qed.

(** Every entry is checked against what came before it. *)
Lemma journal_entry id s r t es s' r' i e :
  journal_from id s r t es = Ok (s', r') -> es !! i = Some e ->
  exists s1 r1 t1, journal_from id s r t (take i es) = Ok (s1, r1) /\ entry_ok id s1 r1 t1 e /\
    journal_from id (entry_to e) (revision e) (Some (occurred_at e)) (drop (S i) es) = Ok (s', r').
Proof.
  revert s r t es. induction i as [|i IH]; intros s r t [|e' es] H Hi; try done.
  - injection Hi as ->. apply journal_cons in H as [He H]. by exists s, r, t.
  - apply journal_cons in H as [He H]. apply (IH _ _ _ _ H) in Hi as (s1 & r1 & t1 & H1 & H2 & H3).
    exists s1, r1, t1. split_and!; try done. cbn [take]. apply journal_cons. by split.
Qed.

(** Who has left a state without an attempt has gone through its reservation. *)
Definition reserves (e : MandateJournalEntry) : Prop :=
  entry_from e = Issued /\ entry_to e = Reserved /\ attempt_state e = Some Prepared /\
  dispatch_certainty (context e) = NotDispatched.
Definition engaged (s : MandateState) : bool :=
  match s with Proposed | Issued | Revoked | Expired => false | _ => true end.

Lemma journal_engaged id s r t es s' r' :
  journal_from id s r t es = Ok (s', r') -> engaged s' = true -> engaged s = true \/ Exists reserves es.
Proof.
  revert s r t. induction es as [|e es IH]; intros s r t H Hs.
  - injection H as <- <-. by left.
  - apply journal_cons in H as [[] H]. apply IH in H as [H|H]; [|by right; right|done].
    inversion eo_allowed0; subst; try (by left);
      try (by match goal with E : _ = entry_to e |- _ => rewrite <- E in H end).
    right. left. by split_and!.
Qed.

(** The dispatch was accepted, as far as the entry says. *)
Definition shows_acceptance (e : MandateJournalEntry) : Prop :=
  dispatch_certainty (context e) = DispatchAccepted /\
  (entry_from e = Reserved /\ attempt_state e = Some Accepted \/
   entry_from e = Quarantined /\ attempt_state e = Some ReconciledAccepted).
(** It was not. *)
Definition shows_refusal (e : MandateJournalEntry) : Prop :=
  entry_from e = Reserved /\ attempt_state e = Some Rejected /\
    dispatch_certainty (context e) = DefinitePreAcceptanceRejection \/
  entry_from e = Quarantined /\ attempt_state e = Some ReconciledNotAccepted /\
    non_acceptance_shown (context e).

Lemma journal_last id s r t es s' r' i e :
  journal_from id s r t es = Ok (s', r') -> es !! i = Some e -> steps_left (entry_to e) = 0 ->
  S i = length es /\ s' = entry_to e.
Proof.
  intros H Hi He. destruct (journal_entry _ _ _ _ _ _ _ _ _ H Hi) as (s1 & r1 & t1 & _ & _ & H3).
  pose proof (journal_bounds _ _ _ _ _ _ _ H3) as [_ Hl]. rewrite He, length_drop in Hl.
  apply lookup_lt_Some in Hi. split; [lia|].
  rewrite drop_ge in H3 by lia. by injection H3 as <- _.
Qed.

(** C14: A mandate is used at most once.  In a journal that validates, from any state, the
    revisions count the entries and no more entries than the state leaves follow; an
    entry that consumes the mandate is the last one and shows that the dispatch was
    accepted, one that releases it is the last one and shows that it was not (out of
    quarantine, with evidence under the policy of the profile), and a mandate that is
    consumed, released, quarantined or abandoned without being so at the start was
    reserved on the way, before any dispatch. *)
Theorem mandate_used_once (id : MandateId) (s0 : MandateState) (r0 : N) (es : list MandateJournalEntry)
  (s : MandateState) (r : N)
  (Hvalid : validate_journal id s0 r0 es = Ok (s, r)) :
  r = (r0 + blen es)%N /\ length es <= steps_left s0 /\
  (forall i e, es !! i = Some e -> entry_to e = Consumed -> S i = length es /\ s = Consumed /\ shows_acceptance e) /\
  (forall i e, es !! i = Some e -> entry_to e = Released -> S i = length es /\ s = Released /\ shows_refusal e) /\
  (engaged s = true -> engaged s0 = false -> exists e, e ∈ es /\ reserves e).
Proof.
  pose proof (journal_bounds _ _ _ _ _ _ _ Hvalid) as [Hr Hl]. split_and!; [done|lia| | |].
  - intros i e Hi He. destruct (journal_last _ _ _ _ _ _ _ _ _ Hvalid Hi) as [Hn Hs]; [by rewrite He|].
    split_and!; [done|by rewrite Hs|].
    destruct (journal_entry _ _ _ _ _ _ _ _ _ Hvalid Hi) as (s1 & r1 & t1 & _ & [] & _).
    rewrite He in eo_allowed0. unfold shows_acceptance. rewrite eo_from0. inversion eo_allowed0; subst; auto.
  - intros i e Hi He. destruct (journal_last _ _ _ _ _ _ _ _ _ Hvalid Hi) as [Hn Hs]; [by rewrite He|].
    split_and!; [done|by rewrite Hs|].
    destruct (journal_entry _ _ _ _ _ _ _ _ _ Hvalid Hi) as (s1 & r1 & t1 & _ & [] & _).
    rewrite He in eo_allowed0. unfold shows_refusal. rewrite eo_from0. inversion eo_allowed0; subst; auto.
  - intros Hs H0. apply (journal_engaged _ _ _ _ _ _ _ Hvalid) in Hs as [Hs|Hs]; [by rewrite Hs in H0|].
    by apply Exists_exists in Hs.
Qed.

Definition demo_entry (rev : N) (from to : MandateState) (a : option ExecutionAttemptState) (c : TransitionContext)
  : MandateJournalEntry :=
  mkEntry (fill32 Byte.x01) rev (rev + 1) from to a (100 + rev) c.
Definition demo_journal : list MandateJournalEntry :=
  [demo_entry 0 Proposed Issued None before_dispatch;
   demo_entry 1 Issued Reserved (Some Prepared) before_dispatch;
   demo_entry 2 Reserved Quarantined (Some OutcomeAmbiguous) github_v1_ambiguous;
   demo_entry 3 Quarantined Consumed (Some ReconciledAccepted) (mkTransition DispatchAccepted Never None)].

(** Quarantined and then found to have been accepted. *)
Theorem mandate_used_once_witness :
  validate_journal (fill32 Byte.x01) Proposed 0 demo_journal = Ok (Consumed, 4%N) /\
  exists e, e ∈ demo_journal /\ reserves e.
Proof.
  assert (H : validate_journal (fill32 Byte.x01) Proposed 0 demo_journal = Ok (Consumed, 4%N))
    by (vm_compute; reflexivity).
  split; [exact H|].
  destruct (mandate_used_once (fill32 Byte.x01) Proposed 0 demo_journal Consumed 4 H) as (_ & _ & _ & _ & Hr).
  by apply Hr.
Defined.

(** ** Reservations *)

Section Reservations.
Variable sha256 : bytes -> Bytes32.

Lemma is_valid_at_ok m t v :
  is_valid_at m t = Ok v <-> mandate_ok m /\ v = (valid_from m <=? t)%N && (t <? expires_at m)%N.
Proof. unfold is_valid_at. rewrite bind_unit_ok, mandate_validate_ok. naive_solver. Qed.

(** A reservation is granted exactly when the snapshot is of this mandate, issued and
    at the expected revision, the revision has a successor, the mandate is within its
    window at that time and the token is not zero; it then moves the mandate from
    issued to reserved at the next revision, and a journal that has reached the
    snapshot accepts the entry that says so. *)
Theorem reservation_exact (m : ActionMandate) (snapshot : ReservationSnapshot) (expected reserved_at : N)
  (token : Bytes32) (cas : CasReservation) :
  validate_reservation_cas sha256 m snapshot expected reserved_at token = Ok cas
  <-> exists id,
      mandate_id sha256 m = Ok id /\ snapshot = mkSnapshot id Issued expected /\
      (expected + 1 <= u64_max)%N /\ (valid_from m <= reserved_at < expires_at m)%N /\ token <> zero32 /\
      cas = mkCas id Issued expected Reserved (expected + 1) token /\
      validate_journal id Issued expected
        [mkEntry id expected (next_revision cas) Issued (next_state cas) (Some Prepared) reserved_at before_dispatch]
      = Ok (next_state cas, next_revision cas).
Proof.
  unfold validate_reservation_cas, map_mandate_error. rewrite bind_ok.
  unfold checked_add64. split.
  - intros (id & Hid & H). apply map_err_ok in Hid. exists id. rewrite !guard_err_ok in H.
    destruct H as (Hm & Hr & H). apply negb_false_iff in Hm, Hr. apply bool_decide_eq_true in Hm.
    apply N.eqb_eq in Hr. destruct (N.leb_spec (expected + 1) u64_max) as [Hw|]; [|done].
    cbn [ok_or mbind result_bind] in H. rewrite guard_err_ok, bind_ok in H.
    destruct H as (Hs & v & Hv & H). apply negb_false_iff, bool_decide_eq_true in Hs.
    apply map_err_ok, is_valid_at_ok in Hv as [_ Hv]. rewrite !guard_err_ok in H.
    destruct H as (Hvalid & Ht & [= <-]). apply negb_false_iff in Hvalid. subst v.
    apply andb_true_iff in Hvalid as [H1 H2]. apply N.leb_le in H1. apply N.ltb_lt in H2.
    apply bool_decide_eq_false in Ht. destruct snapshot as [i st rv]. cbn in Hm, Hs, Hr. subst.
    split_and!; try done. cbn [next_state next_revision]. unfold validate_journal.
    rewrite journal_cons. split; [|done]. split; try done. by constructor.
  - intros (id & Hid & -> & Hw & [H1 H2] & Ht & -> & _). exists id. rewrite Hid. split; [done|].
    cbn [snap_mandate_id snap_revision snap_state]. rewrite bool_decide_true, N.eqb_refl by done.
    cbn [negb guard_err]. rewrite (proj2 (N.leb_le _ _) Hw). cbn [ok_or mbind result_bind].
    rewrite (bool_decide_true (Issued = Issued)) by done. cbn [negb guard_err].
    rewrite (proj2 (is_valid_at_ok m reserved_at true)).
    + cbn [map_err mbind result_bind negb guard_err]. by rewrite bool_decide_false.
    + split; [by apply mandate_validate_ok, (mandate_id_valid sha256 m id)|]. symmetry. apply andb_true_iff.
      by rewrite N.leb_le, N.ltb_lt.
Qed.
End Reservations.
