(* ===== verification/Evidence.v ===== *)
(** * Evidence nodes and their graph (csv-accountability/src/evidence.rs)

    Evidence is a set of nodes named by the hash of their canonical form: claims,
    observations, attestations, gaps, counterclaims, contradictions and custody records,
    each listing the nodes it relates to.  The codec is exact, and a graph validates
    exactly when names are right and distinct, relationships are closed and free of
    cycles within the depth bound, and custody records chain over one subject. *)

From S2P Require Import Prelude Ord Bytes Hashing Text Accountability Codec Decode Mandate.

Definition MAX_EVIDENCE_NODES : nat := 1024.
Definition MAX_EVIDENCE_RELATIONSHIPS : N := 64.
Definition MAX_EVIDENCE_DEPTH : nat := 64.
Definition MAX_EVIDENCE_TEXT_BYTES : N := 1024.

Definition CLAIM_REGISTRY_ID : string := "org.diewan.evidence.claim.v1".
Definition OBSERVATION_REGISTRY_ID : string := "org.diewan.evidence.observation.v1".
Definition ATTESTATION_REGISTRY_ID : string := "org.diewan.evidence.attestation.v1".
Definition EVIDENCE_GAP_REGISTRY_ID : string := "org.diewan.evidence.gap.v1".
Definition COUNTERCLAIM_REGISTRY_ID : string := "org.diewan.evidence.counterclaim.v1".
Definition CONTRADICTION_REGISTRY_ID : string := "org.diewan.evidence.contradiction.v1".
Definition CUSTODY_RECORD_REGISTRY_ID : string := "org.diewan.evidence.custody-record.v1".

Inductive SourceLocator := Disclosed (value : string) | Withheld (digest : Bytes32).
Record AuthenticityMaterial := mkAuthenticity { scheme_id : string; material_digest : Bytes32 }.

Inductive EvidenceKind :=
| Claim (proposition_digest : Bytes32)
| Observation (method_id : string)
| Attestation (attester_identity : bytes)
| EvidenceGap (missing_registry_id : string) (reason_digest : Bytes32)
| Counterclaim (subject_evidence_id : EvidenceNodeId) (proposition_digest : Bytes32)
| Contradiction (left_evidence_id right_evidence_id : EvidenceNodeId) (analysis_digest : Bytes32)
| CustodyRecord (subject_evidence_id : EvidenceNodeId) (previous_custody_id : option EvidenceNodeId)
    (custodian_identity : bytes).

Definition kind_registry_id (k : EvidenceKind) : string :=
  match k with
  | Claim _ => CLAIM_REGISTRY_ID
  | Observation _ => OBSERVATION_REGISTRY_ID
  | Attestation _ => ATTESTATION_REGISTRY_ID
  | EvidenceGap _ _ => EVIDENCE_GAP_REGISTRY_ID
  | Counterclaim _ _ => COUNTERCLAIM_REGISTRY_ID
  | Contradiction _ _ _ => CONTRADICTION_REGISTRY_ID
  | CustodyRecord _ _ _ => CUSTODY_RECORD_REGISTRY_ID
  end.

Record EvidenceNode := mkNode {
  kind : EvidenceKind;
  producer_identity : bytes;
  collected_at : N;
  asserted_event_at : option N;
  content_digest : Bytes32;
  media_type : string;
  source_locator : SourceLocator;
  authenticity : option AuthenticityMaterial;
  disclosure_classification : string;
  relationships : list EvidenceNodeId
}.

Inductive EvidenceError :=
| InvalidField (field : string) | SemanticConfusion | RegistryCollision | MissingRelationship | Cycle
| BoundsExceeded | IdentifierMismatch | DuplicateIdentifier | InvalidRelationshipSemantics | MalformedEncoding.

(** ** Validation of a node *)

Definition bad_text (max : N) (s : string) : bool :=
  (slen s =? 0)%N || (max <? slen s)%N || negb (is_trimmed s) || existsb is_control (chars s).
Definition bad_bytes (max : N) (l : bytes) : bool := (blen l =? 0)%N || (max <? blen l)%N.

Definition validate_text (s : string) (field : string) : result EvidenceError unit :=
  if bad_text MAX_EVIDENCE_TEXT_BYTES s then Err (InvalidField field) else Ok tt.
Definition validate_bytes (l : bytes) (field : string) : result EvidenceError unit :=
  if bad_bytes MAX_EVIDENCE_TEXT_BYTES l then Err (InvalidField field) else Ok tt.

Definition zero (d : Bytes32) : bool := bool_decide (d = zero32).
Definition mentions (n : EvidenceNode) (id : EvidenceNodeId) : bool := bool_decide (id ∈ relationships n).

Definition validate_locator (l : SourceLocator) : result EvidenceError unit :=
  match l with
  | Disclosed value => validate_text value "source_locator"
  | Withheld digest => if zero digest then Err (InvalidField "source_locator") else Ok tt
  end.
Definition validate_authenticity (a : option AuthenticityMaterial) : result EvidenceError unit :=
  match a with
  | Some a =>
      _ ← validate_text (scheme_id a) "authenticity_scheme";
      if zero (material_digest a) then Err (InvalidField "authenticity_digest") else Ok tt
  | None => Ok tt
  end.

(** [str::contains] *)
Definition str_contains (needle hay : string) : bool :=
  match String.index 0 needle hay with Some _ => true | None => false end.

Definition validate_kind (n : EvidenceNode) : result EvidenceError unit :=
  match kind n with
  | Claim proposition => if zero proposition then Err (InvalidField "proposition_digest") else Ok tt
  | Observation method_id =>
      _ ← validate_text method_id "observation_method";
      if str_contains "claim" method_id then Err SemanticConfusion else Ok tt
  | Attestation attester =>
      _ ← validate_bytes attester "attester_identity";
      match authenticity n with None => Err (InvalidField "attestation_authenticity") | Some _ => Ok tt end
  | EvidenceGap missing reason =>
      _ ← validate_text missing "missing_registry_id";
      if zero reason then Err (InvalidField "reason_digest") else Ok tt
  | Counterclaim subject proposition =>
      if zero proposition || negb (mentions n subject) then Err (InvalidField "counterclaim") else Ok tt
  | Contradiction lhs rhs analysis =>
      if bool_decide (lhs = rhs) || zero analysis || negb (mentions n lhs) || negb (mentions n rhs)
      then Err (InvalidField "contradiction") else Ok tt
  | CustodyRecord subject previous custodian =>
      _ ← validate_bytes custodian "custodian_identity";
      if negb (mentions n subject)
         || match previous with
            | Some p => bool_decide (p = subject) || negb (mentions n p)
            | None => false
            end
      then Err (InvalidField "custody_relationship") else Ok tt
  end.

Definition node_validate (n : EvidenceNode) : result EvidenceError unit :=
  _ ← validate_bytes (producer_identity n) "producer_identity";
  _ ← validate_text (media_type n) "media_type";
  _ ← validate_text (disclosure_classification n) "disclosure_classification";
  reject zero (content_digest n)
         || match asserted_event_at n with Some event => (collected_at n <? event)%N | None => false end
    with InvalidField "time_or_digest";;
  _ ← validate_locator (source_locator n);
  _ ← validate_authenticity (authenticity n);
  _ ← validate_kind n;
  reject (MAX_EVIDENCE_RELATIONSHIPS <? blen (relationships n))%N || not_increasing (relationships n)
    with BoundsExceeded;;
  Ok tt.

(** ** The canonical form *)

Definition kind_bytes (k : EvidenceKind) : bytes :=
  match k with
  | Claim proposition => b32 proposition
  | Observation method_id => push_text method_id
  | Attestation attester => push_bytes attester
  | EvidenceGap missing reason => push_text missing ++ b32 reason
  | Counterclaim subject proposition => b32 subject ++ b32 proposition
  | Contradiction lhs rhs analysis => b32 lhs ++ b32 rhs ++ b32 analysis
  | CustodyRecord subject previous custodian => b32 subject ++ push_option b32 previous ++ push_bytes custodian
  end.
Definition tagged_kind (k : EvidenceKind) : bytes := push_text (kind_registry_id k) ++ kind_bytes k.
Definition locator_bytes (l : SourceLocator) : bytes :=
  match l with
  | Disclosed value => one Byte.x00 ++ push_text value
  | Withheld digest => one Byte.x01 ++ b32 digest
  end.
Definition authenticity_bytes (a : AuthenticityMaterial) : bytes :=
  push_text (scheme_id a) ++ b32 (material_digest a).

Definition node_bytes (n : EvidenceNode) : bytes :=
  tagged_kind (kind n) ++ push_bytes (producer_identity n) ++ u64_be (collected_at n) ++
  push_option u64_be (asserted_event_at n) ++ b32 (content_digest n) ++ push_text (media_type n) ++
  locator_bytes (source_locator n) ++ push_option authenticity_bytes (authenticity n) ++
  push_text (disclosure_classification n) ++ push_list b32 (relationships n).

(** [EvidenceNode::canonical_bytes] *)
Definition node_canonical_bytes (n : EvidenceNode) : result EvidenceError bytes :=
  _ ← node_validate n; Ok (node_bytes n).

(** [Cursor] *)
Definition e_u32 := read_u32_be MalformedEncoding.
Definition e_u64 := read_u64_be MalformedEncoding.
Definition e_array32 := read_b32 MalformedEncoding.
Definition e_bytes := read_vec e_u32 MAX_EVIDENCE_TEXT_BYTES BoundsExceeded MalformedEncoding.
Definition e_text := read_string MalformedEncoding e_bytes.

Definition e_kind (b : bytes) : result EvidenceError (EvidenceKind * bytes) :=
  '(id, b) ← e_text b;
  if bool_decide (id = CLAIM_REGISTRY_ID) then '(p, b) ← e_array32 b; Ok (Claim p, b)
  else if bool_decide (id = OBSERVATION_REGISTRY_ID) then '(m, b) ← e_text b; Ok (Observation m, b)
  else if bool_decide (id = ATTESTATION_REGISTRY_ID) then '(a, b) ← e_bytes b; Ok (Attestation a, b)
  else if bool_decide (id = EVIDENCE_GAP_REGISTRY_ID) then
    '(m, b) ← e_text b; '(r, b) ← e_array32 b; Ok (EvidenceGap m r, b)
  else if bool_decide (id = COUNTERCLAIM_REGISTRY_ID) then
    '(s, b) ← e_array32 b; '(p, b) ← e_array32 b; Ok (Counterclaim s p, b)
  else if bool_decide (id = CONTRADICTION_REGISTRY_ID) then
    '(l, b) ← e_array32 b; '(r, b) ← e_array32 b; '(a, b) ← e_array32 b; Ok (Contradiction l r a, b)
  else if bool_decide (id = CUSTODY_RECORD_REGISTRY_ID) then
    '(s, b) ← e_array32 b;
    '(p, b) ← read_opt MalformedEncoding MalformedEncoding e_array32 b;
    '(c, b) ← e_bytes b; Ok (CustodyRecord s p c, b)
  else Err MalformedEncoding.
Definition e_locator (b : bytes) : result EvidenceError (SourceLocator * bytes) :=
  '(t, b) ← read_u8 MalformedEncoding b;
  match t with
  | Byte.x00 => '(v, b) ← e_text b; Ok (Disclosed v, b)
  | Byte.x01 => '(d, b) ← e_array32 b; Ok (Withheld d, b)
  | _ => Err MalformedEncoding
  end.
Definition e_material (b : bytes) : result EvidenceError (AuthenticityMaterial * bytes) :=
  '(s, b) ← e_text b; '(d, b) ← e_array32 b; Ok (mkAuthenticity s d, b).

(** The fields [EvidenceNode::from_canonical_bytes] reads, in order *)
Definition e_node (b : bytes) : result EvidenceError (EvidenceNode * bytes) :=
  '(k, b) ← e_kind b;
  '(producer, b) ← e_bytes b;
  '(collected, b) ← e_u64 b;
  '(asserted, b) ← read_opt MalformedEncoding MalformedEncoding e_u64 b;
  '(content, b) ← e_array32 b;
  '(media, b) ← e_text b;
  '(locator, b) ← e_locator b;
  '(auth, b) ← read_opt MalformedEncoding MalformedEncoding e_material b;
  '(disclosure, b) ← e_text b;
  '(related, b) ← read_counted e_u32 MAX_EVIDENCE_RELATIONSHIPS BoundsExceeded e_array32 b;
  Ok (mkNode k producer collected asserted content media locator auth disclosure related, b).
Definition node_from_canonical_bytes (input : bytes) : result EvidenceError EvidenceNode :=
  '(n, b) ← e_node input;
  _ ← finish MalformedEncoding b;
  _ ← node_validate n;
  canonical ← node_canonical_bytes n;
  reject negb (bool_decide (canonical = input)) with MalformedEncoding;;
  Ok n.

Section Evidence.
Variable sha256 : bytes -> Bytes32.

Definition node_id (n : EvidenceNode) : result EvidenceError EvidenceNodeId :=
  b ← node_canonical_bytes n;
  Ok (domain_hash sha256 "csv.accountability.evidence.v1" b).

(** ** The graph *)

(** [nodes.iter().position(|(id, _)| id == relationship)] *)
Definition position (nodes : list (EvidenceNodeId * EvidenceNode)) (id : EvidenceNodeId) : option nat :=
  fst <$> list_find (fun p => fst p = id) nodes.

(** [visit]; [budget] is [MAX_EVIDENCE_DEPTH + 1 - depth]. *)
Fixpoint visit (nodes : list (EvidenceNodeId * EvidenceNode)) (budget : nat) (index : nat) (path : list nat)
  : result EvidenceError unit :=
  match budget with
  | O => Err BoundsExceeded
  | S budget' =>
      reject bool_decide (index ∈ path) with Cycle;;
      try_each (fun relationship =>
        next ← ok_or MissingRelationship (position nodes relationship);
        visit nodes budget' next (path ++ [index]))
        (match nodes !! index with Some (_, n) => relationships n | None => [] end)
  end.

(** The first pass: is an identifier listed again later? *)
Fixpoint has_duplicate (nodes : list (EvidenceNodeId * EvidenceNode)) : bool :=
  match nodes with
  | [] => false
  | (id, _) :: rest => existsb (fun c => bool_decide (fst c = id)) rest || has_duplicate rest
  end.

(** The last pass, for one node *)
Definition custody_ok (nodes : list (EvidenceNodeId * EvidenceNode)) (n : EvidenceNode)
  : result EvidenceError unit :=
  match kind n with
  | CustodyRecord subject (Some previous_id) _ =>
      previous ← ok_or MissingRelationship (snd ∘ snd <$> list_find (fun p => fst p = previous_id) nodes);
      match kind previous with
      | CustodyRecord previous_subject _ _ =>
          if bool_decide (previous_subject = subject) then Ok tt else Err InvalidRelationshipSemantics
      | _ => Err InvalidRelationshipSemantics
      end
  | _ => Ok tt
  end.

Definition validate_evidence_graph (nodes : list (EvidenceNodeId * EvidenceNode))
  : result EvidenceError unit :=
  reject bool_decide (MAX_EVIDENCE_NODES < length nodes) with BoundsExceeded;;
  reject has_duplicate nodes with DuplicateIdentifier;;
  _ ← try_each (fun index => visit nodes (S MAX_EVIDENCE_DEPTH) index []) (seq 0 (length nodes));
  _ ← try_each (fun '(id, n) =>
        actual ← node_id n;
        reject negb (bool_decide (id = actual)) with IdentifierMismatch;; Ok tt) nodes;
  try_each (fun '(_, n) => custody_ok nodes n) nodes.
End Evidence.

(** ** Reading back *)

Notation text_field := (text_in (vec_ok MAX_EVIDENCE_TEXT_BYTES)).

#[export] Instance e_u64_reads : Reads (fun v => v <= u64_max)%N u64_be e_u64 := reads_u64_be _.
#[export] Instance e_array32_reads : Reads any b32 e_array32 := reads_b32 _.
#[export] Instance e_bytes_reads : Reads (vec_ok MAX_EVIDENCE_TEXT_BYTES) push_bytes e_bytes := reads_vec_be _ _ _ _.
#[export] Instance e_text_reads : Reads text_field push_text e_text := reads_string_be _ _ _.

Definition kind_fits (k : EvidenceKind) : Prop :=
  match k with
  | Observation m => text_field m
  | Attestation a => vec_ok MAX_EVIDENCE_TEXT_BYTES a
  | EvidenceGap m _ => text_field m
  | CustodyRecord _ _ c => vec_ok MAX_EVIDENCE_TEXT_BYTES c
  | _ => True
  end.

#[export] Instance e_kind_reads : Reads kind_fits tagged_kind e_kind.
Proof.
  intros b k rest. unfold e_kind, tagged_kind. split.
  - intros H. read_field H.
    repeat (case_bool_decide; [subst x; read_fields H; injection H as <- <-;
      unfold kind_bytes, kind_registry_id; rewrite <- !app_assoc; done|]). done.
  - intros [Hk ->]. rewrite <- app_assoc.
    destruct k; cbn [kind_registry_id kind_bytes]; rewrite <- ?app_assoc;
      (rewrite (reads_app text_field push_text e_text) by (by vm_compute); cbn [mbind result_bind];
       repeat first [rewrite bool_decide_true by done | rewrite bool_decide_false by done];
       read_back; try done; field_bounds).
Qed.

Definition locator_fits (l : SourceLocator) : Prop :=
  match l with Disclosed v => text_field v | Withheld _ => True end.
#[export] Instance e_locator_reads : Reads locator_fits locator_bytes e_locator.
Proof.
  intros b l rest. unfold e_locator. split.
  - intros H. read_field H. destruct x; try discriminate H; read_fields H; injection H as <- <-;
      unfold locator_bytes; by rewrite <- app_assoc.
  - intros [Hl ->]. destruct l; unfold locator_bytes; rewrite <- app_assoc; read_back; field_bounds.
Qed.

#[export] Instance e_material_reads : Reads (fun a => text_field (scheme_id a)) authenticity_bytes e_material.
Proof.
  intros b a rest. unfold e_material, authenticity_bytes. split.
  - intros H. read_fields H. injection H as <- <-. by rewrite <- app_assoc.
  - intros [Ha ->]. rewrite <- app_assoc. destruct a. read_back; field_bounds.
Qed.

#[export] Instance e_relationships_reads :
  Reads (count_ok MAX_EVIDENCE_RELATIONSHIPS any) (push_list b32)
    (read_counted e_u32 MAX_EVIDENCE_RELATIONSHIPS BoundsExceeded e_array32) := reads_counted_be _ _ _ _ _ _.

Lemma zero_false d : zero d = false <-> d <> zero32.
Proof. unfold zero. by rewrite bool_decide_eq_false. Qed.

(** What Rust's types say of a node: 64-bit times and UTF-8 text. *)
Record node_typed (n : EvidenceNode) : Prop := {
  nt_collected : (collected_at n <= u64_max)%N;
  nt_asserted : forall t, asserted_event_at n = Some t -> (t <= u64_max)%N;
  nt_media : is_utf8 (media_type n) = true;
  nt_disclosure : is_utf8 (disclosure_classification n) = true;
  nt_locator : match source_locator n with Disclosed v => is_utf8 v = true | Withheld _ => True end;
  nt_scheme : forall a, authenticity n = Some a -> is_utf8 (scheme_id a) = true;
  nt_kind : match kind n with
            | Observation t | EvidenceGap t _ => is_utf8 t = true
            | _ => True
            end
}.

Lemma bad_text_fits max s :
  bad_text max s = false -> (max <= u32_max)%N -> is_utf8 s = true -> text_in (vec_ok max) s.
Proof.
  unfold bad_text. rewrite !orb_false_iff, N.ltb_ge. intros (((_ & Hl) & _) & _) Hm Hu.
  split; [done|]. unfold vec_ok, slen in *. lia.
Qed.

Lemma bad_bytes_fits max l : bad_bytes max l = false -> (max <= u32_max)%N -> vec_ok max l.
Proof. unfold bad_bytes, vec_ok. rewrite orb_false_iff, N.ltb_ge. intros [_ ?] ?. lia. Qed.

Lemma validate_text_fits s f : validate_text s f = Ok tt -> is_utf8 s = true -> text_field s.
Proof.
  unfold validate_text. destruct (bad_text _ s) eqn:H; [done|]. intros _ Hu. by apply bad_text_fits.
Qed.
Lemma validate_bytes_fits l f : validate_bytes l f = Ok tt -> vec_ok MAX_EVIDENCE_TEXT_BYTES l.
Proof.
  unfold validate_bytes. destruct (bad_bytes _ l) eqn:H; [done|]. intros _. by apply bad_bytes_fits.
Qed.

(** What validation leaves in each field fits what its reader allows. *)
Record node_fits (n : EvidenceNode) : Prop := {
  nf_kind : kind_fits (kind n);
  nf_producer : vec_ok MAX_EVIDENCE_TEXT_BYTES (producer_identity n);
  nf_media : text_field (media_type n);
  nf_locator : locator_fits (source_locator n);
  nf_authenticity : opt_ok (fun a => text_field (scheme_id a)) (authenticity n);
  nf_disclosure : text_field (disclosure_classification n);
  nf_relationships : count_ok MAX_EVIDENCE_RELATIONSHIPS any (relationships n)
}.

Lemma node_validate_fits n : node_typed n -> node_validate n = Ok tt -> node_fits n.
Proof.
  intros [] H. unfold node_validate in H. rewrite !bind_unit_ok, guard_err_ok, !bind_unit_ok, guard_err_ok in H.
  destruct H as (Hp & Hm & Hd & _ & Hl & Ha & Hk & Hr & _). split.
  - unfold validate_kind in Hk. unfold kind_fits. destruct (kind n); try done;
      try (apply bind_unit_ok in Hk as [Hk _]); eauto using validate_text_fits, validate_bytes_fits.
  - by eapply validate_bytes_fits.
  - by eapply validate_text_fits.
  - unfold validate_locator in Hl. unfold locator_fits. destruct (source_locator n); eauto using validate_text_fits.
  - intros a He. rewrite He in Ha. cbn in Ha. apply bind_unit_ok in Ha as [Ha _].
    eauto using validate_text_fits.
  - by eapply validate_text_fits.
  - apply orb_false_iff in Hr as [Hr _]. apply N.ltb_ge in Hr.
    unfold count_ok, MAX_EVIDENCE_RELATIONSHIPS, u32_max in *. split; [lia|]. by apply Forall_true.
Qed.

#[export] Instance e_node_reads :
  Reads (fun n => node_fits n /\ (collected_at n <= u64_max)%N /\ opt_ok (fun t => t <= u64_max)%N (asserted_event_at n))
    node_bytes e_node.
Proof.
  intros b n rest. unfold e_node, node_bytes. split.
  - intros H. read_fields H. injection H as <- <-. rewrite <- !app_assoc. split; [|done]. by split; [split|].
  - intros [([] & Hc & Ha) ->]. rewrite <- !app_assoc. destruct n. read_back; try assumption; field_bounds.
Qed.

Lemma text_in_utf8 P s : text_in P s -> is_utf8 s = true.
Proof. by intros []. Qed.

Lemma node_fits_typed n :
  node_fits n -> (collected_at n <= u64_max)%N -> opt_ok (fun t => t <= u64_max)%N (asserted_event_at n) ->
  node_typed n.
Proof.
  intros [] Hc Ha. split; eauto using text_in_utf8.
  - unfold locator_fits in *. destruct (source_locator n); eauto using text_in_utf8.
  - unfold kind_fits in *. destruct (kind n); eauto using text_in_utf8.
Qed.

(** Decoding an evidence node accepts exactly the canonical encodings of valid nodes,
    so the check that re-encodes what was decoded never fails. *)
Theorem evidence_codec_exact (b : bytes) (n : EvidenceNode) :
  node_from_canonical_bytes b = Ok n <-> node_typed n /\ node_canonical_bytes n = Ok b.
Proof.
  unfold node_from_canonical_bytes. split.
  - intros H. read_field H. destruct Hp as (Hf & Hc & Ha). rewrite !bind_unit_ok, bind_ok, finish_ok in H.
    destruct H as (-> & Hv & c & Hb & H). rewrite guard_err_ok in H. destruct H as [He [= <-]].
    apply negb_false_iff, bool_decide_eq_true in He. split; [by apply node_fits_typed|].
    by rewrite <- He, Hb.
  - intros [Ht Hb]. pose proof Hb as Hb'. unfold node_canonical_bytes in Hb.
    rewrite bind_unit_ok in Hb. destruct Hb as [Hv Hb]. injection Hb as Hb.
    rewrite <- (app_nil_r b), <- Hb at 1. erewrite (reads_app _ node_bytes e_node).
    + cbn [finish mbind result_bind]. rewrite Hv, Hb'. cbn [mbind result_bind]. by rewrite bool_decide_true.
    + split; [by apply node_validate_fits|]. by destruct Ht.
Qed.

(** ** The depth-first visit *)

Section Graph.
Context (nodes : list (EvidenceNodeId * EvidenceNode)).

Definition related (i : nat) : list EvidenceNodeId :=
  match nodes !! i with Some (_, n) => relationships n | None => [] end.
(** Position [j] is what one of the relationships of position [i] names first. *)
Definition edge (i j : nat) : Prop := exists id, id ∈ related i /\ position nodes id = Some j.
Definition closed_at (i : nat) : Prop := Forall (fun id => is_Some (position nodes id)) (related i).

Lemma visit_S budget i path :
  visit nodes (S budget) i path = Ok tt
  <-> i ∉ path /\ closed_at i /\ forall j, edge i j -> visit nodes budget j (path ++ [i]) = Ok tt.
Proof.
  cbn [visit]. rewrite guard_err_ok, bool_decide_eq_false. fold (related i).
  rewrite try_each_ok, Forall_forall. unfold closed_at. rewrite Forall_forall. split.
  - intros [Hi H]. split; [done|]. split.
    + intros id Hid. specialize (H id Hid). destruct (position nodes id); [by eexists|done].
    + intros j (id & Hid & Hj). specialize (H id Hid). by rewrite Hj in H.
  - intros (Hi & Hc & He). split; [done|]. intros id Hid. destruct (Hc id Hid) as [j Hj].
    rewrite Hj. cbn [ok_or mbind result_bind]. apply He. by exists id.
Qed.

(** A visit that succeeds still does with a shorter path behind it. *)
Lemma visit_forget budget i path path' :
  visit nodes budget i path = Ok tt -> path' ⊆ path -> visit nodes budget i path' = Ok tt.
Proof.
  revert i path path'. induction budget as [|budget IH]; intros i path path' H Hs; [done|].
  apply visit_S in H as (Hi & Hc & He). apply visit_S. split; [set_solver|]. split; [done|].
  intros j Hj. apply (IH _ (path ++ [i])); [by apply He|set_solver].
Qed.

(** The budgets below the depth bound that do not suffice. *)
Definition fails (i budget : nat) : bool := negb (is_ok (visit nodes budget i [])).
Definition height (i : nat) : nat := length (base.filter (fun b => fails i b = true) (seq 1 MAX_EVIDENCE_DEPTH)).

Lemma fails_false i b : fails i b = false <-> visit nodes b i [] = Ok tt.
Proof. unfold fails. destruct (visit nodes b i []) as [[]|]; done. Qed.

Lemma fails_edge i j b : edge i j -> fails j b = true -> fails i (S b) = true.
Proof.
  intros He Hj. destruct (fails i (S b)) eqn:Hi; [done|]. rewrite <- Hj. symmetry.
  apply fails_false. apply fails_false in Hi. apply visit_S in Hi as (_ & _ & H). eapply visit_forget; [by apply H|]. apply list_subseteq_nil.
Qed.

Lemma filter_impl_length {A} (P Q : A -> Prop) `{forall x, Decision (P x), forall x, Decision (Q x)} l :
  (forall x, x ∈ l -> P x -> Q x) -> length (base.filter P l) <= length (base.filter Q l).
Proof.
  induction l as [|x l IH]; intros Hl; [done|]. rewrite !filter_cons.
  assert (length (base.filter P l) <= length (base.filter Q l)) by (apply IH; set_solver).
  destruct (decide (P x)) as [HP|HP].
  - rewrite decide_True by (apply Hl; [left|done]). cbn. lia.
  - case_decide; cbn; lia.
Qed.

Lemma filter_map_length {A B} (f : A -> B) (P : B -> Prop) `{forall x, Decision (P x)} l :
  length (base.filter P (f <$> l)) = length (base.filter (fun x => P (f x)) l).
Proof.
  induction l as [|x l IH]; [done|]. rewrite fmap_cons, !filter_cons. case_decide; cbn; by rewrite IH.
Qed.

(** Heights go down along edges, as far as the whole budget suffices. *)
Lemma height_edge i j :
  visit nodes (S MAX_EVIDENCE_DEPTH) i [] = Ok tt -> edge i j -> height j < height i.
Proof.
  intros Hi He. unfold height.
  assert (Hj : fails j MAX_EVIDENCE_DEPTH = false).
  { apply fails_false. apply visit_S in Hi as (_ & _ & H).
    eapply visit_forget; [by apply H|]. apply list_subseteq_nil. }
  assert (H1 : fails i 1 = true).
  { apply (fails_edge i j 0); done. }
  change (seq 1 MAX_EVIDENCE_DEPTH) with (1 :: seq 2 63) at 2. rewrite filter_cons, decide_True by done.
  change (seq 1 MAX_EVIDENCE_DEPTH) with (seq 1 63 ++ [MAX_EVIDENCE_DEPTH]).
  rewrite filter_app, length_app, (filter_cons _ MAX_EVIDENCE_DEPTH), decide_False by (by rewrite Hj).
  cbn [base.filter list_filter length]. replace (seq 2 63) with (S <$> seq 1 63) by apply fmap_S_seq. rewrite filter_map_length.
  apply (Nat.le_lt_trans _ (length (base.filter (fun b => fails i (S b) = true) (seq 1 63)))); [|lia].
  rewrite Nat.add_0_r. apply filter_impl_length. intros b _. by apply fails_edge.
Qed.

Lemma height_bound i : height i <= MAX_EVIDENCE_DEPTH.
Proof. unfold height. etransitivity; [apply length_filter|]. by rewrite length_seq. Qed.

(** A rank that goes down along edges makes every visit succeed that has budget for it. *)
Lemma visit_ranked (rank : nat -> nat) budget i path :
  (forall k, closed_at k) -> (forall k j, edge k j -> rank j < rank k) ->
  rank i < budget -> Forall (fun p => rank i < rank p) path -> visit nodes budget i path = Ok tt.
Proof.
  intros Hc Hr. revert i path. induction budget as [|budget IH]; intros i path Hb Hp; [lia|].
  apply visit_S. split_and!; [|done|].
  - intros Hi. rewrite Forall_forall in Hp. specialize (Hp i Hi). lia.
  - intros j Hj. specialize (Hr i j Hj). apply IH; [lia|]. apply Forall_app. split; [|by repeat constructor].
    eapply Forall_impl; [exact Hp|]. cbn. lia.
Qed.
End Graph.

(** ** Which graphs are accepted *)

Section Accepted.
Variable sha256 : bytes -> Bytes32.

Record graph_ok (nodes : list (EvidenceNodeId * EvidenceNode)) : Prop := {
  graph_few : length nodes <= MAX_EVIDENCE_NODES;
  graph_distinct : NoDup nodes.*1;
  graph_named : forall id n, (id, n) ∈ nodes -> node_id sha256 n = Ok id;
  graph_ranked : exists rank : EvidenceNodeId -> nat, forall id n, (id, n) ∈ nodes ->
    rank id <= MAX_EVIDENCE_DEPTH /\ forall r, r ∈ relationships n -> r ∈ nodes.*1 /\ rank r < rank id;
  graph_custody : forall id n subject previous custodian,
    (id, n) ∈ nodes -> kind n = CustodyRecord subject (Some previous) custodian ->
    exists m q d, (previous, m) ∈ nodes /\ kind m = CustodyRecord subject q d
}.

Lemma has_duplicate_false nodes : has_duplicate nodes = false <-> NoDup nodes.*1.
Proof.
  induction nodes as [|[id n] nodes IH]; cbn.
  - split; [constructor|done].
  - rewrite orb_false_iff, IH, NoDup_cons, existsb_false, Forall_forall. split.
    + intros [H ?]. split; [|done]. intros ([x m] & -> & Hx)%list_elem_of_fmap.
      specialize (H _ Hx). cbn in H. by apply bool_decide_eq_false in H.
    + intros [H ?]. split; [|done]. intros [x m] Hx. cbn. apply bool_decide_eq_false. intros ->.
      apply H. apply list_elem_of_fmap. by exists (id, m).
Qed.

Lemma find_node (nodes : list (EvidenceNodeId * EvidenceNode)) id :
  NoDup nodes.*1 -> forall i p, list_find (fun p => fst p = id) nodes = Some (i, p) <-> nodes !! i = Some p /\ p.1 = id.
Proof.
  intros Hn i p. rewrite list_find_Some. split; [by intros (? & ? & _)|].
  intros [Hi Hp]. split_and!; [done|done|]. intros j q Hj Hlt Hq.
  assert (j = i); [|lia]. apply (NoDup_lookup nodes.*1 j i id Hn); rewrite list_lookup_fmap.
  - by rewrite Hj, <- Hq.
  - by rewrite Hi, <- Hp.
Qed.

Lemma position_spec nodes id i :
  NoDup nodes.*1 -> position nodes id = Some i <-> exists n, nodes !! i = Some (id, n).
Proof.
  intros Hn. unfold position. rewrite fmap_Some. split.
  - intros ([j [x n]] & Hf & ->). apply find_node in Hf as [Hj Hx]; [|done]. cbn in *. subst. by exists n.
  - intros [n Hi]. exists (i, (id, n)). split; [|done]. by apply find_node.
Qed.

Lemma position_some nodes id : NoDup nodes.*1 -> is_Some (position nodes id) <-> id ∈ nodes.*1.
Proof.
  intros Hn. split.
  - intros [i Hi]. apply position_spec in Hi as [n Hi]; [|done].
    apply list_elem_of_fmap. exists (id, n). split; [done|]. by apply list_elem_of_lookup_2 in Hi.
  - intros ([x n] & -> & Hx)%list_elem_of_fmap. apply list_elem_of_lookup in Hx as [i Hi].
    exists i. apply position_spec; [done|]. by exists n.
Qed.

Lemma visits_ok nodes :
  NoDup nodes.*1 ->
  (forall i, i < length nodes -> visit nodes (S MAX_EVIDENCE_DEPTH) i [] = Ok tt) <->
  exists rank : EvidenceNodeId -> nat, forall id n, (id, n) ∈ nodes ->
    rank id <= MAX_EVIDENCE_DEPTH /\ forall r, r ∈ relationships n -> r ∈ nodes.*1 /\ rank r < rank id.
Proof.
  intros Hn. split.
  - intros H. exists (fun id => match position nodes id with Some i => height nodes i | None => 0 end).
    intros id n Hin. apply list_elem_of_lookup in Hin as [i Hi].
    assert (Hp : position nodes id = Some i) by (apply position_spec; eauto).
    rewrite Hp. split; [apply height_bound|]. intros r Hr.
    assert (Hv := H i ltac:(by eapply lookup_lt_Some)). pose proof Hv as Hv'.
    apply visit_S in Hv' as (_ & Hc & _). unfold closed_at, related in Hc. rewrite Hi, Forall_forall in Hc.
    specialize (Hc r Hr). pose proof Hc as Hr'. apply position_some in Hr'; [|done]. split; [done|].
    destruct Hc as [j Hj]. rewrite Hj. apply height_edge; [done|]. exists r. split; [|done].
    unfold related. by rewrite Hi.
  - intros [rank H] i Hi. apply lookup_lt_is_Some in Hi as [[id n] Hi].
    apply (visit_ranked nodes (fun k => match nodes !! k with Some (x, _) => rank x | None => 0 end)).
    + intros k. unfold closed_at, related. destruct (nodes !! k) as [[x m]|] eqn:Hk; [|done].
      apply Forall_forall. intros r Hr. apply position_some; [done|].
      eapply (H x m); [by eapply list_elem_of_lookup_2|done].
    + intros k j (r & Hr & Hj). apply position_spec in Hj as [m Hj]; [|done]. rewrite Hj.
      unfold related in Hr. destruct (nodes !! k) as [[x l]|] eqn:Hk; [|set_solver].
      eapply (H x l); [by eapply list_elem_of_lookup_2|done].
    + rewrite Hi. apply list_elem_of_lookup_2 in Hi. apply H in Hi as [? _]. lia.
    + constructor.
Qed.

Lemma custody_ok_spec nodes n :
  NoDup nodes.*1 ->
  custody_ok nodes n = Ok tt <->
  forall subject previous custodian, kind n = CustodyRecord subject (Some previous) custodian ->
    exists m q d, (previous, m) ∈ nodes /\ kind m = CustodyRecord subject q d.
Proof.
  intros Hn. unfold custody_ok. destruct (kind n) as [| | | | | |s [p|] c]; try (split; [congruence|done]).
  rewrite bind_ok. split.
  - intros (m & Hm & H) ? ? ? [= <- <- <-].
    destruct (list_find _ nodes) as [[i [x m']]|] eqn:Hf; [|done]. apply find_node in Hf as [Hi Hx]; [|done].
    cbn in *. injection Hm as <-. subst x. destruct (kind m') as [| | | | | |s' q d] eqn:Hk; try done.
    case_bool_decide as Hs; [|done]. subst s'. exists m', q, d. split; [|done].
    by eapply list_elem_of_lookup_2.
  - intros H. destruct (H _ _ _ eq_refl) as (m & q & d & Hm & Hk).
    apply list_elem_of_lookup in Hm as [i Hi].
    assert (Hf : list_find (fun p' => fst p' = p) nodes = Some (i, (p, m))) by (by apply find_node).
    exists m. rewrite Hf. split; [done|]. rewrite Hk. by rewrite bool_decide_true.
Qed.

(** Both directions of the validation. *)
Lemma graph_validate_ok (nodes : list (EvidenceNodeId * EvidenceNode)) :
  validate_evidence_graph sha256 nodes = Ok tt <-> graph_ok nodes.
Proof.
  unfold validate_evidence_graph.
  rewrite !guard_err_ok, !bind_unit_ok, !try_each_ok, bool_decide_eq_false, has_duplicate_false, !Forall_forall.
  assert (Hid : (forall x, x ∈ nodes -> (let '(id, n) := x in
      node_id sha256 n ≫= (fun actual => guard_err (negb (bool_decide (id = actual))) IdentifierMismatch (Ok tt)))
      = Ok tt) <-> forall id n, (id, n) ∈ nodes -> node_id sha256 n = Ok id).
  { split.
    - intros H id n Hin. specialize (H _ Hin). cbn beta iota in H. rewrite bind_ok in H.
      destruct H as (a & Ha & Hb). rewrite guard_err_ok in Hb. destruct Hb as [Hb _].
      apply negb_false_iff, bool_decide_eq_true in Hb. by subst.
    - intros H [id n] Hin. rewrite (H id n Hin). cbn. by rewrite bool_decide_true. }
  rewrite Hid. split.
  - intros (Hl & Hn & Hv & Hi & Hc). split; [lia|done|done| |].
    + apply visits_ok; [done|]. intros i Hlt. apply Hv. apply elem_of_seq. lia.
    + intros id n s p c Hin. specialize (Hc _ Hin). cbn in Hc. by apply custody_ok_spec.
  - intros [Hl Hn Hi Hr Hc]. split; [lia|]. split_and!; [done| |done|].
    + intros i Hlt%elem_of_seq. apply visits_ok; [done|done|lia].
    + intros [id n] Hin. apply custody_ok_spec; [done|]. intros s p c. by apply (Hc id n).
Qed.

(** C23: A graph of evidence validates exactly when it is small enough, identifiers are
    distinct and are those of the nodes they name, relationships stay within the graph
    and can be ranked from 0 to the depth bound so that each leads to a lower rank (so
    there is no cycle and no chain longer than the bound), and every custody record
    that names a previous one names a custody record of the same subject. *)
Theorem evidence_graph_exact (nodes : list (EvidenceNodeId * EvidenceNode)) :
  validate_evidence_graph sha256 nodes = Ok tt <-> graph_ok nodes.
Proof. apply graph_validate_ok. Qed.
End Accepted.

(** ** What the visit costs *)

(** The calls of [visit] that one call makes, itself included. *)
Fixpoint visit_calls (nodes : list (EvidenceNodeId * EvidenceNode)) (budget index : nat) (path : list nat) : N :=
  match budget with
  | O => 1
  | S budget' =>
      if bool_decide (index ∈ path) then 1
      else 1 + (fix calls (l : list EvidenceNodeId) : N :=
             match l with
             | [] => 0
             | r :: l' =>
                 match position nodes r with
                 | None => 0
                 | Some next =>
                     visit_calls nodes budget' next (path ++ [index]) +
                     match visit nodes budget' next (path ++ [index]) with Ok _ => calls l' | Err _ => 0 end
                 end
             end) (related nodes index)
  end%N.

Lemma visit_calls_two nodes budget i path r1 r2 j1 j2 :
  visit nodes (S budget) i path = Ok tt ->
  related nodes i = [r1; r2] -> position nodes r1 = Some j1 -> position nodes r2 = Some j2 ->
  visit_calls nodes (S budget) i path
  = (1 + (visit_calls nodes budget j1 (path ++ [i]) + visit_calls nodes budget j2 (path ++ [i])))%N.
Proof.
  intros Hv Hr H1 H2. apply visit_S in Hv as (Hi & _ & He). cbn [visit_calls].
  rewrite bool_decide_false by done. rewrite Hr, H1, H2.
  rewrite (He j1) by (exists r1; rewrite Hr; split; [left|done]).
  rewrite (He j2) by (exists r2; rewrite Hr; split; [right; left|done]). by rewrite N.add_0_r.
Qed.

(** Sixty-four layers of two nodes, each related to both nodes of the next layer. *)
Definition rung_id (i : nat) : EvidenceNodeId := fill32 (byte_of (N.of_nat i)).
Definition rung (i : nat) : EvidenceNodeId * EvidenceNode :=
  (rung_id i,
   mkNode (Claim (fill32 Byte.x01)) [Byte.x01] 1 None (fill32 Byte.x01) "text/plain" (Disclosed "here") None "public"
     (if bool_decide (i < 126) then [rung_id (2 * (i / 2) + 2); rung_id (2 * (i / 2) + 3)] else [])).
Definition ladder : list (EvidenceNodeId * EvidenceNode) := rung <$> seq 0 128.

Lemma ladder_position i : i < 128 -> position ladder (rung_id i) = Some i.
Proof.
  intros Hi.
  assert (H : forallb (fun i => bool_decide (position ladder (rung_id i) = Some i)) (seq 0 128) = true)
    by (vm_compute; reflexivity).
  rewrite forallb_forall in H. specialize (H i ltac:(apply in_seq; lia)).
  by apply bool_decide_eq_true in H.
Qed.

Lemma ladder_related i : i < 128 ->
  related ladder i = if bool_decide (i < 126) then [rung_id (2 * (i / 2) + 2); rung_id (2 * (i / 2) + 3)] else [].
Proof.
  intros Hi. unfold related, ladder. rewrite list_lookup_fmap, lookup_seq_lt by lia. cbn [fmap option_fmap option_map].
  done.
Qed.

Lemma ladder_out i : 128 <= i -> related ladder i = [].
Proof. intros Hi. unfold related. by rewrite lookup_ge_None_2. Qed.

Lemma half_next i : 2 * (i / 2) + 2 = 2 * (i / 2 + 1) /\ i / 2 * 2 <= i.
Proof. split; [lia|]. pose proof (Nat.Div0.mul_div_le i 2). lia. Qed.

Lemma ladder_visit i path : i < 128 -> Forall (fun p => p / 2 < i / 2) path ->
  forall budget, 63 - i / 2 < budget -> visit ladder budget i path = Ok tt.
Proof.
  intros Hi Hp budget Hb.
  assert (Hlt : forall k, k < 126 -> k / 2 < 63) by (intros; apply Nat.Div0.div_lt_upper_bound; lia).
  assert (Hstep : forall k x, x = 2 \/ x = 3 -> (2 * (k / 2) + x) / 2 = k / 2 + 1).
  { intros k x [-> | ->].
    - replace (2 * (k / 2) + 2) with ((k / 2 + 1) * 2) by lia. by apply Nat.div_mul.
    - replace (2 * (k / 2) + 3) with (1 + (k / 2 + 1) * 2) by lia. by rewrite Nat.div_add. }
  assert (Hin : forall k r, r ∈ related ladder k -> k < 126 /\ exists x, (x = 2 \/ x = 3) /\ r = rung_id (2 * (k / 2) + x)).
  { intros k r Hr. destruct (Nat.lt_ge_cases k 128) as [Hk|Hk]; [|by rewrite ladder_out in Hr; [set_solver|]].
    rewrite ladder_related in Hr by done. case_bool_decide; [|set_solver].
    apply list_elem_of_In in Hr. cbn in Hr. destruct Hr as [<-|[<-|[]]]; eauto 6. }
  assert (Hpos : forall k x, k < 126 -> x = 2 \/ x = 3 -> position ladder (rung_id (2 * (k / 2) + x)) = Some (2 * (k / 2) + x)).
  { intros k x Hk Hx. apply ladder_position. specialize (Hlt k Hk). lia. }
  apply (visit_ranked ladder (fun k => 63 - k / 2)).
  - intros k. apply Forall_forall. intros r (Hk & x & Hx & ->)%Hin. rewrite Hpos by done. by eexists.
  - intros k j (r & (Hk & x & Hx & ->)%Hin & Hj). rewrite Hpos in Hj by done. apply (inj Some) in Hj as <-.
    cbv beta. rewrite Hstep by done. specialize (Hlt k Hk). lia.
  - done.
  - eapply Forall_impl; [exact Hp|]. cbv beta. intros p Hpp.
    assert (i / 2 < 64) by (apply Nat.Div0.div_lt_upper_bound; lia). lia.
Qed.

Lemma ladder_calls d i path :
  i < 128 -> i / 2 + d = 63 -> Forall (fun p => p / 2 < i / 2) path ->
  (2 ^ N.of_nat d <= visit_calls ladder (S d) i path)%N.
Proof.
  revert i path. induction d as [|d IH]; intros i path Hi Hd Hp.
  - cbn [visit_calls]. case_bool_decide; [done|]. cbn. lia.
  - assert (Hlt : i / 2 < 63) by lia.
    assert (Hi' : i < 126) by (pose proof (Nat.div_mod i 2 ltac:(lia)); pose proof (Nat.mod_upper_bound i 2 ltac:(lia)); lia).
    assert (H2 : (2 * (i / 2) + 2) / 2 = i / 2 + 1)
      by (replace (2 * (i / 2) + 2) with ((i / 2 + 1) * 2) by lia; by apply Nat.div_mul).
    assert (H3 : (2 * (i / 2) + 3) / 2 = i / 2 + 1)
      by (replace (2 * (i / 2) + 3) with (1 + (i / 2 + 1) * 2) by lia; by rewrite Nat.div_add).
    rewrite (visit_calls_two ladder (S d) i path (rung_id (2 * (i / 2) + 2)) (rung_id (2 * (i / 2) + 3))
      (2 * (i / 2) + 2) (2 * (i / 2) + 3)).
    + assert (Hpath : forall j, j / 2 = i / 2 + 1 -> Forall (fun p => p / 2 < j / 2) (path ++ [i])).
      { intros j ->. apply Forall_app. split; [|by repeat constructor; lia].
        eapply Forall_impl; [exact Hp|]. cbv beta. intros p Hpp. lia. }
      pose proof (IH (2 * (i / 2) + 2) (path ++ [i]) ltac:(lia) ltac:(lia) (Hpath _ H2)).
      pose proof (IH (2 * (i / 2) + 3) (path ++ [i]) ltac:(lia) ltac:(lia) (Hpath _ H3)).
      rewrite Nat2N.inj_succ, N.pow_succ_r'. lia.
    + apply ladder_visit; [done|done|lia].
    + rewrite ladder_related by done. by rewrite bool_decide_true.
    + apply ladder_position. lia.
    + apply ladder_position. lia.
Qed.

(** A graph of 128 nodes, well within every bound, takes 2^63 calls to visit: what was
    already visited is not remembered, and the visit comes before identifiers are
    checked, so whoever supplies the graph needs no valid one. *)
Theorem evidence_visit_exponential :
  length ladder = 128 /\ has_duplicate ladder = false /\
  visit ladder (S MAX_EVIDENCE_DEPTH) 0 [] = Ok tt /\
  (2 ^ 63 <= visit_calls ladder (S 63) 0 [])%N /\ visit ladder (S 63) 0 [] = Ok tt.
Proof.
  split; [done|]. split; [vm_compute; reflexivity|].
  split; [apply ladder_visit; [lia|by apply Forall_nil|vm_compute; lia]|].
  split; [apply (ladder_calls 63 0 []); [lia|done|by apply Forall_nil]|].
  apply ladder_visit; [lia|by apply Forall_nil|vm_compute; lia].
Qed.
