(* ===== verification/Receipt.v ===== *)
(** * Verification contexts, execution attempts and receipts
      (csv-accountability: context.rs, execution.rs, receipt.rs)

    A context fixes the policies an evaluation depends on; an attempt is one dispatch
    under a mandate; a receipt states how an attempt ended.  Each is validated against
    what it refers to and named by the hash of its canonical form, so the identifier of
    a receipt determines the receipt, its attempt and its mandate. *)

From S2P Require Import Prelude Ord Bytes Hashing Text Accountability Codec Decode Mandate Evidence.

(** ** Verification contexts (context.rs) *)

Definition MAX_CONTEXT_EXTENSIONS : N := 64.
Definition MAX_CONTEXT_EXTENSION_ID_BYTES : N := 128.

Record ContextExtension := mkExtension { ext_registry_id : string; ext_parameters_digest : Bytes32 }.
Record VerificationContext := mkContext {
  context_version : ObjectVersion;
  vc_protocol_version : ProtocolVersion;
  evaluation_time : N;
  verifier_policy_digest : Bytes32;
  trust_package_digest : Bytes32;
  revocation_snapshot_digest : Bytes32;
  algorithm_policy_digest : Bytes32;
  external_evidence_policy_digest : Bytes32;
  assurance_thresholds_digest : Bytes32;
  extensions : list ContextExtension
}.
Inductive ContextError := ContextUnsupportedVersion | MissingPolicyDigest | InvalidExtensions.

Definition policy_digests (c : VerificationContext) : list Bytes32 :=
  [verifier_policy_digest c; trust_package_digest c; revocation_snapshot_digest c;
   algorithm_policy_digest c; external_evidence_policy_digest c; assurance_thresholds_digest c].

Definition bad_extension (e : ContextExtension) : bool :=
  (slen (ext_registry_id e) =? 0)%N || (MAX_CONTEXT_EXTENSION_ID_BYTES <? slen (ext_registry_id e))%N
  || negb (is_trimmed (ext_registry_id e)) || negb (is_ascii (ext_registry_id e))
  || zero (ext_parameters_digest e).

Definition context_validate (c : VerificationContext) : result ContextError unit :=
  reject negb (context_version c =? ACCOUNTABILITY_OBJECT_VERSION)%N
         || negb (bool_decide (vc_protocol_version c = ACCOUNTABILITY_PROTOCOL_VERSION))
    with ContextUnsupportedVersion;;
  reject bool_decide (zero32 ∈ policy_digests c) with MissingPolicyDigest;;
  reject (MAX_CONTEXT_EXTENSIONS <? blen (extensions c))%N || existsb bad_extension (extensions c)
         || not_increasing (ext_registry_id <$> extensions c) with InvalidExtensions;;
  Ok tt.

(** What a valid context is. *)
Record context_ok (c : VerificationContext) : Prop := {
  cx_version : context_version c = ACCOUNTABILITY_OBJECT_VERSION;
  cx_protocol : vc_protocol_version c = ACCOUNTABILITY_PROTOCOL_VERSION;
  cx_policies : zero32 ∉ policy_digests c;
  cx_extensions : (blen (extensions c) <= MAX_CONTEXT_EXTENSIONS)%N /\
    Forall (fun e => bad_extension e = false) (extensions c) /\ bset_ok (ext_registry_id <$> extensions c)
}.

Lemma context_validate_ok c : context_validate c = Ok tt <-> context_ok c.
Proof.
  unfold context_validate. rewrite !guard_err_ok, !orb_false_iff, !negb_false_iff, !bool_decide_eq_true,
    bool_decide_eq_false, N.eqb_eq, N.ltb_ge, existsb_false, not_increasing_spec.
  split; [intros ((? & ?) & ? & ((? & ?) & ?) & _); by split|]. intros [? ? ? (? & ? & ?)]. by split_and!.
Qed.

Definition extension_bytes (e : ContextExtension) : bytes :=
  push_bytes (as_bytes (ext_registry_id e)) ++ b32 (ext_parameters_digest e).
Definition context_bytes (c : VerificationContext) : bytes :=
  u16_be (context_version c) ++ u16_be (major (vc_protocol_version c)) ++ u16_be (minor (vc_protocol_version c)) ++
  u64_be (evaluation_time c) ++ flat_map b32 (policy_digests c) ++ push_list extension_bytes (extensions c).
Definition context_canonical_bytes (c : VerificationContext) : result ContextError bytes :=
  _ ← context_validate c; Ok (context_bytes c).

Record ContextBoundOutput (T : Type) := mkBound { bound_context_id : VerificationContextId; bound_result : T }.
Arguments mkBound {T}.
Arguments bound_context_id {T}.
Arguments bound_result {T}.

(** ** Execution attempts (execution.rs) *)

Definition MAX_EXECUTION_IDENTITY_BYTES : N := 512.
Definition MAX_CORRELATION_KEY_BYTES : N := 1024.

Inductive ExecutionError :=
| AttemptUnsupportedVersion | AttemptInvalidField (field : string) | BindingMismatch | InvalidState.

Record ExecutionAttempt := mkAttempt {
  at_protocol_version : ProtocolVersion;
  attempt_version : ObjectVersion;
  at_mandate_id : MandateId;
  at_mandate_digest : Bytes32;
  at_intent_id : IntentId;
  at_reservation_token : Bytes32;
  executor_identity : bytes;
  correlation_key : bytes;
  started_at : N;
  dispatch_boundary_at : option N;
  provider_request_digest : Bytes32;
  provider_response_digest : option Bytes32;
  at_state : ExecutionAttemptState
}.

Definition state_tag (s : ExecutionAttemptState) : byte :=
  match s with
  | Prepared => Byte.x00 | Dispatching => Byte.x01 | Accepted => Byte.x02 | Rejected => Byte.x03
  | OutcomeAmbiguous => Byte.x04 | ReconciledAccepted => Byte.x05 | ReconciledNotAccepted => Byte.x06
  | AbandonedAmbiguous => Byte.x07
  end.

Definition is_some {A} (o : option A) : bool := match o with Some _ => true | None => false end.

(** What each state says of the dispatch and of the response *)
Definition state_valid (a : ExecutionAttempt) : bool :=
  let dispatched := is_some (dispatch_boundary_at a) in
  let answered := is_some (provider_response_digest a) in
  match at_state a with
  | Prepared => negb dispatched && negb answered
  | Dispatching | OutcomeAmbiguous => dispatched && negb answered
  | Accepted | Rejected | ReconciledAccepted | ReconciledNotAccepted => dispatched && answered
  | AbandonedAmbiguous => dispatched
  end.

Definition attempt_bytes (a : ExecutionAttempt) : bytes :=
  u16_be (major (at_protocol_version a)) ++ u16_be (minor (at_protocol_version a)) ++ u16_be (attempt_version a) ++
  b32 (at_mandate_id a) ++ b32 (at_mandate_digest a) ++ b32 (at_intent_id a) ++ b32 (at_reservation_token a) ++
  push_bytes (executor_identity a) ++ push_bytes (correlation_key a) ++ u64_be (started_at a) ++
  push_option u64_be (dispatch_boundary_at a) ++ b32 (provider_request_digest a) ++
  push_option b32 (provider_response_digest a) ++ one (state_tag (at_state a)).

(** ** Receipts (receipt.rs) *)

Definition MAX_RECEIPT_EVIDENCE_ITEMS : N := 128.
Definition MAX_RECEIPT_REGISTRY_ID_BYTES : N := 128.
Definition MAX_RECEIPT_SIGNATURE_BYTES : N := 8192.

Inductive ExecutionOutcome := Succeeded | Failed | OutcomeRejected | Unknown.
Global Instance ExecutionOutcome_eq_dec : EqDecision ExecutionOutcome.
Proof. solve_decision. Defined.

Record ConsumptionRecord := mkConsumption { mandate_revision : N; journal_entry_digest : Bytes32 }.
Record EvidenceRequirementStatus := mkStatus {
  rs_registry_id : string;
  rs_parameters_digest : Bytes32;
  satisfied : bool;
  evidence_refs : list EvidenceNodeId
}.
Inductive ReceiptError :=
| ReceiptUnsupportedVersion | InvalidAttempt | ReceiptBindingMismatch | OutcomeMismatch
| ReceiptInvalidField (field : string) | InvalidEvidenceRequirements.

Record ExecutionReceipt := mkReceipt {
  rc_protocol_version : ProtocolVersion;
  receipt_version : ObjectVersion;
  rc_mandate_id : MandateId;
  rc_mandate_digest : Bytes32;
  rc_intent_id : IntentId;
  attempt_id : AttemptId;
  rc_executor_identity : bytes;
  consumption_record : ConsumptionRecord;
  dispatch_evidence_refs : list EvidenceNodeId;
  target_evidence_refs : list EvidenceNodeId;
  rc_started_at : N;
  completed_at : option N;
  outcome : ExecutionOutcome;
  result_commitment : option Bytes32;
  evidence_requirements_status : list EvidenceRequirementStatus;
  rc_producer_identity : bytes;
  producer_signature : bytes
}.

Definition outcome_tag (o : ExecutionOutcome) : byte :=
  match o with Succeeded => Byte.x00 | Failed => Byte.x01 | OutcomeRejected => Byte.x02 | Unknown => Byte.x03 end.

(** [push_refs] *)
Definition refs_bytes (l : list EvidenceNodeId) : bytes := push_list b32 l.
(** [u8::from(b)] *)
Definition bool_byte (b : bool) : byte := if b then Byte.x01 else Byte.x00.
Definition status_bytes (s : EvidenceRequirementStatus) : bytes :=
  push_text (rs_registry_id s) ++ b32 (rs_parameters_digest s) ++ one (bool_byte (satisfied s)) ++
  refs_bytes (evidence_refs s).
Definition receipt_bytes (r : ExecutionReceipt) : bytes :=
  u16_be (major (rc_protocol_version r)) ++ u16_be (minor (rc_protocol_version r)) ++ u16_be (receipt_version r) ++
  b32 (rc_mandate_id r) ++ b32 (rc_mandate_digest r) ++ b32 (rc_intent_id r) ++ b32 (attempt_id r) ++
  push_bytes (rc_executor_identity r) ++ u64_be (mandate_revision (consumption_record r)) ++
  b32 (journal_entry_digest (consumption_record r)) ++ refs_bytes (dispatch_evidence_refs r) ++
  refs_bytes (target_evidence_refs r) ++ u64_be (rc_started_at r) ++ push_option u64_be (completed_at r) ++
  one (outcome_tag (outcome r)) ++ push_option b32 (result_commitment r) ++
  push_list status_bytes (evidence_requirements_status r) ++ push_bytes (rc_producer_identity r) ++
  push_bytes (producer_signature r).

Definition receipt_field (l : bytes) (field : string) (maximum : N) : result ReceiptError unit :=
  if bad_bytes maximum l then Err (ReceiptInvalidField field) else Ok tt.
Definition validate_refs (refs : list EvidenceNodeId) : result ReceiptError unit :=
  if (MAX_RECEIPT_EVIDENCE_ITEMS <? blen refs)%N || not_increasing refs
  then Err (ReceiptInvalidField "evidence_refs") else Ok tt.

Definition validate_requirement_statuses (statuses : list EvidenceRequirementStatus) (m : ActionMandate)
  : result ReceiptError unit :=
  reject negb (blen statuses =? blen (evidence_requirements m))%N || (MAX_RECEIPT_EVIDENCE_ITEMS <? blen statuses)%N
    with InvalidEvidenceRequirements;;
  try_each (fun '(s, requirement) =>
    reject negb (bool_decide (rs_registry_id s = registry_id requirement))
           || negb (bool_decide (rs_parameters_digest s = parameters_digest requirement))
           || (slen (rs_registry_id s) =? 0)%N || (MAX_RECEIPT_REGISTRY_ID_BYTES <? slen (rs_registry_id s))%N
           || (satisfied s && bool_decide (evidence_refs s = []))
           || (negb (satisfied s) && negb (bool_decide (evidence_refs s = [])))
      with InvalidEvidenceRequirements;;
    validate_refs (evidence_refs s)) (zip statuses (evidence_requirements m)).

(** Does the outcome agree with the state of the attempt? *)
Definition outcome_valid (r : ExecutionReceipt) (s : ExecutionAttemptState) : bool :=
  match outcome r with
  | Succeeded | Failed =>
      match s with Accepted | ReconciledAccepted => is_some (completed_at r) | _ => false end
  | OutcomeRejected =>
      bool_decide (s = Rejected) && is_some (completed_at r) && negb (is_some (result_commitment r))
  | Unknown => match s with OutcomeAmbiguous | AbandonedAmbiguous => true | _ => false end
  end.

Section Receipt.
Variable sha256 : bytes -> Bytes32.

(** [VerificationContext::id], [ContextBoundOutput::new] *)
Definition context_id (c : VerificationContext) : result ContextError VerificationContextId :=
  b ← context_canonical_bytes c;
  Ok (domain_hash sha256 "csv.accountability.verification-context.v1" b).
Definition bound_output {T} (c : VerificationContext) (r : T) : result ContextError (ContextBoundOutput T) :=
  id ← context_id c; Ok (mkBound id r).

(** [ExecutionAttempt::validate] *)
Definition attempt_field (l : bytes) (field : string) (maximum : N) : result ExecutionError unit :=
  if bad_bytes maximum l then Err (AttemptInvalidField field) else Ok tt.
Definition attempt_validate (a : ExecutionAttempt) (m : ActionMandate) : result ExecutionError unit :=
  reject negb (bool_decide (at_protocol_version a = ACCOUNTABILITY_PROTOCOL_VERSION))
         || negb (attempt_version a =? ACCOUNTABILITY_OBJECT_VERSION)%N with AttemptUnsupportedVersion;;
  id ← map_err (fun _ => BindingMismatch) (mandate_id sha256 m);
  reject negb (bool_decide (at_mandate_id a = id)) || negb (bool_decide (at_mandate_digest a = at_mandate_id a))
         || negb (bool_decide (at_intent_id a = intent_id m)) with BindingMismatch;;
  _ ← attempt_field (executor_identity a) "executor_identity" MAX_EXECUTION_IDENTITY_BYTES;
  _ ← attempt_field (correlation_key a) "correlation_key" MAX_CORRELATION_KEY_BYTES;
  reject zero (at_reservation_token a) || zero (provider_request_digest a) with AttemptInvalidField "digest";;
  reject match dispatch_boundary_at a with Some t => (t <? started_at a)%N | None => false end with InvalidState;;
  reject negb (state_valid a) with InvalidState;;
  Ok tt.
Definition attempt_canonical_bytes (a : ExecutionAttempt) (m : ActionMandate) : result ExecutionError bytes :=
  _ ← attempt_validate a m; Ok (attempt_bytes a).
Definition execution_attempt_id (a : ExecutionAttempt) (m : ActionMandate) : result ExecutionError AttemptId :=
  b ← attempt_canonical_bytes a m;
  Ok (domain_hash sha256 "csv.accountability.attempt.v1" b).

(** [ExecutionReceipt::validate] *)
Definition receipt_validate (r : ExecutionReceipt) (m : ActionMandate) (a : ExecutionAttempt)
  : result ReceiptError unit :=
  reject negb (bool_decide (rc_protocol_version r = ACCOUNTABILITY_PROTOCOL_VERSION))
         || negb (receipt_version r =? ACCOUNTABILITY_OBJECT_VERSION)%N with ReceiptUnsupportedVersion;;
  _ ← map_err (fun _ => InvalidAttempt) (attempt_validate a m);
  id ← map_err (fun _ => InvalidAttempt) (execution_attempt_id a m);
  reject negb (bool_decide (rc_mandate_id r = at_mandate_id a))
         || negb (bool_decide (rc_mandate_digest r = at_mandate_digest a))
         || negb (bool_decide (rc_intent_id r = at_intent_id a)) || negb (bool_decide (attempt_id r = id))
         || negb (bool_decide (rc_executor_identity r = executor_identity a))
         || negb (rc_started_at r =? started_at a)%N with ReceiptBindingMismatch;;
  _ ← receipt_field (rc_producer_identity r) "producer_identity" 512;
  _ ← receipt_field (producer_signature r) "producer_signature" MAX_RECEIPT_SIGNATURE_BYTES;
  reject zero (journal_entry_digest (consumption_record r))
         || match completed_at r with Some t => (t <? rc_started_at r)%N | None => false end
         || match result_commitment r with Some c => zero c | None => false end
    with ReceiptInvalidField "receipt";;
  reject negb (outcome_valid r (at_state a)) with OutcomeMismatch;;
  _ ← validate_refs (dispatch_evidence_refs r);
  _ ← validate_refs (target_evidence_refs r);
  validate_requirement_statuses (evidence_requirements_status r) m.
Definition receipt_canonical_bytes (r : ExecutionReceipt) (m : ActionMandate) (a : ExecutionAttempt)
  : result ReceiptError bytes :=
  _ ← receipt_validate r m a; Ok (receipt_bytes r).
Definition receipt_id (r : ExecutionReceipt) (m : ActionMandate) (a : ExecutionAttempt)
  : result ReceiptError Bytes32 :=
  b ← receipt_canonical_bytes r m a;
  Ok (domain_hash sha256 "csv.accountability.receipt.v1" b).
End Receipt.

(** ** What a canonical form determines *)

Lemma sized_of max l : bad_bytes max l = false <-> sized max l.
Proof. unfold bad_bytes, sized. rewrite orb_false_iff, N.eqb_neq, N.ltb_ge. lia. Qed.

Lemma sized_fit max l : sized max l -> (max <= u32_max)%N -> fits l.
Proof. unfold sized, fits. lia. Qed.

(** The widths of Rust's types. *)
Definition attempt_typed (a : ExecutionAttempt) : Prop :=
  (started_at a <= u64_max)%N /\ opt_ok (fun t => t <= u64_max)%N (dispatch_boundary_at a).
Definition receipt_typed (r : ExecutionReceipt) : Prop :=
  (rc_started_at r <= u64_max)%N /\ opt_ok (fun t => t <= u64_max)%N (completed_at r) /\
  (mandate_revision (consumption_record r) <= u64_max)%N.

Section Binding.
Variable sha256 : bytes -> Bytes32.

(** What validation promises of an attempt. *)
Record attempt_ok (a : ExecutionAttempt) (m : ActionMandate) : Prop := {
  ao_version : at_protocol_version a = ACCOUNTABILITY_PROTOCOL_VERSION;
  ao_object_version : attempt_version a = ACCOUNTABILITY_OBJECT_VERSION;
  ao_mandate : mandate_id sha256 m = Ok (at_mandate_id a);
  ao_digest : at_mandate_digest a = at_mandate_id a;
  ao_intent : at_intent_id a = intent_id m;
  ao_executor : sized MAX_EXECUTION_IDENTITY_BYTES (executor_identity a);
  ao_correlation : sized MAX_CORRELATION_KEY_BYTES (correlation_key a);
  ao_token : at_reservation_token a <> zero32;
  ao_request : provider_request_digest a <> zero32;
  ao_boundary : opt_ok (fun t => started_at a <= t)%N (dispatch_boundary_at a);
  ao_state : state_valid a = true
}.

Lemma none_before (t : N) o :
  match o with Some x => (x <? t)%N | None => false end = false <-> opt_ok (fun x => t <= x)%N o.
Proof.
  destruct o as [x|]; [|by split]. rewrite N.ltb_ge. split; [by intros ? ? [= <-]|]. intros H. by apply H.
Qed.

Lemma attempt_validate_ok a m : attempt_validate sha256 a m = Ok tt <-> attempt_ok a m.
Proof.
  unfold attempt_validate, attempt_field.
  assert (Hf : forall l f max, (if bad_bytes max l then Err (AttemptInvalidField f) else Ok ()) = Ok tt <-> sized max l).
  { intros l f max. rewrite <- sized_of. by destruct (bad_bytes max l). }
  rewrite guard_err_ok, bind_ok. split.
  - intros (Hv & id & Hid & H). apply map_err_ok in Hid.
    rewrite !guard_err_ok, !bind_unit_ok, !Hf, !guard_err_ok in H.
    rewrite !orb_false_iff, !negb_false_iff, !bool_decide_eq_true, !zero_false, none_before in H.
    rewrite orb_false_iff, !negb_false_iff, bool_decide_eq_true, N.eqb_eq in Hv.
    destruct Hv, H as (((Hm & Hd) & Hi) & He & Hc & (Ht & Hr) & Hb & Hs & _). subst id. by split.
  - intros []. rewrite orb_false_iff, !negb_false_iff, bool_decide_eq_true, N.eqb_eq. split; [done|].
    exists (at_mandate_id a). rewrite ao_mandate0. split; [done|].
    rewrite !guard_err_ok, !bind_unit_ok, !Hf, !guard_err_ok.
    by rewrite !orb_false_iff, !negb_false_iff, !bool_decide_eq_true, !zero_false, none_before.
Qed.

#[local] Instance state_tag_inj : Inj eq eq state_tag.
Proof. by intros [] []. Qed.
#[local] Instance outcome_tag_inj : Inj eq eq outcome_tag.
Proof. by intros [] []. Qed.
#[local] Instance bool_byte_inj : Inj eq eq bool_byte.
Proof. by intros [] []. Qed.

Lemma attempt_bytes_inj a b m n :
  attempt_typed a -> attempt_typed b -> attempt_ok a m -> attempt_ok b n ->
  attempt_bytes a = attempt_bytes b -> a = b.
Proof.
  intros [Ha1 Ha2] [Hb1 Hb2] [] [] H. unfold attempt_bytes in H.
  rewrite ao_version0, ao_version1, ao_object_version0, ao_object_version1 in H.
  peel H; try (by eapply sized_fit); try (vm_compute; discriminate).
  apply (inj state_tag) in E12. destruct a, b; simplify_eq/=. congruence.
Qed.
(** ** Receipts *)

Definition refs_ok (l : list EvidenceNodeId) : Prop :=
  (blen l <= MAX_RECEIPT_EVIDENCE_ITEMS)%N /\ bset_ok l.
Lemma validate_refs_ok l : validate_refs l = Ok tt <-> refs_ok l.
Proof.
  unfold validate_refs, refs_ok. rewrite <- not_increasing_spec, <- N.ltb_ge.
  destruct (_ <? _)%N, (not_increasing l); cbn; split; intros; try done; by destruct_and?.
Qed.

(** A status repeats a requirement of the mandate and has evidence exactly when it says it
    is satisfied. *)
Record status_ok (s : EvidenceRequirementStatus) (q : MandateRequirement) : Prop := {
  so_id : rs_registry_id s = registry_id q;
  so_digest : rs_parameters_digest s = parameters_digest q;
  so_length : (0 < slen (rs_registry_id s) <= MAX_RECEIPT_REGISTRY_ID_BYTES)%N;
  so_satisfied : satisfied s = true <-> evidence_refs s <> [];
  so_refs : refs_ok (evidence_refs s)
}.

Lemma try_each_zip {E A B} (f : A * B -> result E unit) (P : A -> B -> Prop) l k :
  (forall x y, f (x, y) = Ok tt <-> P x y) ->
  length l = length k -> try_each f (zip l k) = Ok tt <-> Forall2 P l k.
Proof.
  intros Hf Hl. rewrite try_each_ok. revert k Hl. induction l as [|x l IH]; intros [|y k] Hl; try done; cbn.
  injection Hl as Hl. by rewrite Forall_cons, Forall2_cons, Hf, IH.
Qed.

Lemma statuses_ok l m :
  validate_requirement_statuses l m = Ok tt
  <-> (blen l <= MAX_RECEIPT_EVIDENCE_ITEMS)%N /\ Forall2 status_ok l (evidence_requirements m).
Proof.
  unfold validate_requirement_statuses.
  rewrite guard_err_ok, orb_false_iff, negb_false_iff, N.eqb_eq, N.ltb_ge. unfold blen at 1 2.
  assert (Hs : forall s q, (let '(s, q) := (s, q) in
    reject negb (bool_decide (rs_registry_id s = registry_id q))
           || negb (bool_decide (rs_parameters_digest s = parameters_digest q))
           || (slen (rs_registry_id s) =? 0)%N || (MAX_RECEIPT_REGISTRY_ID_BYTES <? slen (rs_registry_id s))%N
           || (satisfied s && bool_decide (evidence_refs s = []))
           || (negb (satisfied s) && negb (bool_decide (evidence_refs s = [])))
      with InvalidEvidenceRequirements;;
    validate_refs (evidence_refs s)) = Ok tt <-> status_ok s q).
  { intros s q. rewrite guard_err_ok, validate_refs_ok, !orb_false_iff, !negb_false_iff, !bool_decide_eq_true,
      N.eqb_neq, N.ltb_ge. split.
    - intros ((((((Hi & Hd) & Hn) & Hm) & H1) & H2) & Hr). split; try done; [lia|].
      destruct (satisfied s), (decide (evidence_refs s = [])) as [He|He]; rewrite ?He in *; cbn in *; try done.
      by rewrite bool_decide_false in H2.
    - intros []. assert (Hb : bool_decide (evidence_refs s = []) = negb (satisfied s)).
      { case_bool_decide; destruct (satisfied s); naive_solver. }
      rewrite Hb. split_and!; try done; try lia; by destruct (satisfied s). }
  split.
  - intros ((Hl & Hm) & H). split; [done|]. apply (try_each_zip _ status_ok) in H; [done|exact Hs|lia].
  - intros (Hm & H). pose proof (Forall2_length _ _ _ H) as Hl. split; [split; [lia|done]|].
    by apply (try_each_zip _ status_ok).
Qed.

Record receipt_ok (r : ExecutionReceipt) (m : ActionMandate) (a : ExecutionAttempt) : Prop := {
  ro_version : rc_protocol_version r = ACCOUNTABILITY_PROTOCOL_VERSION;
  ro_object_version : receipt_version r = ACCOUNTABILITY_OBJECT_VERSION;
  ro_attempt : attempt_ok a m;
  ro_mandate : rc_mandate_id r = at_mandate_id a;
  ro_digest : rc_mandate_digest r = at_mandate_digest a;
  ro_intent : rc_intent_id r = at_intent_id a;
  ro_attempt_id : execution_attempt_id sha256 a m = Ok (attempt_id r);
  ro_executor : rc_executor_identity r = executor_identity a;
  ro_started : rc_started_at r = started_at a;
  ro_producer : sized 512 (rc_producer_identity r);
  ro_signature : sized MAX_RECEIPT_SIGNATURE_BYTES (producer_signature r);
  ro_journal : journal_entry_digest (consumption_record r) <> zero32;
  ro_completed : opt_ok (fun t => rc_started_at r <= t)%N (completed_at r);
  ro_result : opt_ok (fun c => c <> zero32) (result_commitment r);
  ro_outcome : outcome_valid r (at_state a) = true;
  ro_dispatch : refs_ok (dispatch_evidence_refs r);
  ro_target : refs_ok (target_evidence_refs r);
  ro_few : (blen (evidence_requirements_status r) <= MAX_RECEIPT_EVIDENCE_ITEMS)%N;
  ro_statuses : Forall2 status_ok (evidence_requirements_status r) (evidence_requirements m)
}.

Lemma receipt_validate_ok r m a : receipt_validate sha256 r m a = Ok tt <-> receipt_ok r m a.
Proof.
  assert (Hf : forall l f max, receipt_field l f max = Ok tt <-> sized max l).
  { intros l f max. unfold receipt_field. rewrite <- sized_of. by destruct (bad_bytes max l). }
  assert (Hz : match result_commitment r with Some c => zero c | None => false end = false
    <-> opt_ok (fun c => c <> zero32) (result_commitment r)).
  { destruct (result_commitment r) as [c|]; [|by split]. rewrite zero_false.
    split; [by intros ? ? [= <-]|]. intros H. by apply H. }
  unfold receipt_validate. rewrite guard_err_ok, bind_unit_ok, map_err_ok, attempt_validate_ok, bind_ok.
  rewrite orb_false_iff, !negb_false_iff, bool_decide_eq_true, N.eqb_eq. split.
  - intros ((Hv & Ho) & Ha & id & Hid & H). apply map_err_ok in Hid.
    rewrite !guard_err_ok, !bind_unit_ok, !guard_err_ok, !bind_unit_ok, !Hf, !validate_refs_ok, statuses_ok in H.
    rewrite !orb_false_iff, !negb_false_iff, !bool_decide_eq_true, N.eqb_eq, zero_false, none_before, Hz in H.
    destruct H as ((((((Hm & Hd) & Hi) & Hat) & He) & Hs) & Hp & Hsig & ((Hj & Hc) & Hr) & Hout & Hdr & Htr & Hfew & Hst).
    subst id. by split.
  - intros []. split; [done|]. split; [done|]. exists (attempt_id r). rewrite ro_attempt_id0. split; [done|].
    rewrite !guard_err_ok, !bind_unit_ok, !guard_err_ok, !bind_unit_ok, !Hf, !validate_refs_ok, statuses_ok.
    by rewrite !orb_false_iff, !negb_false_iff, !bool_decide_eq_true, N.eqb_eq, zero_false, none_before, Hz.
Qed.

Definition status_fits (s : EvidenceRequirementStatus) : Prop :=
  text_fits (rs_registry_id s) /\ list_ok any (evidence_refs s).

#[local] Instance pf_status : PrefixFree status_fits status_bytes.
Proof.
  intros s t k l [Hs1 Hs2] [Ht1 Ht2] H. unfold status_bytes, refs_bytes in H. rewrite <- !app_assoc in H.
  peel_fields H; try done. apply (inj bool_byte) in E1. destruct s, t; simplify_eq/=. by split.
Qed.

Lemma refs_fit l : refs_ok l -> list_ok any l.
Proof. intros [Hl _]. split; [|by apply Forall_true]. unfold fits, MAX_RECEIPT_EVIDENCE_ITEMS, u32_max in *. lia. Qed.

Lemma statuses_fit l (qs : list MandateRequirement) :
  (blen l <= MAX_RECEIPT_EVIDENCE_ITEMS)%N -> Forall2 status_ok l qs -> list_ok status_fits l.
Proof.
  intros Hl H. split; [unfold fits, MAX_RECEIPT_EVIDENCE_ITEMS, u32_max in *; lia|].
  induction H as [|s q l qs [] Hf IH]; constructor.
  - split; [|by apply refs_fit]. unfold text_fits, MAX_RECEIPT_REGISTRY_ID_BYTES, u32_max in *. lia.
  - apply IH. unfold blen in *. cbn in Hl. lia.
Qed.

Lemma receipt_bytes_inj r s m n a b :
  receipt_typed r -> receipt_typed s -> receipt_ok r m a -> receipt_ok s n b ->
  receipt_bytes r = receipt_bytes s -> r = s.
Proof.
  intros (Hr1 & Hr2 & Hr3) (Hs1 & Hs2 & Hs3) Hr Hs H. pose proof (ao_executor _ _ (ro_attempt _ _ _ Hr)) as Her.
  pose proof (ao_executor _ _ (ro_attempt _ _ _ Hs)) as Hes. destruct Hr, Hs. unfold receipt_bytes, refs_bytes in H.
  rewrite ro_version0, ro_version1, ro_object_version0, ro_object_version1 in H.
  rewrite <- ro_executor0 in Her. rewrite <- ro_executor1 in Hes.
  peel H; try (by eapply sized_fit); try (by apply refs_fit); try (by eapply statuses_fit);
    try (vm_compute; discriminate).
  apply (inj outcome_tag) in E13. destruct r as [? ? ? ? ? ? ? [] ], s as [? ? ? ? ? ? ? []]; simplify_eq/=. congruence.
Qed.

(** What is hashed last for the identifiers of valid attempts and receipts. *)
Definition attempt_preimage (a : ExecutionAttempt) : bytes :=
  domain_preimage sha256 "csv.accountability.attempt.v1" (attempt_bytes a).
Definition receipt_preimage (r : ExecutionReceipt) : bytes :=
  domain_preimage sha256 "csv.accountability.receipt.v1" (receipt_bytes r).

Lemma attempt_id_inj l a b m n id : attempt_preimage a ∈ l -> attempt_preimage b ∈ l ->
  attempt_typed a -> attempt_typed b ->
  execution_attempt_id sha256 a m = Ok id -> execution_attempt_id sha256 b n = Ok id ->
  a = b \/ collision_in sha256 l.
Proof.
  unfold execution_attempt_id, attempt_canonical_bytes.
  intros Sa Sb Ha Hb (x & (Hva & [= <-])%bind_unit_ok & [= <-])%bind_ok (y & (Hvb & [= <-])%bind_unit_ok & [= H])%bind_ok.
  unfold attempt_preimage in *. hash_inj H. left. apply attempt_validate_ok in Hva, Hvb. symmetry. by eapply attempt_bytes_inj.
Qed.

(** The identifier of a receipt determines everything it rests on: two receipts with
    the same identifier are equal, and so are the attempts they are receipts of and the
    mandates those were made under, unless two of the strings hashed for the receipts, the
    attempts and the mandates collide. *)
Theorem receipt_id_binds (r s : ExecutionReceipt) (m n : ActionMandate) (a b : ExecutionAttempt) (id : Bytes32)
  (Hr : receipt_typed r /\ attempt_typed a /\ mandate_typed m)
  (Hs : receipt_typed s /\ attempt_typed b /\ mandate_typed n)
  (Hir : receipt_id sha256 r m a = Ok id) (His : receipt_id sha256 s n b = Ok id) :
  (r = s /\ a = b /\ m = n) \/
  collision_in sha256 (receipt_preimage r :: attempt_preimage a :: mandate_preimage sha256 m ::
                       receipt_preimage s :: attempt_preimage b :: [mandate_preimage sha256 n]).
Proof.
  destruct Hr as (Hr & Ha & Hm), Hs as (Hs & Hb & Hn). unfold receipt_id, receipt_canonical_bytes in *.
  apply bind_ok in Hir as (x & (Hvr & [= <-])%bind_unit_ok & [= <-]).
  apply bind_ok in His as (y & (Hvs & [= <-])%bind_unit_ok & [= H]).
  unfold receipt_preimage. hash_inj H. apply receipt_validate_ok in Hvr, Hvs.
  assert (r = s) as <- by (symmetry; by eapply receipt_bytes_inj).
  lazymatch goal with |- context [collision_in _ ?l] =>
    destruct (attempt_id_inj l a b m n (attempt_id r)) as [<-|];
      [pick|pick|done|done|apply Hvr|apply Hvs| |by right] end.
  lazymatch goal with |- context [collision_in _ ?l] =>
    destruct (mandate_id_inj sha256 l m n (at_mandate_id a)) as [<-|];
      [pick|pick|done|done|apply Hvr|apply Hvs|by left|by right] end.
Qed.
End Binding.

(** ** A dispatch that succeeded *)

Definition demo_hash (b : bytes) : Bytes32 := fill32 Byte.x2a.
Definition demo_attempt : ExecutionAttempt :=
  mkAttempt (mkVersion 0 1) 1 (fill32 Byte.x2a) (fill32 Byte.x2a) (fill32 Byte.x01) (fill32 Byte.x0a) [Byte.x03]
    [Byte.x0b] 150 (Some 151%N) (fill32 Byte.x0c) (Some (fill32 Byte.x0d)) Accepted.
Definition demo_receipt : ExecutionReceipt :=
  mkReceipt (mkVersion 0 1) 1 (fill32 Byte.x2a) (fill32 Byte.x2a) (fill32 Byte.x01) (fill32 Byte.x2a) [Byte.x03]
    (mkConsumption 3 (fill32 Byte.x0e)) [fill32 Byte.x0f] [] 150 (Some 160%N) Succeeded None
    [mkStatus "org.diewan.evidence.log.v1" (fill32 Byte.x04) true [fill32 Byte.x0f];
     mkStatus "org.diewan.evidence.result.v1" (fill32 Byte.x05) false []]
    [Byte.x10] [Byte.x11].

Lemma demo_typed : receipt_typed demo_receipt /\ attempt_typed demo_attempt /\ mandate_typed demo_mandate.
Proof.
  split; [split; [by vm_compute|split; [by intros ? [= <-]|by vm_compute]]|].
  split; [split; [by vm_compute|by intros ? [= <-]]|]. split; [by vm_compute|]. by split; vm_compute.
Qed.

Theorem receipt_id_binds_witness :
  receipt_id demo_hash demo_receipt demo_mandate demo_attempt = Ok (fill32 Byte.x2a) /\
  ((demo_receipt = demo_receipt /\ demo_attempt = demo_attempt /\ demo_mandate = demo_mandate) \/
   let hashed := receipt_preimage demo_hash demo_receipt :: attempt_preimage demo_hash demo_attempt ::
                   [mandate_preimage demo_hash demo_mandate] in
   collision_in demo_hash (hashed ++ hashed)).
Proof.
  assert (H : receipt_id demo_hash demo_receipt demo_mandate demo_attempt = Ok (fill32 Byte.x2a))
    by (vm_compute; reflexivity).
  split; [exact H|].
  exact (receipt_id_binds demo_hash demo_receipt demo_receipt demo_mandate demo_mandate demo_attempt demo_attempt
    (fill32 Byte.x2a) demo_typed demo_typed H H).
Defined.
