(* ===== verification/Preservation.v ===== *)
(** * Preservation envelopes and their renewals (csv-accountability/src/preservation.rs)

    An envelope keeps the canonical bytes of an object under a list of algorithms; a
    renewal is a later envelope that names the one before it and may only add
    algorithms.  The codec is exact, and a chain is accepted exactly when every
    generation keeps the history. *)

From S2P Require Import Prelude Ord Bytes Hashing Text Accountability Codec Decode Mandate Evidence.

Definition MAX_PRESERVATION_BYTES : N := 8388608.
Definition MAX_PRESERVATION_TEXT_BYTES : N := 128.
Definition MAX_PRESERVATION_ALGORITHMS : N := 32.
Definition MAX_PRESERVATION_CHAIN : nat := 64.

Notation PreservationEnvelopeId := Bytes32.

Inductive AlgorithmPolicyStatus := AlgAllowed | AlgDeprecated | AlgDisallowed | AlgUnknown.
Record AlgorithmStatusEntry := mkAlgorithmStatus { alg_id : string; alg_status : AlgorithmPolicyStatus }.

Record PreservationEnvelope := mkPreservation {
  pe_version : ObjectVersion;
  object_registry_id : string;
  original_canonical_bytes : bytes;
  algorithm_ids : list string;
  preserved_at : N;
  previous_envelope_id : option PreservationEnvelopeId;
  renewal_material_digest : Bytes32
}.

Inductive PreservationError :=
| PreservationUnsupportedVersion | PreservationInvalidField | PreservationMalformed
| PreservationIdentifierMismatch | InvalidRenewalChain | HistoricalRewrite.

Definition valid_text (s : string) : bool :=
  negb (slen s =? 0)%N && (slen s <=? MAX_PRESERVATION_TEXT_BYTES)%N && is_trimmed s && is_ascii s
  && negb (existsb is_control (chars s)).

Definition preservation_validate (e : PreservationEnvelope) : result PreservationError unit :=
  reject negb (pe_version e =? ACCOUNTABILITY_OBJECT_VERSION)%N with PreservationUnsupportedVersion;;
  reject negb (valid_text (object_registry_id e)) || bad_bytes MAX_PRESERVATION_BYTES (original_canonical_bytes e)
         || (blen (algorithm_ids e) =? 0)%N || (MAX_PRESERVATION_ALGORITHMS <? blen (algorithm_ids e))%N
         || existsb (fun s => negb (valid_text s)) (algorithm_ids e) || not_increasing (algorithm_ids e)
         || (preserved_at e =? 0)%N || zero (renewal_material_digest e) with PreservationInvalidField;;
  Ok tt.

(** A 16-bit count and the algorithms *)
Definition algorithms_bytes (l : list string) : bytes := u16_be (blen l) ++ flat_map push_text l.
Definition preservation_bytes (e : PreservationEnvelope) : bytes :=
  u16_be (pe_version e) ++ push_text (object_registry_id e) ++ push_bytes (original_canonical_bytes e) ++
  algorithms_bytes (algorithm_ids e) ++ u64_be (preserved_at e) ++ push_option b32 (previous_envelope_id e) ++
  b32 (renewal_material_digest e).
Definition preservation_canonical_bytes (e : PreservationEnvelope) : result PreservationError bytes :=
  _ ← preservation_validate e; Ok (preservation_bytes e).

(** [Cursor] *)
Definition p_u16 := read_u16_be PreservationMalformed.
Definition p_u64 := read_u64_be PreservationMalformed.
Definition p_array32 := read_b32 PreservationMalformed.
Definition p_bytes (maximum : N) :=
  read_vec (read_u32_be PreservationMalformed) maximum PreservationInvalidField PreservationMalformed.
Definition p_text := read_string PreservationMalformed (p_bytes MAX_PRESERVATION_TEXT_BYTES).
Definition p_optional := read_opt PreservationMalformed PreservationMalformed p_array32.
Definition p_algorithms (b : bytes) : result PreservationError (list string * bytes) :=
  '(n, b) ← p_u16 b;
  reject (n =? 0)%N || (MAX_PRESERVATION_ALGORITHMS <? n)%N with PreservationInvalidField;;
  read_many (N.to_nat n) p_text b.

Definition p_envelope (b : bytes) : result PreservationError (PreservationEnvelope * bytes) :=
  '(v, b) ← p_u16 b;
  version ← try_new PreservationUnsupportedVersion v;
  '(registry, b) ← p_text b;
  '(original, b) ← p_bytes MAX_PRESERVATION_BYTES b;
  '(algorithms, b) ← p_algorithms b;
  '(at_time, b) ← p_u64 b;
  '(previous, b) ← p_optional b;
  '(renewal, b) ← p_array32 b;
  Ok (mkPreservation version registry original algorithms at_time previous renewal, b).
Definition preservation_from_canonical_bytes (input : bytes) : result PreservationError PreservationEnvelope :=
  '(e, b) ← p_envelope input;
  _ ← finish PreservationMalformed b;
  _ ← preservation_validate e;
  canonical ← preservation_canonical_bytes e;
  reject negb (bool_decide (canonical = input)) with PreservationMalformed;;
  Ok e.

Section Preservation.
Variable sha256 : bytes -> Bytes32.

Definition preservation_id (e : PreservationEnvelope) : result PreservationError PreservationEnvelopeId :=
  b ← preservation_canonical_bytes e;
  Ok (domain_hash sha256 "csv.accountability.preservation.v1" b).

(** One turn of the loop of [validate_preservation_chain]: the generation before this one,
    if any, this one, and the identifiers that follow. *)
Definition check_generation (previous : option (PreservationEnvelopeId * PreservationEnvelope))
    (current : PreservationEnvelopeId * PreservationEnvelope)
    (later : list (PreservationEnvelopeId * PreservationEnvelope)) : result PreservationError unit :=
  let '(id, e) := current in
  actual ← preservation_id e;
  reject negb (bool_decide (id = actual)) with PreservationIdentifierMismatch;;
  reject bool_decide (id ∈ later.*1) with InvalidRenewalChain;;
  match previous, previous_envelope_id e with
  | None, None => Ok tt
  | None, Some _ | _, None => Err InvalidRenewalChain
  | Some (expected_id, p), Some previous_id =>
      reject negb (bool_decide (previous_id = expected_id)) || (preserved_at e <=? preserved_at p)%N
        with InvalidRenewalChain;;
      reject negb (bool_decide (object_registry_id e = object_registry_id p))
             || negb (bool_decide (original_canonical_bytes e = original_canonical_bytes p))
             || negb (forallb (fun a => bool_decide (a ∈ algorithm_ids e)) (algorithm_ids p))
        with HistoricalRewrite;;
      Ok tt
  end.

Fixpoint check_chain (previous : option (PreservationEnvelopeId * PreservationEnvelope))
    (l : list (PreservationEnvelopeId * PreservationEnvelope)) : result PreservationError unit :=
  match l with
  | [] => Ok tt
  | x :: l' => _ ← check_generation previous x l'; check_chain (Some x) l'
  end.
Definition validate_preservation_chain (l : list (PreservationEnvelopeId * PreservationEnvelope))
  : result PreservationError unit :=
  reject bool_decide (l = []) || bool_decide (MAX_PRESERVATION_CHAIN < length l) with InvalidRenewalChain;;
  check_chain None l.
End Preservation.

(** ** Reading back *)

#[export] Instance p_u16_reads : Reads (fun v => v <= u16_max)%N u16_be p_u16 := reads_u16_be _.
#[export] Instance p_u64_reads : Reads (fun v => v <= u64_max)%N u64_be p_u64 := reads_u64_be _.
#[export] Instance p_array32_reads : Reads any b32 p_array32 := reads_b32 _.
#[export] Instance p_bytes_reads max : Reads (vec_ok max) push_bytes (p_bytes max) := reads_vec_be _ _ _ _.
#[export] Instance p_text_reads : Reads (text_in (vec_ok MAX_PRESERVATION_TEXT_BYTES)) push_text p_text :=
  reads_string_be _ _ _.
#[export] Instance p_optional_reads : Reads (opt_ok any) (push_option b32) p_optional := reads_opt _ _ _ _ _.

Definition algorithms_fit (l : list string) : Prop :=
  (0 < blen l <= MAX_PRESERVATION_ALGORITHMS)%N /\ Forall (text_in (vec_ok MAX_PRESERVATION_TEXT_BYTES)) l.
#[export] Instance p_algorithms_reads : Reads algorithms_fit algorithms_bytes p_algorithms.
Proof.
  intros b l rest. unfold p_algorithms, algorithms_bytes. split.
  - intros H. read_field H. rewrite guard_err_ok, orb_false_iff, N.eqb_neq, N.ltb_ge in H.
    destruct H as [[Hn Hm] H].
    apply (reads_many p_text (text_in (vec_ok MAX_PRESERVATION_TEXT_BYTES)) push_text) in H as ((Hl & Hf) & ->).
    assert (x = blen l) as -> by (unfold blen; lia). rewrite <- app_assoc. split; [|done]. split; [lia|done].
  - intros [[Hl Hf] ->]. rewrite <- app_assoc. read_back.
    + rewrite guard_err_ok, orb_false_iff, N.eqb_neq, N.ltb_ge. split; [lia|].
      apply (reads_many p_text (text_in (vec_ok MAX_PRESERVATION_TEXT_BYTES)) push_text).
      split; [|done]. split; [unfold blen; lia|done].
    + unfold MAX_PRESERVATION_ALGORITHMS, u16_max in *. lia.
Qed.

Lemma valid_text_fits s : valid_text s = true -> text_in (vec_ok MAX_PRESERVATION_TEXT_BYTES) s.
Proof.
  unfold valid_text. rewrite !andb_true_iff, N.leb_le. intros ((((_ & Hl) & _) & Ha) & _).
  split; [by apply is_ascii_utf8|]. unfold vec_ok, slen, MAX_PRESERVATION_TEXT_BYTES, u32_max in *. lia.
Qed.

(** What validation promises of an envelope. *)
Record preservation_ok (e : PreservationEnvelope) : Prop := {
  po_version : pe_version e = ACCOUNTABILITY_OBJECT_VERSION;
  po_registry : valid_text (object_registry_id e) = true;
  po_original : sized MAX_PRESERVATION_BYTES (original_canonical_bytes e);
  po_few : (0 < blen (algorithm_ids e) <= MAX_PRESERVATION_ALGORITHMS)%N;
  po_texts : Forall (fun s => valid_text s = true) (algorithm_ids e);
  po_sorted : bset_ok (algorithm_ids e);
  po_time : preserved_at e <> 0%N;
  po_renewal : renewal_material_digest e <> zero32
}.

Lemma preservation_validate_ok e : preservation_validate e = Ok tt <-> preservation_ok e.
Proof.
  unfold preservation_validate, bad_bytes. rewrite !guard_err_ok, !orb_false_iff, !negb_false_iff.
  rewrite !N.eqb_neq, !N.ltb_ge, N.eqb_eq, not_increasing_spec, existsb_false, zero_false.
  setoid_rewrite negb_false_iff. split.
  - intros (Hv & (((((((Ht & Ho & Hm) & Hz) & Hf) & Hx) & Hs) & Hp) & Hr) & _). split; try done; unfold sized; lia.
  - intros []. unfold sized in *. split_and!; try done; lia.
Qed.

#[export] Instance p_envelope_reads :
  Reads (fun e => (pe_version e <= u16_max)%N /\ pe_version e <> 0%N /\
                  text_in (vec_ok MAX_PRESERVATION_TEXT_BYTES) (object_registry_id e) /\
                  vec_ok MAX_PRESERVATION_BYTES (original_canonical_bytes e) /\ algorithms_fit (algorithm_ids e) /\
                  (preserved_at e <= u64_max)%N) preservation_bytes p_envelope.
Proof.
  intros b e rest. unfold p_envelope, preservation_bytes. split.
  - intros H. read_field H. apply bind_ok in H as (v & Hv & H). apply try_new_ok in Hv as [-> Hv].
    read_fields H. injection H as <- <-. rewrite <- !app_assoc. by split_and!.
  - intros [(Hv & Hn & Hr & Ho & Ha & Ht) ->]. rewrite <- !app_assoc. read_back; [|done].
    rewrite (proj2 (try_new_ok _ _ _) (conj eq_refl Hn)). cbn [mbind result_bind].
    destruct e. read_back; try assumption; field_bounds.
Qed.

(** Decoding a preservation envelope accepts exactly the canonical encodings of valid
    envelopes. *)
Theorem preservation_codec_exact (b : bytes) (e : PreservationEnvelope) :
  preservation_from_canonical_bytes b = Ok e
  <-> (preserved_at e <= u64_max)%N /\ preservation_canonical_bytes e = Ok b.
Proof.
  unfold preservation_from_canonical_bytes. split.
  - intros H. read_field H. destruct Hp as (_ & _ & _ & _ & _ & Ht). rewrite !bind_unit_ok, bind_ok, finish_ok in H.
    destruct H as (-> & Hv & c & Hb & H). rewrite guard_err_ok in H. destruct H as [He [= <-]].
    apply negb_false_iff, bool_decide_eq_true in He. split; [done|]. by rewrite <- He, Hb.
  - intros [Ht Hb]. pose proof Hb as Hb'. unfold preservation_canonical_bytes in Hb.
    rewrite bind_unit_ok in Hb. destruct Hb as [Hv Hb]. injection Hb as Hb.
    rewrite <- (app_nil_r b), <- Hb at 1. erewrite (reads_app _ preservation_bytes p_envelope).
    + cbn [finish mbind result_bind]. rewrite Hv, Hb'. cbn [mbind result_bind]. by rewrite bool_decide_true.
    + apply preservation_validate_ok in Hv as []. rewrite po_version0. split_and!; try done.
      * by apply valid_text_fits.
      * unfold sized, vec_ok, MAX_PRESERVATION_BYTES, u32_max in *. lia.
      * split; [done|]. eapply Forall_impl; [exact po_texts0|]. apply valid_text_fits.
Qed.

(** ** Renewal chains *)

Section Chain.
Variable sha256 : bytes -> Bytes32.
Notation generation := (PreservationEnvelopeId * PreservationEnvelope)%type.

(** One generation renews the one before it. *)
Record renews (p e : generation) : Prop := {
  rn_link : previous_envelope_id e.2 = Some p.1;
  rn_later : (preserved_at p.2 < preserved_at e.2)%N;
  rn_object : object_registry_id e.2 = object_registry_id p.2;
  rn_bytes : original_canonical_bytes e.2 = original_canonical_bytes p.2;
  rn_algorithms : algorithm_ids p.2 ⊆ algorithm_ids e.2
}.

Record chain_ok (l : list generation) : Prop := {
  co_length : 0 < length l <= MAX_PRESERVATION_CHAIN;
  co_named : forall i g, l !! i = Some g -> preservation_id sha256 g.2 = Ok g.1;
  co_distinct : NoDup l.*1;
  co_first : forall g, l !! 0 = Some g -> previous_envelope_id g.2 = None;
  co_renews : forall i p e, l !! i = Some p -> l !! S i = Some e -> renews p e
}.

Lemma check_generation_ok prev g later :
  check_generation sha256 prev g later = Ok tt
  <-> preservation_id sha256 g.2 = Ok g.1 /\ g.1 ∉ later.*1 /\
      match prev with None => previous_envelope_id g.2 = None | Some p => renews p g end.
Proof.
  destruct g as [id e]. unfold check_generation. cbn [fst snd]. rewrite bind_ok. split.
  - intros (a & Ha & H). rewrite !guard_err_ok, negb_false_iff, bool_decide_eq_true, bool_decide_eq_false in H.
    destruct H as (-> & Hl & H). split; [done|]. split; [done|].
    destruct prev as [[pid p]|], (previous_envelope_id e) as [q|] eqn:Hq; try done.
    rewrite !guard_err_ok, !orb_false_iff, !negb_false_iff, !bool_decide_eq_true, N.leb_gt, forallb_forall in H.
    destruct H as ((-> & Ht) & ((Ho & Hb) & Hg) & _). split; try done.
    intros x Hx. cbn in *. specialize (Hg x). rewrite <- list_elem_of_In, bool_decide_eq_true in Hg. by apply Hg.
  - intros (Ha & Hl & H). exists id. split; [done|]. rewrite !guard_err_ok, negb_false_iff, bool_decide_eq_true,
      bool_decide_eq_false. split; [done|]. split; [done|].
    destruct prev as [[pid p]|]; [|by rewrite H]. destruct H as [Hk Ht Ho Hb Hg]. cbn in *. rewrite Hk.
    rewrite !guard_err_ok, !orb_false_iff, !negb_false_iff, !bool_decide_eq_true, N.leb_gt, forallb_forall.
    split_and!; try done. intros x Hx. rewrite bool_decide_eq_true. by apply Hg, list_elem_of_In.
Qed.

Lemma check_chain_ok prev l :
  check_chain sha256 prev l = Ok tt
  <-> (forall i g, l !! i = Some g -> preservation_id sha256 g.2 = Ok g.1) /\ NoDup l.*1 /\
      (forall g, l !! 0 = Some g ->
         match prev with None => previous_envelope_id g.2 = None | Some p => renews p g end) /\
      (forall i p e, l !! i = Some p -> l !! S i = Some e -> renews p e).
Proof.
  revert prev. induction l as [|g l IH]; intros prev; cbn [check_chain].
  - split; [|done]. intros _. split_and!; try done. constructor.
  - rewrite bind_unit_ok, check_generation_ok, IH, fmap_cons, NoDup_cons. split.
    + intros ((Hid & Hn & Hp) & Hids & Hd & Hf & Hr). split_and!; try done.
      * intros [|i] x Hx; [by injection Hx as <-|by eapply Hids].
      * intros x [= <-]. done.
      * intros [|i] p e Hp' He; [|by eapply (Hr i)]. injection Hp' as <-. by apply Hf.
    + intros (Hids & [Hn Hd] & Hf & Hr). split_and!; try done.
      * by apply (Hids 0).
      * by apply Hf.
      * intros i x Hx. by apply (Hids (S i)).
      * intros x Hx. by apply (Hr 0).
      * intros i p e Hp He. by apply (Hr (S i)).
Qed.

Lemma chain_validate_ok l : validate_preservation_chain sha256 l = Ok tt <-> chain_ok l.
Proof.
  unfold validate_preservation_chain. rewrite guard_err_ok, check_chain_ok, orb_false_iff, !bool_decide_eq_false.
  split.
  - intros ([Hn Hl] & Hids & Hd & Hf & Hr). split; try done. destruct l; [done|]. cbn in *. lia.
  - intros [[Hn Hl] Hids Hd Hf Hr]. split_and!; try done; [|lia]. intros ->. cbn in Hn. lia.
Qed.

(** A chain of preservation envelopes is accepted exactly when it is not empty nor
    longer than the bound, every envelope is valid and under its own identifier, no
    identifier repeats, the first renews nothing and each of the others renews the one
    before it, later, with the same object and bytes and no algorithm dropped; so any
    two generations of an accepted chain preserve the same bytes of the same object, and
    what an earlier one was preserved under the later one is too. *)
Theorem preservation_chain_exact (l : list generation) :
  (validate_preservation_chain sha256 l = Ok tt <-> chain_ok l) /\
  (validate_preservation_chain sha256 l = Ok tt -> forall i j p e, i <= j -> l !! i = Some p -> l !! j = Some e ->
     original_canonical_bytes e.2 = original_canonical_bytes p.2 /\
     object_registry_id e.2 = object_registry_id p.2 /\ algorithm_ids p.2 ⊆ algorithm_ids e.2).
Proof.
  split; [apply chain_validate_ok|]. intros [_ _ _ _ Hr]%chain_validate_ok i j p e Hij Hp.
  revert e. induction Hij as [|j Hij IH]; intros e He.
  - rewrite Hp in He. injection He as <-. split_and!; [done|done|]. by intros x.
  - destruct (lookup_lt_is_Some_2 l j) as [q Hq]; [apply lookup_lt_Some in He; lia|].
    destruct (IH q Hq) as (H1 & H2 & H3). destruct (Hr j q e Hq He). split_and!; [congruence|congruence|].
    by etransitivity.
Qed.
End Chain.
