(* ===== verification/Anchor.v ===== *)
(** * Anchors of single use and of commitments (csv-accountability/src/anchor.rs)

    A seal consumption record shows that the reservation of a mandate consumed a seal;
    a chain anchor shows that a commitment is in a block, pending or final.  The three
    codecs are exact, and several sources' readings of one anchor are reconciled to the
    most conservative one. *)

From S2P Require Import Prelude Ord Bytes Hashing Text Accountability Codec Decode Mandate Evidence.

Definition MAX_ANCHOR_FIELD_BYTES : N := 256.
Definition CHAIN_ANCHOR_DOMAIN_TAG : string := "diewan.accountability.chain-anchor.v1".

Inductive AnchorError := ZeroDigest | AnchorInvalidField (field : string) | MalformedBytes.
Inductive SingleUseAnchorAssessment := IndependentlyEnforced | Inconsistent | Malformed.

Definition anchor_field (s : string) (name : string) : result AnchorError unit :=
  if bad_text MAX_ANCHOR_FIELD_BYTES s then Err (AnchorInvalidField name) else Ok tt.

(** [Cursor] *)
Definition a_array := read_b32 MalformedBytes.
Definition a_bytes := read_sized_be MalformedBytes.
Definition a_u64 := read_u64_be MalformedBytes.
Definition a_text := read_string MalformedBytes a_bytes.

(** ** Seal consumption *)

Record SealConsumptionRecord := mkConsumed {
  seal_id : Bytes32;
  nullifier : Bytes32;
  commitment : Bytes32;
  anchor_backend : string
}.

Definition consumed_validate (r : SealConsumptionRecord) : result AnchorError unit :=
  reject zero (seal_id r) || zero (nullifier r) || zero (commitment r) with ZeroDigest;;
  anchor_field (anchor_backend r) "anchor_backend".
(** What a valid record of consumption is. *)
Definition consumed_ok (r : SealConsumptionRecord) : Prop :=
  seal_id r <> zero32 /\ nullifier r <> zero32 /\ commitment r <> zero32 /\
  bad_text MAX_ANCHOR_FIELD_BYTES (anchor_backend r) = false.

Lemma consumed_validate_ok r : consumed_validate r = Ok tt <-> consumed_ok r.
Proof.
  unfold consumed_validate, consumed_ok, anchor_field. rewrite guard_err_ok, !orb_false_iff, !zero_false.
  destruct (bad_text _ _); naive_solver.
Qed.

Definition consumed_bytes (r : SealConsumptionRecord) : bytes :=
  b32 (seal_id r) ++ b32 (nullifier r) ++ b32 (commitment r) ++ push_text (anchor_backend r).
Definition consumed_canonical_bytes (r : SealConsumptionRecord) : result AnchorError bytes :=
  _ ← consumed_validate r; Ok (consumed_bytes r).
Definition consumed_from_canonical_bytes (b : bytes) : result AnchorError SealConsumptionRecord :=
  '(s, b) ← a_array b;
  '(n, b) ← a_array b;
  '(c, b) ← a_array b;
  '(backend, b) ← a_text b;
  _ ← finish MalformedBytes b;
  let r := mkConsumed s n c backend in
  _ ← consumed_validate r;
  Ok r.

Definition assess (r : SealConsumptionRecord) (expected_nullifier expected_commitment : Bytes32)
  : SingleUseAnchorAssessment :=
  if negb (is_ok (consumed_validate r)) then Malformed
  else if bool_decide (nullifier r = expected_nullifier) && bool_decide (commitment r = expected_commitment)
  then IndependentlyEnforced else Inconsistent.

(** ** References to commitments anchored elsewhere *)

Record ExternalCommitmentAnchorReference := mkAnchorRef {
  bundle_digest : Bytes32;
  ext_anchor_ref : bytes;
  ext_anchor_backend : string
}.

Definition anchor_ref_field (l : bytes) : result AnchorError unit :=
  if bad_bytes MAX_ANCHOR_FIELD_BYTES l then Err (AnchorInvalidField "anchor_ref") else Ok tt.
Definition anchor_ref_validate (r : ExternalCommitmentAnchorReference) : result AnchorError unit :=
  reject zero (bundle_digest r) with ZeroDigest;;
  _ ← anchor_ref_field (ext_anchor_ref r);
  anchor_field (ext_anchor_backend r) "anchor_backend".
Definition anchor_ref_bytes (r : ExternalCommitmentAnchorReference) : bytes :=
  b32 (bundle_digest r) ++ push_bytes (ext_anchor_ref r) ++ push_text (ext_anchor_backend r).
Definition anchor_ref_canonical_bytes (r : ExternalCommitmentAnchorReference) : result AnchorError bytes :=
  _ ← anchor_ref_validate r; Ok (anchor_ref_bytes r).
Definition anchor_ref_from_canonical_bytes (b : bytes) : result AnchorError ExternalCommitmentAnchorReference :=
  '(d, b) ← a_array b;
  '(r, b) ← a_bytes b;
  '(backend, b) ← a_text b;
  _ ← finish MalformedBytes b;
  let r := mkAnchorRef d r backend in
  _ ← anchor_ref_validate r;
  Ok r.

(** ** Anchors on a chain *)

Inductive ChainAnchorFinalityStatus :=
| Pending (observed_confirmations required_confirmations : N)
| Final (observed_confirmations : N).

Definition from_confirmations (observed required : N) : ChainAnchorFinalityStatus :=
  if (0 <? required)%N && (required <=? observed)%N then Final observed else Pending observed required.
Definition is_final (s : ChainAnchorFinalityStatus) : bool := match s with Final _ => true | Pending _ _ => false end.

(** [push_canonical], [take_canonical] *)
Definition finality_bytes (s : ChainAnchorFinalityStatus) : bytes :=
  match s with
  | Pending observed required => one Byte.x00 ++ u64_be observed ++ u64_be required
  | Final observed => one Byte.x01 ++ u64_be observed ++ u64_be 0
  end.
Definition take_finality (b : bytes) : result AnchorError (ChainAnchorFinalityStatus * bytes) :=
  '(tag, b) ← read_u8 MalformedBytes b;
  '(observed, b) ← a_u64 b;
  '(required, b) ← a_u64 b;
  match tag with
  | Byte.x00 =>
      reject (0 <? required)%N && (required <=? observed)%N with MalformedBytes;;
      Ok (Pending observed required, b)
  | Byte.x01 => reject negb (required =? 0)%N with MalformedBytes;; Ok (Final observed, b)
  | _ => Err MalformedBytes
  end.

Inductive ChainAnchorVerificationResult := AnchoredFinal | AnchoredPending | AnchorInconsistent | AnchorMalformed.

Record ChainCommitmentAnchorEvidence := mkChainAnchor {
  ca_commitment : Bytes32;
  ca_chain_id : string;
  ca_anchor_ref : bytes;
  ca_block_height : N;
  ca_block_hash : Bytes32;
  ca_finality : ChainAnchorFinalityStatus;
  ca_anchor_backend : string
}.

Definition chain_anchor_validate (a : ChainCommitmentAnchorEvidence) : result AnchorError unit :=
  reject zero (ca_commitment a) || zero (ca_block_hash a) with ZeroDigest;;
  _ ← anchor_ref_field (ca_anchor_ref a);
  _ ← anchor_field (ca_chain_id a) "chain_id";
  anchor_field (ca_anchor_backend a) "anchor_backend".
Definition chain_anchor_bytes (a : ChainCommitmentAnchorEvidence) : bytes :=
  b32 (ca_commitment a) ++ push_text (ca_chain_id a) ++ push_bytes (ca_anchor_ref a) ++
  u64_be (ca_block_height a) ++ b32 (ca_block_hash a) ++ finality_bytes (ca_finality a) ++
  push_text (ca_anchor_backend a).
Definition chain_anchor_canonical_bytes (a : ChainCommitmentAnchorEvidence) : result AnchorError bytes :=
  _ ← chain_anchor_validate a; Ok (chain_anchor_bytes a).
Definition chain_anchor_from_canonical_bytes (b : bytes) : result AnchorError ChainCommitmentAnchorEvidence :=
  '(c, b) ← a_array b;
  '(chain, b) ← a_text b;
  '(r, b) ← a_bytes b;
  '(height, b) ← a_u64 b;
  '(hash, b) ← a_array b;
  '(f, b) ← take_finality b;
  '(backend, b) ← a_text b;
  _ ← finish MalformedBytes b;
  let a := mkChainAnchor c chain r height hash f backend in
  _ ← chain_anchor_validate a;
  Ok a.

Definition verify_commitment (a : ChainCommitmentAnchorEvidence) (expected : Bytes32)
  : ChainAnchorVerificationResult :=
  if negb (is_ok (chain_anchor_validate a)) then AnchorMalformed
  else if negb (bool_decide (ca_commitment a = expected)) then AnchorInconsistent
  else if is_final (ca_finality a) then AnchoredFinal else AnchoredPending.

Section Digests.
Variable sha256 : bytes -> Bytes32.
Definition consumed_digest (r : SealConsumptionRecord) : result AnchorError Bytes32 :=
  b ← consumed_canonical_bytes r; Ok (hash_sha256 sha256 b).
Definition anchor_ref_digest (r : ExternalCommitmentAnchorReference) : result AnchorError Bytes32 :=
  b ← anchor_ref_canonical_bytes r; Ok (hash_sha256 sha256 b).
Definition chain_anchor_digest (a : ChainCommitmentAnchorEvidence) : result AnchorError Bytes32 :=
  b ← chain_anchor_canonical_bytes a; Ok (hash_sha256 sha256 (as_bytes CHAIN_ANCHOR_DOMAIN_TAG ++ b)).
End Digests.

(** ** Several sources *)

Record ChainAnchorSourceObservation := mkObservation {
  source : string;
  ob_block_height : N;
  ob_block_hash : Bytes32;
  ob_finality : ChainAnchorFinalityStatus
}.
Inductive ChainAnchorReconciliationResult :=
| NoObservations
| Agreed (block_height : N) (finality : ChainAnchorFinalityStatus)
| Disagreement (reported_block_hashes : list Bytes32).

Definition observed (s : ChainAnchorFinalityStatus) : N := match s with Pending o _ | Final o => o end.
Definition pending_requirement (s : ChainAnchorFinalityStatus) : option N :=
  match s with Pending _ r => Some r | Final _ => None end.

(** [iter.min().unwrap_or(d)], [iter.max().unwrap_or(d)] *)
Definition min_or (d : N) (l : list N) : N := match l with [] => d | x :: l' => fold_left N.min l' x end.
Definition max_or (d : N) (l : list N) : N := match l with [] => d | x :: l' => fold_left N.max l' x end.

(** [reconcile_chain_anchor_observations]; sorting and removing repetitions gives the
    sorted set of the hashes. *)
Definition reconcile_observations (l : list ChainAnchorSourceObservation) : ChainAnchorReconciliationResult :=
  match l with
  | [] => NoObservations
  | first :: _ =>
      let hashes := bset_of_list (ob_block_hash <$> l) in
      if bool_decide (1 < length hashes) then Disagreement hashes
      else
        let all_final := forallb (fun o => is_final (ob_finality o)) l in
        let min_observed := min_or 0 ((fun o => observed (ob_finality o)) <$> l) in
        Agreed (ob_block_height first)
          (if all_final then Final min_observed
           else Pending min_observed
                  (max_or (saturating_add64 min_observed 1) (omap (fun o => pending_requirement (ob_finality o)) l)))
  end.

(** ** Reading back *)

#[export] Instance a_array_reads : Reads any b32 a_array := reads_b32 _.
#[export] Instance a_u64_reads : Reads (fun v => v <= u64_max)%N u64_be a_u64 := reads_u64_be _.
#[export] Instance a_bytes_reads : Reads fits push_bytes a_bytes := reads_sized_be _.
#[export] Instance a_text_reads : Reads (text_in fits) push_text a_text := reads_string_be _ _ _.

(** A pending reading that its own requirement does not contradict. *)
Definition finality_sound (s : ChainAnchorFinalityStatus) : Prop :=
  match s with Pending o r => ~ (0 < r <= o)%N | Final _ => True end.
Definition finality_fits (s : ChainAnchorFinalityStatus) : Prop :=
  match s with
  | Pending o r => (o <= u64_max)%N /\ (r <= u64_max)%N
  | Final o => (o <= u64_max)%N
  end.

#[export] Instance take_finality_reads :
  Reads (fun s => finality_sound s /\ finality_fits s) finality_bytes take_finality.
Proof.
  intros b s rest. unfold take_finality. split.
  - intros H. read_fields H. destruct x; try discriminate H;
      rewrite guard_err_ok in H; destruct H as [Hc [= <- <-]]; cbn [finality_bytes]; rewrite <- !app_assoc.
    + apply andb_false_iff in Hc. rewrite N.ltb_ge, N.leb_gt in Hc. split; [|done].
      split; [|done]. cbn [finality_sound]. lia.
    + apply negb_false_iff, N.eqb_eq in Hc as ->. done.
  - intros [[Hs Hf] ->]. destruct s as [o r|o]; cbn [finality_bytes finality_sound finality_fits] in *;
      rewrite <- !app_assoc; read_back; try done; try apply Hf.
    apply guard_err_ok. split; [|done]. rewrite andb_false_iff, N.ltb_ge, N.leb_gt. lia.
Qed.

Lemma anchor_field_ok s name : anchor_field s name = Ok tt <-> bad_text MAX_ANCHOR_FIELD_BYTES s = false.
Proof. unfold anchor_field. by destruct (bad_text _ s). Qed.
Lemma anchor_ref_field_ok l : anchor_ref_field l = Ok tt <-> sized MAX_ANCHOR_FIELD_BYTES l.
Proof. unfold anchor_ref_field, bad_bytes, sized. destruct (N.eqb_spec (blen l) 0), (N.ltb_spec MAX_ANCHOR_FIELD_BYTES (blen l)); cbn; split; intros; try done; lia. Qed.

Lemma anchor_text_fits s : is_utf8 s = true -> bad_text MAX_ANCHOR_FIELD_BYTES s = false -> text_in fits s.
Proof. intros Hu Hb. apply bad_text_fits in Hb as [? [? ?]]; [by split|done|done]. Qed.
Lemma anchor_ref_fits l : sized MAX_ANCHOR_FIELD_BYTES l -> fits l.
Proof. unfold sized, fits, MAX_ANCHOR_FIELD_BYTES, u32_max. lia. Qed.

(** Widths, UTF-8 text and a finality that its own requirement does not contradict. *)
Record chain_anchor_typed (a : ChainCommitmentAnchorEvidence) : Prop := {
  ct_chain : is_utf8 (ca_chain_id a) = true;
  ct_backend : is_utf8 (ca_anchor_backend a) = true;
  ct_height : (ca_block_height a <= u64_max)%N;
  ct_finality : finality_fits (ca_finality a);
  ct_sound : finality_sound (ca_finality a)
}.

(** Decoding a chain anchor accepts exactly the canonical encodings of valid anchors
    whose finality is not pending at a depth its own requirement calls final. *)
Theorem chain_anchor_codec_exact (b : bytes) (a : ChainCommitmentAnchorEvidence) :
  chain_anchor_from_canonical_bytes b = Ok a
  <-> chain_anchor_typed a /\ chain_anchor_canonical_bytes a = Ok b.
Proof.
  unfold chain_anchor_from_canonical_bytes, chain_anchor_canonical_bytes. rewrite bind_unit_ok. split.
  - intros H. read_fields H. rewrite !bind_unit_ok, finish_ok in H. destruct H as (-> & Hv & [= <-]).
    split; [|split; [done|by unfold chain_anchor_bytes; rewrite app_nil_r]].
    destruct Hp4. split; try done; by eapply text_in_utf8.
  - intros [[] [Hv [= <-]]]. pose proof Hv as Hv'. unfold chain_anchor_validate in Hv'.
    rewrite guard_err_ok, !bind_unit_ok, !anchor_field_ok, anchor_ref_field_ok in Hv'.
    destruct Hv' as (_ & Hr & Hc & Hb). unfold chain_anchor_bytes.
    rewrite <- (app_nil_r (push_text (ca_anchor_backend a))). read_back;
      try (by apply anchor_text_fits); try (by apply anchor_ref_fits); try assumption; try exact I; try done.
    cbn [finish mbind result_bind]. apply checked; [by destruct a|done].
Qed.

Lemma consumed_codec_exact b r :
  consumed_from_canonical_bytes b = Ok r
  <-> is_utf8 (anchor_backend r) = true /\ consumed_canonical_bytes r = Ok b.
Proof.
  unfold consumed_from_canonical_bytes, consumed_canonical_bytes. rewrite bind_unit_ok. split.
  - intros H. read_fields H. rewrite !bind_unit_ok, finish_ok in H. destruct H as (-> & Hv & [= <-]).
    split; [by eapply text_in_utf8|]. split; [done|]. unfold consumed_bytes. by rewrite app_nil_r.
  - intros [Hu [Hv [= <-]]]. pose proof Hv as Hv'. unfold consumed_validate in Hv'.
    rewrite guard_err_ok, anchor_field_ok in Hv'. destruct Hv' as (_ & Hb). unfold consumed_bytes.
    rewrite <- (app_nil_r (push_text (anchor_backend r))). read_back; try (by apply anchor_text_fits); try exact I.
    cbn [finish mbind result_bind]. apply checked; [by destruct r|done].
Qed.

Lemma anchor_ref_codec_exact b r :
  anchor_ref_from_canonical_bytes b = Ok r
  <-> is_utf8 (ext_anchor_backend r) = true /\ anchor_ref_canonical_bytes r = Ok b.
Proof.
  unfold anchor_ref_from_canonical_bytes, anchor_ref_canonical_bytes. rewrite bind_unit_ok. split.
  - intros H. read_fields H. rewrite !bind_unit_ok, finish_ok in H. destruct H as (-> & Hv & [= <-]).
    split; [by eapply text_in_utf8|]. split; [done|]. unfold anchor_ref_bytes. by rewrite app_nil_r.
  - intros [Hu [Hv [= <-]]]. pose proof Hv as Hv'. unfold anchor_ref_validate in Hv'.
    rewrite guard_err_ok, bind_unit_ok, anchor_field_ok, anchor_ref_field_ok in Hv'.
    destruct Hv' as (_ & Hr & Hb). unfold anchor_ref_bytes.
    rewrite <- (app_nil_r (push_text (ext_anchor_backend r))). read_back; try (by apply anchor_text_fits);
      try (by apply anchor_ref_fits); try exact I.
    cbn [finish mbind result_bind]. apply checked; [by destruct r|done].
Qed.

(** ** Reconciliation *)

Lemma min_or_spec d l : l <> [] -> min_or d l ∈ l /\ Forall (fun x => min_or d l <= x)%N l.
Proof.
  destruct l as [|x l]; [done|]. intros _. cbn [min_or].
  revert x. induction l as [|y l IH]; intros x; cbn [fold_left].
  - split; [by left|]. constructor; [done|constructor].
  - destruct (IH (N.min x y)) as [Hin Hle]. apply Forall_cons in Hle as [Hm Hle]. split.
    + apply elem_of_cons in Hin as [->|Hin]; [|by right; right].
      destruct (N.min_spec x y) as [[_ ->]|[_ ->]]; [by left|by right; left].
    + repeat constructor; [lia|lia|done].
Qed.

Lemma max_or_in d l : l <> [] -> max_or d l ∈ l.
Proof.
  destruct l as [|r l]; [done|]. intros _. cbn [max_or]. revert r.
  induction l as [|s l IH]; intros r; cbn [fold_left]; [by left|].
  specialize (IH (N.max r s)). apply elem_of_cons in IH as [->|IH]; [|by right; right].
  destruct (N.max_spec r s) as [[_ ->]|[_ ->]]; [by right; left|by left].
Qed.

(** When someone is pending, the requirement kept is that of a pending source. *)
Lemma requirement_kept (l : list ChainAnchorSourceObservation) d :
  forallb (fun o => is_final (ob_finality o)) l = false ->
  exists q qo, q ∈ l /\
    ob_finality q = Pending qo (max_or d (omap (fun o => pending_requirement (ob_finality o)) l)).
Proof.
  intros Hf. set (reqs := omap (fun o => pending_requirement (ob_finality o)) l).
  assert (Hne : reqs <> []).
  { intros He. apply not_true_iff_false in Hf. apply Hf, forallb_forall. intros p Hp.
    destruct (ob_finality p) as [o r|o] eqn:Hpe; [|done].
    assert (Hr : r ∈ reqs) by (apply list_elem_of_omap; exists p; rewrite Hpe; split; [by apply list_elem_of_In|done]).
    rewrite He in Hr. by apply not_elem_of_nil in Hr. }
  apply (max_or_in d), list_elem_of_omap in Hne as (q & Hq & Hr).
  destruct (ob_finality q) as [qo qr|] eqn:Hqe; [|done]. injection Hr as ->. by exists q, qo.
Qed.

Definition observations_of (l : list ChainAnchorSourceObservation) : list N :=
  (fun o => observed (ob_finality o)) <$> l.

Lemma one_hash (l : list ChainAnchorSourceObservation) o :
  o ∈ l -> ~ 1 < length (bset_of_list (ob_block_hash <$> l)) ->
  forall p, p ∈ l -> ob_block_hash p = ob_block_hash o.
Proof.
  intros Ho Hl p Hp.
  assert (H : forall q, q ∈ l -> ob_block_hash q ∈ bset_of_list (ob_block_hash <$> l)).
  { intros q Hq. apply elem_of_bset_of_list, list_elem_of_fmap. by exists q. }
  pose proof (H o Ho) as H1. pose proof (H p Hp) as H2.
  destruct (bset_of_list (ob_block_hash <$> l)) as [|h [|h' k]]; [set_solver| |cbn in Hl; lia].
  apply list_elem_of_singleton in H1, H2. congruence.
Qed.

(** Reconciling sources: without observations there is no answer; sources that report
    two different blocks are a disagreement, which lists exactly the blocks reported;
    sources that agree on the block give a finality that is final exactly when every
    source says final, at the least depth anyone observed, and whose requirement, when it
    is pending, covers that of every pending source; so if no source contradicts itself
    the answer does not either. *)
Theorem reconcile_exact (l : list ChainAnchorSourceObservation) :
  match reconcile_observations l with
  | NoObservations => l = []
  | Disagreement hashes =>
      bset_ok hashes /\ 1 < length hashes /\ forall h, h ∈ hashes <-> exists o, o ∈ l /\ ob_block_hash o = h
  | Agreed height f =>
      (exists o, o ∈ l /\ ob_block_height o = height /\ forall p, p ∈ l -> ob_block_hash p = ob_block_hash o) /\
      (is_final f = true <-> forall o, o ∈ l -> is_final (ob_finality o) = true) /\
      (exists o, o ∈ l /\ observed (ob_finality o) = observed f) /\
      (forall o, o ∈ l -> (observed f <= observed (ob_finality o))%N) /\
      ((forall o, o ∈ l -> finality_sound (ob_finality o)) -> finality_sound f)
  end.
Proof.
  destruct l as [|o l']; [done|]. unfold reconcile_observations. set (l := o :: l').
  assert (Ho : o ∈ l) by (by left). case_bool_decide as Hl.
  - split; [apply bset_of_list_ok|]. split; [done|]. intros h. rewrite elem_of_bset_of_list, list_elem_of_fmap.
    split; [intros (p & -> & Hp)|intros (p & Hp & <-)]; by exists p.
  - destruct (min_or_spec 0 (observations_of l)) as [Hin Hle]; [done|].
    apply list_elem_of_fmap in Hin as (m & Hm & Hin). fold (observations_of l).
    assert (Hleast : forall p, p ∈ l -> (min_or 0 (observations_of l) <= observed (ob_finality p))%N).
    { rewrite Forall_forall in Hle. intros p Hp. apply Hle, list_elem_of_fmap. by exists p. }
    assert (Hfin : forallb (fun o => is_final (ob_finality o)) l = true <-> forall o, o ∈ l -> is_final (ob_finality o) = true).
    { rewrite forallb_forall. by setoid_rewrite list_elem_of_In. }
    split; [exists o; split_and!; [done|done|by apply one_hash]|].
    destruct (forallb (fun o => is_final (ob_finality o)) l) eqn:Hf; cbn [is_final observed finality_sound].
    + split_and!; [by rewrite <- Hfin|by exists m|done|done].
    + split_and!; [by rewrite <- Hfin|by exists m|done|]. intros Hs Hreq.
      destruct (requirement_kept l (saturating_add64 (min_or 0 (observations_of l)) 1) Hf) as (q & qo & Hq & Hqe).
      pose proof (Hs q Hq) as Hqs. pose proof (Hleast q Hq) as Hql. rewrite Hqe in Hqs, Hql.
      cbn [finality_sound observed] in Hqs, Hql. lia.
Qed.

(** An anchor can be final without any depth having been required of it: the decoder takes
    the encoding at its word, though [from_confirmations] never yields it. *)
Definition unearned : ChainCommitmentAnchorEvidence :=
  mkChainAnchor (fill32 Byte.x05) "ethereum-sepolia" [Byte.x01] 1000 (fill32 Byte.x06) (Final 0) "chain.v1".
Theorem final_without_confirmations :
  (forall required, from_confirmations 0 required <> Final 0) /\
  exists b, chain_anchor_from_canonical_bytes b = Ok unearned /\
    verify_commitment unearned (fill32 Byte.x05) = AnchoredFinal.
Proof.
  split.
  - intros r. unfold from_confirmations. destruct (N.ltb_spec 0 r), (N.leb_spec r 0); cbn; try congruence; exfalso; lia.
  - destruct (chain_anchor_canonical_bytes unearned) as [b|e] eqn:Hb; [|vm_compute in Hb; discriminate].
    exists b. split; [|vm_compute; reflexivity]. apply chain_anchor_codec_exact. split; [|done].
    split; vm_compute; done.
Qed.
