(* ===== verification/Authority.v ===== *)
(** * Reconstruction of authority (csv-accountability/src/authority.rs and
      [evaluate_authority_reconstruction] of csv-accountability-verify/src/lib.rs)

    A reconstruction lists the links of a delegation as a source discloses them.  It is
    compatible exactly when the links form one tree of delegations below one root, each
    within its parent's identity, domain, interval and scope, effective at the time
    asked about, with everything verified and nothing missing or contradicted. *)

From S2P Require Import Prelude Ord Bytes Hashing Text Accountability Codec Decode Mandate Evidence.

Definition AUTHORITY_RECONSTRUCTION_REGISTRY_ID : string := "org.diewan.authority-reconstruction.v1".
Definition MAX_AUTHORITY_LINKS : N := 256.
Definition MAX_AUTHORITY_CONTRADICTIONS : N := 64.
Definition MAX_AUTHORITY_FIELD_BYTES : N := 512.

Inductive AuthoritySourceCompleteness := Complete | Incomplete | WithheldSource.
Inductive AuthorityAuthenticity := Verified | RejectedAuthenticity | UnknownAuthenticity.
Global Instance AuthoritySourceCompleteness_eq_dec : EqDecision AuthoritySourceCompleteness.
Proof. solve_decision. Defined.
Global Instance AuthorityAuthenticity_eq_dec : EqDecision AuthorityAuthenticity.
Proof. solve_decision. Defined.

Record AuthorityLink := mkLink {
  al_mandate_id : MandateId;
  parent_mandate_id : option MandateId;
  al_issuer_identity : bytes;
  subject_identity : bytes;
  al_authority_domain : bytes;
  effective_from : N;
  effective_until : N;
  scope_digest : Bytes32;
  al_authenticity : AuthorityAuthenticity
}.

Record AuthorityReconstruction := mkReconstruction {
  ar_registry_id : string;
  ar_evaluation_time : N;
  source_snapshot_digest : Bytes32;
  snapshot_authenticity : AuthorityAuthenticity;
  source_completeness : AuthoritySourceCompleteness;
  inference_method : string;
  links : list AuthorityLink;
  contradiction_refs : list EvidenceNodeId
}.

Inductive AuthorityConclusion := Compatible | Incompatible | IndeterminateAuthority.
Inductive AuthorityReason :=
| ChainCompatible | SourceIncomplete | AuthenticityUnknown | AuthenticityRejected | ParentMissing | CycleReason
| ConflictingParents | ConflictingRoots | DelegationMismatch | ContradictionPresent | MalformedReconstruction.
Record AuthorityEvaluation := mkEvaluation { conclusion : AuthorityConclusion; reason : AuthorityReason }.

Inductive AuthorityError := AuthorityInvalidField (field : string) | NonCanonicalOrder | AuthorityInvalidEncoding.

(** ** Validation *)

Definition authority_field (l : bytes) (field : string) : result AuthorityError unit :=
  if bad_bytes MAX_AUTHORITY_FIELD_BYTES l then Err (AuthorityInvalidField field) else Ok tt.
Definition authority_text (s : string) (field : string) : result AuthorityError unit :=
  _ ← authority_field (as_bytes s) field;
  reject negb (is_trimmed s) || existsb is_control (chars s) with AuthorityInvalidField field;; Ok tt.

Definition link_key (l : AuthorityLink) : Bytes32 * Bytes32 :=
  (al_mandate_id l, default zero32 (parent_mandate_id l)).

Definition link_validate (l : AuthorityLink) : result AuthorityError unit :=
  _ ← authority_field (al_issuer_identity l) "issuer_identity";
  _ ← authority_field (subject_identity l) "subject_identity";
  _ ← authority_field (al_authority_domain l) "authority_domain";
  reject (effective_until l <=? effective_from l)%N || zero (scope_digest l)
    with AuthorityInvalidField "link_interval_or_scope";;
  Ok tt.

Definition authority_validate (r : AuthorityReconstruction) : result AuthorityError unit :=
  reject negb (bool_decide (ar_registry_id r = AUTHORITY_RECONSTRUCTION_REGISTRY_ID))
         || (ar_evaluation_time r =? 0)%N || zero (source_snapshot_digest r) with AuthorityInvalidField "header";;
  _ ← authority_text (inference_method r) "inference_method";
  reject (blen (links r) =? 0)%N || (MAX_AUTHORITY_LINKS <? blen (links r))%N with AuthorityInvalidField "links";;
  _ ← try_each link_validate (links r);
  reject not_increasing (link_key <$> links r) with NonCanonicalOrder;;
  reject (MAX_AUTHORITY_CONTRADICTIONS <? blen (contradiction_refs r))%N || not_increasing (contradiction_refs r)
    with NonCanonicalOrder;;
  Ok tt.

(** ** The canonical form *)

Definition authenticity_tag (a : AuthorityAuthenticity) : byte :=
  match a with Verified => Byte.x00 | RejectedAuthenticity => Byte.x01 | UnknownAuthenticity => Byte.x02 end.
Definition completeness_tag (c : AuthoritySourceCompleteness) : byte :=
  match c with Complete => Byte.x00 | Incomplete => Byte.x01 | WithheldSource => Byte.x02 end.

Definition link_bytes (l : AuthorityLink) : bytes :=
  b32 (al_mandate_id l) ++ push_option b32 (parent_mandate_id l) ++ push_bytes (al_issuer_identity l) ++
  push_bytes (subject_identity l) ++ push_bytes (al_authority_domain l) ++ u64_be (effective_from l) ++
  u64_be (effective_until l) ++ b32 (scope_digest l) ++ one (authenticity_tag (al_authenticity l)).
Definition authority_bytes (r : AuthorityReconstruction) : bytes :=
  push_text (ar_registry_id r) ++ u64_be (ar_evaluation_time r) ++ b32 (source_snapshot_digest r) ++
  one (authenticity_tag (snapshot_authenticity r)) ++ one (completeness_tag (source_completeness r)) ++
  push_text (inference_method r) ++ push_list link_bytes (links r) ++ push_list b32 (contradiction_refs r).
Definition authority_canonical_bytes (r : AuthorityReconstruction) : result AuthorityError bytes :=
  _ ← authority_validate r; Ok (authority_bytes r).

(** [Cursor] *)
Definition r_u32 := read_u32_be AuthorityInvalidEncoding.
Definition r_u64 := read_u64_be AuthorityInvalidEncoding.
Definition r_array32 := read_b32 AuthorityInvalidEncoding.
Definition r_bytes := read_vec r_u32 MAX_AUTHORITY_FIELD_BYTES AuthorityInvalidEncoding AuthorityInvalidEncoding.
Definition r_text := read_string AuthorityInvalidEncoding r_bytes.
Definition r_authenticity := read_tag AuthorityInvalidEncoding AuthorityInvalidEncoding (fun t =>
  match t with Byte.x00 => Some Verified | Byte.x01 => Some RejectedAuthenticity
             | Byte.x02 => Some UnknownAuthenticity | _ => None end).
Definition r_completeness := read_tag AuthorityInvalidEncoding AuthorityInvalidEncoding (fun t =>
  match t with Byte.x00 => Some Complete | Byte.x01 => Some Incomplete
             | Byte.x02 => Some WithheldSource | _ => None end).
Definition r_optional_id := read_opt AuthorityInvalidEncoding AuthorityInvalidEncoding r_array32.
Definition r_link (b : bytes) : result AuthorityError (AuthorityLink * bytes) :=
  '(id, b) ← r_array32 b;
  '(parent, b) ← r_optional_id b;
  '(issuer, b) ← r_bytes b;
  '(subject, b) ← r_bytes b;
  '(domain, b) ← r_bytes b;
  '(from, b) ← r_u64 b;
  '(until, b) ← r_u64 b;
  '(scope, b) ← r_array32 b;
  '(auth, b) ← r_authenticity b;
  Ok (mkLink id parent issuer subject domain from until scope auth, b).
Definition r_reconstruction (b : bytes) : result AuthorityError (AuthorityReconstruction * bytes) :=
  '(registry, b) ← r_text b;
  '(time, b) ← r_u64 b;
  '(snapshot, b) ← r_array32 b;
  '(auth, b) ← r_authenticity b;
  '(completeness, b) ← r_completeness b;
  '(method, b) ← r_text b;
  '(ls, b) ← read_counted r_u32 MAX_AUTHORITY_LINKS AuthorityInvalidEncoding r_link b;
  '(cs, b) ← read_counted r_u32 MAX_AUTHORITY_CONTRADICTIONS AuthorityInvalidEncoding r_array32 b;
  Ok (mkReconstruction registry time snapshot auth completeness method ls cs, b).
Definition authority_from_canonical_bytes (input : bytes) : result AuthorityError AuthorityReconstruction :=
  '(r, b) ← r_reconstruction input;
  _ ← finish AuthorityInvalidEncoding b;
  _ ← authority_validate r;
  canonical ← authority_canonical_bytes r;
  reject negb (bool_decide (canonical = input)) with AuthorityInvalidEncoding;;
  Ok r.
Definition authority_id (sha256 : bytes -> Bytes32) (r : AuthorityReconstruction) : result AuthorityError Bytes32 :=
  b ← authority_canonical_bytes r;
  Ok (domain_hash sha256 "csv.accountability.authority-reconstruction.v1" b).

(** ** Evaluation *)

Definition authority_incompatible (r : AuthorityReason) : AuthorityEvaluation := mkEvaluation Incompatible r.
Definition authority_indeterminate (r : AuthorityReason) : AuthorityEvaluation := mkEvaluation IndeterminateAuthority r.

Fixpoint authority_has_conflicting_parents (ls : list AuthorityLink) : bool :=
  match ls with
  | [] => false
  | l :: rest =>
      existsb (fun c => bool_decide (al_mandate_id c = al_mandate_id l)
                        && negb (bool_decide (parent_mandate_id c = parent_mandate_id l))) rest
      || authority_has_conflicting_parents rest
  end.

(** [links.iter().find(|link| link.mandate_id == id)] *)
Definition find_link (ls : list AuthorityLink) (id : MandateId) : option AuthorityLink :=
  List.find (fun l => bool_decide (al_mandate_id l = id)) ls.

(** The [while let] loop of [authority_has_cycle]: from an identifier to its parent until
    there is none or one comes back.  [None] is the loop still running without fuel. *)
Fixpoint follow_parents (ls : list AuthorityLink) (fuel : nat) (current : option MandateId)
    (visited : list MandateId) : option bool :=
  match current with
  | None => Some false
  | Some id =>
      match fuel with
      | O => None
      | S fuel' =>
          if bool_decide (id ∈ visited) then Some true
          else follow_parents ls fuel' (find_link ls id ≫= parent_mandate_id) (visited ++ [id])
      end
  end.
Definition follow_fuel (ls : list AuthorityLink) : nat := S (length ls).
Definition authority_has_cycle (ls : list AuthorityLink) : bool :=
  existsb (fun start => default false (follow_parents ls (follow_fuel ls) (Some (al_mandate_id start)) [])) ls.

(** The body of the loop over the links *)
Definition check_delegation (ls : list AuthorityLink) (l : AuthorityLink) : result AuthorityEvaluation unit :=
  match parent_mandate_id l with
  | None => Ok tt
  | Some parent_id =>
      match find_link ls parent_id with
      | None => Err (authority_indeterminate ParentMissing)
      | Some p =>
          reject negb (bool_decide (subject_identity p = al_issuer_identity l))
                 || negb (bool_decide (al_authority_domain p = al_authority_domain l))
                 || (effective_from l <? effective_from p)%N || (effective_until p <? effective_until l)%N
                 || negb (bool_decide (scope_digest p = scope_digest l))
            with authority_incompatible DelegationMismatch;;
          Ok tt
      end
  end.

Definition no_parent (l : AuthorityLink) : bool := match parent_mandate_id l with None => true | Some _ => false end.
Definition has_authenticity (a : AuthorityAuthenticity) (r : AuthorityReconstruction) : bool :=
  bool_decide (snapshot_authenticity r = a) || existsb (fun l => bool_decide (al_authenticity l = a)) (links r).

Definition evaluation_checks (r : AuthorityReconstruction) : result AuthorityEvaluation unit :=
  reject negb (is_ok (authority_validate r)) with authority_incompatible MalformedReconstruction;;
  reject authority_has_conflicting_parents (links r) with authority_incompatible ConflictingParents;;
  reject authority_has_cycle (links r) with authority_incompatible CycleReason;;
  reject negb (length (List.filter no_parent (links r)) =? 1) with authority_incompatible ConflictingRoots;;
  reject has_authenticity RejectedAuthenticity r with authority_incompatible AuthenticityRejected;;
  reject existsb (fun l => (ar_evaluation_time r <? effective_from l)%N || (effective_until l <=? ar_evaluation_time r)%N)
           (links r) with authority_incompatible DelegationMismatch;;
  _ ← try_each (check_delegation (links r)) (links r);
  reject negb (bool_decide (source_completeness r = Complete)) with authority_indeterminate SourceIncomplete;;
  reject has_authenticity UnknownAuthenticity r with authority_indeterminate AuthenticityUnknown;;
  reject negb (bool_decide (contradiction_refs r = [])) with authority_indeterminate ContradictionPresent;;
  Ok tt.
Definition evaluate_authority_reconstruction (r : AuthorityReconstruction) : AuthorityEvaluation :=
  match evaluation_checks r with
  | Ok _ => mkEvaluation Compatible ChainCompatible
  | Err e => e
  end.

(** ** Reading back *)

#[export] Instance r_u64_reads : Reads (fun v => v <= u64_max)%N u64_be r_u64 := reads_u64_be _.
#[export] Instance r_array32_reads : Reads any b32 r_array32 := reads_b32 _.
#[export] Instance r_bytes_reads : Reads (vec_ok MAX_AUTHORITY_FIELD_BYTES) push_bytes r_bytes := reads_vec_be _ _ _ _.
#[export] Instance r_text_reads : Reads (text_in (vec_ok MAX_AUTHORITY_FIELD_BYTES)) push_text r_text :=
  reads_string_be _ _ _.
#[export] Instance r_optional_reads : Reads (opt_ok any) (push_option b32) r_optional_id := reads_opt _ _ _ _ _.

Definition authenticity_of_byte (x : AuthorityAuthenticity) : bytes := one (authenticity_tag x).
Definition completeness_of_byte (x : AuthoritySourceCompleteness) : bytes := one (completeness_tag x).
#[export] Instance r_authenticity_reads : Reads any authenticity_of_byte r_authenticity.
Proof. apply reads_tag. intros t x. split; [by destruct t; intros [= <-]|by destruct x; intros <-]. Qed.
#[export] Instance r_completeness_reads : Reads any completeness_of_byte r_completeness.
Proof. apply reads_tag. intros t x. split; [by destruct t; intros [= <-]|by destruct x; intros <-]. Qed.

Definition link_fits (l : AuthorityLink) : Prop :=
  vec_ok MAX_AUTHORITY_FIELD_BYTES (al_issuer_identity l) /\ vec_ok MAX_AUTHORITY_FIELD_BYTES (subject_identity l) /\
  vec_ok MAX_AUTHORITY_FIELD_BYTES (al_authority_domain l) /\
  (effective_from l <= u64_max)%N /\ (effective_until l <= u64_max)%N.

#[export] Instance r_link_reads : Reads link_fits link_bytes r_link.
Proof.
  intros b l rest. unfold r_link, link_bytes. split.
  - intros H. read_fields H. injection H as <- <-. rewrite <- !app_assoc. by split; [split_and!|].
  - intros [(H1 & H2 & H3 & H4 & H5) ->]. rewrite <- !app_assoc. fold (authenticity_of_byte (al_authenticity l)).
    destruct l. read_back; try assumption; field_bounds.
Qed.
#[export] Instance r_links_reads :
  Reads (count_ok MAX_AUTHORITY_LINKS link_fits) (push_list link_bytes)
    (read_counted r_u32 MAX_AUTHORITY_LINKS AuthorityInvalidEncoding r_link) := reads_counted_be _ _ _ _ _ _.
#[export] Instance r_refs_reads :
  Reads (count_ok MAX_AUTHORITY_CONTRADICTIONS any) (push_list b32)
    (read_counted r_u32 MAX_AUTHORITY_CONTRADICTIONS AuthorityInvalidEncoding r_array32) :=
  reads_counted_be _ _ _ _ _ _.

Definition authority_fits (r : AuthorityReconstruction) : Prop :=
  text_in (vec_ok MAX_AUTHORITY_FIELD_BYTES) (ar_registry_id r) /\ (ar_evaluation_time r <= u64_max)%N /\
  text_in (vec_ok MAX_AUTHORITY_FIELD_BYTES) (inference_method r) /\
  count_ok MAX_AUTHORITY_LINKS link_fits (links r) /\ count_ok MAX_AUTHORITY_CONTRADICTIONS any (contradiction_refs r).

#[export] Instance r_reconstruction_reads : Reads authority_fits authority_bytes r_reconstruction.
Proof.
  intros b r rest. unfold r_reconstruction, authority_bytes. split.
  - intros H. read_fields H. injection H as <- <-. rewrite <- !app_assoc. by split; [split_and!|].
  - intros [(H1 & H2 & H3 & H4 & H5) ->]. rewrite <- !app_assoc.
    fold (authenticity_of_byte (snapshot_authenticity r)). fold (completeness_of_byte (source_completeness r)).
    destruct r. read_back; try assumption; field_bounds.
Qed.

(** Widths and UTF-8 text. *)
Definition authority_typed (r : AuthorityReconstruction) : Prop :=
  (ar_evaluation_time r <= u64_max)%N /\ is_utf8 (inference_method r) = true /\
  Forall (fun l => effective_from l <= u64_max /\ effective_until l <= u64_max)%N (links r).

Lemma authority_field_ok l f : authority_field l f = Ok tt <-> sized MAX_AUTHORITY_FIELD_BYTES l.
Proof.
  unfold authority_field, bad_bytes, sized.
  destruct (N.eqb_spec (blen l) 0), (N.ltb_spec MAX_AUTHORITY_FIELD_BYTES (blen l)); cbn; split; intros; try done; lia.
Qed.

Lemma sized_vec max l : sized max l -> (max <= u32_max)%N -> vec_ok max l.
Proof. unfold sized, vec_ok. lia. Qed.

Lemma link_validate_ok l : link_validate l = Ok tt <->
  (sized MAX_AUTHORITY_FIELD_BYTES (al_issuer_identity l) /\ sized MAX_AUTHORITY_FIELD_BYTES (subject_identity l) /\
   sized MAX_AUTHORITY_FIELD_BYTES (al_authority_domain l)) /\
  (effective_from l < effective_until l)%N /\ scope_digest l <> zero32.
Proof.
  unfold link_validate. rewrite !bind_unit_ok, !authority_field_ok, guard_err_ok, orb_false_iff, N.leb_gt, zero_false.
  tauto.
Qed.

(** What validation promises of a reconstruction. *)
Record authority_ok (r : AuthorityReconstruction) : Prop := {
  au_registry : ar_registry_id r = AUTHORITY_RECONSTRUCTION_REGISTRY_ID;
  au_time : ar_evaluation_time r <> 0%N;
  au_snapshot : source_snapshot_digest r <> zero32;
  au_method : authority_text (inference_method r) "inference_method" = Ok tt;
  au_links : (0 < blen (links r) <= MAX_AUTHORITY_LINKS)%N;
  au_each : Forall (fun l => link_validate l = Ok tt) (links r);
  au_sorted : bset_ok (link_key <$> links r);
  au_refs : (blen (contradiction_refs r) <= MAX_AUTHORITY_CONTRADICTIONS)%N;
  au_refs_sorted : bset_ok (contradiction_refs r)
}.

Lemma authority_validate_ok r : authority_validate r = Ok tt <-> authority_ok r.
Proof.
  unfold authority_validate. rewrite !guard_err_ok, bind_unit_ok, guard_err_ok, bind_unit_ok, !guard_err_ok.
  rewrite !orb_false_iff, negb_false_iff, bool_decide_eq_true, !N.eqb_neq, !N.ltb_ge, zero_false, !not_increasing_spec.
  rewrite try_each_ok. split.
  - intros (((Hr & Ht) & Hs) & Hm & (Hn & Hl) & He & Ho & (Hc & Hco) & _). split; try done. lia.
  - intros []. split_and!; try done; lia.
Qed.

Lemma authority_ok_fits r : authority_typed r -> authority_ok r -> authority_fits r.
Proof.
  intros (Ht & Hm & Hl) []. unfold authority_text in au_method0. apply bind_unit_ok in au_method0 as [Hs _].
  apply authority_field_ok in Hs. unfold authority_fits. split_and!.
  - rewrite au_registry0. by vm_compute.
  - done.
  - split; [done|]. by apply sized_vec.
  - unfold count_ok, MAX_AUTHORITY_LINKS, u32_max in *. split; [lia|].
    rewrite Forall_forall in *. intros l Hin. specialize (au_each0 l Hin). apply link_validate_ok in au_each0.
    destruct au_each0 as ((? & ? & ?) & _). destruct (Hl l Hin). split_and!; try done; by apply sized_vec.
  - unfold count_ok, MAX_AUTHORITY_CONTRADICTIONS, u32_max in *. split; [lia|]. by apply Forall_true.
Qed.

(** Decoding a reconstruction accepts exactly the canonical encodings of valid ones. *)
Theorem authority_codec_exact (b : bytes) (r : AuthorityReconstruction) :
  authority_from_canonical_bytes b = Ok r <-> authority_typed r /\ authority_canonical_bytes r = Ok b.
Proof.
  unfold authority_from_canonical_bytes. split.
  - intros H. read_field H. destruct Hp as (_ & Ht & [Hm _] & [_ Hl] & _). rewrite !bind_unit_ok, bind_ok, finish_ok in H.
    destruct H as (-> & Hv & c & Hb & H). rewrite guard_err_ok in H. destruct H as [He [= <-]].
    apply negb_false_iff, bool_decide_eq_true in He. split; [|by rewrite <- He, Hb].
    split; [done|]. split; [done|]. eapply Forall_impl; [exact Hl|]. intros l (_ & _ & _ & ? & ?). done.
  - intros [Ht Hb]. pose proof Hb as Hb'. unfold authority_canonical_bytes in Hb.
    rewrite bind_unit_ok in Hb. destruct Hb as [Hv Hb]. injection Hb as Hb.
    rewrite <- (app_nil_r b), <- Hb at 1. erewrite (reads_app _ authority_bytes r_reconstruction).
    + cbn [finish mbind result_bind]. rewrite Hv, Hb'. cbn [mbind result_bind]. by rewrite bool_decide_true.
    + apply authority_ok_fits; [done|]. by apply authority_validate_ok.
Qed.

(** ** Delegations *)

(** [p] delegates to [l]. *)
Record delegates (p l : AuthorityLink) : Prop := {
  dg_identity : subject_identity p = al_issuer_identity l;
  dg_domain : al_authority_domain p = al_authority_domain l;
  dg_interval : (effective_from p <= effective_from l /\ effective_until l <= effective_until p)%N;
  dg_scope : scope_digest p = scope_digest l
}.

(** A link is reached from a root of the list by so many delegations. *)
Inductive delegated (ls : list AuthorityLink) : nat -> AuthorityLink -> Prop :=
| at_root l : l ∈ ls -> parent_mandate_id l = None -> delegated ls 0 l
| below n p l : l ∈ ls -> parent_mandate_id l = Some (al_mandate_id p) -> delegates p l ->
    delegated ls n p -> delegated ls (S n) l.

Record authority_sound (r : AuthorityReconstruction) : Prop := {
  as_valid : authority_ok r;
  as_ids : NoDup (al_mandate_id <$> links r);
  as_root : exists root, root ∈ links r /\ parent_mandate_id root = None /\
              forall l, l ∈ links r -> parent_mandate_id l = None -> l = root;
  as_delegated : forall l, l ∈ links r -> exists n, delegated (links r) n l;
  as_verified : snapshot_authenticity r = Verified /\ forall l, l ∈ links r -> al_authenticity l = Verified;
  as_effective : forall l, l ∈ links r -> (effective_from l <= ar_evaluation_time r < effective_until l)%N;
  as_complete : source_completeness r = Complete;
  as_uncontradicted : contradiction_refs r = []
}.

Lemma delegated_in ls n l : delegated ls n l -> l ∈ ls.
Proof. by destruct 1. Qed.

Section Links.
Context (ls : list AuthorityLink).

Lemma conflicting_false : authority_has_conflicting_parents ls = false <->
  forall i j a b, i < j -> ls !! i = Some a -> ls !! j = Some b -> al_mandate_id b = al_mandate_id a ->
    parent_mandate_id b = parent_mandate_id a.
Proof.
  clear. induction ls as [|l rest IH]; cbn [authority_has_conflicting_parents].
  - split; [|done]. intros _ i j a b _ Ha. by rewrite lookup_nil in Ha.
  - rewrite orb_false_iff, IH, existsb_false, Forall_forall. split.
    + intros [Hx H] [|i] [|j] a b Hij Ha Hb Hid; try lia.
      * injection Ha as <-. cbn in Hb. apply list_elem_of_lookup_2 in Hb. specialize (Hx b Hb).
        cbn beta in Hx. rewrite bool_decide_true in Hx by done. cbn in Hx. by apply negb_false_iff, bool_decide_eq_true in Hx.
      * apply (H i j); [lia|done|done|done].
    + intros H. split.
      * intros b Hb. apply list_elem_of_lookup in Hb as [j Hj]. apply andb_false_iff. case_bool_decide; [right|by left].
        apply negb_false_iff, bool_decide_eq_true. apply (H 0 (S j) l b); [lia|done|done|done].
      * intros i j a b Hij Ha Hb. apply (H (S i) (S j)); [lia|done|done].
Qed.

(** Keys in strict order and no conflicting parents leave one link per identifier. *)
Lemma ids_distinct :
  bset_ok (link_key <$> ls) -> authority_has_conflicting_parents ls = false -> NoDup (al_mandate_id <$> ls).
Proof.
  rewrite conflicting_false. intros Hs Hc. apply NoDup_alt. intros i j x Hi Hj.
  rewrite list_lookup_fmap in Hi, Hj. destruct (ls !! i) as [a|] eqn:Ha; [|done].
  destruct (ls !! j) as [b|] eqn:Hb; [|done]. injection Hi as Hx. injection Hj as Hy. subst x.
  apply bset_ok_NoDup in Hs. apply (NoDup_lookup (link_key <$> ls) i j (link_key a) Hs); rewrite list_lookup_fmap.
  - by rewrite Ha.
  - rewrite Hb. cbn. f_equal. unfold link_key. f_equal; [done|].
    destruct (lt_eq_lt_dec i j) as [[Hlt| ->]|Hlt].
    + by rewrite (Hc i j a b Hlt Ha Hb Hy).
    + congruence.
    + by rewrite (Hc j i b a Hlt Hb Ha (eq_sym Hy)).
Qed.

Context (Hids : NoDup (al_mandate_id <$> ls)).

Lemma link_unique a b : a ∈ ls -> b ∈ ls -> al_mandate_id a = al_mandate_id b -> a = b.
Proof.
  intros [i Hi]%list_elem_of_lookup [j Hj]%list_elem_of_lookup He.
  assert (i = j) as <-; [|congruence].
  apply (NoDup_lookup (al_mandate_id <$> ls) i j (al_mandate_id a) Hids); rewrite list_lookup_fmap.
  - by rewrite Hi.
  - by rewrite Hj, He.
Qed.

Lemma find_link_spec id l : find_link ls id = Some l <-> l ∈ ls /\ al_mandate_id l = id.
Proof.
  unfold find_link. split.
  - intros [Hin Hb]%find_some. apply bool_decide_eq_true in Hb. split; [by apply list_elem_of_In|done].
  - intros [Hin Hid]. destruct (List.find _ ls) as [l'|] eqn:Hf.
    + apply find_some in Hf as [Hin' Hb]. apply bool_decide_eq_true in Hb. f_equal.
      apply link_unique; [by apply list_elem_of_In|done|congruence].
    + apply list_elem_of_In in Hin. pose proof (find_none _ _ Hf l Hin) as Hn. cbn in Hn.
      by rewrite bool_decide_true in Hn.
Qed.

Lemma no_conflicts : authority_has_conflicting_parents ls = false.
Proof.
  apply conflicting_false. intros i j a b _ Ha Hb He.
  assert (a = b) as ->; [|done]. apply link_unique; [by eapply list_elem_of_lookup_2|by eapply list_elem_of_lookup_2|done].
Qed.

(** A chain has one depth. *)
Lemma depth_unique n m a b :
  delegated ls n a -> delegated ls m b -> al_mandate_id a = al_mandate_id b -> n = m.
Proof.
  intros Ha. revert m b. induction Ha as [a Hin Hp|n p a Hin Hp Hd Hn IH]; intros m b Hb He;
    assert (a = b) as <- by (by apply link_unique; [|by apply (delegated_in ls m)|]);
    inversion Hb; subst; try congruence.
  f_equal. apply (IH n0 p0); [done|]. congruence.
Qed.

(** The walk to the root does not meet what is further from it. *)
Lemma follow_no_cycle fuel n l visited :
  delegated ls n l ->
  (forall id, id ∈ visited -> exists k a, delegated ls k a /\ al_mandate_id a = id /\ n < k) ->
  follow_parents ls fuel (Some (al_mandate_id l)) visited <> Some true.
Proof.
  revert n l visited. induction fuel as [|fuel IH]; intros n l visited Hd Hv; [done|]. cbn [follow_parents].
  case_bool_decide as Hin.
  - destruct (Hv _ Hin) as (k & a & Hk & He & Hlt). assert (k = n) by (by eapply depth_unique). lia.
  - rewrite (proj2 (find_link_spec _ l)) by (by split; [apply (delegated_in ls n)|]). cbn [mbind option_bind].
    destruct Hd as [l Hl Hp|n p l Hl Hp Hdel Hn]; rewrite Hp; [by destruct fuel|].
    apply (IH n); [done|]. intros id [Hid| ->%list_elem_of_singleton]%elem_of_app.
    + destruct (Hv id Hid) as (k & a & ? & ? & ?). exists k, a. split_and!; [done|done|lia].
    + exists (S n), l. split_and!; [by econstructor|done|lia].
Qed.

(** The loop stops: it leaves the links after visiting each of them once. *)
Lemma follow_stops fuel current visited :
  NoDup visited -> visited ⊆ (al_mandate_id <$> ls) -> S (length ls) <= fuel + length visited ->
  follow_parents ls fuel current visited <> None.
Proof.
  revert current visited. induction fuel as [|fuel IH]; intros current visited Hn Hs Hl.
  - pose proof (submseteq_length _ _ (NoDup_submseteq _ _ Hn Hs)) as Hle. rewrite length_fmap in Hle. lia.
  - destruct current as [id|]; [|done]. cbn [follow_parents]. case_bool_decide as Hin; [done|].
    destruct (find_link ls id) as [l|] eqn:Hf; [|by destruct fuel].
    apply find_link_spec in Hf as [Hl' He]. apply IH.
    + apply NoDup_app. split_and!; [done| |by apply NoDup_singleton]. intros x Hx ->%list_elem_of_singleton. done.
    + intros x [Hx|Hx%list_elem_of_singleton]%elem_of_app; [by apply Hs|]. subst x.
      apply list_elem_of_fmap. by exists l.
    + rewrite length_app. cbn. lia.
Qed.

Lemma no_cycle :
  (forall l, l ∈ ls -> exists n, delegated ls n l) -> authority_has_cycle ls = false.
Proof.
  intros Hd. unfold authority_has_cycle. apply existsb_false, Forall_forall. intros l Hl.
  destruct (Hd l Hl) as [n Hn].
  destruct (follow_parents ls (follow_fuel ls) (Some (al_mandate_id l)) []) as [[]|] eqn:Hf; [|done|done].
  exfalso. eapply (follow_no_cycle _ n l []); [done| |done]. intros id Hid. by apply not_elem_of_nil in Hid.
Qed.

(** A link whose check passes has a parent that delegates to it, or none. *)
Lemma check_delegation_ok l : check_delegation ls l = Ok tt <->
  parent_mandate_id l = None \/
  exists p, p ∈ ls /\ parent_mandate_id l = Some (al_mandate_id p) /\ delegates p l.
Proof.
  unfold check_delegation. destruct (parent_mandate_id l) as [pid|]; [|by split; [left|]].
  destruct (find_link ls pid) as [p|] eqn:Hf.
  - apply find_link_spec in Hf as [Hin <-].
    rewrite guard_err_ok, !orb_false_iff, !negb_false_iff, !bool_decide_eq_true, !N.ltb_ge. split.
    + intros (((((? & ?) & ?) & ?) & ?) & _). right. exists p. by split_and!.
    + intros [?|(q & Hq & [= Heq] & [])]; [done|]. assert (p = q) as <- by (by apply link_unique).
      by destruct dg_interval0.
  - split; [done|]. intros [?|(p & Hin & [= ->] & _)]; [done|].
    assert (Hs : find_link ls (al_mandate_id p) = Some p) by (by apply find_link_spec). congruence.
Qed.

Lemma follow_delegated fuel l visited :
  (forall x, x ∈ ls -> check_delegation ls x = Ok tt) -> l ∈ ls ->
  follow_parents ls fuel (Some (al_mandate_id l)) visited = Some false -> exists n, delegated ls n l.
Proof.
  intros Hall. revert l visited. induction fuel as [|fuel IH]; intros l visited Hl Hf; [done|].
  cbn [follow_parents] in Hf. case_bool_decide; [done|].
  rewrite (proj2 (find_link_spec _ l)) in Hf by done. cbn [mbind option_bind] in Hf.
  destruct (proj1 (check_delegation_ok l) (Hall l Hl)) as [Hp|(p & Hin & Hp & Hd)].
  - exists 0. by constructor.
  - rewrite Hp in Hf. apply IH in Hf as [n Hn]; [|done]. exists (S n). by eapply below.
Qed.

Lemma one_root : length (List.filter no_parent ls) = 1 <->
  exists root, root ∈ ls /\ parent_mandate_id root = None /\
    forall l, l ∈ ls -> parent_mandate_id l = None -> l = root.
Proof.
  assert (Hf : forall l, l ∈ List.filter no_parent ls <-> l ∈ ls /\ parent_mandate_id l = None).
  { intros l. rewrite !list_elem_of_In, filter_In. unfold no_parent. destruct (parent_mandate_id l); naive_solver. }
  split.
  - intros H. destruct (List.filter no_parent ls) as [|root [|]] eqn:He; try done.
    exists root. destruct (proj1 (Hf root)) as [? ?]; [by left|]. split_and!; [done|done|].
    intros l Hl Hp. by apply list_elem_of_singleton, Hf.
  - intros (root & Hin & Hp & Hu).
    assert (Hn : NoDup (List.filter no_parent ls)).
    { apply NoDup_ListNoDup, List.NoDup_filter, NoDup_ListNoDup. by eapply NoDup_fmap_1. }
    destruct (List.filter no_parent ls) as [|a [|b k]].
    + by assert (root ∈ []) as ?%not_elem_of_nil by (by apply Hf).
    + done.
    + exfalso. apply NoDup_cons in Hn as [Hn _]. apply Hn.
      destruct (proj1 (Hf a)) as [Ha Hap]; [by left|]. destruct (proj1 (Hf b)) as [Hb Hbp]; [by right; left|].
      rewrite (Hu a Ha Hap), (Hu b Hb Hbp). by left.
Qed.
End Links.

Lemma has_authenticity_false a r :
  has_authenticity a r = false <-> snapshot_authenticity r <> a /\ forall l, l ∈ links r -> al_authenticity l <> a.
Proof.
  unfold has_authenticity. rewrite orb_false_iff, bool_decide_eq_false, existsb_false, Forall_forall.
  by setoid_rewrite bool_decide_eq_false.
Qed.

Lemma check_delegation_err ls l e : check_delegation ls l = Err e -> conclusion e <> Compatible.
Proof.
  unfold check_delegation, guard_err. intros H. repeat case_match; simplify_eq; done.
Qed.

Lemma evaluation_checks_err r e : evaluation_checks r = Err e -> conclusion e <> Compatible.
Proof.
  unfold evaluation_checks. rewrite !guard_err_err.
  intros H. repeat (destruct H as [[_ <-]|[_ H]]; [done|]).
  destruct (try_each _ _) as [[]|e'] eqn:Ht; cbn [mbind result_bind] in H.
  - rewrite !guard_err_err in H. repeat (destruct H as [[_ <-]|[_ H]]; [done|]). done.
  - injection H as ->. apply try_each_err in Ht as (? & l & ? & _ & _ & Hl). by eapply check_delegation_err.
Qed.

Lemma is_ok_unit {E} (r : result E unit) : is_ok r = true <-> r = Ok tt.
Proof. by destruct r as [[]|]. Qed.

Lemma link_effective r :
  existsb (fun l => (ar_evaluation_time r <? effective_from l)%N || (effective_until l <=? ar_evaluation_time r)%N)
    (links r) = false
  <-> forall l, l ∈ links r -> (effective_from l <= ar_evaluation_time r < effective_until l)%N.
Proof.
  rewrite existsb_false, Forall_forall. setoid_rewrite orb_false_iff. setoid_rewrite N.ltb_ge.
  by setoid_rewrite N.leb_gt.
Qed.

(** The checks, one by one. *)
Lemma evaluation_checks_ok r : evaluation_checks r = Ok tt <-> authority_sound r.
Proof.
  unfold evaluation_checks. rewrite !guard_err_ok, bind_unit_ok, !guard_err_ok, !negb_false_iff, is_ok_unit.
  rewrite authority_validate_ok, Nat.eqb_eq, !has_authenticity_false, link_effective, try_each_ok, Forall_forall.
  rewrite !bool_decide_eq_true. split.
  - intros (Hv & Hc & Hcy & Hr & [Hs Hl] & He & Hd & Hco & [Hs' Hl'] & Hct & _).
    pose proof (ids_distinct _ (au_sorted _ Hv) Hc) as Hids. split; try done.
    + by apply one_root.
    + intros l Hin. unfold authority_has_cycle in Hcy. rewrite existsb_false, Forall_forall in Hcy.
      specialize (Hcy l Hin). destruct (follow_parents _ _ _ _) as [[]|] eqn:Hf; [done|by eapply follow_delegated|].
      exfalso. revert Hf. apply (follow_stops (links r) Hids); [constructor|by intros ? ?%not_elem_of_nil|cbn; unfold follow_fuel; lia].
    + split; [by destruct (snapshot_authenticity r)|]. intros l Hin. specialize (Hl l Hin). specialize (Hl' l Hin).
      by destruct (al_authenticity l).
  - intros [Hv Hids Hr Hd [Hs Hl] He Hco Hct]. split_and!; try done.
    + by apply no_conflicts.
    + by apply no_cycle.
    + by apply one_root.
    + by rewrite Hs.
    + intros l Hin. by rewrite (Hl l Hin).
    + intros l Hin. destruct (Hd l Hin) as [n Hn]. apply check_delegation_ok; [done|].
      destruct Hn as [l _ Hp|n p l _ Hp Hdel Hn]; [by left|]. right. exists p. split; [by eapply delegated_in|done].
    + by rewrite Hs.
    + intros l Hin. by rewrite (Hl l Hin).
Qed.

(** C25: A reconstruction is judged compatible exactly when it is sound: valid, one link per
    mandate, exactly one root, every link reached from it by delegations that stay within
    identity, domain, interval and scope, every link effective at the time asked about,
    the snapshot and every link verified, the source complete and nothing contradicting
    it.  The search for cycles always ends. *)
Theorem authority_compatible_exact (r : AuthorityReconstruction) :
  (evaluate_authority_reconstruction r = mkEvaluation Compatible ChainCompatible <-> authority_sound r) /\
  (NoDup (al_mandate_id <$> links r) ->
   forall start, follow_parents (links r) (follow_fuel (links r)) start [] <> None).
Proof.
  split; [|intros Hn start; apply follow_stops; [done|constructor|by intros ? ?%not_elem_of_nil|unfold follow_fuel; cbn; lia]].
  unfold evaluate_authority_reconstruction. rewrite <- evaluation_checks_ok.
  destruct (evaluation_checks r) as [[]|e] eqn:He; [done|]. split; [|done]. intros ->.
  by apply evaluation_checks_err in He.
Qed.
