(* ===== verification/Intent.v ===== *)
(** * Action intents and their profiles (csv-accountability: intent.rs, profile.rs, registry.rs)

    An intent is a generic envelope around the bytes of a profile: a GitHub deployment, a
    database migration or a payment.  A registered codec re-derives the target and the
    parameters commitment from those bytes.  The codecs of the three profiles are exact,
    and an intent verifies exactly when it is the envelope its profile bytes determine. *)

From S2P Require Import Prelude Ord Bytes Hashing Text Accountability Codec Decode Mandate Evidence.

Definition MAX_DISPLAY_BYTES : N := 255.
Definition MAX_CONTEXT_COMMITMENTS : N := 32.
Definition MAX_REQUIRED_CONTEXTS : N := 32.
Definition MAX_IDENTITY_BYTES : N := 4096.
Definition MAX_PROFILE_ID_BYTES : N := 128.
Definition GITHUB_DEPLOYMENT_TASK_V1 : string := "deploy".

Inductive IntentError :=
| EmptyField (field : string) | DisplayFieldTooLong (field : string) | InvalidCommitSha | TargetMismatch
| ParametersCommitmentMismatch | UnsupportedTask | AutoMergeForbidden | InvalidEnvironmentClassification
| InvalidRequiredContexts | TooManyContextCommitments | IntentUnsupportedVersion | InvalidStableId
| IdentityTooLong | GatePolicyMismatch | InvalidEvidenceSourceDeclaration | InvalidProfileId
| MalformedProfileBytes | UnregisteredProfile | DuplicateProfile.

(** ** Profiles (profile.rs) *)

Notation ProfileId := string.
Notation EvidenceSourceId := string.

Definition is_stable_identifier (s : string) : bool :=
  negb (slen s =? 0)%N && (slen s <=? MAX_PROFILE_ID_BYTES)%N &&
  forallb (fun b => let n := Byte.to_N b in in_range 97 122 n || in_range 48 57 n || (n =? 46)%N || (n =? 45)%N)
    (as_bytes s).
(** [ProfileId::new] *)
Definition ProfileId_new (s : string) : result IntentError ProfileId :=
  if is_stable_identifier s then Ok s else Err InvalidProfileId.

Inductive EvidenceSourceClass := Executor | ProviderCorroborating | ExternalAnchor.
Definition is_corroborating (c : EvidenceSourceClass) : bool :=
  match c with ProviderCorroborating | ExternalAnchor => true | Executor => false end.
Definition is_executor (c : EvidenceSourceClass) : bool := match c with Executor => true | _ => false end.
Record EvidenceSourceDecl := mkDecl { decl_id : EvidenceSourceId; decl_class : EvidenceSourceClass }.

Inductive QuarantineReleaseRule :=
| NeverReleasable | RuleProfileDefined (policy_id : string) (policy_digest : Bytes32).

Record ProfileDescriptor := mkDescriptor {
  profile_id : ProfileId;
  action_type : string;
  parameters_media_type : string;
  parameters_domain_tag : bytes;
  evidence_sources : list EvidenceSourceDecl;
  quarantine_release : QuarantineReleaseRule;
  max_context_commitments : N;
  max_identity_bytes : N
}.

Fixpoint duplicate_source (l : list EvidenceSourceDecl) : bool :=
  match l with
  | [] => false
  | d :: l' => existsb (fun o => bool_decide (decl_id o = decl_id d)) l' || duplicate_source l'
  end.
Definition descriptor_validate (d : ProfileDescriptor) : result IntentError unit :=
  reject negb (is_stable_identifier (profile_id d)) with InvalidProfileId;;
  reject existsb (fun s => negb (is_stable_identifier (decl_id s))) (evidence_sources d) with InvalidProfileId;;
  reject bool_decide (evidence_sources d = []) with InvalidEvidenceSourceDeclaration;;
  reject duplicate_source (evidence_sources d)
         || negb (existsb (fun s => is_executor (decl_class s)) (evidence_sources d))
         || negb (existsb (fun s => is_corroborating (decl_class s)) (evidence_sources d))
    with InvalidEvidenceSourceDeclaration;;
  Ok tt.

(** [trait ProfileCodec] *)
Record ProfileCodec := mkCodec {
  descriptor : ProfileDescriptor;
  validate_canonical_bytes : bytes -> result IntentError bytes
}.

(** ** Fields the profiles share *)

Definition bad_display (max : N) (s : string) : bool :=
  (max <? slen s)%N || negb (is_trimmed s) || existsb is_control (chars s).
(** The loop over the named fields *)
Definition display_field (max : N) (field : string) (value : string) : result IntentError unit :=
  reject (slen value =? 0)%N with EmptyField field;;
  reject bad_display max value with DisplayFieldTooLong field;;
  Ok tt.

(** [Cursor] *)
Definition i_u8 := read_u8 MalformedProfileBytes.
Definition i_u16 := read_u16_le MalformedProfileBytes.
Definition i_u32 := read_u32_le MalformedProfileBytes.
Definition i_u64 := read_u64_le MalformedProfileBytes.
Definition i_hash := read_b32 MalformedProfileBytes.
Definition i_string := read_string MalformedProfileBytes (read_sized MalformedProfileBytes MalformedProfileBytes).

(** ** GitHub deployments *)

Inductive RequiredContexts := AllSubmitted | ExplicitNonEmpty (contexts : list string).

(** [RequiredContexts::explicit] *)
Definition explicit (contexts : list string) : result IntentError RequiredContexts :=
  reject bool_decide (contexts = []) || (MAX_REQUIRED_CONTEXTS <? blen contexts)%N
         || existsb (bad_text MAX_DISPLAY_BYTES) contexts || not_increasing contexts with InvalidRequiredContexts;;
  Ok (ExplicitNonEmpty contexts).

Definition contexts_bytes (c : RequiredContexts) : bytes :=
  match c with
  | AllSubmitted => one Byte.x00
  | ExplicitNonEmpty contexts => one Byte.x01 ++ encode_list encode_string contexts
  end.

Record GitHubDeploymentIntentV1 := mkGitHub {
  repository_id : N;
  repository_owner : string;
  repository_name : string;
  commit_sha : string;
  exact_ref : string;
  gh_environment_id : N;
  gh_environment_name : string;
  required_contexts : RequiredContexts;
  payload_commitment : Bytes32;
  artifact_digest : option Bytes32;
  deployment_gate_policy_digest : Bytes32
}.

Definition is_full_lower_hex_sha (s : string) : bool :=
  (slen s =? 40)%N &&
  forallb (fun b => let n := Byte.to_N b in in_range 48 57 n || in_range 97 102 n) (as_bytes s).

Definition github_stable_target (p : GitHubDeploymentIntentV1) : bytes :=
  u64_be (repository_id p) ++ u64_be (gh_environment_id p).

Definition github_bytes (p : GitHubDeploymentIntentV1) : bytes :=
  u16_le ACCOUNTABILITY_OBJECT_VERSION ++ u64_le (repository_id p) ++ encode_string (repository_owner p) ++
  encode_string (repository_name p) ++ encode_string (commit_sha p) ++ encode_string (exact_ref p) ++
  encode_string GITHUB_DEPLOYMENT_TASK_V1 ++ u64_le (gh_environment_id p) ++
  encode_string (gh_environment_name p) ++ contexts_bytes (required_contexts p) ++ one Byte.x00 ++
  b32 (payload_commitment p) ++ one Byte.x01 ++ one Byte.x00 ++ push_option b32 (artifact_digest p) ++
  b32 (deployment_gate_policy_digest p).

Definition i_contexts (b : bytes) : result IntentError (RequiredContexts * bytes) :=
  '(t, b) ← i_u8 b;
  match t with
  | Byte.x00 => Ok (AllSubmitted, b)
  | Byte.x01 =>
      '(contexts, b) ← read_counted i_u32 MAX_REQUIRED_CONTEXTS InvalidRequiredContexts i_string b;
      c ← explicit contexts; Ok (c, b)
  | _ => Err MalformedProfileBytes
  end.

(** A byte that must have one value *)
Definition expect (value : byte) (e : IntentError) (b : bytes) : result IntentError (unit * bytes) :=
  '(t, b) ← i_u8 b;
  reject negb (bool_decide (t = value)) with e;;
  Ok (tt, b).

Section GitHub.
Variable sha256 : bytes -> Bytes32.

Definition gate_domain : string := "csv.accountability.gate-profile.v1".
(** [RequiredContexts::gate_policy_id] *)
Definition gate_policy_id (c : RequiredContexts) : result IntentError Bytes32 :=
  _ ← match c with ExplicitNonEmpty contexts => explicit contexts | AllSubmitted => Ok AllSubmitted end;
  Ok (domain_hash_multiple sha256 gate_domain [as_bytes "required-contexts-v1"; contexts_bytes c]).

(** [GitHubDeploymentIntentV1::validate] *)
Definition github_validate (p : GitHubDeploymentIntentV1) : result IntentError unit :=
  reject (repository_id p =? 0)%N || (gh_environment_id p =? 0)%N with InvalidStableId;;
  _ ← display_field MAX_DISPLAY_BYTES "repository_owner" (repository_owner p);
  _ ← display_field MAX_DISPLAY_BYTES "repository_name" (repository_name p);
  _ ← display_field MAX_DISPLAY_BYTES "environment_name" (gh_environment_name p);
  reject negb (is_full_lower_hex_sha (commit_sha p)) || negb (bool_decide (exact_ref p = commit_sha p))
    with InvalidCommitSha;;
  _ ← match required_contexts p with
      | ExplicitNonEmpty contexts => _ ← explicit contexts; Ok tt
      | AllSubmitted => Ok tt
      end;
  policy ← gate_policy_id (required_contexts p);
  reject negb (bool_decide (deployment_gate_policy_digest p = policy)) with GatePolicyMismatch;;
  Ok tt.
Definition github_canonical_bytes (p : GitHubDeploymentIntentV1) : result IntentError bytes :=
  _ ← github_validate p; Ok (github_bytes p).

(** The fields of [GitHubDeploymentIntentV1::from_canonical_bytes] *)
Definition i_github (b : bytes) : result IntentError (GitHubDeploymentIntentV1 * bytes) :=
  '(version, b) ← i_u16 b;
  reject negb (version =? ACCOUNTABILITY_OBJECT_VERSION)%N with IntentUnsupportedVersion;;
  '(repository, b) ← i_u64 b;
  '(owner, b) ← i_string b;
  '(name, b) ← i_string b;
  '(sha, b) ← i_string b;
  '(ref, b) ← i_string b;
  '(task, b) ← i_string b;
  reject negb (bool_decide (task = GITHUB_DEPLOYMENT_TASK_V1)) with UnsupportedTask;;
  '(environment, b) ← i_u64 b;
  '(environment_name, b) ← i_string b;
  '(contexts, b) ← i_contexts b;
  '(_, b) ← expect Byte.x00 AutoMergeForbidden b;
  '(payload, b) ← i_hash b;
  '(_, b) ← expect Byte.x01 InvalidEnvironmentClassification b;
  '(_, b) ← expect Byte.x00 InvalidEnvironmentClassification b;
  '(artifact, b) ← read_opt MalformedProfileBytes MalformedProfileBytes i_hash b;
  '(policy, b) ← i_hash b;
  Ok (mkGitHub repository owner name sha ref environment environment_name contexts payload artifact policy, b).
Definition github_from_canonical_bytes (input : bytes) : result IntentError GitHubDeploymentIntentV1 :=
  '(p, b) ← i_github input;
  _ ← finish MalformedProfileBytes b;
  _ ← github_validate p;
  canonical ← github_canonical_bytes p;
  reject negb (bool_decide (canonical = input)) with MalformedProfileBytes;;
  Ok p.
End GitHub.

(** ** Database migrations *)

Inductive MigrationDirection := Forward | Rollback.
Definition direction_tag (d : MigrationDirection) : byte := match d with Forward => Byte.x00 | Rollback => Byte.x01 end.
Definition direction_from_tag (b : byte) : option MigrationDirection :=
  match b with Byte.x00 => Some Forward | Byte.x01 => Some Rollback | _ => None end.
Definition direction_bytes (d : MigrationDirection) : bytes := one (direction_tag d).
(** [u8::from(b)] and its inverse *)
Definition flag_tag (b : bool) : byte := if b then Byte.x01 else Byte.x00.
Definition flag_from_tag (b : byte) : option bool :=
  match b with Byte.x00 => Some false | Byte.x01 => Some true | _ => None end.
Definition flag_bytes (b : bool) : bytes := one (flag_tag b).

Definition MAX_MIGRATION_ID_BYTES : N := 255.

Record DbMigrationIntentV1 := mkMigration {
  database_id : N;
  database_name : string;
  db_environment_id : N;
  db_environment_name : string;
  migration_id : string;
  migration_digest : Bytes32;
  direction : MigrationDirection;
  allow_destructive : bool;
  statement_count : N;
  change_ticket : string
}.

Definition migration_validate (p : DbMigrationIntentV1) : result IntentError unit :=
  reject (database_id p =? 0)%N || (db_environment_id p =? 0)%N with InvalidStableId;;
  _ ← display_field MAX_DISPLAY_BYTES "database_name" (database_name p);
  _ ← display_field MAX_DISPLAY_BYTES "environment_name" (db_environment_name p);
  _ ← display_field MAX_DISPLAY_BYTES "change_ticket" (change_ticket p);
  _ ← display_field MAX_MIGRATION_ID_BYTES "migration_id" (migration_id p);
  reject zero (migration_digest p) with EmptyField "migration_digest";;
  reject (statement_count p =? 0)%N with EmptyField "statement_count";;
  Ok tt.
Definition migration_stable_target (p : DbMigrationIntentV1) : bytes :=
  u64_be (database_id p) ++ u64_be (db_environment_id p).
Definition migration_bytes (p : DbMigrationIntentV1) : bytes :=
  u16_le ACCOUNTABILITY_OBJECT_VERSION ++ u64_le (database_id p) ++ encode_string (database_name p) ++
  u64_le (db_environment_id p) ++ encode_string (db_environment_name p) ++ encode_string (migration_id p) ++
  b32 (migration_digest p) ++ direction_bytes (direction p) ++ flag_bytes (allow_destructive p) ++
  u32_le (statement_count p) ++ encode_string (change_ticket p).
Definition migration_canonical_bytes (p : DbMigrationIntentV1) : result IntentError bytes :=
  _ ← migration_validate p; Ok (migration_bytes p).

Definition i_direction := read_tag MalformedProfileBytes MalformedProfileBytes direction_from_tag.
Definition i_flag := read_tag MalformedProfileBytes MalformedProfileBytes flag_from_tag.
Definition i_migration (b : bytes) : result IntentError (DbMigrationIntentV1 * bytes) :=
  '(version, b) ← i_u16 b;
  reject negb (version =? ACCOUNTABILITY_OBJECT_VERSION)%N with IntentUnsupportedVersion;;
  '(database, b) ← i_u64 b;
  '(name, b) ← i_string b;
  '(environment, b) ← i_u64 b;
  '(environment_name, b) ← i_string b;
  '(id, b) ← i_string b;
  '(digest, b) ← i_hash b;
  '(d, b) ← i_direction b;
  '(destructive, b) ← i_flag b;
  '(count, b) ← i_u32 b;
  '(ticket, b) ← i_string b;
  Ok (mkMigration database name environment environment_name id digest d destructive count ticket, b).
Definition migration_from_canonical_bytes (input : bytes) : result IntentError DbMigrationIntentV1 :=
  '(p, b) ← i_migration input;
  _ ← finish MalformedProfileBytes b;
  _ ← migration_validate p;
  canonical ← migration_canonical_bytes p;
  reject negb (bool_decide (canonical = input)) with MalformedProfileBytes;;
  Ok p.

(** ** Payments *)

Definition MAX_PAYMENT_ID_BYTES : N := 255.

Record PaymentIntentV1 := mkPayment {
  payer_id : string;
  merchant_id : string;
  recipient_account_digest : Bytes32;
  amount_minor : N;
  cap_minor : N;
  currency : string;
  pay_expires_at : N;
  payment_reference : string
}.

Definition payment_validate (p : PaymentIntentV1) : result IntentError unit :=
  _ ← display_field MAX_PAYMENT_ID_BYTES "payer_id" (payer_id p);
  _ ← display_field MAX_PAYMENT_ID_BYTES "merchant_id" (merchant_id p);
  _ ← display_field MAX_PAYMENT_ID_BYTES "payment_reference" (payment_reference p);
  reject zero (recipient_account_digest p) with EmptyField "recipient_account_digest";;
  reject (amount_minor p =? 0)%N with EmptyField "amount_minor";;
  reject (cap_minor p =? 0)%N || (cap_minor p <? amount_minor p)%N with EmptyField "cap_minor";;
  reject negb (slen (currency p) =? 3)%N
         || negb (forallb (fun b => in_range 65 90 (Byte.to_N b)) (as_bytes (currency p))) with EmptyField "currency";;
  reject (pay_expires_at p =? 0)%N with EmptyField "expires_at";;
  Ok tt.
Definition payment_stable_target (p : PaymentIntentV1) : bytes :=
  encode_string (payer_id p) ++ encode_string (merchant_id p).
Definition payment_bytes (p : PaymentIntentV1) : bytes :=
  u16_le ACCOUNTABILITY_OBJECT_VERSION ++ encode_string (payer_id p) ++ encode_string (merchant_id p) ++
  b32 (recipient_account_digest p) ++ u64_le (amount_minor p) ++ u64_le (cap_minor p) ++
  encode_string (currency p) ++ u64_le (pay_expires_at p) ++ encode_string (payment_reference p).
Definition payment_canonical_bytes (p : PaymentIntentV1) : result IntentError bytes :=
  _ ← payment_validate p; Ok (payment_bytes p).
Definition i_payment (b : bytes) : result IntentError (PaymentIntentV1 * bytes) :=
  '(version, b) ← i_u16 b;
  reject negb (version =? ACCOUNTABILITY_OBJECT_VERSION)%N with IntentUnsupportedVersion;;
  '(payer, b) ← i_string b;
  '(merchant, b) ← i_string b;
  '(recipient, b) ← i_hash b;
  '(amount, b) ← i_u64 b;
  '(cap, b) ← i_u64 b;
  '(cur, b) ← i_string b;
  '(expires, b) ← i_u64 b;
  '(reference, b) ← i_string b;
  Ok (mkPayment payer merchant recipient amount cap cur expires reference, b).
Definition payment_from_canonical_bytes (input : bytes) : result IntentError PaymentIntentV1 :=
  '(p, b) ← i_payment input;
  _ ← finish MalformedProfileBytes b;
  _ ← payment_validate p;
  canonical ← payment_canonical_bytes p;
  reject negb (bool_decide (canonical = input)) with MalformedProfileBytes;;
  Ok p.

(** ** Descriptors *)

Definition GITHUB_DEPLOYMENT_PROFILE_ID : string := "org.diewan.accountability.github-deployment.intent.v1".
Definition DB_MIGRATION_PROFILE_ID : string := "org.diewan.accountability.db-migration.intent.v1".
Definition PAYMENT_PROFILE_ID : string := "org.diewan.accountability.payment.intent.v1".
Definition EVIDENCE_EXECUTOR_ATTEMPT_RECORD : string := "evidence.executor.attempt-record".
Definition EVIDENCE_CSV_SEAL_CONSUMPTION_RECORD : string := "evidence.csv-seal.consumption-record".

Definition github_deployment_descriptor : ProfileDescriptor :=
  mkDescriptor GITHUB_DEPLOYMENT_PROFILE_ID "github.deployment"
    "application/vnd.diewan.github-deployment-v1+csv-binary" (as_bytes "github-deployment-parameters-v1")
    [mkDecl EVIDENCE_EXECUTOR_ATTEMPT_RECORD Executor;
     mkDecl "evidence.github.deployment-record" ProviderCorroborating;
     mkDecl "evidence.github.webhook-delivery" ProviderCorroborating;
     mkDecl "evidence.github.authenticated-environment-configuration" ProviderCorroborating;
     mkDecl EVIDENCE_CSV_SEAL_CONSUMPTION_RECORD ExternalAnchor;
     mkDecl "evidence.csv-seal.commitment-anchor" ExternalAnchor]
    NeverReleasable MAX_CONTEXT_COMMITMENTS MAX_IDENTITY_BYTES.
Definition db_migration_descriptor : ProfileDescriptor :=
  mkDescriptor DB_MIGRATION_PROFILE_ID "db.migration" "application/vnd.diewan.db-migration-v1+csv-binary"
    (as_bytes "db-migration-parameters-v1")
    [mkDecl EVIDENCE_EXECUTOR_ATTEMPT_RECORD Executor;
     mkDecl "evidence.db-migration.applied-record" ProviderCorroborating;
     mkDecl EVIDENCE_CSV_SEAL_CONSUMPTION_RECORD ExternalAnchor;
     mkDecl "evidence.chain.commitment-anchor" ExternalAnchor]
    NeverReleasable MAX_CONTEXT_COMMITMENTS MAX_IDENTITY_BYTES.
Definition payment_descriptor : ProfileDescriptor :=
  mkDescriptor PAYMENT_PROFILE_ID "payment.transfer" "application/vnd.diewan.payment-v1+csv-binary"
    (as_bytes "payment-parameters-v1")
    [mkDecl EVIDENCE_EXECUTOR_ATTEMPT_RECORD Executor;
     mkDecl "evidence.payment.settlement-record" ProviderCorroborating;
     mkDecl EVIDENCE_CSV_SEAL_CONSUMPTION_RECORD ExternalAnchor]
    NeverReleasable MAX_CONTEXT_COMMITMENTS MAX_IDENTITY_BYTES.

(** ** The registry (registry.rs) *)

Notation ProfileRegistry := (gmap string ProfileCodec).

Definition register (codec : ProfileCodec) (r : ProfileRegistry) : result IntentError ProfileRegistry :=
  _ ← descriptor_validate (descriptor codec);
  reject bool_decide (is_Some (r !! profile_id (descriptor codec))) with DuplicateProfile;;
  Ok (<[profile_id (descriptor codec) := codec]> r).
Definition decode_profile (r : ProfileRegistry) (id : ProfileId) (b : bytes) : result IntentError bytes :=
  codec ← ok_or UnregisteredProfile (r !! id);
  validate_canonical_bytes codec b.
(** [descriptors], in the order of the identifiers *)
Definition registry_descriptors (r : ProfileRegistry) : list ProfileDescriptor := descriptor <$> sorted_values r.

(** ** Intents *)

Record ActionIntent := mkIntent {
  in_protocol_version : ProtocolVersion;
  intent_version : ObjectVersion;
  in_profile_id : ProfileId;
  in_action_type : string;
  target : bytes;
  parameters_commitment : Bytes32;
  in_media_type : string;
  requested_by : bytes;
  requested_at : N;
  request_nonce : Bytes32;
  context_commitments : list Bytes32;
  profile_bytes : bytes
}.

Definition intent_validate (i : ActionIntent) : result IntentError unit :=
  reject negb (bool_decide (in_protocol_version i = ACCOUNTABILITY_PROTOCOL_VERSION)) with IntentUnsupportedVersion;;
  reject negb (intent_version i =? ACCOUNTABILITY_OBJECT_VERSION)%N with IntentUnsupportedVersion;;
  _ ← ProfileId_new (in_profile_id i);
  reject (slen (in_action_type i) =? 0)%N with EmptyField "action_type";;
  reject (slen (in_media_type i) =? 0)%N with EmptyField "parameters_media_type";;
  reject (blen (requested_by i) =? 0)%N with EmptyField "requested_by";;
  reject (MAX_IDENTITY_BYTES <? blen (requested_by i))%N with IdentityTooLong;;
  reject (MAX_CONTEXT_COMMITMENTS <? blen (context_commitments i))%N with TooManyContextCommitments;;
  Ok tt.

(** What a valid intent is. *)
Record intent_ok (i : ActionIntent) : Prop := {
  io_protocol : in_protocol_version i = ACCOUNTABILITY_PROTOCOL_VERSION;
  io_version : intent_version i = ACCOUNTABILITY_OBJECT_VERSION;
  io_profile : is_stable_identifier (in_profile_id i) = true;
  io_action : in_action_type i <> ""%string;
  io_media : in_media_type i <> ""%string;
  io_requester : requested_by i <> [] /\ (blen (requested_by i) <= MAX_IDENTITY_BYTES)%N;
  io_context : (blen (context_commitments i) <= MAX_CONTEXT_COMMITMENTS)%N
}.

Lemma intent_validate_ok i : intent_validate i = Ok tt <-> intent_ok i.
Proof.
  unfold intent_validate, ProfileId_new.
  rewrite !guard_err_ok, bind_ok, !negb_false_iff, bool_decide_eq_true, N.eqb_eq. split.
  - intros (Hv & Ho & id & Hid & H). rewrite !guard_err_ok, !N.eqb_neq, !N.ltb_ge in H.
    destruct H as (Ha & Hm & Hr & Hi & Hc & _). split; try done; [by destruct (is_stable_identifier _)|..].
    + intros E. by rewrite E in Ha.
    + intros E. by rewrite E in Hm.
    + split; [|done]. intros E. by rewrite E in Hr.
  - intros [Hv Ho Hid Ha Hm [Hr Hi] Hc]. rewrite Hid. split; [done|]. split; [done|].
    eexists. split; [reflexivity|]. rewrite !guard_err_ok, !N.eqb_neq, !N.ltb_ge. split_and!; try done.
    + intros E. apply Ha. by destruct (in_action_type i).
    + intros E. apply Hm. by destruct (in_media_type i).
    + intros E. apply Hr. by destruct (requested_by i).
Qed.

Definition intent_bytes (i : ActionIntent) : bytes :=
  u16_le (major (in_protocol_version i)) ++ u16_le (minor (in_protocol_version i)) ++ u16_le (intent_version i) ++
  encode_string (in_profile_id i) ++ encode_string (in_action_type i) ++ encode_bytes (target i) ++
  b32 (parameters_commitment i) ++ encode_string (in_media_type i) ++ encode_bytes (requested_by i) ++
  u64_le (requested_at i) ++ b32 (request_nonce i) ++ encode_list b32 (context_commitments i) ++
  encode_bytes (profile_bytes i).
Definition intent_canonical_bytes (i : ActionIntent) : result IntentError bytes :=
  _ ← intent_validate i; Ok (intent_bytes i).

Section Intents.
Variable sha256 : bytes -> Bytes32.

Definition github_codec : ProfileCodec :=
  mkCodec github_deployment_descriptor (fun b => p ← github_from_canonical_bytes sha256 b; Ok (github_stable_target p)).
Definition migration_codec : ProfileCodec :=
  mkCodec db_migration_descriptor (fun b => p ← migration_from_canonical_bytes b; Ok (migration_stable_target p)).
Definition payment_codec : ProfileCodec :=
  mkCodec payment_descriptor (fun b => p ← payment_from_canonical_bytes b; Ok (payment_stable_target p)).

(** [default_registry]: empty when a registration fails. *)
Definition default_registry : ProfileRegistry :=
  match (r ← register github_codec ∅; r ← register migration_codec r; register payment_codec r) with
  | Ok r => r
  | Err _ => ∅
  end.

(** The commitment to the parameters *)
Definition parameters_digest_of (d : ProfileDescriptor) (b : bytes) : Bytes32 :=
  domain_hash_multiple sha256 gate_domain [parameters_domain_tag d; b].

(** [ActionIntent::new] *)
Definition intent_new (d : ProfileDescriptor) (codec : ProfileCodec) (b by_whom : bytes) (at_time : N) (nonce : Bytes32)
    (commitments : list Bytes32) : result IntentError ActionIntent :=
  _ ← descriptor_validate d;
  t ← validate_canonical_bytes codec b;
  reject (blen by_whom =? 0)%N with EmptyField "requested_by";;
  reject (max_identity_bytes d <? blen by_whom)%N with IdentityTooLong;;
  reject (max_context_commitments d <? blen commitments)%N with TooManyContextCommitments;;
  Ok (mkIntent ACCOUNTABILITY_PROTOCOL_VERSION ACCOUNTABILITY_OBJECT_VERSION (profile_id d) (action_type d) t
        (parameters_digest_of d b) (parameters_media_type d) by_whom at_time nonce commitments b).
(** [ActionIntent::github_deployment] *)
Definition github_deployment (by_whom : bytes) (at_time : N) (nonce : Bytes32) (commitments : list Bytes32)
    (p : GitHubDeploymentIntentV1) : result IntentError ActionIntent :=
  b ← github_canonical_bytes sha256 p;
  intent_new github_deployment_descriptor github_codec b by_whom at_time nonce commitments.

(** [ActionIntent::verify_with_codec] *)
Definition verify_with_codec (i : ActionIntent) (d : ProfileDescriptor) (codec : ProfileCodec)
  : result IntentError unit :=
  _ ← intent_validate i;
  reject negb (bool_decide (in_profile_id i = profile_id d)) || negb (bool_decide (in_action_type i = action_type d))
    with UnregisteredProfile;;
  t ← validate_canonical_bytes codec (profile_bytes i);
  reject negb (bool_decide (target i = t)) with TargetMismatch;;
  reject negb (bool_decide (parameters_commitment i = parameters_digest_of d (profile_bytes i)))
         || negb (bool_decide (in_media_type i = parameters_media_type d)) with ParametersCommitmentMismatch;;
  Ok tt.

(** [ActionIntent::id] *)
Definition action_intent_id (i : ActionIntent) : result IntentError IntentId :=
  canonical ← intent_canonical_bytes i;
  Ok (domain_hash_multiple sha256 "csv.accountability.intent.v1" [as_bytes "action-intent-v1"; canonical]).
End Intents.

(** ** Reading the profiles back *)

#[export] Instance i_u8_reads : Reads any one i_u8 := reads_u8 _.
#[export] Instance i_u16_reads : Reads (fun v => v <= u16_max)%N u16_le i_u16 := reads_u16_le _.
#[export] Instance i_u32_reads : Reads (fun v => v <= u32_max)%N u32_le i_u32 := reads_u32_le _.
#[export] Instance i_u64_reads : Reads (fun v => v <= u64_max)%N u64_le i_u64 := reads_u64_le _.
#[export] Instance i_hash_reads : Reads any b32 i_hash := reads_b32 _.
#[export] Instance i_string_reads : Reads (text_in fits) encode_string i_string := reads_string_le _ _ _.
#[export] Instance i_direction_reads : Reads any direction_bytes i_direction.
Proof. apply reads_tag. intros t []; by destruct t. Qed.
#[export] Instance i_flag_reads : Reads any flag_bytes i_flag.
Proof. apply reads_tag. intros t []; by destruct t. Qed.
#[export] Instance expect_reads value e : Reads any (fun _ => one value) (expect value e).
Proof.
  intros b [] rest. unfold expect. split.
  - intros H. read_field H. apply guard_err_ok in H as [Hb [= ->]].
    apply negb_false_iff, bool_decide_eq_true in Hb as ->. done.
  - intros [_ ->]. read_back; [|done]. by rewrite bool_decide_true.
Qed.
#[export] Instance i_artifact_reads :
  Reads (opt_ok any) (push_option b32) (read_opt MalformedProfileBytes MalformedProfileBytes i_hash) :=
  reads_opt _ _ _ _ _.
#[export] Instance i_list_reads :
  Reads (count_ok MAX_REQUIRED_CONTEXTS (text_in fits)) (encode_list encode_string)
    (read_counted i_u32 MAX_REQUIRED_CONTEXTS InvalidRequiredContexts i_string) := reads_counted_le _ _ _ _ _ _.

Lemma explicit_ok l c : explicit l = Ok c -> c = ExplicitNonEmpty l.
Proof. unfold explicit. rewrite guard_err_ok. by intros [_ [= <-]]. Qed.

Definition contexts_fit (c : RequiredContexts) : Prop :=
  match c with
  | AllSubmitted => True
  | ExplicitNonEmpty l => count_ok MAX_REQUIRED_CONTEXTS (text_in fits) l /\ explicit l = Ok c
  end.
#[export] Instance i_contexts_reads : Reads contexts_fit contexts_bytes i_contexts.
Proof.
  intros b c rest. unfold i_contexts, contexts_bytes. split.
  - intros H. read_field H. destruct x; try discriminate H; [by injection H as <- <-|].
    read_field H. apply bind_ok in H as (c' & Hc & [= <- <-]). pose proof (explicit_ok _ _ Hc) as ->.
    rewrite <- !app_assoc. done.
  - intros [Hc ->]. destruct c as [|l]; cbn [contexts_fit] in Hc; [done|]. destruct Hc as [Hl Hc].
    rewrite <- app_assoc. read_back; [by rewrite Hc|done..].
Qed.

(** The widths and the character encoding of Rust's types. *)
Record github_typed (p : GitHubDeploymentIntentV1) : Prop := {
  gt_repository : (repository_id p <= u64_max)%N;
  gt_environment : (gh_environment_id p <= u64_max)%N;
  gt_owner : is_utf8 (repository_owner p) = true;
  gt_name : is_utf8 (repository_name p) = true;
  gt_sha : is_utf8 (commit_sha p) = true;
  gt_ref : is_utf8 (exact_ref p) = true;
  gt_environment_name : is_utf8 (gh_environment_name p) = true;
  gt_contexts : match required_contexts p with
                | ExplicitNonEmpty l => Forall (fun s => is_utf8 s = true) l
                | AllSubmitted => True
                end
}.
Record migration_typed (p : DbMigrationIntentV1) : Prop := {
  mt_database : (database_id p <= u64_max)%N;
  mt_environment : (db_environment_id p <= u64_max)%N;
  mt_count : (statement_count p <= u32_max)%N;
  mt_name : is_utf8 (database_name p) = true;
  mt_environment_name : is_utf8 (db_environment_name p) = true;
  mt_id : is_utf8 (migration_id p) = true;
  mt_ticket : is_utf8 (change_ticket p) = true
}.
Record payment_typed (p : PaymentIntentV1) : Prop := {
  yt_amount : (amount_minor p <= u64_max)%N;
  yt_cap : (cap_minor p <= u64_max)%N;
  yt_expires : (pay_expires_at p <= u64_max)%N;
  yt_payer : is_utf8 (payer_id p) = true;
  yt_merchant : is_utf8 (merchant_id p) = true;
  yt_currency : is_utf8 (currency p) = true;
  yt_reference : is_utf8 (payment_reference p) = true
}.

(** What the readers accept: the types, and every string no longer than its length field. *)
Definition github_fits (p : GitHubDeploymentIntentV1) : Prop :=
  github_typed p /\ fits (as_bytes (repository_owner p)) /\ fits (as_bytes (repository_name p)) /\
  fits (as_bytes (commit_sha p)) /\ fits (as_bytes (exact_ref p)) /\ fits (as_bytes (gh_environment_name p)) /\
  contexts_fit (required_contexts p).
Definition migration_fits (p : DbMigrationIntentV1) : Prop :=
  migration_typed p /\ fits (as_bytes (database_name p)) /\ fits (as_bytes (db_environment_name p)) /\
  fits (as_bytes (migration_id p)) /\ fits (as_bytes (change_ticket p)).
Definition payment_fits (p : PaymentIntentV1) : Prop :=
  payment_typed p /\ fits (as_bytes (payer_id p)) /\ fits (as_bytes (merchant_id p)) /\
  fits (as_bytes (currency p)) /\ fits (as_bytes (payment_reference p)).

Lemma version_ok {A} (v : N) (k : result IntentError A) x :
  (reject negb (v =? ACCOUNTABILITY_OBJECT_VERSION)%N with IntentUnsupportedVersion;; k) = Ok x
  <-> v = ACCOUNTABILITY_OBJECT_VERSION /\ k = Ok x.
Proof. by rewrite guard_err_ok, negb_false_iff, N.eqb_eq. Qed.

#[export] Instance i_migration_reads : Reads migration_fits migration_bytes i_migration.
Proof.
  intros b p rest. unfold i_migration, migration_bytes. split.
  - intros H. read_field H. apply version_ok in H as [-> H]. read_fields H. injection H as <- <-.
    rewrite <- !app_assoc. unfold text_in in *. destruct_and?. by repeat split.
  - intros [([] & ? & ? & ? & ?) ->]. rewrite <- !app_assoc. destruct p. read_back; first [done|assumption|by split].
Qed.
#[export] Instance i_payment_reads : Reads payment_fits payment_bytes i_payment.
Proof.
  intros b p rest. unfold i_payment, payment_bytes. split.
  - intros H. read_field H. apply version_ok in H as [-> H]. read_fields H. injection H as <- <-.
    rewrite <- !app_assoc. unfold text_in in *. destruct_and?. by repeat split.
  - intros [([] & ? & ? & ? & ?) ->]. rewrite <- !app_assoc. destruct p. read_back; first [done|assumption|by split].
Qed.

Lemma expect_app value e k : expect value e (one value ++ k) = Ok (tt, k).
Proof. apply (reads_app any (fun _ => one value) (expect value e) tt). done. Qed.

Ltac read_on :=
  read_back; try (rewrite expect_app; cbn [mbind result_bind]; cbv beta iota; read_on).

Lemma contexts_utf8 c : contexts_fit c ->
  match c with ExplicitNonEmpty l => Forall (fun s => is_utf8 s = true) l | AllSubmitted => True end.
Proof. destruct c as [|l]; [done|]. intros [[_ H] _]. eapply Forall_impl; [exact H|]. by intros ? []. Qed.

#[export] Instance i_github_reads : Reads github_fits github_bytes i_github.
Proof.
  intros b p rest. unfold i_github, github_bytes. split.
  - intros H. read_field H. apply version_ok in H as [-> H]. read_fields H.
    apply guard_err_ok in H as [Ht H]. apply negb_false_iff, bool_decide_eq_true in Ht as ->.
    read_fields H. injection H as <- <-. rewrite <- !app_assoc. unfold text_in in *. destruct_and?.
    split; [|done]. repeat split; try done.
    by apply contexts_utf8.
  - intros [([] & ? & ? & ? & ? & ? & Hc) ->]. rewrite <- !app_assoc. read_on; try first [done|assumption|by split]. by destruct p.
Qed.

Lemma display_fits max f s : display_field max f s = Ok tt -> (max <= u32_max)%N -> fits (as_bytes s).
Proof.
  unfold display_field, bad_display. rewrite !guard_err_ok, !orb_false_iff, N.ltb_ge. intros (_ & ((H & _) & _) & _) Hm.
  unfold fits, slen in *. lia.
Qed.
Lemma explicit_fits l c :
  Forall (fun s => is_utf8 s = true) l -> explicit l = Ok c -> contexts_fit (ExplicitNonEmpty l).
Proof.
  intros Hu H. pose proof (explicit_ok _ _ H) as ->. split; [|done]. unfold explicit in H.
  rewrite guard_err_ok, !orb_false_iff, N.ltb_ge, existsb_false in H. destruct H as [(((_ & Hm) & Hb) & _) _].
  split; [split; [done|]; unfold MAX_REQUIRED_CONTEXTS, u32_max in *; lia|].
  rewrite Forall_forall in *. intros s Hs. destruct (bad_text_fits MAX_DISPLAY_BYTES s) as [Hs1 [Hs2 _]]; auto; [done|].
  split; [done|]. unfold fits, MAX_DISPLAY_BYTES, u32_max in *. lia.
Qed.

Lemma migration_valid_fits p : migration_typed p -> migration_validate p = Ok tt -> migration_fits p.
Proof.
  unfold migration_validate. rewrite guard_err_ok, !bind_unit_ok. intros Ht (_ & H1 & H2 & H3 & H4 & _).
  split; [done|]. by split_and!; eapply display_fits.
Qed.
Lemma payment_valid_fits p : payment_typed p -> payment_validate p = Ok tt -> payment_fits p.
Proof.
  unfold payment_validate. rewrite !bind_unit_ok, !guard_err_ok, !orb_false_iff, !negb_false_iff, N.eqb_eq.
  intros Ht (H1 & H2 & H3 & _ & _ & _ & [H4 _] & _).
  split; [done|]. split_and!; try by eapply display_fits. unfold fits, slen, u32_max in *. lia.
Qed.
Lemma github_valid_fits sha256 p : github_typed p -> github_validate sha256 p = Ok tt -> github_fits p.
Proof.
  unfold github_validate. rewrite guard_err_ok, !bind_unit_ok, guard_err_ok, !orb_false_iff, !negb_false_iff,
    bool_decide_eq_true, bind_unit_ok.
  intros Ht (_ & H1 & H2 & H3 & [Hsha He] & Hc & _).
  unfold is_full_lower_hex_sha in Hsha. rewrite andb_true_iff, N.eqb_eq in Hsha. destruct Hsha as [Hsha _].
  assert (fits (as_bytes (commit_sha p))) by (unfold fits, slen, u32_max in *; lia).
  split; [done|]. rewrite He. split_and!; try done; try by eapply display_fits.
  destruct Ht. destruct (required_contexts p) as [|l]; [done|].
  apply bind_ok in Hc as (c & Hc & _). by eapply explicit_fits.
Qed.

(** A GitHub deployment profile is decoded from exactly the canonical encoding of a
    valid profile: two deployments never share bytes, and no other byte string is read as
    one. *)
Theorem github_codec_exact (sha256 : bytes -> Bytes32) (b : bytes) (p : GitHubDeploymentIntentV1) :
  github_from_canonical_bytes sha256 b = Ok p <-> github_typed p /\ github_canonical_bytes sha256 p = Ok b.
Proof.
  apply (decode_checked github_fits github_typed github_bytes i_github).
  - by intros y [].
  - apply github_valid_fits.
Qed.

Lemma migration_codec_exact b p :
  migration_from_canonical_bytes b = Ok p <-> migration_typed p /\ migration_canonical_bytes p = Ok b.
Proof.
  apply (decode_checked migration_fits migration_typed migration_bytes i_migration).
  - by intros y [].
  - apply migration_valid_fits.
Qed.
Lemma payment_codec_exact b p :
  payment_from_canonical_bytes b = Ok p <-> payment_typed p /\ payment_canonical_bytes p = Ok b.
Proof.
  apply (decode_checked payment_fits payment_typed payment_bytes i_payment).
  - by intros y [].
  - apply payment_valid_fits.
Qed.

(** ** Intents *)

Section IntentTheorems.
Variable sha256 : bytes -> Bytes32.

Lemma register_new codec r :
  descriptor_validate (descriptor codec) = Ok tt -> r !! profile_id (descriptor codec) = None ->
  register codec r = Ok (<[profile_id (descriptor codec) := codec]> r).
Proof. intros Hd Hr. unfold register. rewrite Hd. cbn [mbind result_bind]. rewrite Hr. done. Qed.

(** The three profiles are registered under their identifiers, and nothing else is. *)
Lemma default_registry_spec :
  default_registry sha256 = <[PAYMENT_PROFILE_ID := payment_codec]>
    (<[DB_MIGRATION_PROFILE_ID := migration_codec]>
      (<[GITHUB_DEPLOYMENT_PROFILE_ID := github_codec sha256]> ∅)).
Proof.
  unfold default_registry.
  rewrite (register_new (github_codec sha256)) by (by vm_compute). cbn [mbind result_bind descriptor github_codec].
  rewrite register_new; [cbn [mbind result_bind descriptor migration_codec]|by vm_compute|by rewrite lookup_insert_ne].
  rewrite register_new; [done|by vm_compute|]. by rewrite !lookup_insert_ne.
Qed.

(** What the envelope commits to, given the profile it carries. *)
Record intent_verified (i : ActionIntent) (d : ProfileDescriptor) (codec : ProfileCodec) : Prop := {
  iv_valid : intent_validate i = Ok tt;
  iv_profile : in_profile_id i = profile_id d;
  iv_action : in_action_type i = action_type d;
  iv_media : in_media_type i = parameters_media_type d;
  iv_target : validate_canonical_bytes codec (profile_bytes i) = Ok (target i);
  iv_parameters : parameters_commitment i = parameters_digest_of sha256 d (profile_bytes i)
}.
Lemma verify_with_codec_ok i d codec :
  verify_with_codec sha256 i d codec = Ok tt <-> intent_verified i d codec.
Proof.
  unfold verify_with_codec. rewrite bind_unit_ok, guard_err_ok, bind_ok, orb_false_iff, !negb_false_iff,
    !bool_decide_eq_true. split.
  - intros (Hv & [Hp Ha] & t & Ht & H). rewrite !guard_err_ok, orb_false_iff, !negb_false_iff, !bool_decide_eq_true in H.
    destruct H as (<- & [Hd Hm] & _). by split.
  - intros []. split; [done|]. split; [done|]. exists (target i). split; [done|].
    by rewrite !guard_err_ok, orb_false_iff, !negb_false_iff, !bool_decide_eq_true.
Qed.

(** The widths and the character encoding of Rust's types; a field of 4 GiB is out of reach. *)
Record intent_typed (i : ActionIntent) : Prop := {
  it_profile : text_in fits (in_profile_id i);
  it_action : text_in fits (in_action_type i);
  it_media : text_in fits (in_media_type i);
  it_target : fits (target i);
  it_at : (requested_at i <= u64_max)%N;
  it_bytes : fits (profile_bytes i)
}.

#[local] Instance pf_text_le : PrefixFree (text_in fits) encode_string := reads_prefix_free _ _ i_string.
#[local] Instance pf_bytes_le : PrefixFree fits encode_bytes := reads_prefix_free _ _ (read_sized tt tt).
#[local] Instance pf_u16_le : PrefixFree (fun v => v <= u16_max)%N u16_le := reads_prefix_free _ _ i_u16.
#[local] Instance pf_u64_le : PrefixFree (fun v => v <= u64_max)%N u64_le := reads_prefix_free _ _ i_u64.
#[local] Instance pf_hashes_le : PrefixFree (count_ok MAX_CONTEXT_COMMITMENTS any) (encode_list b32) :=
  reads_prefix_free _ _ (read_counted i_u32 MAX_CONTEXT_COMMITMENTS MalformedProfileBytes i_hash).

Lemma intent_validate_bounds i : intent_validate i = Ok tt ->
  in_protocol_version i = ACCOUNTABILITY_PROTOCOL_VERSION /\ intent_version i = ACCOUNTABILITY_OBJECT_VERSION /\
  fits (requested_by i) /\ count_ok MAX_CONTEXT_COMMITMENTS (any (A := Bytes32)) (context_commitments i).
Proof.
  unfold intent_validate. rewrite !guard_err_ok, bind_ok, !negb_false_iff, bool_decide_eq_true, N.eqb_eq.
  intros (Hv & Ho & _ & _ & H). rewrite !guard_err_ok, !N.ltb_ge in H. destruct H as (_ & _ & _ & Hr & Hc & _).
  unfold fits, count_ok, MAX_IDENTITY_BYTES, MAX_CONTEXT_COMMITMENTS, u32_max in *.
  split_and!; try done; try lia. by apply Forall_true.
Qed.

Lemma intent_bytes_inj i j :
  intent_typed i -> intent_typed j -> intent_validate i = Ok tt -> intent_validate j = Ok tt ->
  intent_bytes i = intent_bytes j -> i = j.
Proof.
  intros [] [] Hi Hj H. apply intent_validate_bounds in Hi as (Hvi & Hoi & Hri & Hci), Hj as (Hvj & Hoj & Hrj & Hcj).
  unfold intent_bytes in H. rewrite Hvi, Hvj, Hoi, Hoj in H.
  peel H; try done. destruct i, j; simplify_eq/=. congruence.
Qed.

(** What is hashed last for the identifier of a valid intent, and for its parameters. *)
Definition intent_preimage (i : ActionIntent) : bytes :=
  multiple_preimage sha256 "csv.accountability.intent.v1" [as_bytes "action-intent-v1"; intent_bytes i].
Definition parameters_preimage (d : ProfileDescriptor) (b : bytes) : bytes :=
  multiple_preimage sha256 gate_domain [parameters_domain_tag d; b].

(** The identifier of an action intent binds the whole intent: two valid intents with
    the same identifier are equal, unless the strings hashed for the two collide. *)
Theorem action_intent_id_binds (i j : ActionIntent) (id : Bytes32)
  (Hi : intent_typed i) (Hj : intent_typed j)
  (Hid : action_intent_id sha256 i = Ok id) (Hjd : action_intent_id sha256 j = Ok id) :
  i = j \/ collision_in sha256 [intent_preimage i; intent_preimage j].
Proof.
  unfold action_intent_id, intent_canonical_bytes in *.
  apply bind_ok in Hid as (x & (Hvi & [= <-])%bind_unit_ok & [= <-]).
  apply bind_ok in Hjd as (y & (Hvj & [= <-])%bind_unit_ok & [= H]).
  unfold intent_preimage. hash_inj H. left.
  cbn [join_payloads] in H. apply app_inv_head in H. apply app_inv_head in H. symmetry. by apply intent_bytes_inj.
Qed.

(** ** The registered profiles *)

Inductive registered : ProfileDescriptor -> ProfileCodec -> Prop :=
| registered_github : registered github_deployment_descriptor (github_codec sha256)
| registered_migration : registered db_migration_descriptor migration_codec
| registered_payment : registered payment_descriptor payment_codec.

Lemma registered_iff d codec :
  registered d codec <-> descriptor codec = d /\ default_registry sha256 !! profile_id d = Some codec.
Proof.
  rewrite default_registry_spec. split.
  - intros []; (split; [done|]); rewrite ?lookup_insert_eq; try done; by rewrite !lookup_insert_ne, lookup_insert_eq.
  - intros [<- H]. rewrite !lookup_insert in H. repeat case_decide; try (injection H as <-; constructor).
    by rewrite lookup_empty in H.
Qed.

Lemma registered_bounds d codec : registered d codec ->
  descriptor_validate d = Ok tt /\ max_identity_bytes d = MAX_IDENTITY_BYTES /\
  max_context_commitments d = MAX_CONTEXT_COMMITMENTS /\ slen (action_type d) <> 0%N /\
  slen (parameters_media_type d) <> 0%N /\ ProfileId_new (profile_id d) = Ok (profile_id d).
Proof. intros []; by vm_compute. Qed.

(** An envelope built for a registered profile verifies against it, and an envelope
    that verifies is the one the constructor builds from its own fields: nothing in it is
    chosen freely next to the profile bytes. *)
Theorem intent_envelope_exact (d : ProfileDescriptor) (codec : ProfileCodec) (i : ActionIntent)
  (Hreg : registered d codec) :
  verify_with_codec sha256 i d codec = Ok tt
  <-> intent_new sha256 d codec (profile_bytes i) (requested_by i) (requested_at i) (request_nonce i)
        (context_commitments i) = Ok i.
Proof.
  apply registered_bounds in Hreg as (Hd & Hmi & Hmc & Ha & Hm & Hp). rewrite verify_with_codec_ok.
  unfold intent_new. rewrite Hd, Hmi, Hmc. cbn [mbind result_bind]. rewrite bind_ok. split.
  - intros [Hv Hpr Hat Hme Ht Hpa]. exists (target i). split; [done|]. unfold intent_validate in Hv.
    rewrite !guard_err_ok, bind_ok, !negb_false_iff, bool_decide_eq_true, N.eqb_eq in Hv.
    destruct Hv as (Hv & Ho & _ & _ & H). rewrite !guard_err_ok in H. destruct H as (_ & _ & Hr & Hrm & Hc & _).
    rewrite Hr, Hrm, Hc. cbn [guard_err]. rewrite <- Hpa, <- Hpr, <- Hat, <- Hme, <- Hv, <- Ho. by destruct i.
  - intros (t & Ht & H). rewrite !guard_err_ok in H. destruct H as (Hr & Hrm & Hc & H).
    injection H as H. rewrite <- H in *. clear H. cbn in *. split; cbn; try done.
    unfold intent_validate. cbn. rewrite Hp. cbn. by rewrite (proj2 (N.eqb_neq _ _) Ha), (proj2 (N.eqb_neq _ _) Hm), Hr, Hrm, Hc.
Qed.

(** The tags of two registered profiles differ, and their first bytes already do. *)
Lemma registered_tags d e c k b b' :
  registered d c -> registered e k ->
  join_payloads [parameters_domain_tag d; b] = join_payloads [parameters_domain_tag e; b'] ->
  d = e /\ c = k /\ b = b'.
Proof.
  intros [] [] H; try (by discriminate H); cbn [join_payloads] in H; do 2 apply app_inv_head in H; done.
Qed.

(** The parameters commitment of a verified intent determines the profile, its bytes
    and the target acted on, across all registered profiles, unless the strings hashed for
    the two collide. *)
Theorem parameters_commitment_binds (d e : ProfileDescriptor) (c k : ProfileCodec) (i j : ActionIntent)
  (Hd : registered d c) (He : registered e k)
  (Hi : verify_with_codec sha256 i d c = Ok tt) (Hj : verify_with_codec sha256 j e k = Ok tt)
  (Heq : parameters_commitment i = parameters_commitment j) :
  (d = e /\ profile_bytes i = profile_bytes j /\ target i = target j) \/
  collision_in sha256 [parameters_preimage d (profile_bytes i); parameters_preimage e (profile_bytes j)].
Proof.
  apply verify_with_codec_ok in Hi as [], Hj as []. rewrite iv_parameters0, iv_parameters1 in Heq.
  unfold parameters_digest_of, parameters_preimage in *. hash_inj Heq. rename Heq into H. left.
  apply (registered_tags d e c k) in H as (<- & <- & Hb); [|done..].
  rewrite Hb, iv_target1 in iv_target0. by injection iv_target0 as ->.
Qed.
End IntentTheorems.

(** ** A payment *)

Definition demo_payment : PaymentIntentV1 :=
  mkPayment "acme" "globex" (fill32 Byte.x21) 500 1000 "EUR" 1700000000 "invoice-7".
Definition demo_intent : ActionIntent :=
  mkIntent ACCOUNTABILITY_PROTOCOL_VERSION ACCOUNTABILITY_OBJECT_VERSION PAYMENT_PROFILE_ID "payment.transfer"
    (payment_stable_target demo_payment) (fill32 Byte.x2a) (parameters_media_type payment_descriptor)
    [Byte.x03] 1699999999 (fill32 Byte.x22) [] (payment_bytes demo_payment).
Definition answer (b : bytes) : Bytes32 := fill32 Byte.x2a.

Lemma demo_intent_typed : intent_typed demo_intent.
Proof. split; try split; by vm_compute. Qed.
Lemma demo_intent_verifies : verify_with_codec answer demo_intent payment_descriptor payment_codec = Ok tt.
Proof. by vm_compute. Qed.

Lemma action_intent_id_binds_witness :
  action_intent_id answer demo_intent = Ok (fill32 Byte.x2a) /\ (demo_intent = demo_intent \/
   collision_in answer [intent_preimage answer demo_intent; intent_preimage answer demo_intent]).
Proof.
  assert (H : action_intent_id answer demo_intent = Ok (fill32 Byte.x2a)) by (by vm_compute).
  split; [exact H|].
  exact (action_intent_id_binds answer demo_intent demo_intent (fill32 Byte.x2a) demo_intent_typed demo_intent_typed H H).
Defined.

Lemma intent_envelope_exact_witness :
  intent_new answer payment_descriptor payment_codec (payment_bytes demo_payment) [Byte.x03] 1699999999
    (fill32 Byte.x22) [] = Ok demo_intent.
Proof.
  exact (proj1 (intent_envelope_exact answer payment_descriptor payment_codec demo_intent
    (registered_payment answer)) demo_intent_verifies).
Defined.

Lemma parameters_commitment_binds_witness :
  (payment_descriptor = payment_descriptor /\ profile_bytes demo_intent = profile_bytes demo_intent /\
   target demo_intent = target demo_intent) \/
  let preimage := parameters_preimage answer payment_descriptor (profile_bytes demo_intent) in
  collision_in answer [preimage; preimage].
Proof.
  exact (parameters_commitment_binds answer payment_descriptor payment_descriptor payment_codec payment_codec
    demo_intent demo_intent (registered_payment answer) (registered_payment answer)
    demo_intent_verifies demo_intent_verifies eq_refl).
Defined.
