(* ===== verification/DisputeBundle.v ===== *)
(** * Dispute bundles (csv-accountability: bundle.rs)

    A bundle carries the objects of a case: disclosed with their bytes, or withheld with
    their digest and a reason.  It validates exactly when the tables are canonical and
    every disclosed object hashes to the digest it is listed under, so what a reader is
    given for a digest has that digest; and its identifier binds all of it. *)

From S2P Require Import Prelude Ord Bytes Hashing Text Accountability Codec Decode Mandate Evidence Receipt.

Definition MAX_BUNDLE_OBJECTS : N := 2048.
Definition MAX_BUNDLE_OBJECT_BYTES : N := 16777216.
Definition MAX_BUNDLE_TOTAL_BYTES : N := 67108864.
Definition MAX_BUNDLE_TEXT_BYTES : N := 1024.

Record DisclosedObject := mkDisclosed {
  do_registry_id : string; do_media_type : string; do_content_digest : Bytes32; do_bytes : bytes
}.
Record WithheldObject := mkWithheld {
  wo_registry_id : string; wo_content_digest : Bytes32; wo_reason_code : string
}.
Record DisputeBundle := mkBundle {
  db_protocol_version : ProtocolVersion;
  bundle_version : ObjectVersion;
  case_id : option string;
  subject_intent_id : IntentId;
  disclosed_objects : list DisclosedObject;
  withheld_objects : list WithheldObject;
  recommended_context : option VerificationContextId;
  db_producer_identity : bytes;
  db_producer_signature : bytes
}.
Inductive BundleError :=
| BundleUnsupportedVersion | BundleInvalidField (field : string) | DigestMismatch | InvalidObjectTable
| MissingObject | BundleBoundsExceeded.

Definition bundle_text (s : string) : result BundleError unit :=
  if bad_text MAX_BUNDLE_TEXT_BYTES s then Err (BundleInvalidField "text") else Ok tt.

Definition disclosed_key (o : DisclosedObject) : string * Bytes32 := (do_registry_id o, do_content_digest o).
Definition withheld_key (o : WithheldObject) : string * Bytes32 := (wo_registry_id o, wo_content_digest o).
Definition sorted_disclosed (l : list DisclosedObject) : bool := negb (not_increasing (disclosed_key <$> l)).
Definition sorted_withheld (l : list WithheldObject) : bool := negb (not_increasing (withheld_key <$> l)).

Notation BundleId := Bytes32.

Section Bundles.
Variable sha256 : bytes -> Bytes32.

(** [bundle_object_digest], [digest] *)
Definition bundle_object_digest (b : bytes) : Bytes32 := hash_sha256 sha256 b.

(** The loop over the disclosed objects, with the bytes seen so far.  A total that passes the
    bound ends the loop, so the addition never reaches the width of [usize]. *)
Fixpoint check_disclosed (total : N) (l : list DisclosedObject) : result BundleError unit :=
  match l with
  | [] => Ok tt
  | o :: l =>
      _ ← bundle_text (do_registry_id o);
      _ ← bundle_text (do_media_type o);
      reject bad_bytes MAX_BUNDLE_OBJECT_BYTES (do_bytes o) with BundleBoundsExceeded;;
      total ← ok_or BundleBoundsExceeded (checked_add64 total (blen (do_bytes o)));
      reject (MAX_BUNDLE_TOTAL_BYTES <? total)%N with BundleBoundsExceeded;;
      reject negb (bool_decide (bundle_object_digest (do_bytes o) = do_content_digest o)) with DigestMismatch;;
      check_disclosed total l
  end.
Definition check_withheld (o : WithheldObject) : result BundleError unit :=
  _ ← bundle_text (wo_registry_id o);
  _ ← bundle_text (wo_reason_code o);
  reject zero (wo_content_digest o) with BundleInvalidField "withheld_digest";;
  Ok tt.

Definition bundle_validate (b : DisputeBundle) : result BundleError unit :=
  reject negb (bool_decide (db_protocol_version b = ACCOUNTABILITY_PROTOCOL_VERSION))
         || negb (bundle_version b =? ACCOUNTABILITY_OBJECT_VERSION)%N with BundleUnsupportedVersion;;
  reject match case_id b with Some v => negb (is_ok (bundle_text v)) | None => false end
         || bad_bytes MAX_BUNDLE_TEXT_BYTES (db_producer_identity b)
         || bad_bytes 8192 (db_producer_signature b) with BundleInvalidField "bundle_metadata";;
  reject (MAX_BUNDLE_OBJECTS <? blen (disclosed_objects b) + blen (withheld_objects b))%N with BundleBoundsExceeded;;
  _ ← check_disclosed 0 (disclosed_objects b);
  _ ← try_each check_withheld (withheld_objects b);
  reject negb (sorted_disclosed (disclosed_objects b)) || negb (sorted_withheld (withheld_objects b))
         || existsb (fun d => existsb (fun w => bool_decide (wo_content_digest w = do_content_digest d))
                                (withheld_objects b)) (disclosed_objects b) with InvalidObjectTable;;
  Ok tt.

Definition require_disclosed (b : DisputeBundle) (registry_id : string) (content_digest : Bytes32)
  : result BundleError bytes :=
  _ ← bundle_validate b;
  o ← ok_or MissingObject
        (List.find (fun o => bool_decide (do_registry_id o = registry_id) && bool_decide (do_content_digest o = content_digest))
           (disclosed_objects b));
  Ok (do_bytes o).

Definition disclosed_bytes (o : DisclosedObject) : bytes :=
  push_text (do_registry_id o) ++ push_text (do_media_type o) ++ b32 (do_content_digest o) ++ push_bytes (do_bytes o).
Definition withheld_bytes (o : WithheldObject) : bytes :=
  push_text (wo_registry_id o) ++ b32 (wo_content_digest o) ++ push_text (wo_reason_code o).
Definition bundle_bytes (b : DisputeBundle) : bytes :=
  u16_be (major (db_protocol_version b)) ++ u16_be (minor (db_protocol_version b)) ++ u16_be (bundle_version b) ++
  push_option push_text (case_id b) ++ b32 (subject_intent_id b) ++
  push_list disclosed_bytes (disclosed_objects b) ++ push_list withheld_bytes (withheld_objects b) ++
  push_option b32 (recommended_context b) ++ push_bytes (db_producer_identity b) ++
  push_bytes (db_producer_signature b).
Definition bundle_canonical_bytes (b : DisputeBundle) : result BundleError bytes :=
  _ ← bundle_validate b; Ok (bundle_bytes b).
Definition bundle_id (b : DisputeBundle) : result BundleError BundleId :=
  bytes ← bundle_canonical_bytes b;
  Ok (domain_hash sha256 "csv.accountability.bundle.v1" bytes).

(** ** What validation promises *)

Record disclosed_ok (o : DisclosedObject) : Prop := {
  do_text : bad_text MAX_BUNDLE_TEXT_BYTES (do_registry_id o) = false;
  do_media : bad_text MAX_BUNDLE_TEXT_BYTES (do_media_type o) = false;
  do_sized : sized MAX_BUNDLE_OBJECT_BYTES (do_bytes o);
  do_digest : sha256 (do_bytes o) = do_content_digest o
}.
Record withheld_ok (o : WithheldObject) : Prop := {
  wo_text : bad_text MAX_BUNDLE_TEXT_BYTES (wo_registry_id o) = false;
  wo_reason : bad_text MAX_BUNDLE_TEXT_BYTES (wo_reason_code o) = false;
  wo_digest : wo_content_digest o <> zero32
}.
Definition total_bytes (l : list DisclosedObject) : N := foldr (fun o n => blen (do_bytes o) + n)%N 0%N l.

Record bundle_ok (b : DisputeBundle) : Prop := {
  bo_version : db_protocol_version b = ACCOUNTABILITY_PROTOCOL_VERSION;
  bo_object_version : bundle_version b = ACCOUNTABILITY_OBJECT_VERSION;
  bo_case : opt_ok (fun v => bad_text MAX_BUNDLE_TEXT_BYTES v = false) (case_id b);
  bo_producer : sized MAX_BUNDLE_TEXT_BYTES (db_producer_identity b);
  bo_signature : sized 8192 (db_producer_signature b);
  bo_count : (blen (disclosed_objects b) + blen (withheld_objects b) <= MAX_BUNDLE_OBJECTS)%N;
  bo_disclosed : Forall disclosed_ok (disclosed_objects b);
  bo_total : (total_bytes (disclosed_objects b) <= MAX_BUNDLE_TOTAL_BYTES)%N;
  bo_withheld : Forall withheld_ok (withheld_objects b);
  bo_disclosed_sorted : bset_ok (disclosed_key <$> disclosed_objects b);
  bo_withheld_sorted : bset_ok (withheld_key <$> withheld_objects b);
  bo_disjoint : forall d w, d ∈ disclosed_objects b -> w ∈ withheld_objects b -> wo_content_digest w <> do_content_digest d
}.

Lemma bundle_text_ok s : bundle_text s = Ok tt <-> bad_text MAX_BUNDLE_TEXT_BYTES s = false.
Proof. unfold bundle_text. by destruct (bad_text _ s). Qed.

Lemma check_disclosed_ok l total :
  (total <= MAX_BUNDLE_TOTAL_BYTES)%N ->
  check_disclosed total l = Ok tt <-> Forall disclosed_ok l /\ (total + total_bytes l <= MAX_BUNDLE_TOTAL_BYTES)%N.
Proof.
  revert total. induction l as [|o l IH]; intros total Ht; cbn [check_disclosed total_bytes foldr].
  - split; [|done]. intros _. split; [done|lia].
  - rewrite !bind_unit_ok, !bundle_text_ok, guard_err_ok, sized_of, Forall_cons. split.
    + intros (H1 & H2 & Hs & (n & Hn & H)%bind_ok). rewrite !guard_err_ok, negb_false_iff, bool_decide_eq_true in H.
      unfold checked_add64 in Hn. case_match; [|done]. injection Hn as <-. destruct H as (Hm & Hd & H).
      apply N.ltb_ge in Hm. apply IH in H as [Hf Hl]; [|done]. fold (total_bytes l) in *. split; [|lia]. by split.
    + intros [[[H1 H2 Hs Hd] Hf] Hl]. fold (total_bytes l) in *. split_and!; try done.
      unfold checked_add64. rewrite (proj2 (N.leb_le _ _)) by (unfold MAX_BUNDLE_TOTAL_BYTES, u64_max in *; lia).
      cbn [ok_or mbind result_bind]. rewrite !guard_err_ok, negb_false_iff, bool_decide_eq_true, N.ltb_ge.
      split; [lia|]. split; [done|]. apply IH; [lia|]. split; [done|lia].
Qed.

Lemma check_withheld_ok o : check_withheld o = Ok tt <-> withheld_ok o.
Proof.
  unfold check_withheld. rewrite !bind_unit_ok, !bundle_text_ok, guard_err_ok, zero_false. split.
  - intros (? & ? & ? & _). by split.
  - by intros [].
Qed.

Lemma bundle_validate_ok b : bundle_validate b = Ok tt <-> bundle_ok b.
Proof.
  assert (Hc : match case_id b with Some v => negb (is_ok (bundle_text v)) | None => false end = false
    <-> opt_ok (fun v => bad_text MAX_BUNDLE_TEXT_BYTES v = false) (case_id b)).
  { destruct (case_id b) as [v|]; [|by split]. unfold bundle_text. destruct (bad_text _ v) eqn:Hv; cbn.
    - split; [done|]. intros H. by rewrite (H v eq_refl) in Hv.
    - split; [|done]. by intros _ ? [= <-]. }
  unfold bundle_validate, sorted_disclosed, sorted_withheld.
  rewrite !guard_err_ok, !bind_unit_ok, guard_err_ok, check_disclosed_ok, try_each_ok by done.
  rewrite !orb_false_iff, !negb_false_iff, bool_decide_eq_true, N.eqb_eq, !sized_of, Hc, N.ltb_ge, !negb_true_iff,
    !not_increasing_spec, existsb_false, N.add_0_l.
  setoid_rewrite existsb_false. setoid_rewrite check_withheld_ok. setoid_rewrite bool_decide_eq_false. split.
  - intros ((Hv & Ho) & ((Hk & Hp) & Hs) & Hn & (Hd & Ht) & Hw & ((Hds & Hws) & Hx) & _). split; try done.
    intros d w Hin Hin'. rewrite Forall_forall in Hx. specialize (Hx d Hin). rewrite Forall_forall in Hx. by apply Hx.
  - intros []. split_and!; try done. apply Forall_forall. intros d Hd. apply Forall_forall. intros w Hw.
    by apply bo_disjoint0.
Qed.

(** Sorted keys name one object. *)
Lemma disclosed_unique b o o' :
  bundle_ok b -> o ∈ disclosed_objects b -> o' ∈ disclosed_objects b -> disclosed_key o = disclosed_key o' -> o = o'.
Proof.
  intros [] (i & Hi)%list_elem_of_lookup (j & Hj)%list_elem_of_lookup Hk.
  apply bset_ok_NoDup in bo_disclosed_sorted0.
  assert (i = j) as ->; [|congruence].
  eapply (NoDup_lookup (disclosed_key <$> disclosed_objects b) i j (disclosed_key o)); [done|..];
    rewrite list_lookup_fmap; [by rewrite Hi|by rewrite Hj, Hk].
Qed.

Lemma find_disclosed r d l o :
  List.find (fun o => bool_decide (do_registry_id o = r) && bool_decide (do_content_digest o = d)) l = Some o ->
  o ∈ l /\ disclosed_key o = (r, d).
Proof.
  intros [Hin H]%List.find_some. apply andb_true_iff in H as [H1 H2]. apply bool_decide_eq_true in H1, H2.
  split; [by apply list_elem_of_In|]. by unfold disclosed_key; rewrite H1, H2.
Qed.

(** Asking a bundle for an object gives bytes exactly when the bundle is valid and
    lists, under that registry identifier and digest, an object with those bytes; they
    then hash to the digest that was asked for.  An object whose digest is listed as
    withheld is never given out, whatever registry identifier it is asked under. *)
Theorem require_disclosed_exact (b : DisputeBundle) (r : string) (d : Bytes32) (l : bytes) :
  (require_disclosed b r d = Ok l
   <-> bundle_ok b /\ exists o, o ∈ disclosed_objects b /\ disclosed_key o = (r, d) /\ do_bytes o = l /\ sha256 l = d) /\
  (bundle_ok b -> (exists w, w ∈ withheld_objects b /\ wo_content_digest w = d) ->
   require_disclosed b r d = Err MissingObject).
Proof.
  unfold require_disclosed. rewrite bind_unit_ok, bundle_validate_ok. split; [split|].
  - intros [Hb (o & Ho & [= <-])%bind_ok]. split; [done|]. unfold ok_or in Ho. case_match eqn:Hf; [|done].
    injection Ho as ->. apply find_disclosed in Hf as [Hin Hk]. exists o. split_and!; try done.
    pose proof (bo_disclosed b Hb) as Hd. rewrite Forall_forall in Hd. destruct (Hd o Hin). by injection Hk as _ <-.
  - intros [Hb (o & Hin & Hk & <- & _)]. split; [done|]. apply bind_ok.
    destruct (List.find _ _) as [o'|] eqn:Hf.
    + apply find_disclosed in Hf as [Hin' Hk']. exists o'. split; [done|].
      by rewrite (disclosed_unique b o' o Hb Hin' Hin) by congruence.
    + apply List.find_none with (x := o) in Hf; [|by apply list_elem_of_In]. injection Hk as Hr Hd.
      by rewrite !bool_decide_true in Hf.
  - intros Hb (w & Hw & Hd). rewrite (proj2 (bundle_validate_ok b) Hb). cbn [mbind result_bind].
    destruct (List.find _ _) as [o|] eqn:Hf; [|done]. apply find_disclosed in Hf as [Hin [= Hr Hk]].
    by destruct (bo_disjoint b Hb o w Hin Hw); rewrite Hd, Hk.
Qed.

(** ** The identifier *)

Lemma bad_text_len max s : bad_text max s = false -> (max <= u32_max)%N -> text_fits s.
Proof. unfold bad_text, text_fits. rewrite !orb_false_iff, N.ltb_ge. intros (((_ & ?) & _) & _). lia. Qed.

#[local] Instance pf_disclosed : PrefixFree disclosed_ok disclosed_bytes.
Proof.
  intros x y k l [] [] H. unfold disclosed_bytes in H. rewrite <- !app_assoc in H.
  peel_fields H; try (by eapply bad_text_len); try (by eapply sized_fit).
  destruct x, y; simplify_eq/=. by split.
Qed.
#[local] Instance pf_withheld : PrefixFree withheld_ok withheld_bytes.
Proof.
  intros x y k l [] [] H. unfold withheld_bytes in H. rewrite <- !app_assoc in H.
  peel_fields H; try (by eapply bad_text_len).
  destruct x, y; simplify_eq/=. by split.
Qed.

Lemma tables_fit b : bundle_ok b ->
  list_ok disclosed_ok (disclosed_objects b) /\ list_ok withheld_ok (withheld_objects b).
Proof.
  intros []. unfold list_ok, fits, MAX_BUNDLE_OBJECTS, u32_max in *.
  split; (split; [|done]); lia.
Qed.

Lemma bundle_bytes_inj b c : bundle_ok b -> bundle_ok c -> bundle_bytes b = bundle_bytes c -> b = c.
Proof.
  intros Hb Hc H. destruct (tables_fit b Hb) as [Hb1 Hb2], (tables_fit c Hc) as [Hc1 Hc2]. destruct Hb, Hc.
  unfold bundle_bytes in H. rewrite bo_version0, bo_version1, bo_object_version0, bo_object_version1 in H.
  peel H; try (intros v Hv; eapply bad_text_len; [eauto|done]); try (eapply sized_fit; [eassumption|done]);
    try (vm_compute; discriminate).
  destruct b, c; simplify_eq/=. congruence.
Qed.

(** What is hashed last for the identifier of a valid bundle. *)
Definition bundle_preimage (b : DisputeBundle) : bytes :=
  domain_preimage sha256 "csv.accountability.bundle.v1" (bundle_bytes b).

(** The identifier of a bundle binds every object in it, disclosed or withheld, and
    the metadata, unless the strings hashed for the two collide. *)
Theorem bundle_id_binds (b c : DisputeBundle) (id : Bytes32)
  (Hb : bundle_id b = Ok id) (Hc : bundle_id c = Ok id) : 
  b = c \/ collision_in sha256 [bundle_preimage b; bundle_preimage c].
Proof.
  unfold bundle_id, bundle_canonical_bytes in *.
  apply bind_ok in Hb as (x & (Hvb & [= <-])%bind_unit_ok & [= <-]).
  apply bind_ok in Hc as (y & (Hvc & [= <-])%bind_unit_ok & [= H]).
  unfold bundle_preimage. hash_inj H. left.
  symmetry. by apply bundle_bytes_inj; [apply bundle_validate_ok..|].
Qed.
End Bundles.

(** ** A bundle with one object of each kind *)

Definition demo_bundle : DisputeBundle :=
  mkBundle (mkVersion 0 1) 1 (Some "case-1") (fill32 Byte.x01)
    [mkDisclosed "org.diewan.log" "text/plain" (fill32 Byte.x2a) [Byte.x01]]
    [mkWithheld "org.diewan.trace" (fill32 Byte.x05) "privileged"] None [Byte.x03] [Byte.x04].

Lemma bundle_id_binds_witness :
  bundle_id demo_hash demo_bundle = Ok (fill32 Byte.x2a) /\ (demo_bundle = demo_bundle \/
   collision_in demo_hash [bundle_preimage demo_hash demo_bundle; bundle_preimage demo_hash demo_bundle]).
Proof.
  assert (H : bundle_id demo_hash demo_bundle = Ok (fill32 Byte.x2a)) by (vm_compute; reflexivity).
  split; [exact H|]. exact (bundle_id_binds demo_hash demo_bundle demo_bundle (fill32 Byte.x2a) H H).
Defined.
