(* ===== verification/AccountabilityVerifier.v ===== *)
(** * The accountability verifier (csv-accountability-verify: lib.rs, reason_codes.rs)

    One evaluation of a case under a context: twelve stages, each passing, failing, left
    open or unsupported, then a disposition and an assurance profile of eleven
    dimensions.  A case is valid exactly when every record in it is, and refers to the
    others; the disposition and the profile say the same thing, and the profile that is
    computed is always one the accountability layer accepts. *)

From Stdlib Require Import Btauto.
From S2P Require Import Prelude Ord Bytes Hashing Text Accountability Codec Decode Mandate Evidence Receipt Preservation Anchor Intent.

Inductive Stage :=
| StageStructure | StageIntent | StageAuthority | StageExecutor | StageTemporal | StageReplay | StageEvidence
| StageContradictionAndGap | StageReceipt | StageExternalCorroboration | StageCustody | StagePreservation.
Global Instance Stage_eq_dec : EqDecision Stage.
Proof. solve_decision. Defined.

Inductive ReasonCode :=
| MalformedStructure | IntentMismatch | MandateInvalid | WrongExecutor | MandateNotYetValid | MandateExpired
| MandateRevoked | RevocationStatusUnknown | AlgorithmDisallowed | AlgorithmStatusUnknown | ReplayDetected
| ReplayStatusUnknown | EvidenceInvalid | EvidenceReferenceMissing | EvidenceAuthenticityRejected
| EvidenceAuthenticityUnknown | RequiredEvidenceMissing | SelectiveDisclosureLimitsEvaluation
| ContradictoryEvidenceOmitted | ConflictingEvidencePreserved | ReceiptInvalid | ReasonOutcomeAmbiguous
| IndependentSingleUseUnverified | IndependentSingleUseInconsistent | CustodyEvidenceAbsent
| CustodyDisclosureLimited | PreservationEvidenceAbsent | PreservationEvidenceInvalid
| PreservationAuthenticityRejected | PreservationAuthenticityUnknown | PreservationAlgorithmDeprecated
| PreservationAlgorithmDisallowed | PreservationAlgorithmUnknown.

Inductive StageDisposition :=
| StPass | StFail (reason : ReasonCode) | StIndeterminate (reason : ReasonCode) | StUnsupported (reason : ReasonCode).

(** [ReasonCode::registry_id] *)
Definition reason_id (c : ReasonCode) : string :=
  match c with
  | MalformedStructure => "ACCOUNTABILITY.STRUCTURE.MALFORMED"
  | IntentMismatch => "ACCOUNTABILITY.AUTHORITY.INTENT_MISMATCH"
  | MandateInvalid => "ACCOUNTABILITY.AUTHORITY.MANDATE_INVALID"
  | WrongExecutor => "ACCOUNTABILITY.AUTHORITY.WRONG_EXECUTOR"
  | MandateNotYetValid => "ACCOUNTABILITY.TEMPORAL.NOT_YET_VALID"
  | MandateExpired => "ACCOUNTABILITY.TEMPORAL.EXPIRED"
  | MandateRevoked => "ACCOUNTABILITY.TEMPORAL.REVOKED"
  | RevocationStatusUnknown => "ACCOUNTABILITY.TEMPORAL.REVOCATION_UNKNOWN"
  | AlgorithmDisallowed => "ACCOUNTABILITY.TEMPORAL.ALGORITHM_DISALLOWED"
  | AlgorithmStatusUnknown => "ACCOUNTABILITY.TEMPORAL.ALGORITHM_UNKNOWN"
  | ReplayDetected => "ACCOUNTABILITY.SINGLE_USE.REPLAY_DETECTED"
  | ReplayStatusUnknown => "ACCOUNTABILITY.SINGLE_USE.REPLAY_UNKNOWN"
  | EvidenceInvalid => "ACCOUNTABILITY.EVIDENCE.INVALID"
  | EvidenceReferenceMissing => "ACCOUNTABILITY.EVIDENCE.REFERENCE_MISSING"
  | EvidenceAuthenticityRejected => "ACCOUNTABILITY.EVIDENCE.AUTHENTICITY_REJECTED"
  | EvidenceAuthenticityUnknown => "ACCOUNTABILITY.EVIDENCE.AUTHENTICITY_UNKNOWN"
  | RequiredEvidenceMissing => "ACCOUNTABILITY.COMPLETENESS.REQUIRED_EVIDENCE_MISSING"
  | SelectiveDisclosureLimitsEvaluation => "ACCOUNTABILITY.COMPLETENESS.DISCLOSURE_LIMITED"
  | ContradictoryEvidenceOmitted => "ACCOUNTABILITY.CONTRADICTION.OPPOSING_EVIDENCE_OMITTED"
  | ConflictingEvidencePreserved => "ACCOUNTABILITY.CONTRADICTION.CONFLICT_PRESERVED"
  | ReceiptInvalid => "ACCOUNTABILITY.EXECUTION.RECEIPT_INVALID"
  | ReasonOutcomeAmbiguous => "ACCOUNTABILITY.EXECUTION.OUTCOME_AMBIGUOUS"
  | IndependentSingleUseUnverified => "ACCOUNTABILITY.EXTERNAL_CORROBORATION.ANCHOR_ABSENT"
  | IndependentSingleUseInconsistent => "ACCOUNTABILITY.EXTERNAL_CORROBORATION.ANCHOR_INCONSISTENT"
  | CustodyEvidenceAbsent => "ACCOUNTABILITY.CUSTODY.EVIDENCE_ABSENT"
  | CustodyDisclosureLimited => "ACCOUNTABILITY.CUSTODY.DISCLOSURE_LIMITED"
  | PreservationEvidenceAbsent => "ACCOUNTABILITY.PRESERVATION.EVIDENCE_ABSENT"
  | PreservationEvidenceInvalid => "ACCOUNTABILITY.PRESERVATION.EVIDENCE_INVALID"
  | PreservationAuthenticityRejected => "ACCOUNTABILITY.PRESERVATION.AUTHENTICITY_REJECTED"
  | PreservationAuthenticityUnknown => "ACCOUNTABILITY.PRESERVATION.AUTHENTICITY_UNKNOWN"
  | PreservationAlgorithmDeprecated => "ACCOUNTABILITY.PRESERVATION.ALGORITHM_DEPRECATED"
  | PreservationAlgorithmDisallowed => "ACCOUNTABILITY.PRESERVATION.ALGORITHM_DISALLOWED"
  | PreservationAlgorithmUnknown => "ACCOUNTABILITY.PRESERVATION.ALGORITHM_UNKNOWN"
  end.

(** ** Reason codes (reason_codes.rs) *)

Definition REQUIREMENT_MET : string := "ACCOUNTABILITY.REQUIREMENT_MET".
Definition SINGLE_USE_INDEPENDENTLY_ENFORCED : string := "ACCOUNTABILITY.SINGLE_USE.INDEPENDENTLY_ENFORCED".
Definition CSV_SEAL_CONSUMPTION_VALID : string := "ACCOUNTABILITY.EVIDENCE.CSV_SEAL_CONSUMPTION_VALID".
Definition ALL_REASON_CODES : list ReasonCode :=
  [MalformedStructure; IntentMismatch; MandateInvalid; WrongExecutor; MandateNotYetValid; MandateExpired;
   MandateRevoked; RevocationStatusUnknown; AlgorithmDisallowed; AlgorithmStatusUnknown; ReplayDetected;
   ReplayStatusUnknown; EvidenceInvalid; EvidenceReferenceMissing; EvidenceAuthenticityRejected;
   EvidenceAuthenticityUnknown; RequiredEvidenceMissing; SelectiveDisclosureLimitsEvaluation;
   ContradictoryEvidenceOmitted; ConflictingEvidencePreserved; ReceiptInvalid; ReasonOutcomeAmbiguous;
   IndependentSingleUseUnverified; IndependentSingleUseInconsistent; CustodyEvidenceAbsent;
   CustodyDisclosureLimited; PreservationEvidenceAbsent; PreservationEvidenceInvalid;
   PreservationAuthenticityRejected; PreservationAuthenticityUnknown; PreservationAlgorithmDeprecated;
   PreservationAlgorithmDisallowed; PreservationAlgorithmUnknown].
Definition RESERVED_ANCHOR_CODES : list string :=
  [SINGLE_USE_INDEPENDENTLY_ENFORCED; CSV_SEAL_CONSUMPTION_VALID;
   "ACCOUNTABILITY.EVIDENCE.CSV_SEAL_COMMITMENT_ANCHORED"].

(** [code.split('.')]: the pieces between separators, of which there is always one. *)
Fixpoint split_bytes (sep : byte) (l : bytes) : list bytes :=
  match l with
  | [] => [[]]
  | b :: l =>
      if bool_decide (b = sep) then [] :: split_bytes sep l
      else match split_bytes sep l with p :: ps => (b :: p) :: ps | [] => [[b]] end
  end.
Definition is_well_formed (code : string) : bool :=
  let segments := split_bytes Byte.x2e (as_bytes code) in
  forallb (fun segment => negb (bool_decide (segment = [])) &&
    forallb (fun b => let n := Byte.to_N b in in_range 65 90 n || in_range 48 57 n || (n =? 95)%N) segment) segments
  && (2 <=? blen segments)%N.

(** ** Inputs and reports *)

Record StageResult := mkStageResult { sr_stage : Stage; sr_disposition : StageDisposition }.
Inductive VerificationDisposition := ReportValid | ReportInvalid | ReportIndeterminate.
Record TemporalContext := mkTemporal {
  tc_evaluation_time : N; tc_revocation_snapshot_digest : Bytes32; tc_algorithm_policy_digest : Bytes32
}.
Record EvidenceSummary := mkSummary {
  claims : N; observations : N; attestations : N; gaps : N; counterclaims : N; contradictions : N;
  custody_records : N; withheld_locators : N
}.
Record VerificationReport := mkReport {
  vr_disposition : VerificationDisposition;
  vr_stages : list StageResult;
  evidence_summary : EvidenceSummary;
  temporal_context : TemporalContext
}.
Inductive RevocationStatus := NotRevoked | IsRevoked | RevocationUnknown.
Inductive AlgorithmStatus := Allowed | Disallowed | AlgorithmUnknown.
Inductive ReplayStatus := Fresh | Replayed | ReplayUnknown.
Inductive AuthenticityStatus := AuthVerified | AuthRejected | AuthUnknown.
Global Instance AuthenticityStatus_eq_dec : EqDecision AuthenticityStatus.
Proof. solve_decision. Defined.

Notation evidence_graph := (list (EvidenceNodeId * EvidenceNode)).
Notation envelope_chain := (list (PreservationEnvelopeId * PreservationEnvelope)).

Record VerificationInput := mkInput {
  vi_intent : ActionIntent;
  vi_mandate : ActionMandate;
  vi_attempt : ExecutionAttempt;
  vi_receipt : ExecutionReceipt;
  vi_evidence : evidence_graph;
  evidence_authenticity : list (EvidenceNodeId * AuthenticityStatus);
  expected_executor : bytes;
  revocation_status : RevocationStatus;
  algorithm_status : AlgorithmStatus;
  replay_status : ReplayStatus;
  single_use_anchor : option SealConsumptionRecord;
  preservation_envelopes : envelope_chain;
  preservation_authenticity : list (PreservationEnvelopeId * AuthenticityStatus);
  preservation_algorithm_statuses : list AlgorithmStatusEntry
}.

(** ** Evidence as a whole *)

Definition summary_zero : EvidenceSummary := mkSummary 0 0 0 0 0 0 0 0.
Definition withheld (n : EvidenceNode) : bool :=
  match source_locator n with Withheld _ => true | Disclosed _ => false end.
(** The body of the loop of [summarize_evidence]; the counters are 32 bits wide. *)
Definition summarize_one (s : EvidenceSummary) (n : EvidenceNode) : EvidenceSummary :=
  let '(mkSummary c o a g cc ct cu w) := s in
  let w' := if withheld n then wrap32 (w + 1) else w in
  match kind n with
  | Claim _ => mkSummary (wrap32 (c + 1)) o a g cc ct cu w'
  | Observation _ => mkSummary c (wrap32 (o + 1)) a g cc ct cu w'
  | Attestation _ => mkSummary c o (wrap32 (a + 1)) g cc ct cu w'
  | EvidenceGap _ _ => mkSummary c o a (wrap32 (g + 1)) cc ct cu w'
  | Counterclaim _ _ => mkSummary c o a g (wrap32 (cc + 1)) ct cu w'
  | Contradiction _ _ _ => mkSummary c o a g cc (wrap32 (ct + 1)) cu w'
  | CustodyRecord _ _ _ => mkSummary c o a g cc ct (wrap32 (cu + 1)) w'
  end.
Definition summarize_evidence (evidence : evidence_graph) : EvidenceSummary :=
  fold_left (fun s p => summarize_one s p.2) evidence summary_zero.

Definition is_gap (k : EvidenceKind) : bool := match k with EvidenceGap _ _ => true | _ => false end.
Definition is_counterclaim (k : EvidenceKind) : bool := match k with Counterclaim _ _ => true | _ => false end.
Definition is_custody (k : EvidenceKind) : bool := match k with CustodyRecord _ _ _ => true | _ => false end.

Definition has_unpaired_counterclaim (evidence : evidence_graph) : bool :=
  existsb (fun '(counterclaim_id, node) =>
    is_counterclaim (kind node) &&
    negb (existsb (fun '(_, candidate) =>
            match kind candidate with
            | Contradiction l r _ => bool_decide (l = counterclaim_id) || bool_decide (r = counterclaim_id)
            | _ => false
            end) evidence)) evidence.
Definition authenticity_assessments_are_canonical (evidence : evidence_graph)
    (assessments : list (EvidenceNodeId * AuthenticityStatus)) : bool :=
  negb (not_increasing assessments.*1) &&
  forallb (fun '(id, _) => existsb (fun '(evidence_id, node) =>
    bool_decide (evidence_id = id) && is_some (authenticity node)) evidence) assessments.
Definition receipt_references (r : ExecutionReceipt) : list EvidenceNodeId :=
  dispatch_evidence_refs r ++ target_evidence_refs r ++ flat_map evidence_refs (evidence_requirements_status r).
Definition receipt_references_missing (r : ExecutionReceipt) (evidence : evidence_graph) : bool :=
  existsb (fun reference => negb (existsb (fun '(id, _) => bool_decide (id = reference)) evidence)) (receipt_references r).

(** ** Preservation *)

Definition bad_algorithm_entry (e : AlgorithmStatusEntry) : bool :=
  (slen (alg_id e) =? 0)%N || (MAX_PRESERVATION_TEXT_BYTES <? slen (alg_id e))%N || negb (is_trimmed (alg_id e))
  || negb (is_ascii (alg_id e)) || existsb is_control (chars (alg_id e)).

Definition find_status (l : list (PreservationEnvelopeId * AuthenticityStatus)) (id : PreservationEnvelopeId)
  : option AuthenticityStatus :=
  snd <$> List.find (fun p => bool_decide (p.1 = id)) l.
Definition find_algorithm (l : list AlgorithmStatusEntry) (id : string) : option AlgorithmPolicyStatus :=
  alg_status <$> List.find (fun e => bool_decide (alg_id e = id)) l.

(** The loop over the envelopes: a rejected one ends it, the others say whether one is unknown. *)
Fixpoint check_authenticity (l : list (PreservationEnvelopeId * AuthenticityStatus)) (unknown : bool)
    (envelopes : envelope_chain) : result ReasonCode bool :=
  match envelopes with
  | [] => Ok unknown
  | (id, _) :: envelopes =>
      match find_status l id with
      | Some AuthVerified => check_authenticity l unknown envelopes
      | Some AuthRejected => Err PreservationAuthenticityRejected
      | Some AuthUnknown | None => check_authenticity l true envelopes
      end
  end.
(** The loop over the algorithms of the latest envelope, which remembers [deprecated] and [unknown] *)
Fixpoint check_algorithms (l : list AlgorithmStatusEntry) (deprecated unknown : bool) (ids : list string)
  : result ReasonCode (bool * bool) :=
  match ids with
  | [] => Ok (deprecated, unknown)
  | id :: ids =>
      match find_algorithm l id with
      | Some AlgAllowed => check_algorithms l deprecated unknown ids
      | Some AlgDeprecated => check_algorithms l true unknown ids
      | Some AlgDisallowed => Err PreservationAlgorithmDisallowed
      | Some AlgUnknown | None => check_algorithms l deprecated true ids
      end
  end.

Section Verifier.
Variable sha256 : bytes -> Bytes32.

Definition assess_preservation (envelopes : envelope_chain)
    (authenticity : list (PreservationEnvelopeId * AuthenticityStatus)) (statuses : list AlgorithmStatusEntry)
  : StageDisposition :=
  if bool_decide (envelopes = []) then StUnsupported PreservationEvidenceAbsent
  else if negb (is_ok (validate_preservation_chain sha256 envelopes)) || existsb bad_algorithm_entry statuses
          || not_increasing (alg_id <$> statuses) || not_increasing authenticity.*1
  then StFail PreservationEvidenceInvalid
  else match check_authenticity authenticity false envelopes with
  | Err reason => StFail reason
  | Ok true => StIndeterminate PreservationAuthenticityUnknown
  | Ok false =>
      match last envelopes with
      | None => StUnsupported PreservationEvidenceAbsent
      | Some (_, latest) =>
          match check_algorithms statuses false false (algorithm_ids latest) with
          | Err reason => StFail reason
          | Ok (_, true) => StIndeterminate PreservationAlgorithmUnknown
          | Ok (true, false) => StIndeterminate PreservationAlgorithmDeprecated
          | Ok (false, false) => StPass
          end
      end
  end.

(** ** The stages of [verify], in order *)

Definition structure_stage (i : VerificationInput) : StageDisposition :=
  if is_ok (intent_validate (vi_intent i)) && is_ok (mandate_validate (vi_mandate i))
     && is_ok (attempt_validate sha256 (vi_attempt i) (vi_mandate i))
  then StPass else StFail MalformedStructure.

Definition intent_stage (i : VerificationInput) : StageDisposition :=
  match action_intent_id sha256 (vi_intent i) with
  | Ok id =>
      if bool_decide (id = intent_id (vi_mandate i)) && bool_decide (id = at_intent_id (vi_attempt i))
      then StPass else StFail IntentMismatch
  | Err _ => StFail IntentMismatch
  end.

Definition authority_stage (i : VerificationInput) : StageDisposition :=
  if is_ok (mandate_validate (vi_mandate i)) then StPass else StFail MandateInvalid.

Definition executor_stage (i : VerificationInput) : StageDisposition :=
  let subject_matches :=
    match subject (vi_mandate i) with
    | SubjectIdentity identity => bool_decide (identity = expected_executor i)
    | ExecutorClass _ => bool_decide (executor_identity (vi_attempt i) = expected_executor i)
    end in
  if subject_matches && bool_decide (executor_identity (vi_attempt i) = expected_executor i)
  then StPass else StFail WrongExecutor.

Definition temporal_stage (c : VerificationContext) (i : VerificationInput) : StageDisposition :=
  if (evaluation_time c <? valid_from (vi_mandate i))%N then StFail MandateNotYetValid
  else if (expires_at (vi_mandate i) <=? evaluation_time c)%N then StFail MandateExpired
  else match revocation_status i, algorithm_status i with
  | IsRevoked, _ => StFail MandateRevoked
  | _, Disallowed => StFail AlgorithmDisallowed
  | RevocationUnknown, _ => StIndeterminate RevocationStatusUnknown
  | _, AlgorithmUnknown => StIndeterminate AlgorithmStatusUnknown
  | NotRevoked, Allowed => StPass
  end.

Definition replay_stage (i : VerificationInput) : StageDisposition :=
  match replay_status i with
  | Fresh => StPass
  | Replayed => StFail ReplayDetected
  | ReplayUnknown => StIndeterminate ReplayStatusUnknown
  end.

Definition evidence_stage (i : VerificationInput) : StageDisposition :=
  let evidence := vi_evidence i in
  let assessed := evidence_authenticity i in
  if negb (is_ok (validate_evidence_graph sha256 evidence))
     || negb (authenticity_assessments_are_canonical evidence assessed) then StFail EvidenceInvalid
  else if receipt_references_missing (vi_receipt i) evidence then StFail EvidenceReferenceMissing
  else if existsb (fun '(_, status) => bool_decide (status = AuthRejected)) assessed
  then StFail EvidenceAuthenticityRejected
  else if existsb (fun status => negb (satisfied status)) (evidence_requirements_status (vi_receipt i))
          || existsb (fun '(_, node) => is_gap (kind node)) evidence
  then StIndeterminate RequiredEvidenceMissing
  else if existsb (fun '(_, status) => bool_decide (status = AuthUnknown)) assessed
          || existsb (fun '(id, node) => is_some (authenticity node)
                        && negb (existsb (fun '(assessed_id, _) => bool_decide (assessed_id = id)) assessed)) evidence
  then StIndeterminate EvidenceAuthenticityUnknown
  else if (0 <? withheld_locators (summarize_evidence evidence))%N
  then StIndeterminate SelectiveDisclosureLimitsEvaluation
  else StPass.

Definition contradiction_stage (i : VerificationInput) : StageDisposition :=
  if negb (is_ok (validate_evidence_graph sha256 (vi_evidence i))) then StFail EvidenceInvalid
  else if has_unpaired_counterclaim (vi_evidence i) then StIndeterminate ContradictoryEvidenceOmitted
  else if (0 <? contradictions (summarize_evidence (vi_evidence i)))%N
  then StIndeterminate ConflictingEvidencePreserved
  else if (0 <? gaps (summarize_evidence (vi_evidence i)))%N then StIndeterminate RequiredEvidenceMissing
  else StPass.

Definition receipt_stage (i : VerificationInput) : StageDisposition :=
  if negb (is_ok (receipt_validate sha256 (vi_receipt i) (vi_mandate i) (vi_attempt i))) then StFail ReceiptInvalid
  else if bool_decide (outcome (vi_receipt i) = Unknown) then StIndeterminate ReasonOutcomeAmbiguous
  else StPass.

Definition corroboration_stage (i : VerificationInput) : StageDisposition :=
  match single_use_anchor i with
  | None => StUnsupported IndependentSingleUseUnverified
  | Some record =>
      match assess record (at_reservation_token (vi_attempt i)) (intent_id (vi_mandate i)) with
      | IndependentlyEnforced => StPass
      | Inconsistent | Malformed => StIndeterminate IndependentSingleUseInconsistent
      end
  end.

Definition custody_stage (i : VerificationInput) : StageDisposition :=
  if negb (is_ok (validate_evidence_graph sha256 (vi_evidence i))) then StFail EvidenceInvalid
  else if (custody_records (summarize_evidence (vi_evidence i)) =? 0)%N then StUnsupported CustodyEvidenceAbsent
  else if existsb (fun '(_, node) => is_custody (kind node) && withheld node) (vi_evidence i)
  then StIndeterminate CustodyDisclosureLimited
  else StPass.

Definition preservation_stage (i : VerificationInput) : StageDisposition :=
  assess_preservation (preservation_envelopes i) (preservation_authenticity i) (preservation_algorithm_statuses i).

Definition evaluate_stages (c : VerificationContext) (i : VerificationInput) : list StageResult :=
  [mkStageResult StageStructure (structure_stage i); mkStageResult StageIntent (intent_stage i);
   mkStageResult StageAuthority (authority_stage i); mkStageResult StageExecutor (executor_stage i);
   mkStageResult StageTemporal (temporal_stage c i); mkStageResult StageReplay (replay_stage i);
   mkStageResult StageEvidence (evidence_stage i); mkStageResult StageContradictionAndGap (contradiction_stage i);
   mkStageResult StageReceipt (receipt_stage i); mkStageResult StageExternalCorroboration (corroboration_stage i);
   mkStageResult StageCustody (custody_stage i); mkStageResult StagePreservation (preservation_stage i)].

Definition is_fail (d : StageDisposition) : bool := match d with StFail _ => true | _ => false end.
Definition is_indeterminate (d : StageDisposition) : bool := match d with StIndeterminate _ => true | _ => false end.
Definition is_unsupported (d : StageDisposition) : bool := match d with StUnsupported _ => true | _ => false end.

Definition dispose (stages : list StageResult) : VerificationDisposition :=
  if existsb (fun s => is_fail (sr_disposition s)) stages then ReportInvalid
  else if existsb (fun s => is_indeterminate (sr_disposition s)) stages then ReportIndeterminate
  else ReportValid.

Definition verify (c : VerificationContext) (i : VerificationInput)
  : result ContextError (ContextBoundOutput VerificationReport) :=
  let stages := evaluate_stages c i in
  bound_output sha256 c
    (mkReport (dispose stages) stages (summarize_evidence (vi_evidence i))
       (mkTemporal (evaluation_time c) (revocation_snapshot_digest c) (algorithm_policy_digest c))).
End Verifier.

(** ** The assurance profile *)

Definition in_stages (stages : list Stage) (r : StageResult) : bool := bool_decide (sr_stage r ∈ stages).
Definition reason_of (d : StageDisposition) : option string :=
  match d with
  | StFail reason | StIndeterminate reason | StUnsupported reason => Some (reason_id reason)
  | StPass => None
  end.

Definition NOT_EVALUATED : string := "Not evaluated by accountability profile v0.1".
Definition CONTEXT_LIMITED : string := "Conclusion is limited to the selected, hash-bound verification context".

Definition dimension_status (results : list StageResult) : DimensionStatus :=
  if existsb (fun r => is_fail (sr_disposition r)) results then NotSatisfied
  else if existsb (fun r => is_indeterminate (sr_disposition r)) results then Accountability.Indeterminate
  else if bool_decide (results = []) || existsb (fun r => is_unsupported (sr_disposition r)) results
  then NotApplicable else Satisfied.

Definition evaluated_dimension (dimension : AssuranceDimension) (report : VerificationReport) (stages : list Stage)
  : DimensionResult :=
  let results := filter (in_stages stages) (vr_stages report) in
  let status := dimension_status results in
  let reasons := omap (fun r => reason_of (sr_disposition r)) results in
  let reasons := if bool_decide (status = Satisfied) then reasons ++ [REQUIREMENT_MET] else reasons in
  mkDimensionResult dimension status None (bset_of_list reasons) []
    (if bool_decide (status = NotApplicable) then [NOT_EVALUATED] else [CONTEXT_LIMITED]).

Definition deferred_dimension (dimension : AssuranceDimension) : DimensionResult :=
  mkDimensionResult dimension NotApplicable None ["ACCOUNTABILITY.PROFILE_V0_1.NOT_EVALUATED"] [] [NOT_EVALUATED].

Definition external_corroboration_dimension (report : VerificationReport) : DimensionResult :=
  let disposition :=
    sr_disposition <$> List.find (fun r => bool_decide (sr_stage r = StageExternalCorroboration)) (vr_stages report) in
  let '(status, codes, limitation) :=
    match disposition with
    | Some StPass =>
        (Satisfied, bset_of_list [SINGLE_USE_INDEPENDENTLY_ENFORCED; CSV_SEAL_CONSUMPTION_VALID], CONTEXT_LIMITED)
    | Some (StIndeterminate reason) =>
        (Accountability.Indeterminate, [reason_id reason],
         "A preserved single-use anchor did not corroborate this mandate")
    | _ =>
        (NotApplicable, [reason_id IndependentSingleUseUnverified],
         "No independent single-use anchor was preserved for this mandate")
    end in
  mkDimensionResult ExternalCorroboration status None codes [] [limitation].

Definition assurance_profile (id : VerificationContextId) (report : VerificationReport) : AssuranceProfile :=
  mkAssuranceProfile id
    [evaluated_dimension Structural report [StageStructure];
     deferred_dimension Cryptographic;
     deferred_dimension Identity;
     evaluated_dimension Authority report [StageIntent; StageAuthority; StageExecutor];
     evaluated_dimension Temporal report [StageTemporal];
     evaluated_dimension SingleUse report [StageReplay];
     evaluated_dimension Execution report [StageReceipt];
     external_corroboration_dimension report;
     evaluated_dimension Completeness report [StageEvidence; StageContradictionAndGap];
     evaluated_dimension Custody report [StageCustody];
     evaluated_dimension Preservation report [StagePreservation]].

(** ** Reason codes *)

Lemma all_reason_codes c : c ∈ ALL_REASON_CODES.
Proof. apply list_elem_of_In. destruct c; cbv [ALL_REASON_CODES In]; tauto. Qed.

Global Instance ReasonCode_eq_dec : EqDecision ReasonCode.
Proof. solve_decision. Defined.

(** Every reason code is in the table of all codes, its identifier is well formed and
    is accepted as text in a profile, and no two codes share an identifier, nor does one
    take an identifier reserved for anchors. *)
Theorem reason_codes_sound (c d : ReasonCode) :
  c ∈ ALL_REASON_CODES /\ is_well_formed (reason_id c) = true /\ invalid_text (reason_id c) = false /\
  (reason_id c = reason_id d -> c = d) /\ reason_id c ∉ RESERVED_ANCHOR_CODES /\ reason_id c <> REQUIREMENT_MET.
Proof.
  pose proof (all_reason_codes c) as Hc. pose proof (all_reason_codes d) as Hd.
  assert (Hall : forallb (fun c => is_well_formed (reason_id c) && negb (invalid_text (reason_id c)) &&
      forallb (fun d => negb (bool_decide (reason_id c = reason_id d)) || bool_decide (c = d)) ALL_REASON_CODES &&
      negb (bool_decide (reason_id c ∈ REQUIREMENT_MET :: RESERVED_ANCHOR_CODES))) ALL_REASON_CODES = true)
    by (vm_compute; reflexivity).
  rewrite forallb_forall in Hall. specialize (Hall c (proj1 (list_elem_of_In _ _) Hc)).
  rewrite !andb_true_iff, !negb_true_iff, forallb_forall, bool_decide_eq_false, elem_of_cons in Hall.
  destruct Hall as (((Hw & Ht) & Hi) & Hr). specialize (Hi d (proj1 (list_elem_of_In _ _) Hd)).
  split_and!; try done; [|naive_solver..].
  intros He. rewrite bool_decide_true in Hi by done. by apply bool_decide_eq_true in Hi.
Qed.

(** ** The profile is always accepted *)

Definition profile_codes : list string :=
  REQUIREMENT_MET :: SINGLE_USE_INDEPENDENTLY_ENFORCED :: CSV_SEAL_CONSUMPTION_VALID
  :: "ACCOUNTABILITY.PROFILE_V0_1.NOT_EVALUATED" :: (reason_id <$> ALL_REASON_CODES).

Lemma profile_codes_ok : Forall text_ok profile_codes.
Proof.
  assert (H : forallb (fun s => negb (invalid_text s)) profile_codes = true) by (vm_compute; reflexivity).
  rewrite forallb_forall in H. apply Forall_forall. intros s Hs%list_elem_of_In.
  specialize (H s Hs). by apply negb_true_iff in H.
Qed.

Lemma elem_of_bset (l : list string) x : x ∈ bset_of_list l <-> x ∈ l.
Proof. apply elem_of_bset_of_list. Qed.

Lemma reason_id_code c : reason_id c ∈ profile_codes.
Proof. unfold profile_codes. do 4 apply list_elem_of_further. apply list_elem_of_fmap. exists c. split; [done|apply all_reason_codes]. Qed.

(** A dimension whose codes are of the profile and sorted, with one limitation. *)
Lemma computed_dimension_ok d status codes limitation :
  codes ⊆ profile_codes -> bset_ok codes -> invalid_text limitation = false ->
  dimension_ok (mkDimensionResult d status None codes [] [limitation]).
Proof.
  intros Hin Hs Hl. assert (Hn : length codes <= length profile_codes).
  { apply submseteq_length, NoDup_submseteq; [by apply bset_ok_NoDup|]. intros x Hx. by apply Hin. }
  pose proof profile_codes_ok as Ht. rewrite Forall_forall in Ht.
  split; cbn; try done.
  - unfold blen, MAX_ASSURANCE_ITEMS. change (length profile_codes) with 37 in Hn. lia.
  - apply Forall_forall. auto.
  - by constructor; [|apply Forall_nil].
  - by apply SSorted_cons; [apply SSorted_nil|apply Forall_nil_2].
  - constructor.
Qed.

Lemma evaluated_dimension_ok d report stages : dimension_ok (evaluated_dimension d report stages).
Proof.
  unfold evaluated_dimension. set (results := filter _ _). set (status := dimension_status results).
  set (codes := if bool_decide (status = Satisfied) then _ else _).
  assert (Hc : codes ⊆ profile_codes).
  { assert (Hr : omap (fun r => reason_of (sr_disposition r)) results ⊆ profile_codes).
    { intros x (r & _ & Hx)%list_elem_of_omap. destruct (sr_disposition r); cbn in Hx; [done|..];
        injection Hx as <-; apply reason_id_code. }
    subst codes. case_bool_decide; [|done]. intros x [Hx|Hx]%elem_of_app; [by apply Hr|].
    apply list_elem_of_singleton in Hx as ->. by apply list_elem_of_here. }
  replace (if bool_decide (status = NotApplicable) then [NOT_EVALUATED] else [CONTEXT_LIMITED])
    with [if bool_decide (status = NotApplicable) then NOT_EVALUATED else CONTEXT_LIMITED] by (by case_bool_decide).
  apply computed_dimension_ok.
  - intros x Hx. apply Hc. by apply elem_of_bset.
  - apply bset_of_list_ok.
  - case_bool_decide; by vm_compute.
Qed.

Lemma deferred_dimension_ok d : dimension_ok (deferred_dimension d).
Proof.
  apply computed_dimension_ok; [|by apply SSorted_cons; [apply SSorted_nil|apply Forall_nil_2]|by vm_compute].
  intros x ->%list_elem_of_singleton. unfold profile_codes. do 3 apply list_elem_of_further. apply list_elem_of_here.
Qed.

Lemma external_dimension_ok report : dimension_ok (external_corroboration_dimension report).
Proof.
  unfold external_corroboration_dimension.
  assert (Hone : forall c, [reason_id c] ⊆ profile_codes) by (intros c x ->%list_elem_of_singleton; apply reason_id_code).
  assert (Hs : forall c : string, bset_ok [c]) by (intros c; apply SSorted_cons; [apply SSorted_nil|apply Forall_nil_2]).
  destruct (sr_disposition <$> _) as [[]|]; apply computed_dimension_ok; try apply Hone; try apply Hs; try by vm_compute.
  - intros x Hx. apply elem_of_bset in Hx. unfold profile_codes. set_solver.
  - apply bset_of_list_ok.
Qed.

Lemma external_is report : dr_dimension (external_corroboration_dimension report) = ExternalCorroboration.
Proof. unfold external_corroboration_dimension. by destruct (sr_disposition <$> _) as [[]|]. Qed.

(** Whatever report it is computed from, the assurance profile is one the
    accountability layer accepts: all eleven dimensions in their order, every list of
    codes and limitations sorted and within bounds, every text valid. *)
Theorem assurance_profile_accepted (id : VerificationContextId) (report : VerificationReport) :
  profile_validate (assurance_profile id report) = Ok tt.
Proof.
  apply profile_validate_ok. split; [cbn; by rewrite external_is|]. unfold assurance_profile. cbn [profile_dimensions].
  repeat (apply Forall_cons; split;
    [first [apply evaluated_dimension_ok|apply deferred_dimension_ok|apply external_dimension_ok]|]).
  apply Forall_nil_2.
Qed.

(** ** The profile and the disposition agree *)

(** What a reader of the profile alone would conclude. *)
Definition profile_disposition (p : AssuranceProfile) : VerificationDisposition :=
  if existsb (fun r => bool_decide (dr_status r = NotSatisfied)) (profile_dimensions p) then ReportInvalid
  else if existsb (fun r => bool_decide (dr_status r = Accountability.Indeterminate)) (profile_dimensions p)
  then ReportIndeterminate else ReportValid.

Lemma status_not_satisfied l :
  bool_decide (dimension_status l = NotSatisfied) = existsb (fun r => is_fail (sr_disposition r)) l.
Proof. unfold dimension_status. destruct (existsb _ l); [done|]. by repeat case_match. Qed.
Lemma status_indeterminate l :
  existsb (fun r => is_fail (sr_disposition r)) l = false ->
  bool_decide (dimension_status l = Accountability.Indeterminate)
  = existsb (fun r => is_indeterminate (sr_disposition r)) l.
Proof. intros Hf. unfold dimension_status. rewrite Hf.
  destruct (existsb (fun r => is_indeterminate _) l); [done|]. by repeat case_match.
Qed.

Lemma status_indeterminate_within report S :
  existsb (fun r => is_fail (sr_disposition r)) (vr_stages report) = false ->
  bool_decide (dimension_status (filter (in_stages S) (vr_stages report)) = Accountability.Indeterminate)
  = existsb (fun r => is_indeterminate (sr_disposition r)) (filter (in_stages S) (vr_stages report)).
Proof.
  intros Hf. apply status_indeterminate. apply existsb_false. apply existsb_false in Hf.
  apply Forall_forall. rewrite Forall_forall in Hf. intros r [_ Hr]%list_elem_of_filter. by apply Hf.
Qed.

Lemma corroboration_never_fails i : is_fail (corroboration_stage i) = false.
Proof. unfold corroboration_stage. by repeat case_match. Qed.

(** The order in which [verify] pushes its results *)
Definition ALL_STAGES : list Stage :=
  [StageStructure; StageIntent; StageAuthority; StageExecutor; StageTemporal; StageReplay; StageEvidence;
   StageContradictionAndGap; StageReceipt; StageExternalCorroboration; StageCustody; StagePreservation].

Section Agreement.
Variable sha256 : bytes -> Bytes32.

(** The dimensions of a computed profile that can fail or stay open, with their stages. *)
Lemma evaluated_stages_split c i :
  exists d : Stage -> StageDisposition,
    evaluate_stages sha256 c i = (fun s => mkStageResult s (d s)) <$> ALL_STAGES /\
    is_fail (d StageExternalCorroboration) = false.
Proof.
  exists (fun s => match s with
    | StageStructure => structure_stage sha256 i | StageIntent => intent_stage sha256 i
    | StageAuthority => authority_stage i | StageExecutor => executor_stage i
    | StageTemporal => temporal_stage c i | StageReplay => replay_stage i
    | StageEvidence => evidence_stage sha256 i | StageContradictionAndGap => contradiction_stage sha256 i
    | StageReceipt => receipt_stage sha256 i | StageExternalCorroboration => corroboration_stage i
    | StageCustody => custody_stage sha256 i | StagePreservation => preservation_stage sha256 i
    end).
  split; [done|]. apply corroboration_never_fails.
Qed.

Lemma evaluated_status d report S :
  dr_status (evaluated_dimension d report S) = dimension_status (filter (in_stages S) (vr_stages report)).
Proof. done. Qed.

Lemma any_stage (f : StageDisposition -> bool) (d : Stage -> StageDisposition) S l :
  existsb (fun r => f (sr_disposition r)) (filter (in_stages S) ((fun s => mkStageResult s (d s)) <$> l))
  = existsb (fun s => bool_decide (s ∈ S) && f (d s)) l.
Proof.
  induction l as [|s l IH]; [done|]. cbn [fmap list_fmap existsb]. rewrite filter_cons.
  case_decide as Hs; unfold in_stages in Hs; cbn [sr_stage] in Hs.
  - apply Is_true_true_1 in Hs. rewrite Hs. cbn [existsb sr_disposition]. by rewrite IH.
  - apply Is_true_false_1 in Hs. rewrite Hs. exact IH.
Qed.

Lemma external_status report d (l : list Stage) :
  vr_stages report = (fun s => mkStageResult s (d s)) <$> l -> StageExternalCorroboration ∈ l ->
  bool_decide (dr_status (external_corroboration_dimension report) = NotSatisfied) = false /\
  bool_decide (dr_status (external_corroboration_dimension report) = Accountability.Indeterminate)
  = is_indeterminate (d StageExternalCorroboration).
Proof.
  intros Hs Hin. unfold external_corroboration_dimension. rewrite Hs.
  assert (Hf : List.find (fun r => bool_decide (sr_stage r = StageExternalCorroboration))
    ((fun s => mkStageResult s (d s)) <$> l) = Some (mkStageResult StageExternalCorroboration (d StageExternalCorroboration))).
  { clear Hs. induction l as [|s l IH]; [by apply elem_of_nil in Hin|]. cbn [fmap list_fmap List.find sr_stage].
    case_bool_decide as He; [by rewrite He|]. apply IH. apply elem_of_cons in Hin as [Heq|Hin]; [by destruct He|done]. }
  rewrite Hf. cbn [fmap option_fmap option_map sr_disposition].
  by destruct (d StageExternalCorroboration).
Qed.

(** Which stages a list mentions is a matter of computation. *)
Ltac compute_stages := repeat match goal with
  | |- context [bool_decide (?a ∈ ?b)] =>
      let v := eval vm_compute in (bool_decide (a ∈ b)) in change (bool_decide (a ∈ b)) with v
  end.

(** Every stage but one belongs to a dimension. *)
Lemma stages_covered (f : StageDisposition -> bool) (d : Stage -> StageDisposition) (external : bool) :
  external = f (d StageExternalCorroboration) ->
  let any S := existsb (fun r => f (sr_disposition r)) (filter (in_stages S) ((fun s => mkStageResult s (d s)) <$> ALL_STAGES)) in
  any [StageStructure] || (any [StageIntent; StageAuthority; StageExecutor] || (any [StageTemporal] || (any [StageReplay]
  || (any [StageReceipt] || (external || (any [StageEvidence; StageContradictionAndGap] || (any [StageCustody]
  || (any [StagePreservation] || false))))))))
  = existsb (fun r => f (sr_disposition r)) ((fun s => mkStageResult s (d s)) <$> ALL_STAGES).
Proof.
  intros -> any. subst any. cbv beta. rewrite !any_stage. unfold ALL_STAGES. cbn [existsb fmap list_fmap sr_disposition].
  compute_stages. cbn [andb]. btauto.
Qed.

(** The disposition of a report and the assurance profile computed from it say the
    same: a case is invalid exactly when some dimension is not satisfied, and
    indeterminate exactly when none is and some dimension is indeterminate.  No failed
    stage is hidden by the grouping into dimensions. *)
Theorem profile_agrees (c : VerificationContext) (i : VerificationInput) (out : ContextBoundOutput VerificationReport)
  (Hv : verify sha256 c i = Ok out) :
  profile_disposition (assurance_profile (bound_context_id out) (bound_result out)) = vr_disposition (bound_result out).
Proof.
  unfold verify, bound_output in Hv. apply bind_ok in Hv as (id & _ & [= <-]).
  destruct (evaluated_stages_split c i) as (d & Hs & Hx). rewrite Hs.
  cbn [bound_context_id bound_result vr_disposition]. set (report := mkReport _ _ _ _).
  destruct (external_status report d _ eq_refl) as [Hen Hei]; [apply list_elem_of_In; cbn; tauto|].
  unfold profile_disposition, assurance_profile, dispose. cbn [profile_dimensions existsb].
  rewrite !evaluated_status, Hen, Hei, !status_not_satisfied. cbn [vr_stages report].
  change (bool_decide (dr_status (deferred_dimension _) = _)) with false.
  pose proof (stages_covered is_fail d false (eq_sym Hx)) as Hfail. cbv zeta beta in Hfail.
  rewrite !orb_false_l in *. rewrite Hfail. destruct (existsb (fun r => is_fail (sr_disposition r)) (_ <$> ALL_STAGES)) eqn:Hf; [done|].
  rewrite !(status_indeterminate_within report) by done. cbn [vr_stages report].
  pose proof (stages_covered is_indeterminate d _ eq_refl) as Hind. cbv zeta beta in Hind.
  by rewrite Hind.
Qed.
End Agreement.

(** ** Valid cases *)

Lemma is_ok_tt {E} (r : result E unit) : is_ok r = true <-> r = Ok tt.
Proof. destruct r as [[]|]; cbn; naive_solver. Qed.

Lemma find_key {A K} `{EqDecision K} (key : A -> K) l k x :
  NoDup (key <$> l) -> List.find (fun a => bool_decide (key a = k)) l = Some x <-> x ∈ l /\ key x = k.
Proof.
  induction l as [|y l IH]; cbn [List.find]; [intros _; rewrite elem_of_nil; naive_solver|].
  rewrite fmap_cons, NoDup_cons, elem_of_cons. intros [Hy Hn]. case_bool_decide as Hk.
  - split; [intros [= <-]; auto|]. intros [[->|Hx] Hkx]; [done|]. destruct Hy. rewrite Hk, <- Hkx.
    by apply list_elem_of_fmap_2.
  - rewrite IH by done. naive_solver.
Qed.

Lemma find_status_spec l id s : NoDup l.*1 -> find_status l id = Some s <-> (id, s) ∈ l.
Proof.
  intros Hn. unfold find_status. rewrite fmap_Some. setoid_rewrite (find_key fst); [|done]. split.
  - by intros ([x v] & [Hin Hx] & Hs); cbn in *; subst.
  - intros Hin. by exists (id, s).
Qed.
Lemma find_algorithm_spec l id s :
  NoDup (alg_id <$> l) -> find_algorithm l id = Some s <-> mkAlgorithmStatus id s ∈ l.
Proof.
  intros Hn. unfold find_algorithm. rewrite fmap_Some. setoid_rewrite (find_key alg_id); [|done]. split.
  - by intros ([x v] & [Hin Hx] & Hs); cbn in *; subst.
  - intros Hin. by exists (mkAlgorithmStatus id s).
Qed.

Lemma check_authenticity_ok l b envelopes :
  check_authenticity l b envelopes = Ok false
  <-> b = false /\ Forall (fun e => find_status l e.1 = Some AuthVerified) envelopes.
Proof.
  revert b. induction envelopes as [|[id e] envelopes IH]; intros b; cbn [check_authenticity].
  - split; [by intros [= ->]|]. by intros [-> _].
  - rewrite Forall_cons. cbn [fst]. destruct (find_status l id) as [[]|]; rewrite ?IH; naive_solver.
Qed.
Lemma check_algorithms_ok l d u ids :
  check_algorithms l d u ids = Ok (false, false)
  <-> d = false /\ u = false /\ Forall (fun id => find_algorithm l id = Some AlgAllowed) ids.
Proof.
  revert d u. induction ids as [|id ids IH]; intros d u; cbn [check_algorithms].
  - split; [by intros [= -> ->]|]. by intros (-> & -> & _).
  - rewrite Forall_cons. destruct (find_algorithm l id) as [[]|]; rewrite ?IH; naive_solver.
Qed.

(** ** The summary counts, while its counters have room *)

Lemma summary_count (f : EvidenceSummary -> N) (p : EvidenceNode -> bool) :
  (forall s n, f (summarize_one s n) = if p n then wrap32 (f s + 1) else f s) ->
  forall (l : evidence_graph) s, (f s + blen l <= u32_max)%N ->
  f (fold_left (fun s e => summarize_one s e.2) l s) = (f s + blen (List.filter (fun e => p e.2) l))%N.
Proof.
  intros Hf. induction l as [|[id n] l IH]; intros s Hs; cbn [fold_left List.filter snd].
  - unfold blen. cbn. lia.
  - unfold blen in *. cbn [length] in Hs.
    assert (Hn : f (summarize_one s n) = if p n then (f s + 1)%N else f s).
    { rewrite Hf. destruct (p n); [|done]. apply wrap32_small. lia. }
    rewrite IH by (rewrite Hn; destruct (p n); lia). rewrite Hn. destruct (p n); cbn [length]; lia.
Qed.

Lemma summary_some (f : EvidenceSummary -> N) (p : EvidenceNode -> bool) (l : evidence_graph) :
  (forall s n, f (summarize_one s n) = if p n then wrap32 (f s + 1) else f s) -> f summary_zero = 0%N ->
  length l <= MAX_EVIDENCE_NODES ->
  (0 <? f (summarize_evidence l))%N = existsb (fun e => p e.2) l.
Proof.
  intros Hf Hz Hl. unfold summarize_evidence. rewrite (summary_count f p Hf) by
    (rewrite Hz; unfold blen, MAX_EVIDENCE_NODES, u32_max in *; lia). rewrite Hz, N.add_0_l. clear Hl.
  induction l as [|e l IH]; [done|]. cbn [List.filter existsb]. by destruct (p e.2).
Qed.

Definition is_contradiction (k : EvidenceKind) : bool := match k with Contradiction _ _ _ => true | _ => false end.

Lemma summary_flags (l : evidence_graph) :
  length l <= MAX_EVIDENCE_NODES ->
  (0 <? gaps (summarize_evidence l))%N = existsb (fun e => is_gap (kind e.2)) l /\
  (0 <? contradictions (summarize_evidence l))%N = existsb (fun e => is_contradiction (kind e.2)) l /\
  (0 <? withheld_locators (summarize_evidence l))%N = existsb (fun e => withheld e.2) l.
Proof.
  intros Hl. split; [|split].
  - apply (summary_some gaps (fun n => is_gap (kind n))); [|done|done].
    intros [] n. unfold summarize_one. by destruct (kind n).
  - apply (summary_some contradictions (fun n => is_contradiction (kind n))); [|done|done].
    intros [] n. unfold summarize_one. by destruct (kind n).
  - apply (summary_some withheld_locators withheld); [|done|done].
    intros [] n. unfold summarize_one. by destruct (kind n).
Qed.

Section Valid.
Variable sha256 : bytes -> Bytes32.

(** A chain of envelopes that preserves a case now: it renews properly, every generation is
    known to be authentic, and the latest one uses only algorithms that are still allowed. *)
Record preserved (i : VerificationInput) : Prop := {
  pv_chain : chain_ok sha256 (preservation_envelopes i);
  pv_entries : Forall (fun e => bad_algorithm_entry e = false) (preservation_algorithm_statuses i);
  pv_entries_sorted : bset_ok (alg_id <$> preservation_algorithm_statuses i);
  pv_assessed_sorted : bset_ok (preservation_authenticity i).*1;
  pv_authentic : Forall (fun e => (e.1, AuthVerified) ∈ preservation_authenticity i) (preservation_envelopes i);
  pv_algorithms : forall latest, last (preservation_envelopes i) = Some latest ->
    Forall (fun a => mkAlgorithmStatus a AlgAllowed ∈ preservation_algorithm_statuses i) (algorithm_ids latest.2)
}.

Definition settled (d : StageDisposition) : bool := negb (is_fail d) && negb (is_indeterminate d).

Lemma preservation_settled i :
  settled (preservation_stage sha256 i) = true <-> preservation_envelopes i = [] \/ preserved i.
Proof.
  unfold preservation_stage, assess_preservation. case_bool_decide as He; [split; [by left|done]|].
  destruct (negb _ || _ || _ || _) eqn:Hb.
  { split; [done|]. intros [?|[]]; [done|]. rewrite !orb_true_iff, negb_true_iff in Hb. exfalso.
    apply chain_validate_ok in pv_chain0. rewrite pv_chain0 in Hb. apply existsb_false in pv_entries0.
    apply not_increasing_spec in pv_entries_sorted0, pv_assessed_sorted0. naive_solver congruence. }
  rewrite !orb_false_iff, negb_false_iff, is_ok_tt, chain_validate_ok, existsb_false, !not_increasing_spec in Hb.
  destruct Hb as (((Hc & Hb) & Hs) & Ha). pose proof (bset_ok_NoDup _ Hs) as Hns. pose proof (bset_ok_NoDup _ Ha) as Hna.
  destruct (last (preservation_envelopes i)) as [[id latest]|] eqn:Hl; [|by apply last_None in Hl].
  transitivity (check_authenticity (preservation_authenticity i) false (preservation_envelopes i) = Ok false /\
    check_algorithms (preservation_algorithm_statuses i) false false (algorithm_ids latest) = Ok (false, false)).
  - destruct (check_authenticity _ _ _) as [[]|]; [naive_solver| |naive_solver].
    destruct (check_algorithms _ _ _ _) as [[[] []]|]; naive_solver.
  - rewrite check_authenticity_ok, check_algorithms_ok. setoid_rewrite (find_status_spec _ _ _ Hna).
    setoid_rewrite (find_algorithm_spec _ _ _ Hns). split.
    + intros ([_ H1] & _ & _ & H2). right. split; try done. intros l' Hl'. rewrite Hl in Hl'. by injection Hl' as <-.
    + intros [?|[]]; [done|]. split; [done|]. split; [done|]. split; [done|]. by apply (pv_algorithms0 (id, latest)).
Qed.

(** A case in which everything is there, is in order and fits together. *)
Record case_valid (c : VerificationContext) (i : VerificationInput) : Prop := {
  cv_intent : intent_ok (vi_intent i);
  cv_intent_id : action_intent_id sha256 (vi_intent i) = Ok (intent_id (vi_mandate i));
  cv_mandate : mandate_ok (vi_mandate i);
  cv_attempt : attempt_ok sha256 (vi_attempt i) (vi_mandate i);
  cv_executor : executor_identity (vi_attempt i) = expected_executor i;
  cv_subject : forall identity, subject (vi_mandate i) = SubjectIdentity identity -> identity = expected_executor i;
  cv_window : (valid_from (vi_mandate i) <= evaluation_time c < expires_at (vi_mandate i))%N;
  cv_status : revocation_status i = NotRevoked /\ algorithm_status i = Allowed /\ replay_status i = Fresh;
  cv_graph : graph_ok sha256 (vi_evidence i);
  cv_assessed : bset_ok (evidence_authenticity i).*1;
  cv_authentic : forall id s, (id, s) ∈ evidence_authenticity i ->
    s = AuthVerified /\ exists n, (id, n) ∈ vi_evidence i /\ authenticity n <> None;
  cv_all_assessed : forall id n, (id, n) ∈ vi_evidence i -> authenticity n <> None ->
    id ∈ (evidence_authenticity i).*1;
  cv_references : forall r, r ∈ receipt_references (vi_receipt i) -> r ∈ (vi_evidence i).*1;
  cv_requirements : Forall (fun s => satisfied s = true) (evidence_requirements_status (vi_receipt i));
  cv_uncontested : forall id n, (id, n) ∈ vi_evidence i ->
    is_gap (kind n) = false /\ is_counterclaim (kind n) = false /\ is_contradiction (kind n) = false /\ withheld n = false;
  cv_receipt : receipt_ok sha256 (vi_receipt i) (vi_mandate i) (vi_attempt i);
  cv_outcome : outcome (vi_receipt i) <> Unknown;
  cv_anchor : opt_ok (fun r => consumed_ok r /\
    nullifier r = at_reservation_token (vi_attempt i) /\ commitment r = intent_id (vi_mandate i)) (single_use_anchor i);
  cv_preserved : preservation_envelopes i = [] \/ preserved i
}.

Lemma settled_if (b : bool) r : settled (if b then StPass else StFail r) = true <-> b = true.
Proof. by destruct b. Qed.
Lemma settled_unless (b : bool) d e :
  settled e = false -> settled (if b then e else d) = true <-> b = false /\ settled d = true.
Proof. intros He. destruct b; [rewrite He|]; naive_solver. Qed.

Lemma structure_settled i : settled (structure_stage sha256 i) = true
  <-> intent_ok (vi_intent i) /\ mandate_ok (vi_mandate i) /\ attempt_ok sha256 (vi_attempt i) (vi_mandate i).
Proof.
  unfold structure_stage. rewrite settled_if, !andb_true_iff, !is_ok_tt, intent_validate_ok, mandate_validate_ok, attempt_validate_ok. tauto.
Qed.
Lemma intent_settled i : settled (intent_stage sha256 i) = true
  <-> action_intent_id sha256 (vi_intent i) = Ok (intent_id (vi_mandate i)) /\
      intent_id (vi_mandate i) = at_intent_id (vi_attempt i).
Proof.
  unfold intent_stage. destruct (action_intent_id _ _) as [id|]; [|split; [done|by intros [? _]]].
  rewrite settled_if, andb_true_iff, !bool_decide_eq_true. split.
  - by intros [-> ?].
  - by intros [[= ->] ?].
Qed.
Lemma executor_settled i : settled (executor_stage i) = true
  <-> executor_identity (vi_attempt i) = expected_executor i /\
      forall identity, subject (vi_mandate i) = SubjectIdentity identity -> identity = expected_executor i.
Proof.
  unfold executor_stage. rewrite settled_if, andb_true_iff. destruct (subject _); rewrite !bool_decide_eq_true; naive_solver.
Qed.
Lemma temporal_settled c i : settled (temporal_stage c i) = true
  <-> (valid_from (vi_mandate i) <= evaluation_time c < expires_at (vi_mandate i))%N /\
      revocation_status i = NotRevoked /\ algorithm_status i = Allowed.
Proof.
  unfold temporal_stage. rewrite !settled_unless by done. rewrite N.ltb_ge, N.leb_gt.
  destruct (revocation_status i), (algorithm_status i); cbn; naive_solver.
Qed.
Lemma receipt_settled i : settled (receipt_stage sha256 i) = true
  <-> receipt_ok sha256 (vi_receipt i) (vi_mandate i) (vi_attempt i) /\ outcome (vi_receipt i) <> Unknown.
Proof.
  unfold receipt_stage. rewrite !settled_unless by done.
  rewrite negb_false_iff, is_ok_tt, receipt_validate_ok, bool_decide_eq_false. naive_solver.
Qed.
Lemma corroboration_settled i : settled (corroboration_stage i) = true
  <-> opt_ok (fun r => consumed_ok r /\ nullifier r = at_reservation_token (vi_attempt i) /\
        commitment r = intent_id (vi_mandate i)) (single_use_anchor i).
Proof.
  unfold corroboration_stage, assess. destruct (single_use_anchor i) as [r|]; [|by split].
  transitivity (consumed_ok r /\ nullifier r = at_reservation_token (vi_attempt i) /\
    commitment r = intent_id (vi_mandate i)).
  - rewrite <- consumed_validate_ok, <- is_ok_tt. destruct (is_ok _); cbn [negb]; [|by split; [|intros [? _]]].
    repeat case_bool_decide; cbn; naive_solver.
  - split; [by intros H ? [= <-]|]. intros H. by apply H.
Qed.

(** Given a valid graph, the two stages that read it and the custody stage settle together. *)
Lemma evidence_settled i : graph_ok sha256 (vi_evidence i) ->
  settled (evidence_stage sha256 i) = true <->
  authenticity_assessments_are_canonical (vi_evidence i) (evidence_authenticity i) = true /\
  receipt_references_missing (vi_receipt i) (vi_evidence i) = false /\
  existsb (fun '(_, s) => bool_decide (s = AuthRejected)) (evidence_authenticity i) = false /\
  existsb (fun s => negb (satisfied s)) (evidence_requirements_status (vi_receipt i)) = false /\
  existsb (fun '(_, n) => is_gap (kind n)) (vi_evidence i) = false /\
  existsb (fun '(_, s) => bool_decide (s = AuthUnknown)) (evidence_authenticity i) = false /\
  existsb (fun '(id, n) => is_some (authenticity n)
    && negb (existsb (fun '(x, _) => bool_decide (x = id)) (evidence_authenticity i))) (vi_evidence i) = false /\
  existsb (fun e => withheld e.2) (vi_evidence i) = false.
Proof.
  intros Hg. destruct (summary_flags (vi_evidence i)) as (_ & _ & Hw); [apply Hg|].
  apply graph_validate_ok in Hg. unfold evidence_stage. rewrite Hg, Hw, !settled_unless by done.
  rewrite !orb_false_iff, !negb_false_iff. cbn [is_ok]. tauto.
Qed.
Lemma contradiction_settled i : graph_ok sha256 (vi_evidence i) ->
  settled (contradiction_stage sha256 i) = true <->
  has_unpaired_counterclaim (vi_evidence i) = false /\
  existsb (fun e => is_contradiction (kind e.2)) (vi_evidence i) = false /\
  existsb (fun e => is_gap (kind e.2)) (vi_evidence i) = false.
Proof.
  intros Hg. destruct (summary_flags (vi_evidence i)) as (Hgap & Hc & _); [apply Hg|].
  apply graph_validate_ok in Hg. unfold contradiction_stage. rewrite Hg, Hgap, Hc, !settled_unless by done.
  cbn [is_ok negb settled]. tauto.
Qed.
Lemma graph_settled i : settled (evidence_stage sha256 i) = true -> graph_ok sha256 (vi_evidence i).
Proof.
  unfold evidence_stage. rewrite !settled_unless by done. rewrite orb_false_iff, negb_false_iff, is_ok_tt, graph_validate_ok.
  tauto.
Qed.
Lemma custody_settled i : graph_ok sha256 (vi_evidence i) ->
  existsb (fun e => withheld e.2) (vi_evidence i) = false -> settled (custody_stage sha256 i) = true.
Proof.
  intros Hg%graph_validate_ok Hw. unfold custody_stage. rewrite Hg. cbn [is_ok negb].
  destruct (_ =? 0)%N; [done|]. destruct (existsb (fun '(_, _) => _) _) eqn:He; [|done].
  apply existsb_exists in He as ([id n] & Hin & [_ Hn]%andb_true_iff). apply existsb_false in Hw.
  rewrite Forall_forall in Hw. apply list_elem_of_In in Hin. specialize (Hw _ Hin). cbn in Hw. congruence.
Qed.

Lemma existsb_pair_false {A B} (f : A -> B -> bool) (l : list (A * B)) :
  existsb (fun '(x, y) => f x y) l = false <-> forall x y, (x, y) ∈ l -> f x y = false.
Proof.
  rewrite existsb_false, Forall_forall. split; [by intros H x y Hin; apply (H (x, y))|]. intros H [x y]. apply H.
Qed.
Lemma has_key {A} (l : list (Bytes32 * A)) id :
  existsb (fun '(x, _) => bool_decide (x = id)) l = true <-> id ∈ l.*1.
Proof.
  rewrite existsb_exists, list_elem_of_fmap. split.
  - intros ([x v] & Hin & Hx%bool_decide_eq_true). exists (x, v). split; [done|by apply list_elem_of_In].
  - intros ([x v] & -> & Hin%list_elem_of_In). exists (x, v). split; [done|]. by apply bool_decide_eq_true.
Qed.

Lemma canonical_ok evidence (assessed : list (EvidenceNodeId * AuthenticityStatus)) :
  authenticity_assessments_are_canonical evidence assessed = true
  <-> bset_ok assessed.*1 /\ forall id s, (id, s) ∈ assessed -> exists n, (id, n) ∈ evidence /\ authenticity n <> None.
Proof.
  unfold authenticity_assessments_are_canonical. rewrite andb_true_iff, negb_true_iff, not_increasing_spec, forallb_forall.
  assert (Hx : forall id, existsb (fun '(x, n) => bool_decide (x = id) && is_some (authenticity n)) evidence = true
    <-> exists n, (id, n) ∈ evidence /\ authenticity n <> None).
  { intros id. rewrite existsb_exists. split.
    - intros ([x n] & Hin & [Hx%bool_decide_eq_true Hn]%andb_true_iff). subst x. exists n.
      split; [by apply list_elem_of_In|]. by destruct (authenticity n).
    - intros (n & Hin%list_elem_of_In & Hn). exists (id, n). split; [done|]. rewrite bool_decide_true by done.
      by destruct (authenticity n). }
  split; intros [Hs H]; (split; [done|]).
  - intros id s Hin%list_elem_of_In. apply Hx. by apply (H (id, s)).
  - intros [id s] Hin%list_elem_of_In. apply Hx. by apply (H id s).
Qed.
Lemma references_ok r evidence :
  receipt_references_missing r evidence = false <-> forall x, x ∈ receipt_references r -> x ∈ evidence.*1.
Proof.
  unfold receipt_references_missing. rewrite existsb_false, Forall_forall.
  setoid_rewrite negb_false_iff. by setoid_rewrite has_key.
Qed.
Lemma unpaired_ok evidence :
  (forall id n, (id, n) ∈ evidence -> is_contradiction (kind n) = false) ->
  has_unpaired_counterclaim evidence = false <-> forall id n, (id, n) ∈ evidence -> is_counterclaim (kind n) = false.
Proof.
  intros Hc. unfold has_unpaired_counterclaim. rewrite existsb_pair_false.
  assert (Hno : forall id, existsb (fun '(_, n) => match kind n with
      | Contradiction l r _ => bool_decide (l = id) || bool_decide (r = id) | _ => false end) evidence = false).
  { intros id. apply existsb_pair_false. intros x n Hin. specialize (Hc x n Hin). by destruct (kind n). }
  setoid_rewrite Hno. setoid_rewrite andb_true_r. done.
Qed.

(** The evidence part of a valid case. *)
Lemma evidence_part i : graph_ok sha256 (vi_evidence i) ->
  settled (evidence_stage sha256 i) = true /\ settled (contradiction_stage sha256 i) = true <->
  (bset_ok (evidence_authenticity i).*1 /\
   (forall id s, (id, s) ∈ evidence_authenticity i ->
      s = AuthVerified /\ exists n, (id, n) ∈ vi_evidence i /\ authenticity n <> None) /\
   (forall id n, (id, n) ∈ vi_evidence i -> authenticity n <> None -> id ∈ (evidence_authenticity i).*1)) /\
  (forall r, r ∈ receipt_references (vi_receipt i) -> r ∈ (vi_evidence i).*1) /\
  Forall (fun s => satisfied s = true) (evidence_requirements_status (vi_receipt i)) /\
  (forall id n, (id, n) ∈ vi_evidence i ->
     is_gap (kind n) = false /\ is_counterclaim (kind n) = false /\ is_contradiction (kind n) = false /\ withheld n = false).
Proof.
  intros Hg. rewrite evidence_settled, contradiction_settled, canonical_ok, references_ok by done.
  rewrite !existsb_pair_false, !existsb_false, !Forall_forall. setoid_rewrite negb_false_iff. split.
  - intros ((Hcan & Hr & Hrej & Hs & Hg1 & Hu & Hun & Hw) & Hcc & Hct & Hgap).
    assert (Hct' : forall id n, (id, n) ∈ vi_evidence i -> is_contradiction (kind n) = false) by (intros id n Hin; apply (Hct _ Hin)).
    split_and!; try done; try apply Hcan.
    + intros id s Hin. destruct Hcan as [_ Hcan]. split; [|by eapply Hcan].
      specialize (Hrej id s Hin). specialize (Hu id s Hin). apply bool_decide_eq_false in Hrej, Hu. by destruct s.
    + intros id n Hin Hn. specialize (Hun id n Hin). destruct (authenticity n); [|done]. cbn in Hun.
      apply negb_false_iff in Hun. by apply has_key.
    + intros id n Hin. split_and!; [by eapply Hg1| |by eapply Hct'|by apply (Hw _ Hin)].
      revert id n Hin. by apply unpaired_ok.
  - intros ((Hs & Hv & Ha) & Hr & Hq & Hk). split; [split_and!|split_and!]; try done.
    + intros id s Hin. by apply (Hv id s).
    + intros id s Hin. destruct (Hv id s Hin) as [-> _]. done.
    + intros id n Hin. by destruct (Hk id n Hin).
    + intros id s Hin. destruct (Hv id s Hin) as [-> _]. done.
    + intros id n Hin. destruct (authenticity n) eqn:He; [|done]. cbn. apply negb_false_iff, has_key.
      apply (Ha id n Hin). by rewrite He.
    + intros [id n] Hin. by destruct (Hk id n Hin) as (_ & _ & _ & ?).
    + apply unpaired_ok; intros id n Hin; by destruct (Hk id n Hin) as (_ & ? & ? & _).
    + intros [id n] Hin. by destruct (Hk id n Hin) as (_ & _ & ? & _).
    + intros [id n] Hin. by destruct (Hk id n Hin) as (? & _).
Qed.

Lemma dispose_valid stages :
  dispose stages = ReportValid <-> Forall (fun s => settled (sr_disposition s) = true) stages.
Proof.
  unfold dispose, settled. split.
  - destruct (existsb _ stages) eqn:Hf; [done|]. destruct (existsb (fun s => is_indeterminate _) stages) eqn:Hi; [done|].
    intros _. apply existsb_false in Hf, Hi. rewrite Forall_forall in *. intros s Hs.
    by rewrite Hf, Hi.
  - intros H. rewrite (proj2 (existsb_false _ _)); [rewrite (proj2 (existsb_false _ _)); [done|]|].
    all: eapply Forall_impl; [exact H|]; intros s [? ?]%andb_true_iff; by apply negb_true_iff.
Qed.

Lemma valid_case_iff c i : dispose (evaluate_stages sha256 c i) = ReportValid <-> case_valid c i.
Proof.
  rewrite dispose_valid. unfold evaluate_stages. rewrite !Forall_cons. cbn [sr_disposition].
  rewrite structure_settled, intent_settled, executor_settled, temporal_settled, receipt_settled, corroboration_settled,
    preservation_settled.
  split; intros H.
  - destruct H as ((Hi & Hm & Ha) & (Hid & _) & _ & (He & Hs) & (Hw & Hr & Hal) & Hrep & Hev & Hct & (Hrc & Ho) & Hx & _ & Hp & _).
    pose proof (graph_settled i Hev) as Hg. destruct (proj1 (evidence_part i Hg) (conj Hev Hct)) as ((? & ? & ?) & ? & ? & ?).
    split; try done. split_and!; try done. unfold replay_stage in Hrep. by destruct (replay_status i).
  - destruct H. destruct cv_status0 as (Hr & Hal & Hrep).
    destruct (proj2 (evidence_part i cv_graph0)) as [Hev Hct]; [done|].
    unfold authority_stage, replay_stage. rewrite (proj2 (mandate_validate_ok _) cv_mandate0), Hrep.
    split_and!; try done; try apply cv_window0; try apply Forall_nil_2; [symmetry; apply cv_attempt0|].
    apply custody_settled; [done|]. apply existsb_false, Forall_forall. intros [id n] Hin. apply (cv_uncontested0 id n Hin).
Qed.
Lemma valid_case_of c i : dispose (evaluate_stages sha256 c i) = ReportValid -> case_valid c i.
Proof. apply valid_case_iff. Qed.

(** C9: A verification ends with a valid report exactly when its context is acceptable and
    the case is valid: the intent, the mandate, the attempt and the receipt are each in
    order and name one another, the executor is the expected one, the mandate is in its
    window and not revoked, the evidence is a well-formed graph with every signature
    verified, nothing missing, withheld or disputed, and the anchor and the preservation
    chain, where there are any, hold.  Every other case ends invalid or indeterminate. *)
Theorem verify_valid_exact (c : VerificationContext) (i : VerificationInput) :
  (exists out, verify sha256 c i = Ok out /\ vr_disposition (bound_result out) = ReportValid)
  <-> context_ok c /\ case_valid c i.
Proof.
  rewrite <- context_validate_ok.
  transitivity (context_validate c = Ok tt /\ dispose (evaluate_stages sha256 c i) = ReportValid).
  - unfold verify, bound_output, context_id, context_canonical_bytes. split.
    + intros (out & (id & (b & (Hc & _)%bind_unit_ok & _)%bind_ok & [= <-])%bind_ok & Hd). by split.
    + intros [Hc Hd]. rewrite Hc. cbn [mbind result_bind]. by eexists.
  - by rewrite valid_case_iff.
Qed.
End Valid.

(** ** A payment that went through *)

Definition case_mandate : ActionMandate :=
  mkMandate (mkVersion 0 1) 1 (fill32 Byte.x2a) [Byte.x02] (SubjectIdentity [Byte.x03])
    (as_bytes "tenant:acme") 100 200 1 []
    [mkRequirement "org.diewan.evidence.log.v1" (fill32 Byte.x04)]
    (mkPolicy "org.diewan.policy.v1" (fill32 Byte.x06)) None (Some (fill32 Byte.x07)) 90 (fill32 Byte.x08)
    (mkSigReq ED25519_SIGNATURE_ALGORITHM [Byte.x09]).
Definition case_attempt : ExecutionAttempt :=
  mkAttempt (mkVersion 0 1) 1 (fill32 Byte.x2a) (fill32 Byte.x2a) (fill32 Byte.x2a) (fill32 Byte.x0a) [Byte.x03]
    [Byte.x0b] 150 (Some 151%N) (fill32 Byte.x0c) (Some (fill32 Byte.x0d)) Accepted.
Definition case_receipt : ExecutionReceipt :=
  mkReceipt (mkVersion 0 1) 1 (fill32 Byte.x2a) (fill32 Byte.x2a) (fill32 Byte.x2a) (fill32 Byte.x2a) [Byte.x03]
    (mkConsumption 3 (fill32 Byte.x0e)) [fill32 Byte.x2a] [] 150 (Some 160%N) Succeeded None
    [mkStatus "org.diewan.evidence.log.v1" (fill32 Byte.x04) true [fill32 Byte.x2a]]
    [Byte.x10] [Byte.x11].
Definition case_node : EvidenceNode :=
  mkNode (Claim (fill32 Byte.x01)) [Byte.x01] 155 None (fill32 Byte.x02) "text/plain" (Disclosed "log:1")
    None "public" [].
Definition case_context : VerificationContext :=
  mkContext 1 (mkVersion 0 1) 150 (fill32 Byte.x01) (fill32 Byte.x02) (fill32 Byte.x03) (fill32 Byte.x04)
    (fill32 Byte.x05) (fill32 Byte.x06) [].
Definition case_input : VerificationInput :=
  mkInput demo_intent case_mandate case_attempt case_receipt [(fill32 Byte.x2a, case_node)] [] [Byte.x03]
    NotRevoked Allowed Fresh None [] [] [].

Definition case_report : result ContextError (ContextBoundOutput VerificationReport) :=
  verify demo_hash case_context case_input.

Example case_is_valid : vr_disposition <$> (bound_result <$> case_report) = Ok ReportValid.
Proof. vm_compute. reflexivity. Qed.
(** The same case after the mandate expired, and with the mandate revoked. *)
Example case_after_expiry :
  vr_disposition <$> (bound_result <$> verify demo_hash (mkContext 1 (mkVersion 0 1) 200 (fill32 Byte.x01) (fill32 Byte.x02)
    (fill32 Byte.x03) (fill32 Byte.x04) (fill32 Byte.x05) (fill32 Byte.x06) []) case_input) = Ok ReportInvalid.
Proof. vm_compute. reflexivity. Qed.

Lemma profile_agrees_witness :
  exists out, case_report = Ok out /\
    profile_disposition (assurance_profile (bound_context_id out) (bound_result out)) = vr_disposition (bound_result out).
Proof.
  assert (H : exists out, case_report = Ok out) by (vm_compute; by eexists).
  destruct H as [out Hout]. exists out. split; [exact Hout|].
  exact (profile_agrees demo_hash case_context case_input out Hout).
Defined.

(** ** What a valid report does not say *)

(** The verifier does not consult the profile: the same case with another target and other
    profile bytes, which the payment codec refuses, is just as valid. *)
Definition tampered_intent : ActionIntent :=
  mkIntent ACCOUNTABILITY_PROTOCOL_VERSION ACCOUNTABILITY_OBJECT_VERSION PAYMENT_PROFILE_ID "payment.transfer"
    [Byte.xff] (fill32 Byte.x01) (parameters_media_type payment_descriptor) [Byte.x03] 1699999999 (fill32 Byte.x22) []
    [Byte.xff].
Lemma valid_without_profile :
  exists i, case_valid demo_hash case_context i /\
    is_ok (verify_with_codec demo_hash (vi_intent i) payment_descriptor payment_codec) = false.
Proof.
  set (i := mkInput tampered_intent case_mandate case_attempt case_receipt [(fill32 Byte.x2a, case_node)] []
    [Byte.x03] NotRevoked Allowed Fresh None [] [] []).
  exists i. split; [|vm_compute; reflexivity].
  assert (H : dispose (evaluate_stages demo_hash case_context i) = ReportValid) by (vm_compute; reflexivity).
  apply (valid_case_of demo_hash case_context i H).
Qed.

(** The window of the mandate is compared with the time of the evaluation only: an attempt
    started and dispatched before the mandate was valid is part of a valid case. *)
Lemma valid_before_window :
  exists i, case_valid demo_hash case_context i /\ (started_at (vi_attempt i) < valid_from (vi_mandate i))%N.
Proof.
  set (a := mkAttempt (mkVersion 0 1) 1 (fill32 Byte.x2a) (fill32 Byte.x2a) (fill32 Byte.x2a) (fill32 Byte.x0a) [Byte.x03]
    [Byte.x0b] 50 (Some 51%N) (fill32 Byte.x0c) (Some (fill32 Byte.x0d)) Accepted).
  set (r := mkReceipt (mkVersion 0 1) 1 (fill32 Byte.x2a) (fill32 Byte.x2a) (fill32 Byte.x2a) (fill32 Byte.x2a) [Byte.x03]
    (mkConsumption 3 (fill32 Byte.x0e)) [fill32 Byte.x2a] [] 50 (Some 60%N) Succeeded None
    [mkStatus "org.diewan.evidence.log.v1" (fill32 Byte.x04) true [fill32 Byte.x2a]] [Byte.x10] [Byte.x11]).
  set (i := mkInput demo_intent case_mandate a r [(fill32 Byte.x2a, case_node)] []
    [Byte.x03] NotRevoked Allowed Fresh None [] [] []).
  exists i. split; [|vm_compute; reflexivity].
  assert (H : dispose (evaluate_stages demo_hash case_context i) = ReportValid) by (vm_compute; reflexivity).
  apply (valid_case_of demo_hash case_context i H).
Qed.
