(* ===== verification/Merkle.v ===== *)
(** * Levels of a binary tree

    The loop body that both tree builders of csv-hash share: [chunks(2)] over a level,
    a pair is combined and a trailing node is carried up.  The combination is a
    parameter, so the same lemmas serve the hashes of [Merkle] and [CommitMux] and the
    trees the hashes stand for. *)

From S2P Require Import Prelude Ord Bytes Hashing.

Section Levels.
Context {A : Type} (combine : A -> A -> A).

Fixpoint pair_up (level : list A) : list A :=
  match level with
  | lhs :: rhs :: rest => combine lhs rhs :: pair_up rest
  | [single] => [single]
  | [] => []
  end.

(** [while level.len() > 1 { level = pair_up(level) }] *)
Fixpoint collapse (fuel : nat) (level : list A) : list A :=
  match fuel with
  | O => level
  | S fuel => if 1 <? length level then collapse fuel (pair_up level) else level
  end.

(** The pairs that are combined: of a level, and of all of them. *)
Fixpoint pairs (level : list A) : list (A * A) :=
  match level with lhs :: rhs :: rest => (lhs, rhs) :: pairs rest | _ => [] end.
Fixpoint collapse_pairs (fuel : nat) (level : list A) : list (A * A) :=
  match fuel with
  | O => []
  | S fuel => if 1 <? length level then pairs level ++ collapse_pairs fuel (pair_up level) else []
  end.

(** Induction over a level two nodes at a time. *)
Lemma pair_ind (P : list A -> Prop) :
  P [] -> (forall x, P [x]) -> (forall x y l, P l -> P (x :: y :: l)) -> forall l, P l.
Proof.
  intros H0 H1 H2. fix IH 1. intros [|x [|y l]]; [done|done|]. apply H2, IH.
Qed.

Lemma length_pair_up l : length (pair_up l) = (length l + 1) / 2.
Proof.
  induction l as [|x|x y l IH] using pair_ind; [done|done|].
  cbn [pair_up length]. rewrite IH.
  replace (S (S (length l)) + 1) with (length l + 1 + 1 * 2) by lia.
  rewrite Nat.div_add by lia. lia.
Qed.

Lemma pair_up_shrinks l : 1 < length l -> length (pair_up l) < length l.
Proof. intros. rewrite length_pair_up. apply Nat.Div0.div_lt_upper_bound. lia. Qed.

Lemma pair_up_nonempty l : l <> [] -> pair_up l <> [].
Proof. by destruct l as [|x [|y l]]. Qed.

(** The parent of node [i]. *)
Lemma pair_up_lookup l i a :
  l !! i = Some a ->
  pair_up l !! (i / 2) = Some
    (if Nat.even i
     then match l !! S i with Some b => combine a b | None => a end
     else match l !! pred i with Some b => combine b a | None => a end).
Proof.
  revert i. induction l as [|x|x y l IH] using pair_ind; intros i Hi; [done| |].
  - destruct i; [|done]. by injection Hi as ->.
  - destruct i as [|[|i]]; [by injection Hi as -> ..|].
    replace (S (S i) / 2) with (S (i / 2)).
    2:{ replace (S (S i)) with (i + 1 * 2) by lia. rewrite Nat.div_add; lia. }
    change (l !! i = Some a) in Hi.
    change (pair_up (x :: y :: l) !! S (i / 2)) with (pair_up l !! (i / 2)).
    rewrite (IH i Hi). change (Nat.even (S (S i))) with (Nat.even i).
    destruct (Nat.even i) eqn:Ei; [done|]. by destruct i as [|i].
Qed.

(** A property the combination of the level's pairs keeps holds on the next level. *)
Lemma pair_up_Forall (P : A -> Prop) l :
  (forall a b, (a, b) ∈ pairs l -> P a -> P b -> P (combine a b)) -> Forall P l -> Forall P (pair_up l).
Proof.
  induction l as [|x|x y l IH] using pair_ind; intros Hc H; [done|done|].
  apply Forall_cons in H as [Hx H]. apply Forall_cons in H as [Hy H].
  constructor; [apply Hc; [by left|done..]|]. apply IH; [|done].
  intros a b Hab. apply Hc. by right.
Qed.

(** As much fuel as nodes reaches a single node, and more changes nothing. *)
Lemma collapse_single fuel l : l <> [] -> length l <= fuel -> exists r, collapse fuel l = [r].
Proof.
  revert l. induction fuel as [|fuel IH]; intros l Hl Hf.
  - destruct l; simpl in Hf; [done|lia].
  - cbn [collapse]. destruct (Nat.ltb_spec 1 (length l)) as [Hlt|Hge].
    + apply IH; [by apply pair_up_nonempty|]. pose proof (pair_up_shrinks l Hlt). lia.
    + destruct l as [|r [|r' l]]; simpl in *; [done|by exists r|lia].
Qed.
End Levels.

(** Levels of trees and levels of their images go together. *)
Lemma pair_up_map {A B} (f : A -> B) ca cb l :
  (forall x y, f (ca x y) = cb (f x) (f y)) -> map f (pair_up ca l) = pair_up cb (map f l).
Proof.
  intros H. induction l as [|x|x y l IH] using pair_ind; [done|done|]. simpl. by rewrite H, IH.
Qed.

Lemma collapse_map {A B} (f : A -> B) ca cb fuel l :
  (forall x y, f (ca x y) = cb (f x) (f y)) ->
  map f (collapse ca fuel l) = collapse cb fuel (map f l).
Proof.
  intros H. revert l. induction fuel as [|fuel IH]; intros l; [done|]. cbn [collapse].
  rewrite length_map. destruct (1 <? length l); [|done]. by rewrite IH, (pair_up_map f ca cb).
Qed.

(** * Trees that pair an odd node with itself

    The trees of Bitcoin and of the accumulators the chain adapters keep: a level is combined
    two nodes at a time, and a trailing node is combined with itself.  The combination is a
    parameter.  A branch is the list of siblings on the way up from a position.  Branches are
    complete (climbing from a leaf reaches the root) and, when the combination is injective
    but for a collision, sound: a branch as long as the tree is high, at a position of the
    leaves, climbs to the root from the leaf at that position only. *)

Section DupLevels.
Context {A : Type} (combine : A -> A -> A).

(** [for i in (0..len).step_by(2)]: the right node is the left one again past the end. *)
Fixpoint dup_up (level : list A) : list A :=
  match level with
  | lhs :: rhs :: rest => combine lhs rhs :: dup_up rest
  | [lhs] => [combine lhs lhs]
  | [] => []
  end.

(** [while current_level.len() > 1] *)
Fixpoint dup_collapse (fuel : nat) (level : list A) : list A :=
  match fuel with
  | O => level
  | S fuel => if 1 <? length level then dup_collapse fuel (dup_up level) else level
  end.

(** The siblings that the loop over a level pushes for a position: those of the pairs, the
    first of which starts at [i], that the position is in. *)
Fixpoint level_siblings (i idx : nat) (level : list A) : list A :=
  match level with
  | lhs :: rhs :: rest =>
      (if (i =? idx) || (i + 1 =? idx) then [if i =? idx then rhs else lhs] else [])
      ++ level_siblings (i + 2) idx rest
  | [lhs] => if (i =? idx) || (i + 1 =? idx) then [lhs] else []
  | [] => []
  end.
Fixpoint branch_loop (fuel : nat) (level : list A) (idx : nat) : list A :=
  match fuel with
  | O => []
  | S fuel => if 1 <? length level then level_siblings 0 idx level ++ branch_loop fuel (dup_up level) (idx / 2) else []
  end.

(** The pairs that are combined, in the tree and on the way up a branch. *)
Fixpoint dup_pairs (level : list A) : list (A * A) :=
  match level with
  | lhs :: rhs :: rest => (lhs, rhs) :: dup_pairs rest
  | [lhs] => [(lhs, lhs)]
  | [] => []
  end.
Fixpoint dup_tree_pairs (fuel : nat) (level : list A) : list (A * A) :=
  match fuel with
  | O => []
  | S fuel => if 1 <? length level then dup_pairs level ++ dup_tree_pairs fuel (dup_up level) else []
  end.
Fixpoint climb_pairs (current : A) (idx : nat) (branch : list A) : list (A * A) :=
  match branch with
  | [] => []
  | sibling :: branch =>
      let pair := if Nat.odd idx then (sibling, current) else (current, sibling) in
      pair :: climb_pairs (combine pair.1 pair.2) (idx / 2) branch
  end.

(** Up a branch, to the right of a sibling at an odd position. *)
Fixpoint climb_branch (current : A) (idx : nat) (branch : list A) : A :=
  match branch with
  | [] => current
  | sibling :: branch =>
      climb_branch (if Nat.odd idx then combine sibling current else combine current sibling) (idx / 2) branch
  end.

(** ** Lemmas *)

Lemma length_dup_up l : length (dup_up l) = (length l + 1) / 2.
Proof.
  induction l as [|x|x y l IH] using pair_ind; [done|done|].
  cbn [dup_up length]. rewrite IH.
  replace (S (S (length l)) + 1) with (length l + 1 + 1 * 2) by lia.
  rewrite Nat.div_add by lia. lia.
Qed.

Lemma dup_up_shrinks l : 1 < length l -> length (dup_up l) < length l.
Proof. intros. rewrite length_dup_up. apply Nat.Div0.div_lt_upper_bound. lia. Qed.
Lemma dup_up_nonempty l : l <> [] -> dup_up l <> [].
Proof. by destruct l as [|x [|y l]]. Qed.

Lemma dup_collapse_single fuel l : l <> [] -> length l <= fuel -> exists r, dup_collapse fuel l = [r].
Proof.
  revert l. induction fuel as [|fuel IH]; intros l Hl Hf.
  - destruct l; simpl in Hf; [done|lia].
  - cbn [dup_collapse]. destruct (Nat.ltb_spec 1 (length l)) as [Hlt|Hge].
    + apply IH; [by apply dup_up_nonempty|]. pose proof (dup_up_shrinks l Hlt). lia.
    + destruct l as [|r [|r' l]]; simpl in *; [done|by exists r|lia].
Qed.

(** The one sibling of a position, and the parent of the two. *)
Definition sibling_at (l : list A) (idx : nat) (a : A) : A :=
  default a (if Nat.odd idx then l !! pred idx else l !! S idx).

Lemma level_siblings_shift l i idx : level_siblings (i + 2) (S (S idx)) l = level_siblings i idx l.
Proof.
  revert i. induction l as [|x|x y l IH] using pair_ind; intros i; cbn [level_siblings]; [done| |];
    replace (i + 2 =? S (S idx)) with (i =? idx) by (destruct (Nat.eqb_spec i idx), (Nat.eqb_spec (i + 2) (S (S idx))); lia || done);
    replace (i + 2 + 1 =? S (S idx)) with (i + 1 =? idx)
      by (destruct (Nat.eqb_spec (i + 1) idx), (Nat.eqb_spec (i + 2 + 1) (S (S idx))); lia || done); [done|].
  by rewrite IH.
Qed.

Lemma level_siblings_past l i idx : idx < i -> level_siblings i idx l = [].
Proof.
  revert i. induction l as [|x|x y l IH] using pair_ind; intros i Hi; cbn [level_siblings]; [done| |];
    rewrite (proj2 (Nat.eqb_neq i idx)), (proj2 (Nat.eqb_neq (i + 1) idx)) by lia; cbn [orb app]; [done|].
  apply IH. lia.
Qed.

Lemma level_step l idx a :
  l !! idx = Some a ->
  level_siblings 0 idx l = [sibling_at l idx a] /\
  (if Nat.odd idx then (sibling_at l idx a, a) else (a, sibling_at l idx a)) ∈ dup_pairs l /\
  dup_up l !! (idx / 2) = Some (if Nat.odd idx then combine (sibling_at l idx a) a else combine a (sibling_at l idx a)).
Proof.
  revert idx. induction l as [|x|x y l IH] using pair_ind; intros idx Hi; [done| |].
  - destruct idx; [|done]. injection Hi as ->. split; [done|split; [by left|done]].
  - destruct idx as [|[|idx]].
    + injection Hi as ->. cbn. rewrite (level_siblings_past l 2 0) by lia. split; [done|split; [by left|done]].
    + injection Hi as ->. cbn. rewrite (level_siblings_past l 2 1) by lia. split; [done|split; [by left|done]].
    + change (l !! idx = Some a) in Hi. destruct (IH idx Hi) as (H1 & Hp & H2).
      assert (Hs : sibling_at (x :: y :: l) (S (S idx)) a = sibling_at l idx a).
      { unfold sibling_at. change (Nat.odd (S (S idx))) with (Nat.odd idx).
        destruct (Nat.odd idx) eqn:Ho; [|done]. by destruct idx. }
      rewrite Hs. split; [|split].
      * cbn [level_siblings]. rewrite (proj2 (Nat.eqb_neq 0 (S (S idx)))), (proj2 (Nat.eqb_neq (0 + 1) (S (S idx)))) by lia.
        cbn [orb app]. rewrite level_siblings_shift. exact H1.
      * change (Nat.odd (S (S idx))) with (Nat.odd idx). by right.
      * replace (S (S idx) / 2) with (S (idx / 2)).
        2:{ replace (S (S idx)) with (idx + 1 * 2) by lia. rewrite Nat.div_add; lia. }
        change (Nat.odd (S (S idx))) with (Nat.odd idx). exact H2.
Qed.

(** Climbing the branch of a leaf reaches the root. *)
Lemma branch_complete fuel l idx a :
  l !! idx = Some a -> length l <= fuel ->
  dup_collapse fuel l = [climb_branch a idx (branch_loop fuel l idx)].
Proof.
  revert l idx a. induction fuel as [|fuel IH]; intros l idx a Hi Hf.
  - apply lookup_lt_Some in Hi. lia.
  - cbn [dup_collapse branch_loop]. destruct (Nat.ltb_spec 1 (length l)) as [Hlt|Hge].
    + destruct (level_step l idx a Hi) as (-> & _ & H2). cbn [app climb_branch]. apply IH; [done|].
      pose proof (dup_up_shrinks l Hlt). lia.
    + destruct l as [|r [|r' l]]; simpl in Hge; [done| |lia]. destruct idx; [|done]. by injection Hi as ->.
Qed.

(** The height of a tree: how many levels are combined. *)
Fixpoint dup_height (fuel : nat) (l : list A) : nat :=
  match fuel with
  | O => 0
  | S fuel => if 1 <? length l then S (dup_height fuel (dup_up l)) else 0
  end.

Lemma length_branch fuel l idx a : l !! idx = Some a -> length (branch_loop fuel l idx) = dup_height fuel l.
Proof.
  revert l idx a. induction fuel as [|fuel IH]; intros l idx a Hi; [done|]. cbn [branch_loop dup_height].
  destruct (1 <? length l); [|done]. destruct (level_step l idx a Hi) as (-> & _ & H2). cbn [app length].
  f_equal. by eapply IH.
Qed.

(** Soundness, for a combination that on the pairs [K] is injective or shows what [C] says. *)
Section Sound.
Context (C : Prop) (K : list (A * A)).
Context (combine_inj_or : forall a b c d, (a, b) ∈ K -> (c, d) ∈ K ->
           combine a b = combine c d -> (a = c /\ b = d) \/ C).

Lemma branch_sound fuel l idx x branch root :
  dup_tree_pairs fuel l ⊆ K -> climb_pairs x idx branch ⊆ K ->
  dup_collapse fuel l = [root] -> length l <= fuel -> idx < length l -> length branch = dup_height fuel l ->
  climb_branch x idx branch = root -> l !! idx = Some x \/ C.
Proof.
  revert l idx x branch. induction fuel as [|fuel IH]; intros l idx x branch Sl Sb Hr Hf Hi Hb Hc; [lia|].
  cbn [dup_collapse dup_height dup_tree_pairs] in *. destruct (Nat.ltb_spec 1 (length l)) as [Hlt|Hge].
  - destruct branch as [|s branch]; [done|]. cbn [climb_branch climb_pairs] in *. injection Hb as Hb.
    apply list_subseteq_app_iff_l in Sl as [Sl Sup].
    destruct (lookup_lt_is_Some_2 l idx Hi) as [a Ha]. destruct (level_step l idx a Ha) as (_ & Hp & H2).
    apply Sl in Hp. pose proof (Sb _ (list_elem_of_here _ _)) as Hq.
    pose proof (dup_up_shrinks l Hlt).
    destruct (IH (dup_up l) (idx / 2) _ branch Sup (fun z Hz => Sb z (list_elem_of_further _ _ _ Hz)) Hr ltac:(lia)
                (lookup_lt_Some _ _ _ H2) Hb) as [H'|?]; [by destruct (Nat.odd idx)| |by right].
    rewrite H2 in H'. injection H' as H'. rewrite Ha.
    destruct (Nat.odd idx); apply combine_inj_or in H' as [[H1 H3]|?]; try done; try (by right); left; cbn in *; congruence.
  - destruct branch; [|done]. destruct l as [|r [|r' l]]; simpl in *; [lia| |lia].
    destruct idx; [|lia]. left. cbn in *. congruence.
Qed.
End Sound.
End DupLevels.

(** Soundness for a combination that hashes [hashed (a, b)] for a pair: a branch climbs to the
    root from the leaf at its position only, or two strings that are hashed for the pairs of the tree
    and of the branch collide. *)
Definition branch_hashed {A} (combine : A -> A -> A) (hashed : A * A -> list bytes) (l : list A) (x : A)
    (idx : nat) (branch : list A) : list bytes :=
  flat_map hashed (dup_tree_pairs combine (length l) l ++ climb_pairs combine x idx branch).

Lemma branch_binds {A} (h : bytes -> Bytes32) (combine : A -> A -> A) (hashed : A * A -> list bytes)
    (Hinj : forall k a b c d, hashed (a, b) ⊆ k -> hashed (c, d) ⊆ k -> combine a b = combine c d ->
              (a = c /\ b = d) \/ collision_in h k)
    (l : list A) (idx : nat) (x : A) (branch : list A) (root : A) :
  dup_collapse combine (length l) l = [root] -> idx < length l ->
  length branch = dup_height combine (length l) l ->
  climb_branch combine x idx branch = root ->
  l !! idx = Some x \/ collision_in h (branch_hashed combine hashed l x idx branch).
Proof.
  intros Hr Hi Hb Hc. unfold branch_hashed. set (ps := dup_tree_pairs combine (length l) l ++ _).
  apply (branch_sound combine _ ps) with (fuel := length l) (branch := branch) (root := root); try done.
  - intros a b c d H1 H2. apply Hinj; by apply flat_map_sub.
  - set_solver.
  - set_solver.
Qed.

(** * Canonical Merkle trees (csv-hash/src/merkle/)

    [MerkleTree]: building, proving, verifying (tree.rs); the stateless
    verifier (verifier.rs); the streaming builder and proof generator
    (streaming.rs).  Loops over levels take fuel: a level of [n] nodes has
    [(n + 1) / 2] parents, so [length leaves] rounds always reach one node
    ([build_loop_fuel]). *)

Record MerkleProof := mkProof {
  siblings : list Hash;
  leaf_index : nat;
  leaf_count : nat;
  proof_balanced_count : nat
}.

Record MerkleTree := mkTree {
  root : Hash;
  leaves : list Hash;
  depth : nat;
  balanced_count : nat
}.

Section Merkle.
Variable sha256 : bytes -> Bytes32.
Local Notation tagged := (tagged_hash sha256).

(** ** Hashing of nodes *)

(** [MerkleTree::hash_leaf] *)
Definition hash_leaf (data : bytes) : Hash := tagged MerkleLeaf data.
Definition leaf_preimage (data : bytes) : bytes := tagged_preimage MerkleLeaf data.

(** [combine_children] (tree.rs), [MerkleProof::combine_nodes] (tree.rs) and
    [combine_nodes] (verifier.rs) are the same code three times. *)
Definition combine_children (left right : Hash) : Hash :=
  let '(lo, hi) := if leb left right then (left, right) else (right, left) in
  tagged MerkleCombine (b32 lo ++ b32 hi).

(** What it hashes. *)
Definition combine_preimage (left right : Hash) : bytes :=
  let '(lo, hi) := if leb left right then (left, right) else (right, left) in
  tagged_preimage MerkleCombine (b32 lo ++ b32 hi).

Definition combine_nodes (left right : Hash) : Hash :=
  let '(lo, hi) := if leb left right then (left, right) else (right, left) in
  tagged MerkleCombine (b32 lo ++ b32 hi).

(** ** Building *)

(** [balance_leaves]: the padding loop pushes the last leaf while the length
    is odd; one push makes it even, so the loop body runs at most once. *)
Definition balance_leaves (ls : list Hash) : list Hash :=
  if length ls <=? 1 then ls
  else if Nat.even (length ls) then ls
  else match last ls with Some x => ls ++ [x] | None => ls end.

(** The body of the [while current_level.len() > 1] loops: [chunks(2)], a pair
    is combined, a single trailing node is carried up. *)
Definition next_level : list Hash -> list Hash := pair_up combine_children.

Fixpoint build_loop (fuel : nat) (level : list Hash) (d : nat) : list Hash * nat :=
  match fuel with
  | O => (level, d)
  | S fuel' =>
      if 1 <? length level then build_loop fuel' (next_level level) (S d)
      else (level, d)
  end.

(** [build_tree]: [None] is the out-of-bounds panic on an empty vector. *)
Definition build_tree (ls : list Hash) : option (Hash * nat) :=
  let '(level, d) := build_loop (length ls) ls 0 in
  match level with r :: _ => Some (r, d) | [] => None end.

(** [MerkleTree::from_leaves] *)
Definition from_leaves (leaf_hashes : list Hash) : option MerkleTree :=
  match leaf_hashes with
  | [] => None
  | _ =>
      let balanced := balance_leaves leaf_hashes in
      '(r, d) ← build_tree balanced;
      Some (mkTree r leaf_hashes d (length balanced))
  end.

(** [MerkleTree::new] *)
Definition merkle_new (data : list bytes) : option MerkleTree :=
  match data with
  | [] => None
  | _ =>
      let hashed := map hash_leaf data in
      let balanced := balance_leaves hashed in
      '(r, d) ← build_tree balanced;
      Some (mkTree r hashed d (length balanced))
  end.

(** ** Proving *)

Fixpoint proof_loop (fuel : nat) (level : list Hash) (index : nat) : option (list Hash) :=
  match fuel with
  | O => Some []
  | S fuel' =>
      if 1 <? length level then
        sib ← (if Nat.even index then
                 if S index <? length level
                 then h ← level !! S index; Some [h]
                 else Some []
               else h ← level !! pred index; Some [h]);
        rest ← proof_loop fuel' (next_level level) (index / 2);
        Some (sib ++ rest)
      else Some []
  end.

(** [MerkleTree::proof] *)
Definition proof (t : MerkleTree) (index : nat) : option MerkleProof :=
  if length (leaves t) <=? index then None
  else
    let level := balance_leaves (leaves t) in
    sibs ← proof_loop (length level) level index;
    Some (mkProof sibs index (length (leaves t)) (balanced_count t)).

(** ** Verifying *)

(** The fold shared by [MerkleProof::verify], [verify_merkle_proof] and
    [compute_root_from_proof]; [index] is halved and never read. *)
Fixpoint fold_proof (current : Hash) (index : nat) (sibs : list Hash) : Hash :=
  match sibs with
  | [] => current
  | s :: sibs' => fold_proof (combine_nodes current s) (index / 2) sibs'
  end.

(** [MerkleProof::verify] *)
Definition verify (p : MerkleProof) (leaf r : Hash) : bool :=
  if leaf_count p =? 0 then false
  else bool_decide (fold_proof leaf (leaf_index p) (siblings p) = r).

(** [verify_merkle_proof] *)
Definition verify_merkle_proof (leaf : Hash) (sibs : list Hash) (index : nat) (r : Hash) : bool :=
  match sibs with
  | [] => bool_decide (leaf = r)
  | _ => bool_decide (fold_proof leaf index sibs = r)
  end.

(** [verify_merkle_proofs_batch] *)
Definition verify_merkle_proofs_batch (ps : list (Hash * list Hash * nat)) (r : Hash)
  : list bool :=
  map (fun '(leaf, sibs, index) => verify_merkle_proof leaf sibs index r) ps.

(** [compute_root_from_proof] *)
Definition compute_root_from_proof (leaf : Hash) (sibs : list Hash) (index : nat) : Hash :=
  fold_proof leaf index sibs.

(** [MerkleTree::verify_inclusion] *)
Definition verify_inclusion (t : MerkleTree) (index : nat) (data : bytes) : bool :=
  match proof t index with
  | Some p => verify p (hash_leaf data) (root t)
  | None => false
  end.

(** ** Streaming (streaming.rs) *)

Definition builder_add_leaf (b : list Hash) (data : bytes) : list Hash :=
  b ++ [hash_leaf data].

Definition builder_add_leaves (b : list Hash) (data : list bytes) : list Hash :=
  fold_left builder_add_leaf data b.

Definition builder_build (b : list Hash) : option MerkleTree := from_leaves b.

Definition builder_current_root (b : list Hash) : option Hash :=
  match b with
  | [] => None
  | _ => '(r, _) ← build_tree (balance_leaves b); Some r
  end.

(** [StreamingMerkleProofGenerator] *)
Record ProofGenerator := mkGen {
  gen_builder : list Hash;
  gen_proofs : list (option MerkleProof)
}.

Definition gen_new : ProofGenerator := mkGen [] [].

Definition gen_add_leaf (g : ProofGenerator) (data : bytes) : ProofGenerator :=
  mkGen (builder_add_leaf (gen_builder g) data) (gen_proofs g).

(** [while self.proofs.len() <= index { self.proofs.push(None) }] *)
Definition pad_proofs (ps : list (option MerkleProof)) (index : nat)
  : list (option MerkleProof) :=
  ps ++ replicate (S index - length ps) None.

Definition gen_add_and_prove (g : ProofGenerator) (data : bytes)
  : option MerkleProof * ProofGenerator :=
  let index := length (gen_builder g) in
  let b := builder_add_leaf (gen_builder g) data in
  match builder_build b with
  | None => (None, mkGen b (gen_proofs g))
  | Some t =>
      let p := proof t index in
      (p, mkGen b (<[index := p]> (pad_proofs (gen_proofs g) index)))
  end.

Definition gen_get_proof (g : ProofGenerator) (index : nat) : option MerkleProof :=
  p ← gen_proofs g !! index; p.

Definition gen_build_proofs (g : ProofGenerator) : option MerkleTree * ProofGenerator :=
  match builder_build (gen_builder g) with
  | None => (None, g)
  | Some t =>
      (Some t, mkGen (gen_builder g) (map (proof t) (seq 0 (length (leaves t)))))
  end.

(** A caller of the generator: leaves added, with or without a proof for each. *)
Inductive GenOp := AddLeaf (data : bytes) | AddAndProve (data : bytes).
Definition op_data (o : GenOp) : bytes := match o with AddLeaf d | AddAndProve d => d end.
Definition gen_apply (g : ProofGenerator) (o : GenOp) : ProofGenerator :=
  match o with AddLeaf d => gen_add_leaf g d | AddAndProve d => (gen_add_and_prove g d).2 end.

(** ** Lemmas: node hashing *)

Lemma combine_nodes_children a b : combine_nodes a b = combine_children a b.
Proof. reflexivity. Qed.

Lemma combine_comm a b : combine_children a b = combine_children b a.
Proof.
  unfold combine_children. destruct (leb a b) eqn:E1, (leb b a) eqn:E2; try done.
  - by rewrite (leb_antisym a b E1 E2).
  - apply leb_total in E1. congruence.
Qed.

(** Among which strings a collision is looked for. *)
Section Hashed.
Variable hashed : list bytes.

Lemma combine_inj a b c d : combine_preimage a b ∈ hashed -> combine_preimage c d ∈ hashed ->
  combine_children a b = combine_children c d ->
  (a = c /\ b = d) \/ (a = d /\ b = c) \/ collision_in sha256 hashed.
Proof.
  unfold combine_children, combine_preimage.
  destruct (leb a b), (leb c d); intros S1 S2 H; hash_inj H;
    apply app_eq_length_inj in H as [H1%b32_inj H2%b32_inj]; auto; by rewrite !b32_length.
Qed.

Lemma combine_not_leaf a b data : combine_preimage a b ∈ hashed -> leaf_preimage data ∈ hashed ->
  combine_children a b = hash_leaf data -> collision_in sha256 hashed.
Proof.
  unfold combine_children, combine_preimage, hash_leaf, leaf_preimage.
  destruct (leb a b); intros S1 S2 H; eapply tagged_hash_binds in H as [[H _]|?]; done.
Qed.

Lemma hash_leaf_inj x y : leaf_preimage x ∈ hashed -> leaf_preimage y ∈ hashed ->
  hash_leaf x = hash_leaf y -> x = y \/ collision_in sha256 hashed.
Proof. unfold hash_leaf, leaf_preimage. intros Sx Sy H. hash_inj H. by left. Qed.
End Hashed.

(** ** Lemmas: levels *)

Lemma next_level_shrinks l : 1 < length l -> length (next_level l) < length l.
Proof. apply pair_up_shrinks. Qed.

Lemma next_level_nonempty l : l <> [] -> next_level l <> [].
Proof. apply pair_up_nonempty. Qed.

(** ** Lemmas: the build loop *)

Lemma build_loop_fuel fuel l d :
  l <> [] -> length l <= fuel ->
  exists r, (build_loop fuel l d).1 = [r].
Proof.
  revert l d. induction fuel as [|fuel IH]; intros l d Hl Hf.
  - destruct l; simpl in Hf; [done|lia].
  - cbn [build_loop]. destruct (Nat.ltb_spec 1 (length l)) as [Hlt|Hge].
    + apply IH; [by apply next_level_nonempty|].
      pose proof (next_level_shrinks l Hlt). lia.
    + destruct l as [|r [|r' l]]; simpl in *; [done|by exists r|lia].
Qed.

Lemma build_loop_fuel_irrel fuel fuel' l d :
  length l <= fuel -> length l <= fuel' -> build_loop fuel l d = build_loop fuel' l d.
Proof.
  revert fuel' l d. induction fuel as [|fuel IH]; intros fuel' l d H1 H2.
  - destruct l; simpl in H1; [|lia]. by destruct fuel'.
  - destruct fuel' as [|fuel'].
    + destruct l; simpl in H2; [done|lia].
    + cbn [build_loop]. destruct (Nat.ltb_spec 1 (length l)); [|done].
      pose proof (next_level_shrinks l ltac:(lia)). apply IH; lia.
Qed.

Lemma build_tree_some l : l <> [] -> exists r d, build_tree l = Some (r, d).
Proof.
  intros Hl. unfold build_tree.
  destruct (build_loop_fuel (length l) l 0 Hl ltac:(lia)) as [r Hr].
  destruct (build_loop (length l) l 0) as [lv d]. simpl in Hr. subst. eauto.
Qed.

(** The loop counts [ceil(log2 n)] rounds. *)
Lemma build_loop_depth fuel l d :
  l <> [] -> length l <= fuel ->
  (build_loop fuel l d).2 = d + Nat.log2_up (length l).
Proof.
  revert l d. induction fuel as [|fuel IH]; intros l d Hl Hf.
  - destruct l; simpl in Hf; [done|lia].
  - cbn [build_loop]. destruct (Nat.ltb_spec 1 (length l)) as [Hlt|Hge].
    + rewrite IH; [|by apply next_level_nonempty|pose proof (next_level_shrinks l Hlt); lia].
      unfold next_level. rewrite length_pair_up.
      assert (Nat.log2_up (length l) = S (Nat.log2_up ((length l + 1) / 2))) as ->; [|lia].
      set (n := length l) in *. clearbody n.
      pose proof (Nat.div_mod_eq (n + 1) 2) as Hd.
      pose proof (Nat.mod_upper_bound (n + 1) 2 ltac:(lia)) as Hm.
      set (h := (n + 1) / 2) in *. clearbody h.
      destruct ((n + 1) mod 2) as [|[|?]]; [| |lia].
      * replace n with (2 * h - 1) by lia.
        destruct (decide (h = 1)) as [->|Hh]; [lia|].
        rewrite <- (Nat.log2_up_double h) by lia.
        apply Nat.le_antisymm; [apply Nat.log2_up_le_mono; lia|].
        rewrite Nat.log2_up_double by lia.
        pose proof (Nat.log2_up_spec h ltac:(lia)) as [Hlo _].
        pose proof (Nat.log2_up_pos h ltac:(lia)) as Hpos.
        set (k := Nat.log2_up h) in *. clearbody k.
        assert (Hk : 2 ^ k < 2 * h - 1).
        { destruct k as [|k]; [lia|]. simpl pred in Hlo. rewrite Nat.pow_succ_r'. lia. }
        pose proof (Nat.log2_up_le_mono (S (2 ^ k)) (2 * h - 1) ltac:(lia)) as Hmono.
        rewrite Nat.log2_up_succ_pow2 in Hmono by lia. lia.
      * replace n with (2 * h) by lia. by rewrite Nat.log2_up_double by lia.
    + assert (length l = 1) as -> by (destruct l as [|? [|]]; simpl in *; [done|lia|lia]).
      rewrite Nat.log2_up_1. simpl. lia.
Qed.

(** ** Lemmas: completeness *)

Lemma fold_proof_index a i j sibs : fold_proof a i sibs = fold_proof a j sibs.
Proof. revert a i j. induction sibs as [|s sibs IH]; simpl; intros; auto. Qed.

(** Folding the siblings the prover collects from any node of a level reaches
    the node the build loop ends in. *)
Lemma proof_loop_complete fuel l d index a :
  length l <= fuel -> l !! index = Some a ->
  exists sibs, proof_loop fuel l index = Some sibs /\
    length sibs <= (build_loop fuel l d).2 - d /\
    (build_loop fuel l d).1 = [fold_proof a index sibs].
Proof.
  revert l d index a. induction fuel as [|fuel IH]; intros l d index a Hf Ha.
  - destruct l; simpl in Hf; [done|lia].
  - cbn [proof_loop build_loop].
    destruct (Nat.ltb_spec 1 (length l)) as [Hlt|Hge].
    + pose proof (next_level_shrinks l Hlt) as Hsh.
      pose proof (pair_up_lookup combine_children l index a Ha) as Hup.
      pose proof (build_loop_depth fuel (next_level l) (S d)) as Hd.
      destruct (IH (next_level l) (S d) (index / 2) _ ltac:(lia) Hup)
        as (sibs & Hs & Hlen & Hr).
      rewrite Hs, Hr. simpl mbind.
      assert (Hne : next_level l <> []) by (destruct l as [|? [|]]; done).
      specialize (Hd Hne ltac:(lia)).
      destruct (Nat.even index) eqn:Ev.
      * destruct (Nat.ltb_spec (S index) (length l)) as [Hin|Hout].
        -- destruct (lookup_lt_is_Some_2 l (S index) Hin) as [b Hb].
           rewrite Hb. simpl. eexists; split; [done|]. split; [simpl; lia|].
           reflexivity.
        -- assert (l !! S index = None) as Hb by (by apply lookup_ge_None).
           rewrite Hb. simpl. eexists; split; [done|]. split; [simpl; lia|].
           by rewrite (fold_proof_index _ index (index / 2)).
      * destruct index as [|index]; [done|]. cbn [pred] in *.
        assert (index < length l) as Hin by (apply lookup_lt_Some in Ha; lia).
        destruct (lookup_lt_is_Some_2 l index Hin) as [b Hb].
        rewrite Hb. simpl. eexists; split; [done|]. split; [simpl; lia|].
        rewrite (combine_comm b a). reflexivity.
    + destruct l as [|r [|r' l]]; simpl in Hge; [done| |lia].
      destruct index; [|done]. injection Ha as ->.
      exists []. split; [done|]. split; [simpl; lia|done].
Qed.

Lemma balance_leaves_nonempty l : l <> [] -> balance_leaves l <> [].
Proof.
  unfold balance_leaves. intros Hl. case_match; [done|]. case_match; [done|].
  destruct (last l); [|done]. by destruct l.
Qed.

Lemma balance_leaves_prefix l : l `prefix_of` balance_leaves l.
Proof.
  unfold balance_leaves. case_match; [done|]. case_match; [done|].
  destruct (last l) as [x|]; [by exists [x]|done].
Qed.

Lemma balance_leaves_elem l h : h ∈ balance_leaves l <-> h ∈ l.
Proof.
  unfold balance_leaves. case_match; [done|]. case_match; [done|].
  destruct (last l) as [x|] eqn:Hx; [|done].
  apply last_Some in Hx as [l' ->]. set_solver.
Qed.

Lemma length_balance_leaves l :
  length (balance_leaves l) =
  if length l <=? 1 then length l
  else if Nat.even (length l) then length l else S (length l).
Proof.
  unfold balance_leaves. case_match; [done|]. case_match; [done|].
  destruct (last l) eqn:Hx; [rewrite length_app; simpl; lia|].
  apply last_None in Hx as ->. done.
Qed.

(** What the loops leave behind: the whole shape of a built tree. *)
Lemma from_leaves_spec l t :
  from_leaves l = Some t ->
  l <> [] /\ leaves t = l /\ balanced_count t = length (balance_leaves l) /\
  depth t = Nat.log2_up (length (balance_leaves l)) /\
  (build_loop (length (balance_leaves l)) (balance_leaves l) 0).1 = [root t].
Proof.
  unfold from_leaves. intros H. destruct l as [|h l]; [done|].
  set (b := balance_leaves (h :: l)) in *.
  assert (Hb : b <> []) by (by apply balance_leaves_nonempty).
  destruct (build_tree b) as [[r d]|] eqn:E; [|done]. simpl in H. injection H as <-.
  simpl. split; [done|]. split; [done|]. split; [done|].
  unfold build_tree in E.
  pose proof (build_loop_fuel (length b) b 0 Hb ltac:(lia)) as [r' Hr'].
  pose proof (build_loop_depth (length b) b 0 Hb ltac:(lia)) as Hd.
  destruct (build_loop (length b) b 0) as [lv d']. simpl in *. subst.
  by injection E as -> ->.
Qed.

Lemma proof_complete l t i h :
  from_leaves l = Some t -> l !! i = Some h ->
  exists p, proof t i = Some p /\ leaf_index p = i /\ leaf_count p = length l /\
    length (siblings p) <= depth t /\ fold_proof h i (siblings p) = root t.
Proof.
  intros Ht Hi. apply from_leaves_spec in Ht as (Hne & Hl & _ & Hd & Hr).
  unfold proof. rewrite Hl.
  pose proof (lookup_lt_Some _ _ _ Hi) as Hlt.
  rewrite (proj2 (Nat.leb_gt _ _)) by done.
  assert (Hi' : balance_leaves l !! i = Some h).
  { eapply prefix_lookup_Some; [exact Hi|apply balance_leaves_prefix]. }
  destruct (proof_loop_complete _ _ 0 _ _ (le_n _) Hi') as (sibs & Hs & Hlen & Hf).
  rewrite Hs. simpl. eexists; split; [done|]. simpl. split; [done|]. split; [done|].
  rewrite build_loop_depth in Hlen; [|by apply balance_leaves_nonempty|done].
  split; [lia|]. rewrite Hr in Hf. by injection Hf.
Qed.

(** ** Lemmas: soundness *)

(** The pairs that building a tree combines, and the nodes it has: a leaf, or the combination
    of one of those pairs. *)
Definition tree_pairs (ls : list Hash) : list (Hash * Hash) :=
  let level := balance_leaves ls in collapse_pairs combine_children (length level) level.

Inductive tree_node (ls : list Hash) (ps : list (Hash * Hash)) : Hash -> Prop :=
| node_leaf h : h ∈ ls -> tree_node ls ps h
| node_combine a b : (a, b) ∈ ps -> tree_node ls ps a -> tree_node ls ps b ->
    tree_node ls ps (combine_children a b).

Lemma build_loop_nodes ls ps fuel l d :
  collapse_pairs combine_children fuel l ⊆ ps ->
  Forall (tree_node ls ps) l -> Forall (tree_node ls ps) (build_loop fuel l d).1.
Proof.
  revert l d. induction fuel as [|fuel IH]; intros l d Sp Hl; [done|].
  cbn [build_loop collapse_pairs] in *. destruct (1 <? length l); [|done].
  apply list_subseteq_app_iff_l in Sp as [Sl Sp]. apply IH; [done|].
  apply pair_up_Forall; [|done]. intros a b Hab. apply node_combine. by apply Sl.
Qed.

Lemma from_leaves_root_node l t : from_leaves l = Some t -> tree_node l (tree_pairs l) (root t).
Proof.
  intros Ht. apply from_leaves_spec in Ht as (_ & _ & _ & _ & Hr).
  assert (H : Forall (tree_node l (tree_pairs l)) [root t]).
  { rewrite <- Hr. apply build_loop_nodes; [done|]. apply Forall_forall. intros h Hh.
    apply node_leaf. by apply balance_leaves_elem. }
  by apply Forall_cons in H as [H _].
Qed.

(** What is hashed to build a tree, and to climb from a node along siblings. *)
Definition tree_hashed (data : list bytes) : list bytes :=
  map leaf_preimage data ++ map (uncurry combine_preimage) (tree_pairs (map hash_leaf data)).
Fixpoint fold_hashed (current : Hash) (sibs : list Hash) : list bytes :=
  match sibs with
  | [] => []
  | s :: sibs => combine_preimage current s :: fold_hashed (combine_nodes current s) sibs
  end.

Section Sound.
Variable hashed : list bytes.
Variable ls : list bytes.
Hypothesis tree_known : tree_hashed ls ⊆ hashed.
Local Notation node := (tree_node (map hash_leaf ls) (tree_pairs (map hash_leaf ls))).

Lemma leaf_known d : d ∈ ls -> leaf_preimage d ∈ hashed.
Proof. intros Hd. apply tree_known, elem_of_app. left. by apply list_elem_of_fmap_2. Qed.
Lemma pair_known a b : (a, b) ∈ tree_pairs (map hash_leaf ls) -> combine_preimage a b ∈ hashed.
Proof.
  intros Hp. apply tree_known, elem_of_app. right.
  by apply (list_elem_of_fmap_2 (uncurry combine_preimage) _ (a, b)).
Qed.

(** Walking a proof down from a node of an honest tree stays in the tree,
    whatever the siblings and the claimed index are. *)
Lemma fold_proof_node sibs cur i : fold_hashed cur sibs ⊆ hashed ->
  node (fold_proof cur i sibs) -> node cur \/ collision_in sha256 hashed.
Proof.
  revert cur i. induction sibs as [|s sibs IH]; intros cur i Sf Hn; simpl in Hn; [by left|].
  cbn [fold_hashed] in Sf. apply list_subseteq_cons_iff in Sf as [Sc Sf].
  destruct (IH _ _ Sf Hn) as [Hc|?]; [|by right].
  rewrite combine_nodes_children in Hc.
  remember (combine_children cur s) as c eqn:Ec.
  destruct Hc as [h Hh|a b Hp Ha Hb].
  - apply list_elem_of_fmap in Hh as (d & -> & Hd). symmetry in Ec.
    right. apply (combine_not_leaf hashed) in Ec; [done..|]. by apply leaf_known.
  - apply (combine_inj hashed) in Ec as [[<- _]|[[_ <-]|?]]; auto. by apply pair_known.
Qed.

Lemma leaf_node_mem data : leaf_preimage data ∈ hashed ->
  node (hash_leaf data) -> data ∈ ls \/ collision_in sha256 hashed.
Proof.
  intros Sd Hn. remember (hash_leaf data) as h eqn:Eh. destruct Hn as [h Hh|a b Hp _ _].
  - apply list_elem_of_fmap in Hh as (d & -> & Hd).
    apply (hash_leaf_inj hashed) in Eh as [->|?]; auto. by apply leaf_known.
  - right. apply (combine_not_leaf hashed) in Eh; [done| |done]. by apply pair_known.
Qed.
End Sound.

Lemma merkle_new_from_leaves data : merkle_new data = from_leaves (map hash_leaf data).
Proof. by destruct data. Qed.

Lemma builder_add_leaves_app b data :
  builder_add_leaves b data = b ++ map hash_leaf data.
Proof.
  revert b. induction data as [|x data IH]; intros b; simpl; [by rewrite app_nil_r|].
  rewrite IH. unfold builder_add_leaf. by rewrite <- app_assoc.
Qed.

Lemma gen_apply_builder g o : gen_builder (gen_apply g o) = gen_builder g ++ [hash_leaf (op_data o)].
Proof.
  destruct o as [d|d]; [done|]. cbn [gen_apply]. unfold gen_add_and_prove.
  by destruct (builder_build _).
Qed.

Lemma gen_ops_builder ops g :
  gen_builder (fold_left gen_apply ops g) = gen_builder g ++ map hash_leaf (map op_data ops).
Proof.
  revert g. induction ops as [|o ops IH]; intros g; simpl; [by rewrite app_nil_r|].
  by rewrite IH, gen_apply_builder, <- app_assoc.
Qed.

Lemma current_root_from_leaves b : builder_current_root b = root <$> from_leaves b.
Proof.
  unfold builder_current_root, from_leaves. destruct b as [|h b]; [done|].
  by destruct (build_tree _) as [[r d]|].
Qed.

Lemma from_leaves_some l : l <> [] -> exists t, from_leaves l = Some t.
Proof.
  intros Hl. unfold from_leaves. destruct l as [|h l]; [done|].
  destruct (build_tree_some (balance_leaves (h :: l))) as (r & d & ->);
    [by apply balance_leaves_nonempty|]. simpl. eauto.
Qed.
End Merkle.

(** ** Properties *)

Section MerkleProperties.
Variable sha256 : bytes -> Bytes32.

(** completeness.  For every non-empty list of leaf data a tree is built,
    and for every index in range it yields a proof that the tree's own
    [verify_inclusion], the proof's [verify] and the stateless
    [verify_merkle_proof] accept; the proof has at most [ceil(log2 n)]
    siblings, [n] the balanced leaf count. *)
Theorem merkle_proofs_complete (data : list bytes) (i : nat) (d : bytes) :
  data !! i = Some d ->
  exists t p,
    merkle_new sha256 data = Some t /\
    proof sha256 t i = Some p /\
    verify sha256 p (hash_leaf sha256 d) (root t) = true /\
    verify_merkle_proof sha256 (hash_leaf sha256 d) (siblings p) i (root t) = true /\
    verify_inclusion sha256 t i d = true /\
    length (siblings p) <= Nat.log2_up (balanced_count t).
Proof.
  intros Hd.
  assert (Hne : map (hash_leaf sha256) data <> []) by (by destruct data).
  destruct (from_leaves_some sha256 _ Hne) as [t Ht].
  assert (Hi : map (hash_leaf sha256) data !! i = Some (hash_leaf sha256 d))
    by (rewrite list_lookup_fmap; by rewrite Hd).
  destruct (proof_complete sha256 _ _ _ _ Ht Hi) as (p & Hp & Hix & Hc & Hlen & Hf).
  pose proof (from_leaves_spec sha256 _ _ Ht) as (_ & _ & Hb & Hdep & _).
  assert (Hv : verify sha256 p (hash_leaf sha256 d) (root t) = true).
  { unfold verify. rewrite Hc, Hix, Hf, bool_decide_true by done.
    by destruct data. }
  exists t, p. rewrite merkle_new_from_leaves. repeat split; [done|done|done| | |].
  - unfold verify_merkle_proof. destruct (siblings p) as [|s sibs] eqn:Es.
    + simpl in Hf. by apply bool_decide_true.
    + rewrite <- Hf. by apply bool_decide_true.
  - unfold verify_inclusion. by rewrite Hp.
  - rewrite Hb, <- Hdep. done.
Qed.

(** C13: soundness of inclusion.  Whatever siblings and index a prover sends,
    if the stateless verifier accepts the data against the root of a tree
    built from [ls], then the data is one of [ls], or a string that is hashed to build the
    tree collides with one that is hashed to verify the proof, or two of either do (domain
    separation of leaves and inner nodes is what makes paths of any length safe). *)
Theorem merkle_inclusion_sound (ls : list bytes) t data sibs i :
  merkle_new sha256 ls = Some t ->
  verify_merkle_proof sha256 (hash_leaf sha256 data) sibs i (root t) = true ->
  data ∈ ls \/
  collision_in sha256 (tree_hashed sha256 ls ++
                       leaf_preimage data :: fold_hashed sha256 (hash_leaf sha256 data) sibs).
Proof.
  rewrite merkle_new_from_leaves. intros Ht Hv.
  apply from_leaves_root_node in Ht.
  assert (Hf : fold_proof sha256 (hash_leaf sha256 data) i sibs = root t).
  { unfold verify_merkle_proof in Hv. destruct sibs; by apply bool_decide_eq_true in Hv. }
  rewrite <- Hf in Ht.
  set (hashed := tree_hashed sha256 ls ++ _).
  assert (Hfold : fold_hashed sha256 (hash_leaf sha256 data) sibs ⊆ hashed) by set_solver.
  destruct (fold_proof_node sha256 hashed ls ltac:(set_solver) _ _ _ Hfold Ht) as [Hn|?]; [|by right].
  apply (leaf_node_mem sha256 hashed ls); [set_solver..|done].
Qed.

(** the proof of a leaf among leaf hashes verifies. *)
Lemma proof_verifies l t i d : from_leaves sha256 l = Some t -> l !! i = Some (hash_leaf sha256 d) ->
  exists p, proof sha256 t i = Some p /\ verify sha256 p (hash_leaf sha256 d) (root t) = true.
Proof.
  intros Ht Hi. destruct (proof_complete sha256 _ _ _ _ Ht Hi) as (p & Hp & Hix & Hc & _ & Hf).
  exists p. split; [done|]. unfold verify. rewrite Hc, Hix, Hf, bool_decide_true by done.
  by destruct l.
Qed.

(** streaming is the batch tree.  After any leaves the builder builds, and its current root
    is the root of, the tree of all of them at once.  A generator that has added leaves, with
    or without a proof for each, in any order, then adds one more with a proof: that
    proof verifies against the root of the leaves so far.  [build_proofs] leaves it with exactly
    one proof per leaf, however stale the ones it held, and each verifies against the root
    of the tree it returns. *)
Theorem streaming_refines_batch (ops : list GenOp) (d : bytes) :
  let data := map op_data ops in
  let g := fold_left (gen_apply sha256) ops gen_new in
  builder_build sha256 (builder_add_leaves sha256 [] data) = merkle_new sha256 data /\
  builder_current_root sha256 (builder_add_leaves sha256 [] data) = root <$> merkle_new sha256 data /\
  (exists t p, merkle_new sha256 (data ++ [d]) = Some t /\ (gen_add_and_prove sha256 g d).1 = Some p /\
     gen_get_proof (gen_add_and_prove sha256 g d).2 (length data) = Some p /\
     verify sha256 p (hash_leaf sha256 d) (root t) = true) /\
  (gen_build_proofs sha256 g).1 = merkle_new sha256 data /\
  forall t, merkle_new sha256 data = Some t ->
    length (gen_proofs (gen_build_proofs sha256 g).2) = length data /\
    forall i x, data !! i = Some x ->
      exists p, gen_get_proof (gen_build_proofs sha256 g).2 i = Some p /\
                verify sha256 p (hash_leaf sha256 x) (root t) = true.
Proof.
  cbn zeta. set (data := map op_data ops). set (g := fold_left _ ops gen_new).
  assert (Hg : gen_builder g = map (hash_leaf sha256) data) by apply gen_ops_builder.
  rewrite !merkle_new_from_leaves, builder_add_leaves_app, current_root_from_leaves. cbn [app].
  unfold gen_add_and_prove, gen_build_proofs, builder_build, builder_add_leaf. rewrite Hg.
  split; [done|]. split; [done|]. split; [|split].
  - destruct (from_leaves_some sha256 (map (hash_leaf sha256) data ++ [hash_leaf sha256 d])) as [t Ht];
      [by destruct data|].
    destruct (proof_verifies _ t (length data) d Ht) as (p & Hp & Hv).
    { rewrite lookup_app_r by (by rewrite length_map). by rewrite length_map, Nat.sub_diag. }
    exists t, p. rewrite map_app. cbn [map]. rewrite Ht, length_map, Hp. split; [done|]. split; [done|].
    split; [|done]. unfold gen_get_proof, pad_proofs. cbn [snd gen_proofs].
    rewrite list_lookup_insert_eq; [done|]. rewrite length_app, length_replicate. lia.
  - by destruct (from_leaves _ _).
  - intros t Ht. rewrite Ht. pose proof (from_leaves_spec sha256 _ _ Ht) as (_ & Hl & _).
    cbn [snd gen_proofs]. rewrite length_map, length_seq, Hl, length_map. split; [done|].
    intros i x Hx. assert (Hi : map (hash_leaf sha256) data !! i = Some (hash_leaf sha256 x))
      by (rewrite list_lookup_fmap; by rewrite Hx).
    destruct (proof_verifies _ t i x Ht Hi) as (p & Hp & Hv). exists p. split; [|done].
    unfold gen_get_proof. cbn [gen_proofs]. rewrite list_lookup_fmap, lookup_seq_lt by (by eapply lookup_lt_Some).
    by cbn; rewrite Hp.
Qed.

(** what a root does not determine.  The root of an odd number (three or
    more) of leaves is the root of the list with its last leaf repeated, and
    a proof is accepted at one claimed index exactly when it is accepted at
    every other: the position is not bound. *)
Theorem merkle_root_not_injective (ls : list Hash) (x : Hash) :
  Nat.even (length ls) = true -> ls <> [] ->
  (exists t1 t2, from_leaves sha256 (ls ++ [x]) = Some t1 /\
                 from_leaves sha256 (ls ++ [x; x]) = Some t2 /\
                 leaves t1 <> leaves t2 /\ root t1 = root t2) /\
  (forall leaf sibs i j r,
     verify_merkle_proof sha256 leaf sibs i r = verify_merkle_proof sha256 leaf sibs j r).
Proof.
  intros Hev Hne. split.
  - destruct (from_leaves_some sha256 (ls ++ [x])) as [t1 H1]; [by destruct ls|].
    destruct (from_leaves_some sha256 (ls ++ [x; x])) as [t2 H2]; [by destruct ls|].
    exists t1, t2. split; [done|]. split; [done|].
    pose proof (from_leaves_spec sha256 _ _ H1) as (_ & L1 & _ & _ & R1).
    pose proof (from_leaves_spec sha256 _ _ H2) as (_ & L2 & _ & _ & R2).
    split.
    + rewrite L1, L2. intros E. apply (f_equal length) in E.
      rewrite !length_app in E. simpl in E. lia.
    + assert (Hb : balance_leaves (ls ++ [x]) = balance_leaves (ls ++ [x; x])).
      { unfold balance_leaves. rewrite last_snoc, !length_app. simpl length.
        destruct ls as [|y [|z ls]]; [done|done|].
        rewrite !Nat.even_add. simpl in Hev |- *. rewrite Hev. simpl.
        by rewrite <- app_assoc. }
      rewrite Hb, R2 in R1. by injection R1.
  - intros leaf sibs i j r. unfold verify_merkle_proof.
    destruct sibs; [done|]. by rewrite (fold_proof_index sha256 leaf i j).
Qed.
End MerkleProperties.

(** ** Witnesses *)

Definition demo_data : list bytes := map as_bytes ["a"; "b"; "c"; "d"; "e"]%string.

Lemma merkle_proofs_complete_witness :
  exists t p, merkle_new toy_hash demo_data = Some t /\ proof toy_hash t 4 = Some p /\
    verify toy_hash p (hash_leaf toy_hash (as_bytes "e")) (root t) = true.
Proof.
  destruct (merkle_proofs_complete toy_hash demo_data 4 (as_bytes "e"))
    as (t & p & H1 & H2 & H3 & _); [reflexivity|]. by exists t, p.
Defined.

Lemma merkle_inclusion_sound_witness :
  exists t p, merkle_new toy_hash demo_data = Some t /\ proof toy_hash t 2 = Some p /\
    (as_bytes "c" ∈ demo_data \/
     collision_in toy_hash (tree_hashed toy_hash demo_data ++
       leaf_preimage (as_bytes "c") :: fold_hashed toy_hash (hash_leaf toy_hash (as_bytes "c")) (siblings p))).
Proof.
  destruct (merkle_new toy_hash demo_data) as [t|] eqn:Ht; [|vm_compute in Ht; discriminate].
  destruct (proof toy_hash t 2) as [p|] eqn:Hp.
  - exists t, p. split; [done|]. split; [done|].
    apply (merkle_inclusion_sound toy_hash demo_data t (as_bytes "c") (siblings p) 2 Ht).
    vm_compute in Ht. injection Ht as <-. vm_compute in Hp. injection Hp as <-.
    vm_compute. reflexivity.
  - exfalso. vm_compute in Ht. injection Ht as <-. vm_compute in Hp. discriminate.
Defined.

Definition demo_ops : list GenOp :=
  [AddLeaf (as_bytes "a"); AddAndProve (as_bytes "b"); AddLeaf (as_bytes "c"); AddAndProve (as_bytes "d")].

(** The proofs held before are replaced. *)
Lemma streaming_refines_batch_witness :
  exists t p, merkle_new toy_hash (map op_data demo_ops) = Some t /\
    gen_get_proof (gen_build_proofs toy_hash (fold_left (gen_apply toy_hash) demo_ops gen_new)).2 1 = Some p /\
    verify toy_hash p (hash_leaf toy_hash (as_bytes "b")) (root t) = true.
Proof.
  destruct (streaming_refines_batch toy_hash demo_ops (as_bytes "e")) as (_ & _ & _ & _ & H).
  destruct (merkle_new toy_hash (map op_data demo_ops)) as [t|] eqn:Ht; [|vm_compute in Ht; discriminate].
  destruct (proj2 (H t eq_refl) 1 (as_bytes "b") eq_refl) as (p & H1 & H2). exists t, p. auto.
Defined.

Lemma merkle_root_not_injective_witness :
  exists t1 t2,
    from_leaves toy_hash [fill32 Byte.x01; fill32 Byte.x02; fill32 Byte.x03] = Some t1 /\
    from_leaves toy_hash [fill32 Byte.x01; fill32 Byte.x02; fill32 Byte.x03; fill32 Byte.x03]
      = Some t2 /\ leaves t1 <> leaves t2 /\ root t1 = root t2.
Proof.
  apply (merkle_root_not_injective toy_hash [fill32 Byte.x01; fill32 Byte.x02] (fill32 Byte.x03)).
  - reflexivity.
  - discriminate.
Defined.
