(* ===== verification/Content.v ===== *)
(** * Content trees and disclosure (csv-content: content_tree.rs, resource_accounting.rs)

    The content of a sanad is the leaves of a canonical Merkle tree.  Parts of it are
    disclosed by proofs against its root.  An inclusion check answers exactly the leaf at
    the index; a disclosed subtree is a node over the content's leaves, whatever the prover
    sends; a redacted proof, which names no root, says nothing. *)

From S2P Require Import Prelude Ord Bytes Hashing Merkle Text.

(** ** Trees *)

Inductive NodeType := Leaf | Internal | Encrypted | Metadata.
Record AccessControl := mkAccess { ac_readers : list string; ac_writers : list string; min_disclosure_level : N }.
Record NodeMetadata := mkMetadata {
  schema_id : option string;
  encoding : option string;
  content_type : option string;
  nm_size : option N;
  access_control : option AccessControl
}.
Record ContentNode := mkContentNode {
  node_type : NodeType;
  cn_hash : Hash;
  cn_data : option bytes;
  children : list Hash;
  cn_encryption_key_id : option string;
  cn_metadata : NodeMetadata
}.
Record ContentTree := mkContentTree {
  ct_root_hash : Hash;
  leaf_hashes : list Hash;
  ct_depth : nat;
  ct_leaf_count : nat;
  node_metadata : gmap Hash NodeMetadata
}.
Record ContentProof := mkContentProof {
  cp_leaf_index : nat;
  cp_leaf_hash : Hash;
  cp_siblings : list Hash;
  cp_root_hash : Hash
}.

(** The cost of a verification, each a 64-bit number but the last, which has 32 bits. *)
Record VerificationCost := mkCost { cpu : N; memory : N; io : N; recursion_depth : N }.
Inductive VerificationCostError :=
| CpuExceeded (requested limit : N) | MemoryExceeded (requested limit : N)
| IoExceeded (requested limit : N) | RecursionDepthExceeded (requested limit : N).

Definition mul64 (a b : N) : N := wrap64 (a * b).

Definition is_acceptable (c : VerificationCost) (max_cpu max_memory max_io max_recursion : N) : bool :=
  (cpu c <=? max_cpu)%N && (memory c <=? max_memory)%N && (io c <=? max_io)%N && (recursion_depth c <=? max_recursion)%N.
Definition cost_validate (c : VerificationCost) (max_cpu max_memory max_io max_recursion : N)
  : result VerificationCostError unit :=
  reject (max_cpu <? cpu c)%N with CpuExceeded (cpu c) max_cpu;;
  reject (max_memory <? memory c)%N with MemoryExceeded (memory c) max_memory;;
  reject (max_io <? io c)%N with IoExceeded (io c) max_io;;
  reject (max_recursion <? recursion_depth c)%N with RecursionDepthExceeded (recursion_depth c) max_recursion;;
  Ok tt.

Definition content_empty : ContentTree := mkContentTree zero32 [] 0 0 ∅.
Definition set_node_metadata (t : ContentTree) (h : Hash) (m : NodeMetadata) : ContentTree :=
  mkContentTree (ct_root_hash t) (leaf_hashes t) (ct_depth t) (ct_leaf_count t) (<[h := m]> (node_metadata t)).
Definition get_node_metadata (t : ContentTree) (h : Hash) : option NodeMetadata := node_metadata t !! h.

(** [ContentTree::verification_cost] *)
Definition verification_cost (t : ContentTree) : VerificationCost :=
  let n := N.of_nat (ct_leaf_count t) in
  let d := N.of_nat (ct_depth t) in
  mkCost (mul64 n 10) (mul64 (mul64 n 32) (add64 d 1)) n (wrap32 d).

Section Content.
Variable sha256 : bytes -> Bytes32.

(** [ContentTree::from_leaves] *)
Definition content_from_leaves (data : list bytes) : ContentTree :=
  match data with
  | [] => content_empty
  | _ =>
      let hashes := map (hash_leaf sha256) data in
      match from_leaves sha256 hashes with
      | Some canonical => mkContentTree (root canonical) hashes (depth canonical) (length (leaves canonical)) ∅
      | None => content_empty
      end
  end.

(** [ContentTree::proof]; indexing past the end of [leaf_hashes] would panic, which the
    first guard and the one of the canonical proof rule out. *)
Definition content_proof (t : ContentTree) (index : nat) : option ContentProof :=
  if ct_leaf_count t <=? index then None
  else
    canonical ← from_leaves sha256 (leaf_hashes t);
    p ← proof sha256 canonical index;
    h ← leaf_hashes t !! index;
    Some (mkContentProof index h (siblings p) (ct_root_hash t)).

(** [ContentProof::verify], [ContentProof::compute_root] *)
Definition content_proof_verify (p : ContentProof) (leaf_hash : Hash) : bool :=
  if negb (bool_decide (leaf_hash = cp_leaf_hash p)) then false
  else verify_merkle_proof sha256 leaf_hash (cp_siblings p) (cp_leaf_index p) (cp_root_hash p).
Definition content_compute_root (p : ContentProof) (leaf_hash : Hash) : Hash :=
  compute_root_from_proof sha256 leaf_hash (cp_siblings p) (cp_leaf_index p).

(** [ContentTree::verify_inclusion] *)
Definition content_verify_inclusion (t : ContentTree) (index : nat) (data : bytes) : bool :=
  match content_proof t index with
  | Some p => content_proof_verify p (hash_leaf sha256 data)
  | None => false
  end.

(** ** Disclosure *)

Record DisclosureProof := mkDisclosure { subtree_root : Hash; dp_inclusion_proof : ContentProof }.
Definition disclosure_verify (p : DisclosureProof) (content_root : Hash) : bool :=
  if negb (bool_decide (cp_root_hash (dp_inclusion_proof p) = content_root)) then false
  else if negb (content_proof_verify (dp_inclusion_proof p) (subtree_root p)) then false
  else true.

Record RedactedMerkleProof := mkRedacted { rp_leaf_hash : Hash; rp_proof : ContentProof; redaction_method : string }.
Definition redacted_verify (p : RedactedMerkleProof) : bool := content_proof_verify (rp_proof p) (rp_leaf_hash p).

Record EncryptedSubtreeProof := mkEncryptedSubtree {
  encrypted_root : Hash; ep_inclusion_proof : ContentProof; encryption_algorithm : string; ep_key_id : string
}.
Definition encrypted_verify (p : EncryptedSubtreeProof) (content_root : Hash) : bool :=
  bool_decide (cp_root_hash (ep_inclusion_proof p) = content_root)
  && content_proof_verify (ep_inclusion_proof p) (encrypted_root p).

(** ** Lemmas *)

Lemma verify_merkle_fold h sibs i r :
  verify_merkle_proof sha256 h sibs i r = true <-> fold_proof sha256 h i sibs = r.
Proof. unfold verify_merkle_proof. by destruct sibs; rewrite bool_decide_eq_true. Qed.

Lemma content_proof_verify_iff p h :
  content_proof_verify p h = true
  <-> cp_leaf_hash p = h /\ fold_proof sha256 h (cp_leaf_index p) (cp_siblings p) = cp_root_hash p.
Proof.
  unfold content_proof_verify. case_bool_decide as Hh; cbn [negb].
  - rewrite verify_merkle_fold. naive_solver.
  - split; [done|]. by intros [? _].
Qed.

(** What building leaves in the tree. *)
Lemma content_from_leaves_spec data :
  data <> [] -> exists t,
  from_leaves sha256 (map (hash_leaf sha256) data) = Some t /\
  content_from_leaves data = mkContentTree (root t) (map (hash_leaf sha256) data) (depth t) (length data) ∅.
Proof.
  intros Hd. destruct (from_leaves_some sha256 (map (hash_leaf sha256) data)) as [t Ht]; [by destruct data|].
  exists t. split; [done|]. unfold content_from_leaves. destruct data as [|d data]; [done|]. rewrite Ht.
  apply from_leaves_spec in Ht as (_ & -> & _). by rewrite length_map.
Qed.

Lemma content_proof_some data i d :
  data !! i = Some d -> exists p,
  content_proof (content_from_leaves data) i = Some p /\ cp_leaf_hash p = hash_leaf sha256 d /\ cp_leaf_index p = i /\
  cp_root_hash p = ct_root_hash (content_from_leaves data) /\
  length (cp_siblings p) <= ct_depth (content_from_leaves data) /\
  fold_proof sha256 (hash_leaf sha256 d) i (cp_siblings p) = cp_root_hash p.
Proof.
  intros Hi. destruct (content_from_leaves_spec data) as (t & Ht & ->); [by intros ->|].
  assert (Hh : map (hash_leaf sha256) data !! i = Some (hash_leaf sha256 d)).
  { change (map (hash_leaf sha256) data) with (hash_leaf sha256 <$> data). by rewrite list_lookup_fmap, Hi. }
  destruct (proof_complete sha256 _ t i _ Ht Hh) as (p & Hp & _ & _ & Hl & Hf).
  unfold content_proof. cbn [ct_leaf_count leaf_hashes ct_root_hash ct_depth].
  rewrite (proj2 (Nat.leb_gt _ _)) by (by eapply lookup_lt_Some). rewrite Ht. cbn. rewrite Hp. cbn.
  change (@map bytes Hash (hash_leaf sha256) data !! i = Some (hash_leaf sha256 d)) in Hh. rewrite Hh. cbn.
  eexists; split; [done|]. by cbn.
Qed.

Lemma content_proof_none data i : data !! i = None -> content_proof (content_from_leaves data) i = None.
Proof.
  intros Hi%lookup_ge_None. unfold content_proof. destruct (decide (data = [])) as [->|Hd]; [done|].
  destruct (content_from_leaves_spec data Hd) as (t & _ & ->). cbn [ct_leaf_count].
  by rewrite (proj2 (Nat.leb_le _ _)) by done.
Qed.

(** ** Properties *)

(** a content tree answers an inclusion check exactly.  For the tree built from any
    leaves the data at an index is accepted, an index past the end never is, and accepted
    data is the data at that index, not merely of some leaf, or the two collide as leaves.
    The proof the tree hands out is no longer than the tree is deep. *)
Theorem content_inclusion_exact (data : list bytes) (i : nat) (d : bytes) :
  let t := content_from_leaves data in
  (data !! i = Some d -> content_verify_inclusion t i d = true) /\
  (content_verify_inclusion t i d = true -> exists x, data !! i = Some x /\
     (x = d \/ collision_in sha256 [leaf_preimage x; leaf_preimage d])) /\
  (forall p, content_proof t i = Some p -> length (cp_siblings p) <= ct_depth t /\ i < ct_leaf_count t).
Proof.
  intros t. subst t. destruct (data !! i) as [x|] eqn:Hi.
  - destruct (content_proof_some data i x Hi) as (p & Hp & Hh & Hx & Hr & Hl & Hf).
    unfold content_verify_inclusion. rewrite Hp. split; [|split].
    + intros [= <-]. apply content_proof_verify_iff. by rewrite Hx.
    + rewrite content_proof_verify_iff, Hh. intros [E _]. exists x. split; [done|].
      apply (hash_leaf_inj sha256 [leaf_preimage x; leaf_preimage d]); [pick..|congruence].
    + intros p' [= <-]. split; [done|].
      destruct (content_from_leaves_spec data) as (u & _ & ->); [by intros ->|]. by eapply lookup_lt_Some.
  - unfold content_verify_inclusion. by rewrite (content_proof_none _ _ Hi).
Qed.

(** The two disclosure checks against a content root are one check. *)
Lemma disclosure_iff sub p croot :
  disclosure_verify (mkDisclosure sub p) croot = true
  <-> cp_root_hash p = croot /\ cp_leaf_hash p = sub /\ fold_proof sha256 sub (cp_leaf_index p) (cp_siblings p) = croot.
Proof.
  unfold disclosure_verify. cbn [dp_inclusion_proof subtree_root].
  case_bool_decide as Hr; cbn [negb]; [|naive_solver].
  destruct (content_proof_verify p sub) eqn:Hv; cbn [negb].
  - apply content_proof_verify_iff in Hv. naive_solver congruence.
  - split; [done|]. intros (_ & H1 & H2).
    rewrite (proj2 (content_proof_verify_iff p sub)) in Hv; [done|]. by rewrite H2.
Qed.
Lemma encrypted_as_disclosure er p alg kid croot :
  encrypted_verify (mkEncryptedSubtree er p alg kid) croot = disclosure_verify (mkDisclosure er p) croot.
Proof.
  unfold encrypted_verify, disclosure_verify. cbn [ep_inclusion_proof encrypted_root dp_inclusion_proof subtree_root].
  case_bool_decide; cbn [negb andb]; [|done]. by destruct (content_proof_verify p er).
Qed.

(** what an accepted disclosure shows.  Whatever index and siblings the prover sends, a
    subtree that [DisclosureProof::verify] or [EncryptedSubtreeProof::verify] accepts
    against the root of the content is a node of the content's tree (a leaf or a combination
    of a pair of nodes that are combined in it), and when it is the hash of a leaf, that leaf is
    part of the content; or two of the strings hashed to build the tree, to climb from the
    subtree and for that leaf collide. *)
Theorem disclosure_sound (data : list bytes) (p : ContentProof) (sub : Hash) (alg kid : string) :
  data <> [] ->
  disclosure_verify (mkDisclosure sub p) (ct_root_hash (content_from_leaves data)) = true
  \/ encrypted_verify (mkEncryptedSubtree sub p alg kid) (ct_root_hash (content_from_leaves data)) = true ->
  let leaves := map (hash_leaf sha256) data in
  let hashed := tree_hashed sha256 data ++ fold_hashed sha256 sub (cp_siblings p) in
  (tree_node sha256 leaves (tree_pairs sha256 leaves) sub
   /\ forall d, sub = hash_leaf sha256 d -> d ∈ data \/ collision_in sha256 (leaf_preimage d :: hashed))
  \/ collision_in sha256 hashed.
Proof.
  intros Hd Hv. rewrite encrypted_as_disclosure in Hv.
  assert (Hf : disclosure_verify (mkDisclosure sub p) (ct_root_hash (content_from_leaves data)) = true) by tauto.
  apply disclosure_iff in Hf as (_ & _ & Hf).
  destruct (content_from_leaves_spec data Hd) as (t & Ht & E). rewrite E in Hf. cbn [ct_root_hash] in Hf.
  apply from_leaves_root_node in Ht. rewrite <- Hf in Ht.
  cbn zeta. set (hashed := tree_hashed sha256 data ++ _).
  assert (Hfold : fold_hashed sha256 sub (cp_siblings p) ⊆ hashed) by set_solver.
  destruct (fold_proof_node sha256 hashed data ltac:(set_solver) _ _ _ Hfold Ht) as [Hn|?]; [left|by right].
  split; [done|]. intros d ->. apply (leaf_node_mem sha256 (leaf_preimage d :: hashed) data); [set_solver..|done].
Qed.

(** The subtree of a disclosure may be the whole content, with no siblings. *)
Lemma disclosure_of_root croot :
  disclosure_verify (mkDisclosure croot (mkContentProof 0 croot [] croot)) croot = true.
Proof. by apply disclosure_iff. Qed.

(** A redacted proof is checked against the root it carries itself, so there is an accepted
    one for every hash, of any length and at any index. *)
Lemma redacted_proof_vacuous (h : Hash) (sibs : list Hash) (i : nat) (m : string) :
  exists p, rp_leaf_hash p = h /\ cp_siblings (rp_proof p) = sibs /\ cp_leaf_index (rp_proof p) = i
    /\ redaction_method p = m /\ redacted_verify p = true.
Proof.
  exists (mkRedacted h (mkContentProof i h sibs (fold_proof sha256 h i sibs)) m).
  repeat (split; [done|]). by apply content_proof_verify_iff.
Qed.

(** [validate] accepts what [is_acceptable] accepts and otherwise names the first limit, in
    the order of the checks, that the cost is over. *)
Lemma cost_validate_exact (c : VerificationCost) (mc mm mi mr : N) :
  (cost_validate c mc mm mi mr = Ok tt <-> is_acceptable c mc mm mi mr = true) /\
  (forall e, cost_validate c mc mm mi mr = Err e ->
     match e with
     | CpuExceeded r l => r = cpu c /\ l = mc /\ (l < r)%N
     | MemoryExceeded r l => r = memory c /\ l = mm /\ (l < r)%N /\ (cpu c <= mc)%N
     | IoExceeded r l => r = io c /\ l = mi /\ (l < r)%N /\ (cpu c <= mc)%N /\ (memory c <= mm)%N
     | RecursionDepthExceeded r l =>
         r = recursion_depth c /\ l = mr /\ (l < r)%N /\ (cpu c <= mc)%N /\ (memory c <= mm)%N /\ (io c <= mi)%N
     end).
Proof.
  unfold cost_validate, is_acceptable. split.
  - rewrite !guard_err_ok, !andb_true_iff, !N.ltb_ge, !N.leb_le. naive_solver.
  - intros e. rewrite !guard_err_err, !N.ltb_lt, !N.ltb_ge.
    intros [[? <-]|(? & [[? <-]|(? & [[? <-]|(? & [[? <-]|(? & ?)])])])]; done.
Qed.
End Content.

(** A content of five leaves with the third disclosed, and a proof for it refused against
    the root of another. *)
Definition demo_content : ContentTree := content_from_leaves toy_hash demo_data.

Lemma disclosure_sound_witness :
  exists p, content_proof toy_hash demo_content 2 = Some p /\
    disclosure_verify toy_hash (mkDisclosure (cp_leaf_hash p) p) (ct_root_hash demo_content) = true /\
    (let leaves := map (hash_leaf toy_hash) demo_data in
     let hashed := tree_hashed toy_hash demo_data ++ fold_hashed toy_hash (cp_leaf_hash p) (cp_siblings p) in
     (tree_node toy_hash leaves (tree_pairs toy_hash leaves) (cp_leaf_hash p)
      /\ forall d, cp_leaf_hash p = hash_leaf toy_hash d ->
           d ∈ demo_data \/ collision_in toy_hash (leaf_preimage d :: hashed))
     \/ collision_in toy_hash hashed).
Proof.
  destruct (content_proof toy_hash demo_content 2) as [p|] eqn:Hp; [|vm_compute in Hp; discriminate].
  assert (Hv : disclosure_verify toy_hash (mkDisclosure (cp_leaf_hash p) p) (ct_root_hash demo_content) = true).
  { vm_compute in Hp. injection Hp as <-. vm_compute. reflexivity. }
  exists p. split; [done|]. split; [done|].
  apply (disclosure_sound toy_hash demo_data p (cp_leaf_hash p) "" ""); [discriminate|by left].
Defined.

(** * Claims, rights, participants, limits (csv-content: claims.rs, participants.rs,
    resource_accounting.rs, encryption.rs, addressing.rs)

    The small records beside the content of a sanad.  A claim and a transfer of rights are
    hashed over their fields joined by colons; the set of participants remembers its creator
    and its owner; a cost is within a limit or exceeds it. *)

(** ** Claims *)

Inductive ClaimPredicate := Authentic | Complete | Current | Authorized | Standard (s : string) | CustomClaim (s : string).
Record Claim := mkClaim {
  cl_subject : string; cl_object : string; cl_predicate : ClaimPredicate; cl_timestamp : N; cl_verified : bool
}.
Definition claim_new (subject object : string) (p : ClaimPredicate) : Claim := mkClaim subject object p 0 false.
Definition predicate_tag (p : ClaimPredicate) : string :=
  match p with
  | Authentic => "authentic" | Complete => "complete" | Current => "current" | Authorized => "authorized"
  | Standard s | CustomClaim s => s
  end.

Record ContentRights := mkRights {
  owner : string; readers : list string; modifiers : list string; revokers : list string; rights_expires_at : N
}.
Definition contains (l : list string) (s : string) : bool := bool_decide (s ∈ l).
Definition can_read (r : ContentRights) (subject : string) : bool :=
  bool_decide (readers r = []) || contains (readers r) subject.
Definition can_write (r : ContentRights) (subject : string) : bool :=
  bool_decide (modifiers r = []) || contains (modifiers r) subject.
Definition can_revoke (r : ContentRights) (subject : string) : bool := contains (revokers r) subject.
Definition rights_is_expired (r : ContentRights) : bool := (0 <? rights_expires_at r)%N.

Record RightsTransfer := mkRightsTransfer {
  rt_content_hash : Hash; rt_from : string; rt_to : string; new_rights : ContentRights; authorization_proof : bytes
}.

(** [format!("{}:{}:...")] *)
Definition colon_join (a b : bytes) : bytes := a ++ [Byte.x3a] ++ b.
Definition claim_data (c : Claim) : bytes :=
  colon_join (as_bytes (cl_subject c)) (colon_join (as_bytes (cl_object c)) (as_bytes (predicate_tag (cl_predicate c)))).
Definition transfer_data (t : RightsTransfer) : bytes :=
  colon_join (Hash.to_hex (rt_content_hash t))
    (colon_join (as_bytes (rt_from t)) (colon_join (as_bytes (rt_to t)) (as_bytes (owner (new_rights t))))).

Section Hashes.
Variable sha256 : bytes -> Bytes32.
Definition claim_hash (c : Claim) : Hash := tagged_hash sha256 VerificationProofV1 (claim_data c).
Definition rights_transfer_hash (t : RightsTransfer) : Hash := tagged_hash sha256 VerificationProofV1 (transfer_data t).
(** [ParticipantId::new], [compute_content_address] *)
Definition participant_id_new (public_key : bytes) : Hash := tagged_hash sha256 DomNullifier public_key.
Definition compute_content_address (data : bytes) : Hash := hash_sha256 sha256 data.
End Hashes.

(** ** Participants *)

Inductive ParticipantRole := Creator | Owner | Modifier | Verifier | Revoker | Reader.
Global Instance ParticipantRole_eq_dec : EqDecision ParticipantRole.
Proof. solve_decision. Defined.
Record Participant := mkParticipant { pt_id : Hash; pt_role : ParticipantRole; pt_public_key : bytes; pt_added_at : N }.
Record ParticipantSet := mkParticipants {
  participants : list Participant; creator_id : option Hash; owner_id : option Hash
}.
Definition no_participants : ParticipantSet := mkParticipants [] None None.
Definition add_participant (s : ParticipantSet) (p : Participant) : ParticipantSet :=
  let creator := match pt_role p with Creator => Some (pt_id p) | _ => creator_id s end in
  let owner := match pt_role p with Owner => Some (pt_id p) | _ => owner_id s end in
  mkParticipants (participants s ++ [p]) creator owner.
Definition get_participant (s : ParticipantSet) (id : Hash) : option Participant :=
  List.find (fun p => bool_decide (pt_id p = id)) (participants s).
Definition has_role (s : ParticipantSet) (id : Hash) (role : ParticipantRole) : bool :=
  existsb (fun p => bool_decide (pt_id p = id) && bool_decide (pt_role p = role)) (participants s).
Definition by_role (s : ParticipantSet) (role : ParticipantRole) : list Participant :=
  List.filter (fun p => bool_decide (pt_role p = role)) (participants s).
Definition set_creator (s : ParticipantSet) : option Participant := creator_id s ≫= get_participant s.
Definition set_owner (s : ParticipantSet) : option Participant := owner_id s ≫= get_participant s.

(** ** Resources *)

Record ResourceCost := mkResourceCost { rc_cpu : N; rc_memory : N; rc_io : N; rc_recursion_depth : N }.
Record VerificationLimit := mkLimit { max_cpu : N; max_memory : N; max_io : N; max_recursion_depth : N }.
Definition exceeds (c : ResourceCost) (l : VerificationLimit) : bool :=
  (max_cpu l <? rc_cpu c)%N || (max_memory l <? rc_memory c)%N || (max_io l <? rc_io c)%N
  || (max_recursion_depth l <? rc_recursion_depth c)%N.
Definition allows (l : VerificationLimit) (c : ResourceCost) : bool := negb (exceeds c l).
Definition cost_add (a b : ResourceCost) : ResourceCost :=
  mkResourceCost (add64 (rc_cpu a) (rc_cpu b)) (add64 (rc_memory a) (rc_memory b)) (add64 (rc_io a) (rc_io b))
    (N.max (rc_recursion_depth a) (rc_recursion_depth b)).
Definition conservative : VerificationLimit := mkLimit 1000000 (100 * 1024 * 1024) (10 * 1024 * 1024) 100.
Definition permissive : VerificationLimit := mkLimit u64_max u64_max u64_max 1000.

(** ** Envelopes *)

Record EncryptionDescriptor := mkEncryption {
  ed_algorithm : string; ed_key_id : string; ed_nonce : bytes; ed_aad : option bytes
}.
Definition encryption_new (algorithm key_id : string) (nonce : bytes) : EncryptionDescriptor :=
  mkEncryption algorithm key_id nonce None.
Definition with_aad (d : EncryptionDescriptor) (aad : bytes) : EncryptionDescriptor :=
  mkEncryption (ed_algorithm d) (ed_key_id d) (ed_nonce d) (Some aad).
Record EncryptionEnvelope := mkEnvelope { ee_descriptor : EncryptionDescriptor; ee_ciphertext : bytes; ee_tag : bytes }.
Definition envelope_size (e : EncryptionEnvelope) : nat := length (ee_ciphertext e) + length (ee_tag e).

(** ** Lemmas *)

Lemma find_snoc {A} (f : A -> bool) l x :
  List.find f (l ++ [x]) = match List.find f l with Some y => Some y | None => if f x then Some x else None end.
Proof. induction l as [|y l IH]; [done|]. cbn. by destruct (f y). Qed.

Lemma get_participant_some s id p :
  get_participant s id = Some p -> pt_id p = id /\ p ∈ participants s.
Proof.
  unfold get_participant. intros [Hin Hp]%find_some. apply bool_decide_eq_true in Hp.
  by rewrite list_elem_of_In.
Qed.

(** ** What the hashes bind *)

Definition no_colon (s : string) : Prop := Byte.x3a ∉ as_bytes s.

Section RightsProperties.
Variable sha256 : bytes -> Bytes32.

(** the hash of a claim binds its subject, its object and the tag of its predicate when
    neither subject nor object contains a colon, and nothing else: claims that agree on the
    text joined by colons have one hash, whatever their time, their verified flag, and
    wherever the colons of that text come from. *)
Theorem claim_hash_binds (c d : Claim) :
  (claim_data c = claim_data d -> claim_hash sha256 c = claim_hash sha256 d) /\
  (claim_hash sha256 c = claim_hash sha256 d ->
   no_colon (cl_subject c) -> no_colon (cl_object c) -> no_colon (cl_subject d) -> no_colon (cl_object d) ->
   cl_subject c = cl_subject d /\ cl_object c = cl_object d
   /\ predicate_tag (cl_predicate c) = predicate_tag (cl_predicate d) \/
   collision_in sha256 [tagged_preimage VerificationProofV1 (claim_data c);
                        tagged_preimage VerificationProofV1 (claim_data d)]).
Proof.
  split; [by unfold claim_hash; intros ->|].
  intros H Hcs Hco Hds Hdo. unfold claim_hash in H. hash_inj H. left.
  unfold claim_data, colon_join in H. apply sep_app_inj in H as [Hs H]; [|done..].
  apply sep_app_inj in H as [Ho Ht]; [|done..]. by apply as_bytes_inj in Hs, Ho, Ht.
Qed.

(** Two different claims with one hash. *)
Lemma claims_collide :
  claim_hash sha256 (claim_new "a:b" "c" Authentic) = claim_hash sha256 (claim_new "a" "b:c" (Standard "authentic")).
Proof. reflexivity. Qed.

(** The hash of a transfer of rights covers the content, the two parties and the owner of
    the new rights.  Who may read, modify or revoke, and until when, is not covered. *)
Lemma transfer_hash_binds (t u : RightsTransfer) :
  (rt_content_hash t = rt_content_hash u -> rt_from t = rt_from u -> rt_to t = rt_to u ->
   owner (new_rights t) = owner (new_rights u) -> rights_transfer_hash sha256 t = rights_transfer_hash sha256 u) /\
  (rights_transfer_hash sha256 t = rights_transfer_hash sha256 u ->
   no_colon (rt_from t) -> no_colon (rt_to t) -> no_colon (rt_from u) -> no_colon (rt_to u) ->
   rt_content_hash t = rt_content_hash u /\ rt_from t = rt_from u /\ rt_to t = rt_to u
   /\ owner (new_rights t) = owner (new_rights u) \/
   collision_in sha256 [tagged_preimage VerificationProofV1 (transfer_data t);
                        tagged_preimage VerificationProofV1 (transfer_data u)]).
Proof.
  split; [by unfold rights_transfer_hash, transfer_data; intros -> -> -> ->|].
  intros H Htf Htt Huf Hut. unfold rights_transfer_hash in H. hash_inj H. left.
  unfold transfer_data, colon_join in H.
  apply app_eq_length_inj in H as [Hc H]; [|unfold Hash.to_hex; by rewrite !length_hex_encode, !b32_length].
  injection H as H. apply sep_app_inj in H as [Hf H]; [|done..]. apply sep_app_inj in H as [Ht Ho]; [|done..].
  apply hex_encode_inj, b32_inj in Hc. by apply as_bytes_inj in Hf, Ht, Ho.
Qed.
End RightsProperties.

Lemma claim_hash_binds_witness :
  let c := claim_new "alice" "doc" Authentic in
  cl_subject c = cl_subject c /\ cl_object c = cl_object c
  /\ predicate_tag (cl_predicate c) = predicate_tag (cl_predicate c) \/
  collision_in toy_hash [tagged_preimage VerificationProofV1 (claim_data c);
                         tagged_preimage VerificationProofV1 (claim_data c)].
Proof.
  cbv zeta. apply (claim_hash_binds toy_hash); [reflexivity| | | |];
    unfold no_colon; cbn; rewrite !not_elem_of_cons; repeat split; try discriminate; apply not_elem_of_nil.
Defined.

(** Rights that expire at any time but zero count as expired already. *)
Lemma rights_expire_at_once r : rights_is_expired r = true <-> rights_expires_at r <> 0%N.
Proof. unfold rights_is_expired. rewrite N.ltb_lt. lia. Qed.

(** ** Participants *)

Definition with_role (role : ParticipantRole) (ps : list Participant) : list Participant :=
  List.filter (fun p => bool_decide (pt_role p = role)) ps.

Lemma add_all ps s :
  participants (foldl add_participant s ps) = participants s ++ ps /\
  owner_id (foldl add_participant s ps) = (match last (with_role Owner ps) with Some p => Some (pt_id p) | None => owner_id s end) /\
  creator_id (foldl add_participant s ps) = (match last (with_role Creator ps) with Some p => Some (pt_id p) | None => creator_id s end).
Proof.
  revert s. induction ps as [|p ps IH] using rev_ind; intros s; [by rewrite app_nil_r|].
  rewrite foldl_app. cbn [foldl]. specialize (IH s) as (Hp & Ho & Hc). unfold with_role in *. rewrite !List.filter_app.
  set (t := foldl add_participant s ps) in *.
  unfold add_participant; cbn [participants owner_id creator_id List.filter].
  rewrite Hp, Ho, Hc, <- app_assoc. split; [done|].
  destruct (pt_role p); repeat case_bool_decide; try done; by rewrite ?app_nil_r, ?last_snoc.
Qed.

(** the set of participants.  After any additions the owner is the one last added with
    the role, and so is the creator; every participant is kept, a role is held by those
    added with it; and looking the owner up finds the first participant with its identifier,
    which has the role of owner when no two participants share an identifier. *)
Theorem participants_exact (ps : list Participant) :
  let s := foldl add_participant no_participants ps in
  owner_id s = pt_id <$> last (by_role s Owner) /\
  creator_id s = pt_id <$> last (by_role s Creator) /\
  (forall id role, has_role s id role = true <-> exists p, p ∈ ps /\ pt_id p = id /\ pt_role p = role) /\
  (forall id, owner_id s = Some id -> exists p, set_owner s = Some p /\ pt_id p = id /\
     (NoDup (pt_id <$> ps) -> pt_role p = Owner)).
Proof.
  intros s. destruct (add_all ps no_participants) as (Hp & Ho & Hc). fold s in Hp, Ho, Hc.
  cbn [participants no_participants app owner_id creator_id] in Hp, Ho, Hc.
  unfold by_role, has_role, set_owner. rewrite Hp, Ho, Hc. unfold with_role.
  split; [by destruct (last _)|]. split; [by destruct (last _)|]. split.
  - intros id role. rewrite existsb_exists. setoid_rewrite andb_true_iff. setoid_rewrite bool_decide_eq_true.
    by setoid_rewrite <- list_elem_of_In.
  - intros id. destruct (last (List.filter _ ps)) as [q|] eqn:Hq; [|done]. intros [= <-]. cbn.
    apply last_Some_elem_of, list_elem_of_In, filter_In in Hq as [Hin Hr]. apply bool_decide_eq_true in Hr.
    destruct (get_participant s (pt_id q)) as [p|] eqn:Hg.
    + exists p. split; [done|]. apply get_participant_some in Hg as [Hid Hps]. split; [done|]. intros Hnd.
      rewrite Hp in Hps. apply list_elem_of_In in Hin. apply list_elem_of_lookup in Hps as [i Hi].
      apply list_elem_of_lookup in Hin as [j Hj].
      assert (i = j) as <-. { eapply NoDup_lookup; [done|by rewrite list_lookup_fmap, Hi|].
        by rewrite list_lookup_fmap, Hj, Hid. }
      congruence.
    + exfalso. unfold get_participant in Hg. rewrite Hp in Hg. eapply find_none in Hg; [|done].
      by apply bool_decide_eq_false in Hg.
Qed.

(** Otherwise it may not: whoever joined first with the identifier is returned. *)
Lemma owner_may_be_a_reader :
  let r := mkParticipant zero32 Reader [] 0 in
  let o := mkParticipant zero32 Owner [] 1 in
  set_owner (add_participant (add_participant no_participants r) o) = Some r.
Proof. reflexivity. Qed.

(** ** Resources *)

(** A limit that allows the sum of two costs allows each, as long as no sum passes the width
    of a 64-bit number; past it the sum wraps and is allowed however large the parts. *)
Lemma cost_add_allows l a b :
  (rc_cpu a + rc_cpu b <= u64_max)%N -> (rc_memory a + rc_memory b <= u64_max)%N -> (rc_io a + rc_io b <= u64_max)%N ->
  allows l (cost_add a b) = true -> allows l a = true /\ allows l b = true.
Proof.
  intros Hc Hm Hi. unfold allows, exceeds, cost_add. cbn. rewrite !add64_small by done.
  rewrite !negb_true_iff, !orb_false_iff, !N.ltb_ge. lia.
Qed.
Lemma cost_add_wraps :
  let a := mkResourceCost u64_max 0 0 0 in
  allows conservative a = false /\ allows conservative (cost_add a (mkResourceCost 1 0 0 0)) = true.
Proof. done. Qed.
