(* ===== verification/Manifest.v ===== *)
(** * Sanad manifests and attachments (csv-content: manifest.rs, attachments.rs)

    A manifest describes what a sanad carries: its payload's digest, the roots of its
    content and its attachments, the digests of its policies.  Its bytes are canonical on
    the way out: they determine the manifest up to the spelling of media types, so the
    manifest hash binds it.  On the way in they are not: the reader takes any option byte
    but one as absent, and any byte but zero as true, so several byte strings are read as
    one manifest.  What the reader returns is always a manifest that is written and read
    back as it is. *)

From S2P Require Import Prelude Ord Bytes Hashing Text Codec Decode Merkle Content.

(** ** Attachments *)

Inductive MediaType := Text | Json | Xml | Pdf | Image | Png | Jpeg | Gif | Mp4 | Mp3 | Zip | Custom (s : string).
Global Instance MediaType_eq_dec : EqDecision MediaType.
Proof. solve_decision. Defined.

Definition media_as_str (m : MediaType) : string :=
  match m with
  | Text => "text/plain" | Json => "application/json" | Xml => "application/xml" | Pdf => "application/pdf"
  | Image => "image/*" | Png => "image/png" | Jpeg => "image/jpeg" | Gif => "image/gif" | Mp4 => "video/mp4"
  | Mp3 => "audio/mpeg" | Zip => "application/zip" | Custom s => s
  end.

Record AttachmentRef := mkAttachment {
  at_cid : string; at_media_type : MediaType; at_size : N; at_hash : Hash;
  at_encryption_key_id : option string; at_created_at : N
}.
Definition attachment_new (cid : string) (m : MediaType) (size : N) (h : Hash) : AttachmentRef :=
  mkAttachment cid m size h None 0.
Definition with_encryption_key_id (a : AttachmentRef) (k : string) : AttachmentRef :=
  mkAttachment (at_cid a) (at_media_type a) (at_size a) (at_hash a) (Some k) (at_created_at a).
Definition with_created_at (a : AttachmentRef) (t : N) : AttachmentRef :=
  mkAttachment (at_cid a) (at_media_type a) (at_size a) (at_hash a) (at_encryption_key_id a) t.

Record AttachmentBudget := mkBudget {
  max_count : N; max_total_size : N; max_single_size : N; allowed_types : list MediaType
}.
Definition default_budget : AttachmentBudget :=
  mkBudget 10 (100 * 1024 * 1024) (50 * 1024 * 1024) [Json; Pdf; Png; Jpeg; Custom "application/octet-stream"].

Definition is_within_budget (b : AttachmentBudget) (a : AttachmentRef) : bool :=
  if (max_single_size b <? at_size a)%N then false
  else if negb (bool_decide (at_media_type a ∈ allowed_types b)) then false
  else true.
(** The addition is that of the machine. *)
Definition would_exceed_budget (b : AttachmentBudget) (current_count current_size : N) (a : AttachmentRef) : bool :=
  if (max_count b <=? current_count)%N then true
  else if (max_total_size b <? add64 current_size (at_size a))%N then true
  else false.

(** ** Manifests *)

Record SanadManifestAttachment := mkManifestAttachment {
  ma_name : option string; ma_cid : option string; ma_media_type : MediaType; ma_size : N; ma_hash : Hash;
  ma_encrypted : bool; ma_key_id : option string
}.
Record SanadManifest := mkManifest {
  sm_version : N;
  sm_title : option string;
  sm_description : option string;
  sm_schema : string;
  sm_payload_codec : string;
  sm_payload_hash : Hash;
  sm_content_root : option Hash;
  sm_attachments : list SanadManifestAttachment;
  sm_attachment_root : option Hash;
  sm_disclosure_policy_hash : option Hash;
  sm_proof_policy_hash : option Hash
}.

(** The messages of [ManifestError::Decode]; [BadText] stands for the one that the standard
    library gives for bytes that are not UTF-8. *)
Inductive DecodeFault := UnexpectedEnd | TrailingBytes | BadText.
Inductive ManifestError :=
| AttachmentRootMismatch (declared computed : option Hash)
| DescriptorMismatch (field : string)
| ManifestDecode (why : DecodeFault).

(** *** Writing *)

(** [put_str], [put_opt_str], [put_opt_hash] *)
Definition put_str (s : string) : bytes := encode_string s.
Definition put_opt_str (o : option string) : bytes := push_option put_str o.
Definition put_opt_hash (o : option Hash) : bytes := push_option b32 o.

Definition put_media (m : MediaType) : bytes := put_str (media_as_str m).
Definition put_bool (b : bool) : bytes := one (if b then Byte.x01 else Byte.x00).
Definition attachment_bytes (a : SanadManifestAttachment) : bytes :=
  put_opt_str (ma_name a) ++ put_opt_str (ma_cid a) ++ put_media (ma_media_type a) ++ u64_le (ma_size a) ++
  b32 (ma_hash a) ++ put_bool (ma_encrypted a) ++ put_opt_str (ma_key_id a).
Definition to_canonical_bytes (m : SanadManifest) : bytes :=
  u16_le (sm_version m) ++ put_opt_str (sm_title m) ++ put_opt_str (sm_description m) ++ put_str (sm_schema m) ++
  put_str (sm_payload_codec m) ++ b32 (sm_payload_hash m) ++ put_opt_hash (sm_content_root m) ++
  encode_list attachment_bytes (sm_attachments m) ++ put_opt_hash (sm_attachment_root m) ++
  put_opt_hash (sm_disclosure_policy_hash m) ++ put_opt_hash (sm_proof_policy_hash m).

(** *** Reading *)

Definition media_type_from_str (s : string) : MediaType :=
  if decide (s = "text/plain")%string then Text
  else if decide (s = "application/json")%string then Json
  else if decide (s = "application/xml")%string then Xml
  else if decide (s = "application/pdf")%string then Pdf
  else if decide (s = "image/*")%string then Image
  else if decide (s = "image/png")%string then Png
  else if decide (s = "image/jpeg")%string then Jpeg
  else if decide (s = "image/gif")%string then Gif
  else if decide (s = "video/mp4")%string then Mp4
  else if decide (s = "audio/mpeg")%string then Mp3
  else if decide (s = "application/zip")%string then Zip
  else Custom s.

Notation short := (ManifestDecode UnexpectedEnd).

(** [Reader::u16], [u64], [u8], [hash], [string]: the cursor is the rest of the input.  The
    end of a read is at most the length of the input plus four thousand million, so the
    checked addition of the cursor does not fail. *)
Definition rd_u16 : bytes -> result ManifestError (N * bytes) := read_u16_le short.
Definition rd_u64 : bytes -> result ManifestError (N * bytes) := read_u64_le short.
Definition rd_u8 : bytes -> result ManifestError (byte * bytes) := read_u8 short.
Definition rd_hash : bytes -> result ManifestError (Hash * bytes) := read_b32 short.
Definition rd_string : bytes -> result ManifestError (string * bytes) :=
  read_string (ManifestDecode BadText) (read_sized short short).

(** [opt_string], [opt_hash]: present behind a one, absent behind anything else. *)
Definition rd_opt {A} (rd : bytes -> result ManifestError (A * bytes)) (b : bytes) : result ManifestError (option A * bytes) :=
  '(t, b) ← rd_u8 b;
  if decide (t = Byte.x01) then '(x, b) ← rd b; Ok (Some x, b) else Ok (None, b).
Definition rd_media (b : bytes) : result ManifestError (MediaType * bytes) :=
  '(s, b) ← rd_string b; Ok (media_type_from_str s, b).
Definition rd_bool (b : bytes) : result ManifestError (bool * bytes) :=
  '(t, b) ← rd_u8 b; Ok (negb (bool_decide (t = Byte.x00)), b).

Definition rd_attachment (b : bytes) : result ManifestError (SanadManifestAttachment * bytes) :=
  '(name, b) ← rd_opt rd_string b;
  '(cid, b) ← rd_opt rd_string b;
  '(media_type, b) ← rd_media b;
  '(size, b) ← rd_u64 b;
  '(h, b) ← rd_hash b;
  '(encrypted, b) ← rd_bool b;
  '(encryption_key_id, b) ← rd_opt rd_string b;
  Ok (mkManifestAttachment name cid media_type size h encrypted encryption_key_id, b).
Definition rd_attachments (b : bytes) : result ManifestError (list SanadManifestAttachment * bytes) :=
  '(n, b) ← read_u32_le short b; read_many (N.to_nat n) rd_attachment b.

Definition from_canonical_bytes (b : bytes) : result ManifestError SanadManifest :=
  '(version, b) ← rd_u16 b;
  '(title, b) ← rd_opt rd_string b;
  '(description, b) ← rd_opt rd_string b;
  '(schema, b) ← rd_string b;
  '(payload_codec, b) ← rd_string b;
  '(payload_hash, b) ← rd_hash b;
  '(content_root, b) ← rd_opt rd_hash b;
  '(attachments, b) ← rd_attachments b;
  '(attachment_root, b) ← rd_opt rd_hash b;
  '(disclosure_policy_hash, b) ← rd_opt rd_hash b;
  '(proof_policy_hash, b) ← rd_opt rd_hash b;
  _ ← finish (ManifestDecode TrailingBytes) b;
  Ok (mkManifest version title description schema payload_codec payload_hash content_root attachments
        attachment_root disclosure_policy_hash proof_policy_hash).

Definition matches_descriptor_roots (m : SanadManifest) (payload_hash : Hash) (content_root attachment_root : option Hash)
  : result ManifestError unit :=
  reject negb (bool_decide (sm_payload_hash m = payload_hash)) with DescriptorMismatch "payload_hash";;
  reject negb (bool_decide (sm_content_root m = content_root)) with DescriptorMismatch "content_root";;
  reject negb (bool_decide (sm_attachment_root m = attachment_root)) with DescriptorMismatch "attachment_root";;
  Ok tt.

Definition DOMAIN_SANAD_MANIFEST_V1 : string := "urn:lnp-bp:csv:csv.sanad.manifest.v1".
Definition SANAD_MANIFEST_VERSION : N := 1.

Section Manifests.
Variable sha256 : bytes -> Bytes32.

Definition compute_attachment_root (m : SanadManifest) : option Hash :=
  match sm_attachments m with
  | [] => None
  | _ => Some (ct_root_hash (content_from_leaves sha256 (map (fun a => b32 (ma_hash a)) (sm_attachments m))))
  end.
Definition validate_attachment_root (m : SanadManifest) : result ManifestError unit :=
  let computed := compute_attachment_root m in
  if bool_decide (sm_attachment_root m = computed) then Ok tt
  else Err (AttachmentRootMismatch (sm_attachment_root m) computed).
Definition manifest_hash (m : SanadManifest) : Hash :=
  tagged_hash_str sha256 (as_bytes DOMAIN_SANAD_MANIFEST_V1) (to_canonical_bytes m).
End Manifests.

(** ** Readers that are exact one way

    A reader is faithful for an encoder when it reads back every encoding and returns only
    values that it would read back.  It may return one value for several inputs. *)

Class Faithful {E A} (P : A -> Prop) (enc : A -> bytes) (rd : bytes -> result E (A * bytes)) : Prop := {
  faithful_app x rest : P x -> rd (enc x ++ rest) = Ok (x, rest);
  faithful_ok b x rest : rd b = Ok (x, rest) -> P x
}.
Global Hint Mode Faithful - - - - ! : typeclass_instances.

#[export] Instance reads_faithful {E A} (P : A -> Prop) enc (rd : bytes -> result E (A * bytes)) `{!Reads P enc rd} :
  Faithful P enc rd | 10.
Proof.
  split; [intros x rest Hx; by apply (reads_app P)|].
  intros b x rest H. by apply reads in H as [].
Qed.

Lemma faithful_counted {E A} (e : E) (rd : bytes -> result E (A * bytes)) P enc `{!Faithful P enc rd} :
  Faithful (list_ok P) (encode_list enc) (fun b => '(n, b) ← read_u32_le e b; read_many (N.to_nat n) rd b).
Proof.
  split.
  - intros l rest [Hl Hf]. unfold encode_list. rewrite <- app_assoc.
    rewrite (reads_app _ u32_le (read_u32_le e)) by done. cbn [mbind result_bind].
    unfold blen at 1. rewrite Nat2N.id. apply (read_many_app rd enc P); [|done].
    intros x k Hx. by apply faithful_app.
  - intros b l rest ([n k] & Hn & H)%bind_ok. apply reads in Hn as [Hp ->].
    assert (Hm : forall m l rest k, read_many m rd k = Ok (l, rest) -> length l = m /\ Forall P l).
    { clear -Faithful0. induction m as [|m IH]; intros l rest k H; cbn in H; [by injection H as <- _|].
      apply bind_ok in H as ([x k'] & Hx & H). apply bind_ok in H as ([xs k''] & Hxs & [= <- <-]).
      apply IH in Hxs as [<- Hf]. split; [done|]. constructor; [exact (faithful_ok _ _ _ Hx)|done]. }
    apply Hm in H as [Hl Hf]. split; [|done]. unfold fits, blen. rewrite Hl. lia.
Qed.

#[export] Instance faithful_opt {A} (rd : bytes -> result ManifestError (A * bytes)) P enc `{!Faithful P enc rd} :
  Faithful (opt_ok P) (push_option enc) (rd_opt rd).
Proof.
  split.
  - intros [x|] rest Ho; cbn; [|done]. by rewrite faithful_app by (by apply Ho).
  - intros b o rest. unfold rd_opt. intros ([t k] & _ & H)%bind_ok.
    destruct (decide (t = Byte.x01)); [|injection H as <- _; by intros ? [=]].
    apply bind_ok in H as ([x k'] & Hx & [= <- <-]). intros y [= <-]. exact (faithful_ok _ _ _ Hx).
Qed.

(** The media types that are read back as they are: not a custom name of a known type. *)
Definition media_ok (m : MediaType) : Prop := media_type_from_str (media_as_str m) = m /\ text_in fits (media_as_str m).

Lemma media_from_as_str s : media_as_str (media_type_from_str s) = s.
Proof. unfold media_type_from_str. by repeat case_decide; subst. Qed.

#[export] Instance faithful_media : Faithful media_ok put_media rd_media.
Proof.
  split.
  - intros m rest [Hm Ht]. unfold rd_media, put_media, put_str.
    rewrite (reads_app _ encode_string rd_string) by done. cbn. by rewrite Hm.
  - intros b m rest. unfold rd_media. intros ([s k] & Hs & [= <- <-])%bind_ok.
    apply (reads (enc := encode_string)) in Hs as [Hs _]. unfold media_ok. by rewrite media_from_as_str.
Qed.
#[export] Instance faithful_bool : Faithful any put_bool rd_bool.
Proof. split; [by intros [] rest _|done]. Qed.

(** What a Rust value is: text is UTF-8 and numbers have their width; and no length passes
    the four bytes it is written in. *)
Definition str_ok : string -> Prop := text_in fits.
Record attachment_ok (a : SanadManifestAttachment) : Prop := {
  ao_name : opt_ok str_ok (ma_name a);
  ao_cid : opt_ok str_ok (ma_cid a);
  ao_media : media_ok (ma_media_type a);
  ao_size : (ma_size a <= u64_max)%N;
  ao_key : opt_ok str_ok (ma_key_id a)
}.
Record manifest_ok (m : SanadManifest) : Prop := {
  mo_version : (sm_version m <= u16_max)%N;
  mo_title : opt_ok str_ok (sm_title m);
  mo_description : opt_ok str_ok (sm_description m);
  mo_schema : str_ok (sm_schema m);
  mo_codec : str_ok (sm_payload_codec m);
  mo_attachments : list_ok attachment_ok (sm_attachments m)
}.

(** Step over a field that a decoder accepted, and read a field back from its encoding. *)
Ltac faithful_fields H :=
  repeat match type of H with
  | mbind _ ?r = Ok _ =>
      let x := fresh "x" in let k := fresh "k" in let Hx := fresh "Hx" in
      apply bind_ok in H as ((x & k) & Hx & H); apply faithful_ok in Hx; cbv beta iota in H
  end.
Ltac faithful_back :=
  repeat match goal with
  | |- context [mbind ?f (?rd (?l ++ ?k))] =>
      erewrite (faithful_app (rd := rd) _ k); [cbn [mbind result_bind]; cbv beta iota|]
  end.

#[export] Instance faithful_attachment : Faithful attachment_ok attachment_bytes rd_attachment.
Proof.
  split.
  - intros a rest [Hn Hc Hm Hs Hk]. unfold attachment_bytes, rd_attachment, put_opt_str. rewrite <- !app_assoc.
    change put_str with encode_string. faithful_back; try done. by destruct a.
  - intros b a rest H. unfold rd_attachment in H. faithful_fields H. injection H as <- <-. by split.
Qed.

Definition normalise_attachment (a : SanadManifestAttachment) : SanadManifestAttachment :=
  mkManifestAttachment (ma_name a) (ma_cid a) (media_type_from_str (media_as_str (ma_media_type a))) (ma_size a)
    (ma_hash a) (ma_encrypted a) (ma_key_id a).
(** A manifest with its media types named as the reader names them. *)
Definition normalise (m : SanadManifest) : SanadManifest :=
  mkManifest (sm_version m) (sm_title m) (sm_description m) (sm_schema m) (sm_payload_codec m) (sm_payload_hash m)
    (sm_content_root m) (map normalise_attachment (sm_attachments m)) (sm_attachment_root m)
    (sm_disclosure_policy_hash m) (sm_proof_policy_hash m).

Lemma normalise_bytes m : to_canonical_bytes (normalise m) = to_canonical_bytes m.
Proof.
  unfold to_canonical_bytes. cbn [normalise sm_version sm_title sm_description sm_schema sm_payload_codec
    sm_payload_hash sm_content_root sm_attachments sm_attachment_root sm_disclosure_policy_hash sm_proof_policy_hash].
  do 7 f_equal. f_equal. unfold encode_list, blen. rewrite length_map. f_equal.
  induction (sm_attachments m) as [|a l IH]; [done|]. cbn [map flat_map]. rewrite IH. f_equal.
  unfold attachment_bytes, put_media. cbn. by rewrite media_from_as_str.
Qed.

Lemma normalise_ok m : manifest_ok m -> normalise m = m.
Proof.
  intros Hm. destruct (mo_attachments _ Hm) as [_ Hf]. destruct m as [ve ti de sc co ph cr atts ar dp pp].
  unfold normalise. cbn in *. f_equal. clear Hm. induction Hf as [|a l Ha _ IH]; [done|]. cbn. rewrite IH. f_equal.
  destruct a as [na ci me si h en ke]. unfold normalise_attachment. cbn. f_equal. apply (ao_media _ Ha).
Qed.

#[export] Instance faithful_attachments : Faithful (list_ok attachment_ok) (encode_list attachment_bytes) rd_attachments.
Proof. exact (faithful_counted short rd_attachment attachment_ok attachment_bytes). Qed.

Lemma manifest_read_back m : manifest_ok m -> from_canonical_bytes (to_canonical_bytes m) = Ok m.
Proof.
  intros [Hv Ht Hd Hs Hc Ha]. rewrite <- (app_nil_r (to_canonical_bytes m)).
  unfold from_canonical_bytes, to_canonical_bytes, put_opt_str, put_opt_hash. rewrite <- !app_assoc.
  change put_str with encode_string.
  faithful_back; try done; try apply opt_any. by destruct m.
Qed.

Lemma manifest_read_ok b m : from_canonical_bytes b = Ok m -> manifest_ok m.
Proof.
  intros H. unfold from_canonical_bytes in H. faithful_fields H.
  apply bind_unit_ok in H as [_ [= <-]]. by split.
Qed.

(** the canonical bytes of a manifest.  A manifest whose lengths fit is read back from
    its bytes with its media types normalised, which does not change the bytes; whatever
    the reader returns, for any input, is a manifest that is written and read back as it is. *)
Theorem manifest_roundtrip (m : SanadManifest) :
  to_canonical_bytes (normalise m) = to_canonical_bytes m /\
  (manifest_ok (normalise m) -> from_canonical_bytes (to_canonical_bytes m) = Ok (normalise m)) /\
  (forall b, from_canonical_bytes b = Ok m ->
     normalise m = m /\ from_canonical_bytes (to_canonical_bytes m) = Ok m).
Proof.
  split; [apply normalise_bytes|]. split.
  - intros Hm. rewrite <- normalise_bytes. by apply manifest_read_back.
  - intros b Hb%manifest_read_ok. split; [by apply normalise_ok|by apply manifest_read_back].
Qed.

Section ManifestProperties.
Variable sha256 : bytes -> Bytes32.

(** the hash of a manifest binds it.  Two manifests with one hash are the same but for
    the spelling of media types, or the two strings hashed for them collide. *)
Theorem manifest_hash_binds (m n : SanadManifest) :
  manifest_ok (normalise m) -> manifest_ok (normalise n) ->
  manifest_hash sha256 m = manifest_hash sha256 n ->
  normalise m = normalise n \/
  collision_in sha256 [tagged_str_preimage sha256 (as_bytes DOMAIN_SANAD_MANIFEST_V1) (to_canonical_bytes m);
                       tagged_str_preimage sha256 (as_bytes DOMAIN_SANAD_MANIFEST_V1) (to_canonical_bytes n)].
Proof.
  intros Hm Hn H. unfold manifest_hash in H. hash_inj H. left. rewrite <- (normalise_bytes m), <- (normalise_bytes n) in H.
  pose proof (manifest_read_back _ Hm) as Em. rewrite H, (manifest_read_back _ Hn) in Em. congruence.
Qed.

(** [validate_attachment_root] accepts exactly the root that is computed, and
    [matches_descriptor_roots] exactly the descriptor's three fields, naming the first
    that differs. *)
Lemma validate_attachment_root_exact m :
  (validate_attachment_root sha256 m = Ok tt <-> sm_attachment_root m = compute_attachment_root sha256 m) /\
  (compute_attachment_root sha256 m = None <-> sm_attachments m = []).
Proof.
  split.
  - unfold validate_attachment_root. by case_bool_decide.
  - unfold compute_attachment_root. by destruct (sm_attachments m).
Qed.
End ManifestProperties.

Lemma matches_descriptor_exact m p c a :
  (matches_descriptor_roots m p c a = Ok tt
   <-> sm_payload_hash m = p /\ sm_content_root m = c /\ sm_attachment_root m = a) /\
  (forall f, matches_descriptor_roots m p c a = Err (DescriptorMismatch f) ->
     f = "payload_hash"%string /\ sm_payload_hash m <> p
     \/ f = "content_root"%string /\ sm_payload_hash m = p /\ sm_content_root m <> c
     \/ f = "attachment_root"%string /\ sm_payload_hash m = p /\ sm_content_root m = c /\ sm_attachment_root m <> a).
Proof.
  unfold matches_descriptor_roots. split.
  - rewrite !guard_err_ok, !negb_false_iff, !bool_decide_eq_true. naive_solver.
  - intros f. rewrite !guard_err_err, !negb_true_iff, !negb_false_iff, !bool_decide_eq_true, !bool_decide_eq_false.
    naive_solver.
Qed.

(** The bytes are not canonical on the way in: a manifest without a title is also read from
    bytes that have any other byte but one in the title's place. *)
Lemma manifest_bytes_malleable m t :
  manifest_ok m -> sm_title m = None -> t <> Byte.x00 -> t <> Byte.x01 ->
  exists b, b <> to_canonical_bytes m /\ from_canonical_bytes b = Ok m.
Proof.
  intros Hm Ht H0 H1.
  assert (Hlax : forall t rest, t <> Byte.x01 -> rd_opt rd_string (t :: rest) = Ok (None, rest)).
  { intros t' rest Hn. unfold rd_opt. cbn. by rewrite decide_False. }
  pose proof (manifest_read_back m Hm) as Hb. unfold to_canonical_bytes in *. rewrite Ht in *.
  cbn [put_opt_str push_option app] in *.
  match type of Hb with from_canonical_bytes (u16_le _ ++ _ :: ?k) = _ => set (tail := k) in * end.
  exists (u16_le (sm_version m) ++ t :: tail). split; [by intros [= ?]%app_inv_head|].
  rewrite <- Hb. unfold from_canonical_bytes.
  rewrite !(reads_app _ u16_le rd_u16) by apply (mo_version _ Hm). cbn [mbind result_bind]. by rewrite !Hlax.
Qed.

(** The budget of attachments: the sum is the machine's, so it is exact only below the
    width of a 64-bit number, and past it anything fits. *)
Lemma would_exceed_exact b count size a :
  (size + at_size a <= u64_max)%N ->
  would_exceed_budget b count size a = true
  <-> (max_count b <= count)%N \/ (max_total_size b < size + at_size a)%N.
Proof.
  intros Hs. unfold would_exceed_budget. rewrite add64_small by done.
  destruct (N.leb_spec (max_count b) count); [split; [intros _; by left|done]|].
  destruct (N.ltb_spec (max_total_size b) (size + at_size a)); [split; [intros _; by right|done]|]. split; [done|lia].
Qed.
Lemma would_exceed_wraps :
  would_exceed_budget default_budget 0 (100 * 1024 * 1024) (attachment_new "x" Pdf u64_max zero32) = false.
Proof. reflexivity. Qed.

(** A manifest with a custom media type of a known name. *)
Definition spelled_manifest : SanadManifest :=
  mkManifest 1 (Some "Title") None "schema" "codec" zero32 (Some zero32)
    [mkManifestAttachment (Some "a.pdf") None (Custom "application/pdf") 7 zero32 false None] None None None.

Lemma spelled_ok : manifest_ok (normalise spelled_manifest).
Proof.
  split; cbn; try (by intros ? [= <-]); try done.
  split; [done|]. apply Forall_cons. split; [|by apply Forall_nil_2].
  split; cbn; try (by intros ? [= <-]); done.
Qed.

Lemma manifest_roundtrip_witness :
  from_canonical_bytes (to_canonical_bytes spelled_manifest) = Ok (normalise spelled_manifest)
  /\ normalise spelled_manifest <> spelled_manifest.
Proof.
  split; [|discriminate]. exact (proj1 (proj2 (manifest_roundtrip spelled_manifest)) spelled_ok).
Defined.

Lemma manifest_hash_binds_witness :
  normalise spelled_manifest = normalise (normalise spelled_manifest) \/
  let preimage m := tagged_str_preimage toy_hash (as_bytes DOMAIN_SANAD_MANIFEST_V1) (to_canonical_bytes m) in
  collision_in toy_hash [preimage spelled_manifest; preimage (normalise spelled_manifest)].
Proof.
  apply (manifest_hash_binds toy_hash spelled_manifest (normalise spelled_manifest) spelled_ok); [exact spelled_ok|].
  vm_compute. reflexivity.
Defined.
