(* ===== verification/RecipientWrap.v ===== *)
(** * Sealing an object for its recipients (csv-content: recipient_wrap.rs)

    An object is encrypted once under a fresh data key, and the data key is wrapped for every
    recipient under a key agreed with it.  The cryptography is that of third-party crates: it
    is a record of operations here, with the laws the code relies on.  What is proved is the
    protocol around it: every recipient named at sealing, and no one else, gets past the
    search for a wrap, and recovers exactly the sealed bytes. *)

From S2P Require Import Prelude Ord Bytes Hashing Text Merkle Content.

Definition WRAP_SET_VERSION : N := 1.
Definition WRAP_ALGORITHM : string := "x25519-hkdf-sha256+xchacha20poly1305".
Definition PAYLOAD_ALGORITHM : string := "XChaCha20-Poly1305".
Definition HKDF_INFO : bytes := as_bytes "csv-content/recipient-wrap/v1".
Definition DEK_LEN : nat := 32.
Definition XNONCE_LEN : nat := 24.
Definition X25519_LEN : nat := 32.

Record WrappedKey := mkWrap { wk_recipient : bytes; wk_ephemeral_public : bytes; wk_nonce : bytes; wrapped_dek : bytes }.
Record RecipientWrapSet := mkWrapSet { ws_version : N; ws_algorithm : string; wraps : list WrappedKey }.
Record SealedObject := mkSealed {
  so_object_id : bytes;
  so_descriptor : EncryptionDescriptor;
  so_ciphertext : bytes;
  so_tag : bytes;
  so_wrap_set : RecipientWrapSet;
  so_supersedes : option bytes
}.
Inductive WrapError :=
| NoRecipients | BadRecipientKey | UnsupportedVersion (v : N) | UnsupportedAlgorithm (a : string)
| UnsupportedPayloadAlgorithm (a : string) | MalformedWrap | NoWrapForRecipient | AeadFailed | EncodingError (m : string).
(** How a call ends early: with an error, or with a panic of a slice conversion or of an
    [expect]. *)
Inductive Failure := Refused (e : WrapError) | Panicked.

(** ** The cryptography of the crates *)

(** Random bytes and secrets drawn from a generator [R]; the public key of a secret and the
    agreement of a secret with a public key; HKDF-SHA256 with a salt, key material and info;
    authenticated encryption with a key, a nonce, a message and associated data. *)
Record Crypto (R : Type) := mkCrypto {
  fill_bytes : nat -> R -> bytes * R;
  random_secret : R -> Bytes32 * R;
  public_of : Bytes32 -> Bytes32;
  diffie_hellman : Bytes32 -> Bytes32 -> Bytes32;
  hkdf : bytes -> bytes -> bytes -> bytes;
  aead_encrypt : bytes -> bytes -> bytes -> bytes -> option bytes;
  aead_decrypt : bytes -> bytes -> bytes -> bytes -> option bytes
}.
Arguments fill_bytes {R}. Arguments random_secret {R}. Arguments public_of {R}. Arguments diffie_hellman {R}.
Arguments hkdf {R}. Arguments aead_encrypt {R}. Arguments aead_decrypt {R}.

Class CryptoLaws {R} (c : Crypto R) : Prop := {
  fill_length n r : length (fill_bytes c n r).1 = n;
  dh_agrees a b : diffie_hellman c a (public_of c b) = diffie_hellman c b (public_of c a);
  aead_roundtrip k n m a x : aead_encrypt c k n m a = Some x -> aead_decrypt c k n x a = Some m;
  aead_length k n m a x : aead_encrypt c k n m a = Some x -> length x = length m + 16;
  aead_small k n m a : length m <= DEK_LEN -> exists x, aead_encrypt c k n m a = Some x
}.

Section Wrap.
Context {R : Type} (c : Crypto R) (sha256 : bytes -> Bytes32).

(** [RecipientSecretKey::generate], [public_key] *)
Definition generate (r : R) : (Bytes32 * Bytes32) * R :=
  let '(secret, r) := random_secret c r in ((secret, public_of c secret), r).

Definition derive_kek (shared ephemeral_public recipient : bytes) : bytes :=
  hkdf c (ephemeral_public ++ recipient) shared HKDF_INFO.
Definition wrap_aad (ephemeral_public recipient : bytes) : bytes := ephemeral_public ++ recipient.
Definition object_id (ciphertext tag : bytes) : bytes := b32 (sha256 (ciphertext ++ tag)).

(** [XNonce::from_slice] *)
Definition nonce_from (b : bytes) : result Failure bytes := if length b =? XNONCE_LEN then Ok b else Err Panicked.

Definition wrap_dek_for (dek : bytes) (recipient : Bytes32) (r : R) : result Failure (WrappedKey * R) :=
  let '(ephemeral, r) := random_secret c r in
  let ephemeral_public := public_of c ephemeral in
  let shared := diffie_hellman c ephemeral recipient in
  let kek := derive_kek (b32 shared) (b32 ephemeral_public) (b32 recipient) in
  let '(nonce_bytes, r) := fill_bytes c XNONCE_LEN r in
  nonce ← nonce_from nonce_bytes;
  wrapped ← ok_or Panicked (aead_encrypt c kek nonce dek (wrap_aad (b32 ephemeral_public) (b32 recipient)));
  Ok (mkWrap (b32 recipient) (b32 ephemeral_public) nonce_bytes wrapped, r).

Fixpoint wrap_all (dek : bytes) (recipients : list Bytes32) (r : R) : result Failure (list WrappedKey * R) :=
  match recipients with
  | [] => Ok ([], r)
  | recipient :: recipients =>
      '(w, r) ← wrap_dek_for dek recipient r;
      '(ws, r) ← wrap_all dek recipients r;
      Ok (w :: ws, r)
  end.
Definition build_wraps (dek : bytes) (recipients : list Bytes32) (r : R) : result Failure (RecipientWrapSet * R) :=
  '(ws, r) ← wrap_all dek recipients r;
  Ok (mkWrapSet WRAP_SET_VERSION WRAP_ALGORITHM ws, r).

(** [split_off(len - 16)]; the subtraction would panic on a shorter output. *)
Definition seal_for_recipients (plaintext : bytes) (recipients : list Bytes32) (aad : option bytes) (r : R)
  : result Failure (SealedObject * R) :=
  reject bool_decide (recipients = []) with Refused NoRecipients;;
  let '(dek, r) := fill_bytes c DEK_LEN r in
  let '(payload_nonce, r) := fill_bytes c XNONCE_LEN r in
  nonce ← nonce_from payload_nonce;
  sealed ← ok_or (Refused AeadFailed) (aead_encrypt c dek nonce plaintext (default [] aad));
  reject length sealed <? 16 with Panicked;;
  let tag := drop (length sealed - 16) sealed in
  let ciphertext := take (length sealed - 16) sealed in
  '(wrap_set, r) ← build_wraps dek recipients r;
  let descriptor :=
    encryption_new PAYLOAD_ALGORITHM (of_bytes (hex_encode (object_id ciphertext tag))) payload_nonce in
  let descriptor := match aad with Some a => with_aad descriptor a | None => descriptor end in
  Ok (mkSealed (object_id ciphertext tag) descriptor ciphertext tag wrap_set None, r).

Definition wrap_shape (w : WrappedKey) : bool :=
  negb (length (wk_recipient w) =? X25519_LEN) || negb (length (wk_ephemeral_public w) =? X25519_LEN)
  || negb (length (wk_nonce w) =? XNONCE_LEN) || negb (length (wrapped_dek w) =? DEK_LEN + 16).
Definition wrap_set_validate (s : RecipientWrapSet) : result Failure unit :=
  reject negb (ws_version s =? WRAP_SET_VERSION)%N with Refused (UnsupportedVersion (ws_version s));;
  reject negb (bool_decide (ws_algorithm s = WRAP_ALGORITHM)) with Refused (UnsupportedAlgorithm (ws_algorithm s));;
  try_each (fun w => if wrap_shape w then Err (Refused MalformedWrap) else Ok tt) (wraps s).

Definition unseal (o : SealedObject) (secret : Bytes32) : result Failure bytes :=
  _ ← wrap_set_validate (so_wrap_set o);
  reject negb (bool_decide (ed_algorithm (so_descriptor o) = PAYLOAD_ALGORITHM))
    with Refused (UnsupportedPayloadAlgorithm (ed_algorithm (so_descriptor o)));;
  let my_public := public_of c secret in
  wrap ← ok_or (Refused NoWrapForRecipient)
           (List.find (fun w => bool_decide (wk_recipient w = b32 my_public)) (wraps (so_wrap_set o)));
  ephemeral_public ← ok_or Panicked (to_b32 (wk_ephemeral_public wrap));
  let shared := diffie_hellman c secret ephemeral_public in
  let kek := derive_kek (b32 shared) (wk_ephemeral_public wrap) (wk_recipient wrap) in
  nonce ← nonce_from (wk_nonce wrap);
  dek ← ok_or (Refused AeadFailed)
          (aead_decrypt c kek nonce (wrapped_dek wrap) (wrap_aad (wk_ephemeral_public wrap) (wk_recipient wrap)));
  reject negb (length dek =? DEK_LEN) with Refused AeadFailed;;
  payload_nonce ← nonce_from (ed_nonce (so_descriptor o));
  ok_or (Refused AeadFailed)
    (aead_decrypt c dek payload_nonce (so_ciphertext o ++ so_tag o) (default [] (ed_aad (so_descriptor o)))).

Definition reseal_for_recipients (o : SealedObject) (plaintext : bytes) (new_recipients : list Bytes32)
    (aad : option bytes) (r : R) : result Failure (SealedObject * R) :=
  '(next, r) ← seal_for_recipients plaintext new_recipients aad r;
  Ok (mkSealed (so_object_id next) (so_descriptor next) (so_ciphertext next) (so_tag next) (so_wrap_set next)
        (Some (so_object_id o)), r).

(** ** Lemmas *)

Context `{!CryptoLaws c}.

Lemma nonce_from_ok b : length b = XNONCE_LEN -> nonce_from b = Ok b.
Proof. unfold nonce_from. by intros ->. Qed.

(** A wrap made for a recipient is well formed, and the recipient's secret opens it. *)
Record wrap_for (dek : bytes) (recipient : Bytes32) (w : WrappedKey) : Prop := {
  wf_recipient : wk_recipient w = b32 recipient;
  wf_shape : wrap_shape w = false;
  wf_opens : forall secret, public_of c secret = recipient -> exists e,
    to_b32 (wk_ephemeral_public w) = Some e /\
    aead_decrypt c (derive_kek (b32 (diffie_hellman c secret e)) (wk_ephemeral_public w) (wk_recipient w))
      (wk_nonce w) (wrapped_dek w) (wrap_aad (wk_ephemeral_public w) (wk_recipient w)) = Some dek
}.

Lemma wrap_dek_for_ok dek recipient r :
  length dek = DEK_LEN -> exists w r', wrap_dek_for dek recipient r = Ok (w, r') /\ wrap_for dek recipient w.
Proof.
  intros Hd. unfold wrap_dek_for. destruct (random_secret c r) as [e r1].
  pose proof (fill_length XNONCE_LEN r1) as Hn. destruct (fill_bytes c XNONCE_LEN r1) as [n r2]. cbn [fst] in Hn.
  rewrite nonce_from_ok by done. cbn [mbind result_bind].
  match goal with |- context [aead_encrypt c ?k n dek ?a] => destruct (aead_small k n dek a) as [x Hx]; [lia|] end.
  rewrite Hx. do 2 eexists. split; [done|]. split; cbn [wk_recipient wk_ephemeral_public wk_nonce wrapped_dek].
  - done.
  - unfold wrap_shape. cbn [wk_recipient wk_ephemeral_public wk_nonce wrapped_dek].
    rewrite !b32_length, Hn, (aead_length _ _ _ _ _ Hx), Hd. done.
  - intros s <-. exists (public_of c e). split; [apply to_b32_b32|]. rewrite <- dh_agrees. by eapply aead_roundtrip.
Qed.

Lemma wrap_all_ok dek recipients r :
  length dek = DEK_LEN -> exists ws r', wrap_all dek recipients r = Ok (ws, r') /\ Forall2 (wrap_for dek) recipients ws.
Proof.
  intros Hd. revert r. induction recipients as [|k l IH]; intros r; [by do 2 eexists; split|]. cbn [wrap_all].
  destruct (wrap_dek_for_ok dek k r Hd) as (w & r1 & -> & Hw). cbn [mbind result_bind].
  destruct (IH r1) as (ws & r2 & -> & Hws). do 2 eexists. split; [done|]. by constructor.
Qed.

(** The search for the own wrap finds one exactly for a recipient. *)
Lemma find_wrap dek recipients ws key :
  Forall2 (wrap_for dek) recipients ws ->
  match List.find (fun w => bool_decide (wk_recipient w = b32 key)) ws with
  | Some w => key ∈ recipients /\ wrap_for dek key w
  | None => key ∉ recipients
  end.
Proof.
  induction 1 as [|k w ks ws Hw Hws IH]; [apply not_elem_of_nil|]. cbn [List.find].
  rewrite (wf_recipient _ _ _ Hw). case_bool_decide as E.
  - apply b32_inj in E as ->. split; [left|done].
  - destruct (List.find _ ws); [by destruct IH; split; [right|]|].
    apply not_elem_of_cons. split; [congruence|done].
Qed.

Lemma wraps_validate dek recipients ws :
  Forall2 (wrap_for dek) recipients ws ->
  wrap_set_validate (mkWrapSet WRAP_SET_VERSION WRAP_ALGORITHM ws) = Ok tt.
Proof.
  intros H. unfold wrap_set_validate. cbn [ws_version ws_algorithm wraps]. rewrite !guard_err_ok. split; [done|].
  split; [by rewrite bool_decide_true|]. apply try_each_ok. induction H as [|k w ks ws Hw _ IH]; constructor; [|done].
  by rewrite (wf_shape _ _ _ Hw).
Qed.

(** What sealing produces, in the terms opening needs. *)
Record sealed_as (plaintext : bytes) (recipients : list Bytes32) (o : SealedObject) (dek : bytes) : Prop := {
  sa_dek : length dek = DEK_LEN;
  sa_wraps : Forall2 (wrap_for dek) recipients (wraps (so_wrap_set o));
  sa_version : ws_version (so_wrap_set o) = WRAP_SET_VERSION;
  sa_ws_algorithm : ws_algorithm (so_wrap_set o) = WRAP_ALGORITHM;
  sa_algorithm : ed_algorithm (so_descriptor o) = PAYLOAD_ALGORITHM;
  sa_nonce : length (ed_nonce (so_descriptor o)) = XNONCE_LEN;
  sa_payload : aead_decrypt c dek (ed_nonce (so_descriptor o)) (so_ciphertext o ++ so_tag o)
                 (default [] (ed_aad (so_descriptor o))) = Some plaintext
}.

Definition with_nonce (o : SealedObject) (n : bytes) : SealedObject :=
  let d := so_descriptor o in
  mkSealed (so_object_id o) (mkEncryption (ed_algorithm d) (ed_key_id d) n (ed_aad d)) (so_ciphertext o) (so_tag o)
    (so_wrap_set o) (so_supersedes o).

(** How far opening gets whatever the nonce of the descriptor is. *)
Lemma unseal_upto plaintext recipients o dek secret n :
  sealed_as plaintext recipients o dek ->
  unseal (with_nonce o n) secret =
  if decide (public_of c secret ∈ recipients)
  then payload_nonce ← nonce_from n;
       ok_or (Refused AeadFailed)
         (aead_decrypt c dek payload_nonce (so_ciphertext o ++ so_tag o) (default [] (ed_aad (so_descriptor o))))
  else Err (Refused NoWrapForRecipient).
Proof.
  intros [Hd Hw Hv Ha Hp Hn Hx]. unfold unseal, with_nonce. destruct o as [id d ct tag [v a ws] sup].
  cbn [so_wrap_set so_descriptor so_ciphertext so_tag wraps ws_version ws_algorithm ed_algorithm ed_nonce ed_aad] in *.
  subst v a. rewrite (wraps_validate dek recipients) by done. cbn [mbind result_bind]. rewrite bool_decide_true by done.
  cbn [negb guard_err]. pose proof (find_wrap dek recipients ws (public_of c secret) Hw) as Hf.
  destruct (List.find _ ws) as [w|]; cbn [ok_or mbind result_bind]; [|by rewrite decide_False].
  destruct Hf as [Hin Hwf]. rewrite decide_True by done.
  destruct (wf_opens _ _ _ Hwf secret eq_refl) as (e & -> & Ho). cbn [ok_or mbind result_bind].
  pose proof (wf_shape _ _ _ Hwf) as Hs. unfold wrap_shape in Hs. rewrite !orb_false_iff, !negb_false_iff, !Nat.eqb_eq in Hs.
  rewrite (nonce_from_ok (wk_nonce w)) by tauto. cbn [mbind result_bind]. rewrite Ho. cbn [ok_or mbind result_bind].
  by rewrite (proj2 (Nat.eqb_eq _ _) Hd).
Qed.

Lemma unseal_sealed plaintext recipients o dek secret :
  sealed_as plaintext recipients o dek ->
  unseal o secret = if decide (public_of c secret ∈ recipients) then Ok plaintext else Err (Refused NoWrapForRecipient).
Proof.
  intros Hs. replace o with (with_nonce o (ed_nonce (so_descriptor o))) at 1 by (by destruct o as [? []]).
  rewrite (unseal_upto plaintext recipients o dek) by done. rewrite nonce_from_ok by apply (sa_nonce _ _ _ _ Hs).
  cbn [mbind result_bind]. by rewrite (sa_payload _ _ _ _ Hs).
Qed.

Lemma seal_spec plaintext recipients aad r o r' :
  seal_for_recipients plaintext recipients aad r = Ok (o, r') ->
  recipients <> [] /\ ed_aad (so_descriptor o) = aad /\ so_supersedes o = None /\
  so_object_id o = object_id (so_ciphertext o) (so_tag o) /\
  exists dek, sealed_as plaintext recipients o dek.
Proof.
  unfold seal_for_recipients. intros [Hr H]%guard_err_ok. apply bool_decide_eq_false in Hr.
  pose proof (fill_length DEK_LEN r) as Hd. destruct (fill_bytes c DEK_LEN r) as [dek r1]. cbn [fst] in Hd.
  pose proof (fill_length XNONCE_LEN r1) as Hn. destruct (fill_bytes c XNONCE_LEN r1) as [n r2]. cbn [fst] in Hn.
  rewrite nonce_from_ok in H by done. cbn [mbind result_bind] in H.
  destruct (aead_encrypt c dek n plaintext _) as [x|] eqn:Hx; [|done]. cbn [ok_or mbind result_bind] in H.
  apply guard_err_ok in H as [_ H]. unfold build_wraps in H.
  destruct (wrap_all_ok dek recipients r2 Hd) as (ws & r3 & E & Hws). rewrite E in H. cbn [mbind result_bind] in H.
  injection H as <- <-. split; [done|]. split; [by destruct aad|]. split; [done|]. split; [done|].
  exists dek. destruct aad as [a|];
    (split; cbn [so_wrap_set so_descriptor so_ciphertext so_tag wraps ws_version ws_algorithm ed_algorithm ed_nonce
       ed_aad with_aad encryption_new default]; [done..|]; rewrite take_drop; by eapply aead_roundtrip).
Qed.

(** sealing for recipients.  Without recipients sealing is refused; otherwise it returns
    an object unless the cipher refuses the plaintext, never a panic.  The object opens to
    exactly the sealed bytes for the secret of every recipient, however often the recipient
    is named, and for any other secret the search for its wrap is refused before any
    decryption.  Resealing gives an object of the same kind for the new recipients, that
    names the one it supersedes. *)
Theorem seal_opens (plaintext : bytes) (recipients : list Bytes32) (aad : option bytes) (r : R) :
  (recipients = [] -> seal_for_recipients plaintext recipients aad r = Err (Refused NoRecipients)) /\
  (recipients <> [] -> seal_for_recipients plaintext recipients aad r = Err (Refused AeadFailed)
                       \/ exists o r', seal_for_recipients plaintext recipients aad r = Ok (o, r')) /\
  (forall o r' secret, seal_for_recipients plaintext recipients aad r = Ok (o, r') ->
     unseal o secret = if decide (public_of c secret ∈ recipients) then Ok plaintext
                       else Err (Refused NoWrapForRecipient)) /\
  (forall old o r' secret, reseal_for_recipients old plaintext recipients aad r = Ok (o, r') ->
     so_supersedes o = Some (so_object_id old) /\
     unseal o secret = if decide (public_of c secret ∈ recipients) then Ok plaintext
                       else Err (Refused NoWrapForRecipient)).
Proof.
  split; [|split; [|split]].
  - by intros ->.
  - intros Hr. unfold seal_for_recipients. rewrite bool_decide_false by done. cbn [guard_err].
    pose proof (fill_length DEK_LEN r) as Hd. destruct (fill_bytes c DEK_LEN r) as [dek r1]. cbn [fst] in Hd.
    pose proof (fill_length XNONCE_LEN r1) as Hn. destruct (fill_bytes c XNONCE_LEN r1) as [n r2]. cbn [fst] in Hn.
    rewrite nonce_from_ok by done. cbn [mbind result_bind].
    destruct (aead_encrypt c dek n plaintext _) as [x|] eqn:Hx; [right|by left]. cbn [ok_or mbind result_bind].
    pose proof (aead_length _ _ _ _ _ Hx) as Hl. rewrite (proj2 (Nat.ltb_ge _ _)) by lia. cbn [guard_err]. unfold build_wraps.
    destruct (wrap_all_ok dek recipients r2 Hd) as (ws & r3 & -> & _). by do 2 eexists.
  - intros o r' secret (_ & _ & _ & _ & dek & Hs)%seal_spec. by eapply unseal_sealed.
  - intros old o r' secret. unfold reseal_for_recipients. intros ([o' r''] & Ho & [= <- <-])%bind_ok.
    apply seal_spec in Ho as (_ & _ & _ & _ & dek & Hs). split; [done|].
    apply (unseal_sealed plaintext recipients _ dek secret). destruct Hs. by split.
Qed.

(** Opening does not look at the object's identifier, nor at what it supersedes, nor at the
    key identifier of its descriptor: none of them is bound to the ciphertext by it. *)
Lemma unseal_ignores_id id id' al k k' n a ct tag ws sup sup' secret :
  unseal (mkSealed id (mkEncryption al k n a) ct tag ws sup) secret
  = unseal (mkSealed id' (mkEncryption al k' n a) ct tag ws sup') secret.
Proof. reflexivity. Qed.

(** The nonce of the descriptor is not checked before it is used: the object of a sealing
    with the nonce cut short makes opening panic for every recipient. *)
Lemma unseal_short_nonce plaintext recipients o dek secret n :
  sealed_as plaintext recipients o dek -> length n <> XNONCE_LEN -> public_of c secret ∈ recipients ->
  unseal (with_nonce o n) secret = Err Panicked.
Proof.
  intros Hs Hl Hin. rewrite (unseal_upto plaintext recipients o dek), decide_True by done.
  unfold nonce_from. by rewrite (proj2 (Nat.eqb_neq _ _) Hl).
Qed.
End Wrap.

(** ** A concrete cryptography

    Agreement by a commutative hash of the two keys, and a cipher that leaves the message in
    clear and appends a tag over everything: it has the laws and nothing else. *)

Definition toy_tag (k n m a : bytes) : bytes := take 16 (b32 (toy_hash (k ++ n ++ m ++ a))).
Definition toy_encrypt (k n m a : bytes) : option bytes := Some (m ++ toy_tag k n m a).
Definition toy_decrypt (k n x a : bytes) : option bytes :=
  let m := take (length x - 16) x in
  if decide (drop (length x - 16) x = toy_tag k n m a) then Some m else None.
Definition toy_crypto : Crypto N :=
  mkCrypto N (fun n r => (le_bytes n r, (r + 1)%N)) (fun r => (toy_hash (le_bytes 8 r), (r + 1)%N)) (fun s => s)
    (combine_children toy_hash) (fun salt ikm info => b32 (toy_hash (salt ++ ikm ++ info))) toy_encrypt toy_decrypt.

Lemma length_toy_tag k n m a : length (toy_tag k n m a) = 16.
Proof. unfold toy_tag. by rewrite length_take, b32_length. Qed.

#[export] Instance toy_crypto_laws : CryptoLaws toy_crypto.
Proof.
  split; cbn.
  - intros n r. apply length_le_bytes.
  - intros a b. apply combine_comm.
  - intros k n m a x [= <-]. unfold toy_decrypt.
    rewrite length_app, length_toy_tag, Nat.add_sub, take_app_length, drop_app_length. by rewrite decide_True.
  - intros k n m a x [= <-]. by rewrite length_app, length_toy_tag.
  - intros k n m a _. by eexists.
Qed.

(** An object sealed for two recipients. *)
Definition demo_keys : list Bytes32 := [fill32 Byte.x01; fill32 Byte.x02].

Lemma seal_opens_witness :
  exists o r', seal_for_recipients toy_crypto toy_hash (as_bytes "secret") demo_keys None 7%N = Ok (o, r') /\
    unseal toy_crypto o (fill32 Byte.x02) = Ok (as_bytes "secret") /\
    unseal toy_crypto o (fill32 Byte.x03) = Err (Refused NoWrapForRecipient).
Proof.
  destruct (seal_opens toy_crypto toy_hash (as_bytes "secret") demo_keys None 7%N) as (_ & Hs & Ho & _).
  destruct Hs as [Hs|(o & r' & Hs)]; [discriminate|vm_compute in Hs; discriminate|].
  exists o, r'. split; [exact Hs|]. rewrite !(Ho _ _ _ Hs). split; [reflexivity|reflexivity].
Defined.
