(* ===== verification/Seal.v ===== *)
(** * Seal points and commit anchors (csv-hash/src/seal.rs)

    The two wire forms of each: the deprecated [to_vec] / [from_bytes] and the
    canonical [to_canonical_bytes] / [from_canonical_bytes].  A decoder that
    indexes past the end of its input panics; [Panic] is that outcome.  The
    decoders are written twice: over the unread suffix, and with the indexes of the
    code in a [usize] of a given width, where sums wrap; the two agree where
    [usize] has 64 bits. *)

From S2P Require Import Prelude Ord Bytes Dag DagCodec Hashing Text.

Definition MAX_SEAL_ID_SIZE : N := 1024.
Definition MAX_ANCHOR_ID_SIZE : N := 1024.
Definition MAX_ANCHOR_METADATA_SIZE : N := 4096.

Record SealPoint := mkSealPoint {
  seal_id : bytes;
  seal_nonce : option N;
  seal_version : option N
}.

Record CommitAnchor := mkCommitAnchor {
  anchor_id : bytes;
  block_height : N;
  anchor_metadata : bytes
}.

Global Instance SealPoint_eq_dec : EqDecision SealPoint.
Proof. solve_decision. Defined.
Global Instance CommitAnchor_eq_dec : EqDecision CommitAnchor.
Proof. solve_decision. Defined.

(** What a decoder can end with besides a value. *)
Inductive parse_error := Msg (m : string) | Panic.
Global Instance parse_error_eq_dec : EqDecision parse_error.
Proof. solve_decision. Defined.

(** ** Constructors *)

(** [SealPoint::new] *)
Definition SealPoint_new (id : bytes) (nonce version : option N) : result string SealPoint :=
  reject (MAX_SEAL_ID_SIZE <? blen id)%N with "id exceeds maximum allowed size (1KB)"%string ;;
  reject (blen id =? 0)%N with "id cannot be empty"%string ;;
  Ok (mkSealPoint id nonce version).

(** [CommitAnchor::new] *)
Definition CommitAnchor_new (id : bytes) (height : N) (metadata : bytes)
  : result string CommitAnchor :=
  reject (MAX_ANCHOR_ID_SIZE <? blen id)%N
    with "anchor_id exceeds maximum allowed size (1KB)"%string ;;
  reject (blen id =? 0)%N with "anchor_id cannot be empty"%string ;;
  reject (MAX_ANCHOR_METADATA_SIZE <? blen metadata)%N
    with "metadata exceeds maximum allowed size (4KB)"%string ;;
  Ok (mkCommitAnchor id height metadata).

(** ** Encoders *)

(** [Some(n)]: a one and the number; [None]: a zero. *)
Definition opt_u64_bytes (o : option N) : bytes :=
  match o with Some n => Byte.x01 :: u64_le n | None => [Byte.x00] end.

(** [SealPoint::to_vec] (deprecated) *)
Definition seal_to_vec (s : SealPoint) : bytes :=
  opt_u64_bytes (seal_nonce s) ++ opt_u64_bytes (seal_version s) ++ sized (seal_id s).

(** [SealPoint::to_canonical_bytes] *)
Definition seal_to_canonical_bytes (s : SealPoint) : bytes :=
  sized (seal_id s) ++ opt_u64_bytes (seal_nonce s) ++ opt_u64_bytes (seal_version s).

(** [CommitAnchor::to_vec] (deprecated) *)
Definition anchor_to_vec (a : CommitAnchor) : bytes :=
  u64_le (block_height a) ++ sized (anchor_id a) ++ sized (anchor_metadata a).

(** [CommitAnchor::to_canonical_bytes] *)
Definition anchor_to_canonical_bytes (a : CommitAnchor) : bytes :=
  u64_le (block_height a) ++ sized (anchor_id a) ++ sized (anchor_metadata a).

(** ** Decoders *)

(** The strict flag of [from_bytes]: zero, one, or an error. *)
Definition read_flag_strict (e_empty e_value e_flag : parse_error) (rest : bytes)
  : result parse_error (option N * bytes) :=
  '(flag, rest) ← read_u8 e_empty rest;
  if bool_decide (flag = Byte.x00) then Ok (None, rest)
  else if bool_decide (flag = Byte.x01) then
    '(n, rest) ← read_u64_le e_value rest; Ok (Some n, rest)
  else Err e_flag.

(** The lenient flag of [from_canonical_bytes]: one, or anything else for [None]. *)
Definition read_flag_lenient {E} (e_empty e_value : E) (rest : bytes)
  : result E (option N * bytes) :=
  '(flag, rest) ← read_u8 e_empty rest;
  if bool_decide (flag = Byte.x01) then
    '(n, rest) ← read_u64_le e_value rest; Ok (Some n, rest)
  else Ok (None, rest).

(** [SealPoint::from_bytes].  The version flag is read as [bytes[pos]] with no
    length check before it. *)
Definition seal_from_bytes (b : bytes) : result parse_error SealPoint :=
  '(nonce, rest) ← read_flag_strict (Msg "empty bytes") (Msg "insufficient bytes for nonce")
                     (Msg "invalid nonce flag") b;
  '(version, rest) ← read_flag_strict Panic (Msg "insufficient bytes for version")
                       (Msg "invalid version flag") rest;
  '(id, rest) ← read_sized (Msg "insufficient bytes for id length")
                  (Msg "insufficient bytes for id") rest;
  reject (MAX_SEAL_ID_SIZE <? blen id)%N with Msg "id exceeds maximum allowed size (1KB)" ;;
  Ok (mkSealPoint id nonce version).

(** The fields of [SealPoint::from_canonical_bytes], with the unread suffix. *)
Definition seal_read {E} (e : string -> E) (b : bytes) : result E (SealPoint * bytes) :=
  '(id, rest) ← read_sized (e "insufficient bytes for id_len")
                  (e "insufficient bytes for id") b;
  '(nonce, rest) ← read_flag_lenient (e "insufficient bytes for nonce_present")
                     (e "insufficient bytes for nonce") rest;
  '(version, rest) ← read_flag_lenient (e "insufficient bytes for version_present")
                       (e "insufficient bytes for version") rest;
  Ok (mkSealPoint id nonce version, rest).

Definition seal_from_canonical_bytes (b : bytes) : result parse_error SealPoint :=
  fst <$> seal_read Msg b.

(** [CommitAnchor::from_bytes] *)
Definition anchor_from_bytes (b : bytes) : result parse_error CommitAnchor :=
  '(height, rest) ← read_u64_le (Msg "insufficient bytes for block_height") b;
  '(id, rest) ← read_sized (Msg "insufficient bytes for anchor_id length")
                  (Msg "insufficient bytes for anchor_id") rest;
  reject (MAX_ANCHOR_ID_SIZE <? blen id)%N
    with Msg "anchor_id exceeds maximum allowed size (1KB)" ;;
  '(metadata, rest) ← read_sized (Msg "insufficient bytes for metadata length")
                        (Msg "insufficient bytes for metadata") rest;
  reject (MAX_ANCHOR_METADATA_SIZE <? blen metadata)%N
    with Msg "metadata exceeds maximum allowed size (4KB)" ;;
  Ok (mkCommitAnchor id height metadata).

(** [CommitAnchor::from_canonical_bytes] *)
Definition anchor_from_canonical_bytes (b : bytes) : result parse_error CommitAnchor :=
  '(height, rest) ← read_u64_le (Msg "insufficient bytes for block_height") b;
  '(id, rest) ← read_sized (Msg "insufficient bytes for anchor_id_len")
                  (Msg "insufficient bytes for anchor_id") rest;
  '(metadata, _) ← read_sized (Msg "insufficient bytes for metadata_len")
                     (Msg "insufficient bytes for metadata") rest;
  Ok (mkCommitAnchor id height metadata).

(** ** Lemmas *)

Definition opt_u64_ok (o : option N) : Prop := forall n, o = Some n -> (n <= u64_max)%N.
Definition seal_ok (s : SealPoint) : Prop :=
  (blen (seal_id s) <= u32_max)%N /\ opt_u64_ok (seal_nonce s) /\ opt_u64_ok (seal_version s).
Definition anchor_ok (a : CommitAnchor) : Prop :=
  (blen (anchor_id a) <= u32_max)%N /\ (block_height a <= u64_max)%N /\
  (blen (anchor_metadata a) <= u32_max)%N.

Lemma u32_le_of_le_bytes l : length l = 4 -> u32_le (of_le_bytes l) = l.
Proof. intros H. unfold u32_le. rewrite <- H. apply le_bytes_of_le_bytes. Qed.

#[local] Opaque u64_le u32_le sized.

Lemma read_flag_strict_app e1 e2 e3 o rest :
  opt_u64_ok o -> read_flag_strict e1 e2 e3 (opt_u64_bytes o ++ rest) = Ok (o, rest).
Proof.
  intros Ho. unfold read_flag_strict. destruct o as [n|]; simpl; [|done].
  by rewrite read_u64_le_app by auto.
Qed.

Lemma read_flag_lenient_app {E} (e1 e2 : E) o rest :
  opt_u64_ok o -> read_flag_lenient e1 e2 (opt_u64_bytes o ++ rest) = Ok (o, rest).
Proof.
  intros Ho. unfold read_flag_lenient. destruct o as [n|]; simpl; [|done].
  by rewrite read_u64_le_app by auto.
Qed.

Lemma seal_read_app {E} (e : string -> E) s rest :
  seal_ok s -> seal_read e (seal_to_canonical_bytes s ++ rest) = Ok (s, rest).
Proof.
  intros (Hi & Hn & Hv). unfold seal_read, seal_to_canonical_bytes.
  rewrite <- !app_assoc, read_sized_sized by done. simpl.
  rewrite read_flag_lenient_app by done. simpl.
  rewrite read_flag_lenient_app by done. simpl. by destruct s.
Qed.

Lemma seal_from_to_vec s rest :
  seal_ok s -> (blen (seal_id s) <= MAX_SEAL_ID_SIZE)%N ->
  seal_from_bytes (seal_to_vec s ++ rest) = Ok s.
Proof.
  intros (Hi & Hn & Hv) Hmax. unfold seal_from_bytes, seal_to_vec. rewrite <- !app_assoc.
  rewrite read_flag_strict_app by done. simpl. rewrite read_flag_strict_app by done. simpl.
  rewrite read_sized_sized by done. simpl. rewrite (proj2 (N.ltb_ge _ _) Hmax). simpl.
  by destruct s.
Qed.

Lemma anchor_from_to_canonical a rest :
  anchor_ok a -> anchor_from_canonical_bytes (anchor_to_canonical_bytes a ++ rest) = Ok a.
Proof.
  intros (Hi & Hh & Hm). unfold anchor_from_canonical_bytes, anchor_to_canonical_bytes.
  rewrite <- !app_assoc. rewrite read_u64_le_app by done. simpl.
  rewrite read_sized_sized by done. simpl. rewrite read_sized_sized by done. simpl.
  by destruct a.
Qed.

Lemma anchor_from_to_vec a rest :
  anchor_ok a -> (blen (anchor_id a) <= MAX_ANCHOR_ID_SIZE)%N ->
  (blen (anchor_metadata a) <= MAX_ANCHOR_METADATA_SIZE)%N ->
  anchor_from_bytes (anchor_to_vec a ++ rest) = Ok a.
Proof.
  intros (Hi & Hh & Hm) H1 H2. unfold anchor_from_bytes, anchor_to_vec.
  rewrite <- !app_assoc. rewrite read_u64_le_app by done. simpl.
  rewrite read_sized_sized by done. simpl. rewrite (proj2 (N.ltb_ge _ _) H1). simpl.
  rewrite read_sized_sized by done. simpl. rewrite (proj2 (N.ltb_ge _ _) H2). simpl.
  by destruct a.
Qed.

(** ** The seal decoders, index by index

    The two decoders of a seal as they are written: over positions in the input, sums of
    [usize]s of [w] bytes that wrap (in a build with overflow checks they panic instead), and
    indices and slices that panic outside the input.  The readers above consume suffixes;
    where no sum wraps the two are equal. *)
Section Indexed.
Variable w : nat.

Definition usize_add (a b : N) : N := ((a + b) mod 256 ^ N.of_nat w)%N.

(** [bytes[pos]], [bytes[i..j]] and the bytes [bytes[pos + off]], [bytes[pos + off + 1]], ... *)
Definition index_at (b : bytes) (pos : N) : result parse_error byte :=
  match b !! N.to_nat pos with Some c => Ok c | None => Err Panic end.
Definition slice_at (b : bytes) (i j : N) : result parse_error bytes :=
  if ((i <=? j) && (j <=? blen b))%N then Ok (take (N.to_nat (j - i)) (drop (N.to_nat i) b))
  else Err Panic.
Fixpoint indices_at (b : bytes) (k : nat) (pos off : N) : result parse_error bytes :=
  match k with
  | O => Ok []
  | S k => c ← index_at b (usize_add pos off); r ← indices_at b k pos (off + 1)%N; Ok (c :: r)
  end.

(** [u64::from_le_bytes] of the next eight bytes, behind its length check. *)
Definition u64_at (m : string) (b : bytes) (pos : N) : result parse_error (N * N) :=
  reject (blen b <? usize_add pos 8)%N with Msg m ;;
  v ← indices_at b 8 pos 0; Ok (of_le_bytes v, usize_add pos 8).
Definition flag_strict_at (m_value m_flag : string) (b : bytes) (pos : N)
  : result parse_error (option N * N) :=
  flag ← index_at b pos;
  let pos := usize_add pos 1 in
  if bool_decide (flag = Byte.x00) then Ok (None, pos)
  else if bool_decide (flag = Byte.x01) then '(n, pos) ← u64_at m_value b pos; Ok (Some n, pos)
  else Err (Msg m_flag).
Definition flag_lenient_at (m_empty m_value : string) (b : bytes) (pos : N)
  : result parse_error (option N * N) :=
  reject (blen b <? usize_add pos 1)%N with Msg m_empty ;;
  flag ← index_at b pos;
  let pos := usize_add pos 1 in
  if bool_decide (flag = Byte.x01) then '(n, pos) ← u64_at m_value b pos; Ok (Some n, pos)
  else Ok (None, pos).

(** [u32::from_le_bytes] of four bytes and the slice of that length. *)
Definition sized_at (m_len m_body : string) (b : bytes) (pos : N) : result parse_error (bytes * N) :=
  reject (blen b <? usize_add pos 4)%N with Msg m_len ;;
  l ← indices_at b 4 pos 0;
  let len := of_le_bytes l in
  let pos := usize_add pos 4 in
  reject (blen b <? usize_add pos len)%N with Msg m_body ;;
  x ← slice_at b pos (usize_add pos len);
  Ok (x, usize_add pos len).

(** [SealPoint::from_bytes] *)
Definition seal_from_bytes_at (b : bytes) : result parse_error SealPoint :=
  reject (blen b =? 0)%N with Msg "empty bytes" ;;
  '(nonce, pos) ← flag_strict_at "insufficient bytes for nonce" "invalid nonce flag" b 0;
  '(version, pos) ← flag_strict_at "insufficient bytes for version" "invalid version flag" b pos;
  '(id, _) ← sized_at "insufficient bytes for id length" "insufficient bytes for id" b pos;
  reject (MAX_SEAL_ID_SIZE <? blen id)%N with Msg "id exceeds maximum allowed size (1KB)" ;;
  Ok (mkSealPoint id nonce version).

(** [SealPoint::from_canonical_bytes] *)
Definition seal_from_canonical_at (b : bytes) : result parse_error SealPoint :=
  '(id, pos) ← sized_at "insufficient bytes for id_len" "insufficient bytes for id" b 0;
  '(nonce, pos) ← flag_lenient_at "insufficient bytes for nonce_present" "insufficient bytes for nonce" b pos;
  '(version, _) ← flag_lenient_at "insufficient bytes for version_present" "insufficient bytes for version" b pos;
  Ok (mkSealPoint id nonce version).

(** *** Lemmas: where no sum wraps, a decoder of positions is one of suffixes *)

(** The decoder of positions stands where the rest of the other begins, or fails with it. *)
Definition in_step {A} (b : bytes) (r : result parse_error (A * bytes)) (q : result parse_error (A * N)) : Prop :=
  match r, q with
  | Ok (x, rest), Ok (y, pos) => x = y /\ (pos <= blen b)%N /\ rest = drop (N.to_nat pos) b
  | Err e, Err e' => e = e'
  | _, _ => False
  end.

Lemma in_step_bind {A B} b r q (f : A * bytes -> result parse_error B) (g : A * N -> result parse_error B) :
  in_step b r q ->
  (forall x pos, (pos <= blen b)%N -> f (x, drop (N.to_nat pos) b) = g (x, pos)) ->
  (r ≫= f) = (q ≫= g).
Proof.
  unfold in_step. destruct r as [[x rest]|e], q as [[y pos]|e']; try done; cbn.
  - intros (<- & Hp & ->) H. by apply H.
  - by intros -> _.
Qed.

Lemma in_step_bind_step {A B} b r q (f : A * bytes -> result parse_error (B * bytes))
    (g : A * N -> result parse_error (B * N)) :
  in_step b r q ->
  (forall x pos, (pos <= blen b)%N -> in_step b (f (x, drop (N.to_nat pos) b)) (g (x, pos))) ->
  in_step b (r ≫= f) (q ≫= g).
Proof.
  unfold in_step at 1. destruct r as [[x rest]|e], q as [[y pos]|e']; try done; cbn.
  - intros (<- & Hp & ->) H. by apply H.
Qed.

Section Room.
Variable b : bytes.
Hypothesis Hroom : (blen b + 8 < 256 ^ N.of_nat w)%N.

Lemma usize_add_exact p q : (p + q < 256 ^ N.of_nat w)%N -> usize_add p q = (p + q)%N.
Proof. apply N.mod_small. Qed.

Lemma indices_at_ok k pos off : (pos + off + N.of_nat k <= blen b)%N ->
  indices_at b k pos off = Ok (take k (drop (N.to_nat (pos + off)) b)).
Proof.
  revert off. induction k as [|k IH]; intros off H; [done|]. cbn [indices_at].
  rewrite usize_add_exact by lia. unfold index_at.
  destruct (lookup_lt_is_Some_2 b (N.to_nat (pos + off))) as [c Hc]; [unfold blen in H; lia|].
  rewrite Hc. cbn [mbind result_bind]. rewrite IH by lia. cbn [mbind result_bind].
  rewrite (drop_S _ _ _ Hc). cbn. do 4 f_equal. lia.
Qed.

Lemma take_in_step k pos m : (pos <= blen b)%N ->
  in_step b (take_n k (Msg m) (drop (N.to_nat pos) b))
    (if (blen b <? pos + N.of_nat k)%N then Err (Msg m)
     else Ok (take k (drop (N.to_nat pos) b), (pos + N.of_nat k)%N)).
Proof.
  intros Hp. unfold take_n. rewrite length_drop.
  destruct (N.ltb_spec (blen b) (pos + N.of_nat k)); unfold blen in *;
    [rewrite decide_False by lia; done|rewrite decide_True by lia].
  split; [done|]. split; [unfold blen; lia|]. rewrite drop_drop. f_equal. lia.
Qed.

Lemma u64_in_step m pos : (pos <= blen b)%N ->
  in_step b (read_u64_le (Msg m) (drop (N.to_nat pos) b)) (u64_at m b pos).
Proof.
  intros Hp. unfold read_u64_le, u64_at. rewrite usize_add_exact by lia.
  pose proof (take_in_step 8 pos m Hp) as H. change (N.of_nat 8) with 8%N in H.
  destruct (N.ltb_spec (blen b) (pos + 8)); cbn [guard_err].
  - destruct (take_n _ _ _) as [[??]|?]; cbn in *; done.
  - rewrite indices_at_ok by lia. rewrite N.add_0_r. cbn [mbind result_bind].
    destruct (take_n _ _ _) as [[??]|?]; cbn in *; [|done]. naive_solver.
Qed.

Lemma flag_index pos : (pos < blen b)%N -> exists c, b !! N.to_nat pos = Some c /\
  drop (N.to_nat pos) b = c :: drop (N.to_nat (pos + 1)) b.
Proof.
  intros H. destruct (lookup_lt_is_Some_2 b (N.to_nat pos)) as [c Hc]; [unfold blen in H; lia|].
  exists c. split; [done|]. rewrite (drop_S _ _ _ Hc). do 2 f_equal. lia.
Qed.

Lemma strict_in_step e m1 m2 pos : (pos <= blen b)%N -> (e = Panic \/ (pos < blen b)%N) ->
  in_step b (read_flag_strict e (Msg m1) (Msg m2) (drop (N.to_nat pos) b)) (flag_strict_at m1 m2 b pos).
Proof.
  intros Hp He. unfold read_flag_strict, flag_strict_at, index_at.
  destruct (N.lt_ge_cases pos (blen b)) as [Hlt|Hge].
  - destruct (flag_index pos Hlt) as (c & -> & ->). cbn [read_u8 mbind result_bind].
    rewrite usize_add_exact by lia.
    case_bool_decide; [split; [done|split; [lia|done]]|]. case_bool_decide; [|done].
    apply in_step_bind_step; [apply u64_in_step; lia|]. by intros x q Hq.
  - rewrite lookup_ge_None_2 by (unfold blen in Hge; lia). rewrite drop_ge by (unfold blen in Hge; lia).
    destruct He as [->|?]; [done|lia].
Qed.

Lemma lenient_in_step m1 m2 pos : (pos <= blen b)%N ->
  in_step b (read_flag_lenient (Msg m1) (Msg m2) (drop (N.to_nat pos) b)) (flag_lenient_at m1 m2 b pos).
Proof.
  intros Hp. unfold read_flag_lenient, flag_lenient_at, index_at. rewrite usize_add_exact by lia.
  destruct (N.ltb_spec (blen b) (pos + 1)) as [Hge|Hlt]; cbn [guard_err].
  - rewrite drop_ge by (unfold blen in Hge, Hp; lia). done.
  - destruct (flag_index pos ltac:(lia)) as (c & -> & ->). cbn [read_u8 mbind result_bind].
    case_bool_decide; [|split; [done|split; [lia|done]]].
    apply in_step_bind_step; [apply u64_in_step; lia|]. by intros x q Hq.
Qed.

Lemma sized_in_step m1 m2 pos : (pos <= blen b)%N ->
  (pos + 4 + of_le_bytes (take 4 (drop (N.to_nat pos) b)) < 256 ^ N.of_nat w)%N ->
  in_step b (read_sized (Msg m1) (Msg m2) (drop (N.to_nat pos) b)) (sized_at m1 m2 b pos).
Proof.
  intros Hp Hlen. unfold read_sized, read_u32_le, sized_at. rewrite usize_add_exact by lia.
  pose proof (take_in_step 4 pos m1 Hp) as H. change (N.of_nat 4) with 4%N in H.
  destruct (N.ltb_spec (blen b) (pos + 4)); cbn [guard_err].
  - destruct (take_n _ _ _) as [[??]|?]; cbn in *; done.
  - rewrite indices_at_ok by lia. rewrite N.add_0_r. cbn [mbind result_bind].
    rewrite usize_add_exact by lia.
    destruct (take_n _ _ _) as [[x rest]|?]; cbn in H |- *; [|done]. destruct H as (-> & Hq & ->).
    set (len := of_le_bytes _) in *.
    pose proof (take_in_step (N.to_nat len) (pos + 4) m2 Hq) as H'. rewrite N2Nat.id in H'.
    destruct (N.ltb_spec (blen b) (pos + 4 + len)); cbn [guard_err]; [done|].
    unfold slice_at. rewrite (proj2 (N.leb_le _ _)), (proj2 (N.leb_le _ _)) by lia. cbn [andb mbind result_bind].
    replace (pos + 4 + len - (pos + 4))%N with len by lia. done.
Qed.
End Room.
End Indexed.

(** Readers whose own errors are messages never panic. *)
Definition no_panic {A} (r : result parse_error A) : Prop := r <> Err Panic.

Lemma no_panic_bind {A B} (r : result parse_error A) (f : A -> result parse_error B) :
  no_panic r -> (forall a, no_panic (f a)) -> no_panic (r ≫= f).
Proof. unfold no_panic. destruct r as [a|e]; simpl; [auto|]. congruence. Qed.

Lemma no_panic_take n m b : no_panic (take_n n (Msg m) b).
Proof. unfold no_panic, take_n. by case_decide. Qed.

Lemma no_panic_sized m1 m2 b : no_panic (read_sized (Msg m1) (Msg m2) b).
Proof.
  unfold read_sized, read_u32_le. apply no_panic_bind.
  - apply no_panic_bind; [apply no_panic_take|]. by intros [? ?].
  - intros [? ?]. apply no_panic_take.
Qed.

Lemma no_panic_lenient m1 m2 b : no_panic (read_flag_lenient (Msg m1) (Msg m2) b).
Proof.
  unfold read_flag_lenient, read_u64_le. apply no_panic_bind.
  - by destruct b.
  - intros [? ?]. case_bool_decide; [|done].
    repeat apply no_panic_bind; try apply no_panic_take; by intros [? ?].
Qed.

#[export] Hint Resolve no_panic_take no_panic_sized no_panic_lenient no_panic_bind : parse.

Lemma canonical_no_panic b : no_panic (seal_from_canonical_bytes b).
Proof.
  unfold seal_from_canonical_bytes. assert (H : no_panic (seal_read Msg b)).
  { unfold seal_read. apply no_panic_bind; [apply no_panic_sized|]. intros [? ?].
    apply no_panic_bind; [apply no_panic_lenient|]. intros [? ?].
    apply no_panic_bind; [apply no_panic_lenient|]. by intros [? ?]. }
  unfold no_panic in *. destruct (seal_read Msg b); simpl; congruence.
Qed.

(** The deprecated decoder panics when nothing is left where the version flag is read. *)
Lemma strict_no_panic m0 m1 m2 b : no_panic (read_flag_strict (Msg m0) (Msg m1) (Msg m2) b).
Proof.
  unfold read_flag_strict. destruct b as [|c b]; [done|]. cbn. repeat case_bool_decide; try done.
  apply no_panic_bind; [|by intros [? ?]]. apply no_panic_bind; [apply no_panic_take|by intros [? ?]].
Qed.

Lemma strict_ends m0 m1 m2 b nonce : read_flag_strict (Msg m0) (Msg m1) (Msg m2) b = Ok (nonce, []) ->
  b = [Byte.x00] \/ exists n, length n = 8 /\ b = Byte.x01 :: n.
Proof.
  unfold read_flag_strict. destruct b as [|c b]; [done|]. cbn.
  case_bool_decide as H0; [intros [= _ ->]; left; by rewrite H0|]. case_bool_decide as H1; [|done].
  unfold read_u64_le, take_n. case_decide as Hl; [|done]. cbn. intros [= _ Hd]. right. exists b.
  split; [|by rewrite H1]. apply (f_equal length) in Hd. rewrite length_drop in Hd. cbn in Hd. lia.
Qed.

Lemma from_bytes_panics b : seal_from_bytes b = Err Panic <->
  b = [Byte.x00] \/ exists nonce, length nonce = 8 /\ b = Byte.x01 :: nonce.
Proof.
  unfold seal_from_bytes. split.
  - destruct (read_flag_strict (Msg _) _ _ b) as [[nonce rest]|e] eqn:E.
    + destruct rest as [|c rest]; [by intros _; apply strict_ends in E|]. intros H. exfalso. revert H.
      cbn [mbind result_bind]. fold (no_panic (A := SealPoint)). apply no_panic_bind.
      { apply (strict_no_panic "" _ _ (c :: rest)). }
      intros [v rest']. apply no_panic_bind; [apply no_panic_sized|]. intros [id ?].
      unfold guard_err. by case_match.
    + intros H. exfalso. simpl in H. injection H as ->. by apply strict_no_panic in E.
  - intros [->|(n & Hn & ->)]; [done|]. assert (E : forall e : parse_error, read_u64_le e n = Ok (of_le_bytes n, [])).
    { intros e. unfold read_u64_le, take_n. rewrite decide_True by lia. cbn [mbind result_bind].
      by rewrite take_ge, drop_ge by lia. }
    unfold read_flag_strict. simpl. by rewrite E.
Qed.

Lemma canonical_indexed w b : (blen b + 8 < 256 ^ N.of_nat w)%N ->
  (4 + of_le_bytes (take 4 b) < 256 ^ N.of_nat w)%N ->
  seal_from_canonical_at w b = seal_from_canonical_bytes b.
Proof.
  intros Hb Hl. unfold seal_from_canonical_bytes, seal_from_canonical_at, seal_read. symmetry.
  match goal with |- fst <$> (?r ≫= ?f) = _ =>
    transitivity (r ≫= fun x => fst <$> f x); [by destruct r|] end.
  apply (in_step_bind b); [apply (sized_in_step w b Hb _ _ 0); [lia|exact Hl]|]. intros id pos Hp. cbn.
  match goal with |- fst <$> (?r ≫= ?f) = _ =>
    transitivity (r ≫= fun x => fst <$> f x); [by destruct r|] end.
  apply (in_step_bind b); [by apply lenient_in_step|]. intros nonce pos' Hp'. cbn.
  match goal with |- fst <$> (?r ≫= ?f) = _ =>
    transitivity (r ≫= fun x => fst <$> f x); [by destruct r|] end.
  apply (in_step_bind b); [by apply lenient_in_step|]. done.
Qed.

Lemma of_le_bytes_take4 b : (of_le_bytes (take 4 b) < 4294967296)%N.
Proof.
  eapply N.lt_le_trans; [apply of_le_bytes_bound|]. change 4294967296%N with (256 ^ 4)%N.
  apply N.pow_le_mono_r; [done|]. unfold blen. rewrite length_take. lia.
Qed.

Lemma indexed_refines_64 b : (blen b < 2 ^ 63)%N ->
  seal_from_canonical_at 8 b = seal_from_canonical_bytes b /\ seal_from_bytes_at 8 b = seal_from_bytes b.
Proof.
  intros Hb. assert (Hroom : (blen b + 8 < 256 ^ N.of_nat 8)%N) by (change (256 ^ N.of_nat 8)%N with (2 ^ 64)%N; lia).
  split.
  - apply canonical_indexed; [done|]. pose proof (of_le_bytes_take4 b).
    change (256 ^ N.of_nat 8)%N with (2 ^ 64)%N. lia.
  - unfold seal_from_bytes, seal_from_bytes_at. symmetry. destruct (N.eqb_spec (blen b) 0) as [E|E].
    + destruct b; [done|]. unfold blen in E. cbn in E. lia.
    + cbn [guard_err]. apply (in_step_bind b).
      { apply (strict_in_step 8 b Hroom (Msg "empty bytes") _ _ 0); [lia|right; lia]. }
      intros nonce pos Hp. apply (in_step_bind b); [apply strict_in_step; [done|done|by left]|].
      intros version pos' Hp'. apply (in_step_bind b); [|done]. apply sized_in_step; [done|done|].
      pose proof (of_le_bytes_take4 (drop (N.to_nat pos') b)).
      change (256 ^ N.of_nat 8)%N with (2 ^ 64)%N. lia.
Qed.

Lemma canonical_panics_32 b : (blen b < 2 ^ 31)%N ->
  seal_from_canonical_at 4 b = Err Panic <->
  exists id_len rest, b = u32_le id_len ++ rest /\ (4294967292 <= id_len <= u32_max)%N.
Proof.
  intros Hb. assert (Hroom : (blen b + 8 < 256 ^ N.of_nat 4)%N) by (change (256 ^ N.of_nat 4)%N with (2 ^ 32)%N; lia).
  destruct (N.lt_ge_cases (4 + of_le_bytes (take 4 b)) (256 ^ N.of_nat 4)) as [Hl|Hl].
  - rewrite canonical_indexed by done. split; [intros H; by apply canonical_no_panic in H|].
    intros (n & rest & -> & Hn1 & Hn2). exfalso. rewrite take_app_length' in Hl by (by rewrite length_u32_le).
    rewrite of_u32_le in Hl by done. change (256 ^ N.of_nat 4)%N with 4294967296%N in Hl. lia.
  - pose proof (of_le_bytes_take4 b) as Ht. change (256 ^ N.of_nat 4)%N with 4294967296%N in *.
    assert (H4 : 4 <= length b).
    { destruct (Nat.le_gt_cases 4 (length b)) as [|Hs]; [done|]. exfalso.
      pose proof (of_le_bytes_bound (take 4 b)) as Hbd. rewrite take_ge in Hl, Hbd by lia.
      assert (256 ^ blen b <= 256 ^ 3)%N by (apply N.pow_le_mono_r; unfold blen; lia).
      change (256 ^ 3)%N with 16777216%N in *. unfold blen in *. lia. }
    split; [intros _|intros _].
    + exists (of_le_bytes (take 4 b)), (drop 4 b). split; [|unfold u32_max; lia].
      rewrite <- (take_drop 4 b) at 1. f_equal. symmetry. apply u32_le_of_le_bytes.
      rewrite length_take. lia.
    + unfold seal_from_canonical_at, sized_at. rewrite usize_add_exact by (change (256 ^ N.of_nat 4)%N with 4294967296%N; lia).
      rewrite (proj2 (N.ltb_ge _ _)) by (unfold blen; lia). cbn [guard_err].
      rewrite (indices_at_ok 4 b Hroom) by (unfold blen; lia). cbn [N.add N.to_nat drop mbind result_bind].
      set (len := of_le_bytes _) in *.
      assert (Hw : usize_add 4 4 len = (len - 4294967292)%N).
      { unfold usize_add. change (256 ^ N.of_nat 4)%N with 4294967296%N.
        replace (4 + len)%N with (len - 4294967292 + 1 * 4294967296)%N by lia.
        rewrite N.Div0.mod_add. apply N.mod_small. lia. }
      change (0 + 4)%N with 4%N. rewrite Hw. rewrite (proj2 (N.ltb_ge _ _)) by (unfold blen; lia). cbn [guard_err].
      unfold slice_at. rewrite (proj2 (N.leb_gt _ _)) by lia. done.
Qed.

(** ** Properties *)

(** seal points round-trip through both wire forms, for the sizes the
    length prefixes carry (and, in the deprecated form, within the size limit it
    enforces); bytes after the last field are ignored. *)
Theorem seal_roundtrip (s : SealPoint) (junk : bytes) :
  seal_ok s ->
  seal_from_canonical_bytes (seal_to_canonical_bytes s ++ junk) = Ok s /\
  ((blen (seal_id s) <= MAX_SEAL_ID_SIZE)%N -> seal_from_bytes (seal_to_vec s ++ junk) = Ok s).
Proof.
  intros Hs. split.
  - unfold seal_from_canonical_bytes. by rewrite seal_read_app.
  - by apply seal_from_to_vec.
Qed.

(** when the decoders of a seal panic.  With 64-bit [usize]s, on every input of a size a
    slice can have, the decoders that index are the ones that consume suffixes; the
    canonical one never panics, and the deprecated one panics exactly on a nonce flag with its
    nonce and nothing behind it.  With 32-bit ones (wasm32) the canonical decoder panics exactly
    on the inputs whose first four bytes are a length of at least 2^32 - 4: the end of the
    slice wraps around to before its start. *)
Theorem seal_decoders_panic (b : bytes) :
  ((blen b < 2 ^ 63)%N ->
   seal_from_canonical_at 8 b = seal_from_canonical_bytes b /\
   seal_from_bytes_at 8 b = seal_from_bytes b /\
   seal_from_canonical_at 8 b <> Err Panic /\
   (seal_from_bytes_at 8 b = Err Panic <->
    b = [Byte.x00] \/ exists nonce, length nonce = 8 /\ b = Byte.x01 :: nonce)) /\
  ((blen b < 2 ^ 31)%N ->
   seal_from_canonical_at 4 b = Err Panic <->
   exists id_len rest, b = u32_le id_len ++ rest /\ (4294967292 <= id_len <= u32_max)%N).
Proof.
  split.
  - intros Hb. destruct (indexed_refines_64 b Hb) as [H1 H2]. rewrite H1, H2.
    split; [done|]. split; [done|]. split; [apply canonical_no_panic|apply from_bytes_panics].
  - apply canonical_panics_32.
Qed.

(** Commit anchors round-trip through both wire forms. *)
Theorem anchor_roundtrip (a : CommitAnchor) (junk : bytes) :
  anchor_ok a ->
  anchor_from_canonical_bytes (anchor_to_canonical_bytes a ++ junk) = Ok a /\
  ((blen (anchor_id a) <= MAX_ANCHOR_ID_SIZE)%N ->
   (blen (anchor_metadata a) <= MAX_ANCHOR_METADATA_SIZE)%N ->
   anchor_from_bytes (anchor_to_vec a ++ junk) = Ok a).
Proof.
  intros Ha. split; [by apply anchor_from_to_canonical|]. by apply anchor_from_to_vec.
Qed.

(** ** Witnesses *)

Lemma seal_roundtrip_witness :
  seal_from_bytes (seal_to_vec (mkSealPoint [Byte.x61] (Some 7%N) None) ++ [Byte.xff])
  = Ok (mkSealPoint [Byte.x61] (Some 7%N) None).
Proof.
  apply seal_roundtrip; [|by vm_compute].
  split; [by vm_compute|]. split; [|done]. intros n [= <-]. by vm_compute.
Defined.

Lemma seal_decoders_panic_witness :
  seal_from_bytes_at 8 [Byte.x00] = Err Panic /\
  seal_from_canonical_at 4 [Byte.xfc; Byte.xff; Byte.xff; Byte.xff; Byte.x07] = Err Panic.
Proof.
  split.
  - apply (proj1 (seal_decoders_panic [Byte.x00])); [by vm_compute|by left].
  - apply (proj2 (seal_decoders_panic [Byte.xfc; Byte.xff; Byte.xff; Byte.xff; Byte.x07]));
      [by vm_compute|]. exists 4294967292%N, [Byte.x07]. repeat split; by vm_compute.
Defined.

Lemma anchor_roundtrip_witness :
  anchor_from_canonical_bytes
    (anchor_to_canonical_bytes (mkCommitAnchor [Byte.x61] 12 [Byte.x62]) ++ [Byte.xff])
  = Ok (mkCommitAnchor [Byte.x61] 12 [Byte.x62]).
Proof.
  refine (proj1 (anchor_roundtrip (mkCommitAnchor [Byte.x61] 12 [Byte.x62]) [Byte.xff] _)).
  repeat split; by vm_compute.
Defined.

(** * Wire forms of identifiers (csv-protocol/src/wire.rs)

    The storage layers keep digests as hexadecimal strings.  Decoding a string is
    partial, and upper and lower case digits give the same bytes. *)

(** A [HashWire] is its hex string. *)
Notation HashWire := string.

(** [From<Hash> for HashWire] *)
Definition wire_of_hash (h : Hash) : HashWire := of_bytes (hex_encode (b32 h)).

(** [HashWire::as_bytes].  The description the hex crate appends to the message is not
    part of the model. *)
Definition wire_as_bytes (w : HashWire) : result string bytes :=
  ok_or "Invalid hash hex"%string (hex_decode (as_bytes w)).

(** [HashWire::to_hash]: hex, then exactly 32 bytes. *)
Definition wire_to_hash (w : HashWire) : result string Hash :=
  b ← wire_as_bytes w;
  ok_or ("Hash must be 32 bytes, got " +:+ show_nat (length b) +:+ " bytes") (to_b32 b).

(** A [SanadIdWire] is its hex string too, with its own messages. *)
Notation SanadIdWire := string.

(** [SanadIdWire::to_sanad_id] *)
Definition wire_to_sanad_id (w : SanadIdWire) : result string Hash :=
  b ← ok_or "Invalid sanad_id hex"%string (hex_decode (as_bytes w));
  ok_or ("SanadId must be 32 bytes, got " +:+ show_nat (length b) +:+ " bytes") (to_b32 b).

Record SealPointWire := mkSealWire { sw_id : string; sw_nonce : option N; sw_version : option N }.

(** [SealPointWire::from], [SealPoint::try_from] *)
Definition seal_to_wire (s : SealPoint) : SealPointWire :=
  mkSealWire (of_bytes (hex_encode (seal_id s))) (seal_nonce s) (seal_version s).
Definition seal_of_wire (w : SealPointWire) : result string SealPoint :=
  id ← ok_or "Invalid seal point id hex"%string (hex_decode (as_bytes (sw_id w)));
  SealPoint_new id (sw_nonce w) (sw_version w).

(** ** Lemmas *)

Lemma wire_to_of_hash h : wire_to_hash (wire_of_hash h) = Ok h.
Proof.
  unfold wire_to_hash, wire_as_bytes, wire_of_hash.
  by rewrite as_bytes_of_bytes, hex_decode_encode; cbn; rewrite to_b32_b32.
Qed.

Lemma wire_to_of_sanad_id h : wire_to_sanad_id (wire_of_hash h) = Ok h.
Proof.
  unfold wire_to_sanad_id, wire_of_hash.
  by rewrite as_bytes_of_bytes, hex_decode_encode; cbn; rewrite to_b32_b32.
Qed.

Lemma wire_of_hash_inj h h' : wire_of_hash h = wire_of_hash h' -> h = h'.
Proof. intros E. apply (f_equal wire_to_hash) in E. rewrite !wire_to_of_hash in E. by injection E. Qed.
