(* ===== verification/Commitment.v ===== *)
(** * Commitments (csv-hash/src/commit_mux.rs, commitment.rs; the wire form in
    csv-protocol/src/wire.rs)

    A commitment ties a state transition to an anchor.  Several protocols share one
    anchor through a multiplexed Merkle tree of (protocol, commitment) leaves: its
    root, the proof of a protocol's leaf, the check of such a proof. *)

From S2P Require Import Prelude Ord Bytes Hashing Merkle Text Seal.

(** ** The multiplexed tree *)

Record MuxLeaf := mkMuxLeaf { ml_protocol_id : Bytes32; ml_commitment : Hash }.
Record MerkleBranchNode := mkBranchNode { bn_hash : Hash; bn_is_left : bool }.
Record MuxProof := mkMuxProof {
  mp_protocol_id : Bytes32;
  mp_commitment : Hash;
  mp_branch : list MerkleBranchNode;
  mp_leaf_index : nat
}.
(** A [CommitMux] is its list of leaves. *)
Notation CommitMux := (list MuxLeaf).

Section Mux.
Variable sha256 : bytes -> Bytes32.
Local Notation csv_hash tag := (csv_tagged_hash sha256 (as_bytes tag)).

(** [MuxLeaf::hash], [hash_pair] *)
Definition mux_leaf_hash (l : MuxLeaf) : Hash :=
  csv_hash "mpc-leaf" (b32 (ml_protocol_id l) ++ b32 (ml_commitment l)).
Definition hash_pair (left right : Hash) : Hash := csv_hash "mpc-internal" (b32 left ++ b32 right).

(** [CommitMux::root].  The last index is in range: the loop keeps a non-empty level
    non-empty ([mux_root_tree]). *)
Definition mux_root (m : CommitMux) : Hash :=
  match m with
  | [] => Hash.zero
  | [l] => mux_leaf_hash l
  | _ => hd Hash.zero (collapse hash_pair (length m) (map mux_leaf_hash m))
  end.

(** The levels [prove] collects, the leaves first. *)
Fixpoint mux_levels (fuel : nat) (hashes : list Hash) : list (list Hash) :=
  hashes :: match fuel with
            | S fuel => if 1 <? length hashes then mux_levels fuel (pair_up hash_pair hashes) else []
            | O => []
            end.

(** Its walk up the levels, from [idx]. *)
Fixpoint mux_branch (levels : list (list Hash)) (idx : nat) : list MerkleBranchNode :=
  match levels with
  | [] => []
  | level :: levels' =>
      let '(sibling_idx, is_left) := if Nat.even idx then (S idx, false) else (pred idx, true) in
      match level !! sibling_idx with
      | Some h => mkBranchNode h is_left :: mux_branch levels' (idx / 2)
      | None => mux_branch levels' (idx / 2)
      end
  end.

(** [CommitMux::prove]: the first leaf of the protocol, and every level but the root. *)
Definition mux_prove (m : CommitMux) (protocol_id : Bytes32) : option MuxProof :=
  '(leaf_index, leaf) ← list_find (fun l => ml_protocol_id l = protocol_id) m;
  let levels := mux_levels (length m) (map mux_leaf_hash m) in
  Some (mkMuxProof (ml_protocol_id leaf) (ml_commitment leaf)
          (mux_branch (take (length levels - 1) levels) leaf_index) leaf_index).

(** [contains_protocol] *)
Definition contains_protocol (m : CommitMux) (protocol_id : Bytes32) : bool :=
  existsb (fun l => bool_decide (ml_protocol_id l = protocol_id)) m.

(** The loop of [MuxProof::verify]. *)
Definition climb_step (current : Hash) (n : MerkleBranchNode) : Hash :=
  if bn_is_left n then hash_pair (bn_hash n) current else hash_pair current (bn_hash n).
Definition climb (current : Hash) (branch : list MerkleBranchNode) : Hash :=
  fold_left climb_step branch current.

(** [MuxProof::verify] *)
Definition mux_verify (p : MuxProof) (root : Hash) : bool :=
  bool_decide (climb (mux_leaf_hash (mkMuxLeaf (mp_protocol_id p) (mp_commitment p)))
                 (mp_branch p) = root).
End Mux.

(** ** Commitments *)

Definition COMMITMENT_VERSION : byte := Byte.x02.

Record Commitment := mkCommitment {
  cm_version : byte;
  cm_protocol_id : Hash;
  cm_mpc_root : Hash;
  cm_contract_id : Hash;
  cm_previous : Hash;
  cm_payload_hash : Hash;
  cm_seal_id : Hash;
  cm_domain_separator : Bytes32
}.

Section Commitments.
Variable sha256 : bytes -> Bytes32.
Local Notation csv_hash tag := (csv_tagged_hash sha256 (as_bytes tag)).

(** [compute_seal_id]; the encoding of a seal cannot fail. *)
Definition compute_seal_id (s : SealPoint) : Hash := csv_hash "seal-id" (seal_to_canonical_bytes s).

(** [Commitment::new] *)
Definition Commitment_new (protocol_id mpc_root contract_id previous payload : Hash)
    (seal : SealPoint) (domain_separator : Bytes32) : Commitment :=
  mkCommitment COMMITMENT_VERSION protocol_id mpc_root contract_id previous payload
    (compute_seal_id seal) domain_separator.

(** [Commitment::simple]: a tree with one protocol. *)
Definition Commitment_simple (protocol_id commitment_hash contract_id : Hash) (seal : SealPoint)
    (domain_separator : Bytes32) : Commitment :=
  Commitment_new protocol_id (mux_root sha256 [mkMuxLeaf protocol_id commitment_hash])
    contract_id Hash.zero commitment_hash seal domain_separator.

(** [Commitment::to_canonical_bytes] *)
Definition commitment_bytes (c : Commitment) : bytes :=
  [cm_version c] ++ b32 (cm_protocol_id c) ++ b32 (cm_mpc_root c) ++ b32 (cm_contract_id c) ++
  b32 (cm_previous c) ++ b32 (cm_payload_hash c) ++ b32 (cm_seal_id c) ++
  b32 (cm_domain_separator c).

(** [Commitment::commitment_hash] and its alias [hash] *)
Definition commitment_hash (c : Commitment) : Hash :=
  csv_hash "commitment-final"
    (b32 (domain_hash sha256 "csv.transfer.commitment.v1" (b32 (cm_domain_separator c))) ++
     b32 (csv_hash "commitment-hash" (commitment_bytes c))).

Definition cm_is_genesis (c : Commitment) : bool := bool_decide (cm_previous c = Hash.zero).
Definition cm_is_valid (c : Commitment) : bool := bool_decide (cm_version c = COMMITMENT_VERSION).
End Commitments.

(** ** The wire form *)

Record CommitmentWire := mkCommitmentWire {
  cw_version : byte;
  cw_protocol_id : string;
  cw_mpc_root : string;
  cw_contract_id : string;
  cw_previous : string;
  cw_payload_hash : string;
  cw_seal_id : string;
  cw_domain_separator : string
}.

(** [From<Commitment> for CommitmentWire] *)
Definition commitment_to_wire (c : Commitment) : CommitmentWire :=
  mkCommitmentWire (cm_version c) (wire_of_hash (cm_protocol_id c)) (wire_of_hash (cm_mpc_root c))
    (wire_of_hash (cm_contract_id c)) (wire_of_hash (cm_previous c))
    (wire_of_hash (cm_payload_hash c)) (wire_of_hash (cm_seal_id c))
    (wire_of_hash (cm_domain_separator c)).

(** A 32-byte field with the messages of [TryFrom]. *)
Definition decode_field (e_hex e_len : string) (w : string) : result string Bytes32 :=
  b ← ok_or e_hex (hex_decode (as_bytes w)); ok_or e_len (to_b32 b).
Definition decode_hash_field : string -> result string Hash :=
  decode_field "Invalid hex" "Hash must be 32 bytes".

(** [TryFrom<CommitmentWire> for Commitment] *)
Definition commitment_of_wire (w : CommitmentWire) : result string Commitment :=
  protocol_id ← decode_hash_field (cw_protocol_id w);
  mpc_root ← decode_hash_field (cw_mpc_root w);
  contract_id ← decode_hash_field (cw_contract_id w);
  previous ← decode_hash_field (cw_previous w);
  payload ← decode_hash_field (cw_payload_hash w);
  seal_id ← decode_hash_field (cw_seal_id w);
  separator ← decode_field "Invalid domain_separator hex" "domain_separator must be 32 bytes"
                (cw_domain_separator w);
  Ok (mkCommitment (cw_version w) protocol_id mpc_root contract_id previous payload seal_id separator).

(** ** Lemmas *)

Lemma b32_pair_inj (x y x' y' : Bytes32) : b32 x ++ b32 y = b32 x' ++ b32 y' -> x = x' /\ y = y'.
Proof. intros [-> H%b32_inj]%b32_app_inj. done. Qed.

Section MuxLemmas.
Variable sha256 : bytes -> Bytes32.

(** What is hashed for a leaf and for a pair of nodes. *)
Definition leaf_hashed (l : MuxLeaf) : list bytes :=
  csv_hashed sha256 (as_bytes "mpc-leaf") (b32 (ml_protocol_id l) ++ b32 (ml_commitment l)).
Definition pair_hashed (a b : Hash) : list bytes :=
  csv_hashed sha256 (as_bytes "mpc-internal") (b32 a ++ b32 b).

(** Among which strings a collision is looked for. *)
Section Hashed.
Variable hashed : list bytes.
Hint Unfold leaf_hashed pair_hashed : hashed.

Lemma mux_leaf_hash_inj l l' : leaf_hashed l ⊆ hashed -> leaf_hashed l' ⊆ hashed ->
  mux_leaf_hash sha256 l = mux_leaf_hash sha256 l' -> l = l' \/ collision_in sha256 hashed.
Proof.
  unfold mux_leaf_hash. intros Sl Sl' H. hash_inj H. left.
  apply b32_pair_inj in H as [H1 H2]. destruct l, l'. cbn in *. by subst.
Qed.

Lemma hash_pair_inj a b a' b' : pair_hashed a b ⊆ hashed -> pair_hashed a' b' ⊆ hashed ->
  hash_pair sha256 a b = hash_pair sha256 a' b' -> (a = a' /\ b = b') \/ collision_in sha256 hashed.
Proof. unfold hash_pair. intros Sp Sp' H. hash_inj H. left. by apply b32_pair_inj. Qed.

Lemma leaf_not_pair l a b : leaf_hashed l ⊆ hashed -> pair_hashed a b ⊆ hashed ->
  mux_leaf_hash sha256 l = hash_pair sha256 a b -> collision_in sha256 hashed.
Proof. unfold mux_leaf_hash, hash_pair. intros Sl Sp H. hash_names H. Qed.
End Hashed.

(** The tree a root stands for. *)
Inductive mux_tree := MLeaf (l : MuxLeaf) | MNode (a b : mux_tree).
Fixpoint tree_hash (t : mux_tree) : Hash :=
  match t with
  | MLeaf l => mux_leaf_hash sha256 l
  | MNode a b => hash_pair sha256 (tree_hash a) (tree_hash b)
  end.
Fixpoint tree_leaves (t : mux_tree) : list MuxLeaf :=
  match t with MLeaf l => [l] | MNode a b => tree_leaves a ++ tree_leaves b end.

Lemma pair_up_leaves l : flat_map tree_leaves (pair_up MNode l) = flat_map tree_leaves l.
Proof.
  induction l as [|x|x y l IH] using pair_ind; [done|done|]. simpl. by rewrite IH, app_assoc.
Qed.

Lemma collapse_leaves fuel l : flat_map tree_leaves (collapse MNode fuel l) = flat_map tree_leaves l.
Proof.
  revert l. induction fuel as [|fuel IH]; intros l; [done|]. cbn [collapse].
  destruct (1 <? length l); [|done]. by rewrite IH, pair_up_leaves.
Qed.

Lemma mux_root_collapse m :
  m <> [] -> collapse (hash_pair sha256) (length m) (map (mux_leaf_hash sha256) m)
             = [mux_root sha256 m].
Proof.
  intros Hm. destruct (collapse_single (hash_pair sha256) (length m) (map (mux_leaf_hash sha256) m))
    as [r Hr]; [by destruct m|by rewrite length_map|].
  rewrite Hr. destruct m as [|x [|y m]]; [done|by injection Hr as <-|].
  unfold mux_root. by rewrite Hr.
Qed.

(** The tree that the root of a list of leaves stands for, and what is hashed for it. *)
Definition mux_tree_of (m : CommitMux) : option mux_tree := head (collapse MNode (length m) (map MLeaf m)).
Fixpoint mux_tree_hashed (t : mux_tree) : list bytes :=
  match t with
  | MLeaf l => leaf_hashed l
  | MNode a b => pair_hashed (tree_hash a) (tree_hash b) ++ mux_tree_hashed a ++ mux_tree_hashed b
  end.
Definition mux_hashed (m : CommitMux) : list bytes := from_option mux_tree_hashed [] (mux_tree_of m).
(** What is hashed to climb a branch. *)
Fixpoint climb_hashed (current : Hash) (branch : list MerkleBranchNode) : list bytes :=
  match branch with
  | [] => []
  | n :: branch =>
      (if bn_is_left n then pair_hashed (bn_hash n) current else pair_hashed current (bn_hash n))
      ++ climb_hashed (climb_step sha256 current n) branch
  end.

Lemma mux_root_tree m :
  m <> [] -> exists t, mux_hashed m = mux_tree_hashed t /\ tree_leaves t = m /\ tree_hash t = mux_root sha256 m.
Proof.
  intros Hm. destruct (collapse_single MNode (length m) (map MLeaf m)) as [t Ht];
    [by destruct m|by rewrite length_map|]. exists t. unfold mux_hashed, mux_tree_of. rewrite Ht.
  split; [done|]. split.
  - pose proof (collapse_leaves (length m) (map MLeaf m)) as H. rewrite Ht in H. cbn in H.
    rewrite app_nil_r in H. rewrite H. clear. induction m; cbn; congruence.
  - pose proof (mux_root_collapse m Hm) as H.
    rewrite <- (map_map MLeaf tree_hash m : map tree_hash (map MLeaf m) = map (mux_leaf_hash sha256) m) in H.
    rewrite <- (collapse_map tree_hash MNode) in H by done. rewrite Ht in H. by injection H.
Qed.

Section Trees.
Variable hashed : list bytes.

Lemma tree_hash_inj t t' : mux_tree_hashed t ⊆ hashed -> mux_tree_hashed t' ⊆ hashed ->
  tree_hash t = tree_hash t' -> t = t' \/ collision_in sha256 hashed.
Proof.
  revert t'. induction t as [l|a IHa b IHb]; intros [l'|a' b'] S S' H; cbn [tree_hash mux_tree_hashed] in *;
    rewrite ?list_subseteq_app_iff_l in S; rewrite ?list_subseteq_app_iff_l in S'.
  - destruct (mux_leaf_hash_inj hashed _ _ S S' H) as [->|?]; auto.
  - right. by eapply leaf_not_pair; [|apply S'|].
  - right. symmetry in H. by eapply leaf_not_pair; [|apply S|].
  - destruct S as (Sp & Sa & Sb), S' as (Sp' & Sa' & Sb').
    destruct (hash_pair_inj hashed _ _ _ _ Sp Sp' H) as [[Ha Hb]|?]; [|by right].
    destruct (IHa _ Sa Sa' Ha) as [->|?], (IHb _ Sb Sb' Hb) as [->|?]; auto.
Qed.

(** Whatever the branch says, what it climbs from is a node of the tree. *)
Lemma climb_inside t branch current : mux_tree_hashed t ⊆ hashed -> climb_hashed current branch ⊆ hashed ->
  climb sha256 current branch = tree_hash t ->
  (exists s, tree_hash s = current /\ tree_leaves s ⊆ tree_leaves t /\ mux_tree_hashed s ⊆ hashed)
  \/ collision_in sha256 hashed.
Proof.
  intros St. revert current. induction branch as [|n branch IH]; intros current Sb H.
  - left. exists t. by rewrite <- H.
  - cbn [climb_hashed] in Sb. apply list_subseteq_app_iff_l in Sb as [Sn Sb].
    cbn in H. destruct (IH _ Sb H) as [(s & Hs & Hsub & Ss)|?]; [|by right].
    unfold climb_step in Hs. destruct s as [l|a b]; cbn [tree_hash mux_tree_hashed tree_leaves] in *.
    + right. destruct (bn_is_left n); by eapply leaf_not_pair; [exact Ss|exact Sn|].
    + rewrite !list_subseteq_app_iff_l in Ss. destruct Ss as (Sp & Sa & Sc).
      destruct (bn_is_left n); apply (hash_pair_inj hashed) in Hs as [[H1 H2]|?]; try done; try (by right); left;
        [exists b|exists a]; (split; [done|set_solver]).
Qed.
End Trees.

(** The branch [prove] collects climbs to where the loop ends. *)
Lemma mux_branch_climbs fuel l idx a :
  length l <= fuel -> l !! idx = Some a ->
  let levels := mux_levels sha256 fuel l in
  collapse (hash_pair sha256) fuel l
  = [climb sha256 a (mux_branch (take (length levels - 1) levels) idx)].
Proof.
  revert l idx a. induction fuel as [|fuel IH]; intros l idx a Hf Ha.
  - destruct l; simpl in Hf; [done|lia].
  - cbn [collapse mux_levels]. destruct (Nat.ltb_spec 1 (length l)) as [Hlt|Hge].
    + pose proof (pair_up_shrinks (hash_pair sha256) l Hlt) as Hsh.
      pose proof (pair_up_lookup (hash_pair sha256) l idx a Ha) as Hup.
      rewrite (IH _ _ _ (ltac:(lia) : length (pair_up (hash_pair sha256) l) <= fuel) Hup). clear IH Hup.
      destruct (mux_levels sha256 fuel (pair_up (hash_pair sha256) l)) as [|lv levels] eqn:E;
        [by destruct fuel|].
      cbn [length]. rewrite !Nat.sub_1_r. cbn [pred]. rewrite firstn_cons. cbn [mux_branch].
      destruct (Nat.even idx) eqn:Ev; [by destruct (l !! S idx)|].
      by destruct (l !! pred idx).
    + destruct l as [|r [|r' l]]; simpl in Hge; [done| |lia].
      destruct idx; [|done]. by injection Ha as ->.
Qed.
End MuxLemmas.

Lemma pf_seal_canonical : PrefixFree seal_ok seal_to_canonical_bytes.
Proof.
  intros s s' k l Hs Hs' H. apply (f_equal (seal_read Msg)) in H.
  rewrite !seal_read_app in H by done. by injection H.
Qed.

Lemma decode_field_wire e_hex e_len h : decode_field e_hex e_len (wire_of_hash h) = Ok h.
Proof.
  unfold decode_field, wire_of_hash. rewrite as_bytes_of_bytes, hex_decode_encode. cbn.
  by rewrite to_b32_b32.
Qed.

(** Storage keeps a commitment whole. *)
Lemma commitment_wire_roundtrip c : commitment_of_wire (commitment_to_wire c) = Ok c.
Proof.
  unfold commitment_of_wire, commitment_to_wire, decode_hash_field. cbn.
  rewrite !decode_field_wire. by destruct c.
Qed.

(** ** Theorems *)

(** Multiplexing is complete.  [prove] answers exactly for the protocols that have a
    leaf, with the commitment of the first of them, and its proof verifies against the
    root. *)
Theorem mux_proofs_complete sha256 (m : CommitMux) (pid : Bytes32) :
  match mux_prove sha256 m pid with
  | None => contains_protocol m pid = false
  | Some p =>
      contains_protocol m pid = true /\ mp_protocol_id p = pid /\
      m !! mp_leaf_index p = Some (mkMuxLeaf pid (mp_commitment p)) /\
      (forall i l, i < mp_leaf_index p -> m !! i = Some l -> ml_protocol_id l <> pid) /\
      mux_verify sha256 p (mux_root sha256 m) = true
  end.
Proof.
  unfold mux_prove, contains_protocol.
  destruct (list_find _ m) as [[i leaf]|] eqn:E; cbn.
  - apply list_find_Some in E as (Hi & Hpid & Hfirst). split; [|split; [done|split; [|split]]].
    + apply existsb_exists. exists leaf. rewrite bool_decide_true by done. split; [|done].
      apply list_elem_of_In. by eapply list_elem_of_lookup_2.
    + rewrite Hi. destruct leaf. cbn in *. by subst.
    + intros j l Hj Hl. by eapply Hfirst.
    + apply bool_decide_eq_true. cbn.
      pose proof (mux_branch_climbs sha256 (length m) (map (mux_leaf_hash sha256) m) i
                    (mux_leaf_hash sha256 leaf)) as H.
      rewrite length_map, list_lookup_fmap, Hi in H. specialize (H ltac:(done) ltac:(done)).
      rewrite mux_root_collapse in H by (by destruct m). injection H as ->. by destruct leaf.
  - apply list_find_None in E. apply Bool.not_true_is_false. intros H.
    apply existsb_exists in H as (l & Hl%list_elem_of_In & Hd%bool_decide_eq_true).
    rewrite Forall_forall in E. by apply (E l).
Qed.

(** What is hashed to verify a proof. *)
Definition mux_proof_hashed (sha256 : bytes -> Bytes32) (p : MuxProof) : list bytes :=
  let l := mkMuxLeaf (mp_protocol_id p) (mp_commitment p) in
  leaf_hashed sha256 l ++ climb_hashed sha256 (mux_leaf_hash sha256 l) (mp_branch p).

(** Multiplexing is sound.  A proof that verifies against the root of a tree, with
    whatever branch, is for one of its leaves, so a protocol proves no commitment but
    its own; and two trees with the same root have the same leaves in the same order; or two
    of the strings hashed for the trees and the branch collide. *)
Theorem mux_root_sound sha256 (m m' : CommitMux) (p : MuxProof) (Hm : m <> []) (Hm' : m' <> []) :
  (mux_verify sha256 p (mux_root sha256 m) = true ->
   mkMuxLeaf (mp_protocol_id p) (mp_commitment p) ∈ m \/
   collision_in sha256 (mux_hashed sha256 m ++ mux_proof_hashed sha256 p)) /\
  (mux_root sha256 m = mux_root sha256 m' ->
   m = m' \/ collision_in sha256 (mux_hashed sha256 m ++ mux_hashed sha256 m')).
Proof.
  destruct (mux_root_tree sha256 m Hm) as (t & -> & Hl & <-).
  destruct (mux_root_tree sha256 m' Hm') as (t' & -> & Hl' & <-). split.
  - intros H%bool_decide_eq_true. set (hashed := _ ++ mux_proof_hashed sha256 p).
    assert (Sl : leaf_hashed sha256 (mkMuxLeaf (mp_protocol_id p) (mp_commitment p)) ⊆ hashed)
      by (unfold hashed, mux_proof_hashed; set_solver).
    assert (St : mux_tree_hashed sha256 t ⊆ hashed) by set_solver.
    assert (Sc : climb_hashed sha256 _ (mp_branch p) ⊆ hashed)
      by (unfold hashed, mux_proof_hashed; intros x Hx; apply elem_of_app; right; apply elem_of_app; right; exact Hx).
    clearbody hashed.
    destruct (climb_inside sha256 hashed _ _ _ St Sc H) as [(s & Hs & Hsub & Ss)|?]; [|by right].
    destruct s as [l|a b]; cbn [tree_hash mux_tree_hashed] in *.
    + apply (mux_leaf_hash_inj sha256 hashed) in Hs as [->|?]; [left|by right|done..].
      rewrite <- Hl. set_solver.
    + right. rewrite !list_subseteq_app_iff_l in Ss. by eapply leaf_not_pair; [exact Sl|apply Ss|].
  - intros H. apply (tree_hash_inj sha256 (mux_tree_hashed sha256 t ++ mux_tree_hashed sha256 t')) in H
      as [E|?]; [left; congruence|by right|set_solver..].
Qed.

(** What is hashed for a commitment made over a seal. *)
Definition commitment_hashed (sha256 : bytes -> Bytes32) (c : Commitment) (seal : SealPoint) : list bytes :=
  [csv_preimage sha256 (as_bytes "commitment-final")
     (b32 (domain_hash sha256 "csv.transfer.commitment.v1" (b32 (cm_domain_separator c))) ++
      b32 (csv_tagged_hash sha256 (as_bytes "commitment-hash") (commitment_bytes c)));
   csv_preimage sha256 (as_bytes "commitment-hash") (commitment_bytes c);
   csv_preimage sha256 (as_bytes "seal-id") (seal_to_canonical_bytes seal)].

(** The hash of a commitment binds everything it was made from, the seal with its
    nonce and version included: two commitments built by the constructor with one hash
    have the same parts, or two of the strings hashed for the two collide. *)
Theorem commitment_hash_binds sha256 (pid root contract prev payload sep : Bytes32)
    (pid' root' contract' prev' payload' sep' : Bytes32) (seal seal' : SealPoint)
    (Hs : seal_ok seal) (Hs' : seal_ok seal') :
  let c := Commitment_new sha256 pid root contract prev payload seal sep in
  let c' := Commitment_new sha256 pid' root' contract' prev' payload' seal' sep' in
  commitment_hash sha256 c = commitment_hash sha256 c' ->
  (pid, root, contract, prev, payload, seal, sep)
  = (pid', root', contract', prev', payload', seal', sep') \/
  collision_in sha256 (commitment_hashed sha256 c seal ++ commitment_hashed sha256 c' seal').
Proof.
  cbn zeta. unfold commitment_hash, commitment_hashed. intros H. hash_inj H.
  apply b32_pair_inj in H as [_ H]. hash_inj H.
  unfold commitment_bytes in H. cbn [Commitment_new cm_version cm_protocol_id cm_mpc_root
    cm_contract_id cm_previous cm_payload_hash cm_seal_id cm_domain_separator] in H.
  injection H as H.
  repeat (apply b32_app_inj in H as [-> H]). apply b32_app_inj in H as [Hseal H%b32_inj].
  unfold compute_seal_id in Hseal. hash_inj Hseal.
  pose proof (prefix_free_inj seal_ok _ (PrefixFree0 := pf_seal_canonical) _ _ Hs Hs' Hseal) as ->.
  left. by rewrite H.
Qed.

(** ** Witnesses *)

Definition demo_mux : CommitMux :=
  [mkMuxLeaf (fill32 Byte.x01) (fill32 Byte.x11); mkMuxLeaf (fill32 Byte.x02) (fill32 Byte.x12);
   mkMuxLeaf (fill32 Byte.x03) (fill32 Byte.x13)].
Definition demo_mux_proof : MuxProof :=
  mkMuxProof (fill32 Byte.x03) (fill32 Byte.x13)
    [mkBranchNode (hash_pair toy_hash (mux_leaf_hash toy_hash (mkMuxLeaf (fill32 Byte.x01) (fill32 Byte.x11)))
                     (mux_leaf_hash toy_hash (mkMuxLeaf (fill32 Byte.x02) (fill32 Byte.x12)))) true] 2.

Lemma mux_root_sound_witness :
  mux_prove toy_hash demo_mux (fill32 Byte.x03) = Some demo_mux_proof /\
  (mkMuxLeaf (fill32 Byte.x03) (fill32 Byte.x13) ∈ demo_mux \/
   collision_in toy_hash (mux_hashed toy_hash demo_mux ++ mux_proof_hashed toy_hash demo_mux_proof)).
Proof.
  split; [by vm_compute|].
  destruct (mux_root_sound toy_hash demo_mux [mkMuxLeaf zero32 zero32] demo_mux_proof
              ltac:(done) ltac:(done)) as [H _].
  apply H. vm_compute. reflexivity.
Defined.

Definition demo_commitment_seal : SealPoint := mkSealPoint [Byte.x07] (Some 3%N) None.

Lemma commitment_hash_binds_witness :
  seal_ok demo_commitment_seal /\
  ((zero32, zero32, zero32, zero32, zero32, demo_commitment_seal, zero32)
   = (zero32, zero32, zero32, zero32, zero32, demo_commitment_seal, zero32) \/
   let hashed := commitment_hashed toy_hash (Commitment_new toy_hash zero32 zero32 zero32 zero32 zero32
                   demo_commitment_seal zero32) demo_commitment_seal in
   collision_in toy_hash (hashed ++ hashed)).
Proof.
  assert (Hs : seal_ok demo_commitment_seal).
  { split; [by vm_compute|]. split; [|done]. intros n [= <-]. by vm_compute. }
  split; [exact Hs|].
  exact (commitment_hash_binds toy_hash zero32 zero32 zero32 zero32 zero32 zero32
           zero32 zero32 zero32 zero32 zero32 zero32 demo_commitment_seal demo_commitment_seal
           Hs Hs eq_refl).
Defined.
