(* ===== verification/CrossChain.v ===== *)
(** * Cross-chain transfers (csv-protocol/src/cross_chain.rs)

    Hash algorithms and their domain tags, transfer states with their wire form,
    inclusion proofs by chain, the persisted registry entry with its wire form, the
    registry of transfers and the standard verifier.  The hash crates are
    parameters, and so is [str::to_lowercase], which [ChainId::new] applies. *)

From S2P Require Import Prelude Ord Bytes Hashing Dag DagCodec Text Seal Codec.

(** ** Errors *)

Inductive CrossChainError :=
| AlreadyLocked
| AlreadyMinted
| InvalidInclusionProof
| InsufficientFinality (have need : N)
| InvalidOwnership
| LockEventMismatch
| RegistryError (m : string)
| UnsupportedChainPair (src dst : string)
| LeaseError (m : string)
| ProofVerificationFailed (m : string).

(** ** Hash algorithms *)

Inductive CrossChainHashAlgorithm := HSha256 | HDoubleSha256 | HKeccak256 | HSha3_256 | HBlake2b256.
Inductive CrossChainDomain :=
| LockEventCommitment | StateRoot | ProofBinding | FinalityAttestation.

Global Instance CrossChainHashAlgorithm_eq_dec : EqDecision CrossChainHashAlgorithm.
Proof. solve_decision. Defined.
Global Instance CrossChainDomain_eq_dec : EqDecision CrossChainDomain.
Proof. solve_decision. Defined.

(** [CrossChainHashAlgorithm::for_chain] *)
Definition algorithm_for_chain (chain : string) : result CrossChainError CrossChainHashAlgorithm :=
  if bool_decide (chain = "bitcoin"%string) then Ok HDoubleSha256
  else if bool_decide (chain = "ethereum"%string) then Ok HKeccak256
  else if bool_decide (chain = "solana"%string) then Ok HSha256
  else if bool_decide (chain = "aptos"%string) then Ok HSha3_256
  else if bool_decide (chain = "sui"%string) then Ok HBlake2b256
  else Err (UnsupportedChainPair chain chain).

(** [CrossChainDomain::as_str] *)
Definition domain_str (d : CrossChainDomain) : string :=
  match d with
  | LockEventCommitment => "lock-commitment"
  | StateRoot => "state-root"
  | ProofBinding => "proof-binding"
  | FinalityAttestation => "finality-attestation"
  end.

(** The crates [sha2], [sha3] and [blake2].  BLAKE2b gives 64 bytes, of which the
    program keeps the first 32. *)
Record NativeHashes := mkNativeHashes {
  nh_sha256 : bytes -> Bytes32;
  nh_keccak256 : bytes -> Bytes32;
  nh_sha3_256 : bytes -> Bytes32;
  nh_blake2b512 : bytes -> Bytes32 * Bytes32
}.

Section Hashes.
Variable crates : NativeHashes.

(** [CrossChainHashAlgorithm::hash_bytes] and [raw_hash], which have the same body. *)
Definition hash_bytes (a : CrossChainHashAlgorithm) (b : bytes) : Hash :=
  match a with
  | HSha256 => nh_sha256 crates b
  | HDoubleSha256 => nh_sha256 crates (b32 (nh_sha256 crates b))
  | HKeccak256 => nh_keccak256 crates b
  | HSha3_256 => nh_sha3_256 crates b
  | HBlake2b256 => fst (nh_blake2b512 crates b)
  end.
Definition raw_hash := hash_bytes.

(** [format!("csv-cross-chain-v1:{chain}:{domain}")] *)
Definition domain_tag_of (chain : string) (d : CrossChainDomain) : string :=
  "csv-cross-chain-v1:" +:+ chain +:+ ":" +:+ domain_str d.

(** [CrossChainHashAlgorithm::hash_bytes_domain] *)
Definition hash_bytes_domain (a : CrossChainHashAlgorithm) (chain : string)
    (d : CrossChainDomain) (b : bytes) : Hash :=
  csv_tagged_hash (nh_sha256 crates) (as_bytes (domain_tag_of chain d)) (b32 (raw_hash a b)).

(** What SHA-256 is applied to there. *)
Definition domain_hashed (a : CrossChainHashAlgorithm) (chain : string)
    (d : CrossChainDomain) (b : bytes) : list bytes :=
  csv_hashed (nh_sha256 crates) (as_bytes (domain_tag_of chain d)) (b32 (raw_hash a b)).
End Hashes.

(** ** Transfer states *)

Inductive TransferState :=
| Locked (source_tx : string) (lock_height : N)
| AwaitingFinality (confirmations_needed confirmations_have : N)
| BuildingProof
| ProofReady (bundle_bytes : option bytes)
| Minting (dest_tx : option string)
| Complete (dest_tx : string) (dest_seal : SealPoint)
| Failed (reason : string) (recoverable : bool).

Definition bool_byte (b : bool) : byte := if b then Byte.x01 else Byte.x00.
Definition text_sized (s : string) : bytes := sized (as_bytes s).
Definition flagged (o : option bytes) : bytes :=
  match o with Some b => Byte.x01 :: sized b | None => [Byte.x00] end.

(** [TransferState::to_canonical_bytes], which cannot fail. *)
Definition state_to_canonical_bytes (s : TransferState) : bytes :=
  match s with
  | Locked tx h => Byte.x00 :: text_sized tx ++ u64_le h
  | AwaitingFinality need have => Byte.x01 :: u32_le need ++ u32_le have
  | BuildingProof => [Byte.x02]
  | ProofReady b => Byte.x03 :: flagged b
  | Minting tx => Byte.x04 :: flagged (as_bytes <$> tx)
  | Complete tx seal =>
      Byte.x05 :: text_sized tx ++ sized (seal_id seal) ++ opt_u64_bytes (seal_nonce seal) ++
      opt_u64_bytes (seal_version seal)
  | Failed reason rec => Byte.x06 :: text_sized reason ++ [bool_byte rec]
  end.

(** [bytes[pos] != 0] *)
Definition read_flag (e : string) (b : bytes) : result string (bool * bytes) :=
  '(f, rest) ← read_u8 e b; Ok (negb (bool_decide (f = Byte.x00)), rest).

(** A length-prefixed string whose name appears in the three errors. *)
Definition read_text (name : string) (b : bytes) : result string (string * bytes) :=
  '(raw, rest) ← read_sized ("Insufficient bytes for " +:+ name +:+ " length")
                   ("Insufficient bytes for " +:+ name) b;
  s ← map_err (fun e => "Invalid " +:+ name +:+ " string: " +:+ utf8_error_message e)
        (from_utf8 raw);
  Ok (s, rest).

(** A flag, then a value when it is set. *)
Definition read_optional {A} (e_flag : string) (rd : bytes -> result string (A * bytes))
    (b : bytes) : result string (option A * bytes) :=
  '(present, rest) ← read_flag e_flag b;
  if present : bool then '(x, rest) ← rd rest; Ok (Some x, rest) else Ok (None, rest).

(** The arm of [from_canonical_bytes] for [Complete]. *)
Definition read_complete (b : bytes) : result string TransferState :=
  '(tx, rest) ← read_text "dest_tx" b;
  '(id, rest) ← read_sized "Insufficient bytes for dest_seal.id length"%string
                  "Insufficient bytes for dest_seal.id"%string rest;
  '(nonce, rest) ← read_optional "Insufficient bytes for has_nonce flag"
                     (read_u64_le "Insufficient bytes for nonce"%string) rest;
  '(version, _) ← read_optional "Insufficient bytes for has_version flag"
                     (read_u64_le "Insufficient bytes for version"%string) rest;
  seal ← map_err (fun e => "Invalid dest_seal: " +:+ e) (SealPoint_new id nonce version);
  Ok (Complete tx seal).

(** [TransferState::from_canonical_bytes] *)
Definition state_from_canonical_bytes (b : bytes) : result string TransferState :=
  match b with
  | [] => Err "Empty bytes for TransferState"%string
  | variant :: rest =>
      match Byte.to_N variant with
      | 0%N => '(tx, rest) ← read_text "source_tx" rest;
               '(h, _) ← read_u64_le "Insufficient bytes for lock_height"%string rest;
               Ok (Locked tx h)
      | 1%N => '(need, rest) ← read_u32_le "Insufficient bytes for confirmations_needed"%string rest;
               '(have, _) ← read_u32_le "Insufficient bytes for confirmations_have"%string rest;
               Ok (AwaitingFinality need have)
      | 2%N => Ok BuildingProof
      | 3%N => '(o, _) ← read_optional "Insufficient bytes for has_bundle flag"
                          (read_sized "Insufficient bytes for bundle_bytes length"%string
                             "Insufficient bytes for bundle_bytes"%string) rest;
               Ok (ProofReady o)
      | 4%N => '(o, _) ← read_optional "Insufficient bytes for has_dest_tx flag"
                          (read_text "dest_tx") rest;
               Ok (Minting o)
      | 5%N => read_complete rest
      | 6%N => '(reason, rest) ← read_text "reason" rest;
               '(rec, _) ← read_flag "Insufficient bytes for recoverable flag" rest;
               Ok (Failed reason rec)
      | n => Err ("Invalid TransferState variant: " +:+ show_nat (N.to_nat n))
      end
  end.

(** [CanonicalEncoding for TransferState]: both formats are the canonical bytes. *)
Definition state_encode (s : TransferState) (f : EncodingFormat) : result CodecError bytes :=
  Ok (state_to_canonical_bytes s).
Definition state_decode (b : bytes) (f : EncodingFormat) : result CodecError TransferState :=
  map_err DeserializationError (state_from_canonical_bytes b).

(** ** Inclusion proofs *)

Record BitcoinMerkleProof := mkBitcoinProof {
  btc_txid : Bytes32; btc_merkle_branch : list Bytes32; btc_block_header : bytes;
  btc_block_height : N; btc_confirmations : N }.
Record EthereumMPTProof := mkEthereumProof {
  eth_tx_hash : Bytes32; eth_receipt_root : Bytes32; eth_receipt_rlp : bytes;
  eth_merkle_nodes : list bytes; eth_block_header : bytes; eth_log_index : N;
  eth_confirmations : N }.
Record SuiCheckpointProof := mkSuiProof {
  sui_tx_digest : Bytes32; sui_checkpoint_sequence : N; sui_contents_hash : Bytes32;
  sui_effects : bytes; sui_events : bytes; sui_certified : bool }.
Record AptosLedgerProof := mkAptosProof {
  apt_version : N; apt_transaction_proof : bytes; apt_ledger_info : bytes;
  apt_events : bytes; apt_success : bool }.
Record SolanaSlotProof := mkSolanaProof {
  sol_slot : N; sol_signature : bytes; sol_block_hash : Bytes32; sol_confirmations : N;
  sol_finalized : bool; sol_account_keys : list bytes; sol_instruction_hash : Bytes32 }.
Record VerifierKey := mkVerifierKey {
  vk_chain : string; vk_hash_algorithm : CrossChainHashAlgorithm; vk_key_bytes : bytes;
  vk_proof_system : string; vk_version : N }.
Record ZkPublicInputs := mkZkInputs {
  zi_seal_ref : SealPoint; zi_block_hash : Hash; zi_commitment : Hash;
  zi_source_chain : string; zi_block_height : N; zi_timestamp : N }.
Record ZkSealProof := mkZkSealProof {
  zks_proof_bytes : bytes; zks_verifier_key : VerifierKey; zks_public_inputs : ZkPublicInputs }.

Inductive InclusionProof :=
| Bitcoin (p : BitcoinMerkleProof)
| Ethereum (p : EthereumMPTProof)
| Sui (p : SuiCheckpointProof)
| Aptos (p : AptosLedgerProof)
| Solana (p : SolanaSlotProof)
| ZkSeal (p : ZkSealProof).

(** [InclusionProof::matches_chain] *)
Definition matches_chain (p : InclusionProof) (chain : string) : bool :=
  match p with
  | Bitcoin _ => bool_decide (chain = "bitcoin"%string)
  | Ethereum _ => bool_decide (chain = "ethereum"%string)
  | Sui _ => bool_decide (chain = "sui"%string)
  | Aptos _ => bool_decide (chain = "aptos"%string)
  | Solana _ => bool_decide (chain = "solana"%string)
  | ZkSeal z => bool_decide (vk_chain (zks_verifier_key z) = chain)
  end.

(** [InclusionProof::expected_hash_algorithm] *)
Definition expected_hash_algorithm (p : InclusionProof) : CrossChainHashAlgorithm :=
  match p with
  | Bitcoin _ => HDoubleSha256
  | Ethereum _ => HKeccak256
  | Sui _ => HBlake2b256
  | Aptos _ => HSha3_256
  | Solana _ => HKeccak256
  | ZkSeal z => vk_hash_algorithm (zks_verifier_key z)
  end.

(** [InclusionProof::attested_root_hash] *)
Definition attested_root_hash (crates : NativeHashes) (p : InclusionProof)
    (a : CrossChainHashAlgorithm) : Hash :=
  match p with
  | Bitcoin q => hash_bytes crates a (btc_block_header q)
  | Ethereum q => hash_bytes crates a (eth_block_header q)
  | Sui q => sui_contents_hash q
  | Aptos q => hash_bytes crates a (apt_ledger_info q)
  | Solana q => sol_block_hash q
  | ZkSeal q => zi_block_hash (zks_public_inputs q)
  end.

(** ** Lock events and transfer proofs *)

Record CrossChainLockEvent := mkLockEvent {
  le_sanad_id : Hash;
  le_commitment : Hash;
  le_owner : Hash;
  le_source_chain : string;
  le_destination_chain : string;
  le_destination_owner : Hash;
  le_source_seal : SealPoint;
  le_source_tx_hash : Hash;
  le_source_block_height : N;
  le_timestamp : N
}.

Record CrossChainFinalityProof := mkCrossFinality {
  cf_source_chain : string;
  cf_height : N;
  cf_current_height : N;
  cf_is_finalized : bool;
  cf_depth : N
}.

Record CrossChainTransferProof := mkTransferProof {
  lock_event : CrossChainLockEvent;
  tp_inclusion_proof : InclusionProof;
  tp_finality_proof : CrossChainFinalityProof;
  tp_hash_algorithm : CrossChainHashAlgorithm;
  source_state_root : Hash
}.

(** ** The persisted registry entry *)

Record HashEntry := mkHashEntry {
  he_transfer_id : string;
  he_sanad_id : Hash;
  he_source_chain : string;
  he_source_seal : SealPoint;
  he_destination_chain : string;
  he_destination_seal : SealPoint;
  he_lock_tx_hash : Hash;
  he_transition_id : bytes;
  he_mint_tx_hash : Hash;
  he_timestamp : N
}.

(** A 64-bit big-endian length, then the bytes. *)
Definition sized64 (b : bytes) : bytes := u64_be (blen b) ++ b.

(** [HashEntry::to_canonical_bytes] *)
Definition entry_to_canonical_bytes (e : HashEntry) : bytes :=
  sized64 (as_bytes (he_transfer_id e)) ++ b32 (he_sanad_id e) ++
  sized64 (as_bytes (he_source_chain e)) ++
  sized64 (seal_to_canonical_bytes (he_source_seal e)) ++
  sized64 (as_bytes (he_destination_chain e)) ++
  sized64 (seal_to_canonical_bytes (he_destination_seal e)) ++
  b32 (he_lock_tx_hash e) ++ sized64 (he_transition_id e) ++
  b32 (he_mint_tx_hash e) ++ u64_be (he_timestamp e).

Section EntryDecoder.
(** [str::to_lowercase] *)
Variable lower : string -> string.
(** [bytes.len()], against which [pos + len] is compared: on a 64-bit target the sum
    wraps, and the slice that follows panics when its end precedes its start. *)
Variable total : N.

Definition read_sized64 (name : string) (b : bytes) : result parse_error (bytes * bytes) :=
  '(raw, rest) ← take_n 8 (Msg ("Insufficient bytes for " +:+ name +:+ " length")) b;
  let len := of_be_bytes raw in
  let pos := (total - blen rest)%N in
  reject (total <? add64 pos len)%N with Msg ("Insufficient bytes for " +:+ name) ;;
  reject (add64 pos len <? pos)%N with Panic ;;
  take_n (N.to_nat len) Panic rest.

Definition read_utf8_64 (name : string) (b : bytes) : result parse_error (string * bytes) :=
  '(raw, rest) ← read_sized64 name b;
  s ← map_err (fun e => Msg ("Invalid UTF-8 for " +:+ name +:+ ": " +:+ utf8_error_message e))
        (from_utf8 raw);
  Ok (s, rest).

Definition name_error (name : string) (e : parse_error) : parse_error :=
  match e with
  | Msg m => Msg (name +:+ " deserialization error: " +:+ m)
  | Panic => Panic
  end.

Definition read_seal64 (name : string) (b : bytes) : result parse_error (SealPoint * bytes) :=
  '(raw, rest) ← read_sized64 name b;
  s ← map_err (name_error name) (seal_from_canonical_bytes raw);
  Ok (s, rest).

Definition read_hash64 (name : string) : bytes -> result parse_error (Bytes32 * bytes) :=
  read_b32 (Msg ("Insufficient bytes for " +:+ name)).

Definition entry_read (b : bytes) : result parse_error HashEntry :=
  '(tid, rest) ← read_utf8_64 "transfer_id" b;
  '(sanad, rest) ← read_hash64 "sanad_id" rest;
  '(src, rest) ← read_utf8_64 "source_chain" rest;
  '(sseal, rest) ← read_seal64 "source_seal" rest;
  '(dst, rest) ← read_utf8_64 "destination_chain" rest;
  '(dseal, rest) ← read_seal64 "destination_seal" rest;
  '(lock, rest) ← read_hash64 "lock_tx_hash" rest;
  '(trans, rest) ← read_sized64 "transition_id" rest;
  '(mint, rest) ← read_hash64 "mint_tx_hash" rest;
  '(ts, _) ← take_n 8 (Msg "Insufficient bytes for timestamp") rest;
  Ok (mkHashEntry tid sanad (lower src) sseal (lower dst) dseal lock trans mint (of_be_bytes ts)).
End EntryDecoder.

(** [HashEntry::from_canonical_bytes] *)
Definition entry_from_canonical_bytes (lower : string -> string) (b : bytes)
  : result parse_error HashEntry := entry_read lower (blen b) b.

(** ** The registry of transfers *)

Record CrossChainRegistryEntry := mkRegistryEntry {
  re_sanad_id : Hash;
  re_source_chain : string;
  re_source_seal : SealPoint;
  re_destination_chain : string;
  re_destination_seal : SealPoint;
  re_lock_tx_hash : Hash;
  re_mint_tx_hash : Hash;
  re_timestamp : N
}.

(** A [BTreeMap] by Sanad. *)
Notation CrossChainRegistry := (gmap Hash CrossChainRegistryEntry).
Definition CrossChainRegistry_new : CrossChainRegistry := ∅.

(** [entries.values()] *)
Definition registry_values (r : CrossChainRegistry) : list CrossChainRegistryEntry :=
  (map_to_list r).*2.

Definition is_sanad_transferred (r : CrossChainRegistry) (h : Hash) : bool :=
  bool_decide (is_Some (r !! h)).
Definition is_seal_consumed (r : CrossChainRegistry) (s : SealPoint) : bool :=
  existsb (fun e => bool_decide (re_source_seal e = s)) (registry_values r).
Definition get_entry (r : CrossChainRegistry) (h : Hash) : option CrossChainRegistryEntry := r !! h.
Definition transfer_count (r : CrossChainRegistry) : nat := size r.

(** [CrossChainRegistry::record_transfer] *)
Definition record_transfer (r : CrossChainRegistry) (e : CrossChainRegistryEntry)
  : result CrossChainError CrossChainRegistry :=
  reject is_sanad_transferred r (re_sanad_id e) with AlreadyMinted ;;
  reject is_seal_consumed r (re_source_seal e) with AlreadyLocked ;;
  Ok (<[re_sanad_id e := e]> r).

(** Successive calls; a refused one leaves the registry as it was. *)
Definition record_step (r : CrossChainRegistry) (e : CrossChainRegistryEntry)
  : CrossChainRegistry :=
  match record_transfer r e with Ok r' => r' | Err _ => r end.
Definition record_run (r : CrossChainRegistry) (es : list CrossChainRegistryEntry)
  : CrossChainRegistry := fold_left record_step es r.

(** ** The standard verifier *)

Definition proof_validation_message (e : ProofValidationError) : string :=
  match e with
  | ZeroBlockHash => "Block hash is all zeros"
  | ZeroStateRoot => "State root is all zeros"
  | EmptyProofNodes => "Proof nodes are empty"
  | InvalidMetadata m => "Invalid metadata: " +:+ m
  end.

(** The first 32 bytes of a header, or zeros when it is shorter. *)
Definition header_hash (header : bytes) : Bytes32 := default zero32 (to_b32 (take 32 header)).

(** The conversion in [verify_inclusion_proof]. *)
Definition canonical_of (p : InclusionProof) : CanonicalProof :=
  match p with
  | Bitcoin q => CanonicalProof_new (btc_block_height q) (header_hash (btc_block_header q))
                   zero32 (map b32 (btc_merkle_branch q))
  | Ethereum q => CanonicalProof_new (eth_confirmations q) (header_hash (eth_block_header q))
                    (eth_receipt_root q) (eth_merkle_nodes q)
  | Solana q => CanonicalProof_new (sol_slot q) (sol_block_hash q) zero32 [sol_signature q]
  | Sui q => CanonicalProof_new (sui_checkpoint_sequence q) (sui_contents_hash q) zero32
               [sui_effects q; sui_events q]
  | Aptos q => CanonicalProof_new (apt_version q) zero32 zero32
                 [apt_transaction_proof q; apt_ledger_info q]
  | ZkSeal q => CanonicalProof_new (zi_block_height (zks_public_inputs q))
                  (zi_block_hash (zks_public_inputs q)) zero32 [zks_proof_bytes q]
  end.

(** [StandardTransferVerifier::verify_inclusion_proof] *)
Definition verify_inclusion_proof (p : CrossChainTransferProof) : result CrossChainError unit :=
  map_err (fun e => ProofVerificationFailed
             ("Inclusion proof validation failed: " +:+ proof_validation_message e))
    (cp_validate (canonical_of (tp_inclusion_proof p))).

(** [StandardTransferVerifier::verify_transfer_proof] *)
Definition verify_transfer_proof (r : CrossChainRegistry) (p : CrossChainTransferProof)
  : result CrossChainError unit :=
  reject is_seal_consumed r (le_source_seal (lock_event p)) with AlreadyLocked ;;
  reject is_sanad_transferred r (le_sanad_id (lock_event p)) with AlreadyMinted ;;
  verify_inclusion_proof p.

(** ** Lemmas: domains *)

(** No domain name contains the separator, so the last one of a tag ends the chain. *)
Lemma domain_str_inj_sep (c c' : bytes) d d' :
  c ++ as_bytes (":" +:+ domain_str d) = c' ++ as_bytes (":" +:+ domain_str d') ->
  c = c' /\ d = d'.
Proof.
  intros H. apply (f_equal reverse) in H. rewrite !reverse_app in H.
  assert (Hd : d = d').
  { destruct d, d'; try done; exfalso; vm_compute in H; discriminate H. }
  split; [|done]. subst d'. apply app_inv_head in H. by apply (inj reverse) in H.
Qed.

Lemma domain_tag_of_inj c c' d d' :
  as_bytes (domain_tag_of c d) = as_bytes (domain_tag_of c' d') -> c = c' /\ d = d'.
Proof.
  unfold domain_tag_of. rewrite !(as_bytes_app "csv-cross-chain-v1:"). intros H.
  apply app_inv_head in H. rewrite !(as_bytes_app _ (":" +:+ domain_str _)) in H.
  apply domain_str_inj_sep in H as [H ->]. split; [|done]. by apply as_bytes_inj.
Qed.

(** ** Lemmas: transfer states *)

Definition text_ok (s : string) : Prop := is_utf8 s = true /\ (slen s <= u32_max)%N.

(** Strings are UTF-8, lengths and numbers fit their fields, and the destination seal
    is one [SealPoint::new] builds. *)
Definition state_ok (s : TransferState) : Prop :=
  match s with
  | Locked tx h => text_ok tx /\ (h <= u64_max)%N
  | AwaitingFinality a b => (a <= u32_max)%N /\ (b <= u32_max)%N
  | BuildingProof => True
  | ProofReady o => opt_ok (fun b => (blen b <= u32_max)%N) o
  | Minting o => opt_ok text_ok o
  | Complete tx seal =>
      text_ok tx /\ seal_ok seal /\
      SealPoint_new (seal_id seal) (seal_nonce seal) (seal_version seal) = Ok seal
  | Failed reason _ => text_ok reason
  end.

#[local] Opaque u64_le u32_le sized u64_be.

Lemma read_text_app name s k : text_ok s -> read_text name (text_sized s ++ k) = Ok (s, k).
Proof.
  intros [Hu Hl]. unfold read_text, text_sized. rewrite read_sized_sized by done.
  cbn [mbind result_bind]. by rewrite from_utf8_as_bytes.
Qed.

Lemma read_optional_some {A} e (rd : bytes -> result string (A * bytes)) x b k :
  rd (b ++ k) = Ok (x, k) -> read_optional e rd ((Byte.x01 :: b) ++ k) = Ok (Some x, k).
Proof. intros H. unfold read_optional, read_flag. cbn. by rewrite H. Qed.

Lemma read_optional_u64 e e' o k :
  opt_u64_ok o -> read_optional e (read_u64_le e') (opt_u64_bytes o ++ k) = Ok (o, k).
Proof.
  intros Ho. destruct o as [n|]; [|done]. apply read_optional_some. apply read_u64_le_app. by apply Ho.
Qed.

Lemma state_roundtrip s junk :
  state_ok s -> state_from_canonical_bytes (state_to_canonical_bytes s ++ junk) = Ok s.
Proof.
  destruct s as [tx h|a b| |o|o|tx seal|reason rec]; cbn [state_ok state_to_canonical_bytes];
    intros H; cbn [app state_from_canonical_bytes Byte.to_N]; rewrite <- ?app_assoc.
  - destruct H as [Ht Hh]. rewrite read_text_app by done. cbn. by rewrite read_u64_le_app.
  - destruct H as [Ha Hb]. rewrite read_u32_le_app by done. cbn. by rewrite read_u32_le_app.
  - done.
  - destruct o as [b|]; [|done]. unfold flagged. rewrite (read_optional_some _ _ b); [done|].
    apply read_sized_sized. by apply H.
  - destruct o as [tx|]; [|done]. cbn [fmap option_fmap option_map flagged].
    rewrite (read_optional_some _ _ tx); [done|]. apply read_text_app. by apply H.
  - destruct H as (Ht & (Hi & Hn & Hv) & Hs). unfold read_complete.
    rewrite read_text_app by done. cbn [mbind result_bind].
    rewrite read_sized_sized by done. cbn [mbind result_bind].
    rewrite read_optional_u64 by done. cbn [mbind result_bind].
    rewrite read_optional_u64 by done. cbn [mbind result_bind]. by rewrite Hs.
  - rewrite read_text_app by done. by destruct rec.
Qed.

(** ** Lemmas: registry entries *)

Definition hash_entry_ok (lower : string -> string) (e : HashEntry) : Prop :=
  is_utf8 (he_transfer_id e) = true /\
  is_utf8 (he_source_chain e) = true /\ lower (he_source_chain e) = he_source_chain e /\
  is_utf8 (he_destination_chain e) = true /\
  lower (he_destination_chain e) = he_destination_chain e /\
  seal_ok (he_source_seal e) /\ seal_ok (he_destination_seal e) /\
  (he_timestamp e <= u64_max)%N.

Lemma read_sized64_app total name b k :
  (blen (sized64 b ++ k) <= total)%N -> (total <= u64_max)%N ->
  read_sized64 total name (sized64 b ++ k) = Ok (b, k).
Proof.
  intros Hle Ht. unfold read_sized64, sized64 in *. rewrite <- app_assoc in *.
  rewrite !blen_app, blen_u64_be in Hle.
  rewrite (take_n_app' _ 8) by apply length_u64_be. cbn [mbind result_bind].
  rewrite of_u64_be by lia. rewrite blen_app.
  rewrite add64_small by lia.
  rewrite (proj2 (N.ltb_ge total _)) by lia. cbn [guard_err].
  rewrite (proj2 (N.ltb_ge _ _)) by lia. cbn [guard_err].
  unfold blen. rewrite Nat2N.id. apply take_n_app.
Qed.

Lemma read_utf8_64_app total name s k :
  (blen (sized64 (as_bytes s) ++ k) <= total)%N -> (total <= u64_max)%N -> is_utf8 s = true ->
  read_utf8_64 total name (sized64 (as_bytes s) ++ k) = Ok (s, k).
Proof.
  intros Hle Ht Hs. unfold read_utf8_64. rewrite read_sized64_app by done.
  cbn [mbind result_bind]. by rewrite from_utf8_as_bytes.
Qed.

Lemma read_seal64_app total name s k :
  (blen (sized64 (seal_to_canonical_bytes s) ++ k) <= total)%N -> (total <= u64_max)%N ->
  seal_ok s -> read_seal64 total name (sized64 (seal_to_canonical_bytes s) ++ k) = Ok (s, k).
Proof.
  intros Hle Ht Hs. unfold read_seal64. rewrite read_sized64_app by done.
  cbn [mbind result_bind]. unfold seal_from_canonical_bytes.
  rewrite <- (app_nil_r (seal_to_canonical_bytes s)), seal_read_app by done. done.
Qed.

Lemma entry_roundtrip lower e junk :
  hash_entry_ok lower e -> (blen (entry_to_canonical_bytes e ++ junk) <= u64_max)%N ->
  entry_from_canonical_bytes lower (entry_to_canonical_bytes e ++ junk) = Ok e.
Proof.
  intros (Ht & Hs & Hsl & Hd & Hdl & Hss & Hds & Hts) Hlen.
  unfold entry_from_canonical_bytes, entry_to_canonical_bytes, read_hash64 in *.
  rewrite <- !app_assoc in *.
  set (total := blen _) in *. assert (Hle : (total <= total)%N) by lia.
  unfold total in Hle at 1. clearbody total. unfold entry_read.
  assert (Hstep : forall a b : bytes, (blen (a ++ b) <= total)%N -> (blen b <= total)%N)
    by (intros a b; rewrite blen_app; lia).
  rewrite read_utf8_64_app by done. cbn [mbind result_bind]. apply Hstep in Hle.
  unfold read_hash64.
  rewrite read_b32_app. cbn [mbind result_bind]. apply Hstep in Hle.
  rewrite read_utf8_64_app by done. cbn [mbind result_bind]. apply Hstep in Hle.
  rewrite read_seal64_app by done. cbn [mbind result_bind]. apply Hstep in Hle.
  rewrite read_utf8_64_app by done. cbn [mbind result_bind]. apply Hstep in Hle.
  rewrite read_seal64_app by done. cbn [mbind result_bind]. apply Hstep in Hle.
  rewrite read_b32_app. cbn [mbind result_bind]. apply Hstep in Hle.
  rewrite read_sized64_app by done. cbn [mbind result_bind]. apply Hstep in Hle.
  rewrite read_b32_app. cbn [mbind result_bind].
  rewrite (take_n_app' _ 8) by apply length_u64_be. cbn [mbind result_bind].
  rewrite of_u64_be, Hsl, Hdl by done. by destruct e.
Qed.

(** ** Lemmas: the registry *)

Lemma elem_of_registry_values r e :
  e ∈ registry_values r <-> exists h, r !! h = Some e.
Proof.
  unfold registry_values. rewrite list_elem_of_fmap. split.
  - intros ([h e'] & -> & H). apply elem_of_map_to_list in H. by exists h.
  - intros [h H]. exists (h, e). split; [done|]. by apply elem_of_map_to_list.
Qed.

Lemma is_seal_consumed_spec r s :
  is_seal_consumed r s = true <-> exists h e, r !! h = Some e /\ re_source_seal e = s.
Proof.
  unfold is_seal_consumed. rewrite existsb_exists. split.
  - intros (e & He & Hs). apply bool_decide_eq_true in Hs.
    apply list_elem_of_In, elem_of_registry_values in He as [h He]. by exists h, e.
  - intros (h & e & He & Hs). exists e. split; [|by apply bool_decide_eq_true].
    apply list_elem_of_In, elem_of_registry_values. by exists h.
Qed.

Lemma is_sanad_transferred_spec r h : is_sanad_transferred r h = true <-> is_Some (r !! h).
Proof. apply bool_decide_eq_true. Qed.

Lemma record_transfer_ok r e r' :
  record_transfer r e = Ok r' <->
  r !! re_sanad_id e = None /\ (forall h x, r !! h = Some x -> re_source_seal x <> re_source_seal e) /\
  r' = <[re_sanad_id e := e]> r.
Proof.
  unfold record_transfer. rewrite !guard_err_ok, <- !not_true_iff_false.
  rewrite is_sanad_transferred_spec, is_seal_consumed_spec, <- eq_None_not_Some.
  split; [intros (H1 & H2 & [= <-])|intros (H1 & H2 & ->)]; naive_solver.
Qed.

(** Keyed by Sanad, with at most one entry per source seal. *)
Definition registry_ok (r : CrossChainRegistry) : Prop :=
  (forall h e, r !! h = Some e -> re_sanad_id e = h) /\
  (forall h h' e e', r !! h = Some e -> r !! h' = Some e' ->
     re_source_seal e = re_source_seal e' -> h = h').

Lemma record_step_ok r e : registry_ok r -> registry_ok (record_step r e).
Proof.
  unfold record_step. destruct (record_transfer r e) as [r'|] eqn:E; [|done].
  apply record_transfer_ok in E as (Hn & Hs & ->). intros [Hk Hu]. split.
  - intros h x. rewrite lookup_insert_Some. naive_solver.
  - intros h h' x x'. rewrite !lookup_insert_Some.
    intros [[<- <-]|[Hne Hx]] [[<- <-]|[Hne' Hx']] Heq; try done.
    + by destruct (Hs h' x').
    + by destruct (Hs h x).
    + by eapply Hu.
Qed.

Lemma record_step_keeps r e h x : r !! h = Some x -> record_step r e !! h = Some x.
Proof.
  intros Hx. unfold record_step. destruct (record_transfer r e) as [r'|] eqn:E; [|done].
  apply record_transfer_ok in E as (Hn & Hs & ->). rewrite lookup_insert_ne; [done|]. congruence.
Qed.

Lemma record_run_keeps es r h x : r !! h = Some x -> record_run r es !! h = Some x.
Proof.
  revert r. induction es as [|e es IH]; intros r Hx; [done|]. cbn.
  apply IH. by apply record_step_keeps.
Qed.

Lemma record_run_ok es r : registry_ok r -> registry_ok (record_run r es).
Proof.
  revert r. induction es as [|e es IH]; intros r Hr; [done|]. cbn.
  apply IH. by apply record_step_ok.
Qed.

(** ** Theorems *)

(** In every registry the calls lead to, a Sanad has one entry, filed under it, and
    a source seal at most one.  A transfer is recorded exactly when neither its Sanad
    nor its source seal is in the registry; a known Sanad is refused as minted, a
    known seal under another Sanad as locked; and what is recorded stays, unchanged,
    whatever is offered later. *)
Theorem cross_chain_registry_exact (history later : list CrossChainRegistryEntry)
    (e : CrossChainRegistryEntry) :
  let r := record_run CrossChainRegistry_new history in
  registry_ok r /\
  match record_transfer r e with
  | Ok r' =>
      r !! re_sanad_id e = None /\ is_seal_consumed r (re_source_seal e) = false /\
      record_run r' later !! re_sanad_id e = Some e /\
      (forall e', re_source_seal e' = re_source_seal e \/ re_sanad_id e' = re_sanad_id e ->
         is_ok (record_transfer (record_run r' later) e') = false)
  | Err AlreadyMinted => is_Some (r !! re_sanad_id e)
  | Err AlreadyLocked =>
      r !! re_sanad_id e = None /\
      exists h x, r !! h = Some x /\ h <> re_sanad_id e /\ re_source_seal x = re_source_seal e
  | Err _ => False
  end.
Proof.
  intros r. assert (Hr : registry_ok r).
  { apply record_run_ok. by split; intros *; unfold CrossChainRegistry_new; rewrite lookup_empty. }
  split; [done|]. destruct (record_transfer r e) as [r'|err] eqn:E.
  - pose proof E as Hok. apply record_transfer_ok in E as (Hn & Hs & ->).
    assert (Hin : record_run (<[re_sanad_id e := e]> r) later !! re_sanad_id e = Some e)
      by (apply record_run_keeps, lookup_insert_eq).
    split; [done|]. split; [|split; [done|]].
    + apply not_true_iff_false. rewrite is_seal_consumed_spec. naive_solver.
    + intros e' He'. destruct (record_transfer _ e') as [r''|] eqn:E'; [|done].
      apply record_transfer_ok in E' as (Hn' & Hs' & _).
      destruct He' as [He'|He']; [by destruct (Hs' _ _ Hin)|congruence].
  - unfold record_transfer in E. rewrite guard_err_err in E.
    destruct E as [[E <-]|[E1 E]]; [by apply is_sanad_transferred_spec|].
    rewrite guard_err_err in E. destruct E as [[E <-]|[_ [=]]].
    apply not_true_iff_false in E1. rewrite is_sanad_transferred_spec, <- eq_None_not_Some in E1.
    split; [done|]. apply is_seal_consumed_spec in E as (h & x & Hx & Hs).
    exists h, x. split; [done|]. split; [congruence|done].
Qed.

(** What the standard verifier accepts: a transfer whose seal and Sanad the registry
    does not hold and whose inclusion proof is an Ethereum one with a header of at
    least 32 bytes that does not start with 32 zeros, a receipt root other than zero
    and at least one node.  Every Bitcoin, Solana, Sui, Aptos or zero-knowledge proof is
    refused, because its conversion leaves a zero hash; and nothing of the finality
    proof, the hash algorithm, the state root or the proof's nodes is looked at. *)
Theorem transfer_verifier_spec (r : CrossChainRegistry) (p : CrossChainTransferProof) :
  verify_transfer_proof r p = Ok tt <->
  is_seal_consumed r (le_source_seal (lock_event p)) = false /\
  r !! le_sanad_id (lock_event p) = None /\
  exists q, tp_inclusion_proof p = Ethereum q /\
    (exists h rest, eth_block_header q = b32 h ++ rest /\ h <> zero32) /\
    eth_receipt_root q <> zero32 /\ eth_merkle_nodes q <> [].
Proof.
  unfold verify_transfer_proof. rewrite !guard_err_ok, <- (not_true_iff_false (is_sanad_transferred _ _)).
  rewrite is_sanad_transferred_spec, <- eq_None_not_Some.
  assert (H : verify_inclusion_proof p = Ok tt <->
    exists q, tp_inclusion_proof p = Ethereum q /\
    (exists h rest, eth_block_header q = b32 h ++ rest /\ h <> zero32) /\
    eth_receipt_root q <> zero32 /\ eth_merkle_nodes q <> []); [|by rewrite H].
  unfold verify_inclusion_proof. rewrite map_err_ok. unfold cp_validate.
  rewrite !guard_err_ok, !bool_decide_eq_false.
  assert (Hh : forall l, header_hash l <> zero32 <-> exists h rest, l = b32 h ++ rest /\ h <> zero32).
  { intros l. unfold header_hash. split.
    - destruct (to_b32 (take 32 l)) as [h|] eqn:E; [|done]. apply to_b32_Some in E.
      exists h, (drop 32 l). by rewrite E, take_drop.
    - intros (h & rest & -> & Hne). rewrite take_app_le by (by rewrite b32_length).
      by rewrite take_ge, to_b32_b32 by (by rewrite b32_length). }
  destruct (tp_inclusion_proof p) as [q|q|q|q|q|q]; cbn [canonical_of CanonicalProof_new
    cp_block_hash cp_state_root cp_proof_nodes]; rewrite ?Hh; split.
  all: try by intros (q' & [=] & _).
  all: try by intros (_ & [] & _).
  - intros (H1 & H2 & H3 & _). by exists q.
  - intros (q' & [= <-] & H1 & H2 & H3). done.
Qed.

(** The wire form of a registry entry round-trips, whatever follows it, for an entry
    whose strings are UTF-8 with lower-case chains, whose seals fit their prefixes and
    whose encoding fits the address space.  The decoder is not total: a length of
    2^64 - 1 wraps past its bounds check and the slice after it panics. *)
Theorem registry_entry_codec (lower : string -> string) (e : HashEntry) (junk : bytes)
  (He : hash_entry_ok lower e)
  (Hlen : (blen (entry_to_canonical_bytes e ++ junk) <= u64_max)%N) :
  entry_from_canonical_bytes lower (entry_to_canonical_bytes e ++ junk) = Ok e /\
  ((blen junk <= u64_max - 8)%N ->
   entry_from_canonical_bytes lower (u64_be u64_max ++ junk) = Err Panic).
Proof.
  split; [by apply entry_roundtrip|]. intros Hj.
  unfold entry_from_canonical_bytes, entry_read, read_utf8_64, read_sized64.
  rewrite (take_n_app' _ 8) by apply length_u64_be. cbn [mbind result_bind].
  rewrite of_u64_be by done. rewrite blen_app, blen_u64_be.
  replace (8 + blen junk - blen junk)%N with 8%N by lia.
  change (add64 8 u64_max) with 7%N.
  rewrite (proj2 (N.ltb_ge _ _)) by lia. done.
Qed.

(** A transfer state round-trips through its wire form, in both formats and whatever
    follows it, when its strings are UTF-8, its numbers and lengths fit and its
    destination seal is one the constructor builds. *)
Theorem transfer_state_codec (s : TransferState) (f : EncodingFormat) (junk : bytes)
  (Hs : state_ok s) :
  exists b, state_encode s f = Ok b /\ state_decode (b ++ junk) f = Ok s.
Proof.
  exists (state_to_canonical_bytes s). split; [done|].
  unfold state_decode. by rewrite state_roundtrip.
Qed.

(** A domain-separated hash binds its chain, its domain and the native digest: two
    equal ones were made for the same chain and domain from the same digest, unless two of
    the four strings hashed for them collide.  A separator inside a chain's name does no harm. *)
Theorem cross_chain_domain_binds crates a a' chain chain' d d' x y
  (H : hash_bytes_domain crates a chain d x = hash_bytes_domain crates a' chain' d' y) :
  (chain = chain' /\ d = d' /\ raw_hash crates a x = raw_hash crates a' y) \/
  collision_in (nh_sha256 crates) (domain_hashed crates a chain d x ++ domain_hashed crates a' chain' d' y).
Proof.
  unfold hash_bytes_domain, domain_hashed in *.
  eapply csv_names_bind in H as [[E1 E2]|?]; [left|right; eassumption|pick..].
  apply domain_tag_of_inj in E1 as [-> ->]. split; [done|]. split; [done|]. by apply b32_inj.
Qed.

(** ** Witnesses *)

Definition sample_seal : SealPoint := mkSealPoint [Byte.x07; Byte.x08] (Some 5%N) None.
Definition sample_entry : HashEntry :=
  mkHashEntry "t-1" (fill32 Byte.x01) "bitcoin" sample_seal "sui" sample_seal
    (fill32 Byte.x02) [Byte.x09] (fill32 Byte.x03) 1700000000.

Lemma sample_seal_ok : seal_ok sample_seal.
Proof. split; [by vm_compute|]. split; [intros n [= <-]; by vm_compute|done]. Qed.

Lemma registry_entry_codec_witness :
  entry_from_canonical_bytes to_lowercase (entry_to_canonical_bytes sample_entry ++ [Byte.x00])
  = Ok sample_entry /\
  entry_from_canonical_bytes to_lowercase (u64_be u64_max ++ [Byte.x00]) = Err Panic.
Proof.
  destruct (registry_entry_codec to_lowercase sample_entry [Byte.x00]) as [H1 H2].
  - do 5 (split; [by vm_compute|]). do 2 (split; [apply sample_seal_ok|]). by vm_compute.
  - by vm_compute.
  - split; [exact H1|]. apply H2. by vm_compute.
Defined.

Lemma transfer_state_codec_witness :
  exists b, state_encode (Complete "0xabc" sample_seal) MCE = Ok b /\
            state_decode (b ++ [Byte.x01]) MCE = Ok (Complete "0xabc" sample_seal).
Proof.
  apply (transfer_state_codec (Complete "0xabc" sample_seal) MCE [Byte.x01]).
  split; [by split; vm_compute|]. split; [apply sample_seal_ok|reflexivity].
Defined.

Lemma cross_chain_domain_binds_witness :
  (("sui"%string = "sui"%string /\ StateRoot = StateRoot /\
    raw_hash (mkNativeHashes (fun _ => zero32) (fun _ => zero32) (fun _ => zero32)
                (fun _ => (zero32, zero32))) HSha256 [] = zero32) \/
   let crates := mkNativeHashes (fun _ => zero32) (fun _ => zero32) (fun _ => zero32)
                   (fun _ => (zero32, zero32)) in
   collision_in (fun _ => zero32)
     (domain_hashed crates HSha256 "sui" StateRoot [] ++ domain_hashed crates HKeccak256 "sui" StateRoot [])).
Proof.
  apply (cross_chain_domain_binds
           (mkNativeHashes (fun _ => zero32) (fun _ => zero32) (fun _ => zero32)
              (fun _ => (zero32, zero32))) HSha256 HKeccak256 "sui" "sui" StateRoot StateRoot [] []).
  reflexivity.
Defined.
