(* ===== verification/ReplayDb.v ===== *)
(** * The replay database (csv-storage/src/traits.rs, backends/)

    The store of replay identifiers behind every mint, with its three backends.  A
    call is a tree of atomic accesses: one for the in-memory backend, which holds
    its lock throughout, up to two for redb (a read transaction, then a write one)
    and for Postgres (one per statement).  Any number of calls run interleaved,
    under a schedule that says which call makes its next access.

    The in-memory backend is the specification: the redb backend is linearizable
    to it.  The Postgres backend is not.  A redb table is a parameter with the laws
    of a map; transactions are taken as redb documents them, serialised and aborted
    when dropped.  I/O errors and poisoned locks are not modelled. *)

From S2P Require Import Prelude Ord Bytes Hashing Text Seal CrossChain.

Inductive ReplayEntryState := Pending | Consumed | RolledBack.
Inductive ReplayDbError := Storage (m : string) | AlreadyExists | NotFound.

Global Instance ReplayEntryState_eq_dec : EqDecision ReplayEntryState.
Proof. solve_decision. Defined.
Global Instance ReplayDbError_eq_dec : EqDecision ReplayDbError.
Proof. solve_decision. Defined.

Notation outcome := (result ReplayDbError unit).
(** A [ReplayId]: its version and its 32 bytes. *)
Notation ReplayId := (N * Hash)%type.

(** The calls of [ReplayDatabase] that change state. *)
Inductive db_op :=
| InsertIfAbsent (id : bytes)
| ConsumeIfUnconsumed (id : bytes)
| ConfirmConsumed (id : bytes)
| ConfirmConsumedReplayId (id : ReplayId)
| MarkRolledBack (id : ReplayId).

(** [ReplayId::as_bytes] *)
Definition replay_id_bytes (id : ReplayId) : bytes := b32 id.2.

(** The default [confirm_consumed]: a 32-byte identifier goes to the typed call. *)
Definition confirm_consumed {R} (typed : ReplayId -> R) (fail : ReplayDbError -> R) (id : bytes) : R :=
  match to_b32 id with
  | Some h => typed (1%N, h)
  | None => fail (Storage "Invalid replay ID length (expected 32 bytes)")
  end.

(** ** In memory *)

Notation entries := (gmap bytes ReplayEntryState).

Definition im_contains (m : entries) (id : bytes) : bool := bool_decide (is_Some (m !! id)).

Definition im_insert_if_absent (m : entries) (id : bytes) : entries * outcome :=
  if im_contains m id then (m, Err AlreadyExists) else (<[id := Pending]> m, Ok tt).

Definition im_consume_if_unconsumed (m : entries) (id : bytes) : entries * outcome :=
  match m !! id with
  | None => (<[id := Pending]> m, Ok tt)
  | Some Consumed => (m, Ok tt)
  | Some RolledBack => (<[id := Pending]> m, Ok tt)
  | Some Pending => (m, Err AlreadyExists)
  end.

Definition im_confirm_consumed_replay_id (m : entries) (id : ReplayId) : entries * outcome :=
  let key := replay_id_bytes id in
  match m !! key with
  | Some Pending => (<[key := Consumed]> m, Ok tt)
  | Some Consumed => (m, Ok tt)
  | Some RolledBack => (m, Err (Storage "Entry is not in Pending or Consumed state"))
  | None => (m, Err NotFound)
  end.

Definition im_mark_rolled_back (m : entries) (id : ReplayId) : entries * outcome :=
  let key := replay_id_bytes id in
  match m !! key with
  | Some Pending => (<[key := RolledBack]> m, Ok tt)
  | Some RolledBack => (m, Ok tt)
  | Some Consumed => (m, Err (Storage "Entry is not in Pending state"))
  | None => (m, Err NotFound)
  end.

Definition im_exec (o : db_op) (m : entries) : entries * outcome :=
  match o with
  | InsertIfAbsent id => im_insert_if_absent m id
  | ConsumeIfUnconsumed id => im_consume_if_unconsumed m id
  | ConfirmConsumed id => confirm_consumed (im_confirm_consumed_replay_id m) (fun e => (m, Err e)) id
  | ConfirmConsumedReplayId id => im_confirm_consumed_replay_id m id
  | MarkRolledBack id => im_mark_rolled_back m id
  end.

(** The transfer entries, a second map under a second lock, keyed by the hexadecimal
    form of the Sanad; [StorageBackend] reads and writes the same map by raw keys. *)
Notation transfers := (gmap bytes bytes).

Definition store_transfer_entry (t : transfers) (e : HashEntry) : transfers :=
  <[hex_encode (b32 (he_sanad_id e)) := entry_to_canonical_bytes e]> t.

(** [for val in entries.values() { out.push(decode(val)?) }]; the order of the values
    is the map's.  [Panic] is the decoder's own. *)
Fixpoint decode_transfers (lower : string -> string) (vals : list bytes)
  : result parse_error (list HashEntry) :=
  match vals with
  | [] => Ok []
  | v :: vals' =>
      e ← map_err (fun err => match err with
                              | Msg m => Msg ("Deserialization error: " +:+ m)
                              | Panic => Panic
                              end) (entry_from_canonical_bytes lower v);
      es ← decode_transfers lower vals';
      Ok (e :: es)
  end.
Definition load_all_transfers (lower : string -> string) (order : transfers -> list bytes)
    (t : transfers) : result parse_error (list HashEntry) := decode_transfers lower (order t).

Definition storage_get (t : transfers) (key : bytes) : option bytes := t !! hex_encode key.
Definition storage_set (t : transfers) (key value : bytes) : transfers :=
  <[hex_encode key := value]> t.
Definition storage_delete (t : transfers) (key : bytes) : transfers := delete (hex_encode key) t.
Definition storage_exists (t : transfers) (key : bytes) : bool :=
  bool_decide (is_Some (t !! hex_encode key)).

(** ** Calls and schedules *)

(** A call that has returned, or one about to make an atomic access. *)
Inductive call (D : Type) : Type :=
| Return (r : outcome)
| Atomic (f : D -> D * call D).
Global Arguments Return {D} r.
Global Arguments Atomic {D} f.

(** A call with a single access. *)
Definition once {D} (f : D -> D * outcome) : call D :=
  Atomic (fun d => let '(d', r) := f d in (d', Return r)).

Section Schedules.
Context {D : Type}.

Definition step (c : D * list (call D)) (i : nat) : D * list (call D) :=
  match c.2 !! i with
  | Some (Atomic f) => let '(d', k) := f c.1 in (d', <[i := k]> c.2)
  | _ => c
  end.

(** What a schedule leads to from calls that have all just been made. *)
Definition after (client : db_op -> call D) (d : D) (ops : list db_op) (sched : list nat)
  : D * list (call D) := fold_left step sched (d, client <$> ops).

(** The [i]-th call with its outcome, once it has returned. *)
Definition completed_at (ops : list db_op) (calls : list (call D)) (i : nat)
  : option (db_op * outcome) :=
  match ops !! i, calls !! i with
  | Some o, Some (Return r) => Some (o, r)
  | _, _ => None
  end.
Definition completed (ops : list db_op) (calls : list (call D)) : list (db_op * outcome) :=
  omap (completed_at ops calls) (seq 0 (length ops)).

(** Real time: [i] had returned before [j] made its first access. *)
Definition precedes (client : db_op -> call D) (d : D) (ops : list db_op) (sched : list nat)
    (i j : nat) : Prop :=
  exists k, is_Some (completed_at ops (after client d ops (take k sched)).2 i) /\
            j ∉ take k sched.
End Schedules.

(** The in-memory backend holds the write lock for the whole call. *)
Definition im_call (o : db_op) : call entries := once (im_exec o).

(** ** redb *)

Definition encode_state (s : ReplayEntryState) : bytes :=
  match s with
  | Pending => as_bytes "PENDING"
  | Consumed => as_bytes "CONSUMED"
  | RolledBack => as_bytes "ROLLED_BACK"
  end.
Definition decode_state (b : bytes) : option ReplayEntryState :=
  if bool_decide (b = as_bytes "PENDING") then Some Pending
  else if bool_decide (b = as_bytes "CONSUMED") then Some Consumed
  else if bool_decide (b = as_bytes "ROLLED_BACK") then Some RolledBack
  else None.

(** A redb table of byte keys and values. *)
Class TableOps (T : Type) := {
  tget : T -> bytes -> option bytes;
  tinsert : T -> bytes -> bytes -> T
}.
Class TableLaws (T : Type) `{TableOps T} := {
  tget_insert : forall t k v, tget (tinsert t k v) k = Some v;
  tget_insert_ne : forall t k k' v, k <> k' -> tget (tinsert t k v) k' = tget t k'
}.

Record RedbReplayDb (T : Type) := mkRedb { replay_table : T; conflict_table : T }.
Global Arguments mkRedb {T}.
Global Arguments replay_table {T}.
Global Arguments conflict_table {T}.

Section Redb.
Context {T : Type} `{TableOps T}.
Notation Db := (RedbReplayDb T).

(** [read_state]: one read transaction. *)
Definition read_state (db : Db) (key : bytes) : option ReplayEntryState :=
  tget (replay_table db) key ≫= decode_state.

(** [transition]: one write transaction; an error drops it. *)
Definition transition (key : bytes) (next : ReplayEntryState)
    (decision : option ReplayEntryState -> result ReplayDbError bool) (db : Db) : Db * outcome :=
  match decision (read_state db key) with
  | Err e => (db, Err e)
  | Ok false => (db, Ok tt)
  | Ok true => (mkRedb (tinsert (replay_table db) key (encode_state next)) (conflict_table db), Ok tt)
  end.

(** [cas_insert]: one write transaction over both tables. *)
Definition cas_insert (key : bytes) (s : ReplayEntryState) (db : Db) : Db * outcome :=
  match tget (conflict_table db) key with
  | Some _ => (db, Err AlreadyExists)
  | None => (mkRedb (tinsert (replay_table db) key (encode_state s))
                    (tinsert (conflict_table db) key (as_bytes "1")), Ok tt)
  end.

Definition redb_contains (db : Db) (id : bytes) : bool :=
  bool_decide (is_Some (tget (conflict_table db) id)).

Definition rearm_admit (current : option ReplayEntryState) : result ReplayDbError bool :=
  match current with
  | Some RolledBack => Ok true
  | Some Consumed | Some Pending => Err AlreadyExists
  | None => Err NotFound
  end.
Definition confirm_admit (current : option ReplayEntryState) : result ReplayDbError bool :=
  match current with
  | Some Pending => Ok true
  | Some Consumed => Ok false
  | Some RolledBack => Err (Storage "Entry is not in Pending or Consumed state")
  | None => Err NotFound
  end.
Definition rollback_admit (current : option ReplayEntryState) : result ReplayDbError bool :=
  match current with
  | Some Pending => Ok true
  | Some RolledBack => Ok false
  | Some Consumed => Err (Storage "Entry is not in Pending state")
  | None => Err NotFound
  end.

(** What [consume_if_unconsumed] does with the state it read. *)
Definition consume_after_read (id : bytes) (s : option ReplayEntryState) : call Db :=
  match s with
  | Some Consumed => Return (Ok tt)
  | Some RolledBack => once (transition id Pending rearm_admit)
  | Some Pending => Return (Err AlreadyExists)
  | None => once (cas_insert id Pending)
  end.

Definition redb_confirm (id : ReplayId) : call Db :=
  once (transition (replay_id_bytes id) Consumed confirm_admit).

Definition redb_call (o : db_op) : call Db :=
  match o with
  | InsertIfAbsent id => once (cas_insert id Pending)
  | ConsumeIfUnconsumed id => Atomic (fun db => (db, consume_after_read id (read_state db id)))
  | ConfirmConsumed id => confirm_consumed redb_confirm (fun e => once (fun db => (db, Err e))) id
  | ConfirmConsumedReplayId id => redb_confirm id
  | MarkRolledBack id => once (transition (replay_id_bytes id) RolledBack rollback_admit)
  end.
End Redb.

(** ** Postgres *)

(** The rows of [replay_entries]: state by hexadecimal identifier. *)
Notation rows := (gmap string string).

Definition hex_id (id : bytes) : string := of_bytes (hex_encode id).

(** [INSERT .. VALUES ($1, 'Pending', NOW()) ON CONFLICT (id) DO NOTHING RETURNING id] *)
Definition pg_insert_pending (t : rows) (id : string) : rows * option string :=
  match t !! id with
  | Some _ => (t, None)
  | None => (<[id := "Pending"%string]> t, Some id)
  end.
(** [UPDATE .. SET state = next WHERE id = $1 AND state = cur], with [rows_affected()]. *)
Definition pg_update (t : rows) (id next cur : string) : rows * nat :=
  if bool_decide (t !! id = Some cur) then (<[id := next]> t, 1) else (t, 0).

Definition pg_contains (t : rows) (id : bytes) : bool := bool_decide (is_Some (t !! hex_id id)).

Definition pg_insert_if_absent (id : bytes) : call rows :=
  once (fun t => let '(t', inserted) := pg_insert_pending t (hex_id id) in
                 (t', match inserted with Some _ => Ok tt | None => Err AlreadyExists end)).

Definition pg_consume_after_select (id : bytes) (current : option string) : call rows :=
  match current with
  | Some state =>
      if bool_decide (state = "Consumed"%string) then Return (Ok tt)
      else if bool_decide (state = "RolledBack"%string)
      then once (fun t => (fst (pg_update t (hex_id id) "Pending" "RolledBack"), Ok tt))
      else Return (Err AlreadyExists)
  | None => pg_insert_if_absent id
  end.

(** An update out of [Pending], and the select that explains it when no row changed. *)
Definition pg_settle (id : ReplayId) (next : string) : call rows :=
  let key := hex_id (replay_id_bytes id) in
  Atomic (fun t => let '(t', affected) := pg_update t key next "Pending" in
    (t', match affected with
         | 0 => once (fun t => (t, match t !! key with
                                   | Some state => if bool_decide (state = next) then Ok tt
                                                   else Err (Storage "Entry is not in Pending state")
                                   | None => Err NotFound
                                   end))
         | S _ => Return (Ok tt)
         end)).

Definition pg_call (o : db_op) : call rows :=
  match o with
  | InsertIfAbsent id => pg_insert_if_absent id
  | ConsumeIfUnconsumed id => Atomic (fun t => (t, pg_consume_after_select id (t !! hex_id id)))
  | ConfirmConsumed id =>
      confirm_consumed (fun i => pg_settle i "Consumed") (fun e => once (fun t => (t, Err e))) id
  | ConfirmConsumedReplayId id => pg_settle id "Consumed"
  | MarkRolledBack id => pg_settle id "RolledBack"
  end.

(** ** Lemmas: sequential histories *)

(** A list of calls with their outcomes, as the in-memory backend would give them one
    after the other. *)
Fixpoint explains (m : entries) (h : list (db_op * outcome)) (m' : entries) : Prop :=
  match h with
  | [] => m = m'
  | (o, r) :: h' => snd (im_exec o m) = r /\ explains (fst (im_exec o m)) h' m'
  end.

Lemma explains_app m h1 h2 m' :
  explains m (h1 ++ h2) m' <-> exists m1, explains m h1 m1 /\ explains m1 h2 m'.
Proof.
  revert m. induction h1 as [|[o r] h1 IH]; intros m; cbn; [naive_solver|].
  rewrite IH. naive_solver.
Qed.

Lemma explains_det m h m1 m2 : explains m h m1 -> explains m h m2 -> m1 = m2.
Proof. revert m. induction h as [|[o r] h IH]; cbn; [congruence|]. naive_solver. Qed.

(** How one call changes the entry of an identifier. *)
Inductive edge : option ReplayEntryState -> option ReplayEntryState -> Prop :=
| edge_insert : edge None (Some Pending)
| edge_rearm : edge (Some RolledBack) (Some Pending)
| edge_confirm : edge (Some Pending) (Some Consumed)
| edge_rollback : edge (Some Pending) (Some RolledBack).

Lemma im_exec_edge o m id :
  let m' := fst (im_exec o m) in m' !! id = m !! id \/ edge (m !! id) (m' !! id).
Proof.
  assert (Hins : forall k s, <[k:=s]> m !! id = m !! id \/
            (k = id /\ <[k:=s]> m !! id = Some s)).
  { intros k s. destruct (decide (k = id)) as [->|Hne].
    - right. by rewrite lookup_insert_eq.
    - left. by rewrite lookup_insert_ne. }
  assert (Hconf : forall i, let m' := fst (im_confirm_consumed_replay_id m i) in
            m' !! id = m !! id \/ edge (m !! id) (m' !! id)).
  { intros i. unfold im_confirm_consumed_replay_id.
    destruct (m !! replay_id_bytes i) as [[]|] eqn:E; cbn; try by left.
    destruct (Hins (replay_id_bytes i) Consumed) as [->|[<- ->]]; [by left|right].
    rewrite E. constructor. }
  destruct o as [k|k|k|i|i]; cbn [im_exec].
  - unfold im_insert_if_absent, im_contains. case_bool_decide as Hk; cbn; [by left|].
    destruct (Hins k Pending) as [->|[<- ->]]; [by left|right].
    apply eq_None_not_Some in Hk as ->. constructor.
  - unfold im_consume_if_unconsumed. destruct (m !! k) as [[]|] eqn:E; cbn; try by left.
    all: destruct (Hins k Pending) as [->|[<- ->]]; [by left|right]; rewrite E; constructor.
  - unfold confirm_consumed. destruct (to_b32 k); [apply Hconf|by left].
  - apply Hconf.
  - unfold im_mark_rolled_back. destruct (m !! replay_id_bytes i) as [[]|] eqn:E; cbn; try by left.
    destruct (Hins (replay_id_bytes i) RolledBack) as [->|[<- ->]]; [by left|right].
    rewrite E. constructor.
Qed.

(** An entry leaves "absent" or [RolledBack] only by way of [Pending], and is never
    removed. *)
Definition armable (s : option ReplayEntryState) : Prop := s = None \/ s = Some RolledBack.

Lemma explains_through_pending m h m' id :
  explains m h m' -> armable (m !! id) -> m' !! id <> m !! id ->
  exists h1 h2 m1, h = h1 ++ h2 /\ explains m h1 m1 /\ m1 !! id = Some Pending /\ explains m1 h2 m'.
Proof.
  revert m. induction h as [|[o r] h IH]; intros m; cbn; [by intros ->|].
  intros [Hr Hh] Ha Hne. pose proof (im_exec_edge o m id) as He. cbn in He.
  set (m1 := fst (im_exec o m)) in *. destruct He as [He|He].
  - rewrite <- He in Ha, Hne. destruct (IH m1 Hh Ha Hne) as (h1 & h2 & m2 & -> & H1 & H2 & H3).
    exists ((o, r) :: h1), h2, m2. done.
  - exists [(o, r)], h, m1. split; [done|]. split; [done|]. split; [|done].
    destruct Ha as [Ha|Ha]; rewrite Ha in He; inversion He; congruence.
Qed.

Lemma explains_keeps m h m' id : explains m h m' -> is_Some (m !! id) -> is_Some (m' !! id).
Proof.
  revert m. induction h as [|[o r] h IH]; intros m; cbn; [by intros ->|].
  intros [Hr Hh] Hs. eapply IH; [done|]. pose proof (im_exec_edge o m id) as He. cbn in He.
  destruct He as [->|He]; [done|]. by inversion He.
Qed.

(** ** Lemmas: redb refines the in-memory calls *)

Section RedbLemmas.
Context {T : Type} `{!TableOps T, !TableLaws T}.
Notation Db := (RedbReplayDb T).

Lemma decode_encode_state s : decode_state (encode_state s) = Some s.
Proof. by destruct s. Qed.

(** The replay table holds the encoded entries, the conflict table their keys. *)
Definition redb_abs (db : Db) (m : entries) : Prop :=
  forall key, read_state db key = m !! key /\
              (is_Some (tget (conflict_table db) key) <-> is_Some (m !! key)).

Lemma redb_abs_insert (db : Db) m key s c :
  redb_abs db m ->
  (forall k, is_Some (tget c k) <-> k = key \/ is_Some (tget (conflict_table db) k)) ->
  redb_abs (mkRedb (tinsert (replay_table db) key (encode_state s)) c) (<[key := s]> m).
Proof.
  intros Habs Hc k. unfold read_state. cbn [replay_table conflict_table].
  destruct (Habs k) as [Hr Hk]. rewrite Hc. destruct (decide (key = k)) as [->|Hne].
  - rewrite tget_insert, lookup_insert_eq. cbn. rewrite decode_encode_state. naive_solver.
  - rewrite tget_insert_ne, lookup_insert_ne by done. unfold read_state in Hr.
    rewrite Hr. naive_solver.
Qed.

Lemma transition_refines db m key next decision :
  redb_abs db m ->
  match decision (m !! key) with
  | Err e => transition key next decision db = (db, Err e)
  | Ok false => transition key next decision db = (db, Ok tt)
  | Ok true => exists db', transition key next decision db = (db', Ok tt) /\
      (is_Some (m !! key) -> redb_abs db' (<[key := next]> m))
  end.
Proof.
  intros Habs. unfold transition. rewrite (proj1 (Habs key)).
  destruct (decision (m !! key)) as [[]|]; [|done..]. eexists. split; [done|].
  intros Hs. apply redb_abs_insert; [done|]. intros k.
  rewrite (proj2 (Habs k)). naive_solver.
Qed.

Lemma cas_insert_refines db m key :
  redb_abs db m ->
  match m !! key with
  | Some _ => cas_insert key Pending db = (db, Err AlreadyExists)
  | None => exists db', cas_insert key Pending db = (db', Ok tt) /\ redb_abs db' (<[key := Pending]> m)
  end.
Proof.
  intros Habs. destruct (Habs key) as [_ Hc]. unfold cas_insert.
  destruct (m !! key) as [s|] eqn:E.
  - destruct Hc as [_ Hc]. by destruct Hc as [v ->].
  - destruct (tget (conflict_table db) key) eqn:Ec.
    { destruct Hc as [[? [=]] _]. done. }
    eexists. split; [done|]. apply redb_abs_insert; [done|]. intros k.
    destruct (decide (key = k)) as [->|Hne]; [rewrite tget_insert; naive_solver|].
    rewrite tget_insert_ne by done. naive_solver.
Qed.

(** A call with one access does to the tables what the in-memory call does. *)
Definition refines_once (f : Db -> Db * outcome) (o : db_op) : Prop :=
  forall db m, redb_abs db m ->
    exists db', f db = (db', snd (im_exec o m)) /\ redb_abs db' (fst (im_exec o m)).

Lemma redb_confirm_refines i o :
  (forall m, im_exec o m = im_confirm_consumed_replay_id m i) ->
  refines_once (transition (replay_id_bytes i) Consumed confirm_admit) o.
Proof.
  intros Ho db m Habs. rewrite Ho. unfold im_confirm_consumed_replay_id.
  pose proof (transition_refines db m (replay_id_bytes i) Consumed confirm_admit Habs) as H.
  destruct (m !! replay_id_bytes i) as [[]|] eqn:E; cbn [confirm_admit] in H; try by exists db.
  destruct H as (db' & H1 & H2). exists db'. split; [done|]. by apply H2.
Qed.

(** Every call but [consume_if_unconsumed] is one such access. *)
Lemma redb_call_once o :
  (exists id, o = ConsumeIfUnconsumed id) \/
  exists f, redb_call o = once f /\ refines_once f o.
Proof.
  destruct o as [k|k|k|i|i]; [right|left|right..].
  - eexists. split; [done|]. intros db m Habs.
    pose proof (cas_insert_refines db m k Habs) as H. cbn.
    unfold im_insert_if_absent, im_contains. destruct (m !! k) eqn:E; cbn; [by exists db|].
    destruct H as (db' & H1 & H2). by exists db'.
  - by exists k.
  - cbn. unfold confirm_consumed. destruct (to_b32 k) as [h|] eqn:E.
    + eexists. split; [done|]. apply redb_confirm_refines. intros m. cbn.
      unfold confirm_consumed. by rewrite E.
    + eexists. split; [done|]. intros db m Habs. exists db. cbn.
      unfold confirm_consumed. by rewrite E.
  - eexists. split; [done|]. by apply redb_confirm_refines.
  - eexists. split; [done|]. intros db m Habs. cbn. unfold im_mark_rolled_back.
    pose proof (transition_refines db m (replay_id_bytes i) RolledBack rollback_admit Habs) as H.
    destruct (m !! replay_id_bytes i) as [[]|] eqn:E; cbn [rollback_admit] in H; try by exists db.
    destruct H as (db' & H1 & H2). exists db'. split; [done|]. by apply H2.
Qed.

(** The second access of [consume_if_unconsumed], after it read [s]: it succeeds when
    the entry is still in that state, and is refused otherwise. *)
Lemma consume_second id s db m :
  redb_abs db m -> armable s -> (is_Some s -> is_Some (m !! id)) ->
  exists f, consume_after_read (T := T) id s = once f /\
    if decide (m !! id = s)
    then exists db', f db = (db', Ok tt) /\ redb_abs db' (<[id := Pending]> m) /\
         im_exec (ConsumeIfUnconsumed id) m = (<[id := Pending]> m, Ok tt)
    else f db = (db, Err AlreadyExists).
Proof.
  intros Habs [->| ->] Hs; eexists; (split; [done|]).
  - pose proof (cas_insert_refines db m id Habs) as H. cbn. unfold im_consume_if_unconsumed.
    case_decide as E; [rewrite E in *|].
    + destruct H as (db' & H1 & H2). by exists db'.
    + by destruct (m !! id).
  - pose proof (transition_refines db m id Pending rearm_admit Habs) as H.
    cbn. unfold im_consume_if_unconsumed. case_decide as E; [rewrite E in *|].
    + destruct H as (db' & H1 & H2). exists db'. split; [done|]. split; [|done]. by apply H2.
    + destruct Hs as [s Hs]; [done|]. rewrite Hs in *. by destruct s.
Qed.
End RedbLemmas.

(** ** Lemmas: schedules *)

Section ScheduleLemmas.
Context {D : Type} (client : db_op -> call D) (d : D) (ops : list db_op).

Lemma after_snoc sched t : after client d ops (sched ++ [t]) = step (after client d ops sched) t.
Proof. unfold after. by rewrite fold_left_app. Qed.

Lemma step_length (c : D * list (call D)) t : length (step c t).2 = length c.2.
Proof.
  unfold step. destruct (c.2 !! t) as [[r|f]|]; [done| |done].
  destruct (f c.1) as [d' k]. cbn. by rewrite length_insert.
Qed.

Lemma after_length sched : length (after client d ops sched).2 = length ops.
Proof.
  induction sched as [|t sched IH] using rev_ind; [cbn; by rewrite length_fmap|].
  by rewrite after_snoc, step_length.
Qed.

(** Only the call that is scheduled moves, and a returned one stays. *)
Lemma step_other (c : D * list (call D)) t i : t <> i -> (step c t).2 !! i = c.2 !! i.
Proof.
  intros Hne. unfold step. destruct (c.2 !! t) as [[r|f]|]; [done| |done].
  destruct (f c.1) as [d' k]. cbn. by rewrite list_lookup_insert_ne.
Qed.

Lemma step_returned (c : D * list (call D)) t i r :
  c.2 !! i = Some (Return r) -> (step c t).2 !! i = Some (Return r).
Proof.
  intros Hi. destruct (decide (t = i)) as [->|Hne]; [|by rewrite step_other].
  unfold step. by rewrite Hi.
Qed.

Lemma completed_step (c : D * list (call D)) t i x :
  completed_at ops c.2 i = Some x -> completed_at ops (step c t).2 i = Some x.
Proof.
  unfold completed_at. destruct (ops !! i); [|done]. destruct (c.2 !! i) as [[r|f]|] eqn:E; try done.
  by rewrite (step_returned _ _ _ _ E).
Qed.

Lemma completed_mono sched more i x :
  completed_at ops (after client d ops sched).2 i = Some x ->
  completed_at ops (after client d ops (sched ++ more)).2 i = Some x.
Proof.
  intros H. induction more as [|t more IH] using rev_ind; [by rewrite app_nil_r|].
  rewrite app_assoc, after_snoc. by apply completed_step.
Qed.

Lemma precedes_completed sched i j :
  precedes client d ops sched i j -> is_Some (completed_at ops (after client d ops sched).2 i).
Proof.
  intros (k & [x Hx] & _). exists x. rewrite <- (take_drop k sched) at 1. by apply completed_mono.
Qed.

(** A later step adds nothing to what precedes a call already under way. *)
Lemma precedes_snoc sched t i j :
  j ∈ sched -> precedes client d ops (sched ++ [t]) i j -> precedes client d ops sched i j.
Proof.
  intros Hj (k & Hk & Hnot). exists k.
  destruct (decide (k <= length sched)) as [Hle|Hgt].
  - by rewrite take_app_le in * by done.
  - exfalso. apply Hnot. rewrite take_ge by (rewrite length_app; cbn; lia). set_solver.
Qed.

(** Until it is scheduled a call is as it was made. *)
Lemma after_unscheduled sched i o :
  ops !! i = Some o -> i ∉ sched -> (after client d ops sched).2 !! i = Some (client o).
Proof.
  intros Ho. induction sched as [|t sched IH] using rev_ind; intros Hi.
  - cbn. by rewrite list_lookup_fmap, Ho.
  - rewrite after_snoc, step_other by set_solver. apply IH. set_solver.
Qed.

Lemma completed_scheduled sched i x :
  (forall o, exists f, client o = Atomic f) ->
  completed_at ops (after client d ops sched).2 i = Some x -> i ∈ sched.
Proof.
  intros client_atomic H. destruct (decide (i ∈ sched)) as [?|Hi]; [done|]. exfalso.
  unfold completed_at in H. destruct (ops !! i) as [o|] eqn:Ho; [|done].
  rewrite (after_unscheduled _ _ o) in H by done.
  destruct (client_atomic o) as [f Hf]. by rewrite Hf in H.
Qed.
End ScheduleLemmas.

(** ** Lemmas: linearization

    The log lists the calls that have returned, in an order in which the in-memory
    backend gives each its outcome.  A call that is refused at its second access
    because the entry has since been consumed is put back to a moment, after its
    first access, when the entry was [Pending]. *)

Section Linearization.
Context {T : Type} `{!TableOps T, !TableLaws T}.
Variables (db0 : RedbReplayDb T) (m0 : entries) (ops : list db_op).
Notation at_ sched := (after redb_call db0 ops sched).
Notation entry := (nat * (db_op * outcome))%type.

Definition in_order (sched : list nat) : relation entry :=
  fun x y => ~ precedes redb_call db0 ops sched y.1 x.1.

(** A call between its two accesses: what it read, and where in the log that was. *)
Definition midway (sched : list nat) (log : list entry) (i : nat) (o : db_op) (c : call _) : Prop :=
  exists id s p q m1, o = ConsumeIfUnconsumed id /\ armable s /\ c = consume_after_read id s /\
    log = p ++ q /\ explains m0 p.*2 m1 /\ m1 !! id = s /\
    forall y, y ∈ q -> ~ precedes redb_call db0 ops sched y.1 i.

Record lin (sched : list nat) (log : list entry) (m : entries) : Prop := {
  lin_nodup : NoDup log.*1;
  lin_complete : forall i x, (i, x) ∈ log <-> completed_at ops (at_ sched).2 i = Some x;
  lin_explains : explains m0 log.*2 m;
  lin_abs : redb_abs (at_ sched).1 m;
  lin_sorted : StronglySorted (in_order sched) log;
  lin_shape : forall i o c, ops !! i = Some o -> (at_ sched).2 !! i = Some c -> i ∈ sched ->
    (exists r, c = Return r) \/ midway sched log i o c
}.

Lemma redb_call_atomic o : exists f, redb_call (T := T) o = Atomic f.
Proof.
  destruct o as [k|k|k|i|i]; try by eexists. cbn. unfold confirm_consumed.
  destruct (to_b32 k); by eexists.
Qed.

Lemma lin_scheduled sched log m x : lin sched log m -> x ∈ log -> x.1 ∈ sched.
Proof.
  intros H Hx. destruct x as [i x]. apply (lin_complete _ _ _ H) in Hx.
  eapply completed_scheduled; [apply redb_call_atomic|done].
Qed.

Lemma lin_nil : redb_abs db0 m0 -> lin [] [] m0.
Proof.
  intros Habs. split; [constructor| |done|done|constructor|].
  - intros j x. split; [by intros ?%not_elem_of_nil|].
    intros H. exfalso. apply (not_elem_of_nil j).
    eapply completed_scheduled; [apply redb_call_atomic|done].
  - by intros j o c _ _ ?%not_elem_of_nil.
Qed.

(** A call midway keeps its place when an entry that has not returned before it
    started is put in the log: at the end, or where it changes nothing. *)
Lemma midway_insert sched p q t x i o c :
  i ∈ sched -> ~ is_Some (completed_at ops (at_ sched).2 t) ->
  q = [] \/ (exists mp, explains m0 p.*2 mp /\ im_exec x.1 mp = (mp, x.2)) ->
  midway sched (p ++ q) i o c -> midway (sched ++ [t]) (p ++ (t, x) :: q) i o c.
Proof.
  intros Hi Ht Hq (id & s & p' & q' & m1 & -> & Hs & -> & Hpq & Hex & Hm1 & Hord).
  assert (Hnew : forall y, y ∈ q' \/ y = (t, x) ->
                  ~ precedes redb_call db0 ops (sched ++ [t]) y.1 i).
  { intros y Hy Hp. apply precedes_snoc in Hp; [|done]. destruct Hy as [Hy| ->].
    - by eapply Hord.
    - by apply precedes_completed in Hp. }
  symmetry in Hpq. apply app_eq_inv in Hpq as [(r & -> & ->)|(r & -> & ->)].
  - destruct r as [|z r].
    + exists id, s, p, ((t, x) :: q'), m1. rewrite app_nil_r in *.
      repeat split; try done. set_solver.
    + destruct Hq as [Hq|(mp & Hmp & Hx)]; [done|].
      exists id, s, (p ++ (t, x) :: z :: r), q', m1. rewrite <- app_assoc.
      repeat split; try done; [|set_solver].
      rewrite fmap_app in *. apply explains_app in Hex as (mp' & H1 & H2).
      rewrite (explains_det _ _ _ _ H1 Hmp) in H2.
      apply explains_app. exists mp. split; [done|]. cbn. destruct x as [o' r']. cbn in *.
      rewrite Hx. done.
  - exists id, s, p', (r ++ (t, x) :: q), m1. rewrite <- app_assoc.
    repeat split; try done. intros y Hy. apply Hnew.
    rewrite elem_of_app, elem_of_cons in *. set_solver.
Qed.

(** Order in real time is not disturbed by a later step. *)
Lemma in_order_snoc sched t (l : list entry) :
  (forall x, x ∈ l -> x.1 ∈ sched) ->
  StronglySorted (in_order sched) l -> StronglySorted (in_order (sched ++ [t])) l.
Proof.
  intros Hin. induction 1 as [|x l Hl IH Hx]; constructor; [apply IH; set_solver|].
  rewrite Forall_forall in *. intros y Hy Hp. apply (Hx y Hy).
  eapply precedes_snoc; [|done]. set_solver.
Qed.

(** Putting a call that has just returned in the log. *)
Lemma lin_insert sched p q m t o r db1 m' :
  lin sched (p ++ q) m -> ops !! t = Some o ->
  ~ is_Some (completed_at ops (at_ sched).2 t) ->
  at_ (sched ++ [t]) = (db1, <[t := Return r]> (at_ sched).2) ->
  q = [] \/ (exists mp, explains m0 p.*2 mp /\ im_exec o mp = (mp, r)) ->
  (forall y, y ∈ q -> t ∈ sched /\ ~ precedes redb_call db0 ops sched y.1 t) ->
  explains m0 (p ++ (t, (o, r)) :: q).*2 m' -> redb_abs db1 m' ->
  lin (sched ++ [t]) (p ++ (t, (o, r)) :: q) m'.
Proof.
  intros H Ho Ht Hat Hq Hord Hex Habs.
  assert (Hlt : t < length (at_ sched).2) by (rewrite after_length; by eapply lookup_lt_Some).
  assert (Hnt : forall x, x ∈ p ++ q -> x.1 <> t).
  { intros [i x] Hx Heq. cbn in Heq. subst i. apply (lin_complete _ _ _ H) in Hx.
    apply Ht. by rewrite Hx. }
  assert (Hold : forall x y, x ∈ p ++ q -> in_order sched x y -> in_order (sched ++ [t]) x y).
  { intros x y Hx Hxy Hp. apply Hxy. eapply precedes_snoc; [|done]. by eapply lin_scheduled. }
  split.
  - rewrite fmap_app, fmap_cons. apply (NoDup_Permutation_proper _ _ (Permutation_middle _ _ _)).
    rewrite NoDup_cons, <- fmap_app. split; [|apply H].
    intros ([i x] & Hi & Hx)%list_elem_of_fmap. by eapply Hnt.
  - intros i x. rewrite Hat. unfold completed_at. cbn [snd].
    rewrite elem_of_app, elem_of_cons. destruct (decide (i = t)) as [->|Hne].
    + rewrite list_lookup_insert_eq, Ho by done. split; [|naive_solver].
      intros [Hx|[[= <-]|Hx]]; [|done|]; exfalso; apply (Hnt (t, x)); set_solver.
    + rewrite list_lookup_insert_ne by done. pose proof (lin_complete _ _ _ H i x) as Hc.
      unfold completed_at in Hc. rewrite <- Hc, elem_of_app. naive_solver.
  - done.
  - by rewrite Hat.
  - pose proof (lin_sorted _ _ _ H) as Hs. apply StronglySorted_app in Hs as (Hpq & Hp & Hqs).
    apply StronglySorted_app_2.
    + intros x y Hx Hy. apply elem_of_cons in Hy as [->|Hy].
      * intros Hpr. apply precedes_snoc in Hpr; [by apply precedes_completed in Hpr|].
        eapply lin_scheduled; [done|]. set_solver.
      * apply Hold; [set_solver|by apply Hpq].
    + apply in_order_snoc; [|done]. intros x Hx. eapply lin_scheduled; [done|]. set_solver.
    + constructor.
      * apply in_order_snoc; [|done]. intros x Hx. eapply lin_scheduled; [done|]. set_solver.
      * apply Forall_forall. intros y Hy Hpr. destruct (Hord y Hy) as [Hs Hn].
        apply Hn. by eapply precedes_snoc.
  - intros i o' c Ho' Hc Hi. rewrite Hat in Hc. cbn [snd] in Hc.
    destruct (decide (i = t)) as [->|Hne].
    + rewrite list_lookup_insert_eq in Hc by done. injection Hc as <-. left. by exists r.
    + rewrite list_lookup_insert_ne in Hc by done.
      assert (Hi' : i ∈ sched) by set_solver.
      destruct (lin_shape _ _ _ H i o' c Ho' Hc Hi') as [?|Hm]; [by left|right].
      by apply midway_insert.
Qed.

(** A step that changes neither the calls nor the tables. *)
Lemma lin_idle sched log m t :
  lin sched log m -> at_ (sched ++ [t]) = at_ sched ->
  (forall o, ops !! t = Some o -> t ∈ sched) -> lin (sched ++ [t]) log m.
Proof.
  intros H Hat Ht. assert (Hold : forall i j, j ∈ sched ->
    precedes redb_call db0 ops (sched ++ [t]) i j -> precedes redb_call db0 ops sched i j).
  { intros. by eapply precedes_snoc. }
  split; try rewrite Hat; try apply H.
  - pose proof (lin_sorted _ _ _ H) as Hs.
    apply in_order_snoc; [|done]. intros. by eapply lin_scheduled.
  - intros i o c Ho Hc Hi. assert (Hi' : i ∈ sched) by set_solver.
    destruct (lin_shape _ _ _ H i o c Ho Hc Hi') as [?|(id & s & p & q & m1 & Hm)]; [by left|right].
    exists id, s, p, q, m1. destruct Hm as (? & ? & ? & ? & ? & ? & Hm). repeat split; try done.
    intros y Hy Hp. by apply (Hm y Hy), Hold.
Qed.

(** A call that returns at this very step goes at the end of the log. *)
Lemma lin_append sched log m t o f db1 :
  lin sched log m -> ops !! t = Some o -> (at_ sched).2 !! t = Some (Atomic f) ->
  f (at_ sched).1 = (db1, Return (snd (im_exec o m))) -> redb_abs db1 (fst (im_exec o m)) ->
  exists log' m', lin (sched ++ [t]) log' m'.
Proof.
  intros H Ho Hc Hf Habs. exists (log ++ [(t, (o, snd (im_exec o m)))]), (fst (im_exec o m)).
  eapply (lin_insert _ _ _ m _ _ _ db1); try done.
  - by rewrite app_nil_r.
  - unfold completed_at. rewrite Ho, Hc. by intros [? [=]].
  - rewrite after_snoc. unfold step. by rewrite Hc, Hf.
  - by left.
  - by intros y ?%not_elem_of_nil.
  - rewrite fmap_app. apply explains_app. exists m. split; [apply H|done].
Qed.

(** The first access of [consume_if_unconsumed] when it decides nothing yet. *)
Lemma lin_enter sched log m t id f :
  lin sched log m -> ops !! t = Some (ConsumeIfUnconsumed id) ->
  (at_ sched).2 !! t = Some (Atomic f) ->
  f (at_ sched).1 = ((at_ sched).1, consume_after_read id (m !! id)) -> armable (m !! id) ->
  lin (sched ++ [t]) log m.
Proof.
  intros H Ho Hc Hf Ha.
  assert (Hlt : t < length (at_ sched).2) by (by eapply lookup_lt_Some).
  assert (Hat : at_ (sched ++ [t])
                = ((at_ sched).1, <[t := consume_after_read id (m !! id)]> (at_ sched).2)).
  { rewrite after_snoc. unfold step. by rewrite Hc, Hf. }
  assert (Hnr : forall r, consume_after_read (T := T) id (m !! id) <> Return r).
  { intros r. destruct Ha as [->| ->]; done. }
  split; try rewrite Hat; cbn [fst snd]; try apply H.
  - intros i x. rewrite (lin_complete _ _ _ H). unfold completed_at.
    destruct (decide (t = i)) as [<-|Hne]; [|by rewrite list_lookup_insert_ne].
    rewrite list_lookup_insert_eq, Hc, Ho by done.
    destruct (consume_after_read id (m !! id)) eqn:E; [|done]. by destruct (Hnr r).
  - apply in_order_snoc; [|apply H]. intros. by eapply lin_scheduled.
  - intros i o c Ho' Hc' Hi. destruct (decide (t = i)) as [<-|Hne].
    + rewrite list_lookup_insert_eq in Hc' by done. injection Hc' as <-. right.
      rewrite Ho in Ho'. injection Ho' as <-.
      exists id, (m !! id), log, [], m. rewrite app_nil_r.
      repeat split; try done; [apply H|by intros y ?%not_elem_of_nil].
    + rewrite list_lookup_insert_ne in Hc' by done. assert (Hi' : i ∈ sched) by set_solver.
      destruct (lin_shape _ _ _ H i o c Ho' Hc' Hi') as [?|(j & s & p & q & m1 & Hm)];
        [by left|right].
      exists j, s, p, q, m1. destruct Hm as (? & ? & ? & ? & ? & ? & Hm). repeat split; try done.
      intros y Hy Hp. apply (Hm y Hy). by eapply precedes_snoc.
Qed.

(** A refusal at the second access is put back to when the entry was [Pending]. *)
Lemma lin_refused sched p q m m1 t id f :
  lin sched (p ++ q) m -> ops !! t = Some (ConsumeIfUnconsumed id) -> t ∈ sched ->
  (at_ sched).2 !! t = Some (Atomic f) -> explains m0 p.*2 m1 -> armable (m1 !! id) ->
  (forall y, y ∈ q -> ~ precedes redb_call db0 ops sched y.1 t) ->
  m !! id <> m1 !! id -> f (at_ sched).1 = ((at_ sched).1, Return (Err AlreadyExists)) ->
  exists log' m', lin (sched ++ [t]) log' m'.
Proof.
  intros H Ho Ht Hc Hp Ha Hord Hne Hf.
  assert (Hq : explains m1 q.*2 m).
  { pose proof (lin_explains _ _ _ H) as He. rewrite fmap_app in He.
    apply explains_app in He as (m1' & H1 & H2). by rewrite (explains_det _ _ _ _ Hp H1). }
  destruct (explains_through_pending _ _ _ _ Hq Ha Hne) as (h1 & h2 & mp & Hh & H1 & Hmp & H2).
  apply fmap_app_inv in Hh as (q1 & q2 & -> & -> & ->). rewrite app_assoc in H.
  assert (Hex : explains m0 (p ++ q1).*2 mp).
  { rewrite fmap_app. apply explains_app. by exists m1. }
  assert (Hnoop : im_exec (ConsumeIfUnconsumed id) mp = (mp, Err AlreadyExists)).
  { cbn. unfold im_consume_if_unconsumed. by rewrite Hmp. }
  exists ((p ++ q1) ++ (t, (ConsumeIfUnconsumed id, Err AlreadyExists)) :: q2), m.
  eapply (lin_insert _ _ _ m _ _ _ (at_ sched).1); try done.
  - unfold completed_at. rewrite Ho, Hc. by intros [? [=]].
  - rewrite after_snoc. unfold step. by rewrite Hc, Hf.
  - right. by exists mp.
  - intros y Hy. split; [done|]. apply Hord. set_solver.
  - rewrite fmap_app. apply explains_app. exists mp. split; [done|]. cbn [fmap list_fmap snd explains].
    by rewrite Hnoop.
  - apply H.
Qed.

Lemma lin_second sched log m t o f :
  lin sched log m -> ops !! t = Some o -> t ∈ sched ->
  (at_ sched).2 !! t = Some (Atomic f) -> midway sched log t o (Atomic f) ->
  exists log' m', lin (sched ++ [t]) log' m'.
Proof.
  intros H Ho Ht Hc (id & s & p & q & m1 & -> & Ha & Hf & -> & Hp & Hm1 & Hord).
  assert (Hs : is_Some s -> is_Some (m !! id)).
  { rewrite <- Hm1. pose proof (lin_explains _ _ _ H) as He. rewrite fmap_app in He.
    apply explains_app in He as (m1' & H1 & H2). rewrite (explains_det _ _ _ _ Hp H1).
    by eapply explains_keeps. }
  destruct (consume_second id s _ m (lin_abs _ _ _ H) Ha Hs) as (g & Hg & Hcase).
  rewrite Hg in Hf. injection Hf as ->. case_decide as E.
  - destruct Hcase as (db' & Hdb & Habs & Hex).
    eapply (lin_append _ _ _ _ _ _ db'); [done..| |by rewrite Hex].
    cbv beta. by rewrite Hdb, Hex.
  - subst s. eapply lin_refused; try done. cbv beta. by rewrite Hcase.
Qed.

Lemma lin_first sched log m t o :
  lin sched log m -> ops !! t = Some o -> (at_ sched).2 !! t = Some (redb_call o) ->
  exists log' m', lin (sched ++ [t]) log' m'.
Proof.
  intros H Ho Hc. pose proof (lin_abs _ _ _ H) as Habs.
  destruct (redb_call_once (T := T) o) as [[id ->]|(f & Hf & Href)].
  - pose proof (proj1 (Habs id)) as Hread.
    assert (Hcase : armable (m !! id) \/
              consume_after_read (T := T) id (m !! id)
              = Return (snd (im_exec (ConsumeIfUnconsumed id) m)) /\
              fst (im_exec (ConsumeIfUnconsumed id) m) = m).
    { unfold armable. cbn. unfold im_consume_if_unconsumed.
      destruct (m !! id) as [[]|]; [right|right|left; right|left; left]; done. }
    destruct Hcase as [Ha|[Hr Hm]].
    + exists log, m. eapply lin_enter; try done. cbv beta. by rewrite Hread.
    + eapply (lin_append _ _ _ _ _ _ (at_ sched).1); try done.
      * cbv beta. by rewrite Hread, Hr.
      * by rewrite Hm.
  - rewrite Hf in Hc. destruct (Href _ _ Habs) as (db' & Hdb & Hab).
    eapply (lin_append _ _ _ _ _ _ db'); try done. cbv beta. by rewrite Hdb.
Qed.

Lemma lin_step sched log m t :
  lin sched log m -> exists log' m', lin (sched ++ [t]) log' m'.
Proof.
  intros H. destruct ((at_ sched).2 !! t) as [[r|f]|] eqn:Hc.
  - exists log, m. apply lin_idle; [done| |].
    + rewrite after_snoc. unfold step. by rewrite Hc.
    + intros o Ho. destruct (decide (t ∈ sched)) as [?|Hn]; [done|]. exfalso.
      rewrite (after_unscheduled _ _ _ _ _ o) in Hc by done.
      destruct (redb_call_atomic o) as [f Hf]. congruence.
  - destruct (ops !! t) as [o|] eqn:Ho.
    + destruct (decide (t ∈ sched)) as [Ht|Ht].
      * destruct (lin_shape _ _ _ H t o _ Ho Hc Ht) as [[r [=]]|Hm]. by eapply lin_second.
      * pose proof (after_unscheduled redb_call db0 ops sched t o Ho Ht) as Hc'.
        by eapply lin_first.
    + exfalso. apply lookup_lt_Some in Hc. rewrite after_length in Hc.
      apply lookup_ge_None in Ho. lia.
  - exists log, m. apply lin_idle; [done| |].
    + rewrite after_snoc. unfold step. by rewrite Hc.
    + intros o Ho. exfalso. apply lookup_ge_None in Hc. rewrite after_length in Hc.
      apply lookup_lt_Some in Ho. lia.
Qed.

Lemma linearize sched : redb_abs db0 m0 -> exists log m, lin sched log m.
Proof.
  intros Habs. induction sched as [|t sched (log & m & IH)] using rev_ind.
  - exists [], m0. by apply lin_nil.
  - by eapply lin_step.
Qed.
End Linearization.

(** ** Lemmas: counting outcomes *)

Lemma omap_perm {A B} (f : A -> option B) (l k : list A) : l ≡ₚ k -> omap f l ≡ₚ omap f k.
Proof.
  induction 1 as [|x l k Hlk IH|x y l|l k j Hlk IH1 Hkj IH2]; cbn; try done.
  - destruct (f x); [by rewrite IH|done].
  - destruct (f x), (f y); try done. apply perm_swap.
  - by rewrite IH1.
Qed.

Lemma omap_filter_Some {A B} (f : A -> option B) (l : list A) :
  omap f (filter (fun x => is_Some (f x)) l) = omap f l.
Proof.
  induction l as [|x l IH]; [done|]. rewrite filter_cons. cbn [omap list_omap].
  destruct (f x) as [y|] eqn:E; case_decide as Hx.
  - cbn [omap list_omap]. rewrite E. by f_equal.
  - by destruct Hx.
  - by destruct Hx as [? [=]].
  - done.
Qed.

(** The completed calls are, in some order, the outcomes of any list that has each of
    them once. *)
Lemma completed_perm {D} (ops : list db_op) (calls : list (call D))
    (log : list (nat * (db_op * outcome))) :
  NoDup log.*1 -> (forall i x, (i, x) ∈ log <-> completed_at ops calls i = Some x) ->
  completed ops calls ≡ₚ log.*2.
Proof.
  intros Hnd Hc. assert (Hlog : log.*2 = omap (completed_at ops calls) log.*1).
  { assert (Hall : forall x, x ∈ log -> completed_at ops calls x.1 = Some x.2).
    { intros [i x] Hx. by apply Hc. }
    clear Hnd Hc. induction log as [|x log IH]; [done|]. cbn.
    rewrite (Hall x) by set_solver. f_equal. apply IH. set_solver. }
  rewrite Hlog. unfold completed. rewrite <- omap_filter_Some. apply omap_perm.
  apply NoDup_Permutation; [apply NoDup_filter, NoDup_seq|done|]. intros i.
  rewrite list_elem_of_filter, elem_of_seq, list_elem_of_fmap. split.
  - intros [[x Hx] _]. exists (i, x). split; [done|]. by apply Hc.
  - intros ([j x] & -> & Hx). apply Hc in Hx. cbn. split; [by exists x|].
    unfold completed_at in Hx. destruct (ops !! j) eqn:E; [|done].
    apply lookup_lt_Some in E. lia.
Qed.

(** Calls that were told to go ahead with [id], calls that gave [id] back, and calls
    that would settle it. *)
Definition granted (id : bytes) (x : db_op * outcome) : Prop :=
  (x.1 = InsertIfAbsent id \/ x.1 = ConsumeIfUnconsumed id) /\ x.2 = Ok tt.
Definition released (id : bytes) (x : db_op * outcome) : Prop :=
  match x.1 with MarkRolledBack i => replay_id_bytes i = id /\ x.2 = Ok tt | _ => False end.
Definition confirms (id : bytes) (o : db_op) : Prop :=
  match o with
  | ConfirmConsumed i => i = id
  | ConfirmConsumedReplayId i => replay_id_bytes i = id
  | _ => False
  end.

Global Instance db_op_eq_dec : EqDecision db_op.
Proof. solve_decision. Defined.
Global Instance granted_dec id x : Decision (granted id x).
Proof. unfold granted. apply _. Defined.
Global Instance released_dec id x : Decision (released id x).
Proof. unfold released. destruct x.1; apply _. Defined.

Definition tally (P : db_op * outcome -> Prop) `{!forall x, Decision (P x)}
    (l : list (db_op * outcome)) : nat := length (filter P l).

Definition is_pending (s : option ReplayEntryState) : nat :=
  if bool_decide (s = Some Pending) then 1 else 0.

Lemma tally_cons P `{!forall x, Decision (P x)} x l :
  tally P (x :: l) = (if decide (P x) then 1 else 0) + tally P l.
Proof. unfold tally. rewrite filter_cons. by case_decide. Qed.

(** The identifier a call is about. *)
Definition op_key (o : db_op) : bytes :=
  match o with
  | InsertIfAbsent i | ConsumeIfUnconsumed i | ConfirmConsumed i => i
  | ConfirmConsumedReplayId i | MarkRolledBack i => replay_id_bytes i
  end.

Lemma im_exec_other o m id : op_key o <> id -> fst (im_exec o m) !! id = m !! id.
Proof.
  assert (Hc : forall i, replay_id_bytes i <> id ->
            fst (im_confirm_consumed_replay_id m i) !! id = m !! id).
  { intros i Hi. unfold im_confirm_consumed_replay_id.
    destruct (m !! replay_id_bytes i) as [[]|]; cbn; by rewrite ?lookup_insert_ne. }
  destruct o as [k|k|k|i|i]; cbn [op_key im_exec]; intros Hne.
  - unfold im_insert_if_absent. destruct (im_contains m k); cbn; by rewrite ?lookup_insert_ne.
  - unfold im_consume_if_unconsumed. destruct (m !! k) as [[]|]; cbn; by rewrite ?lookup_insert_ne.
  - unfold confirm_consumed. destruct (to_b32 k) as [h|] eqn:E; [|done].
    apply to_b32_Some in E. subst k. by apply Hc.
  - by apply Hc.
  - unfold im_mark_rolled_back. destruct (m !! replay_id_bytes i) as [[]|]; cbn;
      by rewrite ?lookup_insert_ne.
Qed.

(** One call: a grant makes the entry pending, a release ends that, and without a
    confirmation nothing else does. *)
Lemma im_exec_grants o m id :
  m !! id <> Some Consumed -> ~ confirms id o ->
  let m' := fst (im_exec o m) in let x := (o, snd (im_exec o m)) in
  m' !! id <> Some Consumed /\
  (if decide (granted id x) then 1 else 0) + is_pending (m !! id)
  <= (if decide (released id x) then 1 else 0) + is_pending (m' !! id).
Proof.
  intros Hm Hc. cbn zeta. destruct (decide (op_key o = id)) as [Hk|Hne].
  - destruct o as [k|k|k|i|i]; cbn [op_key] in Hk; subst id; cbn [im_exec confirms] in *; try done.
    + unfold im_insert_if_absent, im_contains, granted, released.
      destruct (m !! k) as [s|] eqn:E; cbn; rewrite ?lookup_insert_eq, ?E;
        repeat case_decide; cbn; split; try done; try lia; naive_solver.
    + unfold im_consume_if_unconsumed, granted, released.
      destruct (m !! k) as [[]|] eqn:E; cbn; rewrite ?lookup_insert_eq, ?E;
        repeat case_decide; cbn; split; try done; try lia; naive_solver.
    + unfold im_mark_rolled_back, granted, released.
      destruct (m !! replay_id_bytes i) as [[]|] eqn:E; cbn; rewrite ?lookup_insert_eq, ?E;
        repeat case_decide; cbn; split; try done; try lia; naive_solver.
  - rewrite im_exec_other by done. split; [done|].
    assert (Hg : ~ granted id (o, snd (im_exec o m))).
    { unfold granted. cbn. intros [[->| ->] _]; by apply Hne. }
    rewrite decide_False by done. case_decide; lia.
Qed.

Lemma explains_grants h m m' id :
  explains m h m' -> m !! id <> Some Consumed -> Forall (fun x => ~ confirms id x.1) h ->
  tally (granted id) h + is_pending (m !! id) <= tally (released id) h + is_pending (m' !! id).
Proof.
  revert m. induction h as [|[o r] h IH]; intros m; cbn [explains]; [by intros ->|].
  intros [<- Hh] Hm [Ho Hc]%Forall_cons. rewrite !tally_cons.
  destruct (im_exec_grants o m id Hm Ho) as [Hm' Hstep].
  specialize (IH _ Hh Hm' Hc). cbn zeta in Hstep. lia.
Qed.

(** ** Lemmas: accesses left *)

(** A call that returns within [n] accesses, whatever it finds. *)
Inductive returns_within {D} : nat -> call D -> Prop :=
| rw_return n r : returns_within n (Return r)
| rw_atomic n f : (forall d, returns_within n (snd (f d))) -> returns_within (S n) (Atomic f).

Definition times (i : nat) (sched : list nat) : nat := length (filter (fun t => t = i) sched).

Lemma once_within {D} (f : D -> D * outcome) : returns_within 1 (once f).
Proof. constructor. intros d. destruct (f d). constructor. Qed.

Lemma returns_within_S {D} n (c : call D) : returns_within n c -> returns_within (S n) c.
Proof. induction 1; constructor; auto. Qed.

Lemma fold_returns {D} (sched : list nat) (c : D * list (call D)) i k n :
  c.2 !! i = Some k -> returns_within n k -> n <= times i sched ->
  exists r, (fold_left step sched c).2 !! i = Some (Return r).
Proof.
  revert c k n. induction sched as [|t sched IH]; intros c k n Hi Hk Hn.
  - destruct Hk as [n r|n f Hf]; [by exists r|]. cbn in Hn. lia.
  - unfold times in Hn. rewrite filter_cons in Hn. cbn [fold_left].
    destruct (decide (t = i)) as [->|Hne].
    + destruct Hk as [n r|n f Hf].
      * eapply (IH _ (Return r) 0); [by apply step_returned|constructor|lia].
      * destruct (f c.1) as [d' k'] eqn:E.
        eapply (IH _ k' n); [| |cbn in Hn; unfold times; lia].
        -- unfold step. rewrite Hi, E. cbn. apply list_lookup_insert_eq. by eapply lookup_lt_Some.
        -- specialize (Hf c.1). by rewrite E in Hf.
    + eapply (IH _ k n); [by rewrite step_other|done|done].
Qed.

Lemma im_call_within o : returns_within 2 (im_call o).
Proof. apply returns_within_S, once_within. Qed.

Lemma redb_call_within {T} `{!TableOps T} o : returns_within 2 (redb_call (T := T) o).
Proof.
  destruct o as [k|k|k|i|i]; try apply returns_within_S, once_within.
  - constructor. intros db. cbn. unfold consume_after_read.
    destruct (read_state db k) as [[]|]; first [apply rw_return|apply once_within].
  - cbn. unfold confirm_consumed. destruct (to_b32 k); apply returns_within_S, once_within.
Qed.

Lemma pg_settle_within id next : returns_within 2 (pg_settle id next).
Proof.
  constructor. intros t. destruct (pg_update _ _ _ _) as [t' [|n]]; [apply once_within|constructor].
Qed.

Lemma pg_call_within o : returns_within 2 (pg_call o).
Proof.
  destruct o as [k|k|k|i|i]; try apply pg_settle_within.
  - apply returns_within_S, once_within.
  - constructor. intros t. cbn. unfold pg_consume_after_select.
    destruct (t !! hex_id k) as [s|]; [|apply once_within].
    repeat case_bool_decide; first [apply rw_return|apply once_within].
  - cbn. unfold confirm_consumed. destruct (to_b32 k); [apply pg_settle_within|].
    apply returns_within_S, once_within.
Qed.

(** ** Lemmas: the Postgres race *)

Lemma pg_update_lookup_ne (t : rows) id next cur k :
  k <> id -> fst (pg_update t id next cur) !! k = t !! k.
Proof. intros. unfold pg_update. case_bool_decide; cbn; by rewrite ?lookup_insert_ne. Qed.

Definition rearm (id : bytes) : call rows :=
  once (fun t => (fst (pg_update t (hex_id id) "Pending" "RolledBack"), Ok tt)).

Lemma pg_select_phase (t : rows) id n k :
  t !! hex_id id = Some "RolledBack"%string ->
  fold_left step (seq k n)
    (t, replicate k (rearm id) ++ replicate n (pg_call (ConsumeIfUnconsumed id)))
  = (t, replicate (k + n) (rearm id)).
Proof.
  intros Ht. revert k. induction n as [|n IH]; intros k; [by rewrite app_nil_r, Nat.add_0_r|].
  cbn [seq fold_left]. unfold step at 2. cbn [fst snd].
  rewrite lookup_app_r, length_replicate, Nat.sub_diag by (by rewrite length_replicate).
  cbn [replicate lookup list_lookup pg_call]. rewrite Ht. cbn [pg_consume_after_select].
  rewrite insert_app_r_alt by (by rewrite length_replicate).
  rewrite length_replicate, Nat.sub_diag. cbn [insert list_insert].
  replace (k + S n) with (S k + n) by lia. rewrite <- IH. do 2 f_equal.
  rewrite replicate_S_end, <- app_assoc. done.
Qed.

Lemma pg_update_phase (t : rows) id n k :
  exists t', fold_left step (seq k n)
    (t, replicate k (Return (Ok tt)) ++ replicate n (rearm id))
  = (t', replicate (k + n) (Return (Ok tt))).
Proof.
  revert t k. induction n as [|n IH]; intros t k.
  { exists t. by rewrite app_nil_r, Nat.add_0_r. }
  cbn [seq fold_left]. unfold step at 2. cbn [fst snd].
  rewrite lookup_app_r, length_replicate, Nat.sub_diag by (by rewrite length_replicate).
  cbn [replicate lookup list_lookup rearm once].
  rewrite insert_app_r_alt by (by rewrite length_replicate).
  rewrite length_replicate, Nat.sub_diag. cbn [insert list_insert].
  destruct (IH (fst (pg_update t (hex_id id) "Pending" "RolledBack")) (S k)) as [t' Ht'].
  exists t'. replace (k + S n) with (S k + n) by lia. rewrite <- Ht'. do 2 f_equal.
  rewrite replicate_S_end, <- app_assoc. done.
Qed.

(** ** Theorems *)

(** C12: The redb backend is linearizable.  However any number of concurrent calls on
    any identifiers are interleaved, between and inside their transactions, the calls
    that have returned can be put in one order, which respects real time, in which the
    in-memory backend, running one call at a time, gives every call the outcome it got
    and ends with exactly the entries redb's tables hold. *)
Theorem redb_linearizable {T} `{!TableOps T, !TableLaws T} (db0 : RedbReplayDb T) (m0 : entries)
    (ops : list db_op) (sched : list nat) (Habs : redb_abs db0 m0) :
  let c := after redb_call db0 ops sched in
  exists (log : list (nat * (db_op * outcome))) (m : entries),
    NoDup log.*1 /\ (forall i x, (i, x) ∈ log <-> completed_at ops c.2 i = Some x) /\
    StronglySorted (fun x y => ~ precedes redb_call db0 ops sched y.1 x.1) log /\
    explains m0 log.*2 m /\ redb_abs c.1 m.
Proof.
  intros c. destruct (linearize db0 m0 ops sched Habs) as (log & m & H).
  exists log, m. destruct H as [H1 H2 H3 H4 H5 H6]. done.
Qed.

(** A replay identifier is granted once at a time.  In any interleaving of calls on
    the redb backend from a state where [id] is not consumed, and among which none
    confirms it, the callers told to go ahead with [id] are at most one more than those
    that gave it back, and none more if it was already pending. *)
Theorem redb_single_grant {T} `{!TableOps T, !TableLaws T} (db0 : RedbReplayDb T) (m0 : entries)
    (ops : list db_op) (sched : list nat) (id : bytes) (Habs : redb_abs db0 m0)
    (Hid : m0 !! id <> Some Consumed) (Hconf : Forall (fun o => ~ confirms id o) ops) :
  let done_ := completed ops (after redb_call db0 ops sched).2 in
  tally (granted id) done_ + is_pending (m0 !! id) <= 1 + tally (released id) done_.
Proof.
  intros done_. destruct (linearize db0 m0 ops sched Habs) as (log & m & H).
  assert (Hperm : done_ ≡ₚ log.*2) by (apply completed_perm; apply H).
  assert (Hg : tally (granted id) log.*2 + is_pending (m0 !! id)
               <= tally (released id) log.*2 + is_pending (m !! id)).
  { apply explains_grants; [apply H|done|]. apply Forall_forall. intros x Hx.
    apply list_elem_of_fmap in Hx as ([i y] & -> & Hx). apply (lin_complete _ _ _ _ _ _ H) in Hx.
    unfold completed_at in Hx. destruct (ops !! i) as [o|] eqn:E; [|done].
    repeat case_match; try done. injection Hx as <-. cbn.
    apply (proj1 (Forall_forall _ _) Hconf). by eapply list_elem_of_lookup_2. }
  assert (is_pending (m !! id) <= 1) by (unfold is_pending; case_bool_decide; lia).
  unfold tally in *. rewrite !Hperm. lia.
Qed.

(** Every call returns: on each of the three backends, whatever the other calls do
    and whatever the tables hold, a call that gets to make two accesses has returned. *)
Theorem replay_calls_return {T} `{!TableOps T} (m : entries) (db : RedbReplayDb T) (t : rows)
    (ops : list db_op) (sched : list nat) (i : nat) (Hi : i < length ops)
    (Htimes : 2 <= times i sched) :
  is_Some (completed_at ops (after im_call m ops sched).2 i) /\
  is_Some (completed_at ops (after redb_call db ops sched).2 i) /\
  is_Some (completed_at ops (after pg_call t ops sched).2 i).
Proof.
  destruct (lookup_lt_is_Some_2 _ _ Hi) as [o Ho].
  assert (H : forall D (client : db_op -> call D) d, returns_within 2 (client o) ->
            is_Some (completed_at ops (after client d ops sched).2 i)).
  { intros D client d Hw. unfold after.
    destruct (fold_returns sched (d, client <$> ops) i (client o) 2) as [r Hr]; try done.
    - cbn. by rewrite list_lookup_fmap, Ho.
    - unfold completed_at. rewrite Ho, Hr. by eexists. }
  split; [apply H, im_call_within|split; apply H; [apply redb_call_within|apply pg_call_within]].
Qed.

(** The Postgres backend grants a rolled-back identifier to any number of callers.
    When [n] coordinators read the row before any of them updates it, every one of them
    is told to go ahead, because the number of rows the update changed is not looked
    at; redb and the in-memory backend let one of them through. *)
Theorem postgres_rearm_race (t : rows) (id : bytes) (n : nat)
    (Hid : t !! hex_id id = Some "RolledBack"%string) :
  (after pg_call t (replicate n (ConsumeIfUnconsumed id)) (seq 0 n ++ seq 0 n)).2
  = replicate n (Return (Ok tt)).
Proof.
  unfold after. rewrite fold_left_app.
  replace (pg_call <$> replicate n (ConsumeIfUnconsumed id))
    with (replicate n (pg_call (ConsumeIfUnconsumed id))) by (by rewrite fmap_replicate).
  pose proof (pg_select_phase t id n 0 Hid) as H1. cbn [replicate app Nat.add] in H1. rewrite H1.
  destruct (pg_update_phase t id n 0) as [t' H2]. cbn [replicate app Nat.add] in H2. by rewrite H2.
Qed.

(** ** Witnesses: redb's tables as finite maps *)

Global Instance gmap_table : TableOps (gmap bytes bytes) :=
  {| tget t k := t !! k; tinsert t k v := <[k := v]> t |}.
Global Instance gmap_table_laws : TableLaws (gmap bytes bytes).
Proof. split; intros; cbn; by rewrite ?lookup_insert_eq, ?lookup_insert_ne. Qed.

Definition empty_redb : RedbReplayDb (gmap bytes bytes) := mkRedb ∅ ∅.

Lemma empty_redb_abs : redb_abs empty_redb ∅.
Proof. intros key. unfold read_state, empty_redb. cbn. by rewrite !lookup_empty. Qed.

(** Two consumers, of which the second reads before the first writes, and a confirmation
    in between: the second is refused although the entry is consumed by then. *)
Definition sample_id : ReplayId := (1%N, fill32 Byte.x09).
Definition sample_ops : list db_op :=
  [ConsumeIfUnconsumed (replay_id_bytes sample_id);
   ConsumeIfUnconsumed (replay_id_bytes sample_id); ConfirmConsumedReplayId sample_id].
Definition sample_sched : list nat := [0; 1; 0; 2; 1].

Example sample_outcomes :
  completed sample_ops (after redb_call empty_redb sample_ops sample_sched).2
  = [(ConsumeIfUnconsumed (replay_id_bytes sample_id), Ok tt);
     (ConsumeIfUnconsumed (replay_id_bytes sample_id), Err AlreadyExists);
     (ConfirmConsumedReplayId sample_id, Ok tt)].
Proof. vm_compute. reflexivity. Qed.

Lemma redb_linearizable_witness :
  exists (log : list (nat * (db_op * outcome))) (m : entries),
    explains ∅ log.*2 m /\
    forall i x, (i, x) ∈ log <->
      completed_at sample_ops (after redb_call empty_redb sample_ops sample_sched).2 i = Some x.
Proof.
  destruct (redb_linearizable empty_redb ∅ sample_ops sample_sched empty_redb_abs)
    as (log & m & _ & H1 & _ & H2 & _).
  exists log, m. split; [exact H2|exact H1].
Defined.

Lemma redb_single_grant_witness :
  let outcomes :=
    completed (take 2 sample_ops) (after redb_call empty_redb (take 2 sample_ops) [0; 1; 0; 1]).2 in
  tally (granted (replay_id_bytes sample_id)) outcomes
    + is_pending ((∅ : entries) !! replay_id_bytes sample_id)
  <= 1 + tally (released (replay_id_bytes sample_id)) outcomes.
Proof.
  apply (redb_single_grant empty_redb ∅ (take 2 sample_ops) [0; 1; 0; 1] (replay_id_bytes sample_id)).
  - apply empty_redb_abs.
  - done.
  - apply Forall_cons; split; [intros []|]. apply Forall_cons; split; [intros []|constructor].
Defined.

Lemma replay_calls_return_witness :
  is_Some (completed_at sample_ops (after redb_call empty_redb sample_ops sample_sched).2 1).
Proof.
  apply (replay_calls_return ∅ empty_redb ∅ sample_ops sample_sched 1); vm_compute; lia.
Defined.

Lemma postgres_rearm_race_witness :
  (after pg_call {[hex_id [Byte.x07] := "RolledBack"%string]}
     [ConsumeIfUnconsumed [Byte.x07]; ConsumeIfUnconsumed [Byte.x07]] [0; 1; 0; 1]).2
  = [Return (Ok tt); Return (Ok tt)].
Proof. apply (postgres_rearm_race _ [Byte.x07] 2). reflexivity. Defined.

(** * The replay database as its clients see it (csv-storage/src/traits.rs)

    What the guarded mint and the send driver rely on: a record of the state of an
    identifier, an insertion that refuses what is there, and a consumption.  The
    in-memory and the Postgres backends of ReplayDb.v, one call at a time, meet it. *)

(** [Display for ReplayDbError] *)
Definition replay_db_message (e : ReplayDbError) : string :=
  match e with
  | Storage m => "Storage error: " +:+ m
  | AlreadyExists => "Entry already exists"
  | NotFound => "Entry not found"
  end.

(** ** The interface *)

Class ReplayStore (D : Type) := {
  rs_state : D -> bytes -> option ReplayEntryState;
  rs_insert_if_absent : bytes -> D -> D * outcome;
  rs_consume_if_unconsumed : bytes -> D -> D * outcome
}.
Class ReplayStoreLaws (D : Type) `{ReplayStore D} := {
  rs_insert_spec : forall id d,
    match rs_state d id with
    | Some _ => rs_insert_if_absent id d = (d, Err AlreadyExists)
    | None => exists d', rs_insert_if_absent id d = (d', Ok tt) /\ rs_state d' id = Some Pending
    end;
  rs_insert_other : forall id id' d, id <> id' ->
    rs_state (rs_insert_if_absent id d).1 id' = rs_state d id';
  rs_consume_spec : forall id d,
    match rs_state d id with
    | Some Pending => rs_consume_if_unconsumed id d = (d, Err AlreadyExists)
    | Some Consumed => rs_consume_if_unconsumed id d = (d, Ok tt)
    | _ => exists d', rs_consume_if_unconsumed id d = (d', Ok tt) /\ rs_state d' id = Some Pending
    end
}.

Global Instance im_store : ReplayStore entries := {|
  rs_state m id := m !! id;
  rs_insert_if_absent id m := im_insert_if_absent m id;
  rs_consume_if_unconsumed id m := im_consume_if_unconsumed m id
|}.

Global Instance im_store_laws : ReplayStoreLaws entries.
Proof.
  split; intros id m; cbn.
  - unfold im_insert_if_absent, im_contains. destruct (m !! id) eqn:E; cbn; [done|].
    eexists. split; [done|]. by rewrite lookup_insert_eq.
  - intros d Hne. unfold im_insert_if_absent. destruct (im_contains d id); [done|].
    by apply lookup_insert_ne.
  - unfold im_consume_if_unconsumed. destruct (m !! id) as [[]|]; try done;
      eexists; (split; [done|]); by rewrite lookup_insert_eq.
Qed.

(** A call that runs alone, for at most [fuel] accesses. *)
Fixpoint run_alone {D} (fuel : nat) (d : D) (c : call D) : D * outcome :=
  match c, fuel with
  | Return r, _ => (d, r)
  | Atomic f, S fuel => let '(d', c') := f d in run_alone fuel d' c'
  | Atomic _, O => (d, Err (Storage "out of fuel"))
  end.

Definition pg_state (text : string) : ReplayEntryState :=
  if bool_decide (text = "Consumed"%string) then Consumed
  else if bool_decide (text = "RolledBack"%string) then RolledBack else Pending.

Global Instance pg_store : ReplayStore rows := {|
  rs_state t id := pg_state <$> (t !! hex_id id);
  rs_insert_if_absent id t := run_alone 2 t (pg_call (InsertIfAbsent id));
  rs_consume_if_unconsumed id t := run_alone 2 t (pg_call (ConsumeIfUnconsumed id))
|}.

Global Instance pg_store_laws : ReplayStoreLaws rows.
Proof.
  split; intros id t; cbn.
  - unfold pg_insert_pending. destruct (t !! hex_id id) as [s|] eqn:E; cbn; [done|].
    eexists. split; [done|]. by rewrite lookup_insert_eq.
  - intros d Hne. unfold pg_insert_pending. destruct (d !! hex_id id); [done|]. cbn.
    rewrite lookup_insert_ne; [done|]. intros Heq. apply Hne, hex_encode_inj.
    unfold hex_id in Heq. apply (f_equal as_bytes) in Heq. by rewrite !as_bytes_of_bytes in Heq.
  - unfold pg_consume_after_select, pg_state.
    destruct (t !! hex_id id) as [s|] eqn:E; cbn.
    + case_bool_decide as H1; [done|]. case_bool_decide as H2; [|done]. cbn.
      eexists. split; [done|]. unfold pg_update.
      rewrite E, H2, bool_decide_true by done. cbn. by rewrite lookup_insert_eq.
    + unfold pg_insert_pending. rewrite E. cbn. eexists. split; [done|].
      by rewrite lookup_insert_eq.
Qed.
