(* ===== verification/MintLease.v ===== *)
(** * The coordinator's lease and the guarded mint
    (csv-runtime/src/distributed_coordinator_lease.rs)

    The in-memory lease, the guard a coordinator holds, and [execute_mint], the mint
    wrapped in both the lease and the replay database.  The clock is an argument of
    every call that reads it, and arithmetic on it wraps at 64 bits.  The replay
    database is the interface of ReplayDb.v. *)

From S2P Require Import Prelude Ord Bytes Hashing Text Seal CrossChain ReplayDb.

(** ** The lease *)

Notation CoordinatorId := string.

Inductive LeaseError :=
| LConflict (held_by : string) (expires_at : N)
| LExpired (coordinator : CoordinatorId) (expired_at : N)
| LStorage (m : string).

Record LeaseState := mkLease { holder : option CoordinatorId; expires_at : option N }.
Definition InMemoryLease_new : LeaseState := mkLease None None.

(** [acquire_or_renew] *)
Definition acquire_or_renew (now : N) (id : CoordinatorId) (ttl : N) (s : LeaseState)
  : LeaseState * result LeaseError N :=
  let expiry := add64 now ttl in
  match holder s, expires_at s with
  | Some h, Some e =>
      if bool_decide (h = id) then (mkLease (holder s) (Some expiry), Ok expiry)
      else if (now <? e)%N then (s, Err (LConflict h e))
      else (mkLease (Some id) (Some expiry), Ok expiry)
  | _, _ => (mkLease (Some id) (Some expiry), Ok expiry)
  end.

(** [release] *)
Definition release (id : CoordinatorId) (s : LeaseState) : LeaseState :=
  if bool_decide (holder s = Some id) then mkLease None None else s.

(** [is_held_by] *)
Definition is_held_by (now : N) (id : CoordinatorId) (s : LeaseState) : bool :=
  match holder s, expires_at s with
  | Some h, Some e => bool_decide (h = id) && (now <? e)%N
  | _, _ => false
  end.

Record LeaseGuard := mkGuard { lg_coordinator_id : CoordinatorId; valid_until : N }.

(** [LeaseGuard::acquire] *)
Definition guard_acquire (now : N) (id : CoordinatorId) (ttl : N) (s : LeaseState)
  : LeaseState * result LeaseError LeaseGuard :=
  let '(s', r) := acquire_or_renew now id ttl s in (s', (fun u => mkGuard id u) <$> r).

(** [LeaseGuard::assert_valid] *)
Definition assert_valid (now : N) (g : LeaseGuard) : result LeaseError unit :=
  reject (valid_until g <=? now)%N with LExpired (lg_coordinator_id g) (valid_until g) ;;
  Ok tt.

(** [Display for LeaseError] *)
Definition lease_error_message (e : LeaseError) : string :=
  match e with
  | LConflict h u => "Lease conflict: held by " +:+ h +:+ " until " +:+ pretty u
  | LExpired c u => "Lease expired for coordinator " +:+ c +:+ " at " +:+ pretty u
  | LStorage m => "Storage error: " +:+ m
  end.

(** What coordinators do to a lease, each at its time. *)
Inductive lease_op :=
| LAcquire (now : N) (id : CoordinatorId) (ttl : N)
| LRelease (id : CoordinatorId).
Definition lease_step (s : LeaseState) (o : lease_op) : LeaseState :=
  match o with
  | LAcquire now id ttl => fst (acquire_or_renew now id ttl s)
  | LRelease id => release id s
  end.

(** ** [MintCoordinator] *)

Inductive RuntimeError :=
| LeaseConflict (m : string)
| LeaseExpired (m : string)
| ReplayDetected (id : Hash)
| RStorage (m : string)
| MintFailed (cause : string).

Section Mint.
Context {D Receipt : Type} `{ReplayStore D}.

(** What a run of [execute_mint] leaves: the lease, the database, whether the minter
    was called, and the result. *)
Record MintRun := mkRun {
  mr_lease : LeaseState;
  mr_db : D;
  mr_minted : bool;
  mr_result : result RuntimeError Receipt
}.

(** [execute_mint].  [t0], [t1], [t2] are the times of the acquisition and of the two
    checks; [minter] is the provider's answer and [others] what other clients do to
    the database while it runs. *)
Definition execute_mint (coordinator : CoordinatorId) (ttl t0 t1 t2 : N) (sanad_id : Hash)
    (minter : result string Receipt) (others : D -> D) (l : LeaseState) (db : D) : MintRun :=
  let '(l, g) := guard_acquire t0 coordinator ttl l in
  match g with
  | Err e => mkRun l db false (Err (LeaseConflict (lease_error_message e)))
  | Ok g =>
      match assert_valid t1 g with
      | Err e => mkRun l db false (Err (LeaseExpired (lease_error_message e)))
      | Ok _ =>
          let '(db, r) := rs_insert_if_absent (b32 sanad_id) db in
          match r with
          | Err AlreadyExists => mkRun l db false (Err (ReplayDetected sanad_id))
          | Err (Storage s) => mkRun l db false (Err (RStorage s))
          | Err NotFound => mkRun l db false (Err (RStorage "Replay ID not found"))
          | Ok _ =>
              match assert_valid t2 g with
              | Err e => mkRun l db false (Err (LeaseExpired (lease_error_message e)))
              | Ok _ =>
                  match minter with
                  | Err cause => mkRun l (others db) true (Err (MintFailed cause))
                  | Ok receipt =>
                      let '(db, r) := rs_consume_if_unconsumed (b32 sanad_id) (others db) in
                      mkRun l db true
                        (map_err (fun e => RStorage (replay_db_message e)) (_ ← r; Ok receipt))
                  end
              end
          end
      end
  end.
End Mint.
Global Arguments MintRun : clear implicits.

(** ** Lemmas *)

Definition renews (id : CoordinatorId) (o : lease_op) : Prop :=
  match o with LAcquire _ i _ => i = id | LRelease i => i = id end.

(** Another coordinator's call, made before the lease expires, changes nothing. *)
Lemma lease_step_other id e o s :
  holder s = Some id -> expires_at s = Some e -> ~ renews id o ->
  (forall now i ttl, o = LAcquire now i ttl -> (now < e)%N) -> lease_step s o = s.
Proof.
  intros Hh He Hr Ht. destruct o as [now i ttl|i]; cbn in *.
  - unfold acquire_or_renew. rewrite Hh, He, bool_decide_false by congruence.
    by rewrite (proj2 (N.ltb_lt _ _)) by (by eapply Ht).
  - unfold release. rewrite bool_decide_false; [done|]. congruence.
Qed.

Lemma lease_steps_other id e l s :
  holder s = Some id -> expires_at s = Some e ->
  Forall (fun o => ~ renews id o /\ forall now i ttl, o = LAcquire now i ttl -> (now < e)%N) l ->
  fold_left lease_step l s = s.
Proof.
  intros Hh He. induction 1 as [|o l [Hr Ht] Hl IH]; [done|]. cbn.
  by rewrite (lease_step_other id e).
Qed.

Lemma acquire_ok now id ttl s s' e :
  acquire_or_renew now id ttl s = (s', Ok e) ->
  e = add64 now ttl /\ holder s' = Some id /\ expires_at s' = Some e.
Proof.
  unfold acquire_or_renew. destruct s as [h x]; cbn.
  destruct h as [h|], x as [x|]; cbn; repeat case_match; intros; simplify_eq/=; try done.
  by case_bool_decide; simplify_eq.
Qed.

(** ** Theorems *)

(** A lease excludes.  Once [id] has acquired or renewed the lease until [e], then
    whatever other coordinators do before [e], [id] still holds it until then, every
    other coordinator's attempt before [e] is refused with its holder and expiry, and at
    [e] or later any other coordinator may take it. *)
Theorem lease_excludes (now ttl : N) (id other : CoordinatorId) (s s' : LeaseState) (e : N)
    (calls : list lease_op) (later ttl' : N)
    (Hacq : acquire_or_renew now id ttl s = (s', Ok e))
    (Hcalls : Forall (fun o => ~ renews id o /\
       forall t i d, o = LAcquire t i d -> (t < e)%N) calls) (Hne : other <> id) :
  let s1 := fold_left lease_step calls s' in
  is_held_by later id s1 = (later <? e)%N /\ is_held_by later other s1 = false /\
  acquire_or_renew later other ttl' s1
  = if (later <? e)%N then (s1, Err (LConflict id e))
    else (mkLease (Some other) (Some (add64 later ttl')), Ok (add64 later ttl')).
Proof.
  intros s1. apply acquire_ok in Hacq as (He & Hh & Hx).
  assert (Hs : s1 = s') by (by apply (lease_steps_other id e)). rewrite Hs.
  unfold is_held_by, acquire_or_renew. rewrite Hh, Hx.
  rewrite bool_decide_true by done. rewrite !bool_decide_false by congruence. done.
Qed.

(** A guarded mint never reports success.  With any replay database that keeps the
    interface, if nobody else settles the identifier while it runs, [execute_mint]
    returns an error whatever the minter does: its last step consumes the identifier
    its second step inserted, and finds it pending.  When the minter succeeds, the mint
    has happened, the database still says pending, and the caller is told that the
    entry already exists. *)
Theorem guarded_mint_never_succeeds {D Receipt} `{ReplayStoreLaws D}
    (coordinator : CoordinatorId) (ttl t0 t1 t2 : N) (sanad_id : Hash)
    (minter : result string Receipt) (others : D -> D) (l : LeaseState) (db : D)
    (Hothers : forall d, rs_state d (b32 sanad_id) = Some Pending ->
                         rs_state (others d) (b32 sanad_id) = Some Pending) :
  let run := execute_mint coordinator ttl t0 t1 t2 sanad_id minter others l db in
  is_ok (mr_result run) = false /\
  (mr_minted run = true -> is_ok minter = true ->
   mr_result run = Err (RStorage "Entry already exists") /\
   rs_state (mr_db run) (b32 sanad_id) = Some Pending).
Proof.
  cbn zeta. unfold execute_mint. destruct (guard_acquire t0 coordinator ttl l) as [l' [g|e]]; [|done].
  destruct (assert_valid t1 g) as [u|e]; [|done].
  pose proof (rs_insert_spec (b32 sanad_id) db) as Hi.
  destruct (rs_state db (b32 sanad_id)) as [st|]; [by rewrite Hi|].
  destruct Hi as (d1 & -> & Hd1). destruct (assert_valid t2 g) as [u'|e]; [|done].
  destruct minter as [receipt|cause]; [|by split].
  pose proof (rs_consume_spec (b32 sanad_id) (others d1)) as Hc.
  rewrite (Hothers d1 Hd1) in Hc. rewrite Hc. cbn. split; [done|]. intros _ _.
  split; [done|]. by apply Hothers.
Qed.

(** ** Witnesses *)

Lemma lease_excludes_witness :
  let s1 := fold_left lease_step [LAcquire 105 "b" 60; LRelease "b"] (mkLease (Some "a"%string) (Some 130%N)) in
  acquire_or_renew 129 "b" 60 s1 = (s1, Err (LConflict "a" 130)).
Proof.
  pose proof (lease_excludes 100 30 "a" "b" InMemoryLease_new (mkLease (Some "a"%string) (Some 130%N))
                130 [LAcquire 105 "b" 60; LRelease "b"] 129 60) as H.
  apply H; [reflexivity| |done].
  apply Forall_cons; split; [split; [done|by intros t i d [= <- _ _]]|].
  apply Forall_cons; split; [by split|constructor].
Defined.

Lemma guarded_mint_never_succeeds_witness :
  let run := execute_mint "a" 30 100 101 102 (fill32 Byte.x01) (Ok tt) id InMemoryLease_new
               (∅ : entries) in
  mr_minted run = true /\ mr_result run = Err (RStorage "Entry already exists").
Proof.
  destruct (guarded_mint_never_succeeds (D := entries) "a" 30 100 101 102 (fill32 Byte.x01)
              (Ok tt) id InMemoryLease_new ∅ ltac:(done)) as [_ H].
  split; [reflexivity|]. by apply H.
Defined.
