(* ===== verification/Quorum.v ===== *)
(** * The verification quorum (csv-runtime/src/verification_quorum.rs)

    A protocol decision is taken from what independent providers observed.  Endpoints of
    one provider count once, a provider whose endpoints disagree is dropped, and the
    value most providers report wins when enough of them do.  Both hash maps are walked
    in an order the program does not choose: the orders are parameters. *)

From S2P Require Import Prelude.

Inductive ProtocolDecision := Inclusion | Finality | SealState | MintConfirmation.

Record ProviderObservation (T : Type) := mkObs {
  provider : string;
  endpoint_id : string;
  observation : T
}.
Global Arguments mkObs {T}.
Global Arguments provider {T}.
Global Arguments endpoint_id {T}.
Global Arguments observation {T}.

(** Both fields are [u8]. *)
Record QuorumParams := mkQuorumParams { min_providers : N; min_agreement : N }.
Definition RFC_DEFAULT : QuorumParams := mkQuorumParams 3 2.

Inductive QuorumError :=
| InvalidParams
| InsufficientProviders (required : N) (available : nat)
| NoAgreement (agreed : nat) (required : N)
| SubmitterIsSoleConfirmer.

Section Quorum.
Context {T : Type} `{EqDecision T}.

(** The loop over the observations: [Some None] marks a provider that disagrees with
    itself. *)
Definition note (m : gmap string (option T)) (o : ProviderObservation T)
  : gmap string (option T) :=
  match m !! provider o with
  | None => <[provider o := Some (observation o)]> m
  | Some (Some existing) =>
      if decide (existing = observation o) then m else <[provider o := None]> m
  | Some None => m
  end.
Definition per_provider (obs : list (ProviderObservation T)) : gmap string (option T) :=
  fold_left note obs ∅.

(** The providers with one observation, in the order the map is walked. *)
Definition reliable (walk : gmap string (option T) -> list (string * option T))
    (obs : list (ProviderObservation T)) : list (string * T) :=
  omap (fun x => (fun v => (x.1, v)) <$> x.2) (walk (per_provider obs)).

(** [tally.entry(value).or_default().push(provider)] *)
Fixpoint vote (t : list (T * list string)) (x : string * T) : list (T * list string) :=
  match t with
  | [] => [(x.2, [x.1])]
  | (w, ps) :: t' => if decide (w = x.2) then (w, ps ++ [x.1]) :: t' else (w, ps) :: vote t' x
  end.
Definition tally (votes : list (string * T)) : list (T * list string) := fold_left vote votes [].

(** [max_by_key(|(_, providers)| providers.len())]: the last of the largest. *)
Definition larger (best : option (T * list string)) (x : T * list string)
  : option (T * list string) :=
  match best with
  | Some b => if length b.2 <=? length x.2 then Some x else Some b
  | None => Some x
  end.
Definition max_by_len (t : list (T * list string)) : option (T * list string) :=
  fold_left larger t None.

(** [evaluate_quorum]; the decision is not looked at. *)
Definition evaluate_quorum (walk : gmap string (option T) -> list (string * option T))
    (order : list (T * list string) -> list (T * list string)) (decision : ProtocolDecision)
    (obs : list (ProviderObservation T)) (params : QuorumParams) (submitter : option string)
  : result QuorumError T :=
  reject (min_providers params =? 0)%N || (min_agreement params =? 0)%N ||
         (min_providers params <? min_agreement params)%N with InvalidParams ;;
  let votes := reliable walk obs in
  reject (N.of_nat (length votes) <? min_providers params)%N
    with InsufficientProviders (min_providers params) (length votes) ;;
  '(value, agreeing) ← ok_or (InsufficientProviders (min_providers params) 0)
                         (max_by_len (order (tally votes)));
  reject (N.of_nat (length agreeing) <? min_agreement params)%N
    with NoAgreement (length agreeing) (min_agreement params) ;;
  reject match submitter with
         | Some s => negb (existsb (fun p => negb (bool_decide (p = s))) agreeing)
         | None => false
         end with SubmitterIsSoleConfirmer ;;
  Ok value.
End Quorum.

(** ** What the observations say *)

Section Spec.
Context {T : Type} `{EqDecision T}.
Implicit Types (obs : list (ProviderObservation T)) (v : T) (p : string).

(** Every observation of [p], of which there is one, is [v]. *)
Definition reports obs p v : Prop :=
  (exists o, o ∈ obs /\ provider o = p) /\ forall o, o ∈ obs -> provider o = p -> observation o = v.

(** [ps] lists the providers that report [v], each once. *)
Definition supporters obs v (ps : list string) : Prop :=
  NoDup ps /\ forall p, p ∈ ps <-> reports obs p v.
(** [ps] lists the providers that report some value. *)
Definition consistent obs (ps : list string) : Prop :=
  NoDup ps /\ forall p, p ∈ ps <-> exists v, reports obs p v.

Lemma reports_fun obs p v w : reports obs p v -> reports obs p w -> v = w.
Proof. intros [(o & Ho & Hp) H1] [_ H2]. rewrite <- (H1 o Ho Hp). by apply H2. Qed.

(** ** The first loop *)

Lemma per_provider_snoc obs o : per_provider (obs ++ [o]) = note (per_provider obs) o.
Proof. unfold per_provider. by rewrite fold_left_app. Qed.

Lemma elem_of_snoc (o o' : ProviderObservation T) obs : o' ∈ obs ++ [o] -> o' ∈ obs \/ o' = o.
Proof. set_solver. Qed.

Lemma note_other m (o : ProviderObservation T) p : provider o <> p -> note m o !! p = m !! p.
Proof.
  intros Hne. unfold note. destruct (m !! provider o) as [[v|]|]; [|done|by apply lookup_insert_ne].
  destruct (decide (v = observation o)); [done|by apply lookup_insert_ne].
Qed.

Lemma per_provider_spec obs p :
  match per_provider obs !! p with
  | None => forall o, o ∈ obs -> provider o <> p
  | Some (Some v) => reports obs p v
  | Some None => exists o o', o ∈ obs /\ o' ∈ obs /\ provider o = p /\ provider o' = p /\
                              observation o <> observation o'
  end.
Proof.
  induction obs as [|o obs IH] using rev_ind; [cbn; rewrite lookup_empty; set_solver|].
  rewrite per_provider_snoc.
  destruct (decide (provider o = p)) as [<-|Hne].
  - unfold note. revert IH. destruct (per_provider obs !! provider o) as [[v|]|] eqn:E; intros IH.
    + destruct (decide (v = observation o)) as [->|Hv].
      * rewrite E. destruct IH as [(o1 & Ho1 & Hp1) Hall]. split; [exists o1; set_solver|].
        intros o2 [Ho2| ->]%elem_of_snoc Hp; [by apply Hall|done].
      * rewrite lookup_insert_eq. destruct IH as [(o1 & Ho1 & Hp1) Hall].
        exists o1, o. rewrite (Hall o1 Ho1 Hp1). set_solver.
    + rewrite E. destruct IH as (o1 & o2 & H1 & H2 & ? & ? & ?). exists o1, o2. set_solver.
    + rewrite lookup_insert_eq. split; [exists o; set_solver|].
      intros o2 [Ho2| ->]%elem_of_snoc Hp; [by apply IH in Ho2|done].
  - rewrite note_other by done.
    destruct (per_provider obs !! p) as [[v|]|].
    + destruct IH as [(o1 & Ho1 & Hp1) Hall]. split; [exists o1; set_solver|].
      intros o2 [Ho2| ->]%elem_of_snoc Hp; [by apply Hall|done].
    + destruct IH as (o1 & o2 & H1 & H2 & ? & ? & ?). exists o1, o2. set_solver.
    + by intros o2 [Ho2| ->]%elem_of_snoc; [apply IH|].
Qed.

Lemma per_provider_reports obs p v : per_provider obs !! p = Some (Some v) <-> reports obs p v.
Proof.
  pose proof (per_provider_spec obs p) as H. split; [by intros E; rewrite E in H|].
  intros Hr. destruct (per_provider obs !! p) as [[w|]|].
  - by rewrite (reports_fun obs p v w).
  - destruct H as (o & o' & Ho & Ho' & Hp & Hp' & Hne), Hr as [_ Hr].
    rewrite (Hr o), (Hr o') in Hne by done. done.
  - destruct Hr as [(o & Ho & Hp) _]. by apply H in Ho.
Qed.
End Spec.

(** ** The tally *)

Section Tally.
Context {T : Type} `{EqDecision T}.
Implicit Types (t : list (T * list string)) (l : list (string * T)).

(** Who voted for [v], in order. *)
Definition voters l (v : T) : list string := (filter (fun x => x.2 = v) l).*1.

Lemma voters_snoc l x v :
  voters (l ++ [x]) v = if decide (x.2 = v) then voters l v ++ [x.1] else voters l v.
Proof.
  unfold voters. rewrite filter_app, fmap_app. cbn. unfold filter, list_filter.
  destruct (decide (x.2 = v)); [done|]. apply app_nil_r.
Qed.

Lemma vote_values t x w : w ∈ (vote t x).*1 <-> w = x.2 \/ w ∈ t.*1.
Proof.
  induction t as [|[v ps] t IH]; cbn; [set_solver|].
  destruct (decide (v = x.2)) as [->|]; cbn; set_solver.
Qed.

Lemma vote_NoDup t x : NoDup t.*1 -> NoDup (vote t x).*1.
Proof.
  induction t as [|[v ps] t IH]; cbn; intros Hnd; [by repeat constructor; set_solver|].
  apply NoDup_cons in Hnd as [Hv Hnd].
  destruct (decide (v = x.2)) as [->|]; cbn; apply NoDup_cons; [done|].
  split; [|by apply IH]. rewrite vote_values. naive_solver.
Qed.

(** The entry of a value after a vote. *)
Lemma vote_entry t x v ps :
  NoDup t.*1 ->
  (v, ps) ∈ vote t x <->
  if decide (x.2 = v)
  then ((exists qs, (v, qs) ∈ t /\ ps = qs ++ [x.1]) \/ (v ∉ t.*1 /\ ps = [x.1]))
  else (v, ps) ∈ t.
Proof.
  induction t as [|[w qs] t IH]; cbn; intros Hnd.
  - destruct (decide (x.2 = v)) as [<-|Hne].
    + rewrite list_elem_of_singleton. split; [intros [= ->]; right; set_solver|].
      intros [(qs & Hqs & _)|[_ ->]]; [by apply elem_of_nil in Hqs|done].
    + rewrite list_elem_of_singleton. split; [by intros [= -> _]|by intros ?%elem_of_nil].
  - apply NoDup_cons in Hnd as [Hw Hnd]. specialize (IH Hnd).
    assert (Hin : forall qs', (w, qs') ∉ t).
    { intros qs' Hq. apply Hw. apply list_elem_of_fmap. by exists (w, qs'). }
    destruct (decide (w = x.2)) as [->|Hwx]; rewrite elem_of_cons.
    + destruct (decide (x.2 = v)) as [<-|Hne].
      * split.
        -- intros [[= ->]|H]; [left; exists qs; set_solver|by apply Hin in H].
        -- intros [(qs' & [[= ->]|Hq]%elem_of_cons & ->)|[Hn _]];
             [by left|by apply Hin in Hq|set_solver].
      * rewrite elem_of_cons. naive_solver.
    + rewrite IH. destruct (decide (x.2 = v)) as [<-|Hne]; [|by rewrite elem_of_cons].
      split.
      * intros [[= E _]|[(qs' & Hq & ->)|[Hn ->]]]; [by symmetry in E|left; exists qs'; set_solver|].
        right. set_solver.
      * intros [(qs' & [[= E _]|Hq]%elem_of_cons & ->)|[Hn ->]]; [by symmetry in E|right; left; eauto|].
        right; right. set_solver.
Qed.

Lemma tally_spec l :
  NoDup (tally l).*1 /\ forall v ps, (v, ps) ∈ tally l <-> ps = voters l v /\ ps <> [].
Proof.
  induction l as [|x l [Hnd IH]] using rev_ind.
  { split; [constructor|]. intros v ps. cbn. split; [by intros ?%elem_of_nil|]. by intros [-> ?]. }
  assert (Ht : tally (l ++ [x]) = vote (tally l) x) by (unfold tally; by rewrite fold_left_app).
  rewrite Ht. split; [by apply vote_NoDup|]. intros v ps.
  rewrite vote_entry by done. rewrite voters_snoc. destruct (decide (x.2 = v)) as [Hx|]; [|done].
  assert (Hv : v ∉ (tally l).*1 <-> voters l v = []).
  { split.
    - intros Hn. destruct (voters l v) as [|p ps'] eqn:E; [done|]. destruct Hn.
      apply list_elem_of_fmap. exists (v, p :: ps'). split; [done|]. by apply IH.
    - intros E ([v' ps'] & Hv & [-> Hp]%IH)%list_elem_of_fmap. cbn in Hv. by subst. }
  split.
  - intros [(qs & [-> Hq]%IH & ->)|[Hn%Hv ->]]; [|by rewrite Hn].
    split; [done|]. by destruct (voters l v).
  - intros [-> _]. destruct (decide (voters l v = [])) as [E|E].
    + right. by rewrite E, Hv.
    + left. exists (voters l v). split; [|done]. by apply IH.
Qed.

Lemma max_by_len_snoc t x :
  max_by_len (t ++ [x]) = Some (match max_by_len t with
                                | Some b => if length b.2 <=? length x.2 then x else b
                                | None => x
                                end).
Proof.
  unfold max_by_len. rewrite fold_left_app. cbn. unfold larger. by repeat case_match.
Qed.

Lemma max_by_len_spec t :
  match max_by_len t with
  | None => t = []
  | Some b => b ∈ t /\ forall x, x ∈ t -> length x.2 <= length b.2
  end.
Proof.
  induction t as [|x t IH] using rev_ind; [done|]. rewrite max_by_len_snoc.
  destruct (max_by_len t) as [b|]; [|subst; set_solver].
  destruct IH as [Hb Hmax]. destruct (Nat.leb_spec (length b.2) (length x.2)) as [Hle|Hgt].
  - split; [set_solver|]. intros y [Hy|Hy]%elem_of_app; [apply Hmax in Hy; lia|set_solver].
  - split; [set_solver|]. intros y [Hy|Hy]%elem_of_app; [by apply Hmax|].
    apply list_elem_of_singleton in Hy as ->. lia.
Qed.
End Tally.

(** ** Counting *)

Section Answers.
Context {T : Type} `{EqDecision T}.
Implicit Types (obs : list (ProviderObservation T)) (v : T).

(** The orders the maps may be walked in. *)
Definition some_walk (walk : gmap string (option T) -> list (string * option T)) : Prop :=
  forall m, walk m ≡ₚ map_to_list m.
Definition some_order (order : list (T * list string) -> list (T * list string)) : Prop :=
  forall t, order t ≡ₚ t.

Lemma elem_of_reliable walk obs p v :
  some_walk walk -> (p, v) ∈ reliable walk obs <-> reports obs p v.
Proof.
  intros Hw. unfold reliable. rewrite list_elem_of_omap. split.
  - intros ([q o] & Hq & Heq). rewrite (Hw _), elem_of_map_to_list in Hq. cbn in Heq.
    destruct o as [w|]; [|done]. injection Heq as -> ->. by apply per_provider_reports.
  - intros H%per_provider_reports. exists (p, Some v). split; [|done].
    by rewrite (Hw _), elem_of_map_to_list.
Qed.

Lemma reliable_NoDup walk obs : some_walk walk -> NoDup (reliable walk obs).*1.
Proof.
  intros Hw. unfold reliable.
  assert (Hnd : NoDup (walk (per_provider obs)).*1).
  { rewrite (fmap_Permutation fst _ _ (Hw _)). apply NoDup_fst_map_to_list. }
  induction (walk (per_provider obs)) as [|[p [v|]] l IH]; cbn in *; [done| |].
  - apply NoDup_cons in Hnd as [Hp Hnd]. apply NoDup_cons. split; [|by apply IH].
    intros ([q w] & Hq & Hin)%list_elem_of_fmap. cbn in Hq. subst q.
    apply list_elem_of_omap in Hin as ([q o] & Ho & Heq). cbn in Heq.
    destruct o; [|done]. injection Heq as -> ->. apply Hp, list_elem_of_fmap. by exists (p, Some w).
  - apply NoDup_cons in Hnd as [_ Hnd]. by apply IH.
Qed.

Lemma voters_supporters walk obs v :
  some_walk walk -> supporters obs v (voters (reliable walk obs) v).
Proof.
  intros Hw. split.
  - eapply sublist_NoDup; [apply (reliable_NoDup walk obs Hw)|].
    apply fmap_sublist, sublist_filter.
  - intros p. unfold voters. rewrite list_elem_of_fmap. split.
    + intros ([q w] & -> & [Hv Hin]%list_elem_of_filter). cbn in *. subst w.
      by apply (elem_of_reliable walk).
    + intros H%(elem_of_reliable walk); [|done]. exists (p, v). split; [done|].
      by apply list_elem_of_filter.
Qed.

Lemma reliable_consistent walk obs : some_walk walk -> consistent obs (reliable walk obs).*1.
Proof.
  intros Hw. split; [by apply reliable_NoDup|]. intros p. rewrite list_elem_of_fmap. split.
  - intros ([q v] & -> & Hin). exists v. by apply (elem_of_reliable walk).
  - intros [v H%(elem_of_reliable walk)]; [|done]. by exists (p, v).
Qed.

(** Lists of the same providers have one length. *)
Lemma same_length (P : string -> Prop) ps qs :
  NoDup ps /\ (forall p, p ∈ ps <-> P p) -> NoDup qs /\ (forall p, p ∈ qs <-> P p) ->
  length ps = length qs.
Proof.
  intros [Hp Hps] [Hq Hqs]. apply Permutation_length, NoDup_Permutation; [done|done|].
  intros p. by rewrite Hps, Hqs.
Qed.

(** The values a quorum may answer with. *)
Definition answers obs (params : QuorumParams) (submitter : option string) v : Prop :=
  (0 < min_agreement params <= min_providers params)%N /\
  (exists ps, consistent obs ps /\ (min_providers params <= N.of_nat (length ps))%N) /\
  exists ps, supporters obs v ps /\ (min_agreement params <= N.of_nat (length ps))%N /\
    (forall w qs, supporters obs w qs -> length qs <= length ps) /\
    (forall s, submitter = Some s -> exists p, p ∈ ps /\ p <> s).

Lemma sole_confirmer (submitter : option string) ps :
  match submitter with
  | Some s => negb (existsb (fun p => negb (bool_decide (p = s))) ps)
  | None => false
  end = false <-> forall s, submitter = Some s -> exists p, p ∈ ps /\ p <> s.
Proof.
  destruct submitter as [s|]; [|naive_solver]. rewrite negb_false_iff, existsb_exists. split.
  - intros (p & Hp%list_elem_of_In & Hne) s' [= <-]. exists p. split; [done|].
    intros ->. by rewrite bool_decide_true in Hne.
  - intros H. destruct (H s eq_refl) as (p & Hp%list_elem_of_In & Hne). exists p.
    by rewrite bool_decide_false.
Qed.

Lemma params_ok (p : QuorumParams) :
  (min_providers p =? 0)%N || (min_agreement p =? 0)%N || (min_providers p <? min_agreement p)%N
  = false <-> (0 < min_agreement p <= min_providers p)%N.
Proof. rewrite !orb_false_iff, !N.eqb_neq, N.ltb_ge. lia. Qed.

(** The evaluation, on the entry the tally yields. *)
Lemma evaluate_ok walk order d obs params submitter v :
  evaluate_quorum walk order d obs params submitter = Ok v <->
  (0 < min_agreement params <= min_providers params)%N /\
  (min_providers params <= N.of_nat (length (reliable walk obs)))%N /\
  exists ps, max_by_len (order (tally (reliable walk obs))) = Some (v, ps) /\
    (min_agreement params <= N.of_nat (length ps))%N /\
    forall s, submitter = Some s -> exists p, p ∈ ps /\ p <> s.
Proof.
  unfold evaluate_quorum. rewrite !guard_err_ok, params_ok, N.ltb_ge.
  destruct (max_by_len _) as [[w ps]|] eqn:E; cbn [ok_or mbind result_bind].
  - rewrite !guard_err_ok, N.ltb_ge, sole_confirmer. split.
    + intros (? & ? & ? & ? & [= <-]). eauto 10.
    + intros (? & ? & ps' & [= <- <-] & ? & ?). eauto 10.
  - split; [by intros (_ & _ & [=])|by intros (_ & _ & ? & [=] & _)].
Qed.
End Answers.

(** ** Theorems *)

(** What a quorum answers.  Over the orders its two hash maps may be walked in, the
    answers are exactly the values that most consistent providers report, when the
    parameters make sense, enough providers are consistent, enough of them report the
    value, and one of these is not the submitter.  When two values have as many
    reporters, either may be the answer. *)
Theorem quorum_answers_exact {T} `{EqDecision T} (decision : ProtocolDecision)
    (obs : list (ProviderObservation T)) (params : QuorumParams) (submitter : option string) (v : T) :
  (exists walk order, some_walk walk /\ some_order order /\
     evaluate_quorum walk order decision obs params submitter = Ok v) <->
  answers obs params submitter v.
Proof.
  split.
  - intros (walk & order & Hw & Ho & (Hp & Hn & ps & Hm & Ha & Hs)%evaluate_ok).
    pose proof (max_by_len_spec (order (tally (reliable walk obs)))) as Hmax.
    rewrite Hm in Hmax. destruct Hmax as [Hin Hmax].
    destruct (tally_spec (reliable walk obs)) as [_ Ht].
    rewrite (Ho _) in Hin. apply Ht in Hin as [-> _].
    split; [done|]. split.
    { exists (reliable walk obs).*1. split; [by apply reliable_consistent|]. by rewrite length_fmap. }
    exists (voters (reliable walk obs) v). split; [by apply voters_supporters|]. split; [done|].
    split; [|done]. intros w qs Hq.
    rewrite (same_length _ qs (voters (reliable walk obs) w) Hq (voters_supporters walk obs w Hw)).
    destruct (decide (voters (reliable walk obs) w = [])) as [->|Hne]; [cbn; lia|].
    apply (Hmax (w, _)). rewrite (Ho _). by apply Ht.
  - intros (Hp & (cs & Hc & Hn) & ps & Hsup & Ha & Hmax & Hs).
    assert (Hw : some_walk (T := T) map_to_list) by (by intros m).
    set (l := reliable map_to_list obs). destruct (tally_spec l) as [Hnd Ht].
    pose proof (voters_supporters map_to_list obs v Hw) as Hv. fold l in Hv.
    pose proof (same_length _ _ _ Hsup Hv) as Hlen.
    assert (Hin : (v, voters l v) ∈ tally l).
    { apply Ht. split; [done|]. intros E. rewrite E in Hlen. cbn in Hlen. lia. }
    apply list_elem_of_split in Hin as (t1 & t2 & Et).
    exists map_to_list, (fun t : list (T * list string) => if decide (t = tally l) then t1 ++ t2 ++ [(v, voters l v)] else t).
    split; [done|]. split.
    { intros t. case_decide as Heq; [|done]. rewrite Heq, Et.
      by rewrite <- Permutation_cons_append. }
    apply evaluate_ok. split; [done|]. split.
    { rewrite <- (length_fmap fst).
      by rewrite <- (same_length _ _ _ Hc (reliable_consistent map_to_list obs Hw)). }
    fold l. rewrite decide_True by done. exists (voters l v). rewrite app_assoc, max_by_len_snoc.
    split; [|split].
    + pose proof (max_by_len_spec (t1 ++ t2)) as Hb. destruct (max_by_len (t1 ++ t2)) as [[w qs]|]; [|done].
      destruct Hb as [Hb _]. rewrite (proj2 (Nat.leb_le _ _)); [done|]. cbn.
      rewrite <- Hlen. apply (Hmax w). assert (Hq : (w, qs) ∈ tally l) by (rewrite Et; set_solver).
      apply Ht in Hq as [-> _]. by apply (voters_supporters map_to_list).
    + by rewrite <- Hlen.
    + intros s Hs'. destruct (Hs s Hs') as (p & Hp' & Hne). exists p. split; [|done].
      by apply Hv, Hsup.
Qed.

(** Fewer faulty providers than the agreement threshold cannot decide.  When every
    provider outside a list reports, if anything, the value [v], and the list is shorter
    than the threshold, a quorum that answers answers [v], in whatever order the maps
    are walked. *)
Theorem quorum_byzantine_safe {T} `{EqDecision T} walk order (decision : ProtocolDecision)
    (obs : list (ProviderObservation T)) (params : QuorumParams) (submitter : option string)
    (v w : T) (faulty : list string) (Hwalk : some_walk walk) (Horder : some_order order)
    (Hhonest : forall p x, reports obs p x -> p ∈ faulty \/ x = v)
    (Hfew : (N.of_nat (length faulty) < min_agreement params)%N)
    (Hw : evaluate_quorum walk order decision obs params submitter = Ok w) :
  w = v.
Proof.
  assert (Hans : answers obs params submitter w)
    by (apply (quorum_answers_exact decision); eauto 10).
  destruct Hans as (_ & _ & ps & [Hnd Hps] & Ha & _).
  destruct (decide (w = v)) as [|Hne]; [done|exfalso].
  assert (Hsub : ps ⊆ faulty).
  { intros p Hp%Hps. by destruct (Hhonest p w Hp). }
  pose proof (NoDup_submseteq _ _ Hnd Hsub) as Hlen%submseteq_length. lia.
Qed.

(** ** Witnesses *)

Definition seen (p : string) (spent : bool) : ProviderObservation bool := mkObs p "endpoint" spent.

(** Under the default parameters, four providers that split evenly leave the state of a
    seal to the order of a hash map. *)
Lemma default_quorum_splits :
  let obs := [seen "a" true; seen "b" true; seen "c" false; seen "d" false] in
  evaluate_quorum map_to_list id SealState obs RFC_DEFAULT None
  <> evaluate_quorum map_to_list (@rev _) SealState obs RFC_DEFAULT None /\
  answers obs RFC_DEFAULT None true /\ answers obs RFC_DEFAULT None false.
Proof.
  cbv zeta. split; [by vm_compute|].
  assert (Hw : some_walk (T := bool) map_to_list) by (by intros m).
  split; (split; [done|]; split;
    [eexists; split; [exact (reliable_consistent map_to_list _ Hw)|by vm_compute]|]).
  all: eexists; split; [exact (voters_supporters map_to_list _ _ Hw)|]; split; [by vm_compute|].
  all: split; [|done]; intros w qs Hq;
    rewrite (same_length _ qs _ Hq (voters_supporters map_to_list _ w Hw)); destruct w; vm_compute; lia.
Qed.

Lemma quorum_byzantine_safe_witness :
  let obs := [seen "a" true; seen "b" true; seen "mallory" false] in
  evaluate_quorum map_to_list id SealState obs RFC_DEFAULT (Some "a"%string) = Ok true /\
  forall w, evaluate_quorum map_to_list id SealState obs RFC_DEFAULT (Some "a"%string) = Ok w ->
            w = true.
Proof.
  cbv zeta. split; [by vm_compute|]. intros w Hw.
  apply (quorum_byzantine_safe map_to_list id SealState
           [seen "a" true; seen "b" true; seen "mallory" false] RFC_DEFAULT (Some "a"%string)
           true w ["mallory"%string]); [by intros m|by intros t| |by vm_compute|exact Hw].
  intros p x [(o & Ho & Hp) Hall]. specialize (Hall o Ho Hp).
  rewrite !elem_of_cons, elem_of_nil in Ho.
  destruct Ho as [->|[->|[->|[]]]]; cbn in *; subst; [by right|by right|left; by left].
Defined.
