(* ===== verification/ProofTaxonomy.v ===== *)
(** * Proof objects and their canonical forms (csv-protocol/src/proof_taxonomy.rs)

    Inclusion and finality proofs, the proof bundle the verifier reads, the
    chain-native hash of a proof leaf, replay identifiers, and the tagged hashes
    of the proof variants.  The codecs are little-endian length-prefixed forms. *)

From S2P Require Import Prelude Ord Bytes Hashing Dag DagCodec Text Seal.

Definition MAX_PROOF_BYTES : N := 65536.
Definition MAX_FINALITY_DATA : N := 4096.
Definition MAX_SIGNATURES_TOTAL_SIZE : N := 1048576.

(** [csv-protocol/src/signature.rs] *)
Inductive SignatureScheme := Secp256k1 | Ed25519 | MlDsa65.
Global Instance SignatureScheme_eq_dec : EqDecision SignatureScheme.
Proof. solve_decision. Defined.

Record InclusionProof := mkInclusionProof {
  proof_bytes : bytes;
  inc_block_hash : Hash;
  position : N;
  block_number : N;
  leaf : Hash;
  inc_root : Hash;
  inc_siblings : list Hash;
  inc_leaf_index : N;
  inc_source : string
}.

Record FinalityProof := mkFinalityProof {
  finality_data : bytes;
  fin_block_hash : Hash;
  threshold : N;
  confirmations : N;
  fin_data : bytes;
  fin_source : string;
  is_deterministic : bool
}.

Record ProofBundle := mkProofBundle {
  version : N;
  transition_dag : DAGSegment;
  bundle_signatures : list bytes;
  signature_scheme : SignatureScheme;
  seal_ref : SealPoint;
  anchor_ref : CommitAnchor;
  inclusion_proof : InclusionProof;
  finality_proof : FinalityProof
}.

(** ** Constructors *)

(** [InclusionProof::new] *)
Definition InclusionProof_new (pb : bytes) (block_hash : Hash) (block_number leaf_index : N)
  : result string InclusionProof :=
  reject (MAX_PROOF_BYTES <? blen pb)%N with "Inclusion proof too large"%string ;;
  Ok (mkInclusionProof pb block_hash block_number block_number Hash.zero Hash.zero [] leaf_index "").

(** [FinalityProof::new] *)
Definition FinalityProof_new (data : bytes) (confs : N) (deterministic : bool)
  : result string FinalityProof :=
  reject (MAX_FINALITY_DATA <? blen data)%N with "Finality proof too large"%string ;;
  Ok (mkFinalityProof data Hash.zero 0 confs [] "" deterministic).

(** [signatures.iter().map(len).sum()] *)
Definition total_len (l : list bytes) : N := foldr (fun s acc => blen s + acc)%N 0%N l.

(** [ProofBundle::with_certification_and_signature_scheme]; [new] and
    [with_signature_scheme] fix its first arguments. *)
Definition ProofBundle_with (v : N) (scheme : SignatureScheme) (dag : DAGSegment)
    (sigs : list bytes) (seal : SealPoint) (anchor : CommitAnchor)
    (inc : InclusionProof) (fin : FinalityProof) : result string ProofBundle :=
  reject (MAX_SIGNATURES_TOTAL_SIZE <? total_len sigs)%N
    with "total signatures size exceeds maximum allowed (1MB)"%string ;;
  Ok (mkProofBundle v dag sigs scheme seal anchor inc fin).

Definition CURRENT_VERSION : N := 1.

Definition with_signature_scheme := ProofBundle_with CURRENT_VERSION.
Definition ProofBundle_new := with_signature_scheme Secp256k1.

(** ** Inclusion proofs *)

(** [InclusionProof::to_canonical_bytes] where a [usize] has [w] bytes: the place of the leaf is
    written as [usize::to_le_bytes], while every other number has a width of its own. *)
Definition inclusion_bytes_at (w : nat) (p : InclusionProof) : bytes :=
  sized (proof_bytes p) ++ b32 (inc_block_hash p) ++ u64_le (position p) ++
  u64_le (block_number p) ++ b32 (leaf p) ++ b32 (inc_root p) ++
  hash_list (inc_siblings p) ++ le_bytes w (inc_leaf_index p) ++ sized (as_bytes (inc_source p)).

(** The encoding on 64-bit targets, which the other components use. *)
Definition inclusion_to_canonical_bytes : InclusionProof -> bytes := inclusion_bytes_at 8.

(** A length-prefixed UTF-8 string. *)
Definition read_string (e_len e_body : string) (rest : bytes) : result string (string * bytes) :=
  '(b, rest) ← read_sized e_len e_body rest;
  s ← map_err (fun e => "Invalid source string: " +:+ utf8_error_message e) (from_utf8 b);
  Ok (s, rest).

(** The decoder reads eight bytes for the place of the leaf on every target, and casts them to a
    [usize] of [w] bytes.  Where [pos + len] exceeds a [usize] of four bytes the code panics;
    the input is too short for [len] bytes then, and the reader fails as well. *)
Definition inclusion_read_at (w : nat) (b : bytes) : result string (InclusionProof * bytes) :=
  '(pb, rest) ← read_sized "Insufficient bytes for proof_bytes length"%string
                           "Insufficient bytes for proof_bytes"%string b;
  '(bh, rest) ← read_b32 "Insufficient bytes for block_hash"%string rest;
  '(pos, rest) ← read_u64_le "Insufficient bytes for position"%string rest;
  '(bn, rest) ← read_u64_le "Insufficient bytes for block_number"%string rest;
  '(lf, rest) ← read_b32 "Insufficient bytes for leaf"%string rest;
  '(rt, rest) ← read_b32 "Insufficient bytes for root"%string rest;
  '(sibs, rest) ← read_list "Insufficient bytes for siblings length"%string
                    (read_b32 "Insufficient bytes for sibling"%string) rest;
  '(li, rest) ← read_u64_le "Insufficient bytes for leaf_index"%string rest;
  '(src, rest) ← read_string "Insufficient bytes for source length"
                             "Insufficient bytes for source" rest;
  Ok (mkInclusionProof pb bh pos bn lf rt sibs (li mod 256 ^ N.of_nat w)%N src, rest).

(** [InclusionProof::from_canonical_bytes] *)
Definition inclusion_from_at (w : nat) (b : bytes) : result string InclusionProof :=
  fst <$> inclusion_read_at w b.
Definition inclusion_from_canonical_bytes : bytes -> result string InclusionProof := inclusion_from_at 8.

(** ** Finality proofs *)

Definition finality_to_canonical_bytes (p : FinalityProof) : bytes :=
  sized (finality_data p) ++ b32 (fin_block_hash p) ++ u32_le (threshold p) ++
  u64_le (confirmations p) ++ sized (fin_data p) ++ sized (as_bytes (fin_source p)) ++
  [if is_deterministic p then Byte.x01 else Byte.x00].

Definition finality_read (b : bytes) : result string (FinalityProof * bytes) :=
  '(fd, rest) ← read_sized "Insufficient bytes for finality_data length"%string
                           "Insufficient bytes for finality_data"%string b;
  '(bh, rest) ← read_b32 "Insufficient bytes for block_hash"%string rest;
  '(th, rest) ← read_u32_le "Insufficient bytes for threshold"%string rest;
  '(cf, rest) ← read_u64_le "Insufficient bytes for confirmations"%string rest;
  '(dt, rest) ← read_sized "Insufficient bytes for data length"%string
                           "Insufficient bytes for data"%string rest;
  '(src, rest) ← read_string "Insufficient bytes for source length"
                             "Insufficient bytes for source" rest;
  '(d, rest) ← read_u8 "Insufficient bytes for is_deterministic"%string rest;
  Ok (mkFinalityProof fd bh th cf dt src (bool_decide (d = Byte.x01)), rest).

(** [FinalityProof::from_canonical_bytes] *)
Definition finality_from_canonical_bytes (b : bytes) : result string FinalityProof :=
  fst <$> finality_read b.

(** ** Proof bundles *)

(** [signature_scheme as u8] *)
Definition scheme_byte (s : SignatureScheme) : byte :=
  match s with Secp256k1 => Byte.x00 | Ed25519 => Byte.x01 | MlDsa65 => Byte.x02 end.

(** [ProofBundle::to_canonical_bytes], where a [usize] has [w] bytes *)
Definition bundle_bytes_at (w : nat) (p : ProofBundle) : bytes :=
  u32_le (version p) ++ sized (segment_to_canonical_bytes (transition_dag p)) ++
  sized_list (bundle_signatures p) ++ [scheme_byte (signature_scheme p)] ++
  (sized (seal_id (seal_ref p)) ++ opt_u64_bytes (seal_nonce (seal_ref p)) ++
   opt_u64_bytes (seal_version (seal_ref p))) ++
  (sized (anchor_id (anchor_ref p)) ++ u64_le (block_height (anchor_ref p)) ++
   sized (anchor_metadata (anchor_ref p))) ++
  sized (inclusion_bytes_at w (inclusion_proof p)) ++
  sized (finality_to_canonical_bytes (finality_proof p)).
Definition bundle_to_canonical_bytes : ProofBundle -> bytes := bundle_bytes_at 8.

(** The first half of [ProofBundle::from_canonical_bytes]: version, DAG,
    signatures and scheme. *)
Definition bundle_read_head (b : bytes)
  : result string ((N * DAGSegment * list bytes * SignatureScheme) * bytes) :=
  '(v, rest) ← read_u32_le "Insufficient bytes for version"%string b;
  '(dagb, rest) ← read_sized "Insufficient bytes for DAG length"%string
                             "Insufficient bytes for DAG data"%string rest;
  dag ← map_err (fun e => "Failed to deserialize DAGSegment: " +:+ e)
                (segment_from_canonical_bytes dagb);
  '(sigs, rest) ← read_list "Insufficient bytes for signatures length"%string
                    (read_sized "Insufficient bytes for signature length"%string
                                "Insufficient bytes for signature data"%string) rest;
  '(sb, rest) ← read_u8 "Insufficient bytes for signature scheme"%string rest;
  scheme ← (if bool_decide (sb = Byte.x00) then Ok Secp256k1
            else if bool_decide (sb = Byte.x01) then Ok Ed25519
            else Err "Invalid signature scheme"%string);
  Ok ((v, dag, sigs, scheme), rest).

(** Its seal reference. *)
Definition bundle_read_seal (b : bytes) : result string (SealPoint * bytes) :=
  '(id, rest) ← read_sized "Insufficient bytes for seal id length"%string
                           "Insufficient bytes for seal id data"%string b;
  '(n, rest) ← read_flag_lenient "Insufficient bytes for seal nonce flag"%string
                                 "Insufficient bytes for seal nonce"%string rest;
  '(v, rest) ← read_flag_lenient "Insufficient bytes for seal version flag"%string
                                 "Insufficient bytes for seal version"%string rest;
  Ok (mkSealPoint id n v, rest).

(** Its anchor reference. *)
Definition bundle_read_anchor (b : bytes) : result string (CommitAnchor * bytes) :=
  '(id, rest) ← read_sized "Insufficient bytes for anchor id length"%string
                           "Insufficient bytes for anchor id data"%string b;
  '(h, rest) ← read_u64_le "Insufficient bytes for block height"%string rest;
  '(m, rest) ← read_sized "Insufficient bytes for metadata length"%string
                          "Insufficient bytes for metadata data"%string rest;
  Ok (mkCommitAnchor id h m, rest).

(** Its two proofs. *)
Definition bundle_read_proofs (w : nat) (b : bytes)
  : result string ((InclusionProof * FinalityProof) * bytes) :=
  '(ib, rest) ← read_sized "Insufficient bytes for inclusion proof length"%string
                           "Insufficient bytes for inclusion proof data"%string b;
  inc ← map_err (fun e => "Failed to deserialize InclusionProof: " +:+ e)
                (inclusion_from_at w ib);
  '(fb, rest) ← read_sized "Insufficient bytes for finality proof length"%string
                           "Insufficient bytes for finality proof data"%string rest;
  fin ← map_err (fun e => "Failed to deserialize FinalityProof: " +:+ e)
                (finality_from_canonical_bytes fb);
  Ok ((inc, fin), rest).

(** [ProofBundle::from_canonical_bytes] *)
Definition bundle_from_at (w : nat) (b : bytes) : result string ProofBundle :=
  '((v, dag, sigs, scheme), rest) ← bundle_read_head b;
  '(seal, rest) ← bundle_read_seal rest;
  '(anchor, rest) ← bundle_read_anchor rest;
  '((inc, fin), _) ← bundle_read_proofs w rest;
  Ok (mkProofBundle v dag sigs scheme seal anchor inc fin).
Definition bundle_from_canonical_bytes : bytes -> result string ProofBundle := bundle_from_at 8.

(** ** Proof leaves *)

Inductive HashFunction := Keccak256 | Sha256 | Blake2b256 | DoubleSha256 | Sha3_256.

(** [HashFunction::for_chain] *)
Definition for_chain (chain : string) : HashFunction :=
  let c := to_lowercase chain in
  if bool_decide (c = "ethereum"%string \/ c = "eth"%string) then Keccak256
  else if bool_decide (c = "solana"%string \/ c = "sol"%string) then Sha256
  else if bool_decide (c = "sui"%string) then Blake2b256
  else if bool_decide (c = "bitcoin"%string \/ c = "btc"%string) then DoubleSha256
  else if bool_decide (c = "aptos"%string) then Sha3_256
  else Sha256.

(** [ProofLeafV1::chain_id_to_u8] *)
Definition chain_id_to_u8 (chain : string) : byte :=
  let c := to_lowercase chain in
  if bool_decide (c = "ethereum"%string \/ c = "eth"%string) then Byte.x00
  else if bool_decide (c = "solana"%string \/ c = "sol"%string) then Byte.x01
  else if bool_decide (c = "sui"%string) then Byte.x02
  else if bool_decide (c = "bitcoin"%string \/ c = "btc"%string) then Byte.x03
  else if bool_decide (c = "aptos"%string) then Byte.x04
  else if bool_decide (c = "celestia"%string) then Byte.x05
  else Byte.xff.

Record ProofLeafV1 := mkProofLeaf {
  leaf_version : N;
  source_chain : string;
  destination_chain : string;
  leaf_sanad_id : Hash;
  leaf_commitment : Hash;
  content_descriptor_hash : Hash;
  source_seal_ref_hash : Hash;
  destination_owner_hash : Hash;
  leaf_nullifier : Hash;
  lock_event_id : Hash;
  metadata_hash : Hash;
  proof_policy_hash : Hash
}.

(** [ProofLeafV1::new] *)
Definition ProofLeafV1_new (src dst : string) (sanad commitment : Hash) : ProofLeafV1 :=
  mkProofLeaf 1 src dst sanad commitment Hash.zero Hash.zero Hash.zero Hash.zero
    Hash.zero Hash.zero Hash.zero.

(** The nine digests of a leaf, in order. *)
Definition leaf_hashes (l : ProofLeafV1) : list Hash :=
  [leaf_sanad_id l; leaf_commitment l; content_descriptor_hash l; source_seal_ref_hash l;
   destination_owner_hash l; leaf_nullifier l; lock_event_id l; metadata_hash l;
   proof_policy_hash l].

(** [ProofLeafV1::to_canonical_bytes] *)
Definition leaf_to_canonical_bytes (l : ProofLeafV1) : bytes :=
  as_bytes "csv.proof.leaf.v1" ++ u32_le (leaf_version l) ++
  [chain_id_to_u8 (source_chain l); chain_id_to_u8 (destination_chain l)] ++
  flat_map b32 (leaf_hashes l).

(** The hash crates the dispatch calls.  [Blake2b256] calls BLAKE2s. *)
Record HashCrates := mkHashCrates {
  keccak256 : bytes -> Bytes32;
  sha2_256 : bytes -> Bytes32;
  blake2s256 : bytes -> Bytes32;
  sha3_256 : bytes -> Bytes32
}.

(** [HashFunction::hash_bytes] *)
Definition hash_bytes (c : HashCrates) (f : HashFunction) (b : bytes) : Hash :=
  match f with
  | Keccak256 => keccak256 c b
  | Sha256 => sha2_256 c b
  | Blake2b256 => blake2s256 c b
  | DoubleSha256 => sha2_256 c (b32 (sha2_256 c b))
  | Sha3_256 => sha3_256 c b
  end.

Definition native_hash_function (l : ProofLeafV1) : HashFunction := for_chain (source_chain l).

(** [ProofLeafV1::hash_with_function], [ProofLeafV1::hash] *)
Definition hash_with_function (c : HashCrates) (l : ProofLeafV1) (f : HashFunction)
  : result string Hash := Ok (hash_bytes c f (leaf_to_canonical_bytes l)).
Definition leaf_hash (c : HashCrates) (l : ProofLeafV1) : result string Hash :=
  hash_with_function c l (native_hash_function l).

(** ** Variant hashes *)

Record OwnershipProof := mkOwnershipProof {
  own_owner : bytes; own_proof : bytes; own_asset_id : Hash; own_scheme : string }.
Record TransitionProof := mkTransitionProof {
  previous_state : Hash; new_state : Hash; transition_data : bytes; trans_proof : bytes }.
Record ReplayProof := mkReplayProof {
  replay_nullifier : Hash; replay_chain_id : string; replay_context : bytes }.
Record ExecutionProof := mkExecutionProof {
  computation_hash : Hash; exec_proof : bytes; exec_context : bytes }.
Record ZKProof := mkZKProof {
  zk_system : string; zk_proof : bytes; public_inputs : list Hash;
  verification_key_hash : Hash }.
Inductive CompositionRule := And | Or | Threshold (n : N).

Inductive Proof :=
| PInclusion (p : InclusionProof)
| PFinality (p : FinalityProof)
| POwnership (p : OwnershipProof)
| PTransition (p : TransitionProof)
| PReplay (p : ReplayProof)
| PExecution (p : ExecutionProof)
| PZK (p : ZKProof)
| PComposite (children : list Proof) (rule : CompositionRule) (proof : bytes).

(** [CompositionRule::as_bytes]: the threshold's number is not part of it. *)
Definition rule_bytes (r : CompositionRule) : bytes :=
  match r with And => as_bytes "and" | Or => as_bytes "or" | Threshold _ => as_bytes "threshold" end.

(** [Proof::category] and [ProofCategory::as_bytes] *)
Definition category_bytes (p : Proof) : bytes :=
  as_bytes match p with
  | PInclusion _ => "inclusion" | PFinality _ => "finality" | POwnership _ => "ownership"
  | PTransition _ => "transition" | PReplay _ => "replay" | PExecution _ => "execution"
  | PZK _ => "zk" | PComposite _ _ _ => "composite"
  end.

Section Variants.
Variable sha256 : bytes -> Bytes32.
Local Notation vhash := (tagged_hash sha256 VerificationProofV1).

Definition inclusion_variant_hash (p : InclusionProof) : Hash :=
  vhash (b32 (leaf p) ++ b32 (inc_root p) ++ flat_map b32 (inc_siblings p) ++
         u64_le (inc_leaf_index p) ++ as_bytes (inc_source p)).
Definition finality_variant_hash (p : FinalityProof) : Hash :=
  vhash (b32 (fin_block_hash p) ++ u32_le (threshold p) ++ u64_le (confirmations p) ++
         fin_data p ++ as_bytes (fin_source p)).
Definition ownership_variant_hash (p : OwnershipProof) : Hash :=
  vhash (own_owner p ++ own_proof p ++ b32 (own_asset_id p) ++ as_bytes (own_scheme p)).
Definition transition_variant_hash (p : TransitionProof) : Hash :=
  vhash (b32 (previous_state p) ++ b32 (new_state p) ++ transition_data p ++ trans_proof p).
Definition replay_variant_hash (p : ReplayProof) : Hash :=
  vhash (b32 (replay_nullifier p) ++ as_bytes (replay_chain_id p) ++ replay_context p).
Definition execution_variant_hash (p : ExecutionProof) : Hash :=
  vhash (b32 (computation_hash p) ++ exec_proof p ++ exec_context p).
Definition zk_variant_hash (p : ZKProof) : Hash :=
  vhash (as_bytes (zk_system p) ++ zk_proof p ++ flat_map b32 (public_inputs p) ++
         b32 (verification_key_hash p)).

(** [Proof::hash] over [Proof::variant_hash]: a composite hashes its children. *)
Fixpoint proof_hash (p : Proof) : Hash :=
  vhash (category_bytes p ++ b32
    match p with
    | PInclusion q => inclusion_variant_hash q
    | PFinality q => finality_variant_hash q
    | POwnership q => ownership_variant_hash q
    | PTransition q => transition_variant_hash q
    | PReplay q => replay_variant_hash q
    | PExecution q => execution_variant_hash q
    | PZK q => zk_variant_hash q
    | PComposite children rule proof =>
        vhash (flat_map (fun c => b32 (proof_hash c)) children ++ rule_bytes rule ++ proof)
    end).

(** ** Replay identifiers *)

Definition replay_preimage (source_chain : string) (txid : bytes) (output_index : N)
    (seal transition : bytes) (destination_chain : string) : bytes :=
  as_bytes source_chain ++ [Byte.x00] ++ txid ++ u32_le output_index ++ seal ++ transition ++
  as_bytes destination_chain ++ [Byte.x00].

(** [ReplayId::derive] *)
Definition ReplayId_derive (source_chain : string) (txid : bytes) (output_index : N)
    (seal transition : bytes) (destination_chain : string) : N * Hash :=
  (1%N, tagged_hash sha256 ReplayIdV1
          (replay_preimage source_chain txid output_index seal transition destination_chain)).
End Variants.

(** ** Lemmas: codecs *)

Definition u64_ok (n : N) : Prop := (n <= u64_max)%N.
Definition string_ok (s : string) : Prop := is_utf8 s = true /\ (slen s <= u32_max)%N.

Definition inclusion_ok (p : InclusionProof) : Prop :=
  (blen (proof_bytes p) <= u32_max)%N /\ u64_ok (position p) /\ u64_ok (block_number p) /\
  (blen (inc_siblings p) <= u32_max)%N /\ u64_ok (inc_leaf_index p) /\ string_ok (inc_source p).

Definition finality_ok (p : FinalityProof) : Prop :=
  (blen (finality_data p) <= u32_max)%N /\ (threshold p <= u32_max)%N /\
  u64_ok (confirmations p) /\ (blen (fin_data p) <= u32_max)%N /\ string_ok (fin_source p).

#[local] Opaque u64_le u32_le sized sized_list hash_list.

Lemma read_string_app e1 e2 s rest :
  string_ok s -> read_string e1 e2 (sized (as_bytes s) ++ rest) = Ok (s, rest).
Proof.
  intros [Hu Hl]. unfold read_string. rewrite read_sized_sized by done. simpl.
  by rewrite from_utf8_as_bytes.
Qed.

Lemma inclusion_read_app p rest :
  inclusion_ok p -> inclusion_read_at 8 (inclusion_to_canonical_bytes p ++ rest) = Ok (p, rest).
Proof.
  intros (H1 & H2 & H3 & H4 & H5 & H6). unfold inclusion_to_canonical_bytes, inclusion_bytes_at.
  rewrite <- !app_assoc.
  change (le_bytes 8 ?x) with (u64_le x). unfold inclusion_read_at.
  rewrite read_sized_sized by done. simpl. rewrite read_b32_app. simpl.
  rewrite read_u64_le_app by done. simpl. rewrite read_u64_le_app by done. simpl.
  rewrite read_b32_app. simpl. rewrite read_b32_app. simpl.
  rewrite read_hash_list by done. simpl. rewrite read_u64_le_app by done. simpl.
  rewrite read_string_app by done. cbn [mbind result_bind]. change (256 ^ N.of_nat 8)%N with (u64_max + 1)%N.
  rewrite N.mod_small by (unfold u64_ok in H5; lia). by destruct p.
Qed.

Lemma finality_read_app p rest :
  finality_ok p -> finality_read (finality_to_canonical_bytes p ++ rest) = Ok (p, rest).
Proof.
  intros (H1 & H2 & H3 & H4 & H5). unfold finality_read, finality_to_canonical_bytes.
  rewrite <- !app_assoc.
  rewrite read_sized_sized by done. simpl. rewrite read_b32_app. simpl.
  rewrite read_u32_le_app by done. simpl. rewrite read_u64_le_app by done. simpl.
  rewrite read_sized_sized by done. simpl. rewrite read_string_app by done. simpl.
  destruct p as [fd bh th cf dt src []]; done.
Qed.

Lemma inclusion_from_to p :
  inclusion_ok p -> inclusion_from_canonical_bytes (inclusion_to_canonical_bytes p) = Ok p.
Proof.
  intros H. unfold inclusion_from_canonical_bytes, inclusion_from_at.
  by rewrite <- (app_nil_r (inclusion_to_canonical_bytes p)), inclusion_read_app.
Qed.

Lemma finality_from_to p :
  finality_ok p -> finality_from_canonical_bytes (finality_to_canonical_bytes p) = Ok p.
Proof.
  intros H. unfold finality_from_canonical_bytes.
  by rewrite <- (app_nil_r (finality_to_canonical_bytes p)), finality_read_app.
Qed.

(** What the 32-bit prefixes of a bundle can carry. *)
Definition bundle_ok (p : ProofBundle) : Prop :=
  (version p <= u32_max)%N /\ segment_sized (transition_dag p) /\
  (blen (segment_to_canonical_bytes (transition_dag p)) <= u32_max)%N /\
  all_sized (bundle_signatures p) /\ seal_ok (seal_ref p) /\ anchor_ok (anchor_ref p) /\
  inclusion_ok (inclusion_proof p) /\ finality_ok (finality_proof p) /\
  (blen (inclusion_to_canonical_bytes (inclusion_proof p)) <= u32_max)%N /\
  (blen (finality_to_canonical_bytes (finality_proof p)) <= u32_max)%N.

Definition scheme_read (s : SignatureScheme) : result string SignatureScheme :=
  match s with MlDsa65 => Err "Invalid signature scheme"%string | s => Ok s end.

Lemma bundle_read_head_app p rest :
  bundle_ok p ->
  bundle_read_head (u32_le (version p) ++ sized (segment_to_canonical_bytes (transition_dag p)) ++
    sized_list (bundle_signatures p) ++ [scheme_byte (signature_scheme p)] ++ rest)
  = s ← scheme_read (signature_scheme p);
    Ok ((version p, transition_dag p, bundle_signatures p, s), rest).
Proof.
  intros (H1 & H2 & H3 & H4 & _). unfold bundle_read_head.
  rewrite read_u32_le_app by done. simpl. rewrite read_sized_sized by done. simpl.
  rewrite <- (app_nil_r (segment_to_canonical_bytes _)), segment_from_to by done. simpl.
  rewrite read_sized_list by done. simpl. by destruct (signature_scheme p).
Qed.

Lemma bundle_read_seal_app s rest :
  seal_ok s ->
  bundle_read_seal (sized (seal_id s) ++ opt_u64_bytes (seal_nonce s) ++
                    opt_u64_bytes (seal_version s) ++ rest) = Ok (s, rest).
Proof.
  intros (H1 & H2 & H3). unfold bundle_read_seal. rewrite read_sized_sized by done. simpl.
  rewrite read_flag_lenient_app by done. simpl. rewrite read_flag_lenient_app by done. simpl.
  by destruct s.
Qed.

Lemma bundle_read_anchor_app a rest :
  anchor_ok a ->
  bundle_read_anchor (sized (anchor_id a) ++ u64_le (block_height a) ++
                      sized (anchor_metadata a) ++ rest) = Ok (a, rest).
Proof.
  intros (H1 & H2 & H3). unfold bundle_read_anchor. rewrite read_sized_sized by done. simpl.
  rewrite read_u64_le_app by done. simpl. rewrite read_sized_sized by done. simpl.
  by destruct a.
Qed.

Lemma bundle_read_proofs_app i f rest :
  inclusion_ok i -> finality_ok f ->
  (blen (inclusion_to_canonical_bytes i) <= u32_max)%N ->
  (blen (finality_to_canonical_bytes f) <= u32_max)%N ->
  bundle_read_proofs 8 (sized (inclusion_to_canonical_bytes i) ++
                      sized (finality_to_canonical_bytes f) ++ rest) = Ok ((i, f), rest).
Proof.
  intros Hi Hf H1 H2. unfold bundle_read_proofs. rewrite read_sized_sized by done. simpl.
  change (inclusion_from_at 8) with inclusion_from_canonical_bytes.
  rewrite inclusion_from_to by done. simpl. rewrite read_sized_sized by done. simpl.
  by rewrite finality_from_to.
Qed.

(** ** Lemmas: leaf and replay preimages *)

Lemma flat_map_b32_inj (l k : list Hash) x y :
  length l = length k -> flat_map b32 l ++ x = flat_map b32 k ++ y -> l = k /\ x = y.
Proof.
  revert k. induction l as [|h l IH]; intros [|g k] Hl H; try done.
  simpl in H. rewrite <- !app_assoc in H.
  apply app_eq_length_inj in H as [Hb H]; [|by rewrite !b32_length].
  apply b32_inj in Hb as ->. apply IH in H as [-> ->]; [done|]. by injection Hl.
Qed.

(** A prefix without NUL bytes is determined by the first NUL after it. *)
Lemma nul_terminated_inj (a b x y : bytes) :
  Byte.x00 ∉ a -> Byte.x00 ∉ b -> a ++ Byte.x00 :: x = b ++ Byte.x00 :: y -> a = b /\ x = y.
Proof.
  revert b. induction a as [|c a IH]; intros [|d b] Ha Hb H; simpl in H.
  - by injection H.
  - injection H as <- _. set_solver.
  - injection H as -> _. set_solver.
  - injection H as -> H. apply IH in H as [-> ->]; [done|set_solver|set_solver].
Qed.

Lemma bundle_codec_64 (p : ProofBundle) (junk : bytes) :
  bundle_ok p ->
  bundle_from_canonical_bytes (bundle_to_canonical_bytes p ++ junk) =
  match signature_scheme p with
  | MlDsa65 => Err "Invalid signature scheme"%string
  | _ => Ok p
  end.
Proof.
  intros H. unfold bundle_from_canonical_bytes, bundle_to_canonical_bytes, bundle_from_at, bundle_bytes_at.
  rewrite <- !app_assoc, bundle_read_head_app by done.
  destruct H as (_ & _ & _ & _ & Hs & Ha & Hi & Hf & H9 & H10).
  assert (Hrest : forall s,
    ('(seal, rest) ← bundle_read_seal (sized (seal_id (seal_ref p)) ++
         opt_u64_bytes (seal_nonce (seal_ref p)) ++ opt_u64_bytes (seal_version (seal_ref p)) ++
         sized (anchor_id (anchor_ref p)) ++ u64_le (block_height (anchor_ref p)) ++
         sized (anchor_metadata (anchor_ref p)) ++
         sized (inclusion_to_canonical_bytes (inclusion_proof p)) ++
         sized (finality_to_canonical_bytes (finality_proof p)) ++ junk);
     '(anchor, rest) ← bundle_read_anchor rest;
     '((inc, fin), _) ← bundle_read_proofs 8 rest;
     Ok (mkProofBundle (version p) (transition_dag p) (bundle_signatures p) s seal anchor inc fin))
    = Ok (mkProofBundle (version p) (transition_dag p) (bundle_signatures p) s (seal_ref p)
            (anchor_ref p) (inclusion_proof p) (finality_proof p))).
  { intros s. rewrite bundle_read_seal_app by done. cbn [mbind result_bind].
    rewrite bundle_read_anchor_app by done. cbn [mbind result_bind].
    rewrite (bundle_read_proofs_app _ _ _ Hi Hf H9 H10). reflexivity. }
  destruct p as [v dag sigs [] seal anchor inc fin]; cbn [signature_scheme scheme_read];
    cbn [mbind result_bind]; [apply Hrest|apply Hrest|done].
Qed.

(** With four bytes to a [usize] the reader takes the length of the source as part of the place
    of the leaf, and the source's first bytes as its length. *)
Lemma inclusion_codec_32 p : inclusion_ok p -> inclusion_from_at 4 (inclusion_bytes_at 4 p) <> Ok p.
Proof.
  intros (H1 & H2 & H3 & H4 & H5 & [Hu H6]). unfold inclusion_from_at, inclusion_bytes_at, inclusion_read_at.
  assert (Hl4 : length (le_bytes 4 (inc_leaf_index p)) = 4) by apply length_le_bytes.
  set (li := le_bytes 4 _) in *. clearbody li.
  rewrite read_sized_sized by done. simpl. rewrite read_b32_app. simpl.
  rewrite read_u64_le_app by done. simpl. rewrite read_u64_le_app by done. simpl.
  rewrite read_b32_app. simpl. rewrite read_b32_app. simpl. rewrite read_hash_list by done. cbn [mbind result_bind].
  change (sized (as_bytes (inc_source p))) with
    (u32_le (blen (as_bytes (inc_source p))) ++ as_bytes (inc_source p)).
  unfold read_u64_le, take_n at 1. rewrite app_assoc.
  assert (H8 : length (li ++ u32_le (blen (as_bytes (inc_source p)))) = 8)
    by (by rewrite length_app, Hl4, length_u32_le).
  rewrite decide_True by (rewrite length_app; lia). cbn [mbind result_bind].
  rewrite drop_app_length' by done. unfold read_string.
  destruct (read_sized _ _ _) as [[x rest]|] eqn:E; [|done]. cbn [mbind result_bind].
  unfold read_sized, read_u32_le in E. apply bind_ok in E as ([n r] & E1 & E2).
  apply bind_ok in E1 as ([l r'] & E1 & [= <- <-]). apply take_n_ok in E1 as [E1 Hl], E2 as [E2 _].
  destruct (from_utf8 x) as [s|] eqn:Es; [|done]. cbn [map_err mbind result_bind]. intros [= Hp].
  apply (f_equal inc_source) in Hp. cbn in Hp. apply from_utf8_ok in Es as [_ Es]. rewrite Hp in Es.
  apply (f_equal length) in E1. rewrite E2, !length_app, <- Es in E1. lia.
Qed.

Lemma bundle_codec_32 (p : ProofBundle) (junk : bytes) :
  bundle_ok p -> bundle_from_at 4 (bundle_bytes_at 4 p ++ junk) <> Ok p.
Proof.
  intros H. unfold bundle_from_at, bundle_bytes_at. rewrite <- !app_assoc, bundle_read_head_app by done.
  destruct H as (_ & _ & _ & _ & Hs & Ha & Hi & Hf & H9 & _).
  assert (H4 : (blen (inclusion_bytes_at 4 (inclusion_proof p)) <= u32_max)%N).
  { etransitivity; [|exact H9]. unfold inclusion_to_canonical_bytes, inclusion_bytes_at.
    rewrite !blen_app. unfold blen. rewrite !length_le_bytes. lia. }
  destruct (scheme_read _) as [s|]; [|done]. cbn [mbind result_bind].
  rewrite bundle_read_seal_app by done. cbn [mbind result_bind].
  rewrite bundle_read_anchor_app by done. cbn [mbind result_bind].
  unfold bundle_read_proofs. rewrite read_sized_sized by done. cbn [mbind result_bind].
  pose proof (inclusion_codec_32 _ Hi) as Hne.
  destruct (inclusion_from_at 4 _) as [q|]; [|done]. cbn [map_err mbind result_bind].
  destruct (read_sized _ _ _) as [[fb rest]|]; [|done]. cbn [mbind result_bind].
  destruct (finality_from_canonical_bytes fb) as [f|]; [|done]. cbn [map_err mbind result_bind].
  intros [= E]. apply Hne. f_equal. by rewrite <- E.
Qed.

(** ** Properties *)

(** the bundle codec.  Where a [usize] has eight bytes, decoding the canonical bytes of a
    bundle gives the bundle back, whatever follows them, when its scheme is secp256k1 or
    ed25519; a bundle signed under ML-DSA-65 encodes, and its encoding is rejected.  Where a
    [usize] has four bytes (wasm32) no bundle is ever read back as it was: the place of the
    leaf is written in four bytes and read from eight. *)
Theorem bundle_codec (p : ProofBundle) (junk : bytes) :
  bundle_ok p ->
  bundle_from_at 8 (bundle_bytes_at 8 p ++ junk) =
  match signature_scheme p with
  | MlDsa65 => Err "Invalid signature scheme"%string
  | _ => Ok p
  end /\
  bundle_from_at 4 (bundle_bytes_at 4 p ++ junk) <> Ok p.
Proof. intros H. split; [by apply bundle_codec_64|by apply bundle_codec_32]. Qed.

(** a leaf digest binds the leaf.  Under one hash function, two leaves with
    the same digest have the same version, the same chain codes and the same
    nine hashes, or that function collides on the encodings of the two.  Chain names are
    bound only up to their code. *)
Theorem leaf_hash_binds (c : HashCrates) (f : HashFunction) (l k : ProofLeafV1) h :
  (leaf_version l <= u32_max)%N -> (leaf_version k <= u32_max)%N ->
  hash_with_function c l f = Ok h -> hash_with_function c k f = Ok h ->
  (leaf_version l = leaf_version k /\
   chain_id_to_u8 (source_chain l) = chain_id_to_u8 (source_chain k) /\
   chain_id_to_u8 (destination_chain l) = chain_id_to_u8 (destination_chain k) /\
   leaf_hashes l = leaf_hashes k) \/
  collision_in (hash_bytes c f) [leaf_to_canonical_bytes l; leaf_to_canonical_bytes k].
Proof.
  intros Hl Hk [= H1] [= H2]. rewrite <- H2 in H1.
  hash_inj H1. rename H1 into H. left.
  unfold leaf_to_canonical_bytes in H. apply app_inv_head in H.
  apply app_eq_length_inj in H as [Hv H]; [|by rewrite !length_u32_le].
  apply u32_le_inj in Hv; [|done|done]. injection H as Hs Hd H.
  pose proof (flat_map_b32_inj (leaf_hashes l) (leaf_hashes k) [] [] eq_refl) as Hi.
  rewrite !app_nil_r in Hi. by apply Hi in H as [? _].
Qed.

(** A replay identifier binds its fields when their lengths are the same:
    then equal identifiers mean equal chains, transaction, output index, seal and
    transition, or the two strings hashed collide. *)
Theorem replay_id_binds (sha256 : bytes -> Bytes32) sc sc' tx tx' i i' seal seal' tr tr' dc dc' :
  Byte.x00 ∉ as_bytes sc -> Byte.x00 ∉ as_bytes sc' ->
  length tx = length tx' -> length seal = length seal' -> length tr = length tr' ->
  (i <= u32_max)%N -> (i' <= u32_max)%N ->
  ReplayId_derive sha256 sc tx i seal tr dc = ReplayId_derive sha256 sc' tx' i' seal' tr' dc' ->
  (sc = sc' /\ tx = tx' /\ i = i' /\ seal = seal' /\ tr = tr' /\ dc = dc') \/
  collision_in sha256 [tagged_preimage ReplayIdV1 (replay_preimage sc tx i seal tr dc);
                       tagged_preimage ReplayIdV1 (replay_preimage sc' tx' i' seal' tr' dc')].
Proof.
  intros Hsc Hsc' Htx Hseal Htr Hi Hi' H. unfold ReplayId_derive in H. injection H as H.
  hash_inj H. left.
  unfold replay_preimage in H. apply nul_terminated_inj in H as [E1 H]; [|done|done].
  apply as_bytes_inj in E1.
  apply app_eq_length_inj in H as [E2 H]; [|done].
  apply app_eq_length_inj in H as [E3 H]; [|by rewrite !length_u32_le].
  apply u32_le_inj in E3; [|done|done].
  apply app_eq_length_inj in H as [E4 H]; [|done].
  apply app_eq_length_inj in H as [E5 H]; [|done].
  apply app_inv_tail in H. apply as_bytes_inj in H. naive_solver.
Qed.

(** A replay identifier does not bind the boundary between the seal and the
    transition: moving a byte from one to the other keeps the identifier. *)
Theorem replay_id_boundary (sha256 : bytes -> Bytes32) sc tx i seal tr x dc :
  ReplayId_derive sha256 sc tx i (seal ++ [x]) tr dc
  = ReplayId_derive sha256 sc tx i seal (x :: tr) dc.
Proof.
  unfold ReplayId_derive, replay_preimage. by rewrite <- (app_assoc seal).
Qed.

(** ** Witnesses *)

Definition demo_inclusion : InclusionProof :=
  mkInclusionProof [Byte.x01; Byte.x02] (fill32 Byte.x07) 3 12 Hash.zero Hash.zero
    [fill32 Byte.x08] 3 "bitcoin".
Definition demo_finality : FinalityProof :=
  mkFinalityProof [Byte.x05] (fill32 Byte.x07) 6 9 [] "bitcoin" true.
Definition demo_bundle (scheme : SignatureScheme) : ProofBundle :=
  mkProofBundle 1 (mkSegment demo_listed Hash.zero) [[Byte.x0a]] scheme
    (mkSealPoint [Byte.x0b] (Some 4%N) None) (mkCommitAnchor [Byte.x0c] 12 [Byte.x01; Byte.x02])
    demo_inclusion demo_finality.

Lemma demo_bundle_ok scheme : bundle_ok (demo_bundle scheme).
Proof.
  split; [by vm_compute|]. split; [apply segment_sized_intro; by vm_compute|].
  split; [by vm_compute|]. split; [split; [by vm_compute|by repeat constructor]|].
  split; [split; [by vm_compute|split; [by intros n [= <-]|done]]|].
  repeat split; by vm_compute.
Qed.

Lemma bundle_codec_witness :
  bundle_from_canonical_bytes (bundle_to_canonical_bytes (demo_bundle Ed25519) ++ [])
  = Ok (demo_bundle Ed25519).
Proof. exact (proj1 (bundle_codec (demo_bundle Ed25519) [] (demo_bundle_ok Ed25519))). Defined.

Definition toy_crates : HashCrates := mkHashCrates toy_hash toy_hash toy_hash toy_hash.
Definition demo_leaf : ProofLeafV1 := ProofLeafV1_new "bitcoin" "sui" Hash.zero Hash.zero.

Lemma leaf_hash_binds_witness :
  leaf_hashes demo_leaf = leaf_hashes demo_leaf \/
  collision_in (hash_bytes toy_crates DoubleSha256)
    [leaf_to_canonical_bytes demo_leaf; leaf_to_canonical_bytes demo_leaf].
Proof.
  destruct (leaf_hash_binds toy_crates DoubleSha256 demo_leaf demo_leaf _
    ltac:(by vm_compute) ltac:(by vm_compute) eq_refl eq_refl) as [(_ & _ & _ & H)|H];
    [by left|by right].
Defined.

Lemma replay_id_binds_witness :
  let demo := replay_preimage "bitcoin" [Byte.x01] 0 [Byte.x02] [Byte.x03] "sui" in
  [Byte.x01] = [Byte.x01] \/
  collision_in toy_hash [tagged_preimage ReplayIdV1 demo; tagged_preimage ReplayIdV1 demo].
Proof.
  destruct (replay_id_binds toy_hash "bitcoin" "bitcoin" [Byte.x01] [Byte.x01] 0 0
    [Byte.x02] [Byte.x02] [Byte.x03] [Byte.x03] "sui" "sui") as [H|H].
  all: try (apply (bool_decide_unpack (_ ∉ _)); by vm_compute).
  all: try done.
  - left. apply H.
  - by right.
Defined.
