(* ===== verification/Signature.v ===== *)
(** * Signatures (csv-protocol/src/error.rs, signature.rs)

    Parsing of the [pk_len | pk | sig] blobs of a proof bundle, the approved
    verifier set, and the dispatch to the curve crates.  The crates are
    parameters; the checks around them are the program's. *)

From S2P Require Import Prelude Ord Bytes Hashing Dag DagCodec Text Seal ProofTaxonomy.

(** ** Protocol errors (error.rs) *)

Inductive ProtocolError :=
| InvalidStateTransition (m : string) | ReplayDetected (m : string) | SealReplay (m : string)
| InvalidSeal (m : string) | FinalityError (m : string) | FinalityNotReached (m : string)
| ProofExpired (m : string) | InclusionProofFailed (m : string) | PSerializationError (m : string)
| StorageError (m : string) | IoError (m : string) | PCodecError (m : string)
| SignatureVerificationFailed (m : string) | InvalidInput (m : string)
| PublishFailed (m : string) | NetworkError (m : string) | Generic (m : string)
| UnsupportedVersion (found max_supported : N) | MalformedEnvelope | ReorgInvalid (m : string).

(** [Display for ProtocolError] *)
Definition error_message (e : ProtocolError) : string :=
  match e with
  | InvalidStateTransition m => "Invalid state transition: " +:+ m
  | ReplayDetected m => "Replay detected: " +:+ m
  | SealReplay m => "Seal replay detected: " +:+ m
  | InvalidSeal m => "Invalid seal: " +:+ m
  | FinalityError m => "Finality error: " +:+ m
  | FinalityNotReached m => "Finality not reached: " +:+ m
  | ProofExpired m => "Proof expired: " +:+ m
  | InclusionProofFailed m => "Inclusion proof failed: " +:+ m
  | PSerializationError m => "Serialization error: " +:+ m
  | StorageError m => "Storage error: " +:+ m
  | IoError m => "I/O error: " +:+ m
  | PCodecError m => "Codec error: " +:+ m
  | SignatureVerificationFailed m => "Signature verification failed: " +:+ m
  | InvalidInput m => "Invalid input: " +:+ m
  | PublishFailed m => "Publish failed: " +:+ m
  | NetworkError m => "Network error: " +:+ m
  | Generic m => m
  | UnsupportedVersion f m => "Unsupported protocol version: found " +:+ pretty f +:+
                              ", max supported " +:+ pretty m
  | MalformedEnvelope => "Malformed envelope"
  | ReorgInvalid m => "Reorg invalid: " +:+ m
  end.

(** ** Scheme codec *)

(** [CanonicalEncoding for SignatureScheme], both formats. *)
Definition scheme_encode (s : SignatureScheme) : bytes := [scheme_byte s].
Definition scheme_decode (b : bytes) : result CodecError SignatureScheme :=
  match b with
  | [] => Err (DeserializationError "Empty bytes for SignatureScheme")
  | t :: _ =>
      if bool_decide (t = Byte.x00) then Ok Secp256k1
      else if bool_decide (t = Byte.x01) then Ok Ed25519
      else if bool_decide (t = Byte.x02) then Ok MlDsa65
      else Err (DeserializationError
                  ("Invalid SignatureScheme tag: " +:+ pretty (Byte.to_N t)))
  end.

(** ** Parsing *)

Record Signature := mkSignature {
  signature : bytes;
  public_key : bytes;
  message : bytes
}.

(** [\[pk_len (4 LE)\]\[pk\]\[sig\]]: the two length checks, then the split. *)
Definition split_blob {E} (too_short : E) (too_long : N -> E) (blob : bytes)
  : result E (bytes * bytes) :=
  '(pk_len, rest) ← read_u32_le too_short blob;
  take_n (N.to_nat pk_len) (too_long pk_len) rest.

(** [parse_signatures_from_bundle], from index [i]. *)
Fixpoint parse_blobs (i : nat) (msg : bytes) (blobs : list bytes)
  : result ProtocolError (list Signature) :=
  match blobs with
  | [] => Ok []
  | blob :: blobs' =>
      '(pk, sg) ← split_blob
        (SignatureVerificationFailed ("Signature " +:+ show_nat i +:+
           " too short: expected at least 4 bytes for length prefix, got " +:+
           show_nat (length blob)))
        (fun n => SignatureVerificationFailed ("Signature " +:+ show_nat i +:+
           " length mismatch: declared pk_len=" +:+ pretty n +:+ ", but total length is " +:+
           show_nat (length blob)))
        blob;
      rest ← parse_blobs (S i) msg blobs';
      Ok (mkSignature sg pk msg :: rest)
  end.

Definition parse_signatures_from_bundle (blobs : list bytes) (msg : bytes)
  : result ProtocolError (list Signature) :=
  match blobs with
  | [] => Err (SignatureVerificationFailed "No signatures to verify")
  | _ => parse_blobs 0 msg blobs
  end.

(** ** The crates

    [secp256k1], [ed25519-dalek] and [pqcrypto-dilithium], and the cargo features
    that compile them in.  A parsed key or signature is its serialized form. *)
Record SigCrates := mkSigCrates {
  feature_secp256k1 : bool;
  feature_ed25519 : bool;
  feature_pq : bool;
  secp_pubkey : bytes -> result string bytes;       (* PublicKey::from_slice, serialize *)
  secp_digest : bytes -> result string bytes;       (* Message::from_digest_slice *)
  secp_compact : bytes -> result string bytes;      (* ecdsa::Signature::from_compact *)
  secp_verify : bytes -> bytes -> bytes -> result string unit;  (* verify_ecdsa msg sig pk *)
  ed_pubkey : bytes -> result string bytes;         (* VerifyingKey::from_bytes *)
  ed_verify : bytes -> bytes -> bytes -> result string unit;    (* verify pk msg sig *)
  pq_pubkey : bytes -> option bytes;                (* dilithium3 PublicKey::from_bytes *)
  pq_signed : bytes -> option bytes;                (* SignedMessage::from_bytes *)
  pq_open : bytes -> bytes -> option bytes          (* open signed pk: the signed message *)
}.

Section Verify.
Variable c : SigCrates.
Local Notation fail m := (Err (SignatureVerificationFailed m)).
Local Notation failed f := (map_err (fun e => SignatureVerificationFailed (f e))).

(** The candidate loop of [verify_secp256k1]: the first that verifies wins, the
    last error is reported. *)
Fixpoint secp_candidates (msg pk : bytes) (last : option string) (l : list bytes)
  : result ProtocolError unit :=
  match l with
  | [] => fail (default "secp256k1 signature verification failed"%string last)
  | cand :: l' =>
      match secp_compact c cand ≫= (fun sg => secp_verify c msg sg pk) with
      | Ok _ => Ok tt
      | Err e => secp_candidates msg pk (Some e) l'
      end
  end.

Definition verify_secp256k1 (sg pk msg : bytes) : result ProtocolError unit :=
  if feature_secp256k1 c then
    reject (negb (Nat.eqb (length msg) 32)) with SignatureVerificationFailed
      ("Invalid secp256k1 message length: " +:+ show_nat (length msg) +:+
       " (expected 32-byte digest)") ;;
    pk' ← failed (fun e => "Invalid secp256k1 public key: " +:+ e) (secp_pubkey c pk);
    msg' ← failed (fun e => "Invalid secp256k1 message digest: " +:+ e) (secp_digest c msg);
    if Nat.eqb (length sg) 64 then secp_candidates msg' pk' None [sg]
    else if Nat.eqb (length sg) 65 then
      secp_candidates msg' pk' None [take 64 sg; drop 1 sg]
    else fail ("Invalid secp256k1 signature length: " +:+ show_nat (length sg) +:+
               " (expected 64 or 65)")
  else fail "secp256k1 verification requires the 'secp256k1' feature to be enabled".

Definition verify_ed25519 (sg pk msg : bytes) : result ProtocolError unit :=
  if feature_ed25519 c then
    reject (Nat.eqb (length pk) 0) with SignatureVerificationFailed "Empty public key" ;;
    reject (Nat.eqb (length sg) 0) with SignatureVerificationFailed "Empty signature" ;;
    reject (negb (Nat.eqb (length pk) 32)) with SignatureVerificationFailed
      ("Invalid Ed25519 public key length: " +:+ show_nat (length pk) +:+ " (expected 32)") ;;
    reject (negb (Nat.eqb (length sg) 64)) with SignatureVerificationFailed
      ("Invalid Ed25519 signature length: " +:+ show_nat (length sg) +:+ " (expected 64)") ;;
    pk' ← failed (fun e => "Invalid Ed25519 public key: " +:+ e) (ed_pubkey c pk);
    failed (fun e => "Ed25519 verification failed: " +:+ e) (ed_verify c pk' msg sg)
  else fail "ed25519 verification requires the 'ed25519' feature to be enabled".

(** The message [open] recovers is dropped, and the caller's is not read. *)
Definition verify_ml_dsa65 (sg pk msg : bytes) : result ProtocolError unit :=
  if feature_pq c then
    reject (negb (Nat.eqb (length pk) 1952)) with SignatureVerificationFailed
      ("Invalid ML-DSA-65 public key length: " +:+ show_nat (length pk) +:+
       " (expected 1952)") ;;
    reject (blen sg <? 3309)%N with SignatureVerificationFailed
      ("Invalid ML-DSA-65 signature length: " +:+ show_nat (length sg) +:+
       " (expected at least 3309)") ;;
    pk' ← ok_or (SignatureVerificationFailed "Invalid ML-DSA-65 public key") (pq_pubkey c pk);
    sm ← ok_or (SignatureVerificationFailed "Invalid ML-DSA-65 signature") (pq_signed c sg);
    _ ← ok_or (SignatureVerificationFailed "ML-DSA-65 signature verification failed")
              (pq_open c sm pk');
    Ok tt
  else fail "ML-DSA-65 verification requires the 'pq' feature to be enabled".

(** [Signature::verify] *)
Definition signature_verify (s : Signature) (scheme : SignatureScheme)
  : result ProtocolError unit :=
  match scheme with
  | Secp256k1 => verify_secp256k1 (signature s) (public_key s) (message s)
  | Ed25519 => verify_ed25519 (signature s) (public_key s) (message s)
  | MlDsa65 => verify_ml_dsa65 (signature s) (public_key s) (message s)
  end.

Fixpoint verify_from (i : nat) (sigs : list Signature) (scheme : SignatureScheme)
  : result ProtocolError unit :=
  match sigs with
  | [] => Ok tt
  | s :: sigs' =>
      _ ← map_err (fun e => SignatureVerificationFailed ("Signature " +:+ show_nat i +:+
                      " verification failed: " +:+ error_message e))
                  (signature_verify s scheme);
      verify_from (S i) sigs' scheme
  end.

(** [verify_signatures] *)
Definition verify_signatures (sigs : list Signature) (scheme : SignatureScheme)
  : result ProtocolError unit :=
  match sigs with
  | [] => fail "No signatures to verify"
  | _ => verify_from 0 sigs scheme
  end.

(** [canonical_public_key]: compressed for secp256k1 keys that parse. *)
Definition canonical_public_key (key : bytes) (scheme : SignatureScheme) : bytes :=
  match scheme with
  | Secp256k1 =>
      if feature_secp256k1 c then
        match secp_pubkey c key with Ok pk => pk | Err _ => key end
      else key
  | _ => key
  end.

Fixpoint check_signers (i : nat) (authorized : list bytes) (sigs : list Signature)
    (scheme : SignatureScheme) : result ProtocolError unit :=
  match sigs with
  | [] => Ok tt
  | s :: sigs' =>
      reject (negb (bool_decide (canonical_public_key (public_key s) scheme ∈ authorized)))
        with SignatureVerificationFailed ("Signature " +:+ show_nat i +:+
               " public key is not in the approved verifier set") ;;
      check_signers (S i) authorized sigs' scheme
  end.

(** [verify_bundle_signatures] of csv-protocol *)
Definition verify_bundle_signatures (b : ProofBundle) (scheme : SignatureScheme)
    (authorized_signers : list bytes) : result ProtocolError unit :=
  sigs ← parse_signatures_from_bundle (bundle_signatures b)
           (b32 (Dag.root_commitment (transition_dag b)));
  _ ← match authorized_signers with
      | [] => Ok tt
      | _ => check_signers 0 (map (fun k => canonical_public_key k scheme) authorized_signers)
               sigs scheme
      end;
  verify_signatures sigs scheme.
End Verify.

(** ** Lemmas *)

(** The blobs parse, one signature each, all over the same message. *)
Definition parsed (msg : bytes) (blob : bytes) (s : Signature) : Prop :=
  message s = msg /\ (blen (public_key s) <= u32_max)%N /\
  exists b4, length b4 = 4 /\ of_le_bytes b4 = blen (public_key s) /\
    blob = b4 ++ public_key s ++ signature s.

Lemma split_blob_ok {E} (e1 : E) (e2 : N -> E) blob pk sg :
  split_blob e1 e2 blob = Ok (pk, sg) <->
  exists b4, length b4 = 4 /\ of_le_bytes b4 = blen pk /\ blob = b4 ++ pk ++ sg.
Proof.
  unfold split_blob, read_u32_le. split.
  - intros ([n rest] & H1 & H2)%bind_ok. apply bind_ok in H1 as ([b4 rest'] & H1 & [= <- <-]).
    apply take_n_ok in H1 as [-> H4], H2 as [-> Hn].
    exists b4. split; [done|]. split; [|done]. unfold blen. rewrite Hn. lia.
  - intros (b4 & H4 & Hn & ->). rewrite (take_n_app' _ 4) by done. simpl.
    rewrite Hn. unfold blen. rewrite Nat2N.id. apply take_n_app.
Qed.

Lemma of_le_4_bound b4 : length b4 = 4 -> (of_le_bytes b4 <= u32_max)%N.
Proof.
  intros H. pose proof (of_le_bytes_bound b4) as Hb. unfold blen in Hb. rewrite H in Hb.
  unfold u32_max. simpl in Hb. lia.
Qed.

Lemma split_blob_parsed {E} (e1 : E) (e2 : N -> E) msg blob s :
  message s = msg ->
  (split_blob e1 e2 blob = Ok (public_key s, signature s) <-> parsed msg blob s).
Proof.
  intros Hm. rewrite split_blob_ok. unfold parsed. split.
  - intros (b4 & H4 & Hn & Hb). split; [done|]. split; [rewrite <- Hn; by apply of_le_4_bound|].
    by exists b4.
  - intros (_ & _ & H). done.
Qed.

Lemma parse_blobs_ok i msg blobs sigs :
  parse_blobs i msg blobs = Ok sigs <-> Forall2 (parsed msg) blobs sigs.
Proof.
  revert i sigs. induction blobs as [|blob blobs IH]; intros i sigs; cbn [parse_blobs].
  - split; [by intros [= <-]|]. by inversion 1.
  - split.
    + intros ([pk sg] & Hs & H)%bind_ok. apply bind_ok in H as (rest & Hr & [= <-]).
      constructor; [|by apply (IH (S i))].
      by apply (split_blob_parsed _ _ msg blob (mkSignature sg pk msg) eq_refl) in Hs.
    + inversion 1 as [|? s ? rest Hp Hr]; subst.
      apply bind_ok. exists (public_key s, signature s).
      destruct s as [sg pk m]. pose proof Hp as (Hm & _). cbn [message] in Hm. subst m.
      split; [by apply (split_blob_parsed _ _ msg blob (mkSignature sg pk msg) eq_refl)|].
      apply bind_ok. exists rest. split; [by apply IH|done].
Qed.

Section SignatureLemmas.
Variable c : SigCrates.

Lemma verify_from_ok i sigs scheme :
  verify_from c i sigs scheme = Ok tt <->
  Forall (fun s => signature_verify c s scheme = Ok tt) sigs.
Proof.
  revert i. induction sigs as [|s sigs IH]; intros i; simpl; [naive_solver|].
  rewrite bind_ok, Forall_cons. setoid_rewrite map_err_ok.
  setoid_rewrite (IH (S i)). split; [intros ([] & ? & ?)|intros [? ?]]; eauto.
Qed.

Lemma check_signers_ok i auth sigs scheme :
  check_signers c i auth sigs scheme = Ok tt <->
  Forall (fun s => canonical_public_key c (public_key s) scheme ∈ auth) sigs.
Proof.
  revert i. induction sigs as [|s sigs IH]; intros i; simpl; [naive_solver|].
  rewrite guard_err_ok, Forall_cons, IH, negb_false_iff, bool_decide_eq_true. done.
Qed.

Lemma verify_signatures_ok sigs scheme :
  verify_signatures c sigs scheme = Ok tt <->
  sigs <> [] /\ Forall (fun s => signature_verify c s scheme = Ok tt) sigs.
Proof.
  destruct sigs as [|s sigs]; [naive_solver|].
  unfold verify_signatures. rewrite verify_from_ok. naive_solver.
Qed.

(** Approved under a signer set: an empty set approves every key. *)
Definition approved (authorized : list bytes) (scheme : SignatureScheme) (s : Signature) : Prop :=
  authorized = [] \/
  exists k, k ∈ authorized /\
    canonical_public_key c (public_key s) scheme = canonical_public_key c k scheme.

Lemma approved_cons k ks scheme s :
  canonical_public_key c (public_key s) scheme ∈
    map (fun k => canonical_public_key c k scheme) (k :: ks) <->
  approved (k :: ks) scheme s.
Proof.
  unfold approved. rewrite list_elem_of_fmap. split.
  - intros (k' & He & Hk). right. eauto.
  - intros [|(k' & Hk & He)]; [done|]. eauto.
Qed.

Lemma signers_approved i authorized sigs scheme :
  match authorized with
  | [] => Ok tt
  | _ => check_signers c i (map (fun k => canonical_public_key c k scheme) authorized) sigs scheme
  end = Ok tt <-> Forall (approved authorized scheme) sigs.
Proof.
  destruct authorized as [|k ks].
  - split; [|done]. intros _. apply Forall_forall. intros s _. by left.
  - rewrite check_signers_ok. split; intros H; (eapply Forall_impl; [exact H|]); intros s;
      by apply approved_cons.
Qed.
End SignatureLemmas.

(** ** Properties *)

(** what an accepted bundle's signatures mean.  [verify_bundle_signatures]
    accepts exactly when there is at least one blob, every blob splits as
    length, key, signature, every key is in the approved set in canonical form
    (when the set is not empty), and every signature verifies on the segment's
    root commitment. *)
Theorem bundle_signatures_spec (c : SigCrates) (b : ProofBundle) scheme authorized :
  verify_bundle_signatures c b scheme authorized = Ok tt <->
  bundle_signatures b <> [] /\ exists sigs,
    Forall2 (parsed (b32 (Dag.root_commitment (transition_dag b)))) (bundle_signatures b) sigs /\
    Forall (approved c authorized scheme) sigs /\
    Forall (fun s => signature_verify c s scheme = Ok tt) sigs.
Proof.
  unfold verify_bundle_signatures, parse_signatures_from_bundle. rewrite bind_ok. split.
  - intros (sigs & Hp & H). destruct (bundle_signatures b) as [|blob blobs]; [done|].
    split; [done|]. apply parse_blobs_ok in Hp. apply bind_ok in H as ([] & Ha & Hv).
    apply signers_approved in Ha. apply verify_signatures_ok in Hv as [_ Hv]. eauto.
  - intros (Hne & sigs & Hp & Ha & Hv). exists sigs.
    destruct (bundle_signatures b) as [|blob blobs]; [done|].
    split; [by apply parse_blobs_ok|]. apply bind_ok. exists tt.
    split; [by apply signers_approved|]. apply verify_signatures_ok. split; [|done].
    by inversion Hp.
Qed.

(** an ML-DSA-65 bundle signature does not bind the segment.  Replacing the
    root commitment of an accepted ML-DSA-65 bundle leaves it accepted. *)
Theorem ml_dsa_does_not_bind_root (c : SigCrates) (b b' : ProofBundle) authorized :
  bundle_signatures b = bundle_signatures b' ->
  verify_bundle_signatures c b MlDsa65 authorized = Ok tt ->
  verify_bundle_signatures c b' MlDsa65 authorized = Ok tt.
Proof.
  intros Hb. unfold verify_bundle_signatures, parse_signatures_from_bundle. rewrite <- Hb.
  set (m := b32 (Dag.root_commitment (transition_dag b))).
  set (m' := b32 (Dag.root_commitment (transition_dag b'))). rewrite !bind_ok.
  intros (sigs & Hp & H). destruct (bundle_signatures b) as [|blob blobs]; [done|].
  apply parse_blobs_ok in Hp. apply bind_ok in H as ([] & Ha & Hv).
  apply signers_approved in Ha. apply verify_signatures_ok in Hv as [Hne Hv].
  exists (map (fun s => mkSignature (signature s) (public_key s) m') sigs). split.
  - apply parse_blobs_ok. apply Forall2_fmap_r. eapply Forall2_impl; [exact Hp|].
    intros x s (_ & Hl & Hs). by split.
  - apply bind_ok. exists tt. split.
    + apply signers_approved, Forall_map. eapply Forall_impl; [exact Ha|]. done.
    + apply verify_signatures_ok. split; [by destruct sigs|].
      apply Forall_map. eapply Forall_impl; [exact Hv|]. done.
Qed.

(** ** Witness *)

(** Crates that accept anything well-formed, with the [pq] feature on. *)
Definition permissive_crates : SigCrates := {|
  feature_secp256k1 := true; feature_ed25519 := true; feature_pq := true;
  secp_pubkey := Ok; secp_digest := Ok; secp_compact := Ok;
  secp_verify _ _ _ := Ok tt; ed_pubkey := Ok; ed_verify _ _ _ := Ok tt;
  pq_pubkey := Some; pq_signed := Some; pq_open s _ := Some s |}.

Definition demo_pq_blob : bytes :=
  u32_le 1952 ++ replicate 1952 Byte.x01 ++ replicate 3309 Byte.x02.
Definition demo_pq_bundle (root : Hash) : ProofBundle :=
  mkProofBundle 1 (mkSegment [] root) [demo_pq_blob] MlDsa65
    (mkSealPoint [Byte.x0b] None None) (mkCommitAnchor [Byte.x0c] 12 [])
    demo_inclusion demo_finality.

Lemma ml_dsa_does_not_bind_root_witness :
  verify_bundle_signatures permissive_crates (demo_pq_bundle (fill32 Byte.x05)) MlDsa65 [] = Ok tt.
Proof.
  apply (ml_dsa_does_not_bind_root permissive_crates (demo_pq_bundle (fill32 Byte.x04))
           (demo_pq_bundle (fill32 Byte.x05)) []); [reflexivity|].
  vm_compute. reflexivity.
Defined.
