(* ===== verification/Checkpoint.v ===== *)
(** * Checkpoints (csv-protocol/src/deterministic_recovery.rs)

    Snapshots of the runtime with a sequence number and a checksum, the manager that
    writes them to memory or to a directory, and recovery from the latest.  Canonical
    CBOR is a parameter, the clock an argument; a directory is a map from file names to
    contents, and the order it is listed in is a parameter.  I/O errors and poisoned
    locks are not modelled. *)

From S2P Require Import Prelude Ord Bytes Hashing Text Seal.
From Stdlib Require Import DecimalString DecimalN.

Definition CHECKPOINT_VERSION : N := 1.

Record LeaseState := mkLeaseState {
  lst_lease_token : string;
  lst_owner : bytes;
  lst_source_chain : string;
  lst_destination_chain : string;
  lst_acquired_at : N;
  lst_expires_at : N;
  lst_stage : string
}.

Record TransferState := mkTransferState {
  ts_transfer_id : string;
  ts_sanad_id : SanadIdWire;
  ts_source_chain : string;
  ts_destination_chain : string;
  ts_status : string;
  ts_lock_tx_hash : option HashWire;
  ts_mint_tx_hash : option HashWire;
  ts_created_at : N;
  ts_updated_at : N
}.

Record RegistryEntry := mkRegistryEntry {
  rge_sanad_id : SanadIdWire;
  rge_source_chain : string;
  rge_source_seal : bytes;
  rge_destination_chain : string;
  rge_destination_seal : bytes;
  rge_lock_tx_hash : HashWire;
  rge_mint_tx_hash : HashWire;
  rge_timestamp : N
}.

Record RegistryState := mkRegistryState {
  rgs_transfer_count : N;
  rgs_entries : gmap string RegistryEntry
}.

(** [CheckpointChecksumPayload]: a checkpoint without its checksum. *)
Record Payload := mkPayload {
  ck_version : N;
  ck_sequence : N;
  ck_timestamp : N;
  ck_leases : gmap string LeaseState;
  ck_transfers : gmap string TransferState;
  ck_registry_state : RegistryState
}.
Record RuntimeCheckpoint := mkCheckpoint { ck_payload : Payload; ck_checksum : HashWire }.

Inductive RecoveryError :=
| RSerializationError (m : string)
| RDeserializationError (m : string)
| ChecksumMismatch
| NoCheckpointFound
| CheckpointCorrupted
| RStorageError (m : string)
| RecoveryFailed (m : string).

(** ** File names *)

(** [format!("checkpoint_{:010}.cbor", sequence)]: at least ten digits. *)
Definition pad_zeros (k : nat) (d : Decimal.uint) : Decimal.uint := Nat.iter k Decimal.D0 d.
Definition digits10 (n : N) : string :=
  let d := N.to_uint n in NilEmpty.string_of_uint (pad_zeros (10 - Decimal.nb_digits d) d).
Definition PREFIX : bytes := as_bytes "checkpoint_".
Definition SUFFIX : bytes := as_bytes ".cbor".
Definition file_name (sequence : N) : bytes := PREFIX ++ as_bytes (digits10 sequence) ++ SUFFIX.

(** [strip_prefix], [strip_suffix] *)
Fixpoint strip_prefix (p s : bytes) : option bytes :=
  match p, s with
  | [], _ => Some s
  | x :: p, y :: s => if bool_decide (x = y) then strip_prefix p s else None
  | _ :: _, [] => None
  end.
Definition strip_suffix (p s : bytes) : option bytes :=
  reverse <$> strip_prefix (reverse p) (reverse s).

(** [str::parse::<u64>]: an optional plus sign, digits, at most [u64::MAX]. *)
Definition parse_u64 (s : bytes) : option N :=
  let digits := match s with Byte.x2b :: r => r | _ => s end in
  d ← NilEmpty.uint_of_string (of_bytes digits);
  if bool_decide (digits = []) then None
  else if (N.of_uint d <=? u64_max)%N then Some (N.of_uint d) else None.

(** The sequence number in a file name, if it is a checkpoint's. *)
Definition name_sequence (name : bytes) : option N :=
  rest ← strip_prefix PREFIX name; digits ← strip_suffix SUFFIX rest; parse_u64 digits.

Section Recovery.
Variable sha256 : bytes -> Bytes32.
(** [to_canonical_cbor] of a payload and of a checkpoint, [from_canonical_cbor]. *)
Variable payload_cbor : Payload -> result string bytes.
Variable checkpoint_cbor : RuntimeCheckpoint -> result string bytes.
Variable checkpoint_of_cbor : bytes -> result string RuntimeCheckpoint.

(** [compute_checksum] *)
Definition compute_checksum (p : Payload) : result RecoveryError HashWire :=
  b ← map_err RSerializationError (payload_cbor p);
  Ok (wire_of_hash (hash_sha256 sha256 b)).

(** [RuntimeCheckpoint::new] *)
Definition RuntimeCheckpoint_new (now sequence : N) (leases : gmap string LeaseState)
    (transfers : gmap string TransferState) (registry_state : RegistryState)
  : result RecoveryError RuntimeCheckpoint :=
  let p := mkPayload CHECKPOINT_VERSION sequence now leases transfers registry_state in
  checksum ← compute_checksum p; Ok (mkCheckpoint p checksum).

(** [to_canonical_cbor], [from_canonical_cbor], [verify] *)
Definition to_canonical_cbor (c : RuntimeCheckpoint) : result RecoveryError bytes :=
  map_err RSerializationError (checkpoint_cbor c).
Definition from_canonical_cbor (b : bytes) : result RecoveryError RuntimeCheckpoint :=
  c ← map_err RDeserializationError (checkpoint_of_cbor b);
  computed ← compute_checksum (ck_payload c);
  reject negb (bool_decide (computed = ck_checksum c)) with ChecksumMismatch ;;
  Ok c.
Definition verify (c : RuntimeCheckpoint) : bool :=
  match compute_checksum (ck_payload c) with
  | Ok computed => bool_decide (computed = ck_checksum c)
  | Err _ => false
  end.

(** ** Storage and manager *)

(** A directory's files; a database stores nothing. *)
Inductive CheckpointStorage :=
| Memory (checkpoints : list RuntimeCheckpoint)
| File (directory : gmap bytes bytes)
| Database.

Record CheckpointManager := mkManager {
  interval_seconds : N;
  last_sequence : N;
  storage : CheckpointStorage
}.
Definition CheckpointManager_new (interval : N) (s : CheckpointStorage) : CheckpointManager :=
  mkManager interval 0 s.

(** [CheckpointStorage::store] *)
Definition store (s : CheckpointStorage) (c : RuntimeCheckpoint)
  : CheckpointStorage * result RecoveryError unit :=
  match s with
  | Memory l => (Memory (l ++ [c]), Ok tt)
  | File dir =>
      match to_canonical_cbor c with
      | Ok b => (File (<[file_name (ck_sequence (ck_payload c)) := b]> dir), Ok tt)
      | Err e => (s, Err e)
      end
  | Database => (s, Ok tt)
  end.

(** The loop of [load_latest] over the files. *)
Fixpoint latest_file (latest : option RuntimeCheckpoint) (latest_seq : N)
    (files : list (bytes * bytes)) : result RecoveryError (option RuntimeCheckpoint) :=
  match files with
  | [] => Ok latest
  | (name, b) :: files' =>
      match name_sequence name with
      | Some seq =>
          if (latest_seq <? seq)%N
          then c ← from_canonical_cbor b; latest_file (Some c) seq files'
          else latest_file latest latest_seq files'
      | None => latest_file latest latest_seq files'
      end
  end.

(** [CheckpointStorage::load_latest]; [listing] is [read_dir]'s order. *)
Definition load_latest (listing : gmap bytes bytes -> list (bytes * bytes)) (s : CheckpointStorage)
  : result RecoveryError (option RuntimeCheckpoint) :=
  match s with
  | Memory l => Ok (last l)
  | File dir => latest_file None 0 (listing dir)
  | Database => Ok None
  end.

(** [create_checkpoint]: the sequence number advances even when storing fails. *)
Definition create_checkpoint (now : N) (m : CheckpointManager) (leases : gmap string LeaseState)
    (transfers : gmap string TransferState) (registry_state : RegistryState)
  : CheckpointManager * result RecoveryError RuntimeCheckpoint :=
  let seq := add64 (last_sequence m) 1 in
  match RuntimeCheckpoint_new now seq leases transfers registry_state with
  | Err e => (mkManager (interval_seconds m) seq (storage m), Err e)
  | Ok c => let '(s, r) := store (storage m) c in
            (mkManager (interval_seconds m) seq s, _ ← r; Ok c)
  end.

Record RecoveryState := mkRecoveryState { rv_checkpoint : RuntimeCheckpoint; rv_recovered_at : N }.

(** [recover] *)
Definition recover (listing : gmap bytes bytes -> list (bytes * bytes)) (now : N)
    (m : CheckpointManager) : result RecoveryError RecoveryState :=
  latest ← load_latest listing (storage m);
  c ← ok_or NoCheckpointFound latest;
  reject negb (verify c) with CheckpointCorrupted ;;
  Ok (mkRecoveryState c now).

(** Successive calls of [create_checkpoint]: what each is given, and what came back. *)
Definition create_args : Type :=
  (N * gmap string LeaseState * gmap string TransferState * RegistryState)%type.
Fixpoint create_all (m : CheckpointManager) (inputs : list create_args)
  : CheckpointManager * list (result RecoveryError RuntimeCheckpoint) :=
  match inputs with
  | [] => (m, [])
  | (now, leases, transfers, registry_state) :: inputs' =>
      let '(m, r) := create_checkpoint now m leases transfers registry_state in
      let '(m, rs) := create_all m inputs' in (m, r :: rs)
  end.
End Recovery.

(** ** What recovery reads from a checkpoint *)

(** [recover_leases], [is_lease_valid], [recover_pending_transfers], [get_completed_transfers] *)
Definition is_lease_valid (now : N) (l : LeaseState) : bool := (now <? lst_expires_at l)%N.
Definition recover_leases (now : N) (c : RuntimeCheckpoint) : list LeaseState :=
  List.filter (is_lease_valid now) (sorted_values (ck_leases (ck_payload c))).
Definition recover_pending_transfers (c : RuntimeCheckpoint) : list TransferState :=
  List.filter (fun t => bool_decide (ts_status t = "locked"%string \/ ts_status t = "pending"%string))
    (sorted_values (ck_transfers (ck_payload c))).
Definition get_completed_transfers (c : RuntimeCheckpoint) : list TransferState :=
  List.filter (fun t => bool_decide (ts_status t = "completed"%string))
    (sorted_values (ck_transfers (ck_payload c))).

(** ** Lemmas: file names *)

Lemma of_uint_pad k d : N.of_uint (pad_zeros k d) = N.of_uint d.
Proof. induction k as [|k IH]; [done|]. exact IH. Qed.

Lemma strip_prefix_app p s : strip_prefix p (p ++ s) = Some s.
Proof. induction p as [|x p IH]; cbn; [done|]. by rewrite bool_decide_true. Qed.

Lemma strip_suffix_app p s : strip_suffix p (s ++ p) = Some s.
Proof.
  unfold strip_suffix. rewrite reverse_app, strip_prefix_app. cbn. by rewrite reverse_involutive.
Qed.

(** Digits start with a digit. *)
Lemma string_of_uint_plus d r : as_bytes (NilEmpty.string_of_uint d) <> Byte.x2b :: r.
Proof. destruct d; cbn; congruence. Qed.

Lemma parse_digits10 n : (n <= u64_max)%N -> parse_u64 (as_bytes (digits10 n)) = Some n.
Proof.
  intros Hn. unfold digits10. set (d := pad_zeros _ _).
  assert (Hd : N.of_uint d = n) by (unfold d; rewrite of_uint_pad; apply Unsigned.of_to).
  assert (Hne : as_bytes (NilEmpty.string_of_uint d) <> []).
  { assert (Hu : N.to_uint n <> Decimal.Nil).
    { destruct n as [|p]; [done|]. apply DecimalPos.Unsigned.to_uint_nonnil. }
    unfold d. destruct (10 - Decimal.nb_digits (N.to_uint n)); [|done].
    by destruct (N.to_uint n). }
  unfold parse_u64.
  replace (match as_bytes (NilEmpty.string_of_uint d) with Byte.x2b :: r => r | _ => _ end)
    with (as_bytes (NilEmpty.string_of_uint d)).
  2:{ pose proof (string_of_uint_plus d) as Hp.
      destruct (as_bytes (NilEmpty.string_of_uint d)) as [|b l]; [done|].
      destruct b; try done. by destruct (Hp l). }
  rewrite of_bytes_as_bytes, NilEmpty.usu. cbn. rewrite bool_decide_false by done.
  rewrite Hd. by rewrite (proj2 (N.leb_le _ _)).
Qed.

Lemma name_sequence_file_name n : (n <= u64_max)%N -> name_sequence (file_name n) = Some n.
Proof.
  intros Hn. unfold name_sequence, file_name. rewrite strip_prefix_app. cbn [mbind option_bind].
  rewrite strip_suffix_app. cbn [mbind option_bind]. by apply parse_digits10.
Qed.

Lemma file_name_inj n n' :
  (n <= u64_max)%N -> (n' <= u64_max)%N -> file_name n = file_name n' -> n = n'.
Proof.
  intros Hn Hn' E. apply (f_equal name_sequence) in E.
  rewrite !name_sequence_file_name in E by done. by injection E.
Qed.

(** ** Lemmas: directories *)

#[local] Opaque name_sequence file_name.

Section Directories.
Context (sha256 : bytes -> Bytes32) (payload_cbor : Payload -> result string bytes)
  (checkpoint_cbor : RuntimeCheckpoint -> result string bytes)
  (checkpoint_of_cbor : bytes -> result string RuntimeCheckpoint).
(** The CBOR round trip. *)
Context (Hcbor : forall c b, checkpoint_cbor c = Ok b -> checkpoint_of_cbor b = Ok c).
Local Notation verify := (verify sha256 payload_cbor).
Local Notation from_cbor := (from_canonical_cbor sha256 payload_cbor checkpoint_of_cbor).
Local Notation latest_file := (latest_file sha256 payload_cbor checkpoint_of_cbor).
Local Notation load := (load_latest sha256 payload_cbor checkpoint_of_cbor).
Local Notation create := (create_checkpoint sha256 payload_cbor checkpoint_cbor).
Local Notation create_all := (create_all sha256 payload_cbor checkpoint_cbor).
Local Notation recover := (recover sha256 payload_cbor checkpoint_of_cbor).
Local Notation seq_of c := (ck_sequence (ck_payload c)).

Lemma from_cbor_written c b : checkpoint_cbor c = Ok b -> verify c = true -> from_cbor b = Ok c.
Proof.
  intros Hb Hv. unfold from_canonical_cbor. rewrite (Hcbor c b Hb). cbn.
  unfold Checkpoint.verify in Hv. destruct (compute_checksum _ _ _) as [h|]; [|done]. cbn.
  by rewrite Hv.
Qed.

(** The checkpoint files of [dir] are the checkpoints [m], each under its sequence
    number; other files do not matter. *)
Record dir_holds (dir : gmap bytes bytes) (m : gmap N RuntimeCheckpoint) : Prop := {
  dh_file name b seq : dir !! name = Some b -> name_sequence name = Some seq ->
    name = file_name seq /\ exists c, m !! seq = Some c /\ checkpoint_cbor c = Ok b;
  dh_checkpoint seq c : m !! seq = Some c ->
    seq_of c = seq /\ (0 < seq <= u64_max)%N /\ verify c = true /\
    exists b, dir !! file_name seq = Some b /\ checkpoint_cbor c = Ok b
}.

(** Nothing below zero: the loop starts from no file. *)
Definition chosen (m : gmap N RuntimeCheckpoint) (s : N) : option RuntimeCheckpoint :=
  if (s =? 0)%N then None else m !! s.

Lemma latest_file_spec dir m files s :
  dir_holds dir m -> (forall x, x ∈ files -> dir !! x.1 = Some x.2) ->
  exists s', latest_file (chosen m s) s files = Ok (chosen m s') /\ (s <= s')%N /\
    (s' = s \/ is_Some (m !! s')) /\
    forall name b seq, (name, b) ∈ files -> name_sequence name = Some seq -> (seq <= s')%N.
Proof.
  intros Hd. revert s. induction files as [|[name b] files IH]; intros s Hf.
  { exists s. split; [done|]. split; [lia|]. split; [by left|]. by intros ? ? ? ?%elem_of_nil. }
  assert (Hrest : forall x, x ∈ files -> dir !! x.1 = Some x.2) by (intros; apply Hf; by right).
  assert (Hcases : (forall seq, name_sequence name = Some seq -> (seq <= s)%N) \/
            exists seq c, name_sequence name = Some seq /\ (s < seq)%N /\ m !! seq = Some c /\
              from_cbor b = Ok c).
  { destruct (name_sequence name) as [seq|] eqn:E; [|by left].
    destruct (N.le_gt_cases seq s) as [Hle|Hlt]; [left; by intros ? [= <-]|right].
    destruct (dh_file dir m Hd name b seq (Hf (name, b) ltac:(by left)) E) as (_ & c & Hc & Hb).
    destruct (dh_checkpoint dir m Hd seq c Hc) as (_ & _ & Hv & _).
    exists seq, c. split; [done|]. split; [done|]. split; [done|]. by apply from_cbor_written. }
  cbn [Checkpoint.latest_file]. destruct Hcases as [Hle|(seq & c & E & Hlt & Hc & Hb)].
  - destruct (IH s Hrest) as (s' & Hs' & Hss & Hin & Hall). exists s'. split; [|split; [done|]].
    + destruct (name_sequence name) as [seq|]; [|done].
      by rewrite (proj2 (N.ltb_ge s seq) (Hle seq eq_refl)).
    + split; [done|]. intros name' b' seq' [[= -> ->]|Hx]%elem_of_cons Hseq; [|by eapply Hall].
      apply Hle in Hseq. lia.
  - destruct (IH seq Hrest) as (s' & Hs' & Hss & Hin & Hall).
    assert (Hsel : chosen m seq = Some c).
    { unfold chosen. by rewrite (proj2 (N.eqb_neq seq 0) ltac:(lia)). }
    exists s'. rewrite E, (proj2 (N.ltb_lt s seq) Hlt), Hb. cbn. rewrite <- Hsel.
    split; [done|]. split; [lia|]. split; [right; by destruct Hin as [->|]|].
    intros name' b' seq' [Hx|Hx]%elem_of_cons Hseq; [|by eapply Hall].
    assert (seq' = seq) as -> by congruence. done.
Qed.

(** The newest checkpoint of [m], if there is any. *)
Definition newest (m : gmap N RuntimeCheckpoint) (o : option RuntimeCheckpoint) : Prop :=
  match o with
  | None => m = ∅
  | Some c => m !! seq_of c = Some c /\ forall k, is_Some (m !! k) -> (k <= seq_of c)%N
  end.

Lemma load_newest listing dir m o :
  (forall d, listing d ≡ₚ map_to_list d) -> dir_holds dir m -> newest m o ->
  load listing (File dir) = Ok o.
Proof.
  intros Hl Hd Ho. cbn.
  assert (Hin : forall x, x ∈ listing dir <-> dir !! x.1 = Some x.2).
  { intros [name b]. by rewrite (Hl dir), elem_of_map_to_list. }
  destruct (latest_file_spec dir m (listing dir) 0 Hd) as (s & Hs & _ & Hm & Hall).
  { intros x. apply Hin. }
  change (chosen m 0) with (@None RuntimeCheckpoint) in Hs. rewrite Hs. f_equal. unfold chosen.
  destruct o as [c|]; cbn in Ho.
  - destruct Ho as [Hc Hmax]. destruct (dh_checkpoint dir m Hd _ _ Hc) as (_ & Hpos & _ & b & Hb & _).
    assert (Hle : (seq_of c <= s)%N).
    { apply (Hall (file_name (seq_of c)) b); [by apply Hin|]. apply name_sequence_file_name. lia. }
    destruct Hm as [->|Hm]; [lia|]. apply Hmax in Hm. rewrite (proj2 (N.eqb_neq s 0)) by lia.
    by replace s with (seq_of c) by lia.
  - subst m. destruct Hm as [->|[? Hm]]; [done|by rewrite lookup_empty in Hm].
Qed.

(** ** Lemmas: creating *)

Lemma RuntimeCheckpoint_new_ok now seq l t g c :
  RuntimeCheckpoint_new sha256 payload_cbor now seq l t g = Ok c ->
  seq_of c = seq /\ verify c = true.
Proof.
  unfold RuntimeCheckpoint_new. intros (h & Hh & [= <-])%bind_ok. split; [done|].
  unfold Checkpoint.verify. cbn [ck_payload ck_checksum]. rewrite Hh. by apply bool_decide_eq_true.
Qed.

Lemma dir_holds_insert dir m c b :
  dir_holds dir m -> checkpoint_cbor c = Ok b -> verify c = true -> (0 < seq_of c <= u64_max)%N ->
  dir_holds (<[file_name (seq_of c) := b]> dir) (<[seq_of c := c]> m).
Proof.
  intros Hd Hb Hv Hs. split.
  - intros name b' seq Hn Hseq. destruct (decide (name = file_name (seq_of c))) as [->|Hne].
    + rewrite lookup_insert_eq in Hn. injection Hn as <-.
      rewrite name_sequence_file_name in Hseq by lia. injection Hseq as <-.
      split; [done|]. exists c. by rewrite lookup_insert_eq.
    + rewrite lookup_insert_ne in Hn by done.
      destruct (dh_file dir m Hd name b' seq Hn Hseq) as (-> & c' & Hc' & Hb').
      split; [done|]. exists c'. rewrite lookup_insert_ne; [done|]. intros E. by rewrite E in Hne.
  - intros seq c' Hc'. destruct (decide (seq_of c = seq)) as [<-|Hne].
    + rewrite lookup_insert_eq in Hc'. injection Hc' as <-. split; [done|]. split; [done|].
      split; [done|]. exists b. by rewrite lookup_insert_eq.
    + rewrite lookup_insert_ne in Hc' by done.
      destruct (dh_checkpoint dir m Hd seq c' Hc') as (? & Hpos & ? & b' & Hf & ?).
      split; [done|]. split; [done|]. split; [done|]. exists b'. rewrite lookup_insert_ne; [done|].
      intros E%file_name_inj; lia.
Qed.

(** One call on a directory. *)
Lemma create_file i s dir m now l t g :
  dir_holds dir m -> (s + 1 <= u64_max)%N ->
  exists dir' r, create now (mkManager i s (File dir)) l t g = (mkManager i (s + 1) (File dir'), r) /\
    match r with
    | Ok c => seq_of c = (s + 1)%N /\ dir_holds dir' (<[seq_of c := c]> m)
    | Err _ => dir' = dir
    end.
Proof.
  intros Hd Hs. unfold create_checkpoint. cbn [last_sequence storage interval_seconds].
  rewrite add64_small by done.
  destruct (RuntimeCheckpoint_new _ _ _ _ _ _ _) as [c|e] eqn:E; [|by exists dir, (Err e)].
  apply RuntimeCheckpoint_new_ok in E as [Hseq Hv]. cbn [store]. unfold to_canonical_cbor.
  destruct (checkpoint_cbor c) as [b|e] eqn:Eb; cbn [map_err]; [|by eexists _, _].
  eexists _, _. split; [done|]. cbn. split; [done|].
  apply dir_holds_insert; [done|done|done|lia].
Qed.

(** The checkpoints that came back from a run. *)
Definition created (rs : list (result RecoveryError RuntimeCheckpoint)) : list RuntimeCheckpoint :=
  omap (fun r => match r with Ok c => Some c | Err _ => None end) rs.

(** The newest of a checkpoint that was there and those created since. *)
Definition newer (prior : option RuntimeCheckpoint) (new : list RuntimeCheckpoint)
  : option RuntimeCheckpoint :=
  match last new, prior with
  | Some x, Some c => if (seq_of c <=? seq_of x)%N then Some x else Some c
  | Some x, None => Some x
  | None, _ => prior
  end.

Lemma newest_insert m o c :
  newest m o -> newest (<[seq_of c := c]> m) (newer o [c]).
Proof.
  unfold newer. cbn. destruct o as [p|]; cbn.
  - intros [Hp Hmax]. destruct (N.leb_spec (seq_of p) (seq_of c)) as [Hle|Hgt]; cbn.
    + rewrite lookup_insert_eq. split; [done|]. intros k Hk.
      destruct (decide (seq_of c = k)) as [->|Hne]; [lia|].
      rewrite lookup_insert_ne in Hk by done. apply Hmax in Hk. lia.
    + rewrite lookup_insert_ne by lia. split; [done|]. intros k Hk.
      destruct (decide (seq_of c = k)) as [<-|Hne]; [lia|].
      rewrite lookup_insert_ne in Hk by done. by apply Hmax.
  - intros ->. rewrite lookup_insert_eq. split; [done|]. intros k Hk.
    destruct (decide (seq_of c = k)) as [->|Hne]; [lia|].
    rewrite lookup_insert_ne, lookup_empty in Hk by done. by destruct Hk.
Qed.

Lemma newer_cons prior c new :
  (forall x, x ∈ new -> (seq_of c < seq_of x)%N) -> newer (newer prior [c]) new = newer prior (c :: new).
Proof.
  intros Hlt. unfold newer. cbn [last]. destruct new as [|y new].
  { cbn. destruct prior; [|done]. by destruct (_ <=? _)%N. }
  destruct (last (y :: new)) as [x|] eqn:E; [|by apply last_None in E].
  assert (Hx : (seq_of c < seq_of x)%N).
  { apply Hlt. apply last_Some in E as [l' E]. rewrite E. set_solver. }
  assert (El : last (c :: y :: new) = Some x) by exact E. rewrite El.
  destruct prior as [p|].
  - destruct (N.leb_spec (seq_of p) (seq_of c)); [|done].
    by rewrite !(proj2 (N.leb_le _ _)) by lia.
  - by rewrite (proj2 (N.leb_le _ _)) by lia.
Qed.

(** A run on a directory. *)
Lemma create_all_file i s dir m o inputs :
  dir_holds dir m -> newest m o -> (s + N.of_nat (length inputs) <= u64_max)%N ->
  exists dir' m' rs,
    create_all (mkManager i s (File dir)) inputs
    = (mkManager i (s + N.of_nat (length inputs)) (File dir'), rs) /\
    dir_holds dir' m' /\ newest m' (newer o (created rs)) /\
    forall x, x ∈ created rs -> (s < seq_of x)%N.
Proof.
  revert s dir m o. induction inputs as [|[[[now l] t] g] inputs IH]; intros s dir m o Hd Ho Hs.
  - exists dir, m, []. cbn. rewrite N.add_0_r. split; [done|]. split; [done|]. split; [done|].
    by intros ? ?%elem_of_nil.
  - cbn [length] in Hs. rewrite Nat2N.inj_succ in Hs.
    destruct (create_file i s dir m now l t g Hd ltac:(lia)) as (dir1 & r & E & Hr).
    cbn [Checkpoint.create_all]. rewrite E. destruct r as [c|e].
    + destruct Hr as [Hseq Hd1].
      destruct (IH (s + 1)%N dir1 _ _ Hd1 (newest_insert m o c Ho) ltac:(lia))
        as (dir' & m' & rs & Er & Hd' & Ho' & Hgt).
      rewrite Er. exists dir', m', (Ok c :: rs). split; [do 2 f_equal; cbn; lia|].
      split; [done|]. cbn. split.
      * rewrite <- newer_cons; [done|]. intros x Hx%Hgt. lia.
      * intros x [->|Hx%Hgt]%elem_of_cons; lia.
    + subst dir1. destruct (IH (s + 1)%N dir m o Hd Ho ltac:(lia)) as (dir' & m' & rs & Er & Hd' & Ho' & Hgt).
      rewrite Er. exists dir', m', (Err e :: rs). split; [do 2 f_equal; cbn; lia|].
      split; [done|]. split; [done|]. intros x Hx%Hgt. lia.
Qed.
End Directories.

(** ** Theorems *)

(** What recovery from a directory finds.  After any run of checkpoints, some of which
    may fail to encode, on a directory that held checkpoints before, recovery succeeds
    in whatever order the directory is listed, and gives the last checkpoint created,
    unless one from before the run has a larger number: then it gives that one.  A
    manager that goes on from its directory's last number recovers what it last wrote;
    one made by [new], which starts from zero, recovers the state of before the restart
    until it has written as many checkpoints as there were. *)
Theorem file_recovery_exact (sha256 : bytes -> Bytes32) (payload_cbor : Payload -> result string bytes)
    (checkpoint_cbor : RuntimeCheckpoint -> result string bytes)
    (checkpoint_of_cbor : bytes -> result string RuntimeCheckpoint) (i s now : N) (dir : gmap bytes bytes) (m : gmap N RuntimeCheckpoint)
    (prior : option RuntimeCheckpoint) (inputs : list create_args)
    (listing : gmap bytes bytes -> list (bytes * bytes))
    (Hcbor : forall c b, checkpoint_cbor c = Ok b -> checkpoint_of_cbor b = Ok c)
    (Hlisting : forall d, listing d ≡ₚ map_to_list d)
    (Hdir : dir_holds sha256 payload_cbor checkpoint_cbor dir m) (Hprior : newest m prior)
    (Hs : (s + N.of_nat (length inputs) <= u64_max)%N) :
  let '(m', results) := create_all sha256 payload_cbor checkpoint_cbor
                          (mkManager i s (File dir)) inputs in
  recover sha256 payload_cbor checkpoint_of_cbor listing now m'
  = match newer prior (created results) with
    | Some c => Ok (mkRecoveryState c now)
    | None => Err NoCheckpointFound
    end.
Proof.
  destruct (create_all_file sha256 payload_cbor checkpoint_cbor checkpoint_of_cbor Hcbor i s dir m prior inputs Hdir Hprior Hs)
    as (dir' & m' & rs & E & Hd' & Hn & _).
  rewrite E. unfold recover. cbn [storage].
  rewrite (load_newest sha256 payload_cbor checkpoint_cbor checkpoint_of_cbor Hcbor listing dir' m' _
             Hlisting Hd' Hn).
  cbn [mbind result_bind]. destruct (newer prior (created rs)) as [c|]; [|done]. cbn.
  destruct Hn as [Hc _]. destruct (dh_checkpoint _ _ _ _ _ Hd' _ _ Hc) as (_ & _ & Hv & _).
  by rewrite Hv.
Qed.

(** A checkpoint read back is one whose checksum matches its contents: decoding accepts
    exactly the checkpoints that verify, every checkpoint the constructor makes
    verifies, and two accepted checkpoints with one checksum have the same contents in
    CBOR, unless those two CBOR strings collide. *)
Theorem checkpoint_integrity (sha256 : bytes -> Bytes32)
    (payload_cbor : Payload -> result string bytes)
    (checkpoint_of_cbor : bytes -> result string RuntimeCheckpoint) (b : bytes)
    (c c' : RuntimeCheckpoint) :
  (from_canonical_cbor sha256 payload_cbor checkpoint_of_cbor b = Ok c <->
   checkpoint_of_cbor b = Ok c /\ verify sha256 payload_cbor c = true) /\
  (forall now seq l t g, RuntimeCheckpoint_new sha256 payload_cbor now seq l t g = Ok c ->
     verify sha256 payload_cbor c = true) /\
  (verify sha256 payload_cbor c = true -> verify sha256 payload_cbor c' = true ->
   ck_checksum c = ck_checksum c' ->
   payload_cbor (ck_payload c) = payload_cbor (ck_payload c') \/
   collision_in sha256 (ok_list (payload_cbor (ck_payload c)) ++ ok_list (payload_cbor (ck_payload c')))).
Proof.
  split; [|split].
  - unfold from_canonical_cbor, verify. destruct (checkpoint_of_cbor b) as [c1|]; cbn; [|by split; [|intros []]].
    destruct (compute_checksum sha256 payload_cbor (ck_payload c1)) as [h|] eqn:Eh; cbn.
    + destruct (bool_decide (h = ck_checksum c1)) eqn:E; cbn; split.
      * intros [= <-]. by rewrite Eh, E.
      * by intros [[= <-] _].
      * done.
      * intros [[= <-] Hv]. rewrite Eh in Hv. congruence.
    + split; [done|]. intros [[= <-] Hv]. by rewrite Eh in Hv.
  - intros now seq l t g H. by apply RuntimeCheckpoint_new_ok in H as [_ ?].
  - unfold verify, compute_checksum.
    destruct (payload_cbor (ck_payload c)) as [p|], (payload_cbor (ck_payload c')) as [p'|]; cbn; try done.
    intros H1 H2 H. apply bool_decide_eq_true_1 in H1, H2. rewrite <- H1, <- H2 in H.
    apply wire_of_hash_inj in H. unfold hash_sha256 in H. cbn [ok_list app]. hash_inj H. left. by subst.
Qed.

(** ** Witness *)

(** A stand-in for CBOR: a table of the checkpoints it can encode. *)
Definition demo_payload (seq now : N) : Payload :=
  mkPayload CHECKPOINT_VERSION seq now ∅ ∅ (mkRegistryState 0 ∅).
Definition demo_payload_cbor (p : Payload) : result string bytes :=
  Ok (u64_le (ck_sequence p) ++ u64_le (ck_timestamp p)).
Definition demo_checkpoint (seq now : N) : RuntimeCheckpoint :=
  mkCheckpoint (demo_payload seq now) (wire_of_hash (toy_hash (u64_le seq ++ u64_le now))).

Global Instance LeaseState_eq_dec : EqDecision LeaseState.
Proof. solve_decision. Defined.
Global Instance TransferState_eq_dec : EqDecision TransferState.
Proof. solve_decision. Defined.
Global Instance RegistryEntry_eq_dec : EqDecision RegistryEntry.
Proof. solve_decision. Defined.
Global Instance RegistryState_eq_dec : EqDecision RegistryState.
Proof. solve_decision. Defined.
Global Instance Payload_eq_dec : EqDecision Payload.
Proof. solve_decision. Defined.
Global Instance RuntimeCheckpoint_eq_dec : EqDecision RuntimeCheckpoint.
Proof. solve_decision. Defined.

Definition demo_table : list (bytes * RuntimeCheckpoint) :=
  [([Byte.x01], demo_checkpoint 1 10); ([Byte.x02], demo_checkpoint 2 20);
   ([Byte.x03], demo_checkpoint 1 30)].
Definition demo_cbor (c : RuntimeCheckpoint) : result string bytes :=
  match find (fun x => bool_decide (x.2 = c)) demo_table with
  | Some x => Ok x.1
  | None => Err "not in the table"%string
  end.
Definition demo_of_cbor (b : bytes) : result string RuntimeCheckpoint :=
  match find (fun x => bool_decide (x.1 = b)) demo_table with
  | Some x => Ok x.2
  | None => Err "not in the table"%string
  end.

Lemma demo_cbor_law c b : demo_cbor c = Ok b -> demo_of_cbor b = Ok c.
Proof.
  unfold demo_cbor. destruct (find _ demo_table) as [x|] eqn:E; [|done]. intros [= <-].
  apply find_some in E as [Hin E]. apply bool_decide_eq_true_1 in E. subst c. clear -Hin.
  cbn [demo_table In] in Hin. destruct Hin as [<-|[<-|[<-|[]]]]; reflexivity.
Qed.

(** The directory of a run that wrote two checkpoints, and the two. *)
Definition demo_directory : gmap bytes bytes :=
  {[file_name 1 := [Byte.x01]; file_name 2 := [Byte.x02]]}.
Definition demo_stored : gmap N RuntimeCheckpoint :=
  <[1%N := demo_checkpoint 1 10]> {[2%N := demo_checkpoint 2 20]}.

Lemma demo_newest : newest demo_stored (Some (demo_checkpoint 2 20)).
Proof.
  split; [reflexivity|]. intros k. unfold demo_stored.
  destruct (decide (1%N = k)) as [<-|H1]; [done|]. rewrite lookup_insert_ne by done.
  destruct (decide (2%N = k)) as [<-|H2]; [done|]. rewrite lookup_singleton_ne by done. by intros [].
Qed.

Lemma demo_dir_holds : dir_holds toy_hash demo_payload_cbor demo_cbor demo_directory demo_stored.
Proof.
  assert (H0 : dir_holds toy_hash demo_payload_cbor demo_cbor ∅ ∅).
  { split; intros *; rewrite lookup_empty; done. }
  pose proof (dir_holds_insert toy_hash demo_payload_cbor demo_cbor ∅ ∅ (demo_checkpoint 2 20)
                [Byte.x02] H0 eq_refl ltac:(by vm_compute) ltac:(done)) as H2.
  exact (dir_holds_insert toy_hash demo_payload_cbor demo_cbor _ _ (demo_checkpoint 1 10)
           [Byte.x01] H2 eq_refl ltac:(by vm_compute) ltac:(done)).
Qed.

(** After a restart the first checkpoint overwrites the file of the first one before it,
    and recovery gives the second one before it. *)
Lemma file_recovery_exact_witness :
  dir_holds toy_hash demo_payload_cbor demo_cbor demo_directory demo_stored /\
  let '(m, results) := create_all toy_hash demo_payload_cbor demo_cbor
                         (CheckpointManager_new 60 (File demo_directory))
                         [(30%N, ∅, ∅, mkRegistryState 0 ∅)] in
  results = [Ok (demo_checkpoint 1 30)] /\
  recover toy_hash demo_payload_cbor demo_of_cbor map_to_list 99 m
  = Ok (mkRecoveryState (demo_checkpoint 2 20) 99).
Proof.
  split; [exact demo_dir_holds|].
  pose proof (file_recovery_exact toy_hash demo_payload_cbor demo_cbor demo_of_cbor 60 0 99
                demo_directory demo_stored (Some (demo_checkpoint 2 20))
                [(30%N, ∅, ∅, mkRegistryState 0 ∅)] map_to_list demo_cbor_law
                ltac:(intros d; done) demo_dir_holds demo_newest ltac:(by vm_compute)) as H.
  change (mkManager 60 0 (File demo_directory))
    with (CheckpointManager_new 60 (File demo_directory)) in H.
  assert (Hr : (create_all toy_hash demo_payload_cbor demo_cbor
                  (CheckpointManager_new 60 (File demo_directory))
                  [(30%N, ∅, ∅, mkRegistryState 0 ∅)]).2 = [Ok (demo_checkpoint 1 30)])
    by reflexivity.
  destruct (create_all _ _ _ _ _) as [m results]. cbn in Hr. subst results.
  split; [done|]. rewrite H. reflexivity.
Defined.
