(* ===== verification/Reference.v ===== *)
(** * References and closure proofs (csv-protocol/src/reference.rs, closure.rs)

    A consumed-state reference (spends an output) and an evidence reference
    (cites a commitment) have disjoint encodings and digests.  A closure proof
    says which successor a consumed state was closed to; a finalized checkpoint
    and a verification result say on what ground. *)

From S2P Require Import Prelude Ord Bytes Hashing Dag DagCodec Text Seal.

Definition CONSUMED_STATE_REF_TAG : string := "consumed-state-ref-v2".
Definition EVIDENCE_REF_TAG : string := "evidence-ref-v2".
Definition CONSUMED_STATE_REF_DISCRIMINANT : byte := Byte.x01.
Definition EVIDENCE_REF_DISCRIMINANT : byte := Byte.x02.

Inductive ProofRequirement := PRNone | PRInclusion | PRFinalizedInclusion | PRPreimage.
Global Instance ProofRequirement_eq_dec : EqDecision ProofRequirement.
Proof. solve_decision. Defined.

Definition requirement_discriminant (r : ProofRequirement) : byte :=
  match r with
  | PRNone => Byte.x00 | PRInclusion => Byte.x01 | PRFinalizedInclusion => Byte.x02
  | PRPreimage => Byte.x03
  end.

Definition requirement_from_discriminant (b : byte) : option ProofRequirement :=
  if bool_decide (b = Byte.x00) then Some PRNone
  else if bool_decide (b = Byte.x01) then Some PRInclusion
  else if bool_decide (b = Byte.x02) then Some PRFinalizedInclusion
  else if bool_decide (b = Byte.x03) then Some PRPreimage
  else None.

(** [StateTypeId] is a u16. *)
Record ConsumedStateRef := mkConsumed {
  transition_id : Hash;
  output_index : N;
  state_type : N
}.

Record EvidenceRef := mkEvidence {
  ev_commitment : Hash;
  proof_requirement : ProofRequirement
}.

Global Instance ConsumedStateRef_eq_dec : EqDecision ConsumedStateRef.
Proof. solve_decision. Defined.

Inductive ReferenceDecodeError :=
| WrongDiscriminant (expected found : byte)
| WrongLength (expected found : nat)
| UnknownProofRequirement (b : byte).

(** ** Canonical bytes *)

Definition consumed_to_canonical_bytes (r : ConsumedStateRef) : bytes :=
  [CONSUMED_STATE_REF_DISCRIMINANT] ++ b32 (transition_id r) ++ u32_le (output_index r) ++
  le_bytes 2 (state_type r).

Definition evidence_to_canonical_bytes (r : EvidenceRef) : bytes :=
  [EVIDENCE_REF_DISCRIMINANT] ++ b32 (ev_commitment r) ++
  [requirement_discriminant (proof_requirement r)].

(** [&bytes\[a..b\]], within bounds checked before. *)
Definition slice (a n : nat) (b : bytes) : bytes := take n (drop a b).

Definition fixed32 (b : bytes) : Hash := default zero32 (to_b32 b).

Definition consumed_from_canonical_bytes (b : bytes)
  : result ReferenceDecodeError ConsumedStateRef :=
  reject (negb (Nat.eqb (length b) 39)) with WrongLength 39 (length b) ;;
  reject (negb (bool_decide (nth 0 b Byte.x00 = CONSUMED_STATE_REF_DISCRIMINANT)))
    with WrongDiscriminant CONSUMED_STATE_REF_DISCRIMINANT (nth 0 b Byte.x00) ;;
  Ok (mkConsumed (fixed32 (slice 1 32 b)) (of_le_bytes (slice 33 4 b))
                 (of_le_bytes (slice 37 2 b))).

Definition evidence_from_canonical_bytes (b : bytes)
  : result ReferenceDecodeError EvidenceRef :=
  reject (negb (Nat.eqb (length b) 34)) with WrongLength 34 (length b) ;;
  reject (negb (bool_decide (nth 0 b Byte.x00 = EVIDENCE_REF_DISCRIMINANT)))
    with WrongDiscriminant EVIDENCE_REF_DISCRIMINANT (nth 0 b Byte.x00) ;;
  r ← ok_or (UnknownProofRequirement (nth 33 b Byte.x00))
            (requirement_from_discriminant (nth 33 b Byte.x00));
  Ok (mkEvidence (fixed32 (slice 1 32 b)) r).

(** ** Closure proofs *)

Definition CLOSURE_PROOF_TAG : string := "closure-proof-v2".
Definition FINALIZED_CHECKPOINT_TAG : string := "finalized-checkpoint-v2".
Definition MAX_CLOSURE_PROOF_BYTES : N := 4194304.

Inductive ClosureProofKind := BitcoinTransactionInclusion | ChainSpecific (name : string).

Record ClosureProof := mkClosureProof {
  consumed_state : ConsumedStateRef;
  successor_commitment : Hash;
  proof_kind : ClosureProofKind;
  proof_material : bytes
}.

Inductive FinalityPolicy := Confirmations (depth : N) | Deterministic (name : string).

Record FinalizedCheckpoint := mkCheckpoint {
  cp_chain_id : string;
  cp_network_id : string;
  cp_block_height : N;
  cp_block_id : bytes;
  finality_policy : FinalityPolicy
}.

Inductive ClosureTrustMode := CTFullNode | CTLightClient | CTRpcQuorum | CTAttestedRegistry.
Inductive ClosureDimensionStatus := CSatisfied | CFailed | CIndeterminate.
Global Instance ClosureDimensionStatus_eq_dec : EqDecision ClosureDimensionStatus.
Proof. solve_decision. Defined.

Record ClosureVerificationResult := mkClosureResult {
  cr_chain_id : string;
  cr_network_id : string;
  cr_proof_kind : ClosureProofKind;
  checkpoint : FinalizedCheckpoint;
  proof_validity : ClosureDimensionStatus;
  checkpoint_finality : ClosureDimensionStatus;
  checkpoint_freshness : ClosureDimensionStatus;
  source_closure : ClosureDimensionStatus;
  cr_trust_mode : ClosureTrustMode;
  verifier_id : string;
  proof_provider_id : string;
  cr_reason_codes : list string
}.

Inductive ClosureInterfaceError :=
| ZeroSuccessorCommitment | EmptyProofMaterial | ProofMaterialTooLarge | EmptyProofKind
| EmptyChain | EmptyNetwork | EmptyBlockIdentity | ZeroConfirmationPolicy
| EmptyFinalityPolicy | CheckpointChainMismatch | CheckpointNetworkMismatch
| EmptyVerifier | EmptyProofProvider | MissingReasonCode.

Definition str_empty (s : string) : bool := bool_decide (s = ""%string).

(** [ClosureProof::validate] *)
Definition closure_validate (p : ClosureProof) : result ClosureInterfaceError unit :=
  reject (bool_decide (successor_commitment p = Hash.zero)) with ZeroSuccessorCommitment ;;
  reject (blen (proof_material p) =? 0)%N with EmptyProofMaterial ;;
  reject (MAX_CLOSURE_PROOF_BYTES <? blen (proof_material p))%N with ProofMaterialTooLarge ;;
  reject match proof_kind p with ChainSpecific n => str_empty n | _ => false end
    with EmptyProofKind ;;
  Ok tt.

(** [ClosureProof::canonical_bytes] *)
Definition closure_bytes (p : ClosureProof) : bytes :=
  sized (consumed_to_canonical_bytes (consumed_state p)) ++ b32 (successor_commitment p) ++
  match proof_kind p with
  | BitcoinTransactionInclusion => [Byte.x01]
  | ChainSpecific n => Byte.x02 :: sized (as_bytes n)
  end ++ sized (proof_material p).

(** [FinalizedCheckpoint::validate] *)
Definition checkpoint_validate (c : FinalizedCheckpoint) : result ClosureInterfaceError unit :=
  reject (str_empty (cp_chain_id c)) with EmptyChain ;;
  reject (str_empty (cp_network_id c)) with EmptyNetwork ;;
  reject (blen (cp_block_id c) =? 0)%N with EmptyBlockIdentity ;;
  match finality_policy c with
  | Confirmations 0 => Err ZeroConfirmationPolicy
  | Deterministic n => if str_empty n then Err EmptyFinalityPolicy else Ok tt
  | _ => Ok tt
  end.

(** [FinalizedCheckpoint::canonical_bytes] *)
Definition checkpoint_bytes (c : FinalizedCheckpoint) : bytes :=
  sized (as_bytes (cp_chain_id c)) ++ sized (as_bytes (cp_network_id c)) ++
  u64_le (cp_block_height c) ++ sized (cp_block_id c) ++
  match finality_policy c with
  | Confirmations d => Byte.x01 :: u32_le d
  | Deterministic n => Byte.x02 :: sized (as_bytes n)
  end.

(** [ClosureVerificationResult::validate] *)
Definition closure_result_validate (r : ClosureVerificationResult)
  : result ClosureInterfaceError unit :=
  _ ← checkpoint_validate (checkpoint r);
  reject (negb (bool_decide (cr_chain_id r = cp_chain_id (checkpoint r))))
    with CheckpointChainMismatch ;;
  reject (negb (bool_decide (cr_network_id r = cp_network_id (checkpoint r))))
    with CheckpointNetworkMismatch ;;
  reject (str_empty (verifier_id r)) with EmptyVerifier ;;
  reject (str_empty (proof_provider_id r)) with EmptyProofProvider ;;
  reject (Nat.eqb (length (cr_reason_codes r)) 0) with MissingReasonCode ;;
  Ok tt.

Section Digests.
Variable sha256 : bytes -> Bytes32.
Local Notation csv_hash tag := (csv_tagged_hash sha256 (as_bytes tag)).

(** [Consumable::digest], [Citable::digest] *)
Definition consumed_digest (r : ConsumedStateRef) : Hash :=
  csv_hash CONSUMED_STATE_REF_TAG (consumed_to_canonical_bytes r).
Definition evidence_digest (r : EvidenceRef) : Hash :=
  csv_hash EVIDENCE_REF_TAG (evidence_to_canonical_bytes r).

(** [ClosureProof::commitment], [FinalizedCheckpoint::commitment] *)
Definition closure_commitment (p : ClosureProof) : Hash :=
  csv_hash CLOSURE_PROOF_TAG (closure_bytes p).
Definition closure_preimage (p : ClosureProof) : bytes :=
  csv_preimage sha256 (as_bytes CLOSURE_PROOF_TAG) (closure_bytes p).
Definition checkpoint_commitment (c : FinalizedCheckpoint) : Hash :=
  csv_hash FINALIZED_CHECKPOINT_TAG (checkpoint_bytes c).
End Digests.

(** ** Lemmas *)

Lemma slice_app {A} (a b : list A) n : take n (drop (length a) (a ++ b)) = take n b.
Proof. by rewrite drop_app_length. Qed.

Lemma fixed32_b32 h : fixed32 (b32 h) = h.
Proof. unfold fixed32. by rewrite to_b32_b32. Qed.

Lemma b32_fixed32 b : length b = 32 -> b32 (fixed32 b) = b.
Proof.
  intros H. unfold fixed32. destruct (to_b32 b) as [h|] eqn:E; simpl.
  - by apply to_b32_Some.
  - by apply to_b32_None in E.
Qed.

Lemma slice_length a n b : a + n <= length b -> length (slice a n b) = n.
Proof. intros H. unfold slice. rewrite length_take, length_drop. lia. Qed.

Lemma slice_all a n b : a + n = length b -> slice a n b = drop a b.
Proof. intros H. unfold slice. apply take_ge. rewrite length_drop. lia. Qed.

Lemma slice_split a n b : slice a n b ++ drop (a + n) b = drop a b.
Proof. unfold slice. rewrite <- drop_drop. apply take_drop. Qed.

Lemma le_bytes_of_slice n b : length b = n -> le_bytes n (of_le_bytes b) = b.
Proof. intros <-. apply le_bytes_of_le_bytes. Qed.

Definition consumed_ok (r : ConsumedStateRef) : Prop :=
  (output_index r <= u32_max)%N /\ (state_type r <= 65535)%N.

Lemma consumed_from_to r :
  consumed_ok r -> consumed_from_canonical_bytes (consumed_to_canonical_bytes r) = Ok r.
Proof.
  intros [Ho Ht]. unfold consumed_from_canonical_bytes, consumed_to_canonical_bytes, slice.
  assert (Hl : length ([CONSUMED_STATE_REF_DISCRIMINANT] ++ b32 (transition_id r) ++
     u32_le (output_index r) ++ le_bytes 2 (state_type r)) = 39).
  { rewrite !length_app, b32_length, length_u32_le, length_le_bytes. done. }
  rewrite Hl. cbn [Nat.eqb negb guard_err]. rewrite bool_decide_eq_true_2 by done.
  cbn [negb guard_err]. f_equal. destruct r as [h o t]; cbn [transition_id output_index state_type] in *.
  f_equal.
  - cbn [app]. rewrite skipn_cons, drop_0, take_app_length' by (by rewrite b32_length).
    apply fixed32_b32.
  - rewrite app_assoc.
    rewrite drop_app_length' by (rewrite length_app, b32_length; done).
    rewrite take_app_length' by (by rewrite length_u32_le). by apply of_u32_le.
  - rewrite !app_assoc.
    rewrite drop_app_length' by (rewrite !length_app, b32_length, length_u32_le; done).
    rewrite take_ge by (rewrite length_le_bytes; lia).
    rewrite of_le_bytes_le_bytes. apply N.mod_small. simpl. lia.
Qed.

Lemma consumed_to_from b r :
  consumed_from_canonical_bytes b = Ok r -> consumed_ok r /\ consumed_to_canonical_bytes r = b.
Proof.
  unfold consumed_from_canonical_bytes.
  rewrite !guard_err_ok, !negb_false_iff, bool_decide_eq_true.
  intros (Hl%Nat.eqb_eq & Hd & [= <-]). split.
  - split; cbn [output_index state_type].
    + pose proof (of_le_bytes_bound (slice 33 4 b)) as H. unfold blen in H.
      rewrite slice_length in H by lia. unfold u32_max. simpl in H. lia.
    + pose proof (of_le_bytes_bound (slice 37 2 b)) as H. unfold blen in H.
      rewrite slice_length in H by lia. simpl in H. lia.
  - unfold consumed_to_canonical_bytes, u32_le. cbn [transition_id output_index state_type].
    rewrite b32_fixed32 by (apply slice_length; lia).
    rewrite !le_bytes_of_slice by (apply slice_length; lia).
    rewrite (slice_all 37) by lia.
    change 37 with (33 + 4) at 1. rewrite slice_split.
    change 33 with (1 + 32) at 1. rewrite slice_split.
    destruct b as [|c b]; [done|]. simpl in Hd. by subst c.
Qed.

Lemma requirement_discriminant_inv d :
  requirement_from_discriminant d = None \/
  exists r, requirement_from_discriminant d = Some r /\ requirement_discriminant r = d.
Proof.
  unfold requirement_from_discriminant.
  repeat (case_bool_decide; [right; eexists; split; [done|by subst d]|]). by left.
Qed.

Lemma requirement_from_to r :
  requirement_from_discriminant (requirement_discriminant r) = Some r.
Proof. by destruct r. Qed.

Lemma evidence_from_to r : evidence_from_canonical_bytes (evidence_to_canonical_bytes r) = Ok r.
Proof.
  unfold evidence_from_canonical_bytes, evidence_to_canonical_bytes, slice.
  assert (Hl : length ([EVIDENCE_REF_DISCRIMINANT] ++ b32 (ev_commitment r) ++
     [requirement_discriminant (proof_requirement r)]) = 34).
  { rewrite !length_app, b32_length. done. }
  rewrite Hl. cbn [Nat.eqb negb guard_err]. rewrite bool_decide_eq_true_2 by done.
  cbn [negb guard_err].
  assert (Hn : nth 33 ([EVIDENCE_REF_DISCRIMINANT] ++ b32 (ev_commitment r) ++
     [requirement_discriminant (proof_requirement r)]) Byte.x00
     = requirement_discriminant (proof_requirement r)).
  { rewrite app_assoc, app_nth2; rewrite length_app, b32_length; [done|simpl; lia]. }
  rewrite Hn, requirement_from_to. cbn [ok_or mbind result_bind]. f_equal.
  cbn [app]. rewrite skipn_cons, drop_0, take_app_length' by (by rewrite b32_length).
  rewrite fixed32_b32. by destruct r.
Qed.

Lemma evidence_to_from b r :
  evidence_from_canonical_bytes b = Ok r -> evidence_to_canonical_bytes r = b.
Proof.
  unfold evidence_from_canonical_bytes.
  rewrite !guard_err_ok, !negb_false_iff, bool_decide_eq_true.
  intros (Hl%Nat.eqb_eq & Hd & H). apply bind_ok in H as (q & Hq & [= <-]).
  unfold evidence_to_canonical_bytes. cbn [ev_commitment proof_requirement].
  rewrite b32_fixed32 by (apply slice_length; lia).
  destruct (requirement_discriminant_inv (nth 33 b Byte.x00)) as [E|(q' & E & Hq')];
    rewrite E in Hq; [done|]. injection Hq as <-. rewrite Hq'.
  assert (H33 : drop 33 b = [nth 33 b Byte.x00]).
  { destruct (drop 33 b) as [|x [|y l]] eqn:Ed;
      pose proof (length_drop b 33) as Hdl; rewrite Ed, Hl in Hdl; simpl in Hdl; try lia.
    rewrite <- (take_drop 33 b), Ed, app_nth2; rewrite length_take, Hl; [done|lia]. }
  rewrite <- H33. change 33 with (1 + 32) at 1. rewrite slice_split.
  destruct b as [|c b]; [done|]. simpl in Hd. by subst c.
Qed.

(** A closure proof that validates, with a kind name its prefix can carry. *)
Definition kind_fits (k : ClosureProofKind) : Prop :=
  match k with BitcoinTransactionInclusion => True | ChainSpecific n => text_fits n end.

Lemma closure_validate_ok p :
  closure_validate p = Ok tt <->
  successor_commitment p <> Hash.zero /\ proof_material p <> [] /\
  (blen (proof_material p) <= MAX_CLOSURE_PROOF_BYTES)%N /\ proof_kind p <> ChainSpecific "".
Proof.
  unfold closure_validate, str_empty.
  rewrite !guard_err_ok, bool_decide_eq_false, N.eqb_neq, N.ltb_ge.
  assert (Hb : blen (proof_material p) <> 0%N <-> proof_material p <> []).
  { unfold blen. destruct (proof_material p); simpl; [|split; [done|lia]].
    split; [by intros H|done]. }
  assert (Hk : match proof_kind p with ChainSpecific n => bool_decide (n = ""%string)
               | _ => false end = false <-> proof_kind p <> ChainSpecific "").
  { destruct (proof_kind p) as [|n]; [done|]. rewrite bool_decide_eq_false. naive_solver. }
  rewrite Hk, Hb. naive_solver.
Qed.

Lemma consumed_bytes_length r : length (consumed_to_canonical_bytes r) = 39.
Proof.
  unfold consumed_to_canonical_bytes.
  by rewrite !length_app, b32_length, length_u32_le, length_le_bytes.
Qed.

Lemma consumed_bytes_inj r s :
  consumed_ok r -> consumed_ok s ->
  consumed_to_canonical_bytes r = consumed_to_canonical_bytes s -> r = s.
Proof.
  intros Hr Hs H. pose proof (consumed_from_to r Hr) as E.
  rewrite H, consumed_from_to in E by done. by injection E.
Qed.

#[local] Opaque sized.

Lemma closure_bytes_inj p q :
  consumed_ok (consumed_state p) -> consumed_ok (consumed_state q) ->
  kind_fits (proof_kind p) -> kind_fits (proof_kind q) ->
  (blen (proof_material p) <= u32_max)%N -> (blen (proof_material q) <= u32_max)%N ->
  closure_bytes p = closure_bytes q -> p = q.
Proof.
  intros Hp Hq Hkp Hkq Hmp Hmq H. unfold closure_bytes in H.
  apply sized_app_inj in H as [Hc H];
    [|unfold blen, u32_max; rewrite consumed_bytes_length; lia..].
  apply consumed_bytes_inj in Hc; [|done|done].
  apply app_eq_length_inj in H as [Hs H]; [|by rewrite !b32_length]. apply b32_inj in Hs.
  assert (Hm : forall x y, (blen x <= u32_max)%N -> (blen y <= u32_max)%N ->
                      sized x = sized y -> x = y).
  { intros x y Hx Hy E. apply (sized_app_inj x y [] []); [done|done|]. by rewrite !app_nil_r. }
  destruct p as [cp sp kp mp], q as [cq sq kq mq]; cbn [consumed_state successor_commitment
    proof_kind proof_material] in *. subst.
  destruct kp as [|n], kq as [|m]; try discriminate H.
  - apply (app_inv_head [Byte.x01]), Hm in H; [by subst|done|done].
  - apply (app_inv_head [Byte.x02]), sized_app_inj in H as [Hn H]; [|done|done]. apply as_bytes_inj in Hn.
    apply Hm in H; [by subst|done|done].
Qed.

(** ** Properties *)

(** the reference encodings are canonical: decoding accepts exactly the
    encodings of references, and gives each back, so every reference has one
    encoding and every accepted byte string is one.  No byte string decodes as
    both kinds of reference. *)
Theorem reference_codec_canonical (b : bytes) :
  (forall r, consumed_from_canonical_bytes b = Ok r <->
        consumed_ok r /\ consumed_to_canonical_bytes r = b) /\
  (forall r, evidence_from_canonical_bytes b = Ok r <-> evidence_to_canonical_bytes r = b) /\
  ~ (is_ok (consumed_from_canonical_bytes b) = true /\
     is_ok (evidence_from_canonical_bytes b) = true).
Proof.
  split; [|split].
  - intros r. split; [apply consumed_to_from|]. intros [Hr <-]. by apply consumed_from_to.
  - intros r. split; [apply evidence_to_from|]. intros <-. apply evidence_from_to.
  - intros [(r & Hr)%is_ok_inv (s & Hs)%is_ok_inv].
    apply consumed_to_from in Hr as [_ Hr]. apply evidence_to_from in Hs.
    rewrite <- Hs in Hr. by injection Hr.
Qed.

(** a closure commitment binds the proof.  Two validated closure proofs with
    the same commitment consume the same state to the same successor with the
    same material, or the two strings hashed last for them collide. *)
Theorem closure_commitment_binds (sha256 : bytes -> Bytes32) (p q : ClosureProof) :
  closure_validate p = Ok tt -> closure_validate q = Ok tt ->
  consumed_ok (consumed_state p) -> consumed_ok (consumed_state q) ->
  kind_fits (proof_kind p) -> kind_fits (proof_kind q) ->
  closure_commitment sha256 p = closure_commitment sha256 q ->
  p = q \/ collision_in sha256 [closure_preimage sha256 p; closure_preimage sha256 q].
Proof.
  intros (_ & _ & Hp & _)%closure_validate_ok (_ & _ & Hq & _)%closure_validate_ok Hcp Hcq Hkp Hkq H.
  unfold closure_commitment, closure_preimage in *. hash_inj H. left.
  apply closure_bytes_inj in H; [done|done|done|done|done| |];
    unfold MAX_CLOSURE_PROOF_BYTES, u32_max in *; lia.
Qed.

(** ** Witness *)

Definition demo_closure : ClosureProof :=
  mkClosureProof (mkConsumed (fill32 Byte.x01) 0 7) (fill32 Byte.x02) (ChainSpecific "sui")
    [Byte.x09].

Lemma closure_commitment_binds_witness : demo_closure = demo_closure \/
  collision_in toy_hash [closure_preimage toy_hash demo_closure; closure_preimage toy_hash demo_closure].
Proof.
  apply (closure_commitment_binds toy_hash demo_closure demo_closure);
    try reflexivity; repeat split; by vm_compute.
Defined.
