(* ===== verification/Assurance.v ===== *)
(** * Dimensioned assurance reports (csv-verifier/src/assurance.rs)

    The verifier does not answer yes or no: it fills seven dimensions, each with
    a status, reason codes, the provider the reading rests on and limitations.
    A report is built from recorded readings, is projected onto a display level,
    is folded into an accountability profile, and is judged by a named
    requirement.  The error values of verifier.rs are here because a report
    carries them. *)

From S2P Require Import Prelude Ord Bytes Hashing Text Reference Accountability.
From Stdlib Require Import Sorting.Sorted.

(** ** Verification errors (verifier.rs) *)

Inductive VerificationErrorCode :=
| ESealReplay | ESignatureInvalid | EInclusionProofInvalid | EFinalityNotReached
| EDomainMismatch | EMalformedProof | EProofTooLarge | EAnchorInvalid | EInternalError.

Record VerificationError := mkVerificationError {
  code : VerificationErrorCode;
  error_text : string;
  retryable : bool
}.

(** ** Dimensions *)

Inductive ProtocolAssuranceDimension :=
| CanonicalStructure | TransitionSemantics | Authorization | AnchorInclusion
| FinalityCheckpoint | SourceClosure | Freshness.

Global Instance ProtocolAssuranceDimension_eq_dec : EqDecision ProtocolAssuranceDimension.
Proof. solve_decision. Defined.

Definition PROTOCOL_ASSURANCE_DIMENSIONS : list ProtocolAssuranceDimension :=
  [CanonicalStructure; TransitionSemantics; Authorization; AnchorInclusion;
   FinalityCheckpoint; SourceClosure; Freshness].

(** [registry_id] of a dimension *)
Definition dimension_registry_id (d : ProtocolAssuranceDimension) : string :=
  match d with
  | CanonicalStructure => "PROTOCOL.DIMENSION.CANONICAL_STRUCTURE"
  | TransitionSemantics => "PROTOCOL.DIMENSION.TRANSITION_SEMANTICS"
  | Authorization => "PROTOCOL.DIMENSION.AUTHORIZATION"
  | AnchorInclusion => "PROTOCOL.DIMENSION.ANCHOR_INCLUSION"
  | FinalityCheckpoint => "PROTOCOL.DIMENSION.FINALITY_CHECKPOINT"
  | SourceClosure => "PROTOCOL.DIMENSION.SOURCE_CLOSURE"
  | Freshness => "PROTOCOL.DIMENSION.FRESHNESS"
  end.

Definition is_foundational (d : ProtocolAssuranceDimension) : bool :=
  match d with Freshness => false | _ => true end.

Definition dimension_index (d : ProtocolAssuranceDimension) : nat :=
  match d with
  | CanonicalStructure => 0 | TransitionSemantics => 1 | Authorization => 2
  | AnchorInclusion => 3 | FinalityCheckpoint => 4 | SourceClosure => 5 | Freshness => 6
  end.

Definition pdimension_tag (d : ProtocolAssuranceDimension) : byte :=
  match d with
  | CanonicalStructure => Byte.x01 | TransitionSemantics => Byte.x02 | Authorization => Byte.x03
  | AnchorInclusion => Byte.x04 | FinalityCheckpoint => Byte.x05 | SourceClosure => Byte.x06
  | Freshness => Byte.x07
  end.

Definition accountability_dimension (d : ProtocolAssuranceDimension) : AssuranceDimension :=
  match d with
  | CanonicalStructure | TransitionSemantics => Structural
  | Authorization => Cryptographic
  | AnchorInclusion | FinalityCheckpoint => ExternalCorroboration
  | SourceClosure => SingleUse
  | Freshness => Temporal
  end.

(** ** Reason codes *)

Inductive ProtocolReasonCode :=
| StructureValidated
| BundleTooLarge
| DagStructureInvalid
| AnchorReferenceInvalid
| DagIdentityNotRecomputed
| SealReferenceMissing
| TransitionBindingVerified
| DomainBindingMismatch
| ConsumedStateResolutionUnavailable
| SignaturesVerified
| SignatureInvalid
| SignaturesAbsent
| SignerSetUnbound
| InclusionAttestedByProvider
| InclusionRejectedByProvider
| InclusionProofMalformed
| InclusionNotCryptographicallyVerified
| CheckpointAttestedByProvider
| CheckpointRejectedByProvider
| FinalityProofMalformed
| ConfirmationDepthNotMet
| CheckpointUnobserved
| ReplayRegistryClean
| ReplayDetected
| ReplayRegistryAbsent
| SourceClosureNotExternallyGrounded
| SourceClosureCryptographicallyVerified
| SourceClosureRejected
| WithinMaxAnchorAge
| AnchorStale
| FreshnessBoundNotConfigured
| FreshnessContextIncomplete
| FreshnessNotMeasuredInBlocks
| NotEvaluated.

Global Instance ProtocolReasonCode_eq_dec : EqDecision ProtocolReasonCode.
Proof. solve_decision. Defined.

(** The derived order is the order of declaration. *)
Definition reason_index (c : ProtocolReasonCode) : nat :=
  match c with
  | StructureValidated => 0
  | BundleTooLarge => 1
  | DagStructureInvalid => 2
  | AnchorReferenceInvalid => 3
  | DagIdentityNotRecomputed => 4
  | SealReferenceMissing => 5
  | TransitionBindingVerified => 6
  | DomainBindingMismatch => 7
  | ConsumedStateResolutionUnavailable => 8
  | SignaturesVerified => 9
  | SignatureInvalid => 10
  | SignaturesAbsent => 11
  | SignerSetUnbound => 12
  | InclusionAttestedByProvider => 13
  | InclusionRejectedByProvider => 14
  | InclusionProofMalformed => 15
  | InclusionNotCryptographicallyVerified => 16
  | CheckpointAttestedByProvider => 17
  | CheckpointRejectedByProvider => 18
  | FinalityProofMalformed => 19
  | ConfirmationDepthNotMet => 20
  | CheckpointUnobserved => 21
  | ReplayRegistryClean => 22
  | ReplayDetected => 23
  | ReplayRegistryAbsent => 24
  | SourceClosureNotExternallyGrounded => 25
  | SourceClosureCryptographicallyVerified => 26
  | SourceClosureRejected => 27
  | WithinMaxAnchorAge => 28
  | AnchorStale => 29
  | FreshnessBoundNotConfigured => 30
  | FreshnessContextIncomplete => 31
  | FreshnessNotMeasuredInBlocks => 32
  | NotEvaluated => 33
  end.

Global Instance ProtocolReasonCode_ord : Ord ProtocolReasonCode := cmp_by reason_index.
Global Instance ProtocolReasonCode_ord_laws : OrdLaws ProtocolReasonCode.
Proof. apply cmp_by_laws. by intros [] []. Qed.

(** [registry_id] of a reason code *)
Definition reason_registry_id (c : ProtocolReasonCode) : string :=
  match c with
  | StructureValidated => "PROTOCOL.STRUCTURE.VALIDATED"
  | BundleTooLarge => "PROTOCOL.STRUCTURE.BUNDLE_TOO_LARGE"
  | DagStructureInvalid => "PROTOCOL.STRUCTURE.DAG_INVALID"
  | AnchorReferenceInvalid => "PROTOCOL.STRUCTURE.ANCHOR_REFERENCE_INVALID"
  | DagIdentityNotRecomputed => "PROTOCOL.STRUCTURE.DAG_IDENTITY_NOT_RECOMPUTED"
  | SealReferenceMissing => "PROTOCOL.STRUCTURE.SEAL_REFERENCE_MISSING"
  | TransitionBindingVerified => "PROTOCOL.TRANSITION.BINDING_VERIFIED"
  | DomainBindingMismatch => "PROTOCOL.TRANSITION.DOMAIN_BINDING_MISMATCH"
  | ConsumedStateResolutionUnavailable => "PROTOCOL.TRANSITION.CONSUMED_STATE_RESOLUTION_UNAVAILABLE"
  | SignaturesVerified => "PROTOCOL.AUTHORIZATION.SIGNATURES_VERIFIED"
  | SignatureInvalid => "PROTOCOL.AUTHORIZATION.SIGNATURE_INVALID"
  | SignaturesAbsent => "PROTOCOL.AUTHORIZATION.SIGNATURES_ABSENT"
  | SignerSetUnbound => "PROTOCOL.AUTHORIZATION.SIGNER_SET_UNBOUND"
  | InclusionAttestedByProvider => "PROTOCOL.INCLUSION.ATTESTED_BY_PROVIDER"
  | InclusionRejectedByProvider => "PROTOCOL.INCLUSION.REJECTED_BY_PROVIDER"
  | InclusionProofMalformed => "PROTOCOL.INCLUSION.PROOF_MALFORMED"
  | InclusionNotCryptographicallyVerified => "PROTOCOL.INCLUSION.NOT_CRYPTOGRAPHICALLY_VERIFIED"
  | CheckpointAttestedByProvider => "PROTOCOL.FINALITY.ATTESTED_BY_PROVIDER"
  | CheckpointRejectedByProvider => "PROTOCOL.FINALITY.REJECTED_BY_PROVIDER"
  | FinalityProofMalformed => "PROTOCOL.FINALITY.PROOF_MALFORMED"
  | ConfirmationDepthNotMet => "PROTOCOL.FINALITY.CONFIRMATION_DEPTH_NOT_MET"
  | CheckpointUnobserved => "PROTOCOL.FINALITY.CHECKPOINT_UNOBSERVED"
  | ReplayRegistryClean => "PROTOCOL.SOURCE_CLOSURE.REPLAY_REGISTRY_CLEAN"
  | ReplayDetected => "PROTOCOL.SOURCE_CLOSURE.REPLAY_DETECTED"
  | ReplayRegistryAbsent => "PROTOCOL.SOURCE_CLOSURE.REPLAY_REGISTRY_ABSENT"
  | SourceClosureNotExternallyGrounded => "PROTOCOL.SOURCE_CLOSURE.NOT_EXTERNALLY_GROUNDED"
  | SourceClosureCryptographicallyVerified => "PROTOCOL.SOURCE_CLOSURE.CRYPTOGRAPHICALLY_VERIFIED"
  | SourceClosureRejected => "PROTOCOL.SOURCE_CLOSURE.REJECTED"
  | WithinMaxAnchorAge => "PROTOCOL.FRESHNESS.WITHIN_MAX_ANCHOR_AGE"
  | AnchorStale => "PROTOCOL.FRESHNESS.ANCHOR_STALE"
  | FreshnessBoundNotConfigured => "PROTOCOL.FRESHNESS.BOUND_NOT_CONFIGURED"
  | FreshnessContextIncomplete => "PROTOCOL.FRESHNESS.CONTEXT_INCOMPLETE"
  | FreshnessNotMeasuredInBlocks => "PROTOCOL.FRESHNESS.NOT_MEASURED_IN_BLOCKS"
  | NotEvaluated => "PROTOCOL.DIMENSION.NOT_EVALUATED"
  end.

(** ** Providers *)

Inductive ProofKind :=
| CanonicalRules | DigitalSignature | MerkleInclusion | ConfirmationDepth
| SourceSealClosure | ReplayRegistryKind | ObservedChainTip.

Definition proof_kind_registry_id (k : ProofKind) : string :=
  match k with
  | CanonicalRules => "canonical-rules" | DigitalSignature => "digital-signature"
  | MerkleInclusion => "merkle-inclusion" | ConfirmationDepth => "confirmation-depth"
  | SourceSealClosure => "source-seal-closure" | ReplayRegistryKind => "replay-registry"
  | ObservedChainTip => "observed-chain-tip"
  end.

Definition proof_kind_tag (k : ProofKind) : byte :=
  match k with
  | CanonicalRules => Byte.x01 | DigitalSignature => Byte.x02 | MerkleInclusion => Byte.x03
  | ConfirmationDepth => Byte.x04 | SourceSealClosure => Byte.x05
  | ReplayRegistryKind => Byte.x06 | ObservedChainTip => Byte.x07
  end.

Inductive TrustMode :=
| LocalRecomputation | ProviderAttested | FullNode | LightClient | RpcQuorum
| AttestedRegistry | Unverified.

Global Instance TrustMode_eq_dec : EqDecision TrustMode.
Proof. solve_decision. Defined.
Global Instance ProofKind_eq_dec : EqDecision ProofKind.
Proof. solve_decision. Defined.

Definition trust_mode_registry_id (m : TrustMode) : string :=
  match m with
  | LocalRecomputation => "local-recomputation" | ProviderAttested => "provider-attested"
  | FullNode => "full-node" | LightClient => "light-client" | RpcQuorum => "rpc-quorum"
  | AttestedRegistry => "attested-registry" | Unverified => "unverified"
  end.

Definition trust_mode_tag (m : TrustMode) : byte :=
  match m with
  | LocalRecomputation => Byte.x01 | ProviderAttested => Byte.x02 | FullNode => Byte.x03
  | LightClient => Byte.x04 | RpcQuorum => Byte.x05 | AttestedRegistry => Byte.x06
  | Unverified => Byte.x07
  end.

(** [From<ClosureTrustMode> for TrustMode] *)
Definition of_closure_trust_mode (m : ClosureTrustMode) : TrustMode :=
  match m with
  | CTFullNode => FullNode | CTLightClient => LightClient | CTRpcQuorum => RpcQuorum
  | CTAttestedRegistry => AttestedRegistry
  end.

Record ProofProvider := mkProvider {
  provider_id : string;
  provider_chain_id : option string;
  provider_kind : ProofKind;
  trust_mode : TrustMode
}.

Definition CANONICAL_VERIFIER_PROVIDER_ID : string := "parwana.csv-verifier.canonical.v1".

Definition provider_local (k : ProofKind) : ProofProvider :=
  mkProvider CANONICAL_VERIFIER_PROVIDER_ID None k LocalRecomputation.
Definition provider_attested (id : string) (chain : option string) (k : ProofKind)
  : ProofProvider := mkProvider id chain k ProviderAttested.
Definition provider_unverified (k : ProofKind) : ProofProvider :=
  mkProvider "none" None k Unverified.

(** [ProofProvider::write_canonical] *)
Definition provider_bytes (p : ProofProvider) : bytes :=
  push_text (provider_id p) ++ push_option push_text (provider_chain_id p) ++
  [proof_kind_tag (provider_kind p)] ++ [trust_mode_tag (trust_mode p)].

(** [ProofProvider::describe] *)
Definition describe (p : ProofProvider) : string :=
  match provider_chain_id p with
  | Some chain => provider_id p +:+ " (" +:+ chain +:+ ", " +:+
      proof_kind_registry_id (provider_kind p) +:+ ", " +:+
      trust_mode_registry_id (trust_mode p) +:+ ")"
  | None => provider_id p +:+ " (" +:+ proof_kind_registry_id (provider_kind p) +:+ ", " +:+
      trust_mode_registry_id (trust_mode p) +:+ ")"
  end.

(** ** Chain-native attestations *)

Inductive ChainNativeClaim := ClaimAnchorInclusion | ClaimCheckpointFinality | ClaimTransferBinding.

Definition claim_tag (c : ChainNativeClaim) : byte :=
  match c with
  | ClaimAnchorInclusion => Byte.x01 | ClaimCheckpointFinality => Byte.x02
  | ClaimTransferBinding => Byte.x03
  end.

Global Instance ChainNativeClaim_eq_dec : EqDecision ChainNativeClaim.
Proof. solve_decision. Defined.
Global Instance ChainNativeClaim_ord : Ord ChainNativeClaim := cmp_by claim_tag.
Global Instance ChainNativeClaim_ord_laws : OrdLaws ChainNativeClaim.
Proof. apply cmp_by_laws. by intros [] []. Qed.

Record ChainNativeProofAttestation := mkAttestation {
  att_provider_id : string;
  att_chain_id : string;
  claims : list ChainNativeClaim;
  detail : option string
}.

(** [ChainNativeProofAttestation::new]: the claims become a set. *)
Definition attestation_new (provider chain : string) (cs : list ChainNativeClaim)
  : ChainNativeProofAttestation := mkAttestation provider chain (bset_of_list cs) None.

Definition with_detail (a : ChainNativeProofAttestation) (d : string)
  : ChainNativeProofAttestation :=
  mkAttestation (att_provider_id a) (att_chain_id a) (claims a) (Some d).

(** [ChainNativeProofAttestation::provider] *)
Definition att_provider (a : ChainNativeProofAttestation) (k : ProofKind) : ProofProvider :=
  provider_attested (att_provider_id a) (Some (att_chain_id a)) k.

Definition attestation_bytes (a : ChainNativeProofAttestation) : bytes :=
  push_text (att_provider_id a) ++ push_text (att_chain_id a) ++
  push_list (fun c => [claim_tag c]) (claims a) ++ push_option push_text (detail a).

Inductive ChainNativeProofAssessment :=
| NotSupplied
| AssessAttested (a : ChainNativeProofAttestation)
| AssessRejected (a : ChainNativeProofAttestation).

Inductive ChainNativeClaimReading :=
| ReadAttested (a : ChainNativeProofAttestation)
| ReadRejected (a : ChainNativeProofAttestation)
| ReadAbsent.

(** [ChainNativeProofAssessment::reading] *)
Definition claim_reading (s : ChainNativeProofAssessment) (c : ChainNativeClaim)
  : ChainNativeClaimReading :=
  match s with
  | NotSupplied => ReadAbsent
  | AssessRejected a => ReadRejected a
  | AssessAttested a => if bool_decide (c ∈ claims a) then ReadAttested a else ReadAbsent
  end.

(** [ChainNativeProofAssessment::write_canonical] *)
Definition assessment_bytes (s : ChainNativeProofAssessment) : bytes :=
  match s with
  | NotSupplied => [Byte.x00]
  | AssessAttested a => Byte.x01 :: attestation_bytes a
  | AssessRejected a => Byte.x02 :: attestation_bytes a
  end.

(** ** Readings and reports *)

Record DimensionAssurance := mkReading {
  dimension : ProtocolAssuranceDimension;
  status : DimensionStatus;
  reason_codes : list ProtocolReasonCode;
  provider : ProofProvider;
  limitations : list string
}.

(** [DimensionAssurance::new]: codes become a non-empty sorted set, limitations
    are sorted and deduplicated. *)
Definition reading_new (d : ProtocolAssuranceDimension) (s : DimensionStatus)
    (codes : list ProtocolReasonCode) (p : ProofProvider) (limits : list string)
  : DimensionAssurance :=
  mkReading d s
    (match bset_of_list codes with [] => [NotEvaluated] | cs => cs end)
    p (bset_of_list limits).

Definition not_evaluated (d : ProtocolAssuranceDimension) (k : ProofKind) : DimensionAssurance :=
  reading_new d Indeterminate [NotEvaluated] (provider_unverified k)
    ["Verification stopped before this dimension was evaluated"%string].

(** [DimensionAssurance::write_canonical] *)
Definition reading_bytes (r : DimensionAssurance) : bytes :=
  [pdimension_tag (dimension r)] ++ [status_tag (status r)] ++
  push_list (fun c => push_text (reason_registry_id c)) (reason_codes r) ++
  provider_bytes (provider r) ++ push_list push_text (limitations r).

Record ProtocolAssuranceReport := mkReport {
  verification_context_digest : Hash;
  dimensions : list DimensionAssurance;
  errors : list VerificationError
}.

(** [report.reading(d)]: [&self.dimensions\[d.index()\]], which panics ([None])
    when the report is too short. *)
Definition reading (r : ProtocolAssuranceReport) (d : ProtocolAssuranceDimension)
  : option DimensionAssurance := dimensions r !! dimension_index d.

Definition is_satisfied (s : DimensionStatus) : bool := bool_decide (s = Satisfied).

(** [foundational_shortfalls] *)
Definition foundational_shortfalls (r : ProtocolAssuranceReport) : list DimensionAssurance :=
  List.filter (fun x => is_foundational (dimension x) && negb (is_satisfied (status x)))
    (dimensions r).

Inductive VerificationLevel := StructuralOnly | MerkleVerified | FullyVerified | ConsensusVerified.

(** [display_level] *)
Definition display_level (r : ProtocolAssuranceReport) : option VerificationLevel :=
  let satisfied d := (fun x => is_satisfied (status x)) <$> reading r d in
  match foundational_shortfalls r with
  | _ :: _ => s ← satisfied AnchorInclusion;
              Some (if (s : bool) then MerkleVerified else StructuralOnly)
  | [] => s ← satisfied Freshness;
          Some (if (s : bool) then ConsensusVerified else FullyVerified)
  end.

(** ** Folding into an accountability profile *)

Definition weaken (current incoming : DimensionStatus) : DimensionStatus :=
  match current, incoming with
  | NotSatisfied, _ | _, NotSatisfied => NotSatisfied
  | NotApplicable, other | other, NotApplicable => other
  | Indeterminate, _ | _, Indeterminate => Indeterminate
  | Satisfied, Satisfied => Satisfied
  end.

Definition status_registry_id (s : DimensionStatus) : string :=
  match s with
  | Satisfied => "satisfied" | NotSatisfied => "not-satisfied"
  | Indeterminate => "indeterminate" | NotApplicable => "not-applicable"
  end.

(** What one reading does to the profile entry it lands on. *)
Definition fold_reading (x : DimensionAssurance) (r : DimensionResult) : DimensionResult :=
  mkDimensionResult (dr_dimension r) (weaken (dr_status r) (status x)) (assurance_level r)
    (bset_of_list (dr_reason_codes r ++ map reason_registry_id (reason_codes x)))
    (supporting_evidence_refs r)
    (bset_of_list (dr_limitations r ++
       [dimension_registry_id (dimension x) +:+ ": " +:+ status_registry_id (status x) +:+
        " established by " +:+ describe (provider x)] ++ limitations x)).

(** [iter_mut().find(p)] then an update: the first match only. *)
Fixpoint update_first {A} (p : A -> bool) (f : A -> A) (l : list A) : list A :=
  match l with
  | [] => []
  | x :: l' => if p x then f x :: l' else x :: update_first p f l'
  end.

Definition incorporate_one (ds : list DimensionResult) (x : DimensionAssurance)
  : list DimensionResult :=
  update_first (fun r => bool_decide (dr_dimension r = accountability_dimension (dimension x)))
    (fold_reading x) ds.

(** [incorporate_into] *)
Definition incorporate_into (rep : ProtocolAssuranceReport) (p : AssuranceProfile)
  : AssuranceProfile :=
  match profile_validate p with
  | Err _ => p
  | Ok _ => mkAssuranceProfile (verification_context_id p)
              (fold_left incorporate_one (dimensions rep) (profile_dimensions p))
  end.

(** ** The report builder *)

Record ProtocolAssuranceReportBuilder := mkBuilder {
  b_context_digest : Hash;
  b_readings : list DimensionAssurance;
  b_errors : list VerificationError
}.

Definition builder_new (ctx : Hash) : ProtocolAssuranceReportBuilder := mkBuilder ctx [] [].

(** [record]: replaces an earlier reading of the same dimension. *)
Definition record (b : ProtocolAssuranceReportBuilder) (r : DimensionAssurance)
  : ProtocolAssuranceReportBuilder :=
  mkBuilder (b_context_digest b)
    (List.filter (fun x => negb (bool_decide (dimension x = dimension r))) (b_readings b) ++ [r])
    (b_errors b).

Definition record_error (b : ProtocolAssuranceReportBuilder) (e : VerificationError)
  : ProtocolAssuranceReportBuilder :=
  mkBuilder (b_context_digest b) (b_readings b) (b_errors b ++ [e]).

Definition has (b : ProtocolAssuranceReportBuilder) (d : ProtocolAssuranceDimension) : bool :=
  existsb (fun x => bool_decide (dimension x = d)) (b_readings b).

Definition closure_status (s : ClosureDimensionStatus) (success failure : ProtocolReasonCode)
  : DimensionStatus * ProtocolReasonCode :=
  match s with
  | CSatisfied => (Satisfied, success)
  | CFailed => (NotSatisfied, failure)
  | CIndeterminate => (Indeterminate, NotEvaluated)
  end.

Definition closure_entries (r : ClosureVerificationResult) :=
  [ (AnchorInclusion, proof_validity r, InclusionAttestedByProvider, InclusionRejectedByProvider,
     MerkleInclusion);
    (FinalityCheckpoint, checkpoint_finality r, CheckpointAttestedByProvider,
     CheckpointRejectedByProvider, ConfirmationDepth);
    (Freshness, checkpoint_freshness r, WithinMaxAnchorAge, AnchorStale, ObservedChainTip);
    (SourceClosure, source_closure r, SourceClosureCryptographicallyVerified,
     SourceClosureRejected, SourceSealClosure) ].

Definition closure_reading (r : ClosureVerificationResult)
    (e : ProtocolAssuranceDimension * ClosureDimensionStatus * ProtocolReasonCode *
         ProtocolReasonCode * ProofKind) : DimensionAssurance :=
  let '(d, s, success, failure, k) := e in
  let '(s', reason) := closure_status s success failure in
  reading_new d s' [reason]
    (mkProvider (verifier_id r) (Some (cr_chain_id r)) k (of_closure_trust_mode (cr_trust_mode r)))
    ["proof material from " +:+ proof_provider_id r +:+ "; checkpoint " +:+
     cp_network_id (checkpoint r) +:+ ":" +:+ pretty (cp_block_height (checkpoint r))].

(** [record_closure_result] *)
Definition record_closure_result (b : ProtocolAssuranceReportBuilder)
    (r : ClosureVerificationResult) : ProtocolAssuranceReportBuilder :=
  fold_left (fun b e => record b (closure_reading r e)) (closure_entries r) b.

Definition default_proof_kind (d : ProtocolAssuranceDimension) : ProofKind :=
  match d with
  | CanonicalStructure | TransitionSemantics => CanonicalRules
  | Authorization => DigitalSignature
  | AnchorInclusion => MerkleInclusion
  | FinalityCheckpoint => ConfirmationDepth
  | SourceClosure => SourceSealClosure
  | Freshness => ObservedChainTip
  end.

(** [build]: exactly one reading per dimension, in dimension order. *)
Definition build (b : ProtocolAssuranceReportBuilder) : ProtocolAssuranceReport :=
  mkReport (b_context_digest b)
    (map (fun d =>
            match List.find (fun x => bool_decide (dimension x = d)) (b_readings b) with
            | Some x => x
            | None => not_evaluated d (default_proof_kind d)
            end) PROTOCOL_ASSURANCE_DIMENSIONS)
    (b_errors b).

(** ** Requirements *)

Inductive DimensionRequirement := MustBeSatisfied | MayBeIndeterminate | NotRequired.
Global Instance DimensionRequirement_eq_dec : EqDecision DimensionRequirement.
Proof. solve_decision. Defined.

(** The rule array has one entry per dimension. *)
Record AssuranceRequirement := mkRequirement {
  policy_id : string;
  req_rules : list DimensionRequirement;
  req_rules_len : length req_rules = length PROTOCOL_ASSURANCE_DIMENSIONS
}.

Definition COMPLETE : AssuranceRequirement :=
  mkRequirement "parwana.assurance.complete.v1" (replicate 7 MustBeSatisfied) eq_refl.

Definition RUNTIME_SOURCE_PROOF : AssuranceRequirement :=
  mkRequirement "parwana.assurance.runtime-source-proof.v1"
    [MayBeIndeterminate; MayBeIndeterminate; MayBeIndeterminate; MustBeSatisfied;
     MustBeSatisfied; MayBeIndeterminate; MayBeIndeterminate] eq_refl.

Definition OFFLINE_RECIPIENT : AssuranceRequirement :=
  mkRequirement "parwana.assurance.offline-recipient.v1"
    [MustBeSatisfied; MayBeIndeterminate; MustBeSatisfied; MayBeIndeterminate;
     MayBeIndeterminate; MayBeIndeterminate; MayBeIndeterminate] eq_refl.

(** [rule]: the array is indexed within its length, so the default is never read. *)
Definition rule (q : AssuranceRequirement) (d : ProtocolAssuranceDimension)
  : DimensionRequirement := nth (dimension_index d) (req_rules q) NotRequired.

Record RequirementShortfall := mkShortfall {
  sf_dimension : ProtocolAssuranceDimension;
  sf_status : DimensionStatus;
  sf_required : DimensionRequirement;
  sf_reason_codes : list ProtocolReasonCode;
  sf_provider : ProofProvider
}.

(** [Display for RequirementShortfall] *)
Definition shortfall_text (s : RequirementShortfall) : string :=
  dimension_registry_id (sf_dimension s) +:+ " is " +:+ status_registry_id (sf_status s) +:+
  " [" +:+ join ", " (map reason_registry_id (sf_reason_codes s)) +:+ "] via " +:+
  describe (sf_provider s).

Record RequirementOutcome := mkOutcome {
  out_policy_id : string;
  out_context_digest : Hash;
  shortfalls : list RequirementShortfall;
  accepted_limitations : list RequirementShortfall
}.

Definition shortfall_entry (q : AssuranceRequirement) (x : DimensionAssurance)
  : RequirementShortfall :=
  mkShortfall (dimension x) (status x) (rule q (dimension x)) (reason_codes x) (provider x).

(** One turn of the loop of [evaluate]. *)
Definition evaluate_step (q : AssuranceRequirement)
    (acc : list RequirementShortfall * list RequirementShortfall) (x : DimensionAssurance)
  : list RequirementShortfall * list RequirementShortfall :=
  let '(short, accepted) := acc in
  let entry := shortfall_entry q x in
  match rule q (dimension x), status x with
  | _, NotSatisfied => (short ++ [entry], accepted)
  | MustBeSatisfied, Satisfied => (short, accepted)
  | MustBeSatisfied, _ => (short ++ [entry], accepted)
  | _, Satisfied => (short, accepted)
  | MayBeIndeterminate, _ => (short, accepted ++ [entry])
  | NotRequired, _ => (short, accepted)
  end.

(** [AssuranceRequirement::evaluate] *)
Definition evaluate (q : AssuranceRequirement) (r : ProtocolAssuranceReport)
  : RequirementOutcome :=
  let '(short, accepted) := fold_left (evaluate_step q) (dimensions r) ([], []) in
  mkOutcome (policy_id q) (verification_context_digest r) short accepted.

Definition is_met (o : RequirementOutcome) : bool :=
  match shortfalls o with [] => true | _ => false end.

Definition shortfall_summary (o : RequirementOutcome) : string :=
  join "; " (map shortfall_text (shortfalls o)).
Definition limitation_summary (o : RequirementOutcome) : string :=
  join "; " (map shortfall_text (accepted_limitations o)).

(** ** Digests *)

(** [ContextDigestWriter]: the buffer, field by field. *)
Definition writer_new (profile_id : string) : bytes :=
  push_text "profile" ++ push_text profile_id.
Definition w_bytes (name : string) (v : bytes) (buf : bytes) : bytes :=
  buf ++ push_text name ++ push_bytes v.
Definition w_text (name v : string) (buf : bytes) : bytes := w_bytes name (as_bytes v) buf.
Definition w_u64 (name : string) (v : N) (buf : bytes) : bytes := w_bytes name (u64_be v) buf.
Definition w_opt_u64 (name : string) (v : option N) (buf : bytes) : bytes :=
  match v with
  | Some n => w_u64 name n (w_bytes name [Byte.x01] buf)
  | None => w_bytes name [Byte.x00] buf
  end.
Definition w_opt_bytes (name : string) (v : option bytes) (buf : bytes) : bytes :=
  match v with
  | Some b => w_bytes name b (w_bytes name [Byte.x01] buf)
  | None => w_bytes name [Byte.x00] buf
  end.
Definition w_presence (name : string) (p : bool) (buf : bytes) : bytes :=
  w_bytes name [if p then Byte.x01 else Byte.x00] buf.
Definition w_chain_native_proof (name : string) (a : ChainNativeProofAssessment) (buf : bytes)
  : bytes := w_bytes name (assessment_bytes a) buf.
Definition w_byte_list (name : string) (vs : list bytes) (buf : bytes) : bytes :=
  buf ++ push_text name ++ push_list push_bytes vs.

Section Digests.
Variable sha256 : bytes -> Bytes32.

(** [ContextDigestWriter::finish] *)
Definition writer_finish (buf : bytes) : Hash :=
  domain_hash sha256 "csv.verification.context.v1" buf.

(** [ProtocolAssuranceReport::digest]: the errors are not part of it. *)
Definition report_digest (r : ProtocolAssuranceReport) : Hash :=
  domain_hash sha256 "csv.verification.assurance-report.v1"
    (b32 (verification_context_digest r) ++ push_list reading_bytes (dimensions r)).
(** The string it hashes last. *)
Definition report_preimage (r : ProtocolAssuranceReport) : bytes :=
  domain_preimage sha256 "csv.verification.assurance-report.v1"
    (b32 (verification_context_digest r) ++ push_list reading_bytes (dimensions r)).
End Digests.

(** ** Lemmas: the builder *)

Definition record_all (b : ProtocolAssuranceReportBuilder) (rs : list DimensionAssurance)
  : ProtocolAssuranceReportBuilder := fold_left record rs b.

(** The last recorded reading of a dimension. *)
Definition last_reading (rs : list DimensionAssurance) (d : ProtocolAssuranceDimension)
  : option DimensionAssurance :=
  List.find (fun x => bool_decide (dimension x = d)) (reverse rs).

Definition find_dim (d : ProtocolAssuranceDimension) (l : list DimensionAssurance) :=
  List.find (fun x => bool_decide (dimension x = d)) l.

Lemma find_app {A} (f : A -> bool) l k :
  List.find f (l ++ k) = match List.find f l with Some x => Some x | None => List.find f k end.
Proof. induction l as [|x l IH]; simpl; [done|]. by destruct (f x). Qed.

Lemma find_filter_same d d' l :
  find_dim d (List.filter (fun x => negb (bool_decide (dimension x = d'))) l) =
  if decide (d = d') then None else find_dim d l.
Proof.
  unfold find_dim. induction l as [|x l IH]; simpl; [by case_decide|].
  case_bool_decide as H1; simpl; rewrite ?IH; clear IH; repeat case_decide; subst;
    repeat case_bool_decide; congruence.
Qed.

Lemma find_record b r d :
  find_dim d (b_readings (record b r)) =
  if decide (dimension r = d) then Some r else find_dim d (b_readings b).
Proof.
  unfold record. cbn [b_readings]. unfold find_dim at 1. rewrite find_app.
  fold (find_dim d (List.filter (fun x => negb (bool_decide (dimension x = dimension r)))
                              (b_readings b))).
  rewrite find_filter_same. simpl.
  repeat case_decide; subst; try done; case_bool_decide; try done; by destruct (find_dim _ _).
Qed.

Lemma find_record_all b rs d :
  find_dim d (b_readings (record_all b rs)) =
  match last_reading rs d with Some x => Some x | None => find_dim d (b_readings b) end.
Proof.
  unfold record_all, last_reading. revert b.
  induction rs as [|r rs IH]; intros b; simpl; [done|].
  rewrite IH, find_record, reverse_cons, find_app.
  destruct (List.find _ (reverse rs)) as [x|]; [done|]. simpl.
  case_decide; case_bool_decide; done.
Qed.

Lemma record_all_context b rs : b_context_digest (record_all b rs) = b_context_digest b.
Proof. unfold record_all. revert b. induction rs; intros; simpl; [done|]. by rewrite IHrs. Qed.

Lemma record_all_errors b rs : b_errors (record_all b rs) = b_errors b.
Proof. unfold record_all. revert b. induction rs; intros; simpl; [done|]. by rewrite IHrs. Qed.

(** What [build] reports for a dimension. *)
Definition built (b : ProtocolAssuranceReportBuilder) (d : ProtocolAssuranceDimension)
  : DimensionAssurance :=
  match find_dim d (b_readings b) with
  | Some x => x | None => not_evaluated d (default_proof_kind d)
  end.

Lemma build_dimensions b : dimensions (build b) = map (built b) PROTOCOL_ASSURANCE_DIMENSIONS.
Proof. done. Qed.

Lemma build_reading b d : reading (build b) d = Some (built b d).
Proof. by destruct d. Qed.

Lemma find_dim_dimension d l x : find_dim d l = Some x -> dimension x = d.
Proof. intros [_ H]%List.find_some. by apply bool_decide_eq_true in H. Qed.

Lemma built_dimension b d : dimension (built b d) = d.
Proof.
  unfold built. destruct (find_dim d (b_readings b)) as [x|] eqn:E; [|done].
  by apply find_dim_dimension in E.
Qed.

(** A well-formed report: one reading per dimension, in order.  [build] yields
    nothing else. *)
Definition report_ok (r : ProtocolAssuranceReport) : Prop :=
  map dimension (dimensions r) = PROTOCOL_ASSURANCE_DIMENSIONS.

Lemma build_ok b : report_ok (build b).
Proof.
  unfold report_ok. rewrite build_dimensions, map_map.
  rewrite <- (map_id PROTOCOL_ASSURANCE_DIMENSIONS) at 2. apply map_ext. apply built_dimension.
Qed.

Lemma report_ok_reading r d :
  report_ok r -> exists x, reading r d = Some x /\ dimension x = d /\ x ∈ dimensions r.
Proof.
  unfold report_ok, reading. intros H.
  assert (Hd : map dimension (dimensions r) !! dimension_index d = Some d) by (rewrite H; by destruct d).
  rewrite list_lookup_fmap in Hd. apply fmap_Some in Hd as (x & Hx & ->).
  exists x. split; [done|]. split; [done|]. by apply list_elem_of_lookup_2 in Hx.
Qed.

Lemma report_ok_elem r x :
  report_ok r -> x ∈ dimensions r -> reading r (dimension x) = Some x.
Proof.
  unfold report_ok, reading. intros H (i & Hi)%list_elem_of_lookup.
  assert (Hd : PROTOCOL_ASSURANCE_DIMENSIONS !! i = Some (dimension x)).
  { rewrite <- H, list_lookup_fmap, Hi. done. }
  assert (i = dimension_index (dimension x)) as <-; [|done].
  do 7 (destruct i as [|i]; [simpl in Hd; injection Hd as <-; done|]). done.
Qed.

(** ** Lemmas: weakening is a meet

    [NotSatisfied] is the bottom and [NotApplicable] the unit. *)
Lemma weaken_comm a b : weaken a b = weaken b a.
Proof. by destruct a, b. Qed.
Lemma weaken_assoc a b c : weaken a (weaken b c) = weaken (weaken a b) c.
Proof. by destruct a, b, c. Qed.
Lemma weaken_idemp a : weaken a a = a.
Proof. by destruct a. Qed.
Lemma weaken_unit a : weaken NotApplicable a = a.
Proof. by destruct a. Qed.
Lemma weaken_fail a b : weaken a b = NotSatisfied <-> a = NotSatisfied \/ b = NotSatisfied.
Proof. destruct a, b; naive_solver. Qed.
Lemma weaken_satisfied a b :
  weaken a b = Satisfied <->
  (a = Satisfied \/ b = Satisfied) /\ a ∈ [Satisfied; NotApplicable] /\
  b ∈ [Satisfied; NotApplicable].
Proof. destruct a, b; simpl; set_solver. Qed.

Definition weaken_all (s : DimensionStatus) (l : list DimensionStatus) : DimensionStatus :=
  fold_left weaken l s.

(** How much a status claims: a failure is the least, an entry that does not apply the most, so
    that it gives way to every reading. *)
Definition strength (s : DimensionStatus) : nat :=
  match s with NotSatisfied => 0 | Indeterminate => 1 | Satisfied => 2 | NotApplicable => 3 end.

(** [s] is the weakest of [l]. *)
Definition weakest (s : DimensionStatus) (l : list DimensionStatus) : Prop :=
  s ∈ l /\ Forall (fun x => strength s <= strength x) l.

Lemma weaken_weakest a b : weakest (weaken a b) [a; b].
Proof.
  split; [rewrite !elem_of_cons|repeat constructor]; destruct a, b; simpl; auto; lia.
Qed.

Lemma weaken_all_weakest s l : weakest (weaken_all s l) (s :: l).
Proof.
  unfold weaken_all. revert s. induction l as [|x l IH]; intros s; cbn [fold_left].
  - split; [by left|by repeat constructor].
  - destruct (IH (weaken s x)) as [Hin [Hle Hall]%Forall_cons].
    destruct (weaken_weakest s x) as [H1 H2]. rewrite !Forall_cons in H2. destruct H2 as (Hs & Hx & _).
    split; [|repeat constructor; [lia..|done]].
    rewrite !elem_of_cons in *. destruct Hin as [E|?]; [|by auto]. rewrite E in *.
    destruct H1 as [H1|[H1|?%not_elem_of_nil]]; [by left|by right; left|done].
Qed.

(** ** Lemmas: folding into a profile *)

Lemma update_first_map {A B} (p : A -> bool) (f : A -> A) (g : A -> B) l :
  (forall x, g (f x) = g x) -> map g (update_first p f l) = map g l.
Proof.
  intros Hg. induction l as [|x l IH]; simpl; [done|].
  destruct (p x); simpl; [by rewrite Hg|by rewrite IH].
Qed.

Lemma update_first_lookup {A} (p : A -> bool) (f : A -> A) l i x :
  l !! i = Some x ->
  update_first p f l !! i =
  Some (if p x && negb (existsb p (take i l)) then f x else x).
Proof.
  revert i. induction l as [|y l IH]; intros [|i] H; simpl in *; try done.
  - injection H as ->. destruct (p x); done.
  - destruct (p y) eqn:Hy; simpl.
    + by rewrite andb_false_r.
    + by rewrite (IH i H).
Qed.

Lemma incorporate_one_dims ds x : map dr_dimension (incorporate_one ds x) = map dr_dimension ds.
Proof. apply update_first_map. done. Qed.

Lemma existsb_take_dims ds d i :
  map dr_dimension ds = ASSURANCE_DIMENSIONS -> ASSURANCE_DIMENSIONS !! i = Some d ->
  existsb (fun r => bool_decide (dr_dimension r = d)) (take i ds) = false.
Proof.
  intros Hds Hi. apply existsb_false, Forall_forall. intros r Hr.
  apply bool_decide_eq_false. intros Hd.
  apply elem_of_take in Hr as (j & Hj & Hji).
  assert (Hj' : ASSURANCE_DIMENSIONS !! j = Some d).
  { rewrite <- Hds, list_lookup_fmap, Hj. by subst d. }
  assert (Hn : NoDup ASSURANCE_DIMENSIONS) by (apply (bool_decide_unpack _); by vm_compute).
  pose proof (NoDup_lookup _ _ _ _ Hn Hi Hj'). lia.
Qed.

(** Every profile entry meets exactly the readings of its own dimension, and
    nothing but its status, codes and limitations changes. *)
Lemma incorporate_fold_lookup ds xs i r :
  map dr_dimension ds = ASSURANCE_DIMENSIONS -> ds !! i = Some r ->
  exists r', fold_left incorporate_one xs ds !! i = Some r' /\
    dr_dimension r' = dr_dimension r /\
    dr_status r' = weaken_all (dr_status r)
      (map status (List.filter (fun x => bool_decide
         (accountability_dimension (dimension x) = dr_dimension r)) xs)) /\
    supporting_evidence_refs r' = supporting_evidence_refs r /\
    assurance_level r' = assurance_level r.
Proof.
  revert ds r. induction xs as [|x xs IH]; intros ds r Hds Hi; simpl; [by eauto 10|].
  assert (Hd : ASSURANCE_DIMENSIONS !! i = Some (dr_dimension r)).
  { by rewrite <- Hds, list_lookup_fmap, Hi. }
  pose proof (update_first_lookup
    (fun r => bool_decide (dr_dimension r = accountability_dimension (dimension x)))
    (fold_reading x) ds i r Hi) as Hu.
  fold (incorporate_one ds x) in Hu. cbv beta in Hu.
  destruct (decide (dr_dimension r = accountability_dimension (dimension x))) as [Heq|Hne].
  - rewrite (bool_decide_eq_true_2 (accountability_dimension _ = _)) by done.
    rewrite (bool_decide_eq_true_2 (dr_dimension r = _)) in Hu by done.
    rewrite <- Heq, existsb_take_dims in Hu by done.
    simpl in Hu. apply IH in Hu as (r' & H1 & H2 & H3 & H4); [|by rewrite incorporate_one_dims].
    exists r'. by rewrite H3.
  - rewrite (bool_decide_eq_false_2 (accountability_dimension _ = _)) by congruence.
    rewrite (bool_decide_eq_false_2 (dr_dimension r = _)) in Hu by done.
    simpl in Hu. apply IH in Hu as (r' & H1 & H2 & H3 & H4); [|by rewrite incorporate_one_dims].
    exists r'. by rewrite H3.
Qed.

Lemma incorporate_fold_length ds xs : length (fold_left incorporate_one xs ds) = length ds.
Proof.
  revert ds. induction xs as [|x xs IH]; intros ds; simpl; [done|].
  rewrite IH. pose proof (f_equal length (incorporate_one_dims ds x)) as H.
  by rewrite !length_map in H.
Qed.

(** ** Lemmas: requirements *)

(** What a policy asks of one reading. *)
Definition acceptable (q : AssuranceRequirement) (x : DimensionAssurance) : Prop :=
  status x <> NotSatisfied /\ (rule q (dimension x) = MustBeSatisfied -> status x = Satisfied).

Definition tolerated (q : AssuranceRequirement) (x : DimensionAssurance) : Prop :=
  rule q (dimension x) = MayBeIndeterminate /\ status x <> NotSatisfied /\ status x <> Satisfied.

Global Instance acceptable_dec q x : Decision (acceptable q x).
Proof. unfold acceptable. apply _. Defined.
Global Instance tolerated_dec q x : Decision (tolerated q x).
Proof. unfold tolerated. apply _. Defined.

Lemma evaluate_step_spec q s a x :
  evaluate_step q (s, a) x =
  (s ++ (if decide (acceptable q x) then [] else [shortfall_entry q x]),
   a ++ (if decide (tolerated q x) then [shortfall_entry q x] else [])).
Proof.
  unfold evaluate_step. repeat case_decide; unfold acceptable, tolerated in *;
    destruct (rule q (dimension x)) eqn:Hr, (status x) eqn:Hs;
    rewrite ?app_nil_r; try done; naive_solver.
Qed.

Lemma evaluate_fold q xs s a :
  fold_left (evaluate_step q) xs (s, a) =
  (s ++ map (shortfall_entry q) (filter (fun x => ~ acceptable q x) xs),
   a ++ map (shortfall_entry q) (filter (tolerated q) xs)).
Proof.
  revert s a. induction xs as [|x xs IH]; intros s a; cbn [fold_left].
  - by rewrite !app_nil_r.
  - rewrite evaluate_step_spec, IH, !filter_cons.
    repeat case_decide; try tauto; simpl; rewrite ?app_nil_r, <- ?app_assoc; done.
Qed.

Lemma is_met_iff q r :
  is_met (evaluate q r) = true <-> Forall (acceptable q) (dimensions r).
Proof.
  unfold is_met, evaluate. rewrite evaluate_fold. cbn [app shortfalls].
  induction (dimensions r) as [|x xs IH]; simpl; [naive_solver|].
  rewrite filter_cons, Forall_cons. case_decide; simpl; naive_solver.
Qed.

(** ** Lemmas: canonical forms *)

#[export] Instance pf_pdimension_tag : PrefixFree (fun _ => True) (fun d => [pdimension_tag d]).
Proof. apply pf_tag. by intros [] []. Qed.
#[export] Instance pf_proof_kind : PrefixFree (fun _ => True) (fun d => [proof_kind_tag d]).
Proof. apply pf_tag. by intros [] []. Qed.
#[export] Instance pf_trust_mode : PrefixFree (fun _ => True) (fun d => [trust_mode_tag d]).
Proof. apply pf_tag. by intros [] []. Qed.
#[export] Instance pf_claim : PrefixFree (fun _ => True) (fun d => [claim_tag d]).
Proof. apply pf_tag. by intros [] []. Qed.

#[export] Instance pf_reason :
  PrefixFree (fun _ => True) (fun c => push_text (reason_registry_id c)).
Proof.
  intros c d k l _ _ H. apply prefix_free in H as [H ->]; [|by destruct c|by destruct d].
  split; [|done]. clear -H. by destruct c, d.
Qed.

Definition provider_fits (p : ProofProvider) : Prop :=
  text_fits (provider_id p) /\ opt_ok text_fits (provider_chain_id p).

#[export] Instance pf_provider : PrefixFree provider_fits provider_bytes.
Proof.
  intros x y k l [Hx1 Hx2] [Hy1 Hy2] H. unfold provider_bytes in H. rewrite <- !app_assoc in H.
  apply (prefix_free (enc := push_text)) in H as [E1 H]; [|done|done].
  apply (prefix_free (enc := push_option push_text)) in H as [E2 H]; [|done|done].
  apply (prefix_free (enc := fun d => [proof_kind_tag d])) in H as [E3 H]; [|done|done].
  apply (prefix_free (enc := fun d => [trust_mode_tag d])) in H as [E4 H]; [|done|done].
  destruct x, y; simpl in *. by subst.
Qed.

Definition reading_fits (x : DimensionAssurance) : Prop :=
  fits (reason_codes x) /\ provider_fits (provider x) /\ list_ok text_fits (limitations x).

#[export] Instance pf_reading : PrefixFree reading_fits reading_bytes.
Proof.
  intros x y k l (Hx1 & Hx2 & Hx3) (Hy1 & Hy2 & Hy3) H. unfold reading_bytes in H.
  rewrite <- !app_assoc in H.
  apply (prefix_free (enc := fun d => [pdimension_tag d])) in H as [E1 H]; [|done|done].
  apply (prefix_free (enc := fun d => [status_tag d])) in H as [E2 H]; [|done|done].
  apply (prefix_free (enc := push_list (fun c => push_text (reason_registry_id c))))
    in H as [E3 H]; [|by split; [|apply Forall_true]..].
  apply (prefix_free (enc := provider_bytes)) in H as [E4 H]; [|done|done].
  apply (prefix_free (enc := push_list push_text)) in H as [E5 H]; [|done|done].
  destruct x, y; simpl in *. by subst.
Qed.

Definition attestation_fits (a : ChainNativeProofAttestation) : Prop :=
  text_fits (att_provider_id a) /\ text_fits (att_chain_id a) /\ fits (claims a) /\
  opt_ok text_fits (detail a).

#[export] Instance pf_attestation : PrefixFree attestation_fits attestation_bytes.
Proof.
  intros x y k l (Hx1 & Hx2 & Hx3 & Hx4) (Hy1 & Hy2 & Hy3 & Hy4) H.
  unfold attestation_bytes in H. rewrite <- !app_assoc in H.
  apply (prefix_free (enc := push_text)) in H as [E1 H]; [|done|done].
  apply (prefix_free (enc := push_text)) in H as [E2 H]; [|done|done].
  apply (prefix_free (enc := push_list (fun c => [claim_tag c])))
    in H as [E3 H]; [|by split; [|apply Forall_true]..].
  apply (prefix_free (enc := push_option push_text)) in H as [E4 H]; [|done|done].
  destruct x, y; simpl in *. by subst.
Qed.

Definition assessment_fits (s : ChainNativeProofAssessment) : Prop :=
  match s with NotSupplied => True | AssessAttested a | AssessRejected a => attestation_fits a end.

#[export] Instance pf_assessment : PrefixFree assessment_fits assessment_bytes.
Proof.
  intros [|a|a] [|b|b] k l Hx Hy H; try discriminate H.
  - by apply (app_inv_head [Byte.x00]) in H.
  - apply (app_inv_head [Byte.x01]), (prefix_free (enc := attestation_bytes)) in H as [-> ->]; done.
  - apply (app_inv_head [Byte.x02]), (prefix_free (enc := attestation_bytes)) in H as [-> ->]; done.
Qed.

(** ** Properties *)

(** the builder always yields a complete report.  Whatever is recorded, in
    whatever order, [build] gives exactly one reading per dimension in dimension
    order: the last recorded for it, or "not evaluated", which is Indeterminate.
    Looking a dimension up therefore never fails. *)
Theorem report_build_complete (ctx : Hash) (rs : list DimensionAssurance) :
  let rep := build (record_all (builder_new ctx) rs) in
  report_ok rep /\ verification_context_digest rep = ctx /\
  (forall d, exists x, reading rep d = Some x /\ dimension x = d /\
     match last_reading rs d with
     | Some y => x = y
     | None => x = not_evaluated d (default_proof_kind d) /\ status x = Indeterminate
     end).
Proof.
  cbv zeta. split; [apply build_ok|]. split; [by apply record_all_context|].
  intros d. exists (built (record_all (builder_new ctx) rs) d).
  split; [apply build_reading|]. split; [apply built_dimension|].
  unfold built. rewrite find_record_all. by destruct (last_reading rs d).
Qed.

(** a policy is met exactly when no reading has failed and every dimension it
    insists on is Satisfied.  No policy can waive a failed dimension; the
    tolerated readings are exactly those neither satisfied nor failed under a
    may-be-indeterminate rule, and they are all reported. *)
Theorem requirement_evaluate_spec (q : AssuranceRequirement) (r : ProtocolAssuranceReport) :
  (is_met (evaluate q r) = true <->
     forall x, x ∈ dimensions r -> status x <> NotSatisfied /\
       (rule q (dimension x) = MustBeSatisfied -> status x = Satisfied)) /\
  accepted_limitations (evaluate q r) =
    map (shortfall_entry q) (filter (tolerated q) (dimensions r)) /\
  out_context_digest (evaluate q r) = verification_context_digest r.
Proof.
  split; [by rewrite is_met_iff, Forall_forall|].
  unfold evaluate. by rewrite evaluate_fold.
Qed.

(** The display level never overstates a well-formed report.  A full or
    consensus level is shown exactly when every foundational dimension is
    Satisfied, and the Merkle level otherwise only when anchor inclusion is. *)
Theorem display_level_spec (r : ProtocolAssuranceReport) :
  report_ok r ->
  exists v, display_level r = Some v /\
    ((v = FullyVerified \/ v = ConsensusVerified) <->
       forall x, x ∈ dimensions r -> dimension x <> Freshness -> status x = Satisfied) /\
    (v = ConsensusVerified <-> forall x, x ∈ dimensions r -> status x = Satisfied) /\
    (v = MerkleVerified -> exists x, x ∈ dimensions r /\ dimension x = AnchorInclusion /\
                                status x = Satisfied).
Proof.
  intros Hok. destruct (report_ok_reading r AnchorInclusion Hok) as (xa & Ha & Hda & Hina).
  destruct (report_ok_reading r Freshness Hok) as (xf & Hf & Hdf & Hinf).
  assert (Hfs : foundational_shortfalls r = [] <->
    forall x, x ∈ dimensions r -> dimension x <> Freshness -> status x = Satisfied).
  { unfold foundational_shortfalls. rewrite <- Forall_forall.
    clear Hina Hinf. induction (dimensions r) as [|x xs IH]; simpl; [naive_solver|].
    rewrite Forall_cons. unfold is_satisfied. destruct (decide (dimension x = Freshness)) as [->|Hd].
    - simpl. rewrite IH. naive_solver.
    - assert (is_foundational (dimension x) = true) as -> by (by destruct (dimension x)).
      case_bool_decide; simpl; rewrite ?IH; naive_solver. }
  assert (Hff : (status xf = Satisfied /\ foundational_shortfalls r = []) <->
    forall x, x ∈ dimensions r -> status x = Satisfied).
  { rewrite Hfs. split; [|naive_solver]. intros [Hx Hall] x Hin.
    destruct (decide (dimension x = Freshness)) as [Hd|Hd]; [|by apply Hall].
    apply report_ok_elem in Hin; [|done]. rewrite Hd, Hf in Hin. by injection Hin as <-. }
  unfold display_level. rewrite Ha, Hf. cbn. unfold is_satisfied.
  destruct (foundational_shortfalls r) as [|y ys]; case_bool_decide as Hs;
    eexists; (split; [done|]); naive_solver.
Qed.

(** folding a report into a valid profile never strengthens it.  Each entry's
    status becomes the weakest of its own and of the readings of its dimension, in the
    order NotSatisfied, Indeterminate, Satisfied, NotApplicable; entries, evidence and
    levels are otherwise unchanged, and an invalid profile is returned as it was. *)
Theorem incorporate_never_strengthens (rep : ProtocolAssuranceReport) (p : AssuranceProfile) :
  length (profile_dimensions (incorporate_into rep p)) = length (profile_dimensions p) /\
  (profile_validate p <> Ok tt -> incorporate_into rep p = p) /\
  (profile_validate p = Ok tt -> forall i r, profile_dimensions p !! i = Some r ->
     let read := List.filter (fun x => bool_decide
         (accountability_dimension (dimension x) = dr_dimension r)) (dimensions rep) in
     exists r', profile_dimensions (incorporate_into rep p) !! i = Some r' /\
       dr_dimension r' = dr_dimension r /\
       weakest (dr_status r') (dr_status r :: map status read) /\
       supporting_evidence_refs r' = supporting_evidence_refs r /\
       assurance_level r' = assurance_level r).
Proof.
  unfold incorporate_into. destruct (profile_validate p) as [[]|e] eqn:E; [|naive_solver].
  split; [apply incorporate_fold_length|]. split; [done|]. intros _ i r Hi. cbv zeta.
  apply profile_validate_ok in E as [Hd _].
  destruct (incorporate_fold_lookup _ (dimensions rep) i r Hd Hi) as (r' & H1 & H2 & H3 & H4 & H5).
  exists r'. split; [done|]. split; [done|]. split; [|done]. rewrite H3. apply weaken_all_weakest.
Qed.

(** a report digest binds the context and every reading.  Two reports with
    the same digest have the same context digest and the same dimensions, or the
    two strings hashed for them collide. *)
Theorem report_digest_binds (sha256 : bytes -> Bytes32) (r s : ProtocolAssuranceReport) :
  report_ok r -> report_ok s ->
  Forall reading_fits (dimensions r) -> Forall reading_fits (dimensions s) ->
  report_digest sha256 r = report_digest sha256 s ->
  (verification_context_digest r = verification_context_digest s /\ dimensions r = dimensions s)
  \/ collision_in sha256 [report_preimage sha256 r; report_preimage sha256 s].
Proof.
  intros Hr Hs Fr Fs H. unfold report_digest, report_preimage in *. hash_inj H. left.
  apply (prefix_free (enc := b32)) in H as [E1 H]; [|done|done]. split; [done|].
  assert (Hfit : forall t, report_ok t -> fits (dimensions t)).
  { intros t Ht. unfold fits, blen. rewrite <- (length_map dimension), Ht. done. }
  apply (prefix_free_inj (list_ok reading_fits) (push_list reading_bytes)) in H; [done| |];
    split; auto.
Qed.

(** ** Witnesses *)

Definition demo_report : ProtocolAssuranceReport :=
  build (record (builder_new zero32)
           (reading_new AnchorInclusion Satisfied [InclusionAttestedByProvider]
              (provider_attested "node" (Some "bitcoin"%string) MerkleInclusion) [])).

Lemma display_level_spec_witness : display_level demo_report = Some MerkleVerified.
Proof.
  destruct (display_level_spec demo_report eq_refl) as (v & Hv & _).
  rewrite Hv. vm_compute in Hv. by injection Hv as <-.
Defined.

Definition text_fitsb (s : string) : bool := (slen s <=? u32_max)%N.
Definition reading_fitsb (x : DimensionAssurance) : bool :=
  (blen (reason_codes x) <=? u32_max)%N && text_fitsb (provider_id (provider x)) &&
  (match provider_chain_id (provider x) with Some c => text_fitsb c | None => true end) &&
  (blen (limitations x) <=? u32_max)%N && forallb text_fitsb (limitations x).

Lemma reading_fitsb_spec x : reading_fitsb x = true -> reading_fits x.
Proof.
  unfold reading_fitsb, reading_fits, provider_fits, list_ok, fits, text_fits, text_fitsb.
  rewrite !andb_true_iff, !N.leb_le, forallb_forall, Forall_forall.
  intros ((((H1 & H2) & H3) & H4) & H5).
  split; [done|]. split; [split; [done|]|split; [done|]].
  - intros c Hc. rewrite Hc in H3. by apply N.leb_le.
  - intros y Hy%list_elem_of_In. by apply N.leb_le, H5.
Qed.

Lemma report_digest_binds_witness :
  dimensions demo_report = dimensions demo_report \/
  collision_in toy_hash [report_preimage toy_hash demo_report; report_preimage toy_hash demo_report].
Proof.
  assert (H : Forall reading_fits (dimensions demo_report)).
  { apply (Forall_impl (fun x => reading_fitsb x = true)); [|apply reading_fitsb_spec].
    apply Forall_forall. intros x Hx%list_elem_of_In. revert x Hx. apply forallb_forall.
    vm_compute. reflexivity. }
  destruct (report_digest_binds toy_hash demo_report demo_report eq_refl eq_refl H H eq_refl)
    as [[_ E]|E]; [left; exact E|right; exact E].
Defined.
