(* ===== verification/Verifier.v ===== *)
(** * The canonical verifier (csv-verifier/src/verifier.rs)

    Seven readings over a proof bundle, under a runtime context
    ([verify_proof_bundle]) or the smaller offline one ([verify_proof_bound]),
    and the digest of the context they were taken in.  Verification is total: bad
    material gives a reading, never an error. *)

From S2P Require Import Prelude Ord Bytes Hashing Dag DagCodec Text Seal.
From S2P Require Import ProofTaxonomy Signature Reference Accountability Assurance.

(** ** Messages *)

(** [Display for Hash]: a shortened form. *)
Definition hash_display (h : Hash) : string :=
  "0x" +:+ of_bytes (take 8 (Hash.to_hex h)) +:+ "…".

(** [Debug for Hash] *)
Definition hash_debug (h : Hash) : string := "Hash(0x" +:+ of_bytes (Hash.to_hex h) +:+ ")".

(** [Display for DagStructureError] *)
Definition dag_error_message (e : DagStructureError) : string :=
  match e with
  | EmptySegment => "DAG segment is empty"
  | DuplicateNodeId n => "duplicate node identifier " +:+ hash_display n
  | NodeIdMismatch d r => "node identifier " +:+ hash_display d +:+
      " does not match its canonical contents " +:+ hash_display r
  | SelfParent n => "node " +:+ hash_display n +:+ " lists itself as parent"
  | DuplicateParent n p => "node " +:+ hash_display n +:+ " lists parent " +:+ hash_display p +:+
      " more than once"
  | MissingParent n p => "node " +:+ hash_display n +:+ " references absent parent " +:+
      hash_display p
  | Cycle n => "DAG contains a cycle through node " +:+ hash_display n
  | NoRoot => "DAG segment has no root node"
  | NonCanonicalOrder i e f => "non-canonical node order at index " +:+ show_nat i +:+
      ": expected " +:+ hash_display e +:+ ", found " +:+ hash_display f
  | RootMismatch d r => "root commitment " +:+ hash_display d +:+
      " does not match the canonical node set " +:+ hash_display r
  end.

(** [Display for VerificationErrorCode] *)
Definition error_code_text (c : VerificationErrorCode) : string :=
  match c with
  | ESealReplay => "SEAL_REPLAY" | ESignatureInvalid => "SIGNATURE_INVALID"
  | EInclusionProofInvalid => "INCLUSION_PROOF_INVALID"
  | EFinalityNotReached => "FINALITY_NOT_REACHED" | EDomainMismatch => "DOMAIN_MISMATCH"
  | EMalformedProof => "MALFORMED_PROOF" | EProofTooLarge => "PROOF_TOO_LARGE"
  | EAnchorInvalid => "ANCHOR_INVALID" | EInternalError => "INTERNAL_ERROR"
  end.

(** ** Configuration and contexts *)

Definition MAX_PROOF_BUNDLE_SIZE : N := 1048576.
Definition MIN_REQUIRED_CONFIRMATIONS : N := 6.

Record VerifierConfig := mkConfig {
  max_proof_bundle_size : N;
  min_required_confirmations : N;
  max_anchor_age_blocks : option N
}.

Definition default_config : VerifierConfig :=
  mkConfig MAX_PROOF_BUNDLE_SIZE MIN_REQUIRED_CONFIRMATIONS None.

Record ChainVerificationData := mkChainData {
  cd_block_header : option bytes;
  cd_merkle_proof : option bytes;
  cd_finality_proof : option bytes;
  cd_additional : option bytes
}.

Record VerificationContext := mkContext {
  chain_id : string;
  ctx_scheme : SignatureScheme;
  required_confirmations : N;
  current_block_height : option N;
  seal_registry : option (bytes -> bool);
  chain_data : option ChainVerificationData;
  chain_native_proof : ChainNativeProofAssessment;
  ctx_sanad_id : option Hash;
  lock_tx : option bytes;
  lock_output_index : option N;
  ctx_transition_id : option bytes;
  ctx_destination_chain : option string;
  authorized_signers : list bytes
}.

Record ExpectedDomain := mkExpected {
  exp_sanad_id : option Bytes32;
  exp_source_chain : option string;
  observed_source_tip : option N;
  exp_max_anchor_age : option N
}.

Inductive SealRegistryStatus := Available | Consumed | CheckFailed (m : string).
Inductive DagIdentityRule := Recompute | Deferred.

Definition OBSERVED_TIP_PROVIDER_ID : string := "context.observed-source-tip".
Definition RUNTIME_VERIFICATION_PROFILE_ID : string := "parwana.csv-verifier.proof-bundle.v1".
Definition OFFLINE_VERIFICATION_PROFILE_ID : string := "parwana.csv-verifier.proof-bound.v1".

Definition signature_scheme_tag (s : SignatureScheme) : N :=
  match s with Secp256k1 => 1 | Ed25519 => 2 | MlDsa65 => 3 end.

(** ** Checks *)

(** [validate_proof_bundle_size_with]: the estimate.  Of a node's witnesses it
    adds their number. *)
Definition node_size (n : DAGNode) : N :=
  (32 + blen (bytecode n) + blen (witnesses n) + total_len (Dag.signatures n)
   + 32 * blen (parents n))%N.

Definition bundle_size (b : ProofBundle) : N :=
  (32 + foldr (fun n acc => node_size n + acc) 0 (nodes (transition_dag b))
   + total_len (bundle_signatures b) + blen (seal_id (seal_ref b))
   + blen (anchor_id (anchor_ref b)) + blen (anchor_metadata (anchor_ref b))
   + blen (proof_bytes (inclusion_proof b)) + blen (finality_data (finality_proof b)))%N.

Definition validate_proof_bundle_size_with (b : ProofBundle) (max : N)
  : result ProtocolError unit :=
  reject (max <? bundle_size b)%N with Generic
    ("Proof bundle too large: " +:+ pretty (bundle_size b) +:+ " bytes (max " +:+
     pretty max +:+ ")") ;;
  Ok tt.

Definition validate_inclusion_proof (p : InclusionProof) : result ProtocolError unit :=
  reject (blen (proof_bytes p) =? 0)%N with InclusionProofFailed "Empty inclusion proof" ;;
  reject (MAX_PROOF_BYTES <? blen (proof_bytes p))%N with InclusionProofFailed
    ("Inclusion proof too large: " +:+ pretty (blen (proof_bytes p)) +:+ " bytes (max " +:+
     pretty MAX_PROOF_BYTES +:+ ")") ;;
  reject (bool_decide (inc_block_hash p = Hash.zero)) with InclusionProofFailed
    "Invalid inclusion proof: block hash is zero" ;;
  Ok tt.

Definition validate_finality_proof (p : FinalityProof) : result ProtocolError unit :=
  reject (confirmations p <? MIN_REQUIRED_CONFIRMATIONS)%N with FinalityNotReached
    ("Insufficient confirmations: " +:+ pretty (confirmations p) +:+ " (minimum required: " +:+
     pretty MIN_REQUIRED_CONFIRMATIONS +:+ ")") ;;
  reject (blen (finality_data p) =? 0)%N with FinalityNotReached "Empty finality proof" ;;
  reject (MAX_FINALITY_DATA <? blen (finality_data p))%N with FinalityNotReached
    ("Finality proof too large: " +:+ pretty (blen (finality_data p)) +:+ " bytes (max " +:+
     pretty MAX_FINALITY_DATA +:+ ")") ;;
  Ok tt.

Definition validate_anchor_reference (b : ProofBundle) : result ProtocolError unit :=
  reject (block_height (anchor_ref b) =? 0)%N with Generic "Invalid anchor: block height is 0" ;;
  reject (negb (block_height (anchor_ref b) =? block_number (inclusion_proof b))%N)
    with InclusionProofFailed "anchor height does not match inclusion proof block" ;;
  reject ((blen (anchor_metadata (anchor_ref b)) =? 0)%N
          || negb (bool_decide (anchor_metadata (anchor_ref b) = proof_bytes (inclusion_proof b))))
    with InclusionProofFailed "anchor metadata does not bind the inclusion proof" ;;
  Ok tt.

Definition source_mismatch (found expected : string) : ProtocolError :=
  Generic ("Domain binding failed: proof source chain '" +:+ found +:+
           "' does not match expected '" +:+ expected +:+ "'").

Definition sanad_mismatch : ProtocolError :=
  Generic "Domain binding failed: proof anchor does not match the expected Sanad".

Definition sanad_differs (b : ProofBundle) (s : option Bytes32) : bool :=
  match s with
  | Some id => negb (bool_decide (anchor_id (anchor_ref b) = b32 id))
  | None => false
  end.

Definition validate_context_binding (b : ProofBundle) (c : VerificationContext)
  : result ProtocolError unit :=
  let src := inc_source (inclusion_proof b) in
  reject (sanad_differs b (ctx_sanad_id c)) with sanad_mismatch ;;
  reject (negb (str_empty src) && negb (str_empty (chain_id c))
          && negb (bool_decide (src = chain_id c)))
    with source_mismatch src (chain_id c) ;;
  Ok tt.

Definition validate_expected_domain (b : ProofBundle) (e : ExpectedDomain)
  : result ProtocolError unit :=
  let src := inc_source (inclusion_proof b) in
  reject (sanad_differs b (exp_sanad_id e)) with sanad_mismatch ;;
  match exp_source_chain e with
  | Some chain => if negb (str_empty src) && negb (bool_decide (src = chain))
                  then Err (source_mismatch src chain) else Ok tt
  | None => Ok tt
  end.

(** ** Readings *)

Definition not_satisfied (d : ProtocolAssuranceDimension) (reason : ProtocolReasonCode)
    (k : ProofKind) (text : string) : DimensionAssurance :=
  reading_new d NotSatisfied [reason] (provider_local k) [text].

(** [": detail"], or nothing. *)
Definition detail_suffix (a : ChainNativeProofAttestation) : string :=
  match detail a with Some d => ": " +:+ d | None => "" end.

Section Readings.
Variable sha256 : bytes -> Bytes32.
Variable c : SigCrates.

Definition structure_reading (b : ProofBundle) (max : N) (dag_rule : DagIdentityRule)
  : DimensionAssurance :=
  let bad reason text := not_satisfied CanonicalStructure reason CanonicalRules text in
  match validate_proof_bundle_size_with b max with
  | Err e => bad BundleTooLarge (error_message e)
  | Ok _ =>
  match validate_relations (transition_dag b) with
  | Err e => bad DagStructureInvalid ("invalid DAG structure: " +:+ dag_error_message e)
  | Ok _ =>
  match (match dag_rule with
         | Recompute => validate_structure sha256 (transition_dag b) | Deferred => Ok tt end) with
  | Err e => bad DagStructureInvalid ("invalid DAG structure: " +:+ dag_error_message e)
  | Ok _ =>
  if (blen (seal_id (seal_ref b)) =? 0)%N
  then bad SealReferenceMissing "seal reference is empty"%string
  else
  match validate_anchor_reference b with
  | Err e => bad AnchorReferenceInvalid (error_message e)
  | Ok _ =>
  match dag_rule with
  | Recompute => reading_new CanonicalStructure Satisfied [StructureValidated]
      (provider_local CanonicalRules)
      ["Structural validity says nothing about whether the asserted facts are true"%string]
  | Deferred => reading_new CanonicalStructure Indeterminate
      [StructureValidated; DagIdentityNotRecomputed] (provider_local CanonicalRules)
      [("Size, DAG relation (uniqueness, acyclicity, parent resolution, roots), " +:+
        "seal-reference and anchor-binding rules hold, but node identifiers and " +:+
        "the segment root were supplied rather than recomputed from contents, so " +:+
        "canonical order and root commitment were not checked " +:+
        "(PAR-DAG-001, PAR-DAG-002)")]
  end end end end end.

Definition transition_semantics_reading (binding : result ProtocolError unit)
    (transfer_binding : ChainNativeClaimReading) : DimensionAssurance :=
  match binding, transfer_binding with
  | Err e, _ => not_satisfied TransitionSemantics DomainBindingMismatch CanonicalRules
                  (error_message e)
  | Ok _, ReadRejected a => reading_new TransitionSemantics NotSatisfied
      [DomainBindingMismatch] (att_provider a CanonicalRules)
      [att_provider_id a +:+ " rejected the proof's binding to the transfer" +:+ detail_suffix a]
  | Ok _, r => reading_new TransitionSemantics Indeterminate
      [TransitionBindingVerified; ConsumedStateResolutionUnavailable]
      (match r with
       | ReadAttested a => att_provider a CanonicalRules
       | _ => provider_local CanonicalRules end)
      [("The bundle is bound to the transfer the context names, and consumed-state " +:+
        "resolution is implemented, but this V1 bundle supplies no parent-output " +:+
        "history to resolve against, so transition semantics remain undecided")]
  end.

(** [canonical_public_key] of csv-verifier *)
Definition v_canonical_public_key (key : bytes) (scheme : SignatureScheme) : bytes :=
  match scheme with
  | Secp256k1 => match secp_pubkey c key with Ok pk => pk | Err _ => key end
  | _ => key
  end.

(** The loop of csv-verifier's [verify_bundle_signatures]: each blob is split
    and its key checked before the next is looked at. *)
Fixpoint v_parse_blobs (i : nat) (authorized : list bytes) (scheme : SignatureScheme)
    (msg : bytes) (blobs : list bytes) : result ProtocolError (list Signature) :=
  match blobs with
  | [] => Ok []
  | blob :: blobs' =>
      '(pk, sg) ← split_blob
        (SignatureVerificationFailed ("Signature " +:+ show_nat i +:+ " too short for header"))
        (fun _ => SignatureVerificationFailed
           ("Signature " +:+ show_nat i +:+ " too short for public key")) blob;
      reject (negb (bool_decide (authorized = []))
              && negb (bool_decide (v_canonical_public_key pk scheme ∈ authorized)))
        with SignatureVerificationFailed ("Signature " +:+ show_nat i +:+
               " public key is not in the approved verifier set") ;;
      (rest ← v_parse_blobs (S i) authorized scheme msg blobs';
       Ok (mkSignature sg pk msg :: rest))
  end.

(** [verify_bundle_signatures] of csv-verifier *)
Definition v_verify_bundle_signatures (b : ProofBundle) (scheme : SignatureScheme)
    (signers : list bytes) : result ProtocolError unit :=
  reject (Nat.eqb (length (bundle_signatures b)) 0)
    with SignatureVerificationFailed "No signatures in proof bundle" ;;
  sigs ← v_parse_blobs 0 (map (fun k => v_canonical_public_key k scheme) signers) scheme
           (b32 (Dag.root_commitment (transition_dag b))) (bundle_signatures b);
  verify_signatures c sigs scheme.

Definition authorization_reading (b : ProofBundle) (scheme : SignatureScheme)
    (signers : list bytes) : DimensionAssurance :=
  match bundle_signatures b with
  | [] => not_satisfied Authorization SignaturesAbsent DigitalSignature
            "proof bundle carries no signatures"
  | _ =>
  match v_verify_bundle_signatures b scheme signers with
  | Err e => not_satisfied Authorization SignatureInvalid DigitalSignature (error_message e)
  | Ok _ =>
  match signers with
  | [] => reading_new Authorization Indeterminate [SignaturesVerified; SignerSetUnbound]
      (provider_local DigitalSignature)
      [("Signatures verify against keys the sender chose; no approved verifier set " +:+
        "was supplied to bind them to an authorized signer")]
  | _ => reading_new Authorization Satisfied [SignaturesVerified]
      (provider_local DigitalSignature)
      ["Every signature verified against one of " +:+ show_nat (length signers) +:+
       " approved verifier keys"]
  end end end.
End Readings.

Definition inclusion_reading (p : InclusionProof) (anchor : CommitAnchor)
    (assessment : ChainNativeProofAssessment) : DimensionAssurance :=
  if (blen (anchor_id anchor) =? 0)%N
  then not_satisfied AnchorInclusion InclusionProofMalformed MerkleInclusion "anchor_id is empty"
  else
  match validate_inclusion_proof p with
  | Err e => not_satisfied AnchorInclusion InclusionProofMalformed MerkleInclusion (error_message e)
  | Ok _ =>
  match claim_reading assessment ClaimAnchorInclusion with
  | ReadRejected a => reading_new AnchorInclusion NotSatisfied [InclusionRejectedByProvider]
      (att_provider a MerkleInclusion)
      [att_provider_id a +:+ " rejected the inclusion material" +:+ detail_suffix a]
  | ReadAttested a => reading_new AnchorInclusion Satisfied [InclusionAttestedByProvider]
      (att_provider a MerkleInclusion)
      ["Inclusion was asserted by " +:+ att_provider_id a +:+ " against " +:+ att_chain_id a +:+
       "; the pure verifier did not recompute it and cannot, having no chain access"]
  | ReadAbsent => reading_new AnchorInclusion Indeterminate
      [InclusionNotCryptographicallyVerified] (provider_unverified MerkleInclusion)
      [("The inclusion proof is well formed, which is not evidence that the anchor " +:+
        "is in the chain; no chain-native provider verified it")]
  end end.

(** [tip.saturating_sub(anchor_height)] is [N.sub]. *)
Definition finality_reading (p : FinalityProof) (anchor_height required : N)
    (observed_tip : option N) (assessment : ChainNativeProofAssessment) : DimensionAssurance :=
  match validate_finality_proof p with
  | Err e => not_satisfied FinalityCheckpoint FinalityProofMalformed ConfirmationDepth
               (error_message e)
  | Ok _ =>
  let claim := claim_reading assessment ClaimCheckpointFinality in
  match claim with
  | ReadRejected a => reading_new FinalityCheckpoint NotSatisfied [CheckpointRejectedByProvider]
      (att_provider a ConfirmationDepth)
      [att_provider_id a +:+ " rejected the finality material" +:+ detail_suffix a]
  | _ =>
  if match observed_tip with
     | Some tip => (tip - anchor_height <? required)%N | None => false end
  then not_satisfied FinalityCheckpoint ConfirmationDepthNotMet ConfirmationDepth
         (pretty (default 0 observed_tip - anchor_height)%N +:+ " confirmations, need " +:+
          pretty required)
  else
  match claim, observed_tip with
  | ReadAttested a, _ => reading_new FinalityCheckpoint Satisfied [CheckpointAttestedByProvider]
      (att_provider a ConfirmationDepth)
      ["Checkpoint finality was asserted by " +:+ att_provider_id a +:+ " against " +:+
       att_chain_id a +:+ "; trust in this reading is trust in that provider's chain view"]
  | _, Some tip => reading_new FinalityCheckpoint Satisfied [CheckpointAttestedByProvider]
      (provider_attested OBSERVED_TIP_PROVIDER_ID None ConfirmationDepth)
      ["Depth was recomputed against a context-supplied observed tip (" +:+ pretty tip +:+
       "); the tip itself is an input this verifier cannot check"]
  | _, None => reading_new FinalityCheckpoint Indeterminate [CheckpointUnobserved]
      (provider_unverified ConfirmationDepth)
      [("No observed source-chain tip and no provider checkpoint, so confirmation " +:+
        "depth could not be established")]
  end end end.

Definition source_closure_reading (replay : option bool) : DimensionAssurance :=
  match replay with
  | Some true => reading_new SourceClosure NotSatisfied [Assurance.ReplayDetected]
      (provider_local ReplayRegistryKind)
      ["The source seal is already recorded as consumed"%string]
  | Some false => reading_new SourceClosure Indeterminate
      [ReplayRegistryClean; SourceClosureNotExternallyGrounded]
      (provider_local ReplayRegistryKind)
      [("A local replay registry is not a shared ordering: it shows this holder has " +:+
        "not seen a conflicting spend, not that none exists (PAR-BTC-002)")]
  | None => reading_new SourceClosure Indeterminate
      [ReplayRegistryAbsent; SourceClosureNotExternallyGrounded]
      (provider_unverified SourceSealClosure)
      [("No replay registry was supplied and closure is not grounded on a shared " +:+
        "ordering, so uniqueness of this successor is unknown (PAR-BTC-002)")]
  end.

Definition freshness_reading (anchor_height : N) (observed_tip max_age : option N)
  : DimensionAssurance :=
  match observed_tip, max_age with
  | Some tip, Some max =>
      if (tip =? u64_max)%N then
        reading_new Freshness NotApplicable [FreshnessNotMeasuredInBlocks]
          (provider_attested OBSERVED_TIP_PROVIDER_ID None ObservedChainTip)
          [("The chain reports instant finality, so anchor age is not measured " +:+
            "in blocks and no staleness bound applies")]
      else match checked_sub64 tip anchor_height with
      | None => not_satisfied Freshness FreshnessContextIncomplete ObservedChainTip
          ("observed source tip " +:+ pretty tip +:+ " is below anchor height " +:+
           pretty anchor_height)
      | Some age =>
          if (max <? age)%N then not_satisfied Freshness AnchorStale ObservedChainTip
            ("anchor is " +:+ pretty age +:+ " blocks below tip, exceeds max age " +:+ pretty max)
          else reading_new Freshness Satisfied [WithinMaxAnchorAge]
            (provider_attested OBSERVED_TIP_PROVIDER_ID None ObservedChainTip)
            ["Anchor is " +:+ pretty age +:+ " blocks below a context-supplied tip, within the " +:+
             "configured bound of " +:+ pretty max]
      end
  | None, Some _ => reading_new Freshness Indeterminate [FreshnessContextIncomplete]
      (provider_unverified ObservedChainTip)
      [("A maximum anchor age is configured but no source-chain tip was observed, " +:+
        "so the anchor's age is unknown")]
  | _, None => reading_new Freshness Indeterminate [FreshnessBoundNotConfigured]
      (provider_unverified ObservedChainTip)
      [("No freshness bound is configured, so replay of an old but otherwise valid " +:+
        "proof cannot be excluded")]
  end.

(** ** Errors a reading adds to the report *)

Definition dimension_error_code (d : ProtocolAssuranceDimension) : VerificationErrorCode :=
  match d with
  | CanonicalStructure | TransitionSemantics => EMalformedProof
  | Authorization => ESignatureInvalid
  | AnchorInclusion => EInclusionProofInvalid
  | FinalityCheckpoint | Freshness => EFinalityNotReached
  | SourceClosure => ESealReplay
  end.

(** [record_dimension_error] *)
Definition record_dimension_error (b : ProtocolAssuranceReportBuilder) (x : DimensionAssurance)
  : ProtocolAssuranceReportBuilder :=
  match status x with
  | NotSatisfied =>
      record_error b (mkVerificationError (dimension_error_code (dimension x))
        (dimension_registry_id (dimension x) +:+ " [" +:+
         join ", " (map reason_registry_id (reason_codes x)) +:+ "]" +:+
         match limitations x with [] => "" | ls => ": " +:+ join "; " ls end)
        (bool_decide (ConfirmationDepthNotMet ∈ reason_codes x)))
  | _ => b
  end.

(** [record_dimension_error(..); builder.record(..)], the step every reading goes
    through. *)
Definition take_reading (b : ProtocolAssuranceReportBuilder) (x : DimensionAssurance)
  : ProtocolAssuranceReportBuilder := record (record_dimension_error b x) x.

(** ** The two entry points *)

(** [verify_seal_registry] *)
Definition verify_seal_registry (id : bytes) (ctx : VerificationContext)
  : result ProtocolError SealRegistryStatus :=
  match seal_registry ctx with
  | Some registry => if registry id then Ok Consumed else Ok Available
  | None => Ok (CheckFailed "no replay registry supplied")
  end.

(** [seal_replay_reading] *)
Definition seal_replay_reading (b : ProofBundle) (ctx : VerificationContext) : option bool :=
  match verify_seal_registry (seal_id (seal_ref b)) ctx with
  | Ok Consumed => Some true
  | Ok Available => Some false
  | Ok (CheckFailed _) | Err _ => None
  end.

Definition chain_data_fields (d : option ChainVerificationData) (buf : bytes) : bytes :=
  match d with
  | Some cd =>
      w_opt_bytes "chain_data.additional" (cd_additional cd)
        (w_opt_bytes "chain_data.finality_proof" (cd_finality_proof cd)
          (w_opt_bytes "chain_data.merkle_proof" (cd_merkle_proof cd)
            (w_opt_bytes "chain_data.block_header" (cd_block_header cd)
              (w_presence "chain_data" true buf))))
  | None => w_presence "chain_data" false buf
  end.

(** The fields of [runtime_context_digest] in the order they are written. *)
Definition runtime_context_buffer (cfg : VerifierConfig) (ctx : VerificationContext) : bytes :=
  let buf := writer_new RUNTIME_VERIFICATION_PROFILE_ID in
  let buf := w_text "chain_id" (chain_id ctx) buf in
  let buf := w_u64 "signature_scheme" (signature_scheme_tag (ctx_scheme ctx)) buf in
  let buf := w_u64 "required_confirmations" (required_confirmations ctx) buf in
  let buf := w_opt_u64 "current_block_height" (current_block_height ctx) buf in
  let buf := w_presence "seal_registry" (bool_decide (is_Some (seal_registry ctx))) buf in
  let buf := w_chain_native_proof "chain_native_proof" (chain_native_proof ctx) buf in
  let buf := w_opt_bytes "sanad_id" (b32 <$> ctx_sanad_id ctx) buf in
  let buf := w_opt_bytes "lock_tx" (lock_tx ctx) buf in
  let buf := w_opt_u64 "lock_output_index" (lock_output_index ctx) buf in
  let buf := w_opt_bytes "transition_id" (ctx_transition_id ctx) buf in
  let buf := w_opt_bytes "destination_chain" (as_bytes <$> ctx_destination_chain ctx) buf in
  let buf := w_byte_list "authorized_signers" (authorized_signers ctx) buf in
  let buf := w_u64 "config.max_proof_bundle_size" (max_proof_bundle_size cfg) buf in
  let buf := w_u64 "config.min_required_confirmations" (min_required_confirmations cfg) buf in
  let buf := w_opt_u64 "config.max_anchor_age_blocks" (max_anchor_age_blocks cfg) buf in
  chain_data_fields (chain_data ctx) buf.

(** [offline_context_digest], likewise. *)
Definition offline_context_buffer (scheme : SignatureScheme) (signers : list bytes)
    (e : ExpectedDomain) : bytes :=
  let buf := writer_new OFFLINE_VERIFICATION_PROFILE_ID in
  let buf := w_u64 "signature_scheme" (signature_scheme_tag scheme) buf in
  let buf := w_byte_list "authorized_signers" signers buf in
  let buf := w_opt_bytes "expected.sanad_id" (b32 <$> exp_sanad_id e) buf in
  let buf := w_opt_bytes "expected.source_chain" (as_bytes <$> exp_source_chain e) buf in
  let buf := w_opt_u64 "expected.observed_source_tip" (observed_source_tip e) buf in
  let buf := w_opt_u64 "expected.max_anchor_age_blocks" (exp_max_anchor_age e) buf in
  let buf := w_u64 "config.max_proof_bundle_size" MAX_PROOF_BUNDLE_SIZE buf in
  w_u64 "config.min_required_confirmations" MIN_REQUIRED_CONFIRMATIONS buf.

Section Verify.
Variable sha256 : bytes -> Bytes32.
Variable c : SigCrates.

Definition runtime_context_digest (cfg : VerifierConfig) (ctx : VerificationContext) : Hash :=
  writer_finish sha256 (runtime_context_buffer cfg ctx).
(** The string it hashes last. *)
Definition runtime_context_preimage (cfg : VerifierConfig) (ctx : VerificationContext) : bytes :=
  domain_preimage sha256 "csv.verification.context.v1" (runtime_context_buffer cfg ctx).
Definition offline_context_digest (scheme : SignatureScheme) (signers : list bytes)
    (e : ExpectedDomain) : Hash :=
  writer_finish sha256 (offline_context_buffer scheme signers e).

(** The readings of [verify_proof_bundle], in the order they are taken. *)
Definition runtime_readings (cfg : VerifierConfig) (b : ProofBundle) (ctx : VerificationContext)
  : list DimensionAssurance :=
  [ structure_reading sha256 b (max_proof_bundle_size cfg) Deferred;
    transition_semantics_reading (validate_context_binding b ctx)
      (claim_reading (chain_native_proof ctx) ClaimTransferBinding);
    authorization_reading c b (ctx_scheme ctx) (authorized_signers ctx);
    inclusion_reading (inclusion_proof b) (anchor_ref b) (chain_native_proof ctx);
    finality_reading (finality_proof b) (block_height (anchor_ref b))
      (required_confirmations ctx) (current_block_height ctx) (chain_native_proof ctx);
    source_closure_reading (seal_replay_reading b ctx);
    freshness_reading (block_height (anchor_ref b)) (current_block_height ctx)
      (max_anchor_age_blocks cfg) ].

(** [verify_proof_bundle] *)
Definition verify_proof_bundle (cfg : VerifierConfig) (b : ProofBundle)
    (ctx : VerificationContext) : ProtocolAssuranceReport :=
  build (fold_left take_reading (runtime_readings cfg b ctx)
           (builder_new (runtime_context_digest cfg ctx))).

(** The readings of [verify_proof_bound]. *)
Definition offline_readings (b : ProofBundle) (registry : bytes -> bool)
    (scheme : SignatureScheme) (signers : list bytes) (e : ExpectedDomain)
  : list DimensionAssurance :=
  [ structure_reading sha256 b MAX_PROOF_BUNDLE_SIZE Recompute;
    transition_semantics_reading (validate_expected_domain b e) ReadAbsent;
    authorization_reading c b scheme signers;
    inclusion_reading (inclusion_proof b) (anchor_ref b) NotSupplied;
    finality_reading (finality_proof b) (block_height (anchor_ref b))
      MIN_REQUIRED_CONFIRMATIONS (observed_source_tip e) NotSupplied;
    source_closure_reading (Some (registry (seal_id (seal_ref b))));
    freshness_reading (block_height (anchor_ref b)) (observed_source_tip e)
      (exp_max_anchor_age e) ].

(** [verify_proof_bound] *)
Definition verify_proof_bound (b : ProofBundle) (registry : bytes -> bool)
    (scheme : SignatureScheme) (signers : list bytes) (e : ExpectedDomain)
  : ProtocolAssuranceReport :=
  build (fold_left take_reading (offline_readings b registry scheme signers e)
           (builder_new (offline_context_digest scheme signers e))).

Definition default_expected : ExpectedDomain := mkExpected None None None None.

(** [verify_proof] *)
Definition verify_proof (b : ProofBundle) (registry : bytes -> bool)
    (scheme : SignatureScheme) (signers : list bytes) : ProtocolAssuranceReport :=
  verify_proof_bound b registry scheme signers default_expected.

(** [verify_proof_leaf]; [{hash_fn:?}] prints the constructor. *)
Definition hash_function_debug (f : HashFunction) : string :=
  match f with
  | Keccak256 => "Keccak256" | Sha256 => "Sha256" | Blake2b256 => "Blake2b256"
  | DoubleSha256 => "DoubleSha256" | Sha3_256 => "Sha3_256"
  end.

Definition verify_proof_leaf (crates : HashCrates) (l : ProofLeafV1) (expected : Hash)
  : DimensionAssurance :=
  let f := native_hash_function l in
  match hash_with_function crates l f with
  | Err e => not_satisfied CanonicalStructure InclusionProofMalformed CanonicalRules
               ("proof leaf hash could not be computed: " +:+ e)
  | Ok computed =>
      if bool_decide (computed = expected) then
        reading_new CanonicalStructure Satisfied [StructureValidated]
          (provider_local CanonicalRules)
          ["Recomputed with the source chain's native hash function (" +:+
           hash_function_debug f +:+ "); leaf identity only, not inclusion"]
      else not_satisfied CanonicalStructure InclusionProofMalformed CanonicalRules
        ("proof leaf hash mismatch: computed " +:+ hash_debug computed +:+ ", expected " +:+
         hash_debug expected +:+ " (using " +:+ hash_function_debug f +:+ ")")
  end.
End Verify.

(** ** Lemmas: from readings to the report *)

Lemma take_readings_readings xs b :
  b_readings (fold_left take_reading xs b) = b_readings (record_all b xs).
Proof.
  unfold record_all. revert b. induction xs as [|x xs IH]; intros b; simpl; [done|].
  rewrite IH. fold (record_all (take_reading b x) xs) (record_all (record b x) xs).
  assert (H : forall b b', b_readings b = b_readings b' ->
                b_readings (record_all b xs) = b_readings (record_all b' xs)).
  { unfold record_all. clear. induction xs as [|y ys IH]; intros b b' Hb; simpl; [done|].
    apply IH. unfold record. cbn [b_readings]. by rewrite Hb. }
  apply H. unfold take_reading, record, record_dimension_error.
  by destruct (status x).
Qed.

Lemma take_readings_context xs b :
  b_context_digest (fold_left take_reading xs b) = b_context_digest b.
Proof.
  revert b. induction xs as [|x xs IH]; intros b; simpl; [done|]. rewrite IH.
  unfold take_reading, record, record_dimension_error. by destruct (status x).
Qed.

Lemma last_reading_unique xs x :
  NoDup (map dimension xs) -> x ∈ xs -> last_reading xs (dimension x) = Some x.
Proof.
  unfold last_reading. intros Hnd Hx.
  assert (H : forall l, (forall y, y ∈ l -> y ∈ xs) -> x ∈ l ->
            List.find (fun y => bool_decide (dimension y = dimension x)) l = Some x).
  { induction l as [|y l IH]; intros Hl Hin; [by apply not_elem_of_nil in Hin|]. simpl.
    case_bool_decide as Hd.
    - f_equal. apply list_elem_of_lookup in Hx as [i Hi].
      assert (Hy : y ∈ xs) by (apply Hl; by left). apply list_elem_of_lookup in Hy as [j Hj].
      assert (i = j) as ->; [|congruence].
      apply (NoDup_lookup (map dimension xs) i j (dimension x)); [done| |];
        rewrite list_lookup_fmap; [by rewrite Hi|by rewrite Hj; simpl; rewrite Hd].
    - apply IH; [intros z Hz; apply Hl; by right|].
      apply elem_of_cons in Hin as [->|Hin]; [congruence|done]. }
  apply H; [intros y Hy; by rewrite elem_of_reverse in Hy|by rewrite elem_of_reverse].
Qed.

(** Readings taken one per dimension, in order, are the report. *)
Lemma report_of_readings ctx xs :
  map dimension xs = PROTOCOL_ASSURANCE_DIMENSIONS ->
  dimensions (build (fold_left take_reading xs (builder_new ctx))) = xs.
Proof.
  intros Hx. rewrite build_dimensions, <- Hx, map_map.
  transitivity (map (fun x : DimensionAssurance => x) xs); [|apply map_id].
  assert (Hnd : NoDup (map dimension xs)).
  { rewrite Hx. apply (bool_decide_unpack _). by vm_compute. }
  apply map_ext_in. intros x Hin%list_elem_of_In.
  unfold built. rewrite take_readings_readings, find_record_all.
  by rewrite last_reading_unique.
Qed.

(** ** Lemmas: what each reading decides *)

Lemma reading_new_status d s cs p ls : status (reading_new d s cs p ls) = s.
Proof. done. Qed.
Lemma reading_new_dimension d s cs p ls : dimension (reading_new d s cs p ls) = d.
Proof. done. Qed.

Ltac split_reading :=
  repeat first [progress cbn [status dimension reading_new not_satisfied] | case_match]; try done.

Lemma blen_zero {A} (l : list A) : (blen l =? 0)%N = false <-> l <> [].
Proof. rewrite N.eqb_neq. unfold blen. destruct l; simpl; [split; [by intros H|done]|].
       split; [done|]. intros _. lia. Qed.

Lemma validate_relations_tt s r : validate_relations s = Ok r -> r = tt.
Proof. by destruct r. Qed.

(** The anchor is bound to the inclusion proof. *)
Definition anchor_bound (b : ProofBundle) : Prop :=
  block_height (anchor_ref b) <> 0%N /\
  block_height (anchor_ref b) = block_number (inclusion_proof b) /\
  anchor_metadata (anchor_ref b) <> [] /\
  anchor_metadata (anchor_ref b) = proof_bytes (inclusion_proof b).

Lemma validate_anchor_ok b : validate_anchor_reference b = Ok tt <-> anchor_bound b.
Proof.
  unfold validate_anchor_reference, anchor_bound.
  rewrite !guard_err_ok, orb_false_iff, !negb_false_iff, N.eqb_neq, N.eqb_eq,
    bool_decide_eq_true, blen_zero.
  naive_solver.
Qed.

Definition structure_ok (sha256 : bytes -> Bytes32) (b : ProofBundle) (max : N)
    (r : DagIdentityRule) : Prop :=
  (bundle_size b <= max)%N /\ validate_relations (transition_dag b) = Ok tt /\
  (r = Recompute -> validate_structure sha256 (transition_dag b) = Ok tt) /\
  seal_id (seal_ref b) <> [] /\ anchor_bound b.

Lemma size_ok b max : validate_proof_bundle_size_with b max = Ok tt <-> (bundle_size b <= max)%N.
Proof.
  unfold validate_proof_bundle_size_with. rewrite guard_err_ok, N.ltb_ge. naive_solver.
Qed.

Lemma structure_status sha256 b max r :
  (status (structure_reading sha256 b max r) <> NotSatisfied <-> structure_ok sha256 b max r) /\
  (status (structure_reading sha256 b max r) = Satisfied <->
     structure_ok sha256 b max r /\ r = Recompute).
Proof.
  unfold structure_ok. rewrite <- size_ok, <- validate_anchor_ok, <- blen_zero.
  unfold structure_reading.
  destruct (validate_proof_bundle_size_with b max) as [[]|]; [|split; split_reading; naive_solver].
  destruct (validate_relations (transition_dag b)) as [[]|]; [|split; split_reading; naive_solver].
  destruct r.
  - destruct (validate_structure sha256 (transition_dag b)) as [[]|];
      [|split; split_reading; naive_solver].
    destruct (blen (seal_id (seal_ref b)) =? 0)%N; [split; split_reading; naive_solver|].
    destruct (validate_anchor_reference b) as [[]|]; split; split_reading; naive_solver.
  - destruct (blen (seal_id (seal_ref b)) =? 0)%N; [split; split_reading; naive_solver|].
    destruct (validate_anchor_reference b) as [[]|]; split; split_reading; naive_solver.
Qed.

(** The proof's source chain is the expected one, or one of them is not named. *)
Definition sanad_bound (b : ProofBundle) (s : option Bytes32) : Prop :=
  forall id, s = Some id -> anchor_id (anchor_ref b) = b32 id.

Lemma sanad_differs_spec b s : sanad_differs b s = false <-> sanad_bound b s.
Proof.
  unfold sanad_differs, sanad_bound. destruct s as [id|]; [|naive_solver].
  rewrite negb_false_iff, bool_decide_eq_true. naive_solver.
Qed.

Lemma context_binding_ok b ctx :
  validate_context_binding b ctx = Ok tt <->
  sanad_bound b (ctx_sanad_id ctx) /\
  (inc_source (inclusion_proof b) = ""%string \/ chain_id ctx = ""%string \/
   inc_source (inclusion_proof b) = chain_id ctx).
Proof.
  unfold validate_context_binding. cbv zeta. rewrite !guard_err_ok, sanad_differs_spec.
  unfold str_empty. rewrite !andb_false_iff, !negb_false_iff, !bool_decide_eq_true. naive_solver.
Qed.

Lemma expected_domain_ok b e :
  validate_expected_domain b e = Ok tt <->
  sanad_bound b (exp_sanad_id e) /\
  (forall chain, exp_source_chain e = Some chain ->
     inc_source (inclusion_proof b) = ""%string \/ inc_source (inclusion_proof b) = chain).
Proof.
  unfold validate_expected_domain. cbv zeta. rewrite !guard_err_ok, sanad_differs_spec.
  destruct (exp_source_chain e) as [chain|]; [|naive_solver]. unfold str_empty.
  repeat case_bool_decide; naive_solver.
Qed.

Definition rejected (r : ChainNativeClaimReading) : Prop := exists a, r = ReadRejected a.

Lemma semantics_status r t :
  (status (transition_semantics_reading r t) <> NotSatisfied <-> r = Ok tt /\ ~ rejected t) /\
  status (transition_semantics_reading r t) <> Satisfied.
Proof.
  unfold transition_semantics_reading, rejected. destruct r as [[]|]; [|split; naive_solver].
  destruct t; split; naive_solver.
Qed.

Lemma closure_status_spec replay :
  (status (source_closure_reading replay) <> NotSatisfied <-> replay <> Some true) /\
  status (source_closure_reading replay) <> Satisfied.
Proof. destruct replay as [[]|]; split; naive_solver. Qed.

Lemma authorization_status c b scheme signers :
  (status (authorization_reading c b scheme signers) <> NotSatisfied <->
     v_verify_bundle_signatures c b scheme signers = Ok tt) /\
  (status (authorization_reading c b scheme signers) = Satisfied <->
     v_verify_bundle_signatures c b scheme signers = Ok tt /\ signers <> []).
Proof.
  unfold authorization_reading. destruct (bundle_signatures b) as [|blob blobs] eqn:Hb.
  - assert (v_verify_bundle_signatures c b scheme signers <> Ok tt).
    { unfold v_verify_bundle_signatures. by rewrite Hb. }
    split; naive_solver.
  - destruct (v_verify_bundle_signatures c b scheme signers) as [[]|]; [|split; naive_solver].
    destruct signers; split; naive_solver.
Qed.

Definition inclusion_well_formed (p : InclusionProof) (a : CommitAnchor) : Prop :=
  anchor_id a <> [] /\ proof_bytes p <> [] /\ (blen (proof_bytes p) <= MAX_PROOF_BYTES)%N /\
  inc_block_hash p <> Hash.zero.

Lemma validate_inclusion_ok p :
  validate_inclusion_proof p = Ok tt <->
  proof_bytes p <> [] /\ (blen (proof_bytes p) <= MAX_PROOF_BYTES)%N /\
  inc_block_hash p <> Hash.zero.
Proof.
  unfold validate_inclusion_proof.
  rewrite !guard_err_ok, bool_decide_eq_false, N.ltb_ge, blen_zero. naive_solver.
Qed.

(** A provider attests the claim. *)
Definition attests (s : ChainNativeProofAssessment) (claim : ChainNativeClaim) : Prop :=
  exists a, s = AssessAttested a /\ claim ∈ claims a.

Lemma claim_attested s claim :
  (exists a, claim_reading s claim = ReadAttested a) <-> attests s claim.
Proof.
  unfold attests. destruct s as [|a|a]; simpl; try naive_solver.
  case_bool_decide; naive_solver.
Qed.

Lemma claim_rejected s claim : rejected (claim_reading s claim) <-> exists a, s = AssessRejected a.
Proof.
  unfold rejected. destruct s as [|a|a]; simpl; try naive_solver.
  case_bool_decide; naive_solver.
Qed.

Lemma inclusion_status p anchor s :
  (status (inclusion_reading p anchor s) <> NotSatisfied <->
     inclusion_well_formed p anchor /\ ~ exists a, s = AssessRejected a) /\
  (status (inclusion_reading p anchor s) = Satisfied <->
     inclusion_well_formed p anchor /\ attests s ClaimAnchorInclusion).
Proof.
  unfold inclusion_well_formed. rewrite <- validate_inclusion_ok, <- blen_zero.
  rewrite <- (claim_rejected s ClaimAnchorInclusion), <- claim_attested. unfold rejected.
  unfold inclusion_reading.
  destruct (blen (anchor_id anchor) =? 0)%N; [split; split_reading; naive_solver|].
  destruct (validate_inclusion_proof p) as [[]|]; [|split; split_reading; naive_solver].
  destruct (claim_reading s ClaimAnchorInclusion); split; split_reading; naive_solver.
Qed.

Definition finality_well_formed (p : FinalityProof) : Prop :=
  (MIN_REQUIRED_CONFIRMATIONS <= confirmations p)%N /\ finality_data p <> [] /\
  (blen (finality_data p) <= MAX_FINALITY_DATA)%N.

Lemma validate_finality_ok p : validate_finality_proof p = Ok tt <-> finality_well_formed p.
Proof.
  unfold validate_finality_proof, finality_well_formed.
  rewrite !guard_err_ok, !N.ltb_ge, blen_zero. naive_solver.
Qed.

Definition deep_enough (height required : N) (tip : option N) : Prop :=
  forall t, tip = Some t -> (required <= t - height)%N.

Lemma finality_status p h req tip s :
  (status (finality_reading p h req tip s) <> NotSatisfied <->
     finality_well_formed p /\ (~ exists a, s = AssessRejected a) /\ deep_enough h req tip) /\
  (status (finality_reading p h req tip s) = Satisfied <->
     finality_well_formed p /\ (~ exists a, s = AssessRejected a) /\ deep_enough h req tip /\
     (attests s ClaimCheckpointFinality \/ is_Some tip)).
Proof.
  rewrite <- validate_finality_ok, <- (claim_rejected s ClaimCheckpointFinality),
    <- claim_attested. unfold rejected, deep_enough, finality_reading.
  destruct (validate_finality_proof p) as [[]|]; [|split; split_reading; naive_solver].
  assert (Hd : match tip with Some t => (t - h <? req)%N | None => false end = false <->
               forall t, tip = Some t -> (req <= t - h)%N).
  { destruct tip as [t|]; [|naive_solver]. rewrite N.ltb_ge. naive_solver. }
  rewrite <- Hd. clear Hd.
  destruct (claim_reading s ClaimCheckpointFinality) eqn:Hc; cbv zeta; cycle 1.
  { split; split_reading; naive_solver. }
  all: destruct tip as [t|]; [destruct (t - h <? req)%N|]; unfold is_Some;
    split; split_reading; naive_solver.
Qed.

Definition fresh (height : N) (tip max_age : option N) : Prop :=
  forall t m, tip = Some t -> max_age = Some m ->
    t = u64_max \/ ((height <= t)%N /\ (t - height <= m)%N).

Lemma freshness_status h tip max_age :
  (status (freshness_reading h tip max_age) <> NotSatisfied <-> fresh h tip max_age) /\
  (status (freshness_reading h tip max_age) = Satisfied <->
     exists t m, tip = Some t /\ max_age = Some m /\ t <> u64_max /\ (h <= t)%N /\ (t - h <= m)%N).
Proof.
  unfold fresh, freshness_reading, checked_sub64.
  destruct tip as [t|], max_age as [m|]; try (split; naive_solver).
  destruct (N.eqb_spec t u64_max) as [->|Ht]; [split; naive_solver|].
  destruct (N.leb_spec h t); [|split; split_reading; naive_solver lia].
  destruct (N.ltb_spec m (t - h)); split; split_reading; naive_solver lia.
Qed.

Lemma seal_replay_spec b ctx :
  seal_replay_reading b ctx <> Some true <->
  forall registry, seal_registry ctx = Some registry -> registry (seal_id (seal_ref b)) = false.
Proof.
  unfold seal_replay_reading, verify_seal_registry.
  destruct (seal_registry ctx) as [registry|]; [|naive_solver].
  destruct (registry (seal_id (seal_ref b))) eqn:E; split.
  - naive_solver.
  - intros H. specialize (H _ eq_refl). congruence.
  - intros _ r [= <-]. done.
  - done.
Qed.

(** ** Lemmas: the two signature verifiers *)

Section SignerLemmas.
Variable c : SigCrates.

Lemma v_parse_ok i auth scheme msg blobs sigs :
  v_parse_blobs c i auth scheme msg blobs = Ok sigs <->
  Forall2 (parsed msg) blobs sigs /\
  Forall (fun s => auth = [] \/ v_canonical_public_key c (public_key s) scheme ∈ auth) sigs.
Proof.
  revert i sigs. induction blobs as [|blob blobs IH]; intros i sigs; cbn [v_parse_blobs].
  - split; [by intros [= <-]|]. intros [H _]. by inversion H.
  - split.
    + intros ([pk sg] & Hs & H)%bind_ok. apply guard_err_ok in H as [Hg H].
      apply bind_ok in H as (rest & Hr & [= <-]). apply (IH (S i)) in Hr as [Hp Ha].
      apply (split_blob_parsed _ _ msg blob (mkSignature sg pk msg) eq_refl) in Hs.
      split; [by constructor|]. constructor; [|done]. cbn [public_key].
      apply andb_false_iff in Hg as [Hg|Hg]; apply negb_false_iff, bool_decide_eq_true in Hg;
        [by left|by right].
    + intros [Hp Ha]. inversion Hp as [|? s ? rest Hs Hr]; subst.
      apply Forall_cons in Ha as [Ha1 Ha]. apply bind_ok. exists (public_key s, signature s).
      destruct s as [sg pk m]. pose proof Hs as (Hm & _). cbn [message] in Hm. subst m.
      split; [by apply (split_blob_parsed _ _ msg blob (mkSignature sg pk msg) eq_refl)|].
      apply guard_err_ok. split.
      * apply andb_false_iff. rewrite !negb_false_iff, !bool_decide_eq_true. exact Ha1.
      * apply bind_ok. exists rest. split; [by apply IH|done].
Qed.

Lemma v_canonical_agrees key scheme :
  feature_secp256k1 c = true ->
  v_canonical_public_key c key scheme = canonical_public_key c key scheme.
Proof. intros H. unfold v_canonical_public_key, canonical_public_key. by rewrite H. Qed.

Lemma map_nil_iff {A B} (f : A -> B) l : map f l = [] <-> l = [].
Proof. by destruct l. Qed.

Lemma v_verify_ok b scheme signers :
  feature_secp256k1 c = true ->
  v_verify_bundle_signatures c b scheme signers = Ok tt <->
  bundle_signatures b <> [] /\ exists sigs,
    Forall2 (parsed (b32 (Dag.root_commitment (transition_dag b)))) (bundle_signatures b) sigs /\
    Forall (approved c signers scheme) sigs /\
    Forall (fun s => signature_verify c s scheme = Ok tt) sigs.
Proof.
  intros Hf. unfold v_verify_bundle_signatures. rewrite guard_err_ok, bind_ok.
  assert (Happ : forall s,
    (map (fun k => v_canonical_public_key c k scheme) signers = [] \/
     v_canonical_public_key c (public_key s) scheme ∈
       map (fun k => v_canonical_public_key c k scheme) signers) <-> approved c signers scheme s).
  { intros s. unfold approved. rewrite map_nil_iff, list_elem_of_fmap.
    rewrite v_canonical_agrees by done. setoid_rewrite v_canonical_agrees; [|done]. naive_solver. }
  split.
  - intros [Hne (sigs & Hp & Hv)]. apply v_parse_ok in Hp as [Hp Ha].
    apply verify_signatures_ok in Hv as [_ Hv]. split; [by destruct (bundle_signatures b)|].
    exists sigs. split; [done|]. split; [|done].
    eapply Forall_impl; [exact Ha|]. intros s. apply Happ.
  - intros (Hne & sigs & Hp & Ha & Hv). split; [by destruct (bundle_signatures b)|].
    exists sigs. split.
    + apply v_parse_ok. split; [done|]. eapply Forall_impl; [exact Ha|]. intros s. apply Happ.
    + apply verify_signatures_ok. split; [|done]. intros ->.
      apply Forall2_length in Hp. by destruct (bundle_signatures b).
Qed.
End SignerLemmas.

(** ** Lemmas: reports *)

Ltac reading_dim :=
  unfold structure_reading, transition_semantics_reading, authorization_reading,
    inclusion_reading, finality_reading, source_closure_reading, freshness_reading, not_satisfied;
  repeat case_match; reflexivity.

Lemma structure_dim sha256 b m r : dimension (structure_reading sha256 b m r) = CanonicalStructure.
Proof. reading_dim. Qed.
Lemma semantics_dim r t : dimension (transition_semantics_reading r t) = TransitionSemantics.
Proof. reading_dim. Qed.
Lemma authorization_dim c b s l : dimension (authorization_reading c b s l) = Authorization.
Proof. reading_dim. Qed.
Lemma inclusion_dim p a s : dimension (inclusion_reading p a s) = AnchorInclusion.
Proof. reading_dim. Qed.
Lemma finality_dim p h r t s : dimension (finality_reading p h r t s) = FinalityCheckpoint.
Proof. reading_dim. Qed.
Lemma closure_dim r : dimension (source_closure_reading r) = SourceClosure.
Proof. reading_dim. Qed.
Lemma freshness_dim h t m : dimension (freshness_reading h t m) = Freshness.
Proof. reading_dim. Qed.

#[local] Hint Rewrite structure_dim semantics_dim authorization_dim inclusion_dim finality_dim
  closure_dim freshness_dim : dims.

Lemma runtime_dimensions sha256 c cfg b ctx :
  dimensions (verify_proof_bundle sha256 c cfg b ctx) = runtime_readings sha256 c cfg b ctx.
Proof.
  apply report_of_readings. cbn [runtime_readings map]. by autorewrite with dims.
Qed.

Lemma offline_dimensions sha256 c b registry scheme signers e :
  dimensions (verify_proof_bound sha256 c b registry scheme signers e)
  = offline_readings sha256 c b registry scheme signers e.
Proof.
  apply report_of_readings. cbn [offline_readings map]. by autorewrite with dims.
Qed.

Lemma acceptable_may q x d :
  dimension x = d -> rule q d <> MustBeSatisfied -> acceptable q x <-> status x <> NotSatisfied.
Proof. intros <- H. unfold acceptable. naive_solver. Qed.

Lemma acceptable_must q x d :
  dimension x = d -> rule q d = MustBeSatisfied -> acceptable q x <-> status x = Satisfied.
Proof.
  intros <- H. unfold acceptable. split; [naive_solver|]. intros ->. split; [discriminate|done].
Qed.

Lemma Forall_seven {A} (P : A -> Prop) a1 a2 a3 a4 a5 a6 a7 :
  Forall P [a1; a2; a3; a4; a5; a6; a7] <->
  P a1 /\ P a2 /\ P a3 /\ P a4 /\ P a5 /\ P a6 /\ P a7.
Proof. rewrite !Forall_cons. split; [naive_solver|]. intros (?&?&?&?&?&?&?). by repeat split. Qed.

(** ** Lemmas: context digests

    Each writer call appends one prefix-free field, so the buffer determines the
    context. *)

Definition field_bytes (name : string) (v : bytes) : bytes := push_text name ++ push_bytes v.
Definition field_u64 (name : string) (v : N) : bytes := field_bytes name (u64_be v).
Definition field_flag (name : string) (p : bool) : bytes :=
  field_bytes name [if p then Byte.x01 else Byte.x00].
Definition field_opt {A} (enc : A -> bytes) (name : string) (v : option A) : bytes :=
  match v with
  | Some x => field_flag name true ++ enc x
  | None => field_flag name false
  end.
Definition field_list (name : string) (vs : list bytes) : bytes :=
  push_text name ++ push_list push_bytes vs.

Lemma w_text_app name v buf : w_text name v buf = buf ++ field_bytes name (as_bytes v).
Proof. done. Qed.
Lemma w_u64_app name v buf : w_u64 name v buf = buf ++ field_u64 name v.
Proof. done. Qed.
Lemma w_presence_app name p buf : w_presence name p buf = buf ++ field_flag name p.
Proof. done. Qed.
Lemma w_native_app name a buf :
  w_chain_native_proof name a buf = buf ++ field_bytes name (assessment_bytes a).
Proof. done. Qed.
Lemma w_byte_list_app name vs buf : w_byte_list name vs buf = buf ++ field_list name vs.
Proof. done. Qed.
Lemma w_opt_u64_app name v buf :
  w_opt_u64 name v buf = buf ++ field_opt (field_u64 name) name v.
Proof. destruct v; cbn; unfold w_u64, w_bytes, field_u64, field_flag, field_bytes;
  by rewrite <- ?app_assoc. Qed.
Lemma w_opt_bytes_app name v buf :
  w_opt_bytes name v buf = buf ++ field_opt (field_bytes name) name v.
Proof. destruct v; cbn; unfold w_bytes, field_flag, field_bytes; by rewrite <- ?app_assoc. Qed.

Lemma field_cancel name (x y k l : bytes) :
  (push_text name ++ x) ++ k = (push_text name ++ y) ++ l -> x ++ k = y ++ l.
Proof. rewrite <- !app_assoc. apply app_inv_head. Qed.

#[export] Instance pf_field_bytes name : PrefixFree fits (field_bytes name).
Proof. intros x y k l Hx Hy H%field_cancel. by apply (prefix_free (enc := push_bytes)) in H. Qed.

#[export] Instance pf_field_u64 name : PrefixFree u64_ok (field_u64 name).
Proof.
  intros x y k l Hx Hy H. unfold field_u64 in H.
  assert (Hf : forall v, fits (u64_be v)).
  { intros v. unfold fits, blen, u64_be. rewrite length_be_bytes. done. }
  apply prefix_free in H as [H ->]; [|apply Hf|apply Hf].
  by apply u64_be_inj in H as ->.
Qed.

#[export] Instance pf_field_flag name : PrefixFree (fun _ => True) (field_flag name).
Proof.
  intros x y k l _ _ H. unfold field_flag in H. apply prefix_free in H as [H ->];
    [|by destruct x|by destruct y].
  split; [|done]. clear -H. by destruct x, y.
Qed.

#[export] Instance pf_field_opt {A} (P : A -> Prop) enc name `{!PrefixFree P enc} :
  PrefixFree (opt_ok P) (field_opt enc name).
Proof.
  intros [x|] [y|] k l Hx Hy H; cbn [field_opt] in H; rewrite <- ?app_assoc in H;
    apply (prefix_free (enc := field_flag name)) in H as [Hf H]; try done.
  apply prefix_free in H as [-> ->]; [done|by apply Hx|by apply Hy].
Qed.

#[export] Instance pf_field_list name : PrefixFree (list_ok fits) (field_list name).
Proof.
  intros x y k l Hx Hy H%field_cancel. by apply (prefix_free (enc := push_list push_bytes)) in H.
Qed.

#[export] Instance pf_field_assessment name :
  PrefixFree (fun a => fits (assessment_bytes a) /\ assessment_fits a)
             (fun a => field_bytes name (assessment_bytes a)).
Proof.
  intros x y k l [Hx1 Hx2] [Hy1 Hy2] H. apply prefix_free in H as [H ->]; [|done|done].
  split; [|done]. by apply (prefix_free_inj assessment_fits assessment_bytes) in H.
Qed.

(** The chain-data block. *)
Definition chain_data_enc (d : option ChainVerificationData) : bytes :=
  match d with
  | Some cd => field_flag "chain_data" true ++
      field_opt (field_bytes "chain_data.block_header") "chain_data.block_header" (cd_block_header cd) ++
      field_opt (field_bytes "chain_data.merkle_proof") "chain_data.merkle_proof" (cd_merkle_proof cd) ++
      field_opt (field_bytes "chain_data.finality_proof") "chain_data.finality_proof"
                (cd_finality_proof cd) ++
      field_opt (field_bytes "chain_data.additional") "chain_data.additional" (cd_additional cd)
  | None => field_flag "chain_data" false
  end.

Lemma chain_data_fields_app d buf : chain_data_fields d buf = buf ++ chain_data_enc d.
Proof.
  destruct d as [cd|]; unfold chain_data_fields, chain_data_enc; [|done].
  rewrite !w_opt_bytes_app.
  rewrite w_presence_app. by rewrite <- !app_assoc.
Qed.

Definition chain_data_fits (cd : ChainVerificationData) : Prop :=
  opt_ok fits (cd_block_header cd) /\ opt_ok fits (cd_merkle_proof cd) /\
  opt_ok fits (cd_finality_proof cd) /\ opt_ok fits (cd_additional cd).

#[export] Instance pf_chain_data : PrefixFree (opt_ok chain_data_fits) chain_data_enc.
Proof.
  intros [x|] [y|] k l Hx Hy H; cbn [chain_data_enc] in H; rewrite <- ?app_assoc in H;
    apply (prefix_free (enc := field_flag "chain_data")) in H as [Hf H]; try done.
  destruct (Hx x eq_refl) as (X1 & X2 & X3 & X4), (Hy y eq_refl) as (Y1 & Y2 & Y3 & Y4).
  apply prefix_free in H as [E1 H]; [|done|done]. apply prefix_free in H as [E2 H]; [|done|done].
  apply prefix_free in H as [E3 H]; [|done|done]. apply prefix_free in H as [E4 H]; [|done|done].
  destruct x, y; simpl in *. by subst.
Qed.

(** The whole buffer, as fields in a row. *)
Definition runtime_fields (cfg : VerifierConfig) (ctx : VerificationContext) : bytes :=
  field_bytes "chain_id" (as_bytes (chain_id ctx)) ++
  field_u64 "signature_scheme" (signature_scheme_tag (ctx_scheme ctx)) ++
  field_u64 "required_confirmations" (required_confirmations ctx) ++
  field_opt (field_u64 "current_block_height") "current_block_height" (current_block_height ctx) ++
  field_flag "seal_registry" (bool_decide (is_Some (seal_registry ctx))) ++
  field_bytes "chain_native_proof" (assessment_bytes (chain_native_proof ctx)) ++
  field_opt (field_bytes "sanad_id") "sanad_id" (b32 <$> ctx_sanad_id ctx) ++
  field_opt (field_bytes "lock_tx") "lock_tx" (lock_tx ctx) ++
  field_opt (field_u64 "lock_output_index") "lock_output_index" (lock_output_index ctx) ++
  field_opt (field_bytes "transition_id") "transition_id" (ctx_transition_id ctx) ++
  field_opt (field_bytes "destination_chain") "destination_chain"
            (as_bytes <$> ctx_destination_chain ctx) ++
  field_list "authorized_signers" (authorized_signers ctx) ++
  field_u64 "config.max_proof_bundle_size" (max_proof_bundle_size cfg) ++
  field_u64 "config.min_required_confirmations" (min_required_confirmations cfg) ++
  field_opt (field_u64 "config.max_anchor_age_blocks") "config.max_anchor_age_blocks"
            (max_anchor_age_blocks cfg) ++
  chain_data_enc (chain_data ctx).

Lemma runtime_buffer_fields cfg ctx :
  runtime_context_buffer cfg ctx = writer_new RUNTIME_VERIFICATION_PROFILE_ID ++ runtime_fields cfg ctx.
Proof.
  unfold runtime_context_buffer, runtime_fields. cbv zeta. rewrite chain_data_fields_app.
  rewrite !w_opt_u64_app, !w_opt_bytes_app, !w_byte_list_app, !w_native_app, !w_presence_app,
    !w_u64_app, !w_text_app. rewrite <- !app_assoc. reflexivity.
Qed.

(** Lengths and values the fields can carry; every context a 64-bit machine
    builds from inputs below 4 GiB has them. *)
Definition config_fits (cfg : VerifierConfig) : Prop :=
  u64_ok (max_proof_bundle_size cfg) /\ u64_ok (min_required_confirmations cfg) /\
  opt_ok u64_ok (max_anchor_age_blocks cfg).

Record context_fits (ctx : VerificationContext) : Prop := {
  cf_chain_id : text_fits (chain_id ctx);
  cf_confirmations : u64_ok (required_confirmations ctx);
  cf_height : opt_ok u64_ok (current_block_height ctx);
  cf_native : fits (assessment_bytes (chain_native_proof ctx)) /\
              assessment_fits (chain_native_proof ctx);
  cf_lock_tx : opt_ok fits (lock_tx ctx);
  cf_lock_index : opt_ok u64_ok (lock_output_index ctx);
  cf_transition : opt_ok fits (ctx_transition_id ctx);
  cf_destination : opt_ok text_fits (ctx_destination_chain ctx);
  cf_signers : list_ok fits (authorized_signers ctx);
  cf_chain_data : opt_ok chain_data_fits (chain_data ctx)
}.

(** Everything a runtime context says, the registry callback by presence. *)
Definition context_view (ctx : VerificationContext) :=
  (chain_id ctx, ctx_scheme ctx, required_confirmations ctx, current_block_height ctx,
   bool_decide (is_Some (seal_registry ctx)), chain_native_proof ctx, ctx_sanad_id ctx,
   lock_tx ctx, lock_output_index ctx, ctx_transition_id ctx, ctx_destination_chain ctx,
   authorized_signers ctx, chain_data ctx).

Lemma opt_fmap_fits {A} (f : A -> bytes) (P : A -> Prop) (o : option A) :
  opt_ok P o -> (forall x, P x -> fits (f x)) -> opt_ok fits (f <$> o).
Proof. intros Ho Hf x (y & -> & ->)%fmap_Some. by apply Hf, Ho. Qed.

Lemma b32_fits h : fits (b32 h).
Proof. unfold fits, blen. rewrite b32_length. done. Qed.

Lemma scheme_tag_ok s : u64_ok (signature_scheme_tag s).
Proof. by destruct s. Qed.

Lemma scheme_tag_inj s t : signature_scheme_tag s = signature_scheme_tag t -> s = t.
Proof. by destruct s, t. Qed.

#[local] Hint Resolve b32_fits scheme_tag_ok : core.

Lemma runtime_fields_inj cfg ctx cfg' ctx' :
  config_fits cfg -> config_fits cfg' -> context_fits ctx -> context_fits ctx' ->
  runtime_fields cfg ctx = runtime_fields cfg' ctx' -> cfg = cfg' /\ context_view ctx = context_view ctx'.
Proof.
  intros (G1 & G2 & G3) (G1' & G2' & G3') [] [] H. unfold runtime_fields in H.
  apply prefix_free in H as [E1 H]; [|done|done]. apply as_bytes_inj in E1.
  apply (prefix_free (enc := field_u64 _)) in H as [E2 H]; [|done|done].
  apply scheme_tag_inj in E2.
  apply (prefix_free (enc := field_u64 _)) in H as [E3 H]; [|done|done].
  apply prefix_free in H as [E4 H]; [|done|done].
  apply (prefix_free (enc := field_flag _)) in H as [E5 H]; [|done|done].
  apply (prefix_free (enc := fun a => field_bytes _ (assessment_bytes a))) in H as [E6 H];
    [|done|done].
  apply prefix_free in H as [E7 H]; [|by apply (opt_fmap_fits _ (fun _ => True))..].
  apply prefix_free in H as [E8 H]; [|done|done].
  apply prefix_free in H as [E9 H]; [|done|done].
  apply prefix_free in H as [E10 H]; [|done|done].
  apply prefix_free in H as [E11 H]; [|by eapply (opt_fmap_fits _ text_fits)..].
  apply (prefix_free (enc := field_list _)) in H as [E12 H]; [|done|done].
  apply (prefix_free (enc := field_u64 _)) in H as [E13 H]; [|done|done].
  apply (prefix_free (enc := field_u64 _)) in H as [E14 H]; [|done|done].
  apply prefix_free in H as [E15 H]; [|done|done].
  apply (prefix_free_inj (opt_ok chain_data_fits) chain_data_enc) in H; [|done|done].
  apply (option_fmap_eq_inj _) in E7; [|intros x y; apply b32_inj].
  apply (option_fmap_eq_inj _) in E11; [|intros x y; apply as_bytes_inj].
  split; [destruct cfg, cfg'; simpl in *; by subst|].
  unfold context_view. by rewrite E1, E2, E3, E4, E5, E6, E7, E8, E9, E10, E11, E12, H.
Qed.

(** ** Properties *)

Lemma runtime_policy_met (sha256 : bytes -> Bytes32) (c : SigCrates) (cfg : VerifierConfig)
    (b : ProofBundle) (ctx : VerificationContext) :
  is_met (evaluate RUNTIME_SOURCE_PROOF (verify_proof_bundle sha256 c cfg b ctx)) = true <->
  structure_ok sha256 b (max_proof_bundle_size cfg) Deferred /\
  (forall id, ctx_sanad_id ctx = Some id -> anchor_id (anchor_ref b) = b32 id) /\
  (inc_source (inclusion_proof b) = ""%string \/ chain_id ctx = ""%string \/
   inc_source (inclusion_proof b) = chain_id ctx) /\
  v_verify_bundle_signatures c b (ctx_scheme ctx) (authorized_signers ctx) = Ok tt /\
  inclusion_well_formed (inclusion_proof b) (anchor_ref b) /\
  attests (chain_native_proof ctx) ClaimAnchorInclusion /\
  finality_well_formed (finality_proof b) /\
  deep_enough (block_height (anchor_ref b)) (required_confirmations ctx) (current_block_height ctx) /\
  (attests (chain_native_proof ctx) ClaimCheckpointFinality \/ is_Some (current_block_height ctx)) /\
  (forall registry, seal_registry ctx = Some registry -> registry (seal_id (seal_ref b)) = false) /\
  fresh (block_height (anchor_ref b)) (current_block_height ctx) (max_anchor_age_blocks cfg).
Proof.
  rewrite is_met_iff, runtime_dimensions. unfold runtime_readings. rewrite Forall_seven.
  rewrite (acceptable_may _ _ _ (structure_dim _ _ _ _)), (proj1 (structure_status _ _ _ _)) by done.
  rewrite (acceptable_may _ _ _ (semantics_dim _ _)), (proj1 (semantics_status _ _)),
    context_binding_ok by done.
  rewrite (acceptable_may _ _ _ (authorization_dim _ _ _ _)),
    (proj1 (authorization_status _ _ _ _)) by done.
  rewrite (acceptable_must _ _ _ (inclusion_dim _ _ _)), (proj2 (inclusion_status _ _ _)) by done.
  rewrite (acceptable_must _ _ _ (finality_dim _ _ _ _ _)), (proj2 (finality_status _ _ _ _ _)) by done.
  rewrite (acceptable_may _ _ _ (closure_dim _)), (proj1 (closure_status_spec _)),
    seal_replay_spec by done.
  rewrite (acceptable_may _ _ _ (freshness_dim _ _ _)), (proj1 (freshness_status _ _ _)) by done.
  rewrite claim_rejected.
  assert (Hr : attests (chain_native_proof ctx) ClaimAnchorInclusion ->
               ~ exists a, chain_native_proof ctx = AssessRejected a).
  { intros (a & Ha & _) (a' & Ha'). congruence. }
  unfold sanad_bound. tauto.
Qed.

(** C5: what the runtime policy accepts.  Evaluating the runtime source-proof
    policy on the report of [verify_proof_bundle] is met exactly when: the bundle
    is within its size, its DAG relations hold, the seal is named and the anchor
    is bound to the inclusion proof; its anchor is the context's Sanad when the context
    names one, and its source tag is the context's chain unless one of the two is empty; its
    signatures verify under the context's signers; a chain-native provider
    attests the inclusion of a well-formed proof, and either that provider
    attests finality or a tip was observed, which must then be deep enough; the
    replay registry does not know the seal; and the anchor is not stale. *)
Theorem runtime_policy_spec (sha256 : bytes -> Bytes32) (c : SigCrates) (cfg : VerifierConfig)
    (b : ProofBundle) (ctx : VerificationContext) :
  is_met (evaluate RUNTIME_SOURCE_PROOF (verify_proof_bundle sha256 c cfg b ctx)) = true <->
  structure_ok sha256 b (max_proof_bundle_size cfg) Deferred /\
  (forall id, ctx_sanad_id ctx = Some id -> anchor_id (anchor_ref b) = b32 id) /\
  (inc_source (inclusion_proof b) = ""%string \/ chain_id ctx = ""%string \/
   inc_source (inclusion_proof b) = chain_id ctx) /\
  v_verify_bundle_signatures c b (ctx_scheme ctx) (authorized_signers ctx) = Ok tt /\
  inclusion_well_formed (inclusion_proof b) (anchor_ref b) /\
  attests (chain_native_proof ctx) ClaimAnchorInclusion /\
  finality_well_formed (finality_proof b) /\
  deep_enough (block_height (anchor_ref b)) (required_confirmations ctx) (current_block_height ctx) /\
  (attests (chain_native_proof ctx) ClaimCheckpointFinality \/ is_Some (current_block_height ctx)) /\
  (forall registry, seal_registry ctx = Some registry -> registry (seal_id (seal_ref b)) = false) /\
  fresh (block_height (anchor_ref b)) (current_block_height ctx) (max_anchor_age_blocks cfg).
Proof. apply runtime_policy_met. Qed.

(** what the offline recipient policy accepts.  On the report of
    [verify_proof_bound] it is met exactly when the structure is fully recomputed
    and valid, the anchor is the expected Sanad when one is expected, the source tag is the
    expected chain when one is expected and the tag is not empty, every signature is
    by a signer of a non-empty approved set, the inclusion and finality material
    is well formed (and deep enough for an observed tip), the registry does not
    know the seal, and the anchor is not stale. *)
Theorem offline_policy_spec (sha256 : bytes -> Bytes32) (c : SigCrates) (b : ProofBundle)
    registry scheme signers (e : ExpectedDomain) :
  is_met (evaluate OFFLINE_RECIPIENT (verify_proof_bound sha256 c b registry scheme signers e)) = true
  <->
  structure_ok sha256 b MAX_PROOF_BUNDLE_SIZE Recompute /\
  (forall id, exp_sanad_id e = Some id -> anchor_id (anchor_ref b) = b32 id) /\
  (forall chain, exp_source_chain e = Some chain ->
     inc_source (inclusion_proof b) = ""%string \/ inc_source (inclusion_proof b) = chain) /\
  v_verify_bundle_signatures c b scheme signers = Ok tt /\ signers <> [] /\
  inclusion_well_formed (inclusion_proof b) (anchor_ref b) /\
  finality_well_formed (finality_proof b) /\
  deep_enough (block_height (anchor_ref b)) MIN_REQUIRED_CONFIRMATIONS (observed_source_tip e) /\
  registry (seal_id (seal_ref b)) = false /\
  fresh (block_height (anchor_ref b)) (observed_source_tip e) (exp_max_anchor_age e).
Proof.
  rewrite is_met_iff, offline_dimensions. unfold offline_readings. rewrite Forall_seven.
  rewrite (acceptable_must _ _ _ (structure_dim _ _ _ _)), (proj2 (structure_status _ _ _ _)) by done.
  rewrite (acceptable_may _ _ _ (semantics_dim _ _)), (proj1 (semantics_status _ _)),
    expected_domain_ok by done.
  rewrite (acceptable_must _ _ _ (authorization_dim _ _ _ _)),
    (proj2 (authorization_status _ _ _ _)) by done.
  rewrite (acceptable_may _ _ _ (inclusion_dim _ _ _)), (proj1 (inclusion_status _ _ _)) by done.
  rewrite (acceptable_may _ _ _ (finality_dim _ _ _ _ _)), (proj1 (finality_status _ _ _ _ _)) by done.
  rewrite (acceptable_may _ _ _ (closure_dim _)), (proj1 (closure_status_spec _)) by done.
  rewrite (acceptable_may _ _ _ (freshness_dim _ _ _)), (proj1 (freshness_status _ _ _)) by done.
  assert (H1 : ~ rejected ReadAbsent) by (by intros [a ?]).
  assert (H2 : ~ exists a, NotSupplied = AssessRejected a) by (by intros [a ?]).
  assert (H3 : Some (registry (seal_id (seal_ref b))) <> Some true <->
               registry (seal_id (seal_ref b)) = false).
  { destruct (registry _); naive_solver. }
  unfold sanad_bound. rewrite H3. tauto.
Qed.

(** nothing meets the complete policy.  At neither entry point is transition semantics or
    source closure ever read as Satisfied, whatever the bundle and the context, so neither
    report meets the policy that asks for every dimension. *)
Theorem complete_never_met (sha256 : bytes -> Bytes32) (c : SigCrates) cfg b ctx
    registry scheme signers e :
  Forall (fun r =>
    (forall x, x ∈ dimensions r -> dimension x = TransitionSemantics \/ dimension x = SourceClosure ->
       status x <> Satisfied) /\
    is_met (evaluate COMPLETE r) = false)
    [verify_proof_bundle sha256 c cfg b ctx; verify_proof_bound sha256 c b registry scheme signers e].
Proof.
  assert (H : forall r, (exists x1 t1 t2 x3 x4 x5 s x7,
      dimensions r = [x1; transition_semantics_reading t1 t2; x3; x4; x5; source_closure_reading s; x7] /\
      Forall (fun x => dimension x <> TransitionSemantics /\ dimension x <> SourceClosure) [x1; x3; x4; x5; x7]) ->
    (forall x, x ∈ dimensions r -> dimension x = TransitionSemantics \/ dimension x = SourceClosure ->
       status x <> Satisfied) /\ is_met (evaluate COMPLETE r) = false).
  { intros r (x1 & t1 & t2 & x3 & x4 & x5 & s & x7 & Hd & Hx). rewrite !Forall_cons in Hx. split.
    - intros x. rewrite Hd, !elem_of_cons. intros Hin Hdim.
      destruct Hin as [->|[->|[->|[->|[->|[->|[->|[]%not_elem_of_nil]]]]]]]; [tauto| |tauto..| |tauto];
        [apply semantics_status|apply closure_status_spec].
    - apply not_true_is_false. rewrite is_met_iff, Hd, Forall_seven,
        (acceptable_must _ _ _ (semantics_dim _ _)) by done.
      intros (_ & H & _); revert H; apply semantics_status. }
  repeat constructor; apply H; rewrite ?runtime_dimensions, ?offline_dimensions;
    unfold runtime_readings, offline_readings; do 8 eexists; (split; [done|]); repeat constructor;
    rewrite ?structure_dim, ?authorization_dim, ?inclusion_dim, ?finality_dim, ?freshness_dim; done.
Qed.

(** a replayed seal is never accepted.  When the registry knows the seal, no
    assurance policy whatever is met, at either entry point. *)
Theorem replay_never_accepted (sha256 : bytes -> Bytes32) (c : SigCrates) cfg b ctx
    registry scheme signers e (q : AssuranceRequirement) :
  registry (seal_id (seal_ref b)) = true -> seal_registry ctx = Some registry ->
  is_met (evaluate q (verify_proof_bundle sha256 c cfg b ctx)) = false /\
  is_met (evaluate q (verify_proof_bound sha256 c b registry scheme signers e)) = false.
Proof.
  intros Hreg Hctx.
  split; apply not_true_is_false; rewrite is_met_iff, ?runtime_dimensions, ?offline_dimensions;
    unfold runtime_readings, offline_readings; rewrite Forall_seven;
    intros (_ & _ & _ & _ & _ & [H _] & _); revert H;
    rewrite (proj1 (closure_status_spec _)), ?seal_replay_spec.
  - intros H. rewrite (H _ Hctx) in Hreg. discriminate.
  - by rewrite Hreg.
Qed.

(** the two signature verifiers agree.  csv-verifier's loop, which checks
    each key as it parses, and csv-protocol's, which parses everything first,
    accept the same bundles under the same signer set (secp256k1 compiled in). *)
Theorem signature_verifiers_agree (c : SigCrates) (b : ProofBundle) scheme signers :
  feature_secp256k1 c = true ->
  v_verify_bundle_signatures c b scheme signers = Ok tt <->
  verify_bundle_signatures c b scheme signers = Ok tt.
Proof.
  intros Hf. rewrite v_verify_ok by done.
  unfold verify_bundle_signatures, parse_signatures_from_bundle. rewrite bind_ok. split.
  - intros (Hne & sigs & Hp & Ha & Hv). exists sigs.
    destruct (bundle_signatures b) as [|blob blobs]; [done|].
    split; [by apply parse_blobs_ok|]. apply bind_ok. exists tt.
    split; [by apply signers_approved|]. apply verify_signatures_ok. split; [|done].
    by inversion Hp.
  - intros (sigs & Hp & H). destruct (bundle_signatures b) as [|blob blobs]; [done|].
    split; [done|]. apply parse_blobs_ok in Hp. apply bind_ok in H as ([] & Ha & Hv).
    apply signers_approved in Ha. apply verify_signatures_ok in Hv as [_ Hv]. eauto.
Qed.

(** the context digest binds the context.  Two runtime verifications with the
    same context digest ran under the same configuration and the same context,
    field for field (of the registry callback, its presence), or the two strings hashed
    for them collide. *)
Theorem runtime_context_digest_binds (sha256 : bytes -> Bytes32) cfg ctx cfg' ctx' :
  config_fits cfg -> config_fits cfg' -> context_fits ctx -> context_fits ctx' ->
  runtime_context_digest sha256 cfg ctx = runtime_context_digest sha256 cfg' ctx' ->
  (cfg = cfg' /\ context_view ctx = context_view ctx') \/
  collision_in sha256 [runtime_context_preimage sha256 cfg ctx; runtime_context_preimage sha256 cfg' ctx'].
Proof.
  intros Hc Hc' Hx Hx' H. unfold runtime_context_digest, writer_finish, runtime_context_preimage in *.
  hash_inj H. left.
  rewrite !runtime_buffer_fields in H. apply app_inv_head in H.
  by apply runtime_fields_inj.
Qed.

(** The size estimate ignores witness bytes.  Two segments that differ only in
    the contents of their witnesses, however large, have the same size for the
    bundle limit. *)
Theorem bundle_size_ignores_witness_bytes (b b' : ProofBundle) :
  Forall2 (fun n m => length (witnesses n) = length (witnesses m) /\ bytecode n = bytecode m /\
                      Dag.signatures n = Dag.signatures m /\ parents n = parents m)
          (nodes (transition_dag b)) (nodes (transition_dag b')) ->
  bundle_signatures b = bundle_signatures b' -> seal_ref b = seal_ref b' ->
  anchor_ref b = anchor_ref b' -> inclusion_proof b = inclusion_proof b' ->
  finality_proof b = finality_proof b' ->
  bundle_size b = bundle_size b'.
Proof.
  intros Hn H1 H2 H3 H4 H5. unfold bundle_size. rewrite H1, H2, H3, H4, H5. do 6 f_equal.
  f_equal. induction Hn as [|n m l k (Hw & Hb & Hs & Hp) _ IH]; simpl; [done|].
  assert (node_size n = node_size m) as ->; [|by rewrite IH].
  unfold node_size. rewrite Hb, Hs, Hp. unfold blen. by rewrite Hw.
Qed.

(** The configured confirmation minimum is not enforced.  Changing
    [min_required_confirmations] changes the context digest's input and no
    reading. *)
Theorem min_confirmations_not_enforced (sha256 : bytes -> Bytes32) (c : SigCrates) cfg n b ctx :
  dimensions (verify_proof_bundle sha256 c
    (mkConfig (max_proof_bundle_size cfg) n (max_anchor_age_blocks cfg)) b ctx)
  = dimensions (verify_proof_bundle sha256 c cfg b ctx).
Proof. by rewrite !runtime_dimensions. Qed.

(** ** Witnesses *)

Definition demo_ed_blob : bytes :=
  u32_le 32 ++ replicate 32 Byte.x01 ++ replicate 64 Byte.x02.
Definition demo_signed_bundle : ProofBundle :=
  mkProofBundle 1 (mkSegment demo_listed Hash.zero) [demo_ed_blob] Ed25519
    (mkSealPoint [Byte.x0b] (Some 4%N) None) (mkCommitAnchor [Byte.x0c] 12 [Byte.x01; Byte.x02])
    demo_inclusion demo_finality.
Definition demo_context (signers : list bytes) (registry : bytes -> bool) : VerificationContext :=
  mkContext "bitcoin" Ed25519 6 (Some 20%N) (Some registry) None
    (AssessAttested (attestation_new "node" "bitcoin"
       [ClaimAnchorInclusion; ClaimCheckpointFinality]))
    None None None None None signers.

(** The runtime policy can be met, and is met with no approved signer set: the
    unbound signature is an accepted limitation, not a shortfall. *)
Example runtime_met_without_signers :
  is_met (evaluate RUNTIME_SOURCE_PROOF (verify_proof_bundle toy_hash permissive_crates
    default_config demo_signed_bundle (demo_context [] (fun _ => false)))) = true.
Proof. vm_compute. reflexivity. Qed.

Definition demo_sealed_bundle : ProofBundle :=
  mkProofBundle 1
    (match segment_sealed toy_hash demo_supplied with
     | Ok s => s | Err _ => mkSegment [] Hash.zero end)
    [demo_ed_blob] Ed25519
    (mkSealPoint [Byte.x0b] (Some 4%N) None) (mkCommitAnchor [Byte.x0c] 12 [Byte.x01; Byte.x02])
    demo_inclusion demo_finality.

(** The offline policy can be met too. *)
Example offline_met :
  is_met (evaluate OFFLINE_RECIPIENT (verify_proof_bound toy_hash permissive_crates
    demo_sealed_bundle (fun _ => false) Ed25519 [replicate 32 Byte.x01] default_expected)) = true.
Proof. vm_compute. reflexivity. Qed.

Lemma replay_never_accepted_witness :
  is_met (evaluate RUNTIME_SOURCE_PROOF (verify_proof_bundle toy_hash permissive_crates
    default_config demo_signed_bundle (demo_context [] (fun _ => true)))) = false.
Proof.
  exact (proj1 (replay_never_accepted toy_hash permissive_crates default_config demo_signed_bundle
    (demo_context [] (fun _ => true)) (fun _ => true) Ed25519 [] default_expected
    RUNTIME_SOURCE_PROOF eq_refl eq_refl)).
Defined.

Lemma signature_verifiers_agree_witness :
  verify_bundle_signatures permissive_crates demo_signed_bundle Ed25519 [] = Ok tt.
Proof.
  refine (proj1 (signature_verifiers_agree permissive_crates demo_signed_bundle Ed25519 []
    eq_refl) _).
  vm_compute. reflexivity.
Defined.

Lemma demo_context_fits : context_fits (demo_context [] (fun _ => false)).
Proof.
  assert (Hn : forall (A : Type) (P : A -> Prop), opt_ok P None) by (by intros A P x [=]).
  constructor; cbn [demo_context chain_id required_confirmations current_block_height
    chain_native_proof lock_tx lock_output_index ctx_transition_id ctx_destination_chain
    authorized_signers chain_data];
    try match goal with |- opt_ok _ None => apply Hn end.
  - by vm_compute.
  - by vm_compute.
  - intros x [= <-]. by vm_compute.
  - split; [by vm_compute|]. split; [by vm_compute|]. split; [by vm_compute|].
    split; [by vm_compute|apply Hn].
  - split; [by vm_compute|constructor].
Qed.

Lemma runtime_context_digest_binds_witness :
  context_view (demo_context [] (fun _ => false)) = context_view (demo_context [] (fun _ => false))
  \/ collision_in toy_hash [runtime_context_preimage toy_hash default_config (demo_context [] (fun _ => false));
                            runtime_context_preimage toy_hash default_config (demo_context [] (fun _ => false))].
Proof.
  assert (Hc : config_fits default_config) by (split; [|split]; [by vm_compute..|by intros x [=]]).
  destruct (runtime_context_digest_binds toy_hash default_config
    (demo_context [] (fun _ => false)) default_config (demo_context [] (fun _ => false))
    Hc Hc demo_context_fits demo_context_fits eq_refl) as [[_ E]|E]; [left|right]; exact E.
Defined.

Definition demo_padded_bundle (w : bytes) : ProofBundle :=
  mkProofBundle 1 (mkSegment [mkNode Hash.zero [] [] [w] []] Hash.zero) [] Ed25519
    (mkSealPoint [] None None) (mkCommitAnchor [] 0 []) demo_inclusion demo_finality.

Lemma bundle_size_ignores_witness_bytes_witness :
  bundle_size (demo_padded_bundle []) = bundle_size (demo_padded_bundle (replicate 500 Byte.x00)).
Proof.
  apply bundle_size_ignores_witness_bytes; try reflexivity.
  apply Forall2_cons_2; [|apply Forall2_nil_2]. split; [reflexivity|]. split; [reflexivity|].
  split; reflexivity.
Defined.
