(* ===== verification/Replay.v ===== *)
(** * Replay protection (csv-protocol/src/replay/registry.rs)

    Two registries: proofs seen and consumed, and nullifiers with their two
    indices and expiry.  Each is a state record with one function per operation;
    their histories are a run function and a reachability relation.  The clock is
    an argument of the operations that read it. *)

From S2P Require Import Prelude Ord Bytes Hashing DagCodec Text Seal.

Notation ChainId := string.

(** ** The proof registry *)

Record ReplayKey := mkReplayKey {
  rk_proof_hash : HashWire;
  rk_seal_id : HashWire;
  rk_commitment_hash : HashWire;
  rk_source_chain : ChainId;
  rk_destination_chain : ChainId
}.

Global Instance ReplayKey_eq_dec : EqDecision ReplayKey.
Proof. solve_decision. Defined.

(** [ReplayKey::new] *)
Definition ReplayKey_new (proof seal commitment : Hash) (src dst : ChainId) : ReplayKey :=
  mkReplayKey (wire_of_hash proof) (wire_of_hash seal) (wire_of_hash commitment) src dst.

Record ReplayEntry := mkReplayEntry {
  entry_key : ReplayKey;
  first_seen_at : N;
  entry_attempts : N;
  accepted : bool
}.

Record ReplayRegistry := mkReplayRegistry { entries : gmap Hash ReplayEntry }.

Definition registry_new : ReplayRegistry := mkReplayRegistry ∅.

Section ProofRegistry.
Variable sha256 : bytes -> Bytes32.
(** ciborium's serialization of the key's fields as a tuple, [None] when it fails. *)
Variable cbor : HashWire * HashWire * HashWire * ChainId * ChainId -> option bytes.

(** [ReplayKey::hash]: a failed serialization hashes the empty payload. *)
Definition key_hash (k : ReplayKey) : Hash :=
  domain_hash sha256 "csv.replay.registry.v1"
    (default [] (cbor (rk_proof_hash k, rk_seal_id k, rk_commitment_hash k,
                       rk_source_chain k, rk_destination_chain k))).

(** [record_proof]: the counter is a u64. *)
Definition record_proof (r : ReplayRegistry) (k : ReplayKey) (timestamp : N)
  : ReplayRegistry * bool :=
  match entries r !! key_hash k with
  | Some e =>
      (mkReplayRegistry (<[key_hash k := mkReplayEntry (entry_key e) (first_seen_at e)
                              (add64 (entry_attempts e) 1) (accepted e)]> (entries r)), false)
  | None =>
      (mkReplayRegistry (<[key_hash k := mkReplayEntry k timestamp 0 false]> (entries r)), true)
  end.

Definition has_been_seen (r : ReplayRegistry) (k : ReplayKey) : bool :=
  bool_decide (is_Some (entries r !! key_hash k)).

Definition mark_accepted (r : ReplayRegistry) (k : ReplayKey) : ReplayRegistry :=
  match entries r !! key_hash k with
  | Some e => mkReplayRegistry (<[key_hash k := mkReplayEntry (entry_key e) (first_seen_at e)
                                    (entry_attempts e) true]> (entries r))
  | None => r
  end.

Definition replay_attempts (r : ReplayRegistry) (k : ReplayKey) : N :=
  match entries r !! key_hash k with Some e => entry_attempts e | None => 0 end.

Definition total_proofs (r : ReplayRegistry) : nat := size (entries r).

(** [sum()] of u64 values. *)
Definition total_replay_attempts (r : ReplayRegistry) : N :=
  foldr (fun e acc => add64 (entry_attempts e.2) acc) 0%N (map_to_list (entries r)).

(** [consume_if_unconsumed] *)
Definition consume_if_unconsumed (r : ReplayRegistry) (k : ReplayKey) (timestamp : N)
  : ReplayRegistry * result string bool :=
  match entries r !! key_hash k with
  | Some e =>
      if accepted e then (r, Ok false)
      else (r, Err "Replay attack detected: proof key already exists but not accepted"%string)
  | None =>
      (mkReplayRegistry (<[key_hash k := mkReplayEntry k timestamp 0 true]> (entries r)), Ok true)
  end.

(** ** Executions of the registry *)

Inductive reg_op :=
| OpRecord (k : ReplayKey) (t : N)
| OpAccept (k : ReplayKey)
| OpConsume (k : ReplayKey) (t : N).

Definition reg_step (r : ReplayRegistry) (o : reg_op) : ReplayRegistry :=
  match o with
  | OpRecord k t => (record_proof r k t).1
  | OpAccept k => mark_accepted r k
  | OpConsume k t => (consume_if_unconsumed r k t).1
  end.

(** Did this operation, run in [r], consume the key with hash [h]? *)
Definition consumes (r : ReplayRegistry) (h : Hash) (o : reg_op) : bool :=
  match o with
  | OpConsume k t => bool_decide (key_hash k = h) &&
                     bool_decide ((consume_if_unconsumed r k t).2 = Ok true)
  | _ => false
  end.

Fixpoint consumptions_of (h : Hash) (r : ReplayRegistry) (ops : list reg_op) : nat :=
  match ops with
  | [] => 0
  | o :: ops' => (if consumes r h o then 1 else 0) + consumptions_of h (reg_step r o) ops'
  end.

Definition reg_run (r : ReplayRegistry) (ops : list reg_op) : ReplayRegistry :=
  fold_left reg_step ops r.
End ProofRegistry.

(** ** Nullifiers *)

Definition REPLAY_CONSTITUTION_VERSION : N := 1.
Definition NULLIFIER_EXPIRY_SECONDS : N := 604800.

Record ReplayNullifier := mkNullifier {
  nullifier : HashWire;
  nf_sanad_id : HashWire;
  nf_source_chain : N;
  source_seal_ref : HashWire;
  registered_at : N;
  expires_at : N;
  consumed : bool
}.

Global Instance ReplayNullifier_eq_dec : EqDecision ReplayNullifier.
Proof. solve_decision. Defined.

Record NullifierRegistry := mkNullifierRegistry {
  nr_version : N;
  nullifiers : gmap string ReplayNullifier;
  by_sanad_id : gmap string (list string);
  by_source_chain : gmap N (list string)
}.

Inductive ReplayError :=
| AlreadyRegistered | AlreadyConsumed | NotFound | Expired | InvalidNullifier
| RegistryError (m : string).

Global Instance ReplayError_eq_dec : EqDecision ReplayError.
Proof. solve_decision. Defined.

Definition nullifier_registry_new : NullifierRegistry :=
  mkNullifierRegistry REPLAY_CONSTITUTION_VERSION ∅ ∅ ∅.

(** [now >= self.expires_at] *)
Definition is_expired (now : N) (n : ReplayNullifier) : bool := (expires_at n <=? now)%N.
Definition is_valid (now : N) (n : ReplayNullifier) : bool :=
  negb (is_expired now n) && negb (consumed n).

Definition hash_key (h : Hash) : string := of_bytes (hex_encode (b32 h)).

(** [hex::encode(nullifier_index_key(wire)?)] *)
Definition index_key (w : HashWire) : result ReplayError string :=
  h ← map_err (fun e => RegistryError ("Malformed nullifier field: " +:+ e)) (wire_to_hash w);
  Ok (hash_key h).

(** [entry(k).or_default().push(x)] *)
Definition push_at {K} `{Countable K} (k : K) (x : string) (m : gmap K (list string))
  : gmap K (list string) := <[k := default [] (m !! k) ++ [x]]> m.

(** [get_mut(k)], [retain(|y| y != x)], and removal of an emptied list. *)
Definition drop_at {K} `{Countable K} (k : K) (x : string) (m : gmap K (list string))
  : gmap K (list string) :=
  match m !! k with
  | Some l =>
      match List.filter (fun y => negb (bool_decide (y = x))) l with
      | [] => delete k m
      | l' => <[k := l']> m
      end
  | None => m
  end.

(** [NullifierRegistry::register] *)
Definition register (r : NullifierRegistry) (n : ReplayNullifier)
  : result ReplayError NullifierRegistry :=
  nk ← index_key (nullifier n);
  sk ← index_key (nf_sanad_id n);
  reject (bool_decide (is_Some (nullifiers r !! nk))) with AlreadyRegistered ;;
  Ok (mkNullifierRegistry (nr_version r) (<[nk := n]> (nullifiers r))
        (push_at sk nk (by_sanad_id r)) (push_at (nf_source_chain n) nk (by_source_chain r))).

Definition is_registered (r : NullifierRegistry) (h : Hash) : bool :=
  bool_decide (is_Some (nullifiers r !! hash_key h)).
Definition nf_get (r : NullifierRegistry) (h : Hash) : option ReplayNullifier :=
  nullifiers r !! hash_key h.

(** The nullifiers an index list names. *)
Definition resolve (r : NullifierRegistry) (keys : option (list string)) : list ReplayNullifier :=
  match keys with
  | Some l => omap (M := list) (fun k => nullifiers r !! k) l
  | None => []
  end.
Definition get_by_sanad_id (r : NullifierRegistry) (h : Hash) : list ReplayNullifier :=
  resolve r (by_sanad_id r !! hash_key h).
Definition get_by_source_chain (r : NullifierRegistry) (c : N) : list ReplayNullifier :=
  resolve r (by_source_chain r !! c).

(** [NullifierRegistry::consume] *)
Definition consume (r : NullifierRegistry) (h : Hash) : result ReplayError NullifierRegistry :=
  match nullifiers r !! hash_key h with
  | Some n =>
      if consumed n then Err AlreadyConsumed
      else Ok (mkNullifierRegistry (nr_version r)
                 (<[hash_key h := mkNullifier (nullifier n) (nf_sanad_id n) (nf_source_chain n)
                      (source_seal_ref n) (registered_at n) (expires_at n) true]> (nullifiers r))
                 (by_sanad_id r) (by_source_chain r))
  | None => Err NotFound
  end.

(** [remove]: the nullifier is already out of the map when its Sanad field turns
    out not to decode, so the state is returned with the error. *)
Definition remove (r : NullifierRegistry) (k : string)
  : NullifierRegistry * result ReplayError unit :=
  match nullifiers r !! k with
  | None => (r, Ok tt)
  | Some n =>
      let ns := delete k (nullifiers r) in
      match index_key (nf_sanad_id n) with
      | Err e => (mkNullifierRegistry (nr_version r) ns (by_sanad_id r) (by_source_chain r), Err e)
      | Ok sk => (mkNullifierRegistry (nr_version r) ns (drop_at sk k (by_sanad_id r))
                    (drop_at (nf_source_chain n) k (by_source_chain r)), Ok tt)
      end
  end.

Fixpoint remove_all (r : NullifierRegistry) (ks : list string)
  : NullifierRegistry * result ReplayError unit :=
  match ks with
  | [] => (r, Ok tt)
  | k :: ks' =>
      match remove r k with
      | (r', Ok _) => remove_all r' ks'
      | (r', Err e) => (r', Err e)
      end
  end.

(** [cleanup_expired] *)
Definition expired_keys (now : N) (r : NullifierRegistry) : list string :=
  List.filter (fun k => match nullifiers r !! k with Some n => is_expired now n | None => false end)
    (sorted_keys (nullifiers r)).

Definition cleanup_expired (now : N) (r : NullifierRegistry)
  : NullifierRegistry * result ReplayError nat :=
  let ks := expired_keys now r in
  let '(r', e) := remove_all r ks in
  (r', _ ← e; Ok (length ks)).

Record NullifierRegistryStats := mkStats {
  st_total : N; st_consumed : N; st_expired : N; st_valid : N }.

Definition count_if {A} (f : A -> bool) (l : list A) : N := blen (List.filter f l).

(** [stats]: the subtraction is on u64. *)
Definition stats (now : N) (r : NullifierRegistry) : NullifierRegistryStats :=
  let l := map snd (map_to_list (nullifiers r)) in
  let c := count_if consumed l in
  let e := count_if (is_expired now) l in
  mkStats (blen l) c e (sub64 (sub64 (blen l) c) e).

(** ** The constitution *)

Section Constitution.
Variable sha256 : bytes -> Bytes32.

(** [compute_nullifier] *)
Definition compute_nullifier (sanad : Hash) (chain : N) (seal_ref : Hash) : Hash :=
  tagged_hash sha256 ReplayIdV1 (b32 sanad ++ [byte_of chain] ++ b32 seal_ref).

(** [ReplayNullifier::new] at the given clock. *)
Definition ReplayNullifier_new (now : N) (sanad : Hash) (chain : N) (seal_ref : Hash)
  : ReplayNullifier :=
  mkNullifier (wire_of_hash (compute_nullifier sanad chain seal_ref)) (wire_of_hash sanad)
    chain (wire_of_hash seal_ref) now (add64 now NULLIFIER_EXPIRY_SECONDS) false.

(** [validate_nullifier] *)
Definition validate_nullifier (n : ReplayNullifier) : result ReplayError unit :=
  reject (bool_decide (nullifier n = wire_of_hash Hash.zero)) with InvalidNullifier ;;
  reject (bool_decide (nf_sanad_id n = wire_of_hash Hash.zero)) with InvalidNullifier ;;
  reject (7 <? nf_source_chain n)%N with InvalidNullifier ;;
  reject (expires_at n <=? registered_at n)%N with InvalidNullifier ;;
  sanad ← map_err (fun _ => InvalidNullifier) (wire_to_hash (nf_sanad_id n));
  seal_ref ← map_err (fun _ => InvalidNullifier) (wire_to_hash (source_seal_ref n));
  reject (negb (bool_decide (wire_of_hash (compute_nullifier sanad (nf_source_chain n) seal_ref)
                             = nullifier n))) with InvalidNullifier ;;
  Ok tt.

(** The number of index entries. *)
Definition total_indexed {K} `{Countable K} (m : gmap K (list string)) : nat :=
  sum_list (map (fun e => length e.2) (map_to_list m)).

(** [validate_registry] *)
Definition validate_registry (r : NullifierRegistry) : result ReplayError unit :=
  reject (negb (nr_version r =? REPLAY_CONSTITUTION_VERSION)%N)
    with RegistryError "Invalid constitution version" ;;
  _ ← try_each validate_nullifier (sorted_values (nullifiers r));
  reject (negb (bool_decide (total_indexed (by_sanad_id r) = size (nullifiers r))))
    with RegistryError "Sanad ID index inconsistent" ;;
  Ok tt.
End Constitution.

(** ** Histories of the nullifier registry

    A registry is reachable when some history of operations, accepted or refused,
    leads to it from the empty one. *)

Inductive nr_op :=
| NrRegister (n : ReplayNullifier)
| NrConsume (h : Hash)
| NrCleanup (now : N).

Definition nr_step (r : NullifierRegistry) (o : nr_op) : NullifierRegistry :=
  match o with
  | NrRegister n => match register r n with Ok r' => r' | Err _ => r end
  | NrConsume h => match consume r h with Ok r' => r' | Err _ => r end
  | NrCleanup now => (cleanup_expired now r).1
  end.

Inductive nr_reachable : NullifierRegistry -> Prop :=
| nr_start : nr_reachable nullifier_registry_new
| nr_next r o : nr_reachable r -> nr_reachable (nr_step r o).

(** * Proofs *)

(** ** The proof registry *)

Section ProofRegistryFacts.
Variable sha256 : bytes -> Bytes32.
Variable cbor : HashWire * HashWire * HashWire * ChainId * ChainId -> option bytes.
Local Notation kh := (key_hash sha256 cbor).
Local Notation run := (reg_run sha256 cbor).
Local Notation step := (reg_step sha256 cbor).

(** Entries are never removed, and acceptance is never withdrawn. *)
Lemma reg_step_keeps r o h e :
  entries r !! h = Some e ->
  exists e', entries (step r o) !! h = Some e' /\ (accepted e = true -> accepted e' = true).
Proof.
  intros He. destruct o as [k t|k|k t]; simpl;
    unfold record_proof, mark_accepted, consume_if_unconsumed; repeat case_match; simpl;
    destruct (decide (kh k = h)) as [<-|Hn]; simplify_map_eq; eauto.
Qed.

Lemma reg_run_keeps ops r h e :
  entries r !! h = Some e ->
  exists e', entries (run r ops) !! h = Some e' /\ (accepted e = true -> accepted e' = true).
Proof.
  revert r e; induction ops as [|o ops IH]; simpl; intros r e He; [eauto|].
  destruct (reg_step_keeps r o h e He) as (e1 & He1 & Ha1).
  destruct (IH _ _ He1) as (e2 & He2 & Ha2). eauto.
Qed.

Lemma consume_ok_iff r k t :
  (consume_if_unconsumed sha256 cbor r k t).2 = Ok true <-> entries r !! kh k = None.
Proof. unfold consume_if_unconsumed. repeat case_match; simpl; naive_solver. Qed.

Lemma consumes_fresh r h o :
  consumes sha256 cbor r h o = true ->
  entries r !! h = None /\ is_Some (entries (step r o) !! h).
Proof.
  destruct o as [?|?|k t]; simpl; try done. intros [Hk Hc]%andb_true_iff.
  apply bool_decide_eq_true in Hk as <-. apply bool_decide_eq_true in Hc.
  apply consume_ok_iff in Hc. split; [done|].
  unfold consume_if_unconsumed. rewrite Hc. simpl. rewrite lookup_insert_eq. eauto.
Qed.

Lemma no_consumption_of_seen h ops : forall r,
  is_Some (entries r !! h) -> consumptions_of sha256 cbor h r ops = 0.
Proof.
  induction ops as [|o ops IH]; simpl; intros r [e He]; [done|].
  destruct (consumes sha256 cbor r h o) eqn:Hc.
  - apply consumes_fresh in Hc as [? _]. congruence.
  - destruct (reg_step_keeps r o h e He) as (e' & He' & _). rewrite IH; eauto.
Qed.

Lemma at_most_one_consumption h ops : forall r, consumptions_of sha256 cbor h r ops <= 1.
Proof.
  induction ops as [|o ops IH]; simpl; intros r; [lia|].
  destruct (consumes sha256 cbor r h o) eqn:Hc; [|apply IH].
  apply consumes_fresh in Hc as [_ Hs]. rewrite no_consumption_of_seen; [lia|done].
Qed.
End ProofRegistryFacts.

(** a proof is consumed at most once.  In any execution of the registry, from
    any state, at most one [consume_if_unconsumed] with a given key hash returns
    [Ok(true)]: it does so exactly on a key never recorded, and from then on,
    whatever operations follow, it answers [Ok(false)] and changes nothing. *)
Theorem proof_consumed_at_most_once (sha256 : bytes -> Bytes32)
    (cbor : HashWire * HashWire * HashWire * ChainId * ChainId -> option bytes)
    (r : ReplayRegistry) (ops : list reg_op) (k : ReplayKey) (t : N) :
  consumptions_of sha256 cbor (key_hash sha256 cbor k) r ops <= 1 /\
  ((consume_if_unconsumed sha256 cbor r k t).2 = Ok true <->
     has_been_seen sha256 cbor r k = false) /\
  (has_been_seen sha256 cbor r k = false ->
     let r' := reg_run sha256 cbor (consume_if_unconsumed sha256 cbor r k t).1 ops in
     forall k2 t2, key_hash sha256 cbor k2 = key_hash sha256 cbor k ->
       consume_if_unconsumed sha256 cbor r' k2 t2 = (r', Ok false)).
Proof.
  assert (Hs : has_been_seen sha256 cbor r k = false <->
               entries r !! key_hash sha256 cbor k = None).
  { unfold has_been_seen. by rewrite bool_decide_eq_false, <- eq_None_not_Some. }
  split; [apply at_most_one_consumption|]. split; [by rewrite consume_ok_iff|].
  intros Hnone%Hs r' k2 t2 Hk.
  destruct (reg_run_keeps sha256 cbor ops (consume_if_unconsumed sha256 cbor r k t).1
              (key_hash sha256 cbor k) (mkReplayEntry k t 0 true)) as (e & He & Ha).
  { unfold consume_if_unconsumed. rewrite Hnone. simpl. by rewrite lookup_insert_eq. }
  fold r' in He. unfold consume_if_unconsumed. by rewrite Hk, He, Ha.
Qed.

(** ** Index keys *)

Lemma hash_key_inj h1 h2 : hash_key h1 = hash_key h2 -> h1 = h2.
Proof.
  unfold hash_key. intros H%(f_equal as_bytes). rewrite !as_bytes_of_bytes in H.
  by apply hex_encode_inj, b32_inj in H.
Qed.

Lemma index_key_ok w k :
  index_key w = Ok k <-> exists h, wire_to_hash w = Ok h /\ k = hash_key h.
Proof. unfold index_key. destruct (wire_to_hash w); simpl; naive_solver. Qed.

Lemma index_key_hash w h : index_key w = Ok (hash_key h) <-> wire_to_hash w = Ok h.
Proof.
  rewrite index_key_ok. split; [|eauto]. intros (h' & -> & Hk). by apply hash_key_inj in Hk as ->.
Qed.

(** ** Counting the entries of an index *)

Section Indices.
Context {K : Type} `{Countable K}.
Implicit Types m : gmap K (list string).

Lemma total_lookup m c l :
  m !! c = Some l -> total_indexed m = length l + total_indexed (delete c m).
Proof.
  intros Hc. unfold total_indexed. rewrite <- (insert_delete_id m c l Hc) at 1.
  rewrite (map_to_list_insert _ c l) by apply lookup_delete_eq. done.
Qed.

Lemma total_default m c :
  total_indexed m = length (default [] (m !! c)) + total_indexed (delete c m).
Proof.
  destruct (m !! c) eqn:Hc; simpl; [by apply total_lookup|]. by rewrite delete_id.
Qed.

Lemma total_insert m c l : total_indexed (<[c := l]> m) = length l + total_indexed (delete c m).
Proof.
  rewrite (total_lookup _ c l) by apply lookup_insert_eq. by rewrite delete_insert_eq.
Qed.

(** An index [m] of the nullifiers [ns] by the key relation [f]: its lists hold
    exactly the keys of the nullifiers with that index key, once each, and
    no list is empty. *)
Record index_ok (f : ReplayNullifier -> K -> Prop) (ns : gmap string ReplayNullifier) m : Prop := {
  ix_mem : forall c k, k ∈ default [] (m !! c) <-> exists n, ns !! k = Some n /\ f n c;
  ix_lists : forall c l, m !! c = Some l -> NoDup l /\ l <> [];
  ix_total : total_indexed m = size ns
}.

Variable f : ReplayNullifier -> K -> Prop.
Hypothesis f_fun : forall n c c', f n c -> f n c' -> c' = c.

Lemma index_empty : index_ok f ∅ ∅.
Proof.
  split; [|by intros|done]. intros c k. rewrite lookup_empty. simpl.
  rewrite elem_of_nil. split; [done|]. intros (n & Hn & _). by rewrite lookup_empty in Hn.
Qed.

Lemma ix_nodup ns m c : index_ok f ns m -> NoDup (default [] (m !! c)).
Proof.
  intros Hok. destruct (m !! c) eqn:Hc; simpl; [|apply NoDup_nil_2]. by eapply ix_lists in Hc as [].
Qed.

Lemma index_push ns m k n c :
  index_ok f ns m -> ns !! k = None -> f n c -> index_ok f (<[k := n]> ns) (push_at c k m).
Proof.
  intros Hok Hk Hf. unfold push_at. split.
  - intros c' k'. destruct (decide (c' = c)) as [->|Hne].
    + rewrite lookup_insert_eq. simpl. rewrite elem_of_app, list_elem_of_singleton, ix_mem by done.
      destruct (decide (k' = k)) as [->|]; simplify_map_eq; naive_solver.
    + rewrite lookup_insert_ne, ix_mem by done.
      destruct (decide (k' = k)) as [->|]; simplify_map_eq; naive_solver.
  - intros c' l. destruct (decide (c' = c)) as [->|Hne].
    + rewrite lookup_insert_eq. intros [= <-]. split; [|by destruct (default [] (m !! c))].
      apply NoDup_app. split_and!; [by eapply ix_nodup| |apply NoDup_singleton].
      intros x Hx ->%list_elem_of_singleton. apply (ix_mem f _ _ Hok) in Hx. naive_solver.
    + rewrite lookup_insert_ne by done. by apply (ix_lists f ns).
  - rewrite total_insert, map_size_insert_None, <- (ix_total f _ _ Hok), length_app by done.
    rewrite (total_default m c). simpl. lia.
Qed.

Lemma index_update ns m k n n' :
  index_ok f ns m -> ns !! k = Some n -> (forall c, f n c <-> f n' c) ->
  index_ok f (<[k := n']> ns) m.
Proof.
  intros Hok Hk Hf. split; [|apply (ix_lists f ns m Hok)|].
  - intros c k'. rewrite (ix_mem f ns m Hok).
    destruct (decide (k' = k)) as [->|]; simplify_map_eq; naive_solver.
  - by rewrite map_size_insert_Some, (ix_total f ns m Hok) by eauto.
Qed.
End Indices.

(** [retain] on a list without duplicates drops exactly one entry. *)
Lemma retain_spec (k : string) (l : list string) :
  NoDup l -> k ∈ l ->
  let l' := List.filter (fun y => negb (bool_decide (y = k))) l in
  NoDup l' /\ (forall x, x ∈ l' <-> x ∈ l /\ x <> k) /\ length l = S (length l').
Proof.
  intros Hnd. induction Hnd as [|y l Hy Hnd IH]; intros Hk; [by apply elem_of_nil in Hk|].
  cbn -[bool_decide]. destruct (decide (y = k)) as [->|Hne].
  - rewrite bool_decide_true by done. simpl.
    assert (Hid : List.filter (fun y => negb (bool_decide (y = k))) l = l).
    { clear -Hy. induction l as [|z l IH]; [done|]. cbn -[bool_decide].
      apply not_elem_of_cons in Hy as [Hz Hl]. rewrite bool_decide_false by done.
      simpl. by rewrite IH. }
    rewrite Hid. split_and!; [done| |done]. intros x. rewrite elem_of_cons. naive_solver.
  - rewrite bool_decide_false by done. simpl.
    apply elem_of_cons in Hk as [|Hk]; [congruence|]. destruct (IH Hk) as (Hn & Hm & Hl).
    split_and!; [|intros x; rewrite !elem_of_cons, Hm; naive_solver|lia].
    apply NoDup_cons. split; [rewrite Hm; tauto|done].
Qed.

Section IndexDrop.
Context {K : Type} `{Countable K}.
Variable f : ReplayNullifier -> K -> Prop.
Hypothesis f_fun : forall n c c', f n c -> f n c' -> c' = c.

Lemma index_drop ns (m : gmap K (list string)) k n c :
  index_ok f ns m -> ns !! k = Some n -> f n c -> index_ok f (delete k ns) (drop_at c k m).
Proof.
  intros Hok Hk Hf.
  assert (Hin : k ∈ default [] (m !! c)) by (apply (ix_mem f ns m Hok); eauto).
  unfold drop_at. destruct (m !! c) as [l|] eqn:Hc; simpl in Hin; [|by apply elem_of_nil in Hin].
  destruct (ix_lists f ns m Hok c l Hc) as [Hnd _].
  destruct (retain_spec k l Hnd Hin) as (Hnd' & Hm & Hlen).
  set (l' := List.filter _ l) in *.
  assert (Hidx : forall m', (forall c', default [] (m' !! c') =
                     if decide (c' = c) then l' else default [] (m !! c')) ->
            (forall c' l0, m' !! c' = Some l0 -> NoDup l0 /\ l0 <> []) ->
            total_indexed m' = pred (total_indexed m) -> index_ok f (delete k ns) m').
  { intros m' Hl Hd Ht. split; [|done|].
    - intros c' k'. rewrite Hl. destruct (decide (k' = k)) as [->|Hne'].
      + rewrite lookup_delete_eq. split; [|naive_solver]. case_decide as Hd'.
        * rewrite Hm. tauto.
        * rewrite (ix_mem f ns m Hok). intros (n' & Hn' & Hf'). simplify_eq.
          destruct Hd'. by eapply f_fun.
      + rewrite lookup_delete_ne by done. rewrite <- (ix_mem f ns m Hok). case_decide; [|done].
        subst c'. rewrite Hm, Hc. simpl. tauto.
    - rewrite Ht, (ix_total f ns m Hok), map_size_delete, Hk. done. }
  clearbody l'. destruct l' as [|x l0]; apply Hidx.
  - intros c'. case_decide; [subst; by rewrite lookup_delete_eq|by rewrite lookup_delete_ne].
  - intros c' l0 Hl0. apply lookup_delete_Some in Hl0 as [_ Hl0]. by eapply (ix_lists f ns m Hok).
  - rewrite (total_lookup m c l Hc). simpl in Hlen. lia.
  - intros c'. case_decide; [subst; by rewrite lookup_insert_eq|by rewrite lookup_insert_ne].
  - intros c' l1. destruct (decide (c' = c)) as [->|]; simplify_map_eq; [naive_solver|].
    by apply (ix_lists f ns m Hok).
  - rewrite total_insert, (total_lookup m c l Hc), Hlen. done.
Qed.
End IndexDrop.

(** ** The invariant of the nullifier registry *)

Definition by_sanad (n : ReplayNullifier) (c : string) : Prop := index_key (nf_sanad_id n) = Ok c.
Definition by_chain (n : ReplayNullifier) (c : N) : Prop := nf_source_chain n = c.

Lemma by_sanad_fun n c c' : by_sanad n c -> by_sanad n c' -> c' = c.
Proof. unfold by_sanad. congruence. Qed.
Lemma by_chain_fun n c c' : by_chain n c -> by_chain n c' -> c' = c.
Proof. unfold by_chain. congruence. Qed.

Record nr_ok (r : NullifierRegistry) : Prop := {
  ok_version : nr_version r = REPLAY_CONSTITUTION_VERSION;
  ok_keys : forall k n, nullifiers r !! k = Some n ->
              index_key (nullifier n) = Ok k /\ exists sk, by_sanad n sk;
  ok_sanad : index_ok by_sanad (nullifiers r) (by_sanad_id r);
  ok_chain : index_ok by_chain (nullifiers r) (by_source_chain r)
}.

Lemma nr_ok_new : nr_ok nullifier_registry_new.
Proof. split; [done| |apply index_empty|apply index_empty]. simpl. intros k n. by rewrite lookup_empty. Qed.

Lemma register_inv r n r' :
  register r n = Ok r' ->
  exists nk sk, index_key (nullifier n) = Ok nk /\ index_key (nf_sanad_id n) = Ok sk /\
    nullifiers r !! nk = None /\
    r' = mkNullifierRegistry (nr_version r) (<[nk := n]> (nullifiers r))
           (push_at sk nk (by_sanad_id r)) (push_at (nf_source_chain n) nk (by_source_chain r)).
Proof.
  unfold register. intros (nk & Hnk & (sk & Hsk & [Hnew [= <-]]%guard_err_ok)%bind_ok)%bind_ok.
  apply bool_decide_eq_false, eq_None_not_Some in Hnew. exists nk, sk. done.
Qed.

Lemma register_ok r n r' : nr_ok r -> register r n = Ok r' -> nr_ok r'.
Proof.
  intros Hr (nk & sk & Hnk & Hsk & Hnew & ->)%register_inv. split; simpl.
  - apply (ok_version r Hr).
  - intros k m. destruct (decide (k = nk)) as [->|]; simplify_map_eq; [|by apply (ok_keys r Hr)].
    intros [= <-]. unfold by_sanad. eauto.
  - apply index_push; [apply by_sanad_fun|apply (ok_sanad r Hr)|done|done].
  - apply index_push; [apply by_chain_fun|apply (ok_chain r Hr)|done|done].
Qed.

Definition consumed_nullifier (n : ReplayNullifier) : ReplayNullifier :=
  mkNullifier (nullifier n) (nf_sanad_id n) (nf_source_chain n) (source_seal_ref n)
    (registered_at n) (expires_at n) true.

Lemma consume_inv r h r' :
  consume r h = Ok r' ->
  exists n, nullifiers r !! hash_key h = Some n /\ consumed n = false /\
    r' = mkNullifierRegistry (nr_version r)
           (<[hash_key h := consumed_nullifier n]> (nullifiers r))
           (by_sanad_id r) (by_source_chain r).
Proof. unfold consume. repeat case_match; naive_solver. Qed.

Lemma consume_ok r h r' : nr_ok r -> consume r h = Ok r' -> nr_ok r'.
Proof.
  intros Hr (n & Hn & _ & ->)%consume_inv. split; simpl.
  - apply (ok_version r Hr).
  - intros k m. destruct (decide (k = hash_key h)) as [->|]; simplify_map_eq;
      [|by apply (ok_keys r Hr)].
    intros [= <-]. by apply (ok_keys r Hr) in Hn.
  - eapply index_update; [apply (ok_sanad r Hr)|done|done].
  - eapply index_update; [apply (ok_chain r Hr)|done|done].
Qed.

Lemma remove_ok r k : nr_ok r ->
  exists r', remove r k = (r', Ok tt) /\ nr_ok r' /\ nullifiers r' = delete k (nullifiers r).
Proof.
  intros Hr. unfold remove. destruct (nullifiers r !! k) as [n|] eqn:Hk.
  - destruct (ok_keys r Hr k n Hk) as (_ & sk & Hsk). unfold by_sanad in Hsk. rewrite Hsk.
    eexists. split; [done|]. split; [|done]. split; simpl.
    + apply (ok_version r Hr).
    + intros k' m [_ Hm]%lookup_delete_Some. by apply (ok_keys r Hr).
    + by eapply index_drop; [apply by_sanad_fun|apply (ok_sanad r Hr)|..].
    + by eapply index_drop; [apply by_chain_fun|apply (ok_chain r Hr)|..].
  - eexists. split; [done|]. split; [done|]. by rewrite delete_id.
Qed.

Lemma remove_all_ok ks : forall r, nr_ok r ->
  exists r', remove_all r ks = (r', Ok tt) /\ nr_ok r' /\
    forall k, nullifiers r' !! k = if decide (k ∈ ks) then None else nullifiers r !! k.
Proof.
  induction ks as [|k ks IH]; simpl; intros r Hr.
  - exists r. split_and!; [done|done|]. intros k.
    by destruct (decide (k ∈ [])) as [?%elem_of_nil|].
  - destruct (remove_ok r k Hr) as (r1 & -> & Hr1 & Hns). destruct (IH r1 Hr1) as (r2 & -> & Hr2 & Hl).
    exists r2. split_and!; [done|done|]. intros k'. rewrite Hl, Hns.
    destruct (decide (k' = k)) as [->|Hne].
    + rewrite lookup_delete_eq. assert (k ∈ k :: ks) by left. repeat case_decide; done.
    + rewrite lookup_delete_ne by done.
      assert (k' ∈ k :: ks <-> k' ∈ ks) by (rewrite elem_of_cons; tauto).
      repeat case_decide; tauto.
Qed.

Lemma elem_of_expired_keys now r k :
  k ∈ expired_keys now r <-> exists n, nullifiers r !! k = Some n /\ is_expired now n = true.
Proof.
  unfold expired_keys. rewrite list_elem_of_In, filter_In, <- list_elem_of_In, elem_of_sorted_keys.
  split; [intros [[n Hn] He]; rewrite Hn in He; eauto|]. intros (n & -> & He). eauto.
Qed.

Lemma cleanup_ok now r : nr_ok r ->
  exists r', cleanup_expired now r = (r', Ok (length (expired_keys now r))) /\ nr_ok r' /\
    forall k, nullifiers r' !! k =
      match nullifiers r !! k with
      | Some n => if is_expired now n then None else Some n
      | None => None
      end.
Proof.
  intros Hr. unfold cleanup_expired. destruct (remove_all_ok (expired_keys now r) r Hr)
    as (r' & -> & Hr' & Hl). exists r'. split_and!; [done|done|]. intros k. rewrite Hl.
  case_decide as Hd; rewrite elem_of_expired_keys in Hd.
  - destruct Hd as (n & -> & ->). done.
  - destruct (nullifiers r !! k) as [n|]; [|done]. destruct (is_expired now n) eqn:He; [|done].
    destruct Hd. eauto.
Qed.

Lemma nr_reachable_ok r : nr_reachable r -> nr_ok r.
Proof.
  induction 1 as [|r o Hr IH]; [apply nr_ok_new|]. destruct o as [n|h|now]; simpl.
  - destruct (register r n) eqn:E; [by eapply register_ok|done].
  - destruct (consume r h) eqn:E; [by eapply consume_ok|done].
  - destruct (cleanup_ok now r IH) as (r' & -> & Hr' & _). done.
Qed.

(** ** What a reachable registry answers *)

Lemma elem_of_resolve {K} `{Countable K} f r (m : gmap K (list string)) c n :
  index_ok f (nullifiers r) m ->
  n ∈ resolve r (m !! c) <-> exists k, nullifiers r !! k = Some n /\ f n c.
Proof.
  intros Hok. assert (Hm := ix_mem f _ _ Hok c). unfold resolve.
  destruct (m !! c) as [l|]; simpl in Hm.
  - rewrite list_elem_of_omap. split.
    + intros (k & (n' & Hn' & Hf)%Hm & Hn). rewrite Hn in Hn'. simplify_eq. eauto.
    + intros (k & Hn & Hf). exists k. split; [apply Hm; eauto|done].
  - rewrite elem_of_nil. split; [done|]. intros (k & Hn & Hf).
    apply (elem_of_nil k). apply Hm. eauto.
Qed.

Lemma validate_registry_ok sha256 r : nr_ok r ->
  validate_registry sha256 r = try_each (validate_nullifier sha256) (sorted_values (nullifiers r)).
Proof.
  intros Hr. unfold validate_registry. rewrite (ok_version r Hr), N.eqb_refl.
  cbn [negb guard_err].
  destruct (try_each _ _) as [[]|e]; cbn [mbind result_bind]; [|done].
  rewrite bool_decide_true by apply (ix_total _ _ _ (ok_sanad r Hr)). done.
Qed.

(** in every reachable nullifier registry the two indices are exact.  The
    lookups by Sanad and by source chain return the registered nullifiers with that
    Sanad or chain, all of them and no other; a lookup by hash returns a nullifier
    of that hash; the registry passes [validate_registry] exactly when each of its
    nullifiers passes [validate_nullifier]; and [cleanup_expired] succeeds, counts
    and removes the expired entries and keeps every other one. *)
Theorem nullifier_registry_exact (sha256 : bytes -> Bytes32) (r : NullifierRegistry) :
  nr_reachable r ->
  (forall h n, n ∈ get_by_sanad_id r h <->
     exists k, nullifiers r !! k = Some n /\ wire_to_hash (nf_sanad_id n) = Ok h) /\
  (forall c n, n ∈ get_by_source_chain r c <->
     exists k, nullifiers r !! k = Some n /\ nf_source_chain n = c) /\
  (forall h n, nf_get r h = Some n -> wire_to_hash (nullifier n) = Ok h) /\
  (validate_registry sha256 r = Ok tt <->
     forall k n, nullifiers r !! k = Some n -> validate_nullifier sha256 n = Ok tt) /\
  (forall now, exists r',
     cleanup_expired now r = (r', Ok (length (expired_keys now r))) /\ nr_reachable r' /\
     forall h, nf_get r' h = match nf_get r h with
                             | Some n => if is_expired now n then None else Some n
                             | None => None
                             end).
Proof.
  intros Hreach. assert (Hr := nr_reachable_ok r Hreach). split_and!.
  - intros h n. unfold get_by_sanad_id. rewrite (elem_of_resolve by_sanad) by apply (ok_sanad r Hr).
    unfold by_sanad. by setoid_rewrite index_key_hash.
  - intros c n. apply (elem_of_resolve by_chain), (ok_chain r Hr).
  - intros h n Hn. by apply (ok_keys r Hr) in Hn as [Hk%index_key_hash _].
  - rewrite validate_registry_ok, try_each_ok, Forall_forall by done. split.
    + intros Hall k n Hn. eapply Hall, elem_of_sorted_values; eauto.
    + intros Hall n [k Hk]%elem_of_sorted_values. eauto.
  - intros now. destruct (cleanup_ok now r Hr) as (r' & Hc & _ & Hl). exists r'.
    split_and!; [done| |intros h; apply Hl].
    replace r' with (nr_step r (NrCleanup now)) by (simpl; by rewrite Hc). by constructor.
Qed.

Lemma register_taken r n h :
  wire_to_hash (nullifier n) = Ok h -> is_ok (wire_to_hash (nf_sanad_id n)) = true ->
  register r n = Err AlreadyRegistered <-> is_Some (nf_get r h).
Proof.
  intros Hn%index_key_hash [s Hs%index_key_hash]%is_ok_inv. unfold register, nf_get.
  rewrite Hn, Hs. cbn [mbind result_bind]. case_bool_decide; simpl; naive_solver.
Qed.

(** A nullifier not in the registry is registered, and can be consumed if it was not. *)
Lemma register_then_consume r n h :
  wire_to_hash (nullifier n) = Ok h -> is_ok (wire_to_hash (nf_sanad_id n)) = true ->
  nf_get r h = None ->
  exists r', register r n = Ok r' /\ (consumed n = false -> is_ok (consume r' h) = true).
Proof.
  intros Hn%index_key_hash [s Hs%index_key_hash]%is_ok_inv Hnone. unfold register, nf_get in *.
  rewrite Hn, Hs. cbn [mbind result_bind]. rewrite Hnone. eexists. split; [reflexivity|].
  intros Hc. unfold consume. cbn [nullifiers]. by rewrite lookup_insert_eq, Hc.
Qed.

Lemma nr_run_reachable ops r : nr_reachable r -> nr_reachable (fold_left nr_step ops r).
Proof. revert r. induction ops as [|o ops IH]; intros r Hr; [done|]. apply IH. by constructor. Qed.

(** Cleanups of a history that run before [limit]. *)
Definition before (limit : N) (o : nr_op) : Prop :=
  match o with NrCleanup now => (now < limit)%N | _ => True end.

Lemma nr_step_keeps_consumed r o h n :
  nr_ok r -> nf_get r h = Some n -> consumed n = true -> before (expires_at n) o ->
  nf_get (nr_step r o) h = Some n.
Proof.
  unfold nf_get. intros Hr Hn Hc Hb. destruct o as [m|h'|now]; simpl.
  - destruct (register r m) eqn:E; [|done].
    apply register_inv in E as (nk & sk & _ & _ & Hnew & ->). simpl.
    rewrite lookup_insert_ne; [done|]. intros ->. congruence.
  - destruct (consume r h') eqn:E; [|done]. apply consume_inv in E as (n' & Hn' & Hc' & ->). simpl.
    rewrite lookup_insert_ne; [done|]. intros Heq. rewrite Heq in Hn'. congruence.
  - destruct (cleanup_ok now r Hr) as (r' & -> & _ & Hl). simpl. rewrite Hl, Hn.
    unfold is_expired. simpl in Hb. by rewrite (proj2 (N.leb_gt _ _) Hb).
Qed.

Lemma nr_run_keeps_consumed ops : forall r h n,
  nr_reachable r -> nf_get r h = Some n -> consumed n = true ->
  Forall (before (expires_at n)) ops -> nf_get (fold_left nr_step ops r) h = Some n.
Proof.
  induction ops as [|o ops IH]; simpl; intros r h n Hr Hn Hc Hb; [done|].
  inversion_clear Hb. apply IH; [by constructor| |done|done].
  apply nr_step_keeps_consumed; [by apply nr_reachable_ok|done..].
Qed.

(** a nullifier is consumed at most once until a cleanup at or after its expiry.  After a
    successful [consume], whatever registrations, consumptions and cleanups before its
    expiry follow, consuming it again is refused and so is registering it again.  The next
    cleanup at or after its expiry forgets it: consuming it answers that it is not found, and
    registering a nullifier of the same value, not consumed, succeeds, after which it can be
    consumed once more. *)
Theorem nullifier_single_use (r r1 : NullifierRegistry) (h : Hash) :
  nr_reachable r -> consume r h = Ok r1 ->
  exists n, nf_get r h = Some n /\ consumed n = false /\
    forall n', wire_to_hash (nullifier n') = Ok h -> is_ok (wire_to_hash (nf_sanad_id n')) = true ->
    forall ops, Forall (before (expires_at n)) ops ->
      let r2 := fold_left nr_step ops r1 in
      (consume r2 h = Err AlreadyConsumed /\ register r2 n' = Err AlreadyRegistered) /\
      (forall now, (expires_at n <= now)%N ->
         let r3 := nr_step r2 (NrCleanup now) in
         consume r3 h = Err NotFound /\
         exists r4, register r3 n' = Ok r4 /\ (consumed n' = false -> is_ok (consume r4 h) = true)).
Proof.
  intros Hr Hc. assert (Hr1 : nr_reachable r1).
  { replace r1 with (nr_step r (NrConsume h)) by (simpl; by rewrite Hc). by constructor. }
  apply consume_inv in Hc as (n & Hn & Hf & Hr1e). exists n. split; [done|]. split; [done|].
  intros n' Hn' Hs' ops Hops r2.
  assert (Hn1 : nf_get r1 h = Some (consumed_nullifier n))
    by (subst r1; unfold nf_get; simpl; by rewrite lookup_insert_eq).
  assert (Hn2 : nf_get r2 h = Some (consumed_nullifier n)) by (by apply nr_run_keeps_consumed).
  assert (Hr2 : nr_reachable r2) by (by apply nr_run_reachable).
  split.
  - split; [unfold consume; unfold nf_get in Hn2; by rewrite Hn2|].
    apply (register_taken r2 n' h Hn' Hs'). by rewrite Hn2.
  - intros now Hnow. cbn [nr_step].
    destruct (cleanup_ok now r2 (nr_reachable_ok r2 Hr2)) as (r3 & -> & _ & Hl). cbn [fst].
    assert (Hn3 : nf_get r3 h = None).
    { unfold nf_get in *. rewrite Hl, Hn2. unfold is_expired. simpl.
      by rewrite (proj2 (N.leb_le _ _) Hnow). }
    split; [unfold consume; unfold nf_get in Hn3; by rewrite Hn3|].
    by apply register_then_consume.
Qed.

(** Two nullifiers of one Sanad, the first consumed. *)
Definition demo_hash (b : byte) : Hash := fill32 b.
Definition demo_nullifier (b : byte) (now : N) : ReplayNullifier :=
  ReplayNullifier_new toy_hash now (demo_hash b) 2 (demo_hash Byte.x07).
Definition demo_nullifier_hash (b : byte) : Hash :=
  compute_nullifier toy_hash (demo_hash b) 2 (demo_hash Byte.x07).

Definition demo_ops : list nr_op :=
  [NrRegister (demo_nullifier Byte.x01 100); NrRegister (demo_nullifier Byte.x02 700);
   NrRegister (demo_nullifier Byte.x01 800)].
Definition demo_registry : NullifierRegistry := fold_left nr_step demo_ops nullifier_registry_new.

Example demo_valid : validate_registry toy_hash demo_registry = Ok tt.
Proof. vm_compute. reflexivity. Qed.
Example demo_two : size (nullifiers demo_registry) = 2.
Proof. vm_compute. reflexivity. Qed.

Lemma demo_reachable : nr_reachable demo_registry.
Proof. repeat constructor. Qed.

Lemma nullifier_registry_exact_witness :
  get_by_sanad_id demo_registry (demo_hash Byte.x01) = [demo_nullifier Byte.x01 100] /\
  exists k, nullifiers demo_registry !! k = Some (demo_nullifier Byte.x02 700) /\
            nf_source_chain (demo_nullifier Byte.x02 700) = 2%N.
Proof.
  split; [vm_compute; reflexivity|].
  refine (proj1 (proj1 (proj2 (nullifier_registry_exact toy_hash demo_registry demo_reachable))
            2%N (demo_nullifier Byte.x02 700)) _).
  apply (bool_decide_unpack _). vm_compute. exact I.
Defined.

Lemma demo_consumed : is_ok (consume demo_registry (demo_nullifier_hash Byte.x01)) = true.
Proof. vm_compute. reflexivity. Qed.
Lemma demo_expiry :
  fmap expires_at (nf_get demo_registry (demo_nullifier_hash Byte.x01)) = Some 604900%N.
Proof. vm_compute. reflexivity. Qed.
Lemma demo_decodes :
  wire_to_hash (nullifier (demo_nullifier Byte.x01 100)) = Ok (demo_nullifier_hash Byte.x01) /\
  is_ok (wire_to_hash (nf_sanad_id (demo_nullifier Byte.x01 100))) = true.
Proof. split; [apply wire_to_of_hash|vm_compute; reflexivity]. Qed.

Lemma nullifier_single_use_witness :
  exists r1, (consume demo_registry (demo_nullifier_hash Byte.x01) = Ok r1) /\
    consume (fold_left nr_step [NrCleanup 200] r1) (demo_nullifier_hash Byte.x01)
      = Err AlreadyConsumed /\
    consume (nr_step (fold_left nr_step [NrCleanup 200] r1) (NrCleanup 604900))
      (demo_nullifier_hash Byte.x01) = Err NotFound.
Proof.
  destruct (is_ok_inv _ demo_consumed) as [r1 Hr1]. exists r1. split; [exact Hr1|].
  destruct (nullifier_single_use demo_registry r1 _ demo_reachable Hr1) as (n & Hn & _ & Hs).
  assert (He := demo_expiry). rewrite Hn in He. injection He as He.
  destruct (Hs _ (proj1 demo_decodes) (proj2 demo_decodes) [NrCleanup 200]) as [Hbefore Hafter].
  { constructor; [|constructor]. cbn [before]. rewrite He. reflexivity. }
  split; [exact (proj1 Hbefore)|].
  refine (proj1 (Hafter 604900%N _)). rewrite He. reflexivity.
Defined.

(** [stats] subtracts the consumed and the expired from the total: a nullifier that
    is both is subtracted twice and the unsigned difference wraps around. *)
Example stats_wraps :
  st_valid (stats 700000 (fold_left nr_step [NrRegister (demo_nullifier Byte.x01 100);
    NrConsume (demo_nullifier_hash Byte.x01)] nullifier_registry_new)) = u64_max.
Proof. vm_compute. reflexivity. Qed.
