(* ===== verification/Lease.v ===== *)
(** * Transfer leases (csv-protocol/src/lease.rs)

    The manager that leases a Sanad to one owner for a time.  Every call that reads the
    clock takes its readings as arguments, and [created_at + ttl_secs] wraps at 64 bits
    as it does in a release build. *)

From S2P Require Import Prelude Ord Bytes Hashing Text Seal.

Notation LeaseId := string.

Record Lease := mkLease {
  ls_id : LeaseId;
  ls_sanad_id : SanadIdWire;
  ls_owner : HashWire;
  ls_created_at : N;
  ls_ttl_secs : N
}.

Inductive LeaseError :=
| NotFound
| IdMismatch
| OwnerMismatch (expected : HashWire)
| Expired (expires_at : N)
| AlreadyLeased (owner : HashWire) (expires_at : N)
| InvalidTtl
| InvalidLeaseId (m : string).

(** ["0".repeat(64)], the identifier a lease has until the manager sets it. *)
Definition placeholder_id : HashWire := of_bytes (replicate 64 (byte_of 48)).

(** [Lease::new], at the time [now]. *)
Definition Lease_new (now : N) (sanad : SanadIdWire) (owner : HashWire) (ttl : N) : Lease :=
  mkLease placeholder_id sanad owner now ttl.

Definition ls_expires_at (l : Lease) : N := add64 (ls_created_at l) (ls_ttl_secs l).
Definition ls_is_valid (now : N) (l : Lease) : bool := (now <=? ls_expires_at l)%N.
Definition remaining_secs (now : N) (l : Lease) : N := (ls_expires_at l - now)%N.

(** [LeaseManager]: active leases by Sanad. *)
Notation LeaseManager := (gmap SanadIdWire Lease).
Definition LeaseManager_new : LeaseManager := ∅.

Section Manager.
Variable sha256 : bytes -> Bytes32.

(** The end of [acquire]: the new lease gets its identifier and is filed. *)
Definition issue (t_create : N) (m : LeaseManager) (sanad : SanadIdWire) (owner : HashWire)
    (ttl : N) : LeaseManager * result LeaseError LeaseId :=
  let lease := Lease_new t_create sanad owner ttl in
  match wire_as_bytes (ls_id lease) with
  | Err e => (m, Err (InvalidLeaseId e))
  | Ok b =>
      let id := of_bytes (hex_encode (b32 (csv_tagged_hash sha256 (as_bytes "csv.lease.id.v1") b))) in
      (<[sanad := mkLease id (ls_sanad_id lease) (ls_owner lease) (ls_created_at lease)
                    (ls_ttl_secs lease)]> m, Ok id)
  end.

(** [acquire]: the clock is read for the existing lease, then for the new one. *)
Definition lm_acquire (t_check t_create : N) (m : LeaseManager) (sanad : SanadIdWire)
    (owner : HashWire) (ttl : N) : LeaseManager * result LeaseError LeaseId :=
  if (ttl =? 0)%N then (m, Err InvalidTtl)
  else match m !! sanad with
       | Some existing =>
           if ls_is_valid t_check existing
           then (m, Err (AlreadyLeased (ls_owner existing) (ls_expires_at existing)))
           else issue t_create m sanad owner ttl
       | None => issue t_create m sanad owner ttl
       end.
End Manager.

(** [validate] *)
Definition lm_validate (now : N) (m : LeaseManager) (id : LeaseId) (sanad : SanadIdWire)
    (owner : HashWire) : result LeaseError unit :=
  lease ← ok_or NotFound (m !! sanad);
  reject negb (bool_decide (ls_id lease = id)) with IdMismatch ;;
  reject negb (bool_decide (ls_owner lease = owner)) with OwnerMismatch (ls_owner lease) ;;
  reject negb (ls_is_valid now lease) with Expired (ls_expires_at lease) ;;
  Ok tt.

(** [release], which asks neither for the identifier nor for the owner. *)
Definition lm_release (m : LeaseManager) (sanad : SanadIdWire) : LeaseManager * bool :=
  (delete sanad m, bool_decide (is_Some (m !! sanad))).

Definition has_lease (now : N) (m : LeaseManager) (sanad : SanadIdWire) : bool :=
  match m !! sanad with Some l => ls_is_valid now l | None => false end.
Definition remaining_ttl (t1 t2 : N) (m : LeaseManager) (sanad : SanadIdWire) : option N :=
  match m !! sanad with
  | Some l => if ls_is_valid t1 l then Some (remaining_secs t2 l) else None
  | None => None
  end.

(** A history of the manager's calls. *)
Inductive lm_op :=
| LmAcquire (t_check t_create : N) (sanad : SanadIdWire) (owner : HashWire) (ttl : N)
| LmRelease (sanad : SanadIdWire).

Definition lm_step (sha256 : bytes -> Bytes32) (m : LeaseManager) (o : lm_op) : LeaseManager :=
  match o with
  | LmAcquire t1 t2 sanad owner ttl => fst (lm_acquire sha256 t1 t2 m sanad owner ttl)
  | LmRelease sanad => fst (lm_release m sanad)
  end.

(** ** Lemmas *)

(** The identifier every lease gets: the digest of 32 zero bytes. *)
Definition the_lease_id (sha256 : bytes -> Bytes32) : LeaseId :=
  of_bytes (hex_encode (b32 (csv_tagged_hash sha256 (as_bytes "csv.lease.id.v1")
                               (replicate 32 Byte.x00)))).

Lemma issue_eq sha256 t m sanad owner ttl :
  issue sha256 t m sanad owner ttl
  = (<[sanad := mkLease (the_lease_id sha256) sanad owner t ttl]> m, Ok (the_lease_id sha256)).
Proof. reflexivity. Qed.

Lemma acquire_cases sha256 t1 t2 m sanad owner ttl :
  lm_acquire sha256 t1 t2 m sanad owner ttl
  = if (ttl =? 0)%N then (m, Err InvalidTtl)
    else match m !! sanad with
         | Some l => if ls_is_valid t1 l then (m, Err (AlreadyLeased (ls_owner l) (ls_expires_at l)))
                     else (<[sanad := mkLease (the_lease_id sha256) sanad owner t2 ttl]> m,
                           Ok (the_lease_id sha256))
         | None => (<[sanad := mkLease (the_lease_id sha256) sanad owner t2 ttl]> m,
                    Ok (the_lease_id sha256))
         end.
Proof. unfold lm_acquire. by rewrite issue_eq. Qed.

Lemma lm_step_keeps sha256 m o sanad l :
  m !! sanad = Some l ->
  match o with
  | LmAcquire t _ s _ _ => s = sanad -> ls_is_valid t l = true
  | LmRelease s => s <> sanad
  end -> lm_step sha256 m o !! sanad = Some l.
Proof.
  intros Hl Ho. destruct o as [t1 t2 s owner ttl|s]; cbn.
  - rewrite acquire_cases. destruct (ttl =? 0)%N; [done|].
    destruct (decide (s = sanad)) as [->|Hne].
    + by rewrite Hl, Ho.
    + destruct (m !! s) as [l'|]; [destruct (ls_is_valid t1 l')|]; cbn;
        by rewrite ?lookup_insert_ne.
  - by rewrite lookup_delete_ne.
Qed.

(** ** Theorems *)

(** One active lease per Sanad.  Once [owner] has a Sanad's lease, then whatever is
    acquired for it before the lease expires, and whatever happens to other Sanads, as
    long as nobody releases this one: every attempt on it before the expiry is refused
    with this owner and expiry, and the lease validates for exactly this owner and
    identifier, up to its expiry. *)
Theorem user_lease_exclusive sha256 (t1 t2 ttl : N) (m m' : LeaseManager) (sanad : SanadIdWire)
    (owner : HashWire) (id : LeaseId) (calls : list lm_op)
    (Hacq : lm_acquire sha256 t1 t2 m sanad owner ttl = (m', Ok id))
    (Hcalls : Forall (fun o => match o with
       | LmAcquire t _ s _ _ => s = sanad -> (t <= add64 t2 ttl)%N
       | LmRelease s => s <> sanad end) calls) :
  let m1 := fold_left (lm_step sha256) calls m' in
  (forall t t' owner' ttl', (t <= add64 t2 ttl)%N -> ttl' <> 0%N ->
     lm_acquire sha256 t t' m1 sanad owner' ttl' = (m1, Err (AlreadyLeased owner (add64 t2 ttl)))) /\
  (forall t id' owner', lm_validate t m1 id' sanad owner' = Ok tt <->
     id' = id /\ owner' = owner /\ (t <= add64 t2 ttl)%N).
Proof.
  intros m1. set (l := mkLease (the_lease_id sha256) sanad owner t2 ttl).
  assert (Hid : id = the_lease_id sha256 /\ m' !! sanad = Some l).
  { rewrite acquire_cases in Hacq. destruct (ttl =? 0)%N; [done|].
    destruct (m !! sanad) as [l'|]; [destruct (ls_is_valid t1 l')|]; simplify_eq;
      by rewrite lookup_insert_eq. }
  destruct Hid as [-> Hl].
  assert (Hm1 : m1 !! sanad = Some l).
  { unfold m1. clear Hacq m1. revert m' Hl. induction Hcalls as [|o calls Ho Hcalls IH]; [done|].
    intros m' Hl. cbn. apply IH. apply lm_step_keeps; [done|].
    destruct o; [|done]. intros Hs. by apply N.leb_le, Ho. }
  split.
  - intros t t' owner' ttl' Ht Httl. rewrite acquire_cases, (proj2 (N.eqb_neq _ _)) by done.
    rewrite Hm1. unfold ls_is_valid. by rewrite (proj2 (N.leb_le _ _)).
  - intros t id' owner'. unfold lm_validate. rewrite Hm1. cbn [ok_or mbind result_bind].
    rewrite !guard_err_ok, !negb_false_iff, !bool_decide_eq_true. unfold ls_is_valid.
    rewrite N.leb_le. cbn. naive_solver.
Qed.

(** A lease identifier identifies nothing.  Every lease of every manager gets the same
    one, the digest of the placeholder, so the identifier got for one Sanad passes the
    check for any other; what [validate] checks is the owner's name and the expiry. *)
Theorem lease_id_does_not_bind sha256 (t1 t2 t1' t2' ttl ttl' now : N) (m m' m1 m1' : LeaseManager)
    (sanad sanad' : SanadIdWire) (owner owner' : HashWire) (id id' : LeaseId)
    (H : lm_acquire sha256 t1 t2 m sanad owner ttl = (m', Ok id))
    (H' : lm_acquire sha256 t1' t2' m1 sanad' owner' ttl' = (m1', Ok id')) :
  id = id' /\
  lm_validate now m' id' sanad owner
  = if (now <=? add64 t2 ttl)%N then Ok tt else Err (Expired (add64 t2 ttl)).
Proof.
  assert (Hid : forall t1 t2 m m' sanad owner ttl id,
    lm_acquire sha256 t1 t2 m sanad owner ttl = (m', Ok id) ->
    id = the_lease_id sha256 /\ m' !! sanad = Some (mkLease id sanad owner t2 ttl)).
  { clear. intros t1 t2 m m' sanad owner ttl id. rewrite acquire_cases.
    destruct (ttl =? 0)%N; [done|].
    destruct (m !! sanad) as [l'|]; [destruct (ls_is_valid t1 l')|]; intros; simplify_eq;
      by rewrite lookup_insert_eq. }
  apply Hid in H as [-> Hm']. apply Hid in H' as [-> _]. split; [done|].
  unfold lm_validate. rewrite Hm'. cbn. rewrite !bool_decide_true by done. cbn.
  unfold ls_is_valid, ls_expires_at. cbn. by destruct (now <=? add64 t2 ttl)%N.
Qed.

(** ** Witnesses *)

Lemma user_lease_exclusive_witness :
  let h := fun _ => zero32 in
  let m' := fst (lm_acquire h 100 100 LeaseManager_new "aa" "alice" 60) in
  lm_acquire h 160 160 m' "aa" "bob" 5 = (m', Err (AlreadyLeased "alice" 160)).
Proof.
  cbn zeta.
  destruct (user_lease_exclusive (fun _ => zero32) 100 100 60 LeaseManager_new
    (fst (lm_acquire (fun _ => zero32) 100 100 LeaseManager_new "aa" "alice" 60)) "aa" "alice"
    (the_lease_id (fun _ => zero32)) [] ltac:(reflexivity) ltac:(constructor)) as [H _].
  apply H; done.
Defined.

Lemma lease_id_does_not_bind_witness :
  let h := fun _ => zero32 in
  lm_validate 110 (fst (lm_acquire h 100 100 LeaseManager_new "aa" "alice" 60))
    (the_lease_id h) "aa" "alice" = Ok tt.
Proof.
  cbn zeta.
  apply (lease_id_does_not_bind (fun _ => zero32) 100 100 7 7 60 5 110
    LeaseManager_new (fst (lm_acquire (fun _ => zero32) 100 100 LeaseManager_new "aa" "alice" 60))
    LeaseManager_new (fst (lm_acquire (fun _ => zero32) 7 7 LeaseManager_new "bb" "bob" 5))
    "aa" "bb" "alice" "bob" (the_lease_id (fun _ => zero32)) (the_lease_id (fun _ => zero32)));
  reflexivity.
Defined.
