(* ===== verification/SealRegistry.v ===== *)
(** * Cross-chain seal consumption (csv-hash/src/nullifier.rs)

    The registry that detects a seal used twice, on one chain or on several: an
    append-only log per seal and per Sanad.  A seal's key is its canonical
    encoding, so that the round trip of [Seal] makes the log a function of the
    seal itself. *)

From Stdlib Require Import QArith.
From S2P Require Import Prelude Ord Bytes Hashing Dag DagCodec Text Seal.

Record SealConsumption := mkConsumption {
  chain : string;
  seal_ref : SealPoint;
  sc_sanad_id : Hash;
  sc_block_height : N;
  tx_hash : Hash;
  recorded_at : N
}.

Global Instance SealConsumption_eq_dec : EqDecision SealConsumption.
Proof. solve_decision. Defined.

Inductive SealStatus :=
| Unconsumed
| ConsumedOnChain (chain : string) (consumption : SealConsumption)
| DoubleSpent (consumptions : list SealConsumption).

Record SealNullifier := mkSealNullifier {
  consumed_seals : gmap bytes (list SealConsumption);
  sanad_consumption_map : gmap Hash (list SealConsumption);
  known_chains : gset string
}.

Definition seal_registry_new : SealNullifier := mkSealNullifier ∅ ∅ ∅.

Record DoubleSpendError := mkDoubleSpend {
  ds_seal_ref : SealPoint;
  existing_consumptions : list SealConsumption;
  new_consumption : SealConsumption;
  is_cross_chain : bool
}.

(** [entry(k).or_default().push(x)] *)
Definition log_at {K} `{Countable K} (k : K) (x : SealConsumption)
    (m : gmap K (list SealConsumption)) : gmap K (list SealConsumption) :=
  <[k := default [] (m !! k) ++ [x]]> m.

(** [record_consumption]: [to_canonical_bytes] does not fail. *)
Definition record_consumption (r : SealNullifier) (c : SealConsumption)
  : SealNullifier * result DoubleSpendError unit :=
  let seal_key := seal_to_canonical_bytes (seal_ref c) in
  let is_double_spend :=
    match consumed_seals r !! seal_key with
    | Some v => negb (bool_decide (v = []))
    | None => false
    end in
  let r' := mkSealNullifier (log_at seal_key c (consumed_seals r))
              (log_at (sc_sanad_id c) c (sanad_consumption_map r))
              ({[chain c]} ∪ known_chains r) in
  match is_double_spend, consumed_seals r !! seal_key with
  | true, Some existing =>
      (r', Err (mkDoubleSpend (seal_ref c) existing c
                  (existsb (fun e => negb (bool_decide (chain e = chain c))) existing)))
  | _, _ => (r', Ok tt)
  end.

(** The status a log entry amounts to. *)
Definition status_of (entry : option (list SealConsumption)) : SealStatus :=
  match entry with
  | None => Unconsumed
  | Some [c] => ConsumedOnChain (chain c) c
  | Some cs => DoubleSpent cs
  end.

(** [check_seal_status] *)
Definition check_seal_status (r : SealNullifier) (s : SealPoint) : SealStatus :=
  status_of (consumed_seals r !! seal_to_canonical_bytes s).

Definition is_seal_consumed (r : SealNullifier) (s : SealPoint) : bool :=
  bool_decide (is_Some (consumed_seals r !! seal_to_canonical_bytes s)).
Definition get_consumption_history (r : SealNullifier) (s : SealPoint) : list SealConsumption :=
  default [] (consumed_seals r !! seal_to_canonical_bytes s).
Definition get_seals_for_sanad (r : SealNullifier) (h : Hash) : list SealConsumption :=
  default [] (sanad_consumption_map r !! h).

Definition total_seals (r : SealNullifier) : nat := size (consumed_seals r).
Definition double_spend_count (r : SealNullifier) : nat :=
  size (filter (fun e => 1 < length e.2) (consumed_seals r)).

(** ** The optimised registry

    A Bloom filter answers most lookups of an unknown seal and a bounded cache
    remembers statuses.  The filter is the [bloomfilter] crate's: its operations
    are the class below, and what the registry relies on is that a filter never
    forgets a hash that was set. *)

Class BloomOps (B : Type) := {
  bloom_new : nat -> Q -> option B;
  bloom_check : B -> Hash -> bool;
  bloom_set : B -> Hash -> B
}.

Class BloomLaws (B : Type) `{BloomOps B} := {
  bloom_check_set : forall b h, bloom_check (bloom_set b h) h = true;
  bloom_check_mono : forall b h h', bloom_check b h = true -> bloom_check (bloom_set b h') h = true
}.

Section Optimized.
Variable sha256 : bytes -> Bytes32.
Context {B : Type} `{BloomOps B}.
(** The iteration order of a [HashMap]'s keys. *)
Variable hash_order : gmap bytes SealStatus -> list bytes.

(** A false-positive rate; [None] is NaN. *)
Definition rate : Type := option Q.

Record BloomFilter := mkBloom {
  bf_filter : option B;
  bf_capacity : nat;
  bf_rate : Q
}.

(** [BloomFilter::new] *)
Definition BloomFilter_new (capacity : nat) (r : rate) : BloomFilter :=
  let capacity := Nat.max capacity 1 in
  let q := match r with
           | Some q => if negb (Qle_bool q 0) && negb (Qle_bool 1 q) then q else (1 # 100)%Q
           | None => (1 # 100)%Q
           end in
  mkBloom (bloom_new capacity q) capacity q.

(** A filter that could not be built answers "maybe". *)
Definition might_contain (f : BloomFilter) (h : Hash) : bool :=
  match bf_filter f with Some b => bloom_check b h | None => true end.
Definition bloom_insert (f : BloomFilter) (h : Hash) : BloomFilter :=
  mkBloom ((fun b => bloom_set b h) <$> bf_filter f) (bf_capacity f) (bf_rate f).

Record OptimizedSealNullifier := mkOptimized {
  o_seals : gmap bytes (list SealConsumption);
  o_sanads : gmap Hash (list SealConsumption);
  o_chains : gset string;
  bloom_filter : BloomFilter;
  status_cache : gmap bytes SealStatus;
  max_cache_size : nat
}.

Definition clamp_rate (r : rate) : rate :=
  (fun q => if Qle_bool q (1 # 10000) then (1 # 10000)%Q
            else if Qle_bool (1 # 2) q then (1 # 2)%Q else q) <$> r.

Definition with_capacity (capacity : nat) (r : rate) : OptimizedSealNullifier :=
  mkOptimized ∅ ∅ ∅ (BloomFilter_new (Nat.max capacity 100) (clamp_rate r)) ∅ 1000.
Definition optimized_new : OptimizedSealNullifier :=
  with_capacity (Z.to_nat 100000) (Some (1 # 100)%Q).

(** [DomainSeparatedHash::<ReplayRegistryDomain>::hash] *)
Definition seal_hash (key : bytes) : Hash := domain_hash sha256 "csv.replay.registry.v1" key.

(** [OptimizedSealNullifier::record_consumption] *)
Definition o_record_consumption (o : OptimizedSealNullifier) (c : SealConsumption)
  : OptimizedSealNullifier * result DoubleSpendError unit :=
  let seal_key := seal_to_canonical_bytes (seal_ref c) in
  let h := seal_hash seal_key in
  let is_double_spend :=
    if might_contain (bloom_filter o) h then
      match o_seals o !! seal_key with
      | Some v => negb (bool_decide (v = []))
      | None => false
      end
    else false in
  let o' := mkOptimized (log_at seal_key c (o_seals o)) (log_at (sc_sanad_id c) c (o_sanads o))
              ({[chain c]} ∪ o_chains o) (bloom_insert (bloom_filter o) h)
              (delete seal_key (status_cache o)) (max_cache_size o) in
  match is_double_spend, o_seals o !! seal_key with
  | true, Some existing =>
      (o', Err (mkDoubleSpend (seal_ref c) existing c
                  (existsb (fun e => negb (bool_decide (chain e = chain c))) existing)))
  | _, _ => (o', Ok tt)
  end.

(** [cache_status]: a full cache drops the first half of its keys. *)
Definition cache_status (o : OptimizedSealNullifier) (key : bytes) (st : SealStatus)
  : OptimizedSealNullifier :=
  let cache :=
    if (max_cache_size o <=? size (status_cache o))%nat then
      foldr delete (status_cache o)
        (take (max_cache_size o / 2) (hash_order (status_cache o)))
    else status_cache o in
  mkOptimized (o_seals o) (o_sanads o) (o_chains o) (bloom_filter o)
    (<[key := st]> cache) (max_cache_size o).

(** [OptimizedSealNullifier::check_seal_status] *)
Definition o_check_seal_status (o : OptimizedSealNullifier) (s : SealPoint)
  : OptimizedSealNullifier * SealStatus :=
  let key := seal_to_canonical_bytes s in
  match status_cache o !! key with
  | Some cached => (o, cached)
  | None =>
      if negb (might_contain (bloom_filter o) (seal_hash key)) then
        (cache_status o key Unconsumed, Unconsumed)
      else
        let st := status_of (o_seals o !! key) in (cache_status o key st, st)
  end.

Definition check_seal_status_immutable (o : OptimizedSealNullifier) (s : SealPoint) : SealStatus :=
  let key := seal_to_canonical_bytes s in
  if negb (might_contain (bloom_filter o) (seal_hash key)) then Unconsumed
  else status_of (o_seals o !! key).

Definition o_is_seal_consumed (o : OptimizedSealNullifier) (s : SealPoint) : bool :=
  let key := seal_to_canonical_bytes s in
  if negb (might_contain (bloom_filter o) (seal_hash key)) then false
  else bool_decide (is_Some (o_seals o !! key)).

Definition o_get_consumption_history (o : OptimizedSealNullifier) (s : SealPoint)
  : list SealConsumption := default [] (o_seals o !! seal_to_canonical_bytes s).
Definition o_get_seals_for_sanad (o : OptimizedSealNullifier) (h : Hash) : list SealConsumption :=
  default [] (o_sanads o !! h).
Definition o_total_seals (o : OptimizedSealNullifier) : nat := size (o_seals o).
Definition o_double_spend_count (o : OptimizedSealNullifier) : nat :=
  size (filter (fun e => 1 < length e.2) (o_seals o)).

Definition clear_cache (o : OptimizedSealNullifier) : OptimizedSealNullifier :=
  mkOptimized (o_seals o) (o_sanads o) (o_chains o) (bloom_filter o) ∅ (max_cache_size o).

(** [rebuild_bloom_filter] *)
Definition rebuild_bloom_filter (o : OptimizedSealNullifier) : OptimizedSealNullifier :=
  let capacity := Nat.max (size (o_seals o)) 1000 in
  let f := foldr (fun k f => bloom_insert f (seal_hash k))
             (BloomFilter_new capacity (Some (1 # 100)%Q))
             (map fst (map_to_list (o_seals o))) in
  mkOptimized (o_seals o) (o_sanads o) (o_chains o) f (status_cache o) (max_cache_size o).

(** One operation on both registries, with what the caller sees. *)
Inductive seal_op :=
| OpRecordSeal (c : SealConsumption)
| OpStatus (s : SealPoint)
| OpClearCache
| OpRebuild.

Inductive seal_answer :=
| ARecorded (r : result DoubleSpendError unit)
| AStatus (st : SealStatus)
| ANothing.

Definition spec_step (r : SealNullifier) (op : seal_op) : SealNullifier * seal_answer :=
  match op with
  | OpRecordSeal c => let '(r', a) := record_consumption r c in (r', ARecorded a)
  | OpStatus s => (r, AStatus (check_seal_status r s))
  | OpClearCache | OpRebuild => (r, ANothing)
  end.

Definition impl_step (o : OptimizedSealNullifier) (op : seal_op)
  : OptimizedSealNullifier * seal_answer :=
  match op with
  | OpRecordSeal c => let '(o', a) := o_record_consumption o c in (o', ARecorded a)
  | OpStatus s => let '(o', st) := o_check_seal_status o s in (o', AStatus st)
  | OpClearCache => (clear_cache o, ANothing)
  | OpRebuild => (rebuild_bloom_filter o, ANothing)
  end.
End Optimized.

Section Trace.
Context {S Op Ans : Type}.
Variable step : S -> Op -> S * Ans.

Fixpoint trace (s : S) (ops : list Op) : S * list Ans :=
  match ops with
  | [] => (s, [])
  | op :: ops' =>
      let '(s1, a) := step s op in
      let '(s2, l) := trace s1 ops' in (s2, a :: l)
  end.
End Trace.

(** A history of consumptions, recorded in order from the empty registry. *)
Definition record_all (cs : list SealConsumption) : SealNullifier :=
  fold_left (fun r c => (record_consumption r c).1) cs seal_registry_new.

(** The consumptions of a history that concern a seal, a Sanad. *)
Definition of_seal (s : SealPoint) (cs : list SealConsumption) : list SealConsumption :=
  filter (fun c => seal_ref c = s) cs.
Definition of_sanad (h : Hash) (cs : list SealConsumption) : list SealConsumption :=
  filter (fun c => sc_sanad_id c = h) cs.

(** * Proofs *)

Lemma record_consumption_state r c :
  (record_consumption r c).1 =
    mkSealNullifier (log_at (seal_to_canonical_bytes (seal_ref c)) c (consumed_seals r))
      (log_at (sc_sanad_id c) c (sanad_consumption_map r)) ({[chain c]} ∪ known_chains r).
Proof. unfold record_consumption. by repeat case_match. Qed.

Lemma seal_key_inj s1 s2 : seal_ok s1 -> seal_ok s2 ->
  seal_to_canonical_bytes s1 = seal_to_canonical_bytes s2 -> s1 = s2.
Proof.
  intros H1 H2 Heq.
  assert (E1 := seal_read_app (E := parse_error) Msg s1 [] H1).
  assert (E2 := seal_read_app (E := parse_error) Msg s2 [] H2). congruence.
Qed.

(** The logs of a history, by any key. *)
Section Logs.
Context {K : Type} `{Countable K}.
Variable key : SealConsumption -> K.

Definition logs (cs : list SealConsumption) : gmap K (list SealConsumption) :=
  fold_left (fun m c => log_at (key c) c m) cs ∅.

Lemma logs_snoc cs c : logs (cs ++ [c]) = log_at (key c) c (logs cs).
Proof. unfold logs. by rewrite fold_left_app. Qed.

Lemma logs_lookup k cs :
  logs cs !! k = match filter (fun c => key c = k) cs with [] => None | l => Some l end.
Proof.
  induction cs as [|c cs IH] using rev_ind; [done|].
  rewrite logs_snoc, filter_app, filter_cons, filter_nil. unfold log_at.
  destruct (decide (key c = k)) as [<-|Hne].
  - rewrite lookup_insert_eq, IH. by destruct (filter _ cs).
  - by rewrite lookup_insert_ne, IH, app_nil_r.
Qed.

Lemma logs_history k cs : default [] (logs cs !! k) = filter (fun c => key c = k) cs.
Proof. rewrite logs_lookup. by destruct (filter _ cs). Qed.
End Logs.

Lemma record_all_logs cs :
  record_all cs = mkSealNullifier (logs (fun c => seal_to_canonical_bytes (seal_ref c)) cs)
                    (logs sc_sanad_id cs) (list_to_set (map chain cs)).
Proof.
  induction cs as [|c cs IH] using rev_ind; [done|].
  unfold record_all in *. rewrite fold_left_app. simpl. rewrite IH, record_consumption_state.
  rewrite !logs_snoc. simpl. f_equal. rewrite map_app, list_to_set_app_L. simpl. set_solver.
Qed.

Lemma filter_seal_key s cs :
  Forall (fun c => seal_ok (seal_ref c)) cs -> seal_ok s ->
  filter (fun c => seal_to_canonical_bytes (seal_ref c) = seal_to_canonical_bytes s) cs
  = of_seal s cs.
Proof.
  intros Hcs Hs. unfold of_seal. induction Hcs as [|c cs Hc Hcs IH]; [done|].
  rewrite !filter_cons, IH. apply decide_ext. split; [by apply seal_key_inj|by intros ->].
Qed.

Lemma consumed_seals_of cs s :
  Forall (fun c => seal_ok (seal_ref c)) cs -> seal_ok s ->
  consumed_seals (record_all cs) !! seal_to_canonical_bytes s =
    match of_seal s cs with [] => None | l => Some l end.
Proof.
  intros Hcs Hs. rewrite record_all_logs. simpl. rewrite logs_lookup.
  by rewrite filter_seal_key.
Qed.

(** the seal registry reports the consumptions it was told, no more and no
    less, and refuses every use of a seal but the first.  After any history of
    well-formed consumptions: a further one is accepted exactly when no earlier one
    names the same seal, and otherwise the error carries all the earlier ones, in
    order, with the cross-chain flag set exactly when one of them was on another
    chain; the status of a seal is unconsumed, consumed on a chain or double
    spent as its history is empty, a single event or longer; and refused uses are
    recorded like accepted ones. *)
Theorem seal_registry_detects (cs : list SealConsumption) (c : SealConsumption) (s : SealPoint) :
  Forall (fun c => seal_ok (seal_ref c)) (c :: cs) -> seal_ok s ->
  let r := record_all cs in
  let earlier := of_seal (seal_ref c) cs in
  (earlier = [] -> (record_consumption r c).2 = Ok tt) /\
  (earlier <> [] ->
     exists cross, (record_consumption r c).2 = Err (mkDoubleSpend (seal_ref c) earlier c cross) /\
       (cross = true <-> exists e, e ∈ earlier /\ chain e <> chain c)) /\
  check_seal_status r s = match of_seal s cs with
                          | [] => Unconsumed
                          | [e] => ConsumedOnChain (chain e) e
                          | l => DoubleSpent l
                          end /\
  (is_seal_consumed r s = true <-> exists e, e ∈ cs /\ seal_ref e = s) /\
  get_consumption_history r s = of_seal s cs /\
  (forall h, get_seals_for_sanad r h = of_sanad h cs) /\
  (record_consumption r c).1 = record_all (cs ++ [c]).
Proof.
  intros [Hc Hcs]%Forall_cons Hs r earlier.
  assert (Hk := consumed_seals_of cs (seal_ref c) Hcs Hc). fold r earlier in Hk.
  assert (Hl := consumed_seals_of cs s Hcs Hs). fold r in Hl.
  split_and!.
  - intros He. unfold record_consumption. rewrite Hk, He. done.
  - intros He. unfold record_consumption. rewrite Hk.
    destruct earlier as [|e l]; [done|]. rewrite bool_decide_false by done.
    eexists. split; [done|]. rewrite existsb_exists. setoid_rewrite <- list_elem_of_In.
    setoid_rewrite negb_true_iff. by setoid_rewrite bool_decide_eq_false.
  - unfold check_seal_status, status_of. rewrite Hl. by destruct (of_seal s cs) as [|? [|??]].
  - unfold is_seal_consumed. rewrite Hl, bool_decide_eq_true. unfold of_seal. split.
    + destruct (filter _ cs) as [|e l] eqn:E; [by intros []|].
      intros _. exists e. assert (He : e ∈ filter (fun c => seal_ref c = s) cs) by (rewrite E; left).
      by apply list_elem_of_filter in He as [-> ?].
    + intros (e & He & Hes).
      assert (Hin : e ∈ filter (fun c => seal_ref c = s) cs) by (by apply list_elem_of_filter).
      destruct (filter _ cs); [by apply elem_of_nil in Hin|eauto].
  - unfold get_consumption_history. rewrite Hl. by destruct (of_seal s cs).
  - intros h. unfold get_seals_for_sanad, r. rewrite record_all_logs. simpl. apply logs_history.
  - unfold record_all. by rewrite fold_left_app.
Qed.

Definition demo_consumption (on : string) (b : byte) : SealConsumption :=
  mkConsumption on (mkSealPoint [b] None (Some 1%N)) zero32 100 zero32 1000000.
Definition demo_history : list SealConsumption :=
  [demo_consumption "bitcoin" Byte.x01; demo_consumption "bitcoin" Byte.x02].

Example demo_double_spends :
  double_spend_count (record_all (demo_history ++ [demo_consumption "sui" Byte.x01])) = 1.
Proof. vm_compute. reflexivity. Qed.

Lemma demo_history_ok :
  Forall (fun c => seal_ok (seal_ref c)) (demo_consumption "sui" Byte.x01 :: demo_history).
Proof. repeat constructor; try done; by intros n [= <-]. Qed.

Lemma seal_registry_detects_witness :
  of_seal (mkSealPoint [Byte.x01] None (Some 1%N)) demo_history
    = [demo_consumption "bitcoin" Byte.x01] /\
  check_seal_status (record_all demo_history) (mkSealPoint [Byte.x01] None (Some 1%N))
    = ConsumedOnChain "bitcoin" (demo_consumption "bitcoin" Byte.x01).
Proof.
  assert (Hf := demo_history_ok). split; [vm_compute; reflexivity|].
  refine (eq_trans (proj1 (proj2 (proj2 (seal_registry_detects demo_history
    (demo_consumption "sui" Byte.x01) (mkSealPoint [Byte.x01] None (Some 1%N)) Hf
    (Forall_inv Hf))))) _).
  vm_compute. reflexivity.
Defined.

(** ** The optimised registry refines the plain one *)

(** Steps that agree on related states, up to [R] again, give the same trace. *)
Lemma trace_simulation {S1 S2 Op Ans : Type} (step1 : S1 -> Op -> S1 * Ans)
    (step2 : S2 -> Op -> S2 * Ans) (R : S1 -> S2 -> Prop) :
  (forall s1 s2 op, R s1 s2 ->
     R (step1 s1 op).1 (step2 s2 op).1 /\ (step1 s1 op).2 = (step2 s2 op).2) ->
  forall ops s1 s2, R s1 s2 ->
    R (trace step1 s1 ops).1 (trace step2 s2 ops).1 /\
    (trace step1 s1 ops).2 = (trace step2 s2 ops).2.
Proof.
  intros Hstep. induction ops as [|op ops IH]; simpl; intros s1 s2 HR; [done|].
  destruct (Hstep s1 s2 op HR) as [HR' Ha].
  destruct (step1 s1 op) as [s1' a1], (step2 s2 op) as [s2' a2]. simpl in *.
  destruct (IH s1' s2' HR') as [HR'' Hl].
  destruct (trace step1 s1' ops), (trace step2 s2' ops). simpl in *. by subst.
Qed.

Section Refinement.
Variable sha256 : bytes -> Bytes32.
Context {B : Type} `{BloomLaws B}.
Variable hash_order : gmap bytes SealStatus -> list bytes.

Lemma might_contain_insert (f : BloomFilter) h h' :
  h' = h \/ might_contain f h = true -> might_contain (bloom_insert f h') h = true.
Proof.
  unfold might_contain. destruct f as [[b|] ? ?]; simpl; [|done].
  intros [->|]; [apply bloom_check_set|by apply bloom_check_mono].
Qed.

Record sim (o : OptimizedSealNullifier) (r : SealNullifier) : Prop := {
  sim_seals : o_seals o = consumed_seals r;
  sim_sanads : o_sanads o = sanad_consumption_map r;
  sim_chains : o_chains o = known_chains r;
  sim_bloom : forall k, is_Some (o_seals o !! k) ->
                might_contain (bloom_filter o) (seal_hash sha256 k) = true;
  sim_cache : forall k st, status_cache o !! k = Some st -> st = status_of (o_seals o !! k)
}.

Lemma sim_new capacity r : sim (with_capacity capacity r) seal_registry_new.
Proof.
  split; simpl; try done. intros k. rewrite lookup_empty. by intros [].
Qed.

(** The filter's "no" means no entry. *)
Lemma sim_absent o r k : sim o r ->
  might_contain (bloom_filter o) (seal_hash sha256 k) = false -> o_seals o !! k = None.
Proof.
  intros Hs Hm. apply eq_None_not_Some. intros Hk%(sim_bloom o r Hs). congruence.
Qed.

Lemma sim_record o r c : sim o r ->
  sim (o_record_consumption sha256 o c).1 (record_consumption r c).1 /\
  (o_record_consumption sha256 o c).2 = (record_consumption r c).2.
Proof.
  intros Hs. set (key := seal_to_canonical_bytes (seal_ref c)).
  assert (Hst : (o_record_consumption sha256 o c).1 =
    mkOptimized (log_at key c (o_seals o)) (log_at (sc_sanad_id c) c (o_sanads o))
      ({[chain c]} ∪ o_chains o) (bloom_insert (bloom_filter o) (seal_hash sha256 key))
      (delete key (status_cache o)) (max_cache_size o)).
  { unfold o_record_consumption. fold key. by repeat case_match. }
  rewrite Hst, record_consumption_state. fold key. split.
  - destruct Hs as [-> -> -> Hb Hc]. split; simpl; try done.
    + intros k Hk. apply might_contain_insert. unfold log_at in Hk.
      destruct (decide (key = k)) as [->|]; [by left|]. right. apply Hb.
      by rewrite lookup_insert_ne in Hk.
    + intros k st. destruct (decide (key = k)) as [<-|Hne]; [by rewrite lookup_delete_eq|].
      rewrite lookup_delete_ne by done. intros ->%Hc. unfold log_at. by rewrite lookup_insert_ne.
  - unfold o_record_consumption, record_consumption. fold key. rewrite <- (sim_seals o r Hs).
    destruct (might_contain _ _) eqn:Hm; [by repeat case_match|].
    by rewrite (sim_absent o r key Hs Hm).
Qed.

Lemma foldr_delete_subseteq (m : gmap bytes SealStatus) ks : foldr delete m ks ⊆ m.
Proof.
  induction ks as [|k ks IH]; simpl; [done|]. etrans; [apply delete_subseteq|exact IH].
Qed.

Lemma sim_cache_status o r key : sim o r ->
  sim (cache_status hash_order o key (status_of (o_seals o !! key))) r.
Proof.
  intros Hs. split; try apply Hs. simpl. intros k st.
  destruct (decide (key = k)) as [<-|Hne]; [rewrite lookup_insert_eq; by intros [= <-]|].
  rewrite lookup_insert_ne by done. intros Hk. apply (sim_cache o r Hs).
  case_match; [|done]. eapply lookup_weaken; [exact Hk|apply foldr_delete_subseteq].
Qed.

Lemma sim_status o r s : sim o r ->
  sim (o_check_seal_status sha256 hash_order o s).1 r /\
  (o_check_seal_status sha256 hash_order o s).2 = check_seal_status r s.
Proof.
  intros Hs. unfold o_check_seal_status, check_seal_status. rewrite <- (sim_seals o r Hs).
  set (key := seal_to_canonical_bytes s).
  destruct (status_cache o !! key) eqn:Hc; simpl.
  { split; [done|]. by apply (sim_cache o r Hs). }
  destruct (might_contain _ _) eqn:Hm; simpl; [split; [by apply sim_cache_status|done]|].
  assert (Hn := sim_absent o r key Hs Hm). split; [|by rewrite Hn].
  replace Unconsumed with (status_of (o_seals o !! key)) by (by rewrite Hn).
  by apply sim_cache_status.
Qed.

Lemma rebuilt_contains ks (f : BloomFilter) k :
  k ∈ ks -> might_contain (foldr (fun k f => bloom_insert f (seal_hash sha256 k)) f ks)
              (seal_hash sha256 k) = true.
Proof.
  induction 1; simpl; apply might_contain_insert; auto.
Qed.

Lemma sim_rebuild o r : sim o r -> sim (rebuild_bloom_filter sha256 o) r.
Proof.
  intros Hs. split; try apply Hs. simpl. intros k [l Hl]. apply rebuilt_contains.
  apply list_elem_of_fmap. exists (k, l). split; [done|]. by apply elem_of_map_to_list.
Qed.

Lemma sim_step o r op : sim o r ->
  sim (impl_step sha256 hash_order o op).1 (spec_step r op).1 /\
  (impl_step sha256 hash_order o op).2 = (spec_step r op).2.
Proof.
  intros Hs. destruct op as [c|s| |]; simpl.
  - destruct (sim_record o r c Hs) as [H1 H2].
    destruct (o_record_consumption sha256 o c), (record_consumption r c). simpl in *.
    by subst.
  - destruct (sim_status o r s Hs) as [H1 H2].
    destruct (o_check_seal_status sha256 hash_order o s). simpl in *. by subst.
  - split; [|done]. split; try apply Hs. simpl. intros k st. by rewrite lookup_empty.
  - split; [by apply sim_rebuild|done].
Qed.

Lemma sim_immutable o r s : sim o r ->
  check_seal_status_immutable sha256 o s = check_seal_status r s /\
  o_is_seal_consumed sha256 o s = is_seal_consumed r s.
Proof.
  intros Hs. unfold check_seal_status_immutable, check_seal_status, o_is_seal_consumed,
    is_seal_consumed. rewrite <- (sim_seals o r Hs).
  destruct (might_contain _ _) eqn:Hm; simpl; [done|].
  by rewrite (sim_absent o r _ Hs Hm).
Qed.
End Refinement.

(** C18: the optimised registry refines the plain one.  Whatever the Bloom filter
    answers for seals it was not given, whether or not it could be built, and
    whichever entries a full cache drops, any sequence of recordings, status
    checks, cache clearings and filter rebuilds gives the answers of
    [SealNullifier] on the same sequence, and the states reached agree on every
    query. *)
Theorem optimized_registry_refines (sha256 : bytes -> Bytes32) {B : Type} `{BloomLaws B}
    (hash_order : gmap bytes SealStatus -> list bytes) (capacity : nat) (r : rate)
    (ops : list seal_op) :
  let impl := trace (impl_step sha256 hash_order) (with_capacity capacity r) ops in
  let spec := trace spec_step seal_registry_new ops in
  impl.2 = spec.2 /\
  o_total_seals impl.1 = total_seals spec.1 /\
  o_double_spend_count impl.1 = double_spend_count spec.1 /\
  o_chains impl.1 = known_chains spec.1 /\
  (forall h, o_get_seals_for_sanad impl.1 h = get_seals_for_sanad spec.1 h) /\
  (forall s, check_seal_status_immutable sha256 impl.1 s = check_seal_status spec.1 s /\
             o_is_seal_consumed sha256 impl.1 s = is_seal_consumed spec.1 s /\
             o_get_consumption_history impl.1 s = get_consumption_history spec.1 s).
Proof.
  intros impl spec.
  destruct (trace_simulation (impl_step sha256 hash_order) spec_step (sim sha256)
              (sim_step sha256 hash_order) ops _ _ (sim_new sha256 capacity r)) as [Hs Ha].
  fold impl spec in Hs, Ha. split; [exact Ha|].
  unfold o_total_seals, o_double_spend_count, total_seals, double_spend_count,
    o_get_seals_for_sanad, get_seals_for_sanad, o_get_consumption_history, get_consumption_history.
  rewrite (sim_seals sha256 _ _ Hs), (sim_sanads sha256 _ _ Hs), (sim_chains sha256 _ _ Hs).
  split_and!; [done..|]. intros s. destruct (sim_immutable sha256 _ _ s Hs). done.
Qed.

(** A filter on the first byte of a hash: it has false positives. *)
Definition first_byte (h : Hash) : N := match b32 h with b :: _ => Byte.to_N b | [] => 0 end.
Global Instance byte_filter_ops : BloomOps (gset N) := {
  bloom_new := fun _ _ => Some ∅;
  bloom_check := fun b h => bool_decide (first_byte h ∈ b);
  bloom_set := fun b h => {[first_byte h]} ∪ b
}.
Global Instance byte_filter_laws : BloomLaws (gset N).
Proof.
  split; simpl; intros; rewrite ?bool_decide_eq_true in *; set_solver.
Qed.

Definition demo_seal_ops : list seal_op :=
  [OpRecordSeal (demo_consumption "bitcoin" Byte.x01); OpStatus (mkSealPoint [Byte.x01] None (Some 1%N));
   OpRebuild; OpStatus (mkSealPoint [Byte.x02] None None);
   OpRecordSeal (demo_consumption "sui" Byte.x01); OpStatus (mkSealPoint [Byte.x01] None (Some 1%N))].

Lemma optimized_registry_refines_witness :
  (trace (impl_step toy_hash (fun m => map fst (map_to_list m)))
     (with_capacity (B := gset N) 0 None) demo_seal_ops).2 =
  [ARecorded (Ok tt);
   AStatus (ConsumedOnChain "bitcoin" (demo_consumption "bitcoin" Byte.x01));
   ANothing; AStatus Unconsumed;
   ARecorded (Err (mkDoubleSpend (mkSealPoint [Byte.x01] None (Some 1%N))
     [demo_consumption "bitcoin" Byte.x01] (demo_consumption "sui" Byte.x01) true));
   AStatus (DoubleSpent [demo_consumption "bitcoin" Byte.x01; demo_consumption "sui" Byte.x01])].
Proof.
  refine (eq_trans (proj1 (optimized_registry_refines toy_hash (B := gset N) _ 0 None
                             demo_seal_ops)) _).
  vm_compute. reflexivity.
Defined.
