(* ===== verification/AcceptedState.v ===== *)
(** * The accepted-state cache (csv-storage/src/accepted_state.rs)

    One record per consumed state, keyed by the digest of the state it consumes, and
    the reconciliation of a checkpoint: its own records take the new status and
    every transition that descends from them is downgraded.  A [HashMap] is a
    finite map; where the code iterates over one, the model iterates over its
    entries in an order that is a parameter. *)

From S2P Require Import Prelude Ord Bytes Hashing Dag DagCodec Text Reference.

Record AcceptedAssuranceReading := mkAccReading {
  ar_dimension : string;
  ar_status : string;
  ar_reason_codes : list string;
  ar_provider_id : string;
  ar_limitations : list string
}.

Record AcceptedAssuranceReport := mkAccReport {
  verification_context_digest : Hash;
  ar_report_digest : Hash;
  readings : list AcceptedAssuranceReading
}.

Inductive AcceptedStateStatus := Final | Revoked | Indeterminate.

Record AcceptedStateObservation := mkObservation {
  sequence : N;
  ob_status : AcceptedStateStatus;
  ob_checkpoint_id : Hash;
  ob_reason : string
}.

Record AcceptedStateRecord := mkAccepted {
  as_transition_id : Hash;
  consumed_state : ConsumedStateRef;
  created_outputs : list Hash;
  closure_id : Hash;
  closure : ClosureVerificationResult;
  assurance : AcceptedAssuranceReport;
  transfer_id : option string;
  status : AcceptedStateStatus;
  observations : list AcceptedStateObservation
}.

Inductive CheckpointDisposition := CDFinal | CDOrphaned | CDIndeterminate.

Inductive AcceptedStateError :=
| Conflict (existing_transition : Hash)
| InvalidRecord (m : string)
| Storage (m : string).

Global Instance AcceptedStateStatus_eq_dec : EqDecision AcceptedStateStatus.
Proof. solve_decision. Defined.
Global Instance ClosureProofKind_eq_dec : EqDecision ClosureProofKind.
Proof. solve_decision. Defined.
Global Instance FinalityPolicy_eq_dec : EqDecision FinalityPolicy.
Proof. solve_decision. Defined.
Global Instance FinalizedCheckpoint_eq_dec : EqDecision FinalizedCheckpoint.
Proof. solve_decision. Defined.
Global Instance ClosureTrustMode_eq_dec : EqDecision ClosureTrustMode.
Proof. solve_decision. Defined.
Global Instance ClosureVerificationResult_eq_dec : EqDecision ClosureVerificationResult.
Proof. solve_decision. Defined.
Global Instance AcceptedAssuranceReading_eq_dec : EqDecision AcceptedAssuranceReading.
Proof. solve_decision. Defined.
Global Instance AcceptedAssuranceReport_eq_dec : EqDecision AcceptedAssuranceReport.
Proof. solve_decision. Defined.
Global Instance AcceptedStateObservation_eq_dec : EqDecision AcceptedStateObservation.
Proof. solve_decision. Defined.
Global Instance AcceptedStateRecord_eq_dec : EqDecision AcceptedStateRecord.
Proof. solve_decision. Defined.

(** [ClosureInterfaceError]'s [Display]. *)
Definition closure_error_message (e : ClosureInterfaceError) : string :=
  match e with
  | ZeroSuccessorCommitment => "successor commitment is zero"
  | EmptyProofMaterial => "closure proof material is empty"
  | ProofMaterialTooLarge => "closure proof material exceeds the protocol bound"
  | EmptyProofKind => "chain-specific proof kind is empty"
  | EmptyChain => "checkpoint chain identifier is empty"
  | EmptyNetwork => "checkpoint network identifier is empty"
  | EmptyBlockIdentity => "checkpoint block identity is empty"
  | ZeroConfirmationPolicy => "checkpoint confirmation policy is zero"
  | EmptyFinalityPolicy => "deterministic finality policy is empty"
  | CheckpointChainMismatch => "result chain does not match checkpoint chain"
  | CheckpointNetworkMismatch => "result network does not match checkpoint network"
  | EmptyVerifier => "closure verifier identifier is empty"
  | EmptyProofProvider => "closure proof provider identifier is empty"
  | MissingReasonCode => "closure verification result has no reason code"
  end.

Definition is_zero (h : Hash) : bool := bool_decide (h = Hash.zero).

(** [AcceptedStateRecord::validate] *)
Definition record_validate (r : AcceptedStateRecord) : result AcceptedStateError unit :=
  _ ← map_err (fun e => InvalidRecord (closure_error_message e))
        (closure_result_validate (closure r));
  reject (is_zero (as_transition_id r) || is_zero (closure_id r)
          || is_zero (verification_context_digest (assurance r))
          || is_zero (ar_report_digest (assurance r)))
    with InvalidRecord "mandatory commitment uses the zero sentinel" ;;
  reject (Nat.eqb (length (created_outputs r)) 0 || Nat.eqb (length (readings (assurance r))) 0)
    with InvalidRecord "outputs and assurance readings must be retained" ;;
  reject (Nat.eqb (length (observations r)) 0
          || negb (bool_decide (ob_status <$> last (observations r) = Some (status r))))
    with InvalidRecord "audit observations must end at the current status" ;;
  Ok tt.

Definition root_status (d : CheckpointDisposition) : AcceptedStateStatus :=
  match d with CDFinal => Final | CDOrphaned => Revoked | CDIndeterminate => Indeterminate end.
Definition root_reason (d : CheckpointDisposition) : string :=
  match d with
  | CDFinal => "BITCOIN.CHECKPOINT.REVALIDATED"
  | CDOrphaned => "BITCOIN.CHECKPOINT.ORPHANED"
  | CDIndeterminate => "BITCOIN.CHECKPOINT.INDETERMINATE"
  end.
Definition NONFINAL_REASON : string := "BITCOIN.ANCESTOR.NONFINAL".

(** Does the last observation already say this? *)
Definition already (r : AcceptedStateRecord) (st : AcceptedStateStatus) (cp : Hash)
    (reason : string) : bool :=
  bool_decide (status r = st) &&
  match last (observations r) with
  | Some e => bool_decide (ob_checkpoint_id e = cp) && bool_decide (ob_reason e = reason)
  | None => false
  end.

Definition observed (r : AcceptedStateRecord) (st : AcceptedStateStatus) (cp : Hash)
    (reason : string) : AcceptedStateRecord :=
  mkAccepted (as_transition_id r) (consumed_state r) (created_outputs r) (closure_id r) (closure r)
    (assurance r) (transfer_id r) st
    (observations r ++ [mkObservation (wrap64 (blen (observations r))) st cp reason]).

(** [append_observation] *)
Definition append_observation (r : AcceptedStateRecord) (st : AcceptedStateStatus) (cp : Hash)
    (reason : string) : AcceptedStateRecord * bool :=
  if already r st cp reason then (r, false) else (observed r st cp reason, true).

(** One pass over [values_mut]: each visit returns the record, the identifiers it
    adds to [changed] and those it pushes on [frontier]. *)
Fixpoint visit_all (f : AcceptedStateRecord -> AcceptedStateRecord * list Hash * list Hash)
    (l : list (Hash * AcceptedStateRecord))
  : list (Hash * AcceptedStateRecord) * list Hash * list Hash :=
  match l with
  | [] => ([], [], [])
  | (k, r) :: l' =>
      let '(r', c, p) := f r in
      let '(l'', c', p') := visit_all f l' in
      ((k, r') :: l'', c ++ c', p ++ p')
  end.

Section Reconcile.
Variable sha256 : bytes -> Bytes32.
Variable cp : Hash.

(** Is the record's own closure at this checkpoint? *)
Definition at_checkpoint (r : AcceptedStateRecord) : bool :=
  bool_decide (checkpoint_commitment sha256 (checkpoint (closure r)) = cp).

Definition visit_root (d : CheckpointDisposition) (r : AcceptedStateRecord)
  : AcceptedStateRecord * list Hash * list Hash :=
  if at_checkpoint r then
    let '(r', c) := append_observation r (root_status d) cp (root_reason d) in
    (r', if c then [as_transition_id r] else [], [as_transition_id r])
  else (r, [], []).

Definition visit_child (parent : Hash) (r : AcceptedStateRecord)
  : AcceptedStateRecord * list Hash * list Hash :=
  if bool_decide (transition_id (consumed_state r) = parent) then
    let '(r', c) := append_observation r Indeterminate cp NONFINAL_REASON in
    (r', if c then [as_transition_id r] else [], if c then [as_transition_id r] else [])
  else (r, [], []).

(** [while let Some(parent) = frontier.pop()]: the head of the list is the top of
    the stack.  [None] is out of fuel. *)
Fixpoint drain (fuel : nat) (l : list (Hash * AcceptedStateRecord)) (changed frontier : list Hash)
  : option (list (Hash * AcceptedStateRecord) * list Hash) :=
  match frontier with
  | [] => Some (l, changed)
  | parent :: rest =>
      match fuel with
      | O => None
      | S fuel =>
          let '(l', c, pushed) := visit_all (visit_child parent) l in
          drain fuel l' (changed ++ c) (rev pushed ++ rest)
      end
  end.

(** [reconcile_records] on the entries in iteration order. *)
Definition reconcile_records (d : CheckpointDisposition) (l : list (Hash * AcceptedStateRecord))
  : option (list (Hash * AcceptedStateRecord) * list Hash) :=
  let '(l1, changed, frontier) := visit_all (visit_root d) l in
  if bool_decide (root_status d = Final) then Some (l1, changed)
  else drain (3 * length l) l1 changed (rev frontier).
End Reconcile.

Notation AcceptedStore := (gmap Hash AcceptedStateRecord).

Section Store.
Variable sha256 : bytes -> Bytes32.
(** The entries of a [HashMap] in its iteration order. *)
Variable iter : AcceptedStore -> list (Hash * AcceptedStateRecord).

(** [conflict_key] *)
Definition conflict_key (r : AcceptedStateRecord) : Hash :=
  consumed_digest sha256 (consumed_state r).

(** [InMemoryAcceptedStateStore::accept] *)
Definition accept (m : AcceptedStore) (r : AcceptedStateRecord)
  : result AcceptedStateError AcceptedStore :=
  _ ← record_validate r;
  match m !! conflict_key r with
  | Some existing =>
      if bool_decide (existing = r) then Ok m else Err (Conflict (as_transition_id existing))
  | None => Ok (<[conflict_key r := r]> m)
  end.

Definition accepted_get (m : AcceptedStore) (s : ConsumedStateRef) : option AcceptedStateRecord :=
  m !! consumed_digest sha256 s.

(** [reconcile_checkpoint]: the records are updated in place. *)
Definition reconcile_checkpoint (m : AcceptedStore) (cp : Hash) (d : CheckpointDisposition)
  : option (AcceptedStore * list Hash) :=
  '(l, changed) ← reconcile_records sha256 cp d (iter m);
  Some (list_to_map l, changed).
End Store.

(** ** The descendants of a checkpoint

    What reconciliation sees of a record that observations do not change: its own
    transition, the transition it consumes from, and whether it closes at the
    checkpoint. *)

Record node := mkNode { n_id : Hash; n_parent : Hash; n_root : bool }.

Definition node_of (sha256 : bytes -> Bytes32) (cp : Hash) (r : AcceptedStateRecord) : node :=
  mkNode (as_transition_id r) (transition_id (consumed_state r)) (at_checkpoint sha256 cp r).

(** [descends S n]: a chain of consumptions leads from a record of [S] at the
    checkpoint to [n]. *)
Inductive descends (S : list node) : node -> Prop :=
| desc_root p n : p ∈ S -> n_root p = true -> n ∈ S -> n_parent n = n_id p -> descends S n
| desc_step p n : descends S p -> n ∈ S -> n_parent n = n_id p -> descends S n.

(** What the root pass makes of a record. *)
Definition root_view (sha256 : bytes -> Bytes32) (cp : Hash) (d : CheckpointDisposition)
    (r : AcceptedStateRecord) : AcceptedStateRecord :=
  if at_checkpoint sha256 cp r then (append_observation r (root_status d) cp (root_reason d)).1
  else r.

Definition downgraded (cp : Hash) (r : AcceptedStateRecord) : AcceptedStateRecord :=
  observed r Indeterminate cp NONFINAL_REASON.

(** The record already carries this checkpoint's downgrade. *)
Definition marked (cp : Hash) (r : AcceptedStateRecord) : bool :=
  already r Indeterminate cp NONFINAL_REASON.

(** * Proofs *)

Lemma visit_all_map f g c p l :
  (forall r, f r = (g r, c r, p r)) ->
  visit_all f l = (map (fun kr => (kr.1, g kr.2)) l,
                   concat (map (fun kr => c kr.2) l), concat (map (fun kr => p kr.2) l)).
Proof.
  intros Hf. induction l as [|[k r] l IH]; simpl; [done|]. by rewrite Hf, IH.
Qed.

Lemma elem_of_rev {A} (x : A) l : x ∈ rev l <-> x ∈ l.
Proof. rewrite !list_elem_of_In. symmetry. apply in_rev. Qed.

Lemma already_observed r st cp reason : already (observed r st cp reason) st cp reason = true.
Proof.
  unfold already, observed. simpl. rewrite last_snoc. simpl. by rewrite !bool_decide_true.
Qed.

Section ReconcileFacts.
Variable sha256 : bytes -> Bytes32.
Variable cp : Hash.
Local Notation node_of := (node_of sha256 cp).
Local Notation marked := (marked cp).
Local Notation downgraded := (downgraded cp).

(** One downgrade of the children of [t]. *)
Definition down (t : Hash) (r : AcceptedStateRecord) : AcceptedStateRecord :=
  if bool_decide (transition_id (consumed_state r) = t) && negb (marked r) then downgraded r else r.
Definition newly (t : Hash) (r : AcceptedStateRecord) : list Hash :=
  if bool_decide (transition_id (consumed_state r) = t) && negb (marked r)
  then [as_transition_id r] else [].

Lemma visit_child_down t l :
  visit_all (visit_child cp t) l =
    (map (fun kr => (kr.1, down t kr.2)) l,
     concat (map (fun kr => newly t kr.2) l), concat (map (fun kr => newly t kr.2) l)).
Proof.
  apply visit_all_map. intros r. unfold visit_child, down, newly, append_observation.
  unfold AcceptedState.marked. case_bool_decide; simpl; [|done]. by destruct (already _ _ _ _).
Qed.

Lemma marked_downgraded r : marked (downgraded r) = true.
Proof. apply already_observed. Qed.
Lemma node_of_observed r st reason : node_of (observed r st cp reason) = node_of r.
Proof. done. Qed.
Lemma node_of_down t r : node_of (down t r) = node_of r.
Proof. unfold down. by destruct (_ && _). Qed.
Lemma marked_down t r :
  marked (down t r) = marked r || bool_decide (transition_id (consumed_state r) = t).
Proof.
  unfold down. destruct (marked r) eqn:Hm, (bool_decide _) eqn:Hb; simpl;
    rewrite ?marked_downgraded, ?Hm; done.
Qed.

Definition unmarked (l : list (Hash * AcceptedStateRecord)) : nat :=
  length (List.filter (fun kr => negb (marked kr.2)) l).

Lemma unmarked_down t l :
  unmarked (map (fun kr => (kr.1, down t kr.2)) l)
  + length (concat (map (fun kr => newly t kr.2) l)) = unmarked l.
Proof.
  unfold unmarked. induction l as [|[k r] l IH]; simpl; [done|].
  rewrite length_app, marked_down. unfold newly at 1.
  destruct (marked r), (bool_decide _); simpl; lia.
Qed.

(** Every record that consumes from [t] is downgraded. *)
Definition covered (t : Hash) (l : list (Hash * AcceptedStateRecord)) : Prop :=
  forall kr, kr ∈ l -> n_parent (node_of kr.2) = t -> marked kr.2 = true.

(** [l] comes from [l0] by downgrading some of the descendants, and what the loop
    still has to do is on the frontier. *)
Record drain_inv (l0 l : list (Hash * AcceptedStateRecord)) (frontier : list Hash) : Prop := {
  di_step : Forall2 (fun kr0 kr => kr.1 = kr0.1 /\
    (if marked kr.2 then kr.2 = downgraded kr0.2 /\ descends (map (fun x => node_of x.2) l0) (node_of kr0.2)
     else kr.2 = kr0.2)) l0 l;
  di_todo : forall kr, kr ∈ l -> n_root (node_of kr.2) = true \/ marked kr.2 = true ->
    n_id (node_of kr.2) ∈ frontier \/ covered (n_id (node_of kr.2)) l;
  di_front : forall t, t ∈ frontier -> exists p, p ∈ map (fun x => node_of x.2) l0 /\ n_id p = t /\
    (n_root p = true \/ descends (map (fun x => node_of x.2) l0) p)
}.

Lemma covered_down t t' l :
  covered t' l \/ t' = t -> covered t' (map (fun kr => (kr.1, down t kr.2)) l).
Proof.
  intros Hc kr Hkr Hp. apply list_elem_of_fmap in Hkr as ([k r] & -> & Hin). cbn [fst snd] in *.
  rewrite node_of_down in Hp. rewrite marked_down.
  destruct Hc as [Hc| ->]; [specialize (Hc _ Hin Hp); cbn [snd] in Hc; by rewrite Hc|].
  apply orb_true_iff. right. by apply bool_decide_eq_true.
Qed.

Lemma elem_of_newly t (l : list (Hash * AcceptedStateRecord)) x :
  x ∈ concat (map (fun kr => newly t kr.2) l) <->
  exists kr, kr ∈ l /\ n_parent (node_of kr.2) = t /\ marked kr.2 = false /\
             x = as_transition_id kr.2.
Proof.
  rewrite list_elem_of_In, in_concat. setoid_rewrite in_map_iff.
  setoid_rewrite <- list_elem_of_In. unfold newly. split.
  - intros (? & (kr & <- & Hin) & Hx). exists kr.
    destruct (bool_decide _) eqn:Hb, (marked kr.2) eqn:Hm; simpl in Hx;
      try by apply elem_of_nil in Hx.
    apply bool_decide_eq_true in Hb. by apply list_elem_of_singleton in Hx.
  - intros (kr & Hin & Hp & Hm & ->). eexists. split; [exists kr; done|].
    rewrite bool_decide_true by done. rewrite Hm. simpl. by left.
Qed.

Lemma down_marked t r : marked r = true -> down t r = r.
Proof. unfold down. intros ->. by rewrite andb_false_r. Qed.
Lemma down_child t r :
  marked r = false -> n_parent (node_of r) = t -> down t r = downgraded r.
Proof. unfold down. simpl. intros -> <-. by rewrite bool_decide_true. Qed.
Lemma down_other t r : n_parent (node_of r) <> t -> down t r = r.
Proof. unfold down. simpl. intros Hn. by rewrite bool_decide_false. Qed.

(** The child of something on the frontier descends from the checkpoint. *)
Lemma frontier_child l0 l t rest kr0 :
  drain_inv l0 l (t :: rest) -> kr0 ∈ l0 -> n_parent (node_of kr0.2) = t ->
  descends (map (fun x => node_of x.2) l0) (node_of kr0.2).
Proof.
  intros Hi Hin Hp. destruct (di_front _ _ _ Hi t) as (p & Hpin & Hid & Hr); [by left|].
  assert (Hn : node_of kr0.2 ∈ map (fun x => node_of x.2) l0) by (apply list_elem_of_fmap; eauto).
  destruct Hr as [Hr|Hd]; [apply (desc_root _ p); congruence|].
  apply (desc_step _ p); congruence.
Qed.

Lemma di_origin l0 l frontier kr :
  drain_inv l0 l frontier -> kr ∈ l -> marked kr.2 = false -> kr ∈ l0.
Proof.
  intros Hi (i & Hi1)%list_elem_of_lookup Hm.
  destruct (Forall2_lookup_r _ _ _ _ _ (di_step _ _ _ Hi) Hi1) as (kr0 & H0 & Hk & Hs).
  rewrite Hm in Hs. apply list_elem_of_lookup. exists i. rewrite H0. f_equal.
  destruct kr, kr0. simpl in *. congruence.
Qed.

Lemma drain_step l0 l t rest :
  drain_inv l0 l (t :: rest) ->
  drain_inv l0 (map (fun kr => (kr.1, down t kr.2)) l)
    (rev (concat (map (fun kr => newly t kr.2) l)) ++ rest).
Proof.
  intros Hi. split.
  - apply Forall2_fmap_r, Forall2_same_length_lookup.
    assert (Hs := di_step _ _ _ Hi). split; [by eapply Forall2_length|].
    intros i kr0 kr H0 H1. destruct (Forall2_lookup_lr _ _ _ _ _ _ Hs H0 H1) as [Hk Hv].
    split; [done|]. cbn [fst snd]. rewrite marked_down.
    destruct (marked kr.2) eqn:Hm; cbn [orb]; [by rewrite down_marked|]. rewrite <- Hv in *.
    case_bool_decide as Hp; [|by apply down_other]. split; [by apply down_child|].
    rewrite Hv in *. eapply frontier_child; [exact Hi|by eapply list_elem_of_lookup_2|done].
  - intros kr' (kr & -> & Hin)%list_elem_of_fmap Hor. cbn [fst snd] in *.
    rewrite node_of_down, marked_down in *. rewrite elem_of_app, elem_of_rev.
    destruct (decide (n_root (node_of kr.2) = true \/ marked kr.2 = true)) as [Hold|Hnew].
    + destruct (di_todo _ _ _ Hi kr Hin Hold) as [Hf|Hc].
      * apply elem_of_cons in Hf as [->|Hf]; [right|tauto]. apply covered_down. by right.
      * right. apply covered_down. by left.
    + left. left. apply elem_of_newly. exists kr. destruct (marked kr.2); [tauto|].
      destruct Hor as [|Hp]; [tauto|]. simpl in Hp. by apply bool_decide_eq_true in Hp.
  - intros t'. rewrite elem_of_app, elem_of_rev. intros [Hn|Hr].
    + apply elem_of_newly in Hn as (kr & Hin & Hp & Hm & ->).
      assert (H0 := di_origin _ _ _ _ Hi Hin Hm). exists (node_of kr.2).
      split; [apply list_elem_of_fmap; eauto|]. split; [done|]. right.
      by eapply frontier_child.
    + apply (di_front _ _ _ Hi). by right.
Qed.

(** With that much fuel the loop empties the frontier. *)
Lemma drain_ok l0 fuel : forall l changed frontier,
  drain_inv l0 l frontier -> 2 * unmarked l + length frontier <= fuel ->
  exists l' changed', drain cp fuel l changed frontier = Some (l', changed') /\ drain_inv l0 l' [].
Proof.
  induction fuel as [|fuel IH]; intros l changed [|t rest] Hi Hf; simpl in Hf; try lia;
    try (by exists l, changed).
  cbn [drain]. rewrite visit_child_down. apply IH; [by apply drain_step|].
  rewrite length_app, length_rev. assert (Hu := unmarked_down t l). lia.
Qed.

Lemma di_nodes l0 l frontier : drain_inv l0 l frontier ->
  map (fun x => node_of x.2) l = map (fun x => node_of x.2) l0.
Proof.
  intros Hi. assert (Hs := di_step _ _ _ Hi). clear Hi.
  induction Hs as [|kr0 kr l1 l2 [_ Hv] Hs IH]; simpl; [done|]. f_equal; [|done].
  destruct (marked kr.2); [destruct Hv as [-> _]|rewrite Hv]; done.
Qed.

(** An empty frontier: exactly the descendants are downgraded. *)
Lemma drained_marked l0 l kr : drain_inv l0 l [] -> kr ∈ l ->
  marked kr.2 = true <-> descends (map (fun x => node_of x.2) l0) (node_of kr.2).
Proof.
  intros Hi Hin. split.
  - intros Hm. apply list_elem_of_lookup in Hin as (i & Hi1).
    destruct (Forall2_lookup_r _ _ _ _ _ (di_step _ _ _ Hi) Hi1) as (kr0 & H0 & Hk & Hs).
    rewrite Hm in Hs. destruct Hs as [-> Hd]. done.
  - rewrite <- (di_nodes _ _ _ Hi). intros Hd. remember (node_of kr.2) as n eqn:Hn.
    assert (Hcl : forall p, p ∈ map (fun x => node_of x.2) l ->
              n_root p = true \/ (forall kr', kr' ∈ l -> node_of kr'.2 = p -> marked kr'.2 = true) ->
              n_parent n = n_id p -> marked kr.2 = true).
    { intros p (krp & -> & Hp)%list_elem_of_fmap Hor Hpar.
      destruct (di_todo _ _ _ Hi krp Hp) as [Hf%elem_of_nil|Hc];
        [destruct Hor; auto|done|]. apply (Hc kr Hin). by rewrite <- Hn. }
    revert kr Hin Hn Hcl. induction Hd as [p n Hp Hr Hn' Hpar|p n Hd IH Hn' Hpar];
      intros kr Hin Hn Hcl; [exact (Hcl p Hp (or_introl Hr) Hpar)|].
    assert (Hp : p ∈ map (fun x => node_of x.2) l) by (by destruct Hd).
    eapply Hcl; [exact Hp| |exact Hpar]. right. intros kr' Hin' Hn2.
    apply (IH kr' Hin' (eq_sym Hn2)). intros q Hq Hor Hpar'.
    apply list_elem_of_fmap in Hq as (krq & -> & Hq).
    destruct (di_todo _ _ _ Hi krq Hq) as [Hf%elem_of_nil|Hc];
      [destruct Hor; auto|done|]. apply (Hc kr' Hin'). congruence.
Qed.

Lemma drain_terminates fuel : forall l changed frontier,
  2 * unmarked l + length frontier <= fuel -> is_Some (drain cp fuel l changed frontier).
Proof.
  induction fuel as [|fuel IH]; intros l changed [|t rest] Hf; simpl in Hf; try lia;
    try (by eexists).
  cbn [drain]. rewrite visit_child_down. apply IH.
  rewrite length_app, length_rev. assert (Hu := unmarked_down t l). lia.
Qed.

Definition root_ids (r : AcceptedStateRecord) : list Hash :=
  if at_checkpoint sha256 cp r then [as_transition_id r] else [].
Definition root_changed (d : CheckpointDisposition) (r : AcceptedStateRecord) : list Hash :=
  if at_checkpoint sha256 cp r && (append_observation r (root_status d) cp (root_reason d)).2
  then [as_transition_id r] else [].

Local Notation viewed d l := (map (fun kr => (kr.1, root_view sha256 cp d kr.2)) l).
Local Notation frontier_of l := (concat (map (fun kr => root_ids kr.2) l)).

Lemma visit_root_view d l :
  visit_all (visit_root sha256 cp d) l =
    (viewed d l, concat (map (fun kr => root_changed d kr.2) l), frontier_of l).
Proof.
  apply visit_all_map. intros r. unfold visit_root, root_view, root_changed, root_ids.
  destruct (at_checkpoint _ _ _); simpl; [|done]. by destruct (append_observation _ _ _ _) as [? []].
Qed.

Lemma node_of_view d r : node_of (root_view sha256 cp d r) = node_of r.
Proof.
  unfold root_view, append_observation. destruct (at_checkpoint _ _ _); [|done].
  by destruct (already _ _ _ _).
Qed.

Lemma marked_view d r : marked r = false -> marked (root_view sha256 cp d r) = false.
Proof.
  intros Hm. unfold root_view, append_observation. destruct (at_checkpoint _ _ _); [|done].
  destruct (already _ _ _ _); [done|]. unfold AcceptedState.marked, already, observed. simpl.
  rewrite last_snoc. simpl. by destruct d; vm_compute bool_decide; rewrite ?andb_false_r.
Qed.

Lemma frontier_of_bound (l : list (Hash * AcceptedStateRecord)) :
  length (frontier_of l) <= length l.
Proof.
  induction l as [|kr l IH]; simpl; [done|]. rewrite length_app. unfold root_ids at 1.
  destruct (at_checkpoint _ _ _); simpl; lia.
Qed.

Lemma unmarked_bound l : unmarked l <= length l.
Proof. apply filter_length_le. Qed.

Lemma elem_of_frontier (l : list (Hash * AcceptedStateRecord)) t :
  t ∈ frontier_of l <->
  exists kr, kr ∈ l /\ n_root (node_of kr.2) = true /\ n_id (node_of kr.2) = t.
Proof.
  rewrite list_elem_of_In, in_concat. setoid_rewrite in_map_iff.
  setoid_rewrite <- list_elem_of_In. unfold root_ids. split.
  - intros (? & (kr & <- & Hin) & Hx). exists kr. simpl.
    destruct (at_checkpoint _ _ _); [|by apply elem_of_nil in Hx].
    by apply list_elem_of_singleton in Hx.
  - intros (kr & Hin & Hr & <-). eexists. split; [exists kr; done|]. simpl in Hr.
    rewrite Hr. by left.
Qed.

Lemma drain_start (l : list (Hash * AcceptedStateRecord)) :
  (forall kr, kr ∈ l -> marked kr.2 = false) -> drain_inv l l (rev (frontier_of l)).
Proof.
  intros Hfresh. split.
  - apply Forall2_same_length_lookup. split; [done|]. intros i kr0 kr H0 H1.
    rewrite H0 in H1. injection H1 as <-. split; [done|].
    by rewrite (Hfresh _ (list_elem_of_lookup_2 _ _ _ H0)).
  - intros kr Hin [Hr|Hm]; [|by rewrite (Hfresh kr Hin) in Hm]. left.
    apply elem_of_rev, elem_of_frontier. eauto.
  - intros t (kr & Hin & Hr & <-)%elem_of_rev%elem_of_frontier. exists (node_of kr.2).
    split; [apply list_elem_of_fmap; eauto|]. auto.
Qed.

Lemma reconcile_terminates d l : is_Some (reconcile_records sha256 cp d l).
Proof.
  unfold reconcile_records. rewrite visit_root_view. case_bool_decide; [by eexists|].
  apply drain_terminates. rewrite length_rev.
  assert (Hu := unmarked_bound (viewed d l)). rewrite length_map in Hu.
  assert (Hf := frontier_of_bound l). lia.
Qed.

(** Does reconciliation downgrade this record? *)
Definition downgrades (d : CheckpointDisposition) (S : list node) (r : AcceptedStateRecord) : Prop :=
  d <> CDFinal /\ descends S (node_of r).

Lemma reconcile_records_spec d (l : list (Hash * AcceptedStateRecord)) :
  (forall kr, kr ∈ l -> marked kr.2 = false) ->
  exists l' changed, reconcile_records sha256 cp d l = Some (l', changed) /\
    Forall2 (fun kr kr' => kr'.1 = kr.1 /\
      ((downgrades d (map (fun x => node_of x.2) l) kr.2 /\
          kr'.2 = downgraded (root_view sha256 cp d kr.2)) \/
       (~ downgrades d (map (fun x => node_of x.2) l) kr.2 /\
          kr'.2 = root_view sha256 cp d kr.2))) l l'.
Proof.
  intros Hfresh. unfold reconcile_records, downgrades. rewrite visit_root_view. case_bool_decide as Hd.
  { exists (viewed d l). eexists. split; [done|]. apply Forall2_fmap_r, Forall2_same_length_lookup.
    split; [done|]. intros i kr kr' H0 H1.
    rewrite H0 in H1. injection H1 as <-. split; [done|]. right. split; [|done].
    intros [Hn _]. by destruct d. }
  assert (Hf1 : forall kr, kr ∈ viewed d l -> marked kr.2 = false).
  { intros ? (kr & -> & Hin)%list_elem_of_fmap. by apply marked_view, Hfresh. }
  assert (Hfr : frontier_of (viewed d l) = frontier_of l).
  { rewrite map_map. f_equal. apply map_ext. intros kr. unfold root_ids. cbn [snd].
    assert (Hn := node_of_view d kr.2). unfold AcceptedState.node_of in Hn.
    injection Hn as -> _ ->. done. }
  assert (Hns : map (fun x => node_of x.2) (viewed d l) = map (fun x => node_of x.2) l).
  { rewrite map_map. apply map_ext. intros kr. apply node_of_view. }
  destruct (drain_ok (viewed d l) (3 * length l) (viewed d l)
              (concat (map (fun kr => root_changed d kr.2) l)) (rev (frontier_of l)))
    as (l' & ch & Hdr & Hi).
  { rewrite <- Hfr. by apply drain_start. }
  { rewrite length_rev. assert (Hu := unmarked_bound (viewed d l)). rewrite length_map in Hu.
    assert (Hf := frontier_of_bound l). lia. }
  exists l', ch. split; [done|]. assert (Hs := di_step _ _ _ Hi).
  apply Forall2_fmap_l in Hs. apply Forall2_same_length_lookup.
  split; [by eapply Forall2_length|]. intros i kr kr' H0 H1.
  destruct (Forall2_lookup_lr _ _ _ _ _ _ Hs H0 H1) as [Hk Hv]. cbn [fst snd] in *.
  split; [done|].
  assert (Hm := drained_marked _ _ kr' Hi (list_elem_of_lookup_2 _ _ _ H1)). rewrite Hns in Hm.
  destruct (marked kr'.2) eqn:Em.
  - left. destruct Hv as [Hv Hdesc]. rewrite Hns, node_of_view in Hdesc. split; [|done].
    split; [by intros ->|done].
  - right. split; [|done]. intros [_ Hdesc]. rewrite Hv, node_of_view in Hm.
    by apply Hm in Hdesc.
Qed.
End ReconcileFacts.

(** ** Stores *)

Definition set_history (r : AcceptedStateRecord) (st : AcceptedStateStatus)
    (obs : list AcceptedStateObservation) : AcceptedStateRecord :=
  mkAccepted (as_transition_id r) (consumed_state r) (created_outputs r) (closure_id r) (closure r)
    (assurance r) (transfer_id r) st obs.

(** [r'] is [r] at a later time: the same transition, with observations added. *)
Definition later (r r' : AcceptedStateRecord) : Prop :=
  r' = set_history r (status r') (observations r') /\ observations r `prefix_of` observations r'.

Lemma later_refl r : later r r.
Proof. by destruct r. Qed.
Lemma later_trans r1 r2 r3 : later r1 r2 -> later r2 r3 -> later r1 r3.
Proof.
  intros [E1 H1] [E2 H2]. split; [|by etrans]. rewrite E2. rewrite E1. done.
Qed.
Lemma later_observed r st cp reason : later r (observed r st cp reason).
Proof. split; [done|]. by apply prefix_app_r. Qed.

Lemma observed_valid r st cp reason :
  record_validate r = Ok tt -> record_validate (observed r st cp reason) = Ok tt.
Proof.
  unfold record_validate. intros ([] & Hc & [Hz [Ho _]%guard_err_ok]%guard_err_ok)%bind_ok.
  cbn [closure observed as_transition_id closure_id assurance created_outputs observations status].
  rewrite Hc. cbn [mbind result_bind]. rewrite Hz, Ho. cbn [guard_err].
  rewrite last_snoc, length_app, Nat.add_comm. cbn. by rewrite bool_decide_true.
Qed.

Lemma root_view_kept sha256 cp d r :
  later r (root_view sha256 cp d r) /\
  (record_validate r = Ok tt -> record_validate (root_view sha256 cp d r) = Ok tt).
Proof.
  unfold root_view, append_observation. destruct (at_checkpoint _ _ _); [|split; [apply later_refl|done]].
  destruct (already _ _ _ _); simpl; [split; [apply later_refl|done]|].
  split; [apply later_observed|apply observed_valid].
Qed.

Section StoreFacts.
Variable sha256 : bytes -> Bytes32.
Variable iter : AcceptedStore -> list (Hash * AcceptedStateRecord).
(** Iteration visits every entry once. *)
Hypothesis iter_entries : forall m, iter m ≡ₚ map_to_list m.

Definition nodes_of (cp : Hash) (m : AcceptedStore) : list node :=
  map (fun x => node_of sha256 cp x.2) (iter m).

Lemma elem_of_iter m k r : (k, r) ∈ iter m <-> m !! k = Some r.
Proof. rewrite iter_entries. apply elem_of_map_to_list. Qed.

(** No record was downgraded for this checkpoint before. *)
Definition unseen (cp : Hash) (m : AcceptedStore) : Prop :=
  forall k r, m !! k = Some r -> marked cp r = false.

Lemma list_to_map_same_keys (l l' : list (Hash * AcceptedStateRecord))
    (P : AcceptedStateRecord -> AcceptedStateRecord -> Prop) (m : AcceptedStore) :
  Forall2 (fun kr kr' => kr'.1 = kr.1 /\ P kr.2 kr'.2) l l' -> l ≡ₚ map_to_list m ->
  forall k, match m !! k with
            | Some r => exists r', (list_to_map l' : AcceptedStore) !! k = Some r' /\ P r r'
            | None => (list_to_map l' : AcceptedStore) !! k = None
            end.
Proof.
  intros Hl Hp k.
  assert (Hkeys : map fst l' = map fst l)
    by (clear Hp; induction Hl as [|kr kr' ?? [? _]]; simpl; congruence).
  assert (Hnd : NoDup (map fst l')) by (rewrite Hkeys, Hp; apply NoDup_fst_map_to_list).
  destruct (m !! k) as [r|] eqn:Hk.
  - assert (Hin : (k, r) ∈ l) by (rewrite Hp; by apply elem_of_map_to_list).
    apply list_elem_of_lookup in Hin as (i & H0).
    destruct (Forall2_lookup_l _ _ _ _ _ Hl H0) as ([k' r'] & H1 & Hkk & HP). simpl in *.
    exists r'. split; [|done]. apply elem_of_list_to_map_1; [done|]. subst k'.
    by eapply list_elem_of_lookup_2.
  - apply not_elem_of_list_to_map_1. change (k ∉ map fst l'). rewrite Hkeys, Hp. intros Hin.
    apply list_elem_of_fmap in Hin as ([k' r] & -> & Hin).
    apply elem_of_map_to_list in Hin. cbn [fst] in Hk. rewrite Hk in Hin. done.
Qed.

(** What reconciliation leaves of the record [r]. *)
Definition reconciled (cp : Hash) (d : CheckpointDisposition) (m : AcceptedStore)
    (r r' : AcceptedStateRecord) : Prop :=
  (downgrades sha256 cp d (nodes_of cp m) r /\ r' = downgraded cp (root_view sha256 cp d r)) \/
  (~ downgrades sha256 cp d (nodes_of cp m) r /\ r' = root_view sha256 cp d r).

Lemma reconcile_checkpoint_spec m cp d :
  unseen cp m ->
  exists m' changed, reconcile_checkpoint sha256 iter m cp d = Some (m', changed) /\
    forall k, match m !! k with
              | Some r => exists r', m' !! k = Some r' /\ reconciled cp d m r r'
              | None => m' !! k = None
              end.
Proof.
  intros Hu. unfold reconcile_checkpoint.
  destruct (reconcile_records_spec sha256 cp d (iter m)) as (l' & ch & -> & Hl).
  { intros [k r] Hin%elem_of_iter. by eapply Hu. }
  simpl. eexists _, _. split; [done|].
  by apply (list_to_map_same_keys (iter m) l' (reconciled cp d m)).
Qed.
End StoreFacts.

(** C15: reconciling a checkpoint ends and does exactly what it promises.  It
    terminates on every store, cyclic ancestries included.  On a store that holds no
    downgrade for this checkpoint yet: no record appears or disappears; a record
    whose closure is at the checkpoint takes the new status, a record that descends
    from one, at any depth, becomes [Indeterminate] unless the checkpoint is final,
    and a record that does neither is left as it was.  A record at an orphaned
    checkpoint that also descends from another one there is therefore
    [Indeterminate] in the end, its [Revoked] overwritten. *)
Theorem reconcile_checkpoint_exact (sha256 : bytes -> Bytes32)
    (iter : AcceptedStore -> list (Hash * AcceptedStateRecord))
    (iter_entries : forall m, iter m ≡ₚ map_to_list m)
    (m : AcceptedStore) (cp : Hash) (d : CheckpointDisposition) :
  is_Some (reconcile_checkpoint sha256 iter m cp d) /\
  (unseen cp m ->
   exists m' changed, reconcile_checkpoint sha256 iter m cp d = Some (m', changed) /\
   forall k, match m !! k with
   | None => m' !! k = None
   | Some r => exists r', m' !! k = Some r' /\
       let descendant := descends (nodes_of sha256 iter cp m) (node_of sha256 cp r) in
       (d <> CDFinal -> descendant -> status r' = Indeterminate) /\
       (d = CDFinal \/ ~ descendant ->
          (at_checkpoint sha256 cp r = true -> status r' = root_status d) /\
          (at_checkpoint sha256 cp r = false -> r' = r))
   end).
Proof.
  split.
  { unfold reconcile_checkpoint.
    by destruct (reconcile_terminates sha256 cp d (iter m)) as [[l' ch] ->]. }
  intros Hu. destruct (reconcile_checkpoint_spec sha256 iter iter_entries m cp d Hu)
    as (m' & ch & Hm & Hk). exists m', ch. split; [done|]. intros k. specialize (Hk k).
  destruct (m !! k) as [r|]; [|done]. destruct Hk as (r' & Hr' & Hrec). exists r'.
  split; [done|]. destruct Hrec as [[[Hd Hdesc] ->]|[Hn ->]]; (split; [|intros Hor]).
  - done.
  - by destruct Hor.
  - intros Hd Hdesc. by destruct Hn.
  - unfold root_view, append_observation. destruct (at_checkpoint sha256 cp r); [|done].
    split; [|done]. intros _. destruct (already _ _ _ _) eqn:Ha; [|done].
    apply andb_true_iff in Ha as [Ha _]. by apply bool_decide_eq_true in Ha.
Qed.

(** ** Histories of a store *)

(** The record of a store at a later time: still valid, and only observed since. *)
Definition kept (r r' : AcceptedStateRecord) : Prop :=
  later r r' /\ (record_validate r = Ok tt -> record_validate r' = Ok tt).

Lemma kept_refl r : kept r r.
Proof. split; [apply later_refl|done]. Qed.
Lemma kept_trans r1 r2 r3 : kept r1 r2 -> kept r2 r3 -> kept r1 r3.
Proof. intros [H1 V1] [H2 V2]. split; [by eapply later_trans|auto]. Qed.

Lemma kept_down cp t r : kept r (down cp t r).
Proof.
  unfold down. destruct (_ && _); [|apply kept_refl].
  split; [apply later_observed|apply observed_valid].
Qed.

Local Notation entries_kept := (Forall2 (fun kr kr' => kr'.1 = kr.1 /\ kept kr.2 kr'.2)).

Lemma entries_kept_map (f : AcceptedStateRecord -> AcceptedStateRecord)
    (l : list (Hash * AcceptedStateRecord)) :
  (forall r, kept r (f r)) -> entries_kept l (map (fun kr => (kr.1, f kr.2)) l).
Proof. intros Hf. induction l; simpl; constructor; auto. Qed.

Lemma entries_kept_trans (l1 l2 l3 : list (Hash * AcceptedStateRecord)) :
  entries_kept l1 l2 -> entries_kept l2 l3 -> entries_kept l1 l3.
Proof.
  intros H12. revert l3. induction H12 as [|x y l1 l2 [Hk Hr] H12 IH]; intros l3 H23;
    inversion_clear H23 as [|? z ? l3' [Hk' Hr']]; constructor; auto.
  split; [congruence|by eapply kept_trans].
Qed.

Lemma drain_kept cp fuel : forall l changed frontier l' ch,
  drain cp fuel l changed frontier = Some (l', ch) -> entries_kept l l'.
Proof.
  induction fuel as [|fuel IH]; intros l changed [|t rest] l' ch; simpl; try done;
    try (intros [= <- <-]; rewrite <- (map_id l) at 2; apply Forall2_fmap_r;
         apply Forall_Forall2_diag, Forall_true; intros x; split; [done|apply kept_refl]).
  rewrite visit_child_down. intros Hd%IH. eapply entries_kept_trans; [|exact Hd].
  apply entries_kept_map. intros r. apply kept_down.
Qed.

Lemma reconcile_records_kept sha256 cp d l l' ch :
  reconcile_records sha256 cp d l = Some (l', ch) -> entries_kept l l'.
Proof.
  unfold reconcile_records. rewrite visit_root_view.
  assert (Hv := entries_kept_map (root_view sha256 cp d) l (root_view_kept sha256 cp d)).
  case_bool_decide; [by intros [= <- <-]|]. intros Hd%drain_kept.
  by eapply entries_kept_trans.
Qed.

Section Histories.
Variable sha256 : bytes -> Bytes32.
Variable iter : AcceptedStore -> list (Hash * AcceptedStateRecord).
Hypothesis iter_entries : forall m, iter m ≡ₚ map_to_list m.

Inductive store_step (m : AcceptedStore) : AcceptedStore -> Prop :=
| step_accept r m' : accept sha256 m r = Ok m' -> store_step m m'
| step_reconcile cp d m' ch :
    reconcile_checkpoint sha256 iter m cp d = Some (m', ch) -> store_step m m'.

Definition store_ok (m : AcceptedStore) : Prop :=
  forall k r, m !! k = Some r -> conflict_key sha256 r = k /\ record_validate r = Ok tt.

Lemma accept_inv m r m' : accept sha256 m r = Ok m' ->
  record_validate r = Ok tt /\
  ((m' = m /\ m !! conflict_key sha256 r = Some r) \/
   (m' = <[conflict_key sha256 r := r]> m /\ m !! conflict_key sha256 r = None)).
Proof.
  unfold accept. intros ([] & Hv & Hm)%bind_ok. split; [done|].
  destruct (m !! conflict_key sha256 r) as [e|]; [|injection Hm as <-; by right].
  case_bool_decide; [injection Hm as <-; subst; by left|done].
Qed.

Lemma step_keeps m m' : store_step m m' ->
  (store_ok m -> store_ok m') /\
  (forall k r, m !! k = Some r -> exists r', m' !! k = Some r' /\ kept r r').
Proof.
  intros [r m1 Ha|cp d m1 ch Hr].
  - apply accept_inv in Ha as (Hv & [[-> _]|[-> Hn]]).
    { split; [done|]. intros k r' Hr'. exists r'. split; [done|apply kept_refl]. }
    split.
    + intros Hok k r'. destruct (decide (k = conflict_key sha256 r)) as [->|];
        simplify_map_eq; [|apply Hok]. by intros [= <-].
    + intros k r' Hr'. exists r'. split; [|apply kept_refl].
      rewrite lookup_insert_ne; [done|]. intros <-. congruence.
  - unfold reconcile_checkpoint in Hr.
    destruct (reconcile_records _ _ _ _) as [[l' c']|] eqn:E; [|done]. injection Hr as <- <-.
    apply reconcile_records_kept in E.
    assert (Hk := list_to_map_same_keys _ l' kept m E (iter_entries m)). split.
    + intros Hok k r' Hr'. specialize (Hk k). destruct (m !! k) as [r|] eqn:Hm; [|congruence].
      destruct Hk as (r2 & Hr2 & [[Hl _] Hv]). rewrite Hr' in Hr2. injection Hr2 as <-.
      destruct (Hok k r Hm) as [Hc Hval]. split; [|auto]. rewrite Hl. exact Hc.
    + intros k r Hm. specialize (Hk k). by rewrite Hm in Hk.
Qed.

Lemma steps_keep m m' : rtc store_step m m' ->
  (store_ok m -> store_ok m') /\
  (forall k r, m !! k = Some r -> exists r', m' !! k = Some r' /\ kept r r').
Proof.
  induction 1 as [m|m m1 m' Hs _ [IH1 IH2]].
  { split; [done|]. intros k r Hr. exists r. split; [done|apply kept_refl]. }
  destruct (step_keeps m m1 Hs) as [H1 H2]. split; [auto|]. intros k r Hr.
  destruct (H2 k r Hr) as (r1 & Hr1 & K1). destruct (IH2 k r1 Hr1) as (r2 & Hr2 & K2).
  exists r2. split; [done|by eapply kept_trans].
Qed.
End Histories.

(** a consumed state has at most one accepted successor, for ever.  In any store
    reached from the empty one every record is valid and sits under the digest of
    the state it consumes; a valid record is accepted when no record consumes that
    state, is accepted without effect when it is the stored one, and is refused with
    the stored transition otherwise, whatever its transfer identifier; and whatever
    accepts and reconciliations follow, the successor of a consumed state stays the
    same transition, its observations only growing. *)
Theorem accepted_successor_unique (sha256 : bytes -> Bytes32)
    (iter : AcceptedStore -> list (Hash * AcceptedStateRecord))
    (iter_entries : forall m, iter m ≡ₚ map_to_list m) (m : AcceptedStore) :
  rtc (store_step sha256 iter) ∅ m ->
  store_ok sha256 m /\
  (forall r, record_validate r = Ok tt ->
     accept sha256 m r =
       match accepted_get sha256 m (consumed_state r) with
       | None => Ok (<[conflict_key sha256 r := r]> m)
       | Some e => if decide (e = r) then Ok m else Err (Conflict (as_transition_id e))
       end) /\
  (forall s r m', accepted_get sha256 m s = Some r -> rtc (store_step sha256 iter) m m' ->
     exists r', accepted_get sha256 m' s = Some r' /\
       as_transition_id r' = as_transition_id r /\ consumed_state r' = consumed_state r /\
       created_outputs r' = created_outputs r /\ closure r' = closure r /\
       observations r `prefix_of` observations r').
Proof.
  intros Hm. split_and!.
  - apply (steps_keep sha256 iter iter_entries ∅ m Hm). intros k r. by rewrite lookup_empty.
  - intros r Hv. unfold accept, accepted_get, conflict_key. rewrite Hv. cbn [mbind result_bind].
    destruct (m !! _) as [e|]; [|done]. by repeat case_decide.
  - intros s r m' Hr Hs. destruct (steps_keep sha256 iter iter_entries m m' Hs) as [_ Hk].
    destruct (Hk _ r Hr) as (r' & Hr' & [[Hl Hp] _]). exists r'. split; [exact Hr'|].
    rewrite Hl. done.
Qed.

(** ** Witnesses *)

Definition demo_checkpoint : FinalizedCheckpoint :=
  mkCheckpoint "bitcoin" "mainnet" 800000 [Byte.x0a] (Confirmations 6).
Definition demo_record (id parent : byte) : AcceptedStateRecord :=
  mkAccepted (fill32 id) (mkConsumed (fill32 parent) 0 7) [fill32 Byte.x55] (fill32 Byte.x66)
    (mkClosureResult "bitcoin" "mainnet" (ChainSpecific "spv") demo_checkpoint CSatisfied CSatisfied
       CSatisfied CSatisfied CTFullNode "verifier" "node" ["SOURCE.CLOSED"%string])
    (mkAccReport (fill32 Byte.x77) (fill32 Byte.x78)
       [mkAccReading "structure" "satisfied" [] "node" []])
    None Final [mkObservation 0 Final (fill32 Byte.x79) "accepted"].

(** The second record consumes an output of the first; both close at one checkpoint. *)
Definition demo_first : AcceptedStateRecord := demo_record Byte.x01 Byte.x09.
Definition demo_second : AcceptedStateRecord := demo_record Byte.x02 Byte.x01.
Definition demo_store : AcceptedStore :=
  <[conflict_key toy_hash demo_second := demo_second]>
    (<[conflict_key toy_hash demo_first := demo_first]> ∅).
Definition demo_cp : Hash := checkpoint_commitment toy_hash demo_checkpoint.

Example demo_overwritten :
  match reconcile_checkpoint toy_hash map_to_list demo_store demo_cp CDOrphaned with
  | Some (m, ch) => map status (map snd (map_to_list m)) = [Indeterminate; Revoked]
                    \/ map status (map snd (map_to_list m)) = [Revoked; Indeterminate]
  | None => False
  end.
Proof. vm_compute. first [by left | by right]. Qed.

Lemma demo_unseen : unseen demo_cp demo_store.
Proof.
  intros k r Hr. revert k r Hr. apply (map_Forall_to_list (fun _ r => marked demo_cp r = false)).
  vm_compute. repeat constructor.
Qed.

Lemma demo_lookup :
  demo_store !! conflict_key toy_hash demo_second = Some demo_second /\
  demo_store !! conflict_key toy_hash demo_first = Some demo_first /\
  at_checkpoint toy_hash demo_cp demo_first = true.
Proof.
  assert (Hne : bool_decide (conflict_key toy_hash demo_second = conflict_key toy_hash demo_first)
                = false) by (vm_compute; reflexivity).
  apply bool_decide_eq_false in Hne. unfold demo_store.
  split; [apply lookup_insert_eq|]. rewrite lookup_insert_ne, lookup_insert_eq by done.
  split; [done|]. vm_compute. reflexivity.
Qed.

Lemma demo_descends :
  descends (nodes_of toy_hash map_to_list demo_cp demo_store) (node_of toy_hash demo_cp demo_second).
Proof.
  destruct demo_lookup as (H2 & H1 & Hr).
  apply (desc_root _ (node_of toy_hash demo_cp demo_first)); [| exact Hr | |done];
    apply list_elem_of_fmap; eexists (_, _); (split; [done|]); by apply elem_of_map_to_list.
Qed.

Lemma reconcile_checkpoint_exact_witness :
  exists m' changed,
    reconcile_checkpoint toy_hash map_to_list demo_store demo_cp CDOrphaned = Some (m', changed) /\
    exists r', m' !! conflict_key toy_hash demo_second = Some r' /\ status r' = Indeterminate.
Proof.
  destruct (proj2 (reconcile_checkpoint_exact toy_hash map_to_list (fun m => reflexivity _)
              demo_store demo_cp CDOrphaned) demo_unseen) as (m' & ch & Hm & Hk).
  exists m', ch. split; [exact Hm|]. specialize (Hk (conflict_key toy_hash demo_second)).
  rewrite (proj1 demo_lookup) in Hk. destruct Hk as (r' & Hr' & Hd & _). exists r'.
  split; [exact Hr'|]. apply Hd; [discriminate|apply demo_descends].
Defined.

Lemma demo_accepts :
  rtc (store_step toy_hash map_to_list) ∅
    (<[conflict_key toy_hash demo_first := demo_first]> ∅).
Proof.
  apply rtc_once, (step_accept _ _ _ demo_first). unfold accept.
  assert (Hv : record_validate demo_first = Ok tt) by (vm_compute; reflexivity).
  rewrite Hv. cbn [mbind result_bind]. by rewrite lookup_empty.
Qed.

Lemma accepted_successor_unique_witness :
  store_ok toy_hash (<[conflict_key toy_hash demo_first := demo_first]> ∅).
Proof.
  exact (proj1 (accepted_successor_unique toy_hash map_to_list (fun m => reflexivity _) _
                  demo_accepts)).
Defined.
