(* ===== verification/Reorg.v ===== *)
(** * Reorganisations (csv-protocol/src/reorg/)

    The detector of a chain that moved back, the decision taken for each affected
    transfer with the storage calls that record it, and the reconciliation of the
    transfers against the canonical chain.  The chain is the class
    [ChainBackend]: its answers are results, as an RPC's are. *)

From S2P Require Import Prelude Ord Bytes Hashing Text ProofTaxonomy.

(** ** The detector (detector.rs) *)

Record ReorgEvent := mkReorg {
  ev_chain : string;
  old_height : N;
  new_height : N;
  old_hash : Hash;
  new_hash : Hash;
  depth : N
}.

(** The event emitted to the registry, when there is one. *)
Record ReorgNotice := mkNotice {
  nt_chain : string; nt_height : N; nt_tx_hash : string; nt_timestamp : N;
  nt_old_height : N; nt_new_height : N; nt_depth : N
}.

Record ReorgDetector := mkDetector {
  last_known : gmap string (N * Hash);
  has_registry : bool
}.

Definition detector_new : ReorgDetector := mkDetector ∅ false.
Definition with_event_registry : ReorgDetector := mkDetector ∅ true.

(** [ReorgDetector::update] at the given clock: the new state, the notices emitted
    and the event returned. *)
Definition update (now : N) (d : ReorgDetector) (chain : string) (height : N) (hash : Hash)
  : ReorgDetector * list ReorgNotice * option ReorgEvent :=
  let advance := mkDetector (<[chain := (height, hash)]> (last_known d)) (has_registry d) in
  let report last_height last_hash dep :=
    (d, if has_registry d
        then [mkNotice chain last_height "" now last_height height dep] else [],
     Some (mkReorg chain last_height height last_hash hash dep)) in
  match last_known d !! chain with
  | Some (last_height, last_hash) =>
      if (height <? last_height)%N then report last_height last_hash (last_height - height)%N
      else if (height =? last_height)%N && negb (bool_decide (hash = last_hash)) then
        report last_height last_hash 0%N
      else (advance, [], None)
  | None => (advance, [], None)
  end.

Definition get_last_known (d : ReorgDetector) (chain : string) : option (N * Hash) :=
  last_known d !! chain.

(** ** Rollback (rollback.rs) *)

Inductive RollbackAction :=
| RolledBack
| Compromised
| Resume (from_state : string).

Global Instance RollbackAction_eq_dec : EqDecision RollbackAction.
Proof. solve_decision. Defined.

(** A state name the [match] tests for. *)
Definition is_state (s : string) (names : list string) : bool := bool_decide (s ∈ names).

(** [determine_rollback_action] *)
Definition determine_rollback_action (transfer_state : string)
    (source_block_height reorg_from_height reorg_to_height : N) : RollbackAction :=
  if (source_block_height <? reorg_from_height)%N then Compromised
  else if is_state transfer_state ["locking"%string; "awaiting_finality"%string]
          && (source_block_height <=? reorg_to_height)%N then Compromised
  else if is_state transfer_state ["proof_building"%string; "proof_validated"%string]
          && (source_block_height <=? reorg_to_height)%N then RolledBack
  else if is_state transfer_state ["minting"%string]
          && (source_block_height <=? reorg_to_height)%N then Resume "proof_validated"
  else RolledBack.

Definition action_state (a : RollbackAction) : string :=
  match a with
  | Compromised => "compromised"
  | RolledBack => "rolled_back"
  | Resume from => from
  end.

Record RollbackResult := mkRollbackResult {
  rr_transfer_id : string;
  rr_action : RollbackAction;
  rr_previous_state : string;
  rr_source_block_height : N
}.

(** The calls made on the storage backend; their errors are logged and dropped. *)
Inductive storage_call :=
| UpdateTransferState (transfer_id new_state : string)
    (from_height to_height : N) (action chain : string)
| RecordRollback (transfer_id chain : string) (from_height to_height : N) (action : string).

(** [rollback_transfers]: the calls, in order, and the results. *)
Fixpoint rollback_transfers (chain : string) (from_height to_height : N)
    (affected : list (string * string * N)) : list storage_call * list RollbackResult :=
  match affected with
  | [] => ([], [])
  | (transfer_id, state, block_height) :: rest =>
      let action := determine_rollback_action state block_height from_height to_height in
      let new_state := action_state action in
      let '(calls, results) := rollback_transfers chain from_height to_height rest in
      (UpdateTransferState transfer_id new_state from_height to_height new_state chain
         :: RecordRollback transfer_id chain from_height to_height new_state :: calls,
       mkRollbackResult transfer_id action state block_height :: results)
  end.

(** ** Reconciliation (reconciliation.rs) *)

Inductive ReconciliationAction :=
| Reconciled (new_state : string)
| RCompromised
| NeedsReview.

Global Instance ReconciliationAction_eq_dec : EqDecision ReconciliationAction.
Proof. solve_decision. Defined.

Record ProofRevalidationResult := mkRevalidation {
  pr_transfer_id : string;
  valid : bool;
  canonical_block_height : option N;
  pr_error : option string
}.

Record ReconciliationResult := mkReconciliation {
  transfers_reconciled : N;
  transfers_failed : N;
  proofs_revalidated : N;
  actions : list ReconciliationAction
}.

Class ChainBackend (B : Type) := {
  get_block_hash : B -> N -> result string Hash;
  verify_commitment_in_block : B -> Hash -> N -> result string bool;
  rebuild_inclusion_proof : B -> Hash -> N -> result string InclusionProof;
  backend_verify_proof : B -> InclusionProof -> Hash -> result string bool
}.

Definition show_N (n : N) : string := pretty n.

Section Engine.
Context {B : Type} `{ChainBackend B}.
Variable backend : B.

(** [verify_lock_on_canonical_chain] *)
Definition verify_lock_on_canonical_chain (event : ReorgEvent) (block_height : N) : bool :=
  if (old_height event <=? block_height)%N then true
  else match get_block_hash backend block_height with
       | Ok current_hash =>
           let original_hash :=
             if (block_height =? new_height event)%N then new_hash event else old_hash event in
           bool_decide (current_hash = original_hash)
       | Err _ => false
       end.

(** [revalidate_proof_for_transfer] *)
Definition revalidate_proof_for_transfer (transfer_id : string) (block_height : N)
    (commitment : Hash) : result string ProofRevalidationResult :=
  let h := show_N block_height in
  let failed height error := Ok (mkRevalidation transfer_id false height (Some error)) in
  match get_block_hash backend block_height with
  | Err e => failed None ("Block " +:+ h +:+ " not found on canonical chain: " +:+ e)
  | Ok _ =>
      match verify_commitment_in_block backend commitment block_height with
      | Err e => failed (Some block_height)
                   ("Failed to verify commitment in block " +:+ h +:+ ": " +:+ e)
      | Ok false => failed (Some block_height)
                      ("Commitment not found in block " +:+ h +:+ " after reorg")
      | Ok true =>
          match rebuild_inclusion_proof backend commitment block_height with
          | Err e => failed (Some block_height)
                       ("Failed to rebuild inclusion proof for block " +:+ h +:+ ": " +:+ e)
          | Ok proof =>
              match backend_verify_proof backend proof commitment with
              | Err e => failed (Some block_height)
                           ("Failed to verify rebuilt proof for block " +:+ h +:+ ": " +:+ e)
              | Ok false => failed (Some block_height)
                              ("Rebuilt proof verification failed for block " +:+ h)
              | Ok true => Ok (mkRevalidation transfer_id true (Some block_height) None)
              end
          end
      end
  end.

(** [compute_new_state] *)
Definition compute_new_state (state : string) (event : ReorgEvent) : string :=
  let reorg_depth := (old_height event - new_height event)%N in
  let is_deep_reorg := (6 <=? reorg_depth)%N in
  if is_state state ["locking"%string; "awaiting_finality"%string] then
    if is_deep_reorg then "init" else "awaiting_finality"
  else if is_state state ["proof_building"%string; "proof_validated"%string] then
    if is_deep_reorg then "locking" else "proof_building"
  else if is_state state ["minting"%string] then "proof_validated"
  else if is_state state ["completed"%string] then
    if is_deep_reorg then "needs_security_review" else "completed"
  else "needs_review".

(** The body of [reconcile]'s loop. *)
Definition reconcile_one (event : ReorgEvent) (revalidate_proofs : bool)
    (r : ReconciliationResult) (t : string * string * N * Hash) : ReconciliationResult :=
  let '(transfer_id, state, block_height, commitment) := t in
  let fail n a := mkReconciliation (transfers_reconciled r) (wrap32 (transfers_failed r + 1))
                    n (actions r ++ [a]) in
  let finish n := mkReconciliation (wrap32 (transfers_reconciled r + 1)) (transfers_failed r) n
                    (actions r ++ [Reconciled (compute_new_state state event)]) in
  if negb (verify_lock_on_canonical_chain event block_height) then
    fail (proofs_revalidated r) RCompromised
  else if revalidate_proofs then
    match revalidate_proof_for_transfer transfer_id block_height commitment with
    | Ok v => if valid v then finish (wrap32 (proofs_revalidated r + 1))
              else fail (proofs_revalidated r) RCompromised
    | Err _ => fail (proofs_revalidated r) NeedsReview
    end
  else finish (proofs_revalidated r).

(** [reconcile]: the result is also pushed on the history. *)
Definition reconcile (history : list ReconciliationResult) (event : ReorgEvent)
    (affected : list (string * string * N * Hash)) (revalidate_proofs : bool)
  : list ReconciliationResult * ReconciliationResult :=
  let r := fold_left (reconcile_one event revalidate_proofs) affected
             (mkReconciliation 0 0 0 []) in
  (history ++ [r], r).
End Engine.

(** * Proofs *)

Lemma wrap32_add_l a b : wrap32 (wrap32 a + b) = wrap32 (a + b).
Proof. unfold wrap32. by rewrite N.Div0.add_mod_idemp_l. Qed.

(** The detector changes its state exactly when it reports nothing, and then the
    height it knows does not decrease. *)
Lemma update_spec now d chain height hash :
  let '(d', notices, event) := update now d chain height hash in
  match event with
  | Some e => d' = d /\ exists h k, last_known d !! chain = Some (h, k) /\
      (height < h \/ height = h /\ hash <> k)%N /\
      e = mkReorg chain h height k hash (h - height)
  | None => notices = [] /\ last_known d' !! chain = Some (height, hash) /\
      (forall h k, last_known d !! chain = Some (h, k) -> (h <= height)%N) /\
      (forall c, c <> chain -> last_known d' !! c = last_known d !! c)
  end.
Proof.
  unfold update. destruct (last_known d !! chain) as [[h k]|] eqn:Hk.
  - destruct (N.ltb_spec height h); [split; [done|]; exists h, k; auto|].
    destruct (N.eqb_spec height h) as [->|]; cbn [andb negb].
    + case_bool_decide; cbn [negb].
      * split_and!; simpl; [done|by rewrite lookup_insert_eq| |].
        -- intros ? ? [= <- <-]. lia.
        -- intros. by rewrite lookup_insert_ne.
      * split; [done|]. exists h, k. rewrite N.sub_diag. auto.
    + split_and!; simpl; [done|by rewrite lookup_insert_eq| |].
      * intros ? ? [= <- <-]. lia.
      * intros. by rewrite lookup_insert_ne.
  - split_and!; simpl; [done|by rewrite lookup_insert_eq|done|].
    intros. by rewrite lookup_insert_ne.
Qed.

(** the rollback decision, as [rollback_transfers] documents its heights (the
    old tip first, a lower new tip second), looks at nothing but the block of the
    source lock.  Every transfer locked below the old tip is [Compromised], lock
    blocks far below the fork and completed transfers included, and every other one
    is [RolledBack]: [Resume] is never chosen.  Each transfer gets one result and
    exactly two storage calls, in order. *)
Theorem rollback_ignores_state (chain : string) (from_height to_height : N)
    (affected : list (string * string * N)) :
  (to_height < from_height)%N ->
  let act h := if (h <? from_height)%N then Compromised else RolledBack in
  (rollback_transfers chain from_height to_height affected).2 =
    map (fun t => mkRollbackResult t.1.1 (act t.2) t.1.2 t.2) affected /\
  (rollback_transfers chain from_height to_height affected).1 =
    concat (map (fun t =>
      [UpdateTransferState t.1.1 (action_state (act t.2)) from_height to_height
         (action_state (act t.2)) chain;
       RecordRollback t.1.1 chain from_height to_height (action_state (act t.2))]) affected).
Proof.
  intros Hlt act.
  assert (Hact : forall s h, determine_rollback_action s h from_height to_height = act h).
  { intros s h. unfold determine_rollback_action, act. destruct (N.ltb_spec h from_height); [done|].
    assert (Hh : (h <=? to_height)%N = false) by (apply N.leb_gt; lia).
    by rewrite Hh, !andb_false_r. }
  induction affected as [|[[id s] h] rest [IH1 IH2]]; [done|]. cbn [rollback_transfers].
  destruct (rollback_transfers chain from_height to_height rest) as [calls results].
  simpl in *. rewrite Hact, IH1, IH2. done.
Qed.

Lemma rollback_ignores_state_witness :
  map rr_action (rollback_transfers "bitcoin" 800 790
     [("a"%string, "minting"%string, 100%N); ("b"%string, "completed"%string, 800%N)]).2
  = [Compromised; RolledBack].
Proof.
  rewrite (proj1 (rollback_ignores_state "bitcoin" 800 790 _ eq_refl)). reflexivity.
Defined.

Section EngineFacts.
Context {B : Type} `{ChainBackend B}.
Variable backend : B.

(** The four answers a re-validated proof needs. *)
Definition proof_holds (h : N) (commitment : Hash) : Prop :=
  is_ok (get_block_hash backend h) = true /\
  verify_commitment_in_block backend commitment h = Ok true /\
  exists proof, rebuild_inclusion_proof backend commitment h = Ok proof /\
                backend_verify_proof backend proof commitment = Ok true.

(** The block an untouched lock is compared with. *)
Definition expected_hash (event : ReorgEvent) (h : N) : Hash :=
  if decide (h = new_height event) then new_hash event else old_hash event.

Lemma verify_lock_spec event h :
  verify_lock_on_canonical_chain backend event h = true <->
  (old_height event <= h)%N \/
  ((h < old_height event)%N /\ get_block_hash backend h = Ok (expected_hash event h)).
Proof.
  unfold verify_lock_on_canonical_chain, expected_hash.
  destruct (N.leb_spec (old_height event) h) as [Hle|Hlt]; [naive_solver|].
  assert (Heq : (if (h =? new_height event)%N then new_hash event else old_hash event)
                = expected_hash event h)
    by (unfold expected_hash; destruct (N.eqb_spec h (new_height event)); by case_decide).
  unfold expected_hash in Heq. rewrite Heq.
  destruct (get_block_hash backend h) as [x|e]; [|naive_solver lia].
  rewrite bool_decide_eq_true. split; [intros ->; auto|].
  intros [?|[_ [= ->]]]; [lia|done].
Qed.

Lemma revalidate_spec id h c :
  exists v, revalidate_proof_for_transfer backend id h c = Ok v /\
            (valid v = true <-> proof_holds h c).
Proof.
  unfold revalidate_proof_for_transfer, proof_holds.
  destruct (get_block_hash backend h); [|eexists; split; [done|]; simpl; by split; [|intros [? _]]].
  destruct (verify_commitment_in_block backend c h) as [[|]|];
    try (eexists; split; [done|]; simpl; by split; [|intros (_ & [=] & _)]).
  destruct (rebuild_inclusion_proof backend c h) as [p|];
    [|eexists; split; [done|]; simpl; by split; [|intros (_ & _ & p & [=] & _)]].
  destruct (backend_verify_proof backend p c) as [[|]|] eqn:E; (eexists; split; [done|]); simpl;
    (split; [try done; eauto|intros (_ & _ & q & [= <-] & Hq); congruence]).
Qed.

(** Does the transfer survive the reorganisation? *)
Definition survives (event : ReorgEvent) (revalidate_proofs : bool) (h : N) (c : Hash) : Prop :=
  ((old_height event <= h)%N \/ get_block_hash backend h = Ok (expected_hash event h)) /\
  (revalidate_proofs = true -> proof_holds h c).

Definition outcome_of (event : ReorgEvent) (revalidate_proofs : bool)
    (t : string * string * N * Hash) (a : ReconciliationAction) : Prop :=
  let '(_, state, h, c) := t in
  (survives event revalidate_proofs h c /\ a = Reconciled (compute_new_state state event)) \/
  (~ survives event revalidate_proofs h c /\ a = RCompromised).

Lemma reconcile_one_spec event rv r t :
  exists a, outcome_of event rv t a /\
    let r' := reconcile_one backend event rv r t in
    actions r' = actions r ++ [a] /\
    ((a = RCompromised /\ transfers_failed r' = wrap32 (transfers_failed r + 1) /\
      transfers_reconciled r' = transfers_reconciled r) \/
     (a <> RCompromised /\ transfers_reconciled r' = wrap32 (transfers_reconciled r + 1) /\
      transfers_failed r' = transfers_failed r)).
Proof.
  destruct t as [[[id state] h] c]. unfold reconcile_one, outcome_of, survives.
  assert (Hl := verify_lock_spec event h).
  assert (Hlock : verify_lock_on_canonical_chain backend event h = true <->
    (old_height event <= h)%N \/ get_block_hash backend h = Ok (expected_hash event h)).
  { rewrite Hl. destruct (N.le_gt_cases (old_height event) h); naive_solver. }
  destruct (revalidate_spec id h c) as (v & Hv & Hval).
  destruct (verify_lock_on_canonical_chain backend event h); cbn [negb].
  - destruct rv; [|eexists; split; [left; naive_solver|simpl; naive_solver]].
    rewrite Hv. destruct (valid v).
    + eexists. split; [left; naive_solver|simpl; naive_solver].
    + eexists. split; [right; naive_solver|simpl; naive_solver].
  - eexists. split; [right; naive_solver|simpl; naive_solver].
Qed.
End EngineFacts.

(** reconciliation gives each affected transfer one action, in order, and
    counts them.  A transfer is [Reconciled] exactly when its lock passes the
    canonical-chain check and, if proofs are re-validated, the chain confirms its
    commitment and a rebuilt proof; it is [Compromised] otherwise and never left
    for review.  The lock check asks the chain only below the old tip, and there,
    except at the new tip, it compares the block at the lock's own height with the
    block that was at the old tip. *)
Theorem reconcile_outcomes {B : Type} `{ChainBackend B} (backend : B)
    (history : list ReconciliationResult) (event : ReorgEvent)
    (affected : list (string * string * N * Hash)) (revalidate_proofs : bool) :
  let r := (reconcile backend history event affected revalidate_proofs).2 in
  Forall2 (outcome_of backend event revalidate_proofs) affected (actions r) /\
  transfers_reconciled r = wrap32 (blen (filter (fun a => a <> RCompromised) (actions r))) /\
  transfers_failed r = wrap32 (blen (filter (fun a => a = RCompromised) (actions r))) /\
  (reconcile backend history event affected revalidate_proofs).1 = history ++ [r].
Proof.
  intros r. split_and!; [| | |done]; subst r; unfold reconcile; cbn [fst snd].
  all: induction affected as [|t ts IH] using rev_ind; [done|].
  all: rewrite fold_left_app; cbn [fold_left].
  all: set (r := fold_left _ ts _) in *.
  all: destruct (reconcile_one_spec backend event revalidate_proofs r t) as (a & Ho & Ha & Hc).
  all: rewrite Ha.
  - apply Forall2_app; [exact IH|]. by constructor.
  - rewrite filter_app, blen_app, filter_cons, filter_nil.
    destruct Hc as [(-> & _ & ->)|(Hn & -> & _)].
    + rewrite decide_False by tauto. by rewrite N.add_0_r.
    + rewrite decide_True, IH by done. apply wrap32_add_l.
  - rewrite filter_app, blen_app, filter_cons, filter_nil.
    destruct Hc as [(-> & -> & _)|(Hn & _ & ->)].
    + rewrite decide_True, IH by done. apply wrap32_add_l.
    + rewrite decide_False by done. by rewrite N.add_0_r.
Qed.

(** A chain of a hundred blocks, each with its own hash, that lost only its tip. *)
Definition block_of (h : N) : Hash := fill32 (byte_of h).
Global Instance demo_chain : ChainBackend unit := {
  get_block_hash := fun _ h => Ok (block_of h);
  verify_commitment_in_block := fun _ _ _ => Ok true;
  rebuild_inclusion_proof := fun _ _ _ => Err "unavailable"%string;
  backend_verify_proof := fun _ _ _ => Ok true
}.

(** The lock at height 10, ninety blocks under the fork, is condemned; the one in
    the block that was replaced is not even looked at. *)
Example deep_lock_condemned :
  actions (reconcile tt [] (mkReorg "bitcoin" 101 100 (block_of 201) (block_of 100) 1)
    [("a"%string, "minting"%string, 10%N, zero32);
     ("b"%string, "minting"%string, 101%N, zero32)] false).2
  = [RCompromised; Reconciled "proof_validated"].
Proof. vm_compute. reflexivity. Qed.
