(* ===== verification/TransferState.v ===== *)
(** * Transfer states (csv-protocol/src/transfer_state/)

    The typed states of a materialising transfer, each consumed by the method that
    leads to the next, and the stages that summarise both kinds of transfer. *)

From S2P Require Import Prelude Ord Bytes Hashing Signature.

(** ** The typed states *)

Record TransferData := mkTransferData {
  td_transfer_id : Hash;
  td_sanad_id : Hash;
  td_source_chain : string;
  td_destination_chain : string;
  td_seal_point : bytes;
  td_commitment_hash : Hash;
  initiated_at : N
}.

Definition TransferData_new (transfer_id sanad_id : Hash) (source destination : string)
    (seal_point : bytes) (commitment_hash : Hash) : TransferData :=
  mkTransferData transfer_id sanad_id source destination seal_point commitment_hash 0.

Inductive CompromiseType := ReplayAttack | DoubleSpend | InvalidProof | RpcDisagreement | Other.

Inductive TransferState :=
| Locked (data : TransferData) (lock_height : N) (lock_tx_hash : bytes)
| AwaitingFinality (data : TransferData) (proof_height required current : N)
| ProofBuilding (data : TransferData) (started_at progress : N)
| ProofValidated (data : TransferData) (proof : bytes) (validated_at : N)
| Minting (data : TransferData) (mint_tx_hash : option bytes) (started_at : N)
| Completed (data : TransferData) (completed_at : N) (mint_tx_hash : bytes)
| RolledBack (data : TransferData) (reorg_height rolled_back_at : N) (reason : string)
| Compromised (data : TransferData) (compromised_at : N) (kind : CompromiseType) (details : string).

Definition data (s : TransferState) : TransferData :=
  match s with
  | Locked d _ _ | AwaitingFinality d _ _ _ | ProofBuilding d _ _ | ProofValidated d _ _
  | Minting d _ _ | Completed d _ _ | RolledBack d _ _ _ | Compromised d _ _ _ => d
  end.

Definition invalid {A} (m : string) : result ProtocolError A := Err (InvalidStateTransition m).

(** [Locked::await_finality] *)
Definition await_finality (d : TransferData) (lock_height proof_height required : N)
  : result ProtocolError TransferState :=
  if (proof_height <=? lock_height)%N then invalid "Proof height must be after lock height"
  else Ok (AwaitingFinality d proof_height required 0).

Definition is_finalized (required current : N) : bool := (required <=? current)%N.

(** [AwaitingFinality::build_proof] *)
Definition build_proof (d : TransferData) (required current : N)
  : result ProtocolError TransferState :=
  if negb (is_finalized required current) then
    invalid "Cannot build proof before finality is achieved"
  else Ok (ProofBuilding d 0 0).

(** [ProofBuilding::complete_proof] *)
Definition complete_proof (d : TransferData) (progress : N) (proof_hash : Hash)
  : result ProtocolError TransferState :=
  if (progress <? 100)%N then invalid "Cannot complete proof before progress reaches 100%"
  else Ok (ProofValidated d (b32 proof_hash) 0).

(** [ProofValidated::begin_minting] *)
Definition begin_minting (d : TransferData) (proof : bytes) : result ProtocolError TransferState :=
  if bool_decide (proof = []) then invalid "Cannot begin minting with empty proof"
  else Ok (Minting d None 0).

(** [Minting::complete_minting] *)
Definition complete_minting (d : TransferData) (mint_tx_hash : bytes)
  : result ProtocolError TransferState :=
  if bool_decide (mint_tx_hash = []) then
    invalid "Cannot complete minting with empty transaction hash"
  else Ok (Completed d 0 mint_tx_hash).

(** The methods a caller can invoke on the state it holds. *)
Inductive transfer_call :=
| CAwaitFinality (proof_height required : N)
| CUpdateConfirmations (confirmations : N)
| CBuildProof
| CUpdateProgress (progress : N)
| CCompleteProof (proof_hash : Hash)
| CBeginMinting
| CSetMintTxHash (tx_hash : bytes)
| CCompleteMinting (mint_tx_hash : bytes).

(** A call on a state whose type has no such method does not type-check: [None]. *)
Definition call (s : TransferState) (c : transfer_call)
  : option (result ProtocolError TransferState) :=
  match s, c with
  | Locked d h _, CAwaitFinality p r => Some (await_finality d h p r)
  | AwaitingFinality d p r _, CUpdateConfirmations n => Some (Ok (AwaitingFinality d p r n))
  | AwaitingFinality d _ r n, CBuildProof => Some (build_proof d r n)
  | ProofBuilding d t _, CUpdateProgress p => Some (Ok (ProofBuilding d t (N.min p 100)))
  | ProofBuilding d _ p, CCompleteProof h => Some (complete_proof d p h)
  | ProofValidated d p _, CBeginMinting => Some (begin_minting d p)
  | Minting d _ t, CSetMintTxHash h => Some (Ok (Minting d (Some h) t))
  | Minting d _ _, CCompleteMinting h => Some (complete_minting d h)
  | _, _ => None
  end.

Definition step (s s' : TransferState) : Prop := exists c, call s c = Some (Ok s').

(** ** Stages (mod.rs) *)

Inductive TransferStage :=
| SInitialized | SLockSubmitted | SLockConfirmed | SAwaitingFinality | SProofBuilding
| SProofValidated | SMintSubmitted | SMintConfirmed | SSealAssigned | SSourceSealClosed
| SConsignmentEmitted | SCompleted | SRolledBack | SCompromised.

Inductive TransferMode := Materialize | Send.

Global Instance TransferStage_eq_dec : EqDecision TransferStage.
Proof. solve_decision. Defined.
Global Instance TransferMode_eq_dec : EqDecision TransferMode.
Proof. solve_decision. Defined.

Definition is_terminal (s : TransferStage) : bool :=
  match s with SCompleted | SRolledBack | SCompromised => true | _ => false end.

Definition next_stage (s : TransferStage) : option TransferStage :=
  match s with
  | SInitialized => Some SLockSubmitted
  | SLockSubmitted => Some SLockConfirmed
  | SLockConfirmed => Some SAwaitingFinality
  | SAwaitingFinality => Some SProofBuilding
  | SProofBuilding => Some SProofValidated
  | SProofValidated => Some SMintSubmitted
  | SMintSubmitted => Some SMintConfirmed
  | SMintConfirmed => Some SCompleted
  | _ => None
  end.

Definition next_send_stage (s : TransferStage) : option TransferStage :=
  match s with
  | SInitialized => Some SSealAssigned
  | SSealAssigned => Some SSourceSealClosed
  | SSourceSealClosed => Some SConsignmentEmitted
  | SConsignmentEmitted => Some SCompleted
  | _ => None
  end.

Definition mode (s : TransferStage) : option TransferMode :=
  match s with
  | SLockSubmitted | SLockConfirmed | SAwaitingFinality | SProofBuilding | SProofValidated
  | SMintSubmitted | SMintConfirmed => Some Materialize
  | SSealAssigned | SSourceSealClosed | SConsignmentEmitted => Some Send
  | SInitialized | SCompleted | SRolledBack | SCompromised => None
  end.

Definition is_send_stage (s : TransferStage) : bool := bool_decide (mode s = Some Send).
Definition is_materialize_stage (s : TransferStage) : bool :=
  bool_decide (mode s = Some Materialize).
Definition is_in_progress (s : TransferStage) : bool :=
  negb (is_terminal s) && negb (bool_decide (s = SInitialized)).
Definition proof_validated (s : TransferStage) : bool :=
  match s with SProofValidated | SMintSubmitted | SMintConfirmed | SCompleted => true | _ => false end.

(** The stage names ([Display]). *)
Definition stage_name (s : TransferStage) : string :=
  match s with
  | SInitialized => "initialized"
  | SLockSubmitted => "lock_submitted"
  | SLockConfirmed => "lock_confirmed"
  | SProofBuilding => "proof_building"
  | SProofValidated => "proof_validated"
  | SAwaitingFinality => "awaiting_finality"
  | SMintSubmitted => "mint_submitted"
  | SMintConfirmed => "mint_confirmed"
  | SSealAssigned => "seal_assigned"
  | SSourceSealClosed => "source_seal_closed"
  | SConsignmentEmitted => "consignment_emitted"
  | SCompleted => "completed"
  | SRolledBack => "rolled_back"
  | SCompromised => "compromised"
  end.

(** * Proofs *)

(** ** The pipeline *)

(** A run: the states that follow a state, each by a method called on the one before. *)
Fixpoint run (s : TransferState) (l : list TransferState) : Prop :=
  match l with [] => True | s' :: l => step s s' /\ run s' l end.
Definition last_of (s : TransferState) (l : list TransferState) : TransferState := default s (last l).

(** Among the states of a run one awaited finality, at a proof height after the lock's and with
    the confirmations it required. *)
Definition passed_finality (d : TransferData) (lock_height : N) (l : list TransferState) : Prop :=
  exists p r n, AwaitingFinality d p r n ∈ l /\ (lock_height < p)%N /\ (r <= n)%N.

(** What is true of the state a run from a lock ends in. *)
Definition progressed (d : TransferData) (lock_height : N) (l : list TransferState)
    (s : TransferState) : Prop :=
  data s = d /\
  match s with
  | Locked _ h _ => h = lock_height
  | AwaitingFinality _ p _ _ => (lock_height < p)%N
  | ProofBuilding _ _ progress => (progress <= 100)%N /\ passed_finality d lock_height l
  | ProofValidated _ proof _ => length proof = 32 /\ passed_finality d lock_height l
  | Minting _ _ _ => passed_finality d lock_height l
  | Completed _ _ mint_tx_hash => mint_tx_hash <> [] /\ passed_finality d lock_height l
  | RolledBack _ _ _ _ | Compromised _ _ _ _ => False
  end.

Lemma last_of_snoc s l s' : last_of s (l ++ [s']) = s'.
Proof. unfold last_of. by rewrite last_snoc. Qed.

Lemma run_snoc s l s' : run s (l ++ [s']) <-> run s l /\ step (last_of s l) s'.
Proof.
  revert s. induction l as [|x l IH]; intros s; cbn; [naive_solver|].
  rewrite IH. unfold last_of. destruct l as [|y l]; cbn; [naive_solver|].
  change (last (x :: y :: l)) with (last (y :: l)).
  destruct (last (y :: l)) as [z|] eqn:E; cbn; [naive_solver|]. by apply last_None in E.
Qed.

Lemma passed_snoc d h l s : passed_finality d h l -> passed_finality d h (l ++ [s]).
Proof. intros (p & r & n & Hin & H). exists p, r, n. split; [|done]. apply elem_of_app. by left. Qed.

Lemma last_of_in s l s' : last_of s l = s' -> s = s' \/ s' ∈ l.
Proof.
  unfold last_of. destruct (last l) as [x|] eqn:E; cbn; [|by left]. intros <-. right.
  by apply last_Some_elem_of.
Qed.

Lemma step_progressed d h tx l s' :
  progressed d h l (last_of (Locked d h tx) l) -> step (last_of (Locked d h tx) l) s' ->
  progressed d h (l ++ [s']) s'.
Proof.
  destruct (last_of _ l) as [| |d0 st pr|d0 pf va|d0 mt st| | |] eqn:Hlast;
    intros [Hd Hp] [c Hc]; cbn [data] in Hd; subst; unfold progressed;
    destruct c; try discriminate Hc; cbn [call] in Hc; injection Hc as Hc;
    unfold await_finality, build_proof, complete_proof, begin_minting, complete_minting, invalid in Hc;
    repeat match type of Hc with context [if ?b then _ else _] => destruct b eqn:H end;
    try discriminate Hc;
    match type of Hc with Ok _ = Ok _ => injection Hc as Hc | _ => idtac end;
    subst s'; cbn [data] in *; (split; [done|]).
  - by apply N.leb_gt.
  - done.
  - split; [by apply N.le_0_l|]. apply negb_false_iff, N.leb_le in H.
    apply last_of_in in Hlast as [?|Hin]; [done|]. apply passed_snoc. by eexists _, _, _.
  - split; [lia|apply passed_snoc; tauto].
  - split; [apply b32_length|apply passed_snoc; tauto].
  - apply passed_snoc; tauto.
  - by apply passed_snoc.
  - split; [|by apply passed_snoc]. by apply bool_decide_eq_false in H.
Qed.

(** a transfer is minted only after its lock is final, and carries its data
    unchanged to the end.  Take any run of the typed methods from a lock.  The state it
    ends in has the locked data, and if that state builds or has validated a proof, mints or
    is completed, the run has passed through a state that awaited finality at a proof
    height above the lock's with the confirmations it required; a completed
    transfer has a non-empty mint transaction; and no method rolls a transfer back or
    marks it compromised.  Conversely each such proof height and mint transaction
    has a run that completes. *)
Theorem transfer_pipeline (d : TransferData) (lock_height : N) (lock_tx : bytes) :
  (forall l, run (Locked d lock_height lock_tx) l ->
     progressed d lock_height l (last_of (Locked d lock_height lock_tx) l)) /\
  (forall p r n proof_hash mint_tx, (lock_height < p)%N -> (r <= n)%N -> mint_tx <> [] ->
     run (Locked d lock_height lock_tx)
       [AwaitingFinality d p r 0; AwaitingFinality d p r n; ProofBuilding d 0 0;
        ProofBuilding d 0 100; ProofValidated d (b32 proof_hash) 0; Minting d None 0;
        Completed d 0 mint_tx]).
Proof.
  split.
  - intros l. induction l as [|s' l IH] using rev_ind; [done|].
    rewrite run_snoc, last_of_snoc. intros [Hl Hs]. by apply (step_progressed d lock_height lock_tx l s' (IH Hl)).
  - intros p r n hash tx Hp Hn Htx. cbn [run]. split_and!; [| | | | | | |done].
    + exists (CAwaitFinality p r). cbn. unfold await_finality. by rewrite (proj2 (N.leb_gt _ _) Hp).
    + by exists (CUpdateConfirmations n).
    + exists CBuildProof. cbn. unfold build_proof, is_finalized. by rewrite (proj2 (N.leb_le _ _) Hn).
    + by exists (CUpdateProgress 100).
    + by exists (CCompleteProof hash).
    + exists CBeginMinting. cbn. unfold begin_minting.
      rewrite bool_decide_false; [done|]. intros E%(f_equal length). by rewrite b32_length in E.
    + exists (CCompleteMinting tx). cbn. unfold complete_minting. by rewrite bool_decide_false.
Qed.

(** ** Stages *)

(** Following [next] from a stage, at most [fuel] times. *)
Fixpoint follow (next : TransferStage -> option TransferStage) (fuel : nat) (s : TransferStage)
  : list TransferStage :=
  match fuel with
  | O => []
  | S fuel => match next s with Some s' => s' :: follow next fuel s' | None => [] end
  end.

(** The two kinds of transfer share only their ends: both pipelines run from
    [Initialized] to [Completed], through every stage of their mode and no other. *)
Lemma stage_pipelines :
  (forall s, mode s = Some Materialize <->
     s <> SCompleted /\ s ∈ follow next_stage 14 SInitialized) /\
  (forall s, mode s = Some Send <->
     s <> SCompleted /\ s ∈ follow next_send_stage 14 SInitialized) /\
  last (follow next_stage 14 SInitialized) = Some SCompleted /\
  last (follow next_send_stage 14 SInitialized) = Some SCompleted.
Proof.
  split_and!; try reflexivity; intros s; apply (bool_decide_unpack _); destruct s; vm_compute;
    exact I.
Qed.
