(* ===== verification/Journal.v ===== *)
(** * The execution journal (csv-runtime/src/execution_journal.rs)

    The append-only record of the phases a transfer went through, that recovery reads:
    in memory, with a capacity, and in a redb table keyed by a sequence number.  What
    clients rely on is the interface [Journal]: a journal is a list of entries, a
    recorded entry is appended or nothing changes, and the last entry of a transfer is
    found.  Both backends meet it, the second across restarts too.

    The table and the CBOR encoding of an entry are parameters with laws.  A failing
    transaction is an argument of the call; poisoned locks are not modelled. *)

From S2P Require Import Prelude Ord Bytes Hashing Text Seal Signature TransferState.

Record TransferContext := mkContext {
  tc_sanad_id : SanadIdWire;
  tc_source_chain : string;
  tc_destination_chain : string;
  tc_lock_tx_hash : HashWire;
  tc_destination_owner : string
}.

Inductive PhaseOutcome := Entered | PhaseCompleted | Failed (reason : string).

(** [ts] in nanoseconds since the epoch. *)
Record TransferPhaseEntry := mkEntry {
  pe_transfer_id : string;
  pe_replay_id : HashWire;
  pe_proof_hash : Bytes32;
  pe_proof_payload : option bytes;
  pe_phase : TransferStage;
  pe_ts : N;
  pe_outcome : PhaseOutcome;
  pe_attempt : N;
  pe_transfer_context : option TransferContext
}.

Global Instance TransferContext_eq_dec : EqDecision TransferContext.
Proof. solve_decision. Defined.
Global Instance PhaseOutcome_eq_dec : EqDecision PhaseOutcome.
Proof. solve_decision. Defined.
Global Instance TransferPhaseEntry_eq_dec : EqDecision TransferPhaseEntry.
Proof. solve_decision. Defined.

Inductive JournalError :=
| Io (m : string)
| Serialization (m : string)
| CapacityExceeded.

(** [Display for JournalError] *)
Definition journal_error_message (e : JournalError) : string :=
  match e with
  | Io m => "Journal I/O error: " +:+ m
  | Serialization m => "Journal serialization error: " +:+ m
  | CapacityExceeded => "Journal capacity exceeded"
  end.

Notation log := (list TransferPhaseEntry).

(** [iter().rev().find(|e| e.transfer_id == transfer_id)] *)
Definition latest_in (l : log) (transfer_id : string) : option TransferPhaseEntry :=
  find (fun e => bool_decide (pe_transfer_id e = transfer_id)) (rev l).

(** The loop that keeps the last entry of each transfer, and the transfers of it that
    are not over; the map's values come in the order [walk]. *)
Definition latest_map (l : log) : gmap string TransferPhaseEntry :=
  fold_left (fun m e => <[pe_transfer_id e := e]> m) l ∅.
Definition incomplete_in (walk : gmap string TransferPhaseEntry -> log) (l : log) : log :=
  base.filter (fun e => is_terminal (pe_phase e) = false) (walk (latest_map l)).

(** ** In memory *)

Record InMemoryJournal := mkMemJournal { mj_entries : log; mj_max_entries : nat }.

(** [InMemoryJournal::new], [default] *)
Definition InMemoryJournal_new (max_entries : nat) : InMemoryJournal := mkMemJournal [] max_entries.
Definition InMemoryJournal_default : InMemoryJournal := InMemoryJournal_new 10000.

(** [record_locked] *)
Definition record_locked (e : TransferPhaseEntry) (j : InMemoryJournal)
  : InMemoryJournal * result JournalError unit :=
  if mj_max_entries j <=? length (mj_entries j) then (j, Err CapacityExceeded)
  else (mkMemJournal (mj_entries j ++ [e]) (mj_max_entries j), Ok tt).

(** [latest_entry_locked], [incomplete_transfers_locked] *)
Definition latest_entry_locked (transfer_id : string) (j : InMemoryJournal)
  : option TransferPhaseEntry := latest_in (mj_entries j) transfer_id.
Definition incomplete_transfers_locked (walk : gmap string TransferPhaseEntry -> log)
    (j : InMemoryJournal) : log := incomplete_in walk (mj_entries j).

(** ** redb *)

(** A redb table from [u64] to bytes: its range in key order, its last row. *)
Class SeqTable (T : Type) := {
  sq_range : T -> list (N * bytes);
  sq_last : T -> option (N * bytes);
  sq_insert : N -> bytes -> T -> T
}.
Class SeqTableLaws (T : Type) `{SeqTable T} := {
  sq_sorted : forall t, StronglySorted (fun x y : N * bytes => (x.1 < y.1)%N) (sq_range t);
  sq_last_range : forall t, sq_last t = last (sq_range t);
  sq_insert_elem : forall k v t x,
    x ∈ sq_range (sq_insert k v t) <-> x = (k, v) \/ x.1 <> k /\ x ∈ sq_range t
}.

Record RedbExecutionJournal (T : Type) := mkRedbJournal { rj_table : T; rj_next_sequence : N }.
Global Arguments mkRedbJournal {T}.
Global Arguments rj_table {T}.
Global Arguments rj_next_sequence {T}.

Section Redb.
Context {T : Type} `{SeqTable T}.
(** [to_canonical_cbor], [from_canonical_cbor] of an entry. *)
Variable entry_cbor : TransferPhaseEntry -> result string bytes.
Variable entry_of_cbor : bytes -> result string TransferPhaseEntry.
Notation RJ := (RedbExecutionJournal T).

(** [open], of a file that holds the table [t]; the sequence goes on after its last
    row. *)
Definition open_journal (t : T) : RJ :=
  mkRedbJournal t (match sq_last t with Some (k, _) => add64 k 1 | None => 0%N end).

(** [RedbExecutionJournal::entries] *)
Fixpoint decode_rows (rows : list (N * bytes)) : result JournalError log :=
  match rows with
  | [] => Ok []
  | (_, b) :: rows' =>
      e ← map_err Serialization (entry_of_cbor b); es ← decode_rows rows'; Ok (e :: es)
  end.
Definition journal_entries (j : RJ) : result JournalError log := decode_rows (sq_range (rj_table j)).

(** [record]; [fault] is the failure of the write transaction, when it fails. *)
Definition redb_record (fault : option string) (e : TransferPhaseEntry) (j : RJ)
  : RJ * result JournalError unit :=
  match map_err Serialization (entry_cbor e) with
  | Err x => (j, Err x)
  | Ok b =>
      match fault with
      | Some m => (j, Err (Io m))
      | None => (mkRedbJournal (sq_insert (rj_next_sequence j) b (rj_table j))
                   (add64 (rj_next_sequence j) 1), Ok tt)
      end
  end.

Definition redb_latest_entry (transfer_id : string) (j : RJ)
  : result JournalError (option TransferPhaseEntry) :=
  es ← journal_entries j; Ok (latest_in es transfer_id).
Definition redb_incomplete_transfers (walk : gmap string TransferPhaseEntry -> log) (j : RJ)
  : result JournalError log :=
  es ← journal_entries j; Ok (incomplete_in walk es).
End Redb.

(** ** The interface *)

(** [ExecutionJournal].  [j_log] is what the journal holds, [j_wf] what its backend
    maintains, [j_room n] that [n] more entries are accepted when nothing fails. *)
Class Journal (J : Type) := {
  j_record : option string -> TransferPhaseEntry -> J -> J * result JournalError unit;
  j_latest_entry : string -> J -> result JournalError (option TransferPhaseEntry);
  j_incomplete_transfers :
    (gmap string TransferPhaseEntry -> log) -> J -> result JournalError log;
  j_log : J -> log;
  j_wf : J -> Prop;
  j_room : nat -> J -> Prop
}.
(** [latest_phase] *)
Definition j_latest_phase {J} `{Journal J} (transfer_id : string) (j : J)
  : result JournalError (option TransferStage) := e ← j_latest_entry transfer_id j; Ok (option_map pe_phase e).

(** A journal of fewer entries than there are sequence numbers. *)
Definition countable_log (l : log) : Prop := (N.of_nat (length l) <= u64_max)%N.

Class JournalLaws (J : Type) `{Journal J} := {
  record_law : forall fault e j j' r,
    j_wf j -> countable_log (j_log j) -> j_record fault e j = (j', r) ->
    j_wf j' /\ j_log j' = match r with Ok _ => j_log j ++ [e] | Err _ => j_log j end;
  record_room : forall e n j, j_wf j -> j_room (S n) j ->
    exists j', j_record None e j = (j', Ok tt) /\ j_room n j';
  room_le : forall n m j, n <= m -> j_room m j -> j_room n j;
  latest_entry_law : forall id j, j_wf j -> j_latest_entry id j = Ok (latest_in (j_log j) id);
  incomplete_law : forall walk j,
    j_wf j -> j_incomplete_transfers walk j = Ok (incomplete_in walk (j_log j))
}.

Global Instance mem_journal : Journal InMemoryJournal := {|
  j_record _ e j := record_locked e j;
  j_latest_entry id j := Ok (latest_entry_locked id j);
  j_incomplete_transfers walk j := Ok (incomplete_transfers_locked walk j);
  j_log := mj_entries;
  j_wf _ := True;
  j_room n j := length (mj_entries j) + n <= mj_max_entries j
|}.

Global Instance mem_journal_laws : JournalLaws InMemoryJournal.
Proof.
  split; cbn; try done.
  - unfold record_locked. intros _ e j j' r _ _ H. split; [done|].
    case_match; by injection H as <- <-.
  - intros e n j _ Hn. unfold record_locked. rewrite (proj2 (Nat.leb_gt _ _)) by lia.
    eexists. split; [done|]. cbn. rewrite length_app. cbn. lia.
  - intros n m j. lia.
Qed.

Section RedbJournal.
Context {T : Type} `{SeqTableLaws T}.
Context (entry_cbor : TransferPhaseEntry -> result string bytes)
        (entry_of_cbor : bytes -> result string TransferPhaseEntry).
Context (Hcbor : forall e b, entry_cbor e = Ok b -> entry_of_cbor b = Ok e).
Notation RJ := (RedbExecutionJournal T).
Local Notation entries_of := (journal_entries entry_of_cbor).

(** What a file holds: rows numbered from zero that decode. *)
Definition table_wf (t : T) : Prop :=
  (sq_range t).*1 = N.of_nat <$> seq 0 (length (sq_range t)) /\
  (N.of_nat (length (sq_range t)) <= u64_max + 1)%N /\
  is_ok (decode_rows entry_of_cbor (sq_range t)) = true.
Definition redb_wf (j : RJ) : Prop :=
  table_wf (rj_table j) /\
  rj_next_sequence j = wrap64 (N.of_nat (length (sq_range (rj_table j)))).
Definition redb_log (j : RJ) : log :=
  match entries_of j with Ok l => l | Err _ => [] end.

#[local] Instance redb_journal : Journal RJ := {|
  j_record := redb_record entry_cbor;
  j_latest_entry := redb_latest_entry entry_of_cbor;
  j_incomplete_transfers := redb_incomplete_transfers entry_of_cbor;
  j_log := redb_log;
  j_wf := redb_wf;
  j_room n j := (forall e, is_ok (entry_cbor e) = true) /\
                (N.of_nat (length (redb_log j) + n) <= u64_max)%N
|}.

(** A row with a key above all others goes to the end. *)
Lemma insert_at_end (t : T) (k : N) (v : bytes) :
  (forall x, x ∈ sq_range t -> (x.1 < k)%N) -> sq_range (sq_insert k v t) = sq_range t ++ [(k, v)].
Proof.
  intros Hk. set (R := fun x y : N * bytes => (x.1 < y.1)%N).
  assert (Hs : StronglySorted R (sq_range t ++ [(k, v)])).
  { apply StronglySorted_app_2; [|apply sq_sorted|by repeat constructor].
    intros x y Hx ->%list_elem_of_singleton. by apply Hk. }
  apply (sorted_ext R); [unfold R; lia|apply sq_sorted|done|].
  intros x. rewrite sq_insert_elem, elem_of_app, list_elem_of_singleton. split; [tauto|].
  intros [Hx|Hx]; [right|by left]. split; [|done]. specialize (Hk x Hx). lia.
Qed.

Lemma decode_rows_app r r' :
  decode_rows entry_of_cbor (r ++ r')
  = (l ← decode_rows entry_of_cbor r; l' ← decode_rows entry_of_cbor r'; Ok (l ++ l')).
Proof.
  induction r as [|[k b] r IH]; cbn [decode_rows app].
  - by destruct (decode_rows entry_of_cbor r').
  - destruct (entry_of_cbor b); [|done]. cbn [map_err mbind result_bind]. rewrite IH.
    destruct (decode_rows entry_of_cbor r); [|done]. cbn [mbind result_bind].
    by destruct (decode_rows entry_of_cbor r').
Qed.

Lemma decode_rows_length r l : decode_rows entry_of_cbor r = Ok l -> length l = length r.
Proof.
  revert l. induction r as [|[k b] r IH]; intros l; cbn [decode_rows]; [by intros [= <-]|].
  destruct (entry_of_cbor b); [|done]. cbn [map_err mbind result_bind].
  destruct (decode_rows entry_of_cbor r); [|done]. intros [= <-]. cbn. by rewrite IH.
Qed.

Lemma table_key_lt (t : T) x :
  table_wf t -> x ∈ sq_range t -> (x.1 < N.of_nat (length (sq_range t)))%N.
Proof.
  intros (Hk & _ & _) Hx. apply (list_elem_of_fmap_2 fst) in Hx. rewrite Hk in Hx.
  apply list_elem_of_fmap in Hx as (i & -> & Hi%elem_of_seq). lia.
Qed.

Lemma redb_log_ok j : redb_wf j -> entries_of j = Ok (redb_log j).
Proof.
  intros [(_ & _ & Hd) _]. unfold redb_log. unfold journal_entries in *.
  by apply is_ok_inv in Hd as [l ->].
Qed.

Lemma redb_log_length j : redb_wf j -> length (redb_log j) = length (sq_range (rj_table j)).
Proof. intros Hw. apply decode_rows_length. by apply redb_log_ok. Qed.

(** A recorded entry becomes the last row. *)
Lemma redb_record_ok e b j :
  redb_wf j -> countable_log (redb_log j) -> entry_cbor e = Ok b ->
  let j' := mkRedbJournal (sq_insert (rj_next_sequence j) b (rj_table j))
              (add64 (rj_next_sequence j) 1) in
  redb_wf j' /\ redb_log j' = redb_log j ++ [e].
Proof.
  intros Hw Hc He. cbn zeta. unfold countable_log in Hc.
  rewrite redb_log_length in Hc by done. pose proof (redb_log_ok j Hw) as Hl.
  destruct j as [t k]. destruct Hw as [Ht Hk]. cbn [rj_table rj_next_sequence] in *.
  rewrite wrap64_small in Hk by lia. subst k.
  assert (Hr := insert_at_end t _ b (fun x => table_key_lt t x Ht)).
  assert (Hlog : decode_rows entry_of_cbor (sq_range (sq_insert (N.of_nat (length (sq_range t))) b t))
                 = Ok (redb_log (mkRedbJournal t (N.of_nat (length (sq_range t)))) ++ [e])).
  { unfold journal_entries in Hl. cbn [rj_table] in Hl.
    rewrite Hr, decode_rows_app, Hl. cbn. by rewrite (Hcbor _ _ He). }
  unfold redb_wf. cbn [rj_table rj_next_sequence]. split; [split|].
  - destruct Ht as (Hkeys & Hb & _). unfold table_wf. rewrite Hlog, Hr, fmap_app, Hkeys, length_app.
    cbn [length]. rewrite seq_app, fmap_app. cbn. split; [done|]. split; [|done]. lia.
  - rewrite Hr, length_app. cbn [length]. unfold add64. f_equal. lia.
  - unfold redb_log at 1. unfold journal_entries. cbn [rj_table]. by rewrite Hlog.
Qed.

#[local] Instance redb_journal_laws : JournalLaws RJ.
Proof.
  split; cbn.
  - intros fault e j j' r Hw Hc. unfold redb_record.
    destruct (entry_cbor e) as [b|m] eqn:He; cbn; [|by intros [= <- <-]].
    destruct fault as [m|]; intros [= <- <-]; [done|]. by apply redb_record_ok.
  - intros e n j Hw [Hall Hn]. unfold redb_record.
    destruct (is_ok_inv _ (Hall e)) as [b Hb]. rewrite Hb. cbn. eexists. split; [done|].
    split; [done|]. destruct (redb_record_ok e b j Hw ltac:(unfold countable_log; lia) Hb) as [_ ->].
    rewrite length_app. cbn. lia.
  - intros n m j Hn [Hall Hm]. split; [done|lia].
  - intros id j Hw. unfold redb_latest_entry. by rewrite (redb_log_ok j Hw).
  - intros walk j Hw. unfold redb_incomplete_transfers. by rewrite (redb_log_ok j Hw).
Qed.

(** Opening the file of a journal gives a journal with its entries. *)
Lemma reopen_journal j : redb_wf j ->
  redb_wf (open_journal (rj_table j)) /\ redb_log (open_journal (rj_table j)) = redb_log j.
Proof.
  intros [Ht _]. split; [|done]. split; [done|]. unfold open_journal. cbn [rj_next_sequence rj_table].
  rewrite sq_last_range. destruct Ht as (Hk & Hb & _).
  assert (Hlast : last (sq_range (rj_table j)).*1
                  = last (N.of_nat <$> seq 0 (length (sq_range (rj_table j))))) by by rewrite Hk.
  rewrite !fmap_last in Hlast.
  destruct (length (sq_range (rj_table j))) as [|n] eqn:E.
  { apply length_zero_iff_nil in E. by rewrite E. }
  rewrite seq_S, last_snoc in Hlast. destruct (last (sq_range (rj_table j))) as [[k b]|]; [|done].
  cbn in Hlast. injection Hlast as ->. unfold add64. f_equal. lia.
Qed.
End RedbJournal.

(** ** Reading a journal *)

Lemma latest_in_snoc l e id :
  latest_in (l ++ [e]) id = if decide (pe_transfer_id e = id) then Some e else latest_in l id.
Proof.
  unfold latest_in. rewrite rev_app_distr. cbn [rev app find].
  by rewrite (bool_decide_decide (pe_transfer_id e = id)); case_decide.
Qed.

Lemma latest_in_id l id e : latest_in l id = Some e -> pe_transfer_id e = id /\ e ∈ l.
Proof.
  unfold latest_in. intros [Hin Hid]%find_some. apply bool_decide_eq_true in Hid.
  apply in_rev in Hin. by rewrite list_elem_of_In.
Qed.

Lemma latest_map_lookup l id : latest_map l !! id = latest_in l id.
Proof.
  induction l as [|e l IH] using rev_ind; [apply lookup_empty|].
  unfold latest_map. rewrite fold_left_app. cbn [fold_left]. fold (latest_map l).
  rewrite latest_in_snoc. destruct (decide (pe_transfer_id e = id)) as [<-|Hne].
  - apply lookup_insert_eq.
  - by rewrite lookup_insert_ne.
Qed.

(** A walk over a map's values. *)
Definition some_values (walk : gmap string TransferPhaseEntry -> log) : Prop :=
  forall m, walk m ≡ₚ (map_to_list m).*2.

Lemma elem_of_incomplete walk l e : some_values walk ->
  e ∈ incomplete_in walk l <-> latest_in l (pe_transfer_id e) = Some e /\ is_terminal (pe_phase e) = false.
Proof.
  intros Hw. unfold incomplete_in. rewrite list_elem_of_filter, (Hw (latest_map l)).
  rewrite list_elem_of_fmap. split.
  - intros [Hp ([id x] & -> & Hx)]. apply elem_of_map_to_list in Hx. cbn in *.
    rewrite latest_map_lookup in Hx. destruct (latest_in_id l id x Hx) as [-> _]. done.
  - intros [Hl Hp]. split; [done|]. exists (pe_transfer_id e, e). split; [done|].
    apply elem_of_map_to_list. by rewrite latest_map_lookup.
Qed.

(** ** Runs *)

Notation record_op := (option string * TransferPhaseEntry)%type.

(** Records in order; the journal and the entries whose recording succeeded. *)
Definition record_one {J} `{Journal J} (s : J * log) (o : record_op) : J * log :=
  let '(j, r) := j_record o.1 o.2 s.1 in (j, if is_ok r then s.2 ++ [o.2] else s.2).
Definition record_all {J} `{Journal J} (ops : list record_op) (j : J) : J * log :=
  fold_left record_one ops (j, []).

Lemma record_all_snoc {J} `{Journal J} ops o (j : J) :
  record_all (ops ++ [o]) j = record_one (record_all ops j) o.
Proof. unfold record_all. by rewrite fold_left_app. Qed.

Lemma record_all_log {J} `{JournalLaws J} ops (j : J) :
  j_wf j -> (N.of_nat (length (j_log j) + length ops) <= u64_max)%N ->
  let '(j', accepted) := record_all ops j in
  j_wf j' /\ j_log j' = j_log j ++ accepted /\ length accepted <= length ops.
Proof.
  intros Hj. induction ops as [|o ops IH] using rev_ind; intros Hn.
  { cbn. by rewrite app_nil_r. }
  rewrite length_app in Hn. cbn [length] in Hn. rewrite record_all_snoc.
  specialize (IH ltac:(lia)). destruct (record_all ops j) as [j1 acc]. destruct IH as (Hw & Hl & Hlen).
  unfold record_one. cbn [fst snd]. destruct (j_record o.1 o.2 j1) as [j2 r] eqn:E.
  destruct (record_law _ _ _ _ _ Hw ltac:(unfold countable_log; rewrite Hl, length_app; lia) E)
    as [Hw2 Hl2].
  rewrite length_app. cbn [length]. destruct r; cbn [is_ok]; rewrite Hl2, Hl; split_and!; try done.
  - by rewrite <- app_assoc.
  - rewrite length_app. cbn. lia.
  - lia.
Qed.

Section Sessions.
Context {T : Type} `{SeqTableLaws T}.
Context (entry_cbor : TransferPhaseEntry -> result string bytes)
        (entry_of_cbor : bytes -> result string TransferPhaseEntry).

(** Processes that open the file, record, and end: the journal of the last, opened once
    more, and the entries recorded. *)
Definition session (s : T * log) (ops : list record_op) : T * log :=
  let '(j, acc) := record_all (H := redb_journal entry_cbor entry_of_cbor) ops
                     (open_journal s.1) in
  (rj_table j, s.2 ++ acc).
Definition sessions (t : T) (ss : list (list record_op)) : T * log := fold_left session ss (t, []).

Context (Hcbor : forall e b, entry_cbor e = Ok b -> entry_of_cbor b = Ok e).

Lemma accepted_redb ops (j : RedbExecutionJournal T) :
  (record_all (H := redb_journal entry_cbor entry_of_cbor) ops j).2
  = (base.filter (fun o : record_op => o.1 = None /\ is_ok (entry_cbor o.2) = true) ops).*2.
Proof.
  induction ops as [|o ops IH] using rev_ind; [done|].
  rewrite (record_all_snoc (H := redb_journal entry_cbor entry_of_cbor)), filter_app, fmap_app, <- IH.
  destruct (record_all _ _) as [j1 acc]. destruct o as [fault e].
  rewrite filter_cons, filter_nil. unfold record_one. cbn [fst snd j_record redb_journal].
  unfold redb_record.
  destruct (entry_cbor e) as [b|m] eqn:He; cbn [map_err is_ok].
  - destruct fault as [m|].
    + rewrite decide_False by (by intros [[=] _]). by rewrite app_nil_r.
    + by rewrite decide_True.
  - rewrite decide_False by (by intros [_ [=]]). by rewrite app_nil_r.
Qed.

Lemma sessions_log t ss :
  sq_range t = [] -> (N.of_nat (length (concat ss)) <= u64_max)%N ->
  let '(t', accepted) := sessions t ss in
  redb_wf entry_of_cbor (open_journal t') /\ redb_log entry_of_cbor (open_journal t') = accepted /\
  accepted = (base.filter (fun o : record_op => o.1 = None /\ is_ok (entry_cbor o.2) = true)
                (concat ss)).*2.
Proof.
  intros Ht. induction ss as [|ops ss IH] using rev_ind; intros Hn.
  - cbn. unfold redb_wf, table_wf, redb_log, journal_entries, open_journal.
    cbn [rj_table rj_next_sequence]. rewrite sq_last_range, Ht. done.
  - rewrite concat_app, length_app in Hn. cbn [concat] in Hn. rewrite app_nil_r in Hn.
    unfold sessions in *. rewrite fold_left_app. cbn [fold_left].
    specialize (IH ltac:(lia)). destruct (fold_left session ss (t, [])) as [t1 acc].
    destruct IH as (Hw & Hl & Hacc). unfold session. cbn [fst snd].
    pose proof (accepted_redb ops (open_journal t1)) as Hops.
    assert (Hlen : length acc <= length (concat ss)).
    { rewrite Hacc, length_fmap. apply length_filter. }
    pose proof (record_all_log (H := redb_journal entry_cbor entry_of_cbor)
                  (H0 := redb_journal_laws entry_cbor entry_of_cbor Hcbor) ops (open_journal t1) Hw) as Hrun.
    cbn [j_log redb_journal] in Hrun. rewrite Hl in Hrun. specialize (Hrun ltac:(lia)).
    destruct (record_all ops (open_journal t1)) as [j acc']. cbn in Hops.
    destruct Hrun as (Hwj & Hlj & _). cbn in Hwj, Hlj.
    destruct (reopen_journal entry_of_cbor j Hwj) as [Hwo Hlo].
    rewrite Hlo, Hlj. split_and!; [done|done|].
    by rewrite concat_app, filter_app, fmap_app, <- Hacc, Hops; cbn; rewrite app_nil_r.
Qed.
End Sessions.

(** ** Theorem *)

(** The redb journal keeps what was recorded across restarts.  After any number of
    processes have opened one file and recorded entries, the journal opened again holds
    exactly the entries whose encoding and transaction succeeded, in order: the latest
    entry of a transfer is its last one, and the incomplete transfers are those whose
    last entry is not terminal.  An in-memory journal with room for those entries
    answers the same. *)
Theorem redb_journal_exact {T : Type} `{SeqTableLaws T}
    (entry_cbor : TransferPhaseEntry -> result string bytes)
    (entry_of_cbor : bytes -> result string TransferPhaseEntry) (t : T)
    (ss : list (list record_op)) (max_entries : nat)
    (walk : gmap string TransferPhaseEntry -> log)
    (Hcbor : forall e b, entry_cbor e = Ok b -> entry_of_cbor b = Ok e)
    (Ht : sq_range t = []) (Hn : (N.of_nat (length (concat ss)) <= u64_max)%N)
    (Hwalk : some_values walk) :
  let '(t', accepted) := sessions entry_cbor entry_of_cbor t ss in
  let j := open_journal t' in
  journal_entries entry_of_cbor j = Ok accepted /\
  accepted = (base.filter (fun o : record_op => o.1 = None /\ is_ok (entry_cbor o.2) = true)
                (concat ss)).*2 /\
  (forall id, redb_latest_entry entry_of_cbor id j = Ok (latest_in accepted id)) /\
  (exists unfinished, redb_incomplete_transfers entry_of_cbor walk j = Ok unfinished /\
     forall e, e ∈ unfinished <->
       latest_in accepted (pe_transfer_id e) = Some e /\ is_terminal (pe_phase e) = false) /\
  (length accepted <= max_entries ->
   let '(mem, kept) := record_all ((fun e => (None, e)) <$> accepted)
                         (InMemoryJournal_new max_entries) in
   kept = accepted /\
   (forall id, latest_entry_locked id mem = latest_in accepted id) /\
   incomplete_transfers_locked walk mem = incomplete_in walk accepted).
Proof.
  pose proof (sessions_log entry_cbor entry_of_cbor Hcbor t ss Ht Hn) as Hs.
  destruct (sessions _ _ t ss) as [t' accepted]. destruct Hs as (Hw & Hl & Hacc).
  pose proof (redb_log_ok entry_of_cbor _ Hw) as He. rewrite Hl in He. cbn zeta.
  split; [done|]. split; [done|]. split; [|split].
  - intros id. unfold redb_latest_entry. by rewrite He.
  - exists (incomplete_in walk accepted). split; [unfold redb_incomplete_transfers; by rewrite He|].
    intros e. by apply elem_of_incomplete.
  - intros Hmax. enough (Hmem : record_all ((fun e => (None, e)) <$> accepted)
        (InMemoryJournal_new max_entries) = (mkMemJournal accepted max_entries, accepted))
      by by rewrite Hmem.
    clear -Hmax. induction accepted as [|e l IH] using rev_ind; [done|].
    rewrite length_app in Hmax. cbn [length] in Hmax.
    rewrite fmap_app. change ((fun e => (None, e)) <$> [e]) with [(@None string, e)].
    rewrite record_all_snoc, IH by lia. unfold record_one. cbn [fst snd j_record mem_journal].
    unfold record_locked. cbn [mj_entries mj_max_entries].
    by rewrite (proj2 (Nat.leb_gt _ _)) by lia.
Qed.

(** ** Witness *)

(** A redb table as a finite map, its range sorted by key. *)
Definition key_le (x y : N * bytes) : Prop := (x.1 <= y.1)%N.
#[local] Instance key_le_dec x y : Decision (key_le x y).
Proof. unfold key_le. apply _. Defined.
Definition map_range (m : gmap N bytes) : list (N * bytes) := merge_sort key_le (map_to_list m).
Global Instance map_seq_table : SeqTable (gmap N bytes) := {|
  sq_range := map_range;
  sq_last m := last (map_range m);
  sq_insert k v m := <[k := v]> m
|}.

Lemma map_range_perm m : map_range m ≡ₚ map_to_list m.
Proof. apply merge_sort_Permutation. Qed.

Global Instance map_seq_table_laws : SeqTableLaws (gmap N bytes).
Proof.
  split; cbn; [|done|].
  - intros m. assert (Hs : StronglySorted key_le (map_range m)).
    { apply Sorted_StronglySorted; [intros ???; unfold key_le; lia|].
      apply Sorted_merge_sort. intros x y. unfold key_le. lia. }
    assert (Hnd : NoDup (map_range m).*1) by (rewrite map_range_perm; apply NoDup_fst_map_to_list).
    induction Hs as [|x l Hl IH Hx]; [constructor|]. cbn in Hnd. apply NoDup_cons in Hnd as [Hni Hnd].
    constructor; [by apply IH|]. rewrite Forall_forall in *. intros y Hy. specialize (Hx y Hy).
    unfold key_le in Hx. assert (x.1 <> y.1) by (intros Heq; apply Hni; rewrite Heq; by apply list_elem_of_fmap_2).
    lia.
  - intros k v m [k' v']. rewrite !map_range_perm, !elem_of_map_to_list. cbn.
    rewrite lookup_insert_Some. naive_solver.
Qed.

(** A table of the entries a stand-in for CBOR can encode. *)
Definition demo_entry (id : string) (phase : TransferStage) : TransferPhaseEntry :=
  mkEntry id "" zero32 None phase 7 Entered 1 None.
Definition demo_entry_cbor (e : TransferPhaseEntry) : result string bytes :=
  if bool_decide (e = demo_entry "a" SInitialized) then Ok [Byte.x01]
  else if bool_decide (e = demo_entry "a" SCompleted) then Ok [Byte.x02]
  else if bool_decide (e = demo_entry "b" SLockSubmitted) then Ok [Byte.x03]
  else Err "not in the table"%string.
Definition demo_entry_of_cbor (b : bytes) : result string TransferPhaseEntry :=
  match b with
  | [Byte.x01] => Ok (demo_entry "a" SInitialized)
  | [Byte.x02] => Ok (demo_entry "a" SCompleted)
  | [Byte.x03] => Ok (demo_entry "b" SLockSubmitted)
  | _ => Err "not in the table"%string
  end.
Lemma demo_entry_law e b : demo_entry_cbor e = Ok b -> demo_entry_of_cbor b = Ok e.
Proof. unfold demo_entry_cbor. repeat case_bool_decide; intros; simplify_eq; done. Qed.

Lemma some_values_to_list : some_values (fun m => (map_to_list m).*2).
Proof. by intros m. Qed.

(** Two processes, the second with a failed transaction: transfer [a] completed, [b] did
    not. *)
Lemma redb_journal_exact_witness :
  let '(t', accepted) := sessions demo_entry_cbor demo_entry_of_cbor (∅ : gmap N bytes)
     [[(None, demo_entry "a" SInitialized); (None, demo_entry "b" SLockSubmitted)];
      [(Some "disk full"%string, demo_entry "b" SLockSubmitted); (None, demo_entry "a" SCompleted)]] in
  length accepted = 3 /\
  journal_entries demo_entry_of_cbor (open_journal t') = Ok accepted.
Proof.
  pose proof (redb_journal_exact demo_entry_cbor demo_entry_of_cbor (∅ : gmap N bytes)
     [[(None, demo_entry "a" SInitialized); (None, demo_entry "b" SLockSubmitted)];
      [(Some "disk full"%string, demo_entry "b" SLockSubmitted); (None, demo_entry "a" SCompleted)]]
     10 (fun m => (map_to_list m).*2) demo_entry_law eq_refl ltac:(by vm_compute)
     some_values_to_list) as H.
  destruct (sessions _ _ _ _) as [t' accepted]. destruct H as (He & Hacc & _).
  split; [|exact He]. rewrite Hacc. reflexivity.
Defined.
