(* ===== verification/Admission.v ===== *)
(** * Admission control (csv-admission/src/lib.rs)

    How many transfers run at once, in all and on each chain.  A permit is released
    when it is dropped, once.  The counters, which stay below limits of type [usize],
    are natural numbers; a poisoned lock is taken over, as the code does. *)

From S2P Require Import Prelude Ord Text.

Record AdmissionLimits := mkLimits {
  max_in_flight_transfers : nat;
  max_in_flight_per_chain : nat
}.
Definition default_limits : AdmissionLimits := mkLimits 128 32.

Record AdmissionState := mkAdmission {
  in_flight_transfers : nat;
  in_flight_by_chain : gmap string nat
}.
Definition admission_new : AdmissionState := mkAdmission 0 ∅.

Inductive AdmissionError :=
| TransferLimit (in_flight limit : nat)
| ChainLimit (chain_id : string) (in_flight limit : nat).

(** [Display for AdmissionError] *)
Definition admission_message (e : AdmissionError) : string :=
  match e with
  | TransferLimit n m => "runtime admission rejected transfer: total in-flight " +:+ show_nat n +:+
                         " reached limit " +:+ show_nat m
  | ChainLimit c n m => "runtime admission rejected transfer: chain " +:+ c +:+ " in-flight " +:+
                        show_nat n +:+ " reached limit " +:+ show_nat m
  end.

Definition unique_chains (source destination : string) : list string :=
  if bool_decide (source = destination) then [source] else [source; destination].

Definition chain_load (c : string) (s : AdmissionState) : nat := default 0 (in_flight_by_chain s !! c).

(** [*entry(chain).or_insert(0) += 1] *)
Definition count_up (m : gmap string nat) (c : string) : gmap string nat :=
  <[c := S (default 0 (m !! c))]> m.
(** The counter goes down, and is removed at zero. *)
Definition count_down (m : gmap string nat) (c : string) : gmap string nat :=
  match m !! c with
  | Some n => if n - 1 =? 0 then delete c m else <[c := n - 1]> m
  | None => m
  end.

Section Controller.
Variable limits : AdmissionLimits.

(** [acquire_transfer]; a permit is its chains. *)
Definition acquire_transfer (source destination : string) (s : AdmissionState)
  : AdmissionState * result AdmissionError (list string) :=
  if max_in_flight_transfers limits <=? in_flight_transfers s then
    (s, Err (TransferLimit (in_flight_transfers s) (max_in_flight_transfers limits)))
  else
    let chains := unique_chains source destination in
    match try_each (fun c => if max_in_flight_per_chain limits <=? chain_load c s
                             then Err (ChainLimit c (chain_load c s) (max_in_flight_per_chain limits))
                             else Ok tt) chains with
    | Err e => (s, Err e)
    | Ok _ => (mkAdmission (S (in_flight_transfers s)) (fold_left count_up chains (in_flight_by_chain s)),
               Ok chains)
    end.

(** [release_transfer], which dropping a permit calls *)
Definition release_transfer (chains : list string) (s : AdmissionState) : AdmissionState :=
  mkAdmission (in_flight_transfers s - 1) (fold_left count_down chains (in_flight_by_chain s)).

(** ** A controller in use

    Transfers ask for permits and drop them, in any order. *)
Inductive use := Acquire (source destination : string) | DropPermit (k : nat).

Definition use_step (s : AdmissionState * list (list string)) (u : use)
  : AdmissionState * list (list string) :=
  match u with
  | Acquire source destination =>
      match acquire_transfer source destination s.1 with
      | (a, Ok p) => (a, s.2 ++ [p])
      | (a, Err _) => (a, s.2)
      end
  | DropPermit k =>
      match s.2 !! k with
      | Some p => (release_transfer p s.1, delete k s.2)
      | None => s
      end
  end.
Definition use_all (us : list use) : AdmissionState * list (list string) :=
  fold_left use_step us (admission_new, []).

(** The permits out that hold a chain. *)
Definition holders (c : string) (permits : list (list string)) : nat :=
  length (base.filter (fun p => c ∈ p) permits).

(** The counters are those of the permits that are out, and no limit is passed. *)
Record admission_ok (s : AdmissionState) (permits : list (list string)) : Prop := {
  ok_total : in_flight_transfers s = length permits;
  ok_limit : length permits <= max_in_flight_transfers limits;
  ok_chain : forall c, in_flight_by_chain s !! c
                       = if holders c permits =? 0 then None else Some (holders c permits);
  ok_chain_limit : forall c, holders c permits <= max_in_flight_per_chain limits;
  ok_nodup : Forall NoDup permits
}.

Lemma count_up_lookup m cs c : NoDup cs ->
  fold_left count_up cs m !! c = if bool_decide (c ∈ cs) then Some (S (default 0 (m !! c))) else m !! c.
Proof.
  revert m. induction cs as [|d cs IH]; intros m Hnd; cbn [fold_left].
  { by rewrite bool_decide_false by set_solver. }
  apply NoDup_cons in Hnd as [Hd Hnd]. rewrite IH by done. unfold count_up.
  destruct (decide (c = d)) as [-> |Hne].
  - rewrite lookup_insert_eq, bool_decide_false, bool_decide_true by set_solver. done.
  - rewrite lookup_insert_ne by done.
    rewrite (bool_decide_ext (c ∈ cs) (c ∈ d :: cs)); [done|]. set_solver.
Qed.

Lemma count_down_lookup m cs c : NoDup cs ->
  fold_left count_down cs m !! c
  = if bool_decide (c ∈ cs)
    then (n ← m !! c; if n - 1 =? 0 then None else Some (n - 1)) else m !! c.
Proof.
  revert m. induction cs as [|d cs IH]; intros m Hnd; cbn [fold_left].
  { by rewrite bool_decide_false by set_solver. }
  apply NoDup_cons in Hnd as [Hd Hnd]. rewrite IH by done. unfold count_down.
  destruct (decide (c = d)) as [-> |Hne].
  - rewrite bool_decide_false, bool_decide_true by set_solver.
    destruct (m !! d) as [n|] eqn:E; cbn; [|done].
    destruct (n - 1 =? 0); by rewrite ?lookup_delete_eq, ?lookup_insert_eq.
  - assert (Hm : match m !! d with
                 | Some n => if n - 1 =? 0 then delete d m else <[d := n - 1]> m
                 | None => m
                 end !! c = m !! c).
    { destruct (m !! d) as [n|]; [|done].
      destruct (n - 1 =? 0); by rewrite ?lookup_delete_ne, ?lookup_insert_ne by done. }
    rewrite Hm.
    rewrite (bool_decide_ext (c ∈ cs) (c ∈ d :: cs)); [done|]. set_solver.
Qed.

Lemma holders_app c l1 l2 : holders c (l1 ++ l2) = holders c l1 + holders c l2.
Proof. unfold holders. by rewrite filter_app, length_app. Qed.
Lemma holders_one c p : holders c [p] = if bool_decide (c ∈ p) then 1 else 0.
Proof. unfold holders. cbn. by case_decide; case_bool_decide. Qed.

Lemma holders_delete c k p permits : permits !! k = Some p ->
  holders c permits = holders c (delete k permits) + holders c [p].
Proof.
  intros H. rewrite <- (take_drop_middle permits k p H) at 1.
  rewrite (delete_take_drop permits k), (cons_middle p), !holders_app. lia.
Qed.

Lemma unique_chains_nodup source destination : NoDup (unique_chains source destination).
Proof.
  unfold unique_chains. case_bool_decide; [apply NoDup_singleton|].
  apply NoDup_cons. split; [set_solver|apply NoDup_singleton].
Qed.

Lemma chain_load_holders s permits c : admission_ok s permits -> chain_load c s = holders c permits.
Proof.
  intros H. unfold chain_load. rewrite (ok_chain _ _ H).
  destruct (Nat.eqb_spec (holders c permits) 0); cbn; lia.
Qed.

(** A permit is given exactly when there is room for it. *)
Lemma acquire_exact source destination s permits : admission_ok s permits ->
  is_ok (acquire_transfer source destination s).2 = true <->
  length permits < max_in_flight_transfers limits /\
  holders source permits < max_in_flight_per_chain limits /\
  holders destination permits < max_in_flight_per_chain limits.
Proof.
  intros H. unfold acquire_transfer. rewrite (ok_total _ _ H).
  destruct (Nat.leb_spec (max_in_flight_transfers limits) (length permits)); [cbn; split; [done|lia]|].
  set (f := fun c => _).
  assert (Hf : forall c, f c = Ok tt <-> holders c permits < max_in_flight_per_chain limits).
  { intros c. unfold f. rewrite (chain_load_holders _ _ _ H).
    destruct (Nat.leb_spec (max_in_flight_per_chain limits) (holders c permits)); split; by (lia || done). }
  assert (Ht : try_each f (unique_chains source destination) = Ok tt <->
               f source = Ok tt /\ f destination = Ok tt).
  { rewrite try_each_ok. unfold unique_chains. case_bool_decide as Hd; [subst|];
      rewrite ?Forall_cons, ?Forall_nil; tauto. }
  destruct (try_each f _) as [[]|e] eqn:E; cbn; rewrite <- !Hf.
  - split; [|done]. intros _. split; [done|]. by apply Ht.
  - split; [done|]. intros (_ & Hs & Hd). by discriminate (proj2 Ht (conj Hs Hd)).
Qed.

Lemma permit_acquired source destination s permits s' p : admission_ok s permits ->
  acquire_transfer source destination s = (s', Ok p) -> admission_ok s' (permits ++ [p]).
Proof.
  intros H E. pose proof (proj1 (acquire_exact source destination s permits H)) as Hroom.
  rewrite E in Hroom. destruct (Hroom eq_refl) as (Htot & Hsrc & Hdst). clear Hroom.
  unfold acquire_transfer in E.
  destruct (max_in_flight_transfers limits <=? _); [done|].
  destruct (try_each _ _) as [[]|]; [|done]. injection E as <- <-.
  pose proof (unique_chains_nodup source destination) as Hnd.
  split; cbn [in_flight_transfers in_flight_by_chain].
  - rewrite (ok_total _ _ H), length_app. cbn. lia.
  - rewrite length_app. cbn. lia.
  - intros c. rewrite count_up_lookup by done. rewrite holders_app, holders_one, (ok_chain _ _ H).
    case_bool_decide; [|by rewrite Nat.add_0_r].
    destruct (Nat.eqb_spec (holders c permits) 0) as [-> |]; cbn; [done|].
    by rewrite (proj2 (Nat.eqb_neq _ _)), (Nat.add_comm _ 1) by lia.
  - intros c. rewrite holders_app, holders_one. pose proof (ok_chain_limit _ _ H c).
    case_bool_decide as Hc; [|lia].
    unfold unique_chains in Hc. case_bool_decide; apply elem_of_cons in Hc as [-> |Hc]; try lia.
    + by apply elem_of_nil in Hc.
    + apply list_elem_of_singleton in Hc as ->. lia.
  - apply Forall_app. split; [apply (ok_nodup _ _ H)|]. by constructor.
Qed.

Lemma permit_released k p s permits : admission_ok s permits -> permits !! k = Some p ->
  admission_ok (release_transfer p s) (delete k permits).
Proof.
  intros H Hk. pose proof (length_delete permits k) as Hlen.
  assert (Hlt : k < length permits) by (by apply lookup_lt_is_Some; eauto).
  pose proof (fun c => holders_delete c k p permits Hk) as Hh.
  assert (Hnd : NoDup p) by (by eapply Forall_lookup_1; [apply (ok_nodup _ _ H)|]).
  split; cbn [release_transfer in_flight_transfers in_flight_by_chain].
  - rewrite (ok_total _ _ H), Hlen; [done|eauto].
  - pose proof (ok_limit _ _ H). rewrite Hlen; [lia|eauto].
  - intros c. rewrite count_down_lookup by done. specialize (Hh c). rewrite holders_one in Hh.
    rewrite (ok_chain _ _ H). rewrite Hh. case_bool_decide; cbn [option_bind mbind].
    + rewrite (proj2 (Nat.eqb_neq _ _)) by lia. cbn. rewrite Nat.add_sub. done.
    + by rewrite Nat.add_0_r.
  - intros c. pose proof (ok_chain_limit _ _ H c). specialize (Hh c). lia.
  - apply Forall_delete, (ok_nodup _ _ H).
Qed.

Lemma use_step_ok s u : admission_ok s.1 s.2 -> admission_ok (use_step s u).1 (use_step s u).2.
Proof.
  intros H. destruct u as [source destination|k]; cbn.
  - destruct (acquire_transfer source destination s.1) as [a r] eqn:E. destruct r as [p|e].
    + by eapply permit_acquired.
    + unfold acquire_transfer in E. repeat (case_match; try done); by injection E as <- _.
  - destruct (s.2 !! k) eqn:Hk; [|done]. by apply permit_released.
Qed.

Lemma use_all_ok us : admission_ok (use_all us).1 (use_all us).2.
Proof.
  unfold use_all. assert (H0 : admission_ok admission_new []).
  { split; cbn; [done|lia|done|intros; lia|constructor]. }
  change (admission_ok (admission_new, @nil (list string)).1 (admission_new, @nil (list string)).2) in H0.
  revert H0. generalize (admission_new, @nil (list string)). induction us as [|u us IH]; intros s H; [done|].
  by apply IH, use_step_ok.
Qed.
End Controller.

(** However transfers ask for permits and drop them, the counters are exactly the
    permits that are out, none above its limit, and a permit is given exactly when there
    is room in all and on both chains. *)
Theorem admission_exact (limits : AdmissionLimits) (us : list use) :
  let '(s, permits) := use_all limits us in
  in_flight_transfers s = length permits /\ length permits <= max_in_flight_transfers limits /\
  (forall c, chain_load c s = holders c permits /\ holders c permits <= max_in_flight_per_chain limits) /\
  forall source destination,
    is_ok (acquire_transfer limits source destination s).2 = true <->
    length permits < max_in_flight_transfers limits /\
    holders source permits < max_in_flight_per_chain limits /\
    holders destination permits < max_in_flight_per_chain limits.
Proof.
  pose proof (use_all_ok limits us) as H. destruct (use_all limits us) as [s permits]. cbn in H.
  split_and!; [apply H|apply (ok_limit _ _ _ H)|..].
  - intros c. split; [by eapply chain_load_holders|apply (ok_chain_limit _ _ _ H)].
  - intros. by apply acquire_exact.
Qed.
