(* ===== verification/Coordinator.v ===== *)
(** * What the transfer coordinator is made of
    (csv-runtime/src/error.rs, failure_domain.rs, transfer_coordinator.rs,
    csv-chain-ports/src/lib.rs)

    Its errors and their classes, the transfer it drives, the references to a lock
    transaction, the conversion to the registry's entries and back, and the finality
    observation.  The clock is an argument; the descriptions the hex crate appends to
    messages are not part of the model. *)

From S2P Require Import Prelude Ord Bytes Hashing Text Seal CrossChain.

(** ** Errors *)

Inductive VerificationFailure :=
| InvalidMerklePath | InvalidProofOfWork | PairingCheckFailed | VReplayDetected
| FinalityNotReached (required actual : N) | ReorgDetected (height : N) | RpcDisagreement
| MissingData (m : string) | UnsupportedCapability (m : string) | InvalidOwnershipSignature
| ChainIdMismatch (expected actual : string) | SealIdMismatch | VFailed (m : string)
| VInvalidProof (m : string).

Inductive TransferCoordinatorError :=
| ReplayDetected (id : Hash)
| UnknownChain (m : string)
| UnsupportedOperation (m : string)
| VerificationFailed (f : VerificationFailure)
| LockFailed (m : string)
| NoLeaseBackend
| LeaseViolation (m : string)
| CNotFound
| ReplayDbError (m : string)
| RuntimeError (m : string)
| AdmissionRejected (m : string)
| InvalidTxHash (m : string)
| FinalityFailed (m : string)
| ProofBuildFailed (m : string)
| ProofVerificationFailed (m : string)
| MintFailed (m : string)
| AlreadyComplete
| AlreadyRolledBack
| SettlementFailed (m : string)
| SettlementNotAuthorized (m : string)
| AlreadyReleased
| AlreadyRefunded
| SendFailed (m : string)
| DuplicateSourceSeal.

Inductive FailureDomain :=
| DRpc | DVerification | DStorage | DReplay | DFinality | DConsensus | DSerialization | DCongestion.

(** [TransferCoordinatorError::failure_domain] *)
Definition failure_domain (e : TransferCoordinatorError) : FailureDomain :=
  match e with
  | ReplayDetected _ | DuplicateSourceSeal => DReplay
  | UnknownChain _ | UnsupportedOperation _ | NoLeaseBackend | LeaseViolation _ | RuntimeError _
  | InvalidTxHash _ | AlreadyComplete | AlreadyRolledBack | AlreadyReleased | AlreadyRefunded => DConsensus
  | VerificationFailed _ | ProofBuildFailed _ | ProofVerificationFailed _
  | SettlementNotAuthorized _ => DVerification
  | LockFailed _ | MintFailed _ | SettlementFailed _ | SendFailed _ => DRpc
  | CNotFound | ReplayDbError _ => DStorage
  | AdmissionRejected _ => DCongestion
  | FinalityFailed _ => DFinality
  end.

Definition is_transient (d : FailureDomain) : bool :=
  match d with DRpc | DStorage | DCongestion => true | _ => false end.
Definition requires_operator_intervention (d : FailureDomain) : bool :=
  match d with DVerification | DReplay | DConsensus => true | _ => false end.
Definition is_checkpoint_recoverable (d : FailureDomain) : bool :=
  match d with DRpc | DStorage | DFinality => true | _ => false end.

(** ** Transfers *)

(** [lock_output_index] is a [u32]. *)
Record CrossChainTransfer := mkTransfer {
  ct_id : string;
  ct_source_chain : string;
  ct_destination_chain : string;
  ct_lock_tx_hash : bytes;
  ct_lock_output_index : N;
  ct_sanad_id : Hash;
  ct_transition_id : bytes
}.

Section References.
Variable sha256 : bytes -> Bytes32.

Definition hash_from_tx_bytes (tx_hash : bytes) : result TransferCoordinatorError Hash :=
  ok_or (InvalidTxHash ("expected 32 bytes, got " +:+ show_nat (length tx_hash))) (to_b32 tx_hash).

Definition hash_from_tx_str (tx_hash : string) : result TransferCoordinatorError Hash :=
  let normalized := match as_bytes tx_hash with
                    | Byte.x30 :: Byte.x78 :: r => r
                    | b => b
                    end in
  b ← ok_or (InvalidTxHash "transaction hash is not hex") (hex_decode normalized);
  hash_from_tx_bytes b.

(** A hash as it is, a 64-byte signature through a tagged hash. *)
Definition lock_tx_ref_digest (tx_ref : bytes) : result TransferCoordinatorError Hash :=
  if length tx_ref =? 32 then hash_from_tx_bytes tx_ref
  else if length tx_ref =? 64 then Ok (csv_tagged_hash sha256 (as_bytes "csv-lock-tx-ref") tx_ref)
  else Err (InvalidTxHash ("expected a 32-byte tx hash or 64-byte signature, got " +:+
                           show_nat (length tx_ref))).

Definition proof_payload_hash (payload : bytes) : Bytes32 :=
  csv_tagged_hash sha256 (as_bytes "csv.execution-journal.proof-payload.v1") payload.

(** [transfer_to_registry_entry]; [lower] is [ChainId::new]'s [to_lowercase]. *)
Definition transfer_to_registry_entry (lower : string -> string) (now : N) (t : CrossChainTransfer)
  : result TransferCoordinatorError HashEntry :=
  digest ← lock_tx_ref_digest (ct_lock_tx_hash t);
  Ok (mkHashEntry (ct_id t) (ct_sanad_id t) (lower (ct_source_chain t))
        (mkSealPoint (ct_lock_tx_hash t ++ u32_le (ct_lock_output_index t)) None None)
        (lower (ct_destination_chain t)) (mkSealPoint [] None None)
        digest (ct_transition_id t) Hash.zero now).

Definition LOCK_OUTPUT_INDEX_BYTES : nat := 4.

(** [registry_entry_to_transfer]: the index is the last four bytes of the seal. *)
Definition registry_entry_to_transfer (e : HashEntry) (transfer_id : string) : CrossChainTransfer :=
  let id := seal_id (he_source_seal e) in
  let '(lock_tx_hash, index) :=
    if LOCK_OUTPUT_INDEX_BYTES <=? length id then
      let split_at := length id - LOCK_OUTPUT_INDEX_BYTES in
      (take split_at id, of_le_bytes (drop split_at id))
    else (b32 (he_lock_tx_hash e), 0%N) in
  mkTransfer transfer_id (he_source_chain e) (he_destination_chain e) lock_tx_hash index
    (he_sanad_id e) (he_transition_id e).
End References.

(** ** Finality *)

Record TxFinality := mkTxFinality {
  tf_block_height : N;
  tf_confirmations : N;
  tf_observed_tip_height : option N
}.
Record FinalityObservation := mkFinalityObservation {
  fo_confirming_block_height : N;
  fo_confirmations : N;
  fo_required_confirmations : N;
  fo_observed_tip_height : option N
}.
Definition FinalityObservation_new (f : TxFinality) (required : N) : FinalityObservation :=
  mkFinalityObservation (tf_block_height f) (tf_confirmations f) required (tf_observed_tip_height f).
Definition is_final (o : FinalityObservation) : bool :=
  (fo_required_confirmations o <=? fo_confirmations o)%N.
(** [verification_height]: the tip that was read, or none; never one computed. *)
Definition verification_height (o : FinalityObservation) : option N := fo_observed_tip_height o.

(** ** Lemmas *)

(** A transfer whose reference is a hash or a signature comes back from its entry, but
    for the case of its chains' names. *)
Lemma registry_entry_roundtrip sha256 lower now t e :
  (ct_lock_output_index t <= u32_max)%N ->
  transfer_to_registry_entry sha256 lower now t = Ok e ->
  registry_entry_to_transfer e (ct_id t)
  = mkTransfer (ct_id t) (lower (ct_source_chain t)) (lower (ct_destination_chain t))
      (ct_lock_tx_hash t) (ct_lock_output_index t) (ct_sanad_id t) (ct_transition_id t).
Proof.
  intros Hi. unfold transfer_to_registry_entry. intros (d & _ & [= <-])%bind_ok.
  unfold registry_entry_to_transfer, LOCK_OUTPUT_INDEX_BYTES. cbn -[Nat.leb take drop u32_le of_u32_le length app].
  rewrite length_app, length_u32_le, (proj2 (Nat.leb_le _ _)) by lia.
  replace (length (ct_lock_tx_hash t) + 4 - 4) with (length (ct_lock_tx_hash t)) by lia.
  by rewrite take_app_length, drop_app_length, of_u32_le.
Qed.

Lemma lock_tx_ref_digest_ok sha256 b h :
  lock_tx_ref_digest sha256 b = Ok h -> length b = 32 \/ length b = 64.
Proof.
  unfold lock_tx_ref_digest. destruct (Nat.eqb_spec (length b) 32); [by left|].
  destruct (Nat.eqb_spec (length b) 64); [by right|done].
Qed.
