(* ===== verification/Capabilities.v ===== *)
(** * What chains can do (csv-protocol/src/finality/capabilities.rs,
    verification_results.rs)

    The capabilities of a chain, the requirements of an operation and the plan that
    compares them, the thresholds a verification result is judged by, the recommended
    finality depths, and the registry of capability sets.  A chain of the registry is
    what the registry asks of it: its identifier and its capability set. *)

From S2P Require Import Prelude Ord Bytes Hashing Text Seal CrossChain Coordinator.

Inductive StateModel := Utxo | Account | Object | Resource | DataBlob.
Inductive FinalityModel :=
| ProofOfWork (confirmations : N)
| FinalizedCheckpoint
| BftInstant
| OptimisticWithSlotExpiry (slots : N)
| DataAvailabilityHeader.
Inductive ProofModel :=
| SpvMerkle | MerklePatricia | AccumulatorPath | CheckpointMerkle | SlotConfirmation | DaNamespace.
Inductive ReplayProtectionModel :=
| UtxoSpentCheck | SmartContractNullifier | PdaClosed | ResourceDeleted | ObjectDeleted.
Inductive ReorgRisk := RiskHigh | RiskMedium | RiskLow | RiskNone.
Inductive ChainRole := Settlement | DataAvailability | Verification.

Record ChainCapabilities := mkCapabilities {
  cc_state_model : StateModel;
  cc_finality_model : FinalityModel;
  cc_finality_depth : N;
  cc_deterministic_finality : bool;
  cc_proof_model : ProofModel;
  cc_replay_protection : ReplayProtectionModel;
  cc_native_single_use_semantics : bool;
  cc_reorg_risk : ReorgRisk;
  cc_max_safe_reorg_depth : N;
  cc_supports_light_client_proofs : bool;
  cc_supports_state_proofs : bool;
  cc_supports_transaction_inclusion_proofs : bool;
  cc_supports_offline_verification : bool;
  cc_supports_zk_proofs : bool;
  cc_chain_role : ChainRole
}.

Record CapabilityRequirements := mkRequirements {
  cr_operation : string;
  cr_require_settlement : bool;
  cr_require_light_client_proofs : bool;
  cr_require_state_proofs : bool;
  cr_require_transaction_inclusion_proofs : bool;
  cr_require_offline_verification : bool;
  cr_require_zk_proofs : bool;
  cr_min_finality_depth : N
}.
Definition cross_chain_source : CapabilityRequirements :=
  mkRequirements "cross_chain_source" true false false true false false 1.
Definition cross_chain_destination : CapabilityRequirements :=
  mkRequirements "cross_chain_destination" true false false false false false 1.

Record CapabilityPlan := mkPlan { cp_operation : string; cp_satisfied : bool; cp_missing : list string }.

Definition ensure_satisfied (p : CapabilityPlan) : result string unit :=
  if cp_satisfied p then Ok tt
  else Err ("Capability requirements for " +:+ cp_operation p +:+ " not satisfied: " +:+
            join ", " (cp_missing p)).

Definition is_settlement_chain (c : ChainCapabilities) : bool :=
  match cc_chain_role c with Settlement => true | _ => false end.

(** [if required && !supported { missing.push(name) }] *)
Definition lacking (required supported : bool) (name : string) : list string :=
  if required && negb supported then [name] else [].

Definition plan_for (c : ChainCapabilities) (q : CapabilityRequirements) : CapabilityPlan :=
  let missing :=
    lacking (cr_require_settlement q) (is_settlement_chain c) "settlement_role" ++
    lacking (cr_require_light_client_proofs q) (cc_supports_light_client_proofs c) "light_client_proofs" ++
    lacking (cr_require_state_proofs q) (cc_supports_state_proofs c) "state_proofs" ++
    lacking (cr_require_transaction_inclusion_proofs q) (cc_supports_transaction_inclusion_proofs c)
      "transaction_inclusion_proofs" ++
    lacking (cr_require_offline_verification q) (cc_supports_offline_verification c)
      "offline_verification" ++
    lacking (cr_require_zk_proofs q) (cc_supports_zk_proofs c) "zk_proofs" ++
    (if (cc_finality_depth c <? cr_min_finality_depth q)%N
     then ["finality_depth(" +:+ pretty (cc_finality_depth c) +:+ "<" +:+
           pretty (cr_min_finality_depth q) +:+ ")"] else []) in
  mkPlan (cr_operation q) (match missing with [] => true | _ => false end) missing.

Definition can_authorize_mint (c : ChainCapabilities) : bool := is_settlement_chain c.

(** ** Verification results *)

Inductive VerificationAssurance := Structural | PartialCryptographic | Cryptographic | ConsensusBound.
Inductive InclusionStrength := INone | IChecksum | IMerklePath | IAnchoredMerklePath.
Inductive FinalityStrength := FNone | FProbabilistic (confirmations : N) | FDeterministic.
Record VerifiedComponents := mkComponents {
  vc_inclusion : InclusionStrength;
  vc_finality : FinalityStrength;
  vc_replay_checked : bool;
  vc_ownership_signature : bool
}.
Record VerificationResult := mkVerificationResult {
  vr_valid : bool;
  vr_assurance : VerificationAssurance;
  vr_components : VerifiedComponents;
  vr_error : option VerificationFailure
}.

Definition valid_structural : VerificationResult :=
  mkVerificationResult true Structural (mkComponents IChecksum FNone false false) None.
Definition invalid_result (e : VerificationFailure) : VerificationResult :=
  mkVerificationResult false Structural (mkComponents INone FNone false false) (Some e).

Definition inclusion_threshold_met (c : ChainCapabilities) (observed : InclusionStrength) : bool :=
  match cc_proof_model c, observed with
  | SlotConfirmation, (IChecksum | IMerklePath) => true
  | SlotConfirmation, _ => false
  | _, (IMerklePath | IAnchoredMerklePath) => true
  | _, _ => false
  end.

Definition finality_threshold_met (c : ChainCapabilities) (observed : FinalityStrength) : bool :=
  match observed with
  | FDeterministic => true
  | _ =>
      match cc_finality_model c, observed with
      | ProofOfWork confirmations, FProbabilistic obs => (confirmations <=? obs)%N
      | OptimisticWithSlotExpiry slots, FProbabilistic obs => (slots <=? obs)%N
      | (FinalizedCheckpoint | BftInstant | DataAvailabilityHeader), FDeterministic => true
      | _, _ => false
      end
  end.

Definition meets_chain_thresholds (r : VerificationResult) (c : ChainCapabilities)
  : result VerificationFailure unit :=
  reject negb (vr_valid r) with default InvalidMerklePath (vr_error r) ;;
  reject negb (inclusion_threshold_met c (vc_inclusion (vr_components r))) with InvalidMerklePath ;;
  reject negb (finality_threshold_met c (vc_finality (vr_components r)))
    with FinalityNotReached (cc_finality_depth c)
           match vc_finality (vr_components r) with
           | FProbabilistic confirmations => confirmations
           | FDeterministic => cc_finality_depth c
           | FNone => 0
           end ;;
  Ok tt.

(** ** The chains the crate knows *)

Definition bitcoin_capabilities : ChainCapabilities :=
  mkCapabilities Utxo (ProofOfWork 6) 6 false SpvMerkle UtxoSpentCheck true RiskHigh 6
    true false true true false Settlement.
Definition ethereum_capabilities : ChainCapabilities :=
  mkCapabilities Account FinalizedCheckpoint 15 true MerklePatricia SmartContractNullifier false
    RiskMedium 2 true true true false false Settlement.
Definition celestia_capabilities : ChainCapabilities :=
  mkCapabilities DataBlob DataAvailabilityHeader 100 true DaNamespace UtxoSpentCheck false
    RiskNone 0 true false true true false DataAvailability.

(** ** Recommended depths *)

Record FinalityDepths := mkDepths {
  fd_bitcoin : N; fd_ethereum : N; fd_solana : N; fd_aptos : N; fd_sui : N; fd_celestia : N
}.
Definition default_depths : FinalityDepths := mkDepths 6 15 32 5 15 100.

Definition depth_for_chain (d : FinalityDepths) (chain_id : string) : option N :=
  if bool_decide (chain_id = "bitcoin"%string) then Some (fd_bitcoin d)
  else if bool_decide (chain_id = "ethereum"%string) then Some (fd_ethereum d)
  else if bool_decide (chain_id = "solana"%string) then Some (fd_solana d)
  else if bool_decide (chain_id = "aptos"%string) then Some (fd_aptos d)
  else if bool_decide (chain_id = "sui"%string) then Some (fd_sui d)
  else if bool_decide (chain_id = "celestia"%string) then Some (fd_celestia d)
  else None.
Definition depth_for_chain_or_default (d : FinalityDepths) (chain_id : string) (fallback : N) : N :=
  default fallback (depth_for_chain d chain_id).
Definition has_depth (d : FinalityDepths) (chain_id : string) : bool :=
  match depth_for_chain d chain_id with Some _ => true | None => false end.

(** ** Capability sets and their registry *)

Inductive Capability :=
| SpvProofs | ContractCalls | TapretCommitments | ReorgDetection | StateProofs | ReceiptProofs
| EventIndexing | AccountAbstraction | ZkProofVerification | CrossChainMessaging.
Global Instance Capability_eq_dec : EqDecision Capability.
Proof. solve_decision. Defined.

Record CapabilitySet := mkCapabilitySet { cs_chain_id : string; cs_capabilities : list Capability }.

Definition has_capability (x : Capability) (s : CapabilitySet) : bool :=
  bool_decide (x ∈ cs_capabilities s).
Definition add_capability (x : Capability) (s : CapabilitySet) : CapabilitySet :=
  if has_capability x s then s else mkCapabilitySet (cs_chain_id s) (cs_capabilities s ++ [x]).
Definition remove_capability (x : Capability) (s : CapabilitySet) : CapabilitySet :=
  mkCapabilitySet (cs_chain_id s) (base.filter (fun y => y <> x) (cs_capabilities s)).

(** [ChainCapabilityRegistry]; a chain is its identifier and its set, and the map is
    walked in the order [walk]. *)
Notation capability_registry := (gmap string CapabilitySet).
Definition register_chain (chain_id : string) (s : CapabilitySet) (r : capability_registry)
  : capability_registry := <[chain_id := s]> r.
Definition supports_capability (r : capability_registry) (chain_id : string) (x : Capability) : bool :=
  match r !! chain_id with Some s => has_capability x s | None => false end.
Definition get_chains_with_capability (walk : capability_registry -> list (string * CapabilitySet))
    (r : capability_registry) (x : Capability) : list string :=
  (base.filter (fun e => has_capability x e.2 = true) (walk r)).*1.

(** ** Lemmas *)

Lemma lacking_nil required supported name :
  lacking required supported name = [] <-> (required = true -> supported = true).
Proof. unfold lacking. destruct required, supported; cbn; naive_solver. Qed.

(** A plan is satisfied exactly when every requirement is, and then nothing is missing. *)
Lemma plan_exact c q :
  is_ok (ensure_satisfied (plan_for c q)) = true <->
  (cr_require_settlement q = true -> cc_chain_role c = Settlement) /\
  (cr_require_light_client_proofs q = true -> cc_supports_light_client_proofs c = true) /\
  (cr_require_state_proofs q = true -> cc_supports_state_proofs c = true) /\
  (cr_require_transaction_inclusion_proofs q = true ->
     cc_supports_transaction_inclusion_proofs c = true) /\
  (cr_require_offline_verification q = true -> cc_supports_offline_verification c = true) /\
  (cr_require_zk_proofs q = true -> cc_supports_zk_proofs c = true) /\
  (cr_min_finality_depth q <= cc_finality_depth c)%N.
Proof.
  assert (Hset : is_settlement_chain c = true <-> cc_chain_role c = Settlement)
    by (unfold is_settlement_chain; by destruct (cc_chain_role c)).
  assert (Hs : is_ok (ensure_satisfied (plan_for c q)) = true <-> cp_missing (plan_for c q) = []).
  { unfold ensure_satisfied, plan_for. cbn [cp_satisfied cp_missing].
    by destruct (lacking _ _ "settlement_role" ++ _). }
  rewrite Hs. unfold plan_for. cbn [cp_missing].
  rewrite !app_nil, !lacking_nil, Hset.
  destruct (N.ltb_spec (cc_finality_depth c) (cr_min_finality_depth q)).
  - split; [by intros (? & ? & ? & ? & ? & ? & ?)|intros; lia].
  - naive_solver.
Qed.

(** A chain serves as the source of a transfer, or as its destination. *)
Lemma source_plan c :
  is_ok (ensure_satisfied (plan_for c cross_chain_source)) = true <->
  cc_chain_role c = Settlement /\ cc_supports_transaction_inclusion_proofs c = true /\
  (1 <= cc_finality_depth c)%N.
Proof. rewrite plan_exact. cbn. naive_solver. Qed.
Lemma destination_plan c :
  is_ok (ensure_satisfied (plan_for c cross_chain_destination)) = true <->
  cc_chain_role c = Settlement /\ (1 <= cc_finality_depth c)%N.
Proof. rewrite plan_exact. cbn. naive_solver. Qed.

(** The registry answers for the set last registered. *)
Lemma supports_registered r chain s chain' x :
  supports_capability (register_chain chain s r) chain' x
  = if bool_decide (chain' = chain) then has_capability x s else supports_capability r chain' x.
Proof.
  unfold supports_capability, register_chain. case_bool_decide as Hc; [subst|].
  - by rewrite lookup_insert_eq.
  - by rewrite lookup_insert_ne.
Qed.

Lemma chains_with_capability walk r x chain :
  walk r ≡ₚ map_to_list r ->
  chain ∈ get_chains_with_capability walk r x <-> supports_capability r chain x = true.
Proof.
  intros Hw. unfold get_chains_with_capability, supports_capability. rewrite list_elem_of_fmap. split.
  - intros ([c s] & -> & Hin). apply list_elem_of_filter in Hin as [Hx Hin]. rewrite Hw in Hin.
    apply elem_of_map_to_list in Hin. cbn in *. by rewrite Hin.
  - destruct (r !! chain) as [s|] eqn:E; [|done]. intros Hx. exists (chain, s). split; [done|].
    apply list_elem_of_filter. split; [done|]. rewrite Hw. by apply elem_of_map_to_list.
Qed.

Lemma capability_set_edits x y s :
  has_capability y (add_capability x s) = (bool_decide (y = x) || has_capability y s) /\
  has_capability y (remove_capability x s) = (negb (bool_decide (y = x)) && has_capability y s).
Proof.
  unfold add_capability, remove_capability, has_capability. split.
  - rewrite <- bool_decide_or. apply bool_decide_ext.
    case_bool_decide; cbn [cs_capabilities]; set_solver.
  - cbn [cs_capabilities]. rewrite <- bool_decide_not, <- bool_decide_and.
    apply bool_decide_ext. by rewrite list_elem_of_filter.
Qed.

(** The inclusions a kind of proof can give, and the finality a model asks for. *)
Definition strong (m : ProofModel) : list InclusionStrength :=
  match m with
  | SlotConfirmation => [IChecksum; IMerklePath]
  | _ => [IMerklePath; IAnchoredMerklePath]
  end.
Definition deep (m : FinalityModel) (f : FinalityStrength) : Prop :=
  match f with
  | FDeterministic => True
  | FProbabilistic n =>
      match m with
      | ProofOfWork required | OptimisticWithSlotExpiry required => (required <= n)%N
      | _ => False
      end
  | FNone => False
  end.

Lemma inclusion_threshold_spec c i : inclusion_threshold_met c i = true <-> i ∈ strong (cc_proof_model c).
Proof.
  unfold inclusion_threshold_met.
  destruct (cc_proof_model c), i; cbn; rewrite !elem_of_cons, elem_of_nil; intuition discriminate.
Qed.
Lemma finality_threshold_spec c f : finality_threshold_met c f = true <-> deep (cc_finality_model c) f.
Proof. unfold finality_threshold_met. destruct f, (cc_finality_model c); cbn; rewrite ?N.leb_le; by intuition. Qed.

(** A verification result passes a chain's gate exactly when it is valid, its
    inclusion is as strong as the chain's kind of proof gives, and its finality is
    deterministic or, on a chain that confirms or expires slots, deep enough; on a chain
    whose finality is deterministic no number of confirmations is enough.  An error of a
    valid result says which of the two fell short, inclusion first. *)
Theorem thresholds_exact (r : VerificationResult) (c : ChainCapabilities) :
  let included := vc_inclusion (vr_components r) ∈ strong (cc_proof_model c) in
  let final := deep (cc_finality_model c) (vc_finality (vr_components r)) in
  match meets_chain_thresholds r c with
  | Ok _ => vr_valid r = true /\ included /\ final
  | Err e =>
      vr_valid r = false /\ e = default InvalidMerklePath (vr_error r) \/
      vr_valid r = true /\ ~ included /\ e = InvalidMerklePath \/
      vr_valid r = true /\ included /\ ~ final /\
      exists actual, e = FinalityNotReached (cc_finality_depth c) actual
  end.
Proof.
  cbn zeta. pose proof (inclusion_threshold_spec c (vc_inclusion (vr_components r))) as Hi.
  pose proof (finality_threshold_spec c (vc_finality (vr_components r))) as Hf.
  unfold meets_chain_thresholds, guard_err. destruct (vr_valid r); cbn [negb]; [|auto].
  destruct (inclusion_threshold_met _ _); cbn [negb]; [|naive_solver].
  destruct (finality_threshold_met _ _); cbn [negb]; naive_solver.
Qed.
