(* ===== verification/Runtime.v ===== *)
(** * The runtime's mode, policy, circuit breaker and health
    (csv-runtime/src/runtime_mode.rs, policy.rs; csv-observability/src/runtime_health.rs)

    A policy sets the depth of finality of each chain, which an operator may raise and
    not lower.  The breaker counts failures and opens; the monitor keeps the last check
    of each component.  Times and durations are in nanoseconds since the epoch, the
    counters of the breaker are [u32]; the proof ages configured in files on disk are an
    argument, in the order the files are read. *)

From S2P Require Import Prelude Ord Bytes Hashing Text Seal CrossChain Coordinator Capabilities.

Definition secs (n : N) : N := (n * 1000000000)%N.

Inductive RuntimeMode := Normal | Degraded | Unsafe.

Definition allows_rpc_fallback (m : RuntimeMode) : bool :=
  match m with Normal => false | Degraded | Unsafe => true end.
Definition enforces_strict_finality (m : RuntimeMode) : bool := true.
Definition mode_max_retries (m : RuntimeMode) : N :=
  match m with Normal => 3 | Degraded => 5 | Unsafe => 1 end.
Definition mode_retry_delay (m : RuntimeMode) : N :=
  match m with Normal => secs 5 | Degraded => secs 10 | Unsafe => secs 1 end.
Definition requires_operator_confirmation (m : RuntimeMode) : bool :=
  match m with Unsafe => true | _ => false end.

(** ** The policy *)

Record RuntimePolicy := mkPolicy {
  finality_depths : gmap string N;
  max_proof_age_blocks : gmap string N;
  allow_rpc_fallback : bool;
  max_retries : N;
  retry_delay : N;
  enforce_strict_finality : bool;
  mode : RuntimeMode
}.

(** [chain_id.split_once('-')] *)
Fixpoint before_dash (b : bytes) : option bytes :=
  match b with
  | [] => None
  | c :: b' => if bool_decide (c = Byte.x2d) then Some [] else cons c <$> before_dash b'
  end.
Definition canonical_chain_id (chain_id : string) : string :=
  match before_dash (as_bytes chain_id) with Some p => of_bytes p | None => chain_id end.

(** [load_configured_max_proof_age_blocks], of what each file says. *)
Definition load_age (ages : gmap string N) (entry : string * N) : gmap string N :=
  let ages := <[entry.1 := entry.2]> ages in
  let canonical := canonical_chain_id entry.1 in
  match ages !! canonical with Some _ => ages | None => <[canonical := entry.2]> ages end.
Definition load_configured_max_proof_age_blocks (files : list (string * N)) : gmap string N :=
  fold_left load_age files ∅.

Definition known_chains : list string := ["bitcoin"; "ethereum"; "solana"; "aptos"; "sui"; "celestia"].
(** The [if let Some(d) = core_depths.for_chain(..) { insert }] of each chain. *)
Definition insert_default_depth (m : gmap string N) (chain : string) : gmap string N :=
  match depth_for_chain default_depths chain with Some d => <[chain := d]> m | None => m end.
Definition policy_new (files : list (string * N)) : RuntimePolicy :=
  mkPolicy (fold_left insert_default_depth known_chains ∅)
    (load_configured_max_proof_age_blocks files) false 3 (secs 5) true Normal.

Definition set_mode (m : RuntimeMode) (p : RuntimePolicy) : RuntimePolicy :=
  mkPolicy (finality_depths p) (max_proof_age_blocks p) (allows_rpc_fallback m) (mode_max_retries m)
    (mode_retry_delay m) true m.
Definition with_mode (files : list (string * N)) (m : RuntimeMode) : RuntimePolicy :=
  set_mode m (policy_new files).

Definition finality_depth_for_chain (p : RuntimePolicy) (chain_id : string) : option N :=
  match finality_depths p !! chain_id with
  | Some d => Some d
  | None =>
      match depth_for_chain default_depths chain_id with Some d => Some d | None => Some 1%N end
  end.
Definition finality_depth_floor (chain_id : string) : N :=
  default 1%N (depth_for_chain default_depths chain_id).
Definition set_finality_depth (chain_id : string) (depth : N) (p : RuntimePolicy) : RuntimePolicy :=
  mkPolicy (<[chain_id := N.max depth (finality_depth_floor chain_id)]> (finality_depths p))
    (max_proof_age_blocks p) (allow_rpc_fallback p) (max_retries p) (retry_delay p)
    (enforce_strict_finality p) (mode p).

Definition max_proof_age_blocks_for_chain (p : RuntimePolicy) (chain_id : string) : option N :=
  match max_proof_age_blocks p !! chain_id with
  | Some a => Some a
  | None => max_proof_age_blocks p !! canonical_chain_id chain_id
  end.
Definition set_max_proof_age_blocks (chain_id : string) (max_age : N) (p : RuntimePolicy) : RuntimePolicy :=
  mkPolicy (finality_depths p) (<[chain_id := max_age]> (max_proof_age_blocks p)) (allow_rpc_fallback p)
    (max_retries p) (retry_delay p) (enforce_strict_finality p) (mode p).

Definition check_finality_threshold (p : RuntimePolicy) (chain : string) (observed : N)
  : result string unit :=
  let required := default 1%N (finality_depth_for_chain p chain) in
  reject (observed <? required)%N
    with ("Chain " +:+ chain +:+ ": observed " +:+ pretty observed +:+ " < required " +:+ pretty required) ;;
  Ok tt.

(** What an operator does to a policy. *)
Inductive policy_op :=
| SetMode (m : RuntimeMode)
| SetDepth (chain_id : string) (depth : N)
| SetAge (chain_id : string) (max_age : N).
Definition policy_step (p : RuntimePolicy) (o : policy_op) : RuntimePolicy :=
  match o with
  | SetMode m => set_mode m p
  | SetDepth c d => set_finality_depth c d p
  | SetAge c a => set_max_proof_age_blocks c a p
  end.
(** The depth last asked for a chain. *)
Definition asked_depth (c : string) (ops : list policy_op) : option N :=
  fold_left (fun acc o => match o with
                          | SetDepth c' d => if bool_decide (c' = c) then Some d else acc
                          | _ => acc
                          end) ops None.

(** ** The circuit breaker *)

Inductive CircuitBreakerState := Closed | Open | HalfOpen.
Global Instance CircuitBreakerState_eq_dec : EqDecision CircuitBreakerState.
Proof. solve_decision. Defined.

Record CircuitBreakerConfig := mkBreakerConfig {
  failure_threshold : N;
  open_timeout : N;
  success_threshold : N
}.
Definition default_breaker_config : CircuitBreakerConfig := mkBreakerConfig 5 (secs 60) 2.

Record CircuitBreaker := mkBreaker {
  cb_state : CircuitBreakerState;
  failure_count : N;
  success_count : N;
  last_failure_time : option N;
  cb_config : CircuitBreakerConfig
}.
Definition with_config (c : CircuitBreakerConfig) : CircuitBreaker := mkBreaker Closed 0 0 None c.

Definition add32 (a b : N) : N := wrap32 (a + b).

Definition record_success (b : CircuitBreaker) : CircuitBreaker :=
  match cb_state b with
  | Closed => mkBreaker Closed 0 (success_count b) (last_failure_time b) (cb_config b)
  | HalfOpen =>
      let n := add32 (success_count b) 1 in
      if (success_threshold (cb_config b) <=? n)%N
      then mkBreaker Closed 0 0 (last_failure_time b) (cb_config b)
      else mkBreaker HalfOpen (failure_count b) n (last_failure_time b) (cb_config b)
  | Open => b
  end.

Definition record_failure (now : N) (b : CircuitBreaker) : CircuitBreaker :=
  let n := add32 (failure_count b) 1 in
  mkBreaker (if (failure_threshold (cb_config b) <=? n)%N then Open else cb_state b)
    n (success_count b) (Some now) (cb_config b).

(** [duration_since(last_failure)] is an error when the clock went back. *)
Definition timed_out (now : N) (b : CircuitBreaker) : bool :=
  match last_failure_time b with
  | Some t => (t <=? now)%N && (open_timeout (cb_config b) <=? now - t)%N
  | None => false
  end.
Definition allow_request (now : N) (b : CircuitBreaker) : bool :=
  match cb_state b with Closed | HalfOpen => true | Open => timed_out now b end.

Definition attempt_recovery (now : N) (b : CircuitBreaker) : CircuitBreaker * bool :=
  if bool_decide (cb_state b = Open) && timed_out now b
  then (mkBreaker HalfOpen (failure_count b) 0 (last_failure_time b) (cb_config b), true)
  else (b, false).

Definition reset_breaker (b : CircuitBreaker) : CircuitBreaker := mkBreaker Closed 0 0 None (cb_config b).

(** What happens to a breaker. *)
Inductive breaker_op := BSuccess | BFailure (now : N) | BRecover (now : N) | BReset.
Definition breaker_step (b : CircuitBreaker) (o : breaker_op) : CircuitBreaker :=
  match o with
  | BSuccess => record_success b
  | BFailure now => record_failure now b
  | BRecover now => fst (attempt_recovery now b)
  | BReset => reset_breaker b
  end.
Definition breaker_run (c : CircuitBreakerConfig) (ops : list breaker_op) : CircuitBreaker :=
  fold_left breaker_step ops (with_config c).

(** ** Health *)

Inductive DegradedReason :=
| RpcDisagreementReason | QuorumCollapse | HistoricalContinuityFailure | ReplayRegistryUnavailable
| EventPersistenceLag | ClockDrift | PartialPartition | TrustPackageExpiry.
Inductive RuntimeHealth := Healthy | HDegraded (reason : DegradedReason) | HUnsafe.

Record HealthCheck := mkCheck {
  hc_component : string;
  hc_healthy : bool;
  hc_error : option string;
  hc_timestamp : N
}.
Record HealthMonitor := mkMonitor {
  current_health : RuntimeHealth;
  checks : list HealthCheck;
  hm_mode : RuntimeMode
}.
Definition monitor_new : HealthMonitor := mkMonitor Healthy [] Normal.

(** [str::contains] *)
Definition contains (needle hay : string) : bool :=
  match String.index 0 needle hay with Some _ => true | None => false end.

Definition component_reason (c : string) : DegradedReason :=
  if contains "rpc" c || contains "provider" c then RpcDisagreementReason
  else if contains "quorum" c then QuorumCollapse
  else if contains "historical" c || contains "continuity" c then HistoricalContinuityFailure
  else if contains "replay" c then ReplayRegistryUnavailable
  else if contains "event" c || contains "persistence" c then EventPersistenceLag
  else if contains "clock" c || contains "time" c then ClockDrift
  else if contains "partition" c || contains "network" c then PartialPartition
  else if contains "trust" c then TrustPackageExpiry
  else RpcDisagreementReason.

Fixpoint detect_degradation_reason (l : list HealthCheck) : DegradedReason :=
  match l with
  | [] => RpcDisagreementReason
  | c :: l' => if hc_healthy c then detect_degradation_reason l' else component_reason (hc_component c)
  end.

Definition update_health (l : list HealthCheck) : RuntimeHealth :=
  match l with
  | [] => Healthy
  | _ =>
      let unhealthy := length (base.filter (fun c => hc_healthy c = false) l) in
      if unhealthy =? 0 then Healthy
      else if unhealthy =? length l then HUnsafe
      else HDegraded (detect_degradation_reason l)
  end.
Definition update_mode (h : RuntimeHealth) : RuntimeMode :=
  match h with Healthy => Normal | HDegraded _ => Degraded | HUnsafe => Unsafe end.

Definition record_check (c : HealthCheck) (m : HealthMonitor) : HealthMonitor :=
  let l := base.filter (fun x => hc_component x <> hc_component c) (checks m) ++ [c] in
  mkMonitor (update_health l) l (update_mode (update_health l)).
Definition is_component_healthy (component : string) (m : HealthMonitor) : bool :=
  match find (fun c => bool_decide (hc_component c = component)) (checks m) with
  | Some c => hc_healthy c
  | None => true
  end.
Definition reset_monitor (m : HealthMonitor) : HealthMonitor := monitor_new.
Definition set_monitor_mode (x : RuntimeMode) (m : HealthMonitor) : HealthMonitor :=
  mkMonitor (current_health m) (checks m) x.

(** ** Lemmas *)

Lemma asked_depth_snoc c ops o :
  asked_depth c (ops ++ [o])
  = match o with
    | SetDepth c' d => if bool_decide (c' = c) then Some d else asked_depth c ops
    | _ => asked_depth c ops
    end.
Proof. unfold asked_depth. by rewrite fold_left_app. Qed.

Lemma depth_floor_pos c : (1 <= finality_depth_floor c)%N.
Proof.
  unfold finality_depth_floor, depth_for_chain. repeat case_bool_decide; cbn; lia.
Qed.

(** The initial depths are the recommended ones. *)
Lemma new_depths files c : finality_depths (policy_new files) !! c = depth_for_chain default_depths c.
Proof.
  change (finality_depths (policy_new files)) with
    (<["celestia" := 100%N]> (<["sui" := 15%N]> (<["aptos" := 5%N]> (<["solana" := 32%N]>
      (<["ethereum" := 15%N]> (<["bitcoin" := 6%N]> (∅ : gmap string N))))))).
  unfold depth_for_chain, default_depths.
  cbn [fd_bitcoin fd_ethereum fd_solana fd_aptos fd_sui fd_celestia].
  repeat (case_bool_decide; [subst; reflexivity|]).
  by rewrite !lookup_insert_ne by done.
Qed.

Lemma initial_depth files c :
  finality_depth_for_chain (policy_new files) c = Some (finality_depth_floor c).
Proof.
  unfold finality_depth_for_chain, finality_depth_floor. rewrite new_depths.
  by destruct (depth_for_chain default_depths c).
Qed.

Lemma set_depth_effect p c d c' :
  finality_depth_for_chain (set_finality_depth c d p) c'
  = if bool_decide (c = c') then Some (N.max d (finality_depth_floor c'))
    else finality_depth_for_chain p c'.
Proof.
  unfold finality_depth_for_chain, set_finality_depth. cbn [finality_depths].
  case_bool_decide as Hc; [subst; by rewrite lookup_insert_eq|by rewrite lookup_insert_ne].
Qed.

Lemma policy_depth files ops c :
  finality_depth_for_chain (fold_left policy_step ops (policy_new files)) c
  = Some (N.max (default 0%N (asked_depth c ops)) (finality_depth_floor c)).
Proof.
  induction ops as [|o ops IH] using rev_ind.
  { cbn. rewrite initial_depth. f_equal. lia. }
  rewrite fold_left_app, asked_depth_snoc. cbn [fold_left]. destruct o as [m|c' d|c' a]; cbn [policy_step].
  - exact IH.
  - rewrite set_depth_effect, IH. by case_bool_decide.
  - exact IH.
Qed.

(** However an operator changes the mode, the depths and the ages of a policy, the
    depth of finality of a chain is the one last asked for, raised to the recommended
    depth of the chain and to one for a chain without: never lowered by a mode, and
    never below the floor.  A depth passes the check exactly when it is that deep. *)
Theorem finality_only_raised (files : list (string * N)) (ops : list policy_op) (c : string) (observed : N) :
  let p := fold_left policy_step ops (policy_new files) in
  exists depth,
    finality_depth_for_chain p c = Some depth /\
    depth = N.max (default 0%N (asked_depth c ops)) (finality_depth_floor c) /\
    (1 <= finality_depth_floor c <= depth)%N /\
    (is_ok (check_finality_threshold p c observed) = true <-> (depth <= observed)%N).
Proof.
  cbn zeta. rewrite policy_depth. eexists. split; [done|]. split; [done|].
  pose proof (depth_floor_pos c). split; [lia|].
  unfold check_finality_threshold, guard_err. rewrite policy_depth. cbn [default id].
  unfold id. match goal with |- context [(?x <? ?y)%N] => destruct (N.ltb_spec x y) end; cbn.
  - split; [done|lia].
  - split; [by intros _|done].
Qed.

(** ** What a breaker does *)

(** Closed after so many failures in a row, open since a failure, or half open after so
    many successes. *)
Inductive phase := PClosed (failures : N) | POpen (since : N) | PHalfOpen (successes : N).

Section Breaker.
Variable c : CircuitBreakerConfig.

Definition elapsed (now since : N) : bool := (since <=? now)%N && (open_timeout c <=? now - since)%N.

Definition phase_step (p : phase) (o : breaker_op) : phase :=
  match o, p with
  | BReset, _ => PClosed 0
  | BSuccess, PClosed _ => PClosed 0
  | BSuccess, POpen t => POpen t
  | BSuccess, PHalfOpen n =>
      if (success_threshold c <=? n + 1)%N then PClosed 0 else PHalfOpen (n + 1)
  | BFailure now, PClosed n => if (failure_threshold c <=? n + 1)%N then POpen now else PClosed (n + 1)
  | BFailure now, (POpen _ | PHalfOpen _) => POpen now
  | BRecover now, POpen t => if elapsed now t then PHalfOpen 0 else POpen t
  | BRecover _, p => p
  end.
Definition phase_allows (now : N) (p : phase) : bool :=
  match p with PClosed _ | PHalfOpen _ => true | POpen t => elapsed now t end.

(** The breaker at a phase, after at most [k] operations. *)
Definition at_phase (k : N) (b : CircuitBreaker) (p : phase) : Prop :=
  cb_config b = c /\ (failure_count b <= k)%N /\
  match p with
  | PClosed n => cb_state b = Closed /\ failure_count b = n
  | POpen t => cb_state b = Open /\ last_failure_time b = Some t /\
               (failure_threshold c <= failure_count b)%N
  | PHalfOpen n => cb_state b = HalfOpen /\ success_count b = n /\ (n <= k)%N /\
                   (failure_threshold c <= failure_count b)%N
  end.

Local Ltac phase_done := cbn -[N.add]; split_and!; (done || lia).

Lemma at_phase_step k b p o :
  (k + 1 <= u32_max)%N -> at_phase k b p -> at_phase (k + 1) (breaker_step b o) (phase_step p o).
Proof.
  intros Hk (Hc & Hf & Hp). unfold at_phase. destruct b as [st f s last cfg]. cbn in *. subst cfg.
  destruct o as [|now|now|]; cbn [breaker_step].
  - unfold record_success. destruct p as [n|t|n]; cbn [phase_step cb_state].
    + destruct Hp as [-> ->]. phase_done.
    + destruct Hp as (-> & -> & Ht). phase_done.
    + destruct Hp as (-> & -> & Hn & Ht). cbn [cb_config success_count]. unfold add32.
      rewrite wrap32_small by lia.
      destruct (success_threshold c <=? n + 1)%N; phase_done.
  - unfold record_failure, add32. cbn [failure_count cb_config success_count last_failure_time cb_state].
    rewrite wrap32_small by lia. destruct p as [n|t|n]; cbn [phase_step].
    + destruct Hp as [-> ->]. destruct (N.leb_spec (failure_threshold c) (n + 1)); phase_done.
    + destruct Hp as (-> & -> & Ht). rewrite (proj2 (N.leb_le (failure_threshold c) (f + 1))) by lia. phase_done.
    + destruct Hp as (-> & -> & Hn & Ht). rewrite (proj2 (N.leb_le (failure_threshold c) (f + 1))) by lia. phase_done.
  - unfold attempt_recovery, timed_out. cbn [cb_state last_failure_time cb_config failure_count].
    destruct p as [n|t|n]; cbn [phase_step].
    + destruct Hp as [-> ->]. rewrite bool_decide_false by done. phase_done.
    + destruct Hp as (-> & -> & Ht). rewrite bool_decide_true by done. unfold elapsed. cbn [andb].
      destruct ((t <=? now)%N && _); phase_done.
    + destruct Hp as (-> & -> & Hn & Ht). rewrite bool_decide_false by done. phase_done.
  - destruct p; phase_done.
Qed.

Lemma at_phase_run ops : (N.of_nat (length ops) <= u32_max)%N ->
  at_phase (N.of_nat (length ops)) (breaker_run c ops) (fold_left phase_step ops (PClosed 0)).
Proof.
  induction ops as [|o ops IH] using rev_ind; intros Hk; [by cbn|].
  unfold breaker_run. rewrite length_app, !fold_left_app in *. cbn [fold_left length] in *.
  replace (N.of_nat (length ops + 1)) with (N.of_nat (length ops) + 1)%N by lia.
  apply at_phase_step; [lia|]. apply IH. lia.
Qed.
End Breaker.

(** The circuit breaker is the three-phase machine: closed, it counts failures in a
    row and opens at the threshold; open, it lets requests through once the timeout has
    passed since the last failure, and nothing but a recovery attempt after the timeout
    or a reset takes it out of there, successes included; half open, one failure opens it
    and the threshold of successes closes it.  This holds for as many operations as the
    counters hold. *)
Theorem breaker_refines (c : CircuitBreakerConfig) (ops : list breaker_op) (now : N)
  (Hops : (N.of_nat (length ops) <= u32_max)%N) :
  let b := breaker_run c ops in
  let p := fold_left (phase_step c) ops (PClosed 0) in
  allow_request now b = phase_allows c now p /\
  cb_state b = match p with PClosed _ => Closed | POpen _ => Open | PHalfOpen _ => HalfOpen end.
Proof.
  cbn zeta. destruct (at_phase_run c ops Hops) as (Hc & _ & Hp).
  unfold allow_request, phase_allows. destruct (fold_left _ _ _) as [n|t|n].
  - by destruct Hp as [-> _].
  - destruct Hp as (-> & Hl & _). unfold timed_out. by rewrite Hl, Hc.
  - by destruct Hp as [-> _].
Qed.

Theorem breaker_refines_witness :
  let ops := [BFailure 1; BFailure 2; BSuccess; BFailure 3; BFailure 4; BFailure 5; BFailure 6; BFailure 7;
              BSuccess; BRecover (secs 61); BSuccess] in
  (N.of_nat (length ops) <= u32_max)%N /\
  allow_request (secs 30) (breaker_run default_breaker_config ops) = true /\
  cb_state (breaker_run default_breaker_config ops) = HalfOpen /\
  cb_state (breaker_run default_breaker_config (take 9 ops)) = Open.
Proof.
  intros ops. assert (Hops : (N.of_nat (length ops) <= u32_max)%N) by (vm_compute; discriminate).
  destruct (breaker_refines default_breaker_config ops (secs 30) Hops) as [Ha Hs].
  split; [exact Hops|]. split; [|split].
  - exact (eq_trans Ha (eq_refl true)).
  - exact (eq_trans Hs (eq_refl HalfOpen)).
  - vm_compute. reflexivity.
Defined.

(** ** What a monitor knows *)

Definition record_checks (cs : list HealthCheck) : HealthMonitor :=
  fold_left (fun m c => record_check c m) cs monitor_new.
(** The last check of a component. *)
Definition last_check (component : string) (cs : list HealthCheck) : option HealthCheck :=
  last (base.filter (fun c => hc_component c = component) cs).

(** The checks kept are the last ones, one for each component. *)
Record keeps_last (cs l : list HealthCheck) : Prop := {
  kept_once : NoDup (hc_component <$> l);
  kept_last : forall c, c ∈ l <-> last_check (hc_component c) cs = Some c
}.

Lemma last_check_snoc component cs c :
  last_check component (cs ++ [c])
  = if bool_decide (hc_component c = component) then Some c else last_check component cs.
Proof.
  unfold last_check. rewrite filter_app. cbn. case_bool_decide as Hc.
  - rewrite decide_True by done. by rewrite last_snoc.
  - rewrite decide_False by done. by rewrite app_nil_r.
Qed.

Lemma last_check_some component cs c :
  last_check component cs = Some c -> hc_component c = component /\ c ∈ cs.
Proof.
  unfold last_check. intros H. apply last_Some_elem_of, list_elem_of_filter in H. done.
Qed.

Lemma keeps_last_step cs m c : keeps_last cs (checks m) -> keeps_last (cs ++ [c]) (checks (record_check c m)).
Proof.
  intros [Hn Hl]. unfold record_check. cbn [checks]. split.
  - rewrite fmap_app. apply NoDup_app. split_and!.
    + eapply sublist_NoDup; [exact Hn|]. apply fmap_sublist, sublist_filter.
    + intros x Hx%list_elem_of_fmap. destruct Hx as (y & -> & Hy). apply list_elem_of_filter in Hy.
      cbn. rewrite list_elem_of_singleton. tauto.
    + apply NoDup_singleton.
  - intros x. rewrite last_check_snoc, elem_of_app, list_elem_of_singleton, list_elem_of_filter, Hl.
    case_bool_decide as Hc.
    + split; [intros [[Hne _]|Hx]; [by symmetry in Hc|by subst]|intros [= ->]; by right].
    + split; [intros [[_ Hx]|Hx]; [done|by subst]|intros Hx; left; split; [congruence|done]].
Qed.

Lemma record_checks_keeps cs : keeps_last cs (checks (record_checks cs)).
Proof.
  induction cs as [|c cs IH] using rev_ind.
  { split; [constructor|]. intros c. cbn. split; [by intros ?%elem_of_nil|done]. }
  unfold record_checks. rewrite fold_left_app. by apply keeps_last_step.
Qed.

Lemma record_checks_health cs :
  current_health (record_checks cs) = update_health (checks (record_checks cs)) /\
  hm_mode (record_checks cs) = update_mode (current_health (record_checks cs)).
Proof.
  destruct cs as [|c cs _] using rev_ind; [done|]. unfold record_checks. by rewrite fold_left_app.
Qed.

Lemma update_health_healthy l : update_health l = Healthy <-> Forall (fun c => hc_healthy c = true) l.
Proof.
  destruct l as [|c l]; [by cbn|]. unfold update_health. set (l' := c :: l).
  assert (Hf : length (base.filter (fun c => hc_healthy c = false) l') = 0 <->
               Forall (fun c => hc_healthy c = true) l').
  { rewrite length_zero_iff_nil. rewrite Forall_forall. split.
    - intros H x Hx. apply not_false_iff_true. intros Hfalse.
      assert (x ∈ base.filter (fun c => hc_healthy c = false) l') as Hin by (by apply list_elem_of_filter).
      rewrite H in Hin. by apply elem_of_nil in Hin.
    - intros H. apply elem_of_nil_inv. intros x [Hx Hin]%list_elem_of_filter. by rewrite H in Hx. }
  rewrite <- Hf. destruct (Nat.eqb_spec (length (base.filter (fun c => hc_healthy c = false) l')) 0) as [-> |Hne]; [done|].
  case_match; done.
Qed.

Lemma update_health_unsafe l : update_health l = HUnsafe <-> l <> [] /\ Forall (fun c => hc_healthy c = false) l.
Proof.
  destruct l as [|c l]; [by split; [|intros [[] _]]|]. unfold update_health. set (l' := c :: l).
  pose proof (length_filter (fun c => hc_healthy c = false) l') as Hle.
  assert (Hf : length (base.filter (fun c => hc_healthy c = false) l') = length l' <->
               Forall (fun c => hc_healthy c = false) l').
  { clear Hle. induction l' as [|x l'' IH]; [done|]. rewrite Forall_cons, filter_cons. case_decide as Hx; cbn [length].
    - rewrite <- IH. split; [intros [= H]; auto|intros [_ ->]; done].
    - pose proof (length_filter (fun c => hc_healthy c = false) l''). split; [lia|naive_solver]. }
  rewrite <- Hf. destruct (Nat.eqb_spec (length (base.filter (fun c => hc_healthy c = false) l')) 0) as [H0|Hne].
  - split; [done|]. intros [_ H]. rewrite H0 in H. subst l'. done.
  - destruct (Nat.eqb_spec (length (base.filter (fun c => hc_healthy c = false) l')) (length l'));
      [by split|]. split; [done|tauto].
Qed.

(** A monitor answers from the last check of each component and from nothing else: a
    component is healthy unless its last check failed, the runtime is in normal mode
    exactly when no component's last check failed, and unsafe exactly when there are
    components and the last check of every one failed. *)
Theorem health_exact (cs : list HealthCheck) :
  let m := record_checks cs in
  (forall component, is_component_healthy component m
     = match last_check component cs with Some c => hc_healthy c | None => true end) /\
  (hm_mode m = Normal <-> forall component c, last_check component cs = Some c -> hc_healthy c = true) /\
  (hm_mode m = Unsafe <->
     cs <> [] /\ forall component c, last_check component cs = Some c -> hc_healthy c = false).
Proof.
  cbn zeta. pose proof (record_checks_keeps cs) as [Hn Hl].
  destruct (record_checks_health cs) as [Hh Hm].
  assert (Hall : forall v, Forall (fun c => hc_healthy c = v) (checks (record_checks cs)) <->
                  forall component c, last_check component cs = Some c -> hc_healthy c = v).
  { intros v. rewrite Forall_forall. split; [|intros H c Hc; by apply (H (hc_component c)), Hl].
    intros H component c Hc. apply H, Hl. by destruct (last_check_some _ _ _ Hc) as [-> _]. }
  split_and!.
  - intros component. unfold is_component_healthy.
    destruct (find _ (checks (record_checks cs))) as [c|] eqn:E.
    + apply find_some in E as [Hin Hc]. apply bool_decide_eq_true in Hc. subst component.
      apply list_elem_of_In, Hl in Hin. by rewrite Hin.
    + destruct (last_check component cs) as [c|] eqn:Hc; [|done].
      destruct (last_check_some _ _ _ Hc) as [<- _]. apply Hl in Hc.
      apply list_elem_of_In, (find_none _ _ E), bool_decide_eq_false in Hc. done.
  - rewrite Hm, <- Hall, <- update_health_healthy, <- Hh. by destruct (current_health _).
  - assert (Hne : cs <> [] <-> checks (record_checks cs) <> []).
    { destruct cs as [|c cs _] using rev_ind; [by cbn|]. unfold record_checks.
      rewrite fold_left_app. cbn. split; intros _ H; by apply app_nil in H as [_ ?]. }
    rewrite Hm, Hne, <- Hall, <- update_health_unsafe, <- Hh. by destruct (current_health _).
Qed.
