(* ===== verification/ExecutionLease.v ===== *)
(** * Execution leases (csv-runtime/src/user_runtime_lease.rs and
      [accept_execution_lease] of transfer_coordinator.rs)

    The lease a runtime presents with every call on a transfer, and the leases a
    coordinator has accepted, one for each Sanad.  Times are in nanoseconds since the
    epoch; the operating system's clock holds seconds in an [i64]. *)

From S2P Require Import Prelude Ord Bytes Hashing Text Seal CrossChain Coordinator Runtime.

(** A [Uuid]. *)
Notation RuntimeId := N.

Definition DEFAULT_LEASE_DURATION_SECS : N := 30.
Definition MAX_LEASE_DURATION_SECS : N := 300.

Record TransferLease := mkTransferLease {
  tl_transfer_id : SanadIdWire;
  tl_epoch : N;
  tl_owner : RuntimeId;
  tl_acquired_at : N;
  tl_expires_at : N
}.
Global Instance TransferLease_eq_dec : EqDecision TransferLease.
Proof. solve_decision. Defined.

Inductive LeaseValidationError :=
| VExpired (transfer_id : SanadIdWire) (expires_at : N)
| VStale (transfer_id : SanadIdWire) (owner : RuntimeId)
| VDurationExceeded (requested_secs max_secs : N)
| VExpirationOverflow.

(** [Duration::as_secs] *)
Definition as_secs (d : N) : N := (d / 1000000000)%N.
Definition i64_max : N := 9223372036854775807.
(** [SystemTime::checked_add] *)
Definition time_checked_add (t d : N) : option N :=
  if (as_secs (t + d) <=? i64_max)%N then Some (t + d)%N else None.

(** [TransferLease::acquire] *)
Definition lease_acquire (transfer_id : SanadIdWire) (runtime_id : RuntimeId) (epoch now duration : N)
  : result LeaseValidationError TransferLease :=
  reject (MAX_LEASE_DURATION_SECS <? as_secs duration)%N
    with VDurationExceeded (as_secs duration) MAX_LEASE_DURATION_SECS ;;
  expires_at ← ok_or VExpirationOverflow (time_checked_add now duration);
  Ok (mkTransferLease transfer_id epoch runtime_id now expires_at).

Definition lease_is_active (now : N) (l : TransferLease) : bool := (now <? tl_expires_at l)%N.
Definition lease_is_expired (now : N) (l : TransferLease) : bool := negb (lease_is_active now l).
Definition is_owned_by (r : RuntimeId) (l : TransferLease) : bool := bool_decide (tl_owner l = r).
Definition is_stale_for (r : RuntimeId) (l : TransferLease) : bool := negb (is_owned_by r l).
Definition is_valid_for (r : RuntimeId) (now : N) (l : TransferLease) : bool :=
  is_owned_by r l && lease_is_active now l.
(** [remaining] *)
Definition lease_remaining (now : N) (l : TransferLease) : option N :=
  if (now <=? tl_expires_at l)%N && (now <? tl_expires_at l)%N then Some (tl_expires_at l - now)%N else None.
(** [renew] *)
Definition lease_renew (now duration : N) (l : TransferLease) : result LeaseValidationError TransferLease :=
  lease_acquire (tl_transfer_id l) (tl_owner l) (add64 (tl_epoch l) 1) now duration.

Record RuntimeExecutionContext := mkExecution {
  rc_lease : TransferLease;
  rc_runtime_instance : RuntimeId;
  rc_policy : RuntimePolicy;
  rc_destination_owner : option bytes
}.
(** [new], [try_new], [validate] *)
Definition context_new (l : TransferLease) (r : RuntimeId) (p : RuntimePolicy) : RuntimeExecutionContext :=
  mkExecution l r p None.
Definition context_try_new (l : TransferLease) (r : RuntimeId) (p : RuntimePolicy)
  : result LeaseValidationError RuntimeExecutionContext :=
  reject is_stale_for r l with VStale (tl_transfer_id l) (tl_owner l) ;;
  Ok (context_new l r p).
Definition context_validate (now : N) (c : RuntimeExecutionContext) : result LeaseValidationError unit :=
  reject lease_is_expired now (rc_lease c)
    with VExpired (tl_transfer_id (rc_lease c)) (tl_expires_at (rc_lease c)) ;;
  reject is_stale_for (rc_runtime_instance c) (rc_lease c)
    with VStale (tl_transfer_id (rc_lease c)) (tl_owner (rc_lease c)) ;;
  Ok tt.

(** ** What a coordinator accepts *)

Notation active_leases := (gmap Hash TransferLease).

(** [accept_execution_lease] *)
Definition accept_execution_lease (now : N) (l : TransferLease) (active : active_leases)
  : active_leases * result TransferCoordinatorError unit :=
  match wire_to_sanad_id (tl_transfer_id l) with
  | Err _ => (active, Err (LeaseViolation "Invalid transfer ID"))
  | Ok x =>
      match active !! x with
      | Some current =>
          if (tl_epoch l <? tl_epoch current)%N
          then (active, Err (LeaseViolation "Lease epoch is stale for this transfer"))
          else if (tl_epoch l =? tl_epoch current)%N
          then if bool_decide (tl_owner l = tl_owner current) then (active, Ok tt)
               else (active, Err (LeaseViolation "Lease epoch is already held by another runtime"))
          else if lease_is_active now current && negb (bool_decide (tl_owner current = tl_owner l))
          then (active, Err (LeaseViolation "Active transfer lease cannot be superseded by another runtime"))
          else (<[x := l]> active, Ok tt)
      | None => (<[x := l]> active, Ok tt)
      end
  end.

(** A history of leases presented, with the time of each; what was accepted, in order. *)
Fixpoint accepted (presented : list (N * TransferLease)) (active : active_leases)
  : list (N * TransferLease) * active_leases :=
  match presented with
  | [] => ([], active)
  | (now, l) :: rest =>
      let '(active', r) := accept_execution_lease now l active in
      let '(acc, final) := accepted rest active' in
      (if is_ok r then (now, l) :: acc else acc, final)
  end.

(** ** What the acceptances of a history say of a Sanad *)

Definition lease_of (x : Hash) (l : TransferLease) : bool :=
  bool_decide (wire_to_sanad_id (tl_transfer_id l) = Ok x).

(** The lease in force: the first of the greatest epoch. *)
Definition in_force (x : Hash) (acc : list (N * TransferLease)) : option TransferLease :=
  fold_left (fun c (e : N * TransferLease) =>
    if lease_of x e.2 then
      match c with
      | Some c0 => if (tl_epoch c0 <? tl_epoch e.2)%N then Some e.2 else Some c0
      | None => Some e.2
      end
    else c) acc None.

(** A lease is admissible after the one in force: it repeats its epoch and owner, or it
    has a greater epoch and comes from the same owner or after it expired. *)
Definition admissible (now : N) (l : TransferLease) (c : option TransferLease) : Prop :=
  match c with
  | None => True
  | Some c =>
      (tl_epoch l = tl_epoch c /\ tl_owner l = tl_owner c) \/
      ((tl_epoch c < tl_epoch l)%N /\ (tl_owner l = tl_owner c \/ (tl_expires_at c <= now)%N))
  end.

Lemma accept_spec now l active :
  let '(active', r) := accept_execution_lease now l active in
  (r = Ok tt <-> exists x, wire_to_sanad_id (tl_transfer_id l) = Ok x /\ admissible now l (active !! x)) /\
  (r = Ok tt -> forall x, active' !! x
     = if lease_of x l then match active !! x with
                            | Some c => if (tl_epoch c <? tl_epoch l)%N then Some l else Some c
                            | None => Some l
                            end
       else active !! x) /\
  (r <> Ok tt -> active' = active).
Proof.
  unfold accept_execution_lease, lease_of. destruct (wire_to_sanad_id (tl_transfer_id l)) as [y|e] eqn:Hy.
  2: { split; [|by split]. split; [done|]. by intros (x & ? & _). }
  assert (Hupd : forall v, active !! y = v ->
     (v = None \/ exists c, v = Some c /\ (tl_epoch c < tl_epoch l)%N) ->
     forall x, <[y := l]> active !! x
       = if bool_decide (Ok (E := string) y = Ok x) then match active !! x with
            | Some c => if (tl_epoch c <? tl_epoch l)%N then Some l else Some c
            | None => Some l
            end else active !! x).
  { intros v Hv Hc x. destruct (decide (y = x)) as [<-|Hne].
    - rewrite lookup_insert_eq, bool_decide_true, Hv by done. destruct Hc as [->|(c & -> & Hc)]; [done|].
      by rewrite (proj2 (N.ltb_lt _ _)).
    - by rewrite lookup_insert_ne, bool_decide_false by congruence. }
  assert (Hone : (exists x, Ok (E := string) y = Ok x /\ admissible now l (active !! x)) <->
                 admissible now l (active !! y)).
  { split; [by intros (x & [= <-] & H)|eauto]. }
  destruct (active !! y) as [c|] eqn:Hc; cbn [admissible] in *.
  2: { split; [|split; [|done]]; [|by intros _; apply (Hupd None); [|left]]. rewrite Hone. done. }
  unfold lease_is_active.
  destruct (N.ltb_spec (tl_epoch l) (tl_epoch c)) as [Hlt|Hge].
  { split; [|by split]. rewrite Hone. split; [done|]. intros [[? _]|[? _]]; lia. }
  destruct (N.eqb_spec (tl_epoch l) (tl_epoch c)) as [Heq|Hne].
  { case_bool_decide as Ho.
    - split; [rewrite Hone; by split; auto|split; [|done]]. intros _ x. case_bool_decide as Hx; [|done].
      injection Hx as <-. by rewrite Hc, Heq, N.ltb_irrefl.
    - split; [|by split]. rewrite Hone. split; [done|]. intros [[_ ?]|[? _]]; [done|lia]. }
  destruct (N.ltb_spec now (tl_expires_at c)) as [Ha|Ha].
  - case_bool_decide as Ho; cbn [andb negb].
    + split; [rewrite Hone; split; [|done]; intros _; right; split; [lia|by left]|split; [|done]].
      intros _. apply (Hupd _ eq_refl). right. exists c. split; [done|lia].
    + split; [|by split]. rewrite Hone. split; [done|]. intros [[? _]|[_ [?|?]]]; [lia|congruence|lia].
  - cbn [andb]. split; [rewrite Hone; split; [|done]; intros _; right; split; [lia|by right]|split; [|done]].
    intros _. apply (Hupd _ eq_refl). right. exists c. split; [done|lia].
Qed.

Lemma in_force_snoc x acc now l :
  in_force x (acc ++ [(now, l)])
  = if lease_of x l then match in_force x acc with
                         | Some c => if (tl_epoch c <? tl_epoch l)%N then Some l else Some c
                         | None => Some l
                         end
    else in_force x acc.
Proof. unfold in_force. by rewrite fold_left_app. Qed.

Lemma in_force_elem x acc c : in_force x acc = Some c -> exists now, (now, c) ∈ acc /\ lease_of x c = true.
Proof.
  induction acc as [|[now l] acc IH] using rev_ind; [done|]. rewrite in_force_snoc.
  setoid_rewrite elem_of_app. setoid_rewrite list_elem_of_singleton.
  destruct (lease_of x l) eqn:Hl.
  - destruct (in_force x acc) as [d|].
    + destruct (tl_epoch d <? tl_epoch l)%N; intros [= <-]; [by eauto|].
      destruct IH as (n & ? & ?); eauto.
    + intros [= <-]. eauto.
  - intros H. destruct (IH H) as (n & ? & ?). eauto.
Qed.

(** The accepted leases of a Sanad never go back: a later one has a greater epoch, or the
    same epoch and owner. *)
Definition fenced (e e' : N * TransferLease) : Prop :=
  (tl_epoch e.2 < tl_epoch e'.2)%N \/ tl_epoch e.2 = tl_epoch e'.2 /\ tl_owner e.2 = tl_owner e'.2.

(** A history of acceptances in which each lease was admissible. *)
Inductive lawful : list (N * TransferLease) -> Prop :=
| lawful_nil : lawful []
| lawful_snoc acc now l x : lawful acc -> wire_to_sanad_id (tl_transfer_id l) = Ok x ->
    admissible now l (in_force x acc) -> lawful (acc ++ [(now, l)]).

Lemma accepted_snoc presented now l active :
  accepted (presented ++ [(now, l)]) active
  = let '(acc, mid) := accepted presented active in
    let '(final, r) := accept_execution_lease now l mid in
    (if is_ok r then acc ++ [(now, l)] else acc, final).
Proof.
  revert active. induction presented as [|[t m] rest IH]; intros active; cbn [accepted app].
  - destruct (accept_execution_lease now l active) as [a r]. by destruct (is_ok r).
  - destruct (accept_execution_lease t m active) as [a r] eqn:E. rewrite IH.
    destruct (accepted rest a) as [acc mid]. destruct (accept_execution_lease now l mid) as [f r'].
    by destruct (is_ok r), (is_ok r').
Qed.

(** What a coordinator stores is the lease in force of what it accepted. *)
Lemma accepted_stores presented :
  let '(acc, active) := accepted presented ∅ in
  lawful acc /\ forall x, active !! x = in_force x acc.
Proof.
  induction presented as [|[now l] presented IH] using rev_ind.
  { cbn. split; [constructor|]. intros x. by rewrite lookup_empty. }
  rewrite accepted_snoc. destruct (accepted presented ∅) as [acc active]. destruct IH as [Hl Hs].
  pose proof (accept_spec now l active) as H.
  destruct (accept_execution_lease now l active) as [a r]. destruct H as (Hok & Hupd & Hkeep).
  destruct r as [[]|e]; cbn [is_ok].
  - destruct (proj1 Hok eq_refl) as (x & Hx & Ha). rewrite Hs in Ha.
    split; [by econstructor|]. intros y. by rewrite (Hupd eq_refl), in_force_snoc, Hs.
  - by rewrite Hkeep.
Qed.

Lemma in_force_max x acc : lawful acc -> forall e, e ∈ acc -> lease_of x e.2 = true ->
  exists c, in_force x acc = Some c /\ ((tl_epoch e.2 < tl_epoch c)%N \/
            tl_epoch e.2 = tl_epoch c /\ tl_owner e.2 = tl_owner c).
Proof.
  induction 1 as [|acc now l y Hl IH Hy Ha]; intros e He Hx; [by apply elem_of_nil in He|].
  rewrite in_force_snoc. apply elem_of_app in He as [He| ->%list_elem_of_singleton].
  - destruct (IH e He Hx) as (c & -> & Hc). destruct (lease_of x l); [|by eauto].
    destruct (N.ltb_spec (tl_epoch c) (tl_epoch l)); eexists; (split; [done|]); [left; lia|done].
  - cbn in Hx. rewrite Hx. cbn [snd].
    assert (y = x) as -> by (apply bool_decide_eq_true in Hx; congruence).
    destruct (in_force x acc) as [c|]; [|by eauto].
    destruct (N.ltb_spec (tl_epoch c) (tl_epoch l)); eexists; (split; [done|]); [by right|].
    destruct Ha as [Ha|[Ha _]]; [by right|lia].
Qed.

Lemma lawful_fenced x acc : lawful acc ->
  StronglySorted fenced (base.filter (fun e : N * TransferLease => lease_of x e.2 = true) acc).
Proof.
  induction 1 as [|acc now l y Hl IH Hy Ha]; [constructor|]. rewrite filter_app, filter_cons, filter_nil.
  case_decide as Hx; [|by rewrite app_nil_r].
  apply StronglySorted_app_2; [|exact IH|by repeat constructor].
  intros e e' He ->%list_elem_of_singleton. apply list_elem_of_filter in He as [Hex He].
  cbn in Hx. assert (y = x) as -> by (apply bool_decide_eq_true in Hx; congruence).
  destruct (in_force_max x acc Hl e He Hex) as (c & Hc & Hec). rewrite Hc in Ha. unfold fenced. cbn [snd].
  destruct Ha as [[-> ->]|[Hlt _]]; [done|]. left. destruct Hec as [?|[-> _]]; lia.
Qed.


Definition demo_lease (owner epoch expires : N) : TransferLease :=
  mkTransferLease (wire_of_hash Hash.zero) epoch owner 0 expires.
(** A second runtime is refused at the same epoch and while the first lease runs, takes
    over after it expired, and shuts the first one out. *)
Definition demo_presented : list (N * TransferLease) :=
  [(0, demo_lease 1 1 10); (1, demo_lease 1 1 10); (5, demo_lease 2 1 30); (5, demo_lease 2 2 30);
   (20, demo_lease 2 2 30); (21, demo_lease 1 1 90)]%N.
