(* ===== verification/Send.v ===== *)
(** * Send-mode transfers (csv-runtime/src/send_transfer.rs and the send driver of
      csv-runtime/src/transfer_coordinator.rs)

    A send assigns a Sanad to the recipient's seal, closes the single-use source seal
    and emits a consignment, journaling each step.  A call of [execute_send] or
    [resume_send] is a tree of accesses to the journal, the replay database and the
    executor; a process that crashes is a tree that makes no more accesses.  The system
    is any number of such calls, started and stepped in any order, every step with its
    own clock, journal fault and executor, next to other clients of the replay database.

    The journal and the replay database are the interfaces of Journal.v and
    ReplayDb.v; the CBOR of the journaled progress is a parameter. *)

From S2P Require Import Prelude Ord Bytes Hashing Text Seal Signature CrossChain TransferState ReplayDb Journal Coordinator.

(** ** Data *)

Definition SEND_SOURCE_SEAL_NULLIFIER_TAG : string := "csv.send.source-seal.v1".

Record SendTransfer := mkSendTransfer {
  st_transfer_id : string;
  st_source_chain : string;
  st_sanad_id : Hash;
  st_source_seal : SealPoint;
  st_destination_seal : SealPoint
}.

Inductive SendExecutorError := EAssign (m : string) | EClose (m : string) | EEmit (m : string).
Definition executor_error_message (e : SendExecutorError) : string :=
  match e with
  | EAssign m => "assign failed: " +:+ m
  | EClose m => "close failed: " +:+ m
  | EEmit m => "emit failed: " +:+ m
  end.

Record SendProgress := mkProgress {
  sp_assignment : option bytes;
  sp_witness : option bytes;
  sp_consignment : option bytes
}.
(** [SendProgress::default] *)
Definition no_progress : SendProgress := mkProgress None None None.

Record SendReceipt := mkReceipt {
  sr_transfer_id : string;
  sr_consignment : bytes;
  sr_witness : bytes
}.

(** ** Programs *)

(** The calls of [SendExecutor]. *)
Inductive exec_call :=
| AssignSeal (t : SendTransfer)
| CloseSourceSeal (t : SendTransfer) (assignment : bytes)
| EmitConsignment (t : SendTransfer) (witness : bytes).
Notation executor := (exec_call -> result SendExecutorError bytes).

(** A call: done, or about to record an entry at the time it is given, to read the
    latest entry of a transfer, to reserve an identifier, or to call the executor. *)
Inductive prog (A : Type) :=
| Done (r : result TransferCoordinatorError A)
| RecordEntry (entry : N -> TransferPhaseEntry) (k : result JournalError unit -> prog A)
| Latest (id : string) (k : result JournalError (option TransferPhaseEntry) -> prog A)
| Reserve (nullifier : bytes) (k : outcome -> prog A)
| Exec (c : exec_call) (k : result SendExecutorError bytes -> prog A).
Global Arguments Done {A}.
Global Arguments RecordEntry {A}.
Global Arguments Latest {A}.
Global Arguments Reserve {A}.
Global Arguments Exec {A}.

(** What follows a program, whatever it returns; an error ends a sequence. *)
Fixpoint prog_then {A B} (p : prog A) (k : result TransferCoordinatorError A -> prog B) : prog B :=
  match p with
  | Done r => k r
  | RecordEntry e f => RecordEntry e (fun r => prog_then (f r) k)
  | Latest id f => Latest id (fun r => prog_then (f r) k)
  | Reserve n f => Reserve n (fun r => prog_then (f r) k)
  | Exec c f => Exec c (fun r => prog_then (f r) k)
  end.
Global Instance prog_bind : MBind prog := fun A B k p =>
  prog_then p (fun r => match r with Ok a => k a | Err e => Done (Err e) end).

Section Driver.
Variable sha256 : bytes -> Bytes32.
(** CBOR of the progress. *)
Variable progress_cbor : SendProgress -> result string bytes.
Variable progress_of_cbor : bytes -> result string SendProgress.

(** [source_seal_nullifier] *)
Definition source_seal_nullifier (t : SendTransfer) : bytes :=
  b32 (csv_tagged_hash sha256 (as_bytes SEND_SOURCE_SEAL_NULLIFIER_TAG) (seal_id (st_source_seal t))).

Definition journal_error {A} (e : JournalError) : prog A :=
  Done (Err (RuntimeError ("Journal error: " +:+ journal_error_message e))).

(** [journal_send_phase] *)
Definition journal_send_phase (t : SendTransfer) (phase : TransferStage) (o : PhaseOutcome)
    (progress : option SendProgress) : prog unit :=
  let record payload :=
    RecordEntry (fun now => mkEntry (st_transfer_id t) (wire_of_hash (st_sanad_id t)) zero32 payload
                          phase now o 1 None)
      (fun r => match r with Ok _ => Done (Ok tt) | Err e => journal_error e end) in
  match progress with
  | Some p =>
      match progress_cbor p with
      | Ok b => record (Some b)
      | Err e => Done (Err (RuntimeError ("Failed to encode send progress: " +:+ e)))
      end
  | None => record None
  end.

(** [load_send_progress] *)
Definition load_send_progress (id : string) : prog SendProgress :=
  Latest id (fun r =>
    match r with
    | Err e => journal_error e
    | Ok e =>
        match e ≫= pe_proof_payload with
        | Some b =>
            match progress_of_cbor b with
            | Ok p => Done (Ok p)
            | Err e => Done (Err (RuntimeError ("Failed to decode send progress: " +:+ e)))
            end
        | None => Done (Ok no_progress)
        end
    end).

Definition latest_phase (id : string) : prog (option TransferStage) :=
  Latest id (fun r => match r with
                      | Err e => journal_error e
                      | Ok e => Done (Ok (option_map pe_phase e))
                      end).

(** [reserve_source_seal] *)
Definition reserve_source_seal (t : SendTransfer) (owns_prior_close : bool) : prog unit :=
  Reserve (source_seal_nullifier t) (fun r =>
    match r with
    | Ok _ => Done (Ok tt)
    | Err AlreadyExists => if owns_prior_close then Done (Ok tt) else Done (Err DuplicateSourceSeal)
    | Err e => Done (Err (ReplayDbError (replay_db_message e)))
    end).

(** The executor's answer; a failure is journaled, whatever becomes of that. *)
Definition execute_or_fail (t : SendTransfer) (phase : TransferStage) (progress : SendProgress)
    (c : exec_call) : prog bytes :=
  Exec c (fun r =>
    match r with
    | Ok b => Done (Ok b)
    | Err e =>
        prog_then (journal_send_phase t phase (Failed (executor_error_message e)) (Some progress))
          (fun _ => Done (Err (SendFailed (executor_error_message e))))
    end).

(** The three steps of [drive_send], each with the progress after it. *)
Definition assign_step (t : SendTransfer) (progress : SendProgress) : prog (bytes * SendProgress) :=
  match sp_assignment progress with
  | Some b => Done (Ok (b, progress))
  | None =>
      _ ← journal_send_phase t SSealAssigned Entered (Some progress);
      assignment ← execute_or_fail t SSealAssigned progress (AssignSeal t);
      let progress := mkProgress (Some assignment) (sp_witness progress) (sp_consignment progress) in
      _ ← journal_send_phase t SSealAssigned PhaseCompleted (Some progress);
      Done (Ok (assignment, progress))
  end.

Definition close_step (t : SendTransfer) (owns_prior_close : bool) (assignment : bytes)
    (progress : SendProgress) : prog (bytes * SendProgress) :=
  match sp_witness progress with
  | Some b => Done (Ok (b, progress))
  | None =>
      _ ← reserve_source_seal t owns_prior_close;
      _ ← journal_send_phase t SSourceSealClosed Entered (Some progress);
      witness ← execute_or_fail t SSourceSealClosed progress (CloseSourceSeal t assignment);
      let progress := mkProgress (sp_assignment progress) (Some witness) (sp_consignment progress) in
      _ ← journal_send_phase t SSourceSealClosed PhaseCompleted (Some progress);
      Done (Ok (witness, progress))
  end.

Definition emit_step (t : SendTransfer) (witness : bytes) (progress : SendProgress)
  : prog (bytes * SendProgress) :=
  match sp_consignment progress with
  | Some b => Done (Ok (b, progress))
  | None =>
      _ ← journal_send_phase t SConsignmentEmitted Entered (Some progress);
      consignment ← execute_or_fail t SConsignmentEmitted progress (EmitConsignment t witness);
      let progress := mkProgress (sp_assignment progress) (sp_witness progress) (Some consignment) in
      _ ← journal_send_phase t SConsignmentEmitted PhaseCompleted (Some progress);
      Done (Ok (consignment, progress))
  end.

(** [drive_send] *)
Definition drive_send (t : SendTransfer) (progress : SendProgress) : prog SendReceipt :=
  phase ← latest_phase (st_transfer_id t);
  let owns_prior_close := bool_decide (phase = Some SSourceSealClosed) in
  '(assignment, progress) ← assign_step t progress;
  '(witness, progress) ← close_step t owns_prior_close assignment progress;
  '(consignment, progress) ← emit_step t witness progress;
  _ ← journal_send_phase t SCompleted PhaseCompleted (Some progress);
  Done (Ok (mkReceipt (st_transfer_id t) consignment witness)).

(** [execute_send] *)
Definition execute_send (t : SendTransfer) : prog SendReceipt :=
  phase ← latest_phase (st_transfer_id t);
  match phase with
  | Some _ => Done (Err (RuntimeError ("Transfer " +:+ st_transfer_id t +:+
                           " already has journal history; use resume_send")))
  | None =>
      _ ← journal_send_phase t SInitialized Entered None;
      _ ← journal_send_phase t SInitialized PhaseCompleted None;
      drive_send t no_progress
  end.

(** The [Debug] name of a stage. *)
Definition stage_debug (s : TransferStage) : string :=
  match s with
  | SInitialized => "Initialized" | SLockSubmitted => "LockSubmitted"
  | SLockConfirmed => "LockConfirmed" | SAwaitingFinality => "AwaitingFinality"
  | SProofBuilding => "ProofBuilding" | SProofValidated => "ProofValidated"
  | SMintSubmitted => "MintSubmitted" | SMintConfirmed => "MintConfirmed"
  | SSealAssigned => "SealAssigned" | SSourceSealClosed => "SourceSealClosed"
  | SConsignmentEmitted => "ConsignmentEmitted" | SCompleted => "Completed"
  | SRolledBack => "RolledBack" | SCompromised => "Compromised"
  end.

(** [resume_send] *)
Definition resume_send (t : SendTransfer) : prog SendReceipt :=
  phase ← latest_phase (st_transfer_id t);
  match phase with
  | Some s =>
      if is_materialize_stage s then
        Done (Err (RuntimeError ("Transfer " +:+ st_transfer_id t +:+
          " is a materialize transfer (phase " +:+ stage_debug s +:+ "); use resume_transfer")))
      else progress ← load_send_progress (st_transfer_id t); drive_send t progress
  | None => progress ← load_send_progress (st_transfer_id t); drive_send t progress
  end.

Inductive send_call := ExecuteSend (t : SendTransfer) | ResumeSend (t : SendTransfer).
Definition call_transfer (c : send_call) : SendTransfer :=
  match c with ExecuteSend t | ResumeSend t => t end.
Definition call_prog (c : send_call) : prog SendReceipt :=
  match c with ExecuteSend t => execute_send t | ResumeSend t => resume_send t end.
End Driver.

(** ** Execution *)

(** What a call's next access meets: the clock, the failure of the journal's
    transaction if it fails, and the executor. *)
Record input := mkInput { in_now : N; in_fault : option string; in_executor : executor }.

(** What happened: the entries recorded and the executor's calls with their answers. *)
Inductive event :=
| Recorded (e : TransferPhaseEntry)
| Called (c : exec_call) (r : result SendExecutorError bytes).

Section System.
Context {J D : Type} `{Journal J} `{ReplayStore D}.

Record world := mkWorld { w_journal : J; w_db : D; w_events : list event }.

Definition prog_step {A} (i : input) (s : world * prog A) : world * prog A :=
  let '(w, p) := s in
  match p with
  | Done _ => (w, p)
  | RecordEntry entry k =>
      let '(j, r) := j_record (in_fault i) (entry (in_now i)) (w_journal w) in
      (mkWorld j (w_db w)
         (w_events w ++ (if is_ok r then [Recorded (entry (in_now i))] else [])), k r)
  | Latest id k => (w, k (j_latest_entry id (w_journal w)))
  | Reserve n k =>
      let '(d, r) := rs_insert_if_absent n (w_db w) in
      (mkWorld (w_journal w) d (w_events w), k r)
  | Exec c k =>
      let r := in_executor i c in
      (mkWorld (w_journal w) (w_db w) (w_events w ++ [Called c r]), k r)
  end.

(** A call that runs by itself. *)
Definition run_prog {A} (inputs : list input) (s : world * prog A) : world * prog A :=
  fold_left (fun s i => prog_step i s) inputs s.

Context (sha256 : bytes -> Bytes32) (progress_cbor : SendProgress -> result string bytes)
        (progress_of_cbor : bytes -> result string SendProgress).

(** The world and the calls started, in order, with what is left of each. *)
Definition system : Type := world * list (SendTransfer * prog SendReceipt).

(** A call is started, a call makes its next access, or others use the replay database.
    A call that is never stepped again has crashed. *)
Inductive action :=
| Start (c : send_call)
| Step (k : nat) (i : input)
| Others (f : D -> D).

Definition act (s : system) (a : action) : system :=
  match a with
  | Start c =>
      (s.1, s.2 ++ [(call_transfer c, call_prog sha256 progress_cbor progress_of_cbor c)])
  | Step k i =>
      match s.2 !! k with
      | Some (t, p) => let '(w, p') := prog_step i (s.1, p) in (w, <[k := (t, p')]> s.2)
      | None => s
      end
  | Others f => (mkWorld (w_journal s.1) (f (w_db s.1)) (w_events s.1), s.2)
  end.
Definition run_system (s : system) (acts : list action) : system := fold_left act acts s.

(** One call at a time for each transfer: a call is not stepped once another call for
    the same transfer has been started. *)
Definition allowed (s : system) (a : action) : Prop :=
  match a with
  | Step k _ => forall k' t p t' p', s.2 !! k = Some (t, p) -> s.2 !! k' = Some (t', p') ->
                  st_transfer_id t' = st_transfer_id t -> k' <= k
  | _ => True
  end.
Fixpoint one_at_a_time (s : system) (acts : list action) : Prop :=
  match acts with
  | [] => True
  | a :: acts' => allowed s a /\ one_at_a_time (act s a) acts'
  end.

(** Nothing has happened to a journal and a database. *)
Definition initially (j : J) (d : D) : system := (mkWorld j d [], []).
End System.
Global Arguments world : clear implicits.
Global Arguments system : clear implicits.
Global Arguments action : clear implicits.

(** ** A program logic for calls

    A discipline says, from a ghost state, which accesses a call may make and how the
    state moves with the answers; [wp] is its weakest precondition.  Reading the journal
    always succeeds. *)

Record discipline (S : Type) := mkDiscipline {
  may_record : S -> TransferPhaseEntry -> Prop;
  recorded : S -> TransferPhaseEntry -> S;
  may_read : S -> string -> Prop;
  reads : S -> option TransferPhaseEntry -> S -> Prop;
  may_reserve : S -> bytes -> Prop;
  reserved : S -> outcome -> S;
  may_call : S -> exec_call -> Prop;
  called : S -> exec_call -> S
}.
Global Arguments may_record {S}.
Global Arguments recorded {S}.
Global Arguments may_read {S}.
Global Arguments reads {S}.
Global Arguments may_reserve {S}.
Global Arguments reserved {S}.
Global Arguments may_call {S}.
Global Arguments called {S}.

Section Logic.
Context {S : Type} (d : discipline S).

Fixpoint wp {A} (s : S) (p : prog A) (Q : S -> result TransferCoordinatorError A -> Prop) : Prop :=
  match p with
  | Done r => Q s r
  | RecordEntry entry k =>
      forall now, may_record d s (entry now) /\ wp (recorded d s (entry now)) (k (Ok tt)) Q /\
                  forall e, wp s (k (Err e)) Q
  | Latest id k => may_read d s id /\ forall e s', reads d s e s' -> wp s' (k (Ok e)) Q
  | Reserve n k => may_reserve d s n /\ forall r, wp (reserved d s r) (k r) Q
  | Exec c k => may_call d s c /\ forall r, wp (called d s c) (k r) Q
  end.

Lemma wp_mono {A} s (p : prog A) (Q Q' : S -> result TransferCoordinatorError A -> Prop) :
  wp s p Q -> (forall s r, Q s r -> Q' s r) -> wp s p Q'.
Proof.
  intros H HQ. revert s H. induction p as [r|e k IH|id k IH|n k IH|c k IH]; intros s H; cbn in *.
  - by apply HQ.
  - intros now. destruct (H now) as (H1 & H2 & H3). split_and!; auto.
  - destruct H. split; auto.
  - destruct H. split; auto.
  - destruct H. split; auto.
Qed.

Lemma wp_then {A B} s (p : prog A) (k : result TransferCoordinatorError A -> prog B) Q :
  wp s p (fun s r => wp s (k r) Q) -> wp s (prog_then p k) Q.
Proof.
  revert s. induction p as [r|e f IH|id f IH|n f IH|c f IH]; intros s H; cbn in *; [done|..].
  - intros now. destruct (H now) as (H1 & H2 & H3). split_and!; auto.
  - destruct H. split; auto.
  - destruct H. split; auto.
  - destruct H. split; auto.
Qed.

Lemma wp_bind {A B} s (p : prog A) (f : A -> prog B) Q :
  wp s p (fun s r => match r with Ok a => wp s (f a) Q | Err e => Q s (Err e) end) ->
  wp s (p ≫= f) Q.
Proof. intros H. apply wp_then. eapply wp_mono; [exact H|]. by intros s' [a|e]. Qed.
End Logic.

Section Phases.
Context {S : Type} (d : discipline S) (progress_cbor : SendProgress -> result string bytes).

(** The entry a phase is journaled with. *)
Definition phase_entry (t : SendTransfer) (phase : TransferStage) (o : PhaseOutcome)
    (payload : option bytes) (now : N) : TransferPhaseEntry :=
  mkEntry (st_transfer_id t) (wire_of_hash (st_sanad_id t)) zero32 payload phase now o 1 None.

(** The payloads of a progress. *)
Definition payload_of (progress : option SendProgress) (payload : option bytes) : Prop :=
  match progress, payload with
  | Some p, Some b => progress_cbor p = Ok b
  | None, None => True
  | _, _ => False
  end.

Lemma wp_journal s t phase o progress (Q : S -> result TransferCoordinatorError unit -> Prop) :
  (forall now payload, payload_of progress payload ->
     may_record d s (phase_entry t phase o payload now) /\
     Q (recorded d s (phase_entry t phase o payload now)) (Ok tt)) ->
  (forall e, Q s (Err e)) ->
  wp d s (journal_send_phase progress_cbor t phase o progress) Q.
Proof.
  intros Hok Herr. unfold journal_send_phase.
  destruct progress as [p|]; [destruct (progress_cbor p) as [b|e] eqn:E; [|by apply Herr]|];
    cbn; intros now; (split_and!; [apply Hok..|intros e; apply Herr]); done.
Qed.

Lemma wp_execute s t phase p c (Q : S -> result TransferCoordinatorError bytes -> Prop) :
  may_call d s c -> (forall b, Q (called d s c) (Ok b)) ->
  (forall e, Q (called d s c) (Err e)) ->
  (forall now o payload, payload_of (Some p) payload ->
     may_record d (called d s c) (phase_entry t phase o payload now) /\
     forall e, Q (recorded d (called d s c) (phase_entry t phase o payload now)) (Err e)) ->
  wp d s (execute_or_fail progress_cbor t phase p c) Q.
Proof.
  intros Hc Hok Herr Hrec. unfold execute_or_fail. cbn [wp]. split; [done|].
  intros [b|e]; cbn [wp]; [by apply Hok|].
  apply wp_then, wp_journal.
  - intros now payload Hp. split; [by apply Hrec|]. cbn. by apply Hrec.
  - intros e'. apply Herr.
Qed.
End Phases.

(** An access adds at most one entry. *)
Lemma prog_step_log {J D A} `{JournalLaws J} `{ReplayStore D} (w : world J D) i (p : prog A) :
  j_wf (w_journal w) -> countable_log (j_log (w_journal w)) ->
  length (j_log (w_journal (prog_step i (w, p)).1)) <= S (length (j_log (w_journal w))).
Proof.
  intros Hw Hc. destruct p as [r|entry k|id k|n k|c k]; cbn [prog_step fst]; try lia.
  - destruct (j_record _ _ _) as [j r] eqn:E. destruct (record_law _ _ _ _ _ Hw Hc E) as [_ Hl].
    cbn. rewrite Hl. destruct r; [rewrite length_app; cbn|]; lia.
  - destruct (rs_insert_if_absent n (w_db w)). cbn. lia.
  - cbn. lia.
Qed.

(** Whether the latest entry is about the close of the seal. *)
Definition says_closed (e : option TransferPhaseEntry) : bool :=
  bool_decide (option_map pe_phase e = Some SSourceSealClosed).

(** ** A stand-in for CBOR

    A codec of progresses with the law the driver relies on, for examples. *)

Definition code_bytes (b : bytes) : bytes := flat_map (fun x => [Byte.x01; x]) b ++ [Byte.x00].
Fixpoint uncode_bytes (b : bytes) : option (bytes * bytes) :=
  match b with
  | Byte.x01 :: x :: b' => '(y, rest) ← uncode_bytes b'; Some (x :: y, rest)
  | Byte.x00 :: rest => Some ([], rest)
  | _ => None
  end.
Definition code_option (o : option bytes) : bytes :=
  match o with Some b => Byte.x01 :: code_bytes b | None => [Byte.x00] end.
Definition uncode_option (b : bytes) : option (option bytes * bytes) :=
  match b with
  | Byte.x00 :: rest => Some (None, rest)
  | _ :: rest => '(y, rest) ← uncode_bytes rest; Some (Some y, rest)
  | [] => None
  end.
Definition demo_progress_cbor (p : SendProgress) : result string bytes :=
  Ok (code_option (sp_assignment p) ++ code_option (sp_witness p) ++ code_option (sp_consignment p)).
Definition demo_progress_of_cbor (b : bytes) : result string SendProgress :=
  ok_or "not a progress"%string
    ('(x, b) ← uncode_option b; '(y, b) ← uncode_option b; '(z, b) ← uncode_option b;
     Some (mkProgress x y z)).

Lemma uncode_code_bytes b rest : uncode_bytes (code_bytes b ++ rest) = Some (b, rest).
Proof.
  unfold code_bytes. induction b as [|x b IH]; [done|]. cbn [flat_map app uncode_bytes].
  by rewrite IH.
Qed.
Lemma uncode_code_option o rest : uncode_option (code_option o ++ rest) = Some (o, rest).
Proof. destruct o as [b|]; [|done]. cbn. by rewrite uncode_code_bytes. Qed.
Lemma demo_progress_law p b : demo_progress_cbor p = Ok b -> demo_progress_of_cbor b = Ok p.
Proof.
  intros [= <-]. unfold demo_progress_of_cbor. rewrite uncode_code_option.
  cbn [mbind option_bind]. rewrite uncode_code_option. cbn [mbind option_bind].
  rewrite <- (app_nil_r (code_option (sp_consignment p))), uncode_code_option. by destruct p.
Qed.

Definition demo_send (id : string) (seal : byte) : SendTransfer :=
  mkSendTransfer id "bitcoin" (fill32 Byte.x05) (mkSealPoint [seal] None None)
    (mkSealPoint [Byte.x09] None None).
(** An executor that answers, and one whose every call fails. *)
Definition demo_answer (c : exec_call) : bytes :=
  match c with
  | AssignSeal _ => [Byte.x0a]
  | CloseSourceSeal _ a => Byte.x0b :: a
  | EmitConsignment _ w => Byte.x0c :: w
  end.
Definition demo_input : input := mkInput 7 None (fun c => Ok (demo_answer c)).
Definition failing_input : input := mkInput 8 None (fun c => Err (EClose "offline")).
