(* ===== verification/SendExclusive.v ===== *)
(** * One transfer per source seal

    However calls of the send driver interleave, fail and crash, next to any use of the
    replay database that removes nothing, the executor is asked to close a seal for one
    transfer only, as long as transfers that share an identifier share a seal; without
    that, a seal can be closed for two. *)

From S2P Require Import Prelude Ord Bytes Hashing Text Seal Signature CrossChain TransferState ReplayDb Journal Coordinator Send.

(** ** One transfer per seal *)

Section Exclusive.
Context (sha256 : bytes -> Bytes32) (progress_cbor : SendProgress -> result string bytes)
        (progress_of_cbor : bytes -> result string SendProgress).
Local Notation nullifier := (source_seal_nullifier sha256).

(** The ghost state says whether the seal's identifier is known to be reserved for this
    transfer: it is once the reservation succeeds, or an entry says so. *)
Definition ownership (t : SendTransfer) : discipline bool := {|
  may_record own e := pe_transfer_id e = st_transfer_id t /\
                      (pe_phase e = SSourceSealClosed -> own = true);
  recorded own e := own;
  may_read own id := id = st_transfer_id t;
  reads own e own' := own' = own || says_closed e;
  may_reserve own n := n = nullifier t;
  reserved own r := own || is_ok r;
  may_call own c := match c with CloseSourceSeal t' _ => t' = t /\ own = true | _ => True end;
  called own c := own
|}.
Local Notation any := (fun _ _ => True).

(** A step that leaves the ownership as it is, with any outcome. *)
Lemma own_journal t own phase o progress (Q : bool -> result TransferCoordinatorError unit -> Prop) :
  (phase = SSourceSealClosed -> own = true) -> (forall r, Q own r) ->
  wp (ownership t) own (journal_send_phase progress_cbor t phase o progress) Q.
Proof. intros Hp HQ. by apply wp_journal. Qed.

Lemma own_execute t own phase p c (Q : bool -> result TransferCoordinatorError bytes -> Prop) :
  may_call (ownership t) own c -> (phase = SSourceSealClosed -> own = true) ->
  (forall r, Q own r) -> wp (ownership t) own (execute_or_fail progress_cbor t phase p c) Q.
Proof. intros Hc Hp HQ. by apply wp_execute. Qed.

Lemma own_assign t own p (Q : bool -> result TransferCoordinatorError (bytes * SendProgress) -> Prop) :
  (forall r, Q own r) -> wp (ownership t) own (assign_step progress_cbor t p) Q.
Proof.
  intros HQ. unfold assign_step. destruct (sp_assignment p); [by apply HQ|].
  apply wp_bind, own_journal; [done|]. intros [_|e]; [|by apply HQ].
  apply wp_bind, own_execute; [done|done|]. intros [a|e]; [|by apply HQ].
  apply wp_bind, own_journal; [done|]. by intros [_|e]; apply HQ.
Qed.

Lemma own_emit t own w p (Q : bool -> result TransferCoordinatorError (bytes * SendProgress) -> Prop) :
  (forall r, Q own r) -> wp (ownership t) own (emit_step progress_cbor t w p) Q.
Proof.
  intros HQ. unfold emit_step. destruct (sp_consignment p); [by apply HQ|].
  apply wp_bind, own_journal; [done|]. intros [_|e]; [|by apply HQ].
  apply wp_bind, own_execute; [done|done|]. intros [a|e]; [|by apply HQ].
  apply wp_bind, own_journal; [done|]. by intros [_|e]; apply HQ.
Qed.

Lemma own_close t own prior a p (Q : bool -> result TransferCoordinatorError (bytes * SendProgress) -> Prop) :
  (prior = true -> own = true) -> (forall own' r, Q own' r) ->
  wp (ownership t) own (close_step sha256 progress_cbor t prior a p) Q.
Proof.
  intros Hprior HQ. unfold close_step. destruct (sp_witness p); [by apply HQ|].
  assert (Hown : wp (ownership t) true
    (_ ← journal_send_phase progress_cbor t SSourceSealClosed Entered (Some p);
     w ← execute_or_fail progress_cbor t SSourceSealClosed p (CloseSourceSeal t a);
     let p2 := mkProgress (sp_assignment p) (Some w) (sp_consignment p) in
     _ ← journal_send_phase progress_cbor t SSourceSealClosed PhaseCompleted (Some p2);
     Done (Ok (w, p2))) Q).
  { apply wp_bind, own_journal; [done|]. intros [_|e]; [|by apply HQ].
    apply wp_bind, own_execute; [done|done|]. intros [w|e]; [|by apply HQ].
    apply wp_bind, own_journal; [done|]. by intros [_|e]; apply HQ. }
  apply wp_bind. unfold reserve_source_seal. cbn [wp]. split; [done|]. intros r.
  cbn [ownership reserved]. destruct r as [[]|e]; cbn [is_ok].
  - by rewrite orb_true_r.
  - rewrite orb_false_r. destruct e; cbn [wp]; [by apply HQ| |by apply HQ].
    destruct prior; [|by apply HQ]. rewrite Hprior by done. exact Hown.
Qed.

Lemma own_drive t own p : wp (ownership t) own (drive_send sha256 progress_cbor t p) any.
Proof.
  unfold drive_send. apply wp_bind. cbn [latest_phase wp]. split; [done|]. intros e own' ->.
  apply wp_bind, own_assign. intros [[a p1]|?]; [|done].
  apply wp_bind, own_close.
  { fold (says_closed e). intros ->. apply orb_true_r. }
  intros o [[w p2]|?]; [|done]. apply wp_bind, own_emit. intros [[c p3]|?]; [|done].
  apply wp_bind, own_journal; [done|]. by intros [].
Qed.

Lemma own_call c :
  wp (ownership (call_transfer c)) false (call_prog sha256 progress_cbor progress_of_cbor c) any.
Proof.
  destruct c as [t|t]; cbn [call_prog call_transfer].
  - unfold execute_send. apply wp_bind. cbn [latest_phase wp]. split; [done|]. intros [e|] own ->; [done|].
    cbn [option_map]. apply wp_bind, own_journal; [done|]. intros [_|e]; [|done].
    apply wp_bind, own_journal; [done|]. intros [_|e]; [|done]. apply own_drive.
  - assert (Hload : forall o, wp (ownership t) o
      (p ← load_send_progress progress_of_cbor (st_transfer_id t); drive_send sha256 progress_cbor t p) any).
    { intros o. apply wp_bind. cbn [load_send_progress wp]. split; [done|]. intros e o' ->.
      destruct (e ≫= pe_proof_payload) as [b|]; [|apply own_drive].
      destruct (progress_of_cbor b); [apply own_drive|done]. }
    unfold resume_send. apply wp_bind. cbn [latest_phase wp]. split; [done|]. intros [e|] own ->; cbn [option_map];
      [destruct (is_materialize_stage _); [done|]|]; apply Hload.
Qed.

Context {J D : Type} `{JournalLaws J} `{ReplayStoreLaws D}.
Local Notation world := (world J D).
Local Notation system := (system J D).
Local Notation action := (action D).
Local Notation act := (act sha256 progress_cbor progress_of_cbor).
Local Notation run_system := (run_system sha256 progress_cbor progress_of_cbor).

(** Transfers that share an identifier share a source seal, and the other clients of the
    replay database remove nothing. *)
Definition keeps (f : D -> D) : Prop :=
  forall d id, is_Some (rs_state d id) -> is_Some (rs_state (f d) id).
Definition well_used (seal_of : string -> bytes) (a : action) : Prop :=
  match a with
  | Start c => seal_id (st_source_seal (call_transfer c)) = seal_of (st_transfer_id (call_transfer c))
  | Step _ _ => True
  | Others f => keeps f
  end.

(** What [owner] records is in the database, and covers the entries and the calls that
    close a seal. *)
Record owned (seal_of : string -> bytes) (owner : gmap bytes string) (w : world) : Prop := {
  ow_wf : j_wf (w_journal w);
  ow_db : forall n id, owner !! n = Some id -> is_Some (rs_state (w_db w) n);
  ow_log : forall e t, e ∈ j_log (w_journal w) -> pe_phase e = SSourceSealClosed ->
    st_transfer_id t = pe_transfer_id e -> seal_id (st_source_seal t) = seal_of (st_transfer_id t) ->
    owner !! nullifier t = Some (st_transfer_id t);
  ow_calls : forall t a r, Called (CloseSourceSeal t a) r ∈ w_events w ->
    owner !! nullifier t = Some (st_transfer_id t)
}.
Definition owned_call (seal_of : string -> bytes) (owner : gmap bytes string)
    (x : SendTransfer * prog SendReceipt) : Prop :=
  seal_id (st_source_seal x.1) = seal_of (st_transfer_id x.1) /\
  exists own, wp (ownership x.1) own x.2 any /\
    (own = true -> owner !! nullifier x.1 = Some (st_transfer_id x.1)).
Definition exclusive seal_of (s : system) : Prop :=
  exists owner, owned seal_of owner s.1 /\ Forall (owned_call seal_of owner) s.2.

Lemma nullifier_eq t t' :
  seal_id (st_source_seal t) = seal_id (st_source_seal t') -> nullifier t = nullifier t'.
Proof. unfold source_seal_nullifier. by intros ->. Qed.

Lemma owned_call_mono seal_of owner owner' x :
  owner ⊆ owner' -> owned_call seal_of owner x -> owned_call seal_of owner' x.
Proof.
  intros Hs [Hx (own & Hw & Ho)]. split; [done|]. exists own. split; [done|].
  intros Hown. eapply lookup_weaken; [by apply Ho|done].
Qed.

(** One access of a call. *)
Lemma prog_step_owned seal_of owner w i x :
  countable_log (j_log (w_journal w)) ->
  owned seal_of owner w -> owned_call seal_of owner x ->
  exists owner', owner ⊆ owner' /\
    let '(w', p') := prog_step i (w, x.2) in
    owned seal_of owner' w' /\ owned_call seal_of owner' (x.1, p').
Proof.
  intros Hc Hw [Hx (own & Hp & Ho)]. destruct x as [t p]. cbn [fst snd] in *.
  destruct p as [r|entry k|id k|n k|c k]; cbn [prog_step wp] in *.
  - exists owner. split_and!; [done|done|]. split; [done|]. by exists own.
  - destruct (Hp (in_now i)) as ([Hid Hphase] & Hok & Herr).
    destruct (j_record (in_fault i) (entry (in_now i)) (w_journal w)) as [j r] eqn:E.
    destruct (record_law _ _ _ _ _ (ow_wf _ _ _ Hw) Hc E) as [Hwf Hlog].
    exists owner. split; [done|]. destruct Hw as [_ Hdb Hl Hcalls]. split; [split|]; cbn; [done|done|..].
    + intros e t' He Hph Hid' Hseal. destruct r; rewrite Hlog in He; [|by eapply Hl].
      apply elem_of_app in He as [He| ->%list_elem_of_singleton]; [by eapply Hl|].
      rewrite Hid in Hid'. specialize (Ho (Hphase Hph)). rewrite Hid', <- Ho. f_equal.
      apply nullifier_eq. by rewrite Hseal, Hx, Hid'.
    + intros t' a r' [?|Hin]%elem_of_app; [by eapply Hcalls|]. destruct (is_ok r); [|by apply elem_of_nil in Hin].
      by apply list_elem_of_singleton in Hin.
    + split; [done|]. exists own. split; [|done]. by destruct r as [[]|e]; cbn in *.
  - destruct Hp as [-> Hp]. exists owner. split; [done|]. split; [done|]. split; [done|].
    rewrite (latest_entry_law _ _ (ow_wf _ _ _ Hw)).
    eexists. split; [by apply Hp|]. cbn. intros [Hown|Hsays]%orb_true_iff; [by apply Ho|].
    unfold says_closed in Hsays. apply bool_decide_eq_true in Hsays.
    destruct (latest_in _ _) as [e|] eqn:E; [|done]. injection Hsays as Hsays.
    apply latest_in_id in E as [Hid Hin]. by apply (ow_log _ _ _ Hw e).
  - destruct Hp as [-> Hp]. pose proof (rs_insert_spec (nullifier t) (w_db w)) as Hi.
    destruct (rs_state (w_db w) (nullifier t)) as [st|] eqn:Est.
    + rewrite Hi. exists owner. split; [done|]. split; [by destruct Hw|]. split; [done|].
      exists own. cbn in Hp. specialize (Hp (Err AlreadyExists)). cbn in Hp. by rewrite orb_false_r in Hp.
    + destruct Hi as (d' & Hi & Hst). rewrite Hi.
      assert (Hn : owner !! nullifier t = None).
      { destruct (owner !! nullifier t) as [id|] eqn:Eo; [|done].
        destruct (ow_db _ _ _ Hw _ _ Eo) as [st Hs]. by rewrite Est in Hs. }
      assert (Hsub : owner ⊆ <[nullifier t := st_transfer_id t]> owner) by by apply insert_subseteq.
      exists (<[nullifier t := st_transfer_id t]> owner). split; [done|]. split.
      * destruct Hw as [Hwf Hdb Hl Hcalls]. split; cbn; [done|..].
        -- intros n id [[<- _]|[Hne Hid]]%lookup_insert_Some; [by rewrite Hst|].
           pose proof (rs_insert_other _ n (w_db w) Hne) as Hother. rewrite Hi in Hother.
           cbn in Hother. rewrite Hother. by apply (Hdb n id).
        -- intros e t' He Hph Hid Hseal. eapply lookup_weaken; [by apply (Hl e)|done].
        -- intros t' a r Hin. eapply lookup_weaken; [by apply (Hcalls t' a r)|done].
      * split; [done|]. exists true. split; [|by rewrite lookup_insert_eq].
        specialize (Hp (Ok tt)). cbn in Hp. by rewrite orb_true_r in Hp.
  - destruct Hp as [Hcall Hp]. exists owner. split; [done|]. destruct Hw as [Hwf Hdb Hl Hcalls].
    split; [split; cbn; [done|done|done|]|].
    + intros t' a r [?|Hin]%elem_of_app; [by eapply Hcalls|]. apply list_elem_of_singleton in Hin.
      injection Hin as <- _. cbn in Hcall. destruct Hcall as [-> Hown]. by apply Ho.
    + split; [done|]. exists own. split; [by apply Hp|done].
Qed.

(** Every action keeps the invariant, and adds at most one entry. *)
Lemma act_exclusive seal_of s a :
  countable_log (j_log (w_journal s.1)) -> well_used seal_of a ->
  exclusive seal_of s ->
  exclusive seal_of (act s a) /\
  length (j_log (w_journal (act s a).1)) <= S (length (j_log (w_journal s.1))).
Proof.
  intros Hc Ha (owner & Hw & Hp). destruct s as [w pool]. cbn [fst snd] in *.
  destruct a as [c|k i|f]; cbn [Send.act fst snd].
  - split; [|cbn; lia]. exists owner. split; [done|]. apply Forall_app. split; [done|].
    constructor; [|done]. split; [done|]. exists false. split; [apply own_call|done].
  - destruct (pool !! k) as [[t p]|] eqn:E; [|split; [by exists owner|cbn; lia]].
    pose proof (proj1 (Forall_lookup _ _) Hp k _ E) as Hx.
    destruct (prog_step_owned seal_of owner w i (t, p) Hc Hw Hx) as (owner' & Hsub & Hstep).
    pose proof (prog_step_log w i p (ow_wf _ _ _ Hw) Hc) as Hlen.
    cbn [snd fst] in Hstep. destruct (prog_step i (w, p)) as [w' p']. destruct Hstep as [Hw' Hx'].
    split; [|exact Hlen]. exists owner'. split; [done|]. apply Forall_insert; [|done].
    eapply Forall_impl; [exact Hp|]. intros x. by apply owned_call_mono.
  - split; [|cbn; lia]. exists owner. split; [|done]. destruct Hw as [Hwf Hdb Hl Hcalls].
    split; cbn; [done| |done|done]. intros n id Hn. by apply Ha, (Hdb n id).
Qed.

Lemma run_exclusive seal_of acts s :
  (N.of_nat (length (j_log (w_journal s.1)) + length acts) <= u64_max)%N ->
  Forall (well_used seal_of) acts -> exclusive seal_of s -> exclusive seal_of (run_system s acts).
Proof.
  revert s. induction acts as [|a acts IH]; intros s Hn Hall Hs; [done|].
  apply Forall_cons in Hall as [Ha Hall]. cbn [length] in Hn.
  destruct (act_exclusive seal_of s a ltac:(unfold countable_log; lia) Ha Hs) as [Hs' Hlen].
  apply IH; [lia|done|done].
Qed.
End Exclusive.

(** ** Theorem *)

(** C6: A source seal is closed for one transfer.  In any execution of the system from an
    empty journal (calls started and stepped in any order, any of them crashing, with
    journal faults, executor failures and other clients of the replay database that
    remove nothing), if transfers with one identifier have one source seal, then any
    two requests to close the same seal are made for the same transfer, and the seal's
    identifier is in the replay database. *)
Theorem send_seal_exclusive {J D : Type} `{JournalLaws J} `{ReplayStoreLaws D}
    (sha256 : bytes -> Bytes32) (progress_cbor : SendProgress -> result string bytes)
    (progress_of_cbor : bytes -> result string SendProgress) (j : J) (d : D)
    (seal_of : string -> bytes) (acts : list (action D)) (t t' : SendTransfer)
    (a a' : bytes) (r r' : result SendExecutorError bytes)
    (Hj : j_wf j) (Hl : j_log j = []) (Hn : (N.of_nat (length acts) <= u64_max)%N)
    (Huse : Forall (well_used seal_of) acts) :
  let s := run_system sha256 progress_cbor progress_of_cbor (initially j d) acts in
  Called (CloseSourceSeal t a) r ∈ w_events s.1 ->
  Called (CloseSourceSeal t' a') r' ∈ w_events s.1 ->
  seal_id (st_source_seal t) = seal_id (st_source_seal t') ->
  st_transfer_id t = st_transfer_id t' /\
  is_Some (rs_state (w_db s.1) (source_seal_nullifier sha256 t)).
Proof.
  intros s Ht Ht' Hseal.
  destruct (run_exclusive sha256 progress_cbor progress_of_cbor seal_of acts (initially j d))
    as (owner & Hw & _); [cbn; rewrite Hl; cbn; lia|done| |].
  { exists ∅. split; [|constructor]. split; cbn; [done|done| |].
    - rewrite Hl. by intros e t0 ?%elem_of_nil.
    - by intros t0 a0 r0 ?%elem_of_nil. }
  pose proof (ow_calls _ _ _ _ Hw t a r Ht) as H3.
  pose proof (ow_calls _ _ _ _ Hw t' a' r' Ht') as H4.
  rewrite (nullifier_eq sha256 _ _ Hseal), H4 in H3. split; [congruence|].
  rewrite (nullifier_eq sha256 _ _ Hseal). by eapply (ow_db _ _ _ _ Hw).
Qed.

(** ** Examples *)

Notation demo_run := (run_system toy_hash demo_progress_cbor demo_progress_of_cbor
                        (initially (InMemoryJournal_new 100) (∅ : entries))).

(** Transfer [x] closes seal 1 and crashes; [y], on the same seal, is refused; [x] is
    resumed and closes it again. *)
Definition demo_crash : list (action entries) :=
  Start (ExecuteSend (demo_send "x" Byte.x01)) ::
  repeat (Step 0 demo_input) 9 ++ [Step 0 failing_input] ++
  Start (ExecuteSend (demo_send "y" Byte.x01)) :: repeat (Step 1 demo_input) 20 ++
  Start (ResumeSend (demo_send "x" Byte.x01)) :: repeat (Step 2 demo_input) 14.

Lemma send_seal_exclusive_witness :
  let s := demo_run demo_crash in
  s.2 !! 1 = Some (demo_send "y" Byte.x01, Done (Err DuplicateSourceSeal)) /\
  is_Some (rs_state (w_db s.1) (source_seal_nullifier toy_hash (demo_send "x" Byte.x01))).
Proof.
  split; [by vm_compute|].
  apply (send_seal_exclusive toy_hash demo_progress_cbor demo_progress_of_cbor
           (InMemoryJournal_new 100) (∅ : entries) (fun _ => [Byte.x01]) demo_crash
           (demo_send "x" Byte.x01) (demo_send "x" Byte.x01) [Byte.x0a] [Byte.x0a]
           (Err (EClose "offline")) (Ok [Byte.x0b; Byte.x0a])).
  - done.
  - reflexivity.
  - by vm_compute.
  - unfold demo_crash. rewrite !Forall_cons, !Forall_app, !Forall_cons, !Forall_app, !Forall_cons.
    split_and!; try reflexivity; try (by apply Forall_nil_2); by repeat constructor.
  - apply list_elem_of_In. vm_compute. tauto.
  - apply list_elem_of_In. vm_compute. tauto.
  - reflexivity.
Defined.

(** An identifier used for two seals: [y] begins to close seal 2 and fails, and a resumed
    [y] that names seal 1 closes it after [x] did. *)
Definition demo_reuse : list (action entries) :=
  Start (ExecuteSend (demo_send "x" Byte.x01)) :: repeat (Step 0 demo_input) 15 ++
  Start (ExecuteSend (demo_send "y" Byte.x02)) :: repeat (Step 1 demo_input) 9 ++
  [Step 1 failing_input; Step 1 failing_input] ++
  Start (ResumeSend (demo_send "y" Byte.x01)) :: repeat (Step 2 demo_input) 14.

Lemma reused_id_closes_twice :
  let evs := w_events (demo_run demo_reuse).1 in
  In (Called (CloseSourceSeal (demo_send "x" Byte.x01) [Byte.x0a]) (Ok [Byte.x0b; Byte.x0a])) evs /\
  In (Called (CloseSourceSeal (demo_send "y" Byte.x01) [Byte.x0a]) (Ok [Byte.x0b; Byte.x0a])) evs.
Proof. vm_compute. tauto. Qed.
