(* ===== verification/SendRecovery.v ===== *)
(** * Resuming a send

    With one call at a time for each transfer, whatever crashes and fails: what the
    journal says is done is not asked for again, and once the executor was asked to
    close the seal, resuming the transfer completes it.  A resumed call run by itself
    ends as [send_ends] says. *)

From S2P Require Import Prelude Ord Bytes Hashing Text Seal Signature CrossChain TransferState ReplayDb Journal Coordinator Send.

(** ** What a transfer's journal says *)

Section Recovery.
Context (sha256 : bytes -> Bytes32) (progress_cbor : SendProgress -> result string bytes)
        (progress_of_cbor : bytes -> result string SendProgress).
Context (Hcbor : forall p b, progress_cbor p = Ok b -> progress_of_cbor b = Ok p).
Local Notation nullifier := (source_seal_nullifier sha256).

(** The progress the latest entry carries, when it decodes. *)
Definition progress_in (e : option TransferPhaseEntry) : option SendProgress :=
  match e ≫= pe_proof_payload with
  | Some b => match progress_of_cbor b with Ok p => Some p | Err _ => None end
  | None => Some no_progress
  end.
(** What is done stays done, and is the same. *)
Definition grows (p p' : SendProgress) : Prop :=
  (forall b, sp_assignment p = Some b -> sp_assignment p' = Some b) /\
  (forall b, sp_witness p = Some b -> sp_witness p' = Some b) /\
  (forall b, sp_consignment p = Some b -> sp_consignment p' = Some b).
Definition send_phase (e : option TransferPhaseEntry) : bool :=
  match e with Some e => negb (is_materialize_stage (pe_phase e)) | None => true end.

(** The ghost state: whether the executor was asked to close the seal, and the latest
    entry.  Once it was asked, the journal says that the close was begun or done. *)
Notation crash_state := (bool * option TransferPhaseEntry)%type.
Record on_track (s : crash_state) (p : SendProgress) : Prop := {
  ot_progress : progress_in s.2 = Some p;
  ot_phase : send_phase s.2 = true;
  ot_assigned : says_closed s.2 = true \/ is_Some (sp_witness p) -> is_Some (sp_assignment p);
  ot_closed : s.1 = true -> says_closed s.2 = true \/ is_Some (sp_witness p)
}.

Definition resumable (id : string) : discipline crash_state := {|
  may_record s e := pe_transfer_id e = id /\
    forall p, progress_in s.2 = Some p -> exists p', on_track (s.1, Some e) p' /\ grows p p';
  recorded s e := (s.1, Some e);
  may_read s i := i = id;
  reads s e s' := e = s.2 /\ s' = s;
  may_reserve s n := True;
  reserved s r := s;
  may_call s c := forall p, progress_in s.2 = Some p ->
    match c with
    | AssignSeal t => st_transfer_id t = id /\ sp_assignment p = None
    | CloseSourceSeal t _ =>
        st_transfer_id t = id /\ sp_witness p = None /\ says_closed s.2 = true
    | EmitConsignment t _ => st_transfer_id t = id /\ sp_consignment p = None
    end;
  called s c := (s.1 || match c with CloseSourceSeal _ _ => true | _ => false end, s.2)
|}.
Local Notation any := (fun _ _ => True).

Lemma grows_refl p : grows p p.
Proof. by split_and!. Qed.

Lemma grows_trans p q r : grows p q -> grows q r -> grows p r.
Proof. intros (H1 & H2 & H3) (H4 & H5 & H6). split_and!; eauto. Qed.

(** Journaling a phase of the driver from a state on track. *)
Lemma track_journal t s p p' phase o
    (Q : crash_state -> result TransferCoordinatorError unit -> Prop) :
  on_track s p -> grows p p' -> is_materialize_stage phase = false ->
  (phase = SSourceSealClosed \/ is_Some (sp_witness p') -> is_Some (sp_assignment p')) ->
  (s.1 = true -> phase = SSourceSealClosed \/ is_Some (sp_witness p')) ->
  (forall e, pe_phase e = phase -> on_track (s.1, Some e) p' -> Q (s.1, Some e) (Ok tt)) ->
  (forall e, Q s (Err e)) ->
  wp (resumable (st_transfer_id t)) s (journal_send_phase progress_cbor t phase o (Some p')) Q.
Proof.
  intros Hs Hg Hm Ha Hc HQ Herr. apply wp_journal; [|done].
  intros now payload Hp. destruct payload as [b|]; [|done]. cbn in Hp.
  assert (Ht : on_track (s.1, Some (phase_entry t phase o (Some b) now)) p').
  { split; unfold progress_in, send_phase, says_closed; cbn; [by rewrite (Hcbor _ _ Hp)|by rewrite Hm|..];
      rewrite bool_decide_eq_true; naive_solver. }
  split; [|by apply HQ]. split; [done|]. intros q Hq.
  rewrite (ot_progress _ _ Hs) in Hq. injection Hq as <-. by exists p'.
Qed.

(** Calling the executor: a failure is journaled with the progress unchanged. *)
Lemma track_execute t s p phase c
    (Q : crash_state -> result TransferCoordinatorError bytes -> Prop) :
  on_track s p -> may_call (resumable (st_transfer_id t)) s c ->
  on_track (called (resumable (st_transfer_id t)) s c) p ->
  is_materialize_stage phase = false ->
  (phase = SSourceSealClosed \/ is_Some (sp_witness p) -> is_Some (sp_assignment p)) ->
  ((called (resumable (st_transfer_id t)) s c).1 = true ->
     phase = SSourceSealClosed \/ is_Some (sp_witness p)) ->
  (forall b, Q (called (resumable (st_transfer_id t)) s c) (Ok b)) -> (forall s' e, Q s' (Err e)) ->
  wp (resumable (st_transfer_id t)) s (execute_or_fail progress_cbor t phase p c) Q.
Proof.
  intros Hs Hc Hs' Hm Ha Hcl HQ Herr. unfold execute_or_fail. cbn [wp]. split; [done|].
  intros [b|e]; cbn [wp]; [by apply HQ|]. apply wp_then.
  eapply track_journal; [exact Hs'|apply grows_refl|done|done|done|..]; intros; by apply Herr.
Qed.

(** Where a step ends. *)
Definition step_post (p : SendProgress) (field : SendProgress -> option bytes) (s : crash_state)
    (r : result TransferCoordinatorError (bytes * SendProgress)) : Prop :=
  match r with
  | Ok (b, p') => on_track s p' /\ field p' = Some b /\ grows p p'
  | Err _ => True
  end.

Lemma track_assign t s p : on_track s p ->
  wp (resumable (st_transfer_id t)) s (assign_step progress_cbor t p) (step_post p sp_assignment).
Proof.
  intros Hs. unfold assign_step. destruct (sp_assignment p) as [a|] eqn:Ea; [by split_and!|].
  assert (Hw : sp_witness p = None).
  { destruct (sp_witness p) eqn:E; [|done]. destruct (ot_assigned _ _ Hs) as [x Hx]; [right; by rewrite E|].
    by rewrite Ea in Hx. }
  assert (Hc : s.1 = false).
  { destruct (s.1) eqn:E; [|done]. destruct (ot_assigned _ _ Hs) as [x Hx]; [by apply Hs|].
    by rewrite Ea in Hx. }
  apply wp_bind. eapply track_journal; [exact Hs|apply grows_refl|done|..]; try done.
  { rewrite Hw. intros [?|[? ?]]; done. }
  { by rewrite Hc. }
  intros e He Ht. apply wp_bind. eapply track_execute; try done.
  { intros q Hq. rewrite (ot_progress _ _ Ht) in Hq. by injection Hq as <-. }
  { cbn. by rewrite orb_false_r. }
  { rewrite Hw. intros [?|[? ?]]; done. }
  { cbn. by rewrite orb_false_r, Hc. }
  intros a. apply wp_bind. cbn. rewrite orb_false_r.
  assert (Hg : grows p (mkProgress (Some a) (sp_witness p) (sp_consignment p)))
    by (split_and!; cbn; rewrite ?Ea; done).
  eapply track_journal; [exact Ht|exact Hg|done|..]; try done.
  { cbn. by rewrite Hc. }
Qed.

Lemma track_close t s p prior a : on_track s p -> is_Some (sp_assignment p) ->
  wp (resumable (st_transfer_id t)) s (close_step sha256 progress_cbor t prior a p)
    (step_post p sp_witness).
Proof.
  intros Hs Ha. unfold close_step. destruct (sp_witness p) as [w|] eqn:Ew; [by split_and!|].
  assert (Hown : wp (resumable (st_transfer_id t)) s
    (_ ← journal_send_phase progress_cbor t SSourceSealClosed Entered (Some p);
     w ← execute_or_fail progress_cbor t SSourceSealClosed p (CloseSourceSeal t a);
     let p2 := mkProgress (sp_assignment p) (Some w) (sp_consignment p) in
     _ ← journal_send_phase progress_cbor t SSourceSealClosed PhaseCompleted (Some p2);
     Done (Ok (w, p2))) (step_post p sp_witness)).
  { apply wp_bind. eapply track_journal; [exact Hs|apply grows_refl|done|done|by left|..]; [|done].
    intros e He Ht. assert (Hsays : says_closed (Some e) = true).
    { unfold says_closed. cbn. rewrite He. by apply bool_decide_eq_true. }
    assert (Ht' : on_track (true, Some e) p) by (split; [apply Ht..|by left]).
    apply wp_bind. eapply track_execute; try done.
    { intros q Hq. rewrite (ot_progress _ _ Ht) in Hq. by injection Hq as <-. }
    { cbn. by rewrite orb_true_r. }
    { by left. }
    intros w. apply wp_bind. cbn. rewrite orb_true_r.
    assert (Hg : grows p (mkProgress (sp_assignment p) (Some w) (sp_consignment p)))
      by (split_and!; cbn; rewrite ?Ew; done).
    by eapply track_journal; [exact Ht'|exact Hg|done|done|by left|..]. }
  apply wp_bind. unfold reserve_source_seal. cbn [wp]. split; [done|]. intros [[]|e]; [exact Hown|].
  destruct e; try done. by destruct prior.
Qed.

Lemma track_emit t s p w : on_track s p -> is_Some (sp_witness p) ->
  wp (resumable (st_transfer_id t)) s (emit_step progress_cbor t w p) (step_post p sp_consignment).
Proof.
  intros Hs Hw. unfold emit_step. destruct (sp_consignment p) as [c|] eqn:Ec; [by split_and!|].
  pose proof (ot_assigned _ _ Hs (or_intror Hw)) as Ha.
  apply wp_bind. eapply track_journal; [exact Hs|apply grows_refl|done|done|by right|..]; [|done].
  intros e He Ht. apply wp_bind. eapply track_execute; try done.
  { intros q Hq. rewrite (ot_progress _ _ Ht) in Hq. by injection Hq as <-. }
  { cbn. by rewrite orb_false_r. }
  { by right. }
  intros c. apply wp_bind. cbn. rewrite orb_false_r.
  assert (Hg : grows p (mkProgress (sp_assignment p) (sp_witness p) (Some c)))
    by (split_and!; cbn; rewrite ?Ec; done).
  by eapply track_journal; [exact Ht|exact Hg|done|done|by right|..].
Qed.

Lemma track_drive t s p : on_track s p ->
  wp (resumable (st_transfer_id t)) s (drive_send sha256 progress_cbor t p) any.
Proof.
  intros Hs. unfold drive_send. apply wp_bind. cbn [latest_phase wp]. split; [done|].
  intros e s' [-> ->]. apply wp_bind. eapply wp_mono; [by apply track_assign|].
  intros s1 [[a p1]|?]; [|done]. intros (H1 & Ha & _). apply wp_bind.
  eapply wp_mono; [apply track_close; [done|by rewrite Ha]|].
  intros s2 [[w p2]|?]; [|done]. intros (H2 & Hw & _). apply wp_bind.
  eapply wp_mono; [apply track_emit; [done|by rewrite Hw]|].
  intros s3 [[c p3]|?]; [|done]. intros (H3 & Hc3 & (_ & Hg & _)). apply wp_bind.
  assert (Hw3 : is_Some (sp_witness p3)) by (rewrite (Hg w Hw); by eexists).
  pose proof (ot_assigned _ _ H3 (or_intror Hw3)).
  eapply track_journal; [exact H3|apply grows_refl|done|done|by right|done|done].
Qed.

Lemma track_call c s p : on_track s p -> (s.2 = None -> s.1 = false) ->
  wp (resumable (st_transfer_id (call_transfer c))) s
     (call_prog sha256 progress_cbor progress_of_cbor c) any.
Proof.
  intros Hs Hfresh. destruct c as [t|t]; cbn [call_prog call_transfer].
  - unfold execute_send. apply wp_bind. cbn [latest_phase wp]. split; [done|]. intros e s' [-> ->].
    destruct s as [c [e|]]; [done|]. cbn [snd option_map] in *.
    specialize (Hfresh eq_refl). cbn in Hfresh. subst c.
    assert (Hp : p = no_progress) by by pose proof (ot_progress _ _ Hs) as [= <-]. subst p.
    assert (Ht : forall o now, on_track (false, Some (phase_entry t SInitialized o None now)) no_progress).
    { intros o now. split; cbn; [done|done|intros [?|[? ?]]; done|done]. }
    apply wp_bind, wp_journal; [|done]. intros now [b|] Hb; [done|].
    split; [split; [done|]; intros q [= <-]; exists no_progress; split; [apply Ht|apply grows_refl]|].
    apply wp_bind, wp_journal; [|done]. intros now' [b|] Hb'; [done|].
    split; [split; [done|]; intros q [= <-]; exists no_progress; split; [apply Ht|apply grows_refl]|].
    apply track_drive. exact (Ht PhaseCompleted now').
  - assert (Hload : wp (resumable (st_transfer_id t)) s
      (p ← load_send_progress progress_of_cbor (st_transfer_id t); drive_send sha256 progress_cbor t p) any).
    { apply wp_bind. cbn [load_send_progress wp]. split; [done|]. intros e s' [-> ->].
      pose proof (ot_progress _ _ Hs) as Hp. unfold progress_in in Hp.
      destruct (s.2 ≫= pe_proof_payload) as [b|].
      - destruct (progress_of_cbor b) as [q|]; [|done]. injection Hp as ->. by apply track_drive.
      - injection Hp as <-. by apply track_drive. }
    unfold resume_send. apply wp_bind. cbn [latest_phase wp]. split; [done|]. intros e s' [-> ->].
    pose proof (ot_phase _ _ Hs) as Hph. destruct (s.2) as [e|]; cbn [option_map send_phase] in *; [|done].
    by apply negb_true_iff in Hph as ->.
Qed.

(** ** One call at a time *)

Context {J D : Type} `{JournalLaws J} `{ReplayStoreLaws D}.
Local Notation world := (world J D).
Local Notation system := (system J D).
Local Notation action := (action D).
Local Notation act := (act sha256 progress_cbor progress_of_cbor).
Local Notation run_system := (run_system sha256 progress_cbor progress_of_cbor).
Local Notation one_at_a_time := (one_at_a_time sha256 progress_cbor progress_of_cbor).

(** Whether the executor was asked to close the seal of a transfer. *)
Definition closes (id : string) (x : event) : bool :=
  match x with
  | Called (CloseSourceSeal t _) _ => bool_decide (st_transfer_id t = id)
  | _ => false
  end.
Definition closed_by (id : string) (evs : list event) : bool := existsb (closes id) evs.
Definition entries_of (evs : list event) : log :=
  omap (fun x => match x with Recorded e => Some e | Called _ _ => None end) evs.

(** After an entry, what it says is done is not asked for again, and later entries of
    the transfer say it too. *)
Definition respects (e : TransferPhaseEntry) (x : event) : Prop :=
  forall p, progress_in (Some e) = Some p ->
  match x with
  | Recorded e' => pe_transfer_id e' = pe_transfer_id e ->
                   exists p', progress_in (Some e') = Some p' /\ grows p p'
  | Called (AssignSeal t) _ => st_transfer_id t = pe_transfer_id e -> sp_assignment p = None
  | Called (CloseSourceSeal t _) _ => st_transfer_id t = pe_transfer_id e -> sp_witness p = None
  | Called (EmitConsignment t _) _ => st_transfer_id t = pe_transfer_id e -> sp_consignment p = None
  end.
Definition settled (evs : list event) : Prop :=
  forall i j e x, evs !! i = Some (Recorded e) -> evs !! j = Some x -> i < j -> respects e x.

Definition ghost (w : world) (id : string) : crash_state :=
  (closed_by id (w_events w), latest_in (j_log (w_journal w)) id).
Record crash_ok (w : world) : Prop := {
  co_wf : j_wf (w_journal w);
  co_log : j_log (w_journal w) = entries_of (w_events w);
  co_track : forall id, exists p, on_track (ghost w id) p /\
    forall e, e ∈ j_log (w_journal w) -> pe_transfer_id e = id ->
      exists q, progress_in (Some e) = Some q /\ grows q p;
  co_fresh : forall id, (ghost w id).2 = None -> (ghost w id).1 = false;
  co_settled : settled (w_events w)
}.
Definition is_latest (pool : list (SendTransfer * prog SendReceipt)) (k : nat) (id : string) : Prop :=
  forall k' t p, pool !! k' = Some (t, p) -> st_transfer_id t = id -> k' <= k.
Definition crash_calls (s : system) : Prop :=
  forall k t p, s.2 !! k = Some (t, p) -> is_latest s.2 k (st_transfer_id t) ->
    wp (resumable (st_transfer_id t)) (ghost s.1 (st_transfer_id t)) p any.

Lemma settled_snoc evs x :
  settled evs -> (forall e, e ∈ entries_of evs -> respects e x) -> settled (evs ++ [x]).
Proof.
  intros Hs Hx i j e y Hi Hj Hlt. apply lookup_app_Some in Hj as [Hj|[Hlen Hj]].
  - rewrite lookup_app_l in Hi by (apply lookup_lt_Some in Hj; lia). by apply (Hs i j).
  - apply list_lookup_singleton_Some in Hj as [Hj <-].
    rewrite lookup_app_l in Hi by lia. apply Hx. unfold entries_of.
    apply list_elem_of_omap. exists (Recorded e). split; [|done]. by apply list_elem_of_lookup_2 in Hi.
Qed.

Lemma entries_of_app evs evs' : entries_of (evs ++ evs') = entries_of evs ++ entries_of evs'.
Proof. apply omap_app. Qed.
Lemma closed_by_app id evs evs' : closed_by id (evs ++ evs') = closed_by id evs || closed_by id evs'.
Proof. apply existsb_app. Qed.

(** The ghost states after an entry is recorded and after the executor is called. *)
Lemma ghost_record w j' db e id :
  j_log j' = j_log (w_journal w) ++ [e] ->
  ghost (mkWorld j' db (w_events w ++ [Recorded e])) id
  = if decide (pe_transfer_id e = id) then ((ghost w id).1, Some e) else ghost w id.
Proof.
  intros Hl. unfold ghost. cbn [w_events w_journal fst snd]. rewrite Hl, latest_in_snoc, closed_by_app.
  change (closed_by id [Recorded e]) with false. rewrite orb_false_r. by case_decide.
Qed.

Lemma ghost_call w db c r id :
  ghost (mkWorld (w_journal w) db (w_events w ++ [Called c r])) id
  = ((ghost w id).1 || closes id (Called c r), (ghost w id).2).
Proof.
  unfold ghost. cbn [w_events w_journal fst snd]. rewrite closed_by_app. f_equal. f_equal.
  unfold closed_by. cbn [existsb]. apply orb_false_r.
Qed.

Lemma entry_on_track w e :
  crash_ok w -> e ∈ j_log (w_journal w) ->
  exists q p, progress_in (Some e) = Some q /\ on_track (ghost w (pe_transfer_id e)) p /\ grows q p.
Proof.
  intros Hw He. destruct (co_track _ Hw (pe_transfer_id e)) as (p & Hp & Hall).
  destruct (Hall e He eq_refl) as (q & Hq & Hg). by exists q, p.
Qed.

(** Recording what the discipline of a transfer allows. *)
Lemma crash_ok_record w j' e id :
  crash_ok w -> j_wf j' -> j_log j' = j_log (w_journal w) ++ [e] ->
  may_record (resumable id) (ghost w id) e ->
  crash_ok (mkWorld j' (w_db w) (w_events w ++ [Recorded e])).
Proof.
  intros Hw Hwf Hl [Hid Hrec].
  destruct (co_track _ Hw id) as (p & Hp & Hall).
  destruct (Hrec p (ot_progress _ _ Hp)) as (p' & Hp' & Hg).
  split; cbn [w_journal w_events]; [done|..].
  - by rewrite Hl, entries_of_app, (co_log _ Hw).
  - intros id'. rewrite (ghost_record w) by done. rewrite Hl.
    destruct (decide (pe_transfer_id e = id')) as [Hid'|Hne].
    + assert (id' = id) as -> by congruence. exists p'. split; [done|].
      intros e' [He'| ->%list_elem_of_singleton]%elem_of_app Hide.
      * destruct (Hall e' He' Hide) as (q & Hq & Hgq). exists q. split; [done|]. by eapply grows_trans.
      * exists p'. split; [apply Hp'|apply grows_refl].
    + destruct (co_track _ Hw id') as (p0 & Hp0 & Hall0). exists p0. split; [done|].
      intros e' [He'| ->%list_elem_of_singleton]%elem_of_app Hide; [by apply Hall0|done].
  - intros id'. rewrite (ghost_record w) by done. case_decide; [done|]. apply Hw.
  - apply settled_snoc; [apply Hw|]. intros e' He' q Hq Hide. rewrite <- (co_log _ Hw) in He'.
    destruct (Hall e' He' ltac:(congruence)) as (q' & Hq' & Hgq). rewrite Hq in Hq'. injection Hq' as <-.
    exists p'. split; [apply Hp'|]. by eapply grows_trans.
Qed.

(** Calling what the discipline allows. *)
Lemma crash_ok_call w c r id :
  crash_ok w -> may_call (resumable id) (ghost w id) c ->
  crash_ok (mkWorld (w_journal w) (w_db w) (w_events w ++ [Called c r])).
Proof.
  intros Hw Hcall. destruct (co_track _ Hw id) as (p & Hp & Hall).
  specialize (Hcall p (ot_progress _ _ Hp)).
  assert (Hlog : j_log (w_journal w) = entries_of (w_events w ++ [Called c r])).
  { by rewrite entries_of_app, app_nil_r, (co_log _ Hw). }
  split; cbn [w_journal w_events]; [apply Hw|done|..].
  - intros id'. destruct (co_track _ Hw id') as (p0 & Hp0 & Hall0). exists p0. split; [|done].
    rewrite ghost_call. destruct Hp0 as [T1 T2 T3 T4]. split; [done|done|done|]. cbn [fst snd].
    intros [Hc|Hc]%orb_true_iff; [by apply T4|]. destruct c as [t|t a|t w']; try done. cbn in Hc.
    apply bool_decide_eq_true in Hc. destruct Hcall as (Hid & _ & Hs). left.
    by rewrite <- Hc, Hid.
  - intros id'. rewrite ghost_call. cbn [fst snd]. intros Hn. rewrite (co_fresh _ Hw _ Hn). cbn.
    destruct c as [t|t a|t w']; try done. apply bool_decide_eq_false. intros <-.
    destruct Hcall as (Hid & _ & Hs). rewrite Hid, Hn in *. done.
  - apply settled_snoc; [apply Hw|]. intros e He q Hq. rewrite <- (co_log _ Hw) in He.
    assert (Hgrow : pe_transfer_id e = id -> grows q p).
    { intros Hid. destruct (Hall e He Hid) as (q' & Hq' & Hg). by rewrite Hq in Hq'; injection Hq' as <-. }
    assert (Hnone : forall f : SendProgress -> option bytes,
      (forall b, f q = Some b -> f p = Some b) -> f p = None -> f q = None).
    { intros f Hf Hfp. destruct (f q) as [b|] eqn:E; [|done]. by rewrite (Hf b eq_refl) in Hfp. }
    destruct c as [t|t a|t w']; intros Hide; destruct Hcall as [Hid Hc];
      destruct (Hgrow ltac:(congruence)) as (G1 & G2 & G3);
      [by apply Hnone|apply Hnone; [done|by destruct Hc]|by apply Hnone].
Qed.

Lemma closes_other id id' c r :
  id' <> id -> (forall t a, c = CloseSourceSeal t a -> st_transfer_id t = id) ->
  closes id' (Called c r) = false.
Proof.
  intros Hne Hc. destruct c as [t|t a|t w]; try done. apply bool_decide_eq_false.
  by rewrite (Hc t a eq_refl).
Qed.

(** One access of the latest call of a transfer. *)
Lemma prog_step_crash w i id (p : prog SendReceipt) :
  countable_log (j_log (w_journal w)) -> crash_ok w -> wp (resumable id) (ghost w id) p any ->
  let '(w', p') := prog_step i (w, p) in
  crash_ok w' /\ wp (resumable id) (ghost w' id) p' any /\
  forall id', id' <> id -> ghost w' id' = ghost w id'.
Proof.
  intros Hc Hw Hp. destruct p as [r|entry k|id'|n k|c k]; cbn [prog_step wp] in *.
  - done.
  - destruct (Hp (in_now i)) as (Hrec & Hok & Herr).
    destruct (j_record (in_fault i) (entry (in_now i)) (w_journal w)) as [j r] eqn:E.
    destruct (record_law _ _ _ _ _ (co_wf _ Hw) Hc E) as [Hwf Hlog].
    destruct r as [[]|e]; cbn [is_ok].
    + split; [by eapply crash_ok_record|]. split.
      * rewrite (ghost_record w) by done. rewrite decide_True by apply Hrec. exact Hok.
      * intros id' Hne. rewrite (ghost_record w) by done. rewrite decide_False; [done|].
        destruct Hrec as [-> _]. congruence.
    + rewrite app_nil_r. assert (Hg : forall id, ghost (mkWorld j (w_db w) (w_events w)) id = ghost w id)
        by (intros ?; unfold ghost; cbn; by rewrite Hlog).
      split; [|split; [rewrite Hg; apply Herr|done]].
      destruct Hw as [H3 H4 H5 H6 H7]. split; cbn [w_journal w_events]; [done|by rewrite Hlog|..|done];
        intros id'; rewrite Hg; [rewrite Hlog|]; auto.
  - destruct Hp as [-> Hp]. split; [done|]. split; [|done]. rewrite (latest_entry_law _ _ (co_wf _ Hw)).
    by apply Hp.
  - destruct (rs_insert_if_absent n (w_db w)) as [d r]. destruct Hp as [_ Hp]. split; [by destruct Hw|].
    split; [apply (Hp r)|done].
  - destruct Hp as [Hcall Hp]. split; [by eapply crash_ok_call|]. split.
    + specialize (Hp (in_executor i c)). rewrite ghost_call.
      replace (closes id (Called c (in_executor i c)))
        with (match c with CloseSourceSeal _ _ => true | _ => false end); [exact Hp|].
      destruct (co_track _ Hw id) as (q & Hq & _). specialize (Hcall q (ot_progress _ _ Hq)).
      destruct c; try done. symmetry. apply bool_decide_eq_true. by destruct Hcall.
    + intros id' Hne. rewrite ghost_call, (closes_other id), orb_false_r; [by destruct (ghost w id')|done|].
      intros t a ->. destruct (co_track _ Hw id) as (q & Hq & _).
      by destruct (Hcall q (ot_progress _ _ Hq)).
Qed.

Lemma act_crash s a :
  countable_log (j_log (w_journal s.1)) -> allowed s a -> crash_ok s.1 -> crash_calls s ->
  crash_ok (act s a).1 /\ crash_calls (act s a) /\
  length (j_log (w_journal (act s a).1)) <= S (length (j_log (w_journal s.1))).
Proof.
  intros Hc Ha Hw Hp. destruct s as [w pool]. cbn [fst snd] in *.
  destruct a as [c|k i|f]; cbn [Send.act fst snd].
  - split; [done|]. split; [|cbn; lia]. intros k t p Hk Hlast. cbn [fst snd] in *.
    apply lookup_app_Some in Hk as [Hk|[Hlen Hk]].
    + apply (Hp k t p Hk). intros k' t' p' Hk'. apply (Hlast k' t' p'). by apply lookup_app_l_Some.
    + apply list_lookup_singleton_Some in Hk as [_ [= <- <-]].
      destruct (co_track _ Hw (st_transfer_id (call_transfer c))) as (q & Hq & _).
      eapply track_call; [exact Hq|]. by apply Hw.
  - destruct (pool !! k) as [[t p]|] eqn:E; [|by cbn; split_and!; [| |lia]].
    assert (Hlast : is_latest pool k (st_transfer_id t)) by (intros k' t' p' H3 H4; by eapply Ha).
    pose proof (prog_step_crash w i (st_transfer_id t) p Hc Hw (Hp k t p E Hlast)) as Hstep.
    pose proof (prog_step_log w i p (co_wf _ Hw) Hc) as Hlen.
    destruct (prog_step i (w, p)) as [w' p']. destruct Hstep as (Hw' & Hp' & Hother).
    split; [done|]. split; [|done]. intros k' t' q Hk' Hlast'. cbn [fst snd] in *.
    apply list_lookup_insert_Some in Hk' as [(<- & [= <- <-] & _)|[Hne Hk']]; [done|].
    assert (Hid : st_transfer_id t' <> st_transfer_id t).
    { intros Hid. apply Hne. pose proof (Hlast k' t' q Hk' Hid).
      assert (k <= k'); [|lia]. apply (Hlast' k t p'); [|done]. apply list_lookup_insert_eq.
      by eapply lookup_lt_Some. }
    rewrite (Hother _ Hid). apply (Hp k' t' q Hk'). intros k2 t2 p2 Hk2 Hid2. cbn [snd] in Hk2.
    destruct (decide (k = k2)) as [<-|Hne2]; [by rewrite E in Hk2; injection Hk2 as <- <-|].
    apply (Hlast' k2 t2 p2); [|done]. by rewrite list_lookup_insert_ne.
  - split; [by destruct Hw|]. split; [|cbn; lia]. exact Hp.
Qed.

Lemma run_crash acts s :
  (N.of_nat (length (j_log (w_journal s.1)) + length acts) <= u64_max)%N ->
  one_at_a_time s acts -> crash_ok s.1 -> crash_calls s ->
  crash_ok (run_system s acts).1 /\ crash_calls (run_system s acts).
Proof.
  revert s. induction acts as [|a acts IH]; intros s Hn Hall Hw Hp; [done|].
  destruct Hall as [Ha Hall]. cbn [length] in Hn.
  destruct (act_crash s a ltac:(unfold countable_log; lia) Ha Hw Hp) as (Hw' & Hp' & Hlen).
  apply IH; [lia|done|done|done].
Qed.

Lemma initially_crash (j : J) (d : D) :
  j_wf j -> j_log j = [] -> crash_ok (initially j d).1 /\ crash_calls (initially j d).
Proof.
  intros Hj Hl. split; [|intros k t p Hk; done].
  split; cbn; try done.
  - intros id. exists no_progress. unfold ghost. cbn. rewrite Hl. split; [|by intros e ?%elem_of_nil].
    split; cbn; [done|done|intros [?|[? ?]]; done|done].
Qed.

(** ** A call that runs by itself *)

(** It is done within [n] accesses, all of them meeting [i]. *)
Definition finishes {A} (n : nat) (i : input) (w : world) (p : prog A)
    (Q : world -> result TransferCoordinatorError A -> Prop) : Prop :=
  exists m w' r, m <= n /\ run_prog (repeat i m) (w, p) = (w', Done r) /\ Q w' r.

Lemma run_prog_done {A} inputs w (r : result TransferCoordinatorError A) :
  run_prog inputs (w, Done r) = (w, Done r).
Proof. by induction inputs. Qed.

Lemma finishes_run {A} n i w (p : prog A) Q :
  finishes n i w p Q -> exists w' r, run_prog (repeat i n) (w, p) = (w', Done r) /\ Q w' r.
Proof.
  intros (m & w' & r & Hm & Hrun & HQ). exists w', r. split; [|done].
  replace n with (m + (n - m)) by lia. unfold run_prog in *. rewrite repeat_app, fold_left_app, Hrun.
  apply run_prog_done.
Qed.

Lemma finishes_mono {A} n n' i w (p : prog A) (Q Q' : world -> result TransferCoordinatorError A -> Prop) :
  finishes n i w p Q -> n <= n' -> (forall w r, Q w r -> Q' w r) -> finishes n' i w p Q'.
Proof. intros (m & w' & r & Hm & Hrun & HQ) Hn HQQ. exists m, w', r. split; [lia|]. auto. Qed.

Lemma finishes_done {A} n i w (r : result TransferCoordinatorError A) (Q : _ -> _ -> Prop) :
  Q w r -> finishes n i w (Done r) Q.
Proof. intros HQ. exists 0, w, r. split; [lia|]. done. Qed.

Lemma finishes_step {A} n i w (p : prog A) w1 p1 Q :
  prog_step i (w, p) = (w1, p1) -> finishes n i w1 p1 Q -> finishes (S n) i w p Q.
Proof.
  intros Hs (m & w' & r & Hm & Hrun & HQ). exists (S m), w', r. split; [lia|]. split; [|done].
  unfold run_prog in *. cbn [repeat fold_left]. by rewrite Hs.
Qed.

Lemma finishes_then {A B} n m i w (p : prog A) (k : result TransferCoordinatorError A -> prog B) Q :
  finishes n i w p (fun w' r => finishes m i w' (k r) Q) -> finishes (n + m) i w (prog_then p k) Q.
Proof.
  intros (l & w' & r & Hl & Hrun & HQ). revert n w p Hl Hrun.
  induction l as [|l IH]; intros n w p Hl Hrun.
  { cbn in Hrun. injection Hrun as -> ->. eapply finishes_mono; [exact HQ|lia|done]. }
  destruct n as [|n]; [lia|]. cbn [Nat.add].
  destruct (prog_step i (w, p)) as [w1 p1] eqn:E.
  assert (Hrun1 : run_prog (repeat i l) (w1, p1) = (w', Done r)).
  { unfold run_prog in *. cbn [repeat fold_left] in Hrun. by rewrite E in Hrun. }
  assert (Hk : finishes (n + m) i w1 (prog_then p1 k) Q) by (apply (IH n w1 p1); [lia|done]).
  destruct p as [r0|e f|id f|x f|c f]; cbn in E.
  - injection E as <- <-. eapply finishes_mono; [exact Hk|lia|done].
  - destruct (j_record _ _ _) as [j r1] eqn:E1. injection E as <- <-.
    eapply finishes_step; [cbn; by rewrite E1|done].
  - injection E as <- <-. eapply finishes_step; [done|done].
  - destruct (rs_insert_if_absent _ _) as [d r1] eqn:E1. injection E as <- <-.
    eapply finishes_step; [cbn; by rewrite E1|done].
  - injection E as <- <-. eapply finishes_step; [done|done].
Qed.

Lemma finishes_bind {A B} n m i w (p : prog A) (f : A -> prog B) Q :
  finishes n i w p (fun w' r => match r with Ok a => finishes m i w' (f a) Q | Err e => Q w' (Err e) end) ->
  finishes (n + m) i w (p ≫= f) Q.
Proof.
  intros H3. apply finishes_then. eapply finishes_mono; [exact H3|lia|].
  intros w' [a|e]; [done|]. by apply finishes_done.
Qed.

(** *** With an executor that answers and a journal that records *)

Definition calls_of (evs : list event) : list exec_call :=
  omap (fun x => match x with Called c _ => Some c | Recorded _ => None end) evs.
Definition ready (n : nat) (w : world) : Prop :=
  j_wf (w_journal w) /\ j_room n (w_journal w) /\
  (N.of_nat (length (j_log (w_journal w)) + n) <= u64_max)%N.
Definition latest_of (w : world) (id : string) : option TransferPhaseEntry :=
  latest_in (j_log (w_journal w)) id.

Context (Htotal : forall p, is_ok (progress_cbor p) = true).
Context (now : N) (answer : exec_call -> bytes).
Local Notation i := (mkInput now None (fun c => Ok (answer c))).

Lemma run_journal n w t phase o p (Q : world -> result TransferCoordinatorError unit -> Prop) :
  ready (S n) w ->
  (forall w' e, ready n w' -> w_db w' = w_db w -> calls_of (w_events w') = calls_of (w_events w) ->
     latest_of w' (st_transfer_id t) = Some e -> pe_phase e = phase ->
     progress_in (Some e) = Some p -> Q w' (Ok tt)) ->
  finishes 1 i w (journal_send_phase progress_cbor t phase o (Some p)) Q.
Proof.
  intros (Hwf & Hroom & Hlen) HQ. unfold journal_send_phase.
  destruct (is_ok_inv _ (Htotal p)) as [b Hb]. rewrite Hb.
  set (e := phase_entry t phase o (Some b) now).
  destruct (record_room e n _ Hwf Hroom) as (j' & Hrec & Hroom').
  destruct (record_law _ _ _ _ _ Hwf ltac:(unfold countable_log; lia) Hrec) as [Hwf' Hlog].
  eapply finishes_step; [cbn; unfold e, phase_entry in Hrec; by rewrite Hrec|].
  apply finishes_done. cbn [is_ok]. apply (HQ _ e); cbn.
  - split; [done|]. split; [done|]. cbn. rewrite Hlog, length_app. cbn. lia.
  - done.
  - unfold calls_of. rewrite omap_app. cbn. apply app_nil_r.
  - unfold latest_of. cbn. rewrite Hlog, latest_in_snoc. by rewrite decide_True.
  - done.
  - unfold progress_in. cbn. by rewrite (Hcbor _ _ Hb).
Qed.

Lemma run_execute n w t phase p c (Q : world -> result TransferCoordinatorError bytes -> Prop) :
  ready n w ->
  (forall w', ready n w' -> w_db w' = w_db w ->
     calls_of (w_events w') = calls_of (w_events w) ++ [c] -> Q w' (Ok (answer c))) ->
  finishes 1 i w (execute_or_fail progress_cbor t phase p c) Q.
Proof.
  intros Hw HQ. unfold execute_or_fail. eapply finishes_step; [done|]. apply finishes_done.
  apply HQ; [done|done|]. cbn. unfold calls_of. by rewrite omap_app.
Qed.

Lemma ready_le n m w : n <= m -> ready m w -> ready n w.
Proof. intros Hn (H3 & H4 & H5). split; [done|]. split; [by eapply room_le|lia]. Qed.

(** What a step gives: what the progress says, or the executor's answer. *)
Definition outcome_of (done : option bytes) (c : exec_call) : bytes := default (answer c) done.
Definition call_for (done : option bytes) (c : exec_call) : list exec_call :=
  match done with Some _ => [] | None => [c] end.

Lemma run_assign n w t p (Q : world -> result TransferCoordinatorError (bytes * SendProgress) -> Prop) :
  ready (S (S n)) w ->
  (let a := outcome_of (sp_assignment p) (AssignSeal t) in
   forall w', ready n w' -> w_db w' = w_db w ->
     calls_of (w_events w') = calls_of (w_events w) ++ call_for (sp_assignment p) (AssignSeal t) ->
     Q w' (Ok (a, mkProgress (Some a) (sp_witness p) (sp_consignment p)))) ->
  finishes 3 i w (assign_step progress_cbor t p) Q.
Proof.
  intros Hw HQ. unfold assign_step. destruct p as [[a|] wi co]; cbn [sp_assignment sp_witness sp_consignment] in *; cbn in HQ.
  { apply finishes_done, HQ; [by eapply ready_le; [|exact Hw]; lia|done|by rewrite app_nil_r]. }
  apply (finishes_bind 1 2). eapply run_journal; [exact Hw|]. intros w1 e Hw1 Hdb1 Hc1 _ _ _.
  apply (finishes_bind 1 1). eapply run_execute; [exact Hw1|]. intros w2 Hw2 Hdb2 Hc2.
  apply (finishes_bind 1 0). eapply run_journal; [exact Hw2|]. intros w3 e' Hw3 Hdb3 Hc3 _ _ _.
  apply finishes_done, HQ; [done|congruence|congruence].
Qed.

Lemma run_emit n w t x p (Q : world -> result TransferCoordinatorError (bytes * SendProgress) -> Prop) :
  ready (S (S n)) w ->
  (let c := outcome_of (sp_consignment p) (EmitConsignment t x) in
   forall w', ready n w' -> w_db w' = w_db w ->
     calls_of (w_events w')
     = calls_of (w_events w) ++ call_for (sp_consignment p) (EmitConsignment t x) ->
     Q w' (Ok (c, mkProgress (sp_assignment p) (sp_witness p) (Some c)))) ->
  finishes 3 i w (emit_step progress_cbor t x p) Q.
Proof.
  intros Hw HQ. unfold emit_step. destruct p as [a wi [co|]]; cbn [sp_assignment sp_witness sp_consignment] in *; cbn in HQ.
  { apply finishes_done, HQ; [by eapply ready_le; [|exact Hw]; lia|done|by rewrite app_nil_r]. }
  apply (finishes_bind 1 2). eapply run_journal; [exact Hw|]. intros w1 e Hw1 Hdb1 Hc1 _ _ _.
  apply (finishes_bind 1 1). eapply run_execute; [exact Hw1|]. intros w2 Hw2 Hdb2 Hc2.
  apply (finishes_bind 1 0). eapply run_journal; [exact Hw2|]. intros w3 e' Hw3 Hdb3 Hc3 _ _ _.
  apply finishes_done, HQ; [done|congruence|congruence].
Qed.

(** The close: refused when the seal is reserved and nothing says by whom. *)
Definition refused (w : world) (t : SendTransfer) (prior : bool) (done : option bytes) : bool :=
  match done with
  | Some _ => false
  | None => bool_decide (is_Some (rs_state (w_db w) (nullifier t))) && negb prior
  end.

Lemma run_close n w t prior a p (Q : world -> result TransferCoordinatorError (bytes * SendProgress) -> Prop) :
  ready (S (S n)) w ->
  (let x := outcome_of (sp_witness p) (CloseSourceSeal t a) in
   if refused w t prior (sp_witness p)
   then forall w', calls_of (w_events w') = calls_of (w_events w) -> Q w' (Err DuplicateSourceSeal)
   else forall w', ready n w' ->
     calls_of (w_events w')
     = calls_of (w_events w) ++ call_for (sp_witness p) (CloseSourceSeal t a) ->
     Q w' (Ok (x, mkProgress (sp_assignment p) (Some x) (sp_consignment p)))) ->
  finishes 4 i w (close_step sha256 progress_cbor t prior a p) Q.
Proof.
  intros Hw HQ. unfold close_step. destruct p as [as_ [x|] co]; cbn [sp_assignment sp_witness sp_consignment] in *; cbn in HQ.
  { apply finishes_done, HQ; [by eapply ready_le; [|exact Hw]; lia|by rewrite app_nil_r]. }
  pose proof (rs_insert_spec (nullifier t) (w_db w)) as Hi. apply (finishes_bind 1 3).
  unfold reserve_source_seal.
  assert (Hgo : forall w0, ready (S (S n)) w0 -> calls_of (w_events w0) = calls_of (w_events w) ->
    (forall w', ready n w' -> calls_of (w_events w') = calls_of (w_events w) ++ [CloseSourceSeal t a] ->
       Q w' (Ok (outcome_of None (CloseSourceSeal t a),
                 mkProgress as_ (Some (outcome_of None (CloseSourceSeal t a))) co))) ->
    finishes 3 i w0
      (_ ← journal_send_phase progress_cbor t SSourceSealClosed Entered (Some (mkProgress as_ None co));
       w ← execute_or_fail progress_cbor t SSourceSealClosed (mkProgress as_ None co) (CloseSourceSeal t a);
       _ ← journal_send_phase progress_cbor t SSourceSealClosed PhaseCompleted
             (Some (mkProgress as_ (Some w) co));
       Done (Ok (w, mkProgress as_ (Some w) co))) Q).
  { intros w0 Hw0 Hc0 HQ0. apply (finishes_bind 1 2). eapply run_journal; [exact Hw0|].
    intros w1 e Hw1 _ Hc1 _ _ _. apply (finishes_bind 1 1). eapply run_execute; [exact Hw1|].
    intros w2 Hw2 _ Hc2. apply (finishes_bind 1 0). eapply run_journal; [exact Hw2|].
    intros w3 e' Hw3 _ Hc3 _ _ _. apply finishes_done, HQ0; [done|congruence]. }
  destruct (rs_state (w_db w) (nullifier t)) as [st|] eqn:Est.
  - rewrite bool_decide_true in HQ by by eexists. cbn in HQ.
    eapply finishes_step; [cbn; by rewrite Hi|].
    destruct prior; cbn in HQ; apply finishes_done; [apply Hgo; [exact Hw|done|exact HQ]|by apply HQ].
  - rewrite bool_decide_false in HQ by (by intros [? ?]). cbn in HQ.
    destruct Hi as (d' & Hi & _). eapply finishes_step; [cbn; by rewrite Hi|].
    apply finishes_done, Hgo; [exact Hw|done|exact HQ].
Qed.

(** What a transfer ends with, and the calls it still needs. *)
Definition planned (t : SendTransfer) (p : SendProgress) : bytes * bytes * bytes :=
  let a := outcome_of (sp_assignment p) (AssignSeal t) in
  let x := outcome_of (sp_witness p) (CloseSourceSeal t a) in
  (a, x, outcome_of (sp_consignment p) (EmitConsignment t x)).
Definition planned_calls (t : SendTransfer) (p : SendProgress) : list exec_call :=
  let '(a, x, _) := planned t p in
  call_for (sp_assignment p) (AssignSeal t) ++ call_for (sp_witness p) (CloseSourceSeal t a) ++
  call_for (sp_consignment p) (EmitConsignment t x).

(** How a resumed transfer ends. *)
Definition send_ends (n : nat) (t : SendTransfer) (p : SendProgress) (w w' : world)
    (r : result TransferCoordinatorError SendReceipt) : Prop :=
  let '(a, x, c) := planned t p in
  if refused w t (says_closed (latest_of w (st_transfer_id t))) (sp_witness p)
  then r = Err DuplicateSourceSeal /\
       calls_of (w_events w') = calls_of (w_events w) ++ call_for (sp_assignment p) (AssignSeal t)
  else r = Ok (mkReceipt (st_transfer_id t) c x) /\ ready n w' /\
       calls_of (w_events w') = calls_of (w_events w) ++ planned_calls t p /\
       exists e, latest_of w' (st_transfer_id t) = Some e /\ pe_phase e = SCompleted /\
                 progress_in (Some e) = Some (mkProgress (Some a) (Some x) (Some c)).

Lemma run_drive n w t p :
  ready (7 + n) w ->
  finishes 12 i w (drive_send sha256 progress_cbor t p) (send_ends n t p w).
Proof.
  intros Hw. unfold drive_send. apply (finishes_bind 1 11). unfold latest_phase.
  eapply finishes_step; [done|]. cbn [w_journal].
  destruct w as [j d ev]. rewrite (latest_entry_law _ _ (proj1 Hw)). apply finishes_done.
  set (w := mkWorld j d ev) in *. set (prior := says_closed (latest_of w (st_transfer_id t))).
  cbv beta iota zeta.
  change (bool_decide _) with prior. apply (finishes_bind 3 8).
  apply (run_assign (5 + n)); [exact Hw|]. intros a w1 Hw1 Hdb1 Hc1.
  apply (finishes_bind 4 4). apply (run_close (3 + n)); [exact Hw1|]. intros x. cbn [sp_witness sp_assignment sp_consignment] in *.
  unfold send_ends, planned. fold a. fold x. fold prior.
  replace (refused w1 t prior (sp_witness p)) with (refused w t prior (sp_witness p))
    by (unfold refused; by rewrite Hdb1).
  destruct (refused w t prior (sp_witness p)).
  { intros w2 Hc2. split; [done|]. by rewrite Hc2, Hc1. }
  intros w2 Hw2 Hc2. apply (finishes_bind 3 1). apply (run_emit (1 + n)); [exact Hw2|].
  intros c. cbn [sp_witness sp_assignment sp_consignment] in *. intros w3 Hw3 _ Hc3.
  apply (finishes_bind 1 0). eapply run_journal; [exact Hw3|]. intros w4 e Hw4 _ Hc4 Hl Hp Hpr.
  apply finishes_done. split; [done|]. split; [done|]. split; [|by exists e].
  unfold planned_calls, planned. fold a. fold x. by rewrite Hc4, Hc3, Hc2, Hc1, <- !app_assoc.
Qed.

Lemma run_resume n w t p :
  ready (7 + n) w -> send_phase (latest_of w (st_transfer_id t)) = true ->
  progress_in (latest_of w (st_transfer_id t)) = Some p ->
  finishes 14 i w (resume_send sha256 progress_cbor progress_of_cbor t) (send_ends n t p w).
Proof.
  intros Hw Hphase Hp. unfold resume_send. apply (finishes_bind 1 13). unfold latest_phase at 1.
  eapply finishes_step; [done|]. destruct w as [j d ev]. cbn [w_journal].
  rewrite (latest_entry_law _ _ (proj1 Hw)). apply finishes_done.
  set (w := mkWorld j d ev) in *. change (latest_in (j_log j) (st_transfer_id t)) with (latest_of w (st_transfer_id t)) in *.
  assert (Hgo : finishes 13 i w
    (p ← load_send_progress progress_of_cbor (st_transfer_id t); drive_send sha256 progress_cbor t p)
    (send_ends n t p w)).
  { apply (finishes_bind 1 12). unfold load_send_progress. eapply finishes_step; [done|].
    subst w. cbn [w_journal]. rewrite (latest_entry_law _ _ (proj1 Hw)).
    unfold latest_of, progress_in in Hp. cbn [w_journal] in Hp |- *.
    destruct (latest_in (j_log j) (st_transfer_id t) ≫= pe_proof_payload) as [b|].
    - destruct (progress_of_cbor b) as [q|]; [|done]. injection Hp as ->. apply finishes_done.
      by apply run_drive.
    - injection Hp as <-. apply finishes_done. by apply run_drive. }
  fold (latest_of w (st_transfer_id t)).
  destruct (latest_of w (st_transfer_id t)) as [e|]; cbn [option_map]; [|exact Hgo].
  cbn [send_phase] in Hphase. apply negb_true_iff in Hphase as ->. exact Hgo.
Qed.

(** A seal that the executor was asked to close is never refused to its transfer. *)
Lemma closed_not_refused w t p :
  crash_ok w -> closed_by (st_transfer_id t) (w_events w) = true ->
  progress_in (latest_of w (st_transfer_id t)) = Some p ->
  refused w t (says_closed (latest_of w (st_transfer_id t))) (sp_witness p) = false.
Proof.
  intros Hw Hc Hp. destruct (co_track _ Hw (st_transfer_id t)) as (q & Hq & _).
  pose proof (ot_progress _ _ Hq) as Hpq. unfold ghost in Hpq. cbn [snd] in Hpq.
  unfold latest_of in *. rewrite Hp in Hpq. injection Hpq as ->.
  unfold refused. destruct (ot_closed _ _ Hq Hc) as [Hs|[x Hx]]; [|by rewrite Hx].
  unfold ghost in Hs. cbn [snd] in Hs. rewrite Hs. cbn. rewrite andb_false_r. by destruct (sp_witness q).
Qed.

Lemma closed_by_call t a r evs :
  Called (CloseSourceSeal t a) r ∈ evs -> closed_by (st_transfer_id t) evs = true.
Proof.
  intros Hin. apply existsb_exists. exists (Called (CloseSourceSeal t a) r).
  split; [by apply list_elem_of_In|]. cbn. by apply bool_decide_eq_true.
Qed.
End Recovery.

(** ** Theorems *)

(** C16: What is journaled as done is not done again.  With one call at a time for each
    transfer, from an empty journal, whatever crashes and fails: after an entry whose
    progress has the assignment, the witness or the consignment, the executor is not
    asked for it again for that transfer, and every later entry of the transfer carries
    the same one. *)
Theorem send_steps_not_repeated {J D : Type} `{JournalLaws J} `{ReplayStoreLaws D}
    (sha256 : bytes -> Bytes32) (progress_cbor : SendProgress -> result string bytes)
    (progress_of_cbor : bytes -> result string SendProgress) (j : J) (d : D)
    (acts : list (action D)) (m n : nat) (e : TransferPhaseEntry) (x : event) (p : SendProgress)
    (Hcbor : forall p b, progress_cbor p = Ok b -> progress_of_cbor b = Ok p)
    (Hj : j_wf j) (Hl : j_log j = []) (Hn : (N.of_nat (length acts) <= u64_max)%N)
    (Hone : one_at_a_time sha256 progress_cbor progress_of_cbor (initially j d) acts) :
  let evs := w_events (run_system sha256 progress_cbor progress_of_cbor (initially j d) acts).1 in
  evs !! m = Some (Recorded e) -> evs !! n = Some x -> m < n ->
  progress_in progress_of_cbor (Some e) = Some p ->
  match x with
  | Called (AssignSeal t) _ => st_transfer_id t = pe_transfer_id e -> sp_assignment p = None
  | Called (CloseSourceSeal t _) _ => st_transfer_id t = pe_transfer_id e -> sp_witness p = None
  | Called (EmitConsignment t _) _ => st_transfer_id t = pe_transfer_id e -> sp_consignment p = None
  | Recorded e' => pe_transfer_id e' = pe_transfer_id e ->
      exists p', progress_in progress_of_cbor (Some e') = Some p' /\ grows p p'
  end.
Proof.
  intros evs Hm Hx Hmn Hp.
  destruct (initially_crash progress_of_cbor j d Hj Hl) as [Hw Hc].
  destruct (run_crash sha256 progress_cbor progress_of_cbor Hcbor acts (initially j d)) as [Hw' _];
    [cbn; rewrite Hl; cbn; lia|done|done|done|].
  exact (co_settled _ _ Hw' m n e x Hm Hx Hmn p Hp).
Qed.

(** A begun close can always be completed.  With one call at a time for each transfer,
    from an empty journal, whatever has crashed and failed: once the executor was asked
    to close a transfer's seal, resuming the transfer with a working journal and
    executor returns its receipt within fourteen accesses. *)
Theorem send_close_completes {J D : Type} `{JournalLaws J} `{ReplayStoreLaws D}
    (sha256 : bytes -> Bytes32) (progress_cbor : SendProgress -> result string bytes)
    (progress_of_cbor : bytes -> result string SendProgress) (j : J) (d : D)
    (acts : list (action D)) (t t0 : SendTransfer) (a : bytes)
    (r : result SendExecutorError bytes) (now : N) (answer : exec_call -> bytes)
    (Hcbor : forall p b, progress_cbor p = Ok b -> progress_of_cbor b = Ok p)
    (Htotal : forall p, is_ok (progress_cbor p) = true)
    (Hj : j_wf j) (Hl : j_log j = []) (Hn : (N.of_nat (length acts) <= u64_max)%N)
    (Hone : one_at_a_time sha256 progress_cbor progress_of_cbor (initially j d) acts) :
  let w := (run_system sha256 progress_cbor progress_of_cbor (initially j d) acts).1 in
  Called (CloseSourceSeal t0 a) r ∈ w_events w -> st_transfer_id t = st_transfer_id t0 ->
  ready 7 w ->
  exists w' receipt,
    run_prog (repeat (mkInput now None (fun c => Ok (answer c))) 14)
      (w, resume_send sha256 progress_cbor progress_of_cbor t) = (w', Done (Ok receipt)) /\
    sr_transfer_id receipt = st_transfer_id t.
Proof.
  intros w Hcall Hid Hready.
  destruct (initially_crash progress_of_cbor j d Hj Hl) as [Hw Hc].
  destruct (run_crash sha256 progress_cbor progress_of_cbor Hcbor acts (initially j d)) as [Hw' _];
    [cbn; rewrite Hl; cbn; lia|done|done|done|]. fold w in Hw'.
  destruct (co_track _ _ Hw' (st_transfer_id t)) as (p & Hp & _).
  pose proof (ot_progress _ _ _ Hp) as Hprog. pose proof (ot_phase _ _ _ Hp) as Hphase.
  destruct (finishes_run _ _ _ _ _ (run_resume sha256 progress_cbor progress_of_cbor Hcbor Htotal now
              answer 0 w t p Hready Hphase Hprog)) as (w' & res & Hrun & Hend).
  exists w'. unfold send_ends in Hend. destruct (planned answer t p) as [[a' x] c].
  rewrite (closed_not_refused sha256 progress_of_cbor w t p Hw') in Hend;
    [|rewrite Hid; by eapply closed_by_call|done].
  destruct Hend as (-> & _). eexists. by split.
Qed.

(** Resuming a send, exactly.  On a transfer whose latest entry is not of the
    materialize mode and carries a progress, a resume that meets a working journal and
    executor asks for exactly what the progress does not have and returns the receipt,
    after which resuming again asks for nothing and returns the same receipt; unless
    the close is still to do, the seal's identifier is taken and the latest entry is
    not about the close, when it is refused as a duplicate and the seal left alone. *)
Theorem resume_send_exact {J D : Type} `{JournalLaws J} `{ReplayStoreLaws D}
    (sha256 : bytes -> Bytes32) (progress_cbor : SendProgress -> result string bytes)
    (progress_of_cbor : bytes -> result string SendProgress) (w : world J D)
    (t : SendTransfer) (p : SendProgress) (now : N) (answer : exec_call -> bytes)
    (Hcbor : forall p b, progress_cbor p = Ok b -> progress_of_cbor b = Ok p)
    (Htotal : forall p, is_ok (progress_cbor p) = true)
    (Hready : ready 14 w) (Hphase : send_phase (latest_of w (st_transfer_id t)) = true)
    (Hp : progress_in progress_of_cbor (latest_of w (st_transfer_id t)) = Some p) :
  let i := mkInput now None (fun c => Ok (answer c)) in
  let resume := resume_send sha256 progress_cbor progress_of_cbor t in
  let assignment := default (answer (AssignSeal t)) (sp_assignment p) in
  let witness := default (answer (CloseSourceSeal t assignment)) (sp_witness p) in
  let consignment := default (answer (EmitConsignment t witness)) (sp_consignment p) in
  let receipt := mkReceipt (st_transfer_id t) consignment witness in
  exists w' r, run_prog (repeat i 14) (w, resume) = (w', Done r) /\
  if bool_decide (sp_witness p = None) &&
     bool_decide (is_Some (rs_state (w_db w) (source_seal_nullifier sha256 t))) &&
     negb (says_closed (latest_of w (st_transfer_id t)))
  then r = Err DuplicateSourceSeal /\
       calls_of (w_events w') = calls_of (w_events w) ++ call_for (sp_assignment p) (AssignSeal t)
  else r = Ok receipt /\
       calls_of (w_events w') = calls_of (w_events w) ++
         call_for (sp_assignment p) (AssignSeal t) ++
         call_for (sp_witness p) (CloseSourceSeal t assignment) ++
         call_for (sp_consignment p) (EmitConsignment t witness) /\
       exists w2, run_prog (repeat i 14) (w', resume) = (w2, Done (Ok receipt)) /\
                  calls_of (w_events w2) = calls_of (w_events w').
Proof.
  intros i resume assignment witness consignment receipt.
  destruct (finishes_run _ _ _ _ _ (run_resume sha256 progress_cbor progress_of_cbor Hcbor Htotal now
              answer 7 w t p Hready Hphase Hp)) as (w' & r & Hrun & Hend).
  exists w', r. split; [exact Hrun|]. unfold send_ends, planned_calls, planned, outcome_of in Hend.
  fold assignment in Hend. fold witness in Hend. fold consignment in Hend. unfold refused in Hend.
  destruct (sp_witness p) as [x|] eqn:Ex; cbn [bool_decide andb] in *;
    [rewrite bool_decide_false by done|rewrite bool_decide_true by done]; cbn [andb];
    [|case_match; [done|]].
  all: destruct Hend as (Hr & Hready' & Hcalls & e & He & Hph & Hpe); split; [done|]; split; [done|].
  all: assert (Hphase' : send_phase (latest_of w' (st_transfer_id t)) = true)
         by (rewrite He; cbn; by rewrite Hph).
  all: pose proof Hpe as Hpe'; rewrite <- He in Hpe'.
  all: destruct (finishes_run _ _ _ _ _ (run_resume sha256 progress_cbor progress_of_cbor Hcbor Htotal
         now answer 0 w' t _ Hready' Hphase' Hpe')) as (w2 & r2 & Hrun2 & Hend2).
  all: exists w2; unfold send_ends, planned_calls, planned, outcome_of in Hend2; cbn in Hend2.
  all: destruct Hend2 as (-> & _ & Hcalls2 & _); split; [exact Hrun2|]; by rewrite Hcalls2, app_nil_r.
Qed.

(** ** Witnesses *)

(** [one_at_a_time], as a check. *)
Definition allowed_check {J D} (s : system J D) (a : action D) : bool :=
  match a with
  | Step k _ =>
      match s.2 !! k with
      | Some (t, _) => forallb (fun x => negb (bool_decide (st_transfer_id x.1 = st_transfer_id t)))
                         (drop (S k) s.2)
      | None => true
      end
  | _ => true
  end.
Fixpoint one_at_a_time_check {J D} `{Journal J} `{ReplayStore D} sha256 cbor of_cbor
    (s : system J D) (acts : list (action D)) : bool :=
  match acts with
  | [] => true
  | a :: acts' => allowed_check s a &&
                  one_at_a_time_check sha256 cbor of_cbor (act sha256 cbor of_cbor s a) acts'
  end.

Lemma allowed_check_ok {J D} (s : system J D) a : allowed_check s a = true -> allowed s a.
Proof.
  destruct a as [c|k i|f]; cbn; try done. intros Hc k' t p t' p' Hk Hk' Hid. rewrite Hk in Hc.
  destruct (decide (k' <= k)) as [?|Hgt]; [done|]. exfalso. rewrite forallb_forall in Hc.
  assert (Hin : (t', p') ∈ drop (S k) s.2).
  { apply (list_elem_of_lookup_2 _ (k' - S k)). rewrite lookup_drop. by replace (S k + (k' - S k)) with k' by lia. }
  apply list_elem_of_In, Hc in Hin. cbn in Hin. by rewrite bool_decide_true in Hin.
Qed.

Lemma one_at_a_time_check_ok {J D} `{Journal J} `{ReplayStore D} sha256 cbor of_cbor
    (s : system J D) (acts : list (action D)) :
  one_at_a_time_check sha256 cbor of_cbor s acts = true -> one_at_a_time sha256 cbor of_cbor s acts.
Proof.
  revert s. induction acts as [|a acts IH]; intros s Hc; [done|].
  cbn in Hc. apply andb_true_iff in Hc as [Ha Hc]. split; [by apply allowed_check_ok|by apply IH].
Qed.

(** A call that closes the seal and crashes before it records that, and its resumption. *)
Definition demo_initial : system InMemoryJournal entries :=
  initially (InMemoryJournal_new 100) (∅ : entries).
Definition demo_crashed : list (action entries) :=
  Start (ExecuteSend (demo_send "x" Byte.x01)) ::
  repeat (Step 0 demo_input) 10.
Definition demo_resumed : list (action entries) :=
  demo_crashed ++ Start (ResumeSend (demo_send "x" Byte.x01)) :: repeat (Step 1 demo_input) 14.
Lemma demo_one acts : one_at_a_time_check toy_hash demo_progress_cbor demo_progress_of_cbor
    demo_initial acts = true ->
  one_at_a_time toy_hash demo_progress_cbor demo_progress_of_cbor demo_initial acts.
Proof. apply one_at_a_time_check_ok. Qed.
Notation demo_final acts :=
  (run_system toy_hash demo_progress_cbor demo_progress_of_cbor demo_initial acts).

(** After the resumed call has journaled the close as done, the consignment is asked for
    and the close is not. *)
Lemma send_steps_not_repeated_witness :
  exists m n e, let evs := w_events (demo_final demo_resumed).1 in
  evs !! m = Some (Recorded e) /\ m < n /\
  evs !! n = Some (Called (EmitConsignment (demo_send "x" Byte.x01) [Byte.x0b; Byte.x0a])
                     (Ok [Byte.x0c; Byte.x0b; Byte.x0a])) /\
  progress_in demo_progress_of_cbor (Some e)
  = Some (mkProgress (Some [Byte.x0a]) (Some [Byte.x0b; Byte.x0a]) None) /\
  (st_transfer_id (demo_send "x" Byte.x01) = pe_transfer_id e -> @None bytes = None).
Proof.
  exists 9, 11. eexists. cbn zeta. split; [vm_compute; reflexivity|]. split; [lia|].
  split; [vm_compute; reflexivity|]. split; [vm_compute; reflexivity|].
  exact (send_steps_not_repeated toy_hash demo_progress_cbor demo_progress_of_cbor
    (InMemoryJournal_new 100) (∅ : entries) demo_resumed 9 11 _ _
    (mkProgress (Some [Byte.x0a]) (Some [Byte.x0b; Byte.x0a]) None)
    demo_progress_law I eq_refl ltac:(by vm_compute)
    (demo_one demo_resumed ltac:(vm_compute; reflexivity))
    ltac:(vm_compute; reflexivity) ltac:(vm_compute; reflexivity) ltac:(lia)
    ltac:(vm_compute; reflexivity)).
Defined.

(** The crashed call asked for the close: resuming it gives the receipt. *)
Lemma send_close_completes_witness :
  let w := (demo_final demo_crashed).1 in
  exists w' receipt,
    run_prog (repeat demo_input 14)
      (w, resume_send toy_hash demo_progress_cbor demo_progress_of_cbor (demo_send "x" Byte.x01))
    = (w', Done (Ok receipt)) /\ sr_transfer_id receipt = "x"%string.
Proof.
  apply (send_close_completes toy_hash demo_progress_cbor demo_progress_of_cbor
    (InMemoryJournal_new 100) (∅ : entries) demo_crashed (demo_send "x" Byte.x01)
    (demo_send "x" Byte.x01) [Byte.x0a] (Ok [Byte.x0b; Byte.x0a]) 7 demo_answer).
  - exact demo_progress_law.
  - done.
  - done.
  - reflexivity.
  - by vm_compute.
  - apply demo_one. vm_compute. reflexivity.
  - apply list_elem_of_In. vm_compute. tauto.
  - reflexivity.
  - split; [done|]. split; vm_compute; [|discriminate]. lia.
Defined.

(** Resuming on a database where another transfer has reserved the seal: refused. *)
Lemma resume_send_exact_witness :
  let w := mkWorld (InMemoryJournal_new 100)
             {[source_seal_nullifier toy_hash (demo_send "x" Byte.x01) := Pending]} [] in
  exists w' r,
    run_prog (repeat demo_input 14)
      (w, resume_send toy_hash demo_progress_cbor demo_progress_of_cbor (demo_send "x" Byte.x01))
    = (w', Done r) /\
    r = Err DuplicateSourceSeal /\ calls_of (w_events w') = [AssignSeal (demo_send "x" Byte.x01)].
Proof.
  set (w := mkWorld _ _ _).
  assert (Hr : ready 14 w) by (split; [done|]; split; vm_compute; [lia|discriminate]).
  destruct (resume_send_exact toy_hash demo_progress_cbor demo_progress_of_cbor w
    (demo_send "x" Byte.x01) no_progress 7 demo_answer demo_progress_law ltac:(done) Hr
    eq_refl eq_refl) as (w' & r & Hrun & Hres).
  exists w', r. split; [exact Hrun|].
  assert (Hs : is_Some (rs_state (w_db w) (source_seal_nullifier toy_hash (demo_send "x" Byte.x01)))).
  { exists Pending. exact (lookup_singleton_eq (source_seal_nullifier toy_hash (demo_send "x" Byte.x01)) Pending). }
  rewrite (bool_decide_true _ Hs) in Hres. exact Hres.
Defined.
