(* ===== verification/Sanad.v ===== *)
(** * Owner addresses (csv-keys/src/bip44.rs)

    The address of a public key on each chain, as an ownership proof recomputes it.
    Curve arithmetic, the chain hashes and base-58 are third-party crates and
    parameters; a key is its serialized form. *)

From S2P Require Import Prelude Bytes Text Ord Hashing Dag DagCodec Codec Seal ProofTaxonomy Signature Commitment.

Inductive Bip44Error :=
| InvalidPath (m : string)
| InvalidSeedLength (n : nat)
| UnsupportedChain (chain : string)
| DerivationFailed (m : string).

Inductive Network := Mainnet | Testnet | Testnet4 | Signet | Regtest.

Record KeyCrates := mkKeyCrates {
  xonly_lift : bytes -> result string bytes;   (* XOnlyPublicKey::from_slice with even parity *)
  point_parse : bytes -> result string bytes;  (* secp256k1 PublicKey::from_slice *)
  uncompressed : bytes -> bytes;               (* serialize_uncompressed, 65 bytes *)
  p2tr : bytes -> bool -> string;              (* Address::p2tr of the x-only key; main prefix? *)
  ed_point : bytes -> result string bytes;     (* ed25519 VerifyingKey::from_bytes *)
  ka_keccak256 : bytes -> Bytes32;
  ka_blake2b : bytes -> Bytes32;
  ka_sha3_256 : bytes -> Bytes32;
  bs58 : bytes -> string
}.

Section Derive.
Variable k : KeyCrates.
Local Notation failed f := (map_err (fun e => DerivationFailed (f e))).

(** [secp256k1_pubkey_from_bytes] *)
Definition secp256k1_pubkey_from_bytes (pubkey : bytes) : result Bip44Error bytes :=
  if length pubkey =? 32
  then failed (fun e => "Invalid x-only secp256k1 public key: " +:+ e) (xonly_lift k pubkey)
  else failed (fun e => "Invalid secp256k1 public key: " +:+ e) (point_parse k pubkey).

(** [ed25519_verifying_key_from_bytes] *)
Definition ed25519_verifying_key_from_bytes (pubkey : bytes) : result Bip44Error bytes :=
  reject negb (length pubkey =? 32) with
    DerivationFailed ("Invalid Ed25519 public key length: " +:+ show_nat (length pubkey) +:+
                      " (expected 32)") ;;
  failed (fun e => "Invalid Ed25519 public key: " +:+ e) (ed_point k pubkey).

(** [format!("0x{}", hex::encode(..))] *)
Definition hex_address (b : bytes) : string := "0x" +:+ of_bytes (hex_encode b).

Definition derive_bitcoin_address_from_pubkey (pubkey : bytes) (network : Network)
  : result Bip44Error string :=
  pk ← secp256k1_pubkey_from_bytes pubkey;
  Ok (p2tr k pk (match network with Mainnet => true | _ => false end)).
Definition derive_ethereum_address_from_pubkey (pubkey : bytes) : result Bip44Error string :=
  pk ← secp256k1_pubkey_from_bytes pubkey;
  Ok (hex_address (drop 12 (b32 (ka_keccak256 k (drop 1 (uncompressed k pk)))))).
Definition derive_sui_address_from_pubkey (pubkey : bytes) : result Bip44Error string :=
  pk ← ed25519_verifying_key_from_bytes pubkey;
  Ok (hex_address (b32 (ka_blake2b k (Byte.x00 :: pk)))).
Definition derive_aptos_address_from_pubkey (pubkey : bytes) : result Bip44Error string :=
  pk ← ed25519_verifying_key_from_bytes pubkey;
  Ok (hex_address (b32 (ka_sha3_256 k (pk ++ [Byte.x00])))).
Definition derive_solana_address_from_pubkey (pubkey : bytes) : result Bip44Error string :=
  pk ← ed25519_verifying_key_from_bytes pubkey; Ok (bs58 k pk).

(** [derive_address_from_pubkey_with_network] *)
Definition derive_address_from_pubkey_with_network (pubkey : bytes) (chain : string)
    (network : Network) : result Bip44Error string :=
  if bool_decide (chain = "bitcoin"%string) then derive_bitcoin_address_from_pubkey pubkey network
  else if bool_decide (chain = "ethereum"%string) then derive_ethereum_address_from_pubkey pubkey
  else if bool_decide (chain = "sui"%string) then derive_sui_address_from_pubkey pubkey
  else if bool_decide (chain = "aptos"%string) then derive_aptos_address_from_pubkey pubkey
  else if bool_decide (chain = "solana"%string) then derive_solana_address_from_pubkey pubkey
  else Err (UnsupportedChain chain).

(** [derive_address_from_pubkey] *)
Definition derive_address_from_pubkey (pubkey : bytes) (chain : string) : result Bip44Error string :=
  derive_address_from_pubkey_with_network pubkey chain Testnet.
End Derive.

(** ** Lemmas *)

(** What the secp256k1 crate documents: points come in 33 or 65 bytes. *)
Definition point_sizes (k : KeyCrates) : Prop :=
  forall b p, point_parse k b = Ok p -> length b = 33 \/ length b = 65.

(** Every key that has an address on some chain has one of three lengths. *)
Lemma derive_address_sizes k pubkey chain a :
  point_sizes k -> derive_address_from_pubkey k pubkey chain = Ok a ->
  length pubkey = 32 \/ length pubkey = 33 \/ length pubkey = 65.
Proof.
  intros Hp. unfold derive_address_from_pubkey, derive_address_from_pubkey_with_network.
  assert (Hsecp : forall p, secp256k1_pubkey_from_bytes k pubkey = Ok p ->
            length pubkey = 32 \/ length pubkey = 33 \/ length pubkey = 65).
  { intros p. unfold secp256k1_pubkey_from_bytes. destruct (Nat.eqb_spec (length pubkey) 32); [auto|].
    intros [?|?]%map_err_ok%Hp; auto. }
  assert (Hed : forall p, ed25519_verifying_key_from_bytes k pubkey = Ok p -> length pubkey = 32).
  { intros p [H _]%guard_err_ok. clear Hsecp. by apply negb_false_iff, Nat.eqb_eq in H. }
  repeat case_bool_decide; intros Ha; try done; apply bind_ok in Ha as (p & Hk & _); eauto.
Qed.

(** * Sanads (csv-protocol/src/sanad.rs, csv-hash/src/sanad.rs)

    A Sanad ties a payload descriptor to a commitment and an owner.  Descriptors,
    ownership proofs, Sanads and their envelopes with their canonical encodings, the
    derivation of identifiers, and the verification of an ownership proof.  The digests
    inside are kept as hexadecimal strings, so encoding is partial. *)

(** ** Identifiers (csv-hash/src/sanad.rs) *)

Definition DOMAIN_SANAD_ID_V1 : string := "urn:lnp-bp:csv:csv.sanad.id.v1".
Definition DOMAIN_SANAD_ID_V2 : string := "urn:lnp-bp:csv:csv.sanad.id.v2".

Record SanadIdPreimage := mkPreimage {
  pi_descriptor_hash : Bytes32; pi_commitment : Bytes32; pi_salt : bytes }.
Record SanadIdPreimageV2 := mkPreimageV2 {
  p2_descriptor_hash : Bytes32; p2_commitment : Bytes32; p2_salt : bytes;
  p2_owner_commitment : Bytes32 }.

Inductive ParseSanadIdError := InvalidHex | InvalidLength (expected actual : nat).

Section Identifiers.
Variable sha256 : bytes -> Bytes32.

Definition preimage_bytes (p : SanadIdPreimage) : bytes :=
  b32 (pi_descriptor_hash p) ++ b32 (pi_commitment p) ++ pi_salt p.
Definition preimage_v2_new (descriptor_hash commitment : Bytes32) (salt owner : bytes)
  : SanadIdPreimageV2 :=
  mkPreimageV2 descriptor_hash commitment salt (hash_sha256 sha256 owner).
Definition preimage_v2_bytes (p : SanadIdPreimageV2) : bytes :=
  b32 (p2_descriptor_hash p) ++ b32 (p2_commitment p) ++ b32 (p2_owner_commitment p) ++ p2_salt p.

(** [from_domain_canonical], [from_domain_canonical_v2] *)
Definition sanad_id_v1 (p : SanadIdPreimage) : Hash :=
  tagged_hash_str sha256 (as_bytes DOMAIN_SANAD_ID_V1) (preimage_bytes p).
Definition sanad_id_v2 (p : SanadIdPreimageV2) : Hash :=
  tagged_hash_str sha256 (as_bytes DOMAIN_SANAD_ID_V2) (preimage_v2_bytes p).

(** [from_descriptor_commitment_salt], [from_descriptor_commitment_owner] *)
Definition from_descriptor_commitment_salt (descriptor_hash commitment : Hash) (salt : bytes) : Hash :=
  sanad_id_v1 (mkPreimage descriptor_hash commitment salt).
Definition from_descriptor_commitment_owner (descriptor_hash commitment : Hash)
    (salt owner : bytes) : Hash :=
  sanad_id_v2 (preimage_v2_new descriptor_hash commitment salt owner).

(** [SanadId::from_bytes]: 32 bytes as they are, anything else hashed. *)
Definition sanad_id_from_bytes (b : bytes) : Hash :=
  match to_b32 b with Some h => h | None => hash_sha256 sha256 b end.
End Identifiers.

(** [SanadId::parse_hex], of text without surrounding white space: the program trims it
    first.  The hex crate's message is not part of the model. *)
Definition parse_hex_trimmed (trimmed : bytes) : result ParseSanadIdError Hash :=
  let hex := match trimmed with Byte.x30 :: Byte.x78 :: r => r | _ => trimmed end in
  reject negb (length hex =? 64) with InvalidLength 64 (length hex) ;;
  b ← ok_or InvalidHex (hex_decode hex);
  ok_or (InvalidLength 32 (length b)) (to_b32 b).

(** ** Fields *)

(** [hash_field], [optional_hash_field], [sanad_id_field] *)
Definition hash_field (wire : HashWire) (field : string) : result CodecError Hash :=
  map_err (fun e => SerializationError ("Invalid `" +:+ field +:+ "` hash field: " +:+ e))
    (wire_to_hash wire).
Definition optional_hash_field (wire : option HashWire) (field : string)
  : result CodecError (option bytes) :=
  match wire with
  | Some w => h ← hash_field w field; Ok (Some (b32 h))
  | None => Ok None
  end.
Definition sanad_id_field (wire : SanadIdWire) (field : string) : result CodecError Hash :=
  map_err (fun e => SerializationError ("Invalid `" +:+ field +:+ "` sanad id field: " +:+ e))
    (wire_to_sanad_id wire).

(** A hash, as its wire. *)
Definition read_hash_wire (name : string) (b : bytes) : result CodecError (HashWire * bytes) :=
  '(h, rest) ← read_b32 (DeserializationError ("Insufficient bytes for " +:+ name)) b;
  Ok (wire_of_hash h, rest).

(** An optional hash: bytes of any other length than 32 become the zero hash. *)
Definition read_option_hash (b : bytes) : result CodecError (option HashWire * bytes) :=
  '(o, rest) ← decode_option_bytes b;
  Ok (option_map (fun x => wire_of_hash (default zero32 (to_b32 x))) o, rest).

(** [schema_id]: a length, the bytes, and UTF-8. *)
Definition read_schema_id (b : bytes) : result CodecError (string * bytes) :=
  '(raw, rest) ← decode_sized "Insufficient bytes for schema_id" b;
  s ← map_err (fun e => DeserializationError ("Invalid UTF-8 for schema_id: " +:+ utf8_error_message e))
        (from_utf8 raw);
  Ok (s, rest).

(** ** Descriptors *)

Record SanadPayloadDescriptor := mkDescriptor {
  sd_schema_id : string;
  sd_schema_hash : HashWire;
  sd_payload_codec : byte;
  sd_payload_hash : HashWire;
  sd_content_root : option HashWire;
  sd_attachment_root : option HashWire;
  sd_claims_root : option HashWire;
  sd_participants_root : option HashWire;
  sd_disclosure_policy_hash : HashWire;
  sd_proof_policy_hash : HashWire;
  sd_resource_limits_hash : HashWire
}.

(** [SanadPayloadDescriptor::new] *)
Definition descriptor_new (schema_id : string) (schema_hash : Hash) (payload_codec : byte)
    (payload_hash : Hash) (content_root : option Hash) (disclosure proof_policy : Hash)
  : SanadPayloadDescriptor :=
  mkDescriptor schema_id (wire_of_hash schema_hash) payload_codec (wire_of_hash payload_hash)
    (option_map wire_of_hash content_root) None None None (wire_of_hash disclosure)
    (wire_of_hash proof_policy) (wire_of_hash zero32).

(** The encoding, in both formats. *)
Definition descriptor_encode (d : SanadPayloadDescriptor) : result CodecError bytes :=
  schema ← hash_field (sd_schema_hash d) "schema_hash";
  payload ← hash_field (sd_payload_hash d) "payload_hash";
  content ← optional_hash_field (sd_content_root d) "content_root";
  attachment ← optional_hash_field (sd_attachment_root d) "attachment_root";
  claims ← optional_hash_field (sd_claims_root d) "claims_root";
  participants ← optional_hash_field (sd_participants_root d) "participants_root";
  disclosure ← hash_field (sd_disclosure_policy_hash d) "disclosure_policy_hash";
  policy ← hash_field (sd_proof_policy_hash d) "proof_policy_hash";
  limits ← hash_field (sd_resource_limits_hash d) "resource_limits_hash";
  Ok (encode_bytes (as_bytes (sd_schema_id d)) ++ b32 schema ++ [sd_payload_codec d] ++
      b32 payload ++ encode_option_bytes content ++ encode_option_bytes attachment ++
      encode_option_bytes claims ++ encode_option_bytes participants ++ b32 disclosure ++
      b32 policy ++ b32 limits).

Definition descriptor_decode (b : bytes) : result CodecError SanadPayloadDescriptor :=
  '(schema_id, rest) ← read_schema_id b;
  '(schema, rest) ← read_hash_wire "schema_hash" rest;
  '(codec, rest) ← read_u8 (DeserializationError "Insufficient bytes for payload_codec") rest;
  '(payload, rest) ← read_hash_wire "payload_hash" rest;
  '(content, rest) ← read_option_hash rest;
  '(attachment, rest) ← read_option_hash rest;
  '(claims, rest) ← read_option_hash rest;
  '(participants, rest) ← read_option_hash rest;
  '(disclosure, rest) ← read_hash_wire "disclosure_policy_hash" rest;
  '(policy, rest) ← read_hash_wire "proof_policy_hash" rest;
  '(limits, _) ← read_hash_wire "resource_limits_hash" rest;
  Ok (mkDescriptor schema_id schema codec payload content attachment claims participants
        disclosure policy limits).

(** [compute_hash]: a descriptor that does not encode has the zero hash. *)
Definition compute_hash (sha256 : bytes -> Bytes32) (d : SanadPayloadDescriptor) : Hash :=
  match descriptor_encode d with Ok b => hash_sha256 sha256 b | Err _ => zero32 end.

(** ** Ownership proofs *)

Definition DOMAIN_OWNERSHIP_PROOF_V1 : string := "urn:lnp-bp:csv:csv.sanad.ownership.v1".

Record OwnershipProof := mkOwnership {
  op_proof : bytes;
  op_owner : bytes;
  op_scheme : option SignatureScheme;
  op_public_key : bytes
}.

Definition ownership_encode (p : OwnershipProof) : bytes :=
  encode_bytes (op_proof p) ++ encode_bytes (op_owner p) ++
  match op_scheme p with Some s => Byte.x01 :: scheme_encode s | None => [Byte.x00] end ++
  encode_bytes (op_public_key p).

(** The scheme: a flag, then a tag when it is one. *)
Definition read_scheme (b : bytes) : result CodecError (option SignatureScheme * bytes) :=
  '(flag, rest) ← read_u8 (DeserializationError "Insufficient bytes for scheme flag") b;
  if bool_decide (flag = Byte.x01) then
    '(tag, rest) ← read_u8 (DeserializationError "Insufficient bytes for scheme tag") rest;
    s ← scheme_decode [tag]; Ok (Some s, rest)
  else Ok (None, rest).

(** An encoding that ends at the scheme has an empty public key. *)
Definition ownership_decode (b : bytes) : result CodecError OwnershipProof :=
  '(proof, rest) ← decode_bytes b;
  '(owner, rest) ← decode_bytes rest;
  '(scheme, rest) ← read_scheme rest;
  match rest with
  | [] => Ok (mkOwnership proof owner scheme [])
  | _ => '(key, _) ← decode_bytes rest; Ok (mkOwnership proof owner scheme key)
  end.

Section Ownership.
Variable sha256 : bytes -> Bytes32.
Variable crates : SigCrates.
Variable keys : KeyCrates.
(** The [Display] of an address error; that of an unknown chain escapes its name. *)
Variable bip44_message : Bip44Error -> string.

(** [OwnershipProof::signing_message] *)
Definition signing_message (descriptor_hash commitment : Hash) (salt owner : bytes) : Bytes32 :=
  tagged_hash_str sha256 (as_bytes DOMAIN_OWNERSHIP_PROOF_V1)
    (b32 descriptor_hash ++ b32 commitment ++ salt ++ owner).

(** What it hashes. *)
Definition ownership_preimage (descriptor_hash commitment : Hash) (salt owner : bytes) : bytes :=
  tagged_str_preimage sha256 (as_bytes DOMAIN_OWNERSHIP_PROOF_V1)
    (b32 descriptor_hash ++ b32 commitment ++ salt ++ owner).

(** [OwnershipProof::verify] *)
Definition ownership_verify (p : OwnershipProof) (chain : string) (descriptor_hash commitment : Hash)
    (salt : bytes) : result ProtocolError unit :=
  scheme ← ok_or (SignatureVerificationFailed "Ownership proof has no signature scheme") (op_scheme p);
  reject bool_decide (op_proof p = []) with
    SignatureVerificationFailed "Ownership proof signature bytes are empty" ;;
  reject bool_decide (op_public_key p = []) with
    SignatureVerificationFailed "Ownership proof public key is empty" ;;
  reject bool_decide (op_owner p = []) with
    SignatureVerificationFailed "Ownership proof owner is empty" ;;
  let message := signing_message descriptor_hash commitment salt (op_owner p) in
  _ ← signature_verify crates (mkSignature (op_proof p) (op_public_key p) (b32 message)) scheme;
  derived ← map_err (fun e => SignatureVerificationFailed
                       ("Failed to derive owner address from public key: " +:+ bip44_message e))
              (derive_address_from_pubkey keys (op_public_key p) chain);
  reject negb (bool_decide (as_bytes derived = op_owner p)) with
    SignatureVerificationFailed
      "Ownership proof public key does not correspond to the claimed owner address" ;;
  Ok tt.
End Ownership.

(** ** Sanads *)

Record Sanad := mkSanad {
  sn_id : SanadIdWire;
  sn_commitment : HashWire;
  sn_owner : OwnershipProof;
  sn_salt : bytes;
  sn_nullifier : option HashWire;
  sn_descriptor_hash : HashWire
}.

(** [Sanad::new], [Sanad::from_commitment] *)
Definition Sanad_new (sha256 : bytes -> Bytes32) (d : SanadPayloadDescriptor) (commitment : Hash)
    (owner : OwnershipProof) (salt : bytes) : Sanad :=
  let descriptor_hash := compute_hash sha256 d in
  let id := from_descriptor_commitment_owner sha256 descriptor_hash commitment salt (op_owner owner) in
  mkSanad (wire_of_hash id) (wire_of_hash commitment) owner salt None (wire_of_hash descriptor_hash).
Definition Sanad_from_commitment (sha256 : bytes -> Bytes32) (d : SanadPayloadDescriptor)
    (c : Commitment) (owner : OwnershipProof) (salt : bytes) : Sanad :=
  Sanad_new sha256 d (commitment_hash sha256 c) owner salt.

Definition sanad_encode (s : Sanad) : result CodecError bytes :=
  id ← sanad_id_field (sn_id s) "id";
  commitment ← hash_field (sn_commitment s) "commitment";
  nullifier ← optional_hash_field (sn_nullifier s) "nullifier";
  descriptor ← hash_field (sn_descriptor_hash s) "descriptor_hash";
  Ok (encode_bytes (b32 id) ++ b32 commitment ++ encode_bytes (ownership_encode (sn_owner s)) ++
      encode_bytes (sn_salt s) ++ encode_option_bytes nullifier ++ b32 descriptor).

Definition sanad_decode (b : bytes) : result CodecError Sanad :=
  '(id, rest) ← decode_bytes b;
  '(commitment, rest) ← read_hash_wire "commitment" rest;
  '(owner_bytes, rest) ← decode_bytes rest;
  owner ← ownership_decode owner_bytes;
  '(salt, rest) ← decode_bytes rest;
  '(nullifier, rest) ← read_option_hash rest;
  '(descriptor, _) ← read_hash_wire "descriptor_hash" rest;
  Ok (mkSanad (of_bytes (hex_encode id)) commitment owner salt nullifier descriptor).

(** [to_canonical_bytes], [from_canonical_bytes]; [codec_message] is [Display for CodecError]. *)
Definition codec_message (e : CodecError) : string :=
  match e with
  | SerializationError m => "Serialization error: " +:+ m
  | DeserializationError m => "Deserialization error: " +:+ m
  | IntegrityError m => "Integrity error: " +:+ m
  | SchemaValidationError m => "Schema validation error: " +:+ m
  end.
Definition sanad_to_canonical_bytes (s : Sanad) : result ProtocolError bytes :=
  map_err (fun e => PSerializationError (codec_message e)) (sanad_encode s).
Definition sanad_from_canonical_bytes (b : bytes) : result ProtocolError Sanad :=
  map_err (fun e => PSerializationError (codec_message e)) (sanad_decode b).

(** ** Envelopes *)

Definition ENVELOPE_SCHEMA_ID : string := "csv.sanad.envelope.v2".

Record SanadEnvelope := mkEnvelope {
  se_version : byte;
  se_schema_id : string;
  se_sanad_id : HashWire;
  se_payload_hash : HashWire;
  se_merkle_root : option HashWire;
  se_descriptor_hash : option HashWire
}.

(** [SanadEnvelope::from_sanad] *)
Definition envelope_from_sanad (s : Sanad) : result ProtocolError SanadEnvelope :=
  id ← map_err (fun e => PSerializationError ("Invalid Sanad id: " +:+ e)) (wire_to_sanad_id (sn_id s));
  Ok (mkEnvelope Byte.x02 ENVELOPE_SCHEMA_ID (wire_of_hash id) (sn_commitment s) None
        (Some (sn_descriptor_hash s))).

Definition envelope_encode (e : SanadEnvelope) : result CodecError bytes :=
  id ← hash_field (se_sanad_id e) "sanad_id";
  payload ← hash_field (se_payload_hash e) "payload_hash";
  root ← optional_hash_field (se_merkle_root e) "merkle_root";
  descriptor ← optional_hash_field (se_descriptor_hash e) "descriptor_hash";
  Ok ([se_version e] ++ encode_bytes (as_bytes (se_schema_id e)) ++ b32 id ++ b32 payload ++
      encode_option_bytes root ++ encode_option_bytes descriptor).

Definition envelope_decode (b : bytes) : result CodecError SanadEnvelope :=
  '(version, rest) ← read_u8 (DeserializationError "Insufficient bytes for version") b;
  '(schema_id, rest) ← read_schema_id rest;
  '(id, rest) ← read_hash_wire "sanad_id" rest;
  '(payload, rest) ← read_hash_wire "payload_hash" rest;
  '(root, rest) ← read_option_hash rest;
  '(descriptor, _) ← read_option_hash rest;
  Ok (mkEnvelope version schema_id id payload root descriptor).

(** ** Lemmas: fields *)

(** A wire and its lower-case form; decoding gives the latter. *)
Definition clean_wire (w : HashWire) : HashWire :=
  match wire_to_hash w with Ok h => wire_of_hash h | Err _ => w end.
Definition clean_id (w : SanadIdWire) : SanadIdWire :=
  match wire_to_sanad_id w with Ok h => wire_of_hash h | Err _ => w end.

Lemma hash_field_ok w f h : hash_field w f = Ok h -> wire_of_hash h = clean_wire w.
Proof. unfold hash_field, clean_wire. by intros ->%map_err_ok. Qed.

Lemma hash_field_wire w f h : wire_to_hash w = Ok h -> hash_field w f = Ok h.
Proof. unfold hash_field. by intros ->. Qed.

Lemma sanad_id_field_ok w f h : sanad_id_field w f = Ok h -> wire_of_hash h = clean_id w.
Proof. unfold sanad_id_field, clean_id. by intros ->%map_err_ok. Qed.

Lemma clean_wire_of_hash h : clean_wire (wire_of_hash h) = wire_of_hash h.
Proof. unfold clean_wire. by rewrite wire_to_of_hash. Qed.

Lemma read_hash_wire_app n w f h k :
  hash_field w f = Ok h -> read_hash_wire n (b32 h ++ k) = Ok (clean_wire w, k).
Proof. intros <-%hash_field_ok. unfold read_hash_wire. by rewrite read_b32_app. Qed.

Lemma fits_b32 (h : Bytes32) : (blen (b32 h) <= u32_max)%N.
Proof. unfold blen. rewrite b32_length. by vm_compute. Qed.

Lemma decode_bytes_app b k :
  (blen b <= u32_max)%N -> decode_bytes (encode_bytes b ++ k) = Ok (b, k).
Proof. apply decode_sized_app. Qed.

Lemma read_option_hash_app w f o k :
  optional_hash_field w f = Ok o ->
  read_option_hash (encode_option_bytes o ++ k) = Ok (option_map clean_wire w, k).
Proof.
  unfold optional_hash_field. destruct w as [w|].
  - intros (h & Hh & [= <-])%bind_ok. unfold read_option_hash, decode_option_bytes.
    cbn [encode_option_bytes app read_u8 mbind result_bind].
    rewrite bool_decide_true by done. rewrite decode_bytes_app by apply fits_b32.
    cbn. rewrite <- (hash_field_ok _ _ _ Hh). by rewrite to_b32_b32.
  - by intros [= <-].
Qed.

Lemma read_schema_id_app s k :
  is_utf8 s = true -> (slen s <= u32_max)%N ->
  read_schema_id (encode_bytes (as_bytes s) ++ k) = Ok (s, k).
Proof.
  intros Hu Hl. unfold read_schema_id. rewrite decode_sized_app by done.
  cbn [mbind result_bind]. by rewrite from_utf8_as_bytes.
Qed.

Lemma read_scheme_app s k :
  read_scheme (match s with Some s => Byte.x01 :: scheme_encode s | None => [Byte.x00] end ++ k)
  = Ok (s, k).
Proof. by destruct s as [[]|]. Qed.

(** ** Lemmas: codecs *)

Definition clean_descriptor (d : SanadPayloadDescriptor) : SanadPayloadDescriptor :=
  mkDescriptor (sd_schema_id d) (clean_wire (sd_schema_hash d)) (sd_payload_codec d)
    (clean_wire (sd_payload_hash d)) (option_map clean_wire (sd_content_root d))
    (option_map clean_wire (sd_attachment_root d)) (option_map clean_wire (sd_claims_root d))
    (option_map clean_wire (sd_participants_root d)) (clean_wire (sd_disclosure_policy_hash d))
    (clean_wire (sd_proof_policy_hash d)) (clean_wire (sd_resource_limits_hash d)).
Definition clean_sanad (s : Sanad) : Sanad :=
  mkSanad (clean_id (sn_id s)) (clean_wire (sn_commitment s)) (sn_owner s) (sn_salt s)
    (option_map clean_wire (sn_nullifier s)) (clean_wire (sn_descriptor_hash s)).
Definition clean_envelope (e : SanadEnvelope) : SanadEnvelope :=
  mkEnvelope (se_version e) (se_schema_id e) (clean_wire (se_sanad_id e))
    (clean_wire (se_payload_hash e)) (option_map clean_wire (se_merkle_root e))
    (option_map clean_wire (se_descriptor_hash e)).

(** Text and byte strings fit their length prefixes, and text is UTF-8. *)
Definition schema_ok (s : string) : Prop := is_utf8 s = true /\ (slen s <= u32_max)%N.
Definition ownership_ok (p : OwnershipProof) : Prop :=
  (blen (op_proof p) <= u32_max)%N /\ (blen (op_owner p) <= u32_max)%N /\
  (blen (op_public_key p) <= u32_max)%N.
Definition sanad_ok (s : Sanad) : Prop :=
  ownership_ok (sn_owner s) /\ (blen (ownership_encode (sn_owner s)) <= u32_max)%N /\
  (blen (sn_salt s) <= u32_max)%N.

(** Opens every [?] of an encoder that succeeded. *)
Ltac open_encode H :=
  repeat match type of H with
         | (_ ≫= _) = Ok _ => let h := fresh "h" in let E := fresh "E" in
                              apply bind_ok in H as (h & E & H)
         end;
  match type of H with Ok ?x = Ok ?y => assert (x = y) as <- by congruence end.

Lemma descriptor_roundtrip d b junk :
  descriptor_encode d = Ok b -> schema_ok (sd_schema_id d) ->
  descriptor_decode (b ++ junk) = Ok (clean_descriptor d).
Proof.
  intros H [Hu Hl]. unfold descriptor_encode in H. open_encode H.
  unfold descriptor_decode. rewrite <- !app_assoc.
  rewrite read_schema_id_app by done. cbn [mbind result_bind].
  erewrite read_hash_wire_app by done. cbn [mbind result_bind app read_u8].
  erewrite read_hash_wire_app by done. cbn [mbind result_bind].
  do 4 (erewrite read_option_hash_app by done; cbn [mbind result_bind]).
  do 3 (erewrite read_hash_wire_app by done; cbn [mbind result_bind]). done.
Qed.

Lemma ownership_roundtrip p junk :
  ownership_ok p -> ownership_decode (ownership_encode p ++ junk) = Ok p.
Proof.
  intros (Hp & Ho & Hk). unfold ownership_decode, ownership_encode. rewrite <- !app_assoc.
  rewrite decode_bytes_app by done. cbn [mbind result_bind].
  rewrite decode_bytes_app by done. cbn [mbind result_bind].
  rewrite read_scheme_app. cbn [mbind result_bind].
  rewrite decode_bytes_app by done. cbn. by destruct p.
Qed.

Lemma sanad_roundtrip s b junk :
  sanad_encode s = Ok b -> sanad_ok s -> sanad_decode (b ++ junk) = Ok (clean_sanad s).
Proof.
  intros H (Ho & Hob & Hs). unfold sanad_encode in H. open_encode H.
  unfold sanad_decode. rewrite <- !app_assoc.
  rewrite decode_bytes_app by apply fits_b32. cbn [mbind result_bind].
  erewrite read_hash_wire_app by done. cbn [mbind result_bind].
  rewrite decode_bytes_app by done. cbn [mbind result_bind].
  rewrite <- (app_nil_r (ownership_encode _)), ownership_roundtrip by done. cbn [mbind result_bind].
  rewrite decode_bytes_app by done. cbn [mbind result_bind].
  erewrite read_option_hash_app by done. cbn [mbind result_bind].
  erewrite read_hash_wire_app by done. cbn. unfold clean_sanad.
  by erewrite <- sanad_id_field_ok by done.
Qed.

Lemma envelope_roundtrip e b junk :
  envelope_encode e = Ok b -> schema_ok (se_schema_id e) ->
  envelope_decode (b ++ junk) = Ok (clean_envelope e).
Proof.
  intros H [Hu Hl]. unfold envelope_encode in H. open_encode H.
  unfold envelope_decode. rewrite <- !app_assoc. cbn [app read_u8 mbind result_bind].
  rewrite read_schema_id_app by done. cbn [mbind result_bind].
  do 2 (erewrite read_hash_wire_app by done; cbn [mbind result_bind]).
  do 2 (erewrite read_option_hash_app by done; cbn [mbind result_bind]). done.
Qed.

Lemma hash_field_is_ok w f : is_ok (hash_field w f) = is_ok (wire_to_hash w).
Proof. unfold hash_field. by destruct (wire_to_hash w). Qed.

Lemma optional_hash_field_is_ok w f :
  is_ok (optional_hash_field w f) = forallb (fun w => is_ok (wire_to_hash w)) (option_list w).
Proof.
  destruct w as [w|]; [|done]. cbn. rewrite andb_true_r, <- (hash_field_is_ok w f).
  by destruct (hash_field w f).
Qed.

(** ** Lemmas: identifiers and messages *)

(** What is hashed for an identifier: the owner and the preimage. *)
Definition sanad_id_hashed (sha256 : bytes -> Bytes32) (d c : Hash) (salt owner : bytes) : list bytes :=
  [owner; tagged_str_preimage sha256 (as_bytes DOMAIN_SANAD_ID_V2)
            (preimage_v2_bytes (preimage_v2_new sha256 d c salt owner))].

Lemma sanad_id_v2_inj sha256 l d c s o d' c' s' o' :
  sanad_id_hashed sha256 d c s o ⊆ l -> sanad_id_hashed sha256 d' c' s' o' ⊆ l ->
  from_descriptor_commitment_owner sha256 d c s o
  = from_descriptor_commitment_owner sha256 d' c' s' o' ->
  (d = d' /\ c = c' /\ s = s' /\ o = o') \/ collision_in sha256 l.
Proof.
  unfold sanad_id_hashed, from_descriptor_commitment_owner, sanad_id_v2. intros Hl Hl' H. hash_inj H.
  unfold preimage_v2_bytes in H. cbn in H.
  apply b32_app_inj in H as [-> H]. apply b32_app_inj in H as [-> H].
  apply b32_app_inj in H as [Ho ->].
  unfold hash_sha256 in Ho. hash_inj Ho. left. by subst.
Qed.

(** Descriptors with one digest that both encode are the same up to letter case. *)
Lemma compute_hash_inj sha256 d d' :
  is_ok (descriptor_encode d) = true -> is_ok (descriptor_encode d') = true ->
  schema_ok (sd_schema_id d) -> schema_ok (sd_schema_id d') ->
  compute_hash sha256 d = compute_hash sha256 d' ->
  clean_descriptor d = clean_descriptor d' \/
  collision_in sha256 (ok_list (descriptor_encode d) ++ ok_list (descriptor_encode d')).
Proof.
  unfold compute_hash. intros [b Hb]%is_ok_inv [b' Hb']%is_ok_inv Hd Hd'. rewrite Hb, Hb'.
  cbn [ok_list app]. intros H. hash_inj H. left. subst b.
  pose proof (descriptor_roundtrip d b' [] Hb Hd) as H1.
  pose proof (descriptor_roundtrip d' b' [] Hb' Hd') as H2. congruence.
Qed.

Lemma bool_decide_negb_false (P : Prop) `{Decision P} : negb (bool_decide P) = false <-> P.
Proof. by rewrite negb_false_iff, bool_decide_eq_true. Qed.

Lemma ownership_verify_ok sha256 crates keys msg p chain d c salt :
  ownership_verify sha256 crates keys msg p chain d c salt = Ok tt <->
  exists scheme a,
    op_scheme p = Some scheme /\ op_proof p <> [] /\ op_public_key p <> [] /\ op_owner p <> [] /\
    signature_verify crates (mkSignature (op_proof p) (op_public_key p)
      (b32 (signing_message sha256 d c salt (op_owner p)))) scheme = Ok tt /\
    derive_address_from_pubkey keys (op_public_key p) chain = Ok a /\ as_bytes a = op_owner p.
Proof.
  unfold ownership_verify. destruct (op_scheme p) as [scheme|]; cbn [ok_or mbind result_bind];
    [|naive_solver].
  rewrite !guard_err_ok, !bool_decide_eq_false.
  split.
  - intros (H1 & H2 & H3 & ([] & Hs & (a & Ha%map_err_ok & [Ho%bool_decide_negb_false _]%guard_err_ok)%bind_ok)%bind_ok).
    by exists scheme, a.
  - intros (scheme' & a & [= <-] & H1 & H2 & H3 & Hs & Ha & Ho).
    split; [done|]. split; [done|]. split; [done|]. rewrite Hs. cbn. rewrite Ha. cbn.
    by rewrite bool_decide_true.
Qed.

(** The envelope of a Sanad that encodes is built and encodes. *)
Lemma envelope_of_encoded s b :
  sanad_encode s = Ok b ->
  exists e eb, envelope_from_sanad s = Ok e /\ envelope_encode e = Ok eb /\ schema_ok (se_schema_id e).
Proof.
  intros H. unfold sanad_encode in H. open_encode H.
  unfold sanad_id_field in E. apply map_err_ok in E, E0, E2.
  eexists (mkEnvelope _ _ _ _ _ _), _. split; [|split].
  - unfold envelope_from_sanad. rewrite E. done.
  - unfold envelope_encode. cbn [se_sanad_id se_payload_hash se_merkle_root se_descriptor_hash].
    rewrite (hash_field_wire _ _ _ (wire_to_of_hash h)). cbn [mbind result_bind].
    rewrite (hash_field_wire _ _ _ E0). cbn [mbind result_bind optional_hash_field].
    rewrite (hash_field_wire _ _ _ E2). reflexivity.
  - split; by vm_compute.
Qed.

(** ** Theorems *)

(** What is stored of a Sanad comes back.  A Sanad encodes exactly when its identifier
    and every digest it holds decode to 32 bytes; its encoding then decodes, whatever
    follows it, to the Sanad with its hexadecimal strings in lower case.  The envelope
    made from a Sanad that encodes does so too, and an ownership proof round-trips. *)
Theorem sanad_codec (s : Sanad) (junk : bytes) (Hs : sanad_ok s) :
  is_ok (sanad_to_canonical_bytes s)
  = is_ok (wire_to_sanad_id (sn_id s)) &&
    forallb (fun w => is_ok (wire_to_hash w))
      (sn_commitment s :: option_list (sn_nullifier s) ++ [sn_descriptor_hash s]) /\
  (forall b, sanad_to_canonical_bytes s = Ok b ->
     sanad_from_canonical_bytes (b ++ junk) = Ok (clean_sanad s) /\
     exists e eb, envelope_from_sanad s = Ok e /\ envelope_encode e = Ok eb /\
       envelope_decode (eb ++ junk) = Ok (clean_envelope e)) /\
  ownership_decode (ownership_encode (sn_owner s) ++ junk) = Ok (sn_owner s).
Proof.
  assert (Hok : forall A B (f : CodecError -> B) (r : result CodecError A),
            is_ok (map_err f r) = is_ok r) by (by intros ? ? ? []).
  split; [|split; [|by apply ownership_roundtrip, Hs]].
  - unfold sanad_to_canonical_bytes, sanad_encode. rewrite Hok. cbn [forallb].
    rewrite forallb_app. cbn [forallb]. rewrite andb_true_r.
    rewrite <- (hash_field_is_ok (sn_commitment s) "commitment"),
      <- (hash_field_is_ok (sn_descriptor_hash s) "descriptor_hash"),
      <- (optional_hash_field_is_ok (sn_nullifier s) "nullifier").
    unfold sanad_id_field. destruct (wire_to_sanad_id (sn_id s)); [|done]. cbn.
    destruct (hash_field (sn_commitment s) _); [|done]. cbn.
    destruct (optional_hash_field (sn_nullifier s) _); [|done]. cbn.
    by destruct (hash_field (sn_descriptor_hash s) _).
  - intros b Hb%map_err_ok. unfold sanad_from_canonical_bytes.
    split; [by apply map_err_ok, sanad_roundtrip|].
    apply envelope_of_encoded in Hb as (e & eb & He & Heb & Hid). exists e, eb.
    split; [done|]. split; [done|]. by apply envelope_roundtrip.
Qed.

(** What a Sanad's identifier binds.  Two Sanads made from descriptors that encode
    and given one identifier have the same descriptor up to letter case, commitment,
    salt and owner, unless two of the strings hashed for them collide.  Descriptors that do not encode are not
    bound: all of them have the zero digest, so for one commitment, owner and salt they
    give one identifier. *)
Theorem sanad_id_binds sha256 (d d' : SanadPayloadDescriptor) (c c' : Hash)
    (o o' : OwnershipProof) (salt salt' : bytes) :
  (is_ok (descriptor_encode d) = true -> is_ok (descriptor_encode d') = true ->
   schema_ok (sd_schema_id d) -> schema_ok (sd_schema_id d') ->
   sn_id (Sanad_new sha256 d c o salt) = sn_id (Sanad_new sha256 d' c' o' salt') ->
   (clean_descriptor d = clean_descriptor d' /\ c = c' /\ salt = salt' /\ op_owner o = op_owner o') \/
   collision_in sha256
     (ok_list (descriptor_encode d) ++ ok_list (descriptor_encode d') ++
      sanad_id_hashed sha256 (compute_hash sha256 d) c salt (op_owner o) ++
      sanad_id_hashed sha256 (compute_hash sha256 d') c' salt' (op_owner o'))) /\
  (is_ok (descriptor_encode d) = false -> is_ok (descriptor_encode d') = false ->
   Sanad_new sha256 d c o salt = Sanad_new sha256 d' c o salt).
Proof.
  split.
  - intros Hd Hd' Hs Hs' H%wire_of_hash_inj.
    eapply sanad_id_v2_inj in H as [(Hh & -> & -> & ->)|?]; [|right; eassumption|set_solver..].
    apply compute_hash_inj in Hh as [Hh|Hh]; [by left|right|done..].
    eapply collision_in_mono, Hh. intros x Hin. rewrite app_assoc. apply elem_of_app. by left.
  - unfold Sanad_new, compute_hash. by destruct (descriptor_encode d), (descriptor_encode d').
Qed.

(** What an ownership proof proves.  It verifies exactly when it names a scheme, no part
    is empty, its signature verifies over the message of this descriptor, commitment,
    salt and owner, and the address of its key on the chain is the owner.  Two proofs
    that verify on one chain with one key and one message are for the same descriptor,
    commitment, salt and owner, unless the strings hashed for the two messages collide,
    although the message runs salt and owner together.  A proof under ML-DSA-65, whose keys have 1952 bytes,
    never verifies: no chain has an address for such a key. *)
Theorem ownership_proof_exact sha256 crates keys msg (p p' : OwnershipProof) (chain : string)
    (d c d' c' : Hash) (salt salt' : bytes) (Hsizes : point_sizes keys) :
  (ownership_verify sha256 crates keys msg p chain d c salt = Ok tt <->
   exists scheme a,
     op_scheme p = Some scheme /\ op_proof p <> [] /\ op_public_key p <> [] /\ op_owner p <> [] /\
     signature_verify crates (mkSignature (op_proof p) (op_public_key p)
       (b32 (signing_message sha256 d c salt (op_owner p)))) scheme = Ok tt /\
     derive_address_from_pubkey keys (op_public_key p) chain = Ok a /\ as_bytes a = op_owner p) /\
  (ownership_verify sha256 crates keys msg p chain d c salt = Ok tt ->
   ownership_verify sha256 crates keys msg p' chain d' c' salt' = Ok tt ->
   op_public_key p = op_public_key p' ->
   signing_message sha256 d c salt (op_owner p) = signing_message sha256 d' c' salt' (op_owner p') ->
   (d = d' /\ c = c' /\ salt = salt' /\ op_owner p = op_owner p') \/
   collision_in sha256 [ownership_preimage sha256 d c salt (op_owner p);
                        ownership_preimage sha256 d' c' salt' (op_owner p')]) /\
  (op_scheme p = Some MlDsa65 ->
   is_ok (ownership_verify sha256 crates keys msg p chain d c salt) = false).
Proof.
  split; [apply ownership_verify_ok|]. split.
  - intros (s & a & _ & _ & _ & _ & _ & Ha & Ho)%ownership_verify_ok
           (s' & a' & _ & _ & _ & _ & _ & Ha' & Ho')%ownership_verify_ok Hk Hm.
    rewrite <- Hk, Ha in Ha'. injection Ha' as <-. rewrite <- Ho, <- Ho' in *.
    unfold signing_message, ownership_preimage in *. hash_inj Hm. left.
    apply b32_app_inj in Hm as [-> Hm]. apply b32_app_inj in Hm as [-> Hm].
    by apply app_inv_tail in Hm as ->.
  - intros Hs. apply Bool.not_true_is_false. intros [[] H]%is_ok_inv.
    apply ownership_verify_ok in H as (scheme & a & Hs' & _ & _ & _ & Hv & Ha & _).
    rewrite Hs in Hs'. injection Hs' as <-.
    apply (derive_address_sizes keys _ _ _ Hsizes) in Ha. cbn in Hv. unfold verify_ml_dsa65 in Hv.
    destruct (feature_pq crates); [|done]. apply guard_err_ok in Hv as [Hv _].
    apply negb_false_iff, Nat.eqb_eq in Hv. lia.
Qed.

(** ** Witnesses *)

Definition demo_descriptor : SanadPayloadDescriptor :=
  descriptor_new "csv.sanad.descriptor.v1" (fill32 Byte.x01) Byte.x02 (fill32 Byte.xab)
    (Some (fill32 Byte.x04)) zero32 zero32.
(** A field that is not a digest. *)
Definition broken_descriptor (s : string) : SanadPayloadDescriptor :=
  mkDescriptor "csv.sanad.descriptor.v1" s Byte.x02 (wire_of_hash zero32) None None None None
    (wire_of_hash zero32) (wire_of_hash zero32) (wire_of_hash zero32).

(** Keys whose Solana address is their own text. *)
Definition demo_keys : KeyCrates := {|
  xonly_lift b := Ok b;
  point_parse b := if (length b =? 33) || (length b =? 65) then Ok b else Err "malformed"%string;
  uncompressed b := b; p2tr b m := of_bytes b; ed_point b := Ok b;
  ka_keccak256 := toy_hash; ka_blake2b := toy_hash; ka_sha3_256 := toy_hash; bs58 := of_bytes
|}.
Definition demo_owner : OwnershipProof :=
  mkOwnership (replicate 64 Byte.x05) (replicate 32 Byte.x61) (Some Ed25519) (replicate 32 Byte.x61).
Definition demo_sanad : Sanad :=
  Sanad_new toy_hash demo_descriptor (fill32 Byte.x09) demo_owner [Byte.x07].

Lemma demo_sanad_ok : sanad_ok demo_sanad.
Proof. repeat split; by vm_compute. Qed.

Lemma sanad_codec_witness :
  sanad_ok demo_sanad /\ is_ok (sanad_to_canonical_bytes demo_sanad) = true /\
  ownership_decode (ownership_encode demo_owner ++ [Byte.xff]) = Ok demo_owner.
Proof.
  split; [exact demo_sanad_ok|].
  destruct (sanad_codec demo_sanad [Byte.xff] demo_sanad_ok) as (H & _ & Ho).
  split; [|exact Ho]. rewrite H. vm_compute. reflexivity.
Defined.

Lemma sanad_id_binds_witness :
  (demo_descriptor = demo_descriptor \/
   let hashed := sanad_id_hashed toy_hash (compute_hash toy_hash demo_descriptor) zero32 [] (op_owner demo_owner) in
   collision_in toy_hash (ok_list (descriptor_encode demo_descriptor) ++
     ok_list (descriptor_encode demo_descriptor) ++ hashed ++ hashed)) /\
  broken_descriptor "short" <> broken_descriptor "other" /\
  Sanad_new toy_hash (broken_descriptor "short") zero32 demo_owner []
  = Sanad_new toy_hash (broken_descriptor "other") zero32 demo_owner [].
Proof.
  split; [|split; [done|]].
  - assert (Hs : schema_ok (sd_schema_id demo_descriptor)) by (split; by vm_compute).
    destruct (proj1 (sanad_id_binds toy_hash demo_descriptor demo_descriptor zero32 zero32
                       demo_owner demo_owner [] []) ltac:(by vm_compute) ltac:(by vm_compute) Hs Hs eq_refl)
      as [_|H]; [by left|by right].
  - apply (proj2 (sanad_id_binds toy_hash (broken_descriptor "short") (broken_descriptor "other")
                    zero32 zero32 demo_owner demo_owner [] [])); by vm_compute.
Defined.

Lemma demo_point_sizes : point_sizes demo_keys.
Proof.
  intros b p. cbn. destruct (Nat.eqb_spec (length b) 33), (Nat.eqb_spec (length b) 65); cbn; auto.
  done.
Qed.

Lemma ownership_proof_exact_witness :
  point_sizes demo_keys /\
  ownership_verify toy_hash permissive_crates demo_keys (fun _ => "") demo_owner "solana"
    (fill32 Byte.x01) (fill32 Byte.x02) [Byte.x03] = Ok tt.
Proof.
  split; [exact demo_point_sizes|].
  apply (proj1 (ownership_proof_exact toy_hash permissive_crates demo_keys (fun _ => "") demo_owner
                  demo_owner "solana" (fill32 Byte.x01) (fill32 Byte.x02) zero32 zero32 [Byte.x03] []
                  demo_point_sizes)).
  exists Ed25519, (of_bytes (replicate 32 Byte.x61)). repeat split; try done; by vm_compute.
Defined.
