(* ===== verification/EventStore.v ===== *)
(** * The event store (csv-runtime/src/event_envelope.rs, event_persistence.rs)

    Envelopes of runtime events, a stream of them per aggregate, snapshots and reader
    positions: the in-memory store, which refuses an event whose version is not above
    the last one, and the redb store, a table keyed by aggregate and version, which
    does not look.  What the coordinator relies on is the interface [EventLog]; on
    runs the in-memory store accepts, the redb store answers the same.

    The redb tables and the CBOR codecs are parameters with laws, a generated UUID and
    the clock are arguments, the failure of a transaction is an argument of the call;
    poisoned locks are not modelled. *)

From S2P Require Import Prelude Ord Bytes Hashing Text Seal Sanad ReplayDb.

Notation Uuid := N.

(** ** Envelopes *)

(** [event_type] is the string of an [EventType], [timestamp] in nanoseconds. *)
Record RuntimeEventEnvelope := mkEnvelope {
  ev_event_id : Uuid;
  ev_aggregate_id : SanadIdWire;
  ev_event_type : string;
  ev_version : N;
  ev_causation_id : option Uuid;
  ev_correlation_id : Uuid;
  ev_payload : string;
  ev_timestamp : N;
  ev_runtime_id : Uuid
}.
Global Instance envelope_eq_dec : EqDecision RuntimeEventEnvelope.
Proof. solve_decision. Defined.

(** [new] and [new_with_auto_correlation]; [fresh] are the UUIDs they generate. *)
Definition envelope_new (fresh : Uuid) (aggregate : SanadIdWire) (event_type : string) (version : N)
    (payload : string) (causation : option Uuid) (correlation runtime : Uuid) (timestamp : N)
  : RuntimeEventEnvelope :=
  mkEnvelope fresh aggregate event_type version causation correlation payload timestamp runtime.
Definition new_with_auto_correlation (fresh : Uuid * Uuid) (aggregate : SanadIdWire)
    (event_type : string) (version : N) (payload : string) (causation : option Uuid)
    (runtime : Uuid) (timestamp : N) : RuntimeEventEnvelope :=
  envelope_new fresh.2 aggregate event_type version payload causation fresh.1 runtime timestamp.

Record StreamPosition := mkPosition {
  sp_aggregate_id : SanadIdWire;
  sp_last_version : N;
  sp_last_event_id : option Uuid;
  sp_updated_at : N
}.
Definition StreamPosition_new (now : N) (aggregate : SanadIdWire) (last_version : N)
  : StreamPosition := mkPosition aggregate last_version None now.
Definition position_advance (now version : N) (event : Uuid) (p : StreamPosition) : StreamPosition :=
  mkPosition (sp_aggregate_id p) version (Some event) now.
Definition position_is_before (p : StreamPosition) (version : N) : bool :=
  (sp_last_version p <? version)%N.

Record EventFilter := mkFilter {
  ef_aggregate_id : option Hash;
  ef_event_type : option string;
  ef_correlation_id : option Uuid;
  ef_min_version : option N;
  ef_max_version : option N;
  ef_limit : option nat
}.

Record AggregateSnapshot := mkSnapshot {
  as_aggregate_id : SanadIdWire;
  as_version : N;
  as_state : string;
  as_created_at : N
}.

Inductive EventStoreError :=
| EvIo (m : string)
| EvSerialization (m : string)
| DuplicateEvent (id : Uuid)
| VersionRegression (expected_gt got : N)
| VersionGap (expected got : N)
| BatchError (m : string)
| LockError (m : string).

(** [Display for EventStoreError]; [show] is a UUID's. *)
Definition event_error_message (show : Uuid -> string) (e : EventStoreError) : string :=
  match e with
  | EvIo m => "Event store I/O error: " +:+ m
  | EvSerialization m => "Event serialization error: " +:+ m
  | DuplicateEvent id => "Duplicate event ID: " +:+ show id
  | VersionRegression g n => "Version regression: expected > " +:+ pretty g +:+ ", got " +:+ pretty n
  | VersionGap g n => "Version gap: expected " +:+ pretty g +:+ ", got " +:+ pretty n
  | BatchError m => "Batch error: " +:+ m
  | LockError m => "Lock error: " +:+ m
  end.

Notation events := (list RuntimeEventEnvelope).

(** [SanadIdWire::from], [SanadId::try_from] *)
Definition sanad_wire (id : Hash) : SanadIdWire := of_bytes (hex_encode (b32 id)).
Definition sanad_try_from (sha256 : bytes -> Bytes32) (w : SanadIdWire) : result string Hash :=
  b ← ok_or "Invalid sanad_id hex"%string (hex_decode (as_bytes w));
  Ok (sanad_id_from_bytes sha256 b).

(** ** In memory *)

Record InMemoryEventStore := mkMemStore {
  ms_events : gmap SanadIdWire events;
  ms_snapshots : gmap SanadIdWire AggregateSnapshot;
  ms_positions : gmap SanadIdWire StreamPosition
}.
Definition mem_store_new : InMemoryEventStore := mkMemStore ∅ ∅ ∅.

(** [entry(a).or_insert_with(Vec::new)] inserts the empty stream before the checks. *)
Definition mem_events (s : InMemoryEventStore) (a : SanadIdWire) : events :=
  default [] (ms_events s !! a).
Definition set_events (a : SanadIdWire) (l : events) (s : InMemoryEventStore) : InMemoryEventStore :=
  mkMemStore (<[a := l]> (ms_events s)) (ms_snapshots s) (ms_positions s).

Definition last_version (l : events) : N := match last l with Some e => ev_version e | None => 0%N end.
Definition has_event_id (l : events) (id : Uuid) : bool :=
  existsb (fun e => (ev_event_id e =? id)%N) l.

Definition mem_append (e : RuntimeEventEnvelope) (s : InMemoryEventStore)
  : InMemoryEventStore * result EventStoreError unit :=
  let a := ev_aggregate_id e in
  let l := mem_events s a in
  if has_event_id l (ev_event_id e) then (set_events a l s, Err (DuplicateEvent (ev_event_id e)))
  else if (ev_version e <=? last_version l)%N
       then (set_events a l s, Err (VersionRegression (last_version l) (ev_version e)))
  else (set_events a (l ++ [e]) s, Ok tt).

(** The loop of [append_batch]: versions go on from the last without a gap. *)
Fixpoint batch_check (stored : events) (after : N) (i : N) (batch : events)
  : result EventStoreError unit :=
  match batch with
  | [] => Ok tt
  | e :: batch' =>
      let expected := add64 (add64 after i) 1 in
      reject negb (ev_version e =? expected)%N with VersionGap expected (ev_version e) ;;
      reject has_event_id stored (ev_event_id e) with DuplicateEvent (ev_event_id e) ;;
      batch_check stored after (i + 1) batch'
  end.

Definition mem_append_batch (batch : events) (s : InMemoryEventStore)
  : InMemoryEventStore * result EventStoreError unit :=
  match batch with
  | [] => (s, Ok tt)
  | e0 :: _ =>
      let a := ev_aggregate_id e0 in
      let l := mem_events s a in
      if existsb (fun e => negb (bool_decide (ev_aggregate_id e = a))) batch
      then (set_events a l s, Err (BatchError "all events in batch must belong to the same aggregate"))
      else match batch_check l (last_version l) 0 batch with
           | Err x => (set_events a l s, Err x)
           | Ok _ => (set_events a (l ++ batch) s, Ok tt)
           end
  end.

(** [retain], when a criterion is set. *)
Definition retain_some {A} (o : option A) (p : A -> RuntimeEventEnvelope -> bool) (l : events)
  : events := match o with Some x => List.filter (p x) l | None => l end.

(** [get_events], [get_events_locked] *)
Definition mem_get_events (id : Hash) (filter : option EventFilter) (s : InMemoryEventStore) : events :=
  let l := mem_events s (sanad_wire id) in
  match filter with
  | None => l
  | Some f =>
      let l := retain_some (ef_event_type f) (fun t e => bool_decide (ev_event_type e = t)) l in
      let l := retain_some (ef_min_version f) (fun v e => (v <=? ev_version e)%N) l in
      let l := retain_some (ef_max_version f) (fun v e => (ev_version e <=? v)%N) l in
      match ef_limit f with Some n => take n l | None => l end
  end.

Definition mem_get_latest_version (id : Hash) (s : InMemoryEventStore) : N :=
  last_version (mem_events s (sanad_wire id)).
Definition mem_save_snapshot (x : AggregateSnapshot) (s : InMemoryEventStore) : InMemoryEventStore :=
  mkMemStore (ms_events s) (<[as_aggregate_id x := x]> (ms_snapshots s)) (ms_positions s).
Definition mem_load_snapshot (id : Hash) (s : InMemoryEventStore) : option AggregateSnapshot :=
  ms_snapshots s !! sanad_wire id.
(** The snapshots that would be pruned are counted and kept. *)
Definition mem_prune_snapshots_before (id : Hash) (keep_after : N) (s : InMemoryEventStore) : nat :=
  match ms_snapshots s !! sanad_wire id with
  | Some x => if (as_version x <? keep_after)%N then 1 else 0
  | None => 0
  end.
Definition mem_get_after_position (p : StreamPosition) (limit : nat) (s : InMemoryEventStore) : events :=
  take limit (List.filter (fun e => (sp_last_version p <? ev_version e)%N)
                (mem_events s (sp_aggregate_id p))).
Definition mem_update_position (p : StreamPosition) (s : InMemoryEventStore) : InMemoryEventStore :=
  mkMemStore (ms_events s) (ms_snapshots s) (<[sp_aggregate_id p := p]> (ms_positions s)).
Definition mem_get_position (id : Hash) (s : InMemoryEventStore) : option StreamPosition :=
  ms_positions s !! sanad_wire id.

(** [list_aggregates]: the keys in the map's order [walk]; the first that is not
    hexadecimal is an error. *)
Fixpoint collect_ids (sha256 : bytes -> Bytes32) (keys : list SanadIdWire)
  : result EventStoreError (list Hash) :=
  match keys with
  | [] => Ok []
  | w :: keys' =>
      id ← map_err EvSerialization (sanad_try_from sha256 w);
      ids ← collect_ids sha256 keys'; Ok (id :: ids)
  end.
Definition mem_list_aggregates (sha256 : bytes -> Bytes32)
    (walk : gmap SanadIdWire events -> list SanadIdWire) (s : InMemoryEventStore)
  : result EventStoreError (list Hash) := collect_ids sha256 (walk (ms_events s)).
Definition mem_event_count (s : InMemoryEventStore) : nat :=
  map_fold (fun _ l n => length l + n) 0 (ms_events s).
Definition mem_clear_aggregate (id : Hash) (s : InMemoryEventStore) : InMemoryEventStore :=
  let w := sanad_wire id in
  mkMemStore (delete w (ms_events s)) (delete w (ms_snapshots s)) (delete w (ms_positions s)).

(** ** redb *)

(** The table of events, keyed by an aggregate's bytes and a version: its rows in key
    order, in particular those of one aggregate in version order. *)
Class EventTable (E : Type) := {
  et_rows : E -> list (bytes * N * bytes);
  et_insert : bytes -> N -> bytes -> E -> E;
  et_remove : bytes -> N -> E -> E
}.
Class EventTableLaws (E : Type) `{EventTable E} := {
  et_order : forall t,
    StronglySorted (fun x y : bytes * N * bytes => x.1.1 = y.1.1 -> (x.1.2 < y.1.2)%N) (et_rows t);
  et_insert_elem : forall a v b t x,
    x ∈ et_rows (et_insert a v b t) <-> x = (a, v, b) \/ x.1 <> (a, v) /\ x ∈ et_rows t;
  et_remove_elem : forall a v t x,
    x ∈ et_rows (et_remove a v t) <-> x.1 <> (a, v) /\ x ∈ et_rows t
}.
(** A table of byte keys, with removal. *)
Class TableRemove (B : Type) := { tremove : B -> bytes -> B }.
Class TableRemoveLaws (B : Type) `{TableOps B, TableRemove B} := {
  tget_remove : forall t k, tget (tremove t k) k = None;
  tget_remove_ne : forall t k k', k <> k' -> tget (tremove t k) k' = tget t k'
}.

Record RedbEventStore (E B : Type) := mkRedbEvents {
  re_events : E; re_snapshots : B; re_positions : B
}.
Global Arguments mkRedbEvents {E B}.
Global Arguments re_events {E B}.
Global Arguments re_snapshots {E B}.
Global Arguments re_positions {E B}.

(** The CBOR codecs of the three values. *)
Record EventCodecs := mkEventCodecs {
  event_cbor : RuntimeEventEnvelope -> result string bytes;
  event_of_cbor : bytes -> result string RuntimeEventEnvelope;
  snapshot_cbor : AggregateSnapshot -> result string bytes;
  snapshot_of_cbor : bytes -> result string AggregateSnapshot;
  position_cbor : StreamPosition -> result string bytes;
  position_of_cbor : bytes -> result string StreamPosition
}.
Record codecs_ok (c : EventCodecs) : Prop := {
  event_law : forall x b, event_cbor c x = Ok b -> event_of_cbor c b = Ok x;
  snapshot_law : forall x b, snapshot_cbor c x = Ok b -> snapshot_of_cbor c b = Ok x;
  position_law : forall x b, position_cbor c x = Ok b -> position_of_cbor c b = Ok x
}.

Section Redb.
Context {E B : Type} `{EventTable E} `{TableOps B} `{TableRemove B}.
Variable c : EventCodecs.
Notation RS := (RedbEventStore E B).
Notation write A := (RS * result EventStoreError A)%type.

(** A transaction that fails leaves the tables as they were. *)
Definition commit {A} (fault : option string) (s s' : RS) (a : A) : write A :=
  match fault with Some m => (s, Err (EvIo m)) | None => (s', Ok a) end.
Definition on_read {A} (fault : option string) (r : result EventStoreError A) : result EventStoreError A :=
  match fault with Some m => Err (EvIo m) | None => r end.

(** [aggregate_bytes]: the bytes of the hexadecimal text. *)
Definition aggregate_bytes (id : Hash) : bytes := as_bytes (sanad_wire id).

(** The rows [range((a, 0)..=(a, u64::MAX))] visits. *)
Definition et_range (a : bytes) (t : E) : list (N * bytes) :=
  (fun r => (r.1.2, r.2)) <$> base.filter (fun r => r.1.1 = a) (et_rows t).

Fixpoint put_events (batch : events) (t : E) : result EventStoreError E :=
  match batch with
  | [] => Ok t
  | e :: batch' =>
      b ← map_err EvSerialization (event_cbor c e);
      put_events batch' (et_insert (as_bytes (ev_aggregate_id e)) (ev_version e) b t)
  end.

Definition redb_append_batch (fault : option string) (batch : events) (s : RS) : write unit :=
  match batch with
  | [] => (s, Ok tt)
  | _ =>
      match put_events batch (re_events s) with
      | Err x => (s, Err x)
      | Ok t => commit fault s (mkRedbEvents t (re_snapshots s) (re_positions s)) tt
      end
  end.
Definition redb_append (fault : option string) (e : RuntimeEventEnvelope) (s : RS) : write unit :=
  redb_append_batch fault [e] s.

(** The closure of [get_events]; [n] events have been pushed. *)
Definition unwanted (f : EventFilter) (e : RuntimeEventEnvelope) : bool :=
  match ef_event_type f with Some t => negb (bool_decide (ev_event_type e = t)) | None => false end
  || match ef_min_version f with Some v => (ev_version e <? v)%N | None => false end
  || match ef_max_version f with Some v => (v <? ev_version e)%N | None => false end.
Fixpoint scan_filtered (filter : option EventFilter) (n : nat) (rows : list (N * bytes))
  : result EventStoreError events :=
  match rows with
  | [] => Ok []
  | (_, b) :: rows' =>
      e ← map_err EvSerialization (event_of_cbor c b);
      let push := es ← scan_filtered filter (S n) rows'; Ok (e :: es) in
      match filter with
      | None => push
      | Some f =>
          if unwanted f e then scan_filtered filter n rows'
          else match ef_limit f with
               | Some limit => if limit <=? n then Ok [] else push
               | None => push
               end
      end
  end.
Definition redb_get_events (fault : option string) (id : Hash) (filter : option EventFilter) (s : RS)
  : result EventStoreError events :=
  on_read fault (scan_filtered filter 0 (et_range (aggregate_bytes id) (re_events s))).

Definition redb_get_latest_version (fault : option string) (id : Hash) (s : RS)
  : result EventStoreError N :=
  on_read fault (Ok (match last (et_range (aggregate_bytes id) (re_events s)) with
                     | Some (v, _) => v
                     | None => 0%N
                     end)).

(** The closure of [get_after_position]: the limit is looked at after a push. *)
Fixpoint scan_after (from : N) (limit n : nat) (rows : list (N * bytes)) : result EventStoreError events :=
  match rows with
  | [] => Ok []
  | (v, b) :: rows' =>
      if (v <=? from)%N then scan_after from limit n rows'
      else
        e ← map_err EvSerialization (event_of_cbor c b);
        if S n <? limit then es ← scan_after from limit (S n) rows'; Ok (e :: es) else Ok [e]
  end.
Definition redb_get_after_position (fault : option string) (p : StreamPosition) (limit : nat) (s : RS)
  : result EventStoreError events :=
  on_read fault (scan_after (sp_last_version p) limit 0
                   (et_range (as_bytes (sp_aggregate_id p)) (re_events s))).

Definition read_decoded {A} (decode : bytes -> result string A) (t : B) (key : bytes)
  : result EventStoreError (option A) :=
  match tget t key with
  | Some v => x ← map_err EvSerialization (decode v); Ok (Some x)
  | None => Ok None
  end.

Definition redb_save_snapshot (fault : option string) (x : AggregateSnapshot) (s : RS) : write unit :=
  match map_err EvSerialization (snapshot_cbor c x) with
  | Err e => (s, Err e)
  | Ok v => commit fault s (mkRedbEvents (re_events s)
              (tinsert (re_snapshots s) (as_bytes (as_aggregate_id x)) v) (re_positions s)) tt
  end.
Definition redb_load_snapshot (fault : option string) (id : Hash) (s : RS)
  : result EventStoreError (option AggregateSnapshot) :=
  on_read fault (read_decoded (snapshot_of_cbor c) (re_snapshots s) (aggregate_bytes id)).
Definition redb_prune_snapshots_before (fault : option string) (id : Hash) (keep_after : N) (s : RS)
  : write nat :=
  let key := aggregate_bytes id in
  match read_decoded (snapshot_of_cbor c) (re_snapshots s) key with
  | Err e => (s, Err e)
  | Ok (Some x) =>
      if (as_version x <? keep_after)%N
      then commit fault s (mkRedbEvents (re_events s) (tremove (re_snapshots s) key) (re_positions s)) 1
      else commit fault s s 0
  | Ok None => commit fault s s 0
  end.

Definition redb_update_position (fault : option string) (p : StreamPosition) (s : RS) : write unit :=
  match map_err EvSerialization (position_cbor c p) with
  | Err e => (s, Err e)
  | Ok v => commit fault s (mkRedbEvents (re_events s) (re_snapshots s)
              (tinsert (re_positions s) (as_bytes (sp_aggregate_id p)) v)) tt
  end.
Definition redb_get_position (fault : option string) (id : Hash) (s : RS)
  : result EventStoreError (option StreamPosition) :=
  on_read fault (read_decoded (position_of_cbor c) (re_positions s) (aggregate_bytes id)).

(** [list_aggregates]: keys of 32 bytes, collected in a hash set that is walked in the
    order [walk]. *)
Definition redb_list_aggregates (fault : option string) (walk : list Hash -> list Hash) (s : RS)
  : result EventStoreError (list Hash) :=
  on_read fault (Ok (walk (remove_dups (omap (fun r => to_b32 r.1.1) (et_rows (re_events s)))))).
Definition redb_event_count (fault : option string) (s : RS) : result EventStoreError nat :=
  on_read fault (Ok (length (et_rows (re_events s)))).

Definition redb_clear_aggregate (fault : option string) (id : Hash) (s : RS) : write unit :=
  let key := aggregate_bytes id in
  let versions := (et_range key (re_events s)).*1 in
  commit fault s (mkRedbEvents (fold_left (fun t v => et_remove key v t) versions (re_events s))
                    (tremove (re_snapshots s) key) (tremove (re_positions s) key)) tt.
End Redb.
Global Arguments redb_get_latest_version {E B _} fault id s.
Global Arguments redb_clear_aggregate {E B _ _} fault id s.

(** ** The interface *)

Definition ev_before (x y : RuntimeEventEnvelope) : Prop := (ev_version x < ev_version y)%N.

(** What the coordinator calls of [EventStore].  [el_events] is what a store holds for an
    aggregate, [el_fits] that nothing but its version keeps an event out. *)
Class EventLog (S : Type) := {
  el_append : option string -> RuntimeEventEnvelope -> S -> S * result EventStoreError unit;
  el_get_events : option string -> Hash -> S -> result EventStoreError events;
  el_latest_version : option string -> Hash -> S -> result EventStoreError N;
  el_events : S -> SanadIdWire -> events;
  el_wf : S -> Prop;
  el_fits : RuntimeEventEnvelope -> S -> Prop
}.

(** An event that is accepted joins those of its aggregate, replacing what had its
    version; a refused one changes nothing; one with a new highest version that fits is
    accepted, and what is read, when it can be read, is what is held. *)
Class EventLogLaws (S : Type) `{EventLog S} := {
  el_sorted : forall s w, el_wf s -> StronglySorted ev_before (el_events s w);
  el_append_law : forall fault e s s' r, el_wf s -> el_append fault e s = (s', r) ->
    el_wf s' /\
    match r with
    | Ok _ => forall x w, x ∈ el_events s' w <->
        w = ev_aggregate_id e /\ x = e \/
        x ∈ el_events s w /\ ~ (w = ev_aggregate_id e /\ ev_version x = ev_version e)
    | Err _ => forall w, el_events s' w = el_events s w
    end;
  el_append_end : forall e s, el_wf s -> el_fits e s ->
    (last_version (el_events s (ev_aggregate_id e)) < ev_version e)%N ->
    exists s', el_append None e s = (s', Ok tt);
  el_get_law : forall fault id s, el_wf s ->
    el_get_events fault id s = Ok (el_events s (sanad_wire id)) \/
    is_Some fault /\ exists x, el_get_events fault id s = Err x;
  el_latest_law : forall fault id s, el_wf s ->
    el_latest_version fault id s = Ok (last_version (el_events s (sanad_wire id))) \/
    is_Some fault /\ exists x, el_latest_version fault id s = Err x
}.

Lemma ev_before_asym x y : ev_before x y -> ev_before y x -> False.
Proof. unfold ev_before. lia. Qed.
#[export] Hint Resolve ev_before_asym : core.

Lemma last_version_max l x :
  StronglySorted ev_before l -> x ∈ l -> (ev_version x <= last_version l)%N.
Proof.
  intros Hs Hx. induction l as [|e l IH] using rev_ind; [by apply elem_of_nil in Hx|].
  unfold last_version. rewrite last_snoc.
  apply StronglySorted_app in Hs as (Hlt & Hs & _).
  apply elem_of_app in Hx as [Hx|Hx%list_elem_of_singleton]; [|subst; lia].
  specialize (Hlt x e Hx ltac:(by apply list_elem_of_singleton)). unfold ev_before in Hlt. lia.
Qed.

Lemma last_version_le l n : (forall x, x ∈ l -> (ev_version x <= n)%N) -> (last_version l <= n)%N.
Proof.
  unfold last_version. destruct (last l) as [e|] eqn:He; [|lia]. intros Hall. apply Hall.
  by apply last_Some_elem_of.
Qed.

Lemma sorted_snoc l e :
  StronglySorted ev_before l -> (last_version l < ev_version e)%N -> StronglySorted ev_before (l ++ [e]).
Proof.
  intros Hs Hlt. apply StronglySorted_app_2; [|done|by repeat constructor].
  intros x y Hx ->%list_elem_of_singleton. unfold ev_before.
  pose proof (last_version_max l x Hs Hx). lia.
Qed.

(** An event with a new highest version goes to the end. *)
Lemma append_snoc {S} `{EventLogLaws S} fault e s s' :
  el_wf s -> el_append fault e s = (s', Ok tt) ->
  (last_version (el_events s (ev_aggregate_id e)) < ev_version e)%N ->
  el_wf s' /\ el_events s' (ev_aggregate_id e) = el_events s (ev_aggregate_id e) ++ [e] /\
  forall w, w <> ev_aggregate_id e -> el_events s' w = el_events s w.
Proof.
  intros Hw Ha Hlt. destruct (el_append_law _ _ _ _ _ Hw Ha) as [Hw' Hin]. split; [done|]. split.
  - apply (sorted_ext ev_before); [eauto|by apply el_sorted|by apply sorted_snoc; [apply el_sorted|]|].
    intros x. rewrite Hin, elem_of_app, list_elem_of_singleton. split; [naive_solver|].
    intros [Hx| ->]; [right|by left]. split; [done|]. intros [_ Heq].
    pose proof (last_version_max _ x (el_sorted s _ Hw) Hx). lia.
  - intros w Hne. apply (sorted_ext ev_before); [eauto|by apply el_sorted..|].
    intros x. rewrite Hin. naive_solver.
Qed.

(** *** In memory *)

Definition mem_wf (s : InMemoryEventStore) : Prop :=
  forall w, StronglySorted ev_before (mem_events s w).

Lemma mem_events_set a l s w : mem_events (set_events a l s) w = if decide (w = a) then l else mem_events s w.
Proof.
  unfold mem_events, set_events. cbn. case_decide; subst; by simplify_map_eq.
Qed.

Lemma mem_events_keep a s w : mem_events (set_events a (mem_events s a) s) w = mem_events s w.
Proof. rewrite mem_events_set. by case_decide; subst. Qed.

Lemma mem_wf_set a l s : mem_wf s -> StronglySorted ev_before l -> mem_wf (set_events a l s).
Proof. intros Hw Hl w. rewrite mem_events_set. by case_decide. Qed.

Global Instance mem_log : EventLog InMemoryEventStore := {|
  el_append _ := mem_append;
  el_get_events _ id s := Ok (mem_get_events id None s);
  el_latest_version _ id s := Ok (mem_get_latest_version id s);
  el_events := mem_events;
  el_wf := mem_wf;
  el_fits e s := has_event_id (mem_events s (ev_aggregate_id e)) (ev_event_id e) = false
|}.

Global Instance mem_log_laws : EventLogLaws InMemoryEventStore.
Proof.
  split; cbn.
  - intros s w Hw. apply Hw.
  - intros _ e s s' r Hw. unfold mem_append.
    destruct (has_event_id _ _); [|destruct (N.leb_spec (ev_version e) (last_version (mem_events s (ev_aggregate_id e))))];
      intros [= <- <-]; (split; [apply mem_wf_set; [done|]|]); try apply Hw; try by intros; apply mem_events_keep.
    + by apply sorted_snoc.
    + intros x w. rewrite mem_events_set. case_decide as Hwa.
      * subst w. rewrite elem_of_app, list_elem_of_singleton. split; [|naive_solver].
        intros [Hx| ->]; [right|by left]. split; [done|]. intros [_ Heq].
        pose proof (last_version_max _ x (Hw _) Hx). lia.
      * naive_solver.
  - intros e s Hw Hf Hlt. unfold mem_append. rewrite Hf, (proj2 (N.leb_gt _ _)) by lia. eauto.
  - intros ? id s _. by left.
  - intros ? id s _. by left.
Qed.

(** *** redb *)

Section RedbLog.
Context {E B : Type} `{!EventTable E, !EventTableLaws E, !TableOps B, !TableRemove B}.
Variable c : EventCodecs.
Hypothesis c_ok : codecs_ok c.
Notation RS := (RedbEventStore E B).

Definition row_before (x y : N * bytes) : Prop := (x.1 < y.1)%N.

Lemma range_elem a t v b : (v, b) ∈ et_range a t <-> (a, v, b) ∈ et_rows t.
Proof.
  unfold et_range. rewrite list_elem_of_fmap. split.
  - intros ([[a' v'] b'] & [= -> ->] & [Ha Hin]%list_elem_of_filter). cbn in Ha. by subst.
  - intros Hin. exists (a, v, b). split; [done|]. by apply list_elem_of_filter.
Qed.

Lemma range_sorted a t : StronglySorted row_before (et_range a t).
Proof.
  unfold et_range. pose proof (et_order t) as Hs. revert Hs.
  induction (et_rows t) as [|x l IH]; intros Hs; [constructor|].
  apply StronglySorted_inv in Hs as [Hs Hx]. rewrite filter_cons. case_decide as Ha; [|by apply IH].
  rewrite fmap_cons. constructor; [by apply IH|]. rewrite Forall_forall in Hx. apply Forall_forall.
  intros y ([[a' v'] b'] & -> & [Ha' Hin]%list_elem_of_filter)%list_elem_of_fmap.
  cbn in Ha'. apply Hx in Hin; [|cbn; congruence]. exact Hin.
Qed.

Lemma range_ext a (l : list (N * bytes)) t :
  StronglySorted row_before l -> (forall v b, (v, b) ∈ l <-> (a, v, b) ∈ et_rows t) -> et_range a t = l.
Proof.
  intros Hl Hin. apply (sorted_ext row_before); [unfold row_before; lia|apply range_sorted|done|].
  intros [v b]. by rewrite range_elem, Hin.
Qed.

Lemma range_insert_other a a' v b t : a' <> a -> et_range a' (et_insert a v b t) = et_range a' t.
Proof.
  intros Hne. apply range_ext; [apply range_sorted|]. intros v' b'.
  rewrite range_elem, et_insert_elem. cbn. naive_solver.
Qed.

Lemma range_insert_end a v b t :
  (forall x, x ∈ et_range a t -> (x.1 < v)%N) -> et_range a (et_insert a v b t) = et_range a t ++ [(v, b)].
Proof.
  intros Hlt. apply range_ext.
  - apply StronglySorted_app_2; [|apply range_sorted|by repeat constructor].
    intros x y Hx ->%list_elem_of_singleton. by apply Hlt.
  - intros v' b'. rewrite elem_of_app, list_elem_of_singleton, range_elem, et_insert_elem. cbn.
    split; [|naive_solver]. intros [Hin|[= -> ->]]; [right|by left]. split; [|done].
    intros [= ->]. apply range_elem, Hlt in Hin. cbn in Hin. lia.
Qed.

(** The rows decode to events of their keys. *)
Definition row_decodes (r : bytes * N * bytes) (e : RuntimeEventEnvelope) : Prop :=
  event_of_cbor c r.2 = Ok e /\ as_bytes (ev_aggregate_id e) = r.1.1 /\ ev_version e = r.1.2.
Definition redb_events_wf (s : RS) : Prop :=
  forall r, r ∈ et_rows (re_events s) -> exists e, row_decodes r e.
Definition decoded (r : N * bytes) : option RuntimeEventEnvelope :=
  match event_of_cbor c r.2 with Ok e => Some e | Err _ => None end.
Definition redb_events (s : RS) (w : SanadIdWire) : events :=
  omap decoded (et_range (as_bytes w) (re_events s)).

Lemma redb_events_elem s w e : redb_events_wf s ->
  e ∈ redb_events s w <->
  exists b, (as_bytes w, ev_version e, b) ∈ et_rows (re_events s) /\ event_of_cbor c b = Ok e.
Proof.
  intros Hw. unfold redb_events. rewrite list_elem_of_omap. split.
  - intros ([v b] & Hin%range_elem & Hd). unfold decoded in Hd. cbn in Hd.
    destruct (Hw _ Hin) as (e' & He & _ & Hv). cbn in *. rewrite He in Hd. injection Hd as ->.
    subst v. eauto.
  - intros (b & Hin & He). exists (ev_version e, b). rewrite range_elem. unfold decoded. cbn.
    by rewrite He.
Qed.

(** Reading a range whose rows decode. *)
Lemma range_decodes s w : redb_events_wf s ->
  Forall2 (fun r e => event_of_cbor c r.2 = Ok e /\ ev_version e = r.1)
    (et_range (as_bytes w) (re_events s)) (redb_events s w).
Proof.
  intros Hw. unfold redb_events.
  assert (Hall : forall r, r ∈ et_range (as_bytes w) (re_events s) ->
            exists e, event_of_cbor c r.2 = Ok e /\ ev_version e = r.1).
  { intros [v b] Hin%range_elem. destruct (Hw _ Hin) as (e & ? & ? & ?). eauto. }
  induction (et_range _ _) as [|r l IH]; [constructor|].
  destruct (Hall r ltac:(by left)) as (e & He & Hv). unfold decoded at 1. cbn. rewrite He.
  constructor; [done|]. apply IH. intros r' Hr'. apply Hall. by right.
Qed.

Lemma redb_sorted s w : redb_events_wf s -> StronglySorted ev_before (redb_events s w).
Proof.
  intros Hw. pose proof (range_sorted (as_bytes w) (re_events s)) as Hs.
  pose proof (range_decodes s w Hw) as Hf. induction Hf as [|r e l k [He Hv] Hf IH]; [constructor|].
  apply StronglySorted_inv in Hs as [Hs Hr]. constructor; [by apply IH|].
  rewrite Forall_forall in Hr. apply Forall_forall. intros y Hy. apply list_elem_of_lookup in Hy as [i Hi].
  destruct (Forall2_lookup_r _ _ _ _ _ Hf Hi) as (r' & Hr' & _ & Hv').
  specialize (Hr r' (list_elem_of_lookup_2 _ _ _ Hr')). unfold row_before, ev_before in *. lia.
Qed.

Lemma scan_all s w n : redb_events_wf s ->
  scan_filtered c None n (et_range (as_bytes w) (re_events s)) = Ok (redb_events s w).
Proof.
  intros Hw. pose proof (range_decodes s w Hw) as Hf. revert n.
  induction Hf as [|[v b] e l k [He _] Hf IH]; intros n; [done|]. cbn [scan_filtered]. cbn in He.
  rewrite He. cbn [map_err mbind result_bind]. rewrite IH. done.
Qed.

Lemma latest_of_range s w : redb_events_wf s ->
  match last (et_range (as_bytes w) (re_events s)) with Some (v, _) => v | None => 0%N end
  = last_version (redb_events s w).
Proof.
  intros Hw. pose proof (range_decodes s w Hw) as Hf. unfold last_version.
  rewrite !last_lookup, <- (Forall2_length _ _ _ Hf). destruct (_ !! _) as [[v b]|] eqn:Hi.
  - destruct (Forall2_lookup_l _ _ _ _ _ Hf Hi) as (e & -> & _ & Hv). by cbn in Hv.
  - apply lookup_ge_None in Hi. by rewrite lookup_ge_None_2 by (by rewrite <- (Forall2_length _ _ _ Hf)).
Qed.

#[local] Instance redb_log : EventLog RS := {|
  el_append := redb_append c;
  el_get_events fault id s := redb_get_events c fault id None s;
  el_latest_version := redb_get_latest_version;
  el_events := redb_events;
  el_wf := redb_events_wf;
  el_fits e _ := is_ok (event_cbor c e) = true
|}.

(** Writing an event puts it in the place of its key. *)
Lemma put_event e b s :
  redb_events_wf s -> event_cbor c e = Ok b ->
  let s' := mkRedbEvents (et_insert (as_bytes (ev_aggregate_id e)) (ev_version e) b (re_events s))
              (re_snapshots s) (re_positions s) in
  redb_events_wf s' /\
  forall x w, x ∈ redb_events s' w <->
    w = ev_aggregate_id e /\ x = e \/
    x ∈ redb_events s w /\ ~ (w = ev_aggregate_id e /\ ev_version x = ev_version e).
Proof.
  intros Hw Hb s'. apply (event_law c c_ok) in Hb as He.
  assert (Hw' : redb_events_wf s').
  { intros r. cbn. rewrite et_insert_elem. intros [->|[_ Hr]]; [|by apply Hw]. by exists e. }
  split; [done|]. intros x w. rewrite !redb_events_elem by done. cbn. setoid_rewrite et_insert_elem. cbn.
  split.
  - intros (b' & [[= Ha Hv ->]|[Hne Hin]] & Hx).
    + left. apply as_bytes_inj in Ha. split; congruence.
    + right. split; [by eauto|]. intros [-> Hv]. apply Hne. by rewrite Hv.
  - intros [[-> ->]|[(b' & Hin & Hx) Hne]]; [by eauto|]. exists b'. split; [|done]. right.
    split; [|done]. intros [= Ha Hv]. apply Hne. by apply as_bytes_inj in Ha.
Qed.

#[local] Instance redb_log_laws : EventLogLaws RS.
Proof.
  split; cbn.
  - intros s w. apply redb_sorted.
  - intros fault e s s' r Hw. unfold redb_append, redb_append_batch. cbn [put_events].
    destruct (event_cbor c e) as [b|m] eqn:Hb; cbn; [|by intros [= <- <-]].
    unfold commit. destruct fault as [m|]; intros [= <- <-]; [done|]. by apply put_event.
  - intros e s _ Hf _. unfold redb_append, redb_append_batch. cbn [put_events].
    apply is_ok_inv in Hf as [b ->]. cbn. eauto.
  - intros fault id s Hw. unfold redb_get_events, on_read. destruct fault; [by eauto|].
    left. by apply scan_all.
  - intros fault id s Hw. unfold redb_get_latest_version, on_read. destruct fault; [by eauto|].
    left. f_equal. by apply latest_of_range.
Qed.
End RedbLog.

(** ** The backends agree *)

Inductive ev_op :=
| OAppend (e : RuntimeEventEnvelope)
| OBatch (batch : events)
| OSnapshot (x : AggregateSnapshot)
| OPosition (p : StreamPosition)
| OClear (id : Hash).

Definition mem_exec (o : ev_op) (s : InMemoryEventStore) : InMemoryEventStore * result EventStoreError unit :=
  match o with
  | OAppend e => mem_append e s
  | OBatch batch => mem_append_batch batch s
  | OSnapshot x => (mem_save_snapshot x s, Ok tt)
  | OPosition p => (mem_update_position p s, Ok tt)
  | OClear id => (mem_clear_aggregate id s, Ok tt)
  end.

(** The state after calls that all succeed. *)
Fixpoint run_accepted {S} (exec : ev_op -> S -> S * result EventStoreError unit) (ops : list ev_op) (s : S)
  : option S :=
  match ops with
  | [] => Some s
  | o :: ops' => match exec o s with
                 | (s', Ok _) => run_accepted exec ops' s'
                 | _ => None
                 end
  end.

(** The events of a call have versions, and what it writes has an encoding. *)
Definition numbered (e : RuntimeEventEnvelope) : Prop := (1 <= ev_version e <= u64_max)%N.
Definition op_ok (c : EventCodecs) (o : ev_op) : Prop :=
  match o with
  | OAppend e => numbered e /\ is_ok (event_cbor c e) = true
  | OBatch batch => Forall (fun e => numbered e /\ is_ok (event_cbor c e) = true) batch
  | OSnapshot x => is_ok (snapshot_cbor c x) = true
  | OPosition p => is_ok (position_cbor c p) = true
  | OClear _ => True
  end.

Lemma batch_check_cons stored after i e batch :
  (after + i <= u64_max)%N -> numbered e -> batch_check stored after i (e :: batch) = Ok tt ->
  (ev_version e = after + i + 1)%N /\ batch_check stored after (i + 1) batch = Ok tt.
Proof.
  unfold numbered. intros Hi Hv. cbn [batch_check].
  rewrite !guard_err_ok, negb_false_iff, N.eqb_eq. intros (He & _ & Hr). split; [|done].
  unfold add64 in He. rewrite (wrap64_small (after + i)) in He by done. unfold wrap64, u64_max in *.
  destruct (N.eq_dec (after + i + 1)%N 18446744073709551616%N) as [Heq|Hne].
  - rewrite Heq, N.Div0.mod_same in He. lia.
  - rewrite N.mod_small in He by lia. done.
Qed.

Section Agreement.
Context {E B : Type} `{!EventTable E, !EventTableLaws E, !TableOps B, !TableLaws B,
  !TableRemove B, !TableRemoveLaws B}.
Variable c : EventCodecs.
Hypothesis c_ok : codecs_ok c.
Notation RS := (RedbEventStore E B).

Definition redb_exec (o : ev_op) (s : RS) : RS * result EventStoreError unit :=
  match o with
  | OAppend e => redb_append c None e s
  | OBatch batch => redb_append_batch c None batch s
  | OSnapshot x => redb_save_snapshot c None x s
  | OPosition p => redb_update_position c None p s
  | OClear id => redb_clear_aggregate None id s
  end.

Record agree (m : InMemoryEventStore) (r : RS) : Prop := {
  ag_wf : redb_events_wf c r;
  ag_max : forall w, (last_version (mem_events m w) <= u64_max)%N;
  ag_events : forall w, redb_events c r w = mem_events m w;
  ag_snapshots : forall w,
    read_decoded (snapshot_of_cbor c) (re_snapshots r) (as_bytes w) = Ok (ms_snapshots m !! w);
  ag_positions : forall w,
    read_decoded (position_of_cbor c) (re_positions r) (as_bytes w) = Ok (ms_positions m !! w)
}.

(** One event with a new highest version. *)
Lemma redb_append_next e b (r : RS) :
  redb_events_wf c r -> event_cbor c e = Ok b ->
  (last_version (redb_events c r (ev_aggregate_id e)) < ev_version e)%N ->
  let r' := mkRedbEvents (et_insert (as_bytes (ev_aggregate_id e)) (ev_version e) b (re_events r))
              (re_snapshots r) (re_positions r) in
  redb_events_wf c r' /\
  forall w, redb_events c r' w
    = if decide (w = ev_aggregate_id e) then redb_events c r w ++ [e] else redb_events c r w.
Proof.
  intros Hw Hb Hlt r'. destruct (@append_snoc RS (redb_log c) (redb_log_laws c c_ok) None e r r') as (Hw' & Hsame & Hother); [done| |done|].
  - cbn. unfold redb_append, redb_append_batch. cbn [put_events]. by rewrite Hb.
  - split; [done|]. intros w. case_decide; subst; [exact Hsame|by apply Hother].
Qed.

Lemma put_batch a stored after batch : forall i (r : RS),
  redb_events_wf c r -> Forall (fun e => ev_aggregate_id e = a) batch ->
  Forall (fun e => numbered e /\ is_ok (event_cbor c e) = true) batch ->
  last_version (redb_events c r a) = (after + i)%N -> (after + i <= u64_max)%N ->
  batch_check stored after i batch = Ok tt ->
  exists t, put_events c batch (re_events r) = Ok t /\
    let r' := mkRedbEvents t (re_snapshots r) (re_positions r) in
    redb_events_wf c r' /\
    forall w, redb_events c r' w
      = if decide (w = a) then redb_events c r w ++ batch else redb_events c r w.
Proof.
  induction batch as [|e batch IH]; intros i r Hw Ha Henc Hlast Hmax Hcheck.
  - exists (re_events r). split; [done|]. split; [by destruct r|]. intros w. rewrite app_nil_r.
    destruct r. by case_decide.
  - apply Forall_cons in Ha as [Ha Has]. apply Forall_cons in Henc as [[Hn [b Hb]%is_ok_inv] Henc].
    destruct (batch_check_cons _ _ _ _ _ Hmax Hn Hcheck) as [Hv Hcheck'].
    destruct (redb_append_next e b r Hw Hb) as [Hw1 Hev1]; [rewrite Ha, Hlast; lia|].
    set (r1 := mkRedbEvents _ _ _) in *.
    destruct (IH (i + 1)%N r1) as (t & Ht & Hw' & Hev'); try done.
    + rewrite Hev1, <- Ha, decide_True by done. unfold last_version. rewrite last_snoc. lia.
    + unfold numbered in Hn. lia.
    + exists t. cbn [put_events]. rewrite Hb. split; [exact Ht|]. split; [exact Hw'|].
      intros w. specialize (Hev' w). cbn in Hev'. rewrite Hev', Hev1, Ha.
      case_decide; [|done]. by rewrite <- app_assoc.
Qed.

Lemma fold_remove_elem a vs : forall t x,
  x ∈ et_rows (fold_left (fun t v => et_remove a v t) vs t) <->
  x ∈ et_rows t /\ ~ (x.1.1 = a /\ x.1.2 ∈ vs).
Proof.
  induction vs as [|v vs IH]; intros t [[a' v'] b]; cbn [fold_left]; [set_solver|].
  rewrite IH, et_remove_elem. cbn. rewrite elem_of_cons. naive_solver.
Qed.

Lemma clear_events id (r : RS) : redb_events_wf c r ->
  let r' := (redb_clear_aggregate None id r).1 in
  redb_events_wf c r' /\
  forall w, redb_events c r' w = if decide (w = sanad_wire id) then [] else redb_events c r w.
Proof.
  intros Hw. cbn. set (t := fold_left _ _ _).
  assert (Hrows : forall x, x ∈ et_rows t <-> x ∈ et_rows (re_events r) /\ x.1.1 <> aggregate_bytes id).
  { intros [[a v] b]. unfold t. rewrite fold_remove_elem. cbn. split; [|naive_solver].
    intros [Hin Hne]. split; [done|]. intros ->. apply Hne. split; [done|].
    apply list_elem_of_fmap. exists (v, b). split; [done|]. by apply range_elem. }
  assert (Hw' : redb_events_wf c (mkRedbEvents t (tremove (re_snapshots r) (aggregate_bytes id))
                  (tremove (re_positions r) (aggregate_bytes id)))).
  { intros x Hx. cbn in Hx. apply Hrows in Hx as [Hx _]. by apply Hw. }
  split; [done|]. intros w. apply (sorted_ext ev_before); [eauto|by apply redb_sorted| |].
  - case_decide; [constructor|by apply redb_sorted].
  - intros e. rewrite redb_events_elem by done. cbn. setoid_rewrite Hrows. cbn.
    unfold aggregate_bytes. case_decide as Heq.
    + subst. rewrite elem_of_nil. naive_solver.
    + rewrite redb_events_elem by done. split; [naive_solver|].
      intros (b & ? & ?). exists b. split; [|done]. split; [done|]. intros Ha%as_bytes_inj. done.
Qed.

Lemma read_inserted {A} (decode : bytes -> result string A) t w w' v x :
  decode v = Ok x ->
  read_decoded decode (tinsert t (as_bytes w) v) (as_bytes w')
  = if decide (w' = w) then Ok (Some x) else read_decoded decode t (as_bytes w').
Proof.
  intros Hd. unfold read_decoded. case_decide as Heq.
  - subst. rewrite tget_insert, Hd. done.
  - rewrite tget_insert_ne; [done|]. intros Ha%as_bytes_inj. done.
Qed.
Lemma read_removed {A} (decode : bytes -> result string A) (t : B) w w' :
  read_decoded decode (tremove t (as_bytes w)) (as_bytes w')
  = if decide (w' = w) then Ok None else read_decoded decode t (as_bytes w').
Proof.
  unfold read_decoded. case_decide as Heq.
  - subst. by rewrite tget_remove.
  - rewrite tget_remove_ne; [done|]. intros Ha%as_bytes_inj. done.
Qed.

Lemma numbered_last l batch :
  (last_version l <= u64_max)%N -> Forall numbered batch -> (last_version (l ++ batch) <= u64_max)%N.
Proof.
  intros Hl Hb. induction batch as [|e batch _] using rev_ind; [by rewrite app_nil_r|].
  apply Forall_app in Hb as [_ [[_ He] _]%Forall_cons]. rewrite app_assoc. unfold last_version.
  by rewrite last_snoc.
Qed.

(** Appending to one stream on both sides. *)
Lemma agree_set m (r r' : RS) a l :
  agree m r -> redb_events_wf c r' -> re_snapshots r' = re_snapshots r ->
  re_positions r' = re_positions r -> Forall numbered l ->
  (forall w, redb_events c r' w = if decide (w = a) then redb_events c r w ++ l else redb_events c r w) ->
  agree (set_events a (mem_events m a ++ l) m) r'.
Proof.
  intros [Hw Hmax Hev Hsn Hpo] Hw' Hs Hp Hl Hr'. split; [done| | |by rewrite Hs|by rewrite Hp].
  - intros w. rewrite mem_events_set. case_decide; [by apply numbered_last|done].
  - intros w. rewrite Hr', mem_events_set, Hev. by case_decide; subst.
Qed.

(** Each call the in-memory store accepts keeps the agreement. *)
Lemma agree_step o m m' r :
  agree m r -> op_ok c o -> mem_exec o m = (m', Ok tt) ->
  exists r', redb_exec o r = (r', Ok tt) /\ agree m' r'.
Proof.
  intros Hag Hok Hm. pose proof Hag as [Hw Hmax Hev Hsn Hpo].
  destruct o as [e|batch|x|p|id]; cbn [mem_exec redb_exec op_ok] in *.
  - unfold mem_append in Hm. destruct (has_event_id _ _); [done|].
    destruct (N.leb_spec (ev_version e) (last_version (mem_events m (ev_aggregate_id e)))) as [|Hlt]; [done|].
    injection Hm as <-. destruct Hok as [Hn [b Hb]%is_ok_inv]. rewrite <- (Hev (ev_aggregate_id e)) in Hlt.
    destruct (redb_append_next e b r Hw Hb Hlt) as [Hw' Hev'].
    unfold redb_append, redb_append_batch. cbn [put_events]. rewrite Hb. cbn. eexists. split; [done|].
    by apply (agree_set m r); auto.
  - unfold mem_append_batch in Hm. unfold redb_append_batch.
    destruct batch as [|e0 batch']; [injection Hm as <-; by eexists|].
    set (batch := e0 :: batch') in *. set (a := ev_aggregate_id e0) in *.
    destruct (existsb _ batch) eqn:Ha; [done|].
    destruct (batch_check _ _ 0 batch) as [[]|] eqn:Hcheck; [|done]. injection Hm as <-.
    destruct (put_batch a (mem_events m a) (last_version (mem_events m a)) batch 0 r)
      as (t & Ht & Hw' & Hev'); try done.
    + apply Forall_forall. intros e He. destruct (decide (ev_aggregate_id e = a)) as [|Hb]; [done|exfalso].
      enough (existsb (fun e => negb (bool_decide (ev_aggregate_id e = a))) batch = true) by congruence.
      apply existsb_exists. exists e. rewrite bool_decide_false by done. split; [by apply list_elem_of_In|done].
    + by rewrite Hev, N.add_0_r.
    + rewrite N.add_0_r. apply Hmax.
    + rewrite Ht. cbn. eexists. split; [done|]. apply (agree_set m r); try done.
      eapply Forall_impl; [exact Hok|]. by intros e [He _].
  - injection Hm as <-. apply is_ok_inv in Hok as [v Hv]. unfold redb_save_snapshot. rewrite Hv.
    cbn. eexists. split; [done|]. split; try done. intros w. cbn.
    rewrite (read_inserted _ _ _ _ _ _ (snapshot_law c c_ok _ _ Hv)), Hsn. by case_decide; simplify_map_eq.
  - injection Hm as <-. apply is_ok_inv in Hok as [v Hv]. unfold redb_update_position. rewrite Hv.
    cbn. eexists. split; [done|]. split; try done. intros w. cbn.
    rewrite (read_inserted _ _ _ _ _ _ (position_law c c_ok _ _ Hv)), Hpo. by case_decide; simplify_map_eq.
  - injection Hm as <-. destruct (clear_events id r Hw) as [Hw' Hev']. eexists. split; [done|].
    split; [done|..]; intros w; unfold mem_clear_aggregate, mem_events; cbn.
    + destruct (decide (w = sanad_wire id)) as [->|Hne]; simplify_map_eq; [done|]. apply Hmax.
    + specialize (Hev' w). cbn in Hev'. rewrite Hev', Hev. unfold mem_events. by case_decide; simplify_map_eq.
    + unfold aggregate_bytes. rewrite read_removed, Hsn. by case_decide; simplify_map_eq.
    + unfold aggregate_bytes. rewrite read_removed, Hpo. by case_decide; simplify_map_eq.
Qed.

Lemma agree_run ops : forall m m' r,
  agree m r -> Forall (op_ok c) ops -> run_accepted mem_exec ops m = Some m' ->
  exists r', run_accepted redb_exec ops r = Some r' /\ agree m' r'.
Proof.
  induction ops as [|o ops IH]; intros m m' r Hag Hok; cbn [run_accepted]; [intros [= <-]; eauto|].
  apply Forall_cons in Hok as [Ho Hok]. destruct (mem_exec o m) as [m1 [[]|x]] eqn:Hm; [|done].
  destruct (agree_step o m m1 r Hag Ho Hm) as (r1 & -> & Hag1). eauto.
Qed.

(** *** Reads *)

Lemma scan_some f rows l n :
  Forall2 (fun r e => event_of_cbor c r.2 = Ok e /\ ev_version e = r.1) rows l ->
  scan_filtered c (Some f) n rows
  = Ok (let kept := List.filter (fun e => negb (unwanted f e)) l in
        match ef_limit f with Some k => take (k - n) kept | None => kept end).
Proof.
  intros Hf. revert n. induction Hf as [|[v b] e rows l [He _] Hf IH]; intros n.
  - cbn. destruct (ef_limit f); [by rewrite take_nil|done].
  - cbn [scan_filtered]. cbn in He. rewrite He. cbn [map_err mbind result_bind]. cbn [List.filter].
    destruct (unwanted f e) eqn:Hu; cbn [negb]; [apply IH|]. rewrite IH.
    destruct (ef_limit f) as [k|] eqn:Hk; [|done]. destruct (Nat.leb_spec k n) as [Hle|Hgt].
    + by replace (k - n) with 0 by lia.
    + cbn. replace (k - n) with (S (k - S n)) by lia. done.
Qed.

Lemma scan_after_spec from limit rows l n :
  Forall2 (fun r e => event_of_cbor c r.2 = Ok e /\ ev_version e = r.1) rows l -> n < limit ->
  scan_after c from limit n rows
  = Ok (take (limit - n) (List.filter (fun e => (from <? ev_version e)%N) l)).
Proof.
  intros Hf. revert n. induction Hf as [|[v b] e rows l [He Hv] Hf IH]; intros n Hn.
  - cbn. by rewrite take_nil.
  - cbn [scan_after List.filter]. cbn in He, Hv. subst v. rewrite N.ltb_antisym.
    destruct (ev_version e <=? from)%N; cbn [negb]; [by apply IH|]. rewrite He. cbn [map_err mbind result_bind].
    destruct (Nat.ltb_spec (S n) limit) as [Hlt|Hge].
    + rewrite IH by done. replace (limit - n) with (S (limit - S n)) by lia. done.
    + by replace (limit - n) with 1 by lia.
Qed.

Lemma retain_filter {A} (o : option A) p l :
  retain_some o p l
  = List.filter (fun e => match o with Some x => p x e | None => true end) l.
Proof.
  destruct o; cbn; [done|]. induction l as [|e l IH]; [done|]. cbn. by rewrite <- IH.
Qed.
Lemma filter_filter (p q : RuntimeEventEnvelope -> bool) l :
  List.filter p (List.filter q l) = List.filter (fun e => q e && p e) l.
Proof.
  induction l as [|e l IH]; [done|]. cbn. destruct (q e); cbn; [|done]. destruct (p e); by rewrite IH.
Qed.

Lemma mem_get_filtered id f m :
  mem_get_events id (Some f) m
  = let kept := List.filter (fun e => negb (unwanted f e)) (mem_events m (sanad_wire id)) in
    match ef_limit f with Some k => take k kept | None => kept end.
Proof.
  unfold mem_get_events. rewrite !retain_filter, !filter_filter. cbn zeta.
  erewrite filter_ext; [done|]. intros e. unfold unwanted.
  destruct (ef_event_type f), (ef_min_version f), (ef_max_version f); cbn;
    rewrite ?N.leb_antisym, ?negb_orb, ?negb_involutive, ?orb_false_r, ?andb_true_r, ?andb_assoc; done.
Qed.
End Agreement.

(** An empty redb store: no rows, no snapshot, no position. *)
Definition redb_empty {E B} `{EventTable E} `{TableOps B} (r : RedbEventStore E B) : Prop :=
  et_rows (re_events r) = [] /\
  (forall k, tget (re_snapshots r) k = None) /\ (forall k, tget (re_positions r) k = None).

Lemma agree_empty {E B} `{EventTable E} `{TableOps B} c (r : RedbEventStore E B) :
  redb_empty r -> agree c mem_store_new r.
Proof.
  intros (He & Hs & Hp). split.
  - intros x. rewrite He. by intros Hx%elem_of_nil.
  - intros w. cbn. done.
  - intros w. unfold redb_events, et_range. by rewrite He.
  - intros w. unfold read_decoded. by rewrite Hs.
  - intros w. unfold read_decoded. by rewrite Hp.
Qed.

(** ** Properties *)

(** C19: The redb event store refines the in-memory one on the calls that one accepts.
    From empty stores, any sequence of appends, batches, snapshots, positions and
    clearings that the in-memory store accepts is accepted by redb, and then every read
    answers the same: filtered streams, latest versions, snapshots, positions, and what
    follows a position, for a limit other than zero.  Redb accepts more: an event whose
    version is taken replaces the one that had it. *)
Theorem event_backends_agree {E B : Type} `{!EventTable E, !EventTableLaws E, !TableOps B,
    !TableLaws B, !TableRemove B, !TableRemoveLaws B}
    (c : EventCodecs) (r0 : RedbEventStore E B) (ops : list ev_op) (m : InMemoryEventStore)
    (Hc : codecs_ok c) (H0 : redb_empty r0) (Hops : Forall (op_ok c) ops)
    (Hm : run_accepted mem_exec ops mem_store_new = Some m) :
  exists r, run_accepted (redb_exec c) ops r0 = Some r /\
  (forall id,
     (forall f, redb_get_events c None id f r = Ok (mem_get_events id f m)) /\
     redb_get_latest_version None id r = Ok (mem_get_latest_version id m) /\
     redb_load_snapshot c None id r = Ok (mem_load_snapshot id m) /\
     redb_get_position c None id r = Ok (mem_get_position id m)) /\
  (forall p limit, 0 < limit ->
     redb_get_after_position c None p limit r = Ok (mem_get_after_position p limit m)) /\
  (forall e id, ev_aggregate_id e = sanad_wire id -> is_ok (event_cbor c e) = true ->
     exists r' l, redb_append c None e r = (r', Ok tt) /\
       redb_get_events c None id None r' = Ok l /\
       (forall x, x ∈ l <-> x = e \/ x ∈ mem_get_events id None m /\ ev_version x <> ev_version e)).
Proof.
  destruct (agree_run c Hc ops _ m r0 (agree_empty c r0 H0) Hops Hm) as (r & Hr & Hag).
  pose proof Hag as [Hw _ Hev Hsn Hpo]. exists r. split; [done|]. split; [|split].
  - intros id. split; [|split; [|split]].
    + intros [f|]; unfold redb_get_events; cbn [on_read].
      * rewrite (scan_some c f _ _ _ (range_decodes c r (sanad_wire id) Hw)), mem_get_filtered, Hev.
        destruct (ef_limit f); [|done]. by rewrite Nat.sub_0_r.
      * unfold aggregate_bytes. rewrite scan_all by done. by rewrite Hev.
    + unfold redb_get_latest_version, aggregate_bytes. cbn [on_read].
      rewrite (latest_of_range c) by done. by rewrite Hev.
    + apply Hsn.
    + apply Hpo.
  - intros p limit Hl. unfold redb_get_after_position. cbn [on_read].
    rewrite (scan_after_spec c _ _ _ _ 0 (range_decodes c r (sp_aggregate_id p) Hw)) by done.
    by rewrite Hev, Nat.sub_0_r.
  - intros e id Ha Hb. apply is_ok_inv in Hb as [b Hb].
    destruct (put_event c Hc e b r Hw Hb) as [Hw' Hin].
    eexists _, _. unfold redb_append, redb_append_batch. cbn [put_events]. rewrite Hb.
    split; [done|]. split; [by apply (scan_all c _ (sanad_wire id))|].
    intros x. rewrite Hin, Ha. unfold mem_get_events. rewrite Hev. naive_solver.
Qed.

(** The keys are 64 hexadecimal digits, so [list_aggregates] of the redb store, which
    wants 32 bytes, lists nothing. *)
Lemma redb_lists_no_sanad {E B} `{EventTable E} (walk : list Hash -> list Hash) (r : RedbEventStore E B) :
  walk [] = [] ->
  Forall (fun row => exists id, row.1.1 = aggregate_bytes id) (et_rows (re_events r)) ->
  redb_list_aggregates None walk r = Ok [].
Proof.
  intros Hwalk Hf. unfold redb_list_aggregates. cbn [on_read]. f_equal.
  replace (omap _ _) with (@nil Hash); [done|]. symmetry.
  induction Hf as [|[[a v] b] l [id Ha] Hf IH]; [done|]. cbn in *. subst a.
  unfold to_b32 at 1. destruct (decide _) as [Hl|]; [exfalso|done].
  unfold aggregate_bytes, sanad_wire in Hl. rewrite as_bytes_of_bytes, length_hex_encode, b32_length in Hl.
  done.
Qed.

(** ** Witness: the tables as finite maps, the codec as a list of values *)

Definition version_le (x y : bytes * N * bytes) : Prop := (x.1.2 <= y.1.2)%N.
#[local] Instance version_le_dec x y : Decision (version_le x y).
Proof. unfold version_le. apply _. Defined.
Global Instance map_event_table : EventTable (gmap (bytes * N) bytes) := {|
  et_rows m := merge_sort version_le (map_to_list m);
  et_insert a v b m := <[(a, v) := b]> m;
  et_remove a v m := delete (a, v) m
|}.
Global Instance map_event_table_laws : EventTableLaws (gmap (bytes * N) bytes).
Proof.
  assert (Hin : forall (m : gmap (bytes * N) bytes) x, x ∈ merge_sort version_le (map_to_list m) <-> m !! x.1 = Some x.2).
  { intros m [k b]. rewrite merge_sort_Permutation. apply elem_of_map_to_list. }
  split; cbn.
  - intros m. assert (Hs : StronglySorted version_le (merge_sort version_le (map_to_list m))).
    { apply Sorted_StronglySorted; [intros ???; unfold version_le; lia|].
      apply Sorted_merge_sort. intros x y. unfold version_le. lia. }
    assert (Hnd : NoDup (merge_sort version_le (map_to_list m)).*1)
      by (rewrite merge_sort_Permutation; apply NoDup_fst_map_to_list).
    induction Hs as [|x l Hl IH Hx]; [constructor|]. cbn in Hnd. apply NoDup_cons in Hnd as [Hni Hnd].
    constructor; [by apply IH|]. rewrite Forall_forall in Hx. apply Forall_forall. intros y Hy Ha.
    specialize (Hx y Hy). unfold version_le in Hx.
    assert (x.1 <> y.1) by (intros Heq; apply Hni; rewrite Heq; by apply list_elem_of_fmap_2).
    destruct x as [[] ?], y as [[] ?]. cbn in *. subst. enough (n <> n0) by lia. by intros ->.
  - intros a v b m [k b']. rewrite !Hin. cbn. rewrite lookup_insert_Some. naive_solver.
  - intros a v m [k b']. rewrite !Hin. cbn. rewrite lookup_delete_Some. naive_solver.
Qed.
Global Instance map_table_remove : TableRemove (gmap bytes bytes) := {| tremove t k := delete k t |}.
Global Instance map_table_remove_laws : TableRemoveLaws (gmap bytes bytes).
Proof. split; intros; cbn; by simplify_map_eq. Qed.

(** A codec for the values of a list: a value is its index. *)
Definition index_cbor {A} `{EqDecision A} (l : list A) (x : A) : result string bytes :=
  match list_find (fun y => y = x) l with
  | Some (i, _) => Ok [byte_of (N.of_nat i)]
  | None => Err "no encoding"%string
  end.
Definition index_of_cbor {A} (l : list A) (b : bytes) : result string A :=
  match b with
  | [k] => ok_or "no value"%string (l !! N.to_nat (Byte.to_N k))
  | _ => Err "no value"%string
  end.
Lemma index_cbor_law {A} `{EqDecision A} (l : list A) x b :
  length l <= 256 -> index_cbor l x = Ok b -> index_of_cbor l b = Ok x.
Proof.
  unfold index_cbor. intros Hl. destruct (list_find _ l) as [[i y]|] eqn:Hf; [|done].
  intros [= <-]. apply list_find_Some in Hf as (Hi & -> & _). cbn.
  pose proof (lookup_lt_Some _ _ _ Hi). rewrite to_N_byte_of, N.mod_small by lia.
  by rewrite Nat2N.id, Hi.
Qed.

Global Instance snapshot_eq_dec : EqDecision AggregateSnapshot.
Proof. solve_decision. Defined.
Global Instance position_eq_dec : EqDecision StreamPosition.
Proof. solve_decision. Defined.
Definition index_codecs (es : events) (xs : list AggregateSnapshot) (ps : list StreamPosition)
  : EventCodecs :=
  mkEventCodecs (index_cbor es) (index_of_cbor es) (index_cbor xs) (index_of_cbor xs)
    (index_cbor ps) (index_of_cbor ps).
Lemma index_codecs_ok es xs ps :
  length es <= 256 -> length xs <= 256 -> length ps <= 256 -> codecs_ok (index_codecs es xs ps).
Proof. intros. split; cbn; intros; by apply index_cbor_law. Qed.

Definition redb_map_empty : RedbEventStore (gmap (bytes * N) bytes) (gmap bytes bytes) :=
  mkRedbEvents ∅ ∅ ∅.

Definition demo_event (id version : N) : RuntimeEventEnvelope :=
  mkEnvelope id (sanad_wire Hash.zero) "Transfer.Locked" version None 0 "{}" 0 0.
Definition demo_position : StreamPosition := mkPosition (sanad_wire Hash.zero) 1 None 0.
Definition demo_ops : list ev_op :=
  [OAppend (demo_event 1 1); OBatch [demo_event 2 2; demo_event 3 3]; OPosition demo_position].
Definition demo_codecs : EventCodecs :=
  index_codecs [demo_event 1 1; demo_event 2 2; demo_event 3 3; demo_event 4 3] [] [demo_position].

(** Three events, read after the first; then another third one replaces the third. *)
Lemma event_backends_agree_witness :
  exists r, run_accepted (redb_exec demo_codecs) demo_ops redb_map_empty = Some r /\
    redb_get_after_position demo_codecs None demo_position 10 r = Ok [demo_event 2 2; demo_event 3 3] /\
    exists r' l, redb_append demo_codecs None (demo_event 4 3) r = (r', Ok tt) /\
      redb_get_events demo_codecs None Hash.zero None r' = Ok l /\
      demo_event 3 3 ∉ l /\ demo_event 4 3 ∈ l.
Proof.
  destruct (event_backends_agree demo_codecs redb_map_empty demo_ops
    (mem_update_position demo_position
       (set_events (sanad_wire Hash.zero) [demo_event 1 1; demo_event 2 2; demo_event 3 3] mem_store_new)))
    as (r & Hr & _ & Hafter & Hover).
  - apply index_codecs_ok; cbn; lia.
  - by split; [vm_compute|split; intros k; cbn; apply lookup_empty].
  - repeat constructor; vm_compute; try reflexivity; discriminate.
  - vm_compute. reflexivity.
  - exists r. split; [exact Hr|]. split; [rewrite Hafter by lia; vm_compute; reflexivity|].
    destruct (Hover (demo_event 4 3) Hash.zero eq_refl eq_refl) as (r' & l & Happ & Hget & Hl).
    exists r', l. split; [exact Happ|]. split; [exact Hget|]. rewrite !Hl. split; [|by left].
    intros [Hx|[_ Hx]]; [discriminate Hx|]. by apply Hx.
Defined.
