(* ===== verification/Effects.v ===== *)
(** * The accesses of the transfer coordinator (csv-chain-ports/src/lib.rs,
      csv-runtime/src/transfer_coordinator.rs)

    Everything a call of the coordinator reads or changes outside itself is an access:
    the clock, its stores, its lease, breaker and admission, and the chain adapters.  A
    call is a tree of accesses that goes on with the answer of each.  Metrics, logging
    and the notifications of the event bus are left out.

    A trace is what a call did up to some moment: the accesses it made with the answers
    they got.  Nothing is assumed of the answers, so a property of all traces holds
    whatever the stores and chains say, and wherever the process stops.  [wp] is the
    weakest precondition of a property of traces. *)

From S2P Require Import Prelude Ord Bytes Hashing Text Seal ProofTaxonomy Signature CrossChain TransferState ReplayDb Journal Coordinator Capabilities Admission Runtime ExecutionLease EventStore.

(** ** What adapters answer *)

Inductive AdapterError :=
| RpcError (m : string) | ConfigError (m : string) | SerializationError (m : string)
| NetworkError (m : string) | AProofVerificationFailed (m : string) | AGeneric (m : string).
(** [Display for AdapterError] *)
Definition adapter_message (e : AdapterError) : string :=
  match e with
  | RpcError m => "RPC error: " +:+ m
  | ConfigError m => "Configuration error: " +:+ m
  | SerializationError m => "Serialization error: " +:+ m
  | NetworkError m => "Network error: " +:+ m
  | AProofVerificationFailed m => "Proof verification failed: " +:+ m
  | AGeneric m => "Generic error: " +:+ m
  end.

Record LockResult := mkLockResult { lr_tx_hash : string; lr_block_height : N }.
Record DestinationMaterialization := mkMaterialization {
  dm_chain_id : string;
  dm_object_id : option string;
  dm_seal_ref : option string;
  dm_registry_ref : option string;
  dm_commitment : option Bytes32;
  dm_owner : option bytes
}.
Definition materialization_unavailable (chain_id : string) : DestinationMaterialization :=
  mkMaterialization chain_id None None None None None.
Record MintResult := mkMintResult {
  mi_tx_hash : string;
  mi_block_height : N;
  mi_materialization : DestinationMaterialization
}.
Inductive ChainSealStatus := SealAvailable | SealConsumed | SealLocked.

(** ** Accesses, with the type of their answers *)

Inductive op : Type -> Type :=
| Now : op N
| NewUuid : op Uuid
| Sleep (duration : N) : op unit
(* the coordinator's lease, the execution leases, admission, the breaker *)
| IsHeldBy (runtime : string) : op bool
| AcceptLease (now : N) (l : TransferLease) : op (result TransferCoordinatorError unit)
| AcquirePermit (source destination : string) : op (result AdmissionError (list string))
| ReleasePermit (chains : list string) : op unit
| AllowRequest (now : N) : op bool
| BreakerSuccess : op unit
| BreakerFailure (now : N) : op unit
(* the journal, the checkpoints, the event store *)
| Record (e : TransferPhaseEntry) : op (result JournalError unit)
| LatestEntry (id : string) : op (result JournalError (option TransferPhaseEntry))
| IncompleteTransfers : op (result JournalError (list TransferPhaseEntry))
| CreateCheckpoint (id : string) (stage : TransferStage) (data : bytes) : op unit
| LatestVersion (sanad : Hash) : op (result EventStoreError N)
| AppendEvent (e : RuntimeEventEnvelope) : op (result EventStoreError unit)
(* the replay database *)
| ReplayContains (id : bytes) : op (result ReplayDb.ReplayDbError bool)
| Consume (id : bytes) : op (result ReplayDb.ReplayDbError unit)
| Confirm (id : bytes) : op (result ReplayDb.ReplayDbError unit)
| RollBack (id : ReplayId) : op (result ReplayDb.ReplayDbError unit)
| LoadTransfers : op (result ReplayDb.ReplayDbError (list HashEntry))
| StoreTransfer (e : HashEntry) : op (result ReplayDb.ReplayDbError unit)
(* the adapter registry *)
| CapabilitiesOf (chain : string) : op (option ChainCapabilities)
| SchemeOf (chain : string) : op (option SignatureScheme)
| LockSanad (chain : string) (t : CrossChainTransfer) : op (result AdapterError LockResult)
| TxFinalityOf (chain tx : string) : op (result AdapterError TxFinality)
| BuildProof (chain : string) (t : CrossChainTransfer) (l : LockResult) : op (result AdapterError ProofBundle)
| CheckSeal (chain : string) (id : bytes) : op (result AdapterError ChainSealStatus)
| ValidateProof (chain : string) (t : CrossChainTransfer) (p : ProofBundle) : op (result AdapterError unit)
| MintSanad (chain : string) (t : CrossChainTransfer) (payload : bytes) : op (result AdapterError MintResult)
| ConfirmTx (chain tx : string) : op (result AdapterError MintResult)
(* the provider of recovery contexts *)
| ContextFor (id : string) : op (result TransferCoordinatorError RuntimeExecutionContext).

(** ** Programs *)

Inductive prog (A : Type) : Type :=
| Done (r : result TransferCoordinatorError A)
| Vis {X : Type} (o : op X) (k : X -> prog A).
Global Arguments Done {A}.
Global Arguments Vis {A X}.

(** What follows a program, whatever it returns; an error ends a sequence. *)
Fixpoint prog_then {A B} (p : prog A) (k : result TransferCoordinatorError A -> prog B) : prog B :=
  match p with
  | Done r => k r
  | Vis o f => Vis o (fun x => prog_then (f x) k)
  end.
Global Instance prog_bind : MBind prog := fun A B k p =>
  prog_then p (fun r => match r with Ok a => k a | Err e => Done (Err e) end).
Global Instance prog_ret : MRet prog := fun A a => Done (Ok a).

Definition fail {A} (e : TransferCoordinatorError) : prog A := Done (Err e).
(** A pure fallible step. *)
Definition lift {A} (r : result TransferCoordinatorError A) : prog A := Done r.
(** An access whose answer is a value. *)
Definition call {X} (o : op X) : prog X := Vis o (fun x => Done (Ok x)).
(** [o.map_err(f)?] *)
Definition try_op {E X} (f : E -> TransferCoordinatorError) (o : op (result E X)) : prog X :=
  Vis o (fun r => Done (map_err f r)).
(** [let _ = o;] *)
Definition ignore_op {X} (o : op X) : prog unit := Vis o (fun _ => Done (Ok tt)).
(** [if c { return Err(e) }] *)
Definition stop_if (c : bool) (e : TransferCoordinatorError) : prog unit :=
  if c then fail e else Done (Ok tt).

(** ** Traces *)

(** An access with its answer. *)
Inductive event : Type :=
| Ev {X : Type} (o : op X) (x : X).
Notation trace := (list event).

(** The program makes these accesses, gets these answers, and has this left to do. *)
Inductive steps {A} : prog A -> trace -> prog A -> Prop :=
| steps_nil p : steps p [] p
| steps_cons {X} (o : op X) (k : X -> prog A) x t p :
    steps (k x) t p -> steps (Vis o k) (Ev o x :: t) p.

(** A trace of a call, finished or not. *)
Definition runs {A} (p : prog A) (t : trace) : Prop := exists q, steps p t q.

Lemma steps_app {A} (p : prog A) t q t' r : steps p t q -> steps q t' r -> steps p (t ++ t') r.
Proof. induction 1; cbn; [done|]. intros. constructor. auto. Qed.

(** ** A program logic for traces

    [may h o]: with the history [h], the access [o] may be made.  The history of a
    program that follows another extends the first's. *)

Section Logic.
Variable may : trace -> forall X, op X -> Prop.

Fixpoint wp {A} (h : trace) (p : prog A) (Q : trace -> result TransferCoordinatorError A -> Prop) : Prop :=
  match p with
  | Done r => Q h r
  | @Vis _ X o k => may h X o /\ forall x, wp (h ++ [Ev o x]) (k x) Q
  end.

Lemma run_mono {A} h (p : prog A) (Q Q' : trace -> result TransferCoordinatorError A -> Prop) :
  wp h p Q -> (forall h' r, Q h' r -> Q' h' r) -> wp h p Q'.
Proof.
  intros H HQ. revert h H. induction p as [r|X o k IH]; intros h H; cbn in *; [by apply HQ|].
  destruct H as [Hm Hk]. split; [done|]. intros x. apply IH, Hk.
Qed.

Lemma run_then {A B} h (p : prog A) (k : result TransferCoordinatorError A -> prog B) Q :
  wp h p (fun h r => wp h (k r) Q) -> wp h (prog_then p k) Q.
Proof.
  revert h. induction p as [r|X o f IH]; intros h H; cbn in *; [done|].
  destruct H as [Hm Hk]. split; [done|]. intros x. apply IH, Hk.
Qed.

Lemma run_bind {A B} h (p : prog A) (f : A -> prog B) Q :
  wp h p (fun h r => match r with Ok a => wp h (f a) Q | Err e => Q h (Err e) end) ->
  wp h (p ≫= f) Q.
Proof. intros H. apply run_then. eapply run_mono; [exact H|]. by intros h' [a|e]. Qed.

(** Every access of a trace was allowed when it was made. *)
Fixpoint allowed (h t : trace) : Prop :=
  match t with
  | [] => True
  | @Ev X o x :: t' => may h X o /\ allowed (h ++ [Ev o x]) t'
  end.

Lemma allowed_at h t1 X (o : op X) x t2 : allowed h (t1 ++ Ev o x :: t2) -> may (h ++ t1) X o.
Proof.
  revert h. induction t1 as [|[Y o' y] t1 IH]; intros h; cbn; intros [Hm Ht].
  - by rewrite app_nil_r.
  - apply IH in Ht. by rewrite <- app_assoc in Ht.
Qed.

Lemma wp_steps {A} h (p : prog A) Q t q : wp h p Q -> steps p t q -> allowed h t /\ wp (h ++ t) q Q.
Proof.
  intros Hw Hs. revert h Hw. induction Hs as [p|X o k x t q Hs IH]; intros h Hw; cbn.
  - by rewrite app_nil_r.
  - destruct Hw as [Hm Hk]. destruct (IH _ (Hk x)) as [Ht Hq]. rewrite <- app_assoc in Hq. done.
Qed.

Lemma wp_runs {A} (p : prog A) Q t1 X (o : op X) x t2 :
  wp [] p Q -> runs p (t1 ++ Ev o x :: t2) -> may t1 X o.
Proof.
  intros Hw [q Hs]. destruct (wp_steps [] p Q _ q Hw Hs) as [Ha _]. exact (allowed_at [] t1 X o x t2 Ha).
Qed.
End Logic.

(** ** Worlds that answer *)

Section Advance.
Context {W : Type}.
(** What a world answers to an access, and what it becomes. *)
Variable serve : forall X, op X -> W -> X * W.

(** What a program does in at most [n] accesses, with what it has left to do. *)
Fixpoint advance {A} (n : nat) (p : prog A) (w : W) : trace * prog A * W :=
  match n, p with
  | S n, @Vis _ X o k =>
      let '(x, w') := serve X o w in
      let '(t, q, w'') := advance n (k x) w' in
      (Ev o x :: t, q, w'')
  | _, _ => ([], p, w)
  end.

Lemma advance_steps {A} n (p : prog A) w : steps p (advance n p w).1.1 (advance n p w).1.2.
Proof.
  revert p w. induction n as [|n IH]; intros p w; [constructor|]. destruct p as [r|X o k]; [constructor|].
  cbn. destruct (serve X o w) as [x w']. specialize (IH (k x) w').
  destruct (advance n (k x) w') as [[t q] w'']. by constructor.
Qed.
Lemma advance_runs {A} n (p : prog A) w : runs p (advance n p w).1.1.
Proof. eexists. apply advance_steps. Qed.
End Advance.
