(* ===== verification/Settlement.v ===== *)
(** * Mint attestations and settlement receipts
    (csv-chain-ports/src/lib.rs, csv-runtime/src/transfer_coordinator.rs)

    What the runtime binds for the verifiers to sign: the inputs of a mint attestation
    and of a settlement receipt with their digests, the identities they are made of,
    and the builders that fill them from a verified bundle and from the evidence of a
    confirmed mint.  A digest determines what was signed: two equal ones are of the same
    inputs, unless two of the strings hashed collide. *)

From S2P Require Import Prelude Ord Bytes Hashing Text Seal ProofTaxonomy CrossChain Coordinator ReplayDb EventStore.

(** ** The signed inputs *)

Record MintAttestationInputs := mkAttestation {
  ma_destination_chain_id : Bytes32;
  ma_destination_contract : Bytes32;
  ma_sanad_id : Bytes32;
  ma_commitment : Bytes32;
  ma_source_chain : Bytes32;
  ma_destination_owner : bytes;
  ma_lock_event_id : Bytes32;
  ma_nullifier : Bytes32;
  ma_attestation_expiry : N
}.
Record SettlementReceiptInputs := mkReceipt {
  sr_source_chain_id : Bytes32;
  sr_source_escrow_contract : Bytes32;
  sr_sanad_id : Bytes32;
  sr_lock_event_id : Bytes32;
  sr_destination_chain_id : Bytes32;
  sr_destination_mint_tx_ref : Bytes32;
  sr_operator_payout_address : Bytes32;
  sr_receipt_expiry : N
}.
Record RuntimeMintRequest := mkMintRequest {
  mr_attestation : MintAttestationInputs;
  mr_verifier_signatures : list bytes;
  mr_proof_bundle : bytes
}.
Record RuntimeSettlementRequest := mkSettlementRequest {
  rq_receipt : SettlementReceiptInputs;
  rq_verifier_signatures : list bytes
}.

Definition MINT_ATTESTATION_DOMAIN : bytes := as_bytes "csv.mint.attestation.v1".
Definition SETTLEMENT_RECEIPT_DOMAIN : bytes := as_bytes "csv.settlement.receipt.v1".

(** The evidence of a confirmed mint. *)
Record SettlementEvidence := mkEvidence {
  se_transfer_id : string;
  se_sanad_id : Bytes32;
  se_source_chain : string;
  se_destination_chain : string;
  se_lock_event_id : Bytes32;
  se_nullifier : Bytes32;
  se_commitment : Bytes32;
  se_lock_tx_hash : string;
  se_mint_tx_hash : string;
  se_mint_block_height : N;
  se_recorded_at : N
}.

(** [commitment[..len].copy_from_slice(&anchor[..len])] of a zeroed array. *)
Program Definition copy32 (b : bytes) : Bytes32 := mkBytes32 (take 32 b ++ replicate (32 - length b) Byte.x00) _.
Next Obligation.
  intros b. apply Nat.eqb_eq. rewrite length_app, length_take, length_replicate. lia.
Qed.
Definition commitment_from_bundle (p : ProofBundle) : Bytes32 := copy32 (anchor_id (anchor_ref p)).

Section Digests.
Variable crates : NativeHashes.
Notation sha256 := (nh_sha256 crates).

(** [MintAttestationInputs::attestation_digest] *)
Definition attestation_preimage (a : MintAttestationInputs) : bytes :=
  MINT_ATTESTATION_DOMAIN ++ b32 (ma_destination_chain_id a) ++ b32 (ma_destination_contract a) ++
  b32 (ma_sanad_id a) ++ b32 (ma_commitment a) ++ b32 (ma_source_chain a) ++
  b32 (hash_bytes crates HKeccak256 (ma_destination_owner a)) ++ b32 (ma_lock_event_id a) ++
  b32 (ma_nullifier a) ++ u64_be (ma_attestation_expiry a).
Definition attestation_digest (a : MintAttestationInputs) : Bytes32 :=
  hash_bytes crates HSha256 (attestation_preimage a).

(** [SettlementReceiptInputs::receipt_digest] *)
Definition receipt_preimage (r : SettlementReceiptInputs) : bytes :=
  SETTLEMENT_RECEIPT_DOMAIN ++ b32 (sr_source_chain_id r) ++ b32 (sr_source_escrow_contract r) ++
  b32 (sr_sanad_id r) ++ b32 (sr_lock_event_id r) ++ b32 (sr_destination_chain_id r) ++
  b32 (sr_destination_mint_tx_ref r) ++ b32 (sr_operator_payout_address r) ++
  u64_be (sr_receipt_expiry r).
Definition receipt_digest (r : SettlementReceiptInputs) : Bytes32 :=
  hash_bytes crates HSha256 (receipt_preimage r).

(** ** Identities *)

Definition contract_chain_id (name : string) : Bytes32 :=
  hash_bytes crates HKeccak256 (as_bytes ("csv.chain." +:+ name)).
Definition lock_event_id (t : CrossChainTransfer) : Bytes32 :=
  csv_tagged_hash sha256 (as_bytes "csv.mint.lock-event.v1")
    (ct_lock_tx_hash t ++ u32_le (ct_lock_output_index t)).
Definition mint_nullifier (p : ProofBundle) : Bytes32 :=
  csv_tagged_hash sha256 (as_bytes "csv.mint.nullifier.v1") (seal_id (seal_ref p)).
Definition destination_mint_tx_ref (mint_tx_hash : string) : Bytes32 :=
  csv_tagged_hash sha256 (as_bytes "csv.settlement.mint-ref.v1") (as_bytes mint_tx_hash).

(** ** Builders *)

Definition build_runtime_mint_request (t : CrossChainTransfer) (p : ProofBundle)
    (bundle_bytes destination_owner : bytes) : RuntimeMintRequest :=
  mkMintRequest
    (mkAttestation (contract_chain_id (ct_destination_chain t)) zero32 (ct_sanad_id t)
       (commitment_from_bundle p) (contract_chain_id (ct_source_chain t)) destination_owner
       (lock_event_id t) (mint_nullifier p) 0)
    [] bundle_bytes.

(** [now] is zero before the epoch. *)
Definition build_settlement_evidence (now : N) (t : CrossChainTransfer) (p : ProofBundle)
    (mint_tx_hash : string) (mint_block_height : N) : SettlementEvidence :=
  mkEvidence (ct_id t) (ct_sanad_id t) (ct_source_chain t) (ct_destination_chain t)
    (lock_event_id t) (mint_nullifier p) (commitment_from_bundle p)
    (of_bytes (hex_encode (ct_lock_tx_hash t))) mint_tx_hash mint_block_height now.

Definition build_settlement_receipt (e : SettlementEvidence) (payout : Bytes32) (expiry : N)
  : SettlementReceiptInputs :=
  mkReceipt (contract_chain_id (se_source_chain e)) zero32 (se_sanad_id e) (se_lock_event_id e)
    (contract_chain_id (se_destination_chain e)) (destination_mint_tx_ref (se_mint_tx_hash e))
    payout expiry.

Definition transfer_from_settlement_evidence (e : SettlementEvidence) : CrossChainTransfer :=
  mkTransfer (se_transfer_id e) (se_source_chain e) (se_destination_chain e)
    (default [] (hex_decode (as_bytes (se_lock_tx_hash e)))) 0 (se_sanad_id e) [].

(** The strings hashed for the identities of a chain and of a lock. *)
Definition chain_preimage (name : string) : bytes := as_bytes ("csv.chain." +:+ name).
Definition lock_event_preimage (t : CrossChainTransfer) : bytes :=
  csv_preimage sha256 (as_bytes "csv.mint.lock-event.v1") (ct_lock_tx_hash t ++ u32_le (ct_lock_output_index t)).

(** What the submitting adapter adds: its contract's address. *)
Definition bind_contract (contract : Bytes32) (r : SettlementReceiptInputs) : SettlementReceiptInputs :=
  mkReceipt (sr_source_chain_id r) contract (sr_sanad_id r) (sr_lock_event_id r)
    (sr_destination_chain_id r) (sr_destination_mint_tx_ref r) (sr_operator_payout_address r)
    (sr_receipt_expiry r).

(** ** Lemmas *)

Lemma attestation_preimage_inj a b :
  (ma_attestation_expiry a <= u64_max)%N -> (ma_attestation_expiry b <= u64_max)%N ->
  attestation_preimage a = attestation_preimage b ->
  a = b \/ collision_in (nh_keccak256 crates) [ma_destination_owner a; ma_destination_owner b].
Proof.
  intros Ha Hb H. unfold attestation_preimage in H. apply app_inv_head in H.
  destruct a, b. cbn [ma_destination_chain_id ma_destination_contract ma_sanad_id ma_commitment
    ma_source_chain ma_destination_owner ma_lock_event_id ma_nullifier ma_attestation_expiry hash_bytes] in *.
  do 5 (apply b32_app_inj in H as [-> H]). apply b32_app_inj in H as [Hk H].
  do 2 (apply b32_app_inj in H as [-> H]). apply u64_be_inj in H as ->; [|done|done].
  hash_inj Hk. left. by subst.
Qed.

Lemma receipt_preimage_inj a b :
  (sr_receipt_expiry a <= u64_max)%N -> (sr_receipt_expiry b <= u64_max)%N ->
  receipt_preimage a = receipt_preimage b -> a = b.
Proof.
  intros Ha Hb H. unfold receipt_preimage in H. apply app_inv_head in H. destruct a, b.
  cbn [sr_source_chain_id sr_source_escrow_contract sr_sanad_id sr_lock_event_id sr_destination_chain_id
    sr_destination_mint_tx_ref sr_operator_payout_address sr_receipt_expiry] in *.
  do 7 (apply b32_app_inj in H as [-> H]). by apply u64_be_inj in H as ->.
Qed.

(** The preimages have 287 and 257 bytes. *)
Lemma attestation_preimage_length a : length (attestation_preimage a) = 287.
Proof.
  unfold attestation_preimage. rewrite !length_app, !b32_length. unfold u64_be. rewrite length_be_bytes. reflexivity.
Qed.
Lemma receipt_preimage_length r : length (receipt_preimage r) = 257.
Proof.
  unfold receipt_preimage. rewrite !length_app, !b32_length. unfold u64_be. rewrite length_be_bytes. reflexivity.
Qed.

Lemma contract_chain_id_inj x y :
  contract_chain_id x = contract_chain_id y ->
  x = y \/ collision_in (nh_keccak256 crates) [chain_preimage x; chain_preimage y].
Proof.
  unfold contract_chain_id, chain_preimage. cbn [hash_bytes raw_hash]. intros H. hash_inj H. left.
  apply as_bytes_inj in H. by apply (inj (String.append "csv.chain.")) in H.
Qed.

Lemma lock_event_id_inj t u :
  (ct_lock_output_index t <= u32_max)%N -> (ct_lock_output_index u <= u32_max)%N ->
  lock_event_id t = lock_event_id u ->
  (ct_lock_tx_hash t = ct_lock_tx_hash u /\ ct_lock_output_index t = ct_lock_output_index u)
  \/ collision_in sha256 [lock_event_preimage t; lock_event_preimage u].
Proof.
  unfold lock_event_id, lock_event_preimage. intros Ht Hu H. hash_inj H. left.
  apply app_inj_2 in H as [-> H]; [|by rewrite !length_u32_le]. split; [done|]. by apply u32_le_inj.
Qed.

(** What is hashed for a receipt of a transfer and a mint: with SHA-256 and with Keccak-256. *)
Definition release_hashed (t : CrossChainTransfer) (mint : string) (r : SettlementReceiptInputs) : list bytes :=
  [receipt_preimage r; lock_event_preimage t;
   csv_preimage sha256 (as_bytes "csv.settlement.mint-ref.v1") (as_bytes mint)].
Definition chains_hashed (t : CrossChainTransfer) : list bytes :=
  [chain_preimage (ct_source_chain t); chain_preimage (ct_destination_chain t)].
End Digests.

(** The digests verifiers sign determine what is authorised.  Equal attestation
    digests are of equal inputs and equal receipt digests of equal receipts, no
    attestation is a receipt, and two receipts built from the evidence of confirmed
    mints, whatever contract the adapters bound, with one digest release the escrow of
    one lock: the same lock transaction and output, Sanad, chains, mint transaction,
    contract, payout and expiry; unless two of the strings that are hashed for them, which
    each clause lists, collide under SHA-256 or Keccak-256.  Escrow is
    never released on the signatures of another lock, mint or beneficiary. *)
Theorem signed_digests_bind crates (a b : MintAttestationInputs) (r q : SettlementReceiptInputs)
    (t u : CrossChainTransfer) (p p' : ProofBundle) (mint mint' : string) (height height' now now' : N)
    (payout payout' contract contract' : Bytes32) (expiry expiry' : N)
    (Ha : (ma_attestation_expiry a <= u64_max)%N) (Hb : (ma_attestation_expiry b <= u64_max)%N)
    (Hr : (sr_receipt_expiry r <= u64_max)%N) (Hq : (sr_receipt_expiry q <= u64_max)%N)
    (Ht : (ct_lock_output_index t <= u32_max)%N) (Hu : (ct_lock_output_index u <= u32_max)%N)
    (He : (expiry <= u64_max)%N) (He' : (expiry' <= u64_max)%N) :
  let sha := collision_in (nh_sha256 crates) in
  let keccak := collision_in (nh_keccak256 crates) in
  let receipt t p mint height now payout contract expiry :=
    bind_contract contract (build_settlement_receipt crates
      (build_settlement_evidence crates now t p mint height) payout expiry) in
  let released := receipt t p mint height now payout contract expiry in
  let released' := receipt u p' mint' height' now' payout' contract' expiry' in
  (attestation_digest crates a = attestation_digest crates b ->
   a = b \/ sha [attestation_preimage crates a; attestation_preimage crates b] \/
   keccak [ma_destination_owner a; ma_destination_owner b]) /\
  (receipt_digest crates r = receipt_digest crates q ->
   r = q \/ sha [receipt_preimage r; receipt_preimage q]) /\
  (attestation_digest crates a = receipt_digest crates r ->
   sha [attestation_preimage crates a; receipt_preimage r]) /\
  (receipt_digest crates released = receipt_digest crates released' ->
   (ct_lock_tx_hash t = ct_lock_tx_hash u /\ ct_lock_output_index t = ct_lock_output_index u /\
    ct_sanad_id t = ct_sanad_id u /\ ct_source_chain t = ct_source_chain u /\
    ct_destination_chain t = ct_destination_chain u /\ mint = mint' /\ payout = payout' /\
    contract = contract' /\ expiry = expiry') \/
   sha (release_hashed crates t mint released ++ release_hashed crates u mint' released') \/
   keccak (chains_hashed t ++ chains_hashed u)).
Proof.
  cbn zeta. unfold attestation_digest, receipt_digest. cbn [hash_bytes]. split; [|split; [|split]].
  - intros H. hash_inj H. apply attestation_preimage_inj in H as [->|?]; auto.
  - intros H. hash_inj H. left. by apply receipt_preimage_inj.
  - intros H. eapply hash_binds in H as [H|?]; [exfalso|eassumption|pick..].
    apply (f_equal length) in H. by rewrite attestation_preimage_length, receipt_preimage_length in H.
  - intros H. unfold release_hashed, chains_hashed. hash_inj H.
    apply receipt_preimage_inj in H; [|done|done]. injection H as Hsrc Hc Hs Hl Hd Hm Hp Hx.
    apply lock_event_id_inj in Hl as [[Hl1 Hl2]|Hl]; [|right; left|done|done].
    2: { eapply collision_in_mono, Hl. intros x Hin. clear -Hin. set_solver. }
    unfold destination_mint_tx_ref in Hm. hash_inj Hm. apply as_bytes_inj in Hm.
    apply contract_chain_id_inj in Hsrc as [Hsrc|Hsrc], Hd as [Hd|Hd];
      [left; naive_solver|right; right..].
    all: (eapply collision_in_mono, Hd || eapply collision_in_mono, Hsrc); intros x Hin; clear -Hin; set_solver.
Qed.

(** ** Witness *)

Definition toy_crates : NativeHashes := mkNativeHashes toy_hash toy_hash toy_hash (fun b => (toy_hash b, toy_hash b)).
Definition demo_transfer (index : N) : CrossChainTransfer :=
  mkTransfer "t" "bitcoin" "sui" (replicate 32 Byte.x07) index zero32 [].
Definition demo_receipt (index expiry : N) : SettlementReceiptInputs :=
  bind_contract zero32 (build_settlement_receipt toy_crates
    (build_settlement_evidence toy_crates 7 (demo_transfer index) (demo_bundle Secp256k1) "0xaa" 9) zero32 expiry).

(** Receipts for two outputs of one transaction have different digests, so that equality
    is not what the last clause is about alone. *)
Lemma signed_digests_bind_witness :
  receipt_digest toy_crates (demo_receipt 0 5) <> receipt_digest toy_crates (demo_receipt 1 5) /\
  (receipt_digest toy_crates (demo_receipt 1 5) = receipt_digest toy_crates (demo_receipt 1 6) ->
   5%N = 6%N \/
   collision_in toy_hash (release_hashed toy_crates (demo_transfer 1) "0xaa" (demo_receipt 1 5) ++
                          release_hashed toy_crates (demo_transfer 1) "0xaa" (demo_receipt 1 6)) \/
   collision_in toy_hash (chains_hashed (demo_transfer 1) ++ chains_hashed (demo_transfer 1))).
Proof.
  split; [vm_compute; discriminate|].
  intros H. destruct (signed_digests_bind toy_crates
    (mkAttestation zero32 zero32 zero32 zero32 zero32 [] zero32 zero32 0)
    (mkAttestation zero32 zero32 zero32 zero32 zero32 [] zero32 zero32 0)
    (demo_receipt 1 5) (demo_receipt 1 6) (demo_transfer 1) (demo_transfer 1) (demo_bundle Secp256k1) (demo_bundle Secp256k1)
    "0xaa" "0xaa" 9 9 7 7 zero32 zero32 zero32 zero32 5 6
    ltac:(done) ltac:(done) ltac:(done) ltac:(done) ltac:(done) ltac:(done) ltac:(done) ltac:(done))
    as (_ & _ & _ & Hlast).
  destruct (Hlast H) as [(_ & _ & _ & _ & _ & _ & _ & _ & Hx)|Hbroken]; [by left|by right].
Defined.

(** * Escrow settlement (csv-runtime/src/transfer_coordinator.rs)

    After a mint, the escrow on the source chain is released to the operator; without
    one it is refunded.  The coordinator records the evidence of a mint and the outcome
    of a settlement as events of the Sanad and decides by reading them back.  A call
    answers with the store, what it submitted to the chain and its result.

    Against the interface of the event store ([EventLog]): a Sanad is settled at most
    once by settlement calls.  And what the last steps of a transfer, which number
    their events themselves, do to the evidence in either backend.

    JSON, CBOR and the answer of the chain are parameters; metrics and logging are left
    out. *)

Record SettlementReleaseRecord := mkRelease {
  rl_released_to_operator : bool;
  rl_transfer_id : string;
  rl_sanad_id : Bytes32;
  rl_source_chain : string;
  rl_lock_event_id : Bytes32;
  rl_destination_mint_tx_ref : Bytes32;
  rl_operator_payout_address : Bytes32;
  rl_settlement_tx_hash : string;
  rl_settlement_block_height : N;
  rl_settled_at : N
}.
Inductive SettlementStatus :=
| Unsettled
| Released (r : SettlementReleaseRecord)
| Refunded (r : SettlementReleaseRecord).

Record SettlementResult := mkSettlementResult { st_tx_hash : string; st_block_height : N }.

Definition TRANSFER_COMPLETE : string := "Transfer.Complete".
Definition TRANSFER_SETTLEMENT_RECORDED : string := "Transfer.SettlementRecorded".
Definition TRANSFER_SETTLEMENT_RELEASED : string := "Transfer.SettlementReleased".
Definition TRANSFER_SETTLEMENT_REFUNDED : string := "Transfer.SettlementRefunded".
Definition EVENT_VERSION_COMPLETE : N := 5.

(** What is submitted to the source chain. *)
Inductive Submission :=
| SubmitRelease (chain : string) (t : CrossChainTransfer) (payload : bytes)
| SubmitRefund (chain : string) (t : CrossChainTransfer).

(** What one call meets: the failures of its four accesses to the store, the UUIDs and
    times it draws, and the chain's answer. *)
Record Io := mkIo {
  io_status_fault : option string;
  io_evidence_fault : option string;
  io_latest_fault : option string;
  io_append_fault : option string;
  io_fresh : Uuid * Uuid;
  io_now : N;
  io_timestamp : N;
  io_runtime : Uuid;
  io_chain : Submission -> result string SettlementResult
}.

Record SettlementCodecs := mkSettlementCodecs {
  evidence_json : SettlementEvidence -> result string string;
  evidence_of_json : string -> result string SettlementEvidence;
  record_json : SettlementReleaseRecord -> result string string;
  record_of_json : string -> result string SettlementReleaseRecord;
  request_cbor : RuntimeSettlementRequest -> result string bytes;
  show_uuid : Uuid -> string
}.
Record settlement_codecs_ok (j : SettlementCodecs) : Prop := {
  evidence_json_law : forall e p, evidence_json j e = Ok p -> evidence_of_json j p = Ok e;
  record_json_law : forall r p, record_json j r = Ok p -> record_of_json j p = Ok r
}.

Notation TCE := TransferCoordinatorError.

Section Settlement.
Context {S : Type} `{EventLog S}.
Variables (crates : NativeHashes) (j : SettlementCodecs).

Definition is_recorded (e : RuntimeEventEnvelope) : bool :=
  bool_decide (ev_event_type e = TRANSFER_SETTLEMENT_RECORDED).
Definition is_settlement (e : RuntimeEventEnvelope) : bool :=
  bool_decide (ev_event_type e = TRANSFER_SETTLEMENT_RELEASED)
  || bool_decide (ev_event_type e = TRANSFER_SETTLEMENT_REFUNDED).

(** [events.into_iter().rev().find(..)] *)
Definition latest_event (p : RuntimeEventEnvelope -> bool) (l : events) : option RuntimeEventEnvelope :=
  find p (rev l).

Definition read_events (fault : option string) (sanad : Hash) (s : S) : result TCE events :=
  map_err (fun e => RuntimeError ("Event store error: " +:+ event_error_message (show_uuid j) e))
    (el_get_events fault sanad s).

Definition settlement_evidence (fault : option string) (sanad : Hash) (s : S)
  : result TCE (option SettlementEvidence) :=
  l ← read_events fault sanad s;
  match latest_event is_recorded l with
  | Some e =>
      ev ← map_err (fun m => RuntimeError ("Malformed settlement evidence in event store: " +:+ m))
             (evidence_of_json j (ev_payload e));
      Ok (Some ev)
  | None => Ok None
  end.

Definition settlement_status (fault : option string) (sanad : Hash) (s : S) : result TCE SettlementStatus :=
  l ← read_events fault sanad s;
  match latest_event is_settlement l with
  | Some e =>
      r ← map_err (fun m => RuntimeError ("Malformed settlement record in event store: " +:+ m))
            (record_of_json j (ev_payload e));
      Ok (if bool_decide (ev_event_type e = TRANSFER_SETTLEMENT_RELEASED) then Released r else Refunded r)
  | None => Ok Unsettled
  end.

(** [get_latest_version(..).map(|v| v + 1).unwrap_or(1)] *)
Definition next_version (io : Io) (sanad : Hash) (s : S) : N :=
  match el_latest_version (io_latest_fault io) sanad s with Ok v => add64 v 1 | Err _ => 1%N end.
Definition settlement_event (io : Io) (sanad : Hash) (event_type : string) (payload : string) (s : S)
  : RuntimeEventEnvelope :=
  new_with_auto_correlation (io_fresh io) (sanad_wire sanad) event_type (next_version io sanad s)
    payload None (io_runtime io) (io_timestamp io).

(** Failures are logged. *)
Definition record_settlement_evidence (io : Io) (ev : SettlementEvidence) (s : S) : S :=
  match evidence_json j ev with
  | Err _ => s
  | Ok payload =>
      (el_append (io_append_fault io)
         (settlement_event io (se_sanad_id ev) TRANSFER_SETTLEMENT_RECORDED payload s) s).1
  end.

Definition record_settlement (io : Io) (r : SettlementReleaseRecord) (event_type : string) (s : S)
  : S * result TCE unit :=
  match record_json j r with
  | Err m => (s, Err (SettlementFailed ("Failed to serialize settlement record: " +:+ m)))
  | Ok payload =>
      let '(s', res) := el_append (io_append_fault io)
                          (settlement_event io (rl_sanad_id r) event_type payload s) s in
      (s', map_err (fun e => SettlementFailed
             ("Failed to append settlement record for transfer " +:+ rl_transfer_id r +:+ ": " +:+
              event_error_message (show_uuid j) e)) res)
  end.

Notation answer := (S * list Submission * result TCE SettlementReleaseRecord)%type.

(** The submission of a settlement and its record. *)
Definition submit_and_record (io : Io) (sub : Submission) (event_type : string)
    (record : SettlementResult -> SettlementReleaseRecord) (s : S) : answer :=
  match io_chain io sub with
  | Err m => (s, [sub], Err (SettlementFailed m))
  | Ok res =>
      let r := record res in
      match record_settlement io r event_type s with
      | (s', Err e) => (s', [sub], Err e)
      | (s', Ok _) => (s', [sub], Ok r)
      end
  end.

(** The guard both calls start with. *)
Definition unless_settled (io : Io) (sanad : Hash) (s : S) (k : answer) : answer :=
  match settlement_status (io_status_fault io) sanad s with
  | Err e => (s, [], Err e)
  | Ok (Released _) => (s, [], Err AlreadyReleased)
  | Ok (Refunded _) => (s, [], Err AlreadyRefunded)
  | Ok Unsettled => k
  end.

Definition encode_settlement_request (q : RuntimeSettlementRequest) : result TCE bytes :=
  map_err (fun m => SettlementFailed ("Failed to encode runtime settlement request: " +:+ m)) (request_cbor j q).

Definition release_escrow (io : Io) (sanad : Hash) (payout : Bytes32) (expiry : N) (s : S) : answer :=
  unless_settled io sanad s
    match settlement_evidence (io_evidence_fault io) sanad s with
    | Err e => (s, [], Err e)
    | Ok None =>
        (s, [], Err (SettlementNotAuthorized "no confirmed destination mint recorded for this sanad"))
    | Ok (Some ev) =>
        let receipt := build_settlement_receipt crates ev payout expiry in
        match encode_settlement_request (mkSettlementRequest receipt []) with
        | Err e => (s, [], Err e)
        | Ok payload =>
            submit_and_record io
              (SubmitRelease (se_source_chain ev) (transfer_from_settlement_evidence ev) payload)
              TRANSFER_SETTLEMENT_RELEASED
              (fun res => mkRelease true (se_transfer_id ev) (se_sanad_id ev) (se_source_chain ev)
                 (se_lock_event_id ev) (sr_destination_mint_tx_ref receipt) payout
                 (st_tx_hash res) (st_block_height res) (io_now io)) s
        end
    end.

Definition refund_escrow (io : Io) (t : CrossChainTransfer) (s : S) : answer :=
  let sanad := ct_sanad_id t in
  unless_settled io sanad s
    match settlement_evidence (io_evidence_fault io) sanad s with
    | Err e => (s, [], Err e)
    | Ok (Some _) =>
        (s, [], Err (SettlementNotAuthorized
           "destination mint confirmed; escrow must settle to operator, not refund"))
    | Ok None =>
        submit_and_record io (SubmitRefund (ct_source_chain t) t) TRANSFER_SETTLEMENT_REFUNDED
          (fun res => mkRelease false (ct_id t) sanad (ct_source_chain t) (lock_event_id crates t)
             zero32 zero32 (st_tx_hash res) (st_block_height res) (io_now io)) s
    end.

(** The end of [execute_outcome]: the evidence, at the next version, and then the event
    of completion, at its own; both append whether or not the other could. *)
Definition complete_event (io : Io) (t : CrossChainTransfer) (payload : string) : RuntimeEventEnvelope :=
  new_with_auto_correlation (io_fresh io) (sanad_wire (ct_sanad_id t)) TRANSFER_COMPLETE
    EVENT_VERSION_COMPLETE payload None (io_runtime io) (io_timestamp io).
Definition completion_events (io io' : Io) (t : CrossChainTransfer) (p : ProofBundle)
    (mint_tx_hash : string) (mint_block_height : N) (payload : string) (s : S) : S :=
  let ev := build_settlement_evidence crates (io_now io) t p mint_tx_hash mint_block_height in
  let s := record_settlement_evidence io ev s in
  (el_append (io_append_fault io') (complete_event io' t payload) s).1.

(** ** Histories *)

Inductive action :=
| ARelease (sanad : Hash) (payout : Bytes32) (expiry : N)
| ARefund (t : CrossChainTransfer)
| AEvidence (ev : SettlementEvidence).

(** What a call left in the history: the call, what it submitted and its result, none
    for the recording of evidence. *)
Record entry := mkHistory {
  h_action : action;
  h_submitted : list Submission;
  h_result : option (result TCE SettlementReleaseRecord)
}.

Definition action_sanad (a : action) : Hash :=
  match a with ARelease x _ _ => x | ARefund t => ct_sanad_id t | AEvidence ev => se_sanad_id ev end.

Definition act (io : Io) (a : action) (s : S) : S * entry :=
  match a with
  | ARelease x payout expiry =>
      let '(s', subs, r) := release_escrow io x payout expiry s in (s', mkHistory a subs (Some r))
  | ARefund t => let '(s', subs, r) := refund_escrow io t s in (s', mkHistory a subs (Some r))
  | AEvidence ev => (record_settlement_evidence io ev s, mkHistory a [] None)
  end.

Fixpoint history (acts : list (Io * action)) (s : S) : S * list entry :=
  match acts with
  | [] => (s, [])
  | (io, a) :: acts' =>
      let '(s1, h) := act io a s in let '(s2, hs) := history acts' s1 in (s2, h :: hs)
  end.
End Settlement.

(** ** One Sanad *)

(** What its events say of it: whether a mint is recorded, and how it was settled. *)
Notation phase := (bool * option SettlementReleaseRecord)%type.

(** A release is submitted when a mint is recorded, a refund when none is. *)
Definition submits (minted : bool) (sub : Submission) : Prop :=
  match sub with SubmitRelease _ _ _ => minted = true | SubmitRefund _ _ => minted = false end.

(** The machine the calls for one Sanad follow. *)
Inductive settles : phase -> entry -> phase -> Prop :=
| evidence_kept b b' k a : (b = true -> b' = true) ->
    settles (b, k) (mkHistory a [] None) (b', k)
| call_refused b k a e : settles (b, k) (mkHistory a [] (Some (Err e))) (b, k)
| call_failed b a sub m : submits b sub ->
    settles (b, None) (mkHistory a [sub] (Some (Err (SettlementFailed m)))) (b, None)
| call_settled b a sub r : submits b sub -> rl_released_to_operator r = b ->
    settles (b, None) (mkHistory a [sub] (Some (Ok r))) (b, Some r).

Inductive settles_all (x : Hash) : phase -> list entry -> phase -> Prop :=
| settles_nil ph : settles_all x ph [] ph
| settles_this ph ph' ph'' h hs :
    action_sanad (h_action h) = x -> settles ph h ph' -> settles_all x ph' hs ph'' ->
    settles_all x ph (h :: hs) ph''
| settles_other ph ph' h hs :
    action_sanad (h_action h) <> x -> settles_all x ph hs ph' -> settles_all x ph (h :: hs) ph'.

Lemma settles_all_app x ph l1 l2 ph'' :
  settles_all x ph (l1 ++ l2) ph'' -> exists ph', settles_all x ph l1 ph' /\ settles_all x ph' l2 ph''.
Proof.
  revert ph. induction l1 as [|h l1 IH]; intros ph; cbn [app]; [eauto using settles_nil|].
  inversion 1 as [|? ? ? ? ? Hx Hs Ha|? ? ? ? Hx Ha]; subst; destruct (IH _ Ha) as (? & ? & ?);
    eauto using settles_this, settles_other.
Qed.

(** A settled Sanad stays as it is, and nothing is submitted for it. *)
Lemma settled_stays x b r hs ph' :
  settles_all x (b, Some r) hs ph' ->
  ph'.2 = Some r /\
  Forall (fun h => action_sanad (h_action h) = x ->
            h_submitted h = [] /\ forall res, h_result h = Some res -> exists e, res = Err e) hs.
Proof.
  remember (b, Some r) as ph eqn:Hph. intros H. revert b Hph.
  induction H as [ph|ph ph1 ph2 h hs Hx Hs Ha IH|ph ph1 h hs Hx Ha IH]; intros b ->.
  - by split; [|constructor].
  - inversion Hs; subst; destruct (IH _ eq_refl) as [Hk Hf];
      (split; [done|constructor; [|done]]; intros _; cbn; split; [done|]; intros res Hres); [done|].
    injection Hres as <-. eauto.
  - destruct (IH _ eq_refl) as [Hk Hf]. split; [done|]. by constructor.
Qed.

(** Once a mint is recorded, only releases are submitted. *)
Lemma minted_stays x k hs ph' :
  settles_all x (true, k) hs ph' ->
  Forall (fun h => action_sanad (h_action h) = x -> Forall (submits true) (h_submitted h)) hs.
Proof.
  remember (true, k) as ph eqn:Hph. intros H. revert k Hph.
  induction H as [ph|ph ph1 ph2 h hs Hx Hs Ha IH|ph ph1 h hs Hx Ha IH]; intros k ->; [constructor| |].
  - inversion Hs as [b b' k' a Hb|b k' a e|b a sub m Hsub|b a sub r Hsub Hr]; subst; cbn in *.
    + rewrite Hb in IH by done. constructor; [by constructor|by eapply IH].
    + constructor; [by constructor|by eapply IH].
    + constructor; [intros _; by repeat constructor|by eapply IH].
    + constructor; [intros _; by repeat constructor|by eapply IH].
  - constructor; [done|by eapply IH].
Qed.

Section Machine.
Context {S : Type} `{EventLogLaws S}.
Variables (crates : NativeHashes) (j : SettlementCodecs).
Hypothesis j_ok : settlement_codecs_ok j.

(** What the events of a Sanad say. *)
Definition says (l : events) (ph : phase) : Prop :=
  ph.1 = existsb is_recorded l /\
  match ph.2 with
  | None => latest_event is_settlement l = None
  | Some r => exists e, latest_event is_settlement l = Some e /\ record_of_json j (ev_payload e) = Ok r /\
      ev_event_type e = (if rl_released_to_operator r then TRANSFER_SETTLEMENT_RELEASED
                         else TRANSFER_SETTLEMENT_REFUNDED)
  end.

(** What the coordinator leaves: evidence under its own Sanad, records that decode. *)
Definition store_ok (s : S) : Prop :=
  el_wf s /\
  (forall w e, e ∈ el_events s w -> is_recorded e = true ->
     exists ev, evidence_of_json j (ev_payload e) = Ok ev /\ sanad_wire (se_sanad_id ev) = w) /\
  forall w, exists ph, says (el_events s w) ph.

Lemma sanad_wire_inj x y : sanad_wire x = sanad_wire y -> x = y.
Proof.
  unfold sanad_wire. intros Heq. apply (f_equal as_bytes) in Heq.
  rewrite !as_bytes_of_bytes in Heq. apply b32_inj. by apply hex_encode_inj.
Qed.

Lemma latest_event_snoc p l e :
  latest_event p (l ++ [e]) = if p e then Some e else latest_event p l.
Proof. unfold latest_event. by rewrite rev_app_distr. Qed.

Lemma latest_event_in p l e : latest_event p l = Some e -> e ∈ l /\ p e = true.
Proof.
  unfold latest_event. intros [Hin Hp]%find_some. split; [|done].
  apply list_elem_of_In. by apply in_rev.
Qed.

Lemma latest_event_none p l : latest_event p l = None <-> existsb p l = false.
Proof.
  unfold latest_event. split; intros Hn.
  - destruct (existsb p l) eqn:He; [exfalso|done]. apply existsb_exists in He as (e & Hin & Hp).
    apply in_rev in Hin. pose proof (find_none _ _ Hn _ Hin). congruence.
  - destruct (find p (rev l)) as [e|] eqn:Hf; [exfalso|done]. apply find_some in Hf as [Hin Hp].
    apply in_rev in Hin. enough (existsb p l = true) by congruence. apply existsb_exists. eauto.
Qed.

(** An event at the next version goes to the end of its Sanad's. *)
Lemma settlement_append io x ty p s s' r :
  el_wf s -> io_latest_fault io = None -> (last_version (el_events s (sanad_wire x)) < u64_max)%N ->
  el_append (io_append_fault io) (settlement_event io x ty p s) s = (s', r) ->
  el_wf s' /\
  forall w, el_events s' w = if decide (w = sanad_wire x)
    then el_events s w ++ (if is_ok r then [settlement_event io x ty p s] else [])
    else el_events s w.
Proof.
  intros Hw Hio Hmax Ha.
  assert (Hv : next_version io x s = (last_version (el_events s (sanad_wire x)) + 1)%N).
  { unfold next_version. rewrite Hio. destruct (el_latest_law None x s Hw) as [-> |[[? Hn] _]]; [|done].
    apply add64_small. lia. }
  destruct r as [[]|e]; cbn [is_ok].
  - destruct (append_snoc _ _ _ _ Hw Ha) as (Hw' & Hsame & Hother); [cbn; lia|].
    split; [done|]. intros w. case_decide; [subst; exact Hsame|by apply Hother].
  - destruct (el_append_law _ _ _ _ _ Hw Ha) as [Hw' Hsame]. split; [done|]. intros w. rewrite Hsame.
    case_decide; [by rewrite app_nil_r|done].
Qed.

Lemma read_events_law fault x s : el_wf s ->
  read_events j fault x s = Ok (el_events s (sanad_wire x)) \/
  is_Some fault /\ exists e, read_events j fault x s = Err e.
Proof.
  intros Hw. unfold read_events. destruct (el_get_law fault x s Hw) as [-> |[Hf [e ->]]]; cbn; eauto.
Qed.

Lemma status_spec fault x s ph :
  el_wf s -> says (el_events s (sanad_wire x)) ph ->
  settlement_status j fault x s
  = Ok (match ph.2 with
        | None => Unsettled
        | Some r => if rl_released_to_operator r then Released r else Refunded r
        end)
  \/ is_Some fault /\ exists e, settlement_status j fault x s = Err e.
Proof.
  intros Hw [_ Hs]. unfold settlement_status.
  destruct (read_events_law fault x s Hw) as [-> |[Hf [e ->]]]; [left|right; by eauto].
  cbn. destruct ph.2 as [r|]; [|by rewrite Hs].
  destruct Hs as (e & -> & Hr & Ht). rewrite Hr, Ht. cbn. by destruct (rl_released_to_operator r).
Qed.

Lemma evidence_spec fault x s ph :
  store_ok s -> says (el_events s (sanad_wire x)) ph ->
  (exists e, is_Some fault /\ settlement_evidence j fault x s = Err e) \/
  (ph.1 = false /\ settlement_evidence j fault x s = Ok None) \/
  (ph.1 = true /\ exists ev, settlement_evidence j fault x s = Ok (Some ev) /\ se_sanad_id ev = x).
Proof.
  intros (Hw & Hev & _) [Hb _]. unfold settlement_evidence.
  destruct (read_events_law fault x s Hw) as [-> |[Hf [e ->]]]; [right|left; by eauto].
  cbn. destruct (latest_event is_recorded _) as [e|] eqn:He.
  - right. apply latest_event_in in He as [Hin Hr].
    destruct (Hev _ e Hin Hr) as (ev & Hd & Heq). rewrite Hd. cbn. split; [|eauto using sanad_wire_inj].
    rewrite Hb. apply existsb_exists. exists e. split; [by apply list_elem_of_In|done].
  - left. split; [|done]. rewrite Hb. by apply latest_event_none.
Qed.

Lemma is_recorded_settlement e : is_recorded e = true -> is_settlement e = false.
Proof.
  unfold is_recorded, is_settlement. intros He%bool_decide_eq_true_1. rewrite He. done.
Qed.

(** The two kinds of event an action appends. *)
Lemma says_evidence l ph e :
  is_recorded e = true -> says l ph -> says (l ++ [e]) (true, ph.2).
Proof.
  intros He [Hb Hs]. split; cbn [fst snd].
  - rewrite existsb_app. cbn. by rewrite He, !orb_true_r.
  - by rewrite latest_event_snoc, (is_recorded_settlement e He).
Qed.
Lemma says_record l b r e :
  ev_event_type e = (if rl_released_to_operator r then TRANSFER_SETTLEMENT_RELEASED
                     else TRANSFER_SETTLEMENT_REFUNDED) ->
  record_of_json j (ev_payload e) = Ok r -> says l (b, None) -> says (l ++ [e]) (b, Some r).
Proof.
  intros Ht Hr [Hb _]. split; cbn [fst snd] in *.
  - rewrite existsb_app. cbn. unfold is_recorded at 2. rewrite Ht, Hb.
    by destruct (rl_released_to_operator r); rewrite !orb_false_r.
  - exists e. rewrite latest_event_snoc. unfold is_settlement. rewrite Ht.
    by destruct (rl_released_to_operator r).
Qed.

(** What a call may do to the stream of one Sanad. *)
Record extends (x : Hash) (l : events) (s s' : S) : Prop := {
  ex_wf : el_wf s';
  ex_events : forall w, el_events s' w
    = if decide (w = sanad_wire x) then el_events s w ++ l else el_events s w
}.

Lemma extends_refl x s : el_wf s -> extends x [] s s.
Proof. intros Hw. split; [done|]. intros w. case_decide; [by rewrite app_nil_r|done]. Qed.

Lemma extends_ok x l s s' ph' :
  store_ok s -> extends x l s s' ->
  (forall e, e ∈ l -> is_recorded e = true ->
     exists ev, evidence_of_json j (ev_payload e) = Ok ev /\ se_sanad_id ev = x) ->
  says (el_events s (sanad_wire x) ++ l) ph' ->
  store_ok s' /\ says (el_events s' (sanad_wire x)) ph'.
Proof.
  intros (Hw & Hev & Hall) [Hw' Hs'] Hl Hph.
  assert (Hx : says (el_events s' (sanad_wire x)) ph') by by rewrite Hs', decide_True.
  split; [|done]. split; [done|]. split.
  - intros w e. rewrite Hs'. case_decide as Hwx; [|by apply Hev]. rewrite elem_of_app.
    intros [Hin|Hin] Hr; [by apply (Hev w)|]. destruct (Hl e Hin Hr) as (ev & ? & <-). eauto.
  - intros w. destruct (decide (w = sanad_wire x)) as [-> |Hne]; [by eexists|].
    rewrite Hs', decide_False by done. apply Hall.
Qed.

Lemma record_settlement_spec io r ty s s' res :
  el_wf s -> io_latest_fault io = None ->
  (last_version (el_events s (sanad_wire (rl_sanad_id r))) < u64_max)%N ->
  record_settlement j io r ty s = (s', res) ->
  (exists m, res = Err (SettlementFailed m)) /\ extends (rl_sanad_id r) [] s s' \/
  res = Ok tt /\ exists p, record_json j r = Ok p /\
    extends (rl_sanad_id r) [settlement_event io (rl_sanad_id r) ty p s] s s'.
Proof.
  intros Hw Hio Hmax. unfold record_settlement. destruct (record_json j r) as [p|m].
  - destruct (el_append _ _ s) as [s1 r1] eqn:Ha. intros [= <- <-].
    destruct (settlement_append _ _ _ _ _ _ _ Hw Hio Hmax Ha) as [Hw' Hev].
    destruct r1 as [[]|e]; cbn in *; [right|left; by eauto using Build_extends].
    split; [done|]. by eauto using Build_extends.
  - intros [= <- <-]. left. by eauto using extends_refl.
Qed.

(** What every action does: it appends at most one event to its Sanad's stream, and
    moves that Sanad along the machine. *)
Definition moves (a : action) (s s' : S) (h : entry) : Prop :=
  h_action h = a /\ store_ok s' /\
  (exists l, length l <= 1 /\ extends (action_sanad a) l s s' /\
     Forall (fun e => (ev_version e <= last_version (el_events s (sanad_wire (action_sanad a))) + 1)%N) l) /\
  forall ph, says (el_events s (sanad_wire (action_sanad a))) ph ->
    exists ph', settles ph h ph' /\ says (el_events s' (sanad_wire (action_sanad a))) ph'.

Lemma says_total x s : store_ok s -> exists ph, says (el_events s (sanad_wire x)) ph.
Proof. intros (_ & _ & Hall). apply Hall. Qed.

Lemma says_unique l ph ph' : says l ph -> says l ph' -> ph = ph'.
Proof.
  destruct ph as [b k], ph' as [b' k']. intros [Hb Hk] [Hb' Hk']. cbn in *. f_equal; [congruence|].
  destruct k as [r|], k' as [r'|]; try done.
  - destruct Hk as (e & He & Hr & _), Hk' as (e' & He' & Hr' & _). congruence.
  - destruct Hk as (e & He & _). congruence.
  - destruct Hk' as (e & He & _). congruence.
Qed.

Lemma moves_refused a s e : store_ok s -> moves a s s (mkHistory a [] (Some (Err e))).
Proof.
  intros Hok. split; [done|]. split; [done|]. split.
  - exists []. split; [cbn; lia|]. split; [apply extends_refl, Hok|constructor].
  - intros [b k] Hs. exists (b, k). split; [constructor|done].
Qed.

Lemma next_version_le io x s :
  el_wf s -> io_latest_fault io = None ->
  (next_version io x s <= last_version (el_events s (sanad_wire x)) + 1)%N.
Proof.
  intros Hw Hio. unfold next_version. rewrite Hio.
  destruct (el_latest_law None x s Hw) as [-> |[[? Hn] _]]; [|done].
  unfold add64, wrap64. apply N.Div0.mod_le.
Qed.

Section Action.
Variables (io : Io) (s : S).
Hypothesis Hok : store_ok s.
Hypothesis Hio : io_latest_fault io = None.
Hypothesis Hmax : forall w, (last_version (el_events s w) < u64_max)%N.

Lemma moves_submit a b sub ty record s' subs r :
  says (el_events s (sanad_wire (action_sanad a))) (b, None) -> submits b sub ->
  (forall res, rl_sanad_id (record res) = action_sanad a /\ rl_released_to_operator (record res) = b /\
     ty = (if b then TRANSFER_SETTLEMENT_RELEASED else TRANSFER_SETTLEMENT_REFUNDED)) ->
  submit_and_record j io sub ty record s = (s', subs, r) ->
  moves a s s' (mkHistory a subs (Some r)).
Proof.
  intros Hs Hsub Hrec. unfold submit_and_record. pose proof Hok as (Hw & _ & _).
  assert (Hsame : forall m, moves a s s (mkHistory a [sub] (Some (Err (SettlementFailed m))))).
  { intros m. destruct (moves_refused a s (SettlementFailed m) Hok) as (_ & _ & Hex & _).
    split; [done|]. split; [done|]. split; [done|]. intros ph Hph.
    rewrite (says_unique _ _ _ Hph Hs). exists (b, None). split; [by constructor|done]. }
  destruct (io_chain io sub) as [res|m]; [|intros [= <- <- <-]; apply Hsame].
  destruct (Hrec res) as (Hx & Hb & ->). cbn zeta.
  destruct (record_settlement j io (record res) _ s) as [s1 r1] eqn:Hr.
  destruct (record_settlement_spec _ _ _ _ _ _ Hw Hio (Hmax _) Hr)
    as [([m ->] & Hex)|(-> & p & Hp & Hex)]; intros [= <- <- <-]; rewrite Hx in Hex.
  - destruct (extends_ok (action_sanad a) [] s s1 (b, None) Hok Hex) as [Hok1 Hs1];
      [by intros e He%elem_of_nil|by rewrite app_nil_r|].
    split; [done|]. split; [done|]. split; [exists []; split; [cbn; lia|by split]|].
    intros ph Hph. rewrite (says_unique _ _ _ Hph Hs). exists (b, None). split; [by constructor|done].
  - set (e := settlement_event io (action_sanad a) _ p s) in Hex.
    assert (Hsay : says (el_events s (sanad_wire (action_sanad a)) ++ [e]) (b, Some (record res))).
    { apply says_record; [by rewrite Hb|by apply (record_json_law j j_ok)|done]. }
    destruct (extends_ok (action_sanad a) [e] s s1 (b, Some (record res)) Hok Hex) as [Hok1 Hs1]; [|exact Hsay|].
    { intros e' ->%list_elem_of_singleton He'. exfalso. revert He'. unfold is_recorded, e. cbn. by destruct b. }
    split; [done|]. split; [done|]. split.
    + exists [e]. split; [done|]. split; [done|]. constructor; [|constructor]. unfold e. cbn.
      by apply next_version_le.
    + intros ph Hph. rewrite (says_unique _ _ _ Hph Hs). exists (b, Some (record res)).
      split; [by constructor|done].
Qed.

Lemma moves_guarded a k s' subs r :
  unless_settled j io (action_sanad a) s k = (s', subs, r) ->
  (forall ph, says (el_events s (sanad_wire (action_sanad a))) ph -> ph.2 = None ->
     k = (s', subs, r) -> moves a s s' (mkHistory a subs (Some r))) ->
  moves a s s' (mkHistory a subs (Some r)).
Proof.
  intros Hu Hk. destruct (says_total (action_sanad a) s Hok) as [ph Hph]. unfold unless_settled in Hu.
  destruct (status_spec (io_status_fault io) (action_sanad a) s ph (proj1 Hok) Hph) as [Hst|[_ [e Hst]]];
    rewrite Hst in Hu; [|injection Hu as <- <- <-; by apply moves_refused].
  destruct (ph.2) as [r0|] eqn:Hk2; [|by eapply Hk].
  destruct (rl_released_to_operator r0); injection Hu as <- <- <-; by apply moves_refused.
Qed.

Lemma act_moves a s' h : act crates j io a s = (s', h) -> moves a s s' h.
Proof.
  destruct a as [x payout expiry|t|ev]; cbn [act].
  - destruct (release_escrow _ _ _ _ _ _ _) as [[s1 subs] r] eqn:Hr. intros [= <- <-].
    eapply (moves_guarded (ARelease x payout expiry)); [exact Hr|]. clear Hr.
    intros [b k] Hph Hk Hr. cbn [snd action_sanad] in *. subst k.
    destruct (evidence_spec (io_evidence_fault io) x s _ Hok Hph)
      as [(e & _ & He)|[(Hb & He)|(Hb & ev & He & Hx)]]; rewrite He in Hr; cbn [fst] in *;
      [injection Hr as <- <- <-; by apply moves_refused..|].
    destruct (encode_settlement_request _ _) as [payload|m]; [|injection Hr as <- <- <-; by apply moves_refused].
    eapply (moves_submit (ARelease x payout expiry) b); [exact Hph| | |exact Hr]; [exact Hb|].
    intros res. cbn. by subst.
  - destruct (refund_escrow _ _ _ _ _) as [[s1 subs] r] eqn:Hr. intros [= <- <-].
    eapply (moves_guarded (ARefund t)); [exact Hr|]. clear Hr.
    intros [b k] Hph Hk Hr. cbn [snd action_sanad] in *. subst k.
    destruct (evidence_spec (io_evidence_fault io) (ct_sanad_id t) s _ Hok Hph)
      as [(e & _ & He)|[(Hb & He)|(Hb & ev & He & Hx)]]; rewrite He in Hr; cbn [fst] in *;
      [injection Hr as <- <- <-; by apply moves_refused| |injection Hr as <- <- <-; by apply moves_refused].
    eapply (moves_submit (ARefund t) b); [exact Hph| | |exact Hr]; [exact Hb|].
    intros res. cbn. by subst.
  - intros [= <- <-]. unfold record_settlement_evidence. pose proof Hok as (Hw & _ & _).
    assert (Hsame : moves (AEvidence ev) s s (mkHistory (AEvidence ev) [] None)).
    { destruct (moves_refused (AEvidence ev) s AlreadyReleased Hok) as (_ & _ & Hex & _).
      split; [done|]. split; [done|]. split; [done|].
      intros [b k] Hph. exists (b, k). by split; [constructor|]. }
    destruct (evidence_json j ev) as [p|m] eqn:Hp; [|done].
    destruct (el_append _ _ s) as [s1 r1] eqn:Ha.
    destruct (settlement_append _ _ _ _ _ _ _ Hw Hio (Hmax _) Ha) as [Hw' Hev]. cbn [fst].
    destruct r1 as [[]|e1]; cbn [is_ok] in Hev.
    + set (e := settlement_event _ _ _ _ s) in *.
      destruct (says_total (se_sanad_id ev) s Hok) as [ph Hph].
      destruct (extends_ok (se_sanad_id ev) [e] s s1 (true, ph.2) Hok (Build_extends _ _ _ _ Hw' Hev))
        as [Hok1 Hs1].
      { intros e' ->%list_elem_of_singleton _. exists ev. split; [|done]. by apply (evidence_json_law j j_ok). }
      { by apply says_evidence. }
      split; [done|]. split; [done|]. split.
      * exists [e]. split; [done|]. split; [done|]. constructor; [|constructor]. unfold e. cbn.
        by apply next_version_le.
      * intros [b k] Hph'. rewrite (says_unique _ _ _ Hph Hph') in Hs1. exists (true, k).
        split; [by constructor|done].
    + destruct (says_total (se_sanad_id ev) s Hok) as [ph Hph].
      destruct (extends_ok (se_sanad_id ev) [] s s1 ph Hok (Build_extends _ _ _ _ Hw' Hev)) as [Hok1 Hs1];
        [by intros e He%elem_of_nil|by rewrite app_nil_r|].
      split; [done|]. split; [done|]. split.
      * exists []. split; [cbn; lia|]. by split.
      * intros [b k] Hph'. rewrite (says_unique _ _ _ Hph Hph') in Hs1. exists (b, k).
        split; [by constructor|done].
Qed.
End Action.

Lemma moves_last a s s' h w :
  moves a s s' h -> (last_version (el_events s' w) <= last_version (el_events s w) + 1)%N.
Proof.
  intros (_ & _ & (l & Hl & [_ Hev] & Hv) & _). rewrite Hev. case_decide; [subst w|lia].
  destruct l as [|e [|]]; cbn in Hl; [rewrite app_nil_r; lia| |lia].
  apply Forall_cons in Hv as [Hv _]. unfold last_version at 1. by rewrite last_snoc.
Qed.

Lemma history_settles acts : forall s s' hs,
  store_ok s -> Forall (fun a : Io * action => io_latest_fault a.1 = None) acts ->
  (forall w, last_version (el_events s w) + N.of_nat (length acts) <= u64_max)%N ->
  history crates j acts s = (s', hs) ->
  store_ok s' /\ forall x ph, says (el_events s (sanad_wire x)) ph ->
    exists ph', settles_all x ph hs ph' /\ says (el_events s' (sanad_wire x)) ph'.
Proof.
  induction acts as [|[io a] acts IH]; intros s s' hs Hok Hio Hmax; cbn [history].
  - intros [= <- <-]. split; [done|]. eauto using settles_nil.
  - apply Forall_cons in Hio as [Hio Hios]. cbn [length] in Hmax. cbn [fst] in Hio.
    destruct (act crates j io a s) as [s1 h] eqn:Ha. destruct (history crates j acts s1) as [s2 hs1] eqn:Hh.
    intros [= <- <-]. assert (Hm : moves a s s1 h).
    { apply (act_moves io s Hok Hio); [|done]. intros w. specialize (Hmax w). lia. }
    destruct (IH s1 s2 hs1) as [Hok2 Hall]; [apply Hm|done| |done|].
    { intros w. pose proof (moves_last a s s1 h w Hm). specialize (Hmax w). lia. }
    split; [done|]. intros x ph Hph. destruct Hm as (Hact & _ & (l & _ & [_ Hev] & _) & Hstep).
    destruct (decide (action_sanad a = x)) as [Hx|Hx].
    + subst x. destruct (Hstep ph Hph) as (ph1 & Hst & Hs1).
      destruct (Hall _ ph1 Hs1) as (ph2 & Hst2 & Hs2). exists ph2. split; [|done].
      eapply settles_this; [by rewrite Hact|done|done].
    + destruct (Hall x ph) as (ph2 & Hst2 & Hs2).
      { rewrite Hev, decide_False; [done|]. intros Heq%sanad_wire_inj. congruence. }
      exists ph2. split; [|done]. apply settles_other; [by rewrite Hact|done].
Qed.
End Machine.

(** ** Properties *)


(** ** The end of a transfer *)

(** No access to the store fails. *)
Definition quiet (io : Io) : Prop :=
  io_status_fault io = None /\ io_evidence_fault io = None /\ io_latest_fault io = None /\
  io_append_fault io = None.

Section Completion.
Context {S : Type} `{EventLogLaws S}.
Variables (crates : NativeHashes) (j : SettlementCodecs).
Hypothesis j_ok : settlement_codecs_ok j.

Lemma says_nothing l :
  says j l (false, None) <-> forall e, e ∈ l -> is_recorded e = false /\ is_settlement e = false.
Proof.
  unfold says. cbn [fst snd]. rewrite latest_event_none. split.
  - intros [Hr Hs] e He%list_elem_of_In. split; apply not_true_iff_false; intros Ht;
      [symmetry in Hr; revert Hr|revert Hs]; rewrite <- not_true_iff_false; intros Hn; apply Hn;
      apply existsb_exists; eauto.
  - intros Hall. split; [symmetry|]; apply not_true_iff_false; intros (e & He%list_elem_of_In & Ht)%existsb_exists;
      destruct (Hall e He); congruence.
Qed.

(** Calls for a Sanad of which nothing is on record, and for a minted one. *)
Lemma quiet_status io x s ph : quiet io -> store_ok j s -> says j (el_events s (sanad_wire x)) ph -> ph.2 = None ->
  forall k, unless_settled j io x s k = k.
Proof.
  intros (Hf & _) [Hw _] Hph Hk k. unfold unless_settled. rewrite Hf.
  destruct (status_spec j None x s ph Hw Hph) as [-> |[[? Hn] _]]; [|done]. by rewrite Hk.
Qed.

Lemma quiet_evidence x s b k : store_ok j s -> says j (el_events s (sanad_wire x)) (b, k) ->
  if b then exists ev, settlement_evidence j None x s = Ok (Some ev) /\ se_sanad_id ev = x
  else settlement_evidence j None x s = Ok None.
Proof.
  intros Hok Hph.
  destruct (evidence_spec j None x s _ Hok Hph) as [(? & [? Hn] & _)|[(Hb & He)|(Hb & Hev)]]; [done|..];
    cbn in Hb; by subst.
Qed.

Lemma release_unminted io x payout expiry s :
  quiet io -> store_ok j s -> says j (el_events s (sanad_wire x)) (false, None) ->
  release_escrow crates j io x payout expiry s
  = (s, [], Err (SettlementNotAuthorized "no confirmed destination mint recorded for this sanad")).
Proof.
  intros Hq Hok Hph. unfold release_escrow. rewrite (quiet_status io x s _ Hq Hok Hph) by done.
  destruct Hq as (_ & -> & _). by rewrite (quiet_evidence x s _ _ Hok Hph).
Qed.

Lemma refund_minted io t s :
  quiet io -> store_ok j s -> says j (el_events s (sanad_wire (ct_sanad_id t))) (true, None) ->
  refund_escrow crates j io t s
  = (s, [], Err (SettlementNotAuthorized
       "destination mint confirmed; escrow must settle to operator, not refund")).
Proof.
  intros Hq Hok Hph. unfold refund_escrow. rewrite (quiet_status _ _ s _ Hq Hok Hph) by done.
  destruct Hq as (_ & -> & _). by destruct (quiet_evidence _ s _ _ Hok Hph) as (ev & -> & _).
Qed.

(** A settlement that is submitted, accepted and recorded. *)
Lemma submit_accepted io sub ty record res p s :
  quiet io -> el_wf s -> io_chain io sub = Ok res -> record_json j (record res) = Ok p ->
  (last_version (el_events s (sanad_wire (rl_sanad_id (record res)))) < u64_max)%N ->
  el_fits (settlement_event io (rl_sanad_id (record res)) ty p s) s ->
  exists s', submit_and_record j io sub ty record s = (s', [sub], Ok (record res)).
Proof.
  intros (_ & _ & Hl & Ha) Hw Hchain Hp Hmax Hfit. unfold submit_and_record. rewrite Hchain. cbn zeta.
  unfold record_settlement. rewrite Hp, Ha.
  destruct (el_append_end _ _ Hw Hfit) as [s' ->]; [|by exists s'].
  cbn. unfold next_version. rewrite Hl.
  destruct (el_latest_law None (rl_sanad_id (record res)) s Hw) as [-> |[[? Hn] _]]; [|done].
  rewrite add64_small; lia.
Qed.

(** The evidence takes the version of completion when the transfer's other four events
    are in the store. *)
Lemma evidence_appended io ev p s :
  quiet io -> store_ok j s -> says j (el_events s (sanad_wire (se_sanad_id ev))) (false, None) ->
  last_version (el_events s (sanad_wire (se_sanad_id ev))) = 4%N -> evidence_json j ev = Ok p ->
  let e := settlement_event io (se_sanad_id ev) TRANSFER_SETTLEMENT_RECORDED p s in
  el_fits e s ->
  ev_version e = EVENT_VERSION_COMPLETE /\ store_ok j (record_settlement_evidence j io ev s) /\
  says j (el_events (record_settlement_evidence j io ev s) (sanad_wire (se_sanad_id ev))) (true, None) /\
  forall w, el_events (record_settlement_evidence j io ev s) w
    = if decide (w = sanad_wire (se_sanad_id ev)) then el_events s w ++ [e] else el_events s w.
Proof.
  intros (_ & _ & Hl & Ha) Hok Hph Hlast Hp e Hfit. pose proof Hok as (Hw & _).
  assert (Hv : ev_version e = EVENT_VERSION_COMPLETE).
  { unfold e. cbn. unfold next_version. rewrite Hl.
    destruct (el_latest_law None (se_sanad_id ev) s Hw) as [-> |[[? Hn] _]]; [|done].
    by rewrite Hlast. }
  split; [done|]. unfold record_settlement_evidence. rewrite Hp, Ha. fold e.
  destruct (el_append_end e s Hw Hfit) as [s1 Hs1].
  { cbn. rewrite Hlast. unfold EVENT_VERSION_COMPLETE in Hv. cbn in Hv. rewrite Hv. done. }
  rewrite Hs1. cbn [fst].
  destruct (settlement_append io (se_sanad_id ev) TRANSFER_SETTLEMENT_RECORDED p s s1 (Ok tt) Hw Hl) as [Hw1 Hev1];
    [rewrite Hlast; done|rewrite Ha; exact Hs1|].
  destruct (extends_ok j (se_sanad_id ev) [e] s s1 (true, None) Hok (Build_extends _ _ _ _ Hw1 Hev1))
    as [Hok1 Hph1]; [| |by split; [|split]].
  - intros e' ->%list_elem_of_singleton _. exists ev. split; [|done]. by apply (evidence_json_law j j_ok).
  - by apply (says_evidence j _ (false, None)).
Qed.

(** The last event is the evidence that is read. *)
Lemma evidence_read x s l e ev :
  el_wf s -> el_events s (sanad_wire x) = l ++ [e] -> is_recorded e = true ->
  evidence_of_json j (ev_payload e) = Ok ev -> settlement_evidence j None x s = Ok (Some ev).
Proof.
  intros Hw Hl He Hd. unfold settlement_evidence.
  destruct (read_events_law j None x s Hw) as [-> |[[? Hn] _]]; [|done].
  cbn [mbind result_bind]. by rewrite Hl, latest_event_snoc, He, Hd.
Qed.

(** An accepted event of another type that takes the place of the evidence removes it. *)
Lemma replaced_evidence fault e e' x l s s' :
  store_ok j s -> el_events s (sanad_wire x) = l ++ [e] -> says j l (false, None) ->
  ev_aggregate_id e' = sanad_wire x -> ev_version e' = ev_version e ->
  is_recorded e' = false -> is_settlement e' = false ->
  el_append fault e' s = (s', Ok tt) ->
  store_ok j s' /\ says j (el_events s' (sanad_wire x)) (false, None).
Proof.
  intros (Hw & Hrec & Hall) Hl Hph Ha Hv Hr Hs Happ.
  destruct (el_append_law _ _ _ _ _ Hw Happ) as [Hw' Hin].
  assert (Hx : says j (el_events s' (sanad_wire x)) (false, None)).
  { apply says_nothing. intros y [[_ ->]|[Hy Hne]]%Hin; [done|]. rewrite Hl in Hy.
    apply elem_of_app in Hy as [Hy| ->%list_elem_of_singleton]; [by apply (proj1 (says_nothing l) Hph)|].
    exfalso. apply Hne. by rewrite Ha, Hv. }
  split; [|done]. split; [done|]. split.
  - intros w y [[-> ->]|[Hy _]]%Hin Hry; [congruence|by apply (Hrec w)].
  - intros w. destruct (decide (w = sanad_wire x)) as [-> |Hne]; [by eexists|].
    destruct (Hall w) as [ph Hpw]. exists ph. replace (el_events s' w) with (el_events s w); [done|].
    apply (sorted_ext ev_before); [eauto|by apply el_sorted..|]. intros y. rewrite Hin, Ha. naive_solver.
Qed.
End Completion.

(** The completion of a transfer that ran through in one call destroys the evidence
    of its mint in the redb store.  When the four earlier events of the transfer are in
    the store, the evidence takes version 5 and the event of completion is appended at
    version 5 too.  In memory that event is refused, the evidence is read back and a
    refund is not authorised.  In redb it replaces the evidence: none is read, the
    release to the operator is refused although the mint is confirmed, and a refund of
    the escrow is submitted and recorded as soon as the chain accepts it. *)
Theorem completion_evidence {E B : Type} `{!EventTable E, !EventTableLaws E, !TableOps B, !TableRemove B}
    crates (j : SettlementCodecs) (c : EventCodecs) (io io' io2 : Io) (t : CrossChainTransfer)
    (p : ProofBundle) (mint : string) (height : N) (payload evidence : string)
    (m : InMemoryEventStore) (r : RedbEventStore E B)
    (Hj : settlement_codecs_ok j) (Hc : codecs_ok c) (Hq : quiet io) (Hq' : quiet io') (Hq2 : quiet io2) :
  let x := ct_sanad_id t in
  let ev := build_settlement_evidence crates (io_now io) t p mint height in
  let e := new_with_auto_correlation (io_fresh io) (sanad_wire x) TRANSFER_SETTLEMENT_RECORDED 5 evidence
             None (io_runtime io) (io_timestamp io) in
  let redb := redb_log (E := E) (B := B) c in
  evidence_json j ev = Ok evidence ->
  (store_ok j m -> says j (mem_events m (sanad_wire x)) (false, None) ->
   last_version (mem_events m (sanad_wire x)) = 4%N ->
   has_event_id (mem_events m (sanad_wire x)) (ev_event_id e) = false ->
   let m' := completion_events crates j io io' t p mint height payload m in
   settlement_evidence j None x m' = Ok (Some ev) /\
   (refund_escrow crates j io2 t m').2
   = Err (SettlementNotAuthorized "destination mint confirmed; escrow must settle to operator, not refund")) /\
  (@store_ok _ redb j r -> says j (redb_events c r (sanad_wire x)) (false, None) ->
   last_version (redb_events c r (sanad_wire x)) = 4%N ->
   is_ok (event_cbor c e) = true -> is_ok (event_cbor c (complete_event io' t payload)) = true ->
   let r' := @completion_events _ redb crates j io io' t p mint height payload r in
   @settlement_evidence _ redb j None x r' = Ok None /\
   (forall payout expiry, @release_escrow _ redb crates j io2 x payout expiry r'
      = (r', [], Err (SettlementNotAuthorized "no confirmed destination mint recorded for this sanad"))) /\
   (forall res, io_chain io2 (SubmitRefund (ct_source_chain t) t) = Ok res ->
      let record := mkRelease false (ct_id t) x (ct_source_chain t) (lock_event_id crates t)
                      zero32 zero32 (st_tx_hash res) (st_block_height res) (io_now io2) in
      forall text, record_json j record = Ok text ->
      is_ok (event_cbor c (@settlement_event _ redb io2 x TRANSFER_SETTLEMENT_REFUNDED text r')) = true ->
      exists r'', @refund_escrow _ redb crates j io2 t r'
        = (r'', [SubmitRefund (ct_source_chain t) t], Ok record))).
Proof.
  intros x ev e redb Hev. split.
  - intros Hok Hph Hlast Hfresh m'. 
    destruct (evidence_appended j Hj io ev evidence m Hq Hok Hph Hlast Hev) as (Hv & Hok1 & Hph1 & Hev1).
    { exact Hfresh. }
    set (m1 := record_settlement_evidence j io ev m) in *.
    specialize (Hev1 (sanad_wire x)). change (se_sanad_id ev) with x in *. rewrite decide_True in Hev1 by done.
    change (el_events m1 (sanad_wire x)) with (mem_events m1 (sanad_wire x)) in *.
    assert (Hlast1 : last_version (mem_events m1 (sanad_wire x)) = 5%N).
    { rewrite Hev1. unfold last_version. by rewrite last_snoc. }
    assert (Hm' : mem_events m' (sanad_wire x) = mem_events m1 (sanad_wire x) /\ store_ok j m').
    { unfold m', completion_events. fold x ev. fold m1. destruct Hq' as (_ & _ & _ & ->).
      destruct (el_append None (complete_event io' t payload) m1) as [m2 r2] eqn:Ha.
      assert (exists y, r2 = Err y) as [y ->].
      { cbn in Ha. unfold mem_append in Ha. cbn in Ha. fold x in Ha. rewrite Hlast1 in Ha. cbn in Ha.
        destruct (has_event_id (mem_events m1 _) _); injection Ha as <- <-; eauto. }
      destruct (el_append_law _ _ _ _ _ (proj1 Hok1) Ha) as [Hw2 Hsame]. cbn [fst].
      split; [apply Hsame|]. destruct Hok1 as (_ & Hrec & Hall). split; [done|].
      split; [intros w y'; rewrite Hsame; apply Hrec|]. intros w. rewrite Hsame. apply Hall. }
    destruct Hm' as [Hm' Hok']. assert (Hph' : says j (mem_events m' (sanad_wire x)) (true, None)) by by rewrite Hm'.
    split; [|by rewrite (refund_minted crates j io2 t m' Hq2 Hok' Hph')].
    refine (evidence_read j x m' _ _ ev (proj1 Hok') (eq_trans Hm' Hev1) eq_refl _).
    by apply (evidence_json_law j Hj).
  - intros Hok Hph Hlast Henc Henc' r'. pose proof (redb_log_laws (E := E) (B := B) c Hc) as laws.
    assert (He : @settlement_event _ redb io x TRANSFER_SETTLEMENT_RECORDED evidence r = e).
    { unfold settlement_event, e, next_version. destruct Hq as (_ & _ & -> & _).
      destruct (@el_latest_law _ redb laws None x r (proj1 Hok)) as [-> |[[? Hn] _]]; [|done].
      cbn [el_events redb redb_log]. by rewrite Hlast. }
    destruct (@evidence_appended _ redb laws j Hj io ev evidence r Hq Hok Hph Hlast Hev)
      as (Hv & Hok1 & Hph1 & Hev1).
    { change (se_sanad_id ev) with x. rewrite He. exact Henc. }
    change (se_sanad_id ev) with x in *. rewrite He in *.
    set (r1 := record_settlement_evidence j io ev r) in *.
    specialize (Hev1 (sanad_wire x)). rewrite decide_True in Hev1 by done.
    assert (Hr' : @el_append _ redb None (complete_event io' t payload) r1 = (r', Ok tt)).
    { unfold r', completion_events. fold x ev. fold r1. destruct Hq' as (_ & _ & _ & ->).
      cbn [el_append redb redb_log]. unfold redb_append, redb_append_batch. cbn [put_events].
      apply is_ok_inv in Henc' as [b Hb]. by rewrite Hb. }
    destruct (@replaced_evidence _ redb laws j None e (complete_event io' t payload) x
                (redb_events c r (sanad_wire x)) r1 r' Hok1 Hev1 Hph) as [Hok' Hph']; [done..|].
    split; [|split].
    + exact (@quiet_evidence _ redb laws j x r' _ _ Hok' Hph').
    + intros payout expiry. exact (@release_unminted _ redb laws crates j io2 x payout expiry r' Hq2 Hok' Hph').
    + intros res Hchain record text Htext Hfit. unfold refund_escrow.
      rewrite (@quiet_status _ redb laws j io2 _ r' _ Hq2 Hok' Hph') by done.
      pose proof Hq2 as (_ & -> & _). fold x. rewrite (@quiet_evidence _ redb laws j x r' _ _ Hok' Hph').
      apply (@submit_accepted _ redb laws j io2 _ TRANSFER_SETTLEMENT_REFUNDED
               (fun res => mkRelease false (ct_id t) x (ct_source_chain t) (lock_event_id crates t)
                  zero32 zero32 (st_tx_hash res) (st_block_height res) (io_now io2)) res text r' Hq2 (proj1 Hok')
               Hchain Htext); [|exact Hfit].
      apply N.le_lt_trans with 5%N; [|done]. apply last_version_le. intros y Hy.
      apply (proj2 (@el_append_law _ redb laws _ _ _ _ _ (proj1 Hok1) Hr')) in Hy as [[_ ->]|[Hy _]]; [done|].
      change (sanad_wire (rl_sanad_id record)) with (sanad_wire x) in Hy.
      change (y ∈ redb_events c r1 (sanad_wire x)) in Hy. change (redb_events c r1 (sanad_wire x)) with (@el_events _ redb r1 (sanad_wire x)) in Hy.
      rewrite Hev1 in Hy. apply elem_of_app in Hy as [Hy| ->%list_elem_of_singleton]; [|done].
      pose proof (last_version_max _ y (@el_sorted _ redb laws r _ (proj1 Hok)) Hy).
      change (@el_events _ redb r (sanad_wire x)) with (redb_events c r (sanad_wire x)) in *. lia.
Qed.

(** ** Witnesses *)

Definition demo_evidence : SettlementEvidence :=
  build_settlement_evidence toy_crates 7 (demo_transfer 1) (demo_bundle Secp256k1) "0xaa" 9.
Definition demo_record (released : bool) : SettlementReleaseRecord :=
  mkRelease released "t" zero32 "bitcoin" (lock_event_id toy_crates (demo_transfer 1))
    (if released then destination_mint_tx_ref toy_crates "0xaa" else zero32) zero32 "0xbb" 10 7.

Global Instance evidence_eq_dec : EqDecision SettlementEvidence.
Proof. solve_decision. Defined.
Global Instance record_eq_dec : EqDecision SettlementReleaseRecord.
Proof. solve_decision. Defined.

(** Three values with an encoding. *)
Definition demo_settlement_codecs : SettlementCodecs := {|
  evidence_json e := if decide (e = demo_evidence) then Ok "evidence"%string else Err "not in the table"%string;
  evidence_of_json p := if decide (p = "evidence"%string) then Ok demo_evidence else Err "not in the table"%string;
  record_json r :=
    if decide (r = demo_record true) then Ok "released"%string
    else if decide (r = demo_record false) then Ok "refunded"%string else Err "not in the table"%string;
  record_of_json p :=
    if decide (p = "released"%string) then Ok (demo_record true)
    else if decide (p = "refunded"%string) then Ok (demo_record false) else Err "not in the table"%string;
  request_cbor _ := Ok [];
  show_uuid id := pretty id
|}.
Lemma demo_settlement_codecs_ok : settlement_codecs_ok demo_settlement_codecs.
Proof. split; cbn; intros x p; repeat case_decide; intros [= <-]; by subst. Qed.

Definition demo_io (fresh : N) (answer : result string SettlementResult) : Io :=
  mkIo None None None None (0, fresh)%N 7 7 0 (fun _ => answer).
Definition demo_accepts : result string SettlementResult := Ok (mkSettlementResult "0xbb" 10).

(** A refund the chain refuses, a mint, a refund that comes too late, a release and a
    second one. *)
Definition demo_acts : list (Io * action) :=
  [(demo_io 1 (Err "not yet"%string), ARefund (demo_transfer 1));
   (demo_io 2 demo_accepts, AEvidence demo_evidence);
   (demo_io 3 demo_accepts, ARefund (demo_transfer 1));
   (demo_io 4 demo_accepts, ARelease zero32 zero32 0);
   (demo_io 5 demo_accepts, ARelease zero32 zero32 0)].

Lemma empty_mem_ok j : store_ok j mem_store_new.
Proof.
  split; [intros w; constructor|]. split; [by intros w e He%elem_of_nil|].
  intros w. exists (false, None). apply says_nothing. by intros e He%elem_of_nil.
Qed.


(** The four events of a transfer under way. *)
Definition demo_lifecycle : events := map (fun v => demo_event v v) [1; 2; 3; 4]%N.
Definition demo_io_event (fresh v : N) (type payload : string) : RuntimeEventEnvelope :=
  mkEnvelope fresh (sanad_wire zero32) type v None 0 payload 7 0.
Definition demo_event_codecs : EventCodecs :=
  index_codecs (demo_lifecycle ++
    [demo_io_event 11 5 TRANSFER_SETTLEMENT_RECORDED "evidence";
     demo_io_event 12 5 TRANSFER_COMPLETE "done";
     demo_io_event 13 6 TRANSFER_SETTLEMENT_REFUNDED "refunded"]) [] [].
Definition demo_mem : InMemoryEventStore := set_events (sanad_wire zero32) demo_lifecycle mem_store_new.
Definition demo_redb : RedbEventStore (gmap (bytes * N) bytes) (gmap bytes bytes) :=
  (redb_append_batch demo_event_codecs None demo_lifecycle redb_map_empty).1.

Lemma demo_mem_quiet w e : e ∈ mem_events demo_mem w -> is_recorded e = false /\ is_settlement e = false.
Proof.
  unfold demo_mem. rewrite mem_events_set. case_decide; [|by intros He%elem_of_nil].
  unfold demo_lifecycle. intros He%list_elem_of_In. cbn in He. by destruct_or? He; subst.
Qed.
Lemma demo_store_ok {S} `{EventLog S} j (s : S) :
  el_wf s -> (forall w, el_events s w = mem_events demo_mem w) -> store_ok j s.
Proof.
  intros Hw Hs. split; [done|]. split.
  - intros w e. rewrite Hs. intros He Hr. destruct (demo_mem_quiet w e He). congruence.
  - intros w. exists (false, None). apply says_nothing. intros e. rewrite Hs. apply demo_mem_quiet.
Qed.
Lemma demo_mem_wf : mem_wf demo_mem.
Proof.
  unfold demo_mem. apply mem_wf_set; [intros w; constructor|]. unfold demo_lifecycle.
  repeat (constructor; [|by repeat constructor]). constructor.
Qed.
Lemma demo_event_codecs_ok : codecs_ok demo_event_codecs.
Proof. apply index_codecs_ok; cbn; lia. Qed.
Lemma demo_agree : agree demo_event_codecs demo_mem demo_redb.
Proof.
  destruct (agree_run demo_event_codecs demo_event_codecs_ok [OBatch demo_lifecycle] mem_store_new demo_mem
              redb_map_empty) as (r & Hr & Hag).
  - apply agree_empty. by split; [vm_compute|split; intros k; cbn; apply lookup_empty].
  - repeat constructor; vm_compute; try reflexivity; discriminate.
  - vm_compute. reflexivity.
  - replace demo_redb with r; [done|]. revert Hr. unfold demo_redb. cbn [run_accepted redb_exec].
    destruct (redb_append_batch _ _ _ _) as [r1 [[]|]]; [|done]. by intros [= <-].
Qed.

(** The chain accepts a refund of the escrow behind a confirmed mint. *)
Lemma completion_evidence_witness :
  let redb := redb_log demo_event_codecs in
  let m' := completion_events toy_crates demo_settlement_codecs (demo_io 11 demo_accepts)
              (demo_io 12 demo_accepts) (demo_transfer 1) (demo_bundle Secp256k1) "0xaa" 9 "done" demo_mem in
  let r' := @completion_events _ redb toy_crates demo_settlement_codecs (demo_io 11 demo_accepts)
              (demo_io 12 demo_accepts) (demo_transfer 1) (demo_bundle Secp256k1) "0xaa" 9 "done" demo_redb in
  settlement_evidence demo_settlement_codecs None zero32 m' = Ok (Some demo_evidence) /\
  exists r'', @refund_escrow _ redb toy_crates demo_settlement_codecs (demo_io 13 demo_accepts) (demo_transfer 1) r'
    = (r'', [SubmitRefund "bitcoin" (demo_transfer 1)], Ok (demo_record false)).
Proof.
  intros redb m' r'.
  destruct (completion_evidence toy_crates demo_settlement_codecs demo_event_codecs
    (demo_io 11 demo_accepts) (demo_io 12 demo_accepts) (demo_io 13 demo_accepts) (demo_transfer 1)
    (demo_bundle Secp256k1) "0xaa" 9 "done" "evidence" demo_mem demo_redb demo_settlement_codecs_ok
    demo_event_codecs_ok ltac:(done) ltac:(done) ltac:(done) ltac:(vm_compute; reflexivity)) as [Hmem Hredb].
  pose proof demo_agree as [Hrw _ Hrev _ _]. split.
  - destruct Hmem as [Hev _].
    + apply demo_store_ok; [exact demo_mem_wf|done].
    + apply says_nothing. apply demo_mem_quiet.
    + vm_compute. reflexivity.
    + vm_compute. reflexivity.
    + exact Hev.
  - destruct Hredb as (_ & _ & Hrefund).
    + apply demo_store_ok; [exact Hrw|exact Hrev].
    + rewrite Hrev. apply says_nothing. apply demo_mem_quiet.
    + rewrite Hrev. vm_compute. reflexivity.
    + vm_compute. reflexivity.
    + vm_compute. reflexivity.
    + apply (Hrefund (mkSettlementResult "0xbb" 10) eq_refl "refunded"%string); vm_compute; reflexivity.
Defined.
