(* ===== verification/Materialize.v ===== *)
(** * The materialising transfer (csv-runtime/src/transfer_coordinator.rs)

    [execute] locks a Sanad on its source chain, waits for the lock to be final, proves
    and verifies it, and mints on the destination; [resume_transfer] and its steps pick a
    transfer up where the journal left it.  Each is a program of the accesses of
    Effects.v, in the order the code makes them.

    CBOR, JSON and the printing of UUIDs are parameters. *)

From S2P Require Import Prelude Ord Bytes Hashing Text Seal ProofTaxonomy Signature CrossChain TransferState ReplayDb Journal Assurance Verifier Coordinator Capabilities Admission Runtime ExecutionLease EventStore Effects Settlement Dag DagCodec.

Record Externals := mkExternals {
  x_hashes : NativeHashes;
  x_sigs : SigCrates;
  x_lower : string -> string;
  x_show_uuid : N -> string;
  x_json : list (string * string) -> string;
  x_transfer_cbor : CrossChainTransfer -> result string bytes;
  x_mint_cbor : RuntimeMintRequest -> result string bytes;
  x_evidence_json : SettlementEvidence -> result string string
}.

(** The coordinator's identity, and whether it has a lease backend. *)
Record Self := mkSelf { co_runtime_id : string; co_has_lease : bool }.

Record TransferReceipt := mkTransferReceipt {
  re_transfer_id : string;
  re_replay_id : Hash;
  re_lock_tx_hash : string;
  re_mint_tx_hash : string;
  re_materialization : DestinationMaterialization;
  re_finality : option FinalityObservation;
  re_assurance : option ProtocolAssuranceReport
}.
Inductive TransferOutcome :=
| TCompleted (r : TransferReceipt)
| TPending (lock_tx_hash : string) (finality : FinalityObservation).

Definition TRANSFER_LOCKED : string := "Transfer.Locked".
Definition TRANSFER_FINALITY_AWAITED : string := "Transfer.FinalityAwaited".
Definition TRANSFER_PROOF_BUILT : string := "Transfer.ProofBuilt".
Definition TRANSFER_PROOF_VERIFIED : string := "Transfer.ProofVerified".
Definition TRANSFER_REPLAY_DETECTED : string := "Transfer.ReplayDetected".
Definition EVENT_VERSION_LOCKED : N := 1.
Definition EVENT_VERSION_AWAITING_FINALITY : N := 2.
Definition EVENT_VERSION_PROOF_BUILT : N := 3.
Definition EVENT_VERSION_PROOF_VERIFIED : N := 4.
Definition EVENT_VERSION_REPLAY_DETECTED : N := 1.

Definition hex_string (b : bytes) : string := of_bytes (hex_encode b).
Definition scheme_debug (s : SignatureScheme) : string :=
  match s with Secp256k1 => "Secp256k1" | Ed25519 => "Ed25519" | MlDsa65 => "MlDsa65" end.
(** [s.trim_start_matches("0x")] *)
Fixpoint trim_0x (b : bytes) : bytes :=
  match b with
  | Byte.x30 :: Byte.x78 :: b' => trim_0x b'
  | _ => b
  end.

Definition journal_failed (e : JournalError) : TransferCoordinatorError :=
  RuntimeError ("Journal error: " +:+ journal_error_message e).
Definition replay_failed (e : ReplayDb.ReplayDbError) : TransferCoordinatorError :=
  ReplayDbError (replay_db_message e).
Definition runtime_failed (what : string) (e : ReplayDb.ReplayDbError) : TransferCoordinatorError :=
  RuntimeError (what +:+ replay_db_message e).

(** ** Journal entries, events, checkpoints *)

Definition journal_phase (entry : N -> TransferPhaseEntry) : prog unit :=
  now ← call Now; try_op journal_failed (Record (entry now)).
(** [let _ = self.execution_journal.record(..)] *)
Definition note_phase (entry : N -> TransferPhaseEntry) : prog unit :=
  now ← call Now; ignore_op (Record (entry now)).

Definition phase_entry (t : CrossChainTransfer) (hash : Bytes32) (payload : option bytes)
    (stage : TransferStage) (o : PhaseOutcome) (attempt : N) (context : option TransferContext) (now : N)
  : TransferPhaseEntry :=
  mkEntry (ct_id t) (wire_of_hash (ct_sanad_id t)) hash payload stage now o attempt context.
(** The entries of the first attempt, without payload or context. *)
Definition plain_entry (t : CrossChainTransfer) (stage : TransferStage) (o : PhaseOutcome)
  : N -> TransferPhaseEntry := phase_entry t zero32 None stage o 1 None.

(** An event that is appended if it can be. *)
Definition append_event (sanad : Hash) (event_type : string) (version : N) (payload : string)
    (runtime : RuntimeId) : prog unit :=
  correlation ← call NewUuid; id ← call NewUuid; now ← call Now;
  ignore_op (AppendEvent (new_with_auto_correlation (correlation, id) (wire_of_hash sanad) event_type
                            version payload None runtime now)).

Section Coordinator.
Variables (X : Externals) (self : Self).
Notation sha256 := (nh_sha256 (x_hashes X)).

Definition checkpoint_transfer_data (t : CrossChainTransfer) : result TransferCoordinatorError bytes :=
  map_err (fun m => RuntimeError ("Failed to serialize transfer checkpoint: " +:+ m)) (x_transfer_cbor X t).
Definition encode_mint_request (r : RuntimeMintRequest) : result TransferCoordinatorError bytes :=
  map_err (fun m => ProofBuildFailed ("Failed to encode runtime mint request: " +:+ m)) (x_mint_cbor X r).

(** [transfer_to_registry_entry(..)?], with a mint transaction when there is one, and its
    storage. *)
Definition registry_entry (t : CrossChainTransfer) : prog HashEntry :=
  now ← call Now; lift (transfer_to_registry_entry sha256 (x_lower X) (as_secs now) t).
Definition with_mint_tx (e : HashEntry) (h : Hash) : HashEntry :=
  mkHashEntry (he_transfer_id e) (he_sanad_id e) (he_source_chain e) (he_source_seal e)
    (he_destination_chain e) (he_destination_seal e) (he_lock_tx_hash e) (he_transition_id e) h
    (he_timestamp e).
Definition store_minted (failed : ReplayDb.ReplayDbError -> TransferCoordinatorError)
    (t : CrossChainTransfer) (mint_tx_hash : string) : prog unit :=
  e ← registry_entry t; h ← lift (hash_from_tx_str mint_tx_hash);
  try_op failed (StoreTransfer (with_mint_tx e h)).

(** ** Authority *)

Definition assert_single_active_coordinator (id : string) : prog unit :=
  if co_has_lease self then
    held ← call (IsHeldBy (co_runtime_id self));
    stop_if (negb held) (LeaseViolation ("Coordinator " +:+ co_runtime_id self +:+
                                         " does not own lease for transfer " +:+ id))
  else Done (Ok tt).

(** The Sanad of a lease, or zero. *)
Definition lease_sanad (l : TransferLease) : Hash :=
  match wire_to_sanad_id (tl_transfer_id l) with Ok h => h | Err _ => Hash.zero end.

Definition accept_lease (l : TransferLease) : prog unit :=
  now ← call Now; try_op id (AcceptLease now l).

(** The guards [execute_outcome] starts with. *)
Definition authorize (t : CrossChainTransfer) (ctx : RuntimeExecutionContext) : prog unit :=
  let lease := rc_lease ctx in
  _ ← assert_single_active_coordinator (ct_id t);
  _ ← stop_if (negb (bool_decide (tl_owner lease = rc_runtime_instance ctx)))
        (RuntimeError ("Lease owner " +:+ x_show_uuid X (tl_owner lease) +:+
                       " does not match calling runtime " +:+ x_show_uuid X (rc_runtime_instance ctx)));
  _ ← stop_if (negb (bool_decide (lease_sanad lease = ct_sanad_id t)))
        (LeaseViolation "Lease does not authorize the transfer sanad");
  _ ← stop_if (bool_decide (tl_epoch lease = 0%N))
        (RuntimeError "Lease epoch is 0 — lease is stale and cannot be used for execution");
  now ← call Now;
  _ ← stop_if (negb (lease_is_active now lease)) (RuntimeError "Lease is expired");
  accept_lease lease.

(** [validate_recovery_context] *)
Definition validate_recovery_context (t : CrossChainTransfer) (ctx : RuntimeExecutionContext) : prog Hash :=
  let lease := rc_lease ctx in
  _ ← assert_single_active_coordinator (ct_id t);
  now ← call Now;
  _ ← stop_if (negb (bool_decide (tl_owner lease = rc_runtime_instance ctx))
               || bool_decide (tl_epoch lease = 0%N) || negb (lease_is_active now lease))
        (LeaseViolation "Recovery requires an active lease owned by the calling runtime");
  _ ← stop_if (negb (bool_decide (lease_sanad lease = ct_sanad_id t)))
        (LeaseViolation "Recovery lease does not authorize the transfer sanad");
  _ ← accept_lease lease;
  there ← try_op replay_failed (ReplayContains (b32 (ct_sanad_id t)));
  _ ← stop_if (negb there) (ReplayDbError "Recovery refused: replay reservation is missing");
  Done (Ok (ct_sanad_id t)).

(** A permit is held until the body is over, whatever it returns. *)
Definition with_permit {A} (t : CrossChainTransfer) (body : prog A) : prog A :=
  chains ← try_op (fun e => AdmissionRejected (admission_message e))
             (AcquirePermit (ct_source_chain t) (ct_destination_chain t));
  prog_then body (fun r => Vis (ReleasePermit chains) (fun _ => Done r)).

(** ** The chain *)

Definition lock_finality_status (t : CrossChainTransfer) : prog TxFinality :=
  try_op (fun e => FinalityFailed (adapter_message e))
    (TxFinalityOf (ct_source_chain t) (hex_string (ct_lock_tx_hash t))).

(** The loop [for attempt in 0..=max_retries] with its breaker, after [more] failures at
    most: the first answer that is not a failure, or the last failure. *)
Fixpoint retry {Y} (o : op (result AdapterError Y)) (delay : N) (more : nat) : prog (result AdapterError Y) :=
  Vis o (fun r =>
    match r with
    | Ok y => _ ← call BreakerSuccess; Done (Ok (Ok y))
    | Err e =>
        now ← call Now; _ ← call (BreakerFailure now);
        match more with
        | O => Done (Ok (Err e))
        | S more => _ ← call (Sleep delay); retry o delay more
        end
    end).
Definition retries (ctx : RuntimeExecutionContext) : nat := N.to_nat (max_retries (rc_policy ctx)).

(** [source_proof_attestation] *)
Definition source_proof_attestation (source_chain : string) : ChainNativeProofAssessment :=
  AssessAttested (with_detail
    (attestation_new ("parwana.runtime.adapter-registry." +:+ source_chain) source_chain
       [ClaimAnchorInclusion; ClaimCheckpointFinality; ClaimTransferBinding])
    "validate_source_proof accepted the bundle against the live source chain").

Definition verification_context (t : CrossChainTransfer) (scheme : SignatureScheme) (required : N)
    (tip : option N) : VerificationContext :=
  Verifier.mkContext (ct_source_chain t) scheme required tip None None
    (source_proof_attestation (ct_source_chain t)) (Some (ct_sanad_id t)) (Some (ct_lock_tx_hash t))
    (Some (ct_lock_output_index t)) (Some (ct_transition_id t)) (Some (ct_destination_chain t)) [].

Definition source_report (t : CrossChainTransfer) (p : ProofBundle) (required : N) (f : TxFinality)
  : ProtocolAssuranceReport :=
  verify_proof_bundle sha256 (x_sigs X) default_config p
    (verification_context t (signature_scheme p) required
       (verification_height (FinalityObservation_new f required))).
Definition source_outcome (t : CrossChainTransfer) (p : ProofBundle) (required : N) (f : TxFinality)
  : RequirementOutcome := evaluate RUNTIME_SOURCE_PROOF (source_report t p required f).

(** The check of the bundle's signature scheme, and that the seal is known on chain. *)
Definition check_scheme (t : CrossChainTransfer) (p : ProofBundle) : prog unit :=
  expected ← call (SchemeOf (ct_source_chain t));
  match expected with
  | Some e =>
      stop_if (negb (bool_decide (e = signature_scheme p)))
        (ProofVerificationFailed ("Proof bundle signature scheme " +:+ scheme_debug (signature_scheme p) +:+
           " does not match source chain " +:+ ct_source_chain t +:+ " scheme " +:+ scheme_debug e))
  | None => Done (Ok tt)
  end.
Definition check_seal (t : CrossChainTransfer) (p : ProofBundle) : prog unit :=
  _ ← try_op (fun e => ProofVerificationFailed ("Seal registry check failed: " +:+ adapter_message e))
        (CheckSeal (ct_source_chain t) (seal_id (seal_ref p)));
  Done (Ok tt).
Definition validate_source_proof (t : CrossChainTransfer) (p : ProofBundle) : prog unit :=
  try_op (fun e => ProofVerificationFailed (adapter_message e)) (ValidateProof (ct_source_chain t) t p).

(** ** Evidence of a mint *)

(** [record_settlement_evidence] *)
Definition record_evidence (ev : SettlementEvidence) (runtime : RuntimeId) : prog unit :=
  match x_evidence_json X ev with
  | Err _ => Done (Ok tt)
  | Ok payload =>
      version ← Vis (LatestVersion (se_sanad_id ev))
                  (fun r => Done (Ok match r with Ok v => add64 v 1 | Err _ => 1%N end));
      append_event (se_sanad_id ev) TRANSFER_SETTLEMENT_RECORDED version payload runtime
  end.
Definition evidence_of_mint (t : CrossChainTransfer) (p : ProofBundle) (m : MintResult)
    (runtime : RuntimeId) : prog unit :=
  now ← call Now;
  record_evidence (build_settlement_evidence (x_hashes X) (as_secs now) t p (mi_tx_hash m) (mi_block_height m))
    runtime.

(** [record_resumed_settlement_evidence], from the payload of the latest entry *)
Definition record_resumed_settlement_evidence (t : CrossChainTransfer) (m : MintResult)
    (ctx : RuntimeExecutionContext) : prog unit :=
  Vis (LatestEntry (ct_id t)) (fun r =>
    match r with
    | Err _ => Done (Ok tt)
    | Ok e =>
        match e ≫= pe_proof_payload with
        | None | Some [] => Done (Ok tt)
        | Some payload =>
            match bundle_from_canonical_bytes payload with
            | Err _ => Done (Ok tt)
            | Ok p => evidence_of_mint t p m (rc_runtime_instance ctx)
            end
        end
    end).

(** ** A completed transfer *)

Fixpoint find_completed (t : CrossChainTransfer) (replay_id : Hash) (l : list HashEntry)
  : prog (option TransferReceipt) :=
  match l with
  | [] => Done (Ok None)
  | e :: l' =>
      if negb (bool_decide (he_sanad_id e = ct_sanad_id t)) || bool_decide (he_mint_tx_hash e = Hash.zero)
      then find_completed t replay_id l'
      else
        let id := if bool_decide (he_transfer_id e = ""%string) then ct_id t else he_transfer_id e in
        latest ← try_op journal_failed (LatestEntry id);
        if bool_decide (option_map pe_phase latest = Some SCompleted) then
          Done (Ok (Some (mkTransferReceipt id replay_id (hex_string (b32 (he_lock_tx_hash e)))
                            (hex_string (b32 (he_mint_tx_hash e)))
                            (materialization_unavailable (ct_destination_chain t)) None None)))
        else find_completed t replay_id l'
  end.
Definition load_transfers : prog (list HashEntry) :=
  try_op (runtime_failed "Failed to load transfers: ") LoadTransfers.
(** [completed_receipt_for] *)
Definition completed_receipt_for (t : CrossChainTransfer) (replay_id : Hash) : prog (option TransferReceipt) :=
  there ← try_op replay_failed (ReplayContains (b32 replay_id));
  if negb there then Done (Ok None)
  else l ← load_transfers; find_completed t replay_id l.

(** ** [execute] *)

Definition transfer_event (t : CrossChainTransfer) (ctx : RuntimeExecutionContext) (event_type : string)
    (version : N) (fields : list (string * string)) : prog unit :=
  append_event (ct_sanad_id t) event_type version (x_json X (("transfer_id"%string, ct_id t) :: fields))
    (rc_runtime_instance ctx).

(** The first journal entries around the reservation of the replay identifier. *)
Definition reserve (t : CrossChainTransfer) (ctx : RuntimeExecutionContext) : prog unit :=
  _ ← journal_phase (plain_entry t SInitialized Entered);
  _ ← Vis (Consume (b32 (ct_sanad_id t))) (fun r =>
        match r with
        | Ok _ => Done (Ok tt)
        | Err AlreadyExists =>
            _ ← transfer_event t ctx TRANSFER_REPLAY_DETECTED EVENT_VERSION_REPLAY_DETECTED
                  [("replay_id"%string, hex_string (b32 (ct_sanad_id t)))];
            fail (ReplayDetected (ct_sanad_id t))
        | Err (Storage m) => _ ← note_phase (plain_entry t SInitialized (Failed m)); fail (ReplayDbError m)
        | Err NotFound =>
            _ ← note_phase (plain_entry t SInitialized (Failed "Replay ID not found"));
            fail (ReplayDbError "Replay ID not found")
        end);
  journal_phase (plain_entry t SInitialized PhaseCompleted).

(** The entry of a transfer that comes with its lock. *)
Definition store_locked (t : CrossChainTransfer) : prog unit :=
  e ← registry_entry t; try_op (runtime_failed "Failed to persist transfer entry: ") (StoreTransfer e).
Definition store_if_locked (t : CrossChainTransfer) : prog unit :=
  match ct_lock_tx_hash t with [] => Done (Ok tt) | _ => store_locked t end.

Definition negotiate_chain (chain role : string) (needs : CapabilityRequirements) : prog unit :=
  caps ← call (CapabilitiesOf chain);
  match caps with
  | None => fail (UnknownChain chain)
  | Some c =>
      _ ← stop_if (negb (can_authorize_mint c))
            (UnsupportedOperation (chain +:+ " cannot be a cross-chain " +:+ role));
      lift (map_err (fun m => UnsupportedOperation (chain +:+ " " +:+ role +:+
                                " capability negotiation failed: " +:+ m))
              (ensure_satisfied (plan_for c needs)))
  end.
Definition negotiate (t : CrossChainTransfer) : prog unit :=
  _ ← negotiate_chain (ct_source_chain t) "source" cross_chain_source;
  negotiate_chain (ct_destination_chain t) "destination" cross_chain_destination.

Definition BREAKER_OPEN : TransferCoordinatorError :=
  RuntimeError "Circuit breaker is open - RPC calls blocked".
Definition typed_replay_id (t : CrossChainTransfer) : ReplayId := (1%N, ct_sanad_id t).

(** The lock on the source chain; when every attempt failed the reservation is given
    back. *)
Definition lock_source (t : CrossChainTransfer) (ctx : RuntimeExecutionContext) : prog LockResult :=
  _ ← journal_phase (plain_entry t SLockConfirmed Entered);
  _ ← transfer_event t ctx TRANSFER_LOCKED EVENT_VERSION_LOCKED
        [("source_chain"%string, ct_source_chain t); ("destination_chain"%string, ct_destination_chain t)];
  now ← call Now;
  allowed ← call (AllowRequest now);
  _ ← stop_if (negb allowed) BREAKER_OPEN;
  r ← retry (LockSanad (ct_source_chain t) t) (retry_delay (rc_policy ctx)) (retries ctx);
  match r with
  | Ok lock => _ ← journal_phase (plain_entry t SLockConfirmed PhaseCompleted); Done (Ok lock)
  | Err e =>
      _ ← note_phase (plain_entry t SLockConfirmed (Failed (adapter_message e)));
      _ ← ignore_op (RollBack (typed_replay_id t));
      fail (LockFailed (adapter_message e))
  end.

Definition with_lock (t : CrossChainTransfer) (lock_tx_hash : bytes) : CrossChainTransfer :=
  mkTransfer (ct_id t) (ct_source_chain t) (ct_destination_chain t) lock_tx_hash
    (ct_lock_output_index t) (ct_sanad_id t) (ct_transition_id t).
(** The transfer with the transaction of its lock, and what is kept of it. *)
Definition keep_lock (t : CrossChainTransfer) (lock : LockResult) (ctx : RuntimeExecutionContext)
  : prog CrossChainTransfer :=
  tx ← lift (ok_or (InvalidTxHash "Failed to decode lock tx hash")
               (hex_decode (trim_0x (as_bytes (lr_tx_hash lock)))));
  let t := with_lock t tx in
  _ ← store_locked t;
  data ← lift (checkpoint_transfer_data t);
  _ ← call (CreateCheckpoint (ct_id t) SLockConfirmed data);
  Done (Ok t).

(** The finality of the lock, when it is deep enough, with the depth that was required. *)
Definition await_lock (t : CrossChainTransfer) (ctx : RuntimeExecutionContext)
  : prog (N * TxFinality) :=
  _ ← journal_phase (plain_entry t SAwaitingFinality Entered);
  _ ← transfer_event t ctx TRANSFER_FINALITY_AWAITED EVENT_VERSION_AWAITING_FINALITY [];
  required ← lift (ok_or (RuntimeError ("No finality depth configured for chain: " +:+ ct_source_chain t))
                     (finality_depth_for_chain (rc_policy ctx) (ct_source_chain t)));
  f ← Vis (TxFinalityOf (ct_source_chain t) (hex_string (ct_lock_tx_hash t))) (fun r =>
        match r with
        | Ok f => Done (Ok f)
        | Err e =>
            _ ← note_phase (plain_entry t SAwaitingFinality
                  (Failed ("Finality verification failed: " +:+ adapter_message e)));
            fail (FinalityFailed (adapter_message e))
        end);
  Done (Ok (required, f)).

(** The proof of the lock, checked by the chain and by the verifier, with its report. *)
Definition prove_lock (t : CrossChainTransfer) (lock : LockResult) (f : TxFinality)
    (ctx : RuntimeExecutionContext) : prog (ProofBundle * N * ProtocolAssuranceReport) :=
  _ ← journal_phase (plain_entry t SAwaitingFinality PhaseCompleted);
  _ ← journal_phase (plain_entry t SProofBuilding Entered);
  _ ← transfer_event t ctx TRANSFER_PROOF_BUILT EVENT_VERSION_PROOF_BUILT [];
  p ← try_op (fun e => ProofBuildFailed (adapter_message e))
        (BuildProof (ct_source_chain t) t (mkLockResult (lr_tx_hash lock) (tf_block_height f)));
  _ ← check_scheme t p;
  _ ← check_seal t p;
  let required := default 6%N (finality_depth_for_chain (rc_policy ctx) (ct_source_chain t)) in
  _ ← validate_source_proof t p;
  let outcome := source_outcome t p required f in
  if is_met outcome then
    _ ← transfer_event t ctx TRANSFER_PROOF_VERIFIED EVENT_VERSION_PROOF_VERIFIED [];
    _ ← journal_phase (plain_entry t SProofBuilding PhaseCompleted);
    Done (Ok (p, required, source_report t p required f))
  else
    _ ← note_phase (plain_entry t SProofBuilding (Failed (shortfall_summary outcome)));
    fail (ProofVerificationFailed (shortfall_summary outcome)).

(** The proof is journaled, and the breaker asked before the mint; a breaker that is
    open gives the reservation back. *)
Definition keep_proof (t : CrossChainTransfer) (p : ProofBundle) : prog unit :=
  let payload := bundle_to_canonical_bytes p in
  _ ← journal_phase (phase_entry t (proof_payload_hash sha256 payload) (Some payload) SProofValidated
                       PhaseCompleted 1 None);
  _ ← call (CreateCheckpoint (ct_id t) SProofBuilding payload);
  now ← call Now;
  allowed ← call (AllowRequest now);
  if (allowed : bool) then Done (Ok tt)
  else
    _ ← note_phase (plain_entry t SMintConfirmed (Failed "Circuit breaker is open"));
    _ ← ignore_op (RollBack (typed_replay_id t));
    fail BREAKER_OPEN.

Definition mint_payload (t : CrossChainTransfer) (p : ProofBundle) (payload : bytes)
    (ctx : RuntimeExecutionContext) : result TransferCoordinatorError bytes :=
  encode_mint_request (build_runtime_mint_request (x_hashes X) t p payload
                         (default [] (rc_destination_owner ctx))).

Definition mint_destination (t : CrossChainTransfer) (p : ProofBundle) (ctx : RuntimeExecutionContext)
  : prog MintResult :=
  _ ← journal_phase (plain_entry t SMintConfirmed Entered);
  payload ← lift (mint_payload t p (bundle_to_canonical_bytes p) ctx);
  r ← retry (MintSanad (ct_destination_chain t) t payload) (retry_delay (rc_policy ctx)) (retries ctx);
  match r with
  | Ok m => Done (Ok m)
  | Err e =>
      _ ← note_phase (plain_entry t SMintConfirmed (Failed (adapter_message e)));
      fail (MintFailed (adapter_message e))
  end.

(** What follows a mint that was accepted. *)
Definition complete_mint (t : CrossChainTransfer) (p : ProofBundle) (m : MintResult)
    (ctx : RuntimeExecutionContext) : prog unit :=
  _ ← store_minted (runtime_failed "Failed to persist submitted mint transaction: ") t (mi_tx_hash m);
  _ ← journal_phase (plain_entry t SMintSubmitted PhaseCompleted);
  _ ← journal_phase (plain_entry t SMintConfirmed PhaseCompleted);
  data ← lift (checkpoint_transfer_data t);
  _ ← call (CreateCheckpoint (ct_id t) SMintConfirmed data);
  _ ← try_op replay_failed (Confirm (b32 (ct_sanad_id t)));
  _ ← evidence_of_mint t p m (rc_runtime_instance ctx);
  _ ← store_minted (runtime_failed "Failed to persist confirmed transfer: ") t (mi_tx_hash m);
  _ ← transfer_event t ctx TRANSFER_COMPLETE EVENT_VERSION_COMPLETE
        [("mint_tx_hash"%string, mi_tx_hash m)];
  data ← lift (checkpoint_transfer_data t);
  _ ← call (CreateCheckpoint (ct_id t) SCompleted data);
  journal_phase (plain_entry t SCompleted Entered).

(** [execute_outcome] *)
Definition execute_outcome (t : CrossChainTransfer) (ctx : RuntimeExecutionContext) : prog TransferOutcome :=
  _ ← authorize t ctx;
  with_permit t (
    prior ← completed_receipt_for t (ct_sanad_id t);
    match prior with
    | Some r => Done (Ok (TCompleted r))
    | None =>
        _ ← reserve t ctx;
        _ ← store_if_locked t;
        _ ← negotiate t;
        lock ← lock_source t ctx;
        t ← keep_lock t lock ctx;
        '((required, f) : N * TxFinality) ← await_lock t ctx;
        if (tf_confirmations f <? required)%N then
          Done (Ok (TPending (hex_string (ct_lock_tx_hash t)) (FinalityObservation_new f required)))
        else
          '((p, required, report) : ProofBundle * N * ProtocolAssuranceReport) ← prove_lock t lock f ctx;
          _ ← keep_proof t p;
          m ← mint_destination t p ctx;
          _ ← complete_mint t p m ctx;
          Done (Ok (TCompleted (mkTransferReceipt (ct_id t) (ct_sanad_id t) (lr_tx_hash lock) (mi_tx_hash m)
                                  (mi_materialization m) (Some (FinalityObservation_new f required))
                                  (Some report))))
    end).

(** A transfer that must be complete. *)
Definition completed_or_fail (o : TransferOutcome) : prog TransferReceipt :=
  match o with
  | TCompleted r => Done (Ok r)
  | TPending _ f => fail (FinalityFailed ("lock has " +:+ pretty (fo_confirmations f) +:+ " confirmations, " +:+
                                          pretty (fo_required_confirmations f) +:+ " required"))
  end.
Definition execute (t : CrossChainTransfer) (ctx : RuntimeExecutionContext) : prog TransferReceipt :=
  execute_outcome t ctx ≫= completed_or_fail.

(** ** Resuming *)

(** [find], over the entries of the registry, and the transfer it gives *)
Definition entry_of (id : string) (e : HashEntry) : bool :=
  bool_decide (he_transfer_id e = id)
  || (bool_decide (he_transfer_id e = ""%string) && bool_decide (hex_string (b32 (he_sanad_id e)) = id)).
Definition find_entry (id : string) (l : list HashEntry) : option HashEntry := find (entry_of id) l.
Definition cached_transfer (id : string) (l : list HashEntry) : option CrossChainTransfer :=
  (fun e => registry_entry_to_transfer e id) <$> find_entry id l.

(** The transfer a journal entry's context gives. *)
Definition transfer_of_context (id : string) (c : TransferContext) : CrossChainTransfer :=
  mkTransfer id (tc_source_chain c) (tc_destination_chain c)
    (b32 match wire_to_hash (tc_lock_tx_hash c) with Ok h => h | Err _ => Hash.zero end) 0
    match wire_to_sanad_id (tc_sanad_id c) with Ok h => h | Err _ => Hash.zero end [].
Definition transfer_or_context (id : string) (cached : option CrossChainTransfer)
    (context : option TransferContext) (lost : string) : prog CrossChainTransfer :=
  match cached, context with
  | Some t, _ => Done (Ok t)
  | None, Some c => Done (Ok (transfer_of_context id c))
  | None, None => fail (RuntimeError lost)
  end.
Definition cached_or (cached : option CrossChainTransfer) (lost : string) : prog CrossChainTransfer :=
  lift (ok_or (RuntimeError lost) cached).

(** [verify_recovery_proof] *)
Definition verify_recovery_proof (t : CrossChainTransfer) (p : ProofBundle) (confirmed_height : N)
    (ctx : RuntimeExecutionContext) : prog unit :=
  _ ← lift (map_err FinalityFailed
              (check_finality_threshold (rc_policy ctx) (ct_source_chain t) confirmed_height));
  _ ← check_scheme t p;
  _ ← check_seal t p;
  required ← lift (ok_or (FinalityFailed ("No finality depth configured for chain: " +:+ ct_source_chain t))
                     (finality_depth_for_chain (rc_policy ctx) (ct_source_chain t)));
  _ ← stop_if (negb (bool_decide (anchor_id (anchor_ref p) = b32 (ct_sanad_id t))))
        (ProofVerificationFailed "Proof anchor does not bind to the transfer sanad_id");
  f ← lock_finality_status t;
  _ ← stop_if (tf_confirmations f <? required)%N
        (FinalityFailed ("Source lock has " +:+ pretty (tf_confirmations f) +:+ "/" +:+ pretty required +:+
           " confirmations on the real chain; refusing to finalize on the recovery path"));
  _ ← validate_source_proof t p;
  let outcome := source_outcome t p required f in
  stop_if (negb (is_met outcome)) (ProofVerificationFailed (shortfall_summary outcome)).

(** [execute_from_mint] *)
Definition execute_from_mint (id mint_tx_hash : string) (ctx : RuntimeExecutionContext)
  : prog TransferReceipt :=
  _ ← assert_single_active_coordinator id;
  l ← load_transfers;
  t ← lift (ok_or CNotFound (cached_transfer id l));
  _ ← validate_recovery_context t ctx;
  m ← try_op (fun e => RuntimeError (adapter_message e)) (ConfirmTx (ct_destination_chain t) mint_tx_hash);
  _ ← try_op replay_failed (Confirm (b32 (ct_sanad_id t)));
  _ ← record_resumed_settlement_evidence t m ctx;
  _ ← store_minted (runtime_failed "Failed to persist confirmed transfer: ") t (mi_tx_hash m);
  _ ← journal_phase (phase_entry t zero32 None SMintConfirmed PhaseCompleted 2 None);
  _ ← journal_phase (phase_entry t zero32 None SCompleted PhaseCompleted 2 None);
  Done (Ok (mkTransferReceipt (ct_id t) (ct_sanad_id t) (hex_string (ct_lock_tx_hash t)) (mi_tx_hash m)
              (mi_materialization m) None None)).

(** The checks of a proof that was kept, up to the permit. *)
Definition kept_proof (t : CrossChainTransfer) (payload : bytes) (ctx : RuntimeExecutionContext)
  : prog ProofBundle :=
  _ ← validate_recovery_context t ctx;
  _ ← stop_if (bool_decide (payload = [])) (ProofVerificationFailed "Persisted proof payload is empty");
  p ← lift (map_err (fun m => ProofVerificationFailed ("Persisted proof payload is malformed: " +:+ m))
              (bundle_from_canonical_bytes payload));
  f ← lock_finality_status t;
  _ ← verify_recovery_proof t p (tf_block_height f) ctx;
  Done (Ok p).

(** [execute_from_proof] *)
Definition execute_from_proof (t : CrossChainTransfer) (payload : bytes) (ctx : RuntimeExecutionContext)
  : prog TransferReceipt :=
  p ← kept_proof t payload ctx;
  with_permit t (
    let entry o := phase_entry t (proof_payload_hash sha256 payload) (Some payload) SMintSubmitted o 2 None in
    _ ← journal_phase (entry Entered);
    request ← lift (mint_payload t p payload ctx);
    m ← try_op (fun e => MintFailed (adapter_message e)) (MintSanad (ct_destination_chain t) t request);
    _ ← store_minted replay_failed t (mi_tx_hash m);
    _ ← journal_phase (entry PhaseCompleted);
    execute_from_mint (ct_id t) (mi_tx_hash m) ctx).

Definition lock_context (t : CrossChainTransfer) (digest : Hash) (ctx : RuntimeExecutionContext)
  : TransferContext :=
  Journal.mkContext (wire_of_hash (ct_sanad_id t)) (ct_source_chain t) (ct_destination_chain t)
    (wire_of_hash digest)
    match rc_destination_owner ctx with Some o => hex_string o | None => "" end.

(** [execute_from_lock_outcome] *)
Definition execute_from_lock_outcome (t : CrossChainTransfer) (ctx : RuntimeExecutionContext)
  : prog TransferOutcome :=
  let entry hash payload stage o := phase_entry t hash payload stage o 2 None in
  _ ← validate_recovery_context t ctx;
  required ← lift (ok_or (RuntimeError ("No finality depth configured for chain: " +:+ ct_source_chain t))
                     (finality_depth_for_chain (rc_policy ctx) (ct_source_chain t)));
  digest ← lift (lock_tx_ref_digest sha256 (ct_lock_tx_hash t));
  _ ← journal_phase (phase_entry t zero32 None SAwaitingFinality Entered 2 (Some (lock_context t digest ctx)));
  f ← lock_finality_status t;
  if (tf_confirmations f <? required)%N then
    Done (Ok (TPending (hex_string (ct_lock_tx_hash t)) (FinalityObservation_new f required)))
  else
    _ ← journal_phase (entry zero32 None SAwaitingFinality PhaseCompleted);
    _ ← journal_phase (entry zero32 None SProofBuilding Entered);
    p ← try_op (fun e => ProofBuildFailed (adapter_message e))
          (BuildProof (ct_source_chain t) t
             (mkLockResult (hex_string (ct_lock_tx_hash t)) (tf_block_height f)));
    _ ← verify_recovery_proof t p (tf_block_height f) ctx;
    let payload := bundle_to_canonical_bytes p in
    let hash := proof_payload_hash sha256 payload in
    _ ← journal_phase (entry hash (Some payload) SProofBuilding PhaseCompleted);
    _ ← journal_phase (entry hash (Some payload) SProofValidated PhaseCompleted);
    r ← execute_from_proof t payload ctx;
    Done (Ok (TCompleted r)).
Definition execute_from_lock (t : CrossChainTransfer) (ctx : RuntimeExecutionContext) : prog TransferReceipt :=
  execute_from_lock_outcome t ctx ≫= completed_or_fail.

Definition latest_entry (id : string) : prog TransferPhaseEntry :=
  e ← try_op journal_failed (LatestEntry id); lift (ok_or CNotFound e).

(** The proof of a journal entry, with its digest. *)
Definition journaled_proof (e : TransferPhaseEntry) (missing : string) (empty : option string) : prog bytes :=
  payload ← lift (ok_or (RuntimeError missing) (pe_proof_payload e));
  _ ← match empty with Some m => stop_if (bool_decide (payload = [])) (RuntimeError m) | None => Done (Ok tt) end;
  _ ← stop_if (negb (bool_decide (pe_proof_hash e = proof_payload_hash sha256 payload)))
        (ProofVerificationFailed "Persisted proof payload does not match journal digest");
  Done (Ok payload).

(** The phase [ProofBuilding]: with a proof that was kept, or from the lock. *)
Definition resume_building (id : string) (e : TransferPhaseEntry) (cached : option CrossChainTransfer)
    (ctx : RuntimeExecutionContext) : prog TransferReceipt :=
  match pe_proof_payload e with
  | None | Some [] =>
      t ← transfer_or_context id cached (pe_transfer_context e)
            "Cannot resume from ProofBuilding phase - transfer state lost";
      execute_from_lock t ctx
  | Some payload =>
      p ← lift (map_err (fun m => ProofVerificationFailed ("Persisted proof checkpoint is malformed: " +:+ m))
                  (bundle_from_canonical_bytes payload));
      t ← transfer_or_context id cached (pe_transfer_context e)
            "Cannot resume from ProofBuilding - transfer context missing";
      lock ← try_op (fun e => FinalityFailed (adapter_message e))
               (ConfirmTx (ct_source_chain t) (hex_string (ct_lock_tx_hash t)));
      _ ← verify_recovery_proof t p (mi_block_height lock) ctx;
      execute_from_proof t payload ctx
  end.

(** The phase [MintSubmitted]: confirmed when its transaction is known, minted again from
    the journaled proof when it is not. *)
Definition resume_submitted (id : string) (e : TransferPhaseEntry) (l : list HashEntry)
    (ctx : RuntimeExecutionContext) : prog TransferReceipt :=
  entry ← lift (ok_or CNotFound (find_entry id l));
  if bool_decide (he_mint_tx_hash entry = Hash.zero) then
    t ← cached_or (cached_transfer id l) "Cannot recover MintSubmitted without transfer cache entry";
    payload ← journaled_proof e "Cannot recover MintSubmitted without persisted proof payload"
                (Some "Cannot recover MintSubmitted with empty proof payload"%string);
    execute_from_proof t payload ctx
  else execute_from_mint id (hex_string (b32 (he_mint_tx_hash entry))) ctx.

(** The phase [Completed]. *)
Definition resume_completed (id : string) (e : TransferPhaseEntry) (cached : option CrossChainTransfer)
  : prog TransferReceipt :=
  t ← match cached, pe_transfer_context e with
      | Some t, _ => Done (Ok t)
      | None, Some c => Done (Ok (transfer_of_context id c))
      | None, None => fail AlreadyComplete
      end;
  r ← completed_receipt_for t (ct_sanad_id t);
  lift (ok_or AlreadyComplete r).

(** [resume_transfer] *)
Definition resume_transfer (id : string) (ctx : RuntimeExecutionContext) : prog TransferReceipt :=
  _ ← assert_single_active_coordinator id;
  e ← latest_entry id;
  l ← load_transfers;
  let cached := cached_transfer id l in
  match pe_phase e with
  | SInitialized =>
      t ← cached_or cached "Cannot resume from Initialized phase - transfer state lost (cache miss)";
      execute t ctx
  | SLockSubmitted =>
      t ← cached_or cached "Cannot resume from LockSubmitted phase - transfer state lost (cache miss)";
      execute_from_lock t ctx
  | SLockConfirmed =>
      t ← transfer_or_context id cached (pe_transfer_context e)
            "Cannot resume from LockConfirmed phase - transfer context missing from journal";
      execute_from_lock t ctx
  | SAwaitingFinality =>
      t ← transfer_or_context id cached (pe_transfer_context e)
            "Cannot resume from AwaitingFinality phase - transfer context missing from journal";
      execute_from_lock t ctx
  | SProofBuilding => resume_building id e cached ctx
  | SProofValidated =>
      t ← cached_or cached "Cannot resume from ProofValidated phase - transfer state lost (cache miss)";
      payload ← journaled_proof e
                  "Cannot resume from ProofValidated phase - verified proof payload missing" None;
      execute_from_proof t payload ctx
  | SMintSubmitted => resume_submitted id e l ctx
  | SMintConfirmed =>
      fail (RuntimeError "Transfer already at MintConfirmed phase - should be marked as Completed")
  | SCompleted => resume_completed id e cached
  | SRolledBack => fail AlreadyRolledBack
  | SCompromised =>
      fail (RuntimeError "Cannot resume from Compromised phase - transfer security incident")
  | SSealAssigned | SSourceSealClosed | SConsignmentEmitted =>
      fail (RuntimeError ("Cannot resume send-mode transfer " +:+ id +:+
                          " via materialize resume; use resume_send"))
  end.

(** [resume_transfer_outcome] *)
Definition resume_transfer_outcome (id : string) (ctx : RuntimeExecutionContext) : prog TransferOutcome :=
  _ ← assert_single_active_coordinator id;
  e ← latest_entry id;
  match pe_phase e with
  | SLockConfirmed | SAwaitingFinality | SLockSubmitted =>
      l ← load_transfers;
      t ← transfer_or_context id (cached_transfer id l) (pe_transfer_context e)
            "Cannot resume from lock phase - transfer context missing from journal";
      execute_from_lock_outcome t ctx
  | _ => r ← resume_transfer id ctx; Done (Ok (TCompleted r))
  end.

(** [resume_transfers]: the transfers that are not over, one after the other; how many
    were resumed. *)
Fixpoint resume_each (l : list TransferPhaseEntry) (resumed : nat) : prog nat :=
  match l with
  | [] => Done (Ok resumed)
  | e :: l' =>
      if is_terminal (pe_phase e) then resume_each l' resumed
      else
        ctx ← try_op id (ContextFor (pe_transfer_id e));
        prog_then (resume_transfer (pe_transfer_id e) ctx) (fun r =>
          resume_each l' (if is_ok r then S resumed else resumed))
  end.
Definition resume_transfers : prog nat :=
  l ← try_op journal_failed IncompleteTransfers; resume_each l 0.

(** [load_all_transfers] of the coordinator *)
Definition load_all_transfers : prog (list CrossChainTransfer) :=
  l ← try_op replay_failed LoadTransfers;
  Done (Ok (map (fun e => registry_entry_to_transfer e (hex_string (b32 (he_sanad_id e)))) l)).
End Coordinator.

(** ** The calls *)

Inductive materialize_call :=
| CExecute (t : CrossChainTransfer) (ctx : RuntimeExecutionContext)
| CFromLock (t : CrossChainTransfer) (ctx : RuntimeExecutionContext)
| CFromProof (t : CrossChainTransfer) (payload : bytes) (ctx : RuntimeExecutionContext)
| CFromMint (id mint_tx_hash : string) (ctx : RuntimeExecutionContext)
| CResume (id : string) (ctx : RuntimeExecutionContext)
| CResumeAll.

(** Each call as a program that returns nothing. *)
Definition forget {A} (p : prog A) : prog unit := _ ← p; Done (Ok tt).
Definition materialize_prog (X : Externals) (self : Self) (c : materialize_call) : prog unit :=
  match c with
  | CExecute t ctx => forget (execute_outcome X self t ctx)
  | CFromLock t ctx => forget (execute_from_lock_outcome X self t ctx)
  | CFromProof t payload ctx => forget (execute_from_proof X self t payload ctx)
  | CFromMint id tx ctx => forget (execute_from_mint X self id tx ctx)
  | CResume id ctx => forget (resume_transfer_outcome X self id ctx)
  | CResumeAll => forget (resume_transfers X self)
  end.

(** * A coordinator with its in-memory stores (csv-runtime/src/transfer_coordinator.rs)

    The stores a coordinator is made with ([TransferCoordinator::new]), each the model of
    its own file, and what they answer to the accesses of a call.  What they do not
    answer, the clock and the chains among them, comes from outside; so does the answer
    of a decoder that panics.

    Calls run side by side, one access at a time.  A call that never moves again stands
    for a process that stopped. *)

Record Stores := mkStores {
  s_journal : InMemoryJournal;
  s_replay : entries;
  s_transfers : transfers;
  s_events : InMemoryEventStore;
  s_leases : active_leases;
  s_admission : AdmissionState;
  s_breaker : CircuitBreaker
}.
Definition coordinator_new : Stores :=
  mkStores (InMemoryJournal_new 10000) ∅ ∅ mem_store_new ∅ admission_new (with_config default_breaker_config).

Definition set_journal j s := mkStores j (s_replay s) (s_transfers s) (s_events s) (s_leases s) (s_admission s) (s_breaker s).
Definition set_replay m s := mkStores (s_journal s) m (s_transfers s) (s_events s) (s_leases s) (s_admission s) (s_breaker s).
Definition set_transfers t s := mkStores (s_journal s) (s_replay s) t (s_events s) (s_leases s) (s_admission s) (s_breaker s).
Definition set_store e s := mkStores (s_journal s) (s_replay s) (s_transfers s) e (s_leases s) (s_admission s) (s_breaker s).
Definition set_leases l s := mkStores (s_journal s) (s_replay s) (s_transfers s) (s_events s) l (s_admission s) (s_breaker s).
Definition set_admission a s := mkStores (s_journal s) (s_replay s) (s_transfers s) (s_events s) (s_leases s) a (s_breaker s).
Definition set_breaker b s := mkStores (s_journal s) (s_replay s) (s_transfers s) (s_events s) (s_leases s) (s_admission s) b.

(** What is left when the process starts again. *)
Definition restarted (s : Stores) : Stores :=
  set_leases ∅ (set_admission admission_new (set_breaker (with_config default_breaker_config) s)).

(** What a write leaves with its answer. *)
Definition updated {S Y} (set : S -> Stores -> Stores) (s : Stores) (r : S * Y) : option (Y * Stores) :=
  Some (r.2, set r.1 s).

Section Serve.
Variable limits : AdmissionLimits.
Variable lower : string -> string.
(** The orders the maps are walked in. *)
Variable walk : gmap string TransferPhaseEntry -> log.
Variable values : transfers -> list bytes.

Definition serve_stores {X} (o : op X) (s : Stores) : option (X * Stores) :=
  match o in op Y return option (Y * Stores) with
  | AcceptLease now l => updated set_leases s (accept_execution_lease now l (s_leases s))
  | AcquirePermit source destination =>
      updated set_admission s (acquire_transfer limits source destination (s_admission s))
  | ReleasePermit chains => Some (tt, set_admission (release_transfer chains (s_admission s)) s)
  | AllowRequest now => Some (allow_request now (s_breaker s), s)
  | BreakerSuccess => Some (tt, set_breaker (record_success (s_breaker s)) s)
  | BreakerFailure now => Some (tt, set_breaker (record_failure now (s_breaker s)) s)
  | Record e => updated set_journal s (record_locked e (s_journal s))
  | LatestEntry id => Some (Ok (latest_entry_locked id (s_journal s)), s)
  | IncompleteTransfers => Some (Ok (incomplete_transfers_locked walk (s_journal s)), s)
  | LatestVersion x => Some (Ok (mem_get_latest_version x (s_events s)), s)
  | AppendEvent e => updated set_store s (mem_append e (s_events s))
  | ReplayContains id => Some (Ok (im_contains (s_replay s) id), s)
  | Consume id => updated set_replay s (im_exec (ConsumeIfUnconsumed id) (s_replay s))
  | Confirm id => updated set_replay s (im_exec (ConfirmConsumed id) (s_replay s))
  | RollBack id => updated set_replay s (im_exec (MarkRolledBack id) (s_replay s))
  | LoadTransfers =>
      match ReplayDb.load_all_transfers lower values (s_transfers s) with
      | Ok l => Some (Ok l, s)
      | Err (Msg m) => Some (Err (Storage m), s)
      | Err Panic => None
      end
  | StoreTransfer e => Some (Ok tt, set_transfers (store_transfer_entry (s_transfers s) e) s)
  | _ => None
  end.

(** ** Calls side by side *)

(** The stores, the calls with what each has left to do, and what was done, by whom. *)
Record System := mkSystem {
  sys_stores : Stores;
  sys_calls : list (prog unit);
  sys_history : list (nat * event)
}.

Inductive answers (s : Stores) {X} (o : op X) : X -> Stores -> Prop :=
| answers_store x s' : serve_stores o s = Some (x, s') -> answers s o x s'
| answers_outside x : serve_stores o s = None -> answers s o x s.

Section Calls.
Variables (X : Externals) (self : Self).

Inductive sys_step : System -> System -> Prop :=
| sys_call s calls h c :
    sys_step (mkSystem s calls h) (mkSystem s (calls ++ [materialize_prog X self c]) h)
| sys_access s calls h i {Y} (o : op Y) k y s' :
    calls !! i = Some (Vis o k) -> answers s o y s' ->
    sys_step (mkSystem s calls h) (mkSystem s' (<[i := k y]> calls) (h ++ [(i, Ev o y)]))
(* the process starts again: the calls are gone, and so is what was not stored *)
| sys_restart s calls h :
    sys_step (mkSystem s calls h)
      (mkSystem (restarted s) (map (fun _ => Done (Ok tt)) calls) h).

(** What calls one after the other, or side by side, can lead to. *)
Inductive reaches (s : System) : System -> Prop :=
| reaches_refl : reaches s s
| reaches_step s1 s2 : reaches s s1 -> sys_step s1 s2 -> reaches s s2.
End Calls.
End Serve.

(** ** A world to run calls in

    The stores, with an outside that answers by the number of accesses made so far. *)

Section World.
Variables (limits : AdmissionLimits) (lower : string -> string).
Variables (walk : gmap string TransferPhaseEntry -> log) (values : transfers -> list bytes).
Variable outside : forall Y, op Y -> N -> Y.

Definition serve_world (Y : Type) (o : op Y) (w : Stores * N) : Y * (Stores * N) :=
  match serve_stores limits lower walk values o w.1 with
  | Some (y, s) => (y, (s, w.2 + 1)%N)
  | None => (outside Y o w.2, (w.1, w.2 + 1)%N)
  end.

End World.

(** What happens in a system, one thing after the other: a call is made, a call makes [n]
    accesses from the count [from], the process starts again. *)
Inductive action :=
| Start (c : materialize_call)
| Proceed (i n : nat) (from : N) (outside : forall Y, op Y -> N -> Y)
| Restart.

Section Schedule.
Variables (limits : AdmissionLimits) (lower : string -> string).
Variables (walk : gmap string TransferPhaseEntry -> log) (values : transfers -> list bytes).
Variables (X : Externals) (self : Self).

Definition act (S : System) (a : action) : System :=
  match a with
  | Start c => mkSystem (sys_stores S) (sys_calls S ++ [materialize_prog X self c]) (sys_history S)
  | Proceed i n from outside =>
      match sys_calls S !! i with
      | Some p =>
          let '(t, q, w) := advance (serve_world limits lower walk values outside) n p (sys_stores S, from) in
          mkSystem w.1 (<[i := q]> (sys_calls S)) (sys_history S ++ map (pair i) t)
      | None => S
      end
  | Restart => mkSystem (restarted (sys_stores S)) (map (fun _ => Done (Ok tt)) (sys_calls S)) (sys_history S)
  end.
Definition run_schedule (S : System) (l : list action) : System := fold_left act l S.
End Schedule.

(** A world where a second passes with every access, locks and mints are accepted, the
    lock is [depth] deep and the proof is the demonstration bundle's. *)
Definition demo_bundle_of (t : CrossChainTransfer) : ProofBundle :=
  mkProofBundle 1 (mkSegment demo_listed Hash.zero) [demo_ed_blob] Ed25519
    (mkSealPoint [Byte.x0b] (Some 4%N) None)
    (mkCommitAnchor (b32 (ct_sanad_id t)) 12 [Byte.x01; Byte.x02]) demo_inclusion demo_finality.
Definition demo_lock_tx : bytes := replicate 32 Byte.x07.
Definition demo_outside (depth : N) (Y : Type) (o : op Y) (n : N) : Y :=
  match o in op Y return Y with
  | Now => (n * 1000000000)%N
  | NewUuid => n
  | IsHeldBy _ => true
  | CapabilitiesOf c => Some (if bool_decide (c = "bitcoin"%string) then bitcoin_capabilities else ethereum_capabilities)
  | SchemeOf _ => Some Ed25519
  | LockSanad _ _ => Ok (mkLockResult (hex_string demo_lock_tx) 12)
  | TxFinalityOf _ _ => Ok (mkTxFinality 12 depth (Some 20%N))
  | BuildProof _ t _ => Ok (demo_bundle_of t)
  | CheckSeal _ _ => Ok SealLocked
  | ValidateProof _ _ _ => Ok tt
  | MintSanad c _ _ | ConfirmTx c _ =>
      Ok (mkMintResult (hex_string (replicate 32 Byte.x0a)) 90 (materialization_unavailable c))
  | AcceptLease _ _ => Ok tt
  | AcquirePermit _ _ => Ok []
  | AllowRequest _ => true
  | Record _ | AppendEvent _ | Consume _ | Confirm _ | RollBack _ | StoreTransfer _ => Ok tt
  | LatestEntry _ => Ok None
  | IncompleteTransfers | LoadTransfers => Ok []
  | LatestVersion _ => Ok 0%N
  | ReplayContains _ => Ok true
  | ContextFor _ => Err CNotFound
  | Sleep _ | ReleasePermit _ | BreakerSuccess | BreakerFailure _ | CreateCheckpoint _ _ _ => tt
  end.

Definition demo_externals : Externals := {|
  x_hashes := toy_crates; x_sigs := permissive_crates; x_lower := id; x_show_uuid n := pretty n;
  x_json l := String.concat "," (map snd l); x_transfer_cbor t := Ok (b32 (ct_sanad_id t));
  x_mint_cbor r := Ok (mr_proof_bundle r); x_evidence_json e := Ok "evidence"%string |}.
Definition demo_self : Self := mkSelf "runtime" true.
Definition demo_materialized (id : string) : CrossChainTransfer :=
  mkTransfer id "bitcoin" "ethereum" [] 0 (fill32 Byte.x09) [Byte.x01].
Definition demo_ctx : RuntimeExecutionContext :=
  context_new (mkTransferLease (sanad_wire (fill32 Byte.x09)) 1 5 0 1000000000000000) 5 (policy_new []).
Definition demo_world (outside : forall Y, op Y -> N -> Y) : forall Y, op Y -> Stores * N -> Y * (Stores * N) :=
  serve_world default_limits id (fun m => (map_to_list m).*2) (fun m => (map_to_list m).*2) outside.
Definition demo_run {A} (n : nat) (outside : forall Y, op Y -> N -> Y) (p : prog A) (s : Stores)
  : trace * prog A * (Stores * N) := advance (demo_world outside) n p (s, 0%N).
