(* ===== verification/MintGuard.v ===== *)
(** * What every lock and every mint rests on

    Over the traces of the calls of Materialize.v, whatever the stores and the chains
    answer and wherever the process stops: what must have been answered before a Sanad is
    locked, and before it is minted. *)

From S2P Require Import Prelude Ord Bytes Hashing Text Seal ProofTaxonomy Signature CrossChain TransferState ReplayDb Journal Assurance Verifier Coordinator Capabilities Admission Runtime ExecutionLease EventStore Effects Settlement Materialize.

(** ** What a call may rely on *)

(** The contexts a call was given, or asked its provider for. *)
Definition given (c : materialize_call) (h : trace) (ctx : RuntimeExecutionContext) : Prop :=
  match c with
  | CExecute _ ctx' | CFromLock _ ctx' | CFromProof _ _ ctx' | CFromMint _ _ ctx' | CResume _ ctx' => ctx = ctx'
  | CResumeAll => exists id, Ev (ContextFor id) (Ok ctx) ∈ h
  end.

Section Guard.
Variables (X : Externals) (self : Self).
Notation sha256 := (nh_sha256 (x_hashes X)).

(** ** Justifications *)

(** A lease of the calling runtime for the Sanad was active and was accepted. *)
Definition leased (h : trace) (ctx : RuntimeExecutionContext) (t : CrossChainTransfer) : Prop :=
  let lease := rc_lease ctx in
  tl_owner lease = rc_runtime_instance ctx /\ tl_epoch lease <> 0%N /\
  lease_sanad lease = ct_sanad_id t /\
  (exists now, Ev Now now ∈ h /\ (now < tl_expires_at lease)%N) /\
  (exists now, Ev (AcceptLease now lease) (Ok tt) ∈ h) /\
  (co_has_lease self = true -> Ev (IsHeldBy (co_runtime_id self)) true ∈ h).

(** The lock was seen as deep as the policy asks. *)
Definition final (h : trace) (ctx : RuntimeExecutionContext) (t : CrossChainTransfer) (required : N)
    (f : TxFinality) : Prop :=
  Ev (TxFinalityOf (ct_source_chain t) (hex_string (ct_lock_tx_hash t))) (Ok f) ∈ h /\
  finality_depth_for_chain (rc_policy ctx) (ct_source_chain t) = Some required /\
  (required <= tf_confirmations f)%N.

(** What the canonical verifier and the runtime's policy ask of the proof: its size, its DAG and
    its anchor are in order, the anchor is the transfer's Sanad and the source tag its source
    chain, unless one is empty; its signatures verify; its inclusion and finality proofs are
    well formed; and it is as deep as required, and not stale, at the tip that was observed. *)
Definition accepted_proof (t : CrossChainTransfer) (p : ProofBundle) (required : N) (f : TxFinality) : Prop :=
  let tip := verification_height (FinalityObservation_new f required) in
  let height := block_height (anchor_ref p) in
  structure_ok sha256 p (max_proof_bundle_size default_config) Deferred /\
  anchor_id (anchor_ref p) = b32 (ct_sanad_id t) /\
  (inc_source (inclusion_proof p) = ""%string \/ ct_source_chain t = ""%string \/
   inc_source (inclusion_proof p) = ct_source_chain t) /\
  v_verify_bundle_signatures (x_sigs X) p (signature_scheme p) [] = Ok tt /\
  inclusion_well_formed (inclusion_proof p) (anchor_ref p) /\
  finality_well_formed (finality_proof p) /\
  deep_enough height required tip /\ fresh height tip (max_anchor_age_blocks default_config).

(** The source chain accepted the proof and knows its seal, the scheme is the chain's, and
    the verifier accepts it. *)
Definition proved (h : trace) (t : CrossChainTransfer) (p : ProofBundle) (required : N) (f : TxFinality) : Prop :=
  (exists s, Ev (CheckSeal (ct_source_chain t) (seal_id (seal_ref p))) (Ok s) ∈ h) /\
  (exists s, Ev (SchemeOf (ct_source_chain t)) s ∈ h /\ (s = None \/ s = Some (signature_scheme p))) /\
  Ev (ValidateProof (ct_source_chain t) t p) (Ok tt) ∈ h /\
  accepted_proof t p required f.

(** The replay identifier was reserved by this call, or had been before. *)
Definition reserved (h : trace) (t : CrossChainTransfer) : Prop :=
  Ev (Consume (b32 (ct_sanad_id t))) (Ok tt) ∈ h \/ Ev (ReplayContains (b32 (ct_sanad_id t))) (Ok true) ∈ h.

Definition journaled (h : trace) (t : CrossChainTransfer) (stages : list TransferStage) : Prop :=
  exists e, Ev (Record e) (Ok tt) ∈ h /\ pe_transfer_id e = ct_id t /\ pe_phase e ∈ stages /\ pe_outcome e = Entered.

Definition mint_justified (h : trace) (ctx : RuntimeExecutionContext) (chain : string)
    (t : CrossChainTransfer) (request : bytes) : Prop :=
  chain = ct_destination_chain t /\ leased h ctx t /\ reserved h t /\
  journaled h t [SMintConfirmed; SMintSubmitted] /\
  exists p payload required f,
    final h ctx t required f /\ proved h t p required f /\
    (payload = bundle_to_canonical_bytes p \/ bundle_from_canonical_bytes payload = Ok p) /\
    x_mint_cbor X (mkMintRequest
      (mkAttestation (contract_chain_id (x_hashes X) (ct_destination_chain t)) zero32 (ct_sanad_id t)
         (commitment_from_bundle p) (contract_chain_id (x_hashes X) (ct_source_chain t))
         (default [] (rc_destination_owner ctx)) (lock_event_id (x_hashes X) t)
         (mint_nullifier (x_hashes X) p) 0) [] payload) = Ok request.

(** A chain settles, proves the inclusion of transactions when that is needed, and has final
    blocks. *)
Definition can_serve (h : trace) (chain : string) (inclusion : bool) : Prop :=
  exists c, Ev (CapabilitiesOf chain) (Some c) ∈ h /\ cc_chain_role c = Settlement /\
    (inclusion = true -> cc_supports_transaction_inclusion_proofs c = true) /\ (1 <= cc_finality_depth c)%N.

Definition lock_justified (h : trace) (ctx : RuntimeExecutionContext) (chain : string) (t : CrossChainTransfer)
  : Prop :=
  chain = ct_source_chain t /\ leased h ctx t /\ Ev (Consume (b32 (ct_sanad_id t))) (Ok tt) ∈ h /\
  can_serve h (ct_source_chain t) true /\ can_serve h (ct_destination_chain t) false /\
  journaled h t [SLockConfirmed] /\ (exists now, Ev (AllowRequest now) true ∈ h).

(** A reservation is given back when a lock attempt failed, or when the breaker is open;
    it is consumed when a mint of the Sanad was accepted or confirmed. *)
Definition rollback_justified (h : trace) (id : ReplayId) : Prop :=
  (exists t e, typed_replay_id t = id /\ Ev (LockSanad (ct_source_chain t) t) (Err e) ∈ h) \/
  (exists now, Ev (AllowRequest now) false ∈ h).
Definition confirm_justified (h : trace) (id : bytes) : Prop :=
  exists t m, b32 (ct_sanad_id t) = id /\
    ((exists request, Ev (MintSanad (ct_destination_chain t) t request) (Ok m) ∈ h) \/
     (exists tx, Ev (ConfirmTx (ct_destination_chain t) tx) (Ok m) ∈ h)).

(** ** The discipline *)

Variable is_given : trace -> RuntimeExecutionContext -> Prop.

Definition may (h : trace) (Y : Type) (o : op Y) : Prop :=
  match o with
  | MintSanad chain t request => exists ctx, is_given h ctx /\ mint_justified h ctx chain t request
  | LockSanad chain t => exists ctx, is_given h ctx /\ lock_justified h ctx chain t
  | RollBack id => rollback_justified h id
  | Confirm id => confirm_justified h id
  | _ => True
  end.

(** From a history, a program keeps to the discipline; if it succeeds, the histories that
    may be satisfy [Q]. *)
Definition keeps {A} (h : trace) (p : prog A) (Q : trace -> A -> Prop) : Prop :=
  wp may h p (fun h' r => h ⊆ h' /\ forall a, r = Ok a -> Q h' a).

Lemma keeps_done {A} h (a : A) (Q : trace -> A -> Prop) : Q h a -> keeps h (Done (Ok a)) Q.
Proof. intros H. split; [done|]. by intros ? [= <-]. Qed.
Lemma keeps_fail {A} h e (Q : trace -> A -> Prop) : keeps h (Done (Err e)) Q.
Proof. by split. Qed.
Lemma keeps_lift {A} h (r : result _ A) (Q : trace -> A -> Prop) :
  (forall a, r = Ok a -> Q h a) -> keeps h (lift r) Q.
Proof. intros H. split; [done|]. exact H. Qed.
Lemma keeps_vis {A Y} h (o : op Y) (k : Y -> prog A) Q :
  may h Y o -> (forall y, keeps (h ++ [Ev o y]) (k y) Q) -> keeps h (Vis o k) Q.
Proof.
  intros Hm Hk. split; [done|]. intros y. eapply run_mono; [apply Hk|].
  cbn. intros h' r [Hs HQ]. split; [set_solver|done].
Qed.
Lemma keeps_mono {A} h (p : prog A) (Q Q' : trace -> A -> Prop) :
  keeps h p Q -> (forall h' a, h ⊆ h' -> Q h' a -> Q' h' a) -> keeps h p Q'.
Proof. intros H HQ. eapply run_mono; [exact H|]. cbn. intros h' r [Hs Hr]. split; [done|]. eauto. Qed.
Lemma keeps_bind {A B} h (p : prog A) (f : A -> prog B) Q :
  keeps h p (fun h' a => h ⊆ h' -> keeps h' (f a) Q) -> keeps h (p ≫= f) Q.
Proof.
  intros H. apply run_bind. eapply run_mono; [exact H|]. cbn. intros h' [a|e] [Hs Hr].
  - specialize (Hr a eq_refl Hs). eapply run_mono; [exact Hr|]. cbn. intros h'' r [Hs' HQ]. split; [set_solver|done].
  - done.
Qed.
Lemma keeps_then {A B} h (p : prog A) (k : result _ A -> prog B) Q :
  keeps h p (fun h' a => h ⊆ h' -> keeps h' (k (Ok a)) Q) ->
  (forall h' e, h ⊆ h' -> keeps h' (k (Err e)) Q) -> keeps h (prog_then p k) Q.
Proof.
  intros H He. apply run_then. eapply run_mono; [exact H|]. cbn. intros h' [a|e] [Hs Hr].
  - eapply run_mono; [exact (Hr a eq_refl Hs)|]. cbn. intros h'' r [Hs' HQ]. split; [set_solver|done].
  - eapply run_mono; [exact (He h' e Hs)|]. cbn. intros h'' r [Hs' HQ]. split; [set_solver|done].
Qed.
Lemma keeps_call {Y} h (o : op Y) (Q : trace -> Y -> Prop) :
  may h Y o -> (forall y, Q (h ++ [Ev o y]) y) -> keeps h (call o) Q.
Proof. intros Hm HQ. apply keeps_vis; [done|]. intros y. by apply keeps_done. Qed.
Lemma keeps_try {E Y} h (f : E -> _) (o : op (result E Y)) (Q : trace -> Y -> Prop) :
  may h _ o -> (forall y, Q (h ++ [Ev o (Ok y)]) y) -> keeps h (try_op f o) Q.
Proof.
  intros Hm HQ. apply keeps_vis; [done|]. intros [y|e]; [by apply keeps_done|apply keeps_fail].
Qed.
Lemma keeps_ignore {Y} h (o : op Y) (Q : trace -> unit -> Prop) :
  may h Y o -> (forall y, Q (h ++ [Ev o y]) tt) -> keeps h (ignore_op o) Q.
Proof. intros Hm HQ. apply keeps_vis; [done|]. intros y. by apply keeps_done. Qed.
Lemma keeps_stop h c e (Q : trace -> unit -> Prop) : (c = false -> Q h tt) -> keeps h (stop_if c e) Q.
Proof. intros H. unfold stop_if. destruct c; [apply keeps_fail|by apply keeps_done, H]. Qed.

(** ** Accesses the discipline says nothing of *)

Definition calm {Y} (o : op Y) : Prop :=
  match o with MintSanad _ _ _ | LockSanad _ _ | RollBack _ | Confirm _ => False | _ => True end.
Fixpoint quiet {A} (p : prog A) : Prop :=
  match p with Done _ => True | Vis o k => calm o /\ forall y, quiet (k y) end.

Lemma quiet_then {A B} (p : prog A) (k : result _ A -> prog B) :
  quiet p -> (forall r, quiet (k r)) -> quiet (prog_then p k).
Proof. intros Hp Hk. induction p as [r|Y o f IH]; cbn in *; [done|]. destruct Hp. auto. Qed.
Lemma quiet_bind {A B} (p : prog A) (f : A -> prog B) : quiet p -> (forall a, quiet (f a)) -> quiet (p ≫= f).
Proof. intros Hp Hf. apply quiet_then; [done|]. by intros [a|e]. Qed.

Lemma calm_may {Y} h (o : op Y) : calm o -> may h Y o.
Proof. by destruct o. Qed.
Lemma keeps_quiet {A} h (p : prog A) : quiet p -> keeps h p (fun _ _ => True).
Proof.
  revert h. induction p as [r|Y o k IH]; intros h Hp; [by split|]. destruct Hp as [Ho Hk].
  apply keeps_vis; [by apply calm_may|]. intros y. apply IH, Hk.
Qed.
End Guard.

(** Quietness follows the program. *)
Create HintDb quiet.
Ltac quiet_step :=
  lazymatch goal with
  | |- quiet (mbind _ _) => apply quiet_bind; [|intros ?]
  | |- quiet (prog_then _ _) => apply quiet_then; [|intros ?]
  | |- quiet (match ?x with _ => _ end) => destruct x
  | |- quiet (if ?x then _ else _) => destruct x
  | |- quiet (Vis _ _) => split; [exact I|intros ?]
  | |- quiet (Done _) => exact I
  | |- quiet (fail _) => exact I
  | |- quiet (lift _) => exact I
  | |- quiet (call _) => split; [exact I|intros ?; exact I]
  | |- quiet (try_op _ _) => split; [exact I|intros ?; exact I]
  | |- quiet (ignore_op _) => split; [exact I|intros ?; exact I]
  | |- quiet (stop_if ?c _) => unfold stop_if; destruct c
  | |- quiet (let _ := _ in _) => cbv zeta
  | |- quiet _ => solve [auto with quiet]
  end.
Ltac quiet_prog := repeat quiet_step.
Ltac seen :=
  match goal with
  | H : ?e ∈ ?h |- ?e ∈ ?h => exact H
  | |- _ ∈ _ ++ [_] => apply elem_of_app; right; apply list_elem_of_singleton; reflexivity
  | |- _ ∈ _ ++ [_] => apply elem_of_app; left; seen
  | Hs : _ ⊆ ?h |- _ ∈ ?h => apply Hs; seen
  end.
(** A step of a sequence: by its lemma, or because it is quiet. *)
Tactic Notation "after" uconstr(L) := apply keeps_bind; eapply keeps_mono; [apply L|].
Ltac quietly := apply keeps_bind; eapply keeps_mono; [apply keeps_quiet; auto with quiet|].
#[export] Hint Extern 1 (_ ⊆ _ ++ _) => (intros ?; rewrite elem_of_app; auto) : core.

Section Steps.
Variables (X : Externals) (self : Self).
Variable is_given : trace -> RuntimeExecutionContext -> Prop.
Hypothesis is_given_mono : forall h h' ctx, h ⊆ h' -> is_given h ctx -> is_given h' ctx.
Notation sha256 := (nh_sha256 (x_hashes X)).
Notation keeps := (keeps X self is_given).
Notation leased := (leased self).
Notation proved := (proved X).

Lemma leased_mono h h' ctx t : h ⊆ h' -> leased h ctx t -> leased h' ctx t.
Proof.
  intros Hs (? & ? & ? & (n & ? & ?) & (n' & ?) & Hc). split_and!; eauto.
Qed.
Lemma final_mono h h' ctx t r f : h ⊆ h' -> final h ctx t r f -> final h' ctx t r f.
Proof. intros Hs (? & ? & ?). split_and!; auto. Qed.
Lemma proved_mono h h' t p r f : h ⊆ h' -> proved h t p r f -> proved h' t p r f.
Proof. intros Hs ((s & ?) & (s' & ? & ?) & ? & ?). split_and!; eauto. Qed.
Lemma reserved_mono h h' t : h ⊆ h' -> reserved h t -> reserved h' t.
Proof. intros Hs [?|?]; [left|right]; auto. Qed.
Lemma journaled_mono h h' t l : h ⊆ h' -> journaled h t l -> journaled h' t l.
Proof. intros Hs (e & ? & ?). exists e. auto. Qed.
Lemma can_serve_mono h h' c q : h ⊆ h' -> can_serve h c q -> can_serve h' c q.
Proof. intros Hs (e & ? & ?). exists e. auto. Qed.

Lemma quiet_journal e : quiet (journal_phase e).
Proof. unfold journal_phase. quiet_prog. Qed.
Lemma quiet_note e : quiet (note_phase e).
Proof. unfold note_phase. quiet_prog. Qed.
Lemma quiet_event s e v p r : quiet (append_event s e v p r).
Proof. unfold append_event. quiet_prog. Qed.
Hint Resolve quiet_journal quiet_note quiet_event : quiet.
Lemma quiet_transfer_event t ctx e v l : quiet (transfer_event X t ctx e v l).
Proof. unfold transfer_event. auto with quiet. Qed.
Lemma quiet_registry_entry t : quiet (registry_entry X t).
Proof. unfold registry_entry. quiet_prog. Qed.
Hint Resolve quiet_transfer_event quiet_registry_entry : quiet.
Lemma quiet_store_minted f t m : quiet (store_minted X f t m).
Proof. unfold store_minted. quiet_prog. Qed.
Lemma quiet_store_locked t : quiet (store_locked X t).
Proof. unfold store_locked. quiet_prog. Qed.
Lemma quiet_load : quiet load_transfers.
Proof. unfold load_transfers. quiet_prog. Qed.
Lemma quiet_find_completed t r l : quiet (find_completed t r l).
Proof. induction l as [|e l IH]; cbn [find_completed]; quiet_prog; exact IH. Qed.
Lemma quiet_mint_evidence t p m r : quiet (evidence_of_mint X t p m r).
Proof. unfold evidence_of_mint, record_evidence. quiet_prog. Qed.
Hint Resolve quiet_store_minted quiet_store_locked quiet_load quiet_find_completed quiet_mint_evidence : quiet.
Lemma quiet_completed_receipt t r : quiet (completed_receipt_for t r).
Proof. unfold completed_receipt_for. quiet_prog. Qed.
Lemma quiet_resumed_evidence t m ctx : quiet (record_resumed_settlement_evidence X t m ctx).
Proof. unfold record_resumed_settlement_evidence. quiet_prog. Qed.
Lemma quiet_store_if_locked t : quiet (store_if_locked X t).
Proof. unfold store_if_locked. quiet_prog. Qed.
Lemma quiet_active id : quiet (assert_single_active_coordinator self id).
Proof. unfold assert_single_active_coordinator. quiet_prog. Qed.
Hint Resolve quiet_completed_receipt quiet_resumed_evidence quiet_store_if_locked quiet_active : quiet.
Lemma quiet_validate t ctx : quiet (validate_recovery_context self t ctx).
Proof. unfold validate_recovery_context, accept_lease. quiet_prog. Qed.
Hint Resolve quiet_validate : quiet.

(** ** What each step establishes *)

Lemma keeps_journal h (e : N -> TransferPhaseEntry) :
  keeps h (journal_phase e) (fun h' _ => exists now, Ev (Record (e now)) (Ok tt) ∈ h').
Proof.
  apply keeps_bind, keeps_call; [exact I|]. intros now _. apply keeps_try; [exact I|].
  intros []. exists now. seen.
Qed.

Lemma keeps_active h id :
  keeps h (assert_single_active_coordinator self id)
    (fun h' _ => co_has_lease self = true -> Ev (IsHeldBy (co_runtime_id self)) true ∈ h').
Proof.
  unfold assert_single_active_coordinator. destruct (co_has_lease self); [|by apply keeps_done].
  apply keeps_bind, keeps_call; [exact I|]. intros held _. apply keeps_stop. intros Hh _.
  apply negb_false_iff in Hh as ->. seen.
Qed.

Lemma keeps_accept h l :
  keeps h (accept_lease l) (fun h' _ => exists now, Ev (AcceptLease now l) (Ok tt) ∈ h').
Proof.
  apply keeps_bind, keeps_call; [exact I|]. intros now _. apply keeps_try; [exact I|].
  intros []. exists now. seen.
Qed.

Lemma keeps_authorize h t ctx : keeps h (authorize X self t ctx) (fun h' _ => leased h' ctx t).
Proof.
  unfold authorize. after keeps_active. intros h1 [] _ Ha _.
  apply keeps_bind, keeps_stop. intros Ho%negb_false_iff%bool_decide_eq_true _.
  apply keeps_bind, keeps_stop. intros Hs%negb_false_iff%bool_decide_eq_true _.
  apply keeps_bind, keeps_stop. intros He%bool_decide_eq_false _.
  apply keeps_bind, keeps_call; [exact I|]. intros now _.
  apply keeps_bind, keeps_stop. intros Hn%negb_false_iff _.
  eapply keeps_mono; [apply keeps_accept|]. intros h2 [] Hs2 [n Hacc].
  split_and!; try done.
  - exists now. split; [seen|]. by apply N.ltb_lt.
  - eauto.
  - intros Hl. specialize (Ha Hl). seen.
Qed.

Lemma keeps_validate h t ctx :
  keeps h (validate_recovery_context self t ctx)
    (fun h' _ => leased h' ctx t /\ Ev (ReplayContains (b32 (ct_sanad_id t))) (Ok true) ∈ h').
Proof.
  unfold validate_recovery_context. after keeps_active.
  intros h1 [] _ Ha _.
  apply keeps_bind, keeps_call; [exact I|]. intros now _.
  apply keeps_bind, keeps_stop. intros H _. apply orb_false_elim in H as [H Hn].
  apply orb_false_elim in H as [Ho%negb_false_iff%bool_decide_eq_true He%bool_decide_eq_false].
  apply negb_false_iff in Hn.
  apply keeps_bind, keeps_stop. intros Hs%negb_false_iff%bool_decide_eq_true _.
  after keeps_accept. intros h2 [] Hs2 [n Hacc] _.
  apply keeps_bind, keeps_try; [exact I|]. intros there _.
  apply keeps_bind, keeps_stop. intros Ht%negb_false_iff _. subst there. apply keeps_done.
  split; [|seen]. split_and!; try done.
  - exists now. split; [seen|]. by apply N.ltb_lt.
  - exists n. seen.
  - intros Hl. specialize (Ha Hl). seen.
Qed.

Lemma keeps_permit {A} h t (body : prog A) (Q : trace -> A -> Prop) :
  (forall h' e a, Q h' a -> Q (h' ++ [e]) a) ->
  (forall h', h ⊆ h' -> keeps h' body Q) -> keeps h (with_permit t body) Q.
Proof.
  intros HQ Hb. apply keeps_bind, keeps_try; [exact I|]. intros chains _. apply keeps_then.
  - eapply keeps_mono; [apply Hb; auto|]. intros h' a Hs Ha _.
    apply keeps_vis; [exact I|]. intros []. by apply keeps_done, HQ.
  - intros h' e _. apply keeps_vis; [exact I|]. intros []. apply keeps_fail.
Qed.

Lemma keeps_reserve h t ctx :
  keeps h (reserve X t ctx) (fun h' _ => Ev (Consume (b32 (ct_sanad_id t))) (Ok tt) ∈ h').
Proof.
  unfold reserve. after keeps_journal. intros h1 [] _ _ _.
  apply keeps_bind. eapply (keeps_mono _ _ _ _ _ (fun h' _ => Ev (Consume (b32 (ct_sanad_id t))) (Ok tt) ∈ h')).
  - apply keeps_vis; [exact I|]. intros [[]|e]; [apply keeps_done; seen|].
    destruct e; (apply keeps_bind; eapply keeps_mono; [apply keeps_quiet; auto with quiet|];
                 intros; apply keeps_fail).
  - intros h2 [] _ Hc _. eapply keeps_mono; [apply keeps_journal|]. intros h3 [] Hs _. seen.
Qed.

(** A plan with nothing missing. *)
Lemma plan_serves c q : ensure_satisfied (plan_for c q) = Ok tt ->
  (cr_require_transaction_inclusion_proofs q = true -> cc_supports_transaction_inclusion_proofs c = true) /\
  (cr_min_finality_depth q <= cc_finality_depth c)%N.
Proof.
  unfold ensure_satisfied, plan_for. cbn [cp_satisfied]. destruct (_ ++ _) eqn:E; [|done]. intros _.
  repeat (apply app_eq_nil in E as [? E]). split.
  - intros Hq. match goal with H : lacking (cr_require_transaction_inclusion_proofs q) _ _ = [] |- _ => revert H end.
    unfold lacking. rewrite Hq. by destruct (cc_supports_transaction_inclusion_proofs c).
  - destruct (N.ltb_spec (cc_finality_depth c) (cr_min_finality_depth q)); [done|lia].
Qed.

Lemma keeps_negotiate_chain h chain role needs inclusion :
  (inclusion = true -> cr_require_transaction_inclusion_proofs needs = true) ->
  (1 <= cr_min_finality_depth needs)%N ->
  keeps h (negotiate_chain chain role needs) (fun h' _ => can_serve h' chain inclusion).
Proof.
  intros Hi Hd. apply keeps_bind, keeps_call; [exact I|]. intros [c|] _; [|apply keeps_fail].
  apply keeps_bind, keeps_stop. intros Hm%negb_false_iff _. apply keeps_lift.
  intros [] [Hinc Hdep]%map_err_ok%plan_serves. exists c. split; [seen|]. split; [|split; [auto|lia]].
  unfold can_authorize_mint, is_settlement_chain in Hm. by destruct (cc_chain_role c).
Qed.
Lemma keeps_negotiate h t :
  keeps h (negotiate t) (fun h' _ => can_serve h' (ct_source_chain t) true /\
                                     can_serve h' (ct_destination_chain t) false).
Proof.
  after (keeps_negotiate_chain h (ct_source_chain t) "source" cross_chain_source true); [done|done|].
  intros h1 [] _ H1 _.
  eapply keeps_mono; [by apply (keeps_negotiate_chain _ _ _ _ false)|]. intros h2 [] Hs H2.
  split; [by eapply can_serve_mono|done].
Qed.

Lemma keeps_retry {Y} h (o : op (result AdapterError Y)) delay more :
  (forall h', h ⊆ h' -> may X self is_given h' _ o) ->
  keeps h (retry o delay more) (fun h' r => Ev o r ∈ h').
Proof.
  revert h. induction more as [|more IH]; intros h Ho; cbn [retry];
    (apply keeps_vis; [by apply Ho|]; intros [y|e];
     [apply keeps_bind, keeps_call; [exact I|]; intros [] _; apply keeps_done; seen|];
     apply keeps_bind, keeps_call; [exact I|]; intros now _;
     apply keeps_bind, keeps_call; [exact I|]; intros [] _).
  - apply keeps_done. seen.
  - apply keeps_bind, keeps_call; [exact I|]. intros [] _. apply IH. intros h' Hs. apply Ho. set_solver.
Qed.

Lemma keeps_lock_source h t ctx :
  is_given h ctx -> leased h ctx t -> Ev (Consume (b32 (ct_sanad_id t))) (Ok tt) ∈ h ->
  can_serve h (ct_source_chain t) true ->
  can_serve h (ct_destination_chain t) false ->
  keeps h (lock_source X t ctx) (fun _ _ => True).
Proof.
  intros Hg Hl Hc Hsrc Hdst. unfold lock_source.
  after keeps_journal. intros h1 [] Hs1 [now Hj] _.
  quietly. intros h2 [] Hs2 _ _.
  apply keeps_bind, keeps_call; [exact I|]. intros n _.
  apply keeps_bind, keeps_call; [exact I|]. intros allowed _.
  apply keeps_bind, keeps_stop. intros Ha%negb_false_iff _. subst allowed.
  match goal with |- keeps ?h3 _ _ => assert (Hs3 : h ⊆ h3) by set_solver; set (h' := h3) in * end.
  assert (Hall : Ev (AllowRequest n) true ∈ h') by (subst h'; seen).
  assert (Hj' : Ev (Record (plain_entry t SLockConfirmed Entered now)) (Ok tt) ∈ h') by (subst h'; seen).
  clearbody h'. after keeps_retry.
  - intros h4 Hs4. assert (Hs : h ⊆ h4) by set_solver. exists ctx. split; [by eapply is_given_mono|].
    split_and!; [done|by eapply leased_mono|auto|by eapply can_serve_mono..| |eauto].
    exists (plain_entry t SLockConfirmed Entered now). split_and!; [auto|done|by apply list_elem_of_singleton|done].
  - intros h4 [lock|e] _ Hlock _; [apply keeps_quiet; quiet_prog|].
    quietly. intros h5 [] Hs5 _ _. apply keeps_bind, keeps_ignore; [left; exists t, e; split; [done|seen]|].
    intros r _. apply keeps_fail.
Qed.

Lemma keeps_keep_lock h t lock ctx :
  keeps h (keep_lock X t lock ctx) (fun _ t' => exists tx, t' = with_lock t tx).
Proof.
  apply keeps_bind, keeps_lift. intros tx _ _. cbv zeta.
  quietly. intros h1 [] _ _ _.
  apply keeps_bind, keeps_lift. intros data _ _. apply keeps_bind, keeps_call; [exact I|]. intros [] _.
  apply keeps_done. eauto.
Qed.

Lemma keeps_await_lock h t ctx :
  keeps h (await_lock X t ctx)
    (fun h' rf => Ev (TxFinalityOf (ct_source_chain t) (hex_string (ct_lock_tx_hash t))) (Ok rf.2) ∈ h' /\
                  finality_depth_for_chain (rc_policy ctx) (ct_source_chain t) = Some rf.1).
Proof.
  unfold await_lock.
  quietly. intros h1 [] _ _ _.
  quietly. intros h2 [] _ _ _.
  apply keeps_bind, keeps_lift. intros required Hr _.
  apply keeps_bind.
  eapply (keeps_mono _ _ _ _ _ (fun h' f => Ev (TxFinalityOf (ct_source_chain t)
            (hex_string (ct_lock_tx_hash t))) (Ok f) ∈ h')).
  - apply keeps_vis; [exact I|]. intros [f|e]; [apply keeps_done; seen|].
    quietly. intros; apply keeps_fail.
  - intros h3 f _ Hf _. apply keeps_done. split; [done|].
    by destruct (finality_depth_for_chain _ _); [injection Hr as ->|].
Qed.

Lemma keeps_check_scheme h t p :
  keeps h (check_scheme t p)
    (fun h' _ => exists s, Ev (SchemeOf (ct_source_chain t)) s ∈ h' /\ (s = None \/ s = Some (signature_scheme p))).
Proof.
  apply keeps_bind, keeps_call; [exact I|]. intros [s|] _; [apply keeps_stop|apply keeps_done].
  - intros Hs%negb_false_iff%bool_decide_eq_true. subst s. eexists. split; [seen|by right].
  - eexists. split; [seen|by left].
Qed.
Lemma keeps_check_seal h t p :
  keeps h (check_seal t p) (fun h' _ => exists s, Ev (CheckSeal (ct_source_chain t) (seal_id (seal_ref p))) (Ok s) ∈ h').
Proof. apply keeps_bind, keeps_try; [exact I|]. intros s _. apply keeps_done. eexists. seen. Qed.
Lemma keeps_validate_proof h t p :
  keeps h (validate_source_proof t p) (fun h' _ => Ev (ValidateProof (ct_source_chain t) t p) (Ok tt) ∈ h').
Proof. apply keeps_try; [exact I|]. intros []. seen. Qed.

(** The runtime's policy, on the verifier's report, accepts no other proof. *)
Lemma source_accepted t p required f : is_met (source_outcome X t p required f) = true ->
  accepted_proof X t p required f.
Proof.
  intros H. apply runtime_policy_met in H.
  destruct H as (H1 & H2 & H3 & H4 & H5 & _ & H6 & H7 & _ & _ & H8). unfold accepted_proof. split_and!; try done.
  by apply H2.
Qed.

Lemma keeps_prove_lock h t lock f ctx required :
  finality_depth_for_chain (rc_policy ctx) (ct_source_chain t) = Some required ->
  keeps h (prove_lock X t lock f ctx) (fun h' r => r.1.2 = required /\ proved h' t r.1.1 required f).
Proof.
  intros Hr. unfold prove_lock. rewrite Hr. cbn [default].
  quietly. intros h1 [] _ _ _.
  quietly. intros h2 [] _ _ _.
  quietly. intros h3 [] _ _ _.
  apply keeps_bind, keeps_try; [exact I|]. intros p _.
  after keeps_check_scheme. intros h4 [] _ (s & Hs & Hsp) _.
  after keeps_check_seal. intros h5 [] H5 [st Hst] _. cbv zeta.
  after keeps_validate_proof. intros h6 [] H6 Hv _.
  unfold id. destruct (is_met (source_outcome X t p required f)) eqn:Hm.
  - quietly. intros h7 [] H7 _ _.
    quietly. intros h8 [] H8 _ _.
    apply keeps_done. split; [done|].
    split_and!; [exists st; seen|exists s; split; [seen|done]|seen|by apply source_accepted].
  - quietly. intros; apply keeps_fail.
Qed.

(** A mint whose grounds are in the history. *)
Definition grounds (h : trace) (ctx : RuntimeExecutionContext) (t : CrossChainTransfer) (p : ProofBundle) : Prop :=
  is_given h ctx /\ leased h ctx t /\ reserved h t /\
  exists required f, final h ctx t required f /\ proved h t p required f.
Lemma grounds_mono h h' ctx t p : h ⊆ h' -> grounds h ctx t p -> grounds h' ctx t p.
Proof.
  intros Hs (Hg & Hl & Hr & required & f & Hf & Hp). split_and!; eauto using leased_mono, reserved_mono.
  exists required, f. split; [by eapply final_mono|by eapply proved_mono].
Qed.

Lemma grounds_justify h ctx t p payload request :
  grounds h ctx t p -> journaled h t [SMintConfirmed; SMintSubmitted] ->
  payload = bundle_to_canonical_bytes p \/ bundle_from_canonical_bytes payload = Ok p ->
  mint_payload X t p payload ctx = Ok request ->
  may X self is_given h _ (MintSanad (ct_destination_chain t) t request).
Proof.
  intros (Hg & Hl & Hr & required & f & Hf & Hp) Hj Hpay Hreq. exists ctx. split; [done|].
  split_and!; try done. exists p, payload, required, f. split_and!; try done. by apply map_err_ok in Hreq.
Qed.

Lemma keeps_mint_destination h t p ctx :
  grounds h ctx t p ->
  keeps h (mint_destination X t p ctx)
    (fun h' m => exists request, Ev (MintSanad (ct_destination_chain t) t request) (Ok m) ∈ h').
Proof.
  intros Hg. unfold mint_destination.
  after keeps_journal. intros h1 [] Hs1 [now Hj] _.
  apply keeps_bind, keeps_lift. intros request Hreq _.
  after keeps_retry.
  - intros h2 Hs2. eapply grounds_justify; [eapply grounds_mono; [|exact Hg]; set_solver| |by left|exact Hreq].
    exists (plain_entry t SMintConfirmed Entered now). split_and!; [auto|done|set_solver|done].
  - intros h2 [m|e] _ Hm _; [apply keeps_done; eauto|]. quietly. intros; apply keeps_fail.
Qed.

Lemma keeps_keep_proof h t p : keeps h (keep_proof X t p) (fun _ _ => True).
Proof.
  unfold keep_proof. quietly. intros h1 [] Hs1 _ _. apply keeps_bind, keeps_call; [exact I|]. intros [] _.
  apply keeps_bind, keeps_call; [exact I|]. intros now _.
  apply keeps_bind, keeps_call; [exact I|]. intros [|] _; [by apply keeps_done|].
  quietly. intros h2 [] Hs2 _ _. apply keeps_bind, keeps_ignore; [right; exists now; seen|].
  intros r _. apply keeps_fail.
Qed.

(** The end of a mint, with the identifier consumed on the way. *)
Lemma keeps_confirmed {A} h t (rest : unit -> prog A) :
  confirm_justified h (b32 (ct_sanad_id t)) -> (forall u, quiet (rest u)) ->
  keeps h (try_op replay_failed (Confirm (b32 (ct_sanad_id t))) ≫= rest) (fun _ _ => True).
Proof. intros Hc Hr. apply keeps_bind, keeps_try; [exact Hc|]. intros [] _. by apply keeps_quiet. Qed.

Lemma confirm_mono h h' id : h ⊆ h' -> confirm_justified h id -> confirm_justified h' id.
Proof. intros Hs (t & m & Ht & [[r H]|[r H]]); exists t, m; (split; [done|]); [left|right]; eauto. Qed.

Lemma keeps_complete_mint h t p m ctx :
  confirm_justified h (b32 (ct_sanad_id t)) -> keeps h (complete_mint X t p m ctx) (fun _ _ => True).
Proof.
  intros Hc. unfold complete_mint.
  quietly. intros h1 [] Hs1 _ _. quietly. intros h2 [] Hs2 _ _. quietly. intros h3 [] Hs3 _ _.
  apply keeps_bind, keeps_lift. intros data _ _. apply keeps_bind, keeps_call; [exact I|]. intros [] _.
  apply keeps_confirmed; [eapply confirm_mono; [|exact Hc]; set_solver|]. intros []. quiet_prog.
Qed.

Lemma keeps_execute_outcome h t ctx :
  is_given h ctx -> keeps h (execute_outcome X self t ctx) (fun _ _ => True).
Proof.
  intros Hg. unfold execute_outcome.
  after keeps_authorize. intros h1 [] Hs1 Hl _.
  assert (Hg1 : is_given h1 ctx) by (by eapply is_given_mono). clear Hg Hs1 h.
  apply keeps_permit; [done|]. intros h2 Hs2.
  quietly.
  intros h3 [r|] Hs3 _ _; [by apply keeps_done|].
  after keeps_reserve. intros h4 [] Hs4 Hc _.
  quietly. intros h5 [] Hs5 _ _.
  after keeps_negotiate. intros h6 [] Hs6 [Hsrc Hdst] _.
  assert (Hs16 : h1 ⊆ h6) by (intros e He; auto 10). assert (Hc6 : Ev (Consume (b32 (ct_sanad_id t))) (Ok tt) ∈ h6) by auto.
  clear Hc Hs2 Hs3 Hs4 Hs5 Hs6. clear h2 h3 h4 h5.
  apply keeps_bind. eapply keeps_mono.
  { apply keeps_lock_source; [by eapply is_given_mono|by eapply leased_mono|done..]. }
  intros h7 lock Hs7 _ _.
  after keeps_keep_lock. intros h8 t' Hs8 [tx ->] _.
  assert (Hs : h1 ⊆ h8) by (intros e He; auto). assert (Hc8 : Ev (Consume (b32 (ct_sanad_id t))) (Ok tt) ∈ h8) by auto.
  set (t' := with_lock t tx).
  assert (Hg8 : is_given h8 ctx) by (by eapply is_given_mono).
  assert (Hl8 : leased h8 ctx t') by (change (leased h8 ctx t); by eapply leased_mono).
  assert (Hr8 : reserved h8 t') by (by left). clearbody t'.
  clear Hg1 Hl Hc6 Hsrc Hdst Hs16 Hs7 Hs8 Hs Hc8 h1 h6 h7.
  after keeps_await_lock. intros h9 [required f] Hs9 [Hf Hreq] _.
  cbn [fst snd] in *. destruct (N.ltb_spec (tf_confirmations f) required) as [Hlt|Hge]; [by apply keeps_done|].
  apply keeps_bind. eapply keeps_mono; [by apply keeps_prove_lock|].
  intros h10 [[p required'] report] Hs10 [Heq Hp] _. cbn [fst snd] in *. subst required'.
  after keeps_keep_proof. intros h11 [] Hs11 _ _.
  assert (Hg11 : grounds h11 ctx t' p).
  { assert (Hs : h8 ⊆ h11) by (intros e He; auto). split_and!.
    - by eapply is_given_mono.
    - by eapply leased_mono.
    - by eapply reserved_mono.
    - exists required, f. split; [|by apply (proved_mono h10)]. split_and!; [auto|done|done]. }
  apply keeps_bind. eapply keeps_mono; [by apply keeps_mint_destination|]. intros h12 m _ [request Hm] _.
  after keeps_complete_mint; [|by intros; apply keeps_done].
  exists t', m. split; [done|]. left. eauto.
Qed.

Lemma keeps_verify h t p height ctx :
  keeps h (verify_recovery_proof X t p height ctx)
    (fun h' _ => exists required f, final h' ctx t required f /\ proved h' t p required f).
Proof.
  unfold verify_recovery_proof. apply keeps_bind, keeps_lift. intros [] _ _.
  after keeps_check_scheme. intros h1 [] H1 (s & Hs & Hsp) _.
  after keeps_check_seal. intros h2 [] H2 [st Hst] _.
  apply keeps_bind, keeps_lift. intros required Hr _.
  apply keeps_bind, keeps_stop. intros _ _.
  apply keeps_bind, keeps_try; [exact I|]. intros f _.
  apply keeps_bind, keeps_stop. intros Hge%N.ltb_ge _.
  after keeps_validate_proof. intros h3 [] H3 Hv _. cbv zeta.
  apply keeps_stop. intros Hm%negb_false_iff. exists required, f. split.
  - split_and!; [seen| |done]. by destruct (finality_depth_for_chain _ _); [injection Hr as ->|].
  - split_and!; [exists st; seen|exists s; split; [seen|done]|seen|by apply source_accepted].
Qed.

Lemma keeps_from_mint h id tx ctx : keeps h (execute_from_mint X self id tx ctx) (fun _ _ => True).
Proof.
  unfold execute_from_mint. quietly. intros h1 [] _ _ _. quietly. intros h2 l _ _ _.
  apply keeps_bind, keeps_lift. intros t _ _. quietly. intros h3 x _ _ _.
  apply keeps_bind, keeps_try; [exact I|]. intros m _.
  apply keeps_confirmed; [|intros []; quiet_prog].
  exists t, m. split; [done|]. right. exists tx. seen.
Qed.

Lemma keeps_from_proof h t payload ctx :
  is_given h ctx -> keeps h (execute_from_proof X self t payload ctx) (fun _ _ => True).
Proof.
  intros Hg. unfold execute_from_proof. apply keeps_bind.
  eapply (keeps_mono _ _ _ _ _ (fun h' p => grounds h' ctx t p /\ bundle_from_canonical_bytes payload = Ok p)).
  { unfold kept_proof. after keeps_validate.
    intros h1 [] Hs1 [Hl Hc] _.
    apply keeps_bind, keeps_stop. intros _ _.
    apply keeps_bind, keeps_lift. intros p Hp%map_err_ok _.
    apply keeps_bind, keeps_try; [exact I|]. intros f _.
    after keeps_verify. intros h2 [] Hs2 Hv _. apply keeps_done.
    split; [|done]. assert (Hs : h1 ⊆ h2) by (intros e He; apply Hs2; seen).
    split_and!; [by eapply is_given_mono; [|exact Hg]; intros e He; auto|by eapply leased_mono|right; auto|done]. }
  intros h1 p Hs1 [Hgr Hp] _. apply keeps_permit; [done|]. intros h2 Hs2. cbv zeta.
  after keeps_journal. intros h3 [] Hs3 [now Hj] _.
  apply keeps_bind, keeps_lift. intros request Hreq _.
  apply keeps_bind, keeps_try.
  - eapply grounds_justify; [eapply grounds_mono; [|exact Hgr]; set_solver| |by right|exact Hreq].
    eexists. split; [exact Hj|]. split_and!; [done|set_solver|done].
  - intros m _. quietly. intros h4 [] _ _ _. quietly. intros h5 [] _ _ _. apply keeps_from_mint.
Qed.

Lemma keeps_from_lock_outcome h t ctx :
  is_given h ctx -> keeps h (execute_from_lock_outcome X self t ctx) (fun _ _ => True).
Proof.
  intros Hg. unfold execute_from_lock_outcome.
  quietly. intros h1 x Hs1 _ _.
  apply keeps_bind, keeps_lift. intros required _ _. apply keeps_bind, keeps_lift. intros digest _ _.
  quietly. intros h2 [] Hs2 _ _.
  apply keeps_bind, keeps_try; [exact I|]. intros f _.
  destruct (tf_confirmations f <? required)%N; [by apply keeps_done|].
  quietly. intros h3 [] Hs3 _ _.
  quietly. intros h4 [] Hs4 _ _.
  apply keeps_bind, keeps_try; [exact I|]. intros p _.
  after keeps_verify. intros h5 [] Hs5 _ _. cbv zeta.
  quietly. intros h6 [] Hs6 _ _.
  quietly. intros h7 [] Hs7 _ _.
  after keeps_from_proof.
  - eapply is_given_mono; [|exact Hg]. intros e He.
    apply Hs7, Hs6, Hs5, elem_of_app. left. apply Hs4, Hs3, elem_of_app. left. by apply Hs2, Hs1.
  - intros h8 r _ _ _. by apply keeps_done.
Qed.

Lemma keeps_completed h o : keeps h (completed_or_fail o) (fun _ _ => True).
Proof. destruct o; [by apply keeps_done|apply keeps_fail]. Qed.
Lemma keeps_from_lock h t ctx :
  is_given h ctx -> keeps h (execute_from_lock X self t ctx) (fun _ _ => True).
Proof.
  intros Hg. apply keeps_bind. eapply keeps_mono; [by apply keeps_from_lock_outcome|].
  intros h1 o _ _ _. apply keeps_completed.
Qed.

Lemma keeps_execute h t ctx : is_given h ctx -> keeps h (execute X self t ctx) (fun _ _ => True).
Proof.
  intros Hg. apply keeps_bind. eapply keeps_mono; [by apply keeps_execute_outcome|].
  intros h1 o _ _ _. apply keeps_completed.
Qed.

(** A transfer is found, in one way or another, and goes on. *)
Lemma keeps_found h (p : prog CrossChainTransfer) k ctx :
  quiet p -> is_given h ctx ->
  (forall h' t, is_given h' ctx -> keeps h' (k t) (fun _ _ => True)) ->
  keeps h (p ≫= k : prog TransferReceipt) (fun _ _ => True).
Proof.
  intros Hq Hg Hk. apply keeps_bind. eapply keeps_mono; [by apply keeps_quiet|].
  intros h' t Hs _ _. apply Hk. by eapply is_given_mono.
Qed.
Lemma quiet_found id cached context lost : quiet (transfer_or_context id cached context lost).
Proof. unfold transfer_or_context. quiet_prog. Qed.
Lemma quiet_journaled_proof e missing empty : quiet (journaled_proof X e missing empty).
Proof. unfold journaled_proof. quiet_prog. Qed.
Hint Resolve quiet_found quiet_journaled_proof : quiet.

Lemma keeps_journaled_proof h t e missing empty ctx :
  is_given h ctx ->
  keeps h (payload ← journaled_proof X e missing empty; execute_from_proof X self t payload ctx) (fun _ _ => True).
Proof. intros Hg. quietly. intros h' payload Hs _ _. apply keeps_from_proof. by eapply is_given_mono. Qed.

Lemma keeps_resume_building h id e cached ctx :
  is_given h ctx -> keeps h (resume_building X self id e cached ctx) (fun _ _ => True).
Proof.
  intros Hg. unfold resume_building. destruct (pe_proof_payload e) as [[|b payload]|];
    [by eapply keeps_found; [auto with quiet|exact Hg|intros; by apply keeps_from_lock]| |
     by eapply keeps_found; [auto with quiet|exact Hg|intros; by apply keeps_from_lock]].
  apply keeps_bind, keeps_lift. intros p _ _.
  eapply keeps_found; [auto with quiet|exact Hg|]. intros h1 t Hg1.
  apply keeps_bind, keeps_try; [exact I|]. intros lock _.
  after keeps_verify. intros h2 [] Hs2 _ _. apply keeps_from_proof.
  eapply is_given_mono; [|exact Hg1]. set_solver.
Qed.

Lemma keeps_resume_submitted h id e l ctx :
  is_given h ctx -> keeps h (resume_submitted X self id e l ctx) (fun _ _ => True).
Proof.
  intros Hg. unfold resume_submitted. apply keeps_bind, keeps_lift. intros entry _ _.
  case_bool_decide; [|apply keeps_from_mint].
  eapply keeps_found; [exact I|exact Hg|]. intros h1 t Hg1. by apply keeps_journaled_proof.
Qed.

Lemma keeps_resume h id ctx : is_given h ctx -> keeps h (resume_transfer X self id ctx) (fun _ _ => True).
Proof.
  intros Hg. unfold resume_transfer. quietly. intros h1 [] Hs1 _ _.
  apply keeps_bind. eapply keeps_mono; [apply keeps_quiet; unfold latest_entry; quiet_prog|].
  intros h2 e Hs2 _ _. quietly. intros h3 l Hs3 _ _. cbv zeta.
  assert (Hg3 : is_given h3 ctx) by (eapply is_given_mono; [|exact Hg]; set_solver).
  clear Hg Hs1 Hs2 Hs3.
  destruct (pe_phase e); try apply keeps_fail.
  - eapply keeps_found; [exact I|exact Hg3|]. intros. by apply keeps_execute.
  - eapply keeps_found; [exact I|exact Hg3|]. intros. by apply keeps_from_lock.
  - eapply keeps_found; [auto with quiet|exact Hg3|]. intros. by apply keeps_from_lock.
  - eapply keeps_found; [auto with quiet|exact Hg3|]. intros. by apply keeps_from_lock.
  - by apply keeps_resume_building.
  - eapply keeps_found; [exact I|exact Hg3|]. intros. by apply keeps_journaled_proof.
  - by apply keeps_resume_submitted.
  - apply keeps_quiet. unfold resume_completed. quiet_prog.
Qed.

Lemma keeps_resume_outcome h id ctx :
  is_given h ctx -> keeps h (resume_transfer_outcome X self id ctx) (fun _ _ => True).
Proof.
  intros Hg. unfold resume_transfer_outcome. quietly. intros h1 [] Hs1 _ _.
  apply keeps_bind. eapply keeps_mono; [apply keeps_quiet; unfold latest_entry; quiet_prog|].
  intros h2 e Hs2 _ _.
  assert (Hg2 : is_given h2 ctx) by (eapply is_given_mono; [|exact Hg]; set_solver).
  assert (Hlock : keeps h2
    (l ← load_transfers;
     t ← transfer_or_context id (cached_transfer id l) (pe_transfer_context e)
           "Cannot resume from lock phase - transfer context missing from journal";
     execute_from_lock_outcome X self t ctx) (fun _ _ => True)).
  { quietly. intros h3 l Hs3 _ _. quietly. intros h4 t Hs4 _ _. apply keeps_from_lock_outcome.
    eapply is_given_mono; [|exact Hg2]. set_solver. }
  assert (Hrest : keeps h2 (r ← resume_transfer X self id ctx; Done (Ok (TCompleted r))) (fun _ _ => True)).
  { apply keeps_bind. eapply keeps_mono; [by apply keeps_resume|]. intros h3 r _ _ _. by apply keeps_done. }
  destruct (pe_phase e); assumption.
Qed.
End Steps.

(** The trace properties of a program, from what it keeps. *)
Lemma keeps_runs {A} X self is_given (p : prog A) (Q : trace -> A -> Prop) t1 Y (o : op Y) y t2 :
  keeps X self is_given [] p Q -> runs p (t1 ++ Ev o y :: t2) -> may X self is_given t1 Y o.
Proof. intros H Hr. eapply wp_runs; [exact H|exact Hr]. Qed.

Lemma keeps_forget {A} X self is_given h (p : prog A) (Q : trace -> A -> Prop) :
  keeps X self is_given h p Q -> keeps X self is_given h (forget p) (fun _ _ => True).
Proof.
  intros H. apply keeps_bind. eapply keeps_mono; [exact H|]. intros h' a _ _ _. by apply keeps_done.
Qed.

Lemma given_mono c h h' ctx : h ⊆ h' -> given c h ctx -> given c h' ctx.
Proof. intros Hs. destruct c; cbn; [done..|]. intros [id H]. exists id. auto. Qed.

Lemma keeps_resume_each X self h l n :
  keeps X self (given CResumeAll) h (resume_each X self l n) (fun _ _ => True).
Proof.
  revert h n. induction l as [|e l IH]; intros h n; cbn [resume_each]; [by apply keeps_done|].
  destruct (is_terminal (pe_phase e)); [apply IH|].
  apply keeps_bind, keeps_try; [exact I|]. intros ctx _. apply keeps_then.
  - eapply keeps_mono; [apply keeps_resume; [apply given_mono|]|].
    + exists (pe_transfer_id e). seen.
    + intros h' r _ _ _. apply IH.
  - intros h' e' _. apply IH.
Qed.

Lemma materialize_keeps X self c : keeps X self (given c) [] (materialize_prog X self c) (fun _ _ => True).
Proof.
  destruct c; cbn [materialize_prog]; eapply keeps_forget.
  - apply keeps_execute_outcome; [apply given_mono|done].
  - apply keeps_from_lock_outcome; [apply given_mono|done].
  - apply keeps_from_proof; [apply given_mono|done].
  - apply keeps_from_mint.
  - apply keeps_resume_outcome; [apply given_mono|done].
  - apply keeps_bind, keeps_try; [exact I|]. intros l _. apply keeps_resume_each.
Qed.

(** C1: Whatever the stores and the chains answer, no call of the coordinator, fresh or
    resumed, mints a Sanad on a destination chain unless the calling runtime's lease for
    that Sanad was active and accepted; the replay identifier was reserved; the lock was
    seen as deep on its chain as the policy asks; the source chain knows the seal and
    accepted the proof, whose scheme is the chain's; the proof itself is in order: within its
    size, with a sound DAG, anchored to the Sanad, of the source chain, its signatures
    verified, its inclusion and finality proofs well formed, deep enough and fresh; the phase
    is in the journal; and what is minted is a request for that Sanad, lock, seal and owner
    that carries that very proof. *)
Theorem mint_guarded (X : Externals) (self : Self) (c : materialize_call) (t1 t2 : trace)
  (chain : string) (t : CrossChainTransfer) (request : bytes) (answer : result AdapterError MintResult)
  (Hrun : runs (materialize_prog X self c) (t1 ++ Ev (MintSanad chain t request) answer :: t2)) :
  exists ctx, given c t1 ctx /\ mint_justified X self t1 ctx chain t request.
Proof. exact (keeps_runs X self (given c) _ _ _ _ _ _ _ (materialize_keeps X self c) Hrun). Qed.

(** Whatever the stores and the chains answer, no call locks a Sanad on a source
    chain unless the calling runtime's lease for it was active and accepted, this very
    call reserved the replay identifier, both chains said that they settle and have final
    blocks, and the source chain that it proves inclusion, the phase is in the journal and the
    breaker lets the call through. *)
Theorem lock_guarded (X : Externals) (self : Self) (c : materialize_call) (t1 t2 : trace)
  (chain : string) (t : CrossChainTransfer) (answer : result AdapterError LockResult)
  (Hrun : runs (materialize_prog X self c) (t1 ++ Ev (LockSanad chain t) answer :: t2)) :
  exists ctx, given c t1 ctx /\ lock_justified self t1 ctx chain t.
Proof. exact (keeps_runs X self (given c) _ _ _ _ _ _ _ (materialize_keeps X self c) Hrun). Qed.

(** Whatever the stores and the chains answer, no call gives a reservation back unless
    an attempt to lock the Sanad failed or the breaker is open, and none consumes one
    unless a mint of the Sanad was accepted or its transaction confirmed. *)
Theorem reservation_guarded (X : Externals) (self : Self) (c : materialize_call) (t1 t2 : trace)
  (o : op (result ReplayDb.ReplayDbError unit)) (answer : result ReplayDb.ReplayDbError unit)
  (Hrun : runs (materialize_prog X self c) (t1 ++ Ev o answer :: t2)) :
  (forall id, o = RollBack id -> rollback_justified t1 id) /\
  (forall id, o = Confirm id -> confirm_justified t1 id).
Proof.
  pose proof (keeps_runs X self (given c) _ _ _ _ _ _ _ (materialize_keeps X self c) Hrun) as H.
  split; intros id ->; exact H.
Qed.

(** ** Witnesses *)

Definition demo_call : materialize_call := CExecute (demo_materialized "t") demo_ctx.
Definition demo_trace : trace :=
  (demo_run 500 (demo_outside 20) (materialize_prog demo_externals demo_self demo_call) coordinator_new).1.1.
(** The call around its [k]-th access. *)
Lemma demo_trace_at k e : demo_trace !! k = Some e ->
  runs (materialize_prog demo_externals demo_self demo_call) (take k demo_trace ++ e :: drop (S k) demo_trace).
Proof. intros H. rewrite (take_drop_middle _ _ _ H). apply advance_runs. Qed.
Definition demo_locked : CrossChainTransfer := with_lock (demo_materialized "t") demo_lock_tx.
Definition demo_request : bytes := bundle_to_canonical_bytes (demo_bundle_of demo_locked).
Definition demo_minted : MintResult :=
  mkMintResult (hex_string (replicate 32 Byte.x0a)) 90 (materialization_unavailable "ethereum").

Lemma mint_guarded_witness :
  demo_trace !! 60 = Some (Ev (MintSanad "ethereum" demo_locked demo_request) (Ok demo_minted)) /\
  mint_justified demo_externals demo_self (take 60 demo_trace) demo_ctx "ethereum" demo_locked demo_request.
Proof.
  assert (E : demo_trace !! 60 = Some (Ev (MintSanad "ethereum" demo_locked demo_request) (Ok demo_minted)))
    by (vm_compute; reflexivity).
  split; [exact E|].
  destruct (mint_guarded demo_externals demo_self demo_call _ _ _ _ _ _ (demo_trace_at _ _ E)) as (ctx & -> & H).
  exact H.
Defined.

Definition demo_lock_result : LockResult := mkLockResult (hex_string demo_lock_tx) 12.
Lemma lock_guarded_witness :
  demo_trace !! 21 = Some (Ev (LockSanad "bitcoin" (demo_materialized "t")) (Ok demo_lock_result)) /\
  lock_justified demo_self (take 21 demo_trace) demo_ctx "bitcoin" (demo_materialized "t").
Proof.
  assert (E : demo_trace !! 21 = Some (Ev (LockSanad "bitcoin" (demo_materialized "t")) (Ok demo_lock_result)))
    by (vm_compute; reflexivity).
  split; [exact E|].
  destruct (lock_guarded demo_externals demo_self demo_call _ _ _ _ _ (demo_trace_at _ _ E)) as (ctx & -> & H).
  exact H.
Defined.

Lemma reservation_guarded_witness :
  demo_trace !! 69 = Some (Ev (Confirm (b32 (fill32 Byte.x09))) (Ok tt)) /\
  confirm_justified (take 69 demo_trace) (b32 (fill32 Byte.x09)).
Proof.
  assert (E : demo_trace !! 69 = Some (Ev (Confirm (b32 (fill32 Byte.x09))) (Ok tt))) by (vm_compute; reflexivity).
  split; [exact E|].
  exact (proj2 (reservation_guarded demo_externals demo_self demo_call _ _ _ _ (demo_trace_at _ _ E)) _ eq_refl).
Defined.
