(* ===== verification/Anchors.v ===== *)
(** * Anchors of chain state (csv-verifier: anchors.rs, chain_proof_bundle.rs; csv-proof: zk_proof.rs)

    What the verifier accepts of a chain: a header with an inclusion proof, a zero-knowledge
    proof of a seal, or a bundle of inclusion and finality proofs that the chain's own
    verifier judges.  The interface [CryptographicAnchor] says what a header check has to
    establish; the Ethereum anchor of the crate checks the form of what it is given only, and
    the theorems here say exactly which form.  The zero-knowledge gate is closed: without a
    pairing backend no proof is accepted. *)

From S2P Require Import Prelude Ord Bytes Hashing Text Codec Decode Seal.
From S2P Require ProofTaxonomy.

(** ** Zero-knowledge seal proofs *)

Inductive ZkProofSystem := SP1 | Risc0 | Groth16 | PlonK | CustomSystem.
Global Instance ZkProofSystem_eq_dec : EqDecision ZkProofSystem.
Proof. solve_decision. Defined.
Definition system_str (s : ZkProofSystem) : string :=
  match s with SP1 => "sp1" | Risc0 => "risc0" | Groth16 => "groth16" | PlonK => "plonk" | CustomSystem => "custom" end.

Record ZkVerifierKey := mkZkKey {
  vk_chain : string; vk_key_bytes : bytes; vk_proof_system : ZkProofSystem; vk_version : N; vk_active : bool
}.
Definition zk_key_new (chain : string) (key : bytes) (s : ZkProofSystem) (version : N) : ZkVerifierKey :=
  mkZkKey chain key s version true.
Record ZkPublicInputs := mkZkInputs {
  zi_seal_ref : SealPoint; zi_block_hash : Hash; zi_commitment : Hash; zi_source_chain : string;
  zi_block_height : N; zi_timestamp : N
}.
Record ZkSealProof := mkZkProof { zp_bytes : bytes; zp_key : ZkVerifierKey; zp_inputs : ZkPublicInputs }.
Inductive ZkError :=
| InvalidProof (m : string) | VerifierNotFound (chain : string) | VerificationFailed (m : string)
| GenerationFailed (m : string) | UnsupportedSystem (m : string) | ProofTooLarge (n : nat) | BackendError (m : string).
Definition MAX_ZK_PROOF_SIZE : N := 1048576.

(** [ZkSealProof::new] *)
Definition zk_proof_new (b : bytes) (k : ZkVerifierKey) (i : ZkPublicInputs) : result ZkError ZkSealProof :=
  reject bool_decide (b = []) with InvalidProof "Proof bytes are empty";;
  reject (MAX_ZK_PROOF_SIZE <? blen b)%N with ProofTooLarge (length b);;
  Ok (mkZkProof b k i).

Inductive AnchorError :=
| MissingQuorumCert | InvalidSignature (m : string) | ValidatorSetMismatch | ReorgDepthExceeded (a b : N)
| ProofTooOld (a b : N) | InvalidInclusionProof (m : string) | UnsupportedChain (m : string)
| InvalidProofStructure (m : string) | HashMismatch (expected actual : bytes) | ZkSealUnavailable (m : string)
| ZkSealMalformed (m : string) | UnsupportedZkSealProofSystem (m : string) | ZkSealPairingCheckFailed (m : string).

Record ZkHeader := mkZkHeader { circuit_id : Bytes32 }.
Definition zk_header_new (c : Bytes32) : result AnchorError ZkHeader :=
  reject bool_decide (c = zero32) with ZkSealMalformed "ZkHeader circuit_id cannot be zero";;
  Ok (mkZkHeader c).

Definition validate_zk_public_inputs (i : ZkPublicInputs) : result AnchorError unit :=
  reject bool_decide (seal_id (zi_seal_ref i) = []) with ZkSealMalformed "public input seal_ref id cannot be empty";;
  reject bool_decide (zi_block_hash i = Hash.zero) with ZkSealMalformed "public input block_hash cannot be zero";;
  reject bool_decide (zi_commitment i = Hash.zero) with ZkSealMalformed "public input commitment cannot be zero";;
  reject (zi_block_height i =? 0)%N with ZkSealMalformed "public input block_height cannot be zero";;
  reject (zi_timestamp i =? 0)%N with ZkSealMalformed "public input timestamp cannot be zero";;
  Ok tt.

Definition validate_zk_seal_envelope (p : ZkSealProof) (h : ZkHeader) : result AnchorError unit :=
  let k := zp_key p in
  reject bool_decide (circuit_id h = zero32) with ZkSealMalformed "ZkHeader circuit_id cannot be zero";;
  reject bool_decide (zp_bytes p = []) with ZkSealMalformed "proof bytes cannot be empty";;
  reject (MAX_ZK_PROOF_SIZE <? blen (zp_bytes p))%N
    with ZkSealMalformed ("proof size " +:+ show_nat (length (zp_bytes p)) +:+ " exceeds maximum " +:+ pretty MAX_ZK_PROOF_SIZE);;
  reject negb (bool_decide (vk_proof_system k = Groth16)) with UnsupportedZkSealProofSystem (system_str (vk_proof_system k));;
  reject negb (vk_active k) with ZkSealMalformed "verifier key is not active";;
  reject (vk_version k =? 0)%N with ZkSealMalformed "verifier key version cannot be zero";;
  reject bool_decide (vk_key_bytes k = []) with ZkSealMalformed "verifier key bytes cannot be empty";;
  _ ← validate_zk_public_inputs (zp_inputs p);
  reject negb (bool_decide (zi_source_chain (zp_inputs p) = vk_chain k))
    with ZkSealMalformed ("public input source chain " +:+ zi_source_chain (zp_inputs p)
                            +:+ " does not match verifier key chain " +:+ vk_chain k);;
  Ok tt.

(** A pairing backend ([Groth16PairingVerifier]) and the one that is not there. *)
Definition PairingVerifier : Type := ZkSealProof -> ZkHeader -> result AnchorError unit.
Definition unavailable_verifier : PairingVerifier := fun _ _ =>
  Err (ZkSealUnavailable "ZkSeal prover/verifier backend is not available; no proof is accepted without a real Groth16 pairing check").
Definition verify_zk_seal_with_pairing (p : ZkSealProof) (h : ZkHeader) (v : PairingVerifier) : result AnchorError unit :=
  _ ← validate_zk_seal_envelope p h; v p h.
Definition verify_zk_seal_unavailable (p : ZkSealProof) (h : ZkHeader) : result AnchorError unit :=
  verify_zk_seal_with_pairing p h unavailable_verifier.

(** ** Headers *)

Record VerifiedHeader := mkVerified { vh_hash : Bytes32; vh_height : N }.
Record ValidatorInfo := mkValidator { vi_public_key : bytes; voting_power : N }.
Record ValidatorSet := mkValidators { vs_epoch : N; validators : list ValidatorInfo }.
Record QuorumCertificate := mkQuorum { qc_signature : bytes; signers : list bytes; view : N }.
Record CanonicalBlockHeader := mkHeader {
  bh_hash : Bytes32; bh_height : N; bh_parent_hash : Bytes32; bh_timestamp : N; bh_quorum_cert : option QuorumCertificate
}.
Record CanonicalInclusionProof := mkCanonicalInclusion {
  ci_key : bytes; ci_value : bytes; ci_proof : list bytes; ci_root_hash : Bytes32
}.
(** Fractions are the bits of their floating-point numbers; nothing reads them. *)
Inductive ProofSystem :=
| BitcoinSpv (confirmations : N) | BftQc (quorum_fraction : N) | ZkHeaderSystem (circuit : Bytes32)
| EthereumPos (finality_epochs : N).
Record FinalityGuarantee := mkFinality {
  max_reorg_depth : N; is_probabilistic : bool; validator_honesty_threshold : N; proof_system : ProofSystem;
  max_proof_age_blocks : N; min_anchor_sources : N
}.

(** The interface of a chain's anchor. *)
Record CryptographicAnchor := mkAnchor {
  verify_header : CanonicalBlockHeader -> ValidatorSet -> FinalityGuarantee -> result AnchorError VerifiedHeader;
  anchor_verify_inclusion : CanonicalInclusionProof -> VerifiedHeader -> result AnchorError unit
}.

(** *** The Ethereum anchor *)

Definition verify_ethereum_pos_finality (h : CanonicalBlockHeader) (f : FinalityGuarantee) : result AnchorError unit :=
  reject bool_decide (bh_hash h = zero32) with InvalidProofStructure "Block hash cannot be zero";;
  reject (0 <? bh_height h)%N && bool_decide (bh_parent_hash h = zero32)
    with InvalidProofStructure "Parent hash cannot be zero for non-genesis blocks";;
  match proof_system f with
  | EthereumPos finality_epochs =>
      qc ← ok_or MissingQuorumCert (bh_quorum_cert h);
      reject bool_decide (qc_signature qc = []) with InvalidSignature "Quorum certificate signature is empty";;
      reject (finality_epochs =? 0)%N || (32 <? finality_epochs)%N
        with InvalidProofStructure ("Invalid finality epochs: " +:+ pretty finality_epochs);;
      reject (view qc =? 0)%N with InvalidProofStructure "Quorum certificate view cannot be zero";;
      Ok tt
  | _ => Err (UnsupportedChain "Ethereum anchor requires EthereumPos proof system")
  end.

Definition ethereum_verify_header (h : CanonicalBlockHeader) (_ : ValidatorSet) (f : FinalityGuarantee)
  : result AnchorError VerifiedHeader :=
  _ ← verify_ethereum_pos_finality h f;
  reject (bh_height h =? 0)%N with InvalidProofStructure "Block height cannot be zero";;
  reject (bh_timestamp h =? 0)%N with InvalidProofStructure "Block timestamp cannot be zero";;
  Ok (mkVerified (bh_hash h) (bh_height h)).

Definition verify_mpt_inclusion (p : CanonicalInclusionProof) (a : VerifiedHeader) : result AnchorError unit :=
  reject negb (bool_decide (ci_root_hash p = vh_hash a))
    with HashMismatch (hex_encode (b32 (vh_hash a))) (hex_encode (b32 (ci_root_hash p)));;
  reject bool_decide (ci_proof p = []) with InvalidInclusionProof "Proof nodes cannot be empty";;
  reject bool_decide (ci_key p = []) with InvalidInclusionProof "Proof key cannot be empty";;
  reject bool_decide (ci_value p = []) with InvalidInclusionProof "Proof value cannot be empty";;
  Ok tt.

Definition ethereum_anchor : CryptographicAnchor := mkAnchor ethereum_verify_header verify_mpt_inclusion.

(** ** Bundles judged by the chain's verifier *)

Record ChainBundlePolicy := mkBundlePolicy { min_confirmations : option N; max_confirmations : option N }.
Definition bitcoin_policy : ChainBundlePolicy := mkBundlePolicy (Some 6%N) (Some 1008%N).
Definition permissive_policy : ChainBundlePolicy := mkBundlePolicy None None.
Inductive ChainBundleError := Inclusion (m : string) | Finality (m : string) | Policy (m : string).

Record ChainNativeProofVerifier := mkNative {
  native_inclusion : ProofTaxonomy.InclusionProof -> Hash -> result ChainBundleError bool;
  native_finality : ProofTaxonomy.FinalityProof -> string -> result ChainBundleError bool
}.

Definition inclusion_anchor_ref (p : ProofTaxonomy.InclusionProof) : string :=
  of_bytes (hex_encode (b32 (ProofTaxonomy.inc_block_hash p))).

Definition verify_chain_proof_bundle (v : ChainNativeProofVerifier) (inc : ProofTaxonomy.InclusionProof)
    (fin : ProofTaxonomy.FinalityProof) (commitment : Hash) (policy : ChainBundlePolicy) : result ChainBundleError bool :=
  included ← native_inclusion v inc commitment;
  if negb included then Ok false
  else
    final ← native_finality v fin (inclusion_anchor_ref inc);
    if negb final then Ok false
    else if match min_confirmations policy with Some m => (ProofTaxonomy.confirmations fin <? m)%N | None => false end
    then Ok false
    else if match max_confirmations policy with Some m => (m <? ProofTaxonomy.confirmations fin)%N | None => false end
    then Ok false
    else Ok true.

(** ** Properties *)

(** What an accepted envelope promises. *)
Record zk_envelope_ok (p : ZkSealProof) (h : ZkHeader) : Prop := {
  ze_circuit : circuit_id h <> zero32;
  ze_bytes : zp_bytes p <> [] /\ (blen (zp_bytes p) <= MAX_ZK_PROOF_SIZE)%N;
  ze_system : vk_proof_system (zp_key p) = Groth16;
  ze_active : vk_active (zp_key p) = true;
  ze_version : vk_version (zp_key p) <> 0%N;
  ze_key : vk_key_bytes (zp_key p) <> [];
  ze_seal : seal_id (zi_seal_ref (zp_inputs p)) <> [];
  ze_block : zi_block_hash (zp_inputs p) <> zero32 /\ zi_block_height (zp_inputs p) <> 0%N;
  ze_commitment : zi_commitment (zp_inputs p) <> zero32;
  ze_timestamp : zi_timestamp (zp_inputs p) <> 0%N;
  ze_chain : zi_source_chain (zp_inputs p) = vk_chain (zp_key p)
}.

Lemma public_inputs_ok i :
  validate_zk_public_inputs i = Ok tt <->
  seal_id (zi_seal_ref i) <> [] /\ zi_block_hash i <> zero32 /\ zi_commitment i <> zero32 /\
  zi_block_height i <> 0%N /\ zi_timestamp i <> 0%N.
Proof.
  unfold validate_zk_public_inputs. change Hash.zero with zero32.
  rewrite !guard_err_ok, !bool_decide_eq_false, !N.eqb_neq. naive_solver.
Qed.

Lemma envelope_ok_iff p h : validate_zk_seal_envelope p h = Ok tt <-> zk_envelope_ok p h.
Proof.
  unfold validate_zk_seal_envelope. rewrite !guard_err_ok, bind_unit_ok, public_inputs_ok, guard_err_ok.
  rewrite !negb_false_iff, !bool_decide_eq_true, !bool_decide_eq_false, !N.ltb_ge, !N.eqb_neq. split.
  - intros (H1 & H2 & H3 & H4 & H5 & H6 & H7 & (H8 & H9 & H10 & H11 & H12) & H13 & _). by split.
  - intros [? [? ?] ? ? ? ? ? [? ?] ? ? ?]. done.
Qed.

(** the zero-knowledge gate.  A proof is accepted exactly when its envelope is well
    formed and the pairing backend accepts it, so without a backend none ever is; an
    accepted proof is a non-empty Groth16 proof under an active key of the chain its public
    inputs name, about a seal, a block and a commitment that are not blank. *)
Theorem zk_gate_exact (p : ZkSealProof) (h : ZkHeader) (v : PairingVerifier) :
  (verify_zk_seal_with_pairing p h v = Ok tt <-> zk_envelope_ok p h /\ v p h = Ok tt) /\
  verify_zk_seal_unavailable p h <> Ok tt.
Proof.
  split; [|unfold verify_zk_seal_unavailable, verify_zk_seal_with_pairing; by intros (? & _ & ?)%bind_ok].
  unfold verify_zk_seal_with_pairing. by rewrite bind_unit_ok, envelope_ok_iff.
Qed.

(** what the Ethereum anchor establishes of a header.  It is accepted exactly when its
    hash, its parent's, its height, its time and the view of its certificate are not blank,
    the certificate has some signature and the proof system is that of Ethereum with one to
    32 epochs.  The validators, the signers, the content of the signature and every bound of
    the finality guarantee make no difference, whatever the interface asks of an anchor. *)
Theorem ethereum_header_exact (h : CanonicalBlockHeader) (vs : ValidatorSet) (f : FinalityGuarantee) (v : VerifiedHeader) :
  verify_header ethereum_anchor h vs f = Ok v <->
  v = mkVerified (bh_hash h) (bh_height h) /\ bh_hash h <> zero32 /\ bh_parent_hash h <> zero32 /\
  bh_height h <> 0%N /\ bh_timestamp h <> 0%N /\
  exists epochs qc, proof_system f = EthereumPos epochs /\ (1 <= epochs <= 32)%N /\
    bh_quorum_cert h = Some qc /\ qc_signature qc <> [] /\ view qc <> 0%N.
Proof.
  cbn [verify_header ethereum_anchor]. unfold ethereum_verify_header, verify_ethereum_pos_finality. split.
  - intros ([] & H & H2)%bind_ok. rewrite !guard_err_ok, !N.eqb_neq in H2. destruct H2 as (Hh & Ht & [= <-]).
    rewrite !guard_err_ok, andb_false_iff, N.ltb_ge, !bool_decide_eq_false in H. destruct H as (H1 & H2 & H).
    split; [done|]. split; [done|]. split; [destruct H2; [lia|done]|]. split; [done|]. split; [done|].
    destruct (proof_system f) as [| | |e]; try done. destruct (bh_quorum_cert h) as [qc|]; [|done].
    cbn [ok_or mbind result_bind] in H. rewrite !guard_err_ok, orb_false_iff, bool_decide_eq_false, N.ltb_ge, !N.eqb_neq in H.
    exists e, qc. naive_solver lia.
  - intros (-> & H1 & H2 & H3 & H4 & e & qc & -> & He & -> & H5 & H6). cbn [ok_or mbind result_bind].
    rewrite !bool_decide_false by done. rewrite andb_false_r.
    rewrite (proj2 (N.eqb_neq e 0)), (proj2 (N.ltb_ge 32 e)), (proj2 (N.eqb_neq (view qc) 0)) by lia. cbn.
    by rewrite (proj2 (N.eqb_neq _ _) H3), (proj2 (N.eqb_neq _ _) H4).
Qed.

(** An inclusion proof is accepted for any key and any value against any header: its nodes
    are not read. *)
Lemma ethereum_inclusion_forged (a : VerifiedHeader) (key value node : bytes) :
  key <> [] -> value <> [] ->
  anchor_verify_inclusion ethereum_anchor (mkCanonicalInclusion key value [node] (vh_hash a)) a = Ok tt.
Proof. intros Hk Hv. cbn. unfold verify_mpt_inclusion. cbn. by rewrite bool_decide_true, !bool_decide_false. Qed.

(** a chain bundle is accepted exactly when the chain's verifier accepts the inclusion
    of the commitment and the finality of the block the inclusion is in, and the number of
    confirmations lies within the policy's bounds; it is an error exactly when the verifier
    reports one for the check it was asked, finality only after inclusion. *)
Theorem chain_bundle_exact (v : ChainNativeProofVerifier) inc fin (commitment : Hash) (policy : ChainBundlePolicy) :
  let n := ProofTaxonomy.confirmations fin in
  (verify_chain_proof_bundle v inc fin commitment policy = Ok true <->
   native_inclusion v inc commitment = Ok true /\ native_finality v fin (inclusion_anchor_ref inc) = Ok true /\
   (forall m, min_confirmations policy = Some m -> (m <= n)%N) /\
   (forall m, max_confirmations policy = Some m -> (n <= m)%N)) /\
  (forall e, verify_chain_proof_bundle v inc fin commitment policy = Err e <->
   native_inclusion v inc commitment = Err e
   \/ native_inclusion v inc commitment = Ok true /\ native_finality v fin (inclusion_anchor_ref inc) = Err e).
Proof.
  cbv zeta. unfold verify_chain_proof_bundle.
  destruct (native_inclusion v inc commitment) as [[]|e1]; cbn [mbind result_bind negb]; [|naive_solver..].
  destruct (native_finality v fin (inclusion_anchor_ref inc)) as [[]|e2]; cbn [mbind result_bind negb]; [|naive_solver..].
  destruct policy as [[mn|] [mx|]]; cbn [min_confirmations max_confirmations];
    repeat match goal with |- context [(?a <? ?b)%N] => destruct (N.ltb_spec a b) end;
    (split; [split; [intros [=]; repeat split; intros m [= <-]; lia|intros (_ & _ & H1 & H2); try done; exfalso;
       first [specialize (H1 _ eq_refl); lia|specialize (H2 _ eq_refl); lia]]|naive_solver]).
Qed.

Example bitcoin_policy_bounds : min_confirmations bitcoin_policy = Some 6%N /\ max_confirmations bitcoin_policy = Some 1008%N.
Proof. done. Qed.
