(* ===== verification/BitcoinSpv.v ===== *)
(** * Bitcoin inclusion proofs (csv-adapters/csv-bitcoin: proofs.rs, types.rs, runtime_adapter.rs,
      chain_verification.rs, sp1_guest/spv.rs)

    A lock on Bitcoin is shown by a Merkle branch from its transaction to the root in a block
    header.  Branches are extracted from the transactions of a block, written into the bytes
    of a core inclusion proof, read back by the runtime adapter and climbed.  Climbing is
    complete, and for a branch as long as the tree is high it binds the position: only the
    transaction at that place reaches the root, but for a collision of what is hashed.  The guest program
    that proves the same statement to a zero-knowledge backend climbs the same way.  The
    crate has a second layout of the core bytes and a second, native verifier, which do not
    fit each other. *)

From S2P Require Import Prelude Ord Bytes Hashing Text Merkle Seal.
From S2P Require ProofTaxonomy Coordinator Effects Anchors.

(** ** Branches *)

Record BitcoinInclusionProof := mkBtcInclusion {
  merkle_branch : list Bytes32; btc_block_hash : Bytes32; tx_index : N; btc_block_height : N
}.
(** [is_confirmed]; the addition is the machine's. *)
Definition is_confirmed (p : BitcoinInclusionProof) (current_height required_depth : N) : bool :=
  (add64 (btc_block_height p) required_depth <=? current_height)%N.

(** [data[from..to]] as a digest, where the caller has checked the length. *)
Definition digest_at (from : nat) (b : bytes) : option Bytes32 := to_b32 (take 32 (drop from b)).

Section Spv.
Variable sha256 : bytes -> Bytes32.

(** [double_sha256] of two nodes and of a byte string ([sha256d::Hash::hash]) *)
Definition double_hash (b : bytes) : Bytes32 := sha256 (b32 (sha256 b)).
Definition double_sha256 (lhs rhs : Bytes32) : Bytes32 := double_hash (b32 lhs ++ b32 rhs).

Definition compute_merkle_root (txids : list Bytes32) : option Bytes32 :=
  match txids with
  | [] => None
  | [t] => Some t
  | _ => head (dup_collapse double_sha256 (length txids) txids)
  end.

Definition compute_merkle_branch (target_index : nat) (all_txids : list Bytes32) : option (list Bytes32) :=
  if bool_decide (all_txids = []) || (length all_txids <=? target_index) then None
  else if length all_txids =? 1 then Some []
  else Some (branch_loop double_sha256 (length all_txids) all_txids target_index).

Definition verify_merkle_proof (txid merkle_root : Bytes32) (p : BitcoinInclusionProof) : bool :=
  match merkle_branch p with
  | [] => bool_decide (txid = merkle_root)
  | branch => bool_decide (climb_branch double_sha256 txid (N.to_nat (tx_index p)) branch = merkle_root)
  end.

Definition header_root (header : bytes) : Bytes32 := default zero32 (digest_at 36 header).

Definition verify_spv_proof (txid block_hash : Bytes32) (p : BitcoinInclusionProof) (header : bytes) : bool :=
  if length header <? 80 then false
  else if negb (verify_merkle_proof txid (header_root header) p) then false
  else negb (bool_decide (block_hash = zero32)).
Definition verify_spv_proof_with_header (txid : Bytes32) (header : bytes) (p : BitcoinInclusionProof) : bool :=
  if length header <? 80 then false else verify_merkle_proof txid (header_root header) p.
Definition verify_full_spv_proof (txid block_hash : Bytes32) (p : BitcoinInclusionProof)
    (block_height required_confirmations current_height : N) : bool :=
  if negb (verify_merkle_proof txid block_hash p) then false
  else if (current_height <? add64 block_height required_confirmations)%N then false
  else negb (bool_decide (block_hash = zero32)).
Definition verify_block_merkle_root (txids : list Bytes32) (expected_root : Bytes32) : bool :=
  match compute_merkle_root txids with Some r => bool_decide (r = expected_root) | None => false end.
Definition verify_merkle_proof_rust_bitcoin (txid merkle_root : Bytes32) (branch : list Bytes32) (index : N) : bool :=
  match branch with
  | [] => bool_decide (txid = merkle_root)
  | _ => verify_merkle_proof txid merkle_root (mkBtcInclusion branch merkle_root index 0)
  end.

(** [txids.iter().position(..)], then its branch. *)
Definition extract_merkle_proof_from_block (txid : Bytes32) (block_txids : list Bytes32) (block_hash : Bytes32)
    (block_height : N) : option BitcoinInclusionProof :=
  '(index, _) ← list_find (fun t => t = txid) block_txids;
  branch ← compute_merkle_branch index block_txids;
  Some (mkBtcInclusion branch block_hash (wrap32 (N.of_nat index)) block_height).

(** ** The bytes of a core proof *)

Definition branch_bytes (l : list Bytes32) : bytes := flat_map b32 l.

(** [to_core_inclusion_proof]: the index has four bytes. *)
Definition to_core_bytes (p : BitcoinInclusionProof) : bytes :=
  branch_bytes (merkle_branch p) ++ b32 (btc_block_hash p) ++ u32_le (tx_index p) ++ u64_le (btc_block_height p).
Definition to_core_inclusion_proof (p : BitcoinInclusionProof) : ProofTaxonomy.InclusionProof :=
  ProofTaxonomy.mkInclusionProof (to_core_bytes p) (btc_block_hash p) (tx_index p) (btc_block_height p)
    zero32 zero32 [] (tx_index p) "".

(** [BitcoinRuntimeAdapter::build_inclusion_proof]: the index has eight. *)
Definition runtime_proof_bytes (p : BitcoinInclusionProof) : bytes :=
  branch_bytes (merkle_branch p) ++ b32 (btc_block_hash p) ++ u64_le (tx_index p) ++ u64_le (btc_block_height p).

(** [while pos + 32 <= branch_data_len]: the digests read and where the loop stops. *)
Fixpoint read_branch (fuel pos limit : nat) (b : bytes) : list Bytes32 * nat :=
  match fuel with
  | O => ([], pos)
  | S fuel =>
      if pos + 32 <=? limit
      then let '(rest, stop) := read_branch fuel (pos + 32) limit b in (default zero32 (digest_at pos b) :: rest, stop)
      else ([], pos)
  end.
Definition METADATA : nat := 48.

Definition from_core_inclusion_proof (pb : bytes) : BitcoinInclusionProof :=
  if length pb <? METADATA then mkBtcInclusion [] zero32 0 0
  else
    let '(branch, pos) := read_branch (length pb) 0 (length pb - METADATA) pb in
    let block_hash := default zero32 (digest_at pos pb) in
    let index := wrap32 (of_le_bytes (take 8 (drop (pos + 32) pb))) in
    let height := of_le_bytes (take 8 (drop (pos + 40) pb)) in
    mkBtcInclusion branch block_hash index height.
Definition extract_merkle_branch (pb : bytes) : list Bytes32 :=
  if length pb <? METADATA then [] else (read_branch (length pb) 0 (length pb - METADATA) pb).1.

(** ** The native verifier (chain_verification.rs) *)

Inductive ChainOpError :=
| OpUnsupportedChain (m : string) | OpRpcError (m : string) | TransactionError (m : string) | SigningError (m : string)
| ProofVerificationError (m : string) | DeploymentError (m : string) | CapabilityUnavailable (m : string)
| FeatureNotEnabled (m : string) | InvalidInput (m : string) | OpTimeout (m : string) | OpUnknown (m : string).

Definition verify_inclusion_native (p : ProofTaxonomy.InclusionProof) (_ : Hash) : result ChainOpError bool :=
  let pb := ProofTaxonomy.proof_bytes p in
  if (length pb <? 48) || negb (length pb mod 32 =? 16) then Ok false
  else
    let bp := from_core_inclusion_proof pb in
    if bool_decide (btc_block_hash bp = zero32)
       || negb (btc_block_height bp =? ProofTaxonomy.block_number p)%N
       || negb (tx_index bp =? ProofTaxonomy.position p)%N
       || negb (bool_decide (btc_block_hash bp = ProofTaxonomy.inc_block_hash p))
    then Ok false else Ok true.

(** With the rpc feature. *)
Definition verify_finality_native (p : ProofTaxonomy.FinalityProof) (tx_hash : string) : result ChainOpError bool :=
  let data := ProofTaxonomy.finality_data p in
  if (ProofTaxonomy.confirmations p <? 6)%N then Ok false
  else
    reject (88 <=? length data) && negb (of_le_bytes (take 8 (drop 80 data)) =? ProofTaxonomy.confirmations p)%N
      with ProofVerificationError "Confirmation count mismatch in finality proof";;
    reject negb (String.length tx_hash =? 64) && negb (String.length tx_hash =? 66)
      with InvalidInput "Invalid tx_hash format";;
    Ok true.

Definition op_message (e : ChainOpError) : string :=
  match e with
  | OpUnsupportedChain m => "Unsupported chain: " +:+ m
  | OpRpcError m => "RPC error: " +:+ m
  | TransactionError m => "Transaction error: " +:+ m
  | SigningError m => "Signing error: " +:+ m
  | ProofVerificationError m => "Proof verification error: " +:+ m
  | DeploymentError m => "Deployment error: " +:+ m
  | CapabilityUnavailable m => "Capability unavailable: " +:+ m
  | FeatureNotEnabled m => "Feature not enabled: " +:+ m
  | InvalidInput m => "Invalid input: " +:+ m
  | OpTimeout m => "Timeout: " +:+ m
  | OpUnknown m => "Unknown error: " +:+ m
  end.
Definition bitcoin_native : Anchors.ChainNativeProofVerifier :=
  Anchors.mkNative
    (fun p c => map_err (fun e => Anchors.Inclusion (op_message e)) (verify_inclusion_native p c))
    (fun p t => map_err (fun e => Anchors.Finality (op_message e)) (verify_finality_native p t)).
Definition verify_proof_bundle_native inc fin commitment : result Anchors.ChainBundleError bool :=
  Anchors.verify_chain_proof_bundle bitcoin_native inc fin commitment Anchors.bitcoin_policy.

(** ** The guest program *)

Record Sp1BtcSpvInput := mkSpvInput {
  tx_data : bytes; spv_branch : list Bytes32; tx_position : N; block_header : bytes;
  expected_block_hash : Bytes32; spv_block_height : N; spv_seal_ref : SealPoint; spv_commitment : Hash
}.
Definition compute_txid (i : Sp1BtcSpvInput) : Bytes32 := double_hash (tx_data i).
(** The loop of [compute_merkle_root], with its bit operations. *)
Fixpoint guest_climb (current : Bytes32) (position : N) (branch : list Bytes32) : Bytes32 :=
  match branch with
  | [] => current
  | node :: branch =>
      let is_right_child := (N.land position 1 =? 1)%N in
      let concat := if is_right_child then b32 node ++ b32 current else b32 current ++ b32 node in
      guest_climb (double_hash concat) (N.shiftr position 1) branch
  end.
Definition guest_merkle_root (i : Sp1BtcSpvInput) : Bytes32 := guest_climb (compute_txid i) (tx_position i) (spv_branch i).
Definition verify_block_hash (i : Sp1BtcSpvInput) : bool := bool_decide (double_hash (block_header i) = expected_block_hash i).
Definition verify_bitcoin_spv (i : Sp1BtcSpvInput) : bool :=
  if negb (bool_decide (guest_merkle_root i = header_root (block_header i))) then false
  else if negb (verify_block_hash i) then false
  else if length (seal_id (spv_seal_ref i)) <? 32 then false
  else true.

(** ** The runtime adapter *)

(** What the node answers during one validation; an error is its message. *)
Record BitcoinRpc := mkRpc {
  get_block_count : result string N;
  get_block_hash : N -> result string Bytes32;
  get_raw_block_header : Bytes32 -> result string bytes;
  is_utxo_unspent : Bytes32 -> N -> result string bool
}.
Notation generic m := (Effects.AGeneric m).
Notation rejected m := (Effects.AProofVerificationFailed m).

Definition get_block_header (rpc : BitcoinRpc) (height : N) : result Effects.AdapterError bytes :=
  h ← map_err (fun e => generic ("Failed to get block hash: " +:+ e)) (get_block_hash rpc height);
  map_err (fun e => generic ("Failed to get block header: " +:+ e)) (get_raw_block_header rpc h).

(** The transaction identifier in Bitcoin's byte order, with the output. *)
Definition extract_utxo_outpoint (t : Coordinator.CrossChainTransfer) : result Effects.AdapterError (Bytes32 * N) :=
  let h := Coordinator.ct_lock_tx_hash t in
  txid ← ok_or (generic ("Invalid lock tx hash length: expected 32 bytes, got " +:+ show_nat (length h))) (to_b32 (reverse h));
  Ok (txid, Coordinator.ct_lock_output_index t).

Definition verify_proof_binding (t : Coordinator.CrossChainTransfer) (b : ProofTaxonomy.ProofBundle)
  : result Effects.AdapterError unit :=
  reject negb (bool_decide (anchor_id (ProofTaxonomy.anchor_ref b) = b32 (Coordinator.ct_sanad_id t)))
    with rejected "Proof Sanad ID does not match transfer Sanad ID";;
  Ok tt.

Definition bundle_inclusion (b : ProofTaxonomy.ProofBundle) : BitcoinInclusionProof :=
  let inc := ProofTaxonomy.inclusion_proof b in
  mkBtcInclusion (extract_merkle_branch (ProofTaxonomy.proof_bytes inc)) (ProofTaxonomy.inc_block_hash inc)
    (wrap32 (ProofTaxonomy.inc_leaf_index inc)) (ProofTaxonomy.block_number inc).

Definition validate_source_proof (rpc : BitcoinRpc) (t : Coordinator.CrossChainTransfer) (b : ProofTaxonomy.ProofBundle)
  : result Effects.AdapterError unit :=
  let p := bundle_inclusion b in
  let h := Coordinator.ct_lock_tx_hash t in
  txid ← ok_or (generic ("Invalid lock tx hash length: expected 32 bytes, got " +:+ show_nat (length h))) (to_b32 h);
  header ← get_block_header rpc (btc_block_height p);
  reject negb (verify_spv_proof_with_header txid header p) with rejected "SPV merkle proof verification failed";;
  current_height ← map_err (fun e => generic ("Failed to get block count: " +:+ e)) (get_block_count rpc);
  let confirmations := (current_height - btc_block_height p)%N in
  reject (confirmations <? 6)%N
    with rejected ("Insufficient confirmations: got " +:+ pretty confirmations +:+ ", need 6");;
  _ ← verify_proof_binding t b;
  outpoint ← extract_utxo_outpoint t;
  unspent ← map_err (fun e => generic ("Failed to check UTXO status: " +:+ e)) (is_utxo_unspent rpc outpoint.1 outpoint.2);
  reject negb unspent with rejected "UTXO has already been spent - double-spend detected";;
  Ok tt.

(** ** Lemmas *)

(** What is hashed for a pair of nodes: the two, and their hash. *)
Definition double_hashed (p : Bytes32 * Bytes32) : list bytes :=
  let pair := b32 p.1 ++ b32 p.2 in [pair; b32 (sha256 pair)].

Lemma double_sha256_inj k a b c d : double_hashed (a, b) ⊆ k -> double_hashed (c, d) ⊆ k ->
  double_sha256 a b = double_sha256 c d -> (a = c /\ b = d) \/ collision_in sha256 k.
Proof.
  unfold double_hashed, double_sha256, double_hash. cbn [fst snd]. intros S1 S2 H. hash_inj H.
  apply b32_inj in H. hash_inj H. left.
  apply app_eq_length_inj in H as [H1 H2]; [|by rewrite !b32_length]. by apply b32_inj in H1, H2.
Qed.

Lemma compute_merkle_root_some txids r :
  compute_merkle_root txids = Some r <-> dup_collapse double_sha256 (length txids) txids = [r].
Proof.
  destruct txids as [|t [|u l]]; [done|cbn; naive_solver|]. unfold compute_merkle_root.
  destruct (dup_collapse_single double_sha256 (length (t :: u :: l)) (t :: u :: l)) as [x ->]; [done|done|].
  cbn. naive_solver.
Qed.

Lemma compute_merkle_branch_some txids i t :
  txids !! i = Some t ->
  compute_merkle_branch i txids = Some (branch_loop double_sha256 (length txids) txids i).
Proof.
  intros Hi. unfold compute_merkle_branch. pose proof (lookup_lt_Some _ _ _ Hi).
  rewrite bool_decide_false by (by intros ->). rewrite (proj2 (Nat.leb_gt _ _)) by done. cbn [orb].
  destruct (Nat.eqb_spec (length txids) 1) as [E|]; [|done]. by destruct txids as [|x [|y l]].
Qed.

Lemma verify_merkle_climb txid r p :
  verify_merkle_proof txid r p = true <-> climb_branch double_sha256 txid (N.to_nat (tx_index p)) (merkle_branch p) = r.
Proof. unfold verify_merkle_proof. by destruct (merkle_branch p); rewrite bool_decide_eq_true. Qed.

Lemma length_branch_bytes l : length (branch_bytes l) = 32 * length l.
Proof. induction l as [|h l IH]; [done|]. cbn [branch_bytes flat_map]. rewrite length_app, b32_length. cbn. unfold branch_bytes in IH. lia. Qed.

Lemma digest_at_app pre h rest : digest_at (length pre) (pre ++ b32 h ++ rest) = Some h.
Proof. unfold digest_at. rewrite drop_app_length, <- (b32_length h), take_app_length. apply to_b32_b32. Qed.

Lemma read_branch_app fuel pre l tail :
  length l < fuel ->
  read_branch fuel (length pre) (length pre + 32 * length l) (pre ++ branch_bytes l ++ tail)
  = (l, length pre + 32 * length l).
Proof.
  revert fuel pre. induction l as [|h l IH]; intros [|fuel] pre Hf; try (cbn in Hf; lia).
  - cbn [read_branch length]. rewrite (proj2 (Nat.leb_gt _ _)) by lia. f_equal. lia.
  - cbn [read_branch]. rewrite (proj2 (Nat.leb_le _ _)) by (cbn; lia). cbn [branch_bytes flat_map].
    rewrite <- app_assoc, digest_at_app. cbn [default].
    specialize (IH fuel (pre ++ b32 h) ltac:(cbn in Hf; lia)). rewrite length_app, b32_length in IH.
    rewrite <- app_assoc in IH. cbn [length] in *. unfold branch_bytes in IH.
    replace (length pre + 32 + 32 * length l) with (length pre + 32 * S (length l)) in IH by lia. by rewrite IH.
Qed.

(** The runtime layout is read back by both readers. *)
Lemma runtime_layout p :
  (tx_index p <= u32_max)%N -> (btc_block_height p <= u64_max)%N ->
  extract_merkle_branch (runtime_proof_bytes p) = merkle_branch p /\
  from_core_inclusion_proof (runtime_proof_bytes p) = p.
Proof.
  intros Hi Hh. set (tail := b32 (btc_block_hash p) ++ u64_le (tx_index p) ++ u64_le (btc_block_height p)).
  assert (Ht : length tail = 48) by (unfold tail; by rewrite !length_app, b32_length, !length_u64_le).
  assert (E : runtime_proof_bytes p = [] ++ branch_bytes (merkle_branch p) ++ tail) by done.
  assert (Hl : length (runtime_proof_bytes p) = 32 * length (merkle_branch p) + 48).
  { rewrite E. cbn [app]. by rewrite length_app, length_branch_bytes, Ht. }
  unfold extract_merkle_branch, from_core_inclusion_proof, METADATA. rewrite Hl.
  rewrite (proj2 (Nat.ltb_ge _ _)) by lia. replace (32 * length (merkle_branch p) + 48 - 48) with (32 * length (merkle_branch p)) by lia.
  rewrite E. pose proof (read_branch_app (32 * length (merkle_branch p) + 48) [] (merkle_branch p) tail ltac:(lia)) as Hr.
  cbn [length] in Hr. rewrite !Nat.add_0_l in Hr. rewrite Hr. split; [done|]. cbn [app].
  assert (Hd : forall k, drop (32 * length (merkle_branch p) + k) (branch_bytes (merkle_branch p) ++ tail) = drop k tail).
  { intros k. rewrite <- length_branch_bytes, drop_app_add. done. }
  unfold digest_at. rewrite <- (Nat.add_0_r (32 * length (merkle_branch p))) at 1. rewrite !Hd, drop_0. unfold tail.
  rewrite (take_app_length' (b32 (btc_block_hash p))) by (by rewrite b32_length). rewrite to_b32_b32. cbn [default].
  rewrite (drop_app_length' (b32 (btc_block_hash p))) by (by rewrite b32_length).
  rewrite (take_app_length' (u64_le (tx_index p))) by (by rewrite length_u64_le).
  rewrite (drop_app_ge (b32 (btc_block_hash p)) _ 40) by (rewrite b32_length; lia). rewrite b32_length.
  rewrite (drop_app_length' (u64_le (tx_index p))) by (by rewrite length_u64_le).
  rewrite (take_ge (u64_le (btc_block_height p)) 8) by (by rewrite length_u64_le).
  unfold u64_le. rewrite !of_le_bytes_le_bytes, !N.mod_small by (unfold u64_max, u32_max in *; cbn; lia).
  rewrite wrap32_small by done. by destruct p.
Qed.

Lemma extract_some txid txids h height p :
  extract_merkle_proof_from_block txid txids h height = Some p ->
  exists i, txids !! i = Some txid /\ merkle_branch p = branch_loop double_sha256 (length txids) txids i /\
    tx_index p = wrap32 (N.of_nat i) /\ btc_block_hash p = h /\ btc_block_height p = height.
Proof.
  unfold extract_merkle_proof_from_block. destruct (list_find _ txids) as [[i t]|] eqn:Hf; [|done].
  apply list_find_Some in Hf as (Hi & -> & _). cbn. rewrite (compute_merkle_branch_some _ _ _ Hi). cbn.
  intros [= <-]. by exists i.
Qed.

Lemma low_bit pos : (N.land pos 1 =? 1)%N = Nat.odd (N.to_nat pos).
Proof.
  change 1%N with (2 * 0 + 1)%N. destruct (N.Even_or_Odd pos) as [[k ->]|[k ->]].
  - rewrite N.land_even_odd, N.land_0_r, N2Nat.inj_mul, Nat.odd_mul. done.
  - rewrite N.land_odd_odd, N.land_0_r, N2Nat.inj_add, N2Nat.inj_mul, Nat.odd_add, Nat.odd_mul. done.
Qed.

Lemma guest_climb_eq cur pos branch :
  guest_climb cur pos branch = climb_branch double_sha256 cur (N.to_nat pos) branch.
Proof.
  revert cur pos. induction branch as [|s l IH]; intros cur pos; [done|]. cbn [guest_climb climb_branch].
  rewrite low_bit, IH, <- N.div2_spec, N.div2_div, N2Nat.inj_div. by destruct (Nat.odd (N.to_nat pos)).
Qed.

(** ** Properties *)

(** Merkle proofs of Bitcoin.  The root of every block is computed, the branch extracted
    for any transaction of the block verifies against it, and a branch of the tree's height
    at a position of the block verifies for the transaction at that position alone, unless
    two of the strings hashed for the pairs of the tree and of the branch collide. *)
Theorem bitcoin_merkle_exact (txids : list Bytes32) (r : Bytes32) :
  compute_merkle_root txids = Some r -> (blen txids <= u32_max)%N ->
  (forall txid h height, txid ∈ txids -> exists p, extract_merkle_proof_from_block txid txids h height = Some p /\
     verify_merkle_proof txid r p = true /\ length (merkle_branch p) = dup_height double_sha256 (length txids) txids) /\
  (forall txid p, verify_merkle_proof txid r p = true -> (tx_index p < blen txids)%N ->
     length (merkle_branch p) = dup_height double_sha256 (length txids) txids ->
     txids !! N.to_nat (tx_index p) = Some txid \/
     collision_in sha256 (branch_hashed double_sha256 double_hashed txids txid (N.to_nat (tx_index p))
                            (merkle_branch p))).
Proof.
  intros Hr Hn. apply compute_merkle_root_some in Hr. split.
  - intros txid h height [i Hi]%list_elem_of_lookup.
    destruct (extract_merkle_proof_from_block txid txids h height) as [p|] eqn:Hp.
    + exists p. split; [done|]. apply extract_some in Hp as (j & Hj & Hb & Hx & _).
      rewrite Hb, (length_branch _ _ _ _ _ Hj). split; [|done]. apply verify_merkle_climb. rewrite Hb, Hx.
      pose proof (lookup_lt_Some _ _ _ Hj). rewrite wrap32_small by (unfold blen in Hn; lia). rewrite Nat2N.id.
      rewrite (branch_complete double_sha256 (length txids) txids j txid Hj) in Hr by done. by injection Hr.
    + exfalso. unfold extract_merkle_proof_from_block in Hp.
      destruct (list_find_elem_of (fun t => t = txid) txids txid) as [[j t] Hf]; [by eapply list_elem_of_lookup_2|done|].
      rewrite Hf in Hp. cbn in Hp. apply list_find_Some in Hf as (Hj & _ & _).
      rewrite (compute_merkle_branch_some _ _ _ Hj) in Hp. done.
  - intros txid p Hv%verify_merkle_climb Hi Hb.
    apply (branch_binds sha256 double_sha256 double_hashed double_sha256_inj) with (root := r);
      [done|unfold blen in Hi; lia|done|done].
Qed.

(** Without the length of the branch nothing of the kind holds: the root of a block, which
    no transaction is, verifies with no branch at all. *)
Lemma root_is_accepted (r h : Bytes32) (i height : N) : verify_merkle_proof r r (mkBtcInclusion [] h i height) = true.
Proof. by apply verify_merkle_climb. Qed.

(** from the block to the validating side.  For a block whose header carries its Merkle
    root, the proof extracted for a transaction survives the bytes the runtime adapter
    writes (branch and index are read back exactly) and its SPV check succeeds. *)
Theorem spv_roundtrip (txids : list Bytes32) (txid h r : Bytes32) (height : N) (header : bytes) (p : BitcoinInclusionProof) :
  compute_merkle_root txids = Some r -> (blen txids <= u32_max)%N -> (height <= u64_max)%N ->
  80 <= length header -> digest_at 36 header = Some r ->
  extract_merkle_proof_from_block txid txids h height = Some p ->
  extract_merkle_branch (runtime_proof_bytes p) = merkle_branch p /\
  from_core_inclusion_proof (runtime_proof_bytes p) = p /\
  verify_spv_proof_with_header txid header (from_core_inclusion_proof (runtime_proof_bytes p)) = true.
Proof.
  intros Hr Hn Hh Hl Hd Hp. destruct (extract_some _ _ _ _ _ Hp) as (i & Hi & Hb & Hx & _ & Hg).
  destruct (runtime_layout p) as [H1 H2].
  { rewrite Hx. unfold wrap32, u32_max. pose proof (N.mod_upper_bound (N.of_nat i) 4294967296). lia. }
  { by rewrite Hg. }
  rewrite H2. split; [done|]. split; [done|]. unfold verify_spv_proof_with_header, header_root.
  rewrite (proj2 (Nat.ltb_ge _ _)), Hd by done. cbn [default]. apply verify_merkle_climb. rewrite Hb, Hx.
  apply compute_merkle_root_some in Hr. pose proof (lookup_lt_Some _ _ _ Hi).
  rewrite wrap32_small by (unfold blen in Hn; lia). rewrite Nat2N.id.
  rewrite (branch_complete double_sha256 (length txids) txids i txid Hi) in Hr by done. by injection Hr.
Qed.

(** the guest program proves what the host checks.  It accepts exactly when the host's
    Merkle check accepts the transaction's identifier against the root in the header, the
    header hashes to the expected block, and the seal has 32 bytes or more. *)
Theorem guest_refines_host (i : Sp1BtcSpvInput) :
  length (block_header i) = 80 ->
  verify_bitcoin_spv i = true <->
  verify_spv_proof_with_header (compute_txid i) (block_header i)
    (mkBtcInclusion (spv_branch i) (expected_block_hash i) (tx_position i) (spv_block_height i)) = true /\
  double_hash (block_header i) = expected_block_hash i /\ 32 <= length (seal_id (spv_seal_ref i)).
Proof.
  intros Hl. unfold verify_bitcoin_spv, verify_block_hash, verify_spv_proof_with_header, guest_merkle_root.
  rewrite Hl, guest_climb_eq. cbn [Nat.ltb Nat.leb]. rewrite verify_merkle_climb. cbn [tx_index merkle_branch].
  repeat case_bool_decide; cbn [negb]; try naive_solver.
  destruct (Nat.leb_spec (length (seal_id (spv_seal_ref i))) 31); split; [done|intros (_ & _ & ?); lia|done|done].
Qed.

(** The layout that [to_core_inclusion_proof] writes, with four bytes for the index, is one
    the native verifier never accepts; what it does accept, it accepts for any branch and
    any commitment, since it never climbs. *)
Lemma native_rejects_core_layout (p : BitcoinInclusionProof) (c : Hash) :
  verify_inclusion_native (to_core_inclusion_proof p) c = Ok false.
Proof.
  unfold verify_inclusion_native. cbn [to_core_inclusion_proof ProofTaxonomy.proof_bytes].
  assert (Hl : length (to_core_bytes p) = 12 + (length (merkle_branch p) + 1) * 32).
  { unfold to_core_bytes. rewrite !length_app, length_branch_bytes, b32_length, length_u32_le, length_u64_le. lia. }
  rewrite Hl, Nat.Div0.mod_add. by rewrite orb_true_r.
Qed.

Lemma native_accepts_any_branch (branch : list Bytes32) (h : Bytes32) (i height : N) (leaf root : Hash) sibs src (c : Hash) :
  h <> zero32 -> (i <= u32_max)%N -> (height <= u64_max)%N ->
  verify_inclusion_native
    (ProofTaxonomy.mkInclusionProof (runtime_proof_bytes (mkBtcInclusion branch h i height)) h i height leaf root sibs i src) c
  = Ok true.
Proof.
  intros Hh Hi Hg. unfold verify_inclusion_native.
  cbn [ProofTaxonomy.proof_bytes ProofTaxonomy.block_number ProofTaxonomy.position ProofTaxonomy.inc_block_hash].
  destruct (runtime_layout (mkBtcInclusion branch h i height) Hi Hg) as [_ ->].
  cbn [btc_block_hash btc_block_height tx_index].
  assert (Hl : length (runtime_proof_bytes (mkBtcInclusion branch h i height)) = 16 + (length branch + 1) * 32).
  { unfold runtime_proof_bytes. cbn [merkle_branch btc_block_hash tx_index btc_block_height].
    rewrite !length_app, length_branch_bytes, b32_length, !length_u64_le. lia. }
  rewrite Hl, Nat.Div0.mod_add, (proj2 (Nat.ltb_ge _ _)) by lia.
  change (16 mod 32) with 16. cbn [Nat.eqb negb orb]. rewrite !N.eqb_refl, bool_decide_false by done.
  by rewrite bool_decide_true.
Qed.

(** [verify_full_spv_proof] compares the climbed root with the hash of the block, so an
    honest proof passes only where the two are equal. *)
Lemma full_spv_wants_block_hash txid h p height req cur :
  verify_full_spv_proof txid h p height req cur = true ->
  climb_branch double_sha256 txid (N.to_nat (tx_index p)) (merkle_branch p) = h.
Proof.
  unfold verify_full_spv_proof. destruct (verify_merkle_proof txid h p) eqn:E; [|done]. intros _.
  by apply verify_merkle_climb.
Qed.

(** What the validation of a source proof needs. *)
Record source_accepted (rpc : BitcoinRpc) (t : Coordinator.CrossChainTransfer) (b : ProofTaxonomy.ProofBundle)
    (txid : Bytes32) : Prop := {
  sv_txid : b32 txid = Coordinator.ct_lock_tx_hash t;
  sv_spv : exists h header, get_block_hash rpc (btc_block_height (bundle_inclusion b)) = Ok h /\
             get_raw_block_header rpc h = Ok header /\
             verify_spv_proof_with_header txid header (bundle_inclusion b) = true;
  sv_depth : exists tip, get_block_count rpc = Ok tip /\ (btc_block_height (bundle_inclusion b) + 6 <= tip)%N;
  sv_bound : anchor_id (ProofTaxonomy.anchor_ref b) = b32 (Coordinator.ct_sanad_id t);
  sv_unspent : exists u, b32 u = reverse (b32 txid) /\ is_utxo_unspent rpc u (Coordinator.ct_lock_output_index t) = Ok true
}.

(** what the adapter accepts as a source proof, exactly: the lock's transaction is in
    the block the node names at the proof's height, that block has six on top of it, the
    anchor names the sanad of the transfer, and the node says that the locked output is
    unspent.  Nothing in it looks at the lock's content. *)
Theorem validate_source_proof_exact (rpc : BitcoinRpc) (t : Coordinator.CrossChainTransfer) (b : ProofTaxonomy.ProofBundle) :
  validate_source_proof rpc t b = Ok tt <-> exists txid, source_accepted rpc t b txid.
Proof.
  unfold validate_source_proof, get_block_header, verify_proof_binding, extract_utxo_outpoint. split.
  - intros (txid & Ht & H)%bind_ok. exists txid.
    destruct (to_b32 (Coordinator.ct_lock_tx_hash t)) as [x|] eqn:Hx; [|done]. injection Ht as ->.
    apply to_b32_Some in Hx. apply bind_ok in H as (header & (h & Hh & Hr)%bind_ok & [Hv H]%guard_err_ok).
    apply map_err_ok in Hh, Hr. apply negb_false_iff in Hv.
    apply bind_ok in H as (tip & Hc%map_err_ok & [Hd H]%guard_err_ok). apply N.ltb_ge in Hd.
    apply bind_ok in H as ([] & [Hb _]%guard_err_ok & H). apply negb_false_iff, bool_decide_eq_true in Hb.
    apply bind_ok in H as (u & (o & Ho & [= <-])%bind_ok & H).
    destruct (to_b32 (reverse _)) as [y|] eqn:Hy; [|done]. injection Ho as ->. apply to_b32_Some in Hy.
    apply bind_ok in H as (un & Hun%map_err_ok & [Hn _]%guard_err_ok). apply negb_false_iff in Hn as ->.
    split; [done|by exists h, header|exists tip; split; [done|lia]|done|]. exists o. by rewrite Hx.
  - intros (txid & [Ht (h & header & Hh & Hr & Hv) (tip & Hc & Hd) Hb (u & Hu & Hn)]).
    rewrite <- Ht, to_b32_b32. cbn [ok_or mbind result_bind]. rewrite Hh. cbn [map_err mbind result_bind].
    rewrite Hr. cbn [map_err mbind result_bind]. rewrite Hv. cbn [negb guard_err]. rewrite Hc. cbn [map_err mbind result_bind].
    rewrite (proj2 (N.ltb_ge _ _)) by lia. cbn [guard_err]. rewrite bool_decide_true by done. cbn [negb guard_err mbind result_bind].
    rewrite <- Hu, to_b32_b32. cbn [ok_or mbind result_bind fst snd]. rewrite Hn. done.
Qed.
End Spv.

(** ** A block of three transactions *)

Definition demo_txids : list Bytes32 := map toy_hash (map as_bytes ["a"; "b"; "c"]%string).
Definition demo_txid : Bytes32 := toy_hash (as_bytes "b").
Definition demo_btc_root : Bytes32 := default zero32 (compute_merkle_root toy_hash demo_txids).
Definition demo_header : bytes := replicate 36 Byte.x00 ++ b32 demo_btc_root ++ replicate 12 Byte.x00.
Definition demo_btc_proof : BitcoinInclusionProof :=
  default (mkBtcInclusion [] zero32 0 0) (extract_merkle_proof_from_block toy_hash demo_txid demo_txids (fill32 Byte.x05) 700).

Lemma demo_root_some : compute_merkle_root toy_hash demo_txids = Some demo_btc_root.
Proof. unfold demo_btc_root. destruct (compute_merkle_root toy_hash demo_txids) eqn:E; [done|]. vm_compute in E. discriminate. Qed.
Lemma demo_proof_some :
  extract_merkle_proof_from_block toy_hash demo_txid demo_txids (fill32 Byte.x05) 700 = Some demo_btc_proof.
Proof.
  unfold demo_btc_proof. destruct (extract_merkle_proof_from_block _ _ _ _ _) eqn:E; [done|]. vm_compute in E. discriminate.
Qed.

Lemma bitcoin_merkle_exact_witness :
  exists p, extract_merkle_proof_from_block toy_hash demo_txid demo_txids zero32 9 = Some p /\
    verify_merkle_proof toy_hash demo_txid demo_btc_root p = true.
Proof.
  destruct (bitcoin_merkle_exact toy_hash demo_txids demo_btc_root demo_root_some) as [Hc _]; [vm_compute; discriminate|].
  destruct (Hc demo_txid zero32 9%N) as (p & Hp & Hv & _); [|by exists p].
  apply list_elem_of_In. right. left. reflexivity.
Defined.

Lemma spv_roundtrip_witness :
  verify_spv_proof_with_header toy_hash demo_txid demo_header
    (from_core_inclusion_proof (runtime_proof_bytes demo_btc_proof)) = true.
Proof.
  apply (spv_roundtrip toy_hash demo_txids demo_txid (fill32 Byte.x05) demo_btc_root 700 demo_header demo_btc_proof).
  - exact demo_root_some.
  - vm_compute. discriminate.
  - vm_compute. discriminate.
  - unfold demo_header. rewrite !length_app, b32_length, !length_replicate. lia.
  - exact (digest_at_app (replicate 36 Byte.x00) demo_btc_root (replicate 12 Byte.x00)).
  - exact demo_proof_some.
Defined.

Definition demo_spv_input : Sp1BtcSpvInput :=
  mkSpvInput (as_bytes "tx") [] 0 (replicate 36 Byte.x00 ++ b32 (double_hash toy_hash (as_bytes "tx")) ++ replicate 12 Byte.x00)
    (double_hash toy_hash (replicate 36 Byte.x00 ++ b32 (double_hash toy_hash (as_bytes "tx")) ++ replicate 12 Byte.x00))
    9 (mkSealPoint (replicate 32 Byte.x01) None None) zero32.

Lemma guest_refines_host_witness :
  verify_bitcoin_spv toy_hash demo_spv_input = true <->
  verify_spv_proof_with_header toy_hash (compute_txid toy_hash demo_spv_input) (block_header demo_spv_input)
    (mkBtcInclusion (spv_branch demo_spv_input) (expected_block_hash demo_spv_input) (tx_position demo_spv_input)
       (spv_block_height demo_spv_input)) = true /\
  double_hash toy_hash (block_header demo_spv_input) = expected_block_hash demo_spv_input /\
  32 <= length (seal_id (spv_seal_ref demo_spv_input)).
Proof. apply (guest_refines_host toy_hash demo_spv_input). reflexivity. Defined.
Example demo_spv_accepted : verify_bitcoin_spv toy_hash demo_spv_input = true.
Proof. vm_compute. reflexivity. Qed.
