(* ===== verification/AptosProofs.v ===== *)
(** * Proofs of Aptos (csv-adapters/csv-aptos: merkle.rs, proofs.rs)

    The adapter's accumulator pairs the odd node of a level with itself, like Bitcoin's tree,
    and hashes a pair under the adapter's domain behind a one; a proof item says on which
    side its hash stands, so that a proof determines the position it is for.  Here are the
    accumulator with its proofs, of leaves and of ledger roots, the state and event proofs,
    and the byte forms of lock proofs and commitment events. *)

From S2P Require Import Prelude Ord Bytes Hashing Text Merkle.

Definition AptosAnchorDomain : string := "csv.aptos.anchor.v1".

(** ** The accumulator (merkle.rs) *)

Inductive MerkleAccumulatorError := InvalidProof | HashMismatch | EmptyAccumulator.
Record Leaf := mkLeaf { leaf_node_hash : Bytes32; leaf_index : N; leaf_data : bytes }.
Inductive MerkleNode := LeafNode (l : Leaf) | Internal (hash : Bytes32) (l r : MerkleNode) | EmptyNode.
Inductive MerkleProofItem := LeftItem (hash : Bytes32) | SanadItem (hash : Bytes32).
Definition item_hash (i : MerkleProofItem) : Bytes32 := match i with LeftItem h => h | SanadItem h => h end.
Record MerkleAccumulator := mkAccumulator { acc_root : MerkleNode; num_leaves : N }.

Section Accumulator.
Variable sha256 : bytes -> Bytes32.

Definition empty_hash : Bytes32 := domain_hash sha256 AptosAnchorDomain [].
Definition compute_internal_hash (l r : Bytes32) : Bytes32 :=
  domain_hash sha256 AptosAnchorDomain ([Byte.x01] ++ b32 l ++ b32 r).
Definition node_hash (n : MerkleNode) : Bytes32 :=
  match n with LeafNode l => leaf_node_hash l | Internal h _ _ => h | EmptyNode => empty_hash end.

(** [from_leaves]; [build_tree] has the same loop over the hashes of nodes. *)
Definition node_of_level (hashes : list Bytes32) : MerkleNode :=
  match hashes with [h] => Internal h EmptyNode EmptyNode | _ => EmptyNode end.
Definition acc_from_leaves (leaves : list Bytes32) : MerkleAccumulator :=
  match leaves with
  | [] => mkAccumulator EmptyNode 0
  | _ => mkAccumulator (node_of_level (dup_collapse compute_internal_hash (length leaves) leaves)) (blen leaves)
  end.
Definition build_tree (nodes : list MerkleNode) : MerkleNode :=
  match nodes with
  | [] => EmptyNode
  | [n] => n
  | _ => node_of_level (dup_collapse compute_internal_hash (length nodes) (map node_hash nodes))
  end.
Definition root_hash (a : MerkleAccumulator) : Bytes32 := node_hash (acc_root a).

(** The index is halved and not used. *)
Fixpoint compute_root_from_leaf (leaf_hash : Bytes32) (index : N) (proof : list MerkleProofItem) : Bytes32 :=
  match proof with
  | [] => leaf_hash
  | LeftItem h :: proof => compute_root_from_leaf (compute_internal_hash h leaf_hash) (index / 2) proof
  | SanadItem h :: proof => compute_root_from_leaf (compute_internal_hash leaf_hash h) (index / 2) proof
  end.
Definition acc_verify_proof (a : MerkleAccumulator) (leaf_hash : Bytes32) (index : N) (proof : list MerkleProofItem) : bool :=
  match proof with
  | [] => bool_decide (root_hash a = leaf_hash) && (num_leaves a =? 1)%N
  | _ => bool_decide (compute_root_from_leaf leaf_hash index proof = root_hash a)
  end.

(** ** State, event and ledger proofs (merkle.rs) *)

Record StateProof := mkState {
  sp_address : Bytes32; resource_type : string; exists_flag : bool; sp_data : option bytes;
  accumulator_proof : list MerkleProofItem; sp_version : N; sp_leaf_hash : Bytes32
}.
Definition state_leaf (address : Bytes32) (rtype : string) (ex : bool) (data : option bytes) : bytes :=
  as_bytes "APTOS::STATE::LEAF" ++ b32 address ++ as_bytes rtype ++
  if ex then as_bytes "EXISTS" ++ default [] data else as_bytes "NOT_EXISTS".
Definition compute_leaf_hash (p : StateProof) : Bytes32 :=
  domain_hash sha256 AptosAnchorDomain (state_leaf (sp_address p) (resource_type p) (exists_flag p) (sp_data p)).
Definition state_verify (p : StateProof) (expected_root : Bytes32) : bool :=
  if negb (bool_decide (compute_leaf_hash p = sp_leaf_hash p)) then false
  else bool_decide (compute_root_from_leaf (compute_leaf_hash p) 0 (accumulator_proof p) = expected_root).

Record EventProof := mkEvent { ep_hash : Bytes32; ep_index : N; event_proof : list MerkleProofItem }.
Definition event_verify (p : EventProof) (event_root : Bytes32) : bool :=
  bool_decide (compute_root_from_leaf (ep_hash p) (ep_index p) (event_proof p) = event_root).

Record LedgerProof := mkLedger { lp_version : N; lp_root_hash : Bytes32; lp_chain_id : N; lp_epoch : N; lp_proof : list MerkleProofItem }.
(** The loop over the siblings: the side is the position's, not the item's. *)
Fixpoint ledger_loop (current : Bytes32) (pos : N) (proof : list MerkleProofItem) : Bytes32 :=
  match proof with
  | [] => current
  | s :: proof =>
      let '(l, r) := if (pos mod 2 =? 0)%N then (current, item_hash s) else (item_hash s, current) in
      ledger_loop (compute_internal_hash l r) (pos / 2) proof
  end.
Definition verify_against_accumulator (p : LedgerProof) (expected : Bytes32) : result MerkleAccumulatorError bool :=
  reject bool_decide (lp_proof p = []) && negb (bool_decide (lp_root_hash p = expected)) with InvalidProof;;
  if bool_decide (lp_proof p = []) then Ok true
  else if bool_decide (ledger_loop (lp_root_hash p) (lp_version p) (lp_proof p) = expected) then Ok true
  else Err HashMismatch.

(** ** Raw proofs (proofs.rs) *)

Inductive AptosError := InvalidProofFormat (m : string) | EventProofFailed (m : string) | StateProofFailed (m : string).

Record RawStateProof := mkRawState {
  rs_address : Bytes32; rs_resource_type : string; rs_exists : bool; rs_data : option bytes; state_proof : bytes; rs_version : N
}.
Definition raw_leaf_hash (p : RawStateProof) : Bytes32 :=
  sha256 (state_leaf (rs_address p) (rs_resource_type p) (rs_exists p) (rs_data p)).
(** The siblings from the [i]-th on; the slices are within the bytes, whose length was checked. *)
Fixpoint sibling_loop (n i : nat) (first : N) (current : Bytes32) (proof : bytes) : option Bytes32 :=
  match n with
  | O => Some current
  | S n =>
      sibling ← to_b32 (take 32 (drop (4 + i * 32) proof));
      let position_bit := N.land (N.shiftr first (N.of_nat (i mod 8))) 1 in
      let combined := if (position_bit =? 0)%N then b32 current ++ b32 sibling else b32 sibling ++ b32 current in
      sibling_loop n (S i) first (sha256 combined) proof
  end.
Definition raw_state_verify (p : RawStateProof) (expected_root : bytes) : bool :=
  if bool_decide (state_proof p = []) then false
  else match to_b32 expected_root with
       | None => false
       | Some root =>
           if length (state_proof p) <? 4 then false
           else
             let num_siblings := N.to_nat (of_le_bytes (take 4 (state_proof p))) in
             if length (state_proof p) <? 4 + num_siblings * 32 then false
             else
               let leaf := raw_leaf_hash p in
               match sibling_loop num_siblings 0 (Byte.to_N (hd Byte.x00 (b32 leaf))) leaf (state_proof p) with
               | Some current => bool_decide (current = root)
               | None => false
               end
       end.

Record RawEventProof := mkRawEvent {
  guid : Bytes32; sequence_number : N; transaction_version : N; re_data : bytes; event_index : N; raw_event_proof : bytes
}.
Definition event_hash (p : RawEventProof) : Bytes32 :=
  sha256 (as_bytes "APTOS::EVENT::LEAF" ++ b32 (guid p) ++ u64_le (sequence_number p) ++ u64_le (transaction_version p) ++
          u32_le (event_index p) ++ re_data p).
End Accumulator.

Definition raw_event_verify (p : RawEventProof) (expected_data : option bytes) : bool :=
  if bool_decide (raw_event_proof p = []) then false
  else if match expected_data with Some e => negb (bool_decide (re_data p = e)) | None => false end then false
  else 32 <=? length (raw_event_proof p).

(** What a node answers about a transaction: nothing, or its success and its events' data. *)
Definition verify_event_in_tx (tx_version : N) (expected_data : bytes) (answer : result AptosError (option (bool * list bytes)))
  : result AptosError bool :=
  tx ← answer;
  match tx with
  | Some (success, events) => Ok (success && existsb (fun d => bool_decide (d = expected_data)) events)
  | None => Err (EventProofFailed ("Transaction at version " +:+ pretty tx_version +:+ " not found"))
  end.
(** A resource that a node does not have was consumed. *)
Definition verify_resource_exists {R} (answer : result string (option R)) : result AptosError bool :=
  match answer with
  | Ok (Some _) => Ok true
  | Ok None => Ok false
  | Err e => Err (StateProofFailed ("Failed to fetch resource: " +:+ e))
  end.
Definition verify_resource_consumed {R} (answer : result string (option R)) : result AptosError bool :=
  match answer with
  | Ok (Some _) => Ok false
  | Ok None => Ok true
  | Err e => Err (StateProofFailed ("Failed to verify resource consumption: " +:+ e))
  end.

Record ParsedLockProof := mkLockProof { state_root : Bytes32; leaf_position : N; proof_data : bytes }.
Definition MIN_PROOF_LEN : nat := 40.
Definition parse_lock_proof (b : bytes) : result AptosError ParsedLockProof :=
  let short := InvalidProofFormat ("Lock proof too short: expected >= 40 bytes, got " +:+ pretty (blen b)) in
  reject length b <? MIN_PROOF_LEN with short;;
  '(root, b) ← read_b32 short b;
  '(position, b) ← read_u64_le (InvalidProofFormat "Failed to parse leaf_position") b;
  Ok (mkLockProof root position b).
Definition to_proof_bytes (p : ParsedLockProof) : bytes := b32 (state_root p) ++ u64_le (leaf_position p) ++ proof_data p.

Record CommitmentEventBuilder := mkBuilder { module_address : Bytes32; event_type : string }.
Definition event_build (b : CommitmentEventBuilder) (commitment seal_address : Bytes32) : bytes :=
  b32 (module_address b) ++ b32 seal_address ++ b32 commitment.
Definition event_parse (_ : CommitmentEventBuilder) (data : bytes) : result AptosError (Bytes32 * Bytes32) :=
  let short := EventProofFailed ("Event data too short: expected >= 96 bytes, got " +:+ pretty (blen data)) in
  reject length data <? 96 with short;;
  '(_, rest) ← take_n 32 short data;
  '(seal_address, rest) ← read_b32 short rest;
  '(commitment, _) ← read_b32 short rest;
  Ok (seal_address, commitment).

(** ** Lemmas *)

(** The position that the sides of a proof spell, lowest bit first, and back. *)
Fixpoint position_of (proof : list MerkleProofItem) : nat :=
  match proof with
  | [] => 0
  | LeftItem _ :: proof => 1 + 2 * position_of proof
  | SanadItem _ :: proof => 2 * position_of proof
  end.
Fixpoint items_at (idx : nat) (branch : list Bytes32) : list MerkleProofItem :=
  match branch with
  | [] => []
  | h :: branch => (if Nat.odd idx then LeftItem h else SanadItem h) :: items_at (idx / 2) branch
  end.

Section AccumulatorLemmas.
Context (sha256 : bytes -> Bytes32).
Notation combine := (compute_internal_hash sha256).

(** What is hashed for a pair of nodes. *)
Definition internal_hashed (p : Bytes32 * Bytes32) : list bytes :=
  [domain_preimage sha256 AptosAnchorDomain ([Byte.x01] ++ b32 p.1 ++ b32 p.2)].

Lemma internal_hash_inj k a b c d : internal_hashed (a, b) ⊆ k -> internal_hashed (c, d) ⊆ k ->
  combine a b = combine c d -> (a = c /\ b = d) \/ collision_in sha256 k.
Proof.
  unfold internal_hashed, compute_internal_hash. cbn [fst snd]. intros S1 S2 H. hash_inj H. left.
  apply app_inv_head in H. apply app_eq_length_inj in H as [Ha Hb]; [|by rewrite !b32_length]. by apply b32_inj in Ha, Hb.
Qed.

Lemma root_from_leaf_climb leaf i proof :
  compute_root_from_leaf sha256 leaf i proof = climb_branch combine leaf (position_of proof) (map item_hash proof).
Proof.
  revert leaf i. induction proof as [|[h|h] proof IH]; intros leaf i; [done| |];
    cbn [compute_root_from_leaf map item_hash position_of climb_branch]; rewrite IH.
  - rewrite Nat.odd_add, Nat.odd_mul. cbn [Nat.odd xorb negb andb Nat.even]. f_equal.
    replace (1 + 2 * position_of proof) with (1 + position_of proof * 2) by lia. by rewrite Nat.div_add by done.
  - rewrite Nat.odd_mul. cbn [Nat.odd negb andb Nat.even]. f_equal.
    replace (2 * position_of proof) with (position_of proof * 2) by lia. by rewrite Nat.div_mul by done.
Qed.

Lemma root_from_items leaf i idx branch :
  compute_root_from_leaf sha256 leaf i (items_at idx branch) = climb_branch combine leaf idx branch.
Proof.
  revert leaf i idx. induction branch as [|h branch IH]; intros leaf i idx; [done|]. cbn [items_at climb_branch].
  destruct (Nat.odd idx); cbn [compute_root_from_leaf]; apply IH.
Qed.

Lemma ledger_loop_climb current pos proof :
  ledger_loop sha256 current pos proof = climb_branch combine current (N.to_nat pos) (map item_hash proof).
Proof.
  revert current pos. induction proof as [|s proof IH]; intros current pos; [done|]. cbn [ledger_loop map climb_branch].
  assert (E : (pos mod 2 =? 0)%N = negb (Nat.odd (N.to_nat pos))).
  { rewrite Nat.negb_odd. apply eq_true_iff_eq. rewrite N.eqb_eq, Nat.even_spec. split.
    - intros Hm. exists (N.to_nat (pos / 2)). pose proof (N.div_mod pos 2 ltac:(lia)). lia.
    - intros [k Hk]. replace pos with (N.of_nat k * 2)%N by lia. apply N.Div0.mod_mul. }
  rewrite E. destruct (Nat.odd (N.to_nat pos)); cbn [negb]; rewrite IH, N2Nat.inj_div; done.
Qed.

Lemma acc_root_level leaves :
  leaves <> [] -> dup_collapse combine (length leaves) leaves = [root_hash sha256 (acc_from_leaves sha256 leaves)].
Proof.
  intros Hl. destruct (dup_collapse_single combine (length leaves) leaves) as [r Hr]; [done|done|].
  unfold root_hash, acc_from_leaves. rewrite Hr. by destruct leaves.
Qed.

Lemma length_items idx branch : length (items_at idx branch) = length branch.
Proof. revert idx. induction branch as [|h l IH]; intros idx; [done|]. cbn. by rewrite IH. Qed.
Lemma items_hashes idx branch : map item_hash (items_at idx branch) = branch.
Proof. revert idx. induction branch as [|h l IH]; intros idx; [done|]. cbn [items_at map]. rewrite IH. by destruct (Nat.odd idx). Qed.

Lemma acc_verify_climb a leaf i proof :
  (proof = [] -> num_leaves a = 1%N) ->
  acc_verify_proof sha256 a leaf i proof = true <->
  climb_branch combine leaf (position_of proof) (map item_hash proof) = root_hash sha256 a.
Proof.
  intros Hn. rewrite <- (root_from_leaf_climb leaf i). destruct proof as [|x proof].
  - cbn [acc_verify_proof compute_root_from_leaf]. rewrite (Hn eq_refl), N.eqb_refl, andb_true_r, bool_decide_eq_true. naive_solver.
  - apply bool_decide_eq_true.
Qed.

Lemma verify_ledger_climb p root :
  verify_against_accumulator sha256 p root = Ok true <->
  climb_branch combine (lp_root_hash p) (N.to_nat (lp_version p)) (map item_hash (lp_proof p)) = root.
Proof.
  unfold verify_against_accumulator. rewrite <- ledger_loop_climb. destruct (lp_proof p) as [|x l].
  - cbn. case_bool_decide; cbn; naive_solver.
  - rewrite !(bool_decide_eq_false_2 (_ = [])) by done. cbn.
    case_bool_decide; naive_solver.
Qed.

Lemma height_zero (leaves : list Bytes32) :
  leaves <> [] -> dup_height combine (length leaves) leaves = 0 -> length leaves = 1.
Proof. destruct leaves as [|a [|b l]]; done. Qed.
End AccumulatorLemmas.

(** The siblings of a raw state proof: the side at a step is a bit of the first byte of the
    leaf's hash, and the same again every eight steps. *)
Fixpoint raw_climb (sha256 : bytes -> Bytes32) (i : nat) (first : N) (current : Bytes32) (siblings : list Bytes32) : Bytes32 :=
  match siblings with
  | [] => current
  | s :: siblings =>
      raw_climb sha256 (S i) first
        (sha256 (if N.testbit first (N.of_nat (i mod 8)) then b32 s ++ b32 current else b32 current ++ b32 s)) siblings
  end.

Lemma position_bit_testbit a i : (N.land (N.shiftr a i) 1 =? 0)%N = negb (N.testbit a i).
Proof.
  change 1%N with (N.ones 1). rewrite N.land_ones, N.pow_1_r, <- N.bit0_mod, N.shiftr_spec, N.add_0_l by lia.
  by destruct (N.testbit a i).
Qed.

Lemma sibling_loop_climb sha256 siblings : forall i first current (pre rest : bytes), length pre = 4 + i * 32 ->
  sibling_loop sha256 (length siblings) i first current (pre ++ flat_map b32 siblings ++ rest) =
  Some (raw_climb sha256 i first current siblings).
Proof.
  induction siblings as [|s l IH]; intros i first current pre rest Hp; [done|].
  cbn [length sibling_loop flat_map raw_climb]. rewrite <- app_assoc.
  rewrite <- Hp, drop_app_length, take_app_length' by (symmetry; apply b32_length). rewrite to_b32_b32. cbn [mbind option_bind].
  rewrite position_bit_testbit, (app_assoc pre), IH by (rewrite length_app, b32_length; lia).
  by destruct (N.testbit first (N.of_nat (i mod 8))).
Qed.

(** Enough bytes are that many siblings and a rest. *)
Lemma split_siblings n : forall b : bytes, n * 32 <= length b -> exists siblings rest,
  b = flat_map b32 siblings ++ rest /\ length siblings = n.
Proof.
  induction n as [|n IH]; intros b Hb; [by exists [], b|].
  destruct (IH (drop 32 b)) as (l & rest & Hd & Hl); [rewrite length_drop; lia|].
  destruct (to_b32 (take 32 b)) as [h|] eqn:Hh.
  - apply to_b32_Some in Hh. exists (h :: l), rest. cbn [flat_map length]. rewrite Hl, Hh, <- app_assoc, <- Hd. by rewrite take_drop.
  - apply to_b32_None in Hh. rewrite length_take in Hh. lia.
Qed.

Lemma raw_state_exact sha256 (p : RawStateProof) (root : Bytes32) :
  raw_state_verify sha256 p (b32 root) = true <->
  exists siblings rest, state_proof p = u32_le (N.of_nat (length siblings)) ++ flat_map b32 siblings ++ rest /\
    (N.of_nat (length siblings) <= u32_max)%N /\
    raw_climb sha256 0 (Byte.to_N (hd Byte.x00 (b32 (raw_leaf_hash sha256 p)))) (raw_leaf_hash sha256 p) siblings = root.
Proof.
  unfold raw_state_verify. rewrite to_b32_b32. split.
  - case_bool_decide as Hne; [done|]. destruct (Nat.ltb_spec (length (state_proof p)) 4) as [|H4]; [done|].
    set (n := of_le_bytes (take 4 (state_proof p))).
    destruct (Nat.ltb_spec (length (state_proof p)) (4 + N.to_nat n * 32)) as [|Hn]; [done|].
    destruct (split_siblings (N.to_nat n) (drop 4 (state_proof p))) as (l & rest & Hd & Hl); [rewrite length_drop; lia|].
    assert (Ht : length (take 4 (state_proof p)) = 4) by (rewrite length_take; lia).
    assert (Hp : state_proof p = take 4 (state_proof p) ++ flat_map b32 l ++ rest) by (by rewrite <- Hd, take_drop).
    rewrite Hp, <- Hl, sibling_loop_climb by done. intros Hv%bool_decide_eq_true. exists l, rest. split_and!; [| |done].
    + rewrite Hl, N2Nat.id. unfold u32_le, n. pose proof (le_bytes_of_le_bytes (take 4 (state_proof p))) as E. rewrite Ht in E. by rewrite E.
    + rewrite Hl, N2Nat.id. pose proof (of_le_bytes_bound (take 4 (state_proof p))) as Hb. fold n in Hb.
      unfold blen in Hb. rewrite Ht in Hb. unfold u32_max. cbn in Hb. lia.
  - intros (l & rest & Hp & Hl & Hr). rewrite Hp. assert (Hu : length (u32_le (N.of_nat (length l))) = 4) by apply length_le_bytes.
    rewrite bool_decide_eq_false_2 by (intros E%(f_equal length); rewrite length_app, Hu in E; simpl in E; lia).
    rewrite take_app_length' by done. rewrite of_u32_le, Nat2N.id by done.
    assert (Hf : length (flat_map b32 l) = length l * 32).
    { clear. induction l as [|h l IH]; [done|]. cbn [flat_map length]. rewrite length_app, b32_length, IH. lia. }
    rewrite !length_app, Hu, Hf, (proj2 (Nat.ltb_ge _ 4)), (proj2 (Nat.ltb_ge _ _)) by lia.
    rewrite sibling_loop_climb by done. by apply bool_decide_eq_true.
Qed.

Lemma read_b32_ok {E} (e : E) b h rest : read_b32 e b = Ok (h, rest) -> b = b32 h ++ rest.
Proof.
  unfold read_b32. intros ([x r] & Hx & H)%bind_ok. apply take_n_ok in Hx as [-> _].
  destruct (to_b32 x) as [h'|] eqn:Hh; [|done]. injection H as -> ->. apply to_b32_Some in Hh. by rewrite Hh.
Qed.
Lemma read_u64_le_ok {E} (e : E) b v rest : read_u64_le e b = Ok (v, rest) -> b = u64_le v ++ rest /\ (v <= u64_max)%N.
Proof.
  unfold read_u64_le. intros ([x r] & Hx & [= <- <-])%bind_ok. apply take_n_ok in Hx as [-> Hl].
  pose proof (of_le_bytes_bound x) as Hb. unfold blen in Hb. rewrite Hl in Hb. split.
  - unfold u64_le. by rewrite <- Hl, le_bytes_of_le_bytes.
  - unfold u64_max. change (256 ^ N.of_nat 8)%N with 18446744073709551616%N in Hb. lia.
Qed.

(** What the state leaf does not separate: the absence of a resource and the presence, with
    no data, of the one whose name ends in [NOT_]. *)
Lemma state_leaf_ambiguous (address : Bytes32) (rtype : string) (data : option bytes) :
  state_leaf address rtype false data = state_leaf address (rtype +:+ "NOT_") true None.
Proof.
  unfold state_leaf. do 2 f_equal. rewrite as_bytes_app, <- app_assoc. done.
Qed.

(** An event proof is not climbed: any 32 bytes verify, for any event. *)
Lemma any_event_proof (p : RawEventProof) :
  length (raw_event_proof p) >= 32 -> raw_event_verify p (Some (re_data p)) = true.
Proof.
  intros Hl. unfold raw_event_verify. rewrite bool_decide_eq_false_2 by (intros E; rewrite E in Hl; simpl in Hl; lia).
  rewrite bool_decide_eq_true_2 by done. by apply Nat.leb_le.
Qed.

(** The place of an accumulator proof is the one of its sides: any index will do. *)
Lemma acc_index_ignored sha256 a leaf i j proof : acc_verify_proof sha256 a leaf i proof = acc_verify_proof sha256 a leaf j proof.
Proof. destruct proof as [|x l]; [done|]. unfold acc_verify_proof. by rewrite !root_from_leaf_climb. Qed.

(** Commitment events are read back, whatever module wrote them. *)
Lemma event_roundtrip b b' commitment seal_address rest :
  event_parse b' (event_build b commitment seal_address ++ rest) = Ok (seal_address, commitment).
Proof.
  unfold event_parse, event_build. rewrite !length_app, !b32_length. cbn [guard_err Nat.ltb Nat.leb Nat.add].
  rewrite <- !app_assoc. rewrite (take_n_app' _ 32) by apply b32_length. cbn [mbind result_bind].
  rewrite read_b32_app. cbn [mbind result_bind]. by rewrite read_b32_app.
Qed.

(** ** Properties *)

Section Properties.
Context (sha256 : bytes -> Bytes32).
Notation combine := (compute_internal_hash sha256).

(** accumulator proofs of Aptos.  Every leaf of an accumulator is shown at its position,
    by the sides in the items of a branch and by the version of a ledger proof.  A proof of
    the tree's height that verifies is for the leaf at the place its sides, or its version,
    spell, unless two of the strings hashed for the pairs of the tree and of the proof collide. *)
Theorem aptos_accumulator_exact (leaves : list Bytes32) :
  leaves <> [] ->
  let a := acc_from_leaves sha256 leaves in
  let root := root_hash sha256 a in
  let height := dup_height combine (length leaves) leaves in
  (forall i leaf, leaves !! i = Some leaf ->
     let proof := items_at i (branch_loop combine (length leaves) leaves i) in
     length proof = height /\ acc_verify_proof sha256 a leaf (N.of_nat i) proof = true /\
     verify_against_accumulator sha256 (mkLedger (N.of_nat i) leaf 0 0 proof) root = Ok true) /\
  (forall leaf index proof, acc_verify_proof sha256 a leaf index proof = true ->
     length proof = height -> position_of proof < length leaves ->
     leaves !! position_of proof = Some leaf \/
     collision_in sha256 (branch_hashed combine (internal_hashed sha256) leaves leaf (position_of proof)
                            (map item_hash proof))) /\
  (forall p, verify_against_accumulator sha256 p root = Ok true -> length (lp_proof p) = height -> (lp_version p < blen leaves)%N ->
     leaves !! N.to_nat (lp_version p) = Some (lp_root_hash p) \/
     collision_in sha256 (branch_hashed combine (internal_hashed sha256) leaves (lp_root_hash p)
                            (N.to_nat (lp_version p)) (map item_hash (lp_proof p)))).
Proof.
  intros Hl a root height. pose proof (acc_root_level sha256 leaves Hl) as Hr. fold a root in Hr.
  assert (Ha : num_leaves a = blen leaves) by (unfold a; by destruct leaves).
  assert (sound : forall idx x branch, idx < length leaves -> length branch = height ->
    climb_branch combine x idx branch = root ->
    leaves !! idx = Some x \/ collision_in sha256 (branch_hashed combine (internal_hashed sha256) leaves x idx branch)).
  { intros idx x branch Hi Hb Hc. by apply (branch_binds sha256 combine _ (internal_hash_inj sha256)) with (root := root). }
  assert (one : forall proof : list MerkleProofItem, length proof = height -> proof = [] -> num_leaves a = 1%N).
  { intros proof Hp ->. rewrite Ha. unfold blen. symmetry in Hp. by rewrite (height_zero sha256 leaves Hl Hp). }
  split_and!.
  - intros i leaf Hi proof. pose proof (branch_complete combine (length leaves) leaves i leaf Hi ltac:(done)) as Hc.
    assert (Hlen : length proof = height) by (unfold proof; rewrite length_items; by eapply length_branch).
    rewrite Hr in Hc. injection Hc as Hc. split_and!; [done| |].
    + pose proof (root_from_items sha256 leaf (N.of_nat i) i (branch_loop combine (length leaves) leaves i)) as He.
      apply acc_verify_climb; [by apply one|]. rewrite <- (root_from_leaf_climb sha256 leaf (N.of_nat i)). unfold proof. by rewrite He.
    + apply verify_ledger_climb. cbn. rewrite Nat2N.id. unfold proof. by rewrite items_hashes.
  - intros leaf index proof Hv Hp Hi. apply acc_verify_climb in Hv; [|by apply one].
    eapply sound; [done| |done]. by rewrite length_map.
  - intros p Hv Hp Hi. apply verify_ledger_climb in Hv. eapply sound; [unfold blen in Hi; lia| |done]. by rewrite length_map.
Qed.
End Properties.

(** lock proofs.  Bytes are read as a lock proof exactly when they are the bytes of that
    proof with a position of 64 bits; below forty bytes nothing is read. *)
Theorem lock_proof_exact (b : bytes) (p : ParsedLockProof) :
  parse_lock_proof b = Ok p <-> b = to_proof_bytes p /\ (leaf_position p <= u64_max)%N.
Proof.
  unfold parse_lock_proof. rewrite guard_err_ok, Nat.ltb_ge. split.
  - intros (Hl & H). apply bind_ok in H as ([root b1] & Hr & H). apply bind_ok in H as ([pos b2] & Hp & [= <-]).
    apply read_b32_ok in Hr. apply read_u64_le_ok in Hp as [Hp Hle]. unfold to_proof_bytes. cbn. by rewrite Hr, Hp.
  - intros [-> Hp]. unfold to_proof_bytes. split.
    + rewrite !length_app, b32_length. unfold u64_le. rewrite length_le_bytes. unfold MIN_PROOF_LEN. lia.
    + rewrite read_b32_app. cbn [mbind result_bind]. rewrite read_u64_le_app by done. by destruct p.
Qed.

(** ** Witnesses *)

Definition demo_acc_leaves : list Bytes32 := [fill32 Byte.x01; fill32 Byte.x02; fill32 Byte.x03].

Lemma aptos_accumulator_exact_witness :
  acc_verify_proof toy_hash (acc_from_leaves toy_hash demo_acc_leaves) (fill32 Byte.x03) 2
    (items_at 2 (branch_loop (compute_internal_hash toy_hash) 3 demo_acc_leaves 2)) = true.
Proof.
  destruct (aptos_accumulator_exact toy_hash demo_acc_leaves) as (H & _); [discriminate|].
  exact (proj1 (proj2 (H 2 (fill32 Byte.x03) eq_refl))).
Defined.
