(* ===== verification/Finality.v ===== *)
(** * Finality (csv-protocol: finality/mod.rs, policy.rs, state.rs, monitor.rs, abstraction.rs,
      chain_specific.rs)

    The verifiers of finality proofs for five chains, behind one interface with one law; the
    anchors and continuity proofs from which a restarted runtime checks a chain; guarantees
    and the registry of policies they are measured against; the policies of chains and the
    monitor that follows one transaction by the height of its chain.  A monitor's state has
    no memory: it is a function of the two heights, up to the 32 bits of its counter. *)

From S2P Require Import Prelude Ord Bytes Hashing Text Seal.

(** ** Finality proofs and their verifiers (mod.rs) *)

Inductive FinalityType := Probabilistic | Economic | Checkpoint | Quorum | Instant.
Global Instance FinalityType_eq_dec : EqDecision FinalityType.
Proof. solve_decision. Defined.
Definition default_confirmations (t : FinalityType) : N :=
  match t with Probabilistic => 6 | Economic => 2 | Checkpoint => 1 | Quorum => 1 | Instant => 0 end.
(** in seconds *)
Definition expected_time_to_finality (t : FinalityType) : N :=
  match t with Probabilistic => 3600 | Economic => 24 | Checkpoint => 2 | Quorum => 2 | Instant => 0 end.

Record FinalityProof := mkFinality {
  fp_type : FinalityType; block_height : N; current_height : N; confirmations : N; required_confirmations : N;
  finality_data : bytes; finalized_at : option N
}.
Definition finality_new (t : FinalityType) (height current required : N) (data : bytes) : FinalityProof :=
  mkFinality t height current (current - height) required data None.
Definition is_final (p : FinalityProof) : bool := (required_confirmations p <=? confirmations p)%N.
Definition mark_finalized (p : FinalityProof) (t : N) : FinalityProof :=
  mkFinality (fp_type p) (block_height p) (current_height p) (confirmations p) (required_confirmations p) (finality_data p) (Some t).
Definition time_to_finality (p : FinalityProof) : option N := (fun _ => 0%N) <$> finalized_at p.

Inductive FinalityError :=
| InvalidProof | InsufficientConfirmations (current required : N) | InvalidFinalityData | BlockHeightMismatch
| VerificationFailed (m : string).

Class FinalityVerifier (V : Type) := {
  verify_finality : V -> FinalityProof -> result FinalityError bool;
  verifier_type : V -> FinalityType;
  verifier_confirmations : V -> N
}.

Record BitcoinFinalityVerifier := mkBitcoin { bitcoin_required : N }.
Definition bitcoin_verify (v : BitcoinFinalityVerifier) (p : FinalityProof) : result FinalityError bool :=
  reject negb (bool_decide (fp_type p = Probabilistic)) with InvalidProof;;
  reject (confirmations p <? bitcoin_required v)%N with InsufficientConfirmations (confirmations p) (bitcoin_required v);;
  reject length (finality_data p) <? 80 with InvalidFinalityData;;
  Ok true.
Global Instance bitcoin_verifier : FinalityVerifier BitcoinFinalityVerifier :=
  { verify_finality := bitcoin_verify; verifier_type _ := Probabilistic; verifier_confirmations := bitcoin_required }.

Record EthereumFinalityVerifier := mkEthereum { ethereum_required : N }.
Definition ethereum_verify (v : EthereumFinalityVerifier) (p : FinalityProof) : result FinalityError bool :=
  reject negb (bool_decide (fp_type p = Economic)) with InvalidProof;;
  reject (confirmations p <? ethereum_required v)%N with InsufficientConfirmations (confirmations p) (ethereum_required v);;
  reject length (finality_data p) <? 80 with InvalidFinalityData;;
  Ok true.
Global Instance ethereum_verifier : FinalityVerifier EthereumFinalityVerifier :=
  { verify_finality := ethereum_verify; verifier_type _ := Economic; verifier_confirmations := ethereum_required }.

Inductive SolanaFinalityVerifier := SolanaVerifier.
Definition solana_verify (_ : SolanaFinalityVerifier) (p : FinalityProof) : result FinalityError bool :=
  reject negb (bool_decide (fp_type p = Quorum)) with InvalidProof;;
  reject (confirmations p <? 1)%N with InsufficientConfirmations (confirmations p) 1;;
  Ok true.
Global Instance solana_verifier : FinalityVerifier SolanaFinalityVerifier :=
  { verify_finality := solana_verify; verifier_type _ := Quorum; verifier_confirmations _ := 1%N }.

Inductive SuiFinalityVerifier := SuiVerifier.
Definition sui_verify (_ : SuiFinalityVerifier) (p : FinalityProof) : result FinalityError bool :=
  reject negb (bool_decide (fp_type p = Checkpoint)) with InvalidProof;;
  reject (confirmations p <? 1)%N with InsufficientConfirmations (confirmations p) 1;;
  reject bool_decide (finality_data p = []) with InvalidFinalityData;;
  Ok true.
Global Instance sui_verifier : FinalityVerifier SuiFinalityVerifier :=
  { verify_finality := sui_verify; verifier_type _ := Checkpoint; verifier_confirmations _ := 1%N }.

Inductive AptosFinalityVerifier := AptosVerifier.
Definition aptos_verify (_ : AptosFinalityVerifier) (p : FinalityProof) : result FinalityError bool :=
  reject negb (bool_decide (fp_type p = Checkpoint)) with InvalidProof;;
  reject (confirmations p <? 1)%N with InsufficientConfirmations (confirmations p) 1;;
  reject bool_decide (finality_data p = []) with InvalidFinalityData;;
  Ok true.
Global Instance aptos_verifier : FinalityVerifier AptosFinalityVerifier :=
  { verify_finality := aptos_verify; verifier_type _ := Checkpoint; verifier_confirmations _ := 1%N }.

(** times in seconds *)
Record FinalityConfig := mkFinalityConfig { fc_chain_id : string; fc_type : FinalityType; fc_required : N; fc_timeout : N }.
Definition config_bitcoin : FinalityConfig := mkFinalityConfig "bitcoin" Probabilistic 6 3600.
Definition config_ethereum : FinalityConfig := mkFinalityConfig "ethereum" Economic 2 60.
Definition config_solana : FinalityConfig := mkFinalityConfig "solana" Quorum 1 10.
Definition config_sui : FinalityConfig := mkFinalityConfig "sui" Checkpoint 1 5.
Definition config_aptos : FinalityConfig := mkFinalityConfig "aptos" Checkpoint 1 5.
Definition config_default : FinalityConfig := mkFinalityConfig "bitcoin" Probabilistic 6 3600.

(** ** Anchors and continuity (mod.rs) *)

Record FinalityAnchor := mkAnchor {
  fa_chain : string; finalized_height : N; finalized_hash : HashWire; cumulative_work : option N; fa_finalized_at : N
}.
Global Instance FinalityAnchor_eq_dec : EqDecision FinalityAnchor.
Proof. solve_decision. Defined.
Definition anchor_new (now : N) (chain : string) (height : N) (h : Hash) (work : option N) : FinalityAnchor :=
  mkAnchor chain height (wire_of_hash h) work now.
Definition is_valid_successor (a new : FinalityAnchor) : bool :=
  bool_decide (fa_chain a = fa_chain new) && (finalized_height a <? finalized_height new)%N
  && negb (bool_decide (finalized_hash new = wire_of_hash zero32)).
Definition is_stale (now : N) (a : FinalityAnchor) (max_age : N) : bool := (max_age <? now - fa_finalized_at a)%N.
Definition anchor_is_valid (a : FinalityAnchor) : bool := negb (bool_decide (finalized_hash a = wire_of_hash zero32)).

Record AncestorContinuityProof := mkContinuity {
  acp_chain : string; acp_anchor : FinalityAnchor; ancestor_hashes : list (N * HashWire); min_depth : N
}.
Inductive ContinuityError :=
| Gap (higher lower expected_gap actual_gap : N) | BeyondSafetyDepth (height depth max_depth : N)
| ContinuityHashMismatch (height : N) (expected found : Hash).

(** [new]; nothing where it panics. *)
Definition continuity_new (chain : string) (anchor : FinalityAnchor) (hashes : list (N * Hash)) (depth : N)
  : option AncestorContinuityProof :=
  match hashes with
  | [] => None
  | (h, _) :: _ =>
      if (h =? finalized_height anchor)%N
      then Some (mkContinuity chain anchor (map (fun e => (e.1, wire_of_hash e.2)) hashes) depth)
      else None
  end.
Definition safety_hash (p : AncestorContinuityProof) (max_safe_reorg_depth : N) : option (N * HashWire) :=
  let threshold := (finalized_height (acp_anchor p) - max_safe_reorg_depth)%N in
  find (fun e => (e.1 <=? threshold)%N) (ancestor_hashes p).
Definition get_at_height (p : AncestorContinuityProof) (height : N) : option HashWire :=
  snd <$> find (fun e => (e.1 =? height)%N) (ancestor_hashes p).
(** The loop over the windows of two. *)
Fixpoint windows_loop (l : list (N * HashWire)) : result ContinuityError unit :=
  match l with
  | (higher, _) :: ((lower, _) :: _) as rest =>
      reject negb (higher - lower =? 1)%N with Gap higher lower 1 (higher - lower);;
      windows_loop rest
  | _ => Ok tt
  end.
Definition verify_contiguous (p : AncestorContinuityProof) : result ContinuityError unit :=
  if length (ancestor_hashes p) <? 2 then Ok tt else windows_loop (ancestor_hashes p).
Fixpoint depth_loop (anchor_height max : N) (l : list (N * HashWire)) : result ContinuityError unit :=
  match l with
  | [] => Ok tt
  | (height, _) :: l =>
      let depth := (anchor_height - height)%N in
      reject (max <? depth)%N with BeyondSafetyDepth height depth max;;
      depth_loop anchor_height max l
  end.
Definition verify_within_safety_depth (p : AncestorContinuityProof) (max_safe_reorg_depth : N) : result ContinuityError unit :=
  depth_loop (finalized_height (acp_anchor p)) max_safe_reorg_depth (ancestor_hashes p).
Definition continuity_contains (p : AncestorContinuityProof) (h : HashWire) : bool :=
  existsb (fun e => bool_decide (e.2 = h)) (ancestor_hashes p).

Inductive RestartVerification :=
| Verified (anchor : FinalityAnchor) | ReorgDetected (expected : FinalityAnchor) (actual_hash : Hash) (actual_height : N)
| NoAnchor | Stale (anchor : FinalityAnchor).

(** ** Guarantees and policies (mod.rs).  [F] is the type of floating point numbers. *)

Inductive FinalityPolicy := MinConfirmations (n : N) | DeterministicCheckpoint (min_sequence : N) | EconomicSettlement.
Section Guarantees.
Context {F : Type}.
Inductive FinalityGuarantee :=
| GProbabilistic (confirmations required : N) (reorg_probability : F)
| GDeterministic (checkpoint_hash : Bytes32) (sequence : N) (quorum_weight : option N)
| GEconomic (slash_cost_usd_cents challenge_window_secs : N).
Definition meets_policy (g : FinalityGuarantee) (p : FinalityPolicy) : bool :=
  match g, p with
  | GProbabilistic confirmations _ _, MinConfirmations required => (required <=? confirmations)%N
  | GDeterministic _ sequence _, DeterministicCheckpoint min_sequence => (min_sequence <=? sequence)%N
  | GEconomic _ window, EconomicSettlement => (window =? 0)%N
  | _, _ => false
  end.
Definition guarantee_confirmations (g : FinalityGuarantee) : option N :=
  match g with GProbabilistic c _ _ => Some c | GDeterministic _ s _ => Some s | GEconomic _ _ => None end.

Record FinalityPolicyRegistry := mkPolicies { policies : gmap string FinalityPolicy }.
Definition policies_new : FinalityPolicyRegistry := mkPolicies ∅.
Definition policy_register (r : FinalityPolicyRegistry) (chain : string) (p : FinalityPolicy) : FinalityPolicyRegistry :=
  mkPolicies (<[chain := p]> (policies r)).
Definition policy_get (r : FinalityPolicyRegistry) (chain : string) : option FinalityPolicy := policies r !! chain.
Definition policy_check (r : FinalityPolicyRegistry) (chain : string) (g : FinalityGuarantee) : bool :=
  match policies r !! chain with Some p => meets_policy g p | None => false end.
End Guarantees.
Arguments FinalityGuarantee : clear implicits.

(** ** Policies of chains (policy.rs) *)

(** The percentage, a floating point number between zero and one that is only handed out, is
    written in hundredths. *)
Record FinalityThreshold := mkThreshold { min_confirmations : N; validator_percentage : N }.
(** [dyn ChainFinalityPolicy] *)
Record ChainFinalityPolicy := mkPolicy {
  policy_required : N; finality_threshold : N; is_block_finalized : N -> N -> bool
}.
(** The sum is the machine's. *)
Definition counting_policy (t : FinalityThreshold) : ChainFinalityPolicy :=
  mkPolicy (min_confirmations t) (validator_percentage t) (fun block current => (add64 block (min_confirmations t) <=? current)%N).
Definition bitcoin_policy : ChainFinalityPolicy := counting_policy (mkThreshold 6 0).
Definition ethereum_policy : ChainFinalityPolicy := counting_policy (mkThreshold 64 66).
Definition solana_policy : ChainFinalityPolicy := counting_policy (mkThreshold 32 67).
Definition aptos_policy : ChainFinalityPolicy := mkPolicy 0 67 (fun _ _ => true).

(** ** The monitor (state.rs, monitor.rs) *)

Inductive FinalityStatus := Pending | Confirmed | Finalized | RolledBack.
Global Instance FinalityStatus_eq_dec : EqDecision FinalityStatus.
Proof. solve_decision. Defined.
Record FinalityState := mkState {
  status : FinalityStatus; included_at : N; st_current_height : N; st_confirmations : N; st_required : N
}.
Definition state_new (included required : N) : FinalityState := mkState Pending included included 0 required.
(** The difference of heights is kept in 32 bits. *)
Definition state_update (s : FinalityState) (current : N) : FinalityState :=
  if (included_at s <=? current)%N then
    let c := wrap32 (current - included_at s) in
    mkState (if (st_required s <=? c)%N then Finalized else if (0 <? c)%N then Confirmed else Pending)
      (included_at s) current c (st_required s)
  else mkState RolledBack (included_at s) current (st_confirmations s) (st_required s).
Definition state_is_finalized (s : FinalityState) : bool := bool_decide (status s = Finalized).
Definition state_is_rolled_back (s : FinalityState) : bool := bool_decide (status s = RolledBack).

Record FinalityMonitor := mkMonitor { monitor_policies : gmap string ChainFinalityPolicy }.
Definition monitor_new : FinalityMonitor :=
  mkMonitor (<["aptos" := aptos_policy]> (<["ethereum" := ethereum_policy]> (<["bitcoin" := bitcoin_policy]> ∅))).
Definition register_policy (m : FinalityMonitor) (chain : string) (p : ChainFinalityPolicy) : FinalityMonitor :=
  mkMonitor (<[chain := p]> (monitor_policies m)).
Definition get_policy (m : FinalityMonitor) (chain : string) : option ChainFinalityPolicy := monitor_policies m !! chain.
Definition create_state (m : FinalityMonitor) (chain : string) (included : N) : FinalityState :=
  state_new included (default 6%N (policy_required <$> get_policy m chain)).
Definition update_state (_ : FinalityMonitor) (s : FinalityState) (current : N) : FinalityState := state_update s current.
Definition monitor_is_finalized (_ : FinalityMonitor) (s : FinalityState) : bool := state_is_finalized s.
Definition monitor_is_rolled_back (_ : FinalityMonitor) (s : FinalityState) : bool := state_is_rolled_back s.

(** ** Canonical finality types (abstraction.rs), stages and grades (chain_specific.rs) *)

Inductive FinalityKind :=
| KProbabilistic (confirmations depth : N) | KEconomic (validator_signatures : list bytes) (epoch : N)
| KCheckpoint (sequence : N) (digest : Bytes32) | KQuorum (quorum_cert : bytes) (validator_set_version : N)
| KInstant (height : N) (hash : Bytes32).
Inductive FinalityRequirement := RConfirmations (n : N) | REconomic | RCheckpoint | RQuorum | RInstant.
Definition kind_is_final (k : FinalityKind) (r : FinalityRequirement) : bool :=
  match k, r with
  | KProbabilistic _ depth, RConfirmations n => (n <=? depth)%N
  | KEconomic _ _, REconomic => true
  | KCheckpoint _ _, RCheckpoint => true
  | KQuorum _ _, RQuorum => true
  | KInstant _ _, RInstant => true
  | _, _ => false
  end.
Record KindProof := mkKindProof { kp_height : N; kp_hash : Bytes32; kp_type : FinalityKind; kp_achieved_at : N }.
Definition meets_requirement (p : KindProof) (r : FinalityRequirement) : bool := kind_is_final (kp_type p) r.

Inductive SolanaCommitmentGrade := GradeProcessed | GradeConfirmed | GradeFinalized.
Definition grade_level (g : SolanaCommitmentGrade) : N :=
  match g with GradeProcessed => 0 | GradeConfirmed => 1 | GradeFinalized => 2 end.
Definition grade_meets (g minimum : SolanaCommitmentGrade) : bool := (grade_level minimum <=? grade_level g)%N.
Inductive EthereumFinalityStage := UnsafeHead | SafeHead | Justified | StageFinalized.
Definition stage_level (s : EthereumFinalityStage) : N :=
  match s with UnsafeHead => 0 | SafeHead => 1 | Justified => 2 | StageFinalized => 3 end.
Definition stage_meets (s minimum : EthereumFinalityStage) : bool := (stage_level minimum <=? stage_level s)%N.

(** ** Lemmas *)

(** The law of verifiers: the type, then the confirmations, then how much data there is. *)
Class FinalityVerifierLaw (V : Type) `{FinalityVerifier V} := {
  min_data : nat;
  verify_finality_spec (v : V) (p : FinalityProof) :
    verify_finality v p =
    (reject negb (bool_decide (fp_type p = verifier_type v)) with InvalidProof;;
     reject (confirmations p <? verifier_confirmations v)%N with InsufficientConfirmations (confirmations p) (verifier_confirmations v);;
     reject length (finality_data p) <? min_data with InvalidFinalityData;;
     Ok true)
}.
Global Program Instance bitcoin_law : FinalityVerifierLaw BitcoinFinalityVerifier := {| min_data := 80 |}.
Next Obligation. done. Qed.
Global Program Instance ethereum_law : FinalityVerifierLaw EthereumFinalityVerifier := {| min_data := 80 |}.
Next Obligation. done. Qed.
Global Program Instance solana_law : FinalityVerifierLaw SolanaFinalityVerifier := {| min_data := 0 |}.
Next Obligation. done. Qed.
Lemma no_data_short (b : bytes) : bool_decide (b = []) = (length b <? 1).
Proof. by destruct b. Qed.
Global Program Instance sui_law : FinalityVerifierLaw SuiFinalityVerifier := {| min_data := 1 |}.
Next Obligation. intros v p. cbn -[Nat.ltb]. unfold sui_verify. by rewrite no_data_short. Qed.
Global Program Instance aptos_law : FinalityVerifierLaw AptosFinalityVerifier := {| min_data := 1 |}.
Next Obligation. intros v p. cbn -[Nat.ltb]. unfold aptos_verify. by rewrite no_data_short. Qed.

(** Entries descend one height at a time from [top]. *)
Definition descends (top : N) (l : list (N * HashWire)) : Prop :=
  forall k e, l !! k = Some e -> (e.1 + N.of_nat k)%N = top.
Lemma descends_cons top e l : descends top (e :: l) <-> e.1 = top /\ (l = [] \/ (0 < top)%N /\ descends (top - 1) l).
Proof.
  split.
  - intros H. pose proof (H 0 e eq_refl) as He. split; [lia|]. destruct l as [|e' l]; [by left|right].
    pose proof (H 1 e' eq_refl) as He'. split; [lia|]. intros k x Hk. specialize (H (S k) x Hk). lia.
  - intros [He Hl] [|k] x Hx; [injection Hx as <-; lia|]. destruct Hl as [->|[Ht Hl]]; [by destruct k|]. specialize (Hl k x Hx). lia.
Qed.
Lemma windows_loop_descends e l : windows_loop (e :: l) = Ok tt <-> descends e.1 (e :: l).
Proof.
  revert e. induction l as [|e' l IH]; intros [h x].
  - split; [|done]. intros _. apply descends_cons. naive_solver.
  - destruct e' as [h' x']. rewrite descends_cons. change (windows_loop ((h, x) :: (h', x') :: l)) with
      (reject negb (h - h' =? 1)%N with Gap h h' 1 (h - h');; windows_loop ((h', x') :: l)).
    rewrite guard_err_ok, negb_false_iff, N.eqb_eq, IH. cbn [fst]. split.
    + intros [Hh Hd]. split; [done|right]. replace (h - 1)%N with h' by lia. split; [lia|done].
    + intros [_ [?|[Hh Hd]]]; [done|]. pose proof (Hd 0 (h', x') eq_refl) as H0. cbn in H0.
      split; [lia|]. by replace (h - 1)%N with h' in Hd by lia.
Qed.
Lemma verify_contiguous_descends p e l :
  ancestor_hashes p = e :: l -> verify_contiguous p = Ok tt <-> descends e.1 (ancestor_hashes p).
Proof.
  intros Hl. unfold verify_contiguous. rewrite Hl. destruct l as [|e' l].
  - cbn. split; [|done]. intros _. apply descends_cons. naive_solver.
  - cbn [length Nat.ltb Nat.leb]. apply windows_loop_descends.
Qed.

(** The first entry whose height passes a test, where heights descend. *)
Lemma find_descends f top l k :
  descends top l -> (forall i e, i < k -> l !! i = Some e -> f e = false) -> (forall e, l !! k = Some e -> f e = true) ->
  find f l = l !! k.
Proof.
  revert top l. induction k as [|k IH]; intros top [|e l] Hd Hn Hk; [done|cbn; by rewrite (Hk e eq_refl)|done|].
  cbn. rewrite (Hn 0 e) by (done || lia). apply descends_cons in Hd as [_ [->|[_ Hd]]]; [by destruct k|].
  apply (IH (top - 1)%N); [done| |done]. intros i x Hi Hx. apply (Hn (S i)); [lia|done].
Qed.

Lemma depth_loop_ok top max l : depth_loop top max l = Ok tt <-> Forall (fun e => (top - e.1 <= max)%N) l.
Proof.
  induction l as [|[h x] l IH]; cbn [depth_loop]; [split; auto|]. rewrite guard_err_ok, N.ltb_ge, IH, Forall_cons. done.
Qed.

(** Every comparison of the goal. *)
Ltac compare_all :=
  repeat match goal with
    | |- context [(?a <=? ?b)%N] => destruct (N.leb_spec a b)
    | |- context [(?a <? ?b)%N] => destruct (N.ltb_spec a b)
    end; try split_and!; done || lia.

(** Confirmations by a counting policy, without wrap-around. *)
Lemma counting_policy_iff t block current :
  (block + min_confirmations t <= u64_max)%N ->
  is_block_finalized (counting_policy t) block current = true <-> (block + min_confirmations t <= current)%N.
Proof. intros Hb. cbn. by rewrite add64_small, N.leb_le by done. Qed.

Lemma state_update_status s current :
  (current - included_at s <= u32_max)%N ->
  status (state_update s current) =
    (if (current <? included_at s)%N then RolledBack
     else if (included_at s + st_required s <=? current)%N then Finalized
     else if (included_at s <? current)%N then Confirmed else Pending).
Proof.
  intros Hc. unfold state_update. rewrite wrap32_small by done.
  destruct (N.leb_spec (included_at s) current), (N.ltb_spec current (included_at s)); try lia; cbn [status]; [|done].
  compare_all.
Qed.

(** The status is of the last height only: a finalized transaction is rolled back by a lower
    height, and finalized again by a higher one. *)
Lemma finalized_rolls_back s low high :
  (low < included_at s)%N -> (included_at s + st_required s <= high)%N -> (high - included_at s <= u32_max)%N ->
  status (state_update s high) = Finalized /\ status (state_update (state_update s high) low) = RolledBack /\
  status (state_update (state_update (state_update s high) low) high) = Finalized.
Proof.
  intros Hl Hh Hc. assert (Hi : forall x, included_at (state_update s x) = included_at s) by (intros x; unfold state_update; by destruct (_ <=? _)%N).
  assert (Hi2 : forall x y, included_at (state_update (state_update s x) y) = included_at s).
  { intros x y. rewrite <- (Hi x). unfold state_update at 1. by destruct (included_at (state_update s x) <=? y)%N. }
  assert (Hr : forall t x, st_required (state_update t x) = st_required t) by (intros t x; unfold state_update; by destruct (_ <=? _)%N).
  rewrite !state_update_status, ?Hi, ?Hi2, !Hr by (rewrite ?Hi, ?Hi2; lia).
  compare_all.
Qed.

(** Four billion blocks on, the counter starts again and a finalized transaction is pending. *)
Lemma counter_wraps :
  status (state_update (state_new 1 6) 7) = Finalized /\ status (state_update (state_new 1 6) (1 + 2 ^ 32)) = Pending.
Proof. by vm_compute. Qed.

(** A monitor of known chains does not know Solana's policy. *)
Lemma solana_not_monitored : st_required (create_state monitor_new "solana" 0) = 6%N /\ policy_required solana_policy = 32%N.
Proof. by vm_compute. Qed.

(** A continuity proof as deep as documented, four times the depth of a safe reorganisation
    and more, is beyond the safety depth. *)
Lemma documented_depth_refused p d :
  (forall k e, ancestor_hashes p !! k = Some e -> (e.1 + N.of_nat k)%N = finalized_height (acp_anchor p)) ->
  (0 < d)%N -> (4 * d < blen (ancestor_hashes p))%N -> verify_within_safety_depth p d <> Ok tt.
Proof.
  intros Hd Hpos Hl Hv. apply depth_loop_ok in Hv. rewrite Forall_lookup in Hv.
  destruct (lookup_lt_is_Some_2 (ancestor_hashes p) (N.to_nat (4 * d))) as [e He]; [unfold blen in Hl; lia|].
  pose proof (Hv _ _ He). pose proof (Hd _ _ He). lia.
Qed.

(** Of the canonical types, only the depth of a probabilistic one is looked at. *)
Lemma unsigned_is_final epoch : kind_is_final (KEconomic [] epoch) REconomic = true.
Proof. done. Qed.

Lemma stages_total (a b c : EthereumFinalityStage) :
  stage_meets a a = true /\ (stage_meets a b = true -> stage_meets b c = true -> stage_meets a c = true) /\
  (stage_meets a b = true -> stage_meets b a = true -> a = b) /\ (stage_meets a b = true \/ stage_meets b a = true).
Proof. destruct a, b, c; vm_compute; naive_solver. Qed.
Lemma grades_total (a b c : SolanaCommitmentGrade) :
  grade_meets a a = true /\ (grade_meets a b = true -> grade_meets b c = true -> grade_meets a c = true) /\
  (grade_meets a b = true -> grade_meets b a = true -> a = b) /\ (grade_meets a b = true \/ grade_meets b a = true).
Proof. destruct a, b, c; vm_compute; naive_solver. Qed.

(** Confirmed deeper, a guarantee still meets its policy. *)
Lemma meets_policy_monotone {F} c c' r r' (q q' : F) p :
  (c <= c')%N -> meets_policy (GProbabilistic c r q) p = true -> meets_policy (GProbabilistic c' r' q') p = true.
Proof. destruct p; cbn; [|done..]. rewrite !N.leb_le. lia. Qed.

Lemma continuity_new_some chain a hs d p :
  continuity_new chain a hs d = Some p ->
  exists e l, ancestor_hashes p = e :: l /\ e.1 = finalized_height a /\ acp_anchor p = a.
Proof.
  unfold continuity_new. destruct hs as [|[h x] hs]; [done|]. destruct (N.eqb_spec h (finalized_height a)); [|done].
  intros [= <-]. by exists (h, wire_of_hash x), (map (fun e => (e.1, wire_of_hash e.2)) hs).
Qed.

Section Descending.
Context (p : AncestorContinuityProof) (Hd : descends (finalized_height (acp_anchor p)) (ancestor_hashes p)).
Local Notation top := (finalized_height (acp_anchor p)).

Lemma get_at_height_descends h :
  get_at_height p h = if (h <=? top)%N then snd <$> ancestor_hashes p !! N.to_nat (top - h) else None.
Proof.
  unfold get_at_height. destruct (N.leb_spec h top) as [Hh|Hh].
  - f_equal. apply (find_descends _ top); [done| |].
    + intros i e Hi He. specialize (Hd i e He). apply N.eqb_neq. lia.
    + intros e He. specialize (Hd _ e He). apply N.eqb_eq. lia.
  - destruct (find _ _) as [e|] eqn:He; [|done]. apply find_some in He as [Hin Heq%N.eqb_eq].
    apply list_elem_of_In, list_elem_of_lookup in Hin as [i Hi]. specialize (Hd i e Hi). lia.
Qed.
Lemma safety_hash_descends d : safety_hash p d = ancestor_hashes p !! N.to_nat (N.min d top).
Proof.
  unfold safety_hash. apply (find_descends _ top); [done| |].
  - intros i e Hi He. specialize (Hd i e He). apply N.leb_gt. lia.
  - intros e He. specialize (Hd _ e He). apply N.leb_le. lia.
Qed.
Lemma within_safety_depth_descends d :
  verify_within_safety_depth p d = Ok tt <-> (blen (ancestor_hashes p) <= d + 1)%N.
Proof.
  unfold verify_within_safety_depth. rewrite depth_loop_ok, Forall_lookup. unfold blen. split.
  - intros H. destruct (length (ancestor_hashes p)) as [|n] eqn:Hn; [lia|].
    destruct (lookup_lt_is_Some_2 (ancestor_hashes p) n) as [e He]; [lia|]. specialize (H n e He). specialize (Hd n e He). lia.
  - intros H i e He. pose proof (lookup_lt_Some _ _ _ He). specialize (Hd i e He). lia.
Qed.
End Descending.

(** ** Properties *)

(** verifiers of finality.  A verifier of any chain accepts a proof exactly when it is of
    the chain's type, confirmed as often as the verifier asks and carries enough data; it
    never answers no, and an error tells the first condition that fails. *)
Theorem finality_verifiers_exact {V} `{FinalityVerifierLaw V} (v : V) (p : FinalityProof) :
  (forall b, verify_finality v p = Ok b <->
     b = true /\ fp_type p = verifier_type v /\ (verifier_confirmations v <= confirmations p)%N /\ min_data <= length (finality_data p)) /\
  (verify_finality v p = Err InvalidProof <-> fp_type p <> verifier_type v) /\
  (verify_finality v p = Err InvalidFinalityData <->
     fp_type p = verifier_type v /\ (verifier_confirmations v <= confirmations p)%N /\ length (finality_data p) < min_data).
Proof.
  rewrite verify_finality_spec. destruct (decide (fp_type p = verifier_type v)) as [Ht|Ht].
  - rewrite (bool_decide_eq_true_2 _ Ht). cbn [negb guard_err].
    destruct (N.ltb_spec (confirmations p) (verifier_confirmations v)), (Nat.ltb_spec (length (finality_data p)) min_data);
      cbn; repeat split; intros; naive_solver (lia || eauto).
  - rewrite (bool_decide_eq_false_2 _ Ht). cbn. naive_solver.
Qed.

(** continuity of ancestors.  A continuity proof passes the check of its windows exactly
    when its heights descend one at a time from its anchor's; then an ancestor is found at
    the height it is looked up at, the safety hash is the ancestor at the safe depth (or at
    genesis) when the proof reaches it, and the proof is within a depth exactly when it is no
    longer than it. *)
Theorem continuity_exact (chain : string) (a : FinalityAnchor) (hs : list (N * Hash)) (d : N) (p : AncestorContinuityProof) :
  continuity_new chain a hs d = Some p ->
  let top := finalized_height a in
  (verify_contiguous p = Ok tt <-> descends top (ancestor_hashes p)) /\
  (verify_contiguous p = Ok tt ->
     (forall h, get_at_height p h = if (h <=? top)%N then snd <$> ancestor_hashes p !! N.to_nat (top - h) else None) /\
     (forall m, safety_hash p m = ancestor_hashes p !! N.to_nat (N.min m top)) /\
     (forall m, verify_within_safety_depth p m = Ok tt <-> (blen (ancestor_hashes p) <= m + 1)%N)).
Proof.
  intros (e & l & Hl & He & Ha)%continuity_new_some top. subst top. rewrite <- Ha in *.
  assert (Hc : verify_contiguous p = Ok tt <-> descends (finalized_height (acp_anchor p)) (ancestor_hashes p)).
  { rewrite <- He. by eapply verify_contiguous_descends. }
  split; [done|]. intros Hd%Hc. split_and!.
  - by apply get_at_height_descends.
  - by apply safety_hash_descends.
  - by apply within_safety_depth_descends.
Qed.

(** the monitor and the policies.  For a chain registered with a counting policy, and for
    any other chain with six confirmations, a transaction the monitor follows is finalized
    exactly when the policy says so of its block, and rolled back exactly when the chain is
    below its block, as long as the heights differ by 32 bits. *)
Theorem monitor_follows_policy (m : FinalityMonitor) (chain : string) (t : FinalityThreshold) (block current : N) :
  (get_policy m chain = Some (counting_policy t) \/ (get_policy m chain = None /\ min_confirmations t = 6%N)) ->
  (block + min_confirmations t <= u64_max)%N -> (current - block <= u32_max)%N ->
  let s := update_state m (create_state m chain block) current in
  monitor_is_finalized m s = is_block_finalized (counting_policy t) block current /\
  monitor_is_rolled_back m s = (current <? block)%N.
Proof.
  intros Hp Hb Hc s.
  assert (Hs : s = state_update (state_new block (min_confirmations t)) current).
  { unfold s, update_state, create_state. f_equal. f_equal. by destruct Hp as [->|[-> ->]]. }
  unfold monitor_is_finalized, monitor_is_rolled_back, state_is_finalized, state_is_rolled_back.
  rewrite Hs, state_update_status by done. cbn [included_at st_required state_new is_block_finalized counting_policy].
  rewrite add64_small by done. compare_all.
Qed.

(** ** Witnesses *)

Definition demo_finality_anchor : FinalityAnchor := anchor_new 0 "bitcoin" 7 (fill32 Byte.x07) None.
Definition demo_ancestors : list (N * Hash) := [(7%N, fill32 Byte.x07); (6%N, fill32 Byte.x06); (5%N, fill32 Byte.x05)].
Definition demo_continuity : AncestorContinuityProof :=
  default (mkContinuity "" demo_finality_anchor [] 0) (continuity_new "bitcoin" demo_finality_anchor demo_ancestors 4).

Lemma continuity_exact_witness :
  verify_contiguous demo_continuity = Ok tt /\ safety_hash demo_continuity 2 = Some (5%N, wire_of_hash (fill32 Byte.x05)).
Proof.
  assert (Hv : verify_contiguous demo_continuity = Ok tt) by reflexivity. split; [exact Hv|].
  destruct (continuity_exact "bitcoin" demo_finality_anchor demo_ancestors 4 demo_continuity eq_refl) as [_ H].
  exact (proj1 (proj2 (H Hv)) 2%N).
Defined.

Lemma monitor_follows_policy_witness :
  monitor_is_finalized monitor_new (update_state monitor_new (create_state monitor_new "bitcoin" 100) 106) = true.
Proof.
  destruct (monitor_follows_policy monitor_new "bitcoin" (mkThreshold 6 0) 100 106) as [H _].
  - left. reflexivity.
  - vm_compute. discriminate.
  - vm_compute. discriminate.
  - exact H.
Defined.
