(* ===== verification/Watch.v ===== *)
(** * Watching chains and failures (csv-protocol: monitor.rs, invariants.rs, failure_domains.rs)

    The tracker of chain tips and the tracker of publications that wait for confirmation; the
    bounded queue and the circuit breaker of the protocol crate; the classification of errors
    with the count of them per domain.  A queue is a list that refuses to grow; the breaker
    is watched along any run of failures, successes and requests, with the time of each. *)

From stdpp Require Import fin_map_dom.
From S2P Require Import Prelude Ord Bytes Text.

(** ** Tips (monitor.rs) *)

Record ReorgEvent := mkReorg { re_chain : string; fork_height : N; re_depth : N; old_tip : Bytes32; new_tip : Bytes32 }.
Record ReorgMonitor := mkReorgMonitor { tips : gmap string (N * Bytes32); reorgs : list ReorgEvent }.
Definition reorg_monitor_new : ReorgMonitor := mkReorgMonitor ∅ [].
Definition update_tip (m : ReorgMonitor) (chain : string) (height : N) (tip_hash : Bytes32) : ReorgMonitor * option ReorgEvent :=
  let tips' := <[chain := (height, tip_hash)]> (tips m) in
  match tips m !! chain with
  | Some (prev_height, prev_hash) =>
      if (height <=? prev_height)%N then
        let event := mkReorg chain height (add64 (prev_height - height) 1) prev_hash tip_hash in
        (mkReorgMonitor tips' (reorgs m ++ [event]), Some event)
      else (mkReorgMonitor tips' (reorgs m), None)
  | None => (mkReorgMonitor tips' (reorgs m), None)
  end.
Definition recent_reorgs (m : ReorgMonitor) (chain : string) : list ReorgEvent :=
  filter (fun r => re_chain r = chain) (reorgs m).
Definition tip (m : ReorgMonitor) (chain : string) : option (N * Bytes32) := tips m !! chain.

(** ** Publications (monitor.rs) *)

Record PendingPublication := mkPending { pp_tx_hash : bytes; pp_commitment : Bytes32; submitted_at : N }.
Record PublicationTracker := mkTracker { pending : gmap string (list PendingPublication); timeout_seconds : N }.
Definition tracker_new (timeout : N) : PublicationTracker := mkTracker ∅ timeout.
Definition of_chain (t : PublicationTracker) (chain : string) : list PendingPublication := default [] (pending t !! chain).
Definition track_publication (t : PublicationTracker) (chain : string) (tx : bytes) (commitment : Bytes32) (now : N) : PublicationTracker :=
  mkTracker (<[chain := of_chain t chain ++ [mkPending tx commitment now]]> (pending t)) (timeout_seconds t).
Definition confirm_publication (t : PublicationTracker) (chain : string) (tx : bytes) : PublicationTracker * bool :=
  match pending t !! chain with
  | Some l =>
      let kept := filter (fun p => pp_tx_hash p <> tx) l in
      (mkTracker (<[chain := kept]> (pending t)) (timeout_seconds t), length kept <? length l)
  | None => (t, false)
  end.
Definition tracker_timed_out (t : PublicationTracker) (chain : string) (now : N) : list PendingPublication :=
  match pending t !! chain with
  | Some l => filter (fun p => (timeout_seconds t < now - submitted_at p)%N) l
  | None => []
  end.
Definition pending_count (t : PublicationTracker) (chain : string) : nat :=
  match pending t !! chain with Some l => length l | None => 0 end.
Definition clear_chain (t : PublicationTracker) (chain : string) : PublicationTracker :=
  mkTracker (delete chain (pending t)) (timeout_seconds t).

(** ** Bounded queues, limits (invariants.rs) *)

Definition MAX_SEAL_NULLIFIER_SIZE : nat := 1000.
Definition MAX_CACHE_SIZE : nat := 1000.
Definition MAX_REGISTRY_SIZE : N := 10000.
Definition DEFAULT_RPC_TIMEOUT_SECS : N := 30.
Definition DEFAULT_HEALTH_CHECK_TIMEOUT_SECS : N := 5.
Definition DEFAULT_CIRCUIT_MAX_FAILURES : N := 5.
Definition DEFAULT_CIRCUIT_RESET_TIMEOUT_SECS : N := 60.
Inductive InvariantViolation :=
| ProofSizeExceeded | FinalityDataSizeExceeded | SignaturesSizeExceeded | ProofBundleSizeExceeded
| InsufficientConfirmations | ProofExpired | InvalidStateTransition | ReplayDetected.
Record TimeoutConfig := mkTimeouts { rpc_call : N; health_check : N }.
Definition default_timeouts : TimeoutConfig := mkTimeouts DEFAULT_RPC_TIMEOUT_SECS DEFAULT_HEALTH_CHECK_TIMEOUT_SECS.
Record MemoryLimits := mkLimits { cache_size : nat; registry_size : N }.
Definition default_limits : MemoryLimits := mkLimits MAX_CACHE_SIZE MAX_REGISTRY_SIZE.

Record BoundedQueue (T : Type) := mkQueue { queue : list T; max_size : nat }.
Arguments mkQueue {T}. Arguments queue {T}. Arguments max_size {T}.
Section Queue.
Context {T : Type}.
Definition queue_new (max : nat) : BoundedQueue T := mkQueue [] max.
Definition queue_default : BoundedQueue T := queue_new MAX_SEAL_NULLIFIER_SIZE.
Definition push (q : BoundedQueue T) (x : T) : BoundedQueue T * bool :=
  if max_size q <=? length (queue q) then (q, false) else (mkQueue (queue q ++ [x]) (max_size q), true).
Definition pop (q : BoundedQueue T) : BoundedQueue T * option T :=
  match queue q with [] => (q, None) | x :: l => (mkQueue l (max_size q), Some x) end.
Definition queue_len (q : BoundedQueue T) : nat := length (queue q).
Definition queue_is_empty (q : BoundedQueue T) : bool := match queue q with [] => true | _ => false end.
Definition is_full (q : BoundedQueue T) : bool := max_size q <=? length (queue q).
End Queue.

(** ** The circuit breaker (invariants.rs); [now_secs] is an argument *)

Inductive CircuitState := Closed | Open | HalfOpen.
Global Instance CircuitState_eq_dec : EqDecision CircuitState.
Proof. solve_decision. Defined.
Record CircuitBreaker := mkBreaker {
  failure_count : N; max_failures : N; last_failure_time : N; reset_timeout_secs : N; cb_state : CircuitState
}.
Definition breaker_new (max reset : N) : CircuitBreaker := mkBreaker 0 max 0 reset Closed.
Definition breaker_default : CircuitBreaker := breaker_new DEFAULT_CIRCUIT_MAX_FAILURES DEFAULT_CIRCUIT_RESET_TIMEOUT_SECS.
Definition record_failure (now : N) (b : CircuitBreaker) : CircuitBreaker :=
  let n := add64 (failure_count b) 1 in
  mkBreaker n (max_failures b) now (reset_timeout_secs b) (if (max_failures b <=? n)%N then Open else cb_state b).
Definition record_success (b : CircuitBreaker) : CircuitBreaker :=
  mkBreaker 0 (max_failures b) (last_failure_time b) (reset_timeout_secs b) Closed.
Definition half_open (b : CircuitBreaker) : CircuitBreaker :=
  mkBreaker (failure_count b) (max_failures b) (last_failure_time b) (reset_timeout_secs b) HalfOpen.
Definition allow_request (now : N) (b : CircuitBreaker) : CircuitBreaker * bool :=
  match cb_state b with
  | Closed => (b, true)
  | Open =>
      if (0 <? last_failure_time b)%N then
        let elapsed := (now - last_failure_time b)%N in
        if (reset_timeout_secs b <? elapsed)%N then (half_open b, true) else (b, false)
      else (half_open b, true)
  | HalfOpen => (b, true)
  end.

(** ** Failure domains (failure_domains.rs).  Durations are in seconds; the multiplier of a
    backoff, a floating point number, is a natural number in the only value there is. *)

Inductive FailureDomain := Transient | Permanent | Recoverable | Catastrophic.
Global Instance FailureDomain_eq_dec : EqDecision FailureDomain.
Proof. solve_decision. Defined.
Definition domain_code (d : FailureDomain) : nat := match d with Transient => 0 | Permanent => 1 | Recoverable => 2 | Catastrophic => 3 end.
Definition domain_of_code (n : nat) : option FailureDomain :=
  match n with 0 => Some Transient | 1 => Some Permanent | 2 => Some Recoverable | _ => Some Catastrophic end.
Lemma domain_of_domain_code d : domain_of_code (domain_code d) = Some d.
Proof. by destruct d. Qed.
Global Instance FailureDomain_countable : Countable FailureDomain := inj_countable domain_code domain_of_code domain_of_domain_code.
Inductive RetryStrategy :=
| NoRetry | ExponentialBackoff (initial_delay max_delay multiplier max_attempts : N) | RecoveryProcedure | EmergencyShutdown.
Definition retry_strategy (d : FailureDomain) : RetryStrategy :=
  match d with
  | Transient => ExponentialBackoff 1 60 2 5
  | Recoverable => RecoveryProcedure
  | Permanent => NoRetry
  | Catastrophic => EmergencyShutdown
  end.
Inductive Component :=
| ChainAdapter (s : string) | CRuntime | CVerifier | CStorage | CNetwork | CCrypto | CContract | CUnknown.
Record ErrorContext := mkContext {
  ec_chain_id : option string; ec_tx_hash : option string; ec_block_number : option N; ec_metadata : list (string * string)
}.
Definition context_default : ErrorContext := mkContext None None None [].
Record ClassifiedError := mkClassified {
  ce_code : string; ce_message : string; ce_domain : FailureDomain; ce_component : Component; ce_timestamp : N; ce_context : ErrorContext
}.
Definition classified_new (now : N) (code message : string) (d : FailureDomain) (c : Component) : ClassifiedError :=
  mkClassified code message d c now context_default.
Definition with_context (e : ClassifiedError) (c : ErrorContext) : ClassifiedError :=
  mkClassified (ce_code e) (ce_message e) (ce_domain e) (ce_component e) (ce_timestamp e) c.
Definition with_chain_id (e : ClassifiedError) (chain : string) : ClassifiedError :=
  let c := ce_context e in with_context e (mkContext (Some chain) (ec_tx_hash c) (ec_block_number c) (ec_metadata c)).
Definition with_tx_hash (e : ClassifiedError) (tx : string) : ClassifiedError :=
  let c := ce_context e in with_context e (mkContext (ec_chain_id c) (Some tx) (ec_block_number c) (ec_metadata c)).
Definition with_block_number (e : ClassifiedError) (n : N) : ClassifiedError :=
  let c := ce_context e in with_context e (mkContext (ec_chain_id c) (ec_tx_hash c) (Some n) (ec_metadata c)).
Definition with_metadata (e : ClassifiedError) (k v : string) : ClassifiedError :=
  let c := ce_context e in with_context e (mkContext (ec_chain_id c) (ec_tx_hash c) (ec_block_number c) (ec_metadata c ++ [(k, v)])).
Definition error_retry_strategy (e : ClassifiedError) : RetryStrategy := retry_strategy (ce_domain e).
Definition is_retryable (e : ClassifiedError) : bool := match ce_domain e with Transient | Recoverable => true | _ => false end.
Definition requires_emergency_shutdown (e : ClassifiedError) : bool := bool_decide (ce_domain e = Catastrophic).

(** [str::contains] *)
Fixpoint str_contains (sub s : string) : bool :=
  String.prefix sub s || match s with EmptyString => false | String _ s => str_contains sub s end.
Definition classify_domain (error_str : string) : FailureDomain :=
  if str_contains "timeout" error_str || str_contains "network" error_str then Transient
  else if str_contains "insufficient" error_str || str_contains "invalid" error_str then Permanent
  else if str_contains "replay" error_str || str_contains "double-spend" error_str then Recoverable
  else if str_contains "corruption" error_str || str_contains "integrity" error_str then Catastrophic
  else Permanent.
(** [DefaultErrorClassifier::classify], of an error by its text *)
Definition classify (now : N) (error : string) : ClassifiedError :=
  let error_str := to_lowercase error in classified_new now error_str error (classify_domain error_str) CUnknown.

Record ErrorStats := mkStats { total_count : N; recent_count : N; last_error_timestamp : option N }.
Definition stats_default : ErrorStats := mkStats 0 0 None.
Record FailureDomainRegistry := mkRegistry { stats : gmap FailureDomain ErrorStats }.
Definition failures_new : FailureDomainRegistry := mkRegistry ∅.
Definition record_error (r : FailureDomainRegistry) (e : ClassifiedError) : FailureDomainRegistry :=
  let s := default stats_default (stats r !! ce_domain e) in
  mkRegistry (<[ce_domain e := mkStats (add64 (total_count s) 1) (add64 (recent_count s) 1) (Some (ce_timestamp e))]> (stats r)).
Definition get_stats (r : FailureDomainRegistry) (d : FailureDomain) : option ErrorStats := stats r !! d.
Definition is_elevated (r : FailureDomainRegistry) (d : FailureDomain) (threshold : N) : bool :=
  default false ((fun s => (threshold <? recent_count s)%N) <$> stats r !! d).
Definition reset_recent (r : FailureDomainRegistry) : FailureDomainRegistry :=
  mkRegistry ((fun s => mkStats (total_count s) 0 (last_error_timestamp s)) <$> stats r).

(** ** Runs *)

Inductive tracker_op := Track (chain : string) (p : PendingPublication) | Confirm (chain : string) (tx : bytes) | Clear (chain : string).
Definition tracker_step (t : PublicationTracker) (o : tracker_op) : PublicationTracker :=
  match o with
  | Track chain p => track_publication t chain (pp_tx_hash p) (pp_commitment p) (submitted_at p)
  | Confirm chain tx => fst (confirm_publication t chain tx)
  | Clear chain => clear_chain t chain
  end.
Definition tracker_run (timeout : N) (ops : list tracker_op) : PublicationTracker := fold_left tracker_step ops (tracker_new timeout).
(** An operation that ends the wait of a publication. *)
Definition ends (chain : string) (p : PendingPublication) (o : tracker_op) : Prop :=
  o = Confirm chain (pp_tx_hash p) \/ o = Clear chain.

Inductive queue_op (T : Type) := Push (x : T) | Pop.
Arguments Push {T}. Arguments Pop {T}.
(** The queue after an operation, with what was accepted and what was popped. *)
Definition queue_step {T} (s : BoundedQueue T * list T * list T) (o : queue_op T) : BoundedQueue T * list T * list T :=
  let '(q, accepted, popped) := s in
  match o with
  | Push x => let '(q', b) := push q x in (q', if b then accepted ++ [x] else accepted, popped)
  | Pop => let '(q', x) := pop q in (q', accepted, popped ++ option_list x)
  end.
Definition queue_run {T} (max : nat) (ops : list (queue_op T)) : BoundedQueue T * list T * list T :=
  fold_left queue_step ops (queue_new max, [], []).

Inductive breaker_op := Failure (now : N) | Success | Request (now : N).
Definition breaker_step (b : CircuitBreaker) (o : breaker_op) : CircuitBreaker :=
  match o with Failure now => record_failure now b | Success => record_success b | Request now => fst (allow_request now b) end.
Definition breaker_run (max reset : N) (ops : list breaker_op) : CircuitBreaker := fold_left breaker_step ops (breaker_new max reset).
(** The failures since the last success, and the time of the last one. *)
Definition failures_of (s : N * N) (o : breaker_op) : N * N :=
  match o with Failure now => (s.1 + 1, now)%N | Success => (0, s.2)%N | Request _ => s end.
Definition failures (ops : list breaker_op) : N * N := fold_left failures_of ops (0, 0)%N.

Inductive failure_op := Recorded (e : ClassifiedError) | Reset.
Definition failure_step (r : FailureDomainRegistry) (o : failure_op) : FailureDomainRegistry :=
  match o with Recorded e => record_error r e | Reset => reset_recent r end.
Definition failure_run (ops : list failure_op) : FailureDomainRegistry := fold_left failure_step ops failures_new.
(** Errors of a domain in a run: all of them, those since the last reset, the last time. *)
Definition count_step (d : FailureDomain) (s : N * N * option N) (o : failure_op) : N * N * option N :=
  let '(total, recent, last) := s in
  match o with
  | Recorded e => if decide (ce_domain e = d) then (total + 1, recent + 1, Some (ce_timestamp e))%N else s
  | Reset => (total, 0%N, last)
  end.
Definition counts (d : FailureDomain) (ops : list failure_op) : N * N * option N := fold_left (count_step d) ops (0%N, 0%N, None).

(** ** Lemmas *)

Lemma of_chain_track t c c' p :
  of_chain (tracker_step t (Track c p)) c' = of_chain t c' ++ (if decide (c = c') then [p] else []).
Proof.
  unfold of_chain, tracker_step, track_publication. cbn [pending]. destruct (decide (c = c')) as [<-|Hc].
  - rewrite lookup_insert_eq. cbn. by destruct p.
  - by rewrite lookup_insert_ne, app_nil_r.
Qed.
Lemma of_chain_confirm t c c' tx :
  of_chain (tracker_step t (Confirm c tx)) c' =
  if decide (c = c') then filter (fun p => pp_tx_hash p <> tx) (of_chain t c') else of_chain t c'.
Proof.
  unfold of_chain, tracker_step, confirm_publication. destruct (pending t !! c) as [l|] eqn:Hl; cbn [fst pending]; destruct (decide (c = c')) as [<-|Hc].
  - by rewrite lookup_insert_eq, Hl.
  - by rewrite lookup_insert_ne.
  - by rewrite Hl.
  - done.
Qed.
Lemma of_chain_clear t c c' :
  of_chain (tracker_step t (Clear c)) c' = if decide (c = c') then [] else of_chain t c'.
Proof.
  unfold of_chain, tracker_step, clear_chain. cbn [pending]. destruct (decide (c = c')) as [<-|Hc]; [by rewrite lookup_delete_eq|by rewrite lookup_delete_ne].
Qed.
Lemma tracker_run_snoc timeout ops o : tracker_run timeout (ops ++ [o]) = tracker_step (tracker_run timeout ops) o.
Proof. unfold tracker_run. by rewrite fold_left_app. Qed.

(** The tip that is already known counts as a reorganisation of one block, and a fork that
    is longer than the known chain does not. *)
Lemma same_tip_is_reorg m chain h x :
  tip m chain = Some (h, x) -> snd (update_tip m chain h x) = Some (mkReorg chain h 1 x x).
Proof. unfold tip, update_tip. intros ->. by rewrite N.leb_refl, N.sub_diag. Qed.
Lemma longer_fork_unseen m chain h h' x y : tip m chain = Some (h, x) -> (h < h')%N -> snd (update_tip m chain h' y) = None.
Proof. unfold tip, update_tip. intros -> Hh. by rewrite (proj2 (N.leb_gt _ _)). Qed.

(** A breaker that is half open lets any number of requests through. *)
Lemma half_open_unlimited b nows : cb_state b = HalfOpen -> Forall (fun now => allow_request now b = (b, true)) nows.
Proof. intros Hb. apply Forall_forall. intros now _. unfold allow_request. by rewrite Hb. Qed.

Lemma breaker_run_snoc max reset ops o : breaker_run max reset (ops ++ [o]) = breaker_step (breaker_run max reset ops) o.
Proof. unfold breaker_run. by rewrite fold_left_app. Qed.
Lemma failures_snoc ops o : failures (ops ++ [o]) = failures_of (failures ops) o.
Proof. unfold failures. by rewrite fold_left_app. Qed.
Lemma failures_bound ops : ((failures ops).1 <= N.of_nat (length ops))%N.
Proof.
  induction ops as [|o ops IH] using rev_ind; [done|]. rewrite failures_snoc, length_app. cbn [length].
  destruct o; cbn [failures_of fst]; lia.
Qed.

(** The breaker counts the failures since the last success; it is closed below the limit. *)
Lemma breaker_run_state max reset ops :
  (0 < max)%N -> (N.of_nat (length ops) <= u64_max)%N ->
  let b := breaker_run max reset ops in
  failure_count b = (failures ops).1 /\ last_failure_time b = (failures ops).2 /\ max_failures b = max /\ reset_timeout_secs b = reset /\
  (cb_state b = Closed <-> (failures ops).1 < max)%N.
Proof.
  intros Hm. induction ops as [|o ops IH] using rev_ind; intros Hlen; [cbn; naive_solver lia|].
  rewrite length_app in Hlen. cbn [length] in Hlen. destruct IH as (Hc & Ht & Hx & Hr & Hs); [lia|].
  rewrite breaker_run_snoc, failures_snoc. pose proof (failures_bound ops).
  set (b := breaker_run max reset ops) in *. destruct o as [now| |now]; cbn [breaker_step failures_of fst snd].
  - unfold record_failure. cbn [failure_count last_failure_time max_failures reset_timeout_secs cb_state].
    rewrite Hc, Hx, add64_small by lia. split_and!; try done. destruct (N.leb_spec max ((failures ops).1 + 1)); [split; [done|lia]|].
    rewrite Hs. lia.
  - cbn. naive_solver lia.
  - unfold allow_request, half_open. destruct (cb_state b) eqn:Eb; [cbn; rewrite Eb; naive_solver| |cbn; rewrite Eb; naive_solver].
    assert (~ ((failures ops).1 < max)%N) by (intros ?%Hs; done).
    repeat case_match; cbn; rewrite ?Eb; split_and!; try done; (split; [done|lia]).
Qed.

Lemma counts_step d r ops o :
  (N.of_nat (length (ops ++ [o])) <= u64_max)%N ->
  (let '(total, recent, last) := counts d ops in
   (recent <= total <= N.of_nat (length ops))%N /\
   default stats_default (stats r !! d) = mkStats total recent last) ->
  let '(total, recent, last) := counts d (ops ++ [o]) in
  (recent <= total <= N.of_nat (length (ops ++ [o])))%N /\
  default stats_default (stats (failure_step r o) !! d) = mkStats total recent last.
Proof.
  unfold counts. rewrite fold_left_app. cbn [fold_left]. rewrite length_app. cbn [length].
  destruct (fold_left (count_step d) ops _) as [[total recent] last]. intros Hlen [Hle Hs]. destruct o as [e|]; cbn [count_step failure_step].
  - unfold record_error. cbn [stats]. destruct (decide (ce_domain e = d)) as [<-|Hd].
    + split; [lia|]. rewrite lookup_insert_eq, Hs. cbn. by rewrite !add64_small by lia.
    + rewrite lookup_insert_ne by done. split; [lia|done].
  - split; [lia|]. unfold reset_recent. cbn [stats]. rewrite lookup_fmap. by destruct (stats r !! d) as [s|]; cbn in *; rewrite ?Hs; [|injection Hs as <- <- <-].
Qed.

(** ** Properties *)

(** tips.  Whatever the monitor knows, the tip becomes the one that is reported; a
    reorganisation is answered exactly when the chain was known at that height or above, with
    the old tip and the depth to it, and it is remembered; other chains are untouched. *)
Theorem update_tip_exact (m : ReorgMonitor) (chain c : string) (height : N) (x : Bytes32) :
  let '(m', answer) := update_tip m chain height x in
  tip m' chain = Some (height, x) /\ (c <> chain -> tip m' c = tip m c) /\
  reorgs m' = reorgs m ++ option_list answer /\
  (forall e, answer = Some e <->
     exists h y, tip m chain = Some (h, y) /\ (height <= h)%N /\ e = mkReorg chain height (add64 (h - height) 1) y x).
Proof.
  unfold update_tip, tip. destruct (tips m !! chain) as [[h y]|] eqn:Ht; [destruct (N.leb_spec height h)|]; cbn [tips reorgs option_list];
    (split; [by rewrite lookup_insert_eq|]; split; [intros; by rewrite lookup_insert_ne|]; split; [by rewrite ?app_nil_r|]);
    intros e; split; try done.
  - intros [= <-]. by exists h, y.
  - intros (h' & y' & [= <- <-] & _ & ->). done.
  - intros (h' & y' & [= <- <-] & ? & _). lia.
  - by intros (? & ? & ? & _).
Qed.

(** publications.  Along any run a publication waits for confirmation exactly when it was
    tracked and, since, neither a confirmation of its transaction nor a clearing of its chain
    has come; it has timed out when it has waited longer than the timeout. *)
Theorem publications_exact (timeout : N) (ops : list tracker_op) (chain : string) (p : PendingPublication) :
  let t := tracker_run timeout ops in
  (p ∈ of_chain t chain <->
     exists before after, ops = before ++ Track chain p :: after /\ Forall (fun o => ~ ends chain p o) after) /\
  (forall now, p ∈ tracker_timed_out t chain now <-> p ∈ of_chain t chain /\ (timeout < now - submitted_at p)%N) /\
  pending_count t chain = length (of_chain t chain).
Proof.
  intros t. assert (Hto : timeout_seconds t = timeout).
  { unfold t. induction ops as [|o ops IH] using rev_ind; [done|]. rewrite tracker_run_snoc.
    destruct o as [c q|c tx|c]; cbn; [done| |done]. unfold confirm_publication. by destruct (pending _ !! c). }
  split_and!.
  - unfold t. clear t Hto. induction ops as [|o ops IH] using rev_ind.
    + split; [by intros ?%elem_of_nil|]. intros (before & after & H & _). by destruct before.
    + rewrite tracker_run_snoc.
      assert (Hkeep : (p ∈ of_chain (tracker_run timeout ops) chain /\ ~ ends chain p o) \/ o = Track chain p <->
        exists before after, ops ++ [o] = before ++ Track chain p :: after /\ Forall (fun o => ~ ends chain p o) after).
      { rewrite IH. split.
        - intros [[(before & after & -> & Ha) Ho]| ->]; [|by exists ops, []].
          exists before, (after ++ [o]). rewrite <- app_assoc. split; [done|]. apply Forall_app. by split; [|apply Forall_singleton].
        - intros (before & after & Heq & Ha). destruct (exists_last (l := Track chain p :: after)) as (after' & o' & Hl); [done|].
          rewrite Hl, app_assoc in Heq. apply app_inj_tail in Heq as [Heq <-]. destruct after' as [|x after'].
          + injection Hl as <- ->. by right.
          + injection Hl as <- ->. left. rewrite Forall_app, Forall_singleton in Ha. destruct Ha as [Ha Ho].
            split; [|done]. exists before, after'. by split. }
      rewrite <- Hkeep. unfold ends. destruct o as [c q|c tx|c].
      * rewrite of_chain_track, elem_of_app. destruct (decide (c = chain)) as [->|Hc].
        -- rewrite list_elem_of_singleton. naive_solver.
        -- rewrite elem_of_nil. naive_solver.
      * rewrite of_chain_confirm. destruct (decide (c = chain)) as [->|Hc]; [rewrite list_elem_of_filter|]; naive_solver.
      * rewrite of_chain_clear. destruct (decide (c = chain)) as [->|Hc]; [rewrite elem_of_nil|]; naive_solver.
  - intros now. unfold tracker_timed_out, of_chain. rewrite Hto. destruct (pending t !! chain); cbn; [rewrite list_elem_of_filter; tauto|].
    rewrite elem_of_nil. tauto.
  - unfold pending_count, of_chain. by destruct (pending t !! chain).
Qed.

(** bounded queues.  Along any run of pushes and pops what was accepted comes out in
    order: it is what was popped and then what is still there; the queue never holds more
    than its bound. *)
Theorem queue_fifo {T} (max : nat) (ops : list (queue_op T)) :
  let '(q, accepted, popped) := queue_run max ops in
  accepted = popped ++ queue q /\ length (queue q) <= max /\ max_size q = max.
Proof.
  unfold queue_run. induction ops as [|o ops IH] using rev_ind; [cbn; split_and!; done || lia|].
  rewrite fold_left_app. cbn [fold_left]. destruct (fold_left queue_step ops _) as [[q accepted] popped]. destruct IH as (-> & Hl & Hm).
  destruct o as [x|]; cbn [queue_step].
  - unfold push. rewrite Hm. destruct (Nat.leb_spec max (length (queue q))) as [|Hlt]; [done|]. cbn [queue max_size].
    rewrite length_app, <- app_assoc. cbn. split_and!; done || lia.
  - unfold pop. destruct (queue q) as [|x l] eqn:Hq; cbn [queue max_size option_list]; rewrite ?Hq, ?app_nil_r; cbn in *; [done|].
    rewrite <- app_assoc. split_and!; done || lia.
Qed.

(** the breaker.  Along any run, a request is refused exactly when the breaker is open,
    the last failure has a time, and no more than the timeout has passed since; below the
    limit of failures since the last success every request passes; a failure opens the
    breaker exactly when it reaches the limit. *)
Theorem breaker_exact (max reset : N) (ops : list breaker_op) (now : N) :
  (0 < max)%N -> (N.of_nat (length ops) < u64_max)%N ->
  let b := breaker_run max reset ops in
  let '(n, last) := failures ops in
  (snd (allow_request now b) = false <-> cb_state b = Open /\ (0 < last)%N /\ (now - last <= reset)%N) /\
  ((n < max)%N -> snd (allow_request now b) = true) /\
  (forall later, cb_state (record_failure later b) = Open <-> (max <= n + 1)%N).
Proof.
  intros Hm Hlen b. destruct (breaker_run_state max reset ops) as (Hc & Ht & Hx & Hr & Hs); [done|lia|]. fold b in Hc, Ht, Hx, Hr, Hs.
  pose proof (failures_bound ops) as Hb. destruct (failures ops) as [n last]. cbn [fst snd] in *. split_and!.
  - unfold allow_request. rewrite Ht, Hr. destruct (cb_state b); cbn; [naive_solver| |naive_solver].
    destruct (N.ltb_spec 0 last), (N.ltb_spec reset (now - last)); cbn; split; try done; try lia; intros (_ & ? & ?); lia.
  - intros Hn. apply Hs in Hn. unfold allow_request. by rewrite Hn.
  - intros later. unfold record_failure. cbn [cb_state]. rewrite Hc, Hx, add64_small by lia.
    destruct (N.leb_spec max (n + 1)) as [|Hlt]; [done|]. assert (cb_state b = Closed) as -> by (apply Hs; lia). split; [done|lia].
Qed.

(** errors by domain.  The registry's numbers of a domain are those of the run: how many
    errors, how many since the last reset, and when the last one was. *)
Theorem failures_counted (d : FailureDomain) (ops : list failure_op) :
  (N.of_nat (length ops) <= u64_max)%N ->
  let '(total, recent, last) := counts d ops in
  default stats_default (get_stats (failure_run ops) d) = mkStats total recent last /\
  (forall threshold, is_elevated (failure_run ops) d threshold = (threshold <? recent)%N).
Proof.
  intros Hlen. assert (H : let '(total, recent, last) := counts d ops in (recent <= total <= N.of_nat (length ops))%N /\
    default stats_default (stats (failure_run ops) !! d) = mkStats total recent last).
  { induction ops as [|o ops IH] using rev_ind; [cbn; split; [lia|done]|]. unfold failure_run. rewrite fold_left_app. cbn [fold_left].
    apply counts_step; [done|]. apply IH. rewrite length_app in Hlen. lia. }
  destruct (counts d ops) as [[total recent] last]. destruct H as [_ H]. split; [done|]. intros threshold. unfold is_elevated.
  destruct (stats (failure_run ops) !! d) as [s|]; cbn in *; [by rewrite H|]. injection H as <- <- <-. symmetry. apply N.ltb_ge. lia.
Qed.

(** ** Witnesses *)

Definition demo_breaker_ops : list breaker_op := [Failure 100; Failure 101; Request 102].
Lemma breaker_exact_witness : snd (allow_request 105 (breaker_run 2 10 demo_breaker_ops)) = false.
Proof.
  pose proof (breaker_exact 2 10 demo_breaker_ops 105 ltac:(lia) ltac:(vm_compute; reflexivity)) as H.
  destruct H as [H _]. apply H. split; [reflexivity|]. split; [lia|vm_compute; discriminate].
Defined.
Definition demo_error : ClassifiedError := classify 9 "Network timeout".
Lemma failures_counted_witness :
  default stats_default (get_stats (failure_run [Recorded demo_error; Reset]) Transient) = mkStats 1 0 (Some 9%N).
Proof. destruct (failures_counted Transient [Recorded demo_error; Reset]) as [H _]; [vm_compute; discriminate|exact H]. Defined.
