(* ===== verification/Events.v ===== *)
(** * Events (csv-protocol/src/events.rs)

    The events that adapters emit and indexers store, each under a name; the registry that
    hands an event to every indexer in turn and gathers the answers of all of them; the line a
    formatter writes to a log; the canonical events of contracts with the text their signature
    hashes, and the encoders of four chains, which are one encoder.  An event that the
    constructors build is named after its data; a line of the log does not tell events apart. *)

From S2P Require Import Prelude Ord Bytes Hashing Text Seal.

(** ** Events *)

Definition SANAD_CREATED : string := "SanadCreated".
Definition SANAD_CONSUMED : string := "SanadConsumed".
Definition SANAD_TRANSFERRED : string := "SanadTransferred".
Definition CROSS_CHAIN_LOCK : string := "CrossChainLock".
Definition CROSS_CHAIN_MINT : string := "CrossChainMint".
Definition CROSS_CHAIN_REFUND : string := "CrossChainRefund".
Definition NULLIFIER_REGISTERED : string := "NullifierRegistered".
Definition SANAD_METADATA_RECORDED : string := "SanadMetadataRecorded".
Definition PROOF_ACCEPTED : string := "ProofAccepted".
Definition PROOF_REJECTED : string := "ProofRejected".
Definition REPLAY_DETECTED : string := "ReplayDetected".
Definition RPC_DISAGREEMENT : string := "RpcDisagreement".
Definition REORG_DETECTED : string := "ReorgDetected".
Definition ROLLBACK_EXECUTED : string := "RollbackExecuted".
Definition MINT_COMPROMISED : string := "MintCompromised".

Inductive EventData :=
| SanadCreated (sanad_id : SanadIdWire) (owner : string) (commitment : HashWire) (asset_class asset_id : string) (metadata : option (gmap string string))
| SanadConsumed (sanad_id : SanadIdWire) (nullifier : HashWire) (consumed_by : string)
| SanadTransferred (sanad_id : SanadIdWire) (from to : string) (metadata : option (gmap string string))
| CrossChainLock (sanad_id : SanadIdWire) (source_chain destination_chain destination_owner : string) (proof_hash : HashWire)
| CrossChainMint (sanad_id : SanadIdWire) (source_chain : string) (source_sanad_id : SanadIdWire) (owner : string) (proof_hash : HashWire)
| CrossChainRefund (sanad_id : SanadIdWire) (source_chain destination_chain refunded_to : string)
| NullifierRegistered (sanad_id : SanadIdWire) (nullifier : HashWire) (chain : string)
| SanadMetadataRecorded (sanad_id : SanadIdWire) (metadata : gmap string string)
| ProofAccepted (proof_hash : HashWire) (chain validator : string)
| ProofRejected (proof_hash : HashWire) (chain reason : string)
| ReplayDetected (proof_hash : HashWire) (chain : string) (original_timestamp replay_timestamp : N)
| RpcDisagreement (chain rpc_method : string) (providers : list string) (disagreement_type : string)
| ReorgDetected (chain : string) (old_height new_height depth : N)
| RollbackExecuted (chain : string) (from_height to_height transfers_affected : N)
| MintCompromised (sanad_id : SanadIdWire) (chain compromise_type details : string).
Record CsvEvent := mkEvent {
  event_type : string; ev_chain : string; block_height : N; ev_tx_hash : string; ev_timestamp : N; data : EventData;
  ev_metadata : option (gmap string string); correlation_id : option string; transfer_id : option string; operation_id : option string
}.
(** What the constructors have in common. *)
Definition base_event (type chain : string) (block_height : N) (tx_hash : string) (timestamp : N) (d : EventData) : CsvEvent :=
  mkEvent type chain block_height tx_hash timestamp d None None None None.
Definition sanad_created (chain : string) (block_height : N) (tx_hash : string) (timestamp : N) (sanad_id : SanadIdWire) (owner : string) (commitment : HashWire) (asset_class asset_id : string) (metadata : option (gmap string string)) : CsvEvent :=
  base_event SANAD_CREATED chain block_height tx_hash timestamp (SanadCreated sanad_id owner commitment asset_class asset_id metadata).
Definition sanad_consumed (chain : string) (block_height : N) (tx_hash : string) (timestamp : N) (sanad_id : SanadIdWire) (nullifier : HashWire) (consumed_by : string) : CsvEvent :=
  base_event SANAD_CONSUMED chain block_height tx_hash timestamp (SanadConsumed sanad_id nullifier consumed_by).
Definition sanad_transferred (chain : string) (block_height : N) (tx_hash : string) (timestamp : N) (sanad_id : SanadIdWire) (from to : string) (metadata : option (gmap string string)) : CsvEvent :=
  base_event SANAD_TRANSFERRED chain block_height tx_hash timestamp (SanadTransferred sanad_id from to metadata).
Definition cross_chain_lock (chain : string) (block_height : N) (tx_hash : string) (timestamp : N) (sanad_id : SanadIdWire) (source_chain destination_chain destination_owner : string) (proof_hash : HashWire) : CsvEvent :=
  base_event CROSS_CHAIN_LOCK chain block_height tx_hash timestamp (CrossChainLock sanad_id source_chain destination_chain destination_owner proof_hash).
Definition cross_chain_mint (chain : string) (block_height : N) (tx_hash : string) (timestamp : N) (sanad_id : SanadIdWire) (source_chain : string) (source_sanad_id : SanadIdWire) (owner : string) (proof_hash : HashWire) : CsvEvent :=
  base_event CROSS_CHAIN_MINT chain block_height tx_hash timestamp (CrossChainMint sanad_id source_chain source_sanad_id owner proof_hash).
Definition cross_chain_refund (chain : string) (block_height : N) (tx_hash : string) (timestamp : N) (sanad_id : SanadIdWire) (source_chain destination_chain refunded_to : string) : CsvEvent :=
  base_event CROSS_CHAIN_REFUND chain block_height tx_hash timestamp (CrossChainRefund sanad_id source_chain destination_chain refunded_to).
Definition nullifier_registered (chain : string) (block_height : N) (tx_hash : string) (timestamp : N) (sanad_id : SanadIdWire) (nullifier : HashWire) : CsvEvent :=
  base_event NULLIFIER_REGISTERED chain block_height tx_hash timestamp (NullifierRegistered sanad_id nullifier chain).
Definition sanad_metadata_recorded (chain : string) (block_height : N) (tx_hash : string) (timestamp : N) (sanad_id : SanadIdWire) (metadata : gmap string string) : CsvEvent :=
  base_event SANAD_METADATA_RECORDED chain block_height tx_hash timestamp (SanadMetadataRecorded sanad_id metadata).
Definition proof_accepted (chain : string) (block_height : N) (tx_hash : string) (timestamp : N) (proof_hash : HashWire) (validator : string) : CsvEvent :=
  base_event PROOF_ACCEPTED chain block_height tx_hash timestamp (ProofAccepted proof_hash chain validator).
Definition proof_rejected (chain : string) (block_height : N) (tx_hash : string) (timestamp : N) (proof_hash : HashWire) (reason : string) : CsvEvent :=
  base_event PROOF_REJECTED chain block_height tx_hash timestamp (ProofRejected proof_hash chain reason).
Definition replay_detected (chain : string) (block_height : N) (tx_hash : string) (timestamp : N) (proof_hash : HashWire) (original_timestamp replay_timestamp : N) : CsvEvent :=
  base_event REPLAY_DETECTED chain block_height tx_hash timestamp (ReplayDetected proof_hash chain original_timestamp replay_timestamp).
Definition rpc_disagreement (chain : string) (block_height : N) (tx_hash : string) (timestamp : N) (rpc_method : string) (providers : list string) (disagreement_type : string) : CsvEvent :=
  base_event RPC_DISAGREEMENT chain block_height tx_hash timestamp (RpcDisagreement chain rpc_method providers disagreement_type).
Definition reorg_detected (chain : string) (block_height : N) (tx_hash : string) (timestamp : N) (old_height new_height depth : N) : CsvEvent :=
  base_event REORG_DETECTED chain block_height tx_hash timestamp (ReorgDetected chain old_height new_height depth).
Definition rollback_executed (chain : string) (block_height : N) (tx_hash : string) (timestamp : N) (from_height to_height transfers_affected : N) : CsvEvent :=
  base_event ROLLBACK_EXECUTED chain block_height tx_hash timestamp (RollbackExecuted chain from_height to_height transfers_affected).
Definition mint_compromised (chain : string) (block_height : N) (tx_hash : string) (timestamp : N) (sanad_id : SanadIdWire) (compromise_type details : string) : CsvEvent :=
  base_event MINT_COMPROMISED chain block_height tx_hash timestamp (MintCompromised sanad_id chain compromise_type details).

Definition with_correlation_id (e : CsvEvent) (id : string) : CsvEvent :=
  mkEvent (event_type e) (ev_chain e) (block_height e) (ev_tx_hash e) (ev_timestamp e) (data e) (ev_metadata e) (Some id) (transfer_id e) (operation_id e).
Definition with_transfer_id (e : CsvEvent) (id : string) : CsvEvent :=
  mkEvent (event_type e) (ev_chain e) (block_height e) (ev_tx_hash e) (ev_timestamp e) (data e) (ev_metadata e) (correlation_id e) (Some id) (operation_id e).
Definition with_operation_id (e : CsvEvent) (id : string) : CsvEvent :=
  mkEvent (event_type e) (ev_chain e) (block_height e) (ev_tx_hash e) (ev_timestamp e) (data e) (ev_metadata e) (correlation_id e) (transfer_id e) (Some id).

(** ** Indexers *)

Record EventFilter := mkFilter {
  f_event_type : option string; f_chain : option string; f_sanad_id : option SanadIdWire; f_owner : option string;
  from_timestamp : option N; to_timestamp : option N; limit : option nat
}.
(** [dyn EventIndexer]: an indexer of the type [S] of states. *)
Class EventIndexer (S : Type) := {
  indexer_emit : S -> CsvEvent -> S * result string unit;
  indexer_query : S -> EventFilter -> result string (list CsvEvent)
}.
Section Registry.
Context {S : Type} `{EventIndexer S}.
Definition registry_new : list S := [].
Definition register (r : list S) (i : S) : list S := r ++ [i].
(** Up to the first indexer that fails. *)
Fixpoint registry_emit (r : list S) (e : CsvEvent) : list S * result string unit :=
  match r with
  | [] => ([], Ok tt)
  | i :: r =>
      match indexer_emit i e with
      | (i', Ok _) => let '(r', answer) := registry_emit r e in (i' :: r', answer)
      | (i', Err m) => (i' :: r, Err m)
      end
  end.
Fixpoint registry_query (r : list S) (f : EventFilter) : result string (list CsvEvent) :=
  match r with
  | [] => Ok []
  | i :: r => events ← indexer_query i f; rest ← registry_query r f; Ok (events ++ rest)
  end.
End Registry.

(** ** The line of a log ([JsonEventFormatter::format_log_line]) *)

Definition dquote : string := String (Ascii.ascii_of_nat 34) EmptyString.
Definition quoted (s : string) : string := dquote +:+ s +:+ dquote.
(** a member of the object whose value is a string *)
Definition str_member (name value : string) : string := quoted name +:+ ":" +:+ quoted value.
Definition format_log_line (e : CsvEvent) : string :=
  "{" +:+ quoted "timestamp" +:+ ":" +:+ pretty (ev_timestamp e) +:+ "," +:+ str_member "event_type" (event_type e) +:+ ","
  +:+ str_member "chain" (ev_chain e) +:+ "," +:+ str_member "correlation_id" (default "N/A" (correlation_id e)) +:+ ","
  +:+ str_member "transfer_id" (default "N/A" (transfer_id e)) +:+ "}".

(** ** Canonical events *)

Record SealCreatedEvent := mkSealCreated { sc_seal_id : HashWire; sc_owner : bytes; sc_commitment : HashWire }.
Record SealConsumedEvent := mkSealConsumed { sk_seal_id : HashWire; sk_owner : bytes; sk_timestamp : N }.
Record SealLockedEvent := mkSealLocked { sl_seal_id : HashWire; sl_owner : bytes; sl_destination_chain : N; sl_destination_owner : bytes }.
Record SealMintedEvent := mkSealMinted { sm_seal_id : HashWire; sm_owner : bytes; sm_source_chain : N; sm_source_seal_ref : HashWire }.
Record SealRefundedEvent := mkSealRefunded { sr_seal_id : HashWire; sr_owner : bytes; sr_timestamp : N; sr_reason : N }.
Record CommitmentAnchoredEvent := mkAnchored { ca_commitment : HashWire; ca_seal_id : HashWire; ca_timestamp : N }.
Record ReplayNullifierEvent := mkNullifier { rn_nullifier : HashWire; rn_timestamp : N }.
Record ProofRootUpdatedEvent := mkRootUpdated { pr_proof_root : HashWire; pr_timestamp : N; pr_block_height : N }.
Inductive CanonicalEvent :=
| SealCreated (e : SealCreatedEvent) | SealConsumed (e : SealConsumedEvent) | SealLocked (e : SealLockedEvent)
| SealMinted (e : SealMintedEvent) | SealRefunded (e : SealRefundedEvent) | CommitmentAnchored (e : CommitmentAnchoredEvent)
| ReplayNullifierRegistered (e : ReplayNullifierEvent) | ProofRootUpdated (e : ProofRootUpdatedEvent).
Definition event_name (e : CanonicalEvent) : string :=
  match e with
  | SealCreated _ => "SealCreated" | SealConsumed _ => "SealConsumed" | SealLocked _ => "SealLocked" | SealMinted _ => "SealMinted"
  | SealRefunded _ => "SealRefunded" | CommitmentAnchored _ => "CommitmentAnchored"
  | ReplayNullifierRegistered _ => "ReplayNullifierRegistered" | ProofRootUpdated _ => "ProofRootUpdated"
  end.
Definition signature_text (e : CanonicalEvent) : string :=
  match e with
  | SealCreated _ => "SealCreated(bytes32,address,bytes32)"
  | SealConsumed _ => "SealConsumed(bytes32,address,uint256)"
  | SealLocked _ => "SealLocked(bytes32,address,uint8,bytes)"
  | SealMinted _ => "SealMinted(bytes32,address,uint8,bytes32)"
  | SealRefunded _ => "SealRefunded(bytes32,address,uint256)"
  | CommitmentAnchored _ => "CommitmentAnchored(bytes32,bytes32,uint256)"
  | ReplayNullifierRegistered _ => "ReplayNullifierRegistered(bytes32)"
  | ProofRootUpdated _ => "ProofRootUpdated(bytes32)"
  end.
Definition signature_hash (sha256 : bytes -> Bytes32) (e : CanonicalEvent) : HashWire :=
  wire_of_hash (hash_sha256 sha256 (as_bytes (signature_text e))).

Inductive EventEncodeError := InvalidData (m : string) | UnsupportedEventType | EncodingFailed (m : string) | DecodingFailed (m : string).
(** [map_err(EncodingFailed)] *)
Definition encoding_failed {A} (r : result string A) : result EventEncodeError A :=
  match r with Ok a => Ok a | Err m => Err (EncodingFailed m) end.
(** The encoders of Ethereum, Solana, Sui and Aptos have the same two bodies. *)
Definition encode_event (e : CanonicalEvent) : result EventEncodeError bytes :=
  match e with
  | SealCreated e =>
      id ← encoding_failed (wire_as_bytes (sc_seal_id e));
      commitment ← encoding_failed (wire_as_bytes (sc_commitment e));
      Ok (id ++ sc_owner e ++ commitment)
  | _ => Err UnsupportedEventType
  end.
Definition decode_event (_ : bytes) : result EventEncodeError CanonicalEvent := Err UnsupportedEventType.

Inductive EventFinalityStatus := EvPending | EvConfirmed (confirmations : N) | EvFinalized.

(** ** Lemmas *)

(** The name of the data's variant, and the chain that the data repeats. *)
Definition data_name (d : EventData) : string :=
  match d with
  | SanadCreated _ _ _ _ _ _ => SANAD_CREATED
  | SanadConsumed _ _ _ => SANAD_CONSUMED
  | SanadTransferred _ _ _ _ => SANAD_TRANSFERRED
  | CrossChainLock _ _ _ _ _ => CROSS_CHAIN_LOCK
  | CrossChainMint _ _ _ _ _ => CROSS_CHAIN_MINT
  | CrossChainRefund _ _ _ _ => CROSS_CHAIN_REFUND
  | NullifierRegistered _ _ _ => NULLIFIER_REGISTERED
  | SanadMetadataRecorded _ _ => SANAD_METADATA_RECORDED
  | ProofAccepted _ _ _ => PROOF_ACCEPTED
  | ProofRejected _ _ _ => PROOF_REJECTED
  | ReplayDetected _ _ _ _ => REPLAY_DETECTED
  | RpcDisagreement _ _ _ _ => RPC_DISAGREEMENT
  | ReorgDetected _ _ _ _ => REORG_DETECTED
  | RollbackExecuted _ _ _ _ => ROLLBACK_EXECUTED
  | MintCompromised _ _ _ _ => MINT_COMPROMISED
  end.
Definition data_chain (d : EventData) : option string :=
  match d with
  | NullifierRegistered _ _ chain => Some chain
  | ProofAccepted _ chain _ => Some chain
  | ProofRejected _ chain _ => Some chain
  | ReplayDetected _ chain _ _ => Some chain
  | RpcDisagreement chain _ _ _ => Some chain
  | ReorgDetected chain _ _ _ => Some chain
  | RollbackExecuted chain _ _ _ => Some chain
  | MintCompromised _ chain _ _ => Some chain
  | _ => None
  end.
(** An event under the name and the chain of its data. *)
Definition well_named (e : CsvEvent) : Prop :=
  event_type e = data_name (data e) /\ forall c, data_chain (data e) = Some c -> c = ev_chain e.

Lemma base_well_named type chain h tx t d :
  type = data_name d -> (forall c, data_chain d = Some c -> c = chain) -> well_named (base_event type chain h tx t d).
Proof. by split. Qed.
(** The identifiers that are added change neither. *)
Lemma with_ids_well_named e i j k : well_named e <-> well_named (with_operation_id (with_transfer_id (with_correlation_id e i) j) k).
Proof. done. Qed.
Lemma data_name_inj d d' : data_name d = data_name d' ->
  match d, d' with
  | SanadCreated _ _ _ _ _ _, SanadCreated _ _ _ _ _ _ | SanadConsumed _ _ _, SanadConsumed _ _ _
  | SanadTransferred _ _ _ _, SanadTransferred _ _ _ _ | CrossChainLock _ _ _ _ _, CrossChainLock _ _ _ _ _
  | CrossChainMint _ _ _ _ _, CrossChainMint _ _ _ _ _ | CrossChainRefund _ _ _ _, CrossChainRefund _ _ _ _
  | NullifierRegistered _ _ _, NullifierRegistered _ _ _ | SanadMetadataRecorded _ _, SanadMetadataRecorded _ _
  | ProofAccepted _ _ _, ProofAccepted _ _ _ | ProofRejected _ _ _, ProofRejected _ _ _
  | ReplayDetected _ _ _ _, ReplayDetected _ _ _ _ | RpcDisagreement _ _ _ _, RpcDisagreement _ _ _ _
  | ReorgDetected _ _ _ _, ReorgDetected _ _ _ _ | RollbackExecuted _ _ _ _, RollbackExecuted _ _ _ _
  | MintCompromised _ _ _ _, MintCompromised _ _ _ _ => True
  | _, _ => False
  end.
Proof. by destruct d, d'. Qed.

(** How many parameters a signature has, and how many fields its event. *)
Fixpoint commas (s : string) : nat :=
  match s with EmptyString => 0 | String c s => (if Ascii.eqb c (Ascii.ascii_of_nat 44) then 1 else 0) + commas s end.
Definition field_count (e : CanonicalEvent) : nat :=
  match e with
  | SealCreated _ | SealConsumed _ | CommitmentAnchored _ | ProofRootUpdated _ => 3
  | SealLocked _ | SealMinted _ | SealRefunded _ => 4
  | ReplayNullifierRegistered _ => 2
  end.
(** Three signatures leave out fields of their events. *)
Lemma signatures_short e :
  S (commas (signature_text e)) <> field_count e <->
  match e with SealRefunded _ | ReplayNullifierRegistered _ | ProofRootUpdated _ => True | _ => False end.
Proof. destruct e; vm_compute; naive_solver. Qed.

Lemma str_app_assoc (a b c : string) : a +:+ b +:+ c = (a +:+ b) +:+ c.
Proof. induction a as [|x a IH]; [done|]. change (String x (a +:+ b +:+ c) = String x ((a +:+ b) +:+ c)). by rewrite IH. Qed.
(** A quote in a field is written as it is: two events with one line. *)
Lemma log_line_ambiguous (a b c : string) (d : EventData) (h t : N) (tx : string) :
  let between := dquote +:+ "," +:+ quoted "chain" +:+ ":" +:+ dquote in
  format_log_line (base_event (a +:+ between +:+ b) c h tx t d) = format_log_line (base_event a (b +:+ between +:+ c) h tx t d).
Proof.
  intros between. unfold format_log_line. cbn [base_event ev_timestamp event_type ev_chain correlation_id transfer_id].
  unfold str_member, quoted, between. by rewrite <- !str_app_assoc.
Qed.

(** The limit is each indexer's. *)
Lemma query_over_limit {S} `{EventIndexer S} (r : list S) f n l :
  (forall i, i ∈ r -> exists es, indexer_query i f = Ok es /\ length es = n) ->
  registry_query r f = Ok l -> length l = length r * n.
Proof.
  revert l. induction r as [|i r IH]; intros l Hn Hq; [by injection Hq as <-|]. cbn in Hq.
  destruct (Hn i ltac:(by left)) as (es & Hes & Hl). rewrite Hes in Hq. cbn in Hq.
  apply bind_ok in Hq as (rest & Hr & [= <-]). rewrite length_app, (IH rest), Hl; [done| |done]. intros j Hj. apply Hn. by right.
Qed.

(** The digests of an event may be of any length: the same bytes for two events. *)
Lemma encoding_ambiguous :
  encode_event (SealCreated (mkSealCreated "00" [Byte.x01] "02")) = encode_event (SealCreated (mkSealCreated "0001" [] "02")).
Proof. by vm_compute. Qed.

Lemma encoding_failed_ok {A} (r : result string A) a : encoding_failed r = Ok a <-> r = Ok a.
Proof. destruct r; cbn; naive_solver. Qed.

(** ** Properties *)

(** the registry of indexers.  An event is emitted to the indexers in order until one
    fails: it is accepted exactly when each accepts it, and otherwise those before the first
    that fails have it, the error is that one's, and those after have not seen it.  A query
    answers the answers of all of them, in order. *)
Theorem event_registry_exact {S} `{EventIndexer S} (r : list S) (e : CsvEvent) (f : EventFilter) :
  (forall r', registry_emit r e = (r', Ok tt) <-> Forall2 (fun i i' => indexer_emit i e = (i', Ok tt)) r r') /\
  (forall r' m, registry_emit r e = (r', Err m) <->
     exists before i after before' i', r = before ++ i :: after /\ r' = before' ++ i' :: after /\
       Forall2 (fun i i' => indexer_emit i e = (i', Ok tt)) before before' /\ indexer_emit i e = (i', Err m)) /\
  (forall l, registry_query r f = Ok l <-> exists ls, Forall2 (fun i es => indexer_query i f = Ok es) r ls /\ l = concat ls).
Proof.
  split_and!.
  - induction r as [|i r IH]; intros r'; cbn [registry_emit].
    + split; [intros [= <-]; constructor|by intros ->%Forall2_nil_inv_l].
    + split.
      * destruct (indexer_emit i e) as [i' [[]|m]] eqn:Hi; [|done]. destruct (registry_emit r e) as [r1 a] eqn:Hr. intros [= <- ->].
        constructor; [done|]. by apply IH.
      * intros (i' & r1 & Hi & Hr & ->)%Forall2_cons_inv_l. rewrite Hi. apply IH in Hr. by rewrite Hr.
  - induction r as [|i r IH]; intros r' m; cbn [registry_emit].
    + split; [done|]. intros (before & ? & ? & ? & ? & Hb & _). by destruct before.
    + destruct (indexer_emit i e) as [i' [[]|m']] eqn:Hi.
      * destruct (registry_emit r e) as [r1 a] eqn:Hr. split.
        -- intros [= <- ->]. destruct (proj1 (IH r1 m) eq_refl) as (b & j & c & b' & j' & -> & -> & Hb & Hj).
           exists (i :: b), j, c, (i' :: b'), j'. split_and!; [done|done|by constructor|done].
        -- intros (b & j & c & b' & j' & Hb & -> & Hf & Hj). destruct b as [|x b]; [injection Hb as <- <-; congruence|].
           injection Hb as <- ->. apply Forall2_cons_inv_l in Hf as (x' & b1 & Hx & Hf & ->).
           rewrite Hi in Hx. injection Hx as ->. assert (Hb : (r1, a) = (b1 ++ j' :: c, Err m)) by (apply IH; by exists b, j, c, b1, j').
           injection Hb as -> ->. done.
      * split.
        -- intros [= <- <-]. by exists [], i, r, [], i'.
        -- intros (b & j & c & b' & j' & Hb & -> & Hf & Hj). destruct b as [|x b].
           ++ injection Hb as <- <-. apply Forall2_nil_inv_l in Hf as ->. rewrite Hi in Hj. by injection Hj as <- <-.
           ++ injection Hb as <- ->. apply Forall2_cons_inv_l in Hf as (x' & b1 & Hx & _). congruence.
  - induction r as [|i r IH]; intros l; cbn [registry_query].
    + split; [intros [= <-]; by exists []|]. by intros (ls & ->%Forall2_nil_inv_l & ->).
    + split.
      * intros (es & Hes & H')%bind_ok. apply bind_ok in H' as (rest & Hr & [= <-]). apply IH in Hr as (ls & Hls & ->).
        exists (es :: ls). by split; [constructor|].
      * intros (ls & (es & ls' & Hes & Hls & ->)%Forall2_cons_inv_l & ->). rewrite Hes. cbn.
        assert (registry_query r f = Ok (concat ls')) as -> by (apply IH; by exists ls'). done.
Qed.

(** canonical events.  The hash of a signature tells the kind of an event, unless the
    two signature texts collide under sha256; exactly the creations of seals whose two digests are
    hexadecimal are encoded, as the digests around the owner; nothing is ever decoded. *)
Theorem canonical_events_exact (sha256 : bytes -> Bytes32) (e e' : CanonicalEvent) (b : bytes) :
  (signature_hash sha256 e = signature_hash sha256 e' -> event_name e = event_name e' \/
     collision_in sha256 [as_bytes (signature_text e); as_bytes (signature_text e')]) /\
  (encode_event e = Ok b <-> exists s id commitment, e = SealCreated s /\ wire_as_bytes (sc_seal_id s) = Ok id /\
     wire_as_bytes (sc_commitment s) = Ok commitment /\ b = id ++ sc_owner s ++ commitment) /\
  decode_event b <> Ok e.
Proof.
  split_and!; [| |done].
  - unfold signature_hash, hash_sha256. intros H%wire_of_hash_inj. hash_inj H. left.
    apply as_bytes_inj in H. by destruct e, e'.
  - destruct e as [s| | | | | | |]; cbn [encode_event]; try (split; [done|by intros (? & ? & ? & ? & _)]). split.
    + intros (id & Hid%encoding_failed_ok & H)%bind_ok. apply bind_ok in H as (c & Hc%encoding_failed_ok & [= <-]). by exists s, id, c.
    + intros (s' & id & c & [= <-] & Hid & Hc & ->). by rewrite Hid, Hc.
Qed.

(** names of events.  Every event that a constructor builds carries the name of its data,
    and its chain wherever the data repeats it. *)
Theorem constructors_well_named (chain : string) (h : N) (tx : string) (t : N) :
  (forall i o c a b m, well_named (sanad_created chain h tx t i o c a b m)) /\
  (forall i n b, well_named (sanad_consumed chain h tx t i n b)) /\
  (forall i a b m, well_named (sanad_transferred chain h tx t i a b m)) /\
  (forall i s d o p, well_named (cross_chain_lock chain h tx t i s d o p)) /\
  (forall i s j o p, well_named (cross_chain_mint chain h tx t i s j o p)) /\
  (forall i s d r, well_named (cross_chain_refund chain h tx t i s d r)) /\
  (forall i n, well_named (nullifier_registered chain h tx t i n)) /\
  (forall i m, well_named (sanad_metadata_recorded chain h tx t i m)) /\
  (forall p v, well_named (proof_accepted chain h tx t p v)) /\
  (forall p r, well_named (proof_rejected chain h tx t p r)) /\
  (forall p a b, well_named (replay_detected chain h tx t p a b)) /\
  (forall m p d, well_named (rpc_disagreement chain h tx t m p d)) /\
  (forall a b d, well_named (reorg_detected chain h tx t a b d)) /\
  (forall a b n, well_named (rollback_executed chain h tx t a b n)) /\
  (forall i k d, well_named (mint_compromised chain h tx t i k d)).
Proof. split_and!; intros; apply base_well_named; cbn; naive_solver. Qed.
