(* ===== verification/CodecRules.v ===== *)
(** * Encoding primitives and schema rules (csv-codec: encode.rs, decode.rs, versioning.rs,
      schema.rs)

    Little-endian numbers, vectors behind their length, tagged variants and protocol versions,
    written and read back; the rules by which the parameters of a schema are validated.  A
    length near the end of 64 bits makes the reader of vectors panic.  A schema identifier is
    accepted exactly when it begins with [csv.] and ends in a dot, a [v] and a positive
    number, which is less than the documented pattern says. *)

From S2P Require Import Prelude Ord Bytes Hashing Text Decode DagCodec.
From S2P Require Checkpoint.

(** ** Numbers, vectors, variants (encode.rs, decode.rs) *)

Definition encode_u64 (v : N) : bytes := u64_le v.
Definition encode_u32 (v : N) : bytes := u32_le v.
Definition decode_u64 (b : bytes) : result CodecError N :=
  reject length b <? 8 with DeserializationError "Insufficient bytes for u64";;
  Ok (of_le_bytes (take 8 b)).
Definition decode_u32 (b : bytes) : result CodecError N :=
  reject length b <? 4 with DeserializationError "Insufficient bytes for u32";;
  Ok (of_le_bytes (take 4 b)).

Definition encode_vec (b : bytes) : bytes := encode_u64 (blen b) ++ b.
(** Nothing when it panics: the sum of eight and the length wraps around (or overflows, with
    overflow checks), and the slice ends before its start. *)
Definition decode_vec (b : bytes) : option (result CodecError bytes) :=
  if length b <? 8 then Some (Err (DeserializationError "Insufficient bytes for length prefix"))
  else
    match decode_u64 b with
    | Err e => Some (Err e)
    | Ok len =>
        let stop := add64 8 len in
        if (blen b <? stop)%N then Some (Err (DeserializationError "Insufficient bytes for vector data"))
        else if (stop <? 8)%N then None
        else Some (Ok (drop 8 (take (N.to_nat stop) b)))
    end.
Definition encode_enum (tag : byte) (value : bytes) : bytes := tag :: value.
Definition decode_enum (b : bytes) : result CodecError (byte * bytes) :=
  match b with [] => Err (DeserializationError "Empty bytes for enum") | t :: v => Ok (t, v) end.

Section Strings.
(** [nfc] of the unicode-normalization crate *)
Variable nfc : string -> string.
Definition encode_string (s : string) : bytes := as_bytes (nfc s).
Definition decode_string (b : bytes) : result CodecError string :=
  match from_utf8 b with Ok s => Ok s | Err _ => Err (DeserializationError "Invalid UTF-8") end.
End Strings.

(** ** Versions (encode.rs, decode.rs, versioning.rs) *)

Record ProtocolVersion := mkVersion { major : N; minor : N; patch : N }.
Definition CURRENT : ProtocolVersion := mkVersion 1 0 0.
Definition version_encode (v : ProtocolVersion) : bytes := u16_le (major v) ++ u16_le (minor v) ++ u16_le (patch v).
Definition encode_version (major minor patch : N) : bytes := u16_le major ++ u16_le minor ++ u16_le patch.
Definition decode_version (b : bytes) : result CodecError (N * N * N) :=
  reject length b <? 6 with DeserializationError "Insufficient bytes for version";;
  Ok (of_le_bytes (take 2 b), of_le_bytes (take 2 (drop 2 b)), of_le_bytes (take 2 (drop 4 b))).
Definition version_decode (b : bytes) : result CodecError ProtocolVersion :=
  reject length b <? 6 with DeserializationError "Insufficient bytes for version";;
  Ok (mkVersion (of_le_bytes (take 2 b)) (of_le_bytes (take 2 (drop 2 b))) (of_le_bytes (take 2 (drop 4 b)))).
Definition is_compatible_with (v w : ProtocolVersion) : bool := (major v =? major w)%N.

(** ** Schema rules (schema.rs) *)

Inductive SchemaError :=
| InvalidSchemaId (id : bytes) | InvalidVersion (v : N) | UnknownCodec (c : N)
| ResourceLimitExceeded (field : string) (value max : N) | ZeroDescriptorHash | ZeroPayloadHash | EmptySchemaId | Generic (m : string).
Inductive PayloadCodec := Cbor | Json | MessagePack.
Definition codec_from_u8 (v : N) : option PayloadCodec :=
  match v with 1%N => Some Cbor | 2%N => Some Json | 3%N => Some MessagePack | _ => None end.
Definition codec_is_canonical (c : PayloadCodec) : bool := match c with Cbor => true | _ => false end.

Definition MAX_PAYLOAD_SIZE : N := 10 * 1024 * 1024.
Definition MAX_MERKLE_DEPTH : N := 64.
Definition MAX_LEAVES : N := 1000000.
Definition MAX_ATTACHMENTS : N := 1000.
Definition MAX_PROOF_SIZE : N := 5 * 1024 * 1024.

(** [starts_with] *)
Fixpoint starts_with (p s : bytes) : bool :=
  match p, s with
  | [], _ => true
  | x :: p, y :: s => bool_decide (x = y) && starts_with p s
  | _ :: _, [] => false
  end.
(** [rsplitn(2, '.')]: what is before the last dot and what is after it. *)
Fixpoint rsplit_dot (s : bytes) : option (bytes * bytes) :=
  match s with
  | [] => None
  | c :: s =>
      match rsplit_dot s with
      | Some (a, b) => Some (c :: a, b)
      | None => if bool_decide (c = Byte.x2e) then Some ([], s) else None
      end
  end.
Definition validate_schema_id (id : bytes) : result SchemaError unit :=
  reject bool_decide (id = []) with EmptySchemaId;;
  reject negb (starts_with (as_bytes "csv.") id) with InvalidSchemaId id;;
  match rsplit_dot id with
  | None => Err (InvalidSchemaId id)
  | Some (_, version_part) =>
      reject negb (starts_with [Byte.x76] version_part) with InvalidSchemaId id;;
      let version_str := drop 1 version_part in
      reject bool_decide (version_str = []) with InvalidSchemaId id;;
      match Checkpoint.parse_u64 version_str with
      | Some version => if (version =? 0)%N then Err (InvalidSchemaId id) else Ok tt
      | None => Err (InvalidSchemaId id)
      end
  end.
Definition validate_schema_version (v : N) : result SchemaError unit := if (v =? 0)%N then Err (InvalidVersion 0) else Ok tt.
Definition validate_payload_codec (c : N) : result SchemaError PayloadCodec := ok_or (UnknownCodec c) (codec_from_u8 c).
Definition validate_resource_limits (payload_size merkle_depth leaf_count attachment_count : N) : result SchemaError unit :=
  reject (MAX_PAYLOAD_SIZE <? payload_size)%N with ResourceLimitExceeded "payload_size" payload_size MAX_PAYLOAD_SIZE;;
  reject (MAX_MERKLE_DEPTH <? merkle_depth)%N with ResourceLimitExceeded "merkle_depth" merkle_depth MAX_MERKLE_DEPTH;;
  reject (MAX_LEAVES <? leaf_count)%N with ResourceLimitExceeded "leaf_count" leaf_count MAX_LEAVES;;
  reject (MAX_ATTACHMENTS <? attachment_count)%N with ResourceLimitExceeded "attachment_count" attachment_count MAX_ATTACHMENTS;;
  Ok tt.
Definition all_zero (h : Bytes32) : bool := forallb (fun b => bool_decide (b = Byte.x00)) (b32 h).
Definition validate_descriptor_hash (h : Bytes32) : result SchemaError unit := if all_zero h then Err ZeroDescriptorHash else Ok tt.
Definition validate_payload_hash (h : Bytes32) : result SchemaError unit := if all_zero h then Err ZeroPayloadHash else Ok tt.
Record SchemaValidationParams := mkParams {
  sv_schema_id : bytes; sv_version : N; sv_codec : N; sv_descriptor_hash : Bytes32; sv_payload_hash : Bytes32;
  sv_payload_size : N; sv_merkle_depth : N; sv_leaf_count : N; sv_attachment_count : N
}.
Definition validate_schema (p : SchemaValidationParams) : result SchemaError unit :=
  validate_schema_id (sv_schema_id p) ;;
  validate_schema_version (sv_version p) ;;
  validate_payload_codec (sv_codec p) ;;
  validate_descriptor_hash (sv_descriptor_hash p) ;;
  validate_payload_hash (sv_payload_hash p) ;;
  validate_resource_limits (sv_payload_size p) (sv_merkle_depth p) (sv_leaf_count p) (sv_attachment_count p) ;;
  Ok tt.
Definition parse_schema_version (id : bytes) : result SchemaError N :=
  validate_schema_id id ;;
  match rsplit_dot id with
  | Some (_, version_part) => ok_or (InvalidSchemaId id) (Checkpoint.parse_u64 (drop 1 version_part))
  | None => Err (InvalidSchemaId id)
  end.

(** ** Lemmas *)

Lemma take_app_exact {A} (a b : list A) n : length a = n -> take n (a ++ b) = a.
Proof. intros <-. apply take_app_length. Qed.
Lemma drop_app_exact {A} (a b : list A) n : length a = n -> drop n (a ++ b) = b.
Proof. intros <-. apply drop_app_length. Qed.
Lemma of_u64_le v : (v <= u64_max)%N -> of_le_bytes (u64_le v) = v.
Proof. intros Hv. unfold u64_le. rewrite of_le_bytes_le_bytes. apply N.mod_small. unfold u64_max in Hv. cbn. lia. Qed.
Lemma of_u16_le v : (v <= 65535)%N -> of_le_bytes (u16_le v) = v.
Proof. intros Hv. unfold u16_le. rewrite of_le_bytes_le_bytes. apply N.mod_small. cbn. lia. Qed.

Lemma decode_u64_exact b v :
  decode_u64 b = Ok v <-> exists rest, b = encode_u64 v ++ rest /\ (v <= u64_max)%N.
Proof.
  unfold decode_u64, encode_u64. rewrite guard_err_ok, Nat.ltb_ge. split.
  - intros [Hl [= <-]]. assert (Ht : length (take 8 b) = 8) by (rewrite length_take; lia). exists (drop 8 b).
    pose proof (le_bytes_of_le_bytes (take 8 b)) as E. pose proof (of_le_bytes_bound (take 8 b)) as Hb. unfold blen in Hb. rewrite Ht in E, Hb.
    unfold u64_le. rewrite E, take_drop. split; [done|]. unfold u64_max. change (256 ^ N.of_nat 8)%N with 18446744073709551616%N in Hb. lia.
  - intros (rest & -> & Hv). assert (Hl : length (u64_le v) = 8) by apply length_le_bytes.
    rewrite length_app, Hl, take_app_exact, of_u64_le by done. split; [lia|done].
Qed.

Lemma codec_from_u8_some c p :
  codec_from_u8 c = Some p <-> (c = 1%N /\ p = Cbor) \/ (c = 2%N /\ p = Json) \/ (c = 3%N /\ p = MessagePack).
Proof. destruct c as [|[[|[]|]|[|[]|]|]]; cbn; naive_solver. Qed.

Lemma starts_with_iff p s : starts_with p s = true <-> exists r, s = p ++ r.
Proof.
  revert s. induction p as [|x p IH]; intros s; cbn [starts_with]; [split; [by exists s|done]|].
  destruct s as [|y s]; [split; [done|by intros [? ?]]|]. rewrite andb_true_iff, bool_decide_eq_true, IH. naive_solver.
Qed.
Lemma rsplit_dot_some s a b : rsplit_dot s = Some (a, b) <-> s = a ++ Byte.x2e :: b /\ Byte.x2e ∉ b.
Proof.
  assert (none : forall s, rsplit_dot s = None <-> Byte.x2e ∉ s).
  { clear. induction s as [|c s IH]; cbn [rsplit_dot]; [split; [intros _; apply not_elem_of_nil|done]|].
    rewrite not_elem_of_cons. destruct (rsplit_dot s) as [[a b]|]; [naive_solver|]. case_bool_decide; naive_solver. }
  revert a b. induction s as [|c s IH]; intros a b; cbn [rsplit_dot]; [split; [done|by intros [H _]; destruct a]|].
  destruct (rsplit_dot s) as [[a' b']|] eqn:Hs.
  - destruct (proj1 (IH a' b') eq_refl) as [-> Hb']. split; [intros [= <- <-]; done|]. intros [H Hb]. destruct a as [|x a].
    + injection H as -> H. exfalso. apply Hb. rewrite <- H. apply elem_of_app. right. left.
    + injection H as -> H. assert (Some (a', b') = Some (a, b)) as [= <- <-]; [|done]. by apply IH.
  - apply none in Hs. case_bool_decide as Hc; split; try done.
    + intros [= <- <-]. by subst.
    + intros [H Hb]. destruct a as [|x a]; [by injection H as _ ->|]. injection H as _ ->. exfalso. apply Hs, elem_of_app. right. left.
    + intros [H Hb]. destruct a as [|x a]; [by injection H as ->|]. injection H as _ ->. exfalso. apply Hs, elem_of_app. right. left.
Qed.
(** Nothing that parses holds a dot. *)
Lemma parse_u64_nonempty s v : Checkpoint.parse_u64 s = Some v -> s <> [].
Proof. by intros H ->. Qed.

Lemma all_zero_iff h : all_zero h = true <-> h = zero32.
Proof.
  unfold all_zero. rewrite forallb_forall. split.
  - intros H. apply b32_inj. assert (Hr : forall l : bytes, (forall b, In b l -> bool_decide (b = Byte.x00) = true) -> l = replicate (length l) Byte.x00).
    { clear. induction l as [|b l IH]; intros Hl; [done|]. cbn. rewrite <- IH by (intros; apply Hl; by right).
      f_equal. apply (proj1 (bool_decide_eq_true _)), Hl. by left. }
    rewrite (Hr _ H), b32_length. done.
  - intros ->. intros b Hb. apply bool_decide_eq_true. cbn in Hb. repeat (destruct Hb as [<-|Hb]; [done|]). done.
Qed.

(** The identifiers that the documented pattern leaves out: no domain, an empty one, one of
    any characters, a signed version. *)
Lemma loose_schema_ids :
  Forall (fun id => validate_schema_id (as_bytes id) = Ok tt) ["csv.v1"; "csv..v1"; "csv.a b/!.v1"; "csv.seal.v+1"]%string.
Proof. repeat constructor. Qed.

(** A length near the end of 64 bits. *)
Lemma decode_vec_panics rest : decode_vec (encode_u64 u64_max ++ rest) = None.
Proof.
  assert (Hl : length (encode_u64 u64_max ++ rest) = 8 + length rest) by (by rewrite length_app).
  unfold decode_vec. rewrite Hl, (proj2 (Nat.ltb_ge _ _)), (proj2 (decode_u64_exact _ u64_max)) by (lia || by exists rest).
  change (add64 8 u64_max) with 7%N. rewrite (proj2 (N.ltb_ge _ _)); [done|]. unfold blen. rewrite Hl. lia.
Qed.

(** ** Properties *)

(** vectors.  The reader returns exactly the vector whose length and bytes the input
    begins with, panics exactly for lengths of 2^64 - 8 and more, and refuses the rest. *)
Theorem decode_vec_exact (b d : bytes) :
  (decode_vec b = Some (Ok d) <-> exists rest, b = encode_vec d ++ rest /\ (blen d < 2 ^ 64 - 8)%N) /\
  (decode_vec b = None <-> exists len rest, b = encode_u64 len ++ rest /\ (2 ^ 64 - 8 <= len <= u64_max)%N).
Proof.
  unfold decode_vec. destruct (Nat.ltb_spec (length b) 8) as [Hs|Hs].
  - split; (split; [done|]).
    + intros (rest & -> & _). unfold encode_vec, encode_u64, u64_le in Hs. rewrite !length_app, length_le_bytes in Hs. lia.
    + intros (len & rest & -> & _). unfold encode_u64, u64_le in Hs. rewrite !length_app, length_le_bytes in Hs. lia.
  - destruct (decode_u64 b) as [len|e] eqn:Hd.
    2:{ unfold decode_u64 in Hd. rewrite (proj2 (Nat.ltb_ge _ _)) in Hd by done. done. }
    apply decode_u64_exact in Hd as (rest & -> & Hlen). assert (Hu : length (encode_u64 len) = 8) by apply length_le_bytes.
    assert (Hinj : forall len' rest', (len' <= u64_max)%N -> encode_u64 len ++ rest = encode_u64 len' ++ rest' -> len = len' /\ rest = rest').
    { intros len' rest' Hl' H. apply app_eq_length_inj in H as [H ->]; [|by rewrite Hu; symmetry; apply length_le_bytes].
      apply (f_equal of_le_bytes) in H. unfold encode_u64 in H. by rewrite !of_u64_le in H. }
    assert (Hblen : blen (encode_u64 len ++ rest) = (8 + blen rest)%N) by (unfold blen; rewrite length_app, Hu; lia).
    assert (Hbody : drop 8 (take (N.to_nat (8 + len)) (encode_u64 len ++ rest)) = take (N.to_nat len) rest).
    { rewrite N2Nat.inj_add, take_app_add' by (by rewrite Hu). by apply drop_app_exact. }
    rewrite Hblen. destruct (N.ltb_spec len (2 ^ 64 - 8)) as [Hlt|Hge].
    + rewrite add64_small by (unfold u64_max; lia). rewrite (proj2 (N.ltb_ge (8 + len) 8)) by lia. split.
      * destruct (N.ltb_spec (8 + blen rest) (8 + len)) as [Hshort|Hok].
        -- split; [done|]. intros (rest' & H & Hb). unfold encode_vec in H. rewrite <- app_assoc in H.
           apply Hinj in H as [-> ->]; [|unfold u64_max; lia]. unfold blen in *. rewrite length_app in Hshort. lia.
        -- split.
           ++ intros Hd'. assert (d = take (N.to_nat len) rest) as -> by (rewrite Hbody in Hd'; congruence). exists (drop (N.to_nat len) rest).
              unfold encode_vec. rewrite <- app_assoc, take_drop. unfold blen in Hok |- *. rewrite length_take, Nat.min_l, N2Nat.id by lia. done.
           ++ intros (rest' & H & Hb). unfold encode_vec in H. rewrite <- app_assoc in H. apply Hinj in H as [-> ->]; [|unfold u64_max; lia].
              rewrite Hbody. by rewrite take_app_exact by (unfold blen; lia).
      * destruct (_ <? _)%N; (split; [done|]); intros (len' & rest' & H & Hl'); apply Hinj in H as [-> _]; lia.
    + assert (Hw : add64 8 len = (len - (2 ^ 64 - 8))%N).
      { unfold add64, wrap64. unfold u64_max in Hlen. symmetry. apply (N.mod_unique _ _ 1); lia. }
      rewrite Hw. unfold u64_max in Hlen. rewrite (proj2 (N.ltb_ge _ _)), (proj2 (N.ltb_lt _ 8)) by lia. split.
      * split; [done|]. intros (rest' & H & Hb). unfold encode_vec in H. rewrite <- app_assoc in H. apply Hinj in H as [-> _]; unfold u64_max; lia.
      * split; [|done]. intros _. by exists len, rest.
Qed.

(** schema identifiers.  An identifier is accepted exactly when it begins with [csv.] and
    its last part is a [v] before a number that is read as positive; that number is then the
    version. *)
Theorem schema_id_exact (id : bytes) (v : N) :
  parse_schema_version id = Ok v <->
  (exists r, id = as_bytes "csv." ++ r) /\
  exists before digits, id = before ++ [Byte.x2e; Byte.x76] ++ digits /\ Byte.x2e ∉ digits /\
    Checkpoint.parse_u64 digits = Some v /\ (0 < v)%N.
Proof.
  unfold parse_schema_version, validate_schema_id. rewrite bind_unit_ok, !guard_err_ok, bool_decide_eq_false, negb_false_iff, starts_with_iff.
  split.
  - intros [(Hne & Hp & Hv) H]. split; [done|]. destruct (rsplit_dot id) as [[before part]|] eqn:Hs; [|done].
    apply rsplit_dot_some in Hs as [-> Hn]. rewrite guard_err_ok, negb_false_iff, starts_with_iff in Hv. destruct Hv as [[digits ->] Hv].
    cbn [app] in *. change (drop 1 (Byte.x76 :: digits)) with digits in *. rewrite guard_err_ok in Hv. destruct Hv as [_ Hv]. exists before, digits.
    destruct (Checkpoint.parse_u64 digits) as [w|]; [|done]. injection H as ->. destruct (N.eqb_spec v 0); [done|].
    split_and!; [done| |done|lia]. set_solver.
  - intros (Hp & before & digits & Hid & Hn & Hv & Hpos).
    assert (rsplit_dot id = Some (before, Byte.x76 :: digits)) as -> by (apply rsplit_dot_some; split; [done|by apply not_elem_of_cons]).
    change (drop 1 (Byte.x76 :: digits)) with digits. rewrite Hv. split; [|done]. split; [intros ->; by destruct before|]. split; [done|].
    rewrite !guard_err_ok. split; [done|]. split; [by apply bool_decide_eq_false; eapply parse_u64_nonempty|].
    destruct (N.eqb_spec v 0); [lia|done].
Qed.

(** schemas.  The parameters of a schema are accepted exactly when the identifier is, the
    version and both digests are not zero, the codec is one of the three, and each resource
    is within its limit. *)
Theorem validate_schema_exact (p : SchemaValidationParams) :
  validate_schema p = Ok tt <->
  (exists v, parse_schema_version (sv_schema_id p) = Ok v) /\ sv_version p <> 0%N /\ (1 <= sv_codec p <= 3)%N /\
  sv_descriptor_hash p <> zero32 /\ sv_payload_hash p <> zero32 /\
  (sv_payload_size p <= MAX_PAYLOAD_SIZE)%N /\ (sv_merkle_depth p <= MAX_MERKLE_DEPTH)%N /\
  (sv_leaf_count p <= MAX_LEAVES)%N /\ (sv_attachment_count p <= MAX_ATTACHMENTS)%N.
Proof.
  assert (Hid : validate_schema_id (sv_schema_id p) = Ok tt <-> exists v, parse_schema_version (sv_schema_id p) = Ok v).
  { unfold parse_schema_version. split; [|by intros (v & [H _]%bind_unit_ok)]. intros H. rewrite H. cbn [mbind result_bind].
    unfold validate_schema_id in H. rewrite !guard_err_ok in H. destruct H as (_ & _ & H). destruct (rsplit_dot _) as [[a b]|]; [|done].
    rewrite !guard_err_ok in H. destruct H as (_ & _ & H). destruct (Checkpoint.parse_u64 _) as [v|]; [by exists v|done]. }
  assert (Hz : forall h (e : SchemaError), (if all_zero h then Err e else Ok tt) = Ok tt <-> h <> zero32).
  { intros h e. rewrite <- all_zero_iff. destruct (all_zero h); naive_solver. }
  assert (Hc : (exists c, validate_payload_codec (sv_codec p) = Ok c) <-> (1 <= sv_codec p <= 3)%N).
  { unfold validate_payload_codec. split.
    - intros [c H]. destruct (codec_from_u8 (sv_codec p)) as [c'|] eqn:Hs; [|done]. apply codec_from_u8_some in Hs. lia.
    - intros H. assert (sv_codec p = 1 \/ sv_codec p = 2 \/ sv_codec p = 3)%N as [->|[->| ->]] by lia; by eexists. }
  rewrite <- Hid, <- Hc. unfold validate_schema, validate_schema_version, validate_descriptor_hash, validate_payload_hash, validate_resource_limits.
  rewrite bind_unit_ok. destruct (validate_payload_codec (sv_codec p)) as [c|e].
  - rewrite bind_unit_ok. cbn [mbind result_bind]. rewrite !bind_unit_ok, !Hz, !guard_err_ok, !N.ltb_ge. destruct (N.eqb_spec (sv_version p) 0); naive_solver.
  - rewrite bind_unit_ok. cbn. naive_solver.
Qed.

(** primitives.  What is written is read back, whatever follows: numbers of 32 and 64
    bits, vectors, tagged variants, versions; and strings that the normal form leaves alone. *)
Theorem primitives_roundtrip (nfc : string -> string) (v w : N) (b rest : bytes) (t : byte) (ver : ProtocolVersion) (s : string) :
  (v <= u64_max)%N -> (w <= u32_max)%N -> (blen b < 2 ^ 64 - 8)%N ->
  (major ver <= 65535 /\ minor ver <= 65535 /\ patch ver <= 65535)%N -> is_utf8 s = true -> nfc s = s ->
  decode_u64 (encode_u64 v ++ rest) = Ok v /\ decode_u32 (encode_u32 w ++ rest) = Ok w /\
  decode_vec (encode_vec b ++ rest) = Some (Ok b) /\ decode_enum (encode_enum t b) = Ok (t, b) /\
  version_decode (version_encode ver ++ rest) = Ok ver /\
  decode_version (encode_version (major ver) (minor ver) (patch ver) ++ rest) = Ok (major ver, minor ver, patch ver) /\
  decode_string (encode_string nfc s) = Ok s.
Proof.
  intros Hv Hw Hb (Ha & Hi & Hp) Hs Hn. assert (H16 : forall x, length (u16_le x) = 2) by (intros; apply length_le_bytes).
  assert (Hver : forall rest, length (version_encode ver ++ rest) <? 6 = false) by
    (intros; unfold version_encode; rewrite !length_app, !H16; apply Nat.ltb_ge; lia).
  assert (H0 : take 2 (version_encode ver ++ rest) = u16_le (major ver)) by (unfold version_encode; rewrite <- app_assoc; by apply take_app_exact).
  assert (H2 : take 2 (drop 2 (version_encode ver ++ rest)) = u16_le (minor ver)).
  { unfold version_encode. rewrite <- app_assoc, drop_app_exact by done. rewrite <- app_assoc. by apply take_app_exact. }
  assert (H4 : take 2 (drop 4 (version_encode ver ++ rest)) = u16_le (patch ver)).
  { unfold version_encode. rewrite (app_assoc (u16_le (major ver))), <- app_assoc, drop_app_exact by (by rewrite length_app, !H16). by apply take_app_exact. }
  split_and!.
  - apply decode_u64_exact. by exists rest.
  - unfold decode_u32, encode_u32. assert (Hl : length (u32_le w) = 4) by apply length_le_bytes.
    rewrite length_app, Hl. cbn [Nat.add Nat.ltb Nat.leb guard_err]. by rewrite take_app_exact, of_u32_le.
  - assert (Hl : length (encode_u64 (blen b)) = 8) by apply length_le_bytes. unfold decode_vec, encode_vec. rewrite <- app_assoc.
    rewrite length_app, Hl. cbn [Nat.add Nat.ltb Nat.leb].
    rewrite (proj2 (decode_u64_exact _ (blen b))) by (exists (b ++ rest); split; [done|unfold u64_max; lia]).
    rewrite add64_small by (unfold u64_max; lia). rewrite (proj2 (N.ltb_ge (8 + blen b) 8)) by lia.
    assert (Hbl : blen (encode_u64 (blen b) ++ b ++ rest) = (8 + blen b + blen rest)%N) by (unfold blen at 1; rewrite !length_app, Hl; unfold blen; lia).
    rewrite Hbl, (proj2 (N.ltb_ge _ _)) by lia.
    rewrite N2Nat.inj_add, take_app_add' by (by rewrite Hl). rewrite drop_app_exact by done.
    by rewrite take_app_exact by (unfold blen; lia).
  - done.
  - unfold version_decode. rewrite Hver, H0, H2, H4, !of_u16_le by done. by destruct ver.
  - unfold decode_version. change (encode_version (major ver) (minor ver) (patch ver)) with (version_encode ver).
    by rewrite Hver, H0, H2, H4, !of_u16_le.
  - unfold decode_string, encode_string. by rewrite Hn, from_utf8_as_bytes.
Qed.

(** ** Witnesses *)

Lemma primitives_roundtrip_witness :
  decode_vec (encode_vec [Byte.x01; Byte.x02] ++ [Byte.x03]) = Some (Ok [Byte.x01; Byte.x02]).
Proof.
  destruct (primitives_roundtrip (fun s => s) 7 7 [Byte.x01; Byte.x02] [Byte.x03] Byte.x00 CURRENT "seal") as (_ & _ & H & _);
    [vm_compute; discriminate|vm_compute; discriminate|vm_compute; reflexivity|
     split; [|split]; vm_compute; discriminate|reflexivity|reflexivity|exact H].
Defined.
