(* ===== verification/Resolution.v ===== *)
(** * State-use exclusivity (csv-protocol/src/exclusivity.rs)

    Whether an output may be consumed once or cited any number of times is bound when
    it is created.  Schemas that bind state types to classes, the binding an output
    keeps with its wire form, and the check of a binding against a later schema. *)

From S2P Require Import Prelude Ord Bytes Hashing Dag Text Seal Reference.

(** A state type is a [u16]. *)
Notation StateTypeId := N.
Definition STATE_USE_SEMANTICS_VERSION : N := 2.

Inductive ExclusivityClass := Citable | Exclusive.
Inductive ConsumptionMode := Observational | ExclusiveUse.

Global Instance ExclusivityClass_eq_dec : EqDecision ExclusivityClass.
Proof. solve_decision. Defined.
Global Instance ConsumptionMode_eq_dec : EqDecision ConsumptionMode.
Proof. solve_decision. Defined.

Inductive ExclusivityError :=
| ObservationalUseOfExclusiveState (t : StateTypeId)
| ExclusiveUseOfCitableState (t : StateTypeId)
| RebindingRefused (t : StateTypeId) (existing proposed : ExclusivityClass)
| SchemaReinterpretation (t : StateTypeId) (schema output : ExclusivityClass)
| UnboundStateType (t : StateTypeId)
| UnknownClass (b : N)
| UnsupportedSemanticsVersion (found supported : N).

(** [ExclusivityClass::discriminant], [from_discriminant], [required_mode] *)
Definition discriminant (c : ExclusivityClass) : byte :=
  match c with Citable => Byte.x01 | Exclusive => Byte.x02 end.
Definition from_discriminant (b : byte) : option ExclusivityClass :=
  match b with Byte.x01 => Some Citable | Byte.x02 => Some Exclusive | _ => None end.
Definition required_mode (c : ExclusivityClass) : ConsumptionMode :=
  match c with Citable => Observational | Exclusive => ExclusiveUse end.

(** ** Output bindings *)

Record OutputUseBinding := mkBinding {
  ob_semantics_version : N;
  ob_state_type : StateTypeId;
  ob_class : ExclusivityClass
}.

(** [OutputUseBinding::authorize] *)
Definition authorize (b : OutputUseBinding) (requested : ConsumptionMode)
  : result ExclusivityError ConsumptionMode :=
  match ob_class b, requested with
  | Exclusive, Observational => Err (ObservationalUseOfExclusiveState (ob_state_type b))
  | Citable, ExclusiveUse => Err (ExclusiveUseOfCitableState (ob_state_type b))
  | _, _ => Ok (required_mode (ob_class b))
  end.

(** [to_canonical_bytes]: two little-endian [u16]s and the class. *)
Definition binding_to_canonical_bytes (b : OutputUseBinding) : bytes :=
  le_bytes 2 (ob_semantics_version b) ++ le_bytes 2 (ob_state_type b) ++ [discriminant (ob_class b)].

(** [from_canonical_bytes] *)
Definition binding_from_canonical_bytes (b : bytes) : result ExclusivityError OutputUseBinding :=
  match b with
  | [v0; v1; t0; t1; c] =>
      let version := of_le_bytes [v0; v1] in
      reject (STATE_USE_SEMANTICS_VERSION <? version)%N
        with UnsupportedSemanticsVersion version STATE_USE_SEMANTICS_VERSION ;;
      class ← ok_or (UnknownClass (Byte.to_N c)) (from_discriminant c);
      Ok (mkBinding version (of_le_bytes [t0; t1]) class)
  | _ => Err (UnknownClass 0)
  end.

(** ** Schemas *)

Record StateUseSchema := mkSchema {
  ss_version : N;
  ss_bindings : gmap StateTypeId ExclusivityClass
}.
Definition StateUseSchema_new : StateUseSchema := mkSchema STATE_USE_SEMANTICS_VERSION ∅.

Definition class_of (s : StateUseSchema) (t : StateTypeId) : option ExclusivityClass :=
  ss_bindings s !! t.

(** [StateUseSchema::bind] *)
Definition bind (s : StateUseSchema) (t : StateTypeId) (c : ExclusivityClass)
  : StateUseSchema * result ExclusivityError unit :=
  match class_of s t with
  | Some existing =>
      if bool_decide (existing = c) then (s, Ok tt) else (s, Err (RebindingRefused t existing c))
  | None => (mkSchema (ss_version s) (<[t := c]> (ss_bindings s)), Ok tt)
  end.

(** [StateUseSchema::bind_output] *)
Definition bind_output (s : StateUseSchema) (t : StateTypeId)
  : result ExclusivityError OutputUseBinding :=
  c ← ok_or (UnboundStateType t) (class_of s t); Ok (mkBinding (ss_version s) t c).

(** [StateUseSchema::reconcile] *)
Definition reconcile (s : StateUseSchema) (b : OutputUseBinding) : result ExclusivityError unit :=
  match class_of s (ob_state_type b) with
  | None => Err (UnboundStateType (ob_state_type b))
  | Some c => if bool_decide (c = ob_class b) then Ok tt
              else Err (SchemaReinterpretation (ob_state_type b) c (ob_class b))
  end.

(** Successive [bind] calls. *)
Definition bind_all (s : StateUseSchema) (l : list (StateTypeId * ExclusivityClass))
  : StateUseSchema := fold_left (fun s x => fst (bind s x.1 x.2)) l s.

(** ** Lemmas *)

Definition u16_max : N := 65535.

Lemma class_of_bind s t c t' :
  class_of (fst (bind s t c)) t'
  = if decide (t = t') then Some (default c (class_of s t)) else class_of s t'.
Proof.
  unfold bind. destruct (class_of s t) as [e|] eqn:E.
  - assert (fst (if bool_decide (e = c) then (s, Ok tt) else (s, Err (RebindingRefused t e c))) = s)
      as -> by (by case_bool_decide).
    case_decide; subst; by rewrite ?E.
  - unfold class_of in *. cbn. case_decide as Ht; subst; by rewrite ?lookup_insert_eq, ?lookup_insert_ne.
Qed.

Lemma bind_all_keeps l s t c : class_of s t = Some c -> class_of (bind_all s l) t = Some c.
Proof.
  revert s. induction l as [|[t' c'] l IH]; intros s H; [done|]. cbn. apply IH.
  rewrite class_of_bind. case_decide; subst; [by rewrite H|done].
Qed.

Lemma le2_roundtrip v : (v <= u16_max)%N -> of_le_bytes (le_bytes 2 v) = v.
Proof.
  intros Hv. rewrite of_le_bytes_le_bytes. apply N.mod_small. unfold u16_max in Hv. simpl. lia.
Qed.

Lemma from_discriminant_spec b c : from_discriminant b = Some c <-> b = discriminant c.
Proof.
  split; [|intros ->; by destruct c].
  destruct b; cbn; intros [= <-]; done.
Qed.

(** ** Theorems *)

(** Exclusivity is bound at creation.  An output whose type a schema bound keeps that
    class through every later binding call: the grown schema still reconciles with it, a
    binding of the other class for its type is refused by both [bind] and [reconcile],
    and the only use it ever authorizes is the one its class requires. *)
Theorem exclusivity_not_downgradable (s : StateUseSchema) (t : StateTypeId) (b : OutputUseBinding)
    (later : list (StateTypeId * ExclusivityClass)) (Hb : bind_output s t = Ok b) :
  let s' := bind_all s later in
  reconcile s' b = Ok tt /\
  (forall c, c <> ob_class b ->
     snd (bind s' t c) = Err (RebindingRefused t (ob_class b) c) /\
     reconcile s' (mkBinding (ob_semantics_version b) t c)
     = Err (SchemaReinterpretation t (ob_class b) c)) /\
  (forall mode, is_ok (authorize b mode) = bool_decide (mode = required_mode (ob_class b))).
Proof.
  intros s'. unfold bind_output in Hb. destruct (class_of s t) as [c0|] eqn:E; [|done].
  injection Hb as <-. cbn [ob_class ob_state_type ob_semantics_version].
  assert (Hs : class_of s' t = Some c0) by (by apply bind_all_keeps).
  split; [|split].
  - unfold reconcile. cbn [ob_state_type ob_class]. by rewrite Hs, bool_decide_true.
  - intros c Hc. unfold bind, reconcile. cbn [ob_state_type ob_class]. rewrite Hs, !bool_decide_false by congruence. done.
  - intros mode. unfold authorize. by destruct c0, mode.
Qed.

(** The wire form of a binding is canonical: decoding accepts exactly the encodings of
    bindings whose type fits 16 bits and whose version is supported, and gives each
    binding back. *)
Theorem binding_codec_canonical (bs : bytes) (b : OutputUseBinding) :
  binding_from_canonical_bytes bs = Ok b <->
  bs = binding_to_canonical_bytes b /\ (ob_state_type b <= u16_max)%N /\
  (ob_semantics_version b <= STATE_USE_SEMANTICS_VERSION)%N.
Proof.
  split.
  - unfold binding_from_canonical_bytes. intros H.
    destruct bs as [|v0 [|v1 [|t0 [|t1 [|c [|? ?]]]]]]; try done.
    apply guard_err_ok in H as [Hv H]. apply N.ltb_ge in Hv.
    destruct (from_discriminant c) as [k|] eqn:E; [|done]. injection H as <-.
    apply from_discriminant_spec in E as ->. cbn [ob_state_type ob_semantics_version ob_class].
    unfold binding_to_canonical_bytes. cbn [ob_state_type ob_semantics_version ob_class].
    pose proof (le_bytes_of_le_bytes [v0; v1]) as H1. pose proof (le_bytes_of_le_bytes [t0; t1]) as H2.
    cbn [length of_le_bytes] in *. rewrite H1, H2. split; [done|]. split; [|done].
    pose proof (Byte.to_N_bounded t0). pose proof (Byte.to_N_bounded t1). unfold u16_max. lia.
  - intros (-> & Ht & Hv). destruct b as [v t k]. cbn [ob_state_type ob_semantics_version] in *.
    unfold binding_to_canonical_bytes, binding_from_canonical_bytes.
    cbn [ob_state_type ob_semantics_version ob_class le_bytes app].
    change (of_le_bytes [byte_of v; byte_of (v / 256)]) with (of_le_bytes (le_bytes 2 v)).
    change (of_le_bytes [byte_of t; byte_of (t / 256)]) with (of_le_bytes (le_bytes 2 t)).
    rewrite !le2_roundtrip by (unfold u16_max, STATE_USE_SEMANTICS_VERSION in *; lia).
    rewrite (proj2 (N.ltb_ge _ _)) by done. cbn [guard_err].
    by rewrite (proj2 (from_discriminant_spec _ k)).
Qed.

(** ** Witnesses *)

Lemma exclusivity_not_downgradable_witness :
  let s := fst (bind StateUseSchema_new 7 Exclusive) in
  reconcile (bind_all s [(7%N, Citable); (8%N, Citable)]) (mkBinding 2 7 Exclusive) = Ok tt.
Proof.
  cbn zeta.
  apply (exclusivity_not_downgradable (fst (bind StateUseSchema_new 7 Exclusive)) 7
           (mkBinding 2 7 Exclusive) [(7%N, Citable); (8%N, Citable)]).
  reflexivity.
Defined.

(** * Transitions and the resolution of consumed state
    (csv-protocol/src/state.rs, transition.rs, resolution.rs)

    A transition's inputs are claims about parent outputs.  Resolution turns each into
    exactly one parent, checked for type, schema, content, and an authorized signer, and
    commits to the resolved inputs and the created outputs.  Where the parents come from
    is an interface, [ParentStateSource]; canonical CBOR is a parameter. *)

(** ** State and transitions *)

Record GlobalState := mkGlobalState { gs_type_id : N; gs_data : bytes }.
Record Metadata := mkMetadata { md_key : string; md_value : bytes }.
Record StateAssignment := mkAssignment { sa_type_id : N; sa_seal : SealPointWire; sa_data : bytes }.
Record StateRef := mkStateRef { sr_type_id : N; sr_commitment : HashWire; sr_output_index : N }.

(** [StateAssignment::new], [StateRef::new], [GlobalState::from_hash], [as_hash] *)
Definition StateAssignment_new (t : N) (s : SealPoint) (data : bytes) : StateAssignment :=
  mkAssignment t (seal_to_wire s) data.
Definition StateRef_new (t : N) (commitment : Hash) (index : N) : StateRef :=
  mkStateRef t (wire_of_hash commitment) index.
Definition global_from_hash (t : N) (h : Hash) : GlobalState := mkGlobalState t (b32 h).
Definition global_as_hash (g : GlobalState) : option Hash := to_b32 (gs_data g).

Record Transition := mkTransition {
  tr_id : N;
  owned_inputs : list StateRef;
  owned_outputs : list StateAssignment;
  global_updates : list GlobalState;
  tr_metadata : list Metadata;
  tr_validation_script : bytes;
  tr_signatures : list bytes
}.

Definition is_genesis_like (t : Transition) : bool := bool_decide (owned_inputs t = []).
Definition is_destructive (t : Transition) : bool :=
  match owned_outputs t, global_updates t with [], [] => true | _, _ => false end.

(** [assigned_seals]: seals whose wire form does not decode are left out. *)
Definition assigned_seals (t : Transition) : list SealPoint :=
  omap (fun o => match seal_of_wire (sa_seal o) with Ok s => Some s | Err _ => None end)
    (owned_outputs t).

(** [slice.chunks(32)] *)
Fixpoint chunks32 (fuel : nat) (b : bytes) : list bytes :=
  match fuel, b with
  | S fuel, _ :: _ => take 32 b :: chunks32 fuel (drop 32 b)
  | _, _ => []
  end.

(** The lifecycle of [transition.rs]. *)
Inductive State :=
| SLocked | SAwaitingFinality | SProofBuilding | SProofValidated | SMinting | SCompleted
| SRolledBack | SCompromised.
Definition is_legal_transition (from to : State) : bool :=
  match from, to with
  | SLocked, SAwaitingFinality => true
  | SAwaitingFinality, SProofBuilding => true
  | SProofBuilding, SProofValidated => true
  | SProofValidated, SMinting => true
  | SMinting, SCompleted => true
  | _, SRolledBack => true
  | _, SCompromised => true
  | _, _ => false
  end.

Section Transitions.
Variable sha256 : bytes -> Bytes32.
(** [to_canonical_cbor]; [None] when it fails. *)
Variable cbor : Transition -> option bytes.

(** [Transition::hash] *)
Definition transition_hash (t : Transition) : Hash :=
  domain_hash sha256 "csv.transition.v1" (default [] (cbor t)).

(** [Transition::to_dag_node] *)
Definition to_dag_node (t : Transition) : DAGNode :=
  let w := flat_map md_value (tr_metadata t) in
  mkNode (transition_hash t) (tr_validation_script t) (tr_signatures t) (chunks32 (length w) w) [].
End Transitions.

(** ** Parent outputs *)

Definition PARENT_OUTPUT_TAG : string := "parent-output-v2".
Definition CREATED_OUTPUT_TAG : string := "created-output-v2".
Definition RESOLVED_TRANSITION_TAG : string := "resolved-transition-v2".

Record ParentOutput := mkParent {
  po_transition_id : Hash;
  po_output_index : N;
  po_state_type : StateTypeId;
  use_binding : OutputUseBinding;
  po_seal : SealPoint;
  po_data : bytes;
  recorded_commitment : Hash;
  authorized_consumers : list bytes
}.

(** [trait ParentStateSource] *)
Class ParentStateSource (S : Type) := {
  ps_outputs : S -> Hash -> N -> list ParentOutput;
  ps_contains_transition : S -> Hash -> bool
}.

(** [impl ParentStateSource for Vec<ParentOutput>] *)
Global Instance vec_source : ParentStateSource (list ParentOutput) := {|
  ps_outputs l t i := List.filter (fun o => bool_decide (po_transition_id o = t) &&
                                            (po_output_index o =? i)%N) l;
  ps_contains_transition l t := existsb (fun o => bool_decide (po_transition_id o = t)) l
|}.

Inductive ResolutionError :=
| MissingParent (t : Hash)
| WrongOutputIndex (t : Hash) (i : N)
| AmbiguousParent (t : Hash) (i : N) (matches : nat)
| StateTypeMismatch (t : Hash) (i : N) (referenced actual : StateTypeId)
| Schema (e : ExclusivityError)
| CommitmentMismatch (t : Hash) (i : N) (recorded recomputed : Hash)
| Unauthorized (t : Hash) (i : N)
| NoAuthorizedConsumer (t : Hash) (i : N)
| DuplicateConsumption (t : Hash) (i : N)
| UnboundCreatedOutput (index : nat) (t : StateTypeId)
| MalformedReference (index : nat) (reason : string).

Record ResolvedInput := mkResolvedInput {
  ri_reference : ConsumedStateRef;
  ri_parent : ParentOutput;
  ri_mode : ConsumptionMode
}.

Record ResolvedTransition := mkResolved {
  rt_transition_id : N;
  rt_inputs : list ResolvedInput;
  rt_outputs : list StateAssignment;
  rt_validation_script : bytes
}.

(** [mode as u8] *)
Definition mode_byte (m : ConsumptionMode) : byte :=
  match m with Observational => Byte.x01 | ExclusiveUse => Byte.x02 end.

(** [nonce.unwrap_or_default().to_le_bytes()] *)
Definition nonce_bytes (n : option N) : bytes := u64_le (default 0%N n).

Section Commitments.
Variable sha256 : bytes -> Bytes32.
Notation csv_hash tag := (csv_tagged_hash sha256 (as_bytes tag)).

(** What [ParentOutput::content_commitment] hashes. *)
Definition parent_bytes (p : ParentOutput) : bytes :=
  b32 (po_transition_id p) ++ u32_le (po_output_index p) ++ le_bytes 2 (po_state_type p) ++
  sized (binding_to_canonical_bytes (use_binding p)) ++ sized (seal_id (po_seal p)) ++
  nonce_bytes (seal_nonce (po_seal p)) ++ sized (po_data p) ++
  sized_list (authorized_consumers p).
Definition content_commitment (p : ParentOutput) : Hash := csv_hash PARENT_OUTPUT_TAG (parent_bytes p).

(** [ParentOutput::sealed] *)
Definition parent_sealed (t : Hash) (i : N) (b : OutputUseBinding) (seal : SealPoint)
    (data : bytes) (consumers : list bytes) : ParentOutput :=
  let o := mkParent t i (ob_state_type b) b seal data Hash.zero consumers in
  mkParent t i (ob_state_type b) b seal data (content_commitment o) consumers.

(** [ParentOutput::reference] *)
Definition parent_reference (p : ParentOutput) : ConsumedStateRef :=
  mkConsumed (po_transition_id p) (po_output_index p) (po_state_type p).

(** [ResolvedInput::digest] *)
Definition input_digest (r : ResolvedInput) : Hash :=
  csv_hash PARENT_OUTPUT_TAG
    (consumed_to_canonical_bytes (ri_reference r) ++ b32 (content_commitment (ri_parent r)) ++
     [mode_byte (ri_mode r)]).

(** [created_output_digest] *)
Definition created_bytes (index : nat) (o : StateAssignment) : bytes :=
  u32_le (N.of_nat index) ++ le_bytes 2 (sa_type_id o) ++ sized (as_bytes (sw_id (sa_seal o))) ++
  nonce_bytes (sw_nonce (sa_seal o)) ++ sized (sa_data o).
Definition created_output_digest (index : nat) (o : StateAssignment) : Hash :=
  csv_hash CREATED_OUTPUT_TAG (created_bytes index o).

(** [ResolvedTransition::commitment] *)
Definition resolved_bytes (r : ResolvedTransition) : bytes :=
  le_bytes 2 (rt_transition_id r) ++
  hash_list (map input_digest (rt_inputs r)) ++
  hash_list (imap created_output_digest (rt_outputs r)) ++ sized (rt_validation_script r).
Definition resolved_commitment (r : ResolvedTransition) : Hash :=
  csv_hash RESOLVED_TRANSITION_TAG (resolved_bytes r).

(** ** Resolution *)

(** [ResolvedTransition::consumed_seals], [exclusive_inputs], [requires_source_closure] *)
Definition consumed_seals (r : ResolvedTransition) : list SealPoint :=
  map (fun i => po_seal (ri_parent i)) (rt_inputs r).
Definition exclusive_inputs (r : ResolvedTransition) : list ResolvedInput :=
  List.filter (fun i => bool_decide (ri_mode i = ExclusiveUse)) (rt_inputs r).
Definition requires_source_closure (r : ResolvedTransition) : bool :=
  existsb (fun i => bool_decide (ob_class (use_binding (ri_parent i)) = Exclusive)) (rt_inputs r).

(** The two loops of [validate_rules]. *)
Fixpoint check_outputs (schema : StateUseSchema) (index : nat) (l : list StateAssignment)
  : result ResolutionError unit :=
  match l with
  | [] => Ok tt
  | o :: l' =>
      match class_of schema (sa_type_id o) with
      | None => Err (UnboundCreatedOutput index (sa_type_id o))
      | Some _ => check_outputs schema (S index) l'
      end
  end.
Definition validate_rules (r : ResolvedTransition) (schema : StateUseSchema)
  : result ResolutionError unit :=
  _ ← check_outputs schema 0 (rt_outputs r);
  try_each (fun i => map_err Schema (reconcile schema (use_binding (ri_parent i)))) (rt_inputs r).

(** [resolve_input] *)
Definition resolve_input {S} `{ParentStateSource S} (r : ConsumedStateRef) (source : S)
    (schema : StateUseSchema) (signers : list bytes) : result ResolutionError ResolvedInput :=
  let t := transition_id r in let i := output_index r in
  let candidates := ps_outputs source t i in
  parent ← match candidates with
           | [p] => Ok p
           | [] => if ps_contains_transition source t then Err (WrongOutputIndex t i)
                   else Err (MissingParent t)
           | _ => Err (AmbiguousParent t i (length candidates))
           end;
  reject negb (po_state_type parent =? state_type r)%N
    with StateTypeMismatch t i (state_type r) (po_state_type parent) ;;
  match reconcile schema (use_binding parent) with
  | Err e => Err (Schema e)
  | Ok _ =>
      reject negb (bool_decide (recorded_commitment parent = content_commitment parent))
        with CommitmentMismatch t i (recorded_commitment parent) (content_commitment parent) ;;
      reject bool_decide (authorized_consumers parent = []) with NoAuthorizedConsumer t i ;;
      reject negb (existsb (fun s => bool_decide (s ∈ authorized_consumers parent)) signers)
        with Unauthorized t i ;;
      mode ← map_err Schema (authorize (use_binding parent)
                               (required_mode (ob_class (use_binding parent))));
      Ok (mkResolvedInput r parent mode)
  end.

(** [consumed_state_refs]: the first malformed commitment stops it. *)
Fixpoint refs_from (index : nat) (l : list StateRef) : result ResolutionError (list ConsumedStateRef) :=
  match l with
  | [] => Ok []
  | x :: l' =>
      t ← map_err (MalformedReference index) (wire_to_hash (sr_commitment x));
      rs ← refs_from (S index) l';
      Ok (mkConsumed t (sr_output_index x) (sr_type_id x) :: rs)
  end.
Definition consumed_state_refs : list StateRef -> result ResolutionError (list ConsumedStateRef) :=
  refs_from 0.

Definition ref_key (r : ConsumedStateRef) : Hash * N := (transition_id r, output_index r).

(** The loop of [resolve_transition], with the set of references seen. *)
Fixpoint resolve_inputs {S} `{ParentStateSource S} (source : S) (schema : StateUseSchema)
    (signers : list bytes) (seen : list (Hash * N)) (l : list ConsumedStateRef)
  : result ResolutionError (list ResolvedInput) :=
  match l with
  | [] => Ok []
  | r :: l' =>
      reject bool_decide (ref_key r ∈ seen)
        with DuplicateConsumption (transition_id r) (output_index r) ;;
      i ← resolve_input r source schema signers;
      rest ← resolve_inputs source schema signers (ref_key r :: seen) l';
      Ok (i :: rest)
  end.

(** [resolve_transition] *)
Definition resolve_transition {S} `{ParentStateSource S} (t : Transition) (source : S)
    (schema : StateUseSchema) (signers : list bytes) : result ResolutionError ResolvedTransition :=
  refs ← consumed_state_refs (owned_inputs t);
  inputs ← resolve_inputs source schema signers [] refs;
  let resolved := mkResolved (tr_id t) inputs (owned_outputs t) (tr_validation_script t) in
  _ ← validate_rules resolved schema;
  Ok resolved.
End Commitments.

(** ** Lemmas: little-endian pieces *)

Definition u16_ok (v : N) : Prop := (v <= u16_max)%N.

Lemma le2_inj v w : u16_ok v -> u16_ok w -> le_bytes 2 v = le_bytes 2 w -> v = w.
Proof. unfold u16_ok, u16_max. intros Hv Hw. apply (le_bytes_inj 2); simpl; lia. Qed.

#[export] Instance pf_u16_le : PrefixFree u16_ok (le_bytes 2).
Proof. apply (prefix_free_fixed _ _ 2); [intros; apply length_le_bytes|apply le2_inj]. Qed.
#[export] Instance pf_u32_le : PrefixFree (fun v => v <= u32_max)%N u32_le.
Proof.
  apply (prefix_free_fixed _ _ 4); [intros; apply length_le_bytes|]. intros. by apply u32_le_inj.
Qed.
#[export] Instance pf_u64_le : PrefixFree (fun v => v <= u64_max)%N u64_le.
Proof.
  apply (prefix_free_fixed _ _ 8); [intros; apply length_le_bytes|]. intros. by apply u64_le_inj.
Qed.
#[export] Instance pf_sized : PrefixFree fits sized.
Proof.
  intros x y k l Hx Hy H. unfold sized in H. rewrite <- !app_assoc in H.
  apply (prefix_free (enc := u32_le)) in H as [Hl H]; [|done|done].
  apply app_eq_length_inj in H; [done|]. unfold blen in Hl. lia.
Qed.

(** A little-endian count and the items. *)
Lemma pf_counted {A} (P : A -> Prop) enc `{!PrefixFree P enc} :
  PrefixFree (list_ok P) (fun l => u32_le (blen l) ++ flat_map enc l).
Proof.
  intros x y k l [Hx Px] [Hy Py] H. rewrite <- !app_assoc in H.
  apply (prefix_free (enc := u32_le)) in H as [Hl H]; [|done|done].
  apply (pf_flat_map P enc) in H; [done| |done|done]. unfold blen in Hl. lia.
Qed.
#[export] Instance pf_sized_list : PrefixFree (list_ok fits) sized_list.
Proof. apply (pf_counted fits sized). Qed.
#[export] Instance pf_hash_list : PrefixFree (list_ok (fun _ => True)) hash_list.
Proof. apply (pf_counted (fun _ => True) b32). Qed.

Definition binding_ok (b : OutputUseBinding) : Prop :=
  u16_ok (ob_semantics_version b) /\ u16_ok (ob_state_type b).
#[export] Instance pf_binding : PrefixFree binding_ok binding_to_canonical_bytes.
Proof.
  apply (prefix_free_fixed _ _ 5); [done|]. intros [v t c] [v' t' c'] [Hv Ht] [Hv' Ht'] H.
  unfold binding_to_canonical_bytes in H. cbn [ob_semantics_version ob_state_type ob_class] in *.
  apply prefix_free in H as [-> H]; [|done|done]. apply prefix_free in H as [-> H]; [|done|done].
  by destruct c, c'.
Qed.

(** ** Lemmas: what a commitment covers *)

Definition nonce_ok (n : option N) : Prop := (default 0 n <= u64_max)%N.

(** Numbers fit their width and lengths their prefix. *)
Definition parent_ok (p : ParentOutput) : Prop :=
  (po_output_index p <= u32_max)%N /\ u16_ok (po_state_type p) /\ binding_ok (use_binding p) /\
  fits (seal_id (po_seal p)) /\ nonce_ok (seal_nonce (po_seal p)) /\ fits (po_data p) /\
  list_ok fits (authorized_consumers p).
Definition ref_ok (r : ConsumedStateRef) : Prop := (output_index r <= u32_max)%N /\ u16_ok (state_type r).
Definition input_ok (i : ResolvedInput) : Prop := ref_ok (ri_reference i) /\ parent_ok (ri_parent i).
Definition output_ok (o : StateAssignment) : Prop :=
  u16_ok (sa_type_id o) /\ fits (as_bytes (sw_id (sa_seal o))) /\ nonce_ok (sw_nonce (sa_seal o)) /\
  fits (sa_data o).
Definition resolved_ok (r : ResolvedTransition) : Prop :=
  u16_ok (rt_transition_id r) /\ fits (rt_validation_script r) /\
  fits (rt_inputs r) /\ Forall input_ok (rt_inputs r) /\
  fits (rt_outputs r) /\ Forall output_ok (rt_outputs r).

(** The part of each piece that is hashed: a seal without its version, and with an
    absent nonce read as zero. *)
Definition parent_view (p : ParentOutput) :=
  (po_transition_id p, po_output_index p, po_state_type p, use_binding p,
   seal_id (po_seal p), default 0%N (seal_nonce (po_seal p)), po_data p, authorized_consumers p).
Definition input_view (i : ResolvedInput) :=
  (ri_reference i, parent_view (ri_parent i), ri_mode i).
Definition output_view (o : StateAssignment) :=
  (sa_type_id o, sw_id (sa_seal o), default 0%N (sw_nonce (sa_seal o)), sa_data o).
Definition resolved_view (r : ResolvedTransition) :=
  (rt_transition_id r, map input_view (rt_inputs r), map output_view (rt_outputs r),
   rt_validation_script r).

Lemma parent_bytes_inj p q :
  parent_ok p -> parent_ok q -> parent_bytes p = parent_bytes q -> parent_view p = parent_view q.
Proof.
  intros (Hi & Ht & Hb & Hs & Hn & Hd & Hc) (Hi' & Ht' & Hb' & Hs' & Hn' & Hd' & Hc') H.
  unfold parent_bytes, nonce_bytes in H.
  apply (prefix_free (enc := b32) (P := fun _ => True)) in H as [E1 H]; [|done|done].
  apply (prefix_free (enc := u32_le)) in H as [E2 H]; [|done|done].
  apply (prefix_free (enc := le_bytes 2)) in H as [E3 H]; [|done|done].
  apply (prefix_free (enc := sized)) in H as [E4 H]; [|done|done].
  apply (prefix_free (enc := sized)) in H as [E5 H]; [|done|done].
  apply (prefix_free (enc := u64_le)) in H as [E6 H]; [|done|done].
  apply (prefix_free (enc := sized)) in H as [E7 H]; [|done|done].
  apply (prefix_free_inj (list_ok fits) sized_list) in H; [|done|done].
  apply (prefix_free_inj binding_ok binding_to_canonical_bytes) in E4; [|done|done].
  unfold parent_view. congruence.
Qed.

Lemma created_bytes_inj i o o' :
  output_ok o -> output_ok o' -> created_bytes i o = created_bytes i o' ->
  output_view o = output_view o'.
Proof.
  intros (Ht & Hs & Hn & Hd) (Ht' & Hs' & Hn' & Hd') H.
  unfold created_bytes, nonce_bytes in H. apply app_inv_head in H.
  apply (prefix_free (enc := le_bytes 2)) in H as [E1 H]; [|done|done].
  apply (prefix_free (enc := sized)) in H as [E2 H]; [|done|done].
  apply (prefix_free (enc := u64_le)) in H as [E3 H]; [|done|done].
  apply (prefix_free_inj fits sized) in H; [|done|done].
  apply as_bytes_inj in E2. unfold output_view. congruence.
Qed.

Section Binding.
Variable sha256 : bytes -> Bytes32.
Notation coll l := (collision_in sha256 l).

(** What is hashed for an input, for the output at an index and for a transition. *)
Definition input_hashed (i : ResolvedInput) : list bytes :=
  [csv_preimage sha256 (as_bytes PARENT_OUTPUT_TAG)
     (consumed_to_canonical_bytes (ri_reference i) ++ b32 (content_commitment sha256 (ri_parent i)) ++
      [mode_byte (ri_mode i)]);
   csv_preimage sha256 (as_bytes PARENT_OUTPUT_TAG) (parent_bytes (ri_parent i))].
Definition output_hashed (index : nat) (o : StateAssignment) : bytes :=
  csv_preimage sha256 (as_bytes CREATED_OUTPUT_TAG) (created_bytes index o).
Definition resolved_hashed (r : ResolvedTransition) : list bytes :=
  csv_preimage sha256 (as_bytes RESOLVED_TRANSITION_TAG) (resolved_bytes sha256 r)
  :: flat_map input_hashed (rt_inputs r) ++ imap output_hashed (rt_outputs r).

(** Equal lists of digests come from equal lists of views, unless strings collide. *)
Lemma imap_view {A B C} (Coll : Prop) (d : nat -> A -> B) (v : A -> C) (l l' : list A) :
  (forall i x y, l !! i = Some x -> l' !! i = Some y -> d i x = d i y -> v x = v y \/ Coll) ->
  imap d l = imap d l' -> map v l = map v l' \/ Coll.
Proof.
  revert d l'. induction l as [|x l IH]; intros d [|y l'] Hd H; try done; [by left|].
  rewrite !imap_cons in H. injection H as H1 H2.
  destruct (Hd 0 x y eq_refl eq_refl H1) as [E|?]; [|by right].
  destruct (IH (d ∘ S) l' (fun i => Hd (S i)) H2) as [E'|?]; [left|by right].
  cbn. by rewrite E, E'.
Qed.

Lemma imap_view_ext {A B C} (d : nat -> A -> B) (v : A -> C) (l l' : list A) :
  (forall i x y, v x = v y -> d i x = d i y) -> map v l = map v l' -> imap d l = imap d l'.
Proof.
  revert d l'. induction l as [|x l IH]; intros d [|y l'] Hd H; try done.
  injection H as H Hl. rewrite !imap_cons. f_equal; [by apply Hd|].
  apply IH; [|done]. intros i a b Hab. by apply Hd.
Qed.

Lemma imap_const {A B} (f : A -> B) (l : list A) : imap (fun _ x => f x) l = map f l.
Proof. induction l as [|x l IH]; [done|]. rewrite imap_cons. cbn. by f_equal. Qed.

Lemma input_digest_view l i j :
  input_ok i -> input_ok j -> input_hashed i ⊆ l -> input_hashed j ⊆ l ->
  input_digest sha256 i = input_digest sha256 j -> input_view i = input_view j \/ coll l.
Proof.
  unfold input_hashed, input_digest. intros [[Hi Ht] Hp] [[Hi' Ht'] Hp'] Hl Hl' H. hash_inj H.
  unfold consumed_to_canonical_bytes in H. rewrite <- !app_assoc in H. injection H as H.
  apply (prefix_free (enc := b32) (P := fun _ => True)) in H as [E1 H]; [|done|done].
  apply (prefix_free (enc := u32_le)) in H as [E2 H]; [|done|done].
  apply (prefix_free (enc := le_bytes 2)) in H as [E3 H]; [|done|done].
  apply (prefix_free (enc := b32) (P := fun _ => True)) in H as [E4 H]; [|done|done].
  unfold content_commitment in E4. hash_inj E4. left. apply parent_bytes_inj in E4; [|done|done].
  assert (Hm : ri_mode i = ri_mode j) by (by destruct (ri_mode i), (ri_mode j)).
  assert (Hr : ri_reference i = ri_reference j)
    by (destruct (ri_reference i), (ri_reference j); cbn in *; congruence).
  unfold input_view. by rewrite Hm, Hr, E4.
Qed.

Lemma resolved_commitment_view r r' :
  resolved_ok r -> resolved_ok r' ->
  resolved_commitment sha256 r = resolved_commitment sha256 r' ->
  resolved_view r = resolved_view r' \/ coll (resolved_hashed r ++ resolved_hashed r').
Proof.
  intros (Ht & Hs & Hi & His & Ho & Hos) (Ht' & Hs' & Hi' & His' & Ho' & Hos') H.
  unfold resolved_commitment in H. unfold resolved_hashed. hash_inj H. unfold resolved_bytes in H.
  set (hashed := _ ++ _). assert (Hsub : forall s, s ∈ [r; r'] -> resolved_hashed s ⊆ hashed).
  { unfold hashed. clear. intros s [->|[->|[]%not_elem_of_nil]%elem_of_cons]%elem_of_cons; unfold resolved_hashed; set_solver. }
  clearbody hashed.
  assert (Hlist : forall A (f : A -> Hash) l, fits l -> list_ok (fun _ : Hash => True) (map f l)).
  { intros A f l Hl. split; [|by apply Forall_true]. unfold fits, blen in *. by rewrite length_map. }
  assert (Hilist : forall A (f : nat -> A -> Hash) l, fits l ->
            list_ok (fun _ : Hash => True) (imap f l)).
  { intros A f l Hl. split; [|by apply Forall_true]. unfold fits, blen in *. by rewrite length_imap. }
  apply (prefix_free (enc := le_bytes 2)) in H as [E1 H]; [|done|done].
  apply (prefix_free (enc := hash_list)) in H as [E2 H]; [|by apply Hlist..].
  apply (prefix_free (enc := hash_list)) in H as [E3 H]; [|by apply Hilist..].
  apply (prefix_free_inj fits sized) in H; [|done|done].
  rewrite <- !imap_const in E2.
  rewrite Forall_forall in His, His'. rewrite Forall_forall in Hos, Hos'.
  assert (Hin : forall s i x, s ∈ [r; r'] -> rt_inputs s !! i = Some x -> input_hashed x ⊆ hashed).
  { clear -Hsub. intros s i x Hs' Hx. etransitivity; [apply flat_map_sub; by apply list_elem_of_lookup_2 in Hx|].
    specialize (Hsub s Hs'). unfold resolved_hashed in Hsub. set_solver. }
  assert (Hout : forall s i x, s ∈ [r; r'] -> rt_outputs s !! i = Some x -> output_hashed i x ∈ hashed).
  { clear -Hsub. intros s i x Hs' Hx. apply (Hsub s Hs'). unfold resolved_hashed. apply list_elem_of_further.
    apply elem_of_app. right. by apply elem_of_lookup_imap_2. }
  apply (imap_view (coll hashed) _ input_view) in E2 as [E2|?]; [|by right|].
  2: { intros i x y Hx Hy. pose proof (list_elem_of_lookup_2 _ _ _ Hx). pose proof (list_elem_of_lookup_2 _ _ _ Hy).
       apply input_digest_view; eauto; [apply (Hin r i)|apply (Hin r' i)]; done || (pick). }
  apply (imap_view (coll hashed) _ output_view) in E3 as [E3|?]; [|by right|].
  - left. unfold resolved_view. congruence.
  - intros i x y Hx Hy Hxy. pose proof (Hout r i x ltac:(pick) Hx). pose proof (Hout r' i y ltac:(pick) Hy).
    unfold created_output_digest in Hxy. unfold output_hashed in *. hash_inj Hxy. left.
    apply list_elem_of_lookup_2 in Hx, Hy. eapply created_bytes_inj; eauto.
Qed.
End Binding.

(** ** Lemmas: resolution *)

Lemma check_outputs_ok schema n l :
  check_outputs schema n l = Ok tt <-> Forall (fun o => is_Some (class_of schema (sa_type_id o))) l.
Proof.
  revert n. induction l as [|o l IH]; intros n; cbn; [by rewrite Forall_nil|].
  rewrite Forall_cons. destruct (class_of schema (sa_type_id o)) as [c|]; [rewrite IH|].
  - split; [intros H; split; [by exists c|done]|by intros [_ H]].
  - split; [done|]. by intros [[? [=]] _].
Qed.

Lemma authorize_required b : authorize b (required_mode (ob_class b)) = Ok (required_mode (ob_class b)).
Proof. unfold authorize. by destruct (ob_class b). Qed.

Lemma existsb_signer (signers : list bytes) (l : list bytes) :
  existsb (fun s => bool_decide (s ∈ l)) signers = true <-> exists s, s ∈ signers /\ s ∈ l.
Proof.
  rewrite existsb_exists. split.
  - intros (s & Hs & H). apply bool_decide_eq_true in H. exists s. by rewrite <- list_elem_of_In in Hs.
  - intros (s & Hs & H). exists s. split; [by apply list_elem_of_In|by apply bool_decide_eq_true].
Qed.

Section Resolving.
Variable sha256 : bytes -> Bytes32.
Context {S : Type} `{!ParentStateSource S}.

(** What a resolved input establishes. *)
Record resolves (source : S) (schema : StateUseSchema) (signers : list bytes)
    (r : ConsumedStateRef) (p : ParentOutput) : Prop := {
  res_unique : ps_outputs source (transition_id r) (output_index r) = [p];
  res_type : po_state_type p = state_type r;
  res_schema : class_of schema (ob_state_type (use_binding p)) = Some (ob_class (use_binding p));
  res_content : recorded_commitment p = content_commitment sha256 p;
  res_signer : exists s, s ∈ signers /\ s ∈ authorized_consumers p
}.

Lemma reconcile_ok schema b :
  reconcile schema b = Ok tt <-> class_of schema (ob_state_type b) = Some (ob_class b).
Proof.
  unfold reconcile. destruct (class_of schema (ob_state_type b)) as [c|]; [|done].
  case_bool_decide; naive_solver.
Qed.

Lemma resolve_input_ok r source schema signers i :
  resolve_input sha256 r source schema signers = Ok i <->
  exists p, resolves source schema signers r p /\
    i = mkResolvedInput r p (required_mode (ob_class (use_binding p))).
Proof.
  unfold resolve_input. split.
  - intros H. apply bind_ok in H as (p & Hp & H).
    apply guard_err_ok in H as [Ht H]. apply negb_false_iff, N.eqb_eq in Ht.
    destruct (reconcile schema (use_binding p)) as [[]|] eqn:Hr; [|done].
    rewrite !guard_err_ok, !negb_false_iff, bool_decide_eq_true, existsb_signer in H.
    destruct H as (Hc & _ & Hs & H). rewrite authorize_required in H. injection H as <-.
    exists p. split; [|done]. split; [|done|by apply reconcile_ok|done|done].
    destruct (ps_outputs source (transition_id r) (output_index r)) as [|q [|? ?]]; [|congruence|done].
    by destruct (ps_contains_transition source (transition_id r)).
  - intros (p & [Hu Ht Hr Hc Hs] & ->). rewrite Hu. cbn [mbind result_bind].
    rewrite guard_err_ok, negb_false_iff, N.eqb_eq. split; [done|].
    rewrite (proj2 (reconcile_ok schema (use_binding p))) by done.
    rewrite !guard_err_ok, !negb_false_iff, bool_decide_eq_true, existsb_signer.
    split; [done|]. split; [|split; [done|by rewrite authorize_required]].
    apply bool_decide_eq_false. intros E. destruct Hs as (s & _ & Hs). rewrite E in Hs.
    by apply not_elem_of_nil in Hs.
Qed.

Lemma resolve_inputs_ok source schema signers seen l ins :
  resolve_inputs sha256 source schema signers seen l = Ok ins <->
  Forall2 (fun r i => resolve_input sha256 r source schema signers = Ok i) l ins /\
  NoDup (map ref_key l) /\ Forall (fun r => ref_key r ∉ seen) l.
Proof.
  revert seen ins. induction l as [|r l IH]; intros seen ins; cbn [resolve_inputs].
  - split; [intros [= <-]; repeat split; constructor|].
    by intros [->%Forall2_nil_inv_l _].
  - rewrite guard_err_ok, bool_decide_eq_false, bind_ok. cbn [map].
    rewrite NoDup_cons, Forall_cons. split.
    + intros (Hr & i & Hi & H). apply bind_ok in H as (rest & Hrest & [= <-]).
      apply IH in Hrest as (H1 & H2 & H3). split; [by constructor|].
      rewrite Forall_forall in *. split; [split; [|done]|split; [done|]].
      * intros (x & Hx & Hin)%list_elem_of_fmap. apply (H3 x Hin). rewrite <- Hx. by left.
      * intros x Hx Hs. apply (H3 x Hx). by right.
    + intros (H1 & [Hn H2] & Hr & H3). apply Forall2_cons_inv_l in H1 as (i & rest & Hi & H1 & ->).
      split; [done|]. exists i. split; [done|]. apply bind_ok. exists rest. split; [|done].
      apply IH. split; [done|]. split; [done|]. rewrite Forall_forall in *. intros x Hx Hs.
      apply elem_of_cons in Hs as [Hs|Hs]; [|by apply (H3 x Hx)].
      apply Hn. rewrite <- Hs. by apply list_elem_of_fmap_2.
Qed.
End Resolving.

(** ** Theorems *)

(** Resolution is exact.  A transition resolves exactly when every input's commitment
    is a digest, no output is referenced twice, each reference has one and only one
    parent in the source, of the referenced type, whose class the schema agrees with,
    whose recorded commitment is that of its content, and one of whose authorized
    consumers is presented, and every created output's type is bound.  The result has
    one input per reference, in order, with that parent and the mode its class
    requires, and carries the outputs and the script unchanged. *)
Theorem resolve_transition_spec sha256 {S} `{!ParentStateSource S} (t : Transition) (source : S)
    (schema : StateUseSchema) (signers : list bytes) (rt : ResolvedTransition) :
  resolve_transition sha256 t source schema signers = Ok rt <->
  exists refs parents,
    consumed_state_refs (owned_inputs t) = Ok refs /\ NoDup (map ref_key refs) /\
    Forall2 (resolves sha256 source schema signers) refs parents /\
    Forall (fun o => is_Some (class_of schema (sa_type_id o))) (owned_outputs t) /\
    rt = mkResolved (tr_id t)
           (zip_with (fun r p => mkResolvedInput r p (required_mode (ob_class (use_binding p))))
              refs parents) (owned_outputs t) (tr_validation_script t).
Proof.
  assert (Hzip : forall refs ins,
    Forall2 (fun r i => resolve_input sha256 r source schema signers = Ok i) refs ins <->
    exists parents, Forall2 (resolves sha256 source schema signers) refs parents /\
      ins = zip_with (fun r p => mkResolvedInput r p (required_mode (ob_class (use_binding p))))
              refs parents).
  { intros refs. induction refs as [|r refs IH]; intros ins.
    - split; [intros ->%Forall2_nil_inv_l; by exists []|]. intros (ps & _ & ->). constructor.
    - split.
      + intros (i & rest & Hi & H & ->)%Forall2_cons_inv_l. apply resolve_input_ok in Hi as (p & Hp & ->).
        apply IH in H as (ps & Hps & ->). exists (p :: ps). split; [by constructor|done].
      + intros (ps & (p & ps' & Hp & H & ->)%Forall2_cons_inv_l & ->). cbn. constructor.
        * apply resolve_input_ok. by exists p.
        * apply IH. by exists ps'. }
  unfold resolve_transition, validate_rules. split.
  - intros (refs & Hrefs & H)%bind_ok. apply bind_ok in H as (ins & Hins & H).
    apply bind_ok in H as (u & Hv & [= <-]). apply bind_ok in Hv as (u' & Ho & _).
    apply resolve_inputs_ok in Hins as (H1 & H2 & _). apply Hzip in H1 as (ps & Hps & ->).
    exists refs, ps. destruct u'. cbn [rt_outputs] in Ho. apply check_outputs_ok in Ho. done.
  - intros (refs & ps & Hrefs & Hnd & Hps & Ho & ->). rewrite Hrefs. cbn [mbind result_bind].
    assert (Hins : resolve_inputs sha256 source schema signers [] refs
      = Ok (zip_with (fun r p => mkResolvedInput r p (required_mode (ob_class (use_binding p)))) refs ps)).
    { apply resolve_inputs_ok. split; [apply Hzip; by exists ps|]. split; [done|].
      apply Forall_forall. intros x _. apply not_elem_of_nil. }
    rewrite Hins. cbn [mbind result_bind rt_outputs].
    rewrite (proj2 (check_outputs_ok schema 0 (owned_outputs t))) by done. cbn [mbind result_bind].
    rewrite (proj2 (try_each_ok _ _)); [done|]. cbn [rt_inputs]. clear -Hps.
    induction Hps as [|r p refs ps [_ _ Hr _ _] _ IH]; cbn; constructor; [|done].
    cbn. by rewrite (proj2 (reconcile_ok schema (use_binding p))).
Qed.

(** What a resolved transition's commitment binds.  Two of them are equal exactly when
    the transitions have the same identifier, script, references, modes, parent contents
    and created outputs, up to the version of every seal and the difference between an
    absent nonce and a zero one, unless two of the strings hashed for them collide.  So the seals a
    transition consumes and creates are not bound entirely: changing a version, or an
    absent nonce to zero, leaves the commitment as it was. *)
Theorem resolved_commitment_exact sha256 (r r' : ResolvedTransition)
    (Hr : resolved_ok r) (Hr' : resolved_ok r') :
  (resolved_commitment sha256 r = resolved_commitment sha256 r' ->
   resolved_view r = resolved_view r' \/
   collision_in sha256 (resolved_hashed sha256 r ++ resolved_hashed sha256 r')) /\
  (resolved_view r = resolved_view r' ->
   resolved_commitment sha256 r = resolved_commitment sha256 r').
Proof.
  split; [by apply resolved_commitment_view|]. unfold resolved_view. intros [= H1 H2 H3 H4].
  unfold resolved_commitment, resolved_bytes. rewrite H1, H4, <- !imap_const.
  rewrite (imap_view_ext (fun _ => input_digest sha256) input_view _ (rt_inputs r')); [|  |done].
  1: rewrite (imap_view_ext (created_output_digest sha256) output_view _ (rt_outputs r'));
       [done| |done].
  - intros i o o' Hv. injection Hv as ? ? ? ?.
    unfold created_output_digest, created_bytes, nonce_bytes. congruence.
  - intros _ i j Hv.
    unfold input_view, parent_view in Hv. injection Hv as ? ? ? ? ? ? ? ? ? ?.
    unfold input_digest, content_commitment, parent_bytes, nonce_bytes. congruence.
Qed.

(** ** Witnesses *)

Definition toy_hash (b : bytes) : Bytes32 := default zero32 (to_b32 (take 32 (b ++ replicate 32 Byte.x00))).
Definition toy_parent : ParentOutput :=
  parent_sealed toy_hash (fill32 Byte.x01) 0 (mkBinding 2 7 Exclusive)
    (mkSealPoint [Byte.x05] None (Some 3%N)) [Byte.x06] [[Byte.x0a]].
Definition toy_schema : StateUseSchema := fst (bind StateUseSchema_new 7 Exclusive).
Definition toy_transition : Transition :=
  mkTransition 1 [StateRef_new 7 (fill32 Byte.x01) 0]
    [StateAssignment_new 7 (mkSealPoint [Byte.x08] (Some 0%N) None) [Byte.x09]] [] [] [Byte.x0b] [].

(** The resolution of a well-formed transition, computed. *)
Example toy_resolution :
  (fun rt => map ri_mode (rt_inputs rt))
    <$> resolve_transition toy_hash toy_transition [toy_parent] toy_schema [[Byte.x0a]]
  = Ok [ExclusiveUse].
Proof. vm_compute. reflexivity. Qed.

Definition resolved_with (version : option N) : ResolvedTransition :=
  mkResolved 1 [] [mkAssignment 7 (mkSealWire "08" None version) [Byte.x09]] [].

Lemma resolved_commitment_exact_witness :
  resolved_commitment toy_hash (resolved_with None)
  = resolved_commitment toy_hash (resolved_with (Some 9%N)).
Proof.
  apply (resolved_commitment_exact toy_hash (resolved_with None) (resolved_with (Some 9%N)));
    try reflexivity;
    (split; [by vm_compute|]); (split; [by vm_compute|]); (split; [by vm_compute|]);
    (split; [constructor|]); (split; [by vm_compute|]);
    apply Forall_cons; (split; [|constructor]); repeat split; by vm_compute.
Defined.
