(* ===== verification/Schemas.v ===== *)
(** * Schemas (csv-schema/src/registry.rs, validation.rs)

    A schema's definition, a JSON document, is compiled to field types and constraints; a
    document is validated against the compiled fields by the registry or by the validator,
    two copies of one algorithm that differ in what they take for an integer; two versions
    are compared.  Parsing JSON is a parameter.  A hash map is a list of entries with
    distinct keys, in the order [order] puts them in. *)

From S2P Require Import Prelude Bytes Text.

(** ** JSON values, as serde_json keeps them *)

Inductive number := PosInt (n : N) | NegInt (z : Z) | Float (text : string).
Inductive json :=
| JNull | JBool (b : bool) | JNumber (n : number) | JString (s : string)
| JArray (l : list json) | JObject (l : list (string * json)).

Definition get {A} (k : string) (l : list (string * A)) : option A :=
  snd <$> List.find (fun e => bool_decide (fst e = k)) l.
Definition contains_key {A} (k : string) (l : list (string * A)) : bool :=
  bool_decide (is_Some (get k l)).
Definition as_object (v : json) : option (list (string * json)) :=
  match v with JObject l => Some l | _ => None end.
Definition as_array (v : json) : option (list json) := match v with JArray l => Some l | _ => None end.
Definition as_str (v : json) : option string := match v with JString s => Some s | _ => None end.
Definition as_u64 (v : json) : option N := match v with JNumber (PosInt n) => Some n | _ => None end.
Definition is_u64 (v : json) : bool := bool_decide (is_Some (as_u64 v)).
Definition is_i64 (v : json) : bool :=
  match v with
  | JNumber (PosInt n) => (n <=? 9223372036854775807)%N | JNumber (NegInt _) => true | _ => false
  end.
Definition is_f64 (v : json) : bool := match v with JNumber (Float _) => true | _ => false end.
(** [Value::get] with a key *)
Definition jget (k : string) (v : json) : option json := as_object v ≫= get k.
(** [filter_map(|v| v.as_str().map(String::from))] *)
Definition strings (l : list json) : list string := omap as_str l.

(** ** Data *)

Inductive FieldType :=
| FString | FInteger | FBoolean | FBytes | FHash
| FArray (inner : FieldType)
| FObject (fields : list (string * FieldType))
| FOptional (inner : FieldType)
| FEnum (variants : list string).

Inductive FieldConstraint :=
| MinLength (n : N) | MaxLength (n : N) | MinValue (n : N) | MaxValue (n : N)
| Pattern (p : string) | Allowed (l : list string).
Global Instance FieldConstraint_eq_dec : EqDecision FieldConstraint.
Proof. solve_decision. Defined.

Record SchemaField := mkField {
  sf_name : string; sf_type : FieldType; sf_required : bool;
  sf_constraints : list FieldConstraint; sf_description : option string
}.
Record CompiledSchema := mkCompiled {
  cs_name : string; cs_version : string; cs_fields : list (string * SchemaField);
  cs_field_order : list string; cs_schema_hash : string
}.
Record Schema := mkSchema { s_name : string; s_version : string; s_definition : string }.

Inductive SchemaError :=
| InvalidName (m : string) | InvalidVersion (m : string) | VersionNotFound (name version : string)
| InvalidDefinition (m : string) | ParseError (m : string).
(** The texts beside a field's name are for a reader. *)
Inductive ValidationError :=
| SchemaNotFound (name : string) | TypeMismatch (name : string) | MissingField (name : string)
| InvalidValue (name : string) | ConstraintViolation (name : string) | JsonError.

(** ** Compilation *)

Section Compile.
Variable order : forall A, list (string * A) -> list (string * A).
(** [serde_json::from_str], with its message. *)
Variable parse : string -> result string json.
Variable sha256 : bytes -> Bytes32.

Definition enum_of (v : json) : option FieldType :=
  l ← jget "enum" v ≫= as_array; Some (FEnum (strings l)).

(** The searches for [items] and [properties] and the loop over the latter, [to_type] being
    the recursive call. *)
Definition items_type (to_type : json -> result SchemaError FieldType) :=
  fix items (l : list (string * json)) : result SchemaError FieldType :=
    match l with
    | [] => Err (InvalidDefinition "Array type must have items definition")
    | (k, x) :: l' =>
        if bool_decide (k = "items"%string) then inner ← to_type x; Ok (FArray inner) else items l'
    end.
Definition property_types (to_type : json -> result SchemaError FieldType) :=
  fix each (ps : list (string * json)) : result SchemaError (list (string * FieldType)) :=
    match ps with
    | [] => Ok []
    | (name, prop) :: ps' => t ← to_type prop; rest ← each ps'; Ok ((name, t) :: rest)
    end.
Definition object_type (to_type : json -> result SchemaError FieldType) :=
  fix properties (l : list (string * json)) : result SchemaError FieldType :=
    match l with
    | [] => Ok (FObject [])
    | (k, x) :: l' =>
        if bool_decide (k = "properties"%string) then
          match x with
          | JObject ps => fields ← property_types to_type ps; Ok (FObject (order _ fields))
          | _ => Ok (FObject [])
          end
        else properties l'
    end.

(** [json_value_to_field_type] *)
Fixpoint json_value_to_field_type (v : json) : result SchemaError FieldType :=
  match jget "type" v ≫= as_str with
  | Some t =>
      if bool_decide (t = "string"%string) then
        match jget "format" v ≫= as_str with
        | Some f => Ok (if bool_decide (f = "hash"%string) then FHash
                        else if bool_decide (f = "bytes"%string) then FBytes else FString)
        | None => Ok (default FString (enum_of v))
        end
      else if bool_decide (t = "integer"%string) || bool_decide (t = "number"%string) then Ok FInteger
      else if bool_decide (t = "boolean"%string) then Ok FBoolean
      else if bool_decide (t = "array"%string) then
        match v with
        | JObject l => items_type json_value_to_field_type l
        | _ => Err (InvalidDefinition "Array type must have items definition")
        end
      else if bool_decide (t = "object"%string) then
        match v with JObject l => object_type json_value_to_field_type l | _ => Ok (FObject []) end
      else Err (InvalidDefinition ("Unsupported type: " +:+ t))
  | None => Ok (default FString (enum_of v))
  end.

(** [extract_constraints] *)
Definition extract_constraints (v : json) : list FieldConstraint :=
  let pushed {A} (f : A -> FieldConstraint) (o : option A) := from_option (fun x => [f x]) [] o in
  pushed MinLength (jget "minLength" v ≫= as_u64) ++
  pushed MaxLength (jget "maxLength" v ≫= as_u64) ++
  pushed MinValue (jget "minimum" v ≫= as_u64) ++
  pushed MaxValue (jget "maximum" v ≫= as_u64) ++
  pushed Pattern (jget "pattern" v ≫= as_str) ++
  match jget "enum" v ≫= as_array with
  | Some l => if bool_decide (strings l = []) then [] else [Allowed (strings l)]
  | None => []
  end.

(** The loop over the properties of a definition. *)
Fixpoint compile_properties (required : list string) (l : list (string * json))
  : result SchemaError (list (string * SchemaField)) :=
  match l with
  | [] => Ok []
  | (name, prop) :: l' =>
      t ← json_value_to_field_type prop;
      rest ← compile_properties required l';
      Ok ((name, mkField name t (bool_decide (name ∈ required)) (extract_constraints prop)
                   (jget "description" prop ≫= as_str)) :: rest)
  end.

Definition schema_hash_input (s : Schema) : bytes :=
  as_bytes (s_name s +:+ ":" +:+ s_version s +:+ ":" +:+ s_definition s).

(** [compile_schema_definition] *)
Definition compile_schema_definition (s : Schema) : result SchemaError CompiledSchema :=
  v ← map_err (fun e => ParseError ("Failed to parse schema definition: " +:+ e)) (parse (s_definition s));
  fields ← match jget "properties" v ≫= as_object with
           | Some properties =>
               let required := from_option strings [] (jget "required" v ≫= as_array) in
               l ← compile_properties required properties; Ok (order _ l)
           | None => Ok []
           end;
  Ok (mkCompiled (s_name s) (s_version s) fields (map fst fields)
        (of_bytes (hex_encode (b32 (sha256 (schema_hash_input s)))))).
End Compile.

(** ** Validation *)

(** [str::trim_matches] with an ASCII character; [str::contains]. *)
Fixpoint trim_start (c : byte) (b : bytes) : bytes :=
  match b with x :: b' => if bool_decide (x = c) then trim_start c b' else b | [] => [] end.
Definition trim_matches (c : byte) (b : bytes) : bytes := rev (trim_start c (rev (trim_start c b))).
Fixpoint starts (p b : bytes) : bool :=
  match p, b with
  | [], _ => true | x :: p', y :: b' => bool_decide (x = y) && starts p' b' | _, [] => false
  end.
Fixpoint occurs (p b : bytes) : bool :=
  starts p b || match b with _ :: b' => occurs p b' | [] => false end.

(** The guards of the loops over the constraints. *)
Definition str_violates (s : string) (c : FieldConstraint) : bool :=
  match c with
  | MinLength n => (blen (as_bytes s) <? n)%N
  | MaxLength n => (n <? blen (as_bytes s))%N
  | Pattern p => negb (occurs (trim_matches Byte.x24 (trim_matches Byte.x5e (as_bytes p))) (as_bytes s))
  | Allowed l => negb (bool_decide (s ∈ l))
  | _ => false
  end.
Definition int_violates (n : N) (c : FieldConstraint) : bool :=
  match c with MinValue m => (n <? m)%N | MaxValue m => (m <? n)%N | _ => false end.
Definition check_all (name : string) (violates : FieldConstraint -> bool) (cs : list FieldConstraint)
  : result ValidationError unit :=
  reject existsb violates cs with ConstraintViolation name ;; Ok tt.

(** The arm of integers: in the registry, a number that is not unsigned counts as zero; in
    the validator its constraints are skipped, and a float passes. *)
Definition registry_integer (name : string) (v : json) (cs : list FieldConstraint)
  : result ValidationError unit :=
  reject negb (is_u64 v) && negb (is_i64 v) with TypeMismatch name ;;
  check_all name (int_violates (default 0%N (as_u64 v))) cs.
Definition validator_integer (name : string) (v : json) (cs : list FieldConstraint)
  : result ValidationError unit :=
  reject negb (is_u64 v) && negb (is_i64 v) && negb (is_f64 v) with TypeMismatch name ;;
  match as_u64 v with Some n => check_all name (int_violates n) cs | None => Ok tt end.

Definition check_hex (name s : string) : result ValidationError unit :=
  match hex_decode (as_bytes s) with Some _ => Ok tt | None => Err (InvalidValue name) end.

Section Validate.
Variable check_integer : string -> json -> list FieldConstraint -> result ValidationError unit.

(** [validate_field_value], of either file. *)
Fixpoint validate_field_value (ty : FieldType) (name : string) (v : json) (cs : list FieldConstraint)
  : result ValidationError unit :=
  match ty with
  | FString => s ← ok_or (TypeMismatch name) (as_str v); check_all name (str_violates s) cs
  | FInteger => check_integer name v cs
  | FBoolean => match v with JBool _ => Ok tt | _ => Err (TypeMismatch name) end
  | FBytes =>
      s ← ok_or (TypeMismatch name) (as_str v);
      reject negb (blen (as_bytes s) mod 2 =? 0)%N with InvalidValue name ;; check_hex name s
  | FHash =>
      s ← ok_or (TypeMismatch name) (as_str v);
      reject negb (blen (as_bytes s) =? 64)%N with InvalidValue name ;; check_hex name s
  | FArray inner =>
      l ← ok_or (TypeMismatch name) (as_array v);
      try_each (fun '(i, x) => validate_field_value inner (name +:+ "[" +:+ show_nat i +:+ "]") x [])
        (zip (seq 0 (length l)) l)
  | FObject fields =>
      obj ← ok_or (TypeMismatch name) (as_object v);
      try_each (fun '(k, t) => match get k obj with
                               | Some x => validate_field_value t (name +:+ "." +:+ k) x []
                               | None => Ok tt
                               end) fields
  | FOptional inner =>
      match v with JNull => Ok tt | _ => validate_field_value inner name v cs end
  | FEnum variants =>
      s ← ok_or (TypeMismatch name) (as_str v);
      reject negb (bool_decide (s ∈ variants)) with InvalidValue name ;; Ok tt
  end.

(** [validate_against_compiled], [SchemaValidator::validate_json], once the text is parsed *)
Definition validate_value (c : CompiledSchema) (v : json) : result ValidationError unit :=
  obj ← ok_or (TypeMismatch "root") (as_object v);
  _ ← try_each (fun e => reject sf_required (snd e) && negb (contains_key (sf_name (snd e)) obj)
                           with MissingField (sf_name (snd e)) ;; Ok tt) (cs_fields c);
  try_each (fun '(name, x) =>
              f ← ok_or (InvalidValue name) (get name (cs_fields c));
              validate_field_value (sf_type f) name x (sf_constraints f)) obj.
Definition validate_with (parse : string -> result string json) (c : CompiledSchema) (data : string)
  : result ValidationError unit :=
  v ← map_err (fun _ => JsonError) (parse data); validate_value c v.
End Validate.

Definition validate_against_compiled := validate_with registry_integer.
Definition validate_json := validate_with validator_integer.

(** ** Comparison *)

Inductive SchemaDiffOp :=
| FieldAdded (name : string) (t : FieldType) | FieldRemoved (name : string)
| FieldTypeChanged (name : string) (old new : FieldType)
| FieldConstraintChanged (name constraint : string)
| FieldRequiredChanged (name : string) (was now : bool)
| VersionBump (old new : string).
Record SchemaDiff := mkDiff { changes : list SchemaDiffOp; is_backward_compatible : bool; summary : string }.

(** [PartialEq] of types: hash maps are equal when they have as many entries and each entry
    of the one is in the other. *)
Fixpoint field_type_eq (t u : FieldType) : bool :=
  match t, u with
  | FString, FString | FInteger, FInteger | FBoolean, FBoolean | FBytes, FBytes | FHash, FHash => true
  | FArray t', FArray u' | FOptional t', FOptional u' => field_type_eq t' u'
  | FEnum l, FEnum m => bool_decide (l = m)
  | FObject l, FObject m =>
      Nat.eqb (length l) (length m) &&
      forallb (fun e => match get (fst e) m with
                        | Some u' => field_type_eq (snd e) u' | None => false end) l
  | _, _ => false
  end.

(** The second loop's body: the changes it pushes and whether it is breaking. *)
Definition diff_field (a : CompiledSchema) (e : string * SchemaField) : list SchemaDiffOp * bool :=
  let '(name, fb) := e in
  match get name (cs_fields a) with
  | None => ([FieldAdded name (sf_type fb)], sf_required fb)
  | Some fa =>
      let typed := negb (field_type_eq (sf_type fa) (sf_type fb)) in
      let needed := negb (bool_decide (sf_required fa = sf_required fb)) in
      ((if typed then [FieldTypeChanged name (sf_type fa) (sf_type fb)] else []) ++
       (if needed then [FieldRequiredChanged name (sf_required fa) (sf_required fb)] else []) ++
       (if bool_decide (sf_constraints fa = sf_constraints fb) then []
        else [FieldConstraintChanged name "Constraints modified"]),
       typed || (needed && sf_required fb && negb (sf_required fa)))
  end.

(** [diff_compiled_schemas] *)
Definition diff_compiled_schemas (a b : CompiledSchema) : SchemaDiff :=
  let bump := if bool_decide (cs_version a = cs_version b) then []
              else [VersionBump (cs_version a) (cs_version b)] in
  let removed := omap (fun e => if contains_key (fst e) (cs_fields b) then None
                                else Some (FieldRemoved (fst e))) (cs_fields a) in
  let fields := map (diff_field a) (cs_fields b) in
  let all := bump ++ removed ++ flat_map fst fields in
  let compatible := bool_decide (removed = []) && negb (existsb snd fields) in
  mkDiff all compatible
    (match all with
     | [] => "No changes"
     | _ => show_nat (length all) +:+ " change(s) detected (" +:+
            (if compatible then "backward compatible" else "BREAKING CHANGE") +:+ ")"
     end).

(** ** The registry *)

Record SchemaRegistry := mkRegistry {
  rg_schemas : gmap string (list Schema); rg_compiled : gmap string (list CompiledSchema)
}.
Definition registry_new : SchemaRegistry := mkRegistry ∅ ∅.

(** [entry(k).or_default().push(v)] *)
Definition push_at {A} (k : string) (x : A) (m : gmap string (list A)) : gmap string (list A) :=
  <[k := default [] (m !! k) ++ [x]]> m.

Section Registry.
Variable order : forall A, list (string * A) -> list (string * A).
Variable parse : string -> result string json.
Variable sha256 : bytes -> Bytes32.
Local Notation compile s := (compile_schema_definition order parse sha256 s).

Definition register (s : Schema) (r : SchemaRegistry) : result SchemaError SchemaRegistry :=
  reject bool_decide (s_name s = ""%string) with InvalidName "Schema name cannot be empty" ;;
  reject bool_decide (s_version s = ""%string) with InvalidVersion "Schema version cannot be empty" ;;
  c ← compile s;
  Ok (mkRegistry (push_at (s_name s) s (rg_schemas r)) (push_at (cs_name c) c (rg_compiled r))).

Definition rg_get (n : string) (r : SchemaRegistry) : option Schema := rg_schemas r !! n ≫= last.
Definition get_version (n v : string) (r : SchemaRegistry) : option Schema :=
  rg_schemas r !! n ≫= List.find (fun s => bool_decide (s_version s = v)).
Definition get_compiled (n : string) (r : SchemaRegistry) : option CompiledSchema :=
  rg_compiled r !! n ≫= last.
Definition get_compiled_version (n v : string) (r : SchemaRegistry) : option CompiledSchema :=
  rg_compiled r !! n ≫= List.find (fun c => bool_decide (cs_version c = v)).
Definition list_versions (n : string) (r : SchemaRegistry) : list string :=
  from_option (map s_version) [] (rg_schemas r !! n).
Definition list_names (r : SchemaRegistry) : list string :=
  map fst (order _ (map_to_list (rg_schemas r))).
Definition rg_list (r : SchemaRegistry) : list Schema :=
  flat_map snd (order _ (map_to_list (rg_schemas r))).
(** [SchemaRegistry::compile] *)
Definition rg_compile (name version definition : string) : result SchemaError CompiledSchema :=
  compile (mkSchema name version definition).

(** [SchemaRegistry::diff], [validate] *)
Definition rg_diff (n va vb : string) (r : SchemaRegistry) : result SchemaError SchemaDiff :=
  a ← ok_or (VersionNotFound n va) (get_version n va r);
  b ← ok_or (VersionNotFound n vb) (get_version n vb r);
  ca ← compile a; cb ← compile b;
  Ok (diff_compiled_schemas ca cb).
Definition rg_validate (n data : string) (r : SchemaRegistry) : result ValidationError unit :=
  c ← ok_or (SchemaNotFound n) (get_compiled n r); validate_against_compiled parse c data.
End Registry.

(** ** Induction on documents and types *)

Section Induction.
Context (P : json -> Prop).
Context (Hnull : P JNull) (Hbool : forall b, P (JBool b)) (Hnum : forall n, P (JNumber n))
  (Hstr : forall s, P (JString s)) (Harr : forall l, Forall P l -> P (JArray l))
  (Hobj : forall l, Forall (fun e => P (snd e)) l -> P (JObject l)).
Fixpoint json_ind' (v : json) : P v :=
  match v with
  | JNull => Hnull | JBool b => Hbool b | JNumber n => Hnum n | JString s => Hstr s
  | JArray l => Harr l ((fix go l : Forall P l :=
      match l with [] => Forall_nil_2 P | x :: l' => Forall_cons_2 P x l' (json_ind' x) (go l') end) l)
  | JObject l => Hobj l ((fix go l : Forall (fun e => P (snd e)) l :=
      match l with [] => Forall_nil_2 _
      | x :: l' => Forall_cons_2 (fun e => P (snd e)) x l' (json_ind' (snd x)) (go l') end) l)
  end.
End Induction.

Section TypeInduction.
Context (P : FieldType -> Prop).
Context (Hs : P FString) (Hi : P FInteger) (Hb : P FBoolean) (Hy : P FBytes) (Hh : P FHash)
  (Ha : forall t, P t -> P (FArray t)) (Hob : forall l, Forall (fun e => P (snd e)) l -> P (FObject l))
  (Ho : forall t, P t -> P (FOptional t)) (He : forall l, P (FEnum l)).
Fixpoint type_ind' (t : FieldType) : P t :=
  match t with
  | FString => Hs | FInteger => Hi | FBoolean => Hb | FBytes => Hy | FHash => Hh
  | FArray t => Ha t (type_ind' t) | FOptional t => Ho t (type_ind' t) | FEnum l => He l
  | FObject l => Hob l ((fix go l : Forall (fun e => P (snd e)) l :=
      match l with [] => Forall_nil_2 _
      | x :: l' => Forall_cons_2 (fun e => P (snd e)) x l' (type_ind' (snd x)) (go l') end) l)
  end.
End TypeInduction.

(** Distinct keys at every level. *)
Fixpoint json_ok (v : json) : Prop :=
  match v with
  | JArray l => (fix all l := match l with [] => True | x :: l' => json_ok x /\ all l' end) l
  | JObject l => NoDup (map fst l) /\
      (fix all l := match l with [] => True | e :: l' => json_ok (snd e) /\ all l' end) l
  | _ => True
  end.
Fixpoint type_ok (t : FieldType) : Prop :=
  match t with
  | FArray t | FOptional t => type_ok t
  | FObject l => NoDup (map fst l) /\
      (fix all l := match l with [] => True | e :: l' => type_ok (snd e) /\ all l' end) l
  | _ => True
  end.

Lemma json_ok_object l : json_ok (JObject l) <-> NoDup (map fst l) /\ Forall (fun e => json_ok (snd e)) l.
Proof.
  cbn. apply and_iff_compat_l. induction l as [|e l IH]; [by split|]. by rewrite Forall_cons, <- IH.
Qed.
Lemma type_ok_object l : type_ok (FObject l) <-> NoDup (map fst l) /\ Forall (fun e => type_ok (snd e)) l.
Proof.
  cbn. apply and_iff_compat_l. induction l as [|e l IH]; [by split|]. by rewrite Forall_cons, <- IH.
Qed.

Lemma get_some {A} k (l : list (string * A)) x : get k l = Some x -> (k, x) ∈ l.
Proof.
  unfold get. destruct (List.find _ l) as [[k' y]|] eqn:E; [|done]. intros [= <-].
  apply find_some in E as [E Hk]. apply bool_decide_eq_true in Hk. simpl in Hk. subst k'.
  by apply list_elem_of_In.
Qed.
Lemma get_nodup {A} k (l : list (string * A)) x : NoDup (map fst l) -> (k, x) ∈ l -> get k l = Some x.
Proof.
  unfold get. induction l as [|[k' y] l IH]; intros Hn Hin; [by apply not_elem_of_nil in Hin|].
  cbn [map fst] in Hn. apply NoDup_cons in Hn as [Hk Hn]. apply elem_of_cons in Hin as [E|Hin].
  - injection E as -> ->. cbn. by rewrite bool_decide_eq_true_2.
  - cbn. case_bool_decide as E; [|by apply IH]. subst k'. destruct Hk.
    apply list_elem_of_fmap. by exists (k, x).
Qed.
Lemma contains_key_iff {A} k (l : list (string * A)) : contains_key k l = true <-> k ∈ map fst l.
Proof.
  unfold contains_key. rewrite bool_decide_eq_true. split.
  - intros [x H%get_some]. apply list_elem_of_fmap. by exists (k, x).
  - unfold get. intros ([k' x] & -> & H)%list_elem_of_fmap.
    destruct (List.find _ l) as [e|] eqn:E; [by eexists|].
    apply list_elem_of_In in H. apply (List.find_none _ _ E) in H.
    by apply bool_decide_eq_false in H.
Qed.

(** ** Compiled types are well formed *)

Section Compiled.
Context (order : forall A, list (string * A) -> list (string * A))
  (Horder : forall A (l : list (string * A)), order A l ≡ₚ l).

Lemma order_nodup {A} (l : list (string * A)) : NoDup (map fst l) -> NoDup (map fst (order A l)).
Proof. intros H. rewrite (Permutation_map fst (Horder A l)). done. Qed.

Lemma order_forall {A} (P : string * A -> Prop) l : Forall P l -> Forall P (order A l).
Proof. intros H. by rewrite (Horder A l). Qed.

Local Notation to_type := (json_value_to_field_type order).
Definition typed_ok (v : json) : Prop := json_ok v -> forall t, to_type v = Ok t -> type_ok t.

Lemma enum_type_ok v : type_ok (default FString (enum_of v)).
Proof. unfold enum_of. by destruct (jget "enum" v ≫= as_array). Qed.

(** The inner loops, on entries whose values compile to well-formed types. *)
Lemma items_ok l t :
  Forall (fun e => typed_ok (snd e)) l -> Forall (fun e => json_ok (snd e)) l ->
  items_type to_type l = Ok t -> type_ok t.
Proof.
  induction l as [|[k x] l IH]; [done|]. rewrite !Forall_cons. intros [Hx Hl] [Jx Jl].
  cbn [items_type]. case_bool_decide; [|by apply IH].
  intros (u & Hu & [= <-])%bind_ok. exact (Hx Jx u Hu).
Qed.

Lemma property_types_ok ps fields :
  Forall (fun e => typed_ok (snd e)) ps -> Forall (fun e => json_ok (snd e)) ps ->
  property_types to_type ps = Ok fields ->
  map fst fields = map fst ps /\ Forall (fun e => type_ok (snd e)) fields.
Proof.
  revert fields. induction ps as [|[k x] ps IH]; intros fields; [by intros _ _ [= <-]|].
  rewrite !Forall_cons. intros [Hx Hl] [Jx Jl] (t & Ht & H)%bind_ok.
  apply bind_ok in H as (rest & Hrest & [= <-]). destruct (IH rest Hl Jl Hrest) as [E Hf].
  cbn [map fst]. rewrite E. split; [done|]. apply Forall_cons. split; [exact (Hx Jx t Ht)|done].
Qed.

Definition children_typed (v : json) : Prop :=
  match v with JObject ps => Forall (fun e => typed_ok (snd e)) ps | _ => True end.

Lemma object_type_ok l t :
  Forall (fun e => typed_ok (snd e) /\ children_typed (snd e)) l -> Forall (fun e => json_ok (snd e)) l ->
  object_type order to_type l = Ok t -> type_ok t.
Proof.
  assert (Hdef : type_ok (FObject [])) by (by apply type_ok_object; split; constructor).
  induction l as [|[k x] l IH]; [by intros _ _ [= <-]|].
  rewrite !Forall_cons. intros [[_ Hx] Hl] [Jx Jl]. cbn [object_type].
  case_bool_decide; [|by apply IH]. destruct x; try by intros [= <-].
  intros (fields & Hf & [= <-])%bind_ok. apply json_ok_object in Jx as [Jn Jx].
  apply property_types_ok in Hf as [E Hf]; [|done|done].
  apply type_ok_object. split; [apply order_nodup; by rewrite E|by apply order_forall].
Qed.

Lemma to_type_ok v : typed_ok v /\ children_typed v.
Proof.
  induction v as [| | | |l _|l IH] using json_ind'; try (split; [|done]; intros _ t; cbn; by intros [= <-]).
  split; [|by apply Forall_impl with (1 := IH); intros ? [? _]].
  intros [_ J]%json_ok_object t. cbn [json_value_to_field_type].
  destruct (jget "type" (JObject l) ≫= as_str) as [ty|]; [|intros [= <-]; apply enum_type_ok].
  repeat match goal with |- context [if ?c then _ else _] => destruct c end; try done;
    try by intros [= <-].
  - destruct (jget "format" (JObject l) ≫= as_str) as [f|].
    + intros [= <-]. by repeat case_bool_decide.
    + intros [= <-]. apply enum_type_ok.
  - apply items_ok; [|done]. by apply Forall_impl with (1 := IH); intros ? [? _].
  - by apply object_type_ok.
Qed.

Lemma compile_properties_ok required l fields :
  compile_properties order required l = Ok fields -> Forall (fun e => json_ok (snd e)) l ->
  map fst fields = map fst l /\
  Forall (fun e => sf_name (snd e) = fst e /\ type_ok (sf_type (snd e))) fields.
Proof.
  revert fields. induction l as [|[k x] l IH]; intros fields; cbn [compile_properties]; [by intros [= <-]|].
  intros (t & Ht & H)%bind_ok [Jx Jl]%Forall_cons. apply bind_ok in H as (rest & Hrest & [= <-]).
  destruct (IH rest Hrest Jl) as [E Hf]. cbn. rewrite E. split; [done|]. apply Forall_cons.
  split; [|done]. split; [done|]. by apply (proj1 (to_type_ok x)).
Qed.

(** What compilation establishes of a schema's fields. *)
Record compiled_ok (c : CompiledSchema) : Prop := {
  co_keys : NoDup (map fst (cs_fields c));
  co_fields : Forall (fun e => sf_name (snd e) = fst e /\ type_ok (sf_type (snd e))) (cs_fields c)
}.

Lemma compiled_schema_ok parse sha256 s c :
  (forall t v, parse t = Ok v -> json_ok v) ->
  compile_schema_definition order parse sha256 s = Ok c ->
  compiled_ok c /\ cs_name c = s_name s /\ cs_version c = s_version s.
Proof.
  intros Hparse (v & Hv & H)%bind_ok. apply map_err_ok in Hv. apply Hparse in Hv.
  apply bind_ok in H as (fields & Hf & [= <-]). cbn. split; [|done].
  destruct (jget "properties" v ≫= as_object) as [ps|] eqn:E.
  - apply bind_ok in Hf as (l & Hl & [= <-]).
    destruct v as [| | | | |obj]; try done. unfold jget in E. cbn in E.
    apply bind_Some in E as (w & Hw & E). apply get_some in Hw. destruct w; try done. injection E as ->.
    apply json_ok_object in Hv as [_ J]. rewrite Forall_forall in J. apply J in Hw.
    apply json_ok_object in Hw as [Hn J']. apply compile_properties_ok in Hl as [Ek Hf]; [|done].
    split; cbn [cs_fields]; [apply order_nodup; by rewrite Ek|by apply order_forall].
  - injection Hf as <-. split; cbn [cs_fields]; constructor.
Qed.
End Compiled.

(** ** Validation *)

Lemma violates_none violates name cs :
  check_all name violates cs = Ok tt <-> existsb violates cs = false.
Proof. unfold check_all. rewrite guard_err_ok. tauto. Qed.

(** What the registry's arm accepts, the validator's does. *)
Lemma registry_integer_accepts name v cs :
  registry_integer name v cs = Ok tt -> validator_integer name v cs = Ok tt.
Proof.
  unfold registry_integer, validator_integer, is_u64. rewrite !guard_err_ok.
  destruct (as_u64 v) as [n|]; cbn [default from_option].
  - by rewrite bool_decide_eq_true_2.
  - intros [H _]. by rewrite H.
Qed.

Lemma accepts_mono (ci ci' : string -> json -> list FieldConstraint -> result ValidationError unit)
    (Hci : forall name v cs, ci name v cs = Ok tt -> ci' name v cs = Ok tt) ty name v cs :
  validate_field_value ci ty name v cs = Ok tt -> validate_field_value ci' ty name v cs = Ok tt.
Proof.
  revert name v cs.
  induction ty as [| | | | |ty IH|l IH|ty IH|l] using type_ind'; intros name v cs; cbn [validate_field_value];
    try done; [by apply Hci| | |].
  - intros (a & Ha & H)%bind_ok. rewrite Ha. cbn [mbind result_bind]. apply try_each_ok.
    apply try_each_ok in H. apply Forall_impl with (1 := H). intros [i x]. apply IH.
  - intros (a & Ha & H)%bind_ok. rewrite Ha. cbn [mbind result_bind]. apply try_each_ok.
    apply try_each_ok in H. rewrite Forall_forall in *. intros [k t] Hin. specialize (H _ Hin). cbn in *.
    destruct (get k a); [|done]. by apply (IH _ Hin).
  - destruct v; try done; apply IH.
Qed.

(** Equal types accept the same values. *)
Lemma eq_types_accept ci t : forall u name v cs, type_ok t -> type_ok u -> field_type_eq t u = true ->
  validate_field_value ci t name v cs = Ok tt -> validate_field_value ci u name v cs = Ok tt.
Proof.
  induction t as [| | | | |t IH|l IH|t IH|l] using type_ind'; intros u name v cs Ht Hu E;
    destruct u as [| | | | |u|m|u|m]; try done; cbn [validate_field_value].
  - intros (a & Ha & H)%bind_ok. rewrite Ha. cbn [mbind result_bind]. apply try_each_ok.
    apply try_each_ok in H. apply Forall_impl with (1 := H). intros [i x]. by apply IH.
  - intros (a & Ha & H)%bind_ok. rewrite Ha. cbn [mbind result_bind]. apply try_each_ok.
    apply try_each_ok in H. apply type_ok_object in Ht as [Hn Ht], Hu as [Hn' Hu].
    cbn in E. apply andb_true_iff in E as [El E]. apply Nat.eqb_eq in El.
    rewrite forallb_forall in E. rewrite Forall_forall in *.
    assert (Hsub : map fst l ⊆ map fst m).
    { intros k ([k' t] & -> & Hk)%list_elem_of_fmap. pose proof (proj1 (list_elem_of_In _ _) Hk) as Hk'.
      specialize (E _ Hk'). cbn in *. destruct (get k' m) as [t'|] eqn:Eg; [|done].
      apply list_elem_of_fmap. exists (k', t'). split; [done|by apply get_some]. }
    assert (Hperm : map fst l ≡ₚ map fst m).
    { apply submseteq_length_Permutation; [by apply NoDup_submseteq|]. rewrite !length_map. lia. }
    intros [k t'] Hk.
    assert (Hkl : k ∈ map fst l) by (rewrite Hperm; apply list_elem_of_fmap; by exists (k, t')).
    apply list_elem_of_fmap in Hkl as ([k' t] & -> & Hl).
    pose proof (E _ (proj1 (list_elem_of_In _ _) Hl)) as Et. cbn in Et, Hk.
    rewrite (get_nodup _ _ _ Hn' Hk) in Et. specialize (H _ Hl). cbn in H |- *.
    destruct (get k' a) as [x|]; [|done].
    exact (IH _ Hl t' _ _ _ (Ht _ Hl) (Hu _ Hk) Et H).
  - destruct v; try done; apply IH; try done.
  - apply bool_decide_eq_true in E. by subst.
Qed.

Lemma validate_value_ok ci c v :
  validate_value ci c v = Ok tt <->
  exists obj, v = JObject obj /\
    Forall (fun e => sf_required (snd e) = true -> sf_name (snd e) ∈ map fst obj) (cs_fields c) /\
    Forall (fun e => exists f, get (fst e) (cs_fields c) = Some f /\
              validate_field_value ci (sf_type f) (fst e) (snd e) (sf_constraints f) = Ok tt) obj.
Proof.
  assert (Hreq : forall obj l,
    try_each (fun e : string * SchemaField =>
      reject sf_required (snd e) && negb (contains_key (sf_name (snd e)) obj)
        with MissingField (sf_name (snd e)) ;; Ok tt) l = Ok tt <->
    Forall (fun e => sf_required (snd e) = true -> sf_name (snd e) ∈ map fst (obj : list (string * json))) l).
  { intros obj l. rewrite try_each_ok. apply Forall_proper; [|done]. intros e.
    rewrite guard_err_ok, andb_false_iff, negb_false_iff, contains_key_iff.
    destruct (sf_required (snd e)); naive_solver. }
  assert (Heach : forall obj : list (string * json),
    try_each (fun '(name, x) => f ← ok_or (InvalidValue name) (get name (cs_fields c));
                 validate_field_value ci (sf_type f) name x (sf_constraints f)) obj = Ok tt <->
    Forall (fun e => exists f, get (fst e) (cs_fields c) = Some f /\
              validate_field_value ci (sf_type f) (fst e) (snd e) (sf_constraints f) = Ok tt) obj).
  { intros obj. rewrite try_each_ok. apply Forall_proper; [|done]. intros [name x]. cbn.
    destruct (get name (cs_fields c)) as [f|]; cbn; naive_solver. }
  unfold validate_value. split.
  - intros (obj & Ho & H)%bind_ok. apply bind_ok in H as ([] & H1 & H2).
    destruct v; try done. injection Ho as ->. exists obj. by rewrite <- Hreq, <- Heach.
  - intros (obj & -> & H1 & H2). cbn [as_object ok_or mbind result_bind].
    rewrite (proj2 (Hreq obj _)) by done. cbn [mbind result_bind]. by apply Heach.
Qed.

(** What a comparison without breaking or constraint changes establishes. *)
Lemma diff_compatible a b :
  is_backward_compatible (diff_compiled_schemas a b) = true ->
  Forall (fun c => forall n m, c <> FieldConstraintChanged n m) (changes (diff_compiled_schemas a b)) ->
  Forall (fun e => contains_key (fst e) (cs_fields b) = true) (cs_fields a) /\
  Forall (fun e => match get (fst e) (cs_fields a) with
                   | None => sf_required (snd e) = false
                   | Some fa => field_type_eq (sf_type fa) (sf_type (snd e)) = true /\
                       (sf_required (snd e) = true -> sf_required fa = true) /\
                       sf_constraints fa = sf_constraints (snd e)
                   end) (cs_fields b).
Proof.
  unfold diff_compiled_schemas. cbn [is_backward_compatible changes].
  rewrite andb_true_iff, negb_true_iff, bool_decide_eq_true. intros [Hr Hf] Hc.
  apply Forall_app in Hc as [_ [_ Hc]%Forall_app]. split.
  - apply Forall_forall. intros e He. destruct (contains_key (fst e) (cs_fields b)) eqn:E; [done|].
    exfalso. apply (not_elem_of_nil (FieldRemoved (fst e))). rewrite <- Hr. apply list_elem_of_omap.
    exists e. by rewrite E.
  - apply Forall_forall. intros [name fb] He.
    assert (Hb : snd (diff_field a (name, fb)) = false).
    { destruct (snd (diff_field a (name, fb))) eqn:E; [|done]. rewrite <- Hf. symmetry.
      apply existsb_exists. exists (diff_field a (name, fb)). split; [|done].
      apply in_map. by apply list_elem_of_In. }
    assert (Hk : Forall (fun c => forall n m, c <> FieldConstraintChanged n m) (fst (diff_field a (name, fb)))).
    { rewrite Forall_forall in *. intros c Hin. apply Hc. apply list_elem_of_In, in_flat_map.
      exists (diff_field a (name, fb)). split; [apply in_map; by apply list_elem_of_In|by apply list_elem_of_In]. }
    cbn [fst snd] in *. unfold diff_field in *. destruct (get name (cs_fields a)) as [fa|]; [|done].
    cbn [fst snd] in *. apply orb_false_iff in Hb as [Ht Hn]. apply negb_false_iff in Ht.
    split; [done|]. split.
    + intros Hreq. rewrite Hreq in Hn. destruct (sf_required fa); [done|]. by rewrite bool_decide_eq_false_2 in Hn.
    + apply Forall_app in Hk as [_ [_ Hk]%Forall_app]. case_bool_decide as E; [done|].
      apply Forall_cons in Hk as [Hk _]. by destruct (Hk name "Constraints modified"%string).
Qed.

(** ** The registry over its registrations *)

Section Registrations.
Context (order : forall A, list (string * A) -> list (string * A)) (parse : string -> result string json)
  (sha256 : bytes -> Bytes32).
Local Notation compile s := (compile_schema_definition order parse sha256 s).

(** A refused registration leaves the registry as it was. *)
Definition registered (h : list Schema) : SchemaRegistry :=
  fold_left (fun r s => match register order parse sha256 s r with Ok r' => r' | Err _ => r end) h registry_new.
Definition accepted (s : Schema) : bool :=
  negb (bool_decide (s_name s = ""%string)) && negb (bool_decide (s_version s = ""%string)) &&
  is_ok (compile s).
Definition named (n : string) (h : list Schema) : list Schema :=
  List.filter (fun s => bool_decide (s_name s = n) && accepted s) h.

Lemma compile_name s c : compile s = Ok c -> cs_name c = s_name s /\ cs_version c = s_version s.
Proof.
  unfold compile_schema_definition. intros (v & _ & H)%bind_ok. by apply bind_ok in H as (f & _ & [= <-]).
Qed.

Lemma register_step s r :
  register order parse sha256 s r =
  if accepted s then match compile s with
                     | Ok c => Ok (mkRegistry (push_at (s_name s) s (rg_schemas r)) (push_at (s_name s) c (rg_compiled r)))
                     | Err e => Err e end
  else register order parse sha256 s r.
Proof.
  unfold accepted. destruct (negb _ && negb _ && is_ok _) eqn:E; [|done].
  rewrite !andb_true_iff, !negb_true_iff in E. destruct E as [[E1 E2] E3].
  unfold register. rewrite E1, E2. cbn [guard_err]. destruct (compile s) as [c|e] eqn:Ec; [|done].
  cbn. by destruct (compile_name s c Ec) as [-> _].
Qed.

Lemma register_refused s r : accepted s = false -> is_ok (register order parse sha256 s r) = false.
Proof.
  unfold accepted, register. intros E.
  destruct (bool_decide (s_name s = ""%string)); [done|]. cbn in *.
  destruct (bool_decide (s_version s = ""%string)); [done|]. cbn in *.
  by destruct (compile s).
Qed.

Lemma push_at_lookup {A} k k' (x : A) m :
  default [] (push_at k x m !! k') = default [] (m !! k') ++ (if bool_decide (k = k') then [x] else []).
Proof.
  unfold push_at. case_bool_decide as E.
  - subst k'. by rewrite lookup_insert_eq.
  - by rewrite lookup_insert_ne, app_nil_r.
Qed.

(** Both tables hold, for every name, what was accepted under it, in order. *)
Lemma registered_tables h n :
  default [] (rg_schemas (registered h) !! n) = named n h /\
  Forall2 (fun s c => compile s = Ok c) (named n h) (default [] (rg_compiled (registered h) !! n)).
Proof.
  induction h as [|s h IH] using rev_ind; [split; [done|constructor]|].
  unfold registered in *. rewrite fold_left_app. cbn [fold_left].
  set (r := fold_left _ h registry_new) in *. unfold named in *. rewrite List.filter_app. cbn [List.filter].
  destruct IH as [IH1 IH2]. rewrite register_step. destruct (accepted s) eqn:Ea.
  - pose proof Ea as Ea'. unfold accepted in Ea'. rewrite !andb_true_iff in Ea'. destruct Ea' as [_ Ec].
    apply is_ok_inv in Ec as [c Ec]. rewrite Ec. cbn [rg_schemas rg_compiled].
    rewrite !push_at_lookup, IH1, andb_true_r.
    case_bool_decide; [|by rewrite !app_nil_r]. split; [done|]. apply Forall2_app; [done|by constructor].
  - rewrite andb_false_r, app_nil_r. pose proof (register_refused s r Ea) as Hr.
    by destruct (register order parse sha256 s r).
Qed.
End Registrations.

(** ** What the checks leave open *)

Definition string_field (cs : list FieldConstraint) : string * SchemaField :=
  ("n"%string, mkField "n" FString true cs None).
Definition one_field (v : string) (e : string * SchemaField) : CompiledSchema :=
  mkCompiled "s" v [e] [fst e] "".
Definition one_entry (v : json) : json := JObject [("n"%string, v)].

(** A tightened constraint is called compatible, and refuses what was valid. *)
Lemma tightened_is_compatible :
  let a := one_field "1" (string_field []) in let b := one_field "2" (string_field [MinLength 5]) in
  is_backward_compatible (diff_compiled_schemas a b) = true /\
  validate_value registry_integer a (one_entry (JString "abc")) = Ok tt /\
  validate_value registry_integer b (one_entry (JString "abc")) = Err (ConstraintViolation "n").
Proof. by vm_compute. Qed.

(** A pattern is looked for as text. *)
Lemma pattern_is_text :
  str_violates "abc" (Pattern "^[a-z]+$") = true /\ str_violates "x[a-z]+y" (Pattern "^[a-z]+$") = false.
Proof. by vm_compute. Qed.

(** A negative number satisfies a minimum of zero, and, in the validator, any. *)
Lemma negative_passes_minimum :
  registry_integer "n" (JNumber (NegInt (-5))) [MinValue 0] = Ok tt /\
  validator_integer "n" (JNumber (NegInt (-5))) [MinValue 10] = Ok tt.
Proof. by vm_compute. Qed.

(** A float is an integer to the validator only. *)
Lemma float_differs :
  registry_integer "n" (JNumber (Float "1.5")) [] = Err (TypeMismatch "n") /\
  validator_integer "n" (JNumber (Float "1.5")) [] = Ok tt.
Proof. by vm_compute. Qed.

(** What is said of the items of an array, or required of a nested object, is dropped. *)
Lemma nested_rules_dropped order :
  json_value_to_field_type order
    (JObject [("items"%string, JObject [("maxLength"%string, JNumber (PosInt 1)); ("type"%string, JString "string")]);
              ("type"%string, JString "array")]) = Ok (FArray FString) /\
  validate_field_value registry_integer (FArray FString) "n" (JArray [JString "too long"]) [] = Ok tt.
Proof. by vm_compute. Qed.

(** The hash of a schema does not say where its name ends. *)
Lemma schema_hash_ambiguous d :
  schema_hash_input (mkSchema "a:b" "c" d) = schema_hash_input (mkSchema "a" "b:c" d).
Proof. done. Qed.

(** ** Theorems *)

(** validation.  A document is accepted against a compiled schema exactly when it parses
    to an object that has every required field and all of whose entries are fields of the
    schema whose type and constraints their values meet. *)
Theorem validation_exact (parse : string -> result string json) (c : CompiledSchema) (data : string) :
  validate_against_compiled parse c data = Ok tt <->
  exists obj, parse data = Ok (JObject obj) /\
    Forall (fun e => sf_required (snd e) = true -> sf_name (snd e) ∈ map fst obj) (cs_fields c) /\
    Forall (fun e => exists f, get (fst e) (cs_fields c) = Some f /\
              validate_field_value registry_integer (sf_type f) (fst e) (snd e) (sf_constraints f) = Ok tt) obj.
Proof.
  unfold validate_against_compiled, validate_with. split.
  - intros (v & Hv & H)%bind_ok. apply map_err_ok in Hv.
    apply validate_value_ok in H as (obj & -> & H). by exists obj.
  - intros (obj & Hp & H). rewrite Hp. cbn [map_err mbind result_bind]. apply validate_value_ok. by exists obj.
Qed.

(** the two validators.  Whatever the registry accepts, the schema's own validator
    accepts (the converse fails, for numbers). *)
Theorem validators_ordered (parse : string -> result string json) (c : CompiledSchema) (data : string)
    (H : validate_against_compiled parse c data = Ok tt) : validate_json parse c data = Ok tt.
Proof.
  unfold validate_against_compiled, validate_json, validate_with in *.
  apply bind_ok in H as (v & Hv & H). rewrite Hv. cbn [mbind result_bind].
  apply validate_value_ok in H as (obj & -> & Hr & Hf). apply validate_value_ok. exists obj.
  split; [done|]. split; [done|]. apply Forall_impl with (1 := Hf). intros e (f & Hg & He).
  exists f. split; [done|]. revert He. apply accepts_mono. apply registry_integer_accepts.
Qed.

(** compatibility.  When the comparison of two compiled schemas finds no breaking change
    and reports no changed constraint, every document the first accepts the second accepts.
    The documents parsed have distinct keys, and a hash map's order is a permutation. *)
Theorem compatible_sound (order : forall A, list (string * A) -> list (string * A))
    (parse : string -> result string json) (sha256 : bytes -> Bytes32)
    (Horder : forall A (l : list (string * A)), order A l ≡ₚ l)
    (Hparse : forall t v, parse t = Ok v -> json_ok v) (sa sb : Schema) (a b : CompiledSchema)
    (Ha : compile_schema_definition order parse sha256 sa = Ok a)
    (Hb : compile_schema_definition order parse sha256 sb = Ok b)
    (Hcompat : is_backward_compatible (diff_compiled_schemas a b) = true)
    (Hcon : Forall (fun c => forall n m, c <> FieldConstraintChanged n m) (changes (diff_compiled_schemas a b)))
    (data : string) (Hdoc : validate_against_compiled parse a data = Ok tt) :
  validate_against_compiled parse b data = Ok tt.
Proof.
  pose proof (compiled_schema_ok order Horder _ _ _ _ Hparse Ha) as [[Hna Hfa] _].
  pose proof (compiled_schema_ok order Horder _ _ _ _ Hparse Hb) as [[Hnb Hfb] _].
  pose proof (diff_compatible _ _ Hcompat Hcon) as [Hkeys Hfields]. rewrite Forall_forall in *.
  unfold validate_against_compiled, validate_with in *. apply bind_ok in Hdoc as (v & Hv & H).
  rewrite Hv. cbn [mbind result_bind].
  apply validate_value_ok in H as (obj & -> & Hr & Hf). rewrite Forall_forall in Hr. rewrite Forall_forall in Hf.
  apply validate_value_ok. exists obj. split; [done|]. split; apply Forall_forall.
  - intros e He Hreq. pose proof (Hfields e He) as Hm. destruct (get (fst e) (cs_fields a)) as [fa|] eqn:Eg.
    2: by rewrite Hreq in Hm.
    destruct Hm as (_ & Hm & _). apply get_some in Eg.
    destruct (Hfa _ Eg) as [Ena _], (Hfb e He) as [Enb _]. cbn in Ena. rewrite Enb, <- Ena.
    apply (Hr _ Eg). cbn. by apply Hm.
  - intros e He. destruct (Hf e He) as (fa & Hga & Hva). pose proof (get_some _ _ _ Hga) as Hin.
    apply Hkeys in Hin as Hin'. cbn [fst] in Hin'. apply contains_key_iff in Hin'.
    apply list_elem_of_fmap in Hin' as ([k fb] & Ek & Hb'). cbn in Ek. subst k.
    exists fb. split; [by apply get_nodup|].
    pose proof (Hfields _ Hb') as Hm. cbn [fst snd] in Hm. rewrite Hga in Hm. destruct Hm as (Ht & _ & <-).
    destruct (Hfa _ Hin) as [_ Hta], (Hfb _ Hb') as [_ Htb]. cbn in Hta, Htb.
    exact (eq_types_accept _ _ _ _ _ _ Hta Htb Ht Hva).
Qed.

(** the registry.  After any registrations, the versions of a name are the accepted ones
    registered under it, in order; the latest is the last of them, and a version is looked up
    as the first registered with that number; the compiled tables follow the same order. *)
Theorem registry_tables_exact (order : forall A, list (string * A) -> list (string * A))
    (parse : string -> result string json) (sha256 : bytes -> Bytes32) (h : list Schema) (n v : string) :
  let r := registered order parse sha256 h in let l := named order parse sha256 n h in
  let compile := compile_schema_definition order parse sha256 in
  list_versions n r = map s_version l /\ rg_get n r = last l /\
  get_version n v r = List.find (fun s => bool_decide (s_version s = v)) l /\
  (forall s, rg_get n r = Some s -> exists c, get_compiled n r = Some c /\ compile s = Ok c) /\
  (forall s, get_version n v r = Some s -> exists c, get_compiled_version n v r = Some c /\ compile s = Ok c).
Proof.
  cbn zeta. pose proof (registered_tables order parse sha256 h n) as [Hs Hc].
  set (r := registered order parse sha256 h) in *. set (l := named order parse sha256 n h) in *.
  assert (Hl : rg_get n r = last l).
  { unfold rg_get. destruct (rg_schemas r !! n); cbn in Hs; by rewrite <- Hs. }
  assert (Hv : get_version n v r = List.find (fun s => bool_decide (s_version s = v)) l).
  { unfold get_version. destruct (rg_schemas r !! n); cbn in Hs; by rewrite <- Hs. }
  assert (Hcl : get_compiled n r = last (default [] (rg_compiled r !! n))).
  { unfold get_compiled. by destruct (rg_compiled r !! n). }
  assert (Hcv : get_compiled_version n v r
     = List.find (fun c => bool_decide (cs_version c = v)) (default [] (rg_compiled r !! n))).
  { unfold get_compiled_version. by destruct (rg_compiled r !! n). }
  split; [|split; [done|split; [done|split]]].
  - unfold list_versions. destruct (rg_schemas r !! n); cbn in Hs; by rewrite <- Hs.
  - rewrite Hl, Hcl. clear -Hc. intros s Hs. apply last_Some in Hs as [l' E]. rewrite E in Hc.
    apply Forall2_app_inv_l in Hc as (k & k' & _ & H & ->).
    apply Forall2_cons_inv_l in H as (c & ? & Hc & ->%Forall2_nil_inv_l & ->).
    exists c. by rewrite last_snoc.
  - rewrite Hv, Hcv. clear -Hc. induction Hc as [|s c l k Hsc _ IH]; cbn; [done|].
    destruct (compile_name order parse sha256 s c Hsc) as [_ ->].
    case_bool_decide; [|done]. intros s' [= <-]. by exists c.
Qed.

(** ** Witnesses *)

Definition demo_order : forall A, list (string * A) -> list (string * A) := fun _ l => l.
Definition demo_properties (extra : list (string * json)) : json :=
  JObject [("properties"%string,
            JObject (("n"%string, JObject [("type"%string, JString "string")]) :: extra));
           ("required"%string, JArray [JString "n"])].
Definition demo_parse (t : string) : result string json :=
  if bool_decide (t = "one"%string) then Ok (demo_properties [])
  else if bool_decide (t = "two"%string)
  then Ok (demo_properties [("m"%string, JObject [("type"%string, JString "integer")])])
  else if bool_decide (t = "doc"%string) then Ok (one_entry (JString "abc")) else Err "malformed"%string.
Definition demo_compiled (s : Schema) : CompiledSchema :=
  match compile_schema_definition demo_order demo_parse (fun _ => zero32) s with
  | Ok c => c | Err _ => one_field "" (string_field []) end.

Lemma validators_ordered_witness :
  validate_json demo_parse (demo_compiled (mkSchema "s" "1" "one")) "doc" = Ok tt.
Proof. apply (validators_ordered demo_parse (demo_compiled (mkSchema "s" "1" "one")) "doc"). by vm_compute. Defined.

Lemma compatible_sound_witness :
  validate_against_compiled demo_parse (demo_compiled (mkSchema "s" "2" "two")) "doc" = Ok tt.
Proof.
  apply (compatible_sound demo_order demo_parse (fun _ => zero32)) with
    (sa := mkSchema "s" "1" "one") (sb := mkSchema "s" "2" "two")
    (a := demo_compiled (mkSchema "s" "1" "one")); try by vm_compute.
  - unfold demo_parse. intros t v. repeat (case_bool_decide; [intros [= <-]|]); [| | |done]; cbn;
      repeat split; repeat constructor; try done; rewrite ?elem_of_cons, ?elem_of_nil; naive_solver.
  - vm_compute. repeat constructor; intros; discriminate.
Defined.
