(* ===== verification/ContentSerde.v ===== *)
(** * Hand-written serde visitors (csv-content: content_tree.rs, attachments.rs, claims.rs;
      csv-chain-ports: lib.rs)

    Types that hold a hash write their [Serialize] and [Deserialize] by hand: the fields go
    out under the names of the Rust fields, and come back through a visitor of a sequence or
    of a map.  A positional format (bincode) gives the fields back as a sequence, a format
    with names (JSON, CBOR) as a map.  The sequence visitors read back what is written.  The
    map visitors name their keys by an enumeration in lower case without separators, which
    are not the names that are written: no value with a two-word field survives a format
    with names.

    A format is a tree of serde's data model; a value's encoder and decoder are a [Coder].
    Derived implementations are written out by the documentation of the derive macro. *)

From S2P Require Import Prelude Ord Bytes Hashing Text Content Manifest.
From S2P Require Coordinator.

(** ** Formats and coders *)

Inductive Fmt := Positional | Named.
Inductive Sv :=
| VBool (b : bool) | VU (n : N) | VStr (s : string) | VNone | VSome (v : Sv) | VSeq (l : list Sv)
| VMap (es : list (string * Sv)) | VVariant (name : string) (payload : option Sv).
Inductive DeError :=
| InvalidType | InvalidValue | InvalidLength (n : nat) | DuplicateField (f : string) | MissingField (f : string)
| UnknownField (f : string) | UnknownVariant (v : string).

Record Coder (A : Type) := mkCoder { ser : Fmt -> A -> Sv; de : Fmt -> Sv -> result DeError A; wf : A -> Prop }.
Arguments mkCoder {A}. Arguments ser {A}. Arguments de {A}. Arguments wf {A}.
Definition lawful {A} (fmt : Fmt) (c : Coder A) : Prop := forall x, wf c x -> de c fmt (ser c fmt x) = Ok x.

Definition boolc : Coder bool :=
  mkCoder (fun _ => VBool) (fun _ v => match v with VBool b => Ok b | _ => Err InvalidType end) (fun _ => True).
Definition strc : Coder string :=
  mkCoder (fun _ => VStr) (fun _ v => match v with VStr s => Ok s | _ => Err InvalidType end) (fun _ => True).
(** an unsigned integer up to [max] *)
Definition uintc (max : N) : Coder N :=
  mkCoder (fun _ => VU) (fun _ v => match v with VU n => if (n <=? max)%N then Ok n else Err InvalidValue | _ => Err InvalidType end)
    (fun n => (n <= max)%N).
Definition usizec : Coder nat :=
  mkCoder (fun _ n => VU (N.of_nat n)) (fun f v => N.to_nat <$> de (uintc u64_max) f v) (fun n => (N.of_nat n <= u64_max)%N).
Definition u8c : Coder byte :=
  mkCoder (fun _ b => VU (Byte.to_N b)) (fun f v => byte_of <$> de (uintc 255) f v) (fun _ => True).

Fixpoint de_list {A} (d : Sv -> result DeError A) (l : list Sv) : result DeError (list A) :=
  match l with
  | [] => Ok []
  | v :: l => x ← d v; xs ← de_list d l; Ok (x :: xs)
  end.
Definition seqc {A} (c : Coder A) : Coder (list A) :=
  mkCoder (fun f l => VSeq (map (ser c f) l)) (fun f v => match v with VSeq l => de_list (de c f) l | _ => Err InvalidType end)
    (Forall (wf c)).
Definition bytesc : Coder bytes := seqc u8c.
(** [[u8; 32]] *)
Definition hashc : Coder Hash :=
  mkCoder (fun f h => ser bytesc f (b32 h))
    (fun f v => b ← de bytesc f v; match to_b32 b with Some h => Ok h | None => Err (InvalidLength 32) end) (fun _ => True).
(** A format with names writes [Some] as the value itself. *)
Definition optc {A} (c : Coder A) : Coder (option A) :=
  mkCoder
    (fun f o => match o with None => VNone | Some x => match f with Positional => VSome (ser c f x) | Named => ser c f x end end)
    (fun f v => match v, f with
                | VNone, _ => Ok None
                | VSome v, Positional => Some <$> de c f v
                | v, Named => Some <$> de c f v
                | _, _ => Err InvalidType
                end)
    (fun o => match o with Some x => wf c x | None => True end).
Definition pairc {A B} (c : Coder A) (d : Coder B) : Coder (A * B) :=
  mkCoder (fun f x => VSeq [ser c f x.1; ser d f x.2])
    (fun f v => match v with VSeq [a; b] => x ← de c f a; y ← de d f b; Ok (x, y) | _ => Err InvalidType end)
    (fun x => wf c x.1 /\ wf d x.2).

(** [serialize_struct] with its [serialize_field]s *)
Definition put_struct (f : Fmt) (fields : list (string * Sv)) : Sv :=
  match f with Positional => VSeq (map snd fields) | Named => VMap fields end.

(** ** Derived implementations *)

Definition derived_field {A} (c : Coder A) (name : string) (missing : result DeError A) (f : Fmt) (i : nat) (v : Sv)
  : result DeError A :=
  match v with
  | VSeq l => match l !! i with Some x => de c f x | None => Err (InvalidLength i) end
  | VMap es =>
      match filter (fun e => e.1 = name) es with
      | [] => missing
      | [(_, x)] => de c f x
      | _ => Err (DuplicateField name)
      end
  | _ => Err InvalidType
  end.
Definition req_field {A} (c : Coder A) (name : string) := derived_field c name (Err (MissingField name)).
Definition opt_field {A} (c : Coder A) (name : string) := derived_field (optc c) name (Ok None).

Definition access_coder : Coder AccessControl :=
  mkCoder
    (fun f a => put_struct f [("readers", ser (seqc strc) f (ac_readers a)); ("writers", ser (seqc strc) f (ac_writers a));
                              ("min_disclosure_level", ser (uintc 255) f (min_disclosure_level a))])
    (fun f v => r ← req_field (seqc strc) "readers" f 0 v;
                w ← req_field (seqc strc) "writers" f 1 v;
                m ← req_field (uintc 255) "min_disclosure_level" f 2 v;
                Ok (mkAccess r w m))
    (fun a => (min_disclosure_level a <= 255)%N).
Definition metadata_coder : Coder NodeMetadata :=
  mkCoder
    (fun f m => put_struct f [("schema_id", ser (optc strc) f (schema_id m)); ("encoding", ser (optc strc) f (encoding m));
                              ("content_type", ser (optc strc) f (content_type m)); ("size", ser (optc (uintc u64_max)) f (nm_size m));
                              ("access_control", ser (optc access_coder) f (access_control m))])
    (fun f v => s ← opt_field strc "schema_id" f 0 v;
                e ← opt_field strc "encoding" f 1 v;
                c ← opt_field strc "content_type" f 2 v;
                n ← opt_field (uintc u64_max) "size" f 3 v;
                a ← opt_field access_coder "access_control" f 4 v;
                Ok (mkMetadata s e c n a))
    (fun m => wf (optc (uintc u64_max)) (nm_size m) /\ wf (optc access_coder) (access_control m)).
Definition rights_coder : Coder Content.ContentRights :=
  mkCoder
    (fun f r => put_struct f [("owner", ser strc f (Content.owner r)); ("readers", ser (seqc strc) f (Content.readers r));
                              ("modifiers", ser (seqc strc) f (Content.modifiers r)); ("revokers", ser (seqc strc) f (Content.revokers r));
                              ("expires_at", ser (uintc u64_max) f (Content.rights_expires_at r))])
    (fun f v => o ← req_field strc "owner" f 0 v;
                r ← req_field (seqc strc) "readers" f 1 v;
                m ← req_field (seqc strc) "modifiers" f 2 v;
                k ← req_field (seqc strc) "revokers" f 3 v;
                e ← req_field (uintc u64_max) "expires_at" f 4 v;
                Ok (Content.mkRights o r m k e))
    (fun r => (Content.rights_expires_at r <= u64_max)%N).
Definition node_type_coder : Coder NodeType :=
  mkCoder
    (fun _ t => VVariant match t with Leaf => "Leaf" | Internal => "Internal" | Encrypted => "Encrypted" | Metadata => "Metadata" end None)
    (fun _ v => match v with
                | VVariant n None =>
                    if String.eqb n "Leaf" then Ok Leaf else if String.eqb n "Internal" then Ok Internal
                    else if String.eqb n "Encrypted" then Ok Encrypted else if String.eqb n "Metadata" then Ok Metadata
                    else Err (UnknownVariant n)
                | _ => Err InvalidType
                end)
    (fun _ => True).
Definition media_variants : list (string * MediaType) :=
  [("Text", Text); ("Json", Json); ("Xml", Xml); ("Pdf", Pdf); ("Image", Image); ("Png", Png); ("Jpeg", Jpeg); ("Gif", Gif);
   ("Mp4", Mp4); ("Mp3", Mp3); ("Zip", Zip)].
Definition media_name (m : MediaType) : string :=
  match m with
  | Text => "Text" | Json => "Json" | Xml => "Xml" | Pdf => "Pdf" | Image => "Image" | Png => "Png" | Jpeg => "Jpeg" | Gif => "Gif"
  | Mp4 => "Mp4" | Mp3 => "Mp3" | Zip => "Zip" | Custom _ => "Custom"
  end.
Definition media_coder : Coder MediaType :=
  mkCoder
    (fun f m => VVariant (media_name m) match m with Custom s => Some (ser strc f s) | _ => None end)
    (fun f v => match v with
                | VVariant n None => match find (fun e => String.eqb e.1 n) media_variants with Some e => Ok e.2 | None => Err (UnknownVariant n) end
                | VVariant n (Some p) => if String.eqb n "Custom" then Custom <$> de strc f p else Err (UnknownVariant n)
                | _ => Err InvalidType
                end)
    (fun _ => True).

(** ** The parts of a visitor *)

(** [seq.next_element()?.ok_or_else(|| invalid_length(i, &self))?] *)
Definition next_element {A} (c : Coder A) (f : Fmt) (i : nat) (l : list Sv) : result DeError (A * list Sv) :=
  match l with
  | [] => Err (InvalidLength i)
  | v :: l => x ← de c f v; Ok (x, l)
  end.
(** [if slot.is_some() { return Err(duplicate_field(name)) } slot = Some(map.next_value()?)] *)
Definition set_slot {A} (c : Coder A) (f : Fmt) (name : string) (slot : option A) (v : Sv) : result DeError (option A) :=
  match slot with Some _ => Err (DuplicateField name) | None => x ← de c f v; Ok (Some x) end.
(** [slot.ok_or_else(|| missing_field(name))?] *)
Definition ok_or_missing {A} (name : string) (slot : option A) : result DeError A :=
  match slot with Some x => Ok x | None => Err (MissingField name) end.
(** The key of an entry, by [#[serde(field_identifier, rename_all = "lowercase")] enum Field]:
    the names of the variants, in lower case. *)
Definition identify {F} (variants : list (string * F)) (key : string) : result DeError F :=
  match find (fun e => String.eqb (to_lowercase e.1) key) variants with
  | Some e => Ok e.2
  | None => Err (UnknownField key)
  end.
(** [while let Some(key) = map.next_key()?] *)
Fixpoint map_loop {F St} (variants : list (string * F)) (step : F -> Sv -> St -> result DeError St) (es : list (string * Sv)) (st : St)
  : result DeError St :=
  match es with
  | [] => Ok st
  | (key, v) :: es => f ← identify variants key; st ← step f v st; map_loop variants step es st
  end.
(** [deserializer.deserialize_struct] *)
Definition deserialize_struct {A} (visit_seq : list Sv -> result DeError A) (visit_map : list (string * Sv) -> result DeError A) (v : Sv)
  : result DeError A :=
  match v with VSeq l => visit_seq l | VMap es => visit_map es | _ => Err InvalidType end.

(** ** Proofs of content *)

Definition put_content_proof (f : Fmt) (p : ContentProof) : Sv :=
  put_struct f [("leaf_index", ser usizec f (cp_leaf_index p)); ("leaf_hash", ser hashc f (cp_leaf_hash p));
                ("siblings", ser (seqc hashc) f (cp_siblings p)); ("root_hash", ser hashc f (cp_root_hash p))].
Definition content_proof_seq (f : Fmt) (l : list Sv) : result DeError ContentProof :=
  '(leaf_index, l) ← next_element usizec f 0 l;
  '(leaf_hash, l) ← next_element hashc f 1 l;
  '(siblings, l) ← next_element (seqc hashc) f 2 l;
  '(root_hash, _) ← next_element hashc f 3 l;
  Ok (mkContentProof leaf_index leaf_hash siblings root_hash).
Inductive ContentProofField := FLeafIndex | FLeafHash | FSiblings | FRootHash.
Definition content_proof_fields : list (string * ContentProofField) :=
  [("LeafIndex", FLeafIndex); ("LeafHash", FLeafHash); ("Siblings", FSiblings); ("RootHash", FRootHash)].
Definition content_proof_map (f : Fmt) (es : list (string * Sv)) : result DeError ContentProof :=
  '(leaf_index, leaf_hash, siblings, root_hash) ← map_loop content_proof_fields
    (fun field v '(i, h, s, r) => match field with
     | FLeafIndex => i ← set_slot usizec f "leaf_index" i v; Ok (i, h, s, r)
     | FLeafHash => h ← set_slot hashc f "leaf_hash" h v; Ok (i, h, s, r)
     | FSiblings => s ← set_slot (seqc hashc) f "siblings" s v; Ok (i, h, s, r)
     | FRootHash => r ← set_slot hashc f "root_hash" r v; Ok (i, h, s, r)
     end) es (None, None, None, None);
  leaf_index ← ok_or_missing "leaf_index" leaf_index;
  leaf_hash ← ok_or_missing "leaf_hash" leaf_hash;
  siblings ← ok_or_missing "siblings" siblings;
  root_hash ← ok_or_missing "root_hash" root_hash;
  Ok (mkContentProof leaf_index leaf_hash siblings root_hash).
Definition content_proof_coder : Coder ContentProof :=
  mkCoder put_content_proof (fun f => deserialize_struct (content_proof_seq f) (content_proof_map f))
    (fun p => (N.of_nat (cp_leaf_index p) <= u64_max)%N).

Definition put_disclosure (f : Fmt) (p : DisclosureProof) : Sv :=
  put_struct f [("subtree_root", ser hashc f (subtree_root p)); ("inclusion_proof", ser content_proof_coder f (dp_inclusion_proof p))].
Definition disclosure_seq (f : Fmt) (l : list Sv) : result DeError DisclosureProof :=
  '(subtree_root, l) ← next_element hashc f 0 l;
  '(inclusion_proof, _) ← next_element content_proof_coder f 1 l;
  Ok (mkDisclosure subtree_root inclusion_proof).
Inductive DisclosureField := FSubtreeRoot | FInclusionProof.
Definition disclosure_fields : list (string * DisclosureField) := [("SubtreeRoot", FSubtreeRoot); ("InclusionProof", FInclusionProof)].
Definition disclosure_map (f : Fmt) (es : list (string * Sv)) : result DeError DisclosureProof :=
  '(subtree_root, inclusion_proof) ← map_loop disclosure_fields
    (fun field v '(s, i) => match field with
     | FSubtreeRoot => s ← set_slot hashc f "subtree_root" s v; Ok (s, i)
     | FInclusionProof => i ← set_slot content_proof_coder f "inclusion_proof" i v; Ok (s, i)
     end) es (None, None);
  subtree_root ← ok_or_missing "subtree_root" subtree_root;
  inclusion_proof ← ok_or_missing "inclusion_proof" inclusion_proof;
  Ok (mkDisclosure subtree_root inclusion_proof).
Definition disclosure_coder : Coder DisclosureProof :=
  mkCoder put_disclosure (fun f => deserialize_struct (disclosure_seq f) (disclosure_map f))
    (fun p => wf content_proof_coder (dp_inclusion_proof p)).

Definition put_redacted (f : Fmt) (p : RedactedMerkleProof) : Sv :=
  put_struct f [("leaf_hash", ser hashc f (rp_leaf_hash p)); ("proof", ser content_proof_coder f (rp_proof p));
                ("redaction_method", ser strc f (redaction_method p))].
Definition redacted_seq (f : Fmt) (l : list Sv) : result DeError RedactedMerkleProof :=
  '(leaf_hash, l) ← next_element hashc f 0 l;
  '(proof, l) ← next_element content_proof_coder f 1 l;
  '(method, _) ← next_element strc f 2 l;
  Ok (mkRedacted leaf_hash proof method).
Inductive RedactedField := FRedactedLeafHash | FProof | FRedactionMethod.
Definition redacted_fields : list (string * RedactedField) :=
  [("LeafHash", FRedactedLeafHash); ("Proof", FProof); ("RedactionMethod", FRedactionMethod)].
Definition redacted_map (f : Fmt) (es : list (string * Sv)) : result DeError RedactedMerkleProof :=
  '(leaf_hash, proof, method) ← map_loop redacted_fields
    (fun field v '(h, p, m) => match field with
     | FRedactedLeafHash => h ← set_slot hashc f "leaf_hash" h v; Ok (h, p, m)
     | FProof => p ← set_slot content_proof_coder f "proof" p v; Ok (h, p, m)
     | FRedactionMethod => m ← set_slot strc f "redaction_method" m v; Ok (h, p, m)
     end) es (None, None, None);
  leaf_hash ← ok_or_missing "leaf_hash" leaf_hash;
  proof ← ok_or_missing "proof" proof;
  method ← ok_or_missing "redaction_method" method;
  Ok (mkRedacted leaf_hash proof method).
Definition redacted_coder : Coder RedactedMerkleProof :=
  mkCoder put_redacted (fun f => deserialize_struct (redacted_seq f) (redacted_map f)) (fun p => wf content_proof_coder (rp_proof p)).

Definition put_encrypted (f : Fmt) (p : EncryptedSubtreeProof) : Sv :=
  put_struct f [("encrypted_root", ser hashc f (encrypted_root p)); ("inclusion_proof", ser content_proof_coder f (ep_inclusion_proof p));
                ("encryption_algorithm", ser strc f (encryption_algorithm p)); ("key_id", ser strc f (ep_key_id p))].
Definition encrypted_seq (f : Fmt) (l : list Sv) : result DeError EncryptedSubtreeProof :=
  '(encrypted_root, l) ← next_element hashc f 0 l;
  '(inclusion_proof, l) ← next_element content_proof_coder f 1 l;
  '(algorithm, l) ← next_element strc f 2 l;
  '(key_id, _) ← next_element strc f 3 l;
  Ok (mkEncryptedSubtree encrypted_root inclusion_proof algorithm key_id).
Inductive EncryptedField := FEncryptedRoot | FEncryptedInclusion | FEncryptionAlgorithm | FKeyId.
Definition encrypted_fields : list (string * EncryptedField) :=
  [("EncryptedRoot", FEncryptedRoot); ("InclusionProof", FEncryptedInclusion); ("EncryptionAlgorithm", FEncryptionAlgorithm); ("KeyId", FKeyId)].
Definition encrypted_map (f : Fmt) (es : list (string * Sv)) : result DeError EncryptedSubtreeProof :=
  '(encrypted_root, inclusion_proof, algorithm, key_id) ← map_loop encrypted_fields
    (fun field v '(r, i, a, k) => match field with
     | FEncryptedRoot => r ← set_slot hashc f "encrypted_root" r v; Ok (r, i, a, k)
     | FEncryptedInclusion => i ← set_slot content_proof_coder f "inclusion_proof" i v; Ok (r, i, a, k)
     | FEncryptionAlgorithm => a ← set_slot strc f "encryption_algorithm" a v; Ok (r, i, a, k)
     | FKeyId => k ← set_slot strc f "key_id" k v; Ok (r, i, a, k)
     end) es (None, None, None, None);
  encrypted_root ← ok_or_missing "encrypted_root" encrypted_root;
  inclusion_proof ← ok_or_missing "inclusion_proof" inclusion_proof;
  algorithm ← ok_or_missing "encryption_algorithm" algorithm;
  key_id ← ok_or_missing "key_id" key_id;
  Ok (mkEncryptedSubtree encrypted_root inclusion_proof algorithm key_id).
Definition encrypted_coder : Coder EncryptedSubtreeProof :=
  mkCoder put_encrypted (fun f => deserialize_struct (encrypted_seq f) (encrypted_map f)) (fun p => wf content_proof_coder (ep_inclusion_proof p)).

(** ** Nodes and trees of content *)

Definition put_node (f : Fmt) (n : ContentNode) : Sv :=
  put_struct f [("node_type", ser node_type_coder f (node_type n)); ("hash", ser hashc f (cn_hash n));
                ("data", ser (optc bytesc) f (cn_data n)); ("children", ser (seqc hashc) f (children n));
                ("encryption_key_id", ser (optc strc) f (cn_encryption_key_id n)); ("metadata", ser metadata_coder f (cn_metadata n))].
Definition node_seq (f : Fmt) (l : list Sv) : result DeError ContentNode :=
  '(node_type, l) ← next_element node_type_coder f 0 l;
  '(hash, l) ← next_element hashc f 1 l;
  '(data, l) ← next_element (optc bytesc) f 2 l;
  '(children, l) ← next_element (seqc hashc) f 3 l;
  '(key_id, l) ← next_element (optc strc) f 4 l;
  '(metadata, _) ← next_element metadata_coder f 5 l;
  Ok (mkContentNode node_type hash data children key_id metadata).
Inductive NodeField := FNodeType | FHash | FData | FChildren | FEncryptionKeyId | FMetadata.
Definition node_fields : list (string * NodeField) :=
  [("NodeType", FNodeType); ("Hash", FHash); ("Data", FData); ("Children", FChildren); ("EncryptionKeyId", FEncryptionKeyId);
   ("Metadata", FMetadata)].
(** The key id of a node is the slot itself, which a map may leave empty. *)
Definition node_map (f : Fmt) (es : list (string * Sv)) : result DeError ContentNode :=
  '(node_type, hash, data, children, key_id, metadata) ← map_loop node_fields
    (fun field v '(t, h, d, c, k, m) => match field with
     | FNodeType => t ← set_slot node_type_coder f "node_type" t v; Ok (t, h, d, c, k, m)
     | FHash => h ← set_slot hashc f "hash" h v; Ok (t, h, d, c, k, m)
     | FData => d ← set_slot (optc bytesc) f "data" d v; Ok (t, h, d, c, k, m)
     | FChildren => c ← set_slot (seqc hashc) f "children" c v; Ok (t, h, d, c, k, m)
     | FEncryptionKeyId => k ← set_slot strc f "encryption_key_id" k v; Ok (t, h, d, c, k, m)
     | FMetadata => m ← set_slot metadata_coder f "metadata" m v; Ok (t, h, d, c, k, m)
     end) es (None, None, None, None, None, None);
  node_type ← ok_or_missing "node_type" node_type;
  hash ← ok_or_missing "hash" hash;
  data ← ok_or_missing "data" data;
  children ← ok_or_missing "children" children;
  metadata ← ok_or_missing "metadata" metadata;
  Ok (mkContentNode node_type hash data children key_id metadata).
Definition node_coder : Coder ContentNode :=
  mkCoder put_node (fun f => deserialize_struct (node_seq f) (node_map f)) (fun n => wf metadata_coder (cn_metadata n)).

(** [into_iter().map(..).collect()] into a map: a later entry replaces an earlier one. *)
Definition collect_metadata (l : list (Hash * NodeMetadata)) : gmap Hash NodeMetadata :=
  fold_left (fun m e => <[e.1 := e.2]> m) l ∅.

Section Tree.
(** the order in which a map's entries are iterated *)
Variable order : gmap Hash NodeMetadata -> list (Hash * NodeMetadata).

Definition put_tree (f : Fmt) (t : ContentTree) : Sv :=
  put_struct f [("root_hash", ser hashc f (ct_root_hash t)); ("leaf_hashes", ser (seqc hashc) f (leaf_hashes t));
                ("depth", ser usizec f (ct_depth t)); ("leaf_count", ser usizec f (ct_leaf_count t));
                ("node_metadata", ser (seqc (pairc hashc metadata_coder)) f (order (node_metadata t)))].
Definition tree_seq (f : Fmt) (l : list Sv) : result DeError ContentTree :=
  '(root_hash, l) ← next_element hashc f 0 l;
  '(leaf_hashes, l) ← next_element (seqc hashc) f 1 l;
  '(depth, l) ← next_element usizec f 2 l;
  '(leaf_count, l) ← next_element usizec f 3 l;
  '(metadata, _) ← next_element (seqc (pairc hashc metadata_coder)) f 4 l;
  Ok (mkContentTree root_hash leaf_hashes depth leaf_count (collect_metadata metadata)).
Inductive TreeField := FTreeRoot | FLeafHashes | FDepth | FLeafCount | FNodeMetadata.
Definition tree_fields : list (string * TreeField) :=
  [("RootHash", FTreeRoot); ("LeafHashes", FLeafHashes); ("Depth", FDepth); ("LeafCount", FLeafCount); ("NodeMetadata", FNodeMetadata)].
Definition tree_map (f : Fmt) (es : list (string * Sv)) : result DeError ContentTree :=
  '(root_hash, leaf_hashes, depth, leaf_count, metadata) ← map_loop tree_fields
    (fun field v '(r, l, d, c, m) => match field with
     | FTreeRoot => r ← set_slot hashc f "root_hash" r v; Ok (r, l, d, c, m)
     | FLeafHashes => l ← set_slot (seqc hashc) f "leaf_hashes" l v; Ok (r, l, d, c, m)
     | FDepth => d ← set_slot usizec f "depth" d v; Ok (r, l, d, c, m)
     | FLeafCount => c ← set_slot usizec f "leaf_count" c v; Ok (r, l, d, c, m)
     | FNodeMetadata => m ← set_slot (seqc (pairc hashc metadata_coder)) f "node_metadata" m v; Ok (r, l, d, c, m)
     end) es (None, None, None, None, None);
  root_hash ← ok_or_missing "root_hash" root_hash;
  leaf_hashes ← ok_or_missing "leaf_hashes" leaf_hashes;
  depth ← ok_or_missing "depth" depth;
  leaf_count ← ok_or_missing "leaf_count" leaf_count;
  metadata ← ok_or_missing "node_metadata" metadata;
  Ok (mkContentTree root_hash leaf_hashes depth leaf_count (collect_metadata metadata)).
Definition tree_coder : Coder ContentTree :=
  mkCoder put_tree (fun f => deserialize_struct (tree_seq f) (tree_map f))
    (fun t => wf usizec (ct_depth t) /\ wf usizec (ct_leaf_count t) /\ map_Forall (fun _ m => wf metadata_coder m) (node_metadata t)).
End Tree.

(** ** Attachments, transfers of rights *)

Definition put_attachment (f : Fmt) (a : AttachmentRef) : Sv :=
  put_struct f [("cid", ser strc f (at_cid a)); ("media_type", ser media_coder f (at_media_type a)); ("size", ser (uintc u64_max) f (at_size a));
                ("hash", ser hashc f (at_hash a)); ("encryption_key_id", ser (optc strc) f (at_encryption_key_id a));
                ("created_at", ser (uintc u64_max) f (at_created_at a))].
Definition attachment_seq (f : Fmt) (l : list Sv) : result DeError AttachmentRef :=
  '(cid, l) ← next_element strc f 0 l;
  '(media_type, l) ← next_element media_coder f 1 l;
  '(size, l) ← next_element (uintc u64_max) f 2 l;
  '(hash, l) ← next_element hashc f 3 l;
  '(key_id, l) ← next_element (optc strc) f 4 l;
  '(created_at, _) ← next_element (uintc u64_max) f 5 l;
  Ok (mkAttachment cid media_type size hash key_id created_at).
Inductive AttachmentField := FCid | FMediaType | FSize | FAttachmentHash | FAttachmentKey | FCreatedAt.
Definition attachment_fields : list (string * AttachmentField) :=
  [("Cid", FCid); ("MediaType", FMediaType); ("Size", FSize); ("Hash", FAttachmentHash); ("EncryptionKeyId", FAttachmentKey);
   ("CreatedAt", FCreatedAt)].
Definition attachment_map (f : Fmt) (es : list (string * Sv)) : result DeError AttachmentRef :=
  '(cid, media_type, size, hash, key_id, created_at) ← map_loop attachment_fields
    (fun field v '(c, m, s, h, k, t) => match field with
     | FCid => c ← set_slot strc f "cid" c v; Ok (c, m, s, h, k, t)
     | FMediaType => m ← set_slot media_coder f "media_type" m v; Ok (c, m, s, h, k, t)
     | FSize => s ← set_slot (uintc u64_max) f "size" s v; Ok (c, m, s, h, k, t)
     | FAttachmentHash => h ← set_slot hashc f "hash" h v; Ok (c, m, s, h, k, t)
     | FAttachmentKey => k ← set_slot strc f "encryption_key_id" k v; Ok (c, m, s, h, k, t)
     | FCreatedAt => t ← set_slot (uintc u64_max) f "created_at" t v; Ok (c, m, s, h, k, t)
     end) es (None, None, None, None, None, None);
  cid ← ok_or_missing "cid" cid;
  media_type ← ok_or_missing "media_type" media_type;
  size ← ok_or_missing "size" size;
  hash ← ok_or_missing "hash" hash;
  created_at ← ok_or_missing "created_at" created_at;
  Ok (mkAttachment cid media_type size hash key_id created_at).
Definition attachment_coder : Coder AttachmentRef :=
  mkCoder put_attachment (fun f => deserialize_struct (attachment_seq f) (attachment_map f))
    (fun a => (at_size a <= u64_max)%N /\ (at_created_at a <= u64_max)%N).

Definition put_rights_transfer (f : Fmt) (t : Content.RightsTransfer) : Sv :=
  put_struct f [("content_hash", ser hashc f (Content.rt_content_hash t)); ("from", ser strc f (Content.rt_from t));
                ("to", ser strc f (Content.rt_to t)); ("new_rights", ser rights_coder f (Content.new_rights t));
                ("authorization_proof", ser bytesc f (Content.authorization_proof t))].
Definition rights_transfer_seq (f : Fmt) (l : list Sv) : result DeError Content.RightsTransfer :=
  '(content_hash, l) ← next_element hashc f 0 l;
  '(from, l) ← next_element strc f 1 l;
  '(to, l) ← next_element strc f 2 l;
  '(new_rights, l) ← next_element rights_coder f 3 l;
  '(authorization_proof, _) ← next_element bytesc f 4 l;
  Ok (Content.mkRightsTransfer content_hash from to new_rights authorization_proof).
Inductive RightsTransferField := FContentHash | FFrom | FTo | FNewRights | FAuthorizationProof.
Definition rights_transfer_fields : list (string * RightsTransferField) :=
  [("ContentHash", FContentHash); ("From", FFrom); ("To", FTo); ("NewRights", FNewRights); ("AuthorizationProof", FAuthorizationProof)].
Definition rights_transfer_map (f : Fmt) (es : list (string * Sv)) : result DeError Content.RightsTransfer :=
  '(content_hash, from, to, new_rights, authorization_proof) ← map_loop rights_transfer_fields
    (fun field v '(c, a, b, n, p) => match field with
     | FContentHash => c ← set_slot hashc f "content_hash" c v; Ok (c, a, b, n, p)
     | FFrom => a ← set_slot strc f "from" a v; Ok (c, a, b, n, p)
     | FTo => b ← set_slot strc f "to" b v; Ok (c, a, b, n, p)
     | FNewRights => n ← set_slot rights_coder f "new_rights" n v; Ok (c, a, b, n, p)
     | FAuthorizationProof => p ← set_slot bytesc f "authorization_proof" p v; Ok (c, a, b, n, p)
     end) es (None, None, None, None, None);
  content_hash ← ok_or_missing "content_hash" content_hash;
  from ← ok_or_missing "from" from;
  to ← ok_or_missing "to" to;
  new_rights ← ok_or_missing "new_rights" new_rights;
  authorization_proof ← ok_or_missing "authorization_proof" authorization_proof;
  Ok (Content.mkRightsTransfer content_hash from to new_rights authorization_proof).
Definition rights_transfer_coder : Coder Content.RightsTransfer :=
  mkCoder put_rights_transfer (fun f => deserialize_struct (rights_transfer_seq f) (rights_transfer_map f))
    (fun t => wf rights_coder (Content.new_rights t)).

(** ** Mint receipts, cross-chain transfers (csv-chain-ports: lib.rs) *)

Record MintReceipt := mkMintReceipt { mr_tx_hash : Hash; mr_block_number : N; mr_timestamp : N; mr_gas_used : N }.
Definition put_mint_receipt (f : Fmt) (r : MintReceipt) : Sv :=
  put_struct f [("tx_hash", ser hashc f (mr_tx_hash r)); ("block_number", ser (uintc u64_max) f (mr_block_number r));
                ("timestamp", ser (uintc u64_max) f (mr_timestamp r)); ("gas_used", ser (uintc u64_max) f (mr_gas_used r))].
Definition mint_receipt_seq (f : Fmt) (l : list Sv) : result DeError MintReceipt :=
  '(tx_hash, l) ← next_element hashc f 0 l;
  '(block_number, l) ← next_element (uintc u64_max) f 1 l;
  '(timestamp, l) ← next_element (uintc u64_max) f 2 l;
  '(gas_used, _) ← next_element (uintc u64_max) f 3 l;
  Ok (mkMintReceipt tx_hash block_number timestamp gas_used).
Inductive MintReceiptField := FTxHash | FBlockNumber | FTimestamp | FGasUsed.
Definition mint_receipt_fields : list (string * MintReceiptField) :=
  [("TxHash", FTxHash); ("BlockNumber", FBlockNumber); ("Timestamp", FTimestamp); ("GasUsed", FGasUsed)].
Definition mint_receipt_map (f : Fmt) (es : list (string * Sv)) : result DeError MintReceipt :=
  '(tx_hash, block_number, timestamp, gas_used) ← map_loop mint_receipt_fields
    (fun field v '(h, b, t, g) => match field with
     | FTxHash => h ← set_slot hashc f "tx_hash" h v; Ok (h, b, t, g)
     | FBlockNumber => b ← set_slot (uintc u64_max) f "block_number" b v; Ok (h, b, t, g)
     | FTimestamp => t ← set_slot (uintc u64_max) f "timestamp" t v; Ok (h, b, t, g)
     | FGasUsed => g ← set_slot (uintc u64_max) f "gas_used" g v; Ok (h, b, t, g)
     end) es (None, None, None, None);
  tx_hash ← ok_or_missing "tx_hash" tx_hash;
  block_number ← ok_or_missing "block_number" block_number;
  timestamp ← ok_or_missing "timestamp" timestamp;
  gas_used ← ok_or_missing "gas_used" gas_used;
  Ok (mkMintReceipt tx_hash block_number timestamp gas_used).
Definition mint_receipt_coder : Coder MintReceipt :=
  mkCoder put_mint_receipt (fun f => deserialize_struct (mint_receipt_seq f) (mint_receipt_map f))
    (fun r => (mr_block_number r <= u64_max)%N /\ (mr_timestamp r <= u64_max)%N /\ (mr_gas_used r <= u64_max)%N).

Definition put_transfer (f : Fmt) (t : Coordinator.CrossChainTransfer) : Sv :=
  put_struct f [("id", ser strc f (Coordinator.ct_id t)); ("source_chain", ser strc f (Coordinator.ct_source_chain t));
                ("destination_chain", ser strc f (Coordinator.ct_destination_chain t));
                ("lock_tx_hash", ser bytesc f (Coordinator.ct_lock_tx_hash t));
                ("lock_output_index", ser (uintc u32_max) f (Coordinator.ct_lock_output_index t));
                ("sanad_id", ser hashc f (Coordinator.ct_sanad_id t)); ("transition_id", ser bytesc f (Coordinator.ct_transition_id t))].
Definition transfer_seq (f : Fmt) (l : list Sv) : result DeError Coordinator.CrossChainTransfer :=
  '(id, l) ← next_element strc f 0 l;
  '(source_chain, l) ← next_element strc f 1 l;
  '(destination_chain, l) ← next_element strc f 2 l;
  '(lock_tx_hash, l) ← next_element bytesc f 3 l;
  '(lock_output_index, l) ← next_element (uintc u32_max) f 4 l;
  '(sanad_id, l) ← next_element hashc f 5 l;
  '(transition_id, _) ← next_element bytesc f 6 l;
  Ok (Coordinator.mkTransfer id source_chain destination_chain lock_tx_hash lock_output_index sanad_id transition_id).
Inductive TransferField := FId | FSourceChain | FDestinationChain | FLockTxHash | FLockOutputIndex | FSanadId | FTransitionId.
Definition transfer_fields : list (string * TransferField) :=
  [("Id", FId); ("SourceChain", FSourceChain); ("DestinationChain", FDestinationChain); ("LockTxHash", FLockTxHash);
   ("LockOutputIndex", FLockOutputIndex); ("SanadId", FSanadId); ("TransitionId", FTransitionId)].
Definition transfer_map (f : Fmt) (es : list (string * Sv)) : result DeError Coordinator.CrossChainTransfer :=
  '(id, source_chain, destination_chain, lock_tx_hash, lock_output_index, sanad_id, transition_id) ← map_loop transfer_fields
    (fun field v '(i, s, d, h, o, a, t) => match field with
     | FId => i ← set_slot strc f "id" i v; Ok (i, s, d, h, o, a, t)
     | FSourceChain => s ← set_slot strc f "source_chain" s v; Ok (i, s, d, h, o, a, t)
     | FDestinationChain => d ← set_slot strc f "destination_chain" d v; Ok (i, s, d, h, o, a, t)
     | FLockTxHash => h ← set_slot bytesc f "lock_tx_hash" h v; Ok (i, s, d, h, o, a, t)
     | FLockOutputIndex => o ← set_slot (uintc u32_max) f "lock_output_index" o v; Ok (i, s, d, h, o, a, t)
     | FSanadId => a ← set_slot hashc f "sanad_id" a v; Ok (i, s, d, h, o, a, t)
     | FTransitionId => t ← set_slot bytesc f "transition_id" t v; Ok (i, s, d, h, o, a, t)
     end) es (None, None, None, None, None, None, None);
  id ← ok_or_missing "id" id;
  source_chain ← ok_or_missing "source_chain" source_chain;
  destination_chain ← ok_or_missing "destination_chain" destination_chain;
  lock_tx_hash ← ok_or_missing "lock_tx_hash" lock_tx_hash;
  lock_output_index ← ok_or_missing "lock_output_index" lock_output_index;
  sanad_id ← ok_or_missing "sanad_id" sanad_id;
  transition_id ← ok_or_missing "transition_id" transition_id;
  Ok (Coordinator.mkTransfer id source_chain destination_chain lock_tx_hash lock_output_index sanad_id transition_id).
Definition transfer_coder : Coder Coordinator.CrossChainTransfer :=
  mkCoder put_transfer (fun f => deserialize_struct (transfer_seq f) (transfer_map f))
    (fun t => (Coordinator.ct_lock_output_index t <= u32_max)%N).

(** ** Lemmas: coders are lawful *)

Create HintDb serde.

Lemma lawful_bool f : lawful f boolc.
Proof. done. Qed.
Lemma lawful_str f : lawful f strc.
Proof. done. Qed.
Lemma lawful_uint f max : lawful f (uintc max).
Proof. intros n Hn. cbn in *. by rewrite (proj2 (N.leb_le _ _)). Qed.
Lemma lawful_usize f : lawful f usizec.
Proof. intros n Hn. cbn in *. rewrite (proj2 (N.leb_le _ _)) by done. cbn. by rewrite Nat2N.id. Qed.
Lemma lawful_u8 f : lawful f u8c.
Proof.
  intros b _. cbn. rewrite (proj2 (N.leb_le _ _)) by (pose proof (Byte.to_N_bounded b); lia).
  cbn. by rewrite byte_of_to_N.
Qed.
Lemma lawful_seq {A} f (c : Coder A) : lawful f c -> lawful f (seqc c).
Proof.
  intros Hc l Hl. cbn. induction Hl as [|x l Hx Hl IH]; [done|]. cbn. rewrite (Hc x Hx). cbn. cbn in IH. by rewrite IH.
Qed.
Lemma lawful_bytes f : lawful f bytesc.
Proof. apply lawful_seq, lawful_u8. Qed.
Lemma bytes_wf (b : bytes) : wf bytesc b.
Proof. by apply Forall_true. Qed.
Lemma lawful_hash f : lawful f hashc.
Proof.
  intros h _. unfold hashc. cbn [de ser]. rewrite (lawful_bytes f _ (bytes_wf _)). cbn [mbind result_bind]. by rewrite to_b32_b32.
Qed.
Lemma hashes_wf (l : list Hash) : wf (seqc hashc) l.
Proof. by apply Forall_true. Qed.
Lemma strs_wf (l : list string) : wf (seqc strc) l.
Proof. by apply Forall_true. Qed.
(** A value that a format with names writes otherwise than [null]. *)
Definition visible {A} (c : Coder A) : Prop := forall x, match ser c Named x with VNone => False | VSome _ => False | _ => True end.
Lemma lawful_opt_positional {A} (c : Coder A) : lawful Positional c -> lawful Positional (optc c).
Proof. intros Hc [x|] Hx; cbn; [|done]. by rewrite Hc. Qed.
Lemma lawful_opt_named {A} (c : Coder A) : lawful Named c -> visible c -> lawful Named (optc c).
Proof.
  intros Hc Hv [x|] Hx; cbn; [|done]. specialize (Hv x). specialize (Hc x Hx). destruct (ser c Named x); try done; by rewrite Hc.
Qed.
Lemma lawful_pair {A B} f (c : Coder A) (d : Coder B) : lawful f c -> lawful f d -> lawful f (pairc c d).
Proof. intros Hc Hd [x y] [Hx Hy]. cbn in *. rewrite (Hc x Hx). cbn. by rewrite (Hd y Hy). Qed.
Lemma lawful_node_type f : lawful f node_type_coder.
Proof. by intros []. Qed.
Lemma lawful_media f : lawful f media_coder.
Proof. by intros []. Qed.

Lemma next_element_ser {A} (c : Coder A) f i x l : lawful f c -> wf c x -> next_element c f i (ser c f x :: l) = Ok (x, l).
Proof. intros Hc Hx. cbn. by rewrite Hc. Qed.
Lemma derived_field_seq {A} (c : Coder A) name missing f i l x :
  l !! i = Some (ser c f x) -> lawful f c -> wf c x -> derived_field c name missing f i (VSeq l) = Ok x.
Proof. intros Hl Hc Hx. cbn. rewrite Hl. by apply Hc. Qed.
Lemma derived_field_map {A} (c : Coder A) name missing f i es x :
  filter (fun e => e.1 = name) es = [(name, ser c f x)] -> lawful f c -> wf c x -> derived_field c name missing f i (VMap es) = Ok x.
Proof. intros Hl Hc Hx. cbn. rewrite Hl. by apply Hc. Qed.
Lemma opt_str_wf (o : option string) : wf (optc strc) o.
Proof. by destruct o. Qed.
Lemma opt_bytes_wf (o : option bytes) : wf (optc bytesc) o.
Proof. destruct o; [apply bytes_wf|done]. Qed.
Lemma visible_bytes : visible bytesc.
Proof. done. Qed.
Lemma visible_str : visible strc.
Proof. done. Qed.
Lemma visible_uint max : visible (uintc max).
Proof. done. Qed.
Lemma visible_access : visible access_coder.
Proof. done. Qed.
Lemma lawful_opt {A} f (c : Coder A) : lawful f c -> visible c -> lawful f (optc c).
Proof. destruct f; eauto using lawful_opt_positional, lawful_opt_named. Qed.

#[local] Hint Resolve lawful_bool lawful_str lawful_uint lawful_usize lawful_u8 lawful_bytes lawful_hash lawful_node_type lawful_media
  lawful_seq lawful_pair lawful_opt visible_str visible_uint visible_access bytes_wf hashes_wf strs_wf opt_str_wf opt_bytes_wf visible_bytes : serde.
#[local] Hint Extern 1 (wf strc _) => exact I : serde.
#[local] Hint Extern 1 (wf hashc _) => exact I : serde.
#[local] Hint Extern 1 (wf node_type_coder _) => exact I : serde.
#[local] Hint Extern 1 (wf media_coder _) => exact I : serde.

(** The next field of a derived implementation, the next element of a sequence. *)
Ltac derived_step :=
  first [erewrite derived_field_seq | erewrite derived_field_map];
  [cbn [mbind result_bind] | reflexivity | solve [eauto with serde] | solve [assumption | eauto with serde]].
Ltac seq_step := erewrite next_element_ser; [cbn [mbind result_bind] | solve [eauto with serde] | solve [assumption | eauto with serde]].

Lemma lawful_access f : lawful f access_coder.
Proof.
  intros a Ha. unfold access_coder, req_field. cbn [de ser]. destruct f; cbn [put_struct map snd]; repeat derived_step; by destruct a.
Qed.
#[local] Hint Resolve lawful_access : serde.
Lemma lawful_metadata f : lawful f metadata_coder.
Proof.
  intros m [Hn Ha]. unfold metadata_coder, opt_field. cbn [de ser].
  destruct f; cbn [put_struct map snd]; repeat derived_step; by destruct m.
Qed.
Lemma lawful_rights f : lawful f rights_coder.
Proof.
  intros r Hr. unfold rights_coder, req_field. cbn [de ser]. destruct f; cbn [put_struct map snd]; repeat derived_step; by destruct r.
Qed.
#[local] Hint Resolve lawful_metadata lawful_rights : serde.

Lemma lawful_content_proof : lawful Positional content_proof_coder.
Proof.
  intros p Hp. cbn [de ser content_proof_coder deserialize_struct put_content_proof put_struct map snd].
  unfold content_proof_seq. repeat seq_step. by destruct p.
Qed.
#[local] Hint Resolve lawful_content_proof : serde.

Lemma collect_metadata_order (order : gmap Hash NodeMetadata -> list (Hash * NodeMetadata)) m :
  (forall m, order m ≡ₚ map_to_list m) -> collect_metadata (order m) = m.
Proof.
  intros Ho. unfold collect_metadata. rewrite <- fold_left_rev_right.
  assert (He : forall l : list (Hash * NodeMetadata), fold_right (fun e acc => <[e.1 := e.2]> acc) ∅ l = (list_to_map l : gmap Hash NodeMetadata)).
  { induction l as [|[k v] l IH]; [done|]. cbn. by rewrite IH. }
  rewrite He. etransitivity; [|apply list_to_map_to_list]. symmetry. apply list_to_map_proper.
  - apply NoDup_fst_map_to_list.
  - rewrite <- (Ho m). apply Permutation_rev.
Qed.

(** ** Properties *)

Section Properties.
Context (order : gmap Hash NodeMetadata -> list (Hash * NodeMetadata)) (Horder : forall m, order m ≡ₚ map_to_list m).

(** positional formats.  A value of any of the ten types is read back from what a format
    without names writes of it, whatever the order in which the metadata of a tree is written. *)
Theorem positional_roundtrip :
  lawful Positional node_coder /\ lawful Positional (tree_coder order) /\ lawful Positional content_proof_coder /\
  lawful Positional disclosure_coder /\ lawful Positional redacted_coder /\ lawful Positional encrypted_coder /\
  lawful Positional attachment_coder /\ lawful Positional rights_transfer_coder /\ lawful Positional mint_receipt_coder /\
  lawful Positional transfer_coder.
Proof.
  split_and!.
  - intros n Hn. cbn [de ser node_coder deserialize_struct put_node put_struct map snd]. unfold node_seq. repeat seq_step.
    by destruct n.
  - intros t (Hd & Hc & Hm). cbn [de ser tree_coder deserialize_struct put_tree put_struct map snd]. unfold tree_seq. repeat seq_step.
    erewrite next_element_ser; [|eauto with serde|].
    + cbn. rewrite collect_metadata_order by done. by destruct t.
    + apply Forall_forall. intros [k m] Hk. split; [exact I|].
      rewrite (Horder _) in Hk. apply elem_of_map_to_list in Hk. exact (Hm k m Hk).
  - exact lawful_content_proof.
  - intros p Hp. cbn [de ser disclosure_coder deserialize_struct put_disclosure put_struct map snd]. unfold disclosure_seq.
    repeat seq_step. by destruct p.
  - intros p Hp. cbn [de ser redacted_coder deserialize_struct put_redacted put_struct map snd]. unfold redacted_seq.
    repeat seq_step. by destruct p.
  - intros p Hp. cbn [de ser encrypted_coder deserialize_struct put_encrypted put_struct map snd]. unfold encrypted_seq.
    repeat seq_step. by destruct p.
  - intros a [Hs Hc]. cbn [de ser attachment_coder deserialize_struct put_attachment put_struct map snd]. unfold attachment_seq.
    repeat seq_step. by destruct a.
  - intros t Ht. cbn [de ser rights_transfer_coder deserialize_struct put_rights_transfer put_struct map snd]. unfold rights_transfer_seq.
    repeat seq_step. by destruct t.
  - intros r (Hb & Ht & Hg). cbn [de ser mint_receipt_coder deserialize_struct put_mint_receipt put_struct map snd]. unfold mint_receipt_seq.
    repeat seq_step. by destruct r.
  - intros t Ht. cbn [de ser transfer_coder deserialize_struct put_transfer put_struct map snd]. unfold transfer_seq.
    repeat seq_step. by destruct t.
Qed.

(** formats with names.  What such a format writes of a value of these types is never
    read back: the first field of two words, which is written with its underscore, is not
    known to the visitor. *)
Theorem named_never_read :
  (forall n, de node_coder Named (ser node_coder Named n) = Err (UnknownField "node_type")) /\
  (forall t, de (tree_coder order) Named (ser (tree_coder order) Named t) = Err (UnknownField "root_hash")) /\
  (forall p, de content_proof_coder Named (ser content_proof_coder Named p) = Err (UnknownField "leaf_index")) /\
  (forall p, de disclosure_coder Named (ser disclosure_coder Named p) = Err (UnknownField "subtree_root")) /\
  (forall p, de redacted_coder Named (ser redacted_coder Named p) = Err (UnknownField "leaf_hash")) /\
  (forall p, de encrypted_coder Named (ser encrypted_coder Named p) = Err (UnknownField "encrypted_root")) /\
  (forall a, de attachment_coder Named (ser attachment_coder Named a) = Err (UnknownField "media_type")) /\
  (forall t, de rights_transfer_coder Named (ser rights_transfer_coder Named t) = Err (UnknownField "content_hash")) /\
  (forall r, de mint_receipt_coder Named (ser mint_receipt_coder Named r) = Err (UnknownField "tx_hash")) /\
  (forall t, de transfer_coder Named (ser transfer_coder Named t) = Err (UnknownField "source_chain")).
Proof. by split_and!. Qed.
End Properties.

(** The names that are read are in lower case: an attachment under those names, with the key
    there only when there is one. *)
Definition lowercase_attachment (a : AttachmentRef) : list (string * Sv) :=
  [("cid", VStr (at_cid a)); ("mediatype", ser media_coder Named (at_media_type a)); ("size", VU (at_size a));
   ("hash", ser hashc Named (at_hash a))] ++
  match at_encryption_key_id a with Some k => [("encryptionkeyid", VStr k)] | None => [] end ++
  [("createdat", VU (at_created_at a))].
(** The next entry of a map whose key is known. *)
Lemma set_slot_ser {A} (c : Coder A) f name x : lawful f c -> wf c x -> set_slot c f name None (ser c f x) = Ok (Some x).
Proof. intros Hc Hx. cbn. by rewrite (Hc x Hx). Qed.
Lemma map_loop_cons {F St} (variants : list (string * F)) (step : F -> Sv -> St -> result DeError St) key v es st f :
  identify variants key = Ok f -> map_loop variants step ((key, v) :: es) st = st ← step f v st; map_loop variants step es st.
Proof. intros Hi. cbn. by rewrite Hi. Qed.
Ltac map_step :=
  erewrite map_loop_cons by reflexivity; cbv beta iota; cbn [snd];
  erewrite (set_slot_ser _ Named) by (try assumption; eauto with serde); cbn [mbind result_bind].

Lemma lowercase_attachment_read a : wf attachment_coder a -> de attachment_coder Named (VMap (lowercase_attachment a)) = Ok a.
Proof.
  intros [Hs Hc]. destruct a as [cid m s h [k|] t]; cbn [at_size at_created_at] in Hs, Hc; cbn [de attachment_coder deserialize_struct];
    unfold attachment_map, lowercase_attachment;
    cbn [at_cid at_media_type at_size at_hash at_encryption_key_id at_created_at app].
  all: change (VU s) with (ser (uintc u64_max) Named s); change (VU t) with (ser (uintc u64_max) Named t);
    change (VStr cid) with (ser strc Named cid); try change (VStr k) with (ser strc Named k).
  all: repeat map_step; reflexivity.
Qed.

(** ** Witnesses *)

Definition demo_tree : ContentTree := mkContentTree (fill32 Byte.x01) [fill32 Byte.x01] 0 1 ∅.
Lemma positional_roundtrip_witness :
  de (tree_coder map_to_list) Positional (ser (tree_coder map_to_list) Positional demo_tree) = Ok demo_tree.
Proof.
  destruct (positional_roundtrip map_to_list) as (_ & H & _); [done|]. apply (H demo_tree).
  split; [vm_compute; discriminate|]. split; [vm_compute; discriminate|]. apply map_Forall_empty.
Defined.
