(* ===== verification/Cells.v ===== *)
(** * Coordinator cells (csv-coordinator: circuit.rs, memory.rs, cell.rs, handler.rs, router.rs, negotiation.rs)

    A cell executes the transfers of one chain: callers submit tasks to a bounded queue, behind
    a circuit breaker and a memory ceiling, and one worker takes them out in order, behind a
    breaker of its own.  A cell is a state machine: any number of submissions are under way,
    each at its next access to what is shared, and the worker and the submissions take their
    steps in any order.  Handlers are functions, as trait objects are; a router holds a cell
    for each chain.  Negotiation has no state but its table. *)

From Stdlib Require Import DecimalString.
From S2P Require Import Prelude Ord Bytes Hashing Text TransferState.
From S2P Require Send.

(** ** The circuit breaker *)

Inductive CircuitState := Closed | Open | HalfOpen.
Global Instance CircuitState_eq_dec : EqDecision CircuitState.
Proof. solve_decision. Defined.

(** Times and durations in milliseconds. *)
Record CircuitConfig := mkCircuitConfig {
  failure_threshold : N; success_threshold : N; timeout : N; half_open_max_calls : N
}.
Definition default_circuit : CircuitConfig := mkCircuitConfig 5 2 60000 3.
Record CellCircuitBreaker := mkBreaker {
  cb_state : CircuitState; failure_count : N; success_count : N; last_failure_time : option N; cb_config : CircuitConfig
}.
Definition breaker_new (c : CircuitConfig) : CellCircuitBreaker := mkBreaker Closed 0 0 None c.
Definition is_open (b : CellCircuitBreaker) : bool := bool_decide (cb_state b = Open).
Definition allow_request (b : CellCircuitBreaker) : bool :=
  match cb_state b with Closed => true | HalfOpen => true | Open => false end.

(** The counters are 32-bit numbers. *)
Definition succ32 (n : N) : N := wrap32 (n + 1).
Definition record_success (b : CellCircuitBreaker) : CellCircuitBreaker :=
  match cb_state b with
  | Closed => mkBreaker Closed 0 (success_count b) (last_failure_time b) (cb_config b)
  | HalfOpen =>
      let s := succ32 (success_count b) in
      if (success_threshold (cb_config b) <=? s)%N
      then mkBreaker Closed 0 0 (last_failure_time b) (cb_config b)
      else mkBreaker HalfOpen (failure_count b) s (last_failure_time b) (cb_config b)
  | Open => b
  end.
Definition record_failure (now : N) (b : CellCircuitBreaker) : CellCircuitBreaker :=
  let f := succ32 (failure_count b) in
  mkBreaker (if (failure_threshold (cb_config b) <=? f)%N then Open else cb_state b)
    f (success_count b) (Some now) (cb_config b).
Definition attempt_reset (now : N) (b : CellCircuitBreaker) : CellCircuitBreaker * bool :=
  if negb (bool_decide (cb_state b = Open)) then (b, false)
  else match last_failure_time b with
       | Some t =>
           if (timeout (cb_config b) <=? now - t)%N
           then (mkBreaker HalfOpen (failure_count b) 0 (last_failure_time b) (cb_config b), true)
           else (b, false)
       | None => (b, false)
       end.

(** ** The memory ceiling *)

Record MemoryCeiling := mkCeiling { max_bytes : N; current_bytes : N }.
Definition ceiling_new (max : N) : MemoryCeiling := mkCeiling max 0.
(** [try_allocate]: a load with its comparison, and an addition, are two accesses. *)
Definition may_allocate (bytes : N) (m : MemoryCeiling) : bool :=
  negb (max_bytes m <? saturating_add64 (current_bytes m) bytes)%N.
Definition fetch_add (bytes : N) (m : MemoryCeiling) : MemoryCeiling :=
  mkCeiling (max_bytes m) (add64 (current_bytes m) bytes).
(** [release] *)
Definition release (bytes : N) (m : MemoryCeiling) : MemoryCeiling :=
  mkCeiling (max_bytes m) (sub64 (current_bytes m) (bytes - 1)).

(** ** Tasks and phases *)

Record TransferTask := mkTask {
  tt_transfer_id : string; tt_sanad_id : Hash; tt_source_chain : string; tt_destination_chain : string;
  tt_lock_tx_hash : Hash; tt_destination_owner : string; tt_stage : TransferStage; tt_proof_payload : option bytes
}.
Inductive CellTask := Process (t : TransferTask) | HealthCheck.
Record CellConfig := mkCellConfig {
  cc_chain_id : N; max_queue_depth : nat; circuit_breaker : CircuitConfig; max_memory_bytes : N
}.
Definition default_cell : CellConfig := mkCellConfig 0 1000 default_circuit (100 * 1024 * 1024).
Inductive CellError := CircuitOpen (c : N) | Backpressure (c : N) | MemoryExceeded | ProcessingFailed (m : string).

(** A phase handler: what each call answers. *)
Record TransferPhaseHandler := mkHandler {
  execute_lock_confirmed : string -> Hash -> string -> result string TransferStage;
  execute_proof_validated : string -> bytes -> string -> string -> result string TransferStage;
  execute_awaiting_finality : string -> string -> Hash -> result string TransferStage;
  execute_proof_building : string -> Hash -> string -> result string TransferStage;
  execute_mint_submitted : string -> string -> result string TransferStage
}.

Definition execute_transfer_phase (t : TransferTask) (h : TransferPhaseHandler) : result string TransferStage :=
  match tt_stage t with
  | SLockConfirmed => execute_lock_confirmed h (tt_transfer_id t) (tt_lock_tx_hash t) (tt_source_chain t)
  | SProofValidated =>
      execute_proof_validated h (tt_transfer_id t) (default [] (tt_proof_payload t)) (tt_destination_chain t)
        (tt_destination_owner t)
  | SAwaitingFinality => execute_awaiting_finality h (tt_transfer_id t) (tt_source_chain t) (tt_lock_tx_hash t)
  | SProofBuilding => execute_proof_building h (tt_transfer_id t) (tt_lock_tx_hash t) (tt_source_chain t)
  | SMintSubmitted => execute_mint_submitted h (tt_transfer_id t) (tt_destination_chain t)
  | SMintConfirmed => Err "Transfer already completed"
  | SInitialized | SLockSubmitted => Err ("Unexpected stage: " +:+ Send.stage_debug (tt_stage t))
  | SSealAssigned | SSourceSealClosed | SConsignmentEmitted =>
      Err ("Send-mode stage not executable by cell: " +:+ Send.stage_debug (tt_stage t))
  | SCompleted | SRolledBack | SCompromised => Err ("Terminal state: " +:+ Send.stage_debug (tt_stage t))
  end.

(** [DefaultTransferHandler]: the adapters registered for each chain. *)
Record ChainAdapter := mkAdapter {
  verify_lock_confirmed : string -> Hash -> result string TransferStage;
  verify_proof_and_mint : string -> bytes -> string -> result string TransferStage;
  check_finality : string -> Hash -> result string TransferStage;
  build_proof : string -> Hash -> result string TransferStage;
  confirm_mint : string -> result string TransferStage
}.
Definition adapters := gmap string ChainAdapter.
Definition no_adapter (chain : string) : string := "No adapter registered for chain: " +:+ chain.
Definition with_adapter (a : adapters) (chain : string) (call : ChainAdapter -> result string TransferStage)
  : result string TransferStage :=
  match a !! chain with Some x => call x | None => Err (no_adapter chain) end.
Definition default_handler (a : adapters) : TransferPhaseHandler :=
  mkHandler
    (fun id lock source => with_adapter a source (fun x => verify_lock_confirmed x id lock))
    (fun id proof destination owner => with_adapter a destination (fun x => verify_proof_and_mint x id proof owner))
    (fun id source lock => with_adapter a source (fun x => check_finality x id lock))
    (fun id lock source => with_adapter a source (fun x => build_proof x id lock))
    (fun id destination => with_adapter a destination (fun x => confirm_mint x id)).
Definition register_adapter (chain : string) (x : ChainAdapter) (a : adapters) : adapters := <[chain := x]> a.
Definition mock_adapter : ChainAdapter :=
  mkAdapter (fun _ _ => Ok SProofBuilding) (fun _ _ _ => Ok SMintSubmitted) (fun _ _ => Ok SProofBuilding)
    (fun _ _ => Ok SProofValidated) (fun _ => Ok SMintConfirmed).

(** ** A cell *)

Definition estimated_size (t : CellTask) : N := match t with Process _ => 4096 | HealthCheck => 0 end.

(** A call of [submit], at its next access. *)
Inductive Submission :=
| Entering (t : CellTask)
| Allocating (t : CellTask)
| Sending (t : CellTask)
| Returned (t : CellTask) (r : result CellError unit).

(** What the worker did with a task: it left a transfer out, executed its phase, or looked at
    its breaker. *)
Inductive Worked := Dropped (t : TransferTask) | Executed (t : TransferTask) (r : result string TransferStage) | Checked.
Definition worked_task (w : Worked) : CellTask :=
  match w with Dropped t => Process t | Executed t _ => Process t | Checked => HealthCheck end.

(** The caller's side, the queue and the worker's side.  [sent] and [worked] are histories, of
    the tasks put into the queue and of those taken out; the code does not keep them. *)
Record Cell := mkCell {
  chain_id : N;
  circuit : CellCircuitBreaker;
  memory_ceiling : MemoryCeiling;
  submissions : list Submission;
  queue : list CellTask;
  receiving : bool;
  worker_breaker : CellCircuitBreaker;
  sent : list CellTask;
  worked : list Worked
}.
(** [ChainCell::spawn] *)
Definition spawn (c : CellConfig) : Cell :=
  mkCell (cc_chain_id c) (breaker_new (circuit_breaker c)) (ceiling_new (max_memory_bytes c)) [] [] true
    (breaker_new (circuit_breaker c)) [] [].

(** One access of a [submit]: the breaker with the load of the usage, the addition, the send.
    A send to a full queue waits. *)
Definition submit_step (depth : nat) (s : Submission) (c : Cell) : Submission * Cell :=
  match s with
  | Entering t =>
      if is_open (circuit c) then (Returned t (Err (CircuitOpen (chain_id c))), c)
      else if (0 <? estimated_size t)%N
      then if may_allocate (estimated_size t) (memory_ceiling c)
           then (Allocating t, c) else (Returned t (Err MemoryExceeded), c)
      else (Sending t, c)
  | Allocating t =>
      (Sending t, mkCell (chain_id c) (circuit c) (fetch_add (estimated_size t) (memory_ceiling c)) (submissions c)
                    (queue c) (receiving c) (worker_breaker c) (sent c) (worked c))
  | Sending t =>
      if negb (receiving c) then (Returned t (Err (Backpressure (chain_id c))), c)
      else if length (queue c) <? depth
      then (Returned t (Ok tt), mkCell (chain_id c) (circuit c) (memory_ceiling c) (submissions c) (queue c ++ [t])
              (receiving c) (worker_breaker c) (sent c ++ [t]) (worked c))
      else (s, c)
  | Returned _ _ => (s, c)
  end.

(** The worker's turn for a task. *)
Definition work_task (h : TransferPhaseHandler) (now : N) (t : CellTask) (b : CellCircuitBreaker) : Worked * CellCircuitBreaker :=
  match t with
  | Process t =>
      if negb (allow_request b) then (Dropped t, b)
      else
        let r := execute_transfer_phase t h in
        (Executed t r, match r with Ok _ => record_success b | Err _ => record_failure now b end)
  | HealthCheck => (Checked, if is_open b then (attempt_reset now b).1 else b)
  end.

(** What happens: a new call of [submit], an access of the [i]-th one, a turn of the worker at
    a time, or the end of the worker (a handler that panics). *)
Inductive Event := Submit (t : CellTask) | Advance (i : nat) | Work (now : N) | WorkerEnds.
Definition set_submissions (c : Cell) (l : list Submission) : Cell :=
  mkCell (chain_id c) (circuit c) (memory_ceiling c) l (queue c) (receiving c) (worker_breaker c) (sent c) (worked c).

Section Machine.
Variables (config : CellConfig) (h : TransferPhaseHandler).

Definition cell_step (e : Event) (c : Cell) : Cell :=
  match e with
  | Submit t => set_submissions c (submissions c ++ [Entering t])
  | Advance i =>
      match submissions c !! i with
      | Some s => let '(s', c') := submit_step (max_queue_depth config) s c in set_submissions c' (<[i := s']> (submissions c'))
      | None => c
      end
  | Work now =>
      match receiving c, queue c with
      | true, t :: rest =>
          let '(w, b) := work_task h now t (worker_breaker c) in
          mkCell (chain_id c) (circuit c) (memory_ceiling c) (submissions c) rest true b (sent c) (worked c ++ [w])
      | _, _ => c
      end
  | WorkerEnds =>
      mkCell (chain_id c) (circuit c) (memory_ceiling c) (submissions c) [] false (worker_breaker c) (sent c) (worked c)
  end.
Definition cell_run (es : list Event) : Cell := fold_left (fun c e => cell_step e c) es (spawn config).
End Machine.

(** ** The router *)

(** [str::parse::<u32>] *)
Definition parse_u32 (s : string) : option N :=
  let digits := match as_bytes s with Byte.x2b :: r => r | b => b end in
  d ← NilEmpty.uint_of_string (of_bytes digits);
  if bool_decide (digits = []) then None
  else if (N.of_uint d <=? u32_max)%N then Some (N.of_uint d) else None.

Definition destination_cell (t : TransferTask) : N := default 0%N (parse_u32 (tt_destination_chain t)).

Inductive RouterError := UnknownChain (c : N) | CellFailed (e : CellError).
Record TransferRouter := mkRouter { cells : gmap N Cell }.
Definition router_config (chain : N) : CellConfig :=
  mkCellConfig chain (max_queue_depth default_cell) (circuit_breaker default_cell) (max_memory_bytes default_cell).
(** [register_cell]: the cell's handler has no adapters. *)
Definition registered_handler : TransferPhaseHandler := default_handler ∅.
Definition register_cell (chain : N) (r : TransferRouter) : TransferRouter :=
  mkRouter (<[chain := spawn (router_config chain)]> (cells r)).
(** [route], up to the call of [submit]. *)
Definition route (t : TransferTask) (r : TransferRouter) : TransferRouter * result RouterError unit :=
  match cells r !! destination_cell t with
  | Some c => (mkRouter (<[destination_cell t := cell_step default_cell registered_handler (Submit (Process t)) c]> (cells r)), Ok tt)
  | None => (r, Err (UnknownChain (destination_cell t)))
  end.
Inductive RouterEvent := Route (t : TransferTask) | AtCell (chain : N) (e : Event).
Definition router_step (e : RouterEvent) (r : TransferRouter) : TransferRouter :=
  match e with
  | Route t => (route t r).1
  | AtCell chain e => mkRouter (alter (cell_step default_cell registered_handler e) chain (cells r))
  end.
Definition router_run (es : list RouterEvent) (r : TransferRouter) : TransferRouter := fold_left (fun r e => router_step e r) es r.

(** What a router's history is to one of its cells. *)
Definition cell_events (chain : N) (es : list RouterEvent) : list Event :=
  flat_map (fun e => match e with
                     | Route t => if bool_decide (destination_cell t = chain) then [Submit (Process t)] else []
                     | AtCell c e => if bool_decide (c = chain) then [e] else []
                     end) es.

(** ** Negotiation *)

Section Negotiation.
(** 32-bit floating point numbers, with their [<]. *)
Context {F : Type} (lt : F -> F -> bool).

Inductive ProofSystem :=
| BitcoinSpv (confirmations : N) | BftQc (quorum_fraction : F) | ZkHeader (circuit_id : Bytes32)
| EthereumPos (finality_epochs : N).
Record FinalityGuaranteeSpec := mkGuarantee {
  max_reorg_depth : N; is_probabilistic : bool; validator_honesty_threshold : F; proof_system : ProofSystem;
  max_proof_age_blocks : N; min_anchor_sources : N
}.
Record SecurityRequirements := mkRequirements {
  requires_deterministic_finality : bool; min_reorg_depth : N; min_honesty_threshold : F
}.
Record NegotiatedPlan := mkPlan { np_proof_system : ProofSystem; confirmation_depth : N; np_max_proof_age_blocks : N }.
Inductive NegotiationError :=
| UnknownChainId (c : Bytes32)
| FinalityMismatch (c : Bytes32)
| InsufficientReorgProtection (required available : N)
| InsufficientValidatorTrust (required available : F)
| NoProofSystem.

Definition CapabilityNegotiator : Type := gmap Bytes32 FinalityGuaranteeSpec.
Definition register_chain (chain : Bytes32) (g : FinalityGuaranteeSpec) (n : CapabilityNegotiator) : CapabilityNegotiator :=
  <[chain := g]> n.
Definition select_proof_system (g : FinalityGuaranteeSpec) : result NegotiationError ProofSystem := Ok (proof_system g).
Definition negotiate (n : CapabilityNegotiator) (chain : Bytes32) (r : SecurityRequirements)
  : result NegotiationError NegotiatedPlan :=
  g ← ok_or (UnknownChainId chain) (n !! chain);
  reject requires_deterministic_finality r && is_probabilistic g with FinalityMismatch chain;;
  reject (max_reorg_depth g <? min_reorg_depth r)%N
    with InsufficientReorgProtection (min_reorg_depth r) (max_reorg_depth g);;
  reject lt (validator_honesty_threshold g) (min_honesty_threshold r)
    with InsufficientValidatorTrust (min_honesty_threshold r) (validator_honesty_threshold g);;
  ps ← select_proof_system g;
  Ok (mkPlan ps (add64 (max_reorg_depth g) 1) (max_proof_age_blocks g)).
End Negotiation.

(** ** Lemmas: counting *)

Definition countb {A} (p : A -> bool) (l : list A) : nat := length (List.filter p l).
#[local] Arguments countb : simpl never.
Definition one_if (b : bool) : nat := if b then 1 else 0.

Lemma countb_app {A} (p : A -> bool) l k : countb p (l ++ k) = countb p l + countb p k.
Proof. unfold countb. by rewrite List.filter_app, length_app. Qed.
Lemma countb_one {A} (p : A -> bool) x : countb p [x] = one_if (p x).
Proof. unfold countb, one_if. cbn. by destruct (p x). Qed.
Lemma countb_insert {A} (p : A -> bool) l i x y :
  l !! i = Some x -> countb p (<[i:=y]> l) + one_if (p x) = countb p l + one_if (p y).
Proof.
  intros Hi. rewrite <- (take_drop_middle l i x Hi) at 2. rewrite insert_take_drop by (by eapply lookup_lt_Some).
  change (?x :: ?l) with ([x] ++ l). rewrite !countb_app, !countb_one. lia.
Qed.

Definition is_allocating (s : Submission) : bool := match s with Allocating _ => true | _ => false end.
Definition is_transfer (t : CellTask) : bool := match t with Process _ => true | HealthCheck => false end.
(** Transfers with their memory allocated and not yet in the queue. *)
Definition is_waiting (s : Submission) : bool := match s with Sending t => is_transfer t | _ => false end.
Definition allocating (c : Cell) : nat := countb is_allocating (submissions c).
Definition transfers (l : list CellTask) : nat := countb is_transfer l.
Definition usage (c : Cell) : N := current_bytes (memory_ceiling c).

Section Bounds.
Context (config : CellConfig) (h : TransferPhaseHandler) (k : nat).
Hypothesis Hmax : (max_memory_bytes config + 4096 * N.of_nat k <= u64_max)%N.

Record bounded (c : Cell) : Prop := {
  b_queue : length (queue c) <= max_queue_depth config;
  b_max : max_bytes (memory_ceiling c) = max_memory_bytes config;
  b_usage : (usage c + 4096 * N.of_nat (allocating c) <= max_memory_bytes config + 4096 * N.of_nat (k - 1))%N;
  b_sent : (4096 * N.of_nat (transfers (sent c) + countb is_waiting (submissions c)) <= usage c)%N;
  b_only : Forall (fun s => match s with Allocating t => is_transfer t = true | _ => True end) (submissions c);
  b_fifo : receiving c = true -> sent c = map worked_task (worked c) ++ queue c
}.

Lemma worked_of_task now t b : worked_task (work_task h now t b).1 = t.
Proof. destruct t; cbn; [|done]. by destruct (negb (allow_request b)). Qed.

Lemma bounded_other c c' :
  submissions c' = submissions c -> memory_ceiling c' = memory_ceiling c -> sent c' = sent c ->
  length (queue c') <= length (queue c) -> (receiving c' = true -> sent c' = map worked_task (worked c') ++ queue c') ->
  bounded c -> bounded c'.
Proof.
  intros Es Em Et Hq Hf [H1 H2 H3 H4 H5 H6]. unfold usage, allocating in *.
  split; unfold usage, allocating; first [done|rewrite ?Es, ?Em, ?Et; first [done|lia]].
Qed.

(** One access keeps the bounds: what is added to the usage was counted while it was pending. *)
Lemma bounded_advance c i s :
  submissions c !! i = Some s -> bounded c ->
  let c' := cell_step config h (Advance i) c in
  allocating c' <= k -> bounded c'.
Proof.
  intros Hi [H1 H2 H3 H4 H5 H6] c'. subst c'. cbn [cell_step]. rewrite Hi.
  pose proof (fun s' => countb_insert is_allocating _ _ _ s' Hi) as Ca.
  pose proof (fun s' => countb_insert is_waiting _ _ _ s' Hi) as Cw.
  assert (Hall : forall s', (match s' with Allocating t => is_transfer t = true | _ => True end) ->
    Forall (fun s => match s with Allocating t => is_transfer t = true | _ => True end) (<[i:=s']> (submissions c)))
    by (intros s' Hs; by apply Forall_insert).
  pose proof (Forall_lookup_1 _ _ _ _ H5 Hi) as Hs.
  unfold allocating, usage in *. destruct s as [t|t|t|t r]; cbn [submit_step].
  - specialize (Ca (Returned t (Err MemoryExceeded))) as Ca0. specialize (Cw (Returned t (Err MemoryExceeded))) as Cw0.
    destruct (is_open _); [|destruct t as [t|]; cbn [estimated_size N.ltb N.compare];
      [destruct (may_allocate _ _) eqn:Hm|]]; cbn [set_submissions submissions memory_ceiling]; intros Hk.
    + specialize (Ca (Returned t (Err (CircuitOpen (chain_id c))))). specialize (Cw (Returned t (Err (CircuitOpen (chain_id c))))).
      split; cbn; auto; cbn in *; unfold allocating, usage; cbn; lia.
    + specialize (Ca (Allocating (Process t))). specialize (Cw (Allocating (Process t))).
      unfold may_allocate in Hm. rewrite H2 in Hm. apply negb_true_iff, N.ltb_ge in Hm. unfold saturating_add64 in Hm.
      split; cbn; auto; cbn in *; unfold allocating, usage; cbn; lia.
    + split; cbn; auto; cbn in *; unfold allocating, usage; cbn; lia.
    + specialize (Ca (Sending HealthCheck)). specialize (Cw (Sending HealthCheck)).
      split; cbn; auto; cbn in *; unfold allocating, usage; cbn; lia.
  - cbn in Hs. destruct t as [t|]; [|done]. cbn [set_submissions submissions memory_ceiling].
    specialize (Ca (Sending (Process t))). specialize (Cw (Sending (Process t))). cbn in Ca, Cw. intros Hk.
    assert (Hadd : add64 (current_bytes (memory_ceiling c)) 4096 = (current_bytes (memory_ceiling c) + 4096)%N)
      by (apply add64_small; lia).
    split; cbn; auto; unfold allocating, usage; cbn; rewrite ?Hadd; lia.
  - destruct (negb (receiving c)) eqn:Hr; [|destruct (Nat.ltb_spec (length (queue c)) (max_queue_depth config)) as [Hq|Hq]];
      cbn [set_submissions submissions memory_ceiling]; intros Hk.
    + specialize (Ca (Returned t (Err (Backpressure (chain_id c))))). specialize (Cw (Returned t (Err (Backpressure (chain_id c))))).
      split; cbn; auto; cbn in *; unfold allocating, usage; cbn; lia.
    + specialize (Ca (Returned t (Ok tt))). specialize (Cw (Returned t (Ok tt))). cbn in Ca, Cw.
      split; cbn; auto; unfold allocating, usage, transfers in *; cbn.
      * rewrite length_app. cbn. lia.
      * lia.
      * rewrite countb_app, countb_one. lia.
      * intros Hrec. by rewrite (H6 Hrec), app_assoc.
    + rewrite list_insert_id in * by done. by split.
  - intros Hk. rewrite list_insert_id in * by done. by split.
Qed.

Lemma bounded_step e c : bounded c -> allocating (cell_step config h e c) <= k -> bounded (cell_step config h e c).
Proof.
  intros H Hk. destruct e as [t|i|now|].
  - destruct H as [H1 H2 H3 H4 H5 H6]. unfold allocating, usage in *.
    split; cbn; auto; unfold allocating, usage; cbn; rewrite ?countb_app, ?countb_one; cbn; rewrite ?Nat.add_0_r; auto.
    by apply Forall_app_2; [|repeat constructor].
  - destruct (submissions c !! i) as [s|] eqn:Hi; [by apply (bounded_advance c i s)|]. cbn [cell_step]. by rewrite Hi.
  - cbn [cell_step] in *. destruct (receiving c) eqn:Hr; [|done]. destruct (queue c) as [|t rest] eqn:Hq; [done|].
    destruct (work_task h now t (worker_breaker c)) as [w b] eqn:Hw. apply (bounded_other c); cbn; auto.
    + rewrite Hq. cbn. lia.
    + intros _. rewrite (b_fifo _ H Hr), Hq, map_app, <- app_assoc. cbn.
      pose proof (worked_of_task now t (worker_breaker c)) as Ht. rewrite Hw in Ht. by rewrite <- Ht.
  - apply (bounded_other c); cbn; auto; [lia|done].
Qed.

Lemma cell_run_app es e : cell_run config h (es ++ [e]) = cell_step config h e (cell_run config h es).
Proof. unfold cell_run. by rewrite fold_left_app. Qed.

Lemma bounded_run es : (forall n, allocating (cell_run config h (take n es)) <= k) -> bounded (cell_run config h es).
Proof.
  induction es as [|e es IH] using rev_ind; intros Hk.
  - split; cbn; auto; unfold allocating, usage, transfers, countb; cbn; lia.
  - pose proof (Hk (length (es ++ [e]))) as Hlast. rewrite firstn_all in Hlast. rewrite cell_run_app in *.
    apply bounded_step; [|done]. apply IH. intros n. destruct (Nat.le_gt_cases n (length es)) as [Hn|Hn].
    + specialize (Hk n). by rewrite take_app_le in Hk by done.
    + specialize (Hk (length es)). rewrite take_app_length in Hk. by rewrite take_ge by lia.
Qed.
End Bounds.

(** ** Lemmas: the worker's breaker *)

(** The worker over transfers alone, each taken at a time. *)
Fixpoint work_transfers (h : TransferPhaseHandler) (ts : list (N * TransferTask)) (b : CellCircuitBreaker)
  : list Worked * CellCircuitBreaker :=
  match ts with
  | [] => ([], b)
  | (now, t) :: ts =>
      let '(w, b) := work_task h now (Process t) b in
      let '(ws, b) := work_transfers h ts b in (w :: ws, b)
  end.
Definition succeeds (h : TransferPhaseHandler) (t : N * TransferTask) : bool := is_ok (execute_transfer_phase t.2 h).
(** [n] failures in a row. *)
Definition fails_in_a_row (h : TransferPhaseHandler) (n : nat) (ts : list (N * TransferTask)) : Prop :=
  exists l1 l2, map (succeeds h) ts = l1 ++ replicate n false ++ l2.

Section Breaker.
Context (h : TransferPhaseHandler) (conf : CircuitConfig).
Hypothesis Hpos : (0 < failure_threshold conf)%N.
Hypothesis H32 : (failure_threshold conf <= u32_max)%N.
Notation T := (N.to_nat (failure_threshold conf)).

(** Closed after [ts]: the failures counted are the last ones. *)
Definition closed_after (ts : list (N * TransferTask)) (b : CellCircuitBreaker) : Prop :=
  cb_config b = conf /\ cb_state b = Closed /\ N.to_nat (failure_count b) < T
  /\ exists l, map (succeeds h) ts = l ++ replicate (N.to_nat (failure_count b)) false.
Definition open_after (ts : list (N * TransferTask)) (b : CellCircuitBreaker) : Prop :=
  cb_state b = Open /\ fails_in_a_row h T ts.

Lemma work_transfers_app ts1 ts2 b :
  work_transfers h (ts1 ++ ts2) b
  = let '(w1, b1) := work_transfers h ts1 b in let '(w2, b2) := work_transfers h ts2 b1 in (w1 ++ w2, b2).
Proof.
  revert b. induction ts1 as [|[now t] ts1 IH]; intros b; cbn [app work_transfers].
  - by destruct (work_transfers h ts2 b).
  - destruct (work_task h now (Process t) b) as [w b']. rewrite IH. destruct (work_transfers h ts1 b') as [w1 b1].
    by destruct (work_transfers h ts2 b1).
Qed.

Lemma fails_app ts1 ts2 n : fails_in_a_row h n ts1 -> fails_in_a_row h n (ts1 ++ ts2).
Proof.
  intros (l1 & l2 & E). exists l1, (l2 ++ map (succeeds h) ts2). by rewrite map_app, E, <- !app_assoc.
Qed.

(** One more transfer: the breaker is open exactly when the last ones all failed. *)
Lemma after_one ts now t b :
  closed_after ts b \/ open_after ts b ->
  let b' := (work_task h now (Process t) b).2 in
  closed_after (ts ++ [(now, t)]) b' \/ open_after (ts ++ [(now, t)]) b'.
Proof.
  intros [(Hc & Hs & Hn & l & E)|(Hs & Hf)] b'; subst b'; cbn [work_task]; unfold allow_request; rewrite Hs; cbn [negb snd].
  - destruct (execute_transfer_phase t h) as [s|e] eqn:Ht.
    + left. unfold record_success. rewrite Hs. split_and!; cbn; auto; [lia|]. exists (map (succeeds h) (ts ++ [(now, t)])).
      by rewrite app_nil_r.
    + assert (Hsucc : succ32 (failure_count b) = (failure_count b + 1)%N).
      { apply wrap32_small. unfold u32_max in *. lia. }
      assert (E' : map (succeeds h) (ts ++ [(now, t)]) = l ++ replicate (N.to_nat (failure_count b + 1)) false).
      { rewrite map_app, E, <- app_assoc. cbn [map]. unfold succeeds at 1. cbn [snd]. rewrite Ht. cbn [is_ok].
        by rewrite N2Nat.inj_add, replicate_add. }
      unfold record_failure. rewrite Hc, Hsucc. destruct (N.leb_spec (failure_threshold conf) (failure_count b + 1)) as [Hle|Hle].
      * right. split; [done|]. exists l, []. rewrite E', app_nil_r. f_equal. f_equal. lia.
      * left. rewrite Hs. split_and!; cbn; auto; [lia|]. by exists l.
  - right. split; [done|]. by apply fails_app.
Qed.

Lemma after_all ts : let b := (work_transfers h ts (breaker_new conf)).2 in closed_after ts b \/ open_after ts b.
Proof.
  induction ts as [|[now t] ts IH] using rev_ind.
  - left. split_and!; cbn; auto; [lia|]. by exists [].
  - rewrite work_transfers_app. destruct (work_transfers h ts (breaker_new conf)) as [w b]. cbn [snd] in IH.
    pose proof (after_one ts now t b IH) as Ha. cbn [work_transfers]. by destruct (work_task h now (Process t) b).
Qed.

(** From a closed breaker, enough failures open it. *)
Lemma failures_open ts b :
  map (succeeds h) ts = replicate (length ts) false -> cb_config b = conf ->
  (cb_state b = Closed /\ T <= N.to_nat (failure_count b) + length ts /\ N.to_nat (failure_count b) < T) \/ cb_state b = Open ->
  cb_state (work_transfers h ts b).2 = Open.
Proof.
  revert b. induction ts as [|[now t] ts IH]; intros b Hf Hc [(Hs & Hn & Hlt)|Hs].
  - cbn in Hn. lia.
  - done.
  - cbn [map length replicate] in Hf. injection Hf as Ht Hf. cbn [work_transfers work_task]. unfold allow_request. rewrite Hs. cbn [negb].
    unfold succeeds in Ht. cbn [snd] in Ht. destruct (execute_transfer_phase t h) as [|e]; [done|].
    destruct (work_transfers h ts (record_failure now b)) as [ws b2] eqn:E. cbn [snd].
    change b2 with (ws, b2).2. rewrite <- E. apply IH; [done|done|]. cbn [length] in Hn.
    assert (Hsucc : succ32 (failure_count b) = (failure_count b + 1)%N) by (apply wrap32_small; unfold u32_max in *; lia).
    unfold record_failure. rewrite Hc, Hsucc. cbn. destruct (N.leb_spec (failure_threshold conf) (failure_count b + 1)); [by right|].
    left. rewrite Hs. split_and!; [done|lia|lia].
  - cbn [map length replicate] in Hf. injection Hf as Ht Hf. cbn [work_transfers work_task]. unfold allow_request. rewrite Hs. cbn [negb].
    destruct (work_transfers h ts b) as [ws b2] eqn:E. cbn [snd]. change b2 with (ws, b2).2. rewrite <- E. apply IH; auto.
Qed.

Lemma open_stays ts b : cb_state b = Open -> (work_transfers h ts b).2 = b.
Proof.
  induction ts as [|[now t] ts IH]; intros Hs; [done|]. cbn [work_transfers work_task]. unfold allow_request. rewrite Hs. cbn [negb].
  destruct (work_transfers h ts b) as [ws b2] eqn:E. cbn [snd]. by apply IH.
Qed.

Lemma open_iff_fails ts : cb_state (work_transfers h ts (breaker_new conf)).2 = Open <-> fails_in_a_row h T ts.
Proof.
  split.
  - intros Ho. destruct (after_all ts) as [(_ & Hs & _)|[_ Hf]]; [congruence|done].
  - intros (l1 & l2 & E). apply map_eq_app in E as (ts1 & ts' & -> & E1 & E). apply map_eq_app in E as (ts2 & ts3 & -> & E2 & E3).
    rewrite !work_transfers_app. pose proof (after_all ts1) as Ha.
    destruct (work_transfers h ts1 (breaker_new conf)) as [w1 b1] eqn:W1. cbn [snd] in Ha.
    assert (Hl : length ts2 = T) by (apply (f_equal length) in E2; by rewrite length_map, length_replicate in E2).
    assert (Ho : cb_state (work_transfers h ts2 b1).2 = Open).
    { destruct Ha as [(Hc & Hs & Hn & _)|[Ho _]].
      - apply failures_open; [by rewrite Hl|done|left; split_and!; [done|lia|done]].
      - by rewrite open_stays. }
    rewrite work_transfers_app. destruct (work_transfers h ts2 b1) as [w2 b2]. cbn [snd] in Ho. pose proof (open_stays ts3 b2 Ho) as Hst.
    destruct (work_transfers h ts3 b2) as [w3 b3]. cbn [snd] in *. by subst b3.
Qed.

End Breaker.

Lemma length_work h ts b : length (work_transfers h ts b).1 = length ts.
Proof.
  revert b. induction ts as [|[now t] ts IH]; intros b; [done|]. cbn [work_transfers].
  destruct (work_task h now (Process t) b) as [w b']. specialize (IH b'). destruct (work_transfers h ts b'). cbn in *. by rewrite IH.
Qed.

(** What becomes of the [i]-th transfer depends on the breaker after the ones before it. *)
Lemma work_lookup h ts b i now t :
  ts !! i = Some (now, t) ->
  (work_transfers h ts b).1 !! i = Some (work_task h now (Process t) (work_transfers h (take i ts) b).2).1.
Proof.
  intros Hi. rewrite <- (take_drop_middle ts i _ Hi) at 1. rewrite work_transfers_app.
  pose proof (length_work h (take i ts) b) as Hl. destruct (work_transfers h (take i ts) b) as [w1 b1]. cbn [fst snd] in *.
  cbn [work_transfers]. destruct (work_task h now (Process t) b1) as [w b2]. destruct (work_transfers h (drop (S i) ts) b2) as [w2 b3].
  cbn [fst]. apply list_lookup_middle. rewrite Hl, length_take. apply lookup_lt_Some in Hi. lia.
Qed.

(** ** Properties *)

(** A cell keeps its bounds, in every interleaving of any number of submissions with the
    worker.  When at most [k] submissions are between the load and the addition of the memory
    ceiling at any time, the usage exceeds the configured maximum by at most [k - 1] tasks, so
    not at all when they take turns; every transfer that was ever put into the queue is still
    counted; the queue is never longer than its depth; and as long as the worker runs, the
    tasks put into the queue are those it has worked, in that order, followed by those waiting. *)
Theorem cell_bounds config h k es :
  (max_memory_bytes config + 4096 * N.of_nat k <= u64_max)%N ->
  (forall n, allocating (cell_run config h (take n es)) <= k) ->
  let c := cell_run config h es in
  (usage c <= max_memory_bytes config + 4096 * N.of_nat (k - 1))%N
  /\ (4096 * N.of_nat (transfers (sent c)) <= usage c)%N
  /\ length (queue c) <= max_queue_depth config
  /\ (receiving c = true -> sent c = map worked_task (worked c) ++ queue c).
Proof.
  intros Hmax Hk c. destruct (bounded_run config h k Hmax es Hk) as [H1 _ H3 H4 _ H6]. fold c in H1, H3, H4, H6.
  split_and!; [lia|lia|done|done].
Qed.

Definition demo_task : TransferTask := mkTask "t" zero32 "bitcoin" "ethereum" zero32 "owner" SLockConfirmed None.
Definition demo_cell : CellConfig := mkCellConfig 1 2 default_circuit 8192.
Definition demo_events : list Event :=
  [Submit (Process demo_task); Submit (Process demo_task); Advance 0; Advance 1; Advance 0; Advance 0; Work 5; Advance 1].
Lemma cell_bounds_witness :
  (usage (cell_run demo_cell registered_handler demo_events) <= 8192 + 4096)%N.
Proof.
  pose proof (cell_bounds demo_cell registered_handler 2 demo_events) as H.
  refine (proj1 (H _ _)).
  - apply N.leb_le. vm_compute. reflexivity.
  - intros n. do 9 (destruct n as [|n]; [apply Nat.leb_le; vm_compute; reflexivity|]).
    rewrite take_ge by (cbn; lia). apply Nat.leb_le. vm_compute. reflexivity.
Defined.

(** The worker executes the phase of every transfer it takes, once and with the handler's
    answer, until exactly [failure_threshold] of them have failed in a row; every one after
    that is left out.  A success starts the count again.  The threshold is any 32-bit number
    but zero. *)
Theorem cell_breaker_exact h conf ts i now t :
  (0 < failure_threshold conf <= u32_max)%N -> ts !! i = Some (now, t) ->
  let outcome := (work_transfers h ts (breaker_new conf)).1 !! i in
  (fails_in_a_row h (N.to_nat (failure_threshold conf)) (take i ts) -> outcome = Some (Dropped t))
  /\ (~ fails_in_a_row h (N.to_nat (failure_threshold conf)) (take i ts) ->
      outcome = Some (Executed t (execute_transfer_phase t h))).
Proof.
  intros [Hpos H32] Hi outcome. subst outcome. rewrite (work_lookup _ _ _ _ _ _ Hi).
  pose proof (open_iff_fails h conf Hpos H32 (take i ts)) as Ho. cbn [work_task]. unfold allow_request.
  set (b := (work_transfers h (take i ts) (breaker_new conf)).2) in *.
  split; intros Hf.
  - apply Ho in Hf. by rewrite Hf.
  - destruct (cb_state b); [done|by destruct Hf; apply Ho|done].
Qed.

Lemma cell_breaker_exact_witness :
  (work_transfers registered_handler (replicate 6 (0%N, demo_task)) (breaker_new default_circuit)).1 !! 5
  = Some (Dropped demo_task).
Proof.
  refine (proj1 (cell_breaker_exact registered_handler default_circuit (replicate 6 (0%N, demo_task)) 5 0 demo_task _ _) _).
  - split; [reflexivity|]. apply N.leb_le. reflexivity.
  - reflexivity.
  - exists [], []. reflexivity.
Defined.

(** The cells of a router do not interfere: after any history of the router, what one cell
    has become is what its own events make of it, that is the submissions routed to it, the
    steps of those and the turns of its worker, whatever happens to the other cells. *)
Theorem router_isolation es r chain :
  cells (router_run es r) !! chain
  = (fun c => fold_left (fun c e => cell_step default_cell registered_handler e c) (cell_events chain es) c) <$> cells r !! chain.
Proof.
  revert r. induction es as [|e es IH]; intros r.
  { cbn [cell_events flat_map fold_left]. change (router_run [] r) with r. by destruct (cells r !! chain). }
  change (router_run (e :: es) r) with (router_run es (router_step e r)). rewrite IH.
  assert (Hes : cell_events chain (e :: es) = cell_events chain [e] ++ cell_events chain es)
    by (unfold cell_events; by rewrite <- flat_map_app).
  rewrite Hes.
  assert (E : cells (router_step e r) !! chain
    = (fun c => fold_left (fun c e => cell_step default_cell registered_handler e c) (cell_events chain [e]) c) <$> cells r !! chain).
  { destruct e as [t|c e]; cbn [router_step cells cell_events flat_map].
    - rewrite app_nil_r. unfold route. destruct (decide (destination_cell t = chain)) as [<-|Hne].
      + rewrite bool_decide_true by done. destruct (cells r !! destination_cell t) as [c|] eqn:Hc; cbn [fst cells].
        * by rewrite lookup_insert_eq.
        * by rewrite Hc.
      + rewrite bool_decide_false by done. destruct (cells r !! destination_cell t) as [c|] eqn:Hc; cbn [fst cells fold_left];
          rewrite ?lookup_insert_ne by done; by destruct (cells r !! chain).
    - rewrite app_nil_r. destruct (decide (c = chain)) as [->|Hne].
      + rewrite bool_decide_true by done. by rewrite lookup_alter_eq.
      + rewrite bool_decide_false by done. rewrite lookup_alter_ne by done. cbn [fold_left]. by destruct (cells r !! chain). }
  rewrite E. destruct (cells r !! chain) as [c|]; [|done]. cbn [fmap option_fmap option_map]. f_equal. symmetry. apply fold_left_app.
Qed.

(** *** What the router's cells do *)

(** A registered cell has a handler without adapters: no phase of any transfer succeeds, so its
    breaker opens at the fifth and every later transfer is left out. *)
Lemma registered_handler_fails t : exists e, execute_transfer_phase t registered_handler = Err e.
Proof.
  unfold execute_transfer_phase, registered_handler, default_handler, with_adapter. cbn.
  destruct (tt_stage t); rewrite ?lookup_empty; eauto.
Qed.
Lemma registered_cell_drops ts i now t :
  5 <= i -> ts !! i = Some (now, t) ->
  (work_transfers registered_handler ts (breaker_new default_circuit)).1 !! i = Some (Dropped t).
Proof.
  intros Hi Ht. rewrite (work_lookup _ _ _ _ _ _ Ht).
  assert (Hpos : (0 < failure_threshold default_circuit)%N) by done.
  assert (H32 : (failure_threshold default_circuit <= u32_max)%N) by done.
  assert (Ho : cb_state (work_transfers registered_handler (take i ts) (breaker_new default_circuit)).2 = Open).
  { apply (open_iff_fails _ _ Hpos H32). exists [], (map (succeeds registered_handler) (drop 5 (take i ts))).
    assert (Hl : 5 <= length (take i ts)) by (rewrite length_take; apply lookup_lt_Some in Ht; lia).
    rewrite <- (take_drop 5 (take i ts)) at 1. rewrite map_app. cbn [app]. f_equal.
    transitivity (replicate (length (take 5 (take i ts))) false).
    - generalize (take 5 (take i ts)). intros l. induction l as [|[n x] l IHl]; [done|]. cbn [map length replicate].
      rewrite IHl. f_equal. unfold succeeds. cbn [snd]. by destruct (registered_handler_fails x) as [e ->].
    - rewrite length_take. replace (5 `min` length (take i ts)) with 5 by lia. done. }
  cbn [work_task]. unfold allow_request. by rewrite Ho.
Qed.

(** The breaker that [submit] looks at is never told of a failure. *)
Lemma submit_never_open config h es : cb_state (circuit (cell_run config h es)) = Closed.
Proof.
  induction es as [|e es IH] using rev_ind; [done|]. rewrite cell_run_app. revert IH. generalize (cell_run config h es). intros c Hc.
  destruct e as [t|i|now|]; cbn [cell_step]; [done| | |done].
  - destruct (submissions c !! i) as [[t|t|t|t r]|]; cbn [submit_step]; repeat case_match; simplify_eq; done.
  - repeat case_match; done.
Qed.

(** A full queue makes a submission wait, it does not refuse it. *)
Lemma full_queue_waits depth t c :
  receiving c = true -> depth <= length (queue c) -> submit_step depth (Sending t) c = (Sending t, c).
Proof. intros Hr Hq. cbn [submit_step]. rewrite Hr. cbn [negb]. by rewrite (proj2 (Nat.ltb_ge _ _)). Qed.

(** Releasing what was allocated leaves a byte behind. *)
Lemma release_short m bytes :
  (0 < bytes)%N -> (current_bytes m + bytes <= u64_max)%N ->
  current_bytes (release bytes (fetch_add bytes m)) = (current_bytes m + 1)%N.
Proof.
  intros Hb Hm. unfold release, fetch_add. cbn. rewrite add64_small by done. rewrite sub64_small by lia. lia.
Qed.

(** A chain named by anything but a number goes to cell zero. *)
Lemma named_chains_go_to_zero : map (fun c => destination_cell (mkTask "" zero32 "" c zero32 "" SInitialized None))
  ["ethereum"; "bitcoin"; "sui"]%string = [0; 0; 0]%N.
Proof. by vm_compute. Qed.

(** An open breaker that is checked late enough lets transfers through again, and as many
    successes as are asked for close it. *)
Lemma breaker_recovers b t now :
  cb_state b = Open -> last_failure_time b = Some t -> (timeout (cb_config b) <= now - t)%N ->
  (0 < success_threshold (cb_config b) <= u32_max)%N ->
  let b1 := (work_task registered_handler now HealthCheck b).2 in
  allow_request b1 = true
  /\ cb_state (Nat.iter (N.to_nat (success_threshold (cb_config b))) record_success b1) = Closed.
Proof.
  intros Hs Hl Ht [Hp H32] b1. subst b1. cbn [work_task snd]. unfold is_open, attempt_reset. rewrite Hs, Hl.
  cbn [negb bool_decide]. rewrite bool_decide_true by done. cbn [negb]. rewrite (proj2 (N.leb_le _ _)) by done. cbn [fst].
  split; [done|].
  assert (Hi : forall n b', cb_config b' = cb_config b -> cb_state b' = HalfOpen ->
    N.to_nat (success_count b') + n < N.to_nat (success_threshold (cb_config b)) ->
    cb_state (Nat.iter n record_success b') = HalfOpen /\ cb_config (Nat.iter n record_success b') = cb_config b
    /\ N.to_nat (success_count (Nat.iter n record_success b')) = N.to_nat (success_count b') + n).
  { intros n b' Hc Hh. induction n as [|n IH]; intros Hn; [split_and!; [done|done|cbn; lia]|].
    destruct IH as (H1 & H2 & H3); [lia|]. change (Nat.iter (S n) record_success b') with (record_success (Nat.iter n record_success b')).
    revert H1 H2 H3. generalize (Nat.iter n record_success b'). intros x H1 H2 H3. unfold record_success. rewrite H1, H2.
    assert (E : succ32 (success_count x) = (success_count x + 1)%N) by (apply wrap32_small; unfold u32_max in *; lia).
    rewrite E, (proj2 (N.leb_gt _ _)) by lia. split_and!; cbn; [done|done|lia]. }
  destruct (N.to_nat (success_threshold (cb_config b))) as [|n] eqn:En; [lia|].
  set (b' := mkBreaker HalfOpen (failure_count b) 0 (Some t) (cb_config b)).
  destruct (Hi n b' eq_refl eq_refl ltac:(cbn; lia)) as (H1 & H2 & H3).
  change (Nat.iter (S n) record_success b') with (record_success (Nat.iter n record_success b')).
  revert H1 H2 H3. generalize (Nat.iter n record_success b'). intros x H1 H2 H3. cbn in H3. unfold record_success. rewrite H1, H2.
  assert (E : succ32 (success_count x) = (success_count x + 1)%N) by (apply wrap32_small; unfold u32_max in *; lia).
  rewrite E, (proj2 (N.leb_le _ _)) by lia. done.
Qed.

(** A plan is negotiated exactly when the chain is known and meets each requirement; it names
    the chain's proof system and one confirmation more than its deepest reorganisation. *)
Lemma negotiate_exact {F} (lt : F -> F -> bool) n chain r p :
  negotiate lt n chain r = Ok p <->
  exists g, n !! chain = Some g
    /\ (requires_deterministic_finality r = true -> is_probabilistic g = false)
    /\ (min_reorg_depth r <= max_reorg_depth g)%N
    /\ lt (validator_honesty_threshold g) (min_honesty_threshold r) = false
    /\ p = mkPlan (proof_system g) (add64 (max_reorg_depth g) 1) (max_proof_age_blocks g).
Proof.
  unfold negotiate, select_proof_system. destruct (n !! chain) as [g|] eqn:Hg; cbn [ok_or mbind result_bind]; [|naive_solver].
  rewrite !guard_err_ok, andb_false_iff, N.ltb_ge. cbn [mbind result_bind]. split.
  - intros (H1 & H2 & H3 & [= <-]). exists g. split_and!; try done. intros Hd. destruct H1; congruence.
  - intros (g' & [= <-] & H1 & H2 & H3 & ->). split_and!; try done. destruct (requires_deterministic_finality r); [right; auto|by left].
Qed.
