(* ===== verification/Algebra.v ===== *)
(** * The transfer algebra (csv-algebra: state.rs, proof.rs, finality.rs, transfer.rs, replay.rs)

    A transfer's state is a value of the type of its stage, and each method consumes the value
    and returns the next one.  Here each stage is a record and each method a function between
    two of them; [Stage] puts the stages together, and a step is a method call with its
    arguments, so that an execution is a list of them. *)

From S2P Require Import Prelude Ord Bytes Hashing.

(** ** Data *)

Record FinalityEvidence := mkEvidence { fe_block_hash : Bytes32; fe_block_height : N; fe_proof_data : bytes; fe_timestamp : N }.
Record Metadata := mkMetadata { md_chain_id : N; fields : list (string * bytes) }.
Record CanonicalProof := mkProof {
  block_height : N; block_hash : Bytes32; state_root : Bytes32; proof_nodes : list bytes; metadata : Metadata
}.
Definition canonical_proof_new (height : N) (hash root : Bytes32) (nodes : list bytes) (chain_id : N) : CanonicalProof :=
  mkProof height hash root nodes (mkMetadata chain_id []).
Definition with_metadata (key : string) (value : bytes) (p : CanonicalProof) : CanonicalProof :=
  mkProof (block_height p) (block_hash p) (state_root p) (proof_nodes p)
    (mkMetadata (md_chain_id (metadata p)) (fields (metadata p) ++ [(key, value)])).
Definition nonce_increment (n : N) : N := wrap64 (n + 1).
Definition replay_is_zero (r : Bytes32) : bool := bool_decide (r = zero32).

Inductive RollbackReason := Reorg | ProofInvalid | FinalityTimeout | MintFailed.

(** ** The stages *)

Record Locked := mkLocked { seal_id : Bytes32; source_chain : N; dest_chain : N }.
Record ProofBuilding := mkBuilding { locked : Locked; attempt : N }.
Record AwaitingFinality := mkAwaiting { af_proof : CanonicalProof; required_confirmations : N }.
Record ProofValidated := mkValidated { pv_proof : CanonicalProof; evidence : FinalityEvidence }.
Record Minting := mkMinting { validated : ProofValidated; mint_tx : Bytes32 }.
Record Completed := mkCompleted { cp_mint_tx : Bytes32; cp_seal_id : Bytes32 }.
Record RolledBack := mkRolledBack { reason : RollbackReason; rb_seal_id : Bytes32 }.

Definition begin_proof (s : Locked) : ProofBuilding := mkBuilding s 0.
Definition reorg (s : Locked) : RolledBack := mkRolledBack Reorg (seal_id s).
Definition submit_proof (_ : ProofBuilding) (p : CanonicalProof) (required : N) : AwaitingFinality := mkAwaiting p required.
Definition building_fail (s : ProofBuilding) : RolledBack := mkRolledBack ProofInvalid (seal_id (locked s)).
Definition accept (s : AwaitingFinality) (e : FinalityEvidence) : ProofValidated := mkValidated (af_proof s) e.
Definition timeout (_ : AwaitingFinality) : RolledBack := mkRolledBack FinalityTimeout zero32.
Definition mint (s : ProofValidated) (tx : Bytes32) : Minting := mkMinting s tx.
Definition confirm (s : Minting) : Completed := mkCompleted (mint_tx s) (block_hash (pv_proof (validated s))).
Definition minting_fail (_ : Minting) : RolledBack := mkRolledBack MintFailed zero32.

(** ** Executions *)

Inductive Stage :=
| InLocked (s : Locked) | InProofBuilding (s : ProofBuilding) | InAwaitingFinality (s : AwaitingFinality)
| InProofValidated (s : ProofValidated) | InMinting (s : Minting) | InCompleted (s : Completed) | InRolledBack (s : RolledBack).
Inductive Call :=
| BeginProof | ReorgSeen | SubmitProof (p : CanonicalProof) (required : N) | BuildingFails | AcceptEvidence (e : FinalityEvidence)
| TimesOut | MintWith (tx : Bytes32) | ConfirmMint | MintingFails.

(** A call that the stage's type has; no other type checks. *)
Definition call (c : Call) (s : Stage) : option Stage :=
  match s, c with
  | InLocked s, BeginProof => Some (InProofBuilding (begin_proof s))
  | InLocked s, ReorgSeen => Some (InRolledBack (reorg s))
  | InProofBuilding s, SubmitProof p r => Some (InAwaitingFinality (submit_proof s p r))
  | InProofBuilding s, BuildingFails => Some (InRolledBack (building_fail s))
  | InAwaitingFinality s, AcceptEvidence e => Some (InProofValidated (accept s e))
  | InAwaitingFinality s, TimesOut => Some (InRolledBack (timeout s))
  | InProofValidated s, MintWith tx => Some (InMinting (mint s tx))
  | InMinting s, ConfirmMint => Some (InCompleted (confirm s))
  | InMinting s, MintingFails => Some (InRolledBack (minting_fail s))
  | _, _ => None
  end.
Fixpoint calls (cs : list Call) (s : Stage) : option Stage :=
  match cs with [] => Some s | c :: cs => s' ← call c s; calls cs s' end.

(** ** Properties *)

(** A locked transfer completes in exactly one way: by beginning a proof, submitting one,
    accepting evidence, minting and confirming, in that order and with nothing between; the
    completed transfer has the transaction it was minted with.  It rolls back exactly from one
    of the four stages that can, for that stage's reason.  Nothing follows either. *)
Theorem algebra_pipeline l cs s :
  calls cs (InLocked l) = Some s ->
  (forall c, s = InCompleted c <->
     exists p r e tx, cs = [BeginProof; SubmitProof p r; AcceptEvidence e; MintWith tx; ConfirmMint]
                      /\ c = mkCompleted tx (block_hash p))
  /\ (forall b, s = InRolledBack b <->
       cs = [ReorgSeen] /\ b = mkRolledBack Reorg (seal_id l)
       \/ cs = [BeginProof; BuildingFails] /\ b = mkRolledBack ProofInvalid (seal_id l)
       \/ (exists p r, cs = [BeginProof; SubmitProof p r; TimesOut]) /\ b = mkRolledBack FinalityTimeout zero32
       \/ (exists p r e tx, cs = [BeginProof; SubmitProof p r; AcceptEvidence e; MintWith tx; MintingFails])
          /\ b = mkRolledBack MintFailed zero32).
Proof.
  intros H.
  do 6 (destruct cs as [|[] cs]; cbn in H; try discriminate H; simplify_eq;
        try (split; intros ?; split; naive_solver)).
Qed.

Definition demo_locked : Locked := mkLocked zero32 1 2.
Definition demo_proof : CanonicalProof := canonical_proof_new 7 zero32 zero32 [] 1.
Definition demo_calls : list Call :=
  [BeginProof; SubmitProof demo_proof 6; AcceptEvidence (mkEvidence zero32 7 [] 0); MintWith zero32; ConfirmMint].
Lemma algebra_pipeline_witness :
  forall c, InCompleted (mkCompleted zero32 zero32) = InCompleted c <->
    exists p r e tx, demo_calls = [BeginProof; SubmitProof p r; AcceptEvidence e; MintWith tx; ConfirmMint]
                     /\ c = mkCompleted tx (block_hash p).
Proof. exact (proj1 (algebra_pipeline demo_locked demo_calls (InCompleted (mkCompleted zero32 zero32)) eq_refl)). Defined.

(** *** What is lost on the way *)

(** A transfer forgets its seal when the proof is submitted: whatever was locked, the same
    calls complete with the same value, whose seal is the hash of the proof's block. *)
Lemma completed_forgets_seal l l' p r e tx :
  let cs := [BeginProof; SubmitProof p r; AcceptEvidence e; MintWith tx; ConfirmMint] in
  calls cs (InLocked l) = calls cs (InLocked l')
  /\ calls cs (InLocked l) = Some (InCompleted (mkCompleted tx (block_hash p))).
Proof. done. Qed.

(** The evidence is not looked at: none of its confirmations, hashes or heights is compared
    with the proof's or with the number required. *)
Lemma any_evidence_accepted p r e :
  call (AcceptEvidence e) (InAwaitingFinality (mkAwaiting p r)) = Some (InProofValidated (mkValidated p e)).
Proof. done. Qed.
