(* ===== verification/ChainProofs.v ===== *)
(** * Commitment chains and proof validation (csv-proof: commitment_chain.rs, proof_validation.rs)

    A contract's commitments form a chain, each naming the hash of the one before it and the
    first naming zero.  One verifier walks back from the latest hash through whatever
    commitments it was given, in any order; the other takes the chain as it is listed.  The
    walk is a loop without a bound: it is given fuel, and enough is the number of commitments
    and one.  The structural validator of bundles is here too, with its Merkle path. *)

From S2P Require Import Prelude Ord Bytes Hashing Commitment Decode.
From S2P Require Merkle ProofTaxonomy.

Inductive ChainError :=
| EmptyChain | NotGenesis
| BrokenChain (index : nat) (expected actual : Hash)
| ContractIdMismatch (index : nat) (expected actual : Hash)
| DuplicateCommitment (index : nat)
| CycleDetected (index : nat).
Record VerificationResult := mkResult {
  chain : list Commitment; genesis : Commitment; latest : Commitment; vr_length : nat; contract_id : Hash
}.

Section Chains.
Variable sha256 : bytes -> Bytes32.
Notation H := (commitment_hash sha256).

(** The last commitment inserted under a hash is the one found. *)
Definition commitment_map (cs : list Commitment) : gmap Hash Commitment :=
  fold_left (fun m c => <[H c := c]> m) cs ∅.

(** The loop of the walk; [chain] lists the commitments from the latest on. *)
Fixpoint walk (fuel : nat) (m : gmap Hash Commitment) (chain : list Commitment) (seen : gset Hash) (current : Hash)
  : option (result ChainError (list Commitment)) :=
  match fuel with
  | O => None
  | S fuel =>
      if bool_decide (current ∈ seen) then Some (Err (CycleDetected (length chain)))
      else
        match m !! current with
        | None => Some (Err (BrokenChain (length chain) current zero32))
        | Some c =>
            if existsb (fun d => bool_decide (H d = current)) chain then Some (Err (DuplicateCommitment (length chain)))
            else
              let chain := chain ++ [c] in
              if bool_decide (cm_previous c = zero32) then Some (Ok chain)
              else walk fuel m chain ({[current]} ∪ seen) (cm_previous c)
        end
  end.

(** [for (i, commitment) in chain.iter().enumerate()]: one contract throughout. *)
Fixpoint same_contract (i : nat) (contract : Hash) (l : list Commitment) : result ChainError unit :=
  match l with
  | [] => Ok tt
  | c :: l =>
      reject negb (bool_decide (cm_contract_id c = contract)) with ContractIdMismatch i contract (cm_contract_id c);;
      same_contract (S i) contract l
  end.

Definition result_of (l : list Commitment) : result ChainError VerificationResult :=
  match head l, last l with
  | Some g, Some t => Ok (mkResult l g t (length l) (cm_contract_id g))
  | _, _ => Err EmptyChain
  end.

Definition verify_commitment_chain (commitments : list Commitment) (latest_commitment_hash : Hash)
  : option (result ChainError VerificationResult) :=
  if bool_decide (commitments = []) then Some (Err EmptyChain)
  else
    match walk (length commitments + 1) (commitment_map commitments) [] ∅ latest_commitment_hash with
    | None => None
    | Some (Err e) => Some (Err e)
    | Some (Ok chain) => Some (
        g ← ok_or EmptyChain (last chain);
        reject negb (bool_decide (cm_previous g = zero32)) with NotGenesis;;
        _ ← same_contract 0 (cm_contract_id g) chain;
        result_of (reverse chain))
    end.

(** [for i in 1..len]: each commitment against the one before it. *)
Fixpoint check_links (i : nat) (previous : Commitment) (l : list Commitment) : result ChainError unit :=
  match l with
  | [] => Ok tt
  | c :: l =>
      reject negb (bool_decide (cm_previous c = H previous)) with BrokenChain i (H previous) (cm_previous c);;
      reject negb (bool_decide (cm_contract_id c = cm_contract_id previous))
        with ContractIdMismatch i (cm_contract_id previous) (cm_contract_id c);;
      check_links (S i) c l
  end.
(** [seen.insert(hash)] *)
Fixpoint check_distinct (i : nat) (seen : gset Hash) (l : list Commitment) : result ChainError unit :=
  match l with
  | [] => Ok tt
  | c :: l =>
      reject bool_decide (H c ∈ seen) with DuplicateCommitment i;;
      check_distinct (S i) ({[H c]} ∪ seen) l
  end.
Definition verify_ordered_commitment_chain (l : list Commitment) : result ChainError VerificationResult :=
  match l with
  | [] => Err EmptyChain
  | first :: rest =>
      _ ← check_links 1 first rest;
      reject negb (bool_decide (cm_previous first = zero32)) with NotGenesis;;
      _ ← check_distinct 0 ∅ l;
      result_of l
  end.
Definition verify_commitment_link (previous current : Commitment) : result ChainError unit :=
  reject negb (bool_decide (H previous = cm_previous current)) with BrokenChain 0 (H previous) (cm_previous current);;
  reject negb (bool_decide (cm_contract_id previous = cm_contract_id current))
    with ContractIdMismatch 0 (cm_contract_id previous) (cm_contract_id current);;
  Ok tt.

(** ** What a chain is *)

(** Oldest first, each naming the hash of the one before it. *)
Fixpoint linked (previous : Hash) (l : list Commitment) : Prop :=
  match l with [] => True | c :: l => cm_previous c = previous /\ linked (H c) l end.
Record is_chain (l : list Commitment) : Prop := {
  ch_linked : linked zero32 l;
  ch_distinct : NoDup (map H l);
  ch_contract : exists contract, Forall (fun c => cm_contract_id c = contract) l
}.

(** What the walk finds from a hash on, newest first. *)
Fixpoint walked (m : gmap Hash Commitment) (h : Hash) (l : list Commitment) : Prop :=
  match l with
  | [] => False
  | c :: l => m !! h = Some c /\ (if decide (cm_previous c = zero32) then l = [] else walked m (cm_previous c) l)
  end.
End Chains.

(** ** Bundles *)

Definition MAX_PROOF_BYTES : nat := N.to_nat 1048576.
Definition MAX_SIBLINGS : nat := 256.
Definition MIN_CONFIRMATIONS : N := 1.
Definition MAX_CONFIRMATIONS : N := u64_max / 2.
Inductive ValidationResult := Valid | InvalidInclusionProof | InvalidFinalityProof | InvalidMaterial.
Definition is_zero_hash (h : Hash) : bool := forallb (fun b => bool_decide (b = Byte.x00)) (b32 h).

Section Bundles.
Variable sha256 : bytes -> Bytes32.

(** The smaller hash comes first. *)
Definition hash_pair (l r : Hash) : Hash :=
  let '(lo, hi) := if leb l r then (l, r) else (r, l) in
  tagged_hash sha256 MerkleCombine (b32 lo ++ b32 hi).
(** A shift by the width or more is by the remainder. *)
Fixpoint path_loop (i : N) (current : Hash) (leaf_index : N) (siblings : list Hash) : Hash :=
  match siblings with
  | [] => current
  | s :: siblings =>
      let bit := N.land (N.shiftr leaf_index (i mod 64)) 1 in
      path_loop (i + 1) (if (bit =? 0)%N then hash_pair current s else hash_pair s current) leaf_index siblings
  end.
Definition verify_merkle_path (leaf : Hash) (siblings : list Hash) (leaf_index : N) (expected_root : Hash) : bool :=
  match siblings with
  | [] => bool_decide (leaf = expected_root)
  | _ => bool_decide (path_loop 0 leaf leaf_index siblings = expected_root)
  end.
Definition validate_inclusion (p : ProofTaxonomy.InclusionProof) : bool :=
  if MAX_SIBLINGS <? length (ProofTaxonomy.inc_siblings p) then false
  else if is_zero_hash (ProofTaxonomy.leaf p) || is_zero_hash (ProofTaxonomy.inc_root p) then false
  else match ProofTaxonomy.inc_siblings p with
       | [] => bool_decide (ProofTaxonomy.leaf p = ProofTaxonomy.inc_root p)
       | siblings => verify_merkle_path (ProofTaxonomy.leaf p) siblings (ProofTaxonomy.inc_leaf_index p) (ProofTaxonomy.inc_root p)
       end.
Definition validate_finality (p : ProofTaxonomy.FinalityProof) : bool :=
  if is_zero_hash (ProofTaxonomy.fin_block_hash p) then false
  else if (ProofTaxonomy.confirmations p <? MIN_CONFIRMATIONS)%N then false
  else if (MAX_CONFIRMATIONS <? ProofTaxonomy.confirmations p)%N then false
  else if bool_decide (ProofTaxonomy.fin_data p = []) then false
  else if bool_decide (ProofTaxonomy.fin_source p = ""%string) then false
  else true.
Definition verify_material (material : bytes) : bool :=
  negb (bool_decide (material = [])) && (length material <=? MAX_PROOF_BYTES).
Definition validate_bundle (b : ProofTaxonomy.ProofBundle) : ValidationResult :=
  let inc := ProofTaxonomy.inclusion_proof b in
  let fin := ProofTaxonomy.finality_proof b in
  if MAX_PROOF_BYTES <? length (ProofTaxonomy.proof_bytes inc) then InvalidMaterial
  else if MAX_PROOF_BYTES <? length (ProofTaxonomy.finality_data fin) then InvalidMaterial
  else if negb (validate_inclusion inc) then InvalidInclusionProof
  else if negb (validate_finality fin) then InvalidFinalityProof
  else Valid.
End Bundles.

(** ** Lemmas *)

Section ChainLemmas.
Context (sha256 : bytes -> Bytes32).
Notation H := (commitment_hash sha256).

Lemma commitment_map_spec cs h :
  commitment_map sha256 cs !! h = last (List.filter (fun c => bool_decide (H c = h)) cs).
Proof.
  induction cs as [|c cs IH] using rev_ind; [unfold commitment_map; cbn; by rewrite lookup_empty|].
  unfold commitment_map in *. rewrite fold_left_app, List.filter_app. cbn [fold_left List.filter].
  destruct (decide (H c = h)) as [<-|Hne].
  - rewrite lookup_insert_eq, bool_decide_true by done. by rewrite last_snoc.
  - rewrite lookup_insert_ne, bool_decide_false by done. by rewrite app_nil_r.
Qed.

Lemma map_hash cs h c : commitment_map sha256 cs !! h = Some c -> H c = h /\ c ∈ cs.
Proof.
  rewrite commitment_map_spec. intros Hl. assert (Hi : c ∈ List.filter (fun c => bool_decide (H c = h)) cs).
  { apply last_Some in Hl as (l' & ->). apply elem_of_app. right. by apply list_elem_of_singleton. }
  apply list_elem_of_In, filter_In in Hi as [Hi Hh]. apply bool_decide_eq_true in Hh. split; [done|by apply list_elem_of_In].
Qed.

(** With distinct hashes, every commitment is the one found under its hash. *)
Lemma map_distinct cs c : NoDup (map H cs) -> c ∈ cs -> commitment_map sha256 cs !! H c = Some c.
Proof.
  intros Hnd Hc. rewrite commitment_map_spec. apply list_elem_of_split in Hc as (l1 & l2 & ->).
  rewrite map_app in Hnd. cbn [map] in Hnd. apply NoDup_app in Hnd as (_ & H1 & H2). apply NoDup_cons in H2 as [H2 _].
  assert (Hnone : forall l, (forall d, d ∈ l -> H d <> H c) -> List.filter (fun d => bool_decide (H d = H c)) l = []).
  { induction l as [|d l IHl]; intros Hl; [done|]. cbn. rewrite bool_decide_false by (apply Hl; set_solver). apply IHl. set_solver. }
  rewrite List.filter_app. cbn [List.filter]. rewrite bool_decide_true by done. rewrite !Hnone; [done| |].
  - intros d Hd E. apply H2. rewrite <- E. by apply list_elem_of_fmap_2.
  - intros d Hd E. apply (H1 (H c)); [rewrite <- E; by apply list_elem_of_fmap_2|by left].
Qed.

Context (m : gmap Hash Commitment) (Hm : forall h c, m !! h = Some c -> H c = h).

Lemma walked_hashes h l : walked m h l -> exists c l', l = c :: l' /\ H c = h.
Proof. destruct l as [|c l]; [done|]. intros [Hc _]. exists c, l. split; [done|by apply Hm]. Qed.

(** The loop gives what it had and what is walked from there, when no hash comes twice. *)
Lemma walk_ok fuel ch seen h ch' :
  (forall c, c ∈ ch -> H c ∈ seen) ->
  walk sha256 fuel m ch seen h = Some (Ok ch') ->
  exists l, ch' = ch ++ l /\ walked m h l /\ NoDup (map H l) /\ (forall c, c ∈ l -> H c ∉ seen).
Proof.
  revert ch seen h. induction fuel as [|fuel IH]; intros ch seen h Hs Hw; [done|]. cbn [walk] in Hw.
  destruct (decide (h ∈ seen)) as [?|Hn]; [by rewrite bool_decide_true in Hw|rewrite bool_decide_false in Hw by done].
  destruct (m !! h) as [c|] eqn:Hc; [|done]. destruct (existsb _ _) eqn:Hx; [done|]. pose proof (Hm _ _ Hc) as Hh.
  destruct (decide (cm_previous c = zero32)) as [Hz|Hz].
  - rewrite bool_decide_true in Hw by done. injection Hw as <-. exists [c]. cbn [walked]. rewrite decide_True by done.
    split_and!; try done; [apply NoDup_singleton|]. intros d Hd. apply list_elem_of_singleton in Hd as ->. by rewrite Hh.
  - rewrite bool_decide_false in Hw by done. apply IH in Hw as (l & -> & Hl & Hnd & Hout).
    + exists (c :: l). split_and!.
      * by rewrite <- app_assoc.
      * cbn [walked]. by rewrite decide_False.
      * cbn [map]. apply NoDup_cons. split; [|done]. intros Hi. apply list_elem_of_fmap in Hi as (d & E & Hd).
        apply (Hout d Hd). rewrite <- E, Hh. set_solver.
      * intros d Hd. apply elem_of_cons in Hd as [->|Hd]; [by rewrite Hh|]. specialize (Hout d Hd). set_solver.
    + intros d Hd. apply elem_of_app in Hd as [Hd|Hd]; [specialize (Hs d Hd); set_solver|].
      apply list_elem_of_singleton in Hd as ->. rewrite Hh. set_solver.
Qed.

Lemma walk_complete fuel ch seen h l :
  (forall c, c ∈ ch -> H c ∈ seen) ->
  walked m h l -> NoDup (map H l) -> (forall c, c ∈ l -> H c ∉ seen) -> length l <= fuel ->
  walk sha256 fuel m ch seen h = Some (Ok (ch ++ l)).
Proof.
  revert ch seen h l. induction fuel as [|fuel IH]; intros ch seen h l Hs Hl Hnd Hout Hf.
  - destruct l; [done|cbn in Hf; lia].
  - destruct l as [|c l]; [done|]. cbn [walked] in Hl. destruct Hl as [Hc Hl]. cbn [walk]. pose proof (Hm _ _ Hc) as Hh.
    rewrite bool_decide_false by (rewrite <- Hh; apply Hout; by left). rewrite Hc.
    assert (Hx : existsb (fun d => bool_decide (H d = h)) ch = false).
    { apply not_true_iff_false. intros Hx. apply existsb_exists in Hx as (d & Hd & E). apply bool_decide_eq_true in E.
      apply (Hout c); [by left|]. rewrite Hh, <- E. apply Hs. by apply list_elem_of_In. }
    rewrite Hx. cbn [map] in Hnd. apply NoDup_cons in Hnd as [Hn Hnd]. destruct (decide (cm_previous c = zero32)) as [Hz|Hz].
    + rewrite bool_decide_true by done. by subst l.
    + rewrite bool_decide_false by done. rewrite (IH (ch ++ [c]) _ _ l); [by rewrite <- app_assoc| |done|done| |cbn in Hf; lia].
      * intros d Hd. apply elem_of_app in Hd as [Hd|Hd]; [specialize (Hs d Hd); set_solver|].
        apply list_elem_of_singleton in Hd as ->. rewrite Hh. set_solver.
      * intros d Hd Hi. apply elem_of_union in Hi as [Hi|Hi].
        -- apply elem_of_singleton in Hi. apply Hn. rewrite Hh, <- Hi. by apply list_elem_of_fmap_2.
        -- apply (Hout d); [by right|done].
Qed.

(** Every turn sees another hash of the map, so the map's size and one bound the turns. *)
Lemma walk_returns fuel ch seen h :
  seen ⊆ dom m -> size (dom m) < fuel + size seen -> is_Some (walk sha256 fuel m ch seen h).
Proof.
  revert ch seen h. induction fuel as [|fuel IH]; intros ch seen h Hs Hf.
  - apply subseteq_size in Hs. lia.
  - cbn [walk]. destruct (decide (h ∈ seen)) as [?|Hn]; [by rewrite bool_decide_true|rewrite bool_decide_false by done].
    destruct (m !! h) as [c|] eqn:Hc; [|done]. destruct (existsb _ _); [done|]. case_bool_decide; [done|].
    assert (Hd : h ∈ dom m) by (apply elem_of_dom; eauto).
    apply IH; [set_solver|]. rewrite size_union by set_solver. rewrite size_singleton. lia.
Qed.

(** *** The walk and the chain *)

(** Newest first and oldest first are the same chain, but that the walk stops at the first
    commitment that names zero. *)
Lemma walked_linked l h :
  walked m h l <-> l <> [] /\ (forall c, head l = Some c -> H c = h) /\ (forall c, c ∈ l -> m !! H c = Some c)
    /\ linked sha256 zero32 (reverse l) /\ (forall c, c ∈ tail (reverse l) -> cm_previous c <> zero32).
Proof.
  assert (Hsn : forall l p c, linked sha256 p (l ++ [c]) <->
    linked sha256 p l /\ cm_previous c = match last l with Some d => H d | None => p end).
  { clear. induction l as [|d l IHl]; intros p c; cbn [app linked]; [naive_solver|].
    rewrite IHl. rewrite last_cons. destruct (last l); naive_solver. }
  revert h. induction l as [|c l IHl]; intros h; [naive_solver|]. cbn [walked head]. rewrite reverse_cons, Hsn, last_reverse.
  destruct (decide (cm_previous c = zero32)) as [Hz|Hz].
  - split.
    + intros [Hc ->]. pose proof (Hm _ _ Hc). cbn. split_and!; try done; [naive_solver| |set_solver].
      intros d Hd. apply list_elem_of_singleton in Hd as ->. congruence.
    + intros (_ & Hh & Hall & (Hl & Hp) & Ht). rewrite <- (Hh c eq_refl). split; [apply Hall; by left|].
      destruct l as [|d l]; [done|]. exfalso. apply (Ht c); [|done]. rewrite reverse_cons.
      destruct (reverse l); cbn; set_solver.
  - rewrite IHl. split.
    + intros (Hc & Hne & Hh & Hall & Hl & Ht). pose proof (Hm _ _ Hc) as E. destruct l as [|d l]; [done|].
      split_and!; try done; [naive_solver| |symmetry; exact (Hh d eq_refl)|].
      * intros x Hx. apply elem_of_cons in Hx as [->|Hx]; [congruence|by apply Hall].
      * intros x Hx. destruct (reverse (d :: l)) as [|y k] eqn:Er; [by apply (f_equal length) in Er; rewrite length_reverse in Er|].
        cbn in Hx. apply elem_of_app in Hx as [Hx|Hx]; [by apply Ht|]. apply list_elem_of_singleton in Hx as ->. done.
    + intros (_ & Hh & Hall & (Hl & Hp) & Ht). destruct l as [|d l]; [done|]. cbn in Hp.
      split_and!; try done.
      * rewrite <- (Hh c eq_refl). apply Hall. by left.
      * intros x [= <-]. done.
      * intros x Hx. apply Hall. by right.
      * intros x Hx. apply Ht. destruct (reverse (d :: l)) as [|y k]; [done|]. cbn in *. set_solver.
Qed.
End ChainLemmas.

Lemma map_reverse {A B} (f : A -> B) l : map f (reverse l) = reverse (map f l).
Proof. exact (fmap_reverse f l). Qed.

Section Verifiers.
Context (sha256 : bytes -> Bytes32).
Notation H := (commitment_hash sha256).

Lemma same_contract_ok i k l : same_contract i k l = Ok tt <-> Forall (fun c => cm_contract_id c = k) l.
Proof.
  revert i. induction l as [|c l IH]; intros i; cbn [same_contract]; [by split|].
  rewrite guard_err_ok, negb_false_iff, bool_decide_eq_true, IH, Forall_cons. done.
Qed.

Lemma check_links_ok i p l :
  check_links sha256 i p l = Ok tt <-> linked sha256 (H p) l /\ Forall (fun c => cm_contract_id c = cm_contract_id p) l.
Proof.
  revert i p. induction l as [|c l IH]; intros i p; cbn [check_links linked]; [by split|].
  rewrite !guard_err_ok, !negb_false_iff, !bool_decide_eq_true, IH, Forall_cons. split.
  - intros (-> & E & Hl & Hf). rewrite E in Hf. done.
  - intros ((-> & Hl) & E & Hf). rewrite E. done.
Qed.

Lemma check_distinct_ok i seen l :
  check_distinct sha256 i seen l = Ok tt <-> NoDup (map H l) /\ (forall c, c ∈ l -> H c ∉ seen).
Proof.
  revert i seen. induction l as [|c l IH]; intros i seen; cbn [check_distinct map].
  - split; [intros _; split; [constructor|set_solver]|done].
  - rewrite guard_err_ok, bool_decide_eq_false, IH, NoDup_cons. split.
    + intros (Hc & Hnd & Hl). split_and!; [|done|].
      * intros Hi. apply list_elem_of_fmap in Hi as (d & E & Hd). apply (Hl d Hd). rewrite <- E. set_solver.
      * intros d Hd. apply elem_of_cons in Hd as [->|Hd]; [done|]. specialize (Hl d Hd). set_solver.
    + intros ((Hn & Hnd) & Hl). split_and!; [apply Hl; by left|done|].
      intros d Hd Hi. apply elem_of_union in Hi as [Hi|Hi]; [|by apply (Hl d); [right|]].
      apply elem_of_singleton in Hi. apply Hn. rewrite <- Hi. by apply list_elem_of_fmap_2.
Qed.

Lemma result_of_ok l v : result_of l = Ok v -> chain v = l /\ l <> [].
Proof. unfold result_of. destruct l as [|c l]; [done|]. destruct (last _); [|done]. by intros [= <-]. Qed.

Lemma ordered_ok l v : verify_ordered_commitment_chain sha256 l = Ok v <-> is_chain sha256 l /\ result_of l = Ok v.
Proof.
  destruct l as [|c l]; [split; [done|by intros []]|]. unfold verify_ordered_commitment_chain.
  rewrite bind_unit_ok, guard_err_ok, bind_unit_ok, negb_false_iff, bool_decide_eq_true, check_links_ok, check_distinct_ok. split.
  - intros ((Hl & Hk) & Hz & (Hnd & _) & Hr). split; [|done]. split; [by cbn|done|].
    exists (cm_contract_id c). by apply Forall_cons.
  - intros ([[Hz Hl] Hnd [k Hk]] & Hr). apply Forall_cons in Hk as [<- Hk]. split_and!; done.
Qed.

Lemma walk_total cs h : is_Some (walk sha256 (length cs + 1) (commitment_map sha256 cs) [] ∅ h).
Proof.
  apply walk_returns; [intros ? ? Hc; by apply map_hash in Hc as [? _]|apply empty_subseteq|].
  rewrite size_dom. enough (size (commitment_map sha256 cs) <= length cs) by lia.
  induction cs as [|c cs IH] using rev_ind; [done|]. unfold commitment_map in *. rewrite fold_left_app, length_app. cbn [fold_left length].
  rewrite map_size_insert. case_match; cbn; lia.
Qed.

Lemma chain_ok_iff cs h v :
  verify_commitment_chain sha256 cs h = Some (Ok v) <->
  is_chain sha256 (chain v) /\ (forall c, c ∈ tail (chain v) -> cm_previous c <> zero32)
  /\ (exists c, last (chain v) = Some c /\ H c = h)
  /\ (forall c, c ∈ chain v -> last (List.filter (fun d => bool_decide (H d = H c)) cs) = Some c)
  /\ result_of (chain v) = Ok v.
Proof.
  set (m := commitment_map sha256 cs). assert (Hm : forall h c, m !! h = Some c -> H c = h) by (intros ? ? Hc; by apply map_hash in Hc as [? _]).
  unfold verify_commitment_chain. destruct (decide (cs = [])) as [->|Hne].
  { rewrite bool_decide_true by done. split; [done|]. intros (_ & _ & (c & Hl & _) & Hf & _).
    specialize (Hf c). rewrite last_Some in Hl. destruct Hl as (l' & El). rewrite El in Hf. discriminate Hf. set_solver. }
  rewrite bool_decide_false by done. fold m. split.
  - destruct (walk _ _ _ _ _ _) as [[ch|e]|] eqn:Hw; [|done|done]. intros Hv. injection Hv as Hv.
    apply (walk_ok sha256 m Hm) in Hw as (l & -> & Hl & Hnd & _); [|set_solver]. cbn [app] in Hv.
    apply (walked_linked sha256 m Hm) in Hl as (Hne' & Hh & Hall & Hlk & Ht).
    apply bind_ok in Hv as (g & _ & Hv). rewrite guard_err_ok, bind_unit_ok, same_contract_ok in Hv. destruct Hv as (_ & Hk & Hr).
    destruct (result_of_ok _ _ Hr) as [-> _]. split_and!; try done.
    + split; [done|rewrite map_reverse; by rewrite reverse_Permutation|]. exists (cm_contract_id g). by apply Forall_reverse.
    + destruct l as [|c l]; [done|]. exists c. rewrite reverse_cons, last_snoc. split; [done|by apply Hh].
    + intros c Hc. rewrite <- commitment_map_spec. apply Hall. by apply elem_of_reverse.
  - intros ([Hlk Hnd [k Hk]] & Ht & (t & Hlast & Hh) & Hall & Hr).
    assert (Hwk : walked m h (reverse (chain v))).
    { apply (walked_linked sha256 m Hm). rewrite reverse_involutive. split_and!; try done.
      - intros E. apply (f_equal reverse) in E. rewrite reverse_involutive in E. by rewrite E in Hlast.
      - intros c. rewrite head_reverse, Hlast. by intros [= <-].
      - intros c Hc. rewrite elem_of_reverse in Hc. unfold m. rewrite commitment_map_spec. by apply Hall. }
    assert (Hlen : length (reverse (chain v)) <= length cs + 1).
    { rewrite length_reverse. transitivity (length cs); [|lia].
      assert (Hsub : chain v ⊆ cs).
      { intros c Hc. specialize (Hall c Hc). apply last_Some in Hall as (l' & E).
        assert (Hi : c ∈ List.filter (fun d => bool_decide (H d = H c)) cs) by (rewrite E; set_solver).
        apply list_elem_of_In, filter_In in Hi as [Hi _]. by apply list_elem_of_In. }
      apply submseteq_length, NoDup_submseteq; [by apply NoDup_fmap_1 in Hnd|done]. }
    rewrite (walk_complete sha256 m Hm _ [] ∅ h (reverse (chain v))); [|set_solver|done| |set_solver|done].
    + cbn [app]. f_equal. rewrite last_reverse. destruct (chain v) as [|g l] eqn:Ec; [done|]. cbn [head ok_or mbind result_bind].
      destruct Hlk as [Hg _]. rewrite bool_decide_true by done. cbn [negb guard_err].
      apply Forall_cons in Hk as [<- Hk]. rewrite (proj2 (same_contract_ok _ _ _)) by (apply Forall_reverse; by apply Forall_cons).
      cbn [mbind result_bind]. by rewrite reverse_involutive.
    + rewrite map_reverse. by rewrite reverse_Permutation.
Qed.
End Verifiers.

(** ** Properties *)

(** The walk from the latest hash is exact and always returns: within one turn more than
    there are commitments it gives an answer, and it accepts with a result exactly when the
    result's chain is a chain of one contract, its first commitment naming zero and each other
    one the hash of the one before it and not zero, with distinct hashes, ending in the given
    hash, each of them the last of the given commitments with its hash. *)
Theorem commitment_chain_exact sha256 cs h :
  exists r, verify_commitment_chain sha256 cs h = Some r /\
  forall v, r = Ok v <->
    is_chain sha256 (chain v) /\ (forall c, c ∈ tail (chain v) -> cm_previous c <> zero32)
    /\ (exists c, last (chain v) = Some c /\ commitment_hash sha256 c = h)
    /\ (forall c, c ∈ chain v ->
          last (List.filter (fun d => bool_decide (commitment_hash sha256 d = commitment_hash sha256 c)) cs) = Some c)
    /\ result_of (chain v) = Ok v.
Proof.
  assert (Hs : is_Some (verify_commitment_chain sha256 cs h)).
  { unfold verify_commitment_chain. case_bool_decide; [done|]. destruct (walk_total sha256 cs h) as [r ->]. by destruct r. }
  destruct Hs as [r Hr]. exists r. split; [done|]. intros v. rewrite <- (chain_ok_iff sha256 cs h v), Hr. naive_solver.
Qed.

(** The two verifiers of chains agree.  The chain the walk returns is accepted as it is
    listed, with the same result; and when no commitment of a listed chain hashes to zero, the
    walk from its last commitment's hash accepts the same commitments in any order, with the
    same result. *)
Theorem chain_verifiers_agree sha256 v :
  (forall cs h, verify_commitment_chain sha256 cs h = Some (Ok v) -> verify_ordered_commitment_chain sha256 (chain v) = Ok v)
  /\ (forall l cs c,
        verify_ordered_commitment_chain sha256 l = Ok v -> (forall d, d ∈ l -> commitment_hash sha256 d <> zero32) ->
        Permutation cs l -> last l = Some c -> verify_commitment_chain sha256 cs (commitment_hash sha256 c) = Some (Ok v)).
Proof.
  split.
  - intros cs h Hv. apply chain_ok_iff in Hv as (Hc & _ & _ & _ & Hr). by apply ordered_ok.
  - intros l cs c Hv Hnz Hp Hl. apply ordered_ok in Hv as [Hc Hr]. destruct (result_of_ok _ _ Hr) as [<- _].
    apply chain_ok_iff. split_and!; try done; [|by exists c|].
    + destruct Hc as [Hlk _ _]. revert Hlk Hnz. clear. destruct (chain v) as [|g k]; [intros _ _ x Hx; by apply not_elem_of_nil in Hx|]. intros [_ Hlk] Hnz. cbn [tail].
      assert (Hg : commitment_hash sha256 g <> zero32) by (apply Hnz; by left).
      assert (Hk : forall d, d ∈ k -> commitment_hash sha256 d <> zero32) by (intros d Hd; apply Hnz; by right). clear Hnz.
      revert g Hlk Hg. induction k as [|d k IH]; [intros g _ _ x Hx; by apply not_elem_of_nil in Hx|]. intros g [Hd Hlk] Hg x Hx.
      apply elem_of_cons in Hx as [->|Hx]; [congruence|]. apply (IH ltac:(set_solver) d Hlk); [set_solver|done].
    + intros d Hd. rewrite <- commitment_map_spec. apply map_distinct; [|by rewrite Hp].
      rewrite Hp. apply (ch_distinct _ _ Hc).
Qed.

Definition demo_first : Commitment := mkCommitment Byte.x01 zero32 zero32 (fill32 Byte.x07) zero32 zero32 zero32 zero32.
Definition demo_second : Commitment :=
  mkCommitment Byte.x01 zero32 zero32 (fill32 Byte.x07) (commitment_hash toy_hash demo_first) zero32 zero32 zero32.
Definition demo_result : VerificationResult :=
  mkResult [demo_first; demo_second] demo_first demo_second 2 (fill32 Byte.x07).
Lemma chain_verifiers_agree_witness :
  verify_commitment_chain toy_hash [demo_second; demo_first] (commitment_hash toy_hash demo_second) = Some (Ok demo_result).
Proof.
  refine (proj2 (chain_verifiers_agree toy_hash demo_result) [demo_first; demo_second] [demo_second; demo_first] demo_second _ _ _ _).
  - vm_compute. reflexivity.
  - intros d Hd. apply elem_of_cons in Hd as [->|Hd]; [|apply list_elem_of_singleton in Hd as ->];
      intros E; apply (f_equal (fun h => bool_decide (h = zero32))) in E; vm_compute in E; discriminate E.
  - apply perm_swap.
  - reflexivity.
Defined.

(** *** Bundles *)

Lemma hash_pair_comm sha256 a b : hash_pair sha256 a b = hash_pair sha256 b a.
Proof. exact (Merkle.combine_comm sha256 a b). Qed.
Lemma path_loop_fold sha256 i current index index' siblings :
  path_loop sha256 i current index siblings = Merkle.fold_proof sha256 current index' siblings.
Proof.
  revert i current index'. induction siblings as [|s siblings IH]; intros i current index'; [done|]. cbn [path_loop Merkle.fold_proof].
  rewrite <- (IH (i + 1)%N). f_equal. destruct (_ =? 0)%N; [done|]. exact (hash_pair_comm sha256 s current).
Qed.

Lemma is_zero_hash_spec h : is_zero_hash h = bool_decide (h = zero32).
Proof.
  unfold is_zero_hash. apply eq_true_iff_eq. rewrite bool_decide_eq_true, forallb_forall. split.
  - intros Hf. apply b32_inj. apply list_eq_same_length with 32; [by rewrite b32_length|by rewrite b32_length|].
    intros i x y _ Hx Hy. assert (x = Byte.x00) as ->.
    { specialize (Hf x). rewrite bool_decide_eq_true in Hf. apply Hf, list_elem_of_In. by eapply list_elem_of_lookup_2. }
    change (b32 zero32) with (replicate 32 Byte.x00) in Hy. by apply lookup_replicate in Hy as [-> _].
  - intros -> x Hx. apply bool_decide_eq_true. change (b32 zero32) with (replicate 32 Byte.x00) in Hx.
    apply list_elem_of_In, elem_of_replicate in Hx. naive_solver.
Qed.
Lemma else_true (c k : bool) : (if c then false else k) = true <-> c = false /\ k = true.
Proof. destruct c; naive_solver. Qed.

Lemma inclusion_valid_iff sha256 p index :
  validate_inclusion sha256 p = true <->
  length (ProofTaxonomy.inc_siblings p) <= MAX_SIBLINGS /\ ProofTaxonomy.leaf p <> zero32 /\ ProofTaxonomy.inc_root p <> zero32
  /\ Merkle.verify_merkle_proof sha256 (ProofTaxonomy.leaf p) (ProofTaxonomy.inc_siblings p) index (ProofTaxonomy.inc_root p) = true.
Proof.
  unfold validate_inclusion. rewrite !else_true, orb_false_iff, !is_zero_hash_spec, !bool_decide_eq_false, Nat.ltb_ge.
  assert (E : match ProofTaxonomy.inc_siblings p with
              | [] => bool_decide (ProofTaxonomy.leaf p = ProofTaxonomy.inc_root p)
              | siblings => verify_merkle_path sha256 (ProofTaxonomy.leaf p) siblings
                       (ProofTaxonomy.inc_leaf_index p) (ProofTaxonomy.inc_root p)
              end
              = Merkle.verify_merkle_proof sha256 (ProofTaxonomy.leaf p) (ProofTaxonomy.inc_siblings p) index (ProofTaxonomy.inc_root p)).
  { unfold verify_merkle_path, Merkle.verify_merkle_proof. destruct (ProofTaxonomy.inc_siblings p); [done|].
    by rewrite (path_loop_fold sha256 _ _ _ index). }
  rewrite E. tauto.
Qed.
Lemma finality_valid_iff p :
  validate_finality p = true <->
  ProofTaxonomy.fin_block_hash p <> zero32 /\ (MIN_CONFIRMATIONS <= ProofTaxonomy.confirmations p <= MAX_CONFIRMATIONS)%N
  /\ ProofTaxonomy.fin_data p <> [] /\ ProofTaxonomy.fin_source p <> ""%string.
Proof.
  unfold validate_finality. rewrite !else_true, is_zero_hash_spec, !bool_decide_eq_false, !N.ltb_ge. tauto.
Qed.

(** The validator of proofs and the verifier of the hash crate accept the same Merkle paths,
    whatever index each is given: the nodes of a pair are hashed in the order of their bytes,
    so neither depends on the index.  A bundle is valid exactly when its parts are within the
    size limits, its inclusion proof has a leaf and a root that are not zero and at most 256
    siblings that lead from one to the other, and its finality proof names a block, a source and
    some data, with from one to half of the 64-bit numbers of confirmations. *)
Theorem validate_bundle_exact sha256 b index :
  let inc := ProofTaxonomy.inclusion_proof b in
  let fin := ProofTaxonomy.finality_proof b in
  validate_bundle sha256 b = Valid <->
  length (ProofTaxonomy.proof_bytes inc) <= MAX_PROOF_BYTES /\ length (ProofTaxonomy.finality_data fin) <= MAX_PROOF_BYTES
  /\ length (ProofTaxonomy.inc_siblings inc) <= MAX_SIBLINGS
  /\ ProofTaxonomy.leaf inc <> zero32 /\ ProofTaxonomy.inc_root inc <> zero32
  /\ Merkle.verify_merkle_proof sha256 (ProofTaxonomy.leaf inc) (ProofTaxonomy.inc_siblings inc) index (ProofTaxonomy.inc_root inc) = true
  /\ ProofTaxonomy.fin_block_hash fin <> zero32
  /\ (MIN_CONFIRMATIONS <= ProofTaxonomy.confirmations fin <= MAX_CONFIRMATIONS)%N
  /\ ProofTaxonomy.fin_data fin <> [] /\ ProofTaxonomy.fin_source fin <> ""%string.
Proof.
  intros inc fin. pose proof (inclusion_valid_iff sha256 inc index) as Hi. pose proof (finality_valid_iff fin) as Hf.
  unfold validate_bundle. fold inc fin. repeat case_match; rewrite ?Nat.ltb_lt, ?Nat.ltb_ge, ?negb_true_iff, ?negb_false_iff in *;
    split; intros Hv; try done; try (destruct Hv as (? & ? & Hv); lia).
  - enough (validate_inclusion sha256 inc = true) by congruence. tauto.
  - enough (validate_finality fin = true) by congruence. tauto.
  - tauto.
Qed.

(** A proof made with [InclusionProof::new] has a zero leaf: it is never valid. *)
Lemma zero_leaf_refused sha256 b :
  ProofTaxonomy.leaf (ProofTaxonomy.inclusion_proof b) = zero32 -> validate_bundle sha256 b <> Valid.
Proof.
  intros Hz. unfold validate_bundle. repeat case_match; try done. rewrite negb_false_iff in *.
  pose proof (inclusion_valid_iff sha256 (ProofTaxonomy.inclusion_proof b) 0). tauto.
Qed.
