(* ===== verification/Consignment.v ===== *)
(** * Canonical envelopes and typed segments (csv-protocol/src/envelope.rs, seal_protocol.rs)

    The envelope of a Sanad with its commitment and its version-aware decoder, whose peek at
    the version is written over the bytes; and the segment between two anchors with its two
    codecs.  Canonical CBOR is a parameter. *)

From S2P Require Import Prelude Ord Bytes Hashing Dag DagCodec Signature Text Seal Resolution Reference ProofTaxonomy.

(** ** Envelopes *)

Inductive SignatureScheme := Secp256k1 | Ed25519.
Inductive EncodingType := CanonicalCbor.

Record CanonicalSanadEnvelope := mkEnvelope {
  protocol_version : N;
  sanad_id : Bytes32;
  sanad_type : Bytes32;
  issuer_id : Bytes32;
  body_hash : Bytes32;
  metadata_root : Bytes32;
  proof_root : Bytes32;
  seal_root : Bytes32;
  timestamp : N;
  nonce : N;
  parent_refs : list Bytes32;
  dependency_refs : list Bytes32;
  signature_scheme : SignatureScheme;
  canonical_encoding : EncodingType
}.

Definition CURRENT_VERSION : N := 1.

Definition check_version (e : CanonicalSanadEnvelope) : result ProtocolError unit :=
  reject (CURRENT_VERSION <? protocol_version e)%N
    with UnsupportedVersion (protocol_version e) CURRENT_VERSION ;;
  Ok tt.

(** [CanonicalSanadEnvelope::new]; the commitment it computes is thrown away. *)
Definition envelope_new (sanad_type issuer_id body_hash metadata_root proof_root seal_root : Bytes32)
    (timestamp nonce : N) (parent_refs dependency_refs : list Bytes32) (scheme : SignatureScheme)
  : CanonicalSanadEnvelope :=
  mkEnvelope CURRENT_VERSION zero32 sanad_type issuer_id body_hash metadata_root proof_root seal_root
    timestamp nonce parent_refs dependency_refs scheme CanonicalCbor.

(** [bytes\[i\]], within bounds checked before. *)
Definition byte_at (b : bytes) (i : nat) : N := Byte.to_N (nth i b Byte.x00).

(** [peek_protocol_version] *)
Definition peek_protocol_version (b : bytes) : result ProtocolError N :=
  reject bool_decide (b = []) with MalformedEnvelope ;;
  let major := N.land (byte_at b 0) 31 in
  let additional := N.shiftr (byte_at b 0) 5 in
  if (additional <? 24)%N then
    reject negb (major =? 95)%N with MalformedEnvelope ;;
    reject (length b <=? 1) with MalformedEnvelope ;;
    let string_major := N.land (byte_at b 1) 31 in
    reject negb (string_major =? 6)%N && negb (string_major =? 7)%N with MalformedEnvelope ;;
    let n := N.shiftr (byte_at b 1) 5 in
    '(string_len, pos) ← (if (n <? 24)%N then Ok (N.to_nat n, 2)
                          else if (n =? 24)%N then
                            reject (length b <=? 3) with MalformedEnvelope ;;
                            Ok (N.to_nat (byte_at b 2), 3)
                          else Err MalformedEnvelope);
    let pos := pos + string_len in
    reject (length b <=? pos) with MalformedEnvelope ;;
    let m := N.shiftr (byte_at b pos) 5 in
    let pos := pos + 1 in
    if (m <? 24)%N then Ok m
    else if (m =? 24)%N then
      reject (length b <=? pos + 1) with MalformedEnvelope ;;
      Ok (256 * byte_at b pos + byte_at b (pos + 1))%N
    else Err MalformedEnvelope
  else Err MalformedEnvelope.

Section Cbor.
Variable cbor : CanonicalSanadEnvelope -> result string bytes.
Variable of_cbor : bytes -> result string CanonicalSanadEnvelope.
Variable sha256 : bytes -> Bytes32.

(** What [CanonicalSanadEnvelope::commitment] hashes: the encoding, or a text that says why
    there is none. *)
Definition commitment_preimage (e : CanonicalSanadEnvelope) : bytes :=
  match cbor e with
  | Ok b => b
  | Err m => as_bytes ("sanad-envelope-canonical-serialization-error:" +:+ m)
  end.
Definition envelope_commitment (e : CanonicalSanadEnvelope) : Bytes32 :=
  csv_tagged_hash sha256 (as_bytes "sanad-envelope-v1") (commitment_preimage e).

Definition decode_envelope (b : bytes) : result ProtocolError CanonicalSanadEnvelope :=
  version ← peek_protocol_version b;
  if (version =? 1)%N then map_err PCodecError (of_cbor b)
  else Err (UnsupportedVersion version CURRENT_VERSION).
End Cbor.

(** ** Segments *)

Record DagSegment := mkSegment {
  anchor_from : Hash; anchor_to : Hash; transition_data : bytes; segment_proof : bytes
}.

(** [to_canonical_bytes], and [encode_mce], which writes the same. *)
Definition dag_segment_bytes (s : DagSegment) : bytes :=
  b32 (anchor_from s) ++ b32 (anchor_to s) ++ u32_le (blen (transition_data s)) ++ transition_data s ++
  u32_le (blen (segment_proof s)) ++ segment_proof s.
Definition dag_segment_encode (s : DagSegment) (f : EncodingFormat) : result CodecError bytes :=
  match f with MCE => Ok (dag_segment_bytes s) | ManualBinary => Ok (dag_segment_bytes s) end.

(** [from_canonical_bytes] *)
Definition dag_segment_from_canonical_bytes (b : bytes) : result string DagSegment :=
  '(from, b) ← read_b32 "Insufficient bytes for anchor_from"%string b;
  '(to, b) ← read_b32 "Insufficient bytes for anchor_to"%string b;
  '(data, b) ← read_sized "Insufficient bytes for transition_data length"%string
                 "Insufficient bytes for transition_data"%string b;
  '(proof, _) ← read_sized "Insufficient bytes for proof length"%string
                  "Insufficient bytes for proof"%string b;
  Ok (mkSegment from to data proof).

(** [decode_mce] *)
Definition dag_segment_decode_mce (b : bytes) : result CodecError DagSegment :=
  '(from, b) ← read_b32 (DeserializationError "Insufficient bytes for anchor_from") b;
  '(to, b) ← read_b32 (DeserializationError "Insufficient bytes for anchor_to") b;
  '(data, b) ← read_sized (DeserializationError "Insufficient bytes for transition_data length")
                 (DeserializationError "Insufficient bytes for transition_data") b;
  '(proof, _) ← read_sized (DeserializationError "Insufficient bytes for proof length")
                  (DeserializationError "Insufficient bytes for proof") b;
  Ok (mkSegment from to data proof).

Definition dag_segment_decode (b : bytes) (f : EncodingFormat) : result CodecError DagSegment :=
  match f with
  | MCE => dag_segment_decode_mce b
  | ManualBinary => map_err DeserializationError (dag_segment_from_canonical_bytes b)
  end.

(** ** Lemmas *)

Lemma low_bits_small n : (N.land n 31 < 32)%N.
Proof. change 31%N with (N.ones 5). rewrite N.land_ones. by apply N.mod_lt. Qed.

Lemma peek_refuses b : peek_protocol_version b = Err MalformedEnvelope.
Proof.
  unfold peek_protocol_version. case_bool_decide; [done|]. cbn [guard_err].
  pose proof (low_bits_small (byte_at b 0)) as Hm.
  destruct (N.shiftr (byte_at b 0) 5 <? 24)%N; [|done].
  by rewrite (proj2 (N.eqb_neq _ 95)) by lia.
Qed.

(** The envelope built carries no identifier, though it is said to be generated. *)
Lemma new_envelope_unidentified ty i b m p s t n ps ds sch :
  sanad_id (envelope_new ty i b m p s t n ps ds sch) = zero32.
Proof. done. Qed.

Lemma read_b32_iff {E} (e : E) b h rest : read_b32 e b = Ok (h, rest) <-> b = b32 h ++ rest.
Proof.
  split; [|intros ->; apply read_b32_app].
  unfold read_b32. intros ([x r] & Hx & H)%bind_ok. apply take_n_ok in Hx as [-> _].
  destruct (to_b32 x) as [h'|] eqn:Hh; [|done]. injection H as -> ->. apply to_b32_Some in Hh. by rewrite Hh.
Qed.

Lemma read_sized_iff {E} (e1 e2 : E) b x rest :
  read_sized e1 e2 b = Ok (x, rest) <-> b = u32_le (blen x) ++ x ++ rest /\ (blen x <= u32_max)%N.
Proof.
  split; [|intros [-> H]; by apply read_sized_app].
  unfold read_sized, read_u32_le. intros ([n r] & Hn & Hx)%bind_ok.
  apply bind_ok in Hn as ([l r'] & Hl & [= <- <-]). apply take_n_ok in Hl as [-> Hl], Hx as [-> Hx].
  pose proof (of_le_bytes_bound l) as Hb. unfold blen in Hb |- *. rewrite Hl in Hb.
  rewrite Hx, N2Nat.id. unfold u32_max. split; [|simpl in Hb; lia].
  unfold u32_le. by rewrite <- Hl, le_bytes_of_le_bytes.
Qed.

Lemma segment_read_iff b s :
  dag_segment_from_canonical_bytes b = Ok s <->
  (exists rest, b = dag_segment_bytes s ++ rest) /\
  (blen (transition_data s) <= u32_max)%N /\ (blen (segment_proof s) <= u32_max)%N.
Proof.
  unfold dag_segment_from_canonical_bytes. split.
  - intros ([f b1] & Hf & H)%bind_ok. apply bind_ok in H as ([t b2] & Ht & H).
    apply bind_ok in H as ([d b3] & Hd & H). apply bind_ok in H as ([p b4] & Hp & [= <-]).
    apply read_b32_iff in Hf as ->, Ht as ->. apply read_sized_iff in Hd as [-> Hd], Hp as [-> Hp].
    split; [|done]. exists b4. unfold dag_segment_bytes. cbn [anchor_from anchor_to transition_data segment_proof]. by rewrite <- !app_assoc.
  - intros ([rest ->] & Hd & Hp). unfold dag_segment_bytes. rewrite <- !app_assoc.
    rewrite (proj2 (read_b32_iff _ _ _ _) eq_refl). cbn [mbind result_bind].
    rewrite (proj2 (read_b32_iff _ _ _ _) eq_refl). cbn [mbind result_bind].
    rewrite read_sized_app by done. cbn [mbind result_bind]. rewrite read_sized_app by done. by destruct s.
Qed.

(** The two readers are copies of each other. *)
Lemma decode_mce_manual b :
  dag_segment_decode_mce b = map_err DeserializationError (dag_segment_from_canonical_bytes b).
Proof.
  unfold dag_segment_decode_mce, dag_segment_from_canonical_bytes, read_b32, read_sized, read_u32_le, take_n.
  repeat first [case_decide; cbn [mbind result_bind map_err]; [|done]
               |case_match; cbn [mbind result_bind map_err]; [|done]]; done.
Qed.

(** ** Theorems *)

(** no envelope is decoded.  Whatever the bytes and the CBOR reader, the version-aware
    decoder answers that the envelope is malformed: its peek compares five bits with a value
    they cannot have. *)
Theorem envelope_never_decoded (of_cbor : bytes -> result string CanonicalSanadEnvelope) (b : bytes) :
  decode_envelope of_cbor b = Err MalformedEnvelope.
Proof. unfold decode_envelope. by rewrite peek_refuses. Qed.

(** an envelope's commitment binds it.  Two envelopes that are encoded and have the same
    commitment are the same, unless their two preimages collide. *)
Theorem envelope_commitment_binds (cbor : CanonicalSanadEnvelope -> result string bytes)
    (sha256 : bytes -> Bytes32)
    (Hcbor : forall d e b, cbor d = Ok b -> cbor e = Ok b -> d = e) (d e : CanonicalSanadEnvelope)
    (Hd : is_ok (cbor d) = true) (He : is_ok (cbor e) = true)
    (H : envelope_commitment cbor sha256 d = envelope_commitment cbor sha256 e) :
  d = e \/ collision_in sha256 [csv_preimage sha256 (as_bytes "sanad-envelope-v1") (commitment_preimage cbor d);
                             csv_preimage sha256 (as_bytes "sanad-envelope-v1") (commitment_preimage cbor e)].
Proof.
  unfold envelope_commitment in H. hash_inj H. left.
  apply is_ok_inv in Hd as [b Hb], He as [b' Hb']. unfold commitment_preimage in H.
  rewrite Hb, Hb' in H. subst b'. by apply (Hcbor d e b).
Qed.

(** segments.  Both formats write the same bytes; in either, a segment is read exactly
    from the bytes it is written as, with anything after them, when both its parts have a
    length of 32 bits. *)
Theorem dag_segment_exact (b : bytes) (s : DagSegment) (f g : EncodingFormat) :
  dag_segment_encode s f = dag_segment_encode s g /\
  (dag_segment_decode b f = Ok s <->
   (exists rest, b = dag_segment_bytes s ++ rest) /\
   (blen (transition_data s) <= u32_max)%N /\ (blen (segment_proof s) <= u32_max)%N).
Proof.
  split; [by destruct f, g|]. unfold dag_segment_decode.
  destruct f; rewrite ?decode_mce_manual, map_err_ok; apply segment_read_iff.
Qed.

(** ** Witness *)

Global Instance Scheme_eq_dec : EqDecision SignatureScheme.
Proof. solve_decision. Defined.
Global Instance Encoding_eq_dec : EqDecision EncodingType.
Proof. solve_decision. Defined.
Global Instance Envelope_eq_dec : EqDecision CanonicalSanadEnvelope.
Proof. solve_decision. Defined.

Definition demo_envelope : CanonicalSanadEnvelope :=
  envelope_new (fill32 Byte.x01) (fill32 Byte.x02) (fill32 Byte.x03) zero32 zero32 zero32 17 42 []
    [fill32 Byte.x04] Ed25519.
Definition demo_envelope_cbor (e : CanonicalSanadEnvelope) : result string bytes :=
  if decide (e = demo_envelope) then Ok [Byte.xae] else Err "unsupported"%string.

Lemma envelope_commitment_binds_witness :
  demo_envelope = demo_envelope \/
  collision_in toy_hash [csv_preimage toy_hash (as_bytes "sanad-envelope-v1") [Byte.xae];
                         csv_preimage toy_hash (as_bytes "sanad-envelope-v1") [Byte.xae]].
Proof.
  apply (envelope_commitment_binds demo_envelope_cbor toy_hash) with (d := demo_envelope) (e := demo_envelope); try by vm_compute.
  intros d e b. unfold demo_envelope_cbor.
  destruct (decide (d = demo_envelope)) as [->|]; [|done].
  by destruct (decide (e = demo_envelope)) as [->|].
Defined.

(** * Seal definitions, invoices and consignments
    (csv-wire/src/seal.rs, invoice.rs, consignment.rs)

    A recipient names a seal and a nonce in an invoice.  A first-version consignment carries
    a proof bundle whose seal is compared with the invoice's.  A portable consignment
    carries the resolved successor, the proof that its source was closed to it, the invoice,
    what the recipient must obtain, and authorizations of the commitment to all of this.
    Canonical CBOR is a parameter: writers that may fail, and a reader. *)

(** ** Seal definitions *)

Definition SEAL_ID32_LEN : N := 32.
Definition SEAL_ETH_ADDR_LEN : N := 20.
Definition SEAL_APTOS_KEY_MAX_LEN : N := 512.

Inductive SealDefinition :=
| SdBitcoin (txid : bytes) (vout : N)
| SdSui (object_id : bytes) (version : N)
| SdAptos (resource_address key : bytes)
| SdEthereum (contract slot : bytes)
| SdSolana (account : bytes).
Global Instance SealDefinition_eq_dec : EqDecision SealDefinition.
Proof. solve_decision. Defined.

(** [SealDefinition::bitcoin], [sui], [aptos], [ethereum], [solana] *)
Definition sd_bitcoin (txid : bytes) (vout : N) : result string SealDefinition :=
  reject negb (blen txid =? SEAL_ID32_LEN)%N with "bitcoin txid must be 32 bytes"%string ;;
  Ok (SdBitcoin txid vout).
Definition sd_sui (object_id : bytes) (version : N) : result string SealDefinition :=
  reject negb (blen object_id =? SEAL_ID32_LEN)%N with "sui object_id must be 32 bytes"%string ;;
  Ok (SdSui object_id version).
Definition sd_aptos (resource_address key : bytes) : result string SealDefinition :=
  reject negb (blen resource_address =? SEAL_ID32_LEN)%N
    with "aptos resource_address must be 32 bytes"%string ;;
  reject (blen key =? 0)%N with "aptos key must not be empty"%string ;;
  reject (SEAL_APTOS_KEY_MAX_LEN <? blen key)%N with "aptos key exceeds 512 bytes"%string ;;
  Ok (SdAptos resource_address key).
Definition sd_ethereum (contract slot : bytes) : result string SealDefinition :=
  reject negb (blen contract =? SEAL_ETH_ADDR_LEN)%N with "ethereum contract must be 20 bytes"%string ;;
  reject negb (blen slot =? SEAL_ID32_LEN)%N with "ethereum slot must be 32 bytes"%string ;;
  Ok (SdEthereum contract slot).
Definition sd_solana (account : bytes) : result string SealDefinition :=
  reject negb (blen account =? SEAL_ID32_LEN)%N with "solana account must be 32 bytes"%string ;;
  Ok (SdSolana account).

Definition sd_chain (d : SealDefinition) : string :=
  match d with
  | SdBitcoin _ _ => "bitcoin" | SdSui _ _ => "sui" | SdAptos _ _ => "aptos"
  | SdEthereum _ _ => "ethereum" | SdSolana _ => "solana"
  end.

(** [SealDefinition::to_seal_point] *)
Definition sd_layout (d : SealDefinition) : bytes * option N :=
  match d with
  | SdBitcoin txid vout => (txid ++ u32_le vout, None)
  | SdSui object_id version => (object_id, Some version)
  | SdAptos address key => (address ++ key, None)
  | SdEthereum contract slot => (contract ++ slot, None)
  | SdSolana account => (account, None)
  end.
Definition to_seal_point (d : SealDefinition) (nonce : option N) : result string SealPoint :=
  SealPoint_new (fst (sd_layout d)) nonce (snd (sd_layout d)).

(** ** Invoices *)

Definition INVOICE_VERSION : N := 1.
Definition INVOICE_ID_DOMAIN : string := "csv.wire.invoice.v1".

Record Invoice := mkInvoice {
  iv_version : N;
  iv_seal : SealDefinition;
  iv_schema_id : bytes;
  iv_nonce : N
}.

Definition Invoice_new (seal : SealDefinition) (schema_id : bytes) (nonce : N) : result string Invoice :=
  reject bool_decide (schema_id = []) with "invoice schema_id must not be empty"%string ;;
  Ok (mkInvoice INVOICE_VERSION seal schema_id nonce).

Definition bound_seal_point (i : Invoice) : result string SealPoint :=
  to_seal_point (iv_seal i) (Some (iv_nonce i)).

(** [csv_codec::canonical_hash]: the domain's text directly before the encoding. *)
Definition canonical_hash {T} (sha256 : bytes -> Bytes32) (cbor : T -> result string bytes)
    (domain : string) (v : T) : result string bytes :=
  b ← cbor v; Ok (b32 (sha256 (as_bytes domain ++ b))).

Definition invoice_canonical_id (sha256 : bytes -> Bytes32) (cbor : Invoice -> result string bytes)
    (i : Invoice) : result string bytes := canonical_hash sha256 cbor INVOICE_ID_DOMAIN i.

(** ** First-version consignments *)

Definition CONSIGNMENT_VERSION : N := 1.

Record Consignment := mkConsignment {
  cn_version : N;
  cn_invoice : Invoice;
  cn_sanad_id : SanadIdWire;
  cn_proof_bundle : ProofBundle
}.

Definition Consignment_new (invoice : Invoice) (sanad : SanadIdWire) (bundle : ProofBundle) : Consignment :=
  mkConsignment CONSIGNMENT_VERSION invoice sanad bundle.

Definition binds_invoice_seal (c : Consignment) : result string bool :=
  expected ← bound_seal_point (cn_invoice c);
  Ok (bool_decide (seal_ref (cn_proof_bundle c) = expected)).

(** ** Portable consignments *)

Definition CONSIGNMENT_V2_PROTOCOL_VERSION : N := 2.
Definition CONSIGNMENT_V2_ENVELOPE_VERSION : N := 2.
Definition CONSIGNMENT_V2_COMMITMENT_TAG : string := "consignment-v2".

Record ConsignmentAuthorization := mkAuthorization {
  au_scheme : SignatureScheme;
  au_public_key : bytes;
  au_signature : bytes;
  au_signed_commitment : Hash
}.

Record ConsignmentProofRequirements := mkRequirements {
  rq_checkpoint : FinalizedCheckpoint;
  rq_trust_mode : ClosureTrustMode;
  rq_proof_provider_id : string;
  rq_verification_context : Hash;
  rq_maximum_checkpoint_age : N
}.

Record ConsignmentV2Payload := mkPayload {
  pl_protocol_version : N;
  pl_envelope_version : N;
  pl_source : ConsumedStateRef;
  pl_successor : ResolvedTransition;
  pl_source_closure : ClosureProof;
  pl_destination : Invoice;
  pl_proof_requirements : ConsignmentProofRequirements
}.

Record ConsignmentV2 := mkV2 {
  v2_payload : ConsignmentV2Payload;
  v2_commitment : Hash;
  v2_authorizations : list ConsignmentAuthorization
}.

Global Instance OutputUseBinding_eq_dec : EqDecision OutputUseBinding.
Proof. solve_decision. Defined.
Global Instance ParentOutput_eq_dec : EqDecision ParentOutput.
Proof. solve_decision. Defined.
Global Instance SealPointWire_eq_dec : EqDecision SealPointWire.
Proof. solve_decision. Defined.
Global Instance StateAssignment_eq_dec : EqDecision StateAssignment.
Proof. solve_decision. Defined.
Global Instance ResolvedInput_eq_dec : EqDecision ResolvedInput.
Proof. solve_decision. Defined.
Global Instance ResolvedTransition_eq_dec : EqDecision ResolvedTransition.
Proof. solve_decision. Defined.
Global Instance ClosureProofKind_eq_dec : EqDecision ClosureProofKind.
Proof. solve_decision. Defined.
Global Instance ClosureProof_eq_dec : EqDecision ClosureProof.
Proof. solve_decision. Defined.
Global Instance FinalityPolicy_eq_dec : EqDecision FinalityPolicy.
Proof. solve_decision. Defined.
Global Instance FinalizedCheckpoint_eq_dec : EqDecision FinalizedCheckpoint.
Proof. solve_decision. Defined.
Global Instance ClosureTrustMode_eq_dec : EqDecision ClosureTrustMode.
Proof. solve_decision. Defined.
Global Instance Invoice_eq_dec : EqDecision Invoice.
Proof. solve_decision. Defined.
Global Instance Requirements_eq_dec : EqDecision ConsignmentProofRequirements.
Proof. solve_decision. Defined.
Global Instance Authorization_eq_dec : EqDecision ConsignmentAuthorization.
Proof. solve_decision. Defined.
Global Instance Payload_eq_dec : EqDecision ConsignmentV2Payload.
Proof. solve_decision. Defined.
Global Instance ConsignmentV2_eq_dec : EqDecision ConsignmentV2.
Proof. solve_decision. Defined.

(** The code of an error; the text beside it is for a reader. *)
Inductive ConsignmentV2ErrorCode :=
| MalformedEncoding | NonCanonicalEncoding | UnsupportedProtocolVersion
| UnsupportedEnvelopeVersion | SourceTransitionMismatch | ClosureSourceMismatch
| ClosureSuccessorMismatch | InvalidClosureProof | DestinationMismatch
| InvalidProofRequirements | CommitmentMismatch | MissingAuthorization | InvalidAuthorization.

Definition Payload_new (source : ConsumedStateRef) (successor : ResolvedTransition)
    (closure : ClosureProof) (destination : Invoice) (requirements : ConsignmentProofRequirements)
  : ConsignmentV2Payload :=
  mkPayload CONSIGNMENT_V2_PROTOCOL_VERSION CONSIGNMENT_V2_ENVELOPE_VERSION source successor closure
    destination requirements.

Section Portable.
Variable sha256 : bytes -> Bytes32.
(** [to_canonical_cbor] of a payload and of a consignment, [from_canonical_cbor]. *)
Variable payload_cbor : ConsignmentV2Payload -> result string bytes.
Variable v2_cbor : ConsignmentV2 -> result string bytes.
Variable v2_of_cbor : bytes -> result string ConsignmentV2.

(** [ConsignmentV2Payload::commitment] *)
Definition payload_commitment (p : ConsignmentV2Payload) : result ConsignmentV2ErrorCode Hash :=
  b ← map_err (fun _ => MalformedEncoding) (payload_cbor p);
  Ok (csv_tagged_hash sha256 (as_bytes CONSIGNMENT_V2_COMMITMENT_TAG) b).

(** What it hashes. *)
Definition payload_hashed (p : ConsignmentV2Payload) : list bytes :=
  csv_preimage sha256 (as_bytes CONSIGNMENT_V2_COMMITMENT_TAG) <$> ok_list (payload_cbor p).

(** The closure over the outputs, and the one over the authorizations. *)
Definition assigned_to (destination : SealPoint) (o : StateAssignment) : bool :=
  match seal_of_wire (sa_seal o) with Ok s => bool_decide (s = destination) | Err _ => false end.
Definition misbound (commitment : Hash) (a : ConsignmentAuthorization) : bool :=
  negb (bool_decide (au_signed_commitment a = commitment)) ||
  bool_decide (au_public_key a = []) || bool_decide (au_signature a = []).

(** [ConsignmentV2::validate] *)
Definition v2_validate (c : ConsignmentV2) : result ConsignmentV2ErrorCode unit :=
  let p := v2_payload c in
  reject negb (pl_protocol_version p =? CONSIGNMENT_V2_PROTOCOL_VERSION)%N
    with UnsupportedProtocolVersion ;;
  reject negb (pl_envelope_version p =? CONSIGNMENT_V2_ENVELOPE_VERSION)%N
    with UnsupportedEnvelopeVersion ;;
  i ← ok_or SourceTransitionMismatch
        (List.find (fun i => bool_decide (ri_reference i = pl_source p)) (rt_inputs (pl_successor p)));
  reject negb (bool_decide (parent_reference (ri_parent i) = pl_source p)) ||
         negb (bool_decide (recorded_commitment (ri_parent i) = content_commitment sha256 (ri_parent i)))
    with SourceTransitionMismatch ;;
  reject negb (bool_decide (consumed_state (pl_source_closure p) = pl_source p))
    with ClosureSourceMismatch ;;
  reject negb (bool_decide (successor_commitment (pl_source_closure p)
                            = resolved_commitment sha256 (pl_successor p)))
    with ClosureSuccessorMismatch ;;
  _ ← map_err (fun _ => InvalidClosureProof) (closure_validate (pl_source_closure p));
  d ← map_err (fun _ => DestinationMismatch) (bound_seal_point (pl_destination p));
  reject negb (existsb (assigned_to d) (rt_outputs (pl_successor p))) with DestinationMismatch ;;
  let r := pl_proof_requirements p in
  _ ← map_err (fun _ => InvalidProofRequirements) (checkpoint_validate (rq_checkpoint r));
  reject str_empty (rq_proof_provider_id r) || bool_decide (rq_verification_context r = Hash.zero) ||
         (rq_maximum_checkpoint_age r =? 0)%N
    with InvalidProofRequirements ;;
  expected ← payload_commitment p;
  reject negb (bool_decide (v2_commitment c = expected)) with CommitmentMismatch ;;
  reject bool_decide (length (v2_authorizations c) = 0) with MissingAuthorization ;;
  reject existsb (misbound (v2_commitment c)) (v2_authorizations c) with InvalidAuthorization ;;
  Ok tt.

(** [ConsignmentV2::new], [with_authorizations] *)
Definition v2_new (p : ConsignmentV2Payload) : result ConsignmentV2ErrorCode ConsignmentV2 :=
  h ← payload_commitment p; Ok (mkV2 p h []).
Definition with_authorizations (c : ConsignmentV2) (l : list ConsignmentAuthorization)
  : result ConsignmentV2ErrorCode ConsignmentV2 :=
  let c := mkV2 (v2_payload c) (v2_commitment c) l in
  _ ← v2_validate c; Ok c.

(** [ConsignmentV2::canonical_cbor], [decode_v2] *)
Definition v2_canonical_cbor (c : ConsignmentV2) : result ConsignmentV2ErrorCode bytes :=
  _ ← v2_validate c; map_err (fun _ => MalformedEncoding) (v2_cbor c).
Definition decode_v2 (b : bytes) : result ConsignmentV2ErrorCode ConsignmentV2 :=
  c ← map_err (fun _ => MalformedEncoding) (v2_of_cbor b);
  canonical ← map_err (fun _ => MalformedEncoding) (v2_cbor c);
  reject negb (bool_decide (canonical = b)) with NonCanonicalEncoding ;;
  _ ← v2_validate c;
  Ok c.
End Portable.

(** ** What the definitions establish *)

(** The lengths the constructors enforce. *)
Definition sd_ok (d : SealDefinition) : Prop :=
  match d with
  | SdBitcoin txid vout => length txid = 32 /\ (vout <= u32_max)%N
  | SdSui object_id _ => length object_id = 32
  | SdAptos address key => length address = 32 /\ 0 < length key <= 512
  | SdEthereum contract slot => length contract = 20 /\ length slot = 32
  | SdSolana account => length account = 32
  end.

(** An Aptos resource whose address and key spell an outpoint or a contract's slot. *)
Definition spells (d d' : SealDefinition) : Prop :=
  match d, d' with
  | SdBitcoin txid vout, SdAptos address key => address = txid /\ key = u32_le vout
  | SdEthereum contract slot, SdAptos address key => address ++ key = contract ++ slot
  | _, _ => False
  end.

Lemma sd_constructors_ok d :
  (exists t v, sd_bitcoin t v = Ok d /\ (v <= u32_max)%N) \/ (exists o v, sd_sui o v = Ok d) \/
  (exists a k, sd_aptos a k = Ok d) \/ (exists c s, sd_ethereum c s = Ok d) \/
  (exists a, sd_solana a = Ok d) -> sd_ok d.
Proof.
  unfold sd_bitcoin, sd_sui, sd_aptos, sd_ethereum, sd_solana,
    SEAL_ID32_LEN, SEAL_ETH_ADDR_LEN, SEAL_APTOS_KEY_MAX_LEN, blen.
  intros [(t & v & H & Hv)|[(o & v & H)|[(a & k & H)|[(c & s & H)|(a & H)]]]];
    rewrite !guard_err_ok, ?negb_false_iff, ?N.eqb_eq in H; simpl.
  - destruct H as [H [= <-]]. simpl. lia.
  - destruct H as [H [= <-]]. simpl. lia.
  - rewrite N.eqb_neq, N.ltb_ge in H. destruct H as (H & Hk & Hk' & [= <-]). simpl. lia.
  - destruct H as (H & H' & [= <-]). simpl. lia.
  - destruct H as [H [= <-]]. simpl. lia.
Qed.

Lemma layout_length d : sd_ok d -> 0 < length (fst (sd_layout d)) <= 544.
Proof.
  destruct d; simpl; rewrite ?length_app, ?length_u32_le; lia.
Qed.

Lemma to_seal_point_ok d n : sd_ok d ->
  to_seal_point d n = Ok (mkSealPoint (fst (sd_layout d)) n (snd (sd_layout d))).
Proof.
  intros H%layout_length. unfold to_seal_point, SealPoint_new, MAX_SEAL_ID_SIZE, blen.
  rewrite guard_err_ok, N.ltb_ge. split; [lia|]. rewrite guard_err_ok, N.eqb_neq. split; [lia|done].
Qed.

Lemma layout_shared d d' : sd_ok d -> sd_ok d' ->
  sd_layout d = sd_layout d' <-> d = d' \/ spells d d' \/ spells d' d.
Proof.
  intros H H'. split.
  2: { intros [->|[E|E]]; [done| |]; destruct d, d'; simpl in *; try done;
       [destruct E as [-> ->]; done|by rewrite E|destruct E as [-> ->]; done|by rewrite E]. }
  destruct d as [t v|o v|a k|c s|a], d' as [t' v'|o' v'|a' k'|c' s'|a']; simpl in *;
    intros [= E]; try done; try (pose proof (f_equal (@length _) E) as El;
      rewrite ?length_app, ?length_u32_le in El); try lia.
  - apply app_eq_length_inj in E as [-> E]; [|lia]. left. f_equal. apply u32_le_inj; tauto.
  - apply app_eq_length_inj in E as [-> E]; [|lia]. right; left. done.
  - left. by subst.
  - apply app_eq_length_inj in E as [-> E]; [|lia]. right; right. done.
  - left. apply app_eq_length_inj in E as [-> ->]; [done|lia].
  - right; right. done.
  - right; left. done.
  - left. apply app_eq_length_inj in E as [-> ->]; [done|lia].
  - left. by subst.
Qed.

(** One bundle delivers against two invoices: the seal it names says neither the chain nor
    the schema. *)
Definition outpoint_invoice : Invoice :=
  mkInvoice 1 (SdBitcoin (replicate 32 Byte.xab) 67305985) [Byte.x01] 9.
Definition resource_invoice : Invoice :=
  mkInvoice 1 (SdAptos (replicate 32 Byte.xab) [Byte.x01; Byte.x02; Byte.x03; Byte.x04]) [Byte.x02] 9.
Lemma one_bundle_two_invoices sanad bundle :
  binds_invoice_seal (Consignment_new outpoint_invoice sanad bundle)
  = binds_invoice_seal (Consignment_new resource_invoice sanad bundle) /\
  sd_ok (iv_seal outpoint_invoice) /\ sd_ok (iv_seal resource_invoice).
Proof. split; [done|]. split; simpl; [by split; [|vm_compute]|by split; [|lia]]. Qed.

Section Facts.
Context (sha256 : bytes -> Bytes32) (payload_cbor : ConsignmentV2Payload -> result string bytes)
  (v2_cbor : ConsignmentV2 -> result string bytes) (v2_of_cbor : bytes -> result string ConsignmentV2).

(** What a validated consignment establishes. *)
Record v2_valid (c : ConsignmentV2) : Prop := {
  vv_versions : pl_protocol_version (v2_payload c) = 2%N /\ pl_envelope_version (v2_payload c) = 2%N;
  vv_source : exists i,
    List.find (fun i => bool_decide (ri_reference i = pl_source (v2_payload c)))
      (rt_inputs (pl_successor (v2_payload c))) = Some i /\
    parent_reference (ri_parent i) = pl_source (v2_payload c) /\
    recorded_commitment (ri_parent i) = content_commitment sha256 (ri_parent i);
  vv_closed : consumed_state (pl_source_closure (v2_payload c)) = pl_source (v2_payload c) /\
    successor_commitment (pl_source_closure (v2_payload c))
    = resolved_commitment sha256 (pl_successor (v2_payload c)) /\
    closure_validate (pl_source_closure (v2_payload c)) = Ok tt;
  vv_destination : exists d o, bound_seal_point (pl_destination (v2_payload c)) = Ok d /\
    o ∈ rt_outputs (pl_successor (v2_payload c)) /\ seal_of_wire (sa_seal o) = Ok d;
  vv_requirements :
    checkpoint_validate (rq_checkpoint (pl_proof_requirements (v2_payload c))) = Ok tt /\
    rq_proof_provider_id (pl_proof_requirements (v2_payload c)) <> ""%string /\
    rq_verification_context (pl_proof_requirements (v2_payload c)) <> Hash.zero /\
    rq_maximum_checkpoint_age (pl_proof_requirements (v2_payload c)) <> 0%N;
  vv_commitment : payload_commitment sha256 payload_cbor (v2_payload c) = Ok (v2_commitment c);
  vv_authorized : v2_authorizations c <> [] /\
    Forall (fun a => au_signed_commitment a = v2_commitment c /\ au_public_key a <> [] /\
                     au_signature a <> []) (v2_authorizations c)
}.

Lemma map_err_tt {E F} (f : E -> F) (r : result E unit) u : map_err f r = Ok u <-> r = Ok tt.
Proof. rewrite map_err_ok. destruct u. done. Qed.

Lemma assigned_to_ok d l :
  existsb (assigned_to d) l = true <-> exists o, o ∈ l /\ seal_of_wire (sa_seal o) = Ok d.
Proof.
  rewrite existsb_exists. apply exist_proper. intros o. unfold assigned_to.
  rewrite list_elem_of_In.
  destruct (seal_of_wire (sa_seal o)); rewrite ?bool_decide_eq_true; naive_solver.
Qed.

Lemma misbound_none h l :
  existsb (misbound h) l = false <->
  Forall (fun a => au_signed_commitment a = h /\ au_public_key a <> [] /\ au_signature a <> []) l.
Proof.
  induction l as [|a l IH]; simpl; [split; [constructor|done]|].
  rewrite orb_false_iff, Forall_cons, IH. unfold misbound.
  rewrite !orb_false_iff, negb_false_iff, bool_decide_eq_true, !bool_decide_eq_false. tauto.
Qed.

Lemma v2_validate_valid c : v2_validate sha256 payload_cbor c = Ok tt <-> v2_valid c.
Proof.
  unfold v2_validate, CONSIGNMENT_V2_PROTOCOL_VERSION, CONSIGNMENT_V2_ENVELOPE_VERSION, str_empty.
  rewrite !guard_err_ok, !negb_false_iff, !N.eqb_eq, bind_ok. split.
  - intros (Hp & He & i & Hi & H).
    rewrite !guard_err_ok, orb_false_iff, !negb_false_iff, !bool_decide_eq_true, bind_ok in H.
    destruct H as ([Hr Hc] & Hs & Hk & [] & Hcl & H). apply map_err_tt in Hcl.
    apply bind_ok in H as (d & Hd & H). apply map_err_ok in Hd.
    rewrite guard_err_ok, negb_false_iff, assigned_to_ok, bind_ok in H.
    destruct H as ((o & Ho & Hseal) & [] & Hck & H). apply map_err_tt in Hck.
    rewrite guard_err_ok, !orb_false_iff, !bool_decide_eq_false, N.eqb_neq, bind_ok in H.
    destruct H as ([[Hpr Hcx] Hag] & h & Hh & H).
    rewrite !guard_err_ok, negb_false_iff, bool_decide_eq_true, bool_decide_eq_false, misbound_none in H.
    destruct H as (<- & Hn & Ha & _).
    split; try done.
    + exists i. destruct (List.find _ _) eqn:E; [|done]. cbn in Hi. injection Hi as ->. done.
    + by exists d, o.
    + split; [|done]. by intros E%length_zero_iff_nil.
  - intros [[Hp He] (i & Hi & Hr & Hc) (Hs & Hk & Hcl) (d & o & Hd & Ho) (Hck & Hpr & Hcx & Hag) Hh [Hn Ha]].
    split; [done|]. split; [done|]. exists i. split; [by rewrite Hi|].
    rewrite !guard_err_ok, orb_false_iff, !negb_false_iff, !bool_decide_eq_true, bind_ok.
    split; [done|]. split; [done|]. split; [done|]. exists tt. split; [by apply map_err_tt|].
    rewrite Hd. cbn [map_err mbind result_bind].
    rewrite guard_err_ok, negb_false_iff, assigned_to_ok, bind_ok.
    split; [by exists o|]. exists tt. split; [by apply map_err_tt|].
    rewrite guard_err_ok, !orb_false_iff, !bool_decide_eq_false, N.eqb_neq, bind_ok.
    split; [done|]. exists (v2_commitment c). split; [done|].
    rewrite !guard_err_ok, negb_false_iff, bool_decide_eq_true, bool_decide_eq_false, misbound_none.
    split; [done|]. split; [|done]. by intros E%length_zero_iff_nil.
Qed.
End Facts.

(** What resolution from parents in memory gives: every input names its parent. *)
Lemma resolved_inputs_reproduced sha256 t (source : list ParentOutput) schema signers rt :
  resolve_transition sha256 t source schema signers = Ok rt ->
  Forall (fun i => parent_reference (ri_parent i) = ri_reference i /\
                   recorded_commitment (ri_parent i) = content_commitment sha256 (ri_parent i))
    (rt_inputs rt).
Proof.
  unfold resolve_transition. intros (refs & _ & H)%bind_ok.
  apply bind_ok in H as (ins & Hins & H). apply bind_ok in H as (? & _ & [= <-]). cbn [rt_inputs].
  apply resolve_inputs_ok in Hins as (H & _ & _).
  induction H as [|r i refs ins Hi _ IH]; constructor; [|done].
  apply resolve_input_ok in Hi as (p & [Hu Ht _ Hc _] & ->). cbn [ri_parent ri_reference].
  split; [|done]. assert (Hin : In p (ps_outputs source (transition_id r) (output_index r)))
    by (rewrite Hu; by left).
  apply filter_In in Hin as [_ E]. apply andb_true_iff in E as [E1 E2].
  apply bool_decide_eq_true in E1. apply N.eqb_eq in E2.
  unfold parent_reference. destruct r; simpl in *. by rewrite E1, E2, Ht.
Qed.

(** ** Theorems *)

(** seal definitions.  Two definitions whose parts have the lengths the constructors
    enforce give the same seal point exactly when the nonces agree and the definitions are
    the same, or one is an Aptos resource whose address and key spell the other's outpoint or
    contract slot: within a chain a seal point names one seal, and it does not name its chain. *)
Theorem seal_points_shared (d d' : SealDefinition) (n n' : option N) (Hd : sd_ok d) (Hd' : sd_ok d') :
  to_seal_point d n = to_seal_point d' n' <-> n = n' /\ (d = d' \/ spells d d' \/ spells d' d).
Proof.
  rewrite !to_seal_point_ok, <- layout_shared by done.
  destruct (sd_layout d), (sd_layout d'). simpl. split; [by intros [= -> -> ->]|by intros [-> [= -> ->]]].
Qed.

(** portable consignments.  One is valid exactly when both versions are 2, the first
    input of the successor with the source's reference was resolved to a parent of that
    reference whose recorded commitment is its content's, the closure proof closes that
    source to the successor's commitment and validates, an output is assigned to the
    invoice's seal with its nonce, the checkpoint validates and provider, context and age are
    given, the stored commitment is the payload's, and there are authorizations, all of that
    commitment, with keys and signatures that are not empty. *)
Theorem v2_validate_exact (sha256 : bytes -> Bytes32) (payload_cbor : ConsignmentV2Payload -> result string bytes)
    (c : ConsignmentV2) :
  v2_validate sha256 payload_cbor c = Ok tt <-> v2_valid sha256 payload_cbor c.
Proof. apply v2_validate_valid. Qed.

(** reading a consignment.  When the reader gives back what the writer wrote, bytes are
    read as a consignment exactly when they are what that consignment is written as: there
    is one accepted form of each valid consignment, and nothing else is accepted. *)
Theorem decode_v2_exact (sha256 : bytes -> Bytes32) (payload_cbor : ConsignmentV2Payload -> result string bytes)
    (v2_cbor : ConsignmentV2 -> result string bytes) (v2_of_cbor : bytes -> result string ConsignmentV2)
    (Hcbor : forall c b, v2_cbor c = Ok b -> v2_of_cbor b = Ok c) (b : bytes) (c : ConsignmentV2) :
  decode_v2 sha256 payload_cbor v2_cbor v2_of_cbor b = Ok c <->
  v2_canonical_cbor sha256 payload_cbor v2_cbor c = Ok b.
Proof.
  unfold decode_v2, v2_canonical_cbor. split.
  - intros (c' & _ & H)%bind_ok. apply bind_ok in H as (b' & Hb & H). apply map_err_ok in Hb.
    rewrite guard_err_ok, negb_false_iff, bool_decide_eq_true in H. destruct H as [-> H].
    apply bind_ok in H as (u & Hv & [= ->]). rewrite Hv. cbn. by rewrite Hb.
  - intros (u & Hv & H)%bind_ok. apply map_err_ok in H. rewrite (Hcbor c b H). cbn. rewrite H. cbn.
    by rewrite bool_decide_eq_true_2, Hv.
Qed.

(** authorizations are not redirected.  When payloads have different encodings, two
    valid consignments that carry the same authorization have the same payload: the same
    source, successor, closure proof, destination and requirements, unless what is hashed for
    the two payloads' commitments collides. *)
Theorem authorization_not_redirected (sha256 : bytes -> Bytes32)
    (payload_cbor : ConsignmentV2Payload -> result string bytes)
    (Hcbor : forall p q b, payload_cbor p = Ok b -> payload_cbor q = Ok b -> p = q)
    (c c' : ConsignmentV2) (a : ConsignmentAuthorization)
    (Hc : v2_validate sha256 payload_cbor c = Ok tt) (Hc' : v2_validate sha256 payload_cbor c' = Ok tt)
    (Ha : a ∈ v2_authorizations c) (Ha' : a ∈ v2_authorizations c') :
  v2_payload c = v2_payload c' \/
  collision_in sha256 (payload_hashed sha256 payload_cbor (v2_payload c) ++
                       payload_hashed sha256 payload_cbor (v2_payload c')).
Proof.
  apply v2_validate_valid in Hc, Hc'. destruct Hc as [_ _ _ _ _ Hh [_ Hl]], Hc' as [_ _ _ _ _ Hh' [_ Hl']].
  rewrite Forall_forall in Hl, Hl'. destruct (Hl a Ha) as [E _], (Hl' a Ha') as [E' _].
  unfold payload_commitment in Hh, Hh'.
  apply bind_ok in Hh as (b & Hb & [= Hh]), Hh' as (b' & Hb' & [= Hh']).
  apply map_err_ok in Hb, Hb'. rewrite <- E in Hh. rewrite <- E', <- Hh in Hh'.
  unfold payload_hashed. rewrite Hb, Hb'. cbn [ok_list fmap list_fmap app]. hash_inj Hh'. left.
  subst b'. by apply (Hcbor _ _ b).
Qed.

(** what resolution gives, a consignment carries.  A successor resolved from the
    parents at hand, a closure proof of one of its inputs to its commitment, an invoice one
    of its outputs is assigned to, sound requirements and authorizations of the payload's
    commitment make a consignment that is built, authorized and valid. *)
Theorem resolved_successor_consigned (sha256 : bytes -> Bytes32)
    (payload_cbor : ConsignmentV2Payload -> result string bytes)
    (t : Transition) (source : list ParentOutput) (schema : StateUseSchema) (signers : list bytes)
    (rt : ResolvedTransition) (i : ResolvedInput) (cl : ClosureProof) (inv : Invoice) (d : SealPoint)
    (o : StateAssignment) (rq : ConsignmentProofRequirements) (b : bytes)
    (auths : list ConsignmentAuthorization)
    (Hrt : resolve_transition sha256 t source schema signers = Ok rt) (Hi : i ∈ rt_inputs rt)
    (Hcl : closure_validate cl = Ok tt) (Hsrc : consumed_state cl = ri_reference i)
    (Hsucc : successor_commitment cl = resolved_commitment sha256 rt)
    (Hd : bound_seal_point inv = Ok d) (Ho : o ∈ rt_outputs rt) (Hseal : seal_of_wire (sa_seal o) = Ok d)
    (Hck : checkpoint_validate (rq_checkpoint rq) = Ok tt) (Hpr : rq_proof_provider_id rq <> ""%string)
    (Hcx : rq_verification_context rq <> Hash.zero) (Hag : rq_maximum_checkpoint_age rq <> 0%N)
    (Hb : payload_cbor (Payload_new (ri_reference i) rt cl inv rq) = Ok b) (Hn : auths <> [])
    (Hau : Forall (fun a => au_signed_commitment a
                            = csv_tagged_hash sha256 (as_bytes CONSIGNMENT_V2_COMMITMENT_TAG) b /\
                            au_public_key a <> [] /\ au_signature a <> []) auths) :
  exists c, (u ← v2_new sha256 payload_cbor (Payload_new (ri_reference i) rt cl inv rq);
             with_authorizations sha256 payload_cbor u auths) = Ok c /\
    v2_payload c = Payload_new (ri_reference i) rt cl inv rq /\
    v2_validate sha256 payload_cbor c = Ok tt.
Proof.
  set (p := Payload_new (ri_reference i) rt cl inv rq) in *.
  set (h := csv_tagged_hash sha256 (as_bytes CONSIGNMENT_V2_COMMITMENT_TAG) b) in *.
  assert (Hh : payload_commitment sha256 payload_cbor p = Ok h).
  { unfold payload_commitment. by rewrite Hb. }
  assert (Hv : v2_validate sha256 payload_cbor (mkV2 p h auths) = Ok tt).
  { apply v2_validate_valid. split; cbn; try done; [|by exists d, o].
    apply resolved_inputs_reproduced in Hrt. rewrite Forall_forall in Hrt.
    destruct (List.find _ _) as [j|] eqn:E.
    - apply find_some in E as [Hj E]. apply bool_decide_eq_true in E. apply list_elem_of_In in Hj.
      destruct (Hrt j Hj) as [Hr Hc]. exists j. by rewrite Hr, E.
    - apply list_elem_of_In in Hi. apply (List.find_none _ _ E) in Hi. by apply bool_decide_eq_false in Hi. }
  exists (mkV2 p h auths). unfold v2_new, with_authorizations. rewrite Hh. cbn [mbind result_bind v2_payload v2_commitment].
  by rewrite Hv.
Qed.

(** ** Witnesses *)

(** Equality with a computed value, decided: digests carry a proof of their length. *)
Lemma ok_decided {E A} `{EqDecision A} (r : result E A) (a : A) :
  match r with Ok x => bool_decide (x = a) | Err _ => false end = true -> r = Ok a.
Proof. destruct r; [|done]. by intros ->%bool_decide_eq_true. Qed.

Definition demo_invoice : Invoice := mkInvoice 1 (SdSui (replicate 32 Byte.xcd) 7) [Byte.xaa] 9.
Definition demo_seal : SealPoint := mkSealPoint (replicate 32 Byte.xcd) (Some 9%N) (Some 7%N).
Definition demo_transition : Transition :=
  mkTransition 1 [StateRef_new 7 (fill32 Byte.x01) 0] [StateAssignment_new 7 demo_seal [Byte.x09]]
    [] [] [Byte.x0b] [].
Definition demo_input : ResolvedInput :=
  mkResolvedInput (mkConsumed (fill32 Byte.x01) 0 7) toy_parent ExclusiveUse.
Definition demo_successor : ResolvedTransition :=
  mkResolved 1 [demo_input] [StateAssignment_new 7 demo_seal [Byte.x09]] [Byte.x0b].
Definition demo_closure_proof : ClosureProof :=
  mkClosureProof (mkConsumed (fill32 Byte.x01) 0 7) (resolved_commitment toy_hash demo_successor)
    BitcoinTransactionInclusion [Byte.x77].
Definition demo_requirements : ConsignmentProofRequirements :=
  mkRequirements (mkCheckpoint "bitcoin" "signet" 100 [Byte.x88] (Confirmations 6)) CTLightClient
    "bitcoin-spv-v1" (fill32 Byte.x99) 12.
Definition demo_payload : ConsignmentV2Payload :=
  Payload_new (mkConsumed (fill32 Byte.x01) 0 7) demo_successor demo_closure_proof demo_invoice
    demo_requirements.
Definition demo_payload_cbor (p : ConsignmentV2Payload) : result string bytes :=
  if decide (p = demo_payload) then Ok [Byte.x01] else Err "unsupported"%string.
Definition demo_authorization : ConsignmentAuthorization :=
  mkAuthorization Ed25519 [Byte.xaa] [Byte.xbb]
    (csv_tagged_hash toy_hash (as_bytes CONSIGNMENT_V2_COMMITMENT_TAG) [Byte.x01]).
Definition demo_v2 : ConsignmentV2 :=
  mkV2 demo_payload (au_signed_commitment demo_authorization) [demo_authorization].
Definition demo_v2_cbor (c : ConsignmentV2) : result string bytes :=
  if decide (c = demo_v2) then Ok [Byte.x02] else Err "unsupported"%string.
Definition demo_v2_of_cbor (b : bytes) : result string ConsignmentV2 :=
  if decide (b = [Byte.x02]) then Ok demo_v2 else Err "malformed"%string.

Lemma seal_points_shared_witness :
  to_seal_point (iv_seal outpoint_invoice) (Some 9%N) = to_seal_point (iv_seal resource_invoice) (Some 9%N).
Proof.
  apply (seal_points_shared (iv_seal outpoint_invoice) (iv_seal resource_invoice) (Some 9%N) (Some 9%N)).
  - simpl. split; [done|by vm_compute].
  - simpl. split; [done|lia].
  - split; [done|]. right; left. by split.
Defined.

Lemma decode_v2_exact_witness :
  decode_v2 toy_hash demo_payload_cbor demo_v2_cbor demo_v2_of_cbor [Byte.x02] = Ok demo_v2.
Proof.
  apply (decode_v2_exact toy_hash demo_payload_cbor demo_v2_cbor demo_v2_of_cbor).
  - intros c b. unfold demo_v2_cbor, demo_v2_of_cbor. destruct (decide (c = demo_v2)) as [->|]; [|done].
    intros [= <-]. by rewrite decide_True.
  - vm_compute. reflexivity.
Defined.

Lemma authorization_not_redirected_witness :
  demo_payload = demo_payload \/
  collision_in toy_hash (payload_hashed toy_hash demo_payload_cbor demo_payload ++
                         payload_hashed toy_hash demo_payload_cbor demo_payload).
Proof.
  apply (authorization_not_redirected toy_hash demo_payload_cbor) with (c := demo_v2) (c' := demo_v2)
    (a := demo_authorization).
  - intros p q b. unfold demo_payload_cbor.
    destruct (decide (p = demo_payload)) as [->|]; [|done].
    by destruct (decide (q = demo_payload)) as [->|].
  - vm_compute. reflexivity.
  - vm_compute. reflexivity.
  - cbn; apply list_elem_of_singleton; reflexivity.
  - cbn; apply list_elem_of_singleton; reflexivity.
Defined.

Lemma resolved_successor_consigned_witness :
  exists c, (u ← v2_new toy_hash demo_payload_cbor demo_payload;
             with_authorizations toy_hash demo_payload_cbor u [demo_authorization]) = Ok c /\
    v2_payload c = demo_payload /\ v2_validate toy_hash demo_payload_cbor c = Ok tt.
Proof.
  apply (resolved_successor_consigned toy_hash demo_payload_cbor demo_transition [toy_parent] toy_schema
    [[Byte.x0a]] demo_successor demo_input demo_closure_proof demo_invoice demo_seal
    (StateAssignment_new 7 demo_seal [Byte.x09]) demo_requirements [Byte.x01] [demo_authorization]);
    try (vm_compute; reflexivity); try (vm_compute; discriminate).
  - apply ok_decided. vm_compute. reflexivity.
  - cbn; apply list_elem_of_singleton; reflexivity.
  - cbn; apply list_elem_of_singleton; reflexivity.
  - repeat constructor; vm_compute; discriminate.
Defined.
