(* ===== verification/BitcoinSeal.v ===== *)
(** * The Bitcoin adapter's seals (csv-adapters/csv-bitcoin/src/seal.rs, mpc_batch.rs, types.rs
    and the methods of seal_protocol.rs)

    The registry of used seals; sealing, finality, roll back, commitments and proof bundles
    of the adapter over the answers of a node; the batching of commitments into one tree.
    The wallet is the map of its outputs.  Each call sees one node, whose answers are
    arbitrary; building and signing transactions is not part of the model. *)

From S2P Require Import Prelude Ord Bytes Hashing Dag Text Seal Merkle Commitment Signature.
From S2P Require ProofTaxonomy Consignment BitcoinSpv Watch ChainProofs.

(** ** Seals, anchors and finality *)

Record BitcoinSealPoint := mkBtcSeal { txid : Bytes32; vout : N; btc_nonce : option N }.
Global Instance BitcoinSealPoint_eq_dec : EqDecision BitcoinSealPoint.
Proof. solve_decision. Defined.

(** [BitcoinSealPoint::to_vec]: an absent nonce is eight zero bytes. *)
Definition seal_key (s : BitcoinSealPoint) : bytes :=
  b32 (txid s) ++ u32_le (vout s) ++ match btc_nonce s with Some n => u64_le n | None => replicate 8 Byte.x00 end.

Record BitcoinCommitAnchor := mkBtcAnchor { an_txid : Bytes32; an_output_index : N; an_block_height : N }.
Record BitcoinFinalityProof := mkBtcFinality {
  bf_confirmations : N; meets_required_depth : bool; required_depth : N
}.
Definition finality_new (confirmations depth : N) : BitcoinFinalityProof :=
  mkBtcFinality confirmations (depth <=? confirmations)%N depth.

(** ** The registry of used seals *)

Inductive BitcoinError := UTXOSpent (m : string) | RegistryFull (m : string) | MpcError (m : string).
(** [From<BitcoinError> for ProtocolError] *)
Definition protocol_error (e : BitcoinError) : ProtocolError :=
  match e with UTXOSpent m => InvalidSeal m | RegistryFull m => Generic m | MpcError m => Generic ("MPC: " +:+ m) end.

(** A path is its account, change and index. *)
Record SealRegistry := mkSealRegistry {
  used_seals : gset bytes; used_paths : gset (N * N * N); seal_queue : Watch.BoundedQueue bytes;
  reg_max_size : nat
}.
Definition with_max_size (n : nat) : SealRegistry := mkSealRegistry ∅ ∅ (Watch.queue_new n) n.
Definition registry_new : SealRegistry := with_max_size Watch.MAX_SEAL_NULLIFIER_SIZE.

Definition is_seal_used (s : BitcoinSealPoint) (r : SealRegistry) : bool := bool_decide (seal_key s ∈ used_seals r).
Definition is_path_used (p : N * N * N) (r : SealRegistry) : bool := bool_decide (p ∈ used_paths r).

(** The debug form of a seal. *)
Definition debug_bytes (b : bytes) : string :=
  "[" +:+ String.concat ", " (map (fun x => pretty (Byte.to_N x)) b) +:+ "]".
Definition debug_seal (s : BitcoinSealPoint) : string :=
  "BitcoinSealPoint { txid: " +:+ debug_bytes (b32 (txid s)) +:+ ", vout: " +:+ pretty (vout s) +:+
  ", nonce: " +:+ match btc_nonce s with Some n => "Some(" +:+ pretty n +:+ ")" | None => "None" end +:+ " }".

(** [mark_seal_used_at_height]; [mark_seal_used] is that at height 0.  The queue may refuse
    without the registry noticing. *)
Definition mark_seal_used_at_height (s : BitcoinSealPoint) (height : N) (r : SealRegistry)
  : result BitcoinError SealRegistry :=
  reject is_seal_used s r with UTXOSpent ("Seal " +:+ debug_seal s +:+ " has already been used") ;;
  reject (reg_max_size r <=? size (used_seals r))
    with RegistryFull ("Seal registry is full (max " +:+ show_nat (reg_max_size r) +:+ " entries)") ;;
  Ok (mkSealRegistry ({[seal_key s]} ∪ used_seals r) (used_paths r)
        (fst (Watch.push (seal_queue r) (seal_key s))) (reg_max_size r)).
Definition mark_seal_used (s : BitcoinSealPoint) (r : SealRegistry) : result BitcoinError SealRegistry :=
  mark_seal_used_at_height s 0 r.
Definition mark_seal_used_with_path (s : BitcoinSealPoint) (p : N * N * N) (r : SealRegistry)
  : result BitcoinError SealRegistry :=
  r ← mark_seal_used s r;
  Ok (mkSealRegistry (used_seals r) ({[p]} ∪ used_paths r) (seal_queue r) (reg_max_size r)).
Definition clear_seal (s : BitcoinSealPoint) (r : SealRegistry) : SealRegistry :=
  mkSealRegistry (used_seals r ∖ {[seal_key s]}) (used_paths r) (seal_queue r) (reg_max_size r).
Definition clear_path (p : N * N * N) (r : SealRegistry) : SealRegistry :=
  mkSealRegistry (used_seals r) (used_paths r ∖ {[p]}) (seal_queue r) (reg_max_size r).
Definition reg_len (r : SealRegistry) : nat := size (used_seals r).
Definition reg_is_full (r : SealRegistry) : bool := reg_max_size r <=? size (used_seals r).

(** ** The adapter *)

(** What a node answers within one call. *)
Record Node := mkNodeAnswers {
  block_count : option N;
  is_utxo_unspent : Bytes32 -> N -> result string bool;
  block_hash_at : N -> result string Bytes32;
  inclusion_of : Bytes32 -> Bytes32 -> result string BitcoinSpv.BitcoinInclusionProof
}.

(** The wallet's outputs with their amount and path. *)
Record BitcoinSealProtocol := mkProtocol {
  finality_depth : N; domain_separator : Bytes32; seal_registry : SealRegistry;
  utxos : gmap (Bytes32 * N) (N * (N * N * N))
}.
Definition set_registry (r : SealRegistry) (p : BitcoinSealProtocol) : BitcoinSealProtocol :=
  mkProtocol (finality_depth p) (domain_separator p) r (utxos p).

(** [get_current_height]: without an answer the chain is 200 blocks high. *)
Definition get_current_height (rpc : option Node) : N :=
  match rpc with Some n => default 200%N (block_count n) | None => 200 end.

(** [fund_seal], with an outpoint's text as [txid:vout] *)
Definition fund_seal (outpoint : Bytes32 * N) (text : string) (p : BitcoinSealProtocol)
  : result ProtocolError (BitcoinSealPoint * (N * N * N)) :=
  '(amount, path) ← ok_or (Generic ("UTXO " +:+ text +:+ " not found in wallet - fund the address first"))
                      (utxos p !! outpoint);
  let s := mkBtcSeal (fst outpoint) (snd outpoint) (Some amount) in
  reject is_seal_used s (seal_registry p) with Generic ("Seal " +:+ text +:+ " already used") ;;
  Ok (s, path).

(** [enforce_seal], built with the feature [rpc] *)
Definition enforce_seal (rpc : option Node) (s : BitcoinSealPoint) (p : BitcoinSealProtocol)
  : result ProtocolError BitcoinSealProtocol :=
  let outpoint := debug_bytes (b32 (txid s)) +:+ ":" +:+ pretty (vout s) in
  reject is_seal_used s (seal_registry p)
    with SealReplay ("UTXO " +:+ outpoint +:+ " already used in local registry") ;;
  _ ← match rpc with
      | Some n =>
          unspent ← map_err (fun e => NetworkError ("Failed to check UTXO status on-chain: " +:+ e))
                      (is_utxo_unspent n (txid s) (vout s));
          reject negb unspent with SealReplay ("UTXO " +:+ outpoint +:+ " already spent on-chain") ;; Ok tt
      | None => Ok tt
      end;
  r ← map_err protocol_error (mark_seal_used s (seal_registry p));
  Ok (set_registry r p).

(** [verify_inclusion] *)
Definition verify_inclusion (rpc : option Node) (a : BitcoinCommitAnchor)
  : result ProtocolError BitcoinSpv.BitcoinInclusionProof :=
  n ← ok_or (InclusionProofFailed
               "Cannot verify inclusion: no RPC backend configured to supply Merkle proof") rpc;
  h ← map_err (fun e => InclusionProofFailed ("Failed to get block hash: " +:+ e))
        (block_hash_at n (an_block_height a));
  map_err (fun e => InclusionProofFailed
                      ("Cannot verify inclusion: chain capability unavailable (" +:+ e +:+ ")"))
    (inclusion_of n (an_txid a) h).

Definition not_final (confirmations depth : N) : ProtocolError :=
  FinalityNotReached ("Only " +:+ pretty confirmations +:+ " confirmations, need " +:+ pretty depth).

(** [verify_finality] *)
Definition verify_finality (rpc : option Node) (a : BitcoinCommitAnchor) (p : BitcoinSealProtocol)
  : result ProtocolError BitcoinFinalityProof :=
  let depth := finality_depth p in
  if (an_block_height a =? 0)%N then Ok (finality_new depth depth)
  else
    let confirmations := (get_current_height rpc - an_block_height a)%N in
    let f := finality_new confirmations depth in
    reject negb (meets_required_depth f) with not_final confirmations depth ;;
    Ok f.

(** [rollback] *)
Definition rollback (rpc : option Node) (a : BitcoinCommitAnchor) (p : BitcoinSealProtocol)
  : result ProtocolError BitcoinSealProtocol :=
  let height := get_current_height rpc in
  reject (height <? an_block_height a)%N
    with ReorgInvalid ("Block " +:+ pretty (an_block_height a) +:+ " is beyond current height " +:+ pretty height) ;;
  Ok (if (an_block_height a <? height)%N
      then set_registry (clear_seal (mkBtcSeal (an_txid a) (an_output_index a) None) (seal_registry p)) p
      else p).

Section Hashed.
Variable sha256 : bytes -> Bytes32.

(** [hash_commitment]; the seal point of 32 bytes cannot be refused. *)
Definition core_seal (s : BitcoinSealPoint) : SealPoint := mkSealPoint (b32 (txid s)) (btc_nonce s) None.
Definition hash_commitment (contract_id previous_commitment transition_payload_hash : Hash)
    (s : BitcoinSealPoint) (p : BitcoinSealProtocol) : Hash :=
  commitment_hash sha256
    (Commitment_simple sha256 contract_id previous_commitment transition_payload_hash (core_seal s)
       (domain_separator p)).

(** The node of [build_proof_bundle] and the bytes of its inclusion proof. *)
Definition anchored_node (a : BitcoinCommitAnchor) (d : Consignment.DagSegment) : DAGNode :=
  mkNode (csv_tagged_hash sha256 (as_bytes "dag-node-id")
            (b32 (Consignment.anchor_from d) ++ b32 (Consignment.anchor_to d) ++ b32 (an_txid a)))
    (Consignment.transition_data d) [Consignment.segment_proof d] [b32 (an_txid a)] [Consignment.anchor_from d].
Definition inclusion_bytes (i : BitcoinSpv.BitcoinInclusionProof) : bytes :=
  BitcoinSpv.branch_bytes (BitcoinSpv.merkle_branch i) ++ b32 (BitcoinSpv.btc_block_hash i) ++
  u64_le (BitcoinSpv.tx_index i) ++ u64_le (BitcoinSpv.btc_block_height i).

(** [build_proof_bundle] *)
Definition build_proof_bundle (rpc : option Node) (a : BitcoinCommitAnchor) (d : Consignment.DagSegment)
    (p : BitcoinSealProtocol) : result ProtocolError ProofTaxonomy.ProofBundle :=
  i ← verify_inclusion rpc a;
  f ← verify_finality rpc a p;
  reject negb (meets_required_depth f) with not_final (bf_confirmations f) (finality_depth p) ;;
  seal_ref ← map_err Generic (SealPoint_new (b32 (an_txid a)) (Some 0%N) None);
  anchor_ref ← map_err Generic (CommitAnchor_new (b32 (an_txid a)) (an_block_height a) []);
  inc ← map_err Generic (ProofTaxonomy.InclusionProof_new (inclusion_bytes i) (BitcoinSpv.btc_block_hash i)
                           (BitcoinSpv.tx_index i) (an_block_height a));
  fin ← map_err Generic (ProofTaxonomy.FinalityProof_new (u64_le (bf_confirmations f)) (bf_confirmations f)
                           (meets_required_depth f));
  let node := anchored_node a d in
  let segment := mkSegment [node] (canonical_id sha256 node) in
  let sigs := flat_map signatures (nodes segment) in
  reject forallb (fun s => bool_decide (s = [])) sigs
    with Generic "Cannot build proof bundle: transition DAG carries no authorizing proof/signature data" ;;
  map_err Generic (ProofTaxonomy.with_signature_scheme ProofTaxonomy.Secp256k1 segment sigs seal_ref anchor_ref
                     inc fin).
End Hashed.

(** ** Batching (mpc_batch.rs) *)

(** [CSV_BTC_PROTOCOL_ID]: the name, zeros, and the version. *)
Definition CSV_BTC_PROTOCOL_ID : Bytes32 :=
  default zero32 (to_b32 (as_bytes "CSV-BTC" ++ replicate 24 Byte.x00 ++ [Byte.x01])).

Record PendingCommitment := mkPending {
  pc_commitment : Hash; pc_seal : BitcoinSealPoint; pc_request_id : string; pc_queued_at : N
}.
Record MpcBatcher := mkBatcher {
  pending : list PendingCommitment; batch_size : nat; min_batch_size : nat; max_wait_seconds : N;
  max_queue_depth : nat
}.
Definition batcher_new (batch min_batch : nat) (wait : N) (depth : nat) : MpcBatcher :=
  mkBatcher [] (Nat.max batch 2) (Nat.max min_batch 1) wait (Nat.max depth 1).
Definition batcher_default : MpcBatcher := batcher_new 10 2 300 1000.
Definition high_volume : MpcBatcher := batcher_new 50 5 600 5000.
Definition immediate : MpcBatcher := batcher_new 1 1 0 10.

Definition set_pending (l : list PendingCommitment) (b : MpcBatcher) : MpcBatcher :=
  mkBatcher l (batch_size b) (min_batch_size b) (max_wait_seconds b) (max_queue_depth b).
Definition pending_count (b : MpcBatcher) : nat := length (pending b).
Definition has_batch_ready (b : MpcBatcher) : bool := min_batch_size b <=? length (pending b).
Definition batcher_clear (b : MpcBatcher) : MpcBatcher := set_pending [] b.

(** [queue]: the answer says whether a batch is full. *)
Definition queue_commitment (now : N) (commitment : Hash) (s : BitcoinSealPoint) (request_id : string)
    (b : MpcBatcher) : result string (bool * MpcBatcher) :=
  reject (max_queue_depth b <=? length (pending b)) with "MPC batcher queue is full - backpressure"%string ;;
  let b := set_pending (pending b ++ [mkPending commitment s request_id now]) b in
  Ok (batch_size b <=? length (pending b), b).

(** [build_mpc_tree] *)
Definition batch_leaf (p : PendingCommitment) : MuxLeaf := mkMuxLeaf CSV_BTC_PROTOCOL_ID (pc_commitment p).
Definition build_mpc_tree (b : MpcBatcher)
  : option (list MuxLeaf * list PendingCommitment) * MpcBatcher :=
  match pending b with
  | [] => (None, b)
  | _ =>
      let n := Nat.min (batch_size b) (length (pending b)) in
      let batch := take n (pending b) in
      (Some (map batch_leaf batch, batch), set_pending (drop n (pending b)) b)
  end.

Section Batches.
Variable sha256 : bytes -> Bytes32.

(** One pass over the pairs of a level: the next level, and the sibling of [idx]. *)
Fixpoint branch_level (start idx : nat) (level : list Hash) : list Hash * list MerkleBranchNode :=
  match level with
  | [] => ([], [])
  | [l] => ([l], [])
  | l :: r :: rest =>
      let '(next, branch) := branch_level (S (S start)) idx rest in
      (hash_pair sha256 l r :: next,
       (if idx =? start then [mkBranchNode r false]
        else if idx =? S start then [mkBranchNode l true] else []) ++ branch)
  end.
(** The loop of [merkle_branch]: every pass shortens a level of two or more. *)
Fixpoint branch_loop (fuel : nat) (level : list Hash) (idx : nat) : list MerkleBranchNode :=
  match fuel with
  | O => []
  | S fuel =>
      if 1 <? length level then
        let '(next, branch) := branch_level 0 idx level in branch ++ branch_loop fuel next (idx / 2)
      else []
  end.
Definition merkle_branch (tree : list MuxLeaf) (leaf_index : nat) : option (list MerkleBranchNode) :=
  if length tree <=? leaf_index then None
  else Some (branch_loop (length tree) (map (mux_leaf_hash sha256) tree) leaf_index).

(** The loop of [generate_proofs], from [index]. *)
Fixpoint proofs_from (tree : list MuxLeaf) (root : Hash) (index : nat) (l : list PendingCommitment)
  : result BitcoinError (list (string * MuxProof)) :=
  match l with
  | [] => Ok []
  | c :: l' =>
      branch ← ok_or (MpcError ("Failed to generate Merkle branch for index " +:+ show_nat index))
                 (merkle_branch tree index);
      let proof := mkMuxProof CSV_BTC_PROTOCOL_ID (pc_commitment c) branch index in
      reject negb (mux_verify sha256 proof root)
        with MpcError ("Generated invalid proof for commitment " +:+ pc_request_id c) ;;
      rest ← proofs_from tree root (S index) l';
      Ok ((pc_request_id c, proof) :: rest)
  end.
Definition generate_proofs (tree : list MuxLeaf) (l : list PendingCommitment)
  : result BitcoinError (list (string * MuxProof)) := proofs_from tree (mux_root sha256 tree) 0 l.
End Batches.

(** ** Lemmas: batches *)

Section BatchFacts.
Variable sha256 : bytes -> Bytes32.

Lemma branch_level_cons start idx l r rest :
  branch_level sha256 start idx (l :: r :: rest)
  = (hash_pair sha256 l r :: fst (branch_level sha256 (S (S start)) idx rest),
     (if idx =? start then [mkBranchNode r false]
      else if idx =? S start then [mkBranchNode l true] else [])
     ++ snd (branch_level sha256 (S (S start)) idx rest)).
Proof. cbn [branch_level]. by destruct (branch_level sha256 (S (S start)) idx rest). Qed.

Lemma branch_level_pairs start idx level :
  fst (branch_level sha256 start idx level) = pair_up (hash_pair sha256) level.
Proof.
  revert start. induction level as [|x|x y l IH] using pair_ind; intros start; [done|done|].
  rewrite branch_level_cons. cbn. by rewrite IH.
Qed.

Lemma branch_level_past start idx level : idx < start -> snd (branch_level sha256 start idx level) = [].
Proof.
  revert start. induction level as [|x|x y l IH] using pair_ind; intros start H; [done|done|].
  rewrite branch_level_cons. cbn [snd]. rewrite IH by lia.
  by rewrite !(proj2 (Nat.eqb_neq _ _)) by lia.
Qed.

(** A pass gives the parent of the entry it looks at. *)
Lemma branch_level_climbs start idx level a :
  level !! idx = Some a ->
  pair_up (hash_pair sha256) level !! (idx / 2)
  = Some (climb sha256 a (snd (branch_level sha256 start (start + idx) level))).
Proof.
  revert start idx. induction level as [|x|x y l IH] using pair_ind; intros start idx H; [done| |].
  - destruct idx; [|done]. by injection H as ->.
  - rewrite branch_level_cons. destruct idx as [|[|idx]]; cbn [snd].
    + injection H as ->. rewrite Nat.add_0_r, Nat.eqb_refl, branch_level_past by lia. done.
    + injection H as ->. rewrite branch_level_past by lia.
      by rewrite (proj2 (Nat.eqb_neq _ _)), (proj2 (Nat.eqb_eq _ _)) by lia.
    + rewrite !(proj2 (Nat.eqb_neq (start + S (S idx)) _)) by lia. cbn [app].
      replace (start + S (S idx)) with (S (S start) + idx) by lia.
      replace (S (S idx)) with (idx + 1 * 2) by lia. rewrite Nat.div_add by lia. rewrite Nat.add_1_r.
      by apply (IH (S (S start)) idx).
Qed.

Lemma branch_loop_climbs fuel level idx a :
  length level <= fuel -> level !! idx = Some a ->
  collapse (hash_pair sha256) fuel level = [climb sha256 a (branch_loop sha256 fuel level idx)].
Proof.
  revert level idx a. induction fuel as [|fuel IH]; intros l idx a Hf Ha.
  - destruct l; simpl in Hf; [done|lia].
  - cbn [collapse branch_loop]. destruct (Nat.ltb_spec 1 (length l)) as [Hlt|Hge].
    + pose proof (pair_up_shrinks (hash_pair sha256) l Hlt).
      pose proof (branch_level_climbs 0 idx l a Ha) as Hup. cbn [Nat.add] in Hup.
      pose proof (branch_level_pairs 0 idx l) as Hp.
      destruct (branch_level sha256 0 idx l) as [next branch]. cbn [fst snd] in *. subst next.
      rewrite (IH _ _ _ (ltac:(lia) : length (pair_up (hash_pair sha256) l) <= fuel) Hup).
      unfold climb. by rewrite fold_left_app.
    + destruct l as [|r [|r' l]]; simpl in Hge; [done| |lia].
      destruct idx; [|done]. by injection Ha as ->.
Qed.

Lemma proofs_from_ok all skipped l :
  all = skipped ++ l ->
  exists proofs, proofs_from sha256 (map batch_leaf all) (mux_root sha256 (map batch_leaf all)) (length skipped) l
                 = Ok proofs /\
    Forall2 (fun c p => fst p = pc_request_id c /\ mp_protocol_id (snd p) = CSV_BTC_PROTOCOL_ID /\
                        mp_commitment (snd p) = pc_commitment c /\
                        mux_verify sha256 (snd p) (mux_root sha256 (map batch_leaf all)) = true) l proofs.
Proof.
  revert skipped. induction l as [|c l IH]; intros skipped E; cbn [proofs_from]; [by exists []|].
  set (leaves := map batch_leaf all) in *.
  assert (Hl : leaves !! length skipped = Some (batch_leaf c)).
  { unfold leaves. rewrite E, list_lookup_fmap, list_lookup_middle by done. done. }
  assert (Hne : leaves <> []) by (by destruct leaves).
  unfold merkle_branch. rewrite (proj2 (Nat.leb_gt _ _)) by (by apply lookup_lt_Some in Hl).
  cbn [ok_or mbind result_bind].
  set (p := mkMuxProof _ _ _ _).
  assert (Hv : mux_verify sha256 p (mux_root sha256 leaves) = true).
  { apply bool_decide_eq_true. pose proof (mux_root_collapse sha256 leaves Hne) as Hr.
    rewrite (branch_loop_climbs (length leaves) _ (length skipped) (mux_leaf_hash sha256 (batch_leaf c))) in Hr;
      [by injection Hr|by rewrite length_map|]. by rewrite list_lookup_fmap, Hl. }
  rewrite Hv. cbn [negb guard_err].
  destruct (IH (skipped ++ [c])) as (ps & Hps & Hf); [by rewrite E, <- app_assoc|].
  rewrite length_app, Nat.add_1_r in Hps. rewrite Hps. cbn [mbind result_bind].
  eexists. split; [done|]. by constructor.
Qed.
End BatchFacts.

(** ** Lemmas: the registry and the adapter *)

Inductive reg_op :=
| Mark (s : BitcoinSealPoint) (height : N) | MarkPath (s : BitcoinSealPoint) (p : N * N * N)
| Clear (s : BitcoinSealPoint) | ClearPath (p : N * N * N).
(** A refused call leaves the registry as it was. *)
Definition reg_step (r : SealRegistry) (o : reg_op) : SealRegistry :=
  match o with
  | Mark s h => match mark_seal_used_at_height s h r with Ok r' => r' | Err _ => r end
  | MarkPath s p => match mark_seal_used_with_path s p r with Ok r' => r' | Err _ => r end
  | Clear s => clear_seal s r
  | ClearPath p => clear_path p r
  end.

Lemma mark_ok s h r r' :
  mark_seal_used_at_height s h r = Ok r' <->
  seal_key s ∉ used_seals r /\ size (used_seals r) < reg_max_size r /\
  r' = mkSealRegistry ({[seal_key s]} ∪ used_seals r) (used_paths r)
         (fst (Watch.push (seal_queue r) (seal_key s))) (reg_max_size r).
Proof.
  unfold mark_seal_used_at_height, is_seal_used.
  rewrite !guard_err_ok, bool_decide_eq_false, Nat.leb_gt. naive_solver.
Qed.

Lemma marked_size (k : bytes) (used : gset bytes) n : k ∉ used -> size used < n -> size ({[k]} ∪ used) <= n.
Proof. intros Hk Hn. rewrite size_union by set_solver. rewrite size_singleton. lia. Qed.

Lemma reg_step_bounded o r :
  size (used_seals r) <= reg_max_size r ->
  size (used_seals (reg_step r o)) <= reg_max_size (reg_step r o) /\ reg_max_size (reg_step r o) = reg_max_size r.
Proof.
  intros H. destruct o as [s h|s p|s|p]; cbn [reg_step].
  - destruct (mark_seal_used_at_height s h r) eqn:E; [|done].
    apply mark_ok in E as (Hk & Hn & ->). split; [by apply marked_size|done].
  - destruct (mark_seal_used_with_path s p r) eqn:E; [|done]. unfold mark_seal_used_with_path in E.
    apply bind_ok in E as (r1 & E & [= <-]). apply (mark_ok s 0) in E as (Hk & Hn & ->).
    split; [by apply marked_size|done].
  - cbn. split; [|done]. etrans; [|exact H]. apply subseteq_size. set_solver.
  - done.
Qed.

Lemma enforce_ok rpc s p p' :
  enforce_seal rpc s p = Ok p' <->
  seal_key s ∉ used_seals (seal_registry p) /\
  (forall n, rpc = Some n -> is_utxo_unspent n (txid s) (vout s) = Ok true) /\
  exists r, mark_seal_used s (seal_registry p) = Ok r /\ p' = set_registry r p.
Proof.
  unfold enforce_seal, is_seal_used. rewrite guard_err_ok, bool_decide_eq_false, bind_ok.
  apply and_iff_compat_l. split.
  - intros (u & Hn & H). apply bind_ok in H as (r & Hr & [= <-]). apply map_err_ok in Hr.
    split; [|by exists r]. intros n ->. apply bind_ok in Hn as (b & Hb & Hn). apply map_err_ok in Hb.
    rewrite guard_err_ok, negb_false_iff in Hn. destruct Hn as [-> _]. done.
  - intros (Hn & r & Hr & ->). exists tt. split.
    + destruct rpc as [n|]; [|done]. by rewrite (Hn n eq_refl).
    + rewrite Hr. done.
Qed.

(** ** What the checks leave open *)

Definition demo_node (height : option N) : Node :=
  mkNodeAnswers height (fun _ _ => Ok true) (fun _ => Ok (fill32 Byte.x0b)) 
    (fun t h => Ok (BitcoinSpv.mkBtcInclusion [fill32 Byte.x0c] h 3 100)).
Definition demo_protocol : BitcoinSealProtocol :=
  mkProtocol 6 (fill32 Byte.x0d) registry_new ∅.

(** The output 0 of one transaction, with its amount and without: the nonce makes two seals. *)
Lemma same_outpoint_twice :
  (p ← enforce_seal (Some (demo_node None)) (mkBtcSeal (fill32 Byte.x01) 0 None) demo_protocol;
   p ← enforce_seal (Some (demo_node None)) (mkBtcSeal (fill32 Byte.x01) 0 (Some 10000%N)) p;
   Ok (reg_len (seal_registry p))) = Ok 2.
Proof. by vm_compute. Qed.

(** An anchor not in a block is final, and so is any below 194 when the node is silent. *)
Lemma finality_without_evidence :
  verify_finality None (mkBtcAnchor (fill32 Byte.x01) 0 0) demo_protocol = Ok (mkBtcFinality 6 true 6) /\
  verify_finality (Some (demo_node None)) (mkBtcAnchor (fill32 Byte.x01) 0 100) demo_protocol
  = Ok (mkBtcFinality 100 true 6).
Proof. by vm_compute. Qed.

(** Rolling an anchor back gives the seal of another transaction back to nobody. *)
Lemma rolled_back_seal_stays rpc a p p' s :
  rollback rpc a p = Ok p' -> txid s <> an_txid a ->
  is_seal_used s (seal_registry p') = is_seal_used s (seal_registry p).
Proof.
  unfold rollback. rewrite guard_err_ok. intros [_ [= <-]] Ht.
  destruct (an_block_height a <? get_current_height rpc)%N; [|done].
  unfold is_seal_used. apply bool_decide_ext. cbn. rewrite elem_of_difference, elem_of_singleton.
  split; [by intros [? _]|]. intros H. split; [done|]. unfold seal_key. cbn [txid vout btc_nonce].
  intros E. apply app_eq_length_inj in E as [E _]; [|by rewrite !b32_length]. by apply b32_inj in E.
Qed.

(** The output of a transaction is not part of what is committed to. *)
Lemma output_not_committed sha256 c prev pl t v v' n p :
  hash_commitment sha256 c prev pl (mkBtcSeal t v n) p = hash_commitment sha256 c prev pl (mkBtcSeal t v' n) p.
Proof. done. Qed.

(** An identifier of the wrong tag is not the node's, unless two of the four strings hashed
    for the two identifiers collide. *)
Lemma anchored_node_misnamed sha256 a d :
  let n := anchored_node sha256 a d in
  verify_identity sha256 n = Ok tt ->
  collision_in sha256
    (csv_hashed sha256 (as_bytes "dag-node-id")
       (b32 (Consignment.anchor_from d) ++ b32 (Consignment.anchor_to d) ++ b32 (an_txid a)) ++
     csv_hashed sha256 (as_bytes DAG_NODE_TAG) (b32 (content_digest sha256 n) ++ b32 (edge_digest sha256 n))).
Proof.
  cbn zeta. unfold verify_identity. case_decide as E; [|done]. intros _.
  unfold anchored_node in E at 1. cbn [node_id] in E. unfold canonical_id in E. by hash_names E.
Qed.

(** ** Theorems *)

(** A history of the adapter: seals enforced and anchors rolled back, a refused call leaving
    the adapter as it was. *)
Inductive adapter_op := Enforce (rpc : option Node) (s : BitcoinSealPoint) | Rollback (rpc : option Node) (a : BitcoinCommitAnchor).
Definition adapter_step (p : BitcoinSealProtocol) (o : adapter_op) : BitcoinSealProtocol :=
  match o with
  | Enforce rpc s => match enforce_seal rpc s p with Ok p' => p' | Err _ => p end
  | Rollback rpc a => match rollback rpc a p with Ok p' => p' | Err _ => p end
  end.
(** The anchor rolled back is that of the seal, as the registry spells it. *)
Definition names (s : BitcoinSealPoint) (o : adapter_op) : bool :=
  match o with
  | Rollback _ a => bool_decide (seal_key (mkBtcSeal (an_txid a) (an_output_index a) None) = seal_key s)
  | Enforce _ _ => false
  end.

Lemma enforced_used rpc s p p' : enforce_seal rpc s p = Ok p' -> is_seal_used s (seal_registry p') = true.
Proof.
  intros (_ & _ & r & Hr & ->)%enforce_ok. apply (mark_ok s 0) in Hr as (_ & _ & ->).
  apply bool_decide_eq_true. cbn. set_solver.
Qed.

Lemma step_keeps_used s o p :
  names s o = false -> is_seal_used s (seal_registry p) = true ->
  is_seal_used s (seal_registry (adapter_step p o)) = true.
Proof.
  unfold is_seal_used. rewrite !bool_decide_eq_true. intros Hn Hu. destruct o as [rpc t|rpc a]; cbn [adapter_step].
  - destruct (enforce_seal rpc t p) eqn:E; [|done].
    apply enforce_ok in E as (_ & _ & r & Hr & ->). apply (mark_ok t 0) in Hr as (_ & _ & ->). cbn. set_solver.
  - cbn [names] in Hn. apply bool_decide_eq_false in Hn. destruct (rollback rpc a p) eqn:E; [|done].
    unfold rollback in E. apply guard_err_ok in E as [_ [= <-]].
    destruct (_ <? _)%N; [|done]. cbn. rewrite elem_of_difference, elem_of_singleton. split; [done|congruence].
Qed.

Lemma steps_keep_used s l p :
  Forall (fun o => names s o = false) l -> is_seal_used s (seal_registry p) = true ->
  is_seal_used s (seal_registry (fold_left adapter_step l p)) = true.
Proof.
  intros Hl. revert p. induction Hl as [|o l Ho Hl IH]; intros p Hp; [done|]. by apply IH, step_keeps_used.
Qed.

(** the registry.  Through any history from an empty registry of a capacity, it never
    holds more seals than that capacity; and then a seal is marked exactly when its key is not
    held and there is room, after which it is held, the registry has one more, and a second
    mark is refused. *)
Theorem seal_registry_exact (n : nat) (ops : list reg_op) (s : BitcoinSealPoint) (h : N) :
  let r := fold_left reg_step ops (with_max_size n) in
  reg_len r <= n /\
  match mark_seal_used_at_height s h r with
  | Ok r' => is_seal_used s r = false /\ reg_is_full r = false /\ is_seal_used s r' = true /\
             reg_len r' = S (reg_len r) /\ (forall h', is_ok (mark_seal_used_at_height s h' r') = false)
  | Err e => is_seal_used s r = true \/ reg_is_full r = true
  end.
Proof.
  intros r.
  assert (H : size (used_seals r) <= reg_max_size r /\ reg_max_size r = n).
  { unfold r. assert (H0 : size (used_seals (with_max_size n)) <= reg_max_size (with_max_size n) /\
                        reg_max_size (with_max_size n) = n) by (cbn; rewrite size_empty; lia).
    revert H0. generalize (with_max_size n). induction ops as [|o ops IH]; intros r0 H0; [done|].
    cbn [fold_left]. apply IH. destruct H0 as [H0 <-]. by apply reg_step_bounded. }
  destruct H as [Hsize Hmax]. split; [unfold reg_len; lia|].
  destruct (mark_seal_used_at_height s h r) as [r'|e] eqn:E.
  - apply mark_ok in E as (Hk & Hn & ->). unfold is_seal_used, reg_is_full, reg_len. cbn [used_seals reg_max_size].
    assert (Hin : seal_key s ∈ ({[seal_key s]} ∪ used_seals r : gset bytes)) by set_solver.
    rewrite !bool_decide_eq_false, bool_decide_eq_true, Nat.leb_gt. split; [done|]. split; [done|].
    split; [done|]. split; [rewrite size_union by set_solver; by rewrite size_singleton|].
    intros h'. unfold mark_seal_used_at_height, is_seal_used. cbn [used_seals].
    by rewrite bool_decide_eq_true_2 by done.
  - unfold mark_seal_used_at_height in E. destruct (is_seal_used s r); [by left|].
    cbn [guard_err] in E. right. unfold reg_is_full. by destruct (_ <=? _).
Qed.

(** a seal is enforced once.  After a seal was enforced, and through any calls after it
    that roll no anchor back under its outpoint and nonce, whatever the node answers, the
    same seal is refused as replayed. *)
Theorem seal_enforced_once (rpc rpc' : option Node) (s : BitcoinSealPoint) (p p' : BitcoinSealProtocol)
    (ops : list adapter_op)
    (H : enforce_seal rpc s p = Ok p') (Hops : Forall (fun o => names s o = false) ops) :
  exists m, enforce_seal rpc' s (fold_left adapter_step ops p') = Err (SealReplay m).
Proof.
  apply enforced_used, (steps_keep_used s ops _ Hops) in H. unfold enforce_seal. rewrite H. cbn [guard_err]. eauto.
Qed.

Lemma verify_finality_ok rpc a p :
  is_ok (verify_finality rpc a p) = true <->
  an_block_height a = 0%N \/ (finality_depth p <= get_current_height rpc - an_block_height a)%N.
Proof.
  unfold verify_finality, finality_new. cbn [meets_required_depth].
  destruct (N.eqb_spec (an_block_height a) 0) as [E|E]; [split; [by left|done]|].
  destruct (N.leb_spec (finality_depth p) (get_current_height rpc - an_block_height a)); cbn.
  - split; [by right|done].
  - split; [done|]. intros [?|?]; [done|lia].
Qed.

(** what the adapter accepts.  A seal is enforced exactly when the registry does not hold
    it, has room, and a node that is asked says its output is unspent; an anchor is final
    exactly when it is in no block or its block has the configured depth; a roll back is
    refused exactly above the height known, and frees the seal of the anchor's own
    outpoint below it. *)
Theorem adapter_checks_exact (rpc : option Node) (s : BitcoinSealPoint) (a : BitcoinCommitAnchor)
    (p : BitcoinSealProtocol) :
  (is_ok (enforce_seal rpc s p) = true <->
   is_seal_used s (seal_registry p) = false /\ reg_is_full (seal_registry p) = false /\
   forall n, rpc = Some n -> is_utxo_unspent n (txid s) (vout s) = Ok true) /\
  (is_ok (verify_finality rpc a p) = true <->
   an_block_height a = 0%N \/ (finality_depth p <= get_current_height rpc - an_block_height a)%N) /\
  match rollback rpc a p with
  | Ok p' => (an_block_height a <= get_current_height rpc)%N /\
             (is_seal_used (mkBtcSeal (an_txid a) (an_output_index a) None) (seal_registry p') = true ->
              an_block_height a = get_current_height rpc)
  | Err _ => (get_current_height rpc < an_block_height a)%N
  end.
Proof.
  split; [|split].
  - split.
    + intros (p' & (Hk & Hn & r & Hr & ->)%enforce_ok)%is_ok_inv. apply (mark_ok s 0) in Hr as (_ & Hs & _).
      unfold is_seal_used, reg_is_full. by rewrite bool_decide_eq_false, Nat.leb_gt.
    + unfold is_seal_used, reg_is_full. rewrite bool_decide_eq_false, Nat.leb_gt. intros (Hk & Hs & Hn).
      assert (Hm : mark_seal_used s (seal_registry p) = Ok _) by (by apply (mark_ok s 0)).
      assert (He : enforce_seal rpc s p = Ok _) by (apply enforce_ok; eauto). by rewrite He.
  - apply verify_finality_ok.
  - unfold rollback. destruct (N.ltb_spec (get_current_height rpc) (an_block_height a)) as [Hlt|Hge]; [done|].
    cbn [guard_err]. split; [done|]. destruct (N.ltb_spec (an_block_height a) (get_current_height rpc)); [|lia].
    unfold is_seal_used. cbn. rewrite bool_decide_eq_true. set_solver.
Qed.

Lemma core_seal_ok s : (forall n, btc_nonce s = Some n -> (n <= u64_max)%N) -> seal_ok (core_seal s).
Proof.
  intros Hn. split; [|split; [exact Hn|done]].
  unfold core_seal, blen, u32_max. cbn [seal_id]. by rewrite b32_length.
Qed.

(** what an adapter's commitment binds.  Two commitments that agree are to one contract,
    one previous commitment, one payload, one domain and one transaction with its nonce,
    unless two of the strings hashed for the two collide. *)
Theorem hash_commitment_binds (sha256 : bytes -> Bytes32) (c prev pl c' prev' pl' : Hash)
    (s s' : BitcoinSealPoint) (p p' : BitcoinSealProtocol)
    (Hn : forall n, btc_nonce s = Some n -> (n <= u64_max)%N)
    (Hn' : forall n, btc_nonce s' = Some n -> (n <= u64_max)%N)
    (H : hash_commitment sha256 c prev pl s p = hash_commitment sha256 c' prev' pl' s' p') :
  (c, prev, pl, domain_separator p, txid s, btc_nonce s)
  = (c', prev', pl', domain_separator p', txid s', btc_nonce s') \/
  collision_in sha256
    (commitment_hashed sha256 (Commitment_simple sha256 c prev pl (core_seal s) (domain_separator p)) (core_seal s) ++
     commitment_hashed sha256 (Commitment_simple sha256 c' prev' pl' (core_seal s') (domain_separator p')) (core_seal s')).
Proof.
  unfold hash_commitment, Commitment_simple in *.
  apply commitment_hash_binds in H as [H|?]; [left|by right|by apply core_seal_ok..].
  unfold core_seal in H. injection H as -> _ -> -> Ht -> ->. apply b32_inj in Ht. by rewrite Ht.
Qed.

(** what is committed to is not what the arguments say.  The adapter's commitment is that
    of a Commitment whose protocol is the contract, whose contract is the payload, whose
    payload is the previous commitment and which has no previous commitment. *)
Theorem hash_commitment_misplaces (sha256 : bytes -> Bytes32) (c prev pl : Hash)
    (s : BitcoinSealPoint) (p : BitcoinSealProtocol) :
  hash_commitment sha256 c prev pl s p
  = commitment_hash sha256
      (Commitment_new sha256 c (mux_root sha256 [mkMuxLeaf c prev]) pl Hash.zero prev (core_seal s)
         (domain_separator p)).
Proof. done. Qed.

(** bundles.  Every bundle the Bitcoin adapter builds is over a block that holds the
    anchor according to the node, with the depth asked for and a signature that is not empty.
    Its inclusion proof takes the place in the block for a height and the height for a place,
    and names no leaf: the chain verifier refuses every such bundle. *)
Theorem bitcoin_bundle_refused (sha256 : bytes -> Bytes32) (rpc : option Node) (a : BitcoinCommitAnchor)
    (d : Consignment.DagSegment) (p : BitcoinSealProtocol) (b : ProofTaxonomy.ProofBundle)
    (H : build_proof_bundle sha256 rpc a d p = Ok b) :
  (exists n h i, rpc = Some n /\ block_hash_at n (an_block_height a) = Ok h /\
                 inclusion_of n (an_txid a) h = Ok i /\
                 ProofTaxonomy.block_number (ProofTaxonomy.inclusion_proof b) = BitcoinSpv.tx_index i) /\
  ProofTaxonomy.inc_leaf_index (ProofTaxonomy.inclusion_proof b) = an_block_height a /\
  (an_block_height a = 0%N \/ (finality_depth p <= get_current_height rpc - an_block_height a)%N) /\
  Consignment.segment_proof d <> [] /\
  ChainProofs.validate_bundle sha256 b <> ChainProofs.Valid.
Proof.
  unfold build_proof_bundle in H. apply bind_ok in H as (i & Hi & H).
  apply bind_ok in H as (f & Hf & H). apply guard_err_ok in H as [_ H].
  apply bind_ok in H as (sr & _ & H). apply bind_ok in H as (ar & _ & H).
  apply bind_ok in H as (inc & Hinc%map_err_ok & H). apply bind_ok in H as (fin & _ & H).
  apply guard_err_ok in H as [Hs H]. apply map_err_ok in H.
  apply guard_err_ok in H as [_ [= <-]], Hinc as [_ [= <-]].
  apply bind_ok in Hi as (n & Hn & Hi). apply bind_ok in Hi as (h & Hh%map_err_ok & Hi%map_err_ok).
  destruct rpc as [n0|]; [injection Hn as ->|done].
  split; [by exists n, h, i|]. split; [done|].
  split; [apply verify_finality_ok; by rewrite Hf|]. split; [|by apply ChainProofs.zero_leaf_refused].
  intros E. cbn in Hs. rewrite E in Hs. by rewrite bool_decide_eq_true_2 in Hs by done.
Qed.

(** batching.  A commitment is queued exactly when the queue has room; a batch and what
    is left are together the queue, in its order, with no more than the batch size taken; and
    every commitment of a batch gets a proof, under its own request, that verifies against
    the root of the batch: making the proofs never fails. *)
Theorem batches_exact (sha256 : bytes -> Bytes32) (now : N) (c : Hash) (s : BitcoinSealPoint) (id : string)
    (b : MpcBatcher) :
  (is_ok (queue_commitment now c s id b) = true <-> length (pending b) < max_queue_depth b) /\
  match build_mpc_tree b with
  | (None, b') => pending b = [] /\ b' = b
  | (Some (tree, batch), b') =>
      pending b = batch ++ pending b' /\ length batch = Nat.min (batch_size b) (length (pending b)) /\
      exists proofs, generate_proofs sha256 tree batch = Ok proofs /\
        Forall2 (fun c p => fst p = pc_request_id c /\ mp_protocol_id (snd p) = CSV_BTC_PROTOCOL_ID /\
                            mp_commitment (snd p) = pc_commitment c /\
                            mux_verify sha256 (snd p) (mux_root sha256 tree) = true) batch proofs
  end.
Proof.
  split.
  - unfold queue_commitment. destruct (Nat.leb_spec (max_queue_depth b) (length (pending b))); cbn; split; (done || lia).
  - unfold build_mpc_tree. destruct (pending b) as [|x l] eqn:E; [done|]. rewrite <- E. cbn [pending set_pending].
    split; [by rewrite take_drop|]. split; [rewrite length_take; lia|].
    by apply (proofs_from_ok sha256 _ []).
Qed.

(** ** Witnesses *)

Definition demo_seal : BitcoinSealPoint := mkBtcSeal (fill32 Byte.x01) 0 (Some 10000%N).
Definition demo_held : BitcoinSealProtocol :=
  match enforce_seal (Some (demo_node (Some 300%N))) demo_seal demo_protocol with Ok p => p | Err _ => demo_protocol end.

Lemma seal_enforced_once_witness :
  exists m, enforce_seal None demo_seal
              (fold_left adapter_step [Rollback None (mkBtcAnchor (fill32 Byte.x01) 1 100)] demo_held)
            = Err (SealReplay m).
Proof.
  apply (seal_enforced_once (Some (demo_node (Some 300%N))) None demo_seal demo_protocol demo_held).
  - reflexivity.
  - repeat constructor.
Defined.

Lemma hash_commitment_binds_witness :
  (zero32, fill32 Byte.x02, zero32, domain_separator demo_protocol, txid demo_seal, btc_nonce demo_seal)
  = (zero32, fill32 Byte.x02, zero32, domain_separator demo_held, txid demo_seal, btc_nonce demo_seal) \/
  let made p := commitment_hashed toy_hash (Commitment_simple toy_hash zero32 (fill32 Byte.x02) zero32
                  (core_seal demo_seal) (domain_separator p)) (core_seal demo_seal) in
  collision_in toy_hash (made demo_protocol ++ made demo_held).
Proof.
  apply (hash_commitment_binds toy_hash zero32 (fill32 Byte.x02) zero32 zero32 (fill32 Byte.x02) zero32
           demo_seal demo_seal demo_protocol demo_held); [by intros n [= <-]|by intros n [= <-]|reflexivity].
Defined.

Definition demo_anchor : BitcoinCommitAnchor := mkBtcAnchor (fill32 Byte.x01) 0 100.
Definition demo_dag : Consignment.DagSegment := Consignment.mkSegment zero32 zero32 [Byte.x07] [Byte.x08].
Definition demo_bundle : ProofTaxonomy.ProofBundle :=
  match build_proof_bundle toy_hash (Some (demo_node (Some 300%N))) demo_anchor demo_dag demo_protocol with
  | Ok b => b
  | Err _ => ProofTaxonomy.mkProofBundle 0 (mkSegment [] zero32) [] ProofTaxonomy.Secp256k1
               (mkSealPoint [] None None) (mkCommitAnchor [] 0 [])
               (ProofTaxonomy.mkInclusionProof [] zero32 0 0 zero32 zero32 [] 0 "")
               (ProofTaxonomy.mkFinalityProof [] zero32 0 0 [] "" true)
  end.

Lemma bitcoin_bundle_refused_witness :
  ProofTaxonomy.inc_leaf_index (ProofTaxonomy.inclusion_proof demo_bundle) = 100%N /\
  ChainProofs.validate_bundle toy_hash demo_bundle <> ChainProofs.Valid.
Proof.
  destruct (bitcoin_bundle_refused toy_hash (Some (demo_node (Some 300%N))) demo_anchor demo_dag demo_protocol
              demo_bundle eq_refl) as (_ & Hl & _ & _ & Hv).
  split; [exact Hl|exact Hv].
Defined.
