(* ===== verification/ProofCommitments.v ===== *)
(** * Enhanced commitments and mandate signatures (csv-proof: commitments_ext.rs, mandate_signature.rs)

    A commitment that names its scheme and the kinds of proof it comes with, its metadata and
    the byte forms of both, in which every optional field stands behind a flag and whatever
    follows the last field is left unread; the hash-based stand-in for Pedersen commitments;
    and the check of a mandate's signature, with the Ed25519 crate as parameters. *)

From S2P Require Import Prelude Ord Bytes Hashing Text Decode.
From S2P Require Mandate.

(** ** Kinds *)

Inductive CommitmentScheme := HashBased | Pedersen | KZG | Bulletproofs | Multilinear | FRI | CustomScheme.
Inductive InclusionProofType := MerkleType | MerklePatricia | ObjectProof | Accumulator | AccountState | CustomInclusion.
Inductive FinalityProofType := ConfirmationDepth | CheckpointType | FinalizedBlock | SlotBased | CustomFinality.

Definition scheme_str (s : CommitmentScheme) : string :=
  match s with
  | HashBased => "hash_based" | Pedersen => "pedersen" | KZG => "kzg" | Bulletproofs => "bulletproofs"
  | Multilinear => "multilinear" | FRI => "fri" | CustomScheme => "custom"
  end.
Definition scheme_of_str (s : string) : option CommitmentScheme :=
  List.find (fun k => bool_decide (scheme_str k = s)) [HashBased; Pedersen; KZG; Bulletproofs; Multilinear; FRI; CustomScheme].
Definition inclusion_str (s : InclusionProofType) : string :=
  match s with
  | MerkleType => "merkle" | MerklePatricia => "merkle_patricia" | ObjectProof => "object_proof"
  | Accumulator => "accumulator" | AccountState => "account_state" | CustomInclusion => "custom"
  end.
Definition inclusion_of_str (s : string) : option InclusionProofType :=
  List.find (fun k => bool_decide (inclusion_str k = s))
    [MerkleType; MerklePatricia; ObjectProof; Accumulator; AccountState; CustomInclusion].
Definition finality_str (s : FinalityProofType) : string :=
  match s with
  | ConfirmationDepth => "confirmation_depth" | CheckpointType => "checkpoint" | FinalizedBlock => "finalized_block"
  | SlotBased => "slot_based" | CustomFinality => "custom"
  end.
Definition finality_of_str (s : string) : option FinalityProofType :=
  List.find (fun k => bool_decide (finality_str k = s)) [ConfirmationDepth; CheckpointType; FinalizedBlock; SlotBased; CustomFinality].

(** [t as u8] and [try_from] *)
Definition scheme_tag (s : CommitmentScheme) : byte :=
  match s with
  | HashBased => Byte.x00 | Pedersen => Byte.x01 | KZG => Byte.x02 | Bulletproofs => Byte.x03
  | Multilinear => Byte.x04 | FRI => Byte.x05 | CustomScheme => Byte.x06
  end.
Definition scheme_of (b : byte) : option CommitmentScheme :=
  match b with
  | Byte.x00 => Some HashBased | Byte.x01 => Some Pedersen | Byte.x02 => Some KZG | Byte.x03 => Some Bulletproofs
  | Byte.x04 => Some Multilinear | Byte.x05 => Some FRI | Byte.x06 => Some CustomScheme | _ => None
  end.
Definition inclusion_tag (t : InclusionProofType) : byte :=
  match t with
  | MerkleType => Byte.x00 | MerklePatricia => Byte.x01 | ObjectProof => Byte.x02
  | Accumulator => Byte.x03 | AccountState => Byte.x04 | CustomInclusion => Byte.x05
  end.
Definition inclusion_of (b : byte) : option InclusionProofType :=
  match b with
  | Byte.x00 => Some MerkleType | Byte.x01 => Some MerklePatricia | Byte.x02 => Some ObjectProof
  | Byte.x03 => Some Accumulator | Byte.x04 => Some AccountState | Byte.x05 => Some CustomInclusion | _ => None
  end.
Definition finality_tag (t : FinalityProofType) : byte :=
  match t with
  | ConfirmationDepth => Byte.x00 | CheckpointType => Byte.x01 | FinalizedBlock => Byte.x02
  | SlotBased => Byte.x03 | CustomFinality => Byte.x04
  end.
Definition finality_of (b : byte) : option FinalityProofType :=
  match b with
  | Byte.x00 => Some ConfirmationDepth | Byte.x01 => Some CheckpointType | Byte.x02 => Some FinalizedBlock
  | Byte.x03 => Some SlotBased | Byte.x04 => Some CustomFinality | _ => None
  end.

(** ** Metadata *)

Record ProofMetadata := mkMetadata {
  pm_inclusion : option InclusionProofType;
  pm_finality : option FinalityProofType;
  pm_scheme : option CommitmentScheme;
  proof_size_bytes : option N;
  pm_confirmations : option N;
  extra : bytes
}.
(** [extra.len() as u32] *)
Definition metadata_bytes (m : ProofMetadata) : bytes :=
  push_option (fun t => one (inclusion_tag t)) (pm_inclusion m) ++ push_option (fun t => one (finality_tag t)) (pm_finality m) ++
  push_option (fun t => one (scheme_tag t)) (pm_scheme m) ++ push_option u64_le (proof_size_bytes m) ++
  push_option u64_le (pm_confirmations m) ++ u32_le (wrap32 (blen (extra m))) ++ extra m.

Definition insufficient (what : string) : string := "Insufficient bytes for " +:+ what.
(** A flag, any byte but zero for a value, and the value. *)
Definition read_flagged {A} (name : string) (rd : bytes -> result string (A * bytes)) (b : bytes)
  : result string (option A * bytes) :=
  '(flag, b) ← read_u8 (insufficient (name +:+ " flag")) b;
  if bool_decide (flag = Byte.x00) then Ok (None, b) else '(x, b) ← rd b; Ok (Some x, b).
Definition read_kind {A} (name : string) (untag : byte -> option A) : bytes -> result string (A * bytes) :=
  read_tag (insufficient (name +:+ " value")) ("Invalid " +:+ name +:+ " value") untag.
Definition read_metadata (b : bytes) : result string (ProofMetadata * bytes) :=
  '(inclusion, b) ← read_flagged "inclusion_proof_type" (read_kind "inclusion_proof_type" inclusion_of) b;
  '(finality, b) ← read_flagged "finality_proof_type" (read_kind "finality_proof_type" finality_of) b;
  '(scheme, b) ← read_flagged "commitment_scheme" (read_kind "commitment_scheme" scheme_of) b;
  '(size, b) ← read_flagged "proof_size_bytes" (read_u64_le (insufficient "proof_size_bytes value")) b;
  '(confirmations, b) ← read_flagged "confirmations" (read_u64_le (insufficient "confirmations value")) b;
  '(e, b) ← read_sized (insufficient "extra length") (insufficient "extra data") b;
  Ok (mkMetadata inclusion finality scheme size confirmations e, b).
Definition metadata_from_canonical_bytes (b : bytes) : result string ProofMetadata :=
  '(m, _) ← read_metadata b; Ok m.

(** ** Commitments *)

Record EnhancedCommitment := mkEnhanced {
  ec_version : byte; ec_protocol_id : Bytes32; ec_mpc_root : Bytes32; ec_contract_id : Bytes32;
  ec_previous_commitment : Bytes32; ec_transition_payload_hash : Bytes32; ec_seal_id : Bytes32; ec_domain_separator : Bytes32;
  commitment_scheme : CommitmentScheme; inclusion_proof_type : InclusionProofType; finality_proof_type : FinalityProofType;
  proof_metadata : ProofMetadata
}.
Definition enhanced_new v pid root contract prev payload seal sep scheme inc fin : EnhancedCommitment :=
  mkEnhanced v pid root contract prev payload seal sep scheme inc fin
    (mkMetadata (Some inc) (Some fin) (Some scheme) None None []).
Definition with_proof_metadata (size confirmations : N) (c : EnhancedCommitment) : EnhancedCommitment :=
  let m := proof_metadata c in
  mkEnhanced (ec_version c) (ec_protocol_id c) (ec_mpc_root c) (ec_contract_id c) (ec_previous_commitment c)
    (ec_transition_payload_hash c) (ec_seal_id c) (ec_domain_separator c) (commitment_scheme c) (inclusion_proof_type c)
    (finality_proof_type c) (mkMetadata (pm_inclusion m) (pm_finality m) (pm_scheme m) (Some size) (Some confirmations) (extra m)).
Definition is_scheme_supported (c : EnhancedCommitment) : bool :=
  match commitment_scheme c with HashBased | Pedersen | KZG | Bulletproofs => true | _ => false end.
Definition is_proof_type_valid_for_chain (c : EnhancedCommitment) (chain : string) : bool :=
  match inclusion_proof_type c with
  | MerkleType => bool_decide (chain = "bitcoin"%string)
  | MerklePatricia => bool_decide (chain = "ethereum"%string)
  | ObjectProof => bool_decide (chain = "sui"%string)
  | Accumulator => bool_decide (chain = "aptos"%string)
  | AccountState => bool_decide (chain = "solana"%string)
  | CustomInclusion => true
  end.

Definition enhanced_to_bytes (c : EnhancedCommitment) : bytes :=
  one (ec_version c) ++ b32 (ec_protocol_id c) ++ b32 (ec_mpc_root c) ++ b32 (ec_contract_id c) ++
  b32 (ec_previous_commitment c) ++ b32 (ec_transition_payload_hash c) ++ b32 (ec_seal_id c) ++ b32 (ec_domain_separator c) ++
  one (scheme_tag (commitment_scheme c)) ++ one (inclusion_tag (inclusion_proof_type c)) ++
  one (finality_tag (finality_proof_type c)) ++
  u32_le (wrap32 (blen (metadata_bytes (proof_metadata c)))) ++ metadata_bytes (proof_metadata c).

Definition read_plain_kind {A} (name : string) (untag : byte -> option A) : bytes -> result string (A * bytes) :=
  read_tag (insufficient name) ("Invalid " +:+ name +:+ " value") untag.
Definition enhanced_from_bytes (b : bytes) : result string EnhancedCommitment :=
  '(version, b) ← read_u8 (insufficient "version") b;
  '(pid, b) ← read_b32 (insufficient "protocol_id") b;
  '(root, b) ← read_b32 (insufficient "mpc_root") b;
  '(contract, b) ← read_b32 (insufficient "contract_id") b;
  '(prev, b) ← read_b32 (insufficient "previous_commitment") b;
  '(payload, b) ← read_b32 (insufficient "transition_payload_hash") b;
  '(seal, b) ← read_b32 (insufficient "seal_id") b;
  '(sep, b) ← read_b32 (insufficient "domain_separator") b;
  '(scheme, b) ← read_plain_kind "commitment_scheme" scheme_of b;
  '(inc, b) ← read_plain_kind "inclusion_proof_type" inclusion_of b;
  '(fin, b) ← read_plain_kind "finality_proof_type" finality_of b;
  '(mb, b) ← read_sized (insufficient "proof_metadata length") (insufficient "proof_metadata") b;
  m ← map_err (fun e => "Failed to deserialize proof_metadata: " +:+ e) (metadata_from_canonical_bytes mb);
  Ok (mkEnhanced version pid root contract prev payload seal sep scheme inc fin m).

Section Hashes.
Variable sha256 : bytes -> Bytes32.
Definition hashed_bytes (c : EnhancedCommitment) : bytes :=
  b32 (ec_domain_separator c) ++ one (ec_version c) ++ b32 (ec_protocol_id c) ++ b32 (ec_mpc_root c) ++ b32 (ec_contract_id c) ++
  b32 (ec_previous_commitment c) ++ b32 (ec_transition_payload_hash c) ++ b32 (ec_seal_id c).
Definition compute_hash (c : EnhancedCommitment) : Hash := sha256 (hashed_bytes c).

(** ** The hash-based stand-in for Pedersen commitments

    CBOR of an opening and of two byte strings; a failure is its message. *)
Variables (cbor_opening : bytes -> N -> result string bytes) (cbor_pair : bytes -> bytes -> result string bytes).
Record PedersenCommitment := mkPedersen { pc_commitment : bytes; blinding_factor : bytes; pc_value : N }.
Definition or_message (prefix : string) (r : result string bytes) : bytes :=
  match r with Ok b => b | Err e => as_bytes (prefix +:+ e) end.
Definition opening_payload (blinding : bytes) (value : N) : bytes :=
  or_message "pedersen-commitment-serialization-error:" (cbor_opening blinding value).
Definition opening_hash (blinding : bytes) (value : N) : Bytes32 :=
  csv_tagged_hash sha256 (as_bytes "urn:lnp-bp:csv:pedersen-commitment:v1") (opening_payload blinding value).
Definition pedersen_new (value : N) (blinding : bytes) : PedersenCommitment :=
  mkPedersen (b32 (opening_hash blinding value)) blinding value.
Definition pedersen_verify (c : PedersenCommitment) : bool :=
  bool_decide (b32 (opening_hash (blinding_factor c) (pc_value c)) = pc_commitment c).
Definition pedersen_add (c d : PedersenCommitment) : PedersenCommitment :=
  let blinding := csv_tagged_hash sha256 (as_bytes "urn:lnp-bp:csv:pedersen-add-blinding:v1")
                    (or_message "pedersen-blinding-serialization-error:" (cbor_pair (blinding_factor c) (blinding_factor d))) in
  let commitment := csv_tagged_hash sha256 (as_bytes "urn:lnp-bp:csv:pedersen-add-commitment:v1")
                      (or_message "pedersen-add-serialization-error:" (cbor_pair (pc_commitment c) (pc_commitment d))) in
  mkPedersen (b32 commitment) (b32 blinding) (add64 (pc_value c) (pc_value d)).

(** ** The signature of a mandate

    Ed25519: whether 32 bytes are a key, and its verification of a message. *)
Variables (key_ok : Bytes32 -> bool) (ed25519_verify : Bytes32 -> bytes -> bytes -> bool).
Inductive MandateSignatureError := InvalidEnvelope | KeyIdMismatch | MalformedCryptographicInput | InvalidSignature.
Definition verify_mandate_signature (m : Mandate.ActionMandate) (e : Mandate.MandateSignatureEnvelope)
    (resolved_key_id verifying_key : bytes) : result MandateSignatureError unit :=
  _ ← map_err (fun _ => InvalidEnvelope) (Mandate.validate_for e m);
  reject negb (bool_decide (Mandate.env_algorithm e = Mandate.ED25519_SIGNATURE_ALGORITHM)) with InvalidEnvelope;;
  reject negb (bool_decide (Mandate.env_key_id e = resolved_key_id)) with KeyIdMismatch;;
  key_bytes ← ok_or MalformedCryptographicInput (to_b32 verifying_key);
  reject negb (key_ok key_bytes) with MalformedCryptographicInput;;
  reject negb (length (Mandate.env_signature e) =? 64) with MalformedCryptographicInput;;
  message ← map_err (fun _ => InvalidEnvelope) (Mandate.signing_bytes sha256 m);
  reject negb (ed25519_verify key_bytes message (Mandate.env_signature e)) with InvalidSignature;;
  Ok tt.
End Hashes.

(** ** Lemmas *)

Lemma read_flagged_push {A} name (rd : bytes -> result string (A * bytes)) P enc `{!Reads P enc rd} o rest :
  opt_ok P o -> read_flagged name rd (push_option enc o ++ rest) = Ok (o, rest).
Proof.
  intros Ho. unfold read_flagged. destruct o as [x|]; cbn [push_option app]; [|done].
  cbn [read_u8 mbind result_bind]. rewrite bool_decide_false by done. by rewrite (reads_app P enc rd) by (by apply Ho).
Qed.

Lemma scheme_of_tag t k : scheme_of t = Some k <-> scheme_tag k = t.
Proof. split; [|intros <-; by destruct k]. destruct t; by intros [= <-]. Qed.
Lemma inclusion_of_tag t k : inclusion_of t = Some k <-> inclusion_tag k = t.
Proof. split; [|intros <-; by destruct k]. destruct t; by intros [= <-]. Qed.
Lemma finality_of_tag t k : finality_of t = Some k <-> finality_tag k = t.
Proof. split; [|intros <-; by destruct k]. destruct t; by intros [= <-]. Qed.
#[export] Instance reads_scheme e e' : Reads any (fun k => one (scheme_tag k)) (read_tag (E:=string) e e' scheme_of).
Proof. apply reads_tag, scheme_of_tag. Qed.
#[export] Instance reads_inclusion e e' : Reads any (fun k => one (inclusion_tag k)) (read_tag (E:=string) e e' inclusion_of).
Proof. apply reads_tag, inclusion_of_tag. Qed.
#[export] Instance reads_finality e e' : Reads any (fun k => one (finality_tag k)) (read_tag (E:=string) e e' finality_of).
Proof. apply reads_tag, finality_of_tag. Qed.

(** The sizes of a 64-bit machine and of the 32-bit length fields. *)
Record metadata_ok (m : ProofMetadata) : Prop := {
  mo_size : opt_ok (fun n => n <= u64_max)%N (proof_size_bytes m);
  mo_confirmations : opt_ok (fun n => n <= u64_max)%N (pm_confirmations m);
  mo_extra : (blen (extra m) + 64 <= u32_max)%N
}.

Lemma read_sized_bytes (e1 e2 : string) l rest :
  (blen l <= u32_max)%N -> read_sized e1 e2 (u32_le (wrap32 (blen l)) ++ l ++ rest) = Ok (l, rest).
Proof.
  intros Hl. unfold read_sized. rewrite wrap32_small by done. rewrite read_u32_le_app by done. cbn [mbind result_bind].
  unfold blen. rewrite Nat2N.id. apply take_n_app.
Qed.

Lemma read_metadata_bytes m rest : metadata_ok m -> read_metadata (metadata_bytes m ++ rest) = Ok (m, rest).
Proof.
  intros [Hs Hc He]. unfold read_metadata, metadata_bytes, read_kind. rewrite <- !app_assoc.
  rewrite (read_flagged_push _ (read_tag _ _ inclusion_of) any (fun k => one (inclusion_tag k))) by apply opt_any. cbn [mbind result_bind].
  rewrite (read_flagged_push _ (read_tag _ _ finality_of) any (fun k => one (finality_tag k))) by apply opt_any. cbn [mbind result_bind].
  rewrite (read_flagged_push _ (read_tag _ _ scheme_of) any (fun k => one (scheme_tag k))) by apply opt_any. cbn [mbind result_bind].
  rewrite (read_flagged_push _ (read_u64_le _) (fun n => n <= u64_max)%N u64_le) by done. cbn [mbind result_bind].
  rewrite (read_flagged_push _ (read_u64_le _) (fun n => n <= u64_max)%N u64_le) by done. cbn [mbind result_bind].
  rewrite read_sized_bytes by lia. cbn [mbind result_bind]. by destruct m.
Qed.

Lemma metadata_short m : metadata_ok m -> (blen (metadata_bytes m) <= u32_max)%N.
Proof.
  intros [_ _ He]. assert (H1 : forall o, (blen (push_option u64_le o) <= 9)%N).
  { intros [n|]; [|done]. cbn [push_option]. unfold blen. cbn [length]. unfold u64_le. rewrite length_le_bytes. done. }
  unfold metadata_bytes. rewrite !blen_app. pose proof (H1 (proof_size_bytes m)). pose proof (H1 (pm_confirmations m)).
  assert (H4 : blen (u32_le (wrap32 (blen (extra m)))) = 4%N) by (unfold blen, u32_le; by rewrite length_le_bytes).
  assert (Ha : (blen (push_option (fun t => one (inclusion_tag t)) (pm_inclusion m)) <= 2)%N) by (by destruct (pm_inclusion m)).
  assert (Hb : (blen (push_option (fun t => one (finality_tag t)) (pm_finality m)) <= 2)%N) by (by destruct (pm_finality m)).
  assert (Hc : (blen (push_option (fun t => one (scheme_tag t)) (pm_scheme m)) <= 2)%N) by (by destruct (pm_scheme m)).
  lia.
Qed.

(** ** Properties *)

(** An enhanced commitment is read back from its bytes, and so is its metadata from its own,
    whatever bytes follow, when the metadata's numbers have 64 bits and its extra data leaves
    room for the rest in a 32-bit length. *)
Theorem enhanced_roundtrip c rest :
  metadata_ok (proof_metadata c) ->
  enhanced_from_bytes (enhanced_to_bytes c ++ rest) = Ok c
  /\ metadata_from_canonical_bytes (metadata_bytes (proof_metadata c) ++ rest) = Ok (proof_metadata c).
Proof.
  intros Hm. split; [|unfold metadata_from_canonical_bytes; by rewrite read_metadata_bytes].
  unfold enhanced_from_bytes, enhanced_to_bytes, read_plain_kind. rewrite <- !app_assoc.
  rewrite (reads_app any one (read_u8 _)) by exact I. cbn [mbind result_bind]. rewrite !read_b32_app. cbn [mbind result_bind].
  do 6 (rewrite read_b32_app; cbn [mbind result_bind]).
  rewrite (reads_app any (fun k => one (scheme_tag k)) (read_tag _ _ scheme_of)) by exact I. cbn [mbind result_bind].
  rewrite (reads_app any (fun k => one (inclusion_tag k)) (read_tag _ _ inclusion_of)) by exact I. cbn [mbind result_bind].
  rewrite (reads_app any (fun k => one (finality_tag k)) (read_tag _ _ finality_of)) by exact I. cbn [mbind result_bind].
  rewrite read_sized_bytes by (by apply metadata_short). cbn [mbind result_bind].
  unfold metadata_from_canonical_bytes. rewrite <- (app_nil_r (metadata_bytes _)), read_metadata_bytes by done.
  cbn. by destruct c.
Qed.

Definition demo_enhanced : EnhancedCommitment :=
  with_proof_metadata 100 6 (enhanced_new Byte.x01 zero32 zero32 zero32 zero32 zero32 zero32 zero32 KZG ObjectProof SlotBased).
Lemma enhanced_roundtrip_witness : enhanced_from_bytes (enhanced_to_bytes demo_enhanced ++ [Byte.xff]) = Ok demo_enhanced.
Proof.
  refine (proj1 (enhanced_roundtrip demo_enhanced [Byte.xff] _)).
  split; [intros n [= <-]; apply N.leb_le; reflexivity|intros n [= <-]; apply N.leb_le; reflexivity|apply N.leb_le; reflexivity].
Defined.

Lemma scheme_str_roundtrip s : scheme_of_str (scheme_str s) = Some s.
Proof. by destruct s. Qed.
Lemma inclusion_str_roundtrip s : inclusion_of_str (inclusion_str s) = Some s.
Proof. by destruct s. Qed.
Lemma finality_str_roundtrip s : finality_of_str (finality_str s) = Some s.
Proof. by destruct s. Qed.

(** The bytes of a decoded value may differ from those it came from: any byte but zero is a
    flag, and what follows is ignored. *)
Lemma metadata_bytes_malleable :
  metadata_from_canonical_bytes ([Byte.x02; Byte.x00] ++ replicate 8 Byte.x00) =
  metadata_from_canonical_bytes ([Byte.x01; Byte.x00] ++ replicate 9 Byte.x00).
Proof. by vm_compute. Qed.

(** The hash of an enhanced commitment binds its version, its six digests and its domain
    separator: two commitments with one hash agree on them, unless the bytes hashed for the two
    collide. *)
Theorem enhanced_hash_binds sha256 c d :
  compute_hash sha256 c = compute_hash sha256 d ->
  (ec_version c, ec_protocol_id c, ec_mpc_root c, ec_contract_id c, ec_previous_commitment c, ec_transition_payload_hash c,
   ec_seal_id c, ec_domain_separator c)
  = (ec_version d, ec_protocol_id d, ec_mpc_root d, ec_contract_id d, ec_previous_commitment d, ec_transition_payload_hash d,
     ec_seal_id d, ec_domain_separator d)
  \/ collision_in sha256 [hashed_bytes c; hashed_bytes d].
Proof.
  unfold compute_hash. intros H. hash_inj H. left. unfold hashed_bytes in H.
  apply app_eq_length_inj in H as [H8 H]; [|by rewrite !b32_length].
  apply app_eq_length_inj in H as [H1 H]; [|done].
  do 5 (apply app_eq_length_inj in H as [?%b32_inj H]; [|by rewrite !b32_length]).
  apply b32_inj in H, H8. injection H1 as H1. congruence.
Qed.
Lemma enhanced_hash_binds_witness :
  compute_hash toy_hash demo_enhanced = compute_hash toy_hash demo_enhanced /\
  ((ec_version demo_enhanced, ec_protocol_id demo_enhanced, ec_mpc_root demo_enhanced, ec_contract_id demo_enhanced,
    ec_previous_commitment demo_enhanced, ec_transition_payload_hash demo_enhanced, ec_seal_id demo_enhanced,
    ec_domain_separator demo_enhanced)
   = (ec_version demo_enhanced, ec_protocol_id demo_enhanced, ec_mpc_root demo_enhanced, ec_contract_id demo_enhanced,
      ec_previous_commitment demo_enhanced, ec_transition_payload_hash demo_enhanced, ec_seal_id demo_enhanced,
      ec_domain_separator demo_enhanced) \/
   collision_in toy_hash [hashed_bytes demo_enhanced; hashed_bytes demo_enhanced]).
Proof. split; [reflexivity|exact (enhanced_hash_binds toy_hash demo_enhanced demo_enhanced eq_refl)]. Defined.

(** It does not bind the scheme, the kinds of proof or the metadata. *)
Lemma hash_ignores_scheme sha256 v pid root contract prev payload seal sep scheme scheme' inc inc' fin fin' :
  compute_hash sha256 (enhanced_new v pid root contract prev payload seal sep scheme inc fin)
  = compute_hash sha256 (enhanced_new v pid root contract prev payload seal sep scheme' inc' fin').
Proof. done. Qed.

(** A new stand-in verifies.  A sum never does, unless two of the four strings hashed collide:
    it is hashed under another tag than the one that is checked. *)
Lemma pedersen_verifies sha256 cbor value blinding : pedersen_verify sha256 cbor (pedersen_new sha256 cbor value blinding) = true.
Proof. by apply bool_decide_eq_true. Qed.
Lemma pedersen_sum_never_verifies sha256 cbor pair c d :
  let sum := pedersen_add sha256 pair c d in
  pedersen_verify sha256 cbor sum = true ->
  collision_in sha256
    (csv_hashed sha256 (as_bytes "urn:lnp-bp:csv:pedersen-commitment:v1")
       (opening_payload cbor (blinding_factor sum) (pc_value sum)) ++
     csv_hashed sha256 (as_bytes "urn:lnp-bp:csv:pedersen-add-commitment:v1")
       (or_message "pedersen-add-serialization-error:" (pair (pc_commitment c) (pc_commitment d)))).
Proof.
  cbn zeta. intros H. apply bool_decide_eq_true, b32_inj in H. unfold opening_hash in H.
  cbn [pedersen_add pc_commitment blinding_factor pc_value] in *. by hash_names H.
Qed.

(** A mandate's signature is accepted exactly when the mandate and its envelope are valid
    for each other, the envelope names the key that was resolved, that key is one, and it
    signed the mandate's identifier. *)
Theorem mandate_signature_exact sha256 key_ok ed25519_verify m e resolved key :
  verify_mandate_signature sha256 key_ok ed25519_verify m e resolved key = Ok tt <->
  Mandate.validate_for e m = Ok tt /\ Mandate.env_key_id e = resolved
  /\ exists k id, to_b32 key = Some k /\ key_ok k = true /\ Mandate.mandate_id sha256 m = Ok id
     /\ ed25519_verify k (b32 id) (Mandate.env_signature e) = true.
Proof.
  unfold verify_mandate_signature. rewrite bind_unit_ok, map_err_ok, !guard_err_ok.
  rewrite !negb_false_iff, !bool_decide_eq_true. split.
  - intros (Hv & _ & Hr & H). apply bind_ok in H as (k & Hk & H). rewrite !guard_err_ok, !negb_false_iff in H.
    destruct H as (Hok & _ & H). apply bind_ok in H as (msg & Hm & H). rewrite guard_err_ok, negb_false_iff in H.
    apply map_err_ok in Hm. unfold Mandate.signing_bytes in Hm. apply bind_ok in Hm as (id & Hid & [= <-]).
    split_and!; [done|done|]. exists k, id. destruct (to_b32 key); [|done]. injection Hk as ->. naive_solver.
  - intros (Hv & Hr & k & id & Hk & Hok & Hid & Hs). pose proof Hv as Hv'. unfold Mandate.validate_for in Hv'.
    rewrite bind_unit_ok, !guard_err_ok, !orb_false_iff, !negb_false_iff, !bool_decide_eq_true in Hv'.
    destruct Hv' as (_ & _ & ((((_ & _) & Ha) & Hl) & _) & _). split_and!; [done|done|done|].
    rewrite Hk. cbn [ok_or mbind result_bind]. rewrite Hok. cbn [negb guard_err].
    apply N.eqb_eq in Hl. unfold blen in Hl. rewrite (proj2 (Nat.eqb_eq _ _)) by lia. cbn [negb guard_err].
    unfold Mandate.signing_bytes. rewrite Hid. cbn. by rewrite Hs.
Qed.
