(* ===== verification/Rlp.v ===== *)
(** * RLP and receipts of Ethereum (csv-adapters/csv-ethereum: proofs.rs, mpt.rs)

    The adapter reads a receipt with a decoder of its own and looks in its logs for the event
    that a seal was used.  Lengths are the machine's 64-bit numbers; a slice past the end
    panics, and the loop over the items of a list is given fuel, so that not returning is a
    value too.  On what an RLP encoder writes the decoder is exact: every log of the receipt,
    in order, with its address, topics and data.  On other input it may do worse than fail:
    an item that declares a length that wraps the cursor round to where it was is read for
    ever.  The trie check is that of a third-party crate, of which only its documented
    meaning is used. *)

From S2P Require Import Prelude Ord Bytes Hashing Text.

Inductive RlpFailure := Malformed | Panic | Diverges.

(** [&data[a..b]] *)
Definition slice (data : bytes) (a b : N) : result RlpFailure bytes :=
  if (a <=? b)%N && (b <=? blen data)%N then Ok (take (N.to_nat (b - a)) (drop (N.to_nat a) data)) else Err Panic.

(** [decode_big_endian] *)
Definition decode_big_endian (b : bytes) : N :=
  fold_left (fun r x => N.lor (wrap64 (N.shiftl r 8)) (Byte.to_N x)) b 0%N.

(** [rlp_decode_item_length] *)
Definition rlp_decode_item_length (data : bytes) : result RlpFailure (bool * N) :=
  match data with
  | [] => Err Malformed
  | b :: _ =>
      let prefix := Byte.to_N b in
      if (prefix <=? 127)%N then Ok (false, 1%N)
      else if (prefix <=? 183)%N then Ok (false, (1 + (prefix - 128))%N)
      else if (prefix <=? 191)%N then
        let len_of_len := (prefix - 183)%N in
        reject (blen data <? 1 + len_of_len)%N with Malformed;;
        l ← slice data 1 (1 + len_of_len);
        Ok (false, add64 (1 + len_of_len) (decode_big_endian l))
      else if (prefix <=? 247)%N then Ok (true, (1 + (prefix - 192))%N)
      else
        let len_of_len := (prefix - 247)%N in
        reject (blen data <? 1 + len_of_len)%N with Malformed;;
        l ← slice data 1 (1 + len_of_len);
        Ok (true, add64 (1 + len_of_len) (decode_big_endian l))
  end.

(** [rlp_parse_items]: the loop from an offset on. *)
Fixpoint rlp_parse_from (fuel : nat) (data : bytes) (offset : N) : result RlpFailure (list bytes) :=
  match fuel with
  | O => Err Diverges
  | S fuel =>
      if (offset <? blen data)%N then
        rest ← slice data offset (blen data);
        '(_, consumed) ← rlp_decode_item_length rest;
        let stop := add64 offset consumed in
        reject (blen data <? stop)%N with Malformed;;
        item ← slice data offset stop;
        items ← rlp_parse_from fuel data stop;
        Ok (item :: items)
      else Ok []
  end.
Definition rlp_parse_items (fuel : nat) (data : bytes) : result RlpFailure (list bytes) := rlp_parse_from fuel data 0.

Definition rlp_decode_list (fuel : nat) (data : bytes) : result RlpFailure (list bytes * N) :=
  match data with
  | [] => Err Malformed
  | b :: _ =>
      let prefix := Byte.to_N b in
      if (192 <=? prefix)%N && (prefix <=? 247)%N then
        let len := (prefix - 192)%N in
        reject (blen data <? 1 + len)%N with Malformed;;
        body ← slice data 1 (1 + len);
        items ← rlp_parse_items fuel body;
        Ok (items, (1 + len)%N)
      else if (248 <=? prefix)%N then
        let len_of_len := (prefix - 247)%N in
        reject (blen data <? 1 + len_of_len)%N with Malformed;;
        l ← slice data 1 (1 + len_of_len);
        let stop := add64 (1 + len_of_len) (decode_big_endian l) in
        reject (blen data <? stop)%N with Malformed;;
        body ← slice data (1 + len_of_len) stop;
        items ← rlp_parse_items fuel body;
        Ok (items, stop)
      else Err Malformed
  end.

Definition rlp_decode_bytes (data : bytes) : result RlpFailure bytes :=
  match data with
  | [] => Err Malformed
  | b :: _ =>
      let prefix := Byte.to_N b in
      if (prefix <=? 127)%N then Ok [b]
      else if (prefix <=? 183)%N then
        let len := (prefix - 128)%N in
        reject (blen data <? 1 + len)%N with Malformed;;
        slice data 1 (1 + len)
      else if (prefix <=? 191)%N then
        let len_of_len := (prefix - 183)%N in
        reject (blen data <? 1 + len_of_len)%N with Malformed;;
        l ← slice data 1 (1 + len_of_len);
        let stop := add64 (1 + len_of_len) (decode_big_endian l) in
        reject (blen data <? stop)%N with Malformed;;
        slice data (1 + len_of_len) stop
      else Ok []
  end.

(** ** Receipts *)

Record DecodedLog := mkLog { log_address : bytes; topics : list Bytes32; log_data : bytes; log_index : N }.

(** The loop over the topics: an error stops it, a topic of another length is left out. *)
Fixpoint decode_topics (items : list bytes) : result RlpFailure (list Bytes32) :=
  match items with
  | [] => Ok []
  | item :: items =>
      b ← rlp_decode_bytes item;
      rest ← decode_topics items;
      Ok (match to_b32 b with Some t => t :: rest | None => rest end)
  end.

Definition decode_single_log (fuel : nat) (log_rlp : bytes) (index : N) : result RlpFailure DecodedLog :=
  '(items, _) ← rlp_decode_list fuel log_rlp;
  match items with
  | address_rlp :: topics_rlp :: data_rlp :: _ =>
      address ← rlp_decode_bytes address_rlp;
      reject negb (length address =? 20) with Malformed;;
      '(topics_items, _) ← rlp_decode_list fuel topics_rlp;
      topics ← decode_topics topics_items;
      data ← rlp_decode_bytes data_rlp;
      Ok (mkLog address topics data index)
  | _ => Err Malformed
  end.

(** [if let Ok(log) = decode_single_log(..)]: a malformed log is left out; a panic or a loop
    is not caught. *)
Fixpoint decode_logs (fuel : nat) (items : list bytes) (index : N) : result RlpFailure (list DecodedLog) :=
  match items with
  | [] => Ok []
  | item :: items =>
      match decode_single_log fuel item index with
      | Ok log => logs ← decode_logs fuel items (index + 1); Ok (log :: logs)
      | Err Malformed => decode_logs fuel items (index + 1)
      | Err e => Err e
      end
  end.

Definition decode_logs_from_rlp (fuel : nat) (data : bytes) : result RlpFailure (list DecodedLog) :=
  reject (length data <? 2) with Malformed;;
  '(items, _) ← rlp_decode_list fuel data;
  match items with
  | _ :: _ :: _ :: logs_rlp :: _ =>
      '(logs, _) ← rlp_decode_list fuel logs_rlp;
      decode_logs fuel logs 0
  | _ => Err Malformed
  end.
Definition decode_receipt_logs (fuel : nat) (receipt_rlp : bytes) : result RlpFailure (list DecodedLog) :=
  match receipt_rlp with
  | [] => Ok []
  | b :: rest => if (Byte.to_N b <=? 127)%N then decode_logs_from_rlp fuel rest else decode_logs_from_rlp fuel receipt_rlp
  end.

Definition seal_used_log (address : bytes) (signature : Bytes32) (expected : option Bytes32) (l : DecodedLog) : bool :=
  bool_decide (log_address l = address)
  && bool_decide (head (topics l) = Some signature)
  && (64 <=? length (log_data l))
  && match expected with Some s => bool_decide (take 32 (log_data l) = b32 s) | None => true end.
Definition check_for_seal_used_event (logs : list DecodedLog) (address : bytes) (signature : Bytes32)
    (expected : option Bytes32) : bool := existsb (seal_used_log address signature expected) logs.

Record ReceiptProofResult := mkReceiptResult {
  is_valid : bool; receipt_hash : Bytes32; rp_block_number : N; rp_logs : list DecodedLog; has_seal_used_event : bool
}.

Section Receipts.
Variables (sha256 keccak256 : bytes -> Bytes32).
(** [alloy_trie::proof::verify_proof]: a root, the nibbles of a key, what is expected there,
    and the nodes. *)
Variable verify_proof : Bytes32 -> list N -> option bytes -> list bytes -> bool.
Variable EMPTY_ROOT_HASH : Bytes32.

Definition encode_key_to_nibbles (key : bytes) : list N :=
  flat_map (fun b => [N.land (N.shiftr (Byte.to_N b) 4) 15; N.land (Byte.to_N b) 15]) key.

Definition mpt_verify_receipt_proof (root : Bytes32) (proof : list bytes) (index : N) : bool :=
  match proof with [] => false | _ => verify_proof root (encode_key_to_nibbles (u64_be index)) None proof end.
Definition verify_full_receipt_proof (root : Bytes32) (index : N) (receipt_rlp : bytes) (nodes : list bytes) : bool :=
  if bool_decide (nodes = []) || bool_decide (receipt_rlp = []) then false
  else if bool_decide (root = EMPTY_ROOT_HASH) then false
  else if negb (verify_proof root (encode_key_to_nibbles (u64_be index)) None nodes) then false
  else negb (bool_decide (keccak256 receipt_rlp = zero32)).

(** [U256::decode] and [B256::decode] of alloy_rlp: the value and the bytes after it.
    [AccountRlp::decode] reads the four fields one after the other. *)
Variable decode_u256 : bytes -> option (N * bytes).
Variable decode_b256 : bytes -> option (Bytes32 * bytes).
Definition decode_account (buf : bytes) : option Bytes32 :=
  '(_, buf) ← decode_u256 buf;
  '(_, buf) ← decode_u256 buf;
  '(storage_root, buf) ← decode_b256 buf;
  '(_, _) ← decode_b256 buf;
  Some storage_root.
Fixpoint extract_storage_root_from_account_proof (account_proof : list bytes) : option Bytes32 :=
  match account_proof with
  | [] => None
  | node :: nodes =>
      match decode_account node with Some r => Some r | None => extract_storage_root_from_account_proof nodes end
  end.

(** [U256::to_be_bytes_vec]: 32 bytes. *)
Definition verify_storage_proof (state_root : Bytes32) (address : bytes) (account_proof : list bytes)
    (storage_slot : Bytes32) (storage_proof : list bytes) (expected_value : N) : bool :=
  if bool_decide (storage_proof = []) || bool_decide (account_proof = []) then false
  else if bool_decide (state_root = EMPTY_ROOT_HASH) then false
  else if negb (verify_proof state_root (encode_key_to_nibbles (b32 (keccak256 address))) None account_proof) then false
  else match extract_storage_root_from_account_proof account_proof with
       | None => false
       | Some storage_root =>
           if negb (verify_proof storage_root (encode_key_to_nibbles (b32 (keccak256 (b32 storage_slot))))
                      (Some (be_bytes 32 expected_value)) storage_proof) then false
           else negb (expected_value =? 0)%N
       end.

Definition seal_used_signature : Bytes32 := keccak256 (as_bytes "SealUsed(bytes32,bytes32)").

Definition verify_receipt_proof (fuel : nat) (root : Bytes32) (index : N) (receipt_rlp : bytes) (nodes : list bytes)
    (expected_seal_id : option Bytes32) (csv_seal_address : bytes) : result RlpFailure ReceiptProofResult :=
  let h := sha256 receipt_rlp in
  let invalid := mkReceiptResult false h 0 [] false in
  if negb (mpt_verify_receipt_proof root nodes index) then Ok invalid
  else match decode_receipt_logs fuel receipt_rlp with
       | Ok logs => Ok (mkReceiptResult true h 0 logs
                          (check_for_seal_used_event logs csv_seal_address seal_used_signature expected_seal_id))
       | Err Malformed => Ok invalid
       | Err e => Err e
       end.
End Receipts.

(** ** The reference encoder *)

Inductive rlp_tree := RStr (b : bytes) | RList (l : list rlp_tree).

(** How many bytes a length takes, and the header of a string (from 128) or a list (from 192). *)
Fixpoint byte_count (fuel : nat) (n : N) : nat :=
  match fuel with O => 1 | S fuel => if (n <? 256)%N then 1 else S (byte_count fuel (n / 256)) end.
Definition rlp_header (base n : N) : bytes :=
  if (n <=? 55)%N then [byte_of (base + n)]
  else let k := byte_count 7 n in byte_of (base + 55 + N.of_nat k) :: be_bytes k n.
Definition single (b : bytes) : bool := match b with [x] => (Byte.to_N x <=? 127)%N | _ => false end.

Fixpoint rlp_encode (t : rlp_tree) : bytes :=
  match t with
  | RStr b => if single b then b else rlp_header 128 (blen b) ++ b
  | RList l => let payload := flat_map rlp_encode l in rlp_header 192 (blen payload) ++ payload
  end.

Fixpoint number_logs (i : N) (l : list (bytes * list Bytes32 * bytes)) : list DecodedLog :=
  match l with [] => [] | (a, ts, d) :: l => mkLog a ts d i :: number_logs (i + 1) l end.
Definition log_tree (l : bytes * list Bytes32 * bytes) : rlp_tree :=
  let '(a, ts, d) := l in RList [RStr a; RList (map (fun t => RStr (b32 t)) ts); RStr d].
(** A receipt: three fields, the logs, and whatever follows. *)
Definition receipt_tree (status gas bloom : rlp_tree) (logs : list (bytes * list Bytes32 * bytes)) (more : list rlp_tree)
  : rlp_tree := RList (status :: gas :: bloom :: RList (map log_tree logs) :: more).

(** ** Lemmas: big-endian lengths *)

Lemma lor_low a x : (x < 256)%N -> N.lor (N.shiftl a 8) x = (a * 256 + x)%N.
Proof.
  intros Hx. rewrite <- N.lxor_lor, <- N.add_nocarry_lxor.
  - by rewrite N.shiftl_mul_pow2.
  - apply N.bits_inj. intros i. rewrite N.land_spec, N.bits_0.
    destruct (N.lt_ge_cases i 8) as [Hi|Hi]; [by rewrite N.shiftl_spec_low|].
    rewrite <- (N.mod_small x (2 ^ 8)) by done. by rewrite N.mod_pow2_bits_high, andb_false_r.
  - apply N.bits_inj. intros i. rewrite N.land_spec, N.bits_0.
    destruct (N.lt_ge_cases i 8) as [Hi|Hi]; [by rewrite N.shiftl_spec_low|].
    rewrite <- (N.mod_small x (2 ^ 8)) by done. by rewrite N.mod_pow2_bits_high, andb_false_r.
Qed.

Lemma decode_big_endian_exact l : length l <= 8 -> decode_big_endian l = of_be_bytes l.
Proof.
  unfold decode_big_endian, of_be_bytes. induction l as [|x l IH] using rev_ind; intros Hl; [done|].
  rewrite length_app in Hl. cbn [length] in Hl. rewrite fold_left_app, reverse_app. cbn [fold_left app].
  rewrite IH by lia. change (reverse [x] ++ reverse l) with (x :: reverse l). cbn [of_le_bytes].
  pose proof (of_le_bytes_bound (reverse l)) as Hb. unfold blen in Hb. rewrite length_reverse in Hb.
  assert (Hs : (of_le_bytes (reverse l) < 256 ^ 7)%N).
  { eapply N.lt_le_trans; [exact Hb|]. apply N.pow_le_mono_r; lia. }
  rewrite wrap64_small.
  - rewrite lor_low by (pose proof (Byte.to_N_bounded x); lia). lia.
  - rewrite N.shiftl_mul_pow2. change (2 ^ 8)%N with 256%N. unfold u64_max. change (256 ^ 7)%N with 72057594037927936%N in Hs. lia.
Qed.

Lemma byte_count_spec fuel n :
  (n < 256 ^ N.of_nat (S fuel))%N -> (n < 256 ^ N.of_nat (byte_count fuel n))%N /\ 1 <= byte_count fuel n <= S fuel.
Proof.
  revert n. induction fuel as [|fuel IH]; intros n Hn; [done|]. cbn [byte_count].
  destruct (N.ltb_spec n 256) as [Hs|Hs]; [split; [done|lia]|].
  assert (Hd : (n / 256 < 256 ^ N.of_nat (S fuel))%N).
  { apply N.Div0.div_lt_upper_bound. rewrite <- N.pow_succ_r'. by rewrite <- Nat2N.inj_succ. }
  destruct (IH _ Hd) as [H1 H2]. split; [|lia]. rewrite Nat2N.inj_succ, N.pow_succ_r'.
  pose proof (N.div_mod n 256 ltac:(lia)). pose proof (N.mod_lt n 256 ltac:(lia)). nia.
Qed.

Lemma length_count_spec n : (n <= u64_max)%N -> (n < 256 ^ N.of_nat (byte_count 7 n))%N /\ 1 <= byte_count 7 n <= 8.
Proof. intros Hn. apply byte_count_spec. change (256 ^ N.of_nat 8)%N with 18446744073709551616%N. unfold u64_max in Hn. lia. Qed.

Lemma decode_be_bytes n : (n <= u64_max)%N -> decode_big_endian (be_bytes (byte_count 7 n) n) = n.
Proof.
  intros Hn. destruct (length_count_spec n Hn) as [Hs Hk].
  rewrite decode_big_endian_exact by (rewrite length_be_bytes; lia). unfold of_be_bytes, be_bytes.
  rewrite reverse_involutive, of_le_bytes_le_bytes. by apply N.mod_small.
Qed.

Lemma slice_middle a b c : slice (a ++ b ++ c) (blen a) (blen a + blen b) = Ok b.
Proof.
  unfold slice. rewrite !blen_app, (proj2 (N.leb_le _ _)), (proj2 (N.leb_le _ _)) by lia. cbn [andb].
  f_equal. replace (N.to_nat (blen a + blen b - blen a)) with (length b) by (unfold blen; lia).
  replace (N.to_nat (blen a)) with (length a) by (unfold blen; lia).
  by rewrite drop_app_length, take_app_length.
Qed.
Lemma slice_tail b x l : slice (x :: b ++ l) 1 (1 + blen b) = Ok b.
Proof. exact (slice_middle [x] b l). Qed.
Lemma slice_rest b x : slice (x :: b) 1 (1 + blen b) = Ok b.
Proof. pose proof (slice_tail b x []) as E. by rewrite app_nil_r in E. Qed.

(** The header of a long payload: its first byte, and what the bytes after it say. *)
Lemma header_long base n :
  (55 < n)%N -> (n <= u64_max)%N -> exists k, rlp_header base n = byte_of (base + 55 + N.of_nat k) :: be_bytes k n
    /\ 1 <= k <= 8 /\ decode_big_endian (be_bytes k n) = n.
Proof.
  intros Hl Hn. exists (byte_count 7 n). unfold rlp_header. rewrite (proj2 (N.leb_gt _ _)) by done.
  split; [done|]. split; [apply length_count_spec, Hn|by apply decode_be_bytes].
Qed.
Lemma header_short base n : (n <= 55)%N -> rlp_header base n = [byte_of (base + n)].
Proof. intros Hn. unfold rlp_header. by rewrite (proj2 (N.leb_le _ _)). Qed.

Lemma byte_small n : (n < 256)%N -> Byte.to_N (byte_of n) = n.
Proof. intros. rewrite to_N_byte_of. by apply N.mod_small. Qed.

(** ** Lemmas: decoding what was encoded *)

Ltac decide_le :=
  repeat match goal with
  | |- context [(?a <=? ?b)%N] => first [rewrite (proj2 (N.leb_le a b)) by lia|rewrite (proj2 (N.leb_gt a b)) by lia]
  | |- context [(?a <? ?b)%N] => first [rewrite (proj2 (N.ltb_lt a b)) by lia|rewrite (proj2 (N.ltb_ge a b)) by lia]
  end.

Lemma item_length_header base n payload rest :
  base = 128%N \/ base = 192%N -> blen payload = n -> (blen (rlp_header base n ++ payload) <= u64_max)%N ->
  rlp_decode_item_length (rlp_header base n ++ payload ++ rest)
  = Ok (bool_decide (base = 192%N), blen (rlp_header base n ++ payload)).
Proof.
  intros Hbase Hp Hn. rewrite blen_app in *. rewrite Hp in *. destruct (N.le_gt_cases n 55) as [Hs|Hs].
  - rewrite header_short in * by done. cbn [app rlp_decode_item_length]. rewrite byte_small by (destruct Hbase; lia).
    change (blen [byte_of (base + n)]) with 1%N.
    destruct Hbase as [->| ->]; decide_le; f_equal; f_equal; lia.
  - destruct (header_long base n Hs ltac:(lia)) as (k & E & Hk & Hd). rewrite E in *. cbn [app rlp_decode_item_length].
    rewrite byte_small by (destruct Hbase; lia).
    assert (Hb : blen (be_bytes k n) = N.of_nat k) by (unfold blen; by rewrite length_be_bytes).
    assert (Hc : blen (byte_of (base + 55 + N.of_nat k) :: be_bytes k n) = (1 + N.of_nat k)%N) by (unfold blen in *; cbn; lia).
    rewrite Hc in *.
    assert (Hlen : blen (byte_of (base + 55 + N.of_nat k) :: be_bytes k n ++ payload ++ rest) = (1 + N.of_nat k + n + blen rest)%N).
    { change (?x :: ?l ++ ?r) with ((x :: l) ++ r). rewrite !blen_app, Hc, Hp. lia. }
    destruct Hbase as [->| ->]; decide_le; rewrite ?Hlen;
      [replace (128 + 55 + N.of_nat k - 183)%N with (N.of_nat k) by lia|replace (192 + 55 + N.of_nat k - 247)%N with (N.of_nat k) by lia];
      decide_le; cbn [guard_err]; rewrite <- Hb, slice_tail; cbn [mbind result_bind]; rewrite Hb, Hd, add64_small by lia; done.
Qed.

Definition is_list (t : rlp_tree) : bool := match t with RList _ => true | _ => false end.

Lemma encode_item_length t rest :
  (blen (rlp_encode t) <= u64_max)%N -> rlp_decode_item_length (rlp_encode t ++ rest) = Ok (is_list t, blen (rlp_encode t)).
Proof.
  intros Hn. destruct t as [b|l]; cbn [rlp_encode is_list] in *.
  - destruct (single b) eqn:Hs.
    + destruct b as [|x [|y b]]; try done. cbn in *. by rewrite Hs.
    + rewrite <- app_assoc. by apply (item_length_header 128 (blen b)); [left|done|].
  - rewrite <- app_assoc. by apply (item_length_header 192); [right|done|].
Qed.

Lemma encode_nonempty t : (0 < blen (rlp_encode t))%N.
Proof.
  destruct t as [b|l]; cbn [rlp_encode].
  - destruct (single b) eqn:Hs; [by destruct b|]. rewrite blen_app. unfold rlp_header, blen. case_match; cbn; lia.
  - rewrite blen_app. unfold rlp_header, blen. case_match; cbn; lia.
Qed.

(** The loop over a list's payload returns its items. *)
Lemma parse_encoded fuel pre l :
  length l < fuel -> (blen (pre ++ flat_map rlp_encode l) <= u64_max)%N ->
  rlp_parse_from fuel (pre ++ flat_map rlp_encode l) (blen pre) = Ok (map rlp_encode l).
Proof.
  revert fuel pre. induction l as [|t l IH]; intros [|fuel] pre Hf Hn; try (cbn in Hf; lia); cbn [rlp_parse_from].
  - cbn [flat_map]. rewrite app_nil_r. by rewrite (proj2 (N.ltb_ge _ _)).
  - cbn [flat_map map] in *. set (data := pre ++ rlp_encode t ++ flat_map rlp_encode l) in *.
    assert (Hd : blen data = (blen pre + blen (rlp_encode t) + blen (flat_map rlp_encode l))%N).
    { unfold data. rewrite !blen_app. lia. }
    pose proof (encode_nonempty t). rewrite (proj2 (N.ltb_lt _ _)) by lia.
    assert (Hs : slice data (blen pre) (blen data) = Ok (rlp_encode t ++ flat_map rlp_encode l)).
    { rewrite Hd. unfold data. rewrite <- (app_nil_r (rlp_encode t ++ _)) at 1.
      replace (blen pre + blen (rlp_encode t) + blen (flat_map rlp_encode l))%N
        with (blen pre + blen (rlp_encode t ++ flat_map rlp_encode l))%N by (rewrite blen_app; lia).
      apply slice_middle. }
    rewrite Hs. cbn [mbind result_bind]. rewrite encode_item_length by lia. cbn [mbind result_bind].
    rewrite add64_small by lia. rewrite (proj2 (N.ltb_ge _ _)) by lia. cbn [guard_err].
    assert (Hi : slice data (blen pre) (blen pre + blen (rlp_encode t)) = Ok (rlp_encode t)) by apply slice_middle.
    rewrite Hi. cbn [mbind result_bind].
    specialize (IH fuel (pre ++ rlp_encode t) ltac:(cbn in Hf; lia)). rewrite <- app_assoc, (blen_app pre (rlp_encode t)) in IH.
    fold data in IH. by rewrite IH.
Qed.

Lemma flat_map_length l : length l <= length (flat_map rlp_encode l).
Proof.
  induction l as [|t l IH]; [done|]. cbn [flat_map length]. rewrite length_app.
  pose proof (encode_nonempty t). unfold blen in *. lia.
Qed.

(** A long payload behind its header: how long the whole is, and the two slices. *)
Lemma long_slices h k payload :
  length (be_bytes k (blen payload)) = k ->
  let e := h :: be_bytes k (blen payload) ++ payload in
  blen (h :: be_bytes k (blen payload)) = (1 + N.of_nat k)%N /\
  blen e = (1 + N.of_nat k + blen payload)%N /\
  slice e 1 (1 + N.of_nat k) = Ok (be_bytes k (blen payload)) /\
  slice e (1 + N.of_nat k) (1 + N.of_nat k + blen payload) = Ok payload.
Proof.
  intros Hk e.
  assert (Hb : blen (be_bytes k (blen payload)) = N.of_nat k) by (unfold blen at 1; by rewrite Hk).
  assert (Hc : blen (h :: be_bytes k (blen payload)) = (1 + N.of_nat k)%N) by (unfold blen in *; cbn [length]; lia).
  assert (E : e = (h :: be_bytes k (blen payload)) ++ payload) by done.
  split; [done|]. split; [by rewrite E, blen_app, Hc|]. split.
  - rewrite <- Hb at 1. apply slice_tail.
  - pose proof (slice_middle (h :: be_bytes k (blen payload)) payload []) as Hsl. by rewrite Hc, app_nil_r in Hsl.
Qed.

Lemma decode_encoded_list fuel l :
  length (rlp_encode (RList l)) <= fuel -> (blen (rlp_encode (RList l)) <= u64_max)%N ->
  rlp_decode_list fuel (rlp_encode (RList l)) = Ok (map rlp_encode l, blen (rlp_encode (RList l))).
Proof.
  intros Hf Hn. cbn [rlp_encode] in *. set (payload := flat_map rlp_encode l) in *.
  assert (Hp : rlp_parse_items fuel payload = Ok (map rlp_encode l)).
  { apply (parse_encoded fuel []).
    - pose proof (flat_map_length l). fold payload in H. rewrite length_app in Hf. unfold rlp_header in Hf. case_match; cbn in Hf; lia.
    - cbn [app]. fold payload. rewrite blen_app in Hn. lia. }
  rewrite blen_app in *. destruct (N.le_gt_cases (blen payload) 55) as [Hs|Hs].
  - rewrite header_short in * by done. cbn [app rlp_decode_list]. rewrite byte_small by lia.
    change (blen [byte_of (192 + blen payload)]) with 1%N in *. decide_le. cbn [andb].
    replace (192 + blen payload - 192)%N with (blen payload) by lia.
    rewrite (proj2 (N.ltb_ge _ _)) by (unfold blen; cbn; lia). cbn [guard_err].
    rewrite slice_rest. cbn [mbind result_bind]. rewrite Hp. done.
  - destruct (header_long 192 (blen payload) Hs ltac:(lia)) as (k & E & Hk & Hd). rewrite E in *. cbn [app rlp_decode_list].
    rewrite byte_small by lia.
    set (h := byte_of (192 + 55 + N.of_nat k)) in *.
    destruct (long_slices h k payload) as (Hc & Hlen & Hs1 & Hs2); [apply length_be_bytes|]. rewrite Hc in *.
    decide_le. rewrite andb_false_r, Hlen. replace (192 + 55 + N.of_nat k - 247)%N with (N.of_nat k) by lia.
    decide_le. cbn [guard_err]. rewrite Hs1. cbn [mbind result_bind]. rewrite Hd, add64_small by lia. decide_le.
    cbn [guard_err]. rewrite Hs2. cbn [mbind result_bind]. rewrite Hp. done.
Qed.

Lemma decode_encoded_bytes b :
  (blen (rlp_encode (RStr b)) <= u64_max)%N -> rlp_decode_bytes (rlp_encode (RStr b)) = Ok b.
Proof.
  intros Hn. cbn [rlp_encode] in *. destruct (single b) eqn:Hs.
  - destruct b as [|x [|y b]]; try done. cbn in *. by rewrite Hs.
  - rewrite blen_app in *. destruct (N.le_gt_cases (blen b) 55) as [Hb|Hb].
    + rewrite header_short in * by done. cbn [app rlp_decode_bytes]. rewrite byte_small by lia. decide_le.
      replace (128 + blen b - 128)%N with (blen b) by lia.
      rewrite (proj2 (N.ltb_ge _ _)) by (unfold blen; cbn; lia). cbn [guard_err].
      apply slice_rest.
    + destruct (header_long 128 (blen b) Hb ltac:(lia)) as (k & E & Hk & Hd). rewrite E in *. cbn [app rlp_decode_bytes].
      rewrite byte_small by lia.
      set (h := byte_of (128 + 55 + N.of_nat k)) in *.
      destruct (long_slices h k b) as (Hc & Hlen & Hs1 & Hs2); [apply length_be_bytes|]. rewrite Hc in *.
      decide_le. rewrite Hlen. replace (128 + 55 + N.of_nat k - 183)%N with (N.of_nat k) by lia.
      decide_le. cbn [guard_err]. rewrite Hs1. cbn [mbind result_bind]. rewrite Hd, add64_small by lia. decide_le.
      cbn [guard_err]. exact Hs2.
Qed.

Lemma item_fits t l :
  In t l -> length (rlp_encode t) <= length (rlp_encode (RList l)).
Proof.
  intros Hi. cbn [rlp_encode]. rewrite length_app. enough (length (rlp_encode t) <= length (flat_map rlp_encode l)) by lia.
  induction l as [|u l IH]; [done|]. cbn [flat_map]. rewrite length_app. destruct Hi as [->|Hi]; [lia|].
  specialize (IH Hi). lia.
Qed.
Lemma item_bounded t l n :
  In t l -> (blen (rlp_encode (RList l)) <= n)%N -> (blen (rlp_encode t) <= n)%N.
Proof. intros Hi Hn. pose proof (item_fits t l Hi). unfold blen in *. lia. Qed.

Lemma decode_encoded_topics ts :
  decode_topics (map rlp_encode (map (fun t => RStr (b32 t)) ts)) = Ok ts.
Proof.
  induction ts as [|t ts IH]; [done|]. cbn [map decode_topics]. rewrite decode_encoded_bytes.
  - cbn [mbind result_bind]. rewrite IH. cbn [mbind result_bind]. by rewrite to_b32_b32.
  - cbn [rlp_encode]. case_match; [unfold blen; rewrite b32_length; done|].
    rewrite blen_app. unfold blen. rewrite b32_length. done.
Qed.

Lemma decode_encoded_log fuel a ts d i :
  let e := rlp_encode (log_tree (a, ts, d)) in
  length a = 20 -> length e <= fuel -> (blen e <= u64_max)%N -> decode_single_log fuel e i = Ok (mkLog a ts d i).
Proof.
  intros e Ha Hf Hn. subst e. unfold decode_single_log, log_tree in *. rewrite decode_encoded_list by done.
  cbn [mbind result_bind map].
  assert (Hb : forall t, In t [RStr a; RList (map (fun t => RStr (b32 t)) ts); RStr d] -> (blen (rlp_encode t) <= u64_max)%N)
    by (intros t Hi; exact (item_bounded _ _ _ Hi Hn)).
  rewrite (decode_encoded_bytes a) by (apply Hb; cbn; tauto).
  cbn [mbind result_bind]. rewrite Ha. cbn [Nat.eqb negb guard_err].
  assert (Hi : In (RList (map (fun t => RStr (b32 t)) ts)) [RStr a; RList (map (fun t => RStr (b32 t)) ts); RStr d])
    by (right; by left).
  rewrite decode_encoded_list by first [etrans; [exact (item_fits _ _ Hi)|done]|exact (Hb _ Hi)].
  cbn [mbind result_bind]. rewrite decode_encoded_topics. cbn [mbind result_bind].
  rewrite decode_encoded_bytes by (apply Hb; cbn; tauto). done.
Qed.

Lemma decode_encoded_logs fuel logs i :
  Forall (fun l : bytes * list Bytes32 * bytes => length l.1.1 = 20) logs ->
  length (rlp_encode (RList (map log_tree logs))) <= fuel ->
  (blen (rlp_encode (RList (map log_tree logs))) <= u64_max)%N ->
  decode_logs fuel (map rlp_encode (map log_tree logs)) i = Ok (number_logs i logs).
Proof.
  intros Ha Hf Hn.
  assert (Hall : Forall (fun l => length (rlp_encode (log_tree l)) <= fuel
                                  /\ (blen (rlp_encode (log_tree l)) <= u64_max)%N) logs).
  { apply Forall_forall. intros l Hl. apply list_elem_of_In, (in_map log_tree) in Hl.
    split; [etrans; [exact (item_fits _ _ Hl)|done]|exact (item_bounded _ _ _ Hl Hn)]. }
  clear Hf Hn. revert i. induction Ha as [|[[a ts] d] logs H20 _ IH]; intros i; [done|].
  apply Forall_cons in Hall as [[Hf Hn] Hall]. cbn [map decode_logs number_logs].
  rewrite decode_encoded_log by done. rewrite IH by done. done.
Qed.

(** The first byte of a list is at least 192: it is not the type of a typed receipt. *)
Lemma list_byte l :
  (blen (rlp_encode (RList l)) <= u64_max)%N -> exists b rest, rlp_encode (RList l) = b :: rest /\ (192 <= Byte.to_N b)%N.
Proof.
  intros Hn.
  cbn [rlp_encode]. set (p := flat_map rlp_encode l). destruct (N.le_gt_cases (blen p) 55) as [Hs|Hs].
  - rewrite header_short by done. eexists _, _. split; [reflexivity|]. rewrite byte_small; lia.
  - unfold rlp_header. rewrite (proj2 (N.leb_gt _ _)) by done. cbn [app]. eexists _, _. split; [reflexivity|].
    destruct (length_count_spec (blen p)) as [_ Hc].
    { cbn [rlp_encode] in Hn. fold p in Hn. rewrite blen_app in Hn. lia. }
    rewrite byte_small; lia.
Qed.

Lemma decode_encoded_receipt fuel status gas bloom logs more :
  let e := rlp_encode (receipt_tree status gas bloom logs more) in
  Forall (fun l : bytes * list Bytes32 * bytes => length l.1.1 = 20) logs ->
  length e <= fuel -> (blen e <= u64_max)%N -> decode_logs_from_rlp fuel e = Ok (number_logs 0 logs).
Proof.
  intros e Ha Hf Hn. subst e. unfold decode_logs_from_rlp, receipt_tree in *.
  assert (Hi : In (RList (map log_tree logs)) (status :: gas :: bloom :: RList (map log_tree logs) :: more)) by (do 3 right; by left).
  assert (H2 : ~ length (rlp_encode (RList (status :: gas :: bloom :: RList (map log_tree logs) :: more))) < 2).
  { cbn [rlp_encode flat_map]. rewrite !length_app. pose proof (encode_nonempty status). pose proof (encode_nonempty gas).
    unfold blen in *. lia. }
  rewrite (proj2 (Nat.ltb_ge _ _)) by lia. cbn [guard_err]. rewrite decode_encoded_list by done. cbn [mbind result_bind map].
  pose proof (item_fits _ _ Hi). rewrite decode_encoded_list by first [lia|exact (item_bounded _ _ _ Hi Hn)].
  cbn [mbind result_bind]. apply decode_encoded_logs; [done|lia|exact (item_bounded _ _ _ Hi Hn)].
Qed.

(** ** Properties *)

(** The receipt decoder is exact on what an RLP encoder writes.  For a receipt whose fourth
    field is a list of logs with 20-byte addresses, encoded by the reference encoder, and of any
    size a 64-bit length can say, the decoder returns within as many turns as there are bytes;
    it returns every log, in order and numbered from zero, with its address, its topics and its
    data; and it returns the same for a typed receipt, that is the same bytes behind a type
    byte of at most 127. *)
Theorem rlp_receipt_exact fuel status gas bloom logs more ty :
  let e := rlp_encode (receipt_tree status gas bloom logs more) in
  Forall (fun l : bytes * list Bytes32 * bytes => length l.1.1 = 20) logs ->
  length e <= fuel -> (blen e <= u64_max)%N -> (Byte.to_N ty <= 127)%N ->
  decode_receipt_logs fuel e = Ok (number_logs 0 logs)
  /\ decode_receipt_logs fuel (ty :: e) = Ok (number_logs 0 logs).
Proof.
  intros e Ha Hf Hn Ht. pose proof (decode_encoded_receipt fuel status gas bloom logs more Ha Hf Hn) as Hd. split.
  - destruct (list_byte _ Hn) as (b & rest & E & Hb). unfold e, receipt_tree in *. unfold decode_receipt_logs. rewrite E in *.
    by rewrite (proj2 (N.leb_gt _ _)) by lia.
  - cbn [decode_receipt_logs]. by rewrite (proj2 (N.leb_le _ _)).
Qed.

Definition example_logs : list (bytes * list Bytes32 * bytes) :=
  [(replicate 20 x01, [zero32], replicate 64 x02); (replicate 20 x03, [], [x05])].
Lemma rlp_receipt_exact_witness :
  let e := rlp_encode (receipt_tree (RStr [x01]) (RStr [x52; x08]) (RStr (replicate 256 x00)) example_logs []) in
  decode_receipt_logs 600 (x02 :: e) = Ok (number_logs 0 example_logs).
Proof.
  intros e. eapply (rlp_receipt_exact 600 (RStr [x01]) (RStr [x52; x08]) (RStr (replicate 256 x00)) example_logs [] x02).
  - repeat constructor.
  - apply Nat.leb_le. vm_compute. reflexivity.
  - apply N.leb_le. vm_compute. reflexivity.
  - apply N.leb_le. vm_compute. reflexivity.
Defined.

(** *** On other input *)

(** A string item that declares a length of 2^64 - 9: its end is where it starts. *)
Definition looping : bytes := [xc9; xbf; xff; xff; xff; xff; xff; xff; xff; xf7].
Lemma looping_item : rlp_decode_item_length (drop 1 looping) = Ok (false, 0%N).
Proof. by vm_compute. Qed.

(** So however many turns the loop is given, it is not done: ten bytes make the decoder
    of a receipt run for ever (with wrapping arithmetic, as in a release build; with overflow
    checks they make it panic). *)
Theorem rlp_hang fuel : rlp_decode_list fuel looping = Err Diverges.
Proof.
  assert (H : rlp_parse_from fuel (drop 1 looping) 0 = Err Diverges).
  { induction fuel as [|fuel IH]; [done|]. cbn [rlp_parse_from].
    change (slice (drop 1 looping) 0 (blen (drop 1 looping))) with (Ok (drop 1 looping) : result RlpFailure bytes).
    cbn [mbind result_bind]. rewrite looping_item. cbn [mbind result_bind].
    change (add64 0 0) with 0%N. change (slice (drop 1 looping) 0 0) with (Ok [] : result RlpFailure bytes).
    cbn [mbind result_bind]. rewrite IH. done. }
  change (rlp_decode_list fuel looping) with (items ← rlp_parse_from fuel (drop 1 looping) 0; Ok (items, 10%N) : result RlpFailure _).
  by rewrite H.
Qed.

Section Tries.
Context (sha256 keccak256 : bytes -> Bytes32) (verify_proof : Bytes32 -> list N -> option bytes -> list bytes -> bool)
  (EMPTY_ROOT_HASH : Bytes32) (decode_u256 : bytes -> option (N * bytes)) (decode_b256 : bytes -> option (Bytes32 * bytes))
  (trie : Type) (root_of : trie -> Bytes32) (at_key : trie -> list N -> option bytes).

(** What alloy_trie documents: a proof accepted for an expected value shows that the trie with
    that root has that value at that key, and an expected [None] that it has none.  What
    alloy_rlp documents: an integer is not read from a list. *)
Hypothesis verify_proof_sound : forall t key v proof, verify_proof (root_of t) key v proof = true -> at_key t key = v.
Hypothesis u256_not_list : forall b rest, (192 <= Byte.to_N b)%N -> decode_u256 (b :: rest) = None.

(** The receipt check asks for [None], under the key of eight bytes: what it accepts shows that
    the trie has nothing at that key. *)
Lemma accepted_receipt_is_absent fuel t index receipt nodes expected address r :
  verify_receipt_proof sha256 keccak256 verify_proof fuel (root_of t) index receipt nodes expected address = Ok r ->
  is_valid r = true -> at_key t (encode_key_to_nibbles (u64_be index)) = None.
Proof.
  unfold verify_receipt_proof. destruct (mpt_verify_receipt_proof _ _ _ _) eqn:Hm; cbn [negb]; [|by intros [= <-]].
  intros _ _. unfold mpt_verify_receipt_proof in Hm. destruct nodes; [done|]. exact (verify_proof_sound _ _ _ _ Hm).
Qed.

(** The receipt is not what the proof is of: any receipt that decodes is accepted with the same
    nodes, and its logs are what is searched for the event. *)
Lemma receipt_not_bound fuel root index r r' nodes expected address res logs :
  verify_receipt_proof sha256 keccak256 verify_proof fuel root index r nodes expected address = Ok res ->
  is_valid res = true -> decode_receipt_logs fuel r' = Ok logs ->
  exists res', verify_receipt_proof sha256 keccak256 verify_proof fuel root index r' nodes expected address = Ok res'
    /\ is_valid res' = true /\ rp_logs res' = logs.
Proof.
  unfold verify_receipt_proof. destruct (mpt_verify_receipt_proof _ _ _ _); cbn [negb]; [|by intros [= <-]].
  intros _ _ ->. eexists. split; [reflexivity|done].
Qed.

(** The nodes of a trie are lists, and the account is looked for by reading each of them as
    four fields without a list header: no storage proof over a trie is accepted. *)
Lemma storage_proof_refused root address nodes slot proof value :
  Forall (fun n => exists l, n = rlp_encode (RList l) /\ (blen n <= u64_max)%N) nodes ->
  verify_storage_proof keccak256 verify_proof EMPTY_ROOT_HASH decode_u256 decode_b256 root address nodes slot proof value = false.
Proof.
  intros Hn. unfold verify_storage_proof.
  assert (E : extract_storage_root_from_account_proof decode_u256 decode_b256 nodes = None).
  { induction Hn as [|n nodes (l & -> & Hb) _ IH]; [done|]. cbn [extract_storage_root_from_account_proof].
    destruct (list_byte l Hb) as (b & rest & Eb & H192). unfold decode_account. rewrite Eb, u256_not_list by done. exact IH. }
  rewrite E. by repeat case_match.
Qed.
End Tries.
