(* ===== verification/WireForms.v ===== *)
(** * Wire forms of transfers, proofs and identifiers
    (csv-wire/src/transfer_state.rs, transfer.rs, canonical.rs, proof.rs, primitives.rs, seal.rs)

    Each wire form is a record whose binary fields are hexadecimal text; reading one back
    decodes them.  A chain is carried as a number, and what the constructors of a state do
    not take is lost. *)

From S2P Require Import Prelude Bytes Hashing Text Seal Commitment Sanad Checkpoint Algebra TransferState.

(** [hex::encode]; [hex::decode] with the message of the reader; then the length. *)
Definition hex_text (b : bytes) : string := of_bytes (hex_encode b).
Definition hex_field (m : string) (t : string) : result string bytes := ok_or m (hex_decode (as_bytes t)).
Definition hex32_field (m_hex m_len : string) (t : string) : result string Bytes32 :=
  b ← hex_field m_hex t; ok_or m_len (to_b32 b).

(** ** Identifiers *)

Record HashWire := mkHashWire { hw_bytes : string }.
Definition hash_to_wire (h : Hash) : HashWire := mkHashWire (hex_text (b32 h)).
Definition hash_of_wire (w : HashWire) : result string Hash :=
  hex32_field "Invalid hash hex" "Hash must be 32 bytes" (hw_bytes w).

Record SanadIdWire := mkSanadIdWire { siw_bytes : string }.
Definition sanad_to_wire (h : Hash) : SanadIdWire := mkSanadIdWire (hex_text (b32 h)).
(** Any number of bytes is an identifier: what is not 32 of them is hashed. *)
Definition sanad_of_wire (sha256 : bytes -> Bytes32) (w : SanadIdWire) : result string Hash :=
  b ← hex_field "Invalid sanad_id hex" (siw_bytes w); Ok (sanad_id_from_bytes sha256 b).

(** ** Transfers *)

(** [str::parse::<u32>], [u32::to_string] *)
Definition parse_u32 (s : bytes) : option N :=
  n ← parse_u64 s; if (n <=? u32_max)%N then Some n else None.
Definition chain_number (c : string) : N := default 0%N (parse_u32 (as_bytes c)).

Record TransferDataWire := mkDataWire {
  dw_transfer_id : string; dw_sanad_id : string; dw_source_chain : N; dw_destination_chain : N;
  dw_seal_point : string; dw_commitment_hash : string; dw_initiated_at : N
}.
Definition data_to_wire (d : TransferData) : TransferDataWire :=
  mkDataWire (hex_text (b32 (td_transfer_id d))) (hex_text (b32 (td_sanad_id d)))
    (chain_number (td_source_chain d)) (chain_number (td_destination_chain d))
    (hex_text (td_seal_point d)) (hex_text (b32 (td_commitment_hash d))) (initiated_at d).
Definition data_of_wire (sha256 : bytes -> Bytes32) (w : TransferDataWire) : result string TransferData :=
  transfer_id ← hex32_field "Invalid transfer_id hex" "transfer_id must be 32 bytes" (dw_transfer_id w);
  sanad ← hex_field "Invalid sanad_id hex" (dw_sanad_id w);
  seal ← hex_field "Invalid seal_point hex" (dw_seal_point w);
  commitment ← hex32_field "Invalid commitment_hash hex" "commitment_hash must be 32 bytes"
                 (dw_commitment_hash w);
  Ok (TransferData_new transfer_id (sanad_id_from_bytes sha256 sanad) (pretty (dw_source_chain w))
        (pretty (dw_destination_chain w)) seal commitment).

Record LockedWire := mkLockedWire { lw_data : TransferDataWire; lw_lock_height : N; lw_lock_tx_hash : string }.
Record AwaitingFinalityWire := mkAwaitingWire {
  aw_data : TransferDataWire; aw_proof_height : N; aw_required : N; aw_current : N
}.
Record ProofBuildingWire := mkBuildingWire { bw_data : TransferDataWire; bw_started_at : N; bw_progress : N }.
Record ProofValidatedWire := mkValidatedWire { vw_data : TransferDataWire; vw_proof : string; vw_validated_at : N }.

Definition locked_to_wire (d : TransferData) (height : N) (tx : bytes) : LockedWire :=
  mkLockedWire (data_to_wire d) height (hex_text tx).
Definition awaiting_to_wire (d : TransferData) (height required current : N) : AwaitingFinalityWire :=
  mkAwaitingWire (data_to_wire d) height required current.
Definition building_to_wire (d : TransferData) (started progress : N) : ProofBuildingWire :=
  mkBuildingWire (data_to_wire d) started progress.
Definition validated_to_wire (d : TransferData) (proof : bytes) (at_ : N) : ProofValidatedWire :=
  mkValidatedWire (data_to_wire d) (hex_text proof) at_.

Section Reading.
Variable sha256 : bytes -> Bytes32.
Definition locked_of_wire (w : LockedWire) : result string TransferState :=
  d ← data_of_wire sha256 (lw_data w); tx ← hex_field "Invalid lock_tx_hash hex" (lw_lock_tx_hash w);
  Ok (Locked d (lw_lock_height w) tx).
Definition awaiting_of_wire (w : AwaitingFinalityWire) : result string TransferState :=
  d ← data_of_wire sha256 (aw_data w);
  Ok (AwaitingFinality d (aw_proof_height w) (aw_required w) (aw_current w)).
(** [update_progress] caps what it stores. *)
Definition building_of_wire (w : ProofBuildingWire) : result string TransferState :=
  d ← data_of_wire sha256 (bw_data w); Ok (ProofBuilding d (bw_started_at w) (N.min (bw_progress w) 100)).
Definition validated_of_wire (w : ProofValidatedWire) : result string TransferState :=
  d ← data_of_wire sha256 (vw_data w); p ← hex_field "Invalid proof hex" (vw_proof w);
  Ok (ProofValidated d p (vw_validated_at w)).

(** The state that carrying [s] over the wire gives; the later states have no wire form. *)
Definition carried (s : TransferState) : option (result string TransferState) :=
  match s with
  | Locked d h tx => Some (locked_of_wire (locked_to_wire d h tx))
  | AwaitingFinality d h r c => Some (awaiting_of_wire (awaiting_to_wire d h r c))
  | ProofBuilding d t p => Some (building_of_wire (building_to_wire d t p))
  | ProofValidated d p t => Some (validated_of_wire (validated_to_wire d p t))
  | _ => None
  end.
End Reading.

(** ** [TransferWire] and [ProofBundleWire] *)

Record TransferWire := mkTransferWire {
  tw_transfer_id : string; tw_seal_id : string; tw_source_chain : N; tw_dest_chain : N
}.
Definition TransferWire_new (transfer_id seal_id : Bytes32) (source dest : N) : TransferWire :=
  mkTransferWire (hex_text (b32 transfer_id)) (hex_text (b32 seal_id)) source dest.
Definition tw_get_transfer_id (w : TransferWire) : result string Bytes32 :=
  hex32_field "Invalid transfer_id hex" "transfer_id must be 32 bytes" (tw_transfer_id w).
Definition tw_get_seal_id (w : TransferWire) : result string Bytes32 :=
  hex32_field "Invalid seal_id hex" "seal_id must be 32 bytes" (tw_seal_id w).

(** The proofs of the algebra. *)
Record CanonicalProofWire := mkProofWire {
  pw_block_height : N; pw_block_hash : string; pw_state_root : string; pw_proof_nodes : list string;
  pw_chain_id : N; pw_metadata_fields : list (string * string)
}.
Definition proof_to_wire (p : CanonicalProof) : CanonicalProofWire :=
  mkProofWire (block_height p) (hex_text (b32 (block_hash p))) (hex_text (b32 (state_root p)))
    (map hex_text (proof_nodes p)) (md_chain_id (metadata p))
    (map (fun e => (fst e, hex_text (snd e))) (fields (metadata p))).

(** [collect::<Result<Vec<_>, _>>] *)
Fixpoint collect {A B} (f : A -> result string B) (l : list A) : result string (list B) :=
  match l with [] => Ok [] | x :: l' => y ← f x; ys ← collect f l'; Ok (y :: ys) end.

Definition proof_of_wire (w : CanonicalProofWire) : result string CanonicalProof :=
  hash ← hex32_field "Invalid block_hash hex" "block_hash must be 32 bytes" (pw_block_hash w);
  root ← hex32_field "Invalid state_root hex" "state_root must be 32 bytes" (pw_state_root w);
  nodes ← collect (hex_field "Invalid proof_node hex") (pw_proof_nodes w);
  fs ← collect (fun '(k, v) => b ← hex_field "Invalid metadata field hex" v; Ok (k, b))
         (pw_metadata_fields w);
  Ok (mkProof (pw_block_height w) hash root nodes (mkMetadata (pw_chain_id w) fs)).

Record ProofBundleWire := mkBundleWire {
  pb_proofs : list CanonicalProofWire; pb_bundle_id : string; pb_timestamp : N
}.
Definition ProofBundleWire_new (proofs : list CanonicalProof) (bundle_id : Bytes32) (timestamp : N)
  : ProofBundleWire := mkBundleWire (map proof_to_wire proofs) (hex_text (b32 bundle_id)) timestamp.
Definition pb_get_bundle_id (w : ProofBundleWire) : result string Bytes32 :=
  hex32_field "Invalid bundle_id hex" "bundle_id must be 32 bytes" (pb_bundle_id w).

(** ** Lemmas *)

Lemma hex_field_text m b : hex_field m (hex_text b) = Ok b.
Proof. unfold hex_field, hex_text. by rewrite as_bytes_of_bytes, hex_decode_encode. Qed.
Lemma hex32_field_text m1 m2 h : hex32_field m1 m2 (hex_text (b32 h)) = Ok h.
Proof. unfold hex32_field. rewrite hex_field_text. cbn. by rewrite to_b32_b32. Qed.

Lemma collect_map {A B} (f : A -> result string B) (g : B -> A) l :
  (forall x, f (g x) = Ok x) -> collect f (map g l) = Ok l.
Proof. intros H. induction l as [|x l IH]; cbn; [done|]. by rewrite H, IH. Qed.

(** What the wire keeps of a transfer: chains that are numbers, and no starting time. *)
Definition kept_chain (c : string) : string := pretty (chain_number c).
Definition kept_data (d : TransferData) : TransferData :=
  TransferData_new (td_transfer_id d) (td_sanad_id d) (kept_chain (td_source_chain d))
    (kept_chain (td_destination_chain d)) (td_seal_point d) (td_commitment_hash d).

Lemma data_carried sha256 d : data_of_wire sha256 (data_to_wire d) = Ok (kept_data d).
Proof.
  unfold data_of_wire, data_to_wire. cbn [dw_transfer_id dw_sanad_id dw_source_chain dw_destination_chain
    dw_seal_point dw_commitment_hash]. rewrite !hex32_field_text, !hex_field_text.
  cbn. unfold sanad_id_from_bytes. by rewrite to_b32_b32.
Qed.

Lemma kept_data_id d :
  kept_data d = d <-> initiated_at d = 0%N /\ kept_chain (td_source_chain d) = td_source_chain d /\
                      kept_chain (td_destination_chain d) = td_destination_chain d.
Proof.
  destruct d as [t s c c' p h n]. unfold kept_data, TransferData_new. cbn.
  split; [intros [= -> -> <-]; done|intros (-> & -> & ->); done].
Qed.

(** Chains are known by name: both ends of a transfer become chain 0. *)
Definition named_transfer : TransferData :=
  mkTransferData (fill32 Byte.x01) (fill32 Byte.x02) "bitcoin" "ethereum" [Byte.x03] (fill32 Byte.x04) 1700000000.
Lemma chains_forgotten sha256 h tx :
  carried sha256 (Locked named_transfer h tx)
  = Some (Ok (Locked (mkTransferData (fill32 Byte.x01) (fill32 Byte.x02) "0" "0" [Byte.x03] (fill32 Byte.x04) 0) h tx)).
Proof.
  cbn [carried]. unfold locked_of_wire, locked_to_wire. cbn [lw_data lw_lock_height lw_lock_tx_hash].
  rewrite data_carried, hex_field_text. cbn [mbind result_bind]. do 3 f_equal.
Qed.

(** ** Theorems *)

(** transfers over the wire.  A state that has a wire form is read back as the state of
    the same kind with its own fields, progress capped at 100, whose transfer has both
    chains replaced by the decimal text of the number they parse to, or 0, and the time it
    was begun by 0: the state itself exactly when it was so already. *)
Theorem carried_exact (sha256 : bytes -> Bytes32) (s : TransferState) :
  carried sha256 s = match s with
                     | Locked d h tx => Some (Ok (Locked (kept_data d) h tx))
                     | AwaitingFinality d h r c => Some (Ok (AwaitingFinality (kept_data d) h r c))
                     | ProofBuilding d t p => Some (Ok (ProofBuilding (kept_data d) t (N.min p 100)))
                     | ProofValidated d p t => Some (Ok (ProofValidated (kept_data d) p t))
                     | _ => None
                     end /\
  (carried sha256 s = Some (Ok s) <->
   is_Some (carried sha256 s) /\ initiated_at (data s) = 0%N /\
   kept_chain (td_source_chain (data s)) = td_source_chain (data s) /\
   kept_chain (td_destination_chain (data s)) = td_destination_chain (data s) /\
   match s with ProofBuilding _ _ p => (p <= 100)%N | _ => True end).
Proof.
  assert (H : carried sha256 s = match s with
                     | Locked d h tx => Some (Ok (Locked (kept_data d) h tx))
                     | AwaitingFinality d h r c => Some (Ok (AwaitingFinality (kept_data d) h r c))
                     | ProofBuilding d t p => Some (Ok (ProofBuilding (kept_data d) t (N.min p 100)))
                     | ProofValidated d p t => Some (Ok (ProofValidated (kept_data d) p t))
                     | _ => None
                     end).
  { destruct s; try done; cbn [carried];
      unfold locked_of_wire, locked_to_wire, awaiting_of_wire, awaiting_to_wire, building_of_wire,
        building_to_wire, validated_of_wire, validated_to_wire;
      cbn [lw_data lw_lock_height lw_lock_tx_hash aw_data aw_proof_height aw_required aw_current
           bw_data bw_started_at bw_progress vw_data vw_proof vw_validated_at];
      rewrite data_carried, ?hex_field_text; done. }
  split; [done|]. rewrite H.
  destruct s as [d ? ?|d ? ? ?|d t p|d ? ?|d ? ?|d ? ?|d ? ? ?|d ? ? ?]; cbn [data];
    try (split; [done|by intros [[? ?] _]]); pose proof (kept_data_id d) as Hk.
  - split; [intros [= E]; apply Hk in E as (? & ? & ?); done|].
    intros (_ & H1 & H2 & H3 & _). by rewrite (proj2 Hk).
  - split; [intros [= E]; apply Hk in E as (? & ? & ?); done|].
    intros (_ & H1 & H2 & H3 & _). by rewrite (proj2 Hk).
  - split.
    + intros [= E Ep]. apply Hk in E as (? & ? & ?). repeat split; try done. lia.
    + intros (_ & H1 & H2 & H3 & Hp). rewrite (proj2 Hk) by done. do 3 f_equal. lia.
  - split; [intros [= E]; apply Hk in E as (? & ? & ?); done|].
    intros (_ & H1 & H2 & H3 & _). by rewrite (proj2 Hk).
Qed.

(** proofs over the wire.  Every proof, digest and identifier is read back as it was
    written, and a transfer's and a bundle's identifiers too. *)
Theorem wire_forms_faithful (sha256 : bytes -> Bytes32) (p : CanonicalProof) (l : list CanonicalProof)
    (h k : Bytes32) (m n : N) :
  proof_of_wire (proof_to_wire p) = Ok p /\
  collect proof_of_wire (pb_proofs (ProofBundleWire_new l h m)) = Ok l /\
  pb_get_bundle_id (ProofBundleWire_new l h m) = Ok h /\
  hash_of_wire (hash_to_wire h) = Ok h /\ sanad_of_wire sha256 (sanad_to_wire h) = Ok h /\
  tw_get_transfer_id (TransferWire_new h k m n) = Ok h /\ tw_get_seal_id (TransferWire_new h k m n) = Ok k.
Proof.
  assert (Hp : forall p, proof_of_wire (proof_to_wire p) = Ok p).
  { intros [a b c d [e f]]. unfold proof_of_wire, proof_to_wire.
    cbn [pw_block_height pw_block_hash pw_state_root pw_proof_nodes pw_chain_id pw_metadata_fields
         block_height block_hash state_root proof_nodes metadata md_chain_id fields].
    rewrite !hex32_field_text. cbn [mbind result_bind].
    rewrite (collect_map (hex_field _) hex_text) by (intros; apply hex_field_text). cbn [mbind result_bind].
    rewrite collect_map; [done|]. intros [x y]. cbn [fst snd]. by rewrite hex_field_text. }
  split; [done|]. split; [by apply collect_map|].
  unfold pb_get_bundle_id, hash_of_wire, sanad_of_wire, tw_get_transfer_id, tw_get_seal_id.
  cbn [ProofBundleWire_new pb_bundle_id hash_to_wire hw_bytes sanad_to_wire siw_bytes TransferWire_new
       tw_transfer_id tw_seal_id].
  rewrite !hex32_field_text, hex_field_text. cbn. unfold sanad_id_from_bytes. by rewrite to_b32_b32.
Qed.
