(* ===== verification/LockExclusive.v ===== *)
(** * A Sanad is locked once at a time

    Any number of calls side by side, on one replay database: what each did, and in which
    order, is the history of Materialize.v.  Every call keeps to the discipline of
    MintGuard.v, and the answers of the replay database are those of ReplayDb.v, so two
    calls that lock the same Sanad are told apart by what gave the identifier back. *)

From S2P Require Import Prelude Ord Bytes Hashing Dag DagCodec Text Seal ProofTaxonomy Signature CrossChain TransferState ReplayDb Journal Assurance Verifier Coordinator Capabilities Admission Runtime ExecutionLease EventStore Effects Settlement Materialize MintGuard.

Notation history := (list (nat * event)).

(** What one call did. *)
Definition trace_of (i : nat) (h : history) : trace := (filter (fun x => x.1 = i) h).*2.

(** What an access asks of the replay database. *)
Definition db_of (e : event) : option (db_op * outcome) :=
  match e with
  | @Ev Y o y =>
      match o in op Z return Z -> option (db_op * outcome) with
      | Consume id => fun r => Some (ConsumeIfUnconsumed id, r)
      | Confirm id => fun r => Some (ConfirmConsumed id, r)
      | RollBack i => fun r => Some (MarkRolledBack i, r)
      | _ => fun _ => None
      end y
  end.
Definition db_history (h : history) : list (db_op * outcome) := omap (fun x => db_of x.2) h.

Global Arguments trace_of : simpl never.
Global Arguments db_history : simpl never.
Lemma trace_of_app i h h' : trace_of i (h ++ h') = trace_of i h ++ trace_of i h'.
Proof. unfold trace_of. by rewrite filter_app, fmap_app. Qed.
Lemma trace_of_self i e : trace_of i [(i, e)] = [e].
Proof. unfold trace_of. by rewrite filter_cons_True. Qed.
Lemma trace_of_other i j e : i <> j -> trace_of i [(j, e)] = [].
Proof. intros Hne. unfold trace_of. rewrite filter_cons_False; [done|]. cbn. congruence. Qed.
Lemma elem_of_trace i h e : e ∈ trace_of i h <-> (i, e) ∈ h.
Proof.
  unfold trace_of. rewrite list_elem_of_fmap. setoid_rewrite list_elem_of_filter. split.
  - by intros ([j e'] & -> & <- & ?).
  - intros H. by exists (i, e).
Qed.

Lemma steps_prefix {A} (p : prog A) t t' q : steps p (t ++ t') q -> runs p t.
Proof.
  intros H. remember (t ++ t') as s eqn:E. revert t E.
  induction H as [p|Y o k y s q H IH]; intros t E.
  - destruct t; [|done]. eexists. constructor.
  - destruct t as [|e t]; [eexists; constructor|]. injection E as <- E.
    destruct (IH t E) as [q' Hq]. exists q'. by constructor.
Qed.
Lemma steps_one {A} (p : prog A) t {Y} (o : op Y) k y : steps p t (Vis o k) -> steps p (t ++ [Ev o y]) (k y).
Proof. intros H. eapply steps_app; [exact H|]. repeat constructor. Qed.

Section System.
Variables (limits : AdmissionLimits) (lower : string -> string).
Variables (walk : gmap string TransferPhaseEntry -> log) (values : transfers -> list bytes).
Variables (X : Externals) (self : Self) (s0 : Stores).
Notation reaches := (reaches limits lower walk values X self (mkSystem s0 [] [])).

(** ** The calls of a system *)

Record calls_run (S : System) : Prop := {
  run_each : forall i q, sys_calls S !! i = Some q ->
    exists c q', steps (materialize_prog X self c) (trace_of i (sys_history S)) q' /\ (q = q' \/ q = Done (Ok tt));
  run_none : forall i e, (i, e) ∈ sys_history S -> i < length (sys_calls S)
}.

Lemma calls_step S S' : sys_step limits lower walk values X self S S' -> calls_run S -> calls_run S'.
Proof.
  intros Hs [Hr Hn]. destruct Hs as [s calls h c|s calls h i Y o k y s' Hi Ha|s calls h]; cbn in *.
  - split; cbn.
    + intros i q. rewrite lookup_snoc_Some. intros [[_ Hq]|[-> <-]]; [by apply Hr|].
      exists c, (materialize_prog X self c). split; [|by left].
      destruct (trace_of (length calls) h) as [|e t] eqn:E; [constructor|].
      assert (He : e ∈ trace_of (length calls) h) by (rewrite E; set_solver).
      apply elem_of_trace, Hn in He. lia.
    + intros i e H%Hn. rewrite length_app. cbn. lia.
  - split; cbn.
    + intros j q Hj. rewrite trace_of_app. destruct (decide (j = i)) as [-> |Hne].
      * rewrite list_lookup_insert_eq in Hj by (by eapply lookup_lt_Some). injection Hj as <-.
        destruct (Hr _ _ Hi) as (c & q' & Hq & [<-|[=]]). exists c, (k y). split; [|by left].
        rewrite trace_of_self. by apply steps_one.
      * rewrite list_lookup_insert_ne in Hj by done. rewrite (trace_of_other j i), app_nil_r by done. by apply Hr.
    + intros j e. rewrite elem_of_app, list_elem_of_singleton, length_insert.
      intros [H%Hn|[= -> _]]; [done|by eapply lookup_lt_Some].
  - split; cbn.
    + intros i q. rewrite list_lookup_fmap_Some. intros (q0 & -> & Hq%Hr).
      destruct Hq as (c & q' & Hq & _). exists c, q'. split; [done|by right].
    + intros i e. rewrite length_map. apply Hn.
Qed.

Lemma calls_reach S : reaches S -> calls_run S.
Proof.
  induction 1 as [|S S' _ IH Hs]; [|by eapply calls_step].
  split; cbn; [by intros i q; rewrite lookup_nil|]. intros i e He. set_solver.
Qed.

(** Every access of a call was allowed by what the call had done. *)
Lemma system_may S H1 H2 i Y (o : op Y) y :
  reaches S -> sys_history S = H1 ++ (i, Ev o y) :: H2 ->
  exists c, may X self (given c) (trace_of i H1) Y o.
Proof.
  intros HS E. destruct (calls_reach S HS) as [Hr Hn].
  assert (Hi : i < length (sys_calls S)) by (apply (Hn i (Ev o y)); rewrite E; set_solver).
  apply lookup_lt_is_Some in Hi as [q Hq]. destruct (Hr i q Hq) as (c & q' & Hs & _).
  rewrite E, (cons_middle _ H1), !trace_of_app, trace_of_self in Hs. exists c.
  eapply keeps_runs; [apply materialize_keeps|]. eexists. exact Hs.
Qed.

(** ** The replay database of a system *)

Lemma serve_replay {Y} (o : op Y) s y s' :
  serve_stores limits lower walk values o s = Some (y, s') ->
  match db_of (Ev o y) with
  | Some (d, r) => s_replay s' = fst (im_exec d (s_replay s)) /\ snd (im_exec d (s_replay s)) = r
  | None => s_replay s' = s_replay s
  end.
Proof.
  destruct o; cbn -[im_exec]; unfold updated; try done; try (intros H; by injection H as <- <-);
    repeat case_match; try done; intros Hs; by injection Hs as <- <-.
Qed.

Lemma serve_outside {Y} (o : op Y) s y :
  serve_stores limits lower walk values o s = None -> db_of (Ev o y) = None.
Proof. by destruct o. Qed.

Lemma system_explains S :
  reaches S -> explains (s_replay s0) (db_history (sys_history S)) (s_replay (sys_stores S)).
Proof.
  induction 1 as [|S S' _ IH Hs]; [done|].
  destruct Hs as [s calls h c|s calls h i Y o k y s' Hi Ha|s calls h]; cbn in *; [done| |done].
  unfold db_history. rewrite omap_app, explains_app. exists (s_replay s). split; [done|]. cbn -[db_of].
  destruct Ha as [y s' Ha|y Ha].
  - apply serve_replay in Ha. destruct (db_of (Ev o y)) as [[d r]|]; cbn; [|done]. by destruct Ha as [-> <-].
  - by rewrite (serve_outside _ _ y Ha).
Qed.

Local Instance confirms_dec id o : Decision (confirms id o).
Proof. destruct o; cbn; apply _. Defined.

Lemma db_history_at H d : d ∈ db_history H ->
  exists k e H1 H2, H = H1 ++ (k, e) :: H2 /\ db_of e = Some d.
Proof.
  unfold db_history. rewrite list_elem_of_omap. intros ([k e] & He & Hd).
  apply list_elem_of_split in He as (H1 & H2 & ->). eauto 6.
Qed.

(** Two calls with a grant each: a call before gave the identifier back, or settled it. *)
Lemma two_grants H m id i j :
  explains (s_replay s0) (db_history H) m -> s_replay s0 !! id <> Some ReplayDb.Consumed -> i <> j ->
  (i, Ev (Consume id) (Ok tt)) ∈ H -> (j, Ev (Consume id) (Ok tt)) ∈ H ->
  exists d, d ∈ db_history H /\ (released id d \/ confirms id d.1).
Proof.
  intros He Hid Hne Hi Hj.
  destruct (decide (Forall (fun x => ~ confirms id x.1) (db_history H))) as [Hc|Hc].
  2: { apply not_Forall_Exists in Hc; [|apply _]. apply Exists_exists in Hc as (d & Hd & Hc).
       exists d. split; [done|]. right. by apply dec_stable. }
  pose proof (explains_grants _ _ _ _ He Hid Hc) as Hg.
  assert (Htwo : 2 <= tally (granted id) (db_history H)).
  { apply list_elem_of_split in Hi as (H1 & H2 & ->). unfold db_history, tally.
    assert (Hj' : (j, Ev (Consume id) (Ok tt)) ∈ H1 ++ H2).
    { rewrite elem_of_app, elem_of_cons in *. destruct Hj as [|[[=]|]]; auto. congruence. }
    apply list_elem_of_split in Hj' as (K1 & K2 & E).
    transitivity (length (filter (granted id) (omap (fun x => db_of x.2)
                    ((i, Ev (Consume id) (Ok tt)) :: (j, Ev (Consume id) (Ok tt)) :: K1 ++ K2)))).
    - change (omap ?f (_ :: _ :: ?l))
        with ((ConsumeIfUnconsumed id, Ok tt : outcome) :: (ConsumeIfUnconsumed id, Ok tt) :: omap f l).
      rewrite !filter_cons_True by (split; [by right|done]). cbn [length]. lia.
    - apply Nat.eq_le_incl, Permutation_length, filter_Permutation, omap_perm.
      rewrite <- Permutation_middle. constructor. rewrite E. apply Permutation_middle. }
  assert (Hr : 1 <= tally (released id) (db_history H)).
  { unfold is_pending in Hg. repeat case_bool_decide; lia. }
  unfold tally in Hr. destruct (filter (released id) (db_history H)) as [|d l] eqn:Ed; [cbn in Hr; lia|].
  assert (Hd : d ∈ filter (released id) (db_history H)) by (rewrite Ed; set_solver).
  apply list_elem_of_filter in Hd as [Hr' Hd]. eauto.
Qed.

(** How an identifier comes back: given up after a failed lock or with the breaker open,
    or settled by a mint. *)
Definition given_back (t : CrossChainTransfer) (H : history) : Prop :=
  exists k H1 H2,
    (exists id, H = H1 ++ (k, Ev (RollBack id) (Ok tt)) :: H2 /\
     replay_id_bytes id = b32 (ct_sanad_id t) /\ rollback_justified (trace_of k H1) id) \/
    (exists r, H = H1 ++ (k, Ev (Confirm (b32 (ct_sanad_id t))) r) :: H2 /\
     confirm_justified (trace_of k H1) (b32 (ct_sanad_id t))).
End System.

(** A released identifier is that of a Sanad's own typed form. *)
Lemma db_of_released e d id : db_of e = Some d -> released id d ->
  exists i, e = Ev (RollBack i) (Ok tt) /\ replay_id_bytes i = id.
Proof.
  destruct e as [Y o y]. destruct o; cbn; try done; intros [= <-]; cbn; try done.
  intros [H ->]. eauto.
Qed.
Lemma db_of_confirms e d id : db_of e = Some d -> confirms id d.1 -> exists r, e = Ev (Confirm id) r.
Proof.
  destruct e as [Y o y]. destruct o; cbn; try done; intros [= <-]; cbn; try done.
  intros ->. eauto.
Qed.


(** ** Schedules are reached *)

Section Schedules.
Variables (limits : AdmissionLimits) (lower : string -> string).
Variables (walk : gmap string TransferPhaseEntry -> log) (values : transfers -> list bytes).
Variables (X : Externals) (self : Self).
Notation reaches := (reaches limits lower walk values X self).
Notation serve := (serve_world limits lower walk values).

Lemma advance_reaches outside n p S0 s w calls h i :
  reaches S0 (mkSystem s calls h) -> calls !! i = Some p ->
  let '(t, q, w') := advance (serve outside) n p (s, w) in
  reaches S0 (mkSystem w'.1 (<[i := q]> calls) (h ++ map (pair i) t)).
Proof.
  revert p s w calls h. induction n as [|n IH]; intros p s w calls h Hr Hi; cbn [advance].
  { cbn. by rewrite list_insert_id, app_nil_r. }
  destruct p as [r|Y o k]; [cbn; by rewrite list_insert_id, app_nil_r|].
  destruct (serve outside Y o (s, w)) as [y [s' w']] eqn:E.
  assert (Ha : answers limits lower walk values s o y s').
  { unfold serve_world in E. cbn in E. destruct (serve_stores limits lower walk values o s) as [[y0 s0]|] eqn:Es.
    - injection E as <- <- _. by constructor.
    - injection E as _ <- _. by apply answers_outside. }
  assert (Hr' : reaches S0 (mkSystem s' (<[i := k y]> calls) (h ++ [(i, Ev o y)]))).
  { eapply reaches_step; [exact Hr|]. by econstructor. }
  pose proof (lookup_lt_Some _ _ _ Hi) as Hlt.
  specialize (IH (k y) s' w' _ _ Hr'). rewrite list_lookup_insert_eq in IH by done. specialize (IH eq_refl).
  destruct (advance (serve outside) n (k y) (s', w')) as [[t q] w'']. cbn [map].
  by rewrite list_insert_insert_eq, <- app_assoc in IH.
Qed.

Lemma schedule_reaches l S0 S : reaches S0 S -> reaches S0 (run_schedule limits lower walk values X self S l).
Proof.
  unfold run_schedule. revert S. induction l as [|a l IH]; intros S Hr; cbn [fold_left]; [done|]. apply IH.
  destruct S as [s calls h], a as [c|i n from outside|]; cbn [act sys_stores sys_calls sys_history].
  - eapply reaches_step; [exact Hr|constructor].
  - destruct (calls !! i) as [p|] eqn:Hi; [|done].
    pose proof (advance_reaches outside n p S0 s from calls h i Hr Hi) as H.
    by destruct (advance (serve outside) n p (s, from)) as [[t q] w].
  - eapply reaches_step; [exact Hr|constructor].
Qed.
End Schedules.

(** ** Identifiers that come back too early

    Runs of a coordinator that starts from nothing, with the demonstration world. *)

Definition demo_system (l : list action) : System :=
  run_schedule default_limits id (fun m => (map_to_list m).*2) (fun m => (map_to_list m).*2)
    demo_externals demo_self (mkSystem coordinator_new [] []) l.
Notation demo_reaches := (reaches default_limits id (fun m => (map_to_list m).*2) (fun m => (map_to_list m).*2)
  demo_externals demo_self (mkSystem coordinator_new [] [])).
Lemma demo_system_reaches l : demo_reaches (demo_system l).
Proof. apply schedule_reaches. constructor. Qed.

Definition locks_fail (Y : Type) (o : op Y) (n : N) : Y :=
  match o in op Z return Z -> Z with
  | LockSanad _ _ => fun _ => Err (NetworkError "down")
  | _ => fun y => y
  end (demo_outside 20 Y o n).
(** The same transfer of another Sanad. *)
Definition other_call : materialize_call :=
  CExecute (mkTransfer "u" "bitcoin" "ethereum" [] 0 (fill32 Byte.x08) [Byte.x01])
    (context_new (mkTransferLease (sanad_wire (fill32 Byte.x08)) 1 5 0 1000000000000000) 5 (policy_new [])).

Ltac in_history k := apply (list_elem_of_lookup_2 _ k); vm_compute; reflexivity.

(** Two transfers of another Sanad fail to lock while this one waits to mint, so the
    breaker opens; the reservation of a Sanad that is locked is given back, and a later
    call locks it again. *)
Definition breaker_schedule : list action :=
  [Start demo_call; Start other_call; Start other_call; Proceed 0 57 0 (demo_outside 20);
   Proceed 1 500 60 locks_fail; Proceed 2 500 100 locks_fail; Proceed 0 500 500 (demo_outside 20);
   Start demo_call; Proceed 3 500 800 (demo_outside 20)].

Theorem locked_twice_behind_open_breaker :
  exists S t i j r, demo_reaches S /\ i <> j /\
    (i, Ev (LockSanad (ct_source_chain t) t) (Ok r)) ∈ sys_history S /\
    (j, Ev (LockSanad (ct_source_chain t) t) (Ok r)) ∈ sys_history S /\
    (i, Ev (RollBack (typed_replay_id t)) (Ok tt)) ∈ sys_history S.
Proof.
  exists (demo_system breaker_schedule), (demo_materialized "t"), 0, 3, demo_lock_result.
  split; [apply demo_system_reaches|]. split; [done|].
  split; [in_history 21|]. split; [|].
  - in_history 165.
  - in_history 141.
Qed.

(** The process stops after the identifier is consumed and before the transfer is
    recorded as complete; the next call for the Sanad reserves the consumed identifier,
    locks and mints again. *)
Definition consumed_schedule : list action :=
  [Start demo_call; Proceed 0 70 0 (demo_outside 20); Restart; Start demo_call; Proceed 1 500 100 (demo_outside 20)].

Theorem consumed_sanad_minted_twice :
  exists S t i j request m, demo_reaches S /\ i <> j /\
    (i, Ev (MintSanad (ct_destination_chain t) t request) (Ok m)) ∈ sys_history S /\
    (i, Ev (Confirm (b32 (ct_sanad_id t))) (Ok tt)) ∈ sys_history S /\
    (j, Ev (MintSanad (ct_destination_chain t) t request) (Ok m)) ∈ sys_history S.
Proof.
  exists (demo_system consumed_schedule), demo_locked, 0, 1, demo_request, demo_minted.
  split; [apply demo_system_reaches|]. split; [done|].
  split; [in_history 60|]. split; [in_history 69|in_history 132].
Qed.

(** ** Witness *)


(** * A transfer that was left at its lock is completed

    [resume_transfer_outcome] in a world that keeps what it is told, whose clock is
    before the end of the lease, and whose chains answer as they should. *)

(** ** Success, when the answers are kind *)

Section Must.
(** After the history [h], the answer [y] to [o] is kind. *)
Variable kind : trace -> forall Y, op Y -> Y -> Prop.

Fixpoint must {A} (h : trace) (p : prog A) (Q : trace -> A -> Prop) : Prop :=
  match p with
  | Done r => exists a, r = Ok a /\ Q h a
  | @Vis _ Y o k => forall y, kind h Y o y -> must (h ++ [Ev o y]) (k y) Q
  end.

Fixpoint all_kind (h t : trace) : Prop :=
  match t with
  | [] => True
  | @Ev Y o y :: t' => kind h Y o y /\ all_kind (h ++ [Ev o y]) t'
  end.

Lemma must_mono {A} h (p : prog A) (Q Q' : trace -> A -> Prop) :
  must h p Q -> (forall h' a, Q h' a -> Q' h' a) -> must h p Q'.
Proof.
  intros H HQ. revert h H. induction p as [r|Y o k IH]; intros h H; cbn in *; [naive_solver|].
  intros y Hy. apply IH, H, Hy.
Qed.
Lemma must_then {A B} h (p : prog A) (k : result _ A -> prog B) Q :
  must h p (fun h' a => must h' (k (Ok a)) Q) -> must h (prog_then p k) Q.
Proof.
  revert h. induction p as [r|Y o f IH]; intros h; cbn; [by intros (a & -> & H)|].
  intros H y Hy. apply IH, H, Hy.
Qed.
Lemma must_grows {A} h (p : prog A) Q : must h p Q -> must h p (fun h' a => h ⊆ h' /\ Q h' a).
Proof.
  revert h. induction p as [r|Y o k IH]; intros h H; cbn in *; [naive_solver|].
  intros y Hy. eapply must_mono; [apply IH, H, Hy|]. cbn. intros h' a [Hs HQ]. split; [set_solver|done].
Qed.
Lemma must_bind {A B} h (p : prog A) (f : A -> prog B) Q :
  must h p (fun h' a => h ⊆ h' -> must h' (f a) Q) -> must h (p ≫= f) Q.
Proof.
  intros H. apply must_then. eapply must_mono; [apply must_grows, H|]. cbn. intros h' a [Hs Ha]. auto.
Qed.
Lemma must_call {Y} h (o : op Y) (Q : trace -> Y -> Prop) :
  (forall y, kind h Y o y -> Q (h ++ [Ev o y]) y) -> must h (call o) Q.
Proof. intros H y Hy. exists y. auto. Qed.
(** An access whose kind answers succeed. *)
Lemma must_try {E Y} h (f : E -> _) (o : op (result E Y)) (Q : trace -> Y -> Prop) :
  (forall r, kind h _ o r -> exists y, r = Ok y /\ Q (h ++ [Ev o (Ok y)]) y) -> must h (try_op f o) Q.
Proof. intros H r Hr. destruct (H r Hr) as (y & -> & HQ). by exists y. Qed.
Lemma must_done {A} h (a : A) (Q : trace -> A -> Prop) : Q h a -> must h (Done (Ok a)) Q.
Proof. intros H. by exists a. Qed.
Lemma must_lift {A} h (a : A) r (Q : trace -> A -> Prop) : r = Ok a -> Q h a -> must h (lift r) Q.
Proof. intros -> H. by exists a. Qed.
Lemma must_stop h c e (Q : trace -> unit -> Prop) : c = false -> Q h tt -> must h (stop_if c e) Q.
Proof. intros -> H. by exists tt. Qed.

Lemma must_steps {A} h (p : prog A) Q t r :
  must h p Q -> steps p t (Done r) -> all_kind h t -> exists a, r = Ok a /\ Q (h ++ t) a.
Proof.
  intros Hm Hs. remember (Done r) as q eqn:E. revert h Hm. induction Hs as [p|Y o k y t q Hs IH]; intros h Hm Hk.
  - subst p. cbn in Hm. by rewrite app_nil_r.
  - destruct Hk as [Hy Hk]. destruct (IH E _ (Hm y Hy) Hk) as (a & Hr & HQ). exists a.
    by rewrite <- app_assoc in HQ.
Qed.
End Must.

(** A world that always answers kindly. *)
Lemma advance_kind {W} kind (serve : forall Y, op Y -> W -> Y * W) {A} n (p : prog A) (w : W) h :
  (forall h Y o w, kind h Y o (serve Y o w).1) -> all_kind kind h (advance serve n p w).1.1.
Proof.
  intros Hk. revert p w h. induction n as [|n IH]; intros p w h; [done|]. destruct p as [r|Y o k]; [done|].
  cbn. pose proof (Hk h Y o w) as Ho. destruct (serve Y o w) as [y w1]. specialize (IH (k y) w1 (h ++ [Ev o y])).
  by destruct (advance serve n (k y) w1) as [[t q] w2].
Qed.

(** A call comes to its end, whatever it is answered. *)
Lemma advance_ends {W} (serve : forall Y, op Y -> W -> Y * W) {A} (p : prog A) (w : W) :
  exists n t r w', advance serve n p w = (t, Done r, w').
Proof.
  revert w. induction p as [r|Y o k IH]; intros w; [by exists 0, [], r, w|].
  destruct (serve Y o w) as [y w1] eqn:E. destruct (IH y w1) as (n & t & r & w' & H).
  exists (S n), (Ev o y :: t), r, w'. cbn. by rewrite E, H.
Qed.

(** ** The world *)

Section Resume.
Variables (X : Externals) (self : Self) (t : CrossChainTransfer) (ctx : RuntimeExecutionContext).
(** The latest entry of the transfer, the finality of its lock, the proof the chain
    builds, the mint. *)
Variables (e : TransferPhaseEntry) (f : TxFinality) (p : ProofBundle) (m : MintResult) (required : N).
Notation payload := (bundle_to_canonical_bytes p).

(** The stores keep what they are told, the registry still has the transfer, the lease is
    not over, and the chains answer as they should. *)
Definition kind (h : trace) (Y : Type) (o : op Y) : Y -> Prop :=
  match o in op Z return Z -> Prop with
  | Now => fun now => lease_is_active now (rc_lease ctx) = true
  | IsHeldBy _ => fun held => held = true
  | AcquirePermit _ _ => fun r => is_ok r = true
  | AcceptLease _ _ | Record _ | Confirm _ | StoreTransfer _ => fun r => r = Ok tt
  | LatestEntry _ => fun r => (forall e r, Ev (Record e) r ∉ h) -> r = Ok (Some e)
  | LoadTransfers => fun r => exists l, r = Ok l /\ cached_transfer (ct_id t) l = Some t
  | ReplayContains _ => fun r => r = Ok true
  | SchemeOf _ => fun s => s = None \/ s = Some (signature_scheme p)
  | TxFinalityOf _ _ => fun r => r = Ok f
  | BuildProof _ _ _ => fun r => r = Ok p
  | CheckSeal _ _ => fun r => is_ok r = true
  | ValidateProof _ _ _ => fun r => r = Ok tt
  | MintSanad _ _ _ | ConfirmTx _ _ => fun r => r = Ok m
  | _ => fun _ => True
  end.
Notation must := (must kind).

(** What there must be to complete the transfer. *)
Record resumable : Prop := {
  rs_owner : tl_owner (rc_lease ctx) = rc_runtime_instance ctx;
  rs_epoch : tl_epoch (rc_lease ctx) <> 0%N;
  rs_sanad : lease_sanad (rc_lease ctx) = ct_sanad_id t;
  rs_phase : pe_phase e ∈ [SLockSubmitted; SLockConfirmed; SAwaitingFinality];
  rs_digest : is_ok (lock_tx_ref_digest (nh_sha256 (x_hashes X)) (ct_lock_tx_hash t)) = true;
  rs_depth : finality_depth_for_chain (rc_policy ctx) (ct_source_chain t) = Some required;
  rs_height : (required <= tf_confirmations f)%N -> (required <= tf_block_height f)%N;
  rs_bundle : bundle_from_canonical_bytes payload = Ok p;
  rs_anchor : anchor_id (anchor_ref p) = b32 (ct_sanad_id t);
  rs_met : (required <= tf_confirmations f)%N -> is_met (source_outcome X t p required f) = true;
  rs_request : is_ok (mint_payload X t p payload ctx) = true;
  rs_minted : is_ok (hash_from_tx_str (mi_tx_hash m)) = true
}.
Context (Hres : resumable).

Lemma must_journal h (entry : N -> TransferPhaseEntry) :
  must h (journal_phase entry) (fun h' _ => exists now, Ev (Record (entry now)) (Ok tt) ∈ h').
Proof.
  apply must_bind, must_call. intros now _ _. apply must_try. intros r ->. exists tt. split; [done|].
  exists now. apply elem_of_app. right. by apply list_elem_of_singleton.
Qed.

Lemma must_active h id : must h (assert_single_active_coordinator self id) (fun _ _ => True).
Proof.
  unfold assert_single_active_coordinator. destruct (co_has_lease self); [|by apply must_done].
  apply must_bind, must_call. intros held -> _. by apply must_stop.
Qed.

Lemma must_validate h : must h (validate_recovery_context self t ctx) (fun _ _ => True).
Proof.
  unfold validate_recovery_context, accept_lease. apply must_bind. eapply must_mono; [apply must_active|].
  intros h1 [] _ _. apply must_bind, must_call. intros now Hnow _.
  apply must_bind, must_stop.
  { cbn in Hnow. rewrite Hnow, bool_decide_true, bool_decide_false by apply Hres. done. }
  intros _. apply must_bind, must_stop; [by rewrite bool_decide_true by apply Hres|]. intros _.
  apply must_bind, must_bind, must_call. intros now' _ _. apply must_try. intros r ->. exists tt. split; [done|].
  intros _. apply must_bind, must_try. intros r ->. exists true. split; [done|]. intros _.
  apply must_bind, must_stop; [done|]. intros _. by apply must_done.
Qed.

Lemma must_finality h : must h (lock_finality_status t) (fun _ f' => f' = f).
Proof. apply must_try. intros r ->. by exists f. Qed.

Lemma must_verify h : (required <= tf_confirmations f)%N ->
  must h (verify_recovery_proof X t p (tf_block_height f) ctx) (fun _ _ => True).
Proof.
  intros Hdeep. unfold verify_recovery_proof. apply must_bind.
  eapply must_lift; [|intros _].
  { unfold check_finality_threshold. rewrite (rs_depth Hres). cbn.
    unfold guard_err. rewrite (proj2 (N.ltb_ge _ _)) by (by apply Hres). reflexivity. }
  apply must_bind, must_bind, must_call. intros s Hs _.
  eapply (must_mono _ _ _ (fun _ _ => True)).
  { destruct Hs as [-> | ->]; [by apply must_done|]. apply must_stop; [by rewrite bool_decide_true|done]. }
  intros h1 [] _ _. apply must_bind, must_bind, must_try. intros [seal|?] [=]. exists seal. split; [done|].
  intros _. apply must_done. intros _. rewrite (rs_depth Hres).
  apply must_bind. eapply must_lift; [reflexivity|]. intros _.
  apply must_bind, must_stop; [by rewrite bool_decide_true by apply Hres|]. intros _.
  apply must_bind. eapply must_mono; [apply must_finality|]. intros h2 f' -> _.
  apply must_bind, must_stop; [by apply N.ltb_ge|]. intros _.
  apply must_bind, must_try. intros r ->. exists tt. split; [done|]. intros _. cbv zeta.
  apply must_stop; [|done]. by rewrite (rs_met Hres Hdeep).
Qed.

Lemma must_registry h : must h (registry_entry X t) (fun _ _ => True).
Proof.
  apply must_bind, must_call. intros now _ _.
  unfold transfer_to_registry_entry. pose proof (rs_digest Hres) as Hd.
  destruct (lock_tx_ref_digest _ _) as [d|]; [|done]. by eapply must_lift.
Qed.
Lemma must_store h failed : must h (store_minted X failed t (mi_tx_hash m)) (fun _ _ => True).
Proof.
  apply must_bind. eapply must_mono; [apply must_registry|]. intros h1 en _ _.
  pose proof (rs_minted Hres) as Hm. destruct (hash_from_tx_str (mi_tx_hash m)) as [d|]; [|done].
  apply must_bind. eapply must_lift; [reflexivity|]. intros _. apply must_try. intros r ->. by exists tt.
Qed.

Lemma must_append h x event_type v pl r : must h (append_event x event_type v pl r) (fun _ _ => True).
Proof.
  unfold append_event. apply must_bind, must_call. intros c _ _. apply must_bind, must_call. intros i _ _.
  apply must_bind, must_call. intros now _ _. intros y _. by apply must_done.
Qed.
Lemma must_evidence h : must h (record_resumed_settlement_evidence X t m ctx) (fun _ _ => True).
Proof.
  unfold record_resumed_settlement_evidence. intros r _. cbv beta.
  destruct r as [e1|]; [|by apply must_done].
  destruct (e1 ≫= pe_proof_payload) as [[|b l]|]; [by apply must_done| |by apply must_done].
  destruct (bundle_from_canonical_bytes (b :: l)); [|by apply must_done].
  unfold evidence_of_mint, record_evidence. apply must_bind, must_call. intros now _ _.
  destruct (x_evidence_json X _); [|by apply must_done].
  apply must_bind. intros v _. apply must_done. intros _. apply must_append.
Qed.

(** What a transfer that was completed leaves. *)
Definition completed_in (h : trace) : Prop :=
  (exists tx, Ev (ConfirmTx (ct_destination_chain t) tx) (Ok m) ∈ h) /\
  Ev (Confirm (b32 (ct_sanad_id t))) (Ok tt) ∈ h /\
  (exists now, Ev (Record (phase_entry t zero32 None SCompleted PhaseCompleted 2 None now)) (Ok tt) ∈ h).
Lemma completed_in_mono h h' : h ⊆ h' -> completed_in h -> completed_in h'.
Proof. intros Hs ((tx & ?) & ? & now & ?). split_and!; eauto. Qed.
Definition receipt : TransferReceipt :=
  mkTransferReceipt (ct_id t) (ct_sanad_id t) (hex_string (ct_lock_tx_hash t)) (mi_tx_hash m)
    (mi_materialization m) None None.

Lemma must_from_mint h :
  must h (execute_from_mint X self (ct_id t) (mi_tx_hash m) ctx) (fun h' r => r = receipt /\ completed_in h').
Proof.
  unfold execute_from_mint. apply must_bind. eapply must_mono; [apply must_active|]. intros h1 [] _ _.
  apply must_bind, must_try. intros r (l & -> & Hl). exists l. split; [done|]. intros _.
  rewrite Hl. apply must_bind. eapply must_lift; [reflexivity|]. intros _.
  apply must_bind. eapply must_mono; [apply must_validate|]. intros h2 x _ _.
  apply must_bind, must_try. intros r ->. exists m. split; [done|]. intros _.
  apply must_bind, must_try. intros r ->. exists tt. split; [done|]. intros _.
  match goal with |- must ?h _ _ => assert (Hc : Ev (ConfirmTx (ct_destination_chain t) (mi_tx_hash m)) (Ok m) ∈ h /\
    Ev (Confirm (b32 (ct_sanad_id t))) (Ok tt) ∈ h) by (rewrite !elem_of_app, !list_elem_of_singleton; auto);
    set (h3 := h) in *; clearbody h3 end.
  apply must_bind. eapply must_mono; [apply must_evidence|]. intros h4 [] _ Hs4.
  apply must_bind. eapply must_mono; [apply must_store|]. intros h5 [] _ Hs5.
  apply must_bind. eapply must_mono; [apply must_journal|]. intros h6 [] _ Hs6.
  apply must_bind. eapply must_mono; [apply must_journal|]. intros h7 [] [now Hn] Hs7.
  apply must_done. split; [done|]. destruct Hc. split_and!; eauto 10.
Qed.

Lemma must_permit {A} h (body : prog A) (Q : trace -> A -> Prop) :
  (forall h' ev a, Q h' a -> Q (h' ++ [ev]) a) -> (forall h', h ⊆ h' -> must h' body Q) -> must h (with_permit t body) Q.
Proof.
  intros HQ Hb. apply must_bind, must_try. intros [chains|?] [=]. exists chains. split; [done|]. intros _.
  apply must_then. eapply must_mono; [apply Hb; set_solver|]. intros h1 a Ha y _. by apply must_done, HQ.
Qed.

(** A mint that was asked for and accepted. *)
Definition minted_in (h : trace) : Prop :=
  exists request, Ev (MintSanad (ct_destination_chain t) t request) (Ok m) ∈ h.

Lemma must_from_proof h : (required <= tf_confirmations f)%N -> payload <> [] ->
  must h (execute_from_proof X self t payload ctx) (fun h' r => r = receipt /\ completed_in h' /\ minted_in h').
Proof.
  intros Hdeep Hne. unfold execute_from_proof. apply must_bind.
  eapply (must_mono _ _ _ (fun _ p' => p' = p)).
  { unfold kept_proof. apply must_bind. eapply must_mono; [apply must_validate|]. intros h1 x _ _.
    apply must_bind, must_stop; [by apply bool_decide_false|]. intros _.
    rewrite (rs_bundle Hres). apply must_bind. eapply must_lift; [reflexivity|]. intros _.
    apply must_bind. eapply must_mono; [apply must_finality|]. intros h2 f' -> _.
    apply must_bind. eapply must_mono; [by apply must_verify|]. intros h3 [] _ _. by apply must_done. }
  intros h1 p' -> _. apply must_permit.
  { intros h' ev a (-> & Hc & r & Hr). split_and!; [done|by eapply completed_in_mono; [|exact Hc]; set_solver|].
    exists r. set_solver. }
  intros h2 _. cbv zeta. apply must_bind. eapply must_mono; [apply must_journal|]. intros h3 [] _ _.
  pose proof (rs_request Hres) as Hreq. destruct (mint_payload X t p payload ctx) as [request|]; [|done].
  apply must_bind. eapply must_lift; [reflexivity|]. intros _.
  apply must_bind, must_try. intros r ->. exists m. split; [done|]. intros Hs4.
  match goal with |- must ?h _ _ => assert (Hm : minted_in h) by (exists request; set_solver); set (h4 := h) in *; clearbody h4 end.
  apply must_bind. eapply must_mono; [apply must_store|]. intros h5 [] _ Hs5.
  apply must_bind. eapply must_mono; [apply must_journal|]. intros h6 [] _ Hs6.
  eapply must_mono; [apply must_grows, must_from_mint|]. intros h7 r (Hs7 & -> & Hc). split_and!; [done|done|].
  destruct Hm as [q Hq]. exists q. auto 10.
Qed.

Lemma must_from_lock h : payload <> [] ->
  must h (execute_from_lock_outcome X self t ctx) (fun h' o =>
    if (tf_confirmations f <? required)%N
    then o = TPending (hex_string (ct_lock_tx_hash t)) (FinalityObservation_new f required)
    else o = TCompleted receipt /\ completed_in h' /\ minted_in h').
Proof.
  intros Hne. unfold execute_from_lock_outcome. apply must_bind. eapply must_mono; [apply must_validate|]. intros h1 x _ _.
  rewrite (rs_depth Hres). apply must_bind. eapply must_lift; [reflexivity|]. intros _.
  pose proof (rs_digest Hres) as Hd. destruct (lock_tx_ref_digest _ _) as [d|]; [|done].
  apply must_bind. eapply must_lift; [reflexivity|]. intros _.
  apply must_bind. eapply must_mono; [apply must_journal|]. intros h2 [] _ _.
  apply must_bind. eapply must_mono; [apply must_finality|]. intros h3 f' -> _.
  destruct (N.ltb_spec (tf_confirmations f) required) as [Hlt|Hge]; [by apply must_done|].
  apply must_bind. eapply must_mono; [apply must_journal|]. intros h4 [] _ _.
  apply must_bind. eapply must_mono; [apply must_journal|]. intros h5 [] _ _.
  apply must_bind, must_try. intros r ->. exists p. split; [done|]. intros _.
  apply must_bind. eapply must_mono; [by apply must_verify|]. intros h6 [] _ _. cbv zeta.
  apply must_bind. eapply must_mono; [apply must_journal|]. intros h7 [] _ _.
  apply must_bind. eapply must_mono; [apply must_journal|]. intros h8 [] _ _.
  apply must_bind. eapply must_mono; [by apply must_from_proof|]. intros h9 r (-> & Hc & Hm) _.
  by apply must_done.
Qed.

Lemma must_resume h : (forall e r, Ev (Record e) r ∉ h) -> payload <> [] ->
  must h (resume_transfer_outcome X self (ct_id t) ctx) (fun h' o =>
    if (tf_confirmations f <? required)%N
    then o = TPending (hex_string (ct_lock_tx_hash t)) (FinalityObservation_new f required)
    else o = TCompleted receipt /\ completed_in h' /\ minted_in h').
Proof.
  intros Hh Hne. unfold resume_transfer_outcome. apply must_bind.
  eapply (must_mono _ _ _ (fun h1 _ => forall e r, Ev (Record e) r ∉ h1)).
  { unfold assert_single_active_coordinator. destruct (co_has_lease self); [|by apply must_done].
    apply must_bind, must_call. intros held -> _. apply must_stop; [done|]. intros e1 r1.
    rewrite elem_of_app, list_elem_of_singleton. intros [?|[=]]. by eapply Hh. }
  intros h1 [] Hh1 _. apply must_bind. unfold latest_entry. apply must_bind, must_try.
  intros r Hr. cbn in Hr. rewrite (Hr Hh1). exists (Some e). split; [done|]. intros _.
  eapply must_lift; [reflexivity|]. intros _.
  assert (Hgoal : forall h lost, must h (l ← load_transfers;
     t' ← transfer_or_context (ct_id t) (cached_transfer (ct_id t) l) (pe_transfer_context e) lost;
     execute_from_lock_outcome X self t' ctx) (fun h' o =>
    if (tf_confirmations f <? required)%N
    then o = TPending (hex_string (ct_lock_tx_hash t)) (FinalityObservation_new f required)
    else o = TCompleted receipt /\ completed_in h' /\ minted_in h')).
  { intros h2 lost. apply must_bind, must_try. intros r1 (l & -> & Hl). exists l. split; [done|]. intros _.
    rewrite Hl. apply must_bind, must_done. intros _. by apply must_from_lock. }
  pose proof (rs_phase Hres) as Hp. set_unfold in Hp. destruct Hp as [-> |[-> |[-> |[]]]]; apply Hgoal.
Qed.
End Resume.

(** C8: A resumed call comes to its end whatever it is answered.  If the journal has the
    transfer at its lock, the registry still has it, the lease is good and the chains
    answer as they should, then it ends well: while the lock is not as deep as the policy
    asks it is pending, and once it is the Sanad is minted, the mint is confirmed, the
    replay identifier is consumed and the transfer is recorded as completed. *)
Theorem resume_completes {W} (serve : forall Y, op Y -> W -> Y * W) (w : W)
  (X : Externals) (self : Self) (t : CrossChainTransfer) (ctx : RuntimeExecutionContext)
  (e : TransferPhaseEntry) (f : TxFinality) (p : ProofBundle) (m : MintResult) (required : N)
  (Hres : resumable X t ctx e f p m required) :
  exists n h r w', advance serve n (resume_transfer_outcome X self (ct_id t) ctx) w = (h, Done r, w') /\
    (all_kind (kind t ctx e f p m) [] h ->
     if (tf_confirmations f <? required)%N
     then r = Ok (TPending (hex_string (ct_lock_tx_hash t)) (FinalityObservation_new f required))
     else r = Ok (TCompleted (receipt t m)) /\ completed_in t m h /\ minted_in t m h).
Proof.
  destruct (advance_ends serve (resume_transfer_outcome X self (ct_id t) ctx) w) as (n & h & r & w' & E).
  exists n, h, r, w'. split; [exact E|]. intros Hk.
  pose proof (advance_steps serve n (resume_transfer_outcome X self (ct_id t) ctx) w) as Hs. rewrite E in Hs. cbn in Hs.
  assert (Hne : bundle_to_canonical_bytes p <> []).
  { intros Hnil. pose proof (rs_bundle _ _ _ _ _ _ _ _ Hres) as Hb. by rewrite Hnil in Hb. }
  destruct (must_steps _ [] _ _ _ _ (must_resume X self t ctx e f p m required Hres [] ltac:(set_solver) Hne) Hs Hk)
    as (o & -> & Ho). cbn in Ho. destruct (tf_confirmations f <? required)%N; [by rewrite Ho|].
  destruct Ho as (-> & Hc & Hm). done.
Qed.

(** ** Witness *)

Definition demo_entry_at : TransferPhaseEntry := plain_entry demo_locked SAwaitingFinality Entered 0.
Definition demo_registry : list HashEntry :=
  match transfer_to_registry_entry toy_hash id 0 demo_locked with Ok e => [e] | Err _ => [] end.
Definition demo_finality_of (depth : N) : TxFinality := mkTxFinality 12 depth (Some 20%N).
Definition kind_world (depth : N) (Y : Type) (o : op Y) (w : unit) : Y * unit :=
  (match o in op Z return Z -> Z with
   | LatestEntry _ => fun _ => Ok (Some demo_entry_at)
   | LoadTransfers => fun _ => Ok demo_registry
   | BuildProof _ _ _ => fun _ => Ok (demo_bundle_of demo_locked)
   | MintSanad _ _ _ | ConfirmTx _ _ => fun _ => Ok demo_minted
   | _ => fun y => y
   end (demo_outside depth Y o 0), w).

Lemma demo_resumable depth : depth = 20%N \/ depth = 2%N ->
  resumable demo_externals demo_locked demo_ctx demo_entry_at (demo_finality_of depth)
    (demo_bundle_of demo_locked) demo_minted 6.
Proof.
  intros Hd. split.
  1, 5, 6, 9, 11, 12: vm_compute; reflexivity.
  - done.
  - apply b32_inj. vm_compute. reflexivity.
  - cbn. set_solver.
  - cbn. lia.
  - vm_compute. repeat (reflexivity || (apply b32_inj; reflexivity) || f_equal).
  - destruct Hd as [-> | ->]; [intros _; vm_compute; reflexivity|cbn; lia].
Qed.
Lemma kind_world_kind depth h Y (o : op Y) w :
  kind demo_locked demo_ctx demo_entry_at (demo_finality_of depth) (demo_bundle_of demo_locked) demo_minted h Y o
    (kind_world depth Y o w).1.
Proof.
  destruct o; cbn; try done; try (by right).
  exists demo_registry. split; [done|]. vm_compute. repeat (reflexivity || (apply b32_inj; reflexivity) || f_equal).
Qed.

Lemma resume_completes_witness :
  (exists h, Ev (Confirm (b32 (ct_sanad_id demo_locked))) (Ok tt) ∈ h /\
     runs (resume_transfer_outcome demo_externals demo_self (ct_id demo_locked) demo_ctx) h) /\
  exists h, steps (resume_transfer_outcome demo_externals demo_self (ct_id demo_locked) demo_ctx) h
     (Done (Ok (TPending (hex_string demo_lock_tx) (FinalityObservation_new (demo_finality_of 2) 6)))).
Proof.
  assert (H : forall depth, depth = 20%N \/ depth = 2%N -> exists h r,
    steps (resume_transfer_outcome demo_externals demo_self (ct_id demo_locked) demo_ctx) h (Done r) /\
    (if (tf_confirmations (demo_finality_of depth) <? 6)%N
     then r = Ok (TPending (hex_string demo_lock_tx) (FinalityObservation_new (demo_finality_of depth) 6))
     else completed_in demo_locked demo_minted h)).
  { intros depth Hd.
    destruct (resume_completes (kind_world depth) tt demo_externals demo_self demo_locked demo_ctx demo_entry_at
      (demo_finality_of depth) (demo_bundle_of demo_locked) demo_minted 6 (demo_resumable depth Hd))
      as (n & h & r & w' & E & Hk).
    exists h, r. split.
    - pose proof (advance_steps (kind_world depth) n (resume_transfer_outcome demo_externals demo_self (ct_id demo_locked) demo_ctx) tt) as Hs.
      by rewrite E in Hs.
    - assert (Ha : all_kind (kind demo_locked demo_ctx demo_entry_at (demo_finality_of depth)
        (demo_bundle_of demo_locked) demo_minted) [] h).
      { pose proof (advance_kind _ (kind_world depth) n
          (resume_transfer_outcome demo_externals demo_self (ct_id demo_locked) demo_ctx) tt [] (kind_world_kind depth)) as Hs.
        by rewrite E in Hs. }
      specialize (Hk Ha). destruct (_ <? 6)%N; [exact Hk|apply Hk]. }
  split.
  - destruct (H 20%N (or_introl eq_refl)) as (h & r & Hs & (_ & Hc & _)). exists h. split; [exact Hc|by eexists].
  - destruct (H 2%N (or_intror eq_refl)) as (h & r & Hs & ->). by exists h.
Defined.
