(* ===== verification/Delivery.v ===== *)
(** * Delivery between peers (csv-p2p/src/lib.rs, proof_delivery.rs, nostr.rs, ipfs.rs)

    Filters; the cache of seen events; the router of proofs and of consignments, which is one
    router over two kinds of envelope, over transports whose answers may depend on everything
    asked before; the Nostr and the IPFS transports.  Relays, signing, canonical CBOR and the
    order of a hash map are parameters; logging and waiting are left out. *)

From S2P Require Import Prelude Bytes Hashing Text Dag DagCodec Seal Consignment ProofTaxonomy.

(** ** Errors and envelopes *)

Inductive TransportError :=
| Network (m : string) | Serialization (m : string) | Nostr (m : string) | Ipfs (m : string)
| NoRelays | Timeout | NotInitialized | PublishFailed | InvalidEvent (m : string) | NostrNotConfigured.

(** [Display for TransportError] *)
Definition transport_message (e : TransportError) : string :=
  match e with
  | Network m => "Network error: " +:+ m
  | Serialization m => "Serialization error: " +:+ m
  | Nostr m => "Nostr relay error: " +:+ m
  | Ipfs m => "IPFS error: " +:+ m
  | NoRelays => "No relays available"
  | Timeout => "Timeout waiting for response"
  | NotInitialized => "Transport not initialized"
  | PublishFailed => "Event publish failed"
  | InvalidEvent m => "Invalid event: " +:+ m
  | NostrNotConfigured => "Nostr transport not configured (feature disabled)"
  end.

Definition EventId := string.
Record Delivered (A : Type) := mkDelivered {
  dl_payload : A; event_id : EventId; author_pubkey : string; dl_timestamp : N
}.
Arguments mkDelivered {A}.
Arguments dl_payload {A}.
Arguments event_id {A}.
Arguments author_pubkey {A}.
Arguments dl_timestamp {A}.
Definition DeliveredProof := Delivered ProofBundle.
Definition DeliveredConsignment := Delivered Consignment.

(** [s.trim()]: the characters of a text with their bytes, without white space at the ends. *)
Fixpoint pieces (fuel : nat) (l : bytes) : list (N * bytes) :=
  match fuel, l with
  | S fuel, b :: rest =>
      match utf8_step b rest with
      | Utf8Char c w => (c, take w l) :: pieces fuel (drop w l)
      | Utf8Bad _ => []
      end
  | _, _ => []
  end.
Fixpoint skip_white (l : list (N * bytes)) : list (N * bytes) :=
  match l with
  | (c, b) :: l' => if is_whitespace c then skip_white l' else l
  | [] => []
  end.
Definition trim (s : string) : string :=
  let l := pieces (length (as_bytes s)) (as_bytes s) in
  of_bytes (flat_map snd (rev (skip_white (rev (skip_white l))))).

(** ** Filters *)

Record ProofFilter := mkProofFilter {
  chain_ids : list string; pf_authors : list string; min_confirmations : option N
}.
Definition pf_for_chain (chain : string) : ProofFilter := mkProofFilter [chain] [] None.
Definition from_author (key : string) : ProofFilter := mkProofFilter [] [key] None.
Definition all_csv_proofs : ProofFilter := mkProofFilter [] [] None.

(** An empty list of names matches any name. *)
Definition matches_any (names : list string) (name : string) : bool :=
  bool_decide (names = []) || bool_decide (name ∈ names).
Definition pf_matches_chain (f : ProofFilter) (chain : string) : bool := matches_any (chain_ids f) chain.
Definition pf_matches_author (f : ProofFilter) (author : string) : bool := matches_any (pf_authors f) author.

(** The chain written into an anchor's metadata. *)
Definition anchored_chain (metadata : bytes) : option string :=
  match from_utf8 metadata with Ok s => Some (trim s) | Err _ => None end.

Definition matches_proof (f : ProofFilter) (p : ProofBundle) : result TransportError bool :=
  reject negb (bool_decide (pf_authors f = []))
    with InvalidEvent ("Author filtering is not supported at the proof bundle level. " +:+
                       "Use transport-level filtering (e.g., Nostr event filtering) instead.") ;;
  Ok (bool_decide (chain_ids f = []) ||
      existsb (fun chain => bool_decide (anchored_chain (anchor_metadata (anchor_ref p)) = Some chain)) (chain_ids f)).

Record ConsignmentFilter := mkConsignmentFilter {
  destination_chains : list string; sanad_ids : list string; invoice_ids : list string;
  cf_authors : list string
}.
Definition all_csv_consignments : ConsignmentFilter := mkConsignmentFilter [] [] [] [].
Definition for_destination_chain (chain : string) : ConsignmentFilter := mkConsignmentFilter [chain] [] [] [].
Definition for_sanad (id : string) : ConsignmentFilter := mkConsignmentFilter [] [id] [] [].
Definition for_invoice (id : string) : ConsignmentFilter := mkConsignmentFilter [] [] [id] [].
Definition matches_destination_chain (f : ConsignmentFilter) (chain : string) : bool :=
  matches_any (destination_chains f) chain.
Definition cf_matches_author (f : ConsignmentFilter) (author : string) : bool := matches_any (cf_authors f) author.

Section Matching.
Variable sha256 : bytes -> Bytes32.
Variable invoice_cbor : Invoice -> result string bytes.

Definition matches_consignment (f : ConsignmentFilter) (c : Consignment) : result TransportError bool :=
  let chain_matches := matches_destination_chain f (sd_chain (iv_seal (cn_invoice c))) in
  let sanad_matches := matches_any (sanad_ids f) (cn_sanad_id c) in
  invoice_matches ← (if bool_decide (invoice_ids f = []) then Ok true
                     else
                       id ← map_err Serialization (invoice_canonical_id sha256 invoice_cbor (cn_invoice c));
                       Ok (bool_decide (of_bytes (hex_encode id) ∈ invoice_ids f)));
  Ok (chain_matches && sanad_matches && invoice_matches).
End Matching.

(** ** The cache of seen events *)

Definition MAX_CACHED_PROOFS : nat := N.to_nat 10000.
Definition DEFAULT_PROOF_TTL : N := 3600.

(** The time to live and the time of the last cleaning are never read. *)
Record ProofCache := mkCache { seen_event_ids : gset string; max_size : nat }.
Definition cache_new : ProofCache := mkCache ∅ MAX_CACHED_PROOFS.
Definition cache_len (c : ProofCache) : nat := size (seen_event_ids c).

Definition cache_record (id : EventId) (c : ProofCache) : ProofCache :=
  if size (seen_event_ids c) <? max_size c then mkCache ({[id]} ∪ seen_event_ids c) (max_size c) else c.

Section Cache.
(** The order in which the set is listed. *)
Variable listing : gset string -> list string.

Definition ensure_capacity (c : ProofCache) : ProofCache :=
  if max_size c * 2 <? size (seen_event_ids c)
  then mkCache (list_to_set (take (max_size c / 2) (listing (seen_event_ids c)))) (max_size c)
  else c.
Definition is_duplicate (id : EventId) (c : ProofCache) : bool * ProofCache :=
  let c := ensure_capacity c in (bool_decide (id ∈ seen_event_ids c), c).

(** What both routers' [process_incoming] do with an event: whether it is new. *)
Definition process_incoming (id : EventId) (c : ProofCache) : bool * ProofCache :=
  let '(duplicate, c) := is_duplicate id c in
  if duplicate then (false, c) else (true, cache_record id c).
End Cache.

(** ** Routers *)

(** What has been asked of the transports, the latest last. *)
Inductive Call := Asked (name : string) (connected : bool) | Sent (name : string) (r : result TransportError EventId).

Section Router.
Context {T P : Type}.

Record Router := mkRouter { transports : gmap string T; preferred_transport : option string; cache : ProofCache }.
Definition router_new : Router := mkRouter ∅ None cache_new.
Definition register (name : string) (t : T) (r : Router) : Router :=
  mkRouter (<[name := t]> (transports r))
    (match preferred_transport r with None => Some name | p => p end) (cache r).
Definition set_preferred (name : string) (r : Router) : Router :=
  if transports r !! name then mkRouter (transports r) (Some name) (cache r) else r.

(** The answers of the transports, and the order in which they are listed. *)
Variable is_connected : list Call -> T -> bool.
Variable send : list Call -> T -> P -> result TransportError EventId.
Variable order : gmap string T -> list (string * T).

(** One transport: it is sent to when it is connected. *)
Definition attempt (p : P) (log : list Call) (t : string * T) : option (result TransportError EventId) * list Call :=
  let up := is_connected log (snd t) in
  let log := log ++ [Asked (fst t) up] in
  if up then let r := send log (snd t) p in (Some r, log ++ [Sent (fst t) r]) else (None, log).

Fixpoint try_all (p : P) (l : list (string * T)) (log : list Call) : result TransportError EventId * list Call :=
  match l with
  | [] => (Err NoRelays, log)
  | t :: l' =>
      match attempt p log t with
      | (Some (Ok id), log) => (Ok id, log)
      | (_, log) => try_all p l' log
      end
  end.

(** [ProofRouter::broadcast], [ConsignmentRouter::deliver] *)
Definition broadcast (r : Router) (p : P) (log : list Call) : result TransportError EventId * list Call :=
  let all := order (transports r) in
  match preferred_transport r with
  | Some name =>
      match transports r !! name with
      | Some t =>
          match attempt p log (name, t) with
          | (Some (Ok id), log) => (Ok id, log)
          | (_, log) => try_all p all log
          end
      | None => try_all p all log
      end
  | None => try_all p all log
  end.

(** [broadcast_all], [deliver_all] *)
Fixpoint send_all (p : P) (l : list (string * T)) (log : list Call)
  : (list EventId * list TransportError) * list Call :=
  match l with
  | [] => (([], []), log)
  | t :: l' =>
      let '(r, log) := attempt p log t in
      let '((ok, bad), log) := send_all p l' log in
      (match r with
       | Some (Ok id) => (id :: ok, bad)
       | Some (Err e) => (ok, e :: bad)
       | None => (ok, bad)
       end, log)
  end.
Definition broadcast_all (r : Router) (p : P) (log : list Call) : (list EventId * list TransportError) * list Call :=
  send_all p (order (transports r)) log.
End Router.
Arguments Router : clear implicits.

(** The router of consignments has the same methods over another kind of envelope. *)
Definition ConsignmentRouter (T : Type) : Type := Router T.
Definition consignment_register {T} : string -> T -> ConsignmentRouter T -> ConsignmentRouter T := register.
Definition consignment_set_preferred {T} : string -> ConsignmentRouter T -> ConsignmentRouter T := set_preferred.
Definition deliver {T} (is_connected : list Call -> T -> bool)
    (send : list Call -> T -> Consignment -> result TransportError EventId)
    (order : gmap string T -> list (string * T))
  : ConsignmentRouter T -> Consignment -> list Call -> result TransportError EventId * list Call :=
  broadcast is_connected send order.
Definition deliver_all {T} (is_connected : list Call -> T -> bool)
    (send : list Call -> T -> Consignment -> result TransportError EventId)
    (order : gmap string T -> list (string * T))
  : ConsignmentRouter T -> Consignment -> list Call -> (list EventId * list TransportError) * list Call :=
  broadcast_all is_connected send order.
Definition process_consignment (listing : gset string -> list string) (d : DeliveredConsignment) (c : ProofCache)
  : bool * ProofCache := process_incoming listing (event_id d) c.
Definition process_proof (listing : gset string -> list string) (d : DeliveredProof) (c : ProofCache)
  : bool * ProofCache := process_incoming listing (event_id d) c.

(** ** Nostr *)

Definition PROOF_EVENT_KIND : N := 30345.
Definition CONSIGNMENT_EVENT_KIND : N := 30346.
Definition ENCRYPTED_DM_KIND : N := 4.
Definition MAX_PROOF_SIZE : nat := N.to_nat 100000.
Definition MAX_CONSIGNMENT_SIZE : nat := N.to_nat 1000000.

(** A tag is its texts. *)
Record NostrEvent := mkEvent {
  ev_id : string; ev_pubkey : string; ev_kind : N; ev_tags : list (list string);
  ev_content : string; ev_created_at : N
}.
Record NostrTransport := mkNostr { relays : list string; initialized : bool; use_encrypted_dms : bool; max_relay_retries : nat }.
Definition event_kind (t : NostrTransport) : N := if use_encrypted_dms t then ENCRYPTED_DM_KIND else PROOF_EVENT_KIND.
Definition nostr_connected (t : NostrTransport) : bool := initialized t && negb (bool_decide (relays t = [])).
Definition nostr_disconnect (t : NostrTransport) : NostrTransport :=
  mkNostr (relays t) false (use_encrypted_dms t) (max_relay_retries t).

(** [extract_chain_ids_from_tags] *)
Definition tag_chain (t : list string) : option string :=
  match t with k :: v :: _ => if decide (k = "chain_id"%string) then Some v else None | _ => None end.
Definition extract_chain_ids_from_tags (tags : list (list string)) : list string := omap tag_chain tags.

Definition named_chain (b : bytes) : string :=
  match anchored_chain b with Some s => if decide (s = ""%string) then "unknown" else s | None => "unknown" end.
Definition extract_source_chain (p : ProofBundle) : string := named_chain (anchor_metadata (anchor_ref p)).
Definition extract_dest_chain (p : ProofBundle) : string :=
  match nodes (transition_dag p) with n :: _ => named_chain (bytecode n) | [] => "unknown" end.

(** [initialize]: a relay is connected when one of the attempts to add it succeeds. *)
Fixpoint add_relay (add : nat -> bool) (attempts done : nat) : bool :=
  match attempts with O => false | S n => if add done then true else add_relay add n (S done) end.
Definition initialize (add : string -> nat -> bool) (t : NostrTransport) : result TransportError NostrTransport :=
  let connected := length (filter (fun r => add_relay (add r) (max_relay_retries t) 0 = true) (relays t)) in
  reject (connected =? 0) with Nostr "Failed to connect to any relay" ;;
  Ok (mkNostr (relays t) true (use_encrypted_dms t) (max_relay_retries t)).

Definition too_large (what : string) (max size : nat) : TransportError :=
  Serialization (what +:+ " size exceeds maximum of " +:+ show_nat max +:+ " bytes (got " +:+ show_nat size +:+ " bytes)").

Section NostrCodec.
Variable hex_error : bytes -> string.
Variable consignment_cbor : Consignment -> result string bytes.
Variable consignment_of_cbor : bytes -> result string Consignment.

Definition unhex (content : string) : result TransportError bytes :=
  ok_or (Serialization (hex_error (as_bytes content))) (hex_decode (as_bytes content)).

(** [serialize_consignment], [deserialize_consignment], [deserialize_proof] *)
Definition serialize_consignment (c : Consignment) : result TransportError bytes :=
  map_err Serialization (consignment_cbor c).
Definition deserialize_consignment (b : bytes) : result TransportError Consignment :=
  map_err Serialization (consignment_of_cbor b).
Definition deserialize_proof (b : bytes) : result TransportError ProofBundle :=
  map_err Serialization (bundle_from_canonical_bytes b).

Definition proof_to_content (p : ProofBundle) : result TransportError string :=
  let b := bundle_to_canonical_bytes p in
  reject MAX_PROOF_SIZE <? length b with too_large "Proof" MAX_PROOF_SIZE (length b) ;;
  Ok (of_bytes (hex_encode b)).
Definition content_to_proof (content : string) : result TransportError ProofBundle :=
  b ← unhex content; deserialize_proof b.
Definition consignment_to_content (c : Consignment) : result TransportError string :=
  b ← serialize_consignment c;
  reject MAX_CONSIGNMENT_SIZE <? length b with too_large "Consignment" MAX_CONSIGNMENT_SIZE (length b) ;;
  Ok (of_bytes (hex_encode b)).
Definition content_to_consignment (content : string) : result TransportError Consignment :=
  b ← unhex content; deserialize_consignment b.

Variable sha256 : bytes -> Bytes32.
Variable invoice_cbor : Invoice -> result string bytes.

(** One turn of the task behind a subscription: what it delivers of an event. *)
Definition receive_proof (f : ProofFilter) (e : NostrEvent) : option DeliveredProof :=
  if negb (bool_decide (chain_ids f = [])) &&
     negb (existsb (pf_matches_chain f) (extract_chain_ids_from_tags (ev_tags e))) then None
  else if negb (bool_decide (pf_authors f = [])) && negb (bool_decide (ev_pubkey e ∈ pf_authors f)) then None
  else match deserialize_proof (as_bytes (ev_content e)) with
       | Ok p => Some (mkDelivered p (ev_id e) (ev_pubkey e) (ev_created_at e))
       | Err _ => None
       end.
Definition receive_consignment (f : ConsignmentFilter) (e : NostrEvent) : option DeliveredConsignment :=
  if negb (bool_decide (cf_authors f = [])) && negb (bool_decide (ev_pubkey e ∈ cf_authors f)) then None
  else match content_to_consignment (ev_content e) with
       | Ok c => match matches_consignment sha256 invoice_cbor f c with
                 | Ok true => Some (mkDelivered c (ev_id e) (ev_pubkey e) (ev_created_at e))
                 | _ => None
                 end
       | Err _ => None
       end.

(** The own key's text, the parsing of a tag, the signing of an event, and whether a relay
    takes the event at an attempt. *)
Variable my_key : string.
Variable tag_parse : list string -> result string (list string).
Variable to_event : N -> string -> list (list string) -> result string NostrEvent.
Variable send_event : NostrEvent -> nat -> result string unit.

(** The three attempts; the last error is kept. *)
Fixpoint send_loop (what : string) (e : NostrEvent) (attempts made : nat) (last : option string)
  : result TransportError EventId :=
  match attempts with
  | O => Err (Nostr (match last with
                     | Some m => "Failed to " +:+ what +:+ " after " +:+ show_nat made +:+ " retries: " +:+ m
                     | None => "Failed to " +:+ what +:+ ": no relay attempt completed"
                     end))
  | S n =>
      match send_event e made with
      | Ok _ => Ok (ev_id e)
      | Err m => send_loop what e n (S made) (Some m)
      end
  end.

Fixpoint parse_tags (l : list (list string)) : result string (list (list string)) :=
  match l with [] => Ok [] | t :: l' => t ← tag_parse t; l' ← parse_tags l'; Ok (t :: l') end.

Definition consignment_tags (c : Consignment) (invoice_id : bytes) : list (list string) :=
  [["type"; "consignment"]; ["dest_chain"; sd_chain (iv_seal (cn_invoice c))];
   ["sanad_id"; cn_sanad_id c]; ["invoice_id"; of_bytes (hex_encode invoice_id)]; ["pk"; my_key]]%string.
Definition deliver_consignment (t : NostrTransport) (c : Consignment) : result TransportError EventId :=
  reject negb (initialized t) with NotInitialized ;;
  content ← consignment_to_content c;
  id ← map_err Serialization (invoice_canonical_id sha256 invoice_cbor (cn_invoice c));
  tags ← map_err Serialization (parse_tags (consignment_tags c id));
  e ← map_err (fun m => Serialization ("Failed to sign consignment event: " +:+ m))
        (to_event CONSIGNMENT_EVENT_KIND content tags);
  send_loop "deliver consignment" e 3 0 None.

Definition proof_tags (p : ProofBundle) : list (list string) :=
  [["chain_id"; extract_source_chain p]; ["chain_id"; extract_dest_chain p];
   ["type"; "proof_bundle"]; ["pk"; my_key]]%string.
(** [broadcast_proof]; [None] is the panic on a tag that does not parse. *)
Definition broadcast_proof (t : NostrTransport) (p : ProofBundle) : option (result TransportError EventId) :=
  if negb (initialized t) then Some (Err NotInitialized)
  else match proof_to_content p with
       | Err e => Some (Err e)
       | Ok content =>
           match parse_tags (proof_tags p) with
           | Err _ => None
           | Ok tags =>
               Some (e ← map_err (fun m => Serialization ("Failed to sign event: " +:+ m))
                           (to_event PROOF_EVENT_KIND content tags);
                     send_loop "broadcast proof" e 3 0 None)
           end
       end.

(** [send_encrypted_proof] and [receive_encrypted_proof], as they are built: the feature
    [nip04] is none of the crate's.  [keys] reads a recipient's key. *)
Variable keys : string -> result string unit.
Definition send_encrypted_proof (t : NostrTransport) (p : ProofBundle) (recipient : string)
  : option (result TransportError EventId) :=
  if negb (initialized t) then Some (Err NotInitialized)
  else match proof_to_content p with
       | Err e => Some (Err e)
       | Ok _ => match keys recipient with
                 | Err m => Some (Err (Nostr ("Invalid recipient pubkey: " +:+ m)))
                 | Ok _ => broadcast_proof t p
                 end
       end.
Definition receive_encrypted_proof (e : NostrEvent) : result TransportError ProofBundle :=
  reject negb (ev_kind e =? ENCRYPTED_DM_KIND)%N with Nostr "Event is not an encrypted DM" ;;
  Err (Nostr "NIP-04 feature not enabled for decryption").
End NostrCodec.

(** ** IPFS *)

(** A response: whether its status is a success, and its body when it can be read. *)
Record Response := mkResponse { ok_status : bool; body : result string bytes }.
Record IpfsConfig := mkIpfsConfig { api_url : string; gateway_url : string; timeout_secs : N }.
Definition ipfs_default : IpfsConfig := mkIpfsConfig "http://127.0.0.1:5001/api/v0" "https://ipfs.io/ipfs" 30.
(** The HTTP client may not have been built. *)
Record IpfsTransport := mkIpfs { ipfs_config : IpfsConfig; ipfs_up : bool; has_client : bool }.
Definition ipfs_new (client : bool) (c : IpfsConfig) : IpfsTransport := mkIpfs c false client.

Section IpfsCalls.
(** What the network answers to a request, and the member [Hash] of a JSON body. *)
Variable get : string -> result string Response.
Variable post : string -> option bytes -> result string Response.
Variable json_hash : bytes -> result string (option string).
Variable consignment_cbor : Consignment -> result string bytes.

Definition connect (t : IpfsTransport) : result TransportError unit * IpfsTransport :=
  let up := has_client t &&
            match get (api_url (ipfs_config t) +:+ "/version") with Ok r => ok_status r | Err _ => false end in
  (if up then Ok tt else Err (Network ("Failed to connect to IPFS at " +:+ api_url (ipfs_config t))),
   mkIpfs (ipfs_config t) up (has_client t)).

(** [add_proof] and [add_consignment], after the envelope is serialized *)
Definition add_bytes (t : IpfsTransport) (b : bytes) : result TransportError string :=
  r ← map_err (fun m => Network ("IPFS add failed: " +:+ m)) (post (api_url (ipfs_config t) +:+ "/add") (Some b));
  reject negb (ok_status r) with PublishFailed ;;
  v ← map_err Serialization (body r);
  h ← map_err Serialization (json_hash v);
  ok_or (InvalidEvent "No CID in response") h.
Definition ready {A} (t : IpfsTransport) (k : result TransportError A) : result TransportError A :=
  reject negb (ipfs_up t) with NotInitialized ;;
  reject negb (has_client t) with NotInitialized ;;
  k.
Definition add_proof (t : IpfsTransport) (p : ProofBundle) : result TransportError string :=
  ready t (add_bytes t (bundle_to_canonical_bytes p)).
Definition add_consignment (t : IpfsTransport) (c : Consignment) : result TransportError string :=
  ready t (b ← serialize_consignment consignment_cbor c; add_bytes t b).
Definition pin_proof (t : IpfsTransport) (cid : string) : result TransportError unit :=
  ready t (r ← map_err (fun m => Network ("IPFS pin failed: " +:+ m))
                 (post (api_url (ipfs_config t) +:+ "/pin/add?arg=" +:+ cid) None);
           if ok_status r then Ok tt else Err PublishFailed).
Definition downloaded (r : Response) : result TransportError ProofBundle :=
  b ← map_err (fun m => Network ("Failed to download: " +:+ m)) (body r); deserialize_proof b.
Definition get_proof (t : IpfsTransport) (cid : string) : result TransportError ProofBundle :=
  ready t
    (let from_api :=
       r ← map_err (fun m => Network ("IPFS cat failed: " +:+ m)) (get (api_url (ipfs_config t) +:+ "/cat?arg=" +:+ cid));
       reject negb (ok_status r) with InvalidEvent ("Failed to retrieve CID " +:+ cid) ;;
       downloaded r in
     match get (gateway_url (ipfs_config t) +:+ "/" +:+ cid) with
     | Ok r => if ok_status r then downloaded r else from_api
     | Err _ => from_api
     end).
(** [broadcast_proof], [deliver_consignment] *)
Definition ipfs_broadcast_proof (t : IpfsTransport) (p : ProofBundle) : result TransportError EventId :=
  cid ← add_proof t p; _ ← pin_proof t cid; Ok cid.
Definition ipfs_deliver_consignment (t : IpfsTransport) (c : Consignment) : result TransportError EventId :=
  cid ← add_consignment t c; _ ← pin_proof t cid; Ok cid.
End IpfsCalls.

(** ** Lemmas: cache *)

(** The identifiers of a history, each where it first arrives. *)
Definition arrive (l : list EventId) (id : EventId) : list EventId := if decide (id ∈ l) then l else l ++ [id].
Definition arrivals (ids : list EventId) : list EventId := fold_left arrive ids [].
Definition after (listing : gset string -> list string) (ids : list EventId) (c : ProofCache) : ProofCache :=
  fold_left (fun c id => snd (process_incoming listing id c)) ids c.

Lemma arrivals_snoc ids id : arrivals (ids ++ [id]) = arrive (arrivals ids) id.
Proof. unfold arrivals. by rewrite fold_left_app. Qed.

Lemma arrivals_nodup ids : NoDup (arrivals ids).
Proof.
  induction ids as [|id ids IH] using rev_ind; [constructor|]. rewrite arrivals_snoc. unfold arrive.
  case_decide; [done|]. apply NoDup_app. split; [done|]. split; [|apply NoDup_singleton]. set_solver.
Qed.

Lemma after_seen listing n ids :
  after listing ids (mkCache ∅ n) = mkCache (list_to_set (take n (arrivals ids))) n.
Proof.
  induction ids as [|id ids IH] using rev_ind.
  - unfold arrivals. cbn. by rewrite take_nil.
  - unfold after. rewrite fold_left_app. cbn [fold_left]. fold (after listing ids (mkCache ∅ n)). rewrite IH.
    rewrite arrivals_snoc. set (l := arrivals ids). pose proof (arrivals_nodup ids) as Hd. fold l in Hd.
    assert (Hs : size (list_to_set (take n l) : gset string) = Nat.min n (length l)).
    { rewrite size_list_to_set, length_take; [done|]. by apply (sublist_NoDup _ l), sublist_take. }
    unfold process_incoming, is_duplicate, ensure_capacity. cbn [max_size seen_event_ids].
    rewrite (proj2 (Nat.ltb_ge _ _)) by lia. cbn [max_size seen_event_ids].
    case_bool_decide as Hin; rewrite elem_of_list_to_set in Hin; cbn [snd].
    + unfold arrive. rewrite decide_True; [done|].
      apply elem_of_take in Hin as (i & Hi & _). by eapply list_elem_of_lookup_2.
    + unfold cache_record. cbn [seen_event_ids max_size]. rewrite Hs.
      destruct (Nat.ltb_spec (Nat.min n (length l)) n) as [Hlt|Hge].
      * rewrite take_ge in Hin |- * by lia. unfold arrive. rewrite decide_False by done.
        rewrite take_ge by (rewrite length_app; simpl; lia). f_equal. set_solver.
      * f_equal. f_equal. unfold arrive. case_decide; [done|]. by rewrite take_app_le by lia.
Qed.

(** ** Lemmas: routers *)

Section RouterFacts.
Context {T P : Type} (is_connected : list Call -> T -> bool)
  (send : list Call -> T -> P -> result TransportError EventId).
Implicit Types (log : list Call) (l : list (string * T)).

Definition delivered (c : Call) : bool := match c with Sent _ (Ok _) => true | _ => false end.
Definition asked (c : Call) : option string := match c with Asked n _ => Some n | Sent _ _ => None end.
Definition answer_ok (c : Call) : option EventId := match c with Sent _ (Ok id) => Some id | _ => None end.
Definition answer_err (c : Call) : option TransportError := match c with Sent _ (Err e) => Some e | _ => None end.

(** What one attempt adds to the calls. *)
Lemma attempt_spec p log t :
  exists new, snd (attempt is_connected send p log t) = log ++ new /\ omap asked new = [fst t] /\
    match fst (attempt is_connected send p log t) with
    | None => new = [Asked (fst t) false]
    | Some r => new = [Asked (fst t) true; Sent (fst t) r]
    end.
Proof.
  unfold attempt. destruct (is_connected log (snd t)); cbn [fst snd].
  - eexists. split; [by rewrite <- app_assoc|]. done.
  - eexists. done.
Qed.

(** How an envelope was routed among the transports of these names. *)
Definition routed (names : list string) (new : list Call) (res : result TransportError EventId) : Prop :=
  match res with
  | Ok id => exists name before, new = before ++ [Sent name (Ok id)] /\ name ∈ names /\ existsb delivered before = false
  | Err e => e = NoRelays /\ existsb delivered new = false /\ forall name, name ∈ names -> name ∈ omap asked new
  end.

(** After calls that delivered nothing. *)
Lemma routed_after names names' a new res :
  existsb delivered a = false -> (forall n, n ∈ names -> n ∈ names') ->
  (forall n, n ∈ names' -> n ∈ omap asked a \/ n ∈ names) ->
  routed names new res -> routed names' (a ++ new) res.
Proof.
  intros Ha Hs Hn. unfold routed. destruct res as [id|e].
  - intros (name & before & -> & Hi & Hd). exists name, (a ++ before).
    rewrite app_assoc, existsb_app, Ha, Hd. by auto.
  - intros (-> & Hd & H). rewrite existsb_app, Ha, Hd. split; [done|]. split; [done|].
    intros n [Hx|Hx]%Hn; rewrite omap_app, elem_of_app; auto.
Qed.

(** An attempt that takes the envelope ends the routing; another leaves it to what follows. *)
Lemma attempt_then p log t names names' k :
  (forall n, n ∈ names -> n ∈ names') -> (forall n, n ∈ names' -> n = fst t \/ n ∈ names) -> fst t ∈ names' ->
  (forall log', exists new, snd (k log') = log' ++ new /\ routed names new (fst (k log'))) ->
  let x := match attempt is_connected send p log t with (Some (Ok id), log) => (Ok id, log) | (_, log) => k log end in
  exists new, snd x = log ++ new /\ routed names' new (fst x).
Proof.
  intros Hs Hn Ht Hk. destruct (attempt_spec p log t) as (a & Ha & Hask & Hr).
  assert (Hlater : existsb delivered a = false ->
    exists new, snd (k (log ++ a)) = log ++ new /\ routed names' new (fst (k (log ++ a)))).
  { intros Hd. destruct (Hk (log ++ a)) as (new & -> & H). exists (a ++ new). rewrite app_assoc. split; [done|].
    apply (routed_after names); [done|done| |done]. intros n [-> |]%Hn; [left|by right].
    rewrite Hask. apply list_elem_of_singleton. done. }
  destruct (attempt is_connected send p log t) as [[[id|e]|] l]; cbn [fst snd] in *; subst l a; cbn [fst snd].
  - eexists. split; [done|]. by exists (fst t), [Asked (fst t) true].
  - by apply Hlater.
  - by apply Hlater.
Qed.

Lemma try_all_routed p l log :
  exists new, snd (try_all is_connected send p l log) = log ++ new /\
              routed (map fst l) new (fst (try_all is_connected send p l log)).
Proof.
  revert log. induction l as [|t l IH]; intros log; cbn [try_all].
  - exists []. rewrite app_nil_r. split; [done|]. split; [done|]. split; [done|]. by intros n ?%not_elem_of_nil.
  - apply (attempt_then p log t (map fst l)); [| | |apply IH]; cbn; set_solver.
Qed.

Lemma send_all_spec p l log :
  exists new, snd (send_all is_connected send p l log) = log ++ new /\
    fst (send_all is_connected send p l log) = (omap answer_ok new, omap answer_err new) /\
    omap asked new = map fst l.
Proof.
  revert log. induction l as [|t l IH]; intros log; cbn [send_all].
  - exists []. by rewrite app_nil_r.
  - destruct (attempt_spec p log t) as (new & Hn & Ha & Hr).
    destruct (attempt is_connected send p log t) as [r log1]; cbn [fst snd] in *. subst log1.
    destruct (IH (log ++ new)) as (new' & Hn' & Hf & Ha').
    exists (new ++ new'). destruct (send_all _ _ _ _ _) as [[ok bad] log2]. cbn [fst snd] in *.
    rewrite Hn', <- app_assoc. split; [done|]. injection Hf as -> ->.
    rewrite !omap_app, Ha, Ha'. split; [|done]. destruct r as [[id|e]|]; by subst new.
Qed.
End RouterFacts.

(** ** Lemmas: contents *)

Lemma hex_digit_big n : (n < 16)%N -> (48 <= Byte.to_N (hex_digit n))%N.
Proof.
  intros Hn. unfold hex_digit. destruct (n <? 10)%N eqn:E; [apply N.ltb_lt in E|apply N.ltb_ge in E];
    rewrite to_N_byte_of, N.mod_small by lia; lia.
Qed.

Lemma hex_encode_big b : Forall (fun c => (48 <= Byte.to_N c)%N) (hex_encode b).
Proof.
  induction b as [|x b IH]; [constructor|]. rewrite hex_encode_cons. pose proof (Byte.to_N_bounded x).
  constructor; [|constructor; [|done]]; apply hex_digit_big; [|by apply N.mod_lt].
  apply N.Div0.div_lt_upper_bound; lia.
Qed.

(** Four such bytes are a length no content has. *)
Lemma read_sized_hex (e1 e2 : string) l :
  Forall (fun c => (48 <= Byte.to_N c)%N) l -> length l <= 2 * MAX_PROOF_SIZE ->
  is_ok (read_sized e1 e2 l) = false.
Proof.
  intros Hl Hn. destruct l as [|a [|b [|c [|d l]]]]; try done.
  repeat (apply Forall_cons in Hl as [? Hl]). unfold read_sized, read_u32_le.
  assert (E : take_n 4 e1 (a :: b :: c :: d :: l) = Ok ([a; b; c; d], l)) by done. rewrite E. clear E.
  cbn [mbind result_bind]. set (n := of_le_bytes [a; b; c; d]).
  assert (2 * MAX_PROOF_SIZE < N.to_nat n).
  { assert (200000 < n)%N by (unfold n; cbn [of_le_bytes]; lia). unfold MAX_PROOF_SIZE. lia. }
  unfold take_n. case_decide as Hd; [|done]. cbn [length] in Hn. lia.
Qed.

Lemma hex_not_a_bundle b : length b <= MAX_PROOF_SIZE -> is_ok (bundle_from_canonical_bytes (hex_encode b)) = false.
Proof.
  intros Hb. pose proof (hex_encode_big b) as Hf. pose proof (length_hex_encode b) as Hl.
  set (h := hex_encode b) in *. unfold bundle_from_canonical_bytes, bundle_from_at, bundle_read_head, read_u32_le.
  destruct (take_n 4 _ h) as [[x r]|e] eqn:E; [|done]. cbn [mbind result_bind].
  apply take_n_ok in E as [-> Hx]. apply Forall_app in Hf as [_ Hf]. rewrite length_app in Hl.
  pose proof (read_sized_hex "Insufficient bytes for DAG length" "Insufficient bytes for DAG data" r Hf
                (ltac:(lia) : length r <= 2 * MAX_PROOF_SIZE)) as Hr.
  by destruct (read_sized _ _ r).
Qed.

Lemma unhex_encode hex_error b : unhex hex_error (of_bytes (hex_encode b)) = Ok b.
Proof. unfold unhex. by rewrite as_bytes_of_bytes, hex_decode_encode. Qed.

Lemma parse_tags_ok tag_parse l l' :
  parse_tags tag_parse l = Ok l' -> Forall2 (fun t t' => tag_parse t = Ok t') l l'.
Proof.
  revert l'. induction l as [|t l IH]; intros l'; cbn [parse_tags]; [by intros [= <-]|].
  intros (t' & Ht & H)%bind_ok. apply bind_ok in H as (k & Hk & [= <-]). constructor; [done|by apply IH].
Qed.

Lemma send_loop_ok send_event what e n made last id :
  send_loop send_event what e n made last = Ok id ->
  id = ev_id e /\ exists k, made <= k < made + n /\ is_ok (send_event e k) = true.
Proof.
  revert made last. induction n as [|n IH]; intros made last; cbn [send_loop]; [done|].
  destruct (send_event e made) as [u|m] eqn:E.
  - intros [= <-]. split; [done|]. exists made. rewrite E. split; [lia|done].
  - intros H. apply IH in H as [-> (k & Hk & Hs)]. split; [done|]. exists k. split; [lia|done].
Qed.

(** ** What is left out *)

(** Once the cache is full, a further event is new every time it comes. *)
Lemma full_cache_forgets :
  map (fun c => fst (process_incoming elements "c"%string c))
    [mkCache {["a"%string; "b"%string]} 2; after elements ["c"%string; "c"%string] (mkCache {["a"%string; "b"%string]} 2)]
  = [true; true].
Proof. by vm_compute. Qed.

(** A preferred transport that failed is sent the same proof again by the fallback. *)
Lemma preferred_sent_twice :
  let send (log : list Call) (t p : unit) : result TransportError EventId := Err Timeout in
  snd (broadcast (fun _ _ => true) send map_to_list
         (set_preferred "nostr" (register "nostr" tt router_new)) tt [])
  = [Asked "nostr" true; Sent "nostr" (Err Timeout); Asked "nostr" true; Sent "nostr" (Err Timeout)].
Proof. by vm_compute. Qed.

(** What is asked to be sent encrypted is broadcast. *)
Lemma encrypted_sent_openly my_key tag_parse to_event send_event keys t p recipient r :
  send_encrypted_proof my_key tag_parse to_event send_event keys t p recipient = Some (Ok r) ->
  broadcast_proof my_key tag_parse to_event send_event t p = Some (Ok r).
Proof. unfold send_encrypted_proof. repeat case_match; done. Qed.

(** The confirmations a filter asks for are not asked for. *)
Lemma confirmations_ignored f n e p :
  receive_proof (mkProofFilter (chain_ids f) (pf_authors f) n) e = receive_proof f e /\
  matches_proof (mkProofFilter (chain_ids f) (pf_authors f) n) p = matches_proof f p.
Proof. done. Qed.

(** ** Theorems *)

(** duplicates.  After any incoming events, however the set is listed, an event is taken
    as new exactly when it is none of the first ten thousand distinct ones; no more are held,
    and the cleaning of the cache never happens. *)
Theorem incoming_exact (listing : gset string -> list string) (ids : list EventId) (id : EventId) :
  let c := after listing ids cache_new in
  (fst (process_incoming listing id c) = true <-> id ∉ take MAX_CACHED_PROOFS (arrivals ids)) /\
  cache_len c <= MAX_CACHED_PROOFS /\ ensure_capacity listing c = c.
Proof.
  unfold cache_new. rewrite after_seen. cbn zeta.
  assert (Hs : cache_len (mkCache (list_to_set (take MAX_CACHED_PROOFS (arrivals ids))) MAX_CACHED_PROOFS)
               <= MAX_CACHED_PROOFS).
  { unfold cache_len. cbn [seen_event_ids]. rewrite size_list_to_set, length_take; [lia|].
    apply (sublist_NoDup _ (arrivals ids)), sublist_take. apply arrivals_nodup. }
  assert (He : ensure_capacity listing (mkCache (list_to_set (take MAX_CACHED_PROOFS (arrivals ids))) MAX_CACHED_PROOFS)
               = mkCache (list_to_set (take MAX_CACHED_PROOFS (arrivals ids))) MAX_CACHED_PROOFS).
  { unfold ensure_capacity. unfold cache_len in Hs. cbn [seen_event_ids max_size] in *.
    by rewrite (proj2 (Nat.ltb_ge _ _)) by lia. }
  split; [|by split]. unfold process_incoming, is_duplicate. rewrite He. cbn [seen_event_ids].
  case_bool_decide as Hin; rewrite elem_of_list_to_set in Hin; cbn [fst]; split; done.
Qed.

(** routing of one envelope.  Whatever the transports answer and in whatever order they
    are listed, an envelope is reported as sent exactly when a registered transport took it,
    and nothing is sent after that; it is reported as not sent only when no transport took it
    and each was asked. *)
Theorem broadcast_exact {T P : Type} (is_connected : list Call -> T -> bool)
    (send : list Call -> T -> P -> result TransportError EventId)
    (order : gmap string T -> list (string * T)) (Horder : forall m, Permutation (order m) (map_to_list m))
    (r : Router T) (p : P) (log : list Call) :
  exists new, snd (broadcast is_connected send order r p log) = log ++ new /\
  match fst (broadcast is_connected send order r p log) with
  | Ok id => exists name before, new = before ++ [Sent name (Ok id)] /\ name ∈ dom (transports r) /\
                                 existsb delivered before = false
  | Err e => e = NoRelays /\ existsb delivered new = false /\
             forall name, name ∈ dom (transports r) -> name ∈ omap asked new
  end.
Proof.
  assert (Hin : forall name, name ∈ map fst (order (transports r)) <-> name ∈ dom (transports r)).
  { intros name. rewrite (Permutation_map fst (Horder (transports r))), elem_of_dom, list_elem_of_fmap.
    split.
    - intros ([n t] & -> & H). apply elem_of_map_to_list in H. by exists t.
    - intros [t Ht]. exists (name, t). split; [done|]. by apply elem_of_map_to_list. }
  assert (H : exists new, snd (broadcast is_connected send order r p log) = log ++ new /\
    routed (map fst (order (transports r))) new (fst (broadcast is_connected send order r p log))).
  { unfold broadcast. destruct (preferred_transport r) as [n|]; [|apply try_all_routed].
    destruct (transports r !! n) as [t|] eqn:Ht; [|apply try_all_routed].
    assert (n ∈ map fst (order (transports r))) by (apply Hin, elem_of_dom; by exists t).
    apply (attempt_then _ _ p log (n, t) (map fst (order (transports r)))); [done|by auto|done|].
    intros log'. apply try_all_routed. }
  destruct H as (new & Hn & H). exists new. split; [done|]. unfold routed in H.
  destruct (fst (broadcast is_connected send order r p log)) as [id|e].
  - destruct H as (name & before & -> & Hi%Hin & Hd). by exists name, before.
  - destruct H as (-> & Hd & H). split; [done|]. split; [done|]. intros name Hi. by apply H, Hin.
Qed.

(** sending to all.  Every registered transport is asked exactly once, in the order listed;
    the successes reported are exactly the identifiers answered and the errors exactly the
    errors, in that order. *)
Theorem broadcast_all_exact {T P : Type} (is_connected : list Call -> T -> bool)
    (send : list Call -> T -> P -> result TransportError EventId)
    (order : gmap string T -> list (string * T)) (r : Router T) (p : P) (log : list Call) :
  exists new, snd (broadcast_all is_connected send order r p log) = log ++ new /\
    omap asked new = map fst (order (transports r)) /\
    fst (broadcast_all is_connected send order r p log) = (omap answer_ok new, omap answer_err new).
Proof.
  destruct (send_all_spec is_connected send p (order (transports r)) log) as (new & Hn & Hf & Ha).
  by exists new.
Qed.

(** Registrations and choices, in any order. *)
Inductive router_op (T : Type) := Register (name : string) (t : T) | SetPreferred (name : string).
Arguments Register {T}.
Arguments SetPreferred {T}.
Definition router_step {T} (r : Router T) (o : router_op T) : Router T :=
  match o with Register n t => register n t r | SetPreferred n => set_preferred n r end.

(** the preferred transport.  Through any registrations and choices, it is one of those
    registered, and there is one as soon as any is registered. *)
Theorem preferred_is_registered {T : Type} (ops : list (router_op T)) :
  let r := fold_left router_step ops router_new in
  match preferred_transport r with
  | Some name => is_Some (transports r !! name)
  | None => transports r = ∅
  end.
Proof.
  cbn zeta. induction ops as [|o ops IH] using rev_ind; [done|].
  rewrite fold_left_app. cbn [fold_left]. set (r := fold_left router_step ops router_new) in *.
  destruct o as [n t|n]; cbn [router_step].
  - unfold register. cbn [preferred_transport transports]. destruct (preferred_transport r) as [m|].
    + destruct (decide (n = m)) as [->|]; [by rewrite lookup_insert_eq|by rewrite lookup_insert_ne].
    + by rewrite lookup_insert_eq.
  - unfold set_preferred. destruct (transports r !! n) eqn:E; [|done]. cbn. by rewrite E.
Qed.

(** proofs over Nostr.  A bundle that fits is written as a content that reads back as it;
    but the subscription parses the content without decoding its hexadecimal digits: no event
    with such a content is ever delivered, whatever the filter. *)
Theorem proofs_never_received (hex_error : bytes -> string) (f : ProofFilter) (e : NostrEvent) (p : ProofBundle)
    (Hp : bundle_ok p) (Hs : signature_scheme p <> MlDsa65) (H : proof_to_content p = Ok (ev_content e)) :
  content_to_proof hex_error (ev_content e) = Ok p /\ receive_proof f e = None.
Proof.
  unfold proof_to_content in H. apply guard_err_ok in H as [Hlen%Nat.ltb_ge H].
  assert (Hc : of_bytes (hex_encode (bundle_to_canonical_bytes p)) = ev_content e) by congruence.
  rewrite <- Hc. split.
  - unfold content_to_proof. rewrite unhex_encode. cbn [mbind result_bind]. unfold deserialize_proof.
    pose proof (bundle_codec_64 p [] Hp) as Hb. rewrite app_nil_r in Hb. rewrite Hb.
    by destruct (signature_scheme p).
  - unfold receive_proof, deserialize_proof. rewrite <- Hc, as_bytes_of_bytes.
    pose proof (hex_not_a_bundle _ Hlen) as Hb. destruct (bundle_from_canonical_bytes _); [done|]. cbn [map_err].
    by repeat case_match.
Qed.

(** consignments over Nostr.  A consignment reported as delivered was taken by a relay
    within three attempts, as an event of its kind; and whoever is subscribed with a filter
    for it and its author gets that very consignment from the event. *)
Theorem consignment_received (hex_error : bytes -> string)
    (consignment_cbor : Consignment -> result string bytes) (consignment_of_cbor : bytes -> result string Consignment)
    (sha256 : bytes -> Bytes32) (invoice_cbor : Invoice -> result string bytes) (my_key : string)
    (tag_parse : list string -> result string (list string))
    (to_event : N -> string -> list (list string) -> result string NostrEvent)
    (send_event : NostrEvent -> nat -> result string unit)
    (Hcbor : forall c b, consignment_cbor c = Ok b -> consignment_of_cbor b = Ok c)
    (Hevent : forall k content tags e, to_event k content tags = Ok e -> ev_kind e = k /\ ev_content e = content)
    (t : NostrTransport) (c : Consignment) (f : ConsignmentFilter) (id : EventId)
    (H : deliver_consignment consignment_cbor sha256 invoice_cbor my_key tag_parse to_event send_event t c = Ok id) :
  exists e, ev_id e = id /\ ev_kind e = CONSIGNMENT_EVENT_KIND /\
    (exists k, k < 3 /\ is_ok (send_event e k) = true) /\
    (matches_any (cf_authors f) (ev_pubkey e) = true ->
     matches_consignment sha256 invoice_cbor f c = Ok true ->
     receive_consignment hex_error consignment_of_cbor sha256 invoice_cbor f e
     = Some (mkDelivered c id (ev_pubkey e) (ev_created_at e))).
Proof.
  unfold deliver_consignment in H. apply guard_err_ok in H as [_ H].
  apply bind_ok in H as (content & Hc & H). apply bind_ok in H as (i & _ & H).
  apply bind_ok in H as (tags & _ & H). apply bind_ok in H as (e & He%map_err_ok & H).
  apply Hevent in He as [Hk Hcontent]. apply send_loop_ok in H as [-> (k & Hk3 & Hsent)].
  unfold consignment_to_content in Hc. apply bind_ok in Hc as (b & Hb%map_err_ok & Hc).
  apply guard_err_ok in Hc as [_ [= <-]].
  exists e. split; [done|]. split; [done|]. split; [exists k; split; [lia|done]|].
  intros Ha Hm. unfold receive_consignment. unfold matches_any in Ha.
  replace (negb _ && negb _) with false by (by destruct (bool_decide (cf_authors f = [])), (bool_decide _)).
  rewrite Hcontent. unfold content_to_consignment. rewrite unhex_encode. cbn [mbind result_bind].
  unfold deserialize_consignment. rewrite (Hcbor c b Hb). cbn [map_err]. by rewrite Hm.
Qed.

(** what is fetched from IPFS.  A bundle is fetched exactly when the transport is ready
    and the gateway answers with success and its encoding, or does not answer with success and
    the node does: a gateway that answers with success is not doubted. *)
Theorem ipfs_get_exact (get : string -> result string Response) (t : IpfsTransport) (cid : string) (p : ProofBundle) :
  let served (url : string) := exists r b, get url = Ok r /\ ok_status r = true /\ body r = Ok b /\
                                           bundle_from_canonical_bytes b = Ok p in
  let gateway := gateway_url (ipfs_config t) +:+ "/" +:+ cid in
  get_proof get t cid = Ok p <->
  ipfs_up t = true /\ has_client t = true /\
  (served gateway \/
   (match get gateway with Ok r => ok_status r = false | Err _ => True end) /\
   served (api_url (ipfs_config t) +:+ "/cat?arg=" +:+ cid)).
Proof.
  intros served gateway.
  assert (Hd : forall r, downloaded r = Ok p <-> exists b, body r = Ok b /\ bundle_from_canonical_bytes b = Ok p).
  { intros r. unfold downloaded, deserialize_proof. rewrite bind_ok. setoid_rewrite map_err_ok. done. }
  assert (Ha : (r ← map_err (fun m => Network ("IPFS cat failed: " +:+ m))
                      (get (api_url (ipfs_config t) +:+ "/cat?arg=" +:+ cid));
                reject negb (ok_status r) with InvalidEvent ("Failed to retrieve CID " +:+ cid) ;; downloaded r) = Ok p
               <-> served (api_url (ipfs_config t) +:+ "/cat?arg=" +:+ cid)).
  { unfold served. rewrite bind_ok. setoid_rewrite map_err_ok. setoid_rewrite guard_err_ok.
    setoid_rewrite Hd. setoid_rewrite negb_false_iff. naive_solver. }
  unfold get_proof, ready. rewrite !guard_err_ok, !negb_false_iff. fold gateway.
  assert (Hs : served gateway <-> match get gateway with
                                  | Ok r => ok_status r = true /\ downloaded r = Ok p | Err _ => False end).
  { unfold served. destruct (get gateway) as [r|]; [rewrite Hd; naive_solver|naive_solver]. }
  rewrite Hs. destruct (get gateway) as [r|e]; [destruct (ok_status r)|]; rewrite ?Ha; naive_solver.
Qed.

(** ** Witnesses *)

Definition demo_router : Router bool :=
  set_preferred "down" (register "down" false (register "up" true router_new)).
Definition demo_send (log : list Call) (t : bool) (p : nat) : result TransportError EventId :=
  if t then Ok "event"%string else Err Timeout.

Lemma broadcast_exact_witness :
  exists new, snd (broadcast (fun _ t => t) demo_send map_to_list demo_router 7 []) = [] ++ new /\
    exists name before, new = before ++ [Sent name (Ok "event"%string)] /\
      name ∈ dom (transports demo_router) /\ existsb delivered before = false.
Proof.
  exact (broadcast_exact (fun _ t => t) demo_send map_to_list (fun m => Permutation_refl _) demo_router 7 []).
Defined.

Definition demo_event : NostrEvent :=
  mkEvent "id" "key" PROOF_EVENT_KIND []
    (of_bytes (hex_encode (bundle_to_canonical_bytes (demo_bundle Ed25519)))) 7.

Lemma proofs_never_received_witness :
  content_to_proof (fun _ => ""%string) (ev_content demo_event) = Ok (demo_bundle Ed25519) /\
  receive_proof all_csv_proofs demo_event = None.
Proof.
  apply (proofs_never_received (fun _ => ""%string) all_csv_proofs demo_event (demo_bundle Ed25519)).
  - apply demo_bundle_ok.
  - discriminate.
  - by vm_compute.
Defined.

Global Instance DAGSegment_eq_dec : EqDecision DAGSegment.
Proof. solve_decision. Defined.
Global Instance InclusionProof_eq_dec : EqDecision InclusionProof.
Proof. solve_decision. Defined.
Global Instance FinalityProof_eq_dec : EqDecision FinalityProof.
Proof. solve_decision. Defined.
Global Instance ProofBundle_eq_dec : EqDecision ProofBundle.
Proof. solve_decision. Defined.
Global Instance Consignment_eq_dec : EqDecision Consignment.
Proof. solve_decision. Defined.
Definition demo_consignment : Consignment := Consignment_new Consignment.demo_invoice "55" (demo_bundle Ed25519).
Definition demo_nostr : NostrTransport := mkNostr ["relay"%string] true false 3.
Definition demo_to_event (k : N) (content : string) (tags : list (list string)) : result string NostrEvent :=
  Ok (mkEvent "id" "key" k tags content 7).

Lemma consignment_received_witness :
  exists e, ev_id e = "id"%string /\ ev_kind e = CONSIGNMENT_EVENT_KIND /\
    (exists k, k < 3 /\ is_ok (if k =? 1 then Ok tt else Err "busy"%string) = true).
Proof.
  destruct (consignment_received (fun _ => ""%string)
              (fun c => if decide (c = demo_consignment) then Ok [Byte.x01] else Err ""%string)
              (fun _ => Ok demo_consignment) toy_hash (fun _ => Ok []) "key" (fun t => Ok t) demo_to_event
              (fun _ k => if k =? 1 then Ok tt else Err "busy"%string)) with
    (t := demo_nostr) (c := demo_consignment) (f := all_csv_consignments) (id := "id"%string) as (e & Hi & Hk & Hs & _).
  - intros c b. by case_decide as Hc; [rewrite Hc|].
  - by intros k content tags e [= <-].
  - by vm_compute.
  - exists e. split; [exact Hi|]. split; [exact Hk|exact Hs].
Defined.
