(* ===== verification/ProofDag.v ===== *)
(** * Graphs of proofs (csv-proof/src/proof_dags.rs, proof_composition.rs)

    Proofs that depend on proofs, in a map under an identifier of their contents: insertion,
    the search for cycles, the topological order, the depth, and the composition of bundles.
    The order in which the map lists its entries is a parameter.  The searches recurse over
    the map, so they have fuel: [None] is a recursion deeper than the fuel. *)

From Stdlib Require Import Relations.
From S2P Require Import Prelude Bytes Hashing Dag Seal ProofTaxonomy.

(** ** Nodes *)

Definition ProofId := Hash.
Definition ProofId_from_bytes (sha256 : bytes -> Bytes32) (b : bytes) : ProofId := sha256 b.

Record ProofNodeMetadata := mkMetadata { created_at : N; expires_at : N; source : string; extra : gmap string string }.
Definition metadata_default : ProofNodeMetadata := mkMetadata 0 0 "" ∅.

Record ProofNode := mkProofNode { node_id : ProofId; node_proof : Proof; dependencies : list ProofId; metadata : ProofNodeMetadata }.
Definition node_new (sha256 : bytes -> Bytes32) (p : Proof) (deps : list ProofId) : ProofNode :=
  mkProofNode (ProofId_from_bytes sha256 (b32 (proof_hash sha256 p))) p deps metadata_default.
Definition node_root (sha256 : bytes -> Bytes32) (p : Proof) : ProofNode := node_new sha256 p [].
Definition with_metadata (f : ProofNodeMetadata -> ProofNodeMetadata) (n : ProofNode) : ProofNode :=
  mkProofNode (node_id n) (node_proof n) (dependencies n) (f (metadata n)).
Definition with_created_at (t : N) : ProofNode -> ProofNode :=
  with_metadata (fun m => mkMetadata t (expires_at m) (source m) (extra m)).
Definition with_expires_at (t : N) : ProofNode -> ProofNode :=
  with_metadata (fun m => mkMetadata (created_at m) t (source m) (extra m)).
Definition with_source (s : string) : ProofNode -> ProofNode :=
  with_metadata (fun m => mkMetadata (created_at m) (expires_at m) s (extra m)).
(** [is_expired] compares with the time of creation. *)
Definition is_expired (n : ProofNode) : bool :=
  (0 <? expires_at (metadata n))%N && (expires_at (metadata n) <? created_at (metadata n))%N.

(** ** The graph *)

Notation ProofDag := (gmap ProofId ProofNode).
Definition dag_new : ProofDag := ∅.

Definition add_node (n : ProofNode) (d : ProofDag) : bool * ProofDag :=
  if forallb (fun dep => bool_decide (is_Some (d !! dep))) (dependencies n)
  then (true, <[node_id n := n]> d) else (false, d).
Definition get_node (id : ProofId) (d : ProofDag) : option ProofNode := d !! id.
Definition proof_count (d : ProofDag) : nat := size d.

Section Listed.
(** The entries of the map as they are listed. *)
Variable listing : ProofDag -> list (ProofId * ProofNode).
Definition keys (d : ProofDag) : list ProofId := map fst (listing d).
Definition values (d : ProofDag) : list ProofNode := map snd (listing d).

Definition roots (d : ProofDag) : list ProofNode := filter (fun n => dependencies n = []) (values d).
Definition leaves (d : ProofDag) : list ProofNode :=
  filter (fun n => node_id n ∉ flat_map dependencies (values d)) (values d).

(** What a search has visited, and what it is in the middle of. *)
Definition Search := (gset ProofId * gset ProofId)%type.

(** The loop over the dependencies of one node, and [has_cycle]. *)
Fixpoint visit_all (visit : ProofId -> Search -> option (bool * Search)) (deps : list ProofId) (s : Search)
  : option (bool * Search) :=
  match deps with
  | [] => Some (false, s)
  | dep :: deps' =>
      if decide (dep ∈ fst s)
      then if decide (dep ∈ snd s) then Some (true, s) else visit_all visit deps' s
      else match visit dep s with
           | Some (true, s) => Some (true, s)
           | Some (false, s) => visit_all visit deps' s
           | None => None
           end
  end.
Fixpoint has_cycle (fuel : nat) (d : ProofDag) (id : ProofId) (s : Search) : option (bool * Search) :=
  match fuel with
  | O => None
  | S fuel =>
      let s := ({[id]} ∪ fst s, {[id]} ∪ snd s) in
      match match d !! id with
            | Some n => visit_all (has_cycle fuel d) (dependencies n) s
            | None => Some (false, s)
            end with
      | Some (true, s) => Some (true, s)
      | Some (false, s) => Some (false, (fst s, snd s ∖ {[id]}))
      | None => None
      end
  end.
Fixpoint search_all (fuel : nat) (d : ProofDag) (ids : list ProofId) (s : Search) : option bool :=
  match ids with
  | [] => Some true
  | id :: ids' =>
      if decide (id ∈ fst s) then search_all fuel d ids' s
      else match has_cycle fuel d id s with
           | Some (true, _) => Some false
           | Some (false, s) => search_all fuel d ids' s
           | None => None
           end
  end.
(** Each turn of the recursion visits an identifier of the graph for the first time. *)
Definition mentioned (d : ProofDag) : gset ProofId :=
  dom d ∪ list_to_set (flat_map (fun p => dependencies (snd p)) (map_to_list d)).
Definition search_fuel (d : ProofDag) : nat := size (mentioned d).
Definition verify_acyclic (d : ProofDag) : option bool := search_all (search_fuel d) d (keys d) (∅, ∅).

Definition verify_structure (d : ProofDag) : option bool :=
  acyclic ← verify_acyclic d;
  Some (acyclic && forallb (fun n => forallb (fun dep => bool_decide (is_Some (d !! dep))) (dependencies n)) (values d)).

(** The loop over all nodes when [q] is taken: who depends on it waits for one less.  [None] is
    the overflow of a subtraction. *)
Fixpoint relax (q : ProofId) (ns : list ProofNode) (deg : gmap ProofId nat) (queue : list ProofId)
  : option (gmap ProofId nat * list ProofId) :=
  match ns with
  | [] => Some (deg, queue)
  | n :: ns' =>
      if decide (q ∈ dependencies n) then
        match deg !! node_id n with
        | Some (S k) => relax q ns' (<[node_id n := k]> deg) (if decide (k = 0) then node_id n :: queue else queue)
        | Some O => None
        | None => relax q ns' deg queue
        end
      else relax q ns' deg queue
  end.
(** [topological_sort]: the queue is taken from its end, which is the head here.  The outer
    [None] is an overflow or a lack of fuel, the inner one the method's. *)
Fixpoint sort_loop (fuel : nat) (d : ProofDag) (deg : gmap ProofId nat) (queue result : list ProofId)
  : option (list ProofId) :=
  match fuel with
  | O => None
  | S fuel =>
      match queue with
      | [] => Some result
      | q :: queue =>
          match relax q (values d) deg queue with
          | Some (deg, queue) => sort_loop fuel d deg queue (result ++ [q])
          | None => None
          end
      end
  end.
(** How the degrees are listed. *)
Variable degrees_listing : gmap ProofId nat -> list (ProofId * nat).
Definition in_degrees (d : ProofDag) : gmap ProofId nat :=
  fold_left (fun deg n => <[node_id n := length (dependencies n)]> deg) (values d)
    (fold_left (fun deg id => <[id := 0]> deg) (keys d) ∅).
Definition topological_sort (d : ProofDag) : option (option (list ProofId)) :=
  let deg := in_degrees d in
  let queue := rev (map fst (filter (fun p => snd p = 0) (degrees_listing deg))) in
  match sort_loop (S (size d)) d deg queue [] with
  | Some result => Some (if decide (length result = size d) then Some result else None)
  | None => None
  end.

(** [node_depth] with its table of depths, and the greatest of several. *)
Fixpoint greatest (depth : ProofNode -> gmap ProofId nat -> option (nat * gmap ProofId nat)) (ns : list ProofNode)
    (memo : gmap ProofId nat) : option (nat * gmap ProofId nat) :=
  match ns with
  | [] => Some (0, memo)
  | n :: ns' =>
      match depth n memo with
      | Some (k, memo) => match greatest depth ns' memo with
                          | Some (m, memo) => Some (Nat.max k m, memo) | None => None end
      | None => None
      end
  end.
Fixpoint node_depth (fuel : nat) (d : ProofDag) (n : ProofNode) (memo : gmap ProofId nat)
  : option (nat * gmap ProofId nat) :=
  match fuel with
  | O => None
  | S fuel =>
      match memo !! node_id n with
      | Some k => Some (k, memo)
      | None =>
          let children := filter (fun c => node_id n ∈ dependencies c) (values d) in
          match greatest (node_depth fuel d) children memo with
          | Some (m, memo) => Some (S m, <[node_id n := S m]> memo)
          | None => None
          end
      end
  end.
Definition depth (fuel : nat) (d : ProofDag) : option nat :=
  match greatest (node_depth fuel d) (roots d) ∅ with Some (k, _) => Some k | None => None end.
End Listed.

(** ** Composition (proof_composition.rs) *)

Definition ProofComposer := list ProofBundle.
Definition composer_new : ProofComposer := [].
Definition add_proof (b : ProofBundle) (c : ProofComposer) : ProofComposer := c ++ [b].
Record ComposedProof := mkComposed { inclusion_proofs : list InclusionProof; finality_proofs : list FinalityProof }.
Definition compose (c : ProofComposer) : option ComposedProof :=
  match c with [] => None | _ => Some (mkComposed (map inclusion_proof c) (map finality_proof c)) end.

(** ** Lemmas: the search *)

(** One proof depends on another. *)
Definition depends (d : ProofDag) (x y : ProofId) : Prop := exists n, d !! x = Some n /\ y ∈ dependencies n.
Definition cyclic (d : ProofDag) : Prop := exists x, tc (depends d) x x.

Lemma depends_mentioned d x y : depends d x y -> x ∈ mentioned d /\ y ∈ mentioned d.
Proof.
  intros (n & Hx & Hy). unfold mentioned.
  split; apply elem_of_union; [left; apply elem_of_dom; by exists n|right]. apply elem_of_list_to_set. apply list_elem_of_In, in_flat_map. exists (x, n). cbn.
  split; [by apply list_elem_of_In, elem_of_map_to_list|by apply list_elem_of_In].
Qed.

(** The state of a search that has found nothing: what is finished depends only on what is
    finished, and not on itself. *)
Record sound (d : ProofDag) (s : Search) : Prop := mkSound {
  so_open : snd s ⊆ fst s;
  so_closed : forall x y, x ∈ fst s -> x ∉ snd s -> depends d x y -> y ∈ fst s /\ y ∉ snd s;
  so_acyclic : forall x, x ∈ fst s -> x ∉ snd s -> ~ tc (depends d) x x
}.

Lemma closed_tc d s x y :
  sound d s -> x ∈ fst s -> x ∉ snd s -> tc (depends d) x y -> y ∈ fst s /\ y ∉ snd s.
Proof.
  intros H Hx Hn Hxy. revert Hx Hn. induction Hxy as [x y Hxy|x y z Hxy Hyz IH]; intros Hx Hn.
  - by eapply so_closed.
  - destruct (so_closed d s H x y Hx Hn Hxy) as [Hy Hy']. by apply IH.
Qed.

(** What a search from one identifier may say. *)
Definition search_ok (d : ProofDag) (id : ProofId) (s : Search) (r : option (bool * Search)) : Prop :=
  match r with
  | Some (true, _) => cyclic d
  | Some (false, s') => sound d s' /\ snd s' = snd s /\ {[id]} ∪ fst s ⊆ fst s'
  | None => False
  end.

Lemma visit_all_spec d fuel id deps s :
  (forall id s, id ∉ fst s -> sound d s -> (forall x, x ∈ snd s -> tc (depends d) x id) ->
     id ∈ mentioned d -> size (mentioned d ∖ fst s) <= fuel -> search_ok d id s (has_cycle fuel d id s)) ->
  (forall y, y ∈ deps -> depends d id y) -> sound d s -> id ∈ snd s ->
  (forall x, x ∈ snd s -> x = id \/ tc (depends d) x id) -> size (mentioned d ∖ fst s) <= fuel ->
  match visit_all (has_cycle fuel d) deps s with
  | Some (true, _) => cyclic d
  | Some (false, s') => sound d s' /\ snd s' = snd s /\ fst s ⊆ fst s' /\ forall y, y ∈ deps -> y ∈ fst s' /\ y ∉ snd s'
  | None => False
  end.
Proof.
  intros IH. revert s. induction deps as [|y deps IHd]; intros s Hdeps Hs Hid Hopen Hf; cbn [visit_all].
  { split; [done|]. split; [done|]. split; [done|]. by intros y ?%not_elem_of_nil. }
  assert (Hy : depends d id y) by (apply Hdeps; left).
  assert (Hdeps' : forall z, z ∈ deps -> depends d id z) by (intros z Hz; apply Hdeps; by right).
  destruct (decide (y ∈ fst s)) as [Hv|Hv].
  - destruct (decide (y ∈ snd s)) as [Ho|Ho].
    + exists y. destruct (Hopen y Ho) as [->|Ht]; [by constructor|]. by eapply tc_r.
    + specialize (IHd s Hdeps' Hs Hid Hopen Hf).
      destruct (visit_all _ deps s) as [[[] s']|]; [done| |done].
      destruct IHd as (Hs' & Heq & Hsub & Hd). split; [done|]. split; [done|]. split; [done|].
      intros z [->|Hz]%elem_of_cons; [|by apply Hd]. rewrite Heq. split; [by apply Hsub|done].
  - assert (H1 : search_ok d y s (has_cycle fuel d y s)).
    { apply IH; [done|done| |by eapply depends_mentioned|done].
      intros x [->|Ht]%Hopen; [by constructor|by eapply tc_r]. }
    unfold search_ok in H1. destruct (has_cycle fuel d y s) as [[[] s1]|]; [done| |done].
    destruct H1 as (Hs1 & Heq & Hsub).
    assert (Hf1 : size (mentioned d ∖ fst s1) <= fuel).
    { etrans; [|exact Hf]. apply subseteq_size. set_solver. }
    assert (Hid1 : id ∈ snd s1) by (by rewrite Heq).
    assert (Hopen1 : forall x, x ∈ snd s1 -> x = id \/ tc (depends d) x id) by (rewrite Heq; done).
    specialize (IHd s1 Hdeps' Hs1 Hid1 Hopen1 Hf1).
    destruct (visit_all _ deps s1) as [[[] s2]|]; [done| |done].
    destruct IHd as (Hs2 & Heq2 & Hsub2 & Hd). split; [done|]. split; [by rewrite Heq2|].
    split; [set_solver|]. intros z [->|Hz]%elem_of_cons; [|by apply Hd].
    rewrite Heq2, Heq. split; [set_solver|]. intros Ho. by apply Hv, (so_open d s Hs).
Qed.

Definition dependencies_of (d : ProofDag) (id : ProofId) : list ProofId :=
  match d !! id with Some n => dependencies n | None => [] end.

Lemma depends_of d x y : depends d x y <-> y ∈ dependencies_of d x.
Proof.
  unfold depends, dependencies_of. destruct (d !! x) as [n|]; [naive_solver|].
  split; [by intros (n & ? & _)|by intros ?%not_elem_of_nil].
Qed.

(** Opening an identifier, and finishing it when its dependencies are. *)
Lemma sound_open d s id : id ∉ fst s -> sound d s -> sound d ({[id]} ∪ fst s, {[id]} ∪ snd s).
Proof.
  intros Hid [Ho Hc Ha]. constructor; cbn.
  - set_solver.
  - intros x y Hx Hn Hxy. destruct (Hc x y) as [Hy Hy']; [set_solver|set_solver|done|]. set_solver.
  - intros x Hx Hn. apply Ha; set_solver.
Qed.

Lemma sound_finish d s id :
  sound d s -> id ∈ snd s -> (forall y, depends d id y -> y ∈ fst s /\ y ∉ snd s) ->
  sound d (fst s, snd s ∖ {[id]}).
Proof.
  intros Hs Hid Hdeps.
  assert (Hx : forall x, x ∉ snd s ∖ {[id]} -> x ∉ snd s \/ x = id).
  { intros x H. destruct (decide (x = id)); [by right|left]. set_solver. }
  constructor; cbn [fst snd].
  - pose proof (so_open d s Hs). set_solver.
  - intros x y Hv [Hn| ->]%Hx Hxy.
    + destruct (so_closed d s Hs x y Hv Hn Hxy). set_solver.
    + destruct (Hdeps y Hxy). set_solver.
  - intros x Hv [Hn| ->]%Hx; [by apply (so_acyclic d s Hs)|]. intros Ht.
    assert (exists y, depends d id y /\ (y = id \/ tc (depends d) y id)) as (y & Hy & Hc).
    { inversion Ht; subst; eauto. }
    destruct (Hdeps y Hy) as [Hyv Hyo]. destruct Hc as [->|Hc]; [done|].
    by destruct (closed_tc d s y id Hs Hyv Hyo Hc).
Qed.

Lemma has_cycle_spec d fuel id s :
  id ∉ fst s -> sound d s -> (forall x, x ∈ snd s -> tc (depends d) x id) ->
  id ∈ mentioned d -> size (mentioned d ∖ fst s) <= fuel -> search_ok d id s (has_cycle fuel d id s).
Proof.
  revert id s. induction fuel as [|fuel IH]; intros id s Hid Hs Hopen Hm Hf.
  { assert (Hsz : size (mentioned d ∖ fst s) = 0) by lia. apply size_empty_inv in Hsz. set_solver. }
  cbn [has_cycle]. set (s0 := ({[id]} ∪ fst s, {[id]} ∪ snd s)).
  replace (match d !! id with Some n => visit_all (has_cycle fuel d) (dependencies n) s0 | None => Some (false, s0) end)
    with (visit_all (has_cycle fuel d) (dependencies_of d id) s0)
    by (unfold dependencies_of; by destruct (d !! id)).
  assert (Hf0 : size (mentioned d ∖ fst s0) <= fuel).
  { assert (size (mentioned d ∖ fst s0) < size (mentioned d ∖ fst s)); [|lia].
    apply subset_size. unfold s0. cbn. set_solver. }
  pose proof (visit_all_spec d fuel id (dependencies_of d id) s0 IH) as H.
  destruct (visit_all _ _ s0) as [[[] s1]|]; [| |]; cbn [search_ok].
  - apply H; [by intros y ?%depends_of|by apply sound_open|set_solver|set_solver|done].
  - destruct H as (Hs1 & Heq & Hsub & Hd);
      [by intros y ?%depends_of|by apply sound_open|set_solver|set_solver|done|].
    assert (Hid1 : id ∈ snd s1) by (rewrite Heq; unfold s0; set_solver).
    split; [apply sound_finish; [done|done|]; intros y Hy; by apply Hd, depends_of|].
    cbn [fst snd]. rewrite Heq. unfold s0 in *. cbn [fst snd] in *. split; [|done].
    pose proof (so_open d s Hs). set_solver.
  - apply H; [by intros y ?%depends_of|by apply sound_open|set_solver|set_solver|done].
Qed.

Lemma search_all_spec d fuel ids s :
  (forall id, id ∈ ids -> id ∈ mentioned d) -> size (mentioned d) <= fuel -> sound d s -> snd s = ∅ ->
  match search_all fuel d ids s with
  | Some true => exists s', sound d s' /\ snd s' = ∅ /\ fst s ⊆ fst s' /\ forall id, id ∈ ids -> id ∈ fst s'
  | Some false => cyclic d
  | None => False
  end.
Proof.
  intros Hm Hf. revert s. induction ids as [|id ids IH]; intros s Hs He; cbn [search_all].
  { exists s. split; [done|]. split; [done|]. split; [done|]. by intros id ?%not_elem_of_nil. }
  specialize (IH (fun i Hi => Hm i (list_elem_of_further _ _ _ Hi))).
  destruct (decide (id ∈ fst s)) as [Hv|Hv].
  - specialize (IH s Hs He). destruct (search_all _ _ _ s) as [[]|]; [|done|done].
    destruct IH as (s' & H1 & H2 & H3 & H4). exists s'. split; [done|]. split; [done|]. split; [done|].
    intros i [->|Hi]%elem_of_cons; [by apply H3|by apply H4].
  - assert (H : search_ok d id s (has_cycle fuel d id s)).
    { apply has_cycle_spec; [done|done| |apply Hm; left|].
      - rewrite He. by intros x ?%not_elem_of_empty.
      - etrans; [|exact Hf]. apply subseteq_size. set_solver. }
    destruct (has_cycle fuel d id s) as [[[] s1]|]; cbn [search_ok] in H; [done| |done].
    destruct H as (Hs1 & He1 & Hsub). rewrite He in He1. specialize (IH s1 Hs1 He1).
    destruct (search_all _ _ _ s1) as [[]|]; [|done|done].
    destruct IH as (s' & H1 & H2 & H3 & H4). exists s'. split; [done|]. split; [done|]. split; [set_solver|].
    intros i [->|Hi]%elem_of_cons; [set_solver|by apply H4].
Qed.

Lemma sound_start d : sound d (∅, ∅).
Proof. constructor; cbn; [done| |]; intros x; set_solver. Qed.

Section Listing.
Context (listing : ProofDag -> list (ProofId * ProofNode)) (d : ProofDag).
Hypothesis Hl : Permutation (listing d) (map_to_list d).

Lemma keys_elem id : id ∈ keys listing d <-> is_Some (d !! id).
Proof.
  unfold keys. rewrite (Permutation_map fst Hl), list_elem_of_fmap. split.
  - intros ([i n] & -> & H). apply elem_of_map_to_list in H. by exists n.
  - intros [n Hn]. exists (id, n). split; [done|]. by apply elem_of_map_to_list.
Qed.

Lemma values_elem n : n ∈ values listing d <-> exists id, d !! id = Some n.
Proof.
  unfold values. rewrite (Permutation_map snd Hl), list_elem_of_fmap. split.
  - intros ([i m] & -> & H). apply elem_of_map_to_list in H. by exists i.
  - intros [id Hn]. exists (id, n). split; [done|]. by apply elem_of_map_to_list.
Qed.

Lemma keys_mentioned id : id ∈ keys listing d -> id ∈ mentioned d.
Proof. intros [n Hn]%keys_elem. apply elem_of_union. left. apply elem_of_dom. by exists n. Qed.

Lemma verify_acyclic_spec :
  (verify_acyclic listing d = Some true /\ ~ cyclic d) \/ (verify_acyclic listing d = Some false /\ cyclic d).
Proof.
  unfold verify_acyclic.
  pose proof (search_all_spec d (search_fuel d) (keys listing d) (∅, ∅) keys_mentioned
                (Nat.le_refl _) (sound_start d) eq_refl) as H.
  destruct (search_all _ _ _ _) as [[]|]; [left|by right|done]. split; [done|].
  destruct H as (s & Hs & He & _ & Hall). intros [x Hx].
  assert (Hd : exists y, depends d x y) by (inversion Hx; subst; eauto).
  destruct Hd as (y & n & Hn & _). apply (so_acyclic d s Hs x); [|rewrite He; set_solver|done].
  apply Hall, keys_elem. by exists n.
Qed.

(** Every dependency is in the graph. *)
Definition complete : Prop := forall x y, depends d x y -> is_Some (d !! y).

Lemma verify_structure_spec :
  verify_structure listing d = Some (bool_decide (verify_acyclic listing d = Some true) &&
    forallb (fun n => forallb (fun dep => bool_decide (is_Some (d !! dep))) (dependencies n)) (values listing d)) /\
  (forallb (fun n => forallb (fun dep => bool_decide (is_Some (d !! dep))) (dependencies n)) (values listing d) = true
   <-> complete).
Proof.
  split.
  - unfold verify_structure. destruct verify_acyclic_spec as [[-> _]|[-> _]]; done.
  - rewrite forallb_forall. split.
    + intros H x y (n & Hn & Hy). specialize (H n). rewrite forallb_forall in H.
      eapply bool_decide_eq_true, H; [|by apply list_elem_of_In].
      apply list_elem_of_In, values_elem. by exists x.
    + intros Hc n Hn. apply list_elem_of_In, values_elem in Hn as [x Hx]. rewrite forallb_forall. intros y Hy.
      apply bool_decide_eq_true, (Hc x). exists n. split; [done|by apply list_elem_of_In].
Qed.
End Listing.

(** ** Lemmas: insertion *)

Lemma add_node_ok n d :
  fst (add_node n d) = true <-> forall y, y ∈ dependencies n -> is_Some (d !! y).
Proof.
  unfold add_node. destruct (forallb _ _) eqn:E; rewrite ?forallb_forall in E; cbn [fst].
  - split; [|done]. intros _ y Hy. by eapply bool_decide_eq_true, E, list_elem_of_In.
  - split; [done|]. intros H. exfalso. apply not_true_iff_false in E. apply E, forallb_forall.
    intros y Hy. by apply bool_decide_eq_true, H, list_elem_of_In.
Qed.

Lemma depends_insert n d x y :
  depends (<[node_id n := n]> d) x y <->
  (x = node_id n /\ y ∈ dependencies n) \/ (x <> node_id n /\ depends d x y).
Proof.
  unfold depends. destruct (decide (x = node_id n)) as [->|Hne].
  - rewrite lookup_insert_eq. naive_solver.
  - rewrite lookup_insert_ne by done. naive_solver.
Qed.

(** A new node adds no way round. *)
Lemma add_new_acyclic n d :
  complete d -> ~ cyclic d -> d !! node_id n = None -> fst (add_node n d) = true ->
  complete (snd (add_node n d)) /\ ~ cyclic (snd (add_node n d)).
Proof.
  intros Hc Ha Hnew Hok. pose proof Hok as Hdeps. rewrite add_node_ok in Hdeps.
  unfold add_node in *. destruct (forallb _ _); [|done]. cbn [snd].
  set (d' := <[node_id n := n]> d).
  assert (Ht : forall x y, depends d' x y -> is_Some (d !! y)).
  { intros x y [[_ Hy]|[_ Hy]]%depends_insert; [by apply Hdeps|by apply (Hc x)]. }
  assert (Hne : forall y, is_Some (d !! y) -> y <> node_id n) by (intros y [m Hm] ->; congruence).
  split.
  - intros x y Hxy. destruct (Ht x y Hxy) as [m Hm]. exists m. unfold d'.
    rewrite lookup_insert_ne; [done|]. apply not_eq_sym, Hne. by exists m.
  - intros [x Hx]. apply Ha. exists x.
    assert (Hback : forall z y, tc (depends d') z y -> is_Some (d !! z) -> tc (depends d) z y /\ is_Some (d !! y)).
    { intros z y Hzy. induction Hzy as [z y Hzy|z w y Hzw Hwy IH]; intros Hz.
      - split; [|by apply (Ht z)]. apply depends_insert in Hzy as [[-> _]|[_ Hzy]]; [by destruct (Hne _ Hz)|].
        by constructor.
      - destruct (IH (Ht z w Hzw)) as [H1 H2]. split; [|done].
        apply depends_insert in Hzw as [[-> _]|[_ Hzw]]; [by destruct (Hne _ Hz)|]. by eapply tc_l. }
    apply Hback; [done|]. clear -Hx Ht. induction Hx; [by eapply Ht|done].
Qed.

(** ** Lemmas: the order *)

Lemma relax_spec q ns deg queue :
  NoDup (map node_id ns) ->
  (forall n, n ∈ ns -> q ∈ dependencies n -> exists k, deg !! node_id n = Some (S k)) ->
  exists deg' new, relax q ns deg queue = Some (deg', new ++ queue) /\
    (forall n, n ∈ ns -> q ∈ dependencies n -> deg' !! node_id n = pred <$> deg !! node_id n) /\
    (forall x, (forall n, n ∈ ns -> node_id n = x -> q ∉ dependencies n) -> deg' !! x = deg !! x) /\
    NoDup new /\
    (forall x, x ∈ new <-> exists n, n ∈ ns /\ node_id n = x /\ q ∈ dependencies n /\ deg !! x = Some 1).
Proof.
  revert deg queue. induction ns as [|n ns IH]; intros deg queue Hd Hpos; cbn [relax].
  { exists deg, []. split; [done|]. split; [by intros n ?%not_elem_of_nil|]. split; [done|].
    split; [constructor|]. intros x. split; [by intros ?%not_elem_of_nil|]. by intros (n & ?%not_elem_of_nil & _). }
  cbn [map] in Hd. apply NoDup_cons in Hd as [Hn Hd].
  assert (Hother : forall m, m ∈ ns -> node_id m <> node_id n).
  { intros m Hm E. apply Hn, list_elem_of_fmap. by exists m. }
  destruct (decide (q ∈ dependencies n)) as [Hq|Hq].
  - destruct (Hpos n) as [k Hk]; [left|done|]. rewrite Hk.
    destruct (IH (<[node_id n := k]> deg) (if decide (k = 0) then node_id n :: queue else queue) Hd)
      as (deg' & new & Hr & H1 & H2 & H3 & H4).
    { intros m Hm Hqm. rewrite lookup_insert_ne by (by apply not_eq_sym, Hother). apply Hpos; [by right|done]. }
    exists deg', (if decide (k = 0) then new ++ [node_id n] else new).
    split; [rewrite Hr; case_decide; by rewrite <- ?app_assoc|]. split; [|split; [|split]].
    + intros m [->|Hm]%elem_of_cons Hqm.
      * rewrite H2 by (intros m' Hm' E; by destruct (Hother m')). by rewrite lookup_insert_eq, Hk.
      * rewrite H1 by done. by rewrite lookup_insert_ne by (by apply not_eq_sym, Hother).
    + intros x Hx. rewrite H2 by (intros m Hm; apply Hx; by right).
      rewrite lookup_insert_ne; [done|]. intros E. by destruct (Hx n (list_elem_of_here _ _) E).
    + case_decide; [|done]. apply NoDup_app. split; [done|]. split; [|apply NoDup_singleton].
      intros x (m & Hm & E & _)%H4 Hx%list_elem_of_singleton. apply (Hother m); congruence.
    + intros x. assert (Hnew : x ∈ new <-> exists m, m ∈ ns /\ node_id m = x /\ q ∈ dependencies m /\ deg !! x = Some 1).
      { rewrite H4. split; intros (m & Hm & <- & Hqm & E); exists m; (split; [done|]); (split; [done|]); (split; [done|]).
        - by rewrite lookup_insert_ne in E by (by apply not_eq_sym, Hother).
        - by rewrite lookup_insert_ne by (by apply not_eq_sym, Hother). }
      setoid_rewrite elem_of_cons. case_decide as Hk0; rewrite ?elem_of_app, ?list_elem_of_singleton, Hnew.
      * subst k. naive_solver.
      * split; [naive_solver|]. intros (m & [->|Hm] & <- & Hqm & E); [congruence|]. by exists m.
  - destruct (IH deg queue Hd) as (deg' & new & Hr & H1 & H2 & H3 & H4).
    { intros m Hm. apply Hpos. by right. }
    exists deg', new. split; [done|]. split; [|split; [|split; [done|]]].
    + intros m [->|Hm]%elem_of_cons Hqm; [done|by apply H1].
    + intros x Hx. apply H2. intros m Hm. apply Hx. by right.
    + intros x. rewrite H4. setoid_rewrite elem_of_cons. naive_solver.
Qed.

(** How many of a node's dependencies were taken. *)
Definition taken (n : ProofNode) (l : list ProofId) : nat := length (filter (fun y => y ∈ dependencies n) l).

Lemma taken_within n l : NoDup l -> taken n l <= length (dependencies n).
Proof.
  intros Hl. apply submseteq_length, NoDup_submseteq; [by apply NoDup_filter|].
  by intros y [? _]%list_elem_of_filter.
Qed.

(** When all are, none is listed twice. *)
Lemma taken_all n l :
  NoDup l -> taken n l = length (dependencies n) ->
  NoDup (dependencies n) /\ forall y, y ∈ dependencies n -> y ∈ l.
Proof.
  intros Hl Ht. assert (Hp : Permutation (filter (fun y => y ∈ dependencies n) l) (dependencies n)).
  { apply submseteq_length_Permutation; [|unfold taken in Ht; lia]. apply NoDup_submseteq; [by apply NoDup_filter|].
    by intros y [? _]%list_elem_of_filter. }
  split; [rewrite <- Hp; by apply NoDup_filter|]. intros y Hy. rewrite <- Hp in Hy.
  by apply list_elem_of_filter in Hy as [_ ?].
Qed.

Lemma taken_snoc n l q : taken n (l ++ [q]) = taken n l + (if decide (q ∈ dependencies n) then 1 else 0).
Proof.
  unfold taken. rewrite filter_app, length_app. f_equal. rewrite filter_cons, filter_nil. by case_decide.
Qed.

Section Sorting.
Context (listing : ProofDag -> list (ProofId * ProofNode)) (d : ProofDag).
Hypothesis Hl : Permutation (listing d) (map_to_list d).
(** What insertion ensures: a node is under its own identifier. *)
Hypothesis Hkeyed : forall id n, d !! id = Some n -> node_id n = id.

Lemma values_node n : n ∈ values listing d <-> d !! node_id n = Some n.
Proof.
  rewrite values_elem by done. split; [|by eexists]. intros [id H]. by rewrite (Hkeyed id n H).
Qed.

Lemma values_nodup : NoDup (map node_id (values listing d)).
Proof.
  assert (H : map node_id (values listing d) = keys listing d).
  { unfold values, keys. rewrite map_map. apply map_ext_in. intros [id n] Hi. cbn.
    apply Hkeyed, elem_of_map_to_list. rewrite <- Hl. by apply list_elem_of_In. }
  rewrite H. unfold keys. rewrite (Permutation_map fst Hl). apply NoDup_fst_map_to_list.
Qed.

(** The state of the loop, where [l] is what was taken. *)
Record kahn (deg : gmap ProofId nat) (queue l : list ProofId) : Prop := mkKahn {
  k_deg : forall x n, d !! x = Some n -> exists k, deg !! x = Some k /\ k + taken n l = length (dependencies n);
  k_dom : forall x, is_Some (deg !! x) -> is_Some (d !! x);
  k_nodup : NoDup (l ++ queue);
  k_ready : forall x, x ∈ l ++ queue <-> deg !! x = Some 0;
  k_order : forall l1 x l2, l = l1 ++ x :: l2 -> forall y, depends d x y -> y ∈ l1
}.

Lemma kahn_head deg q queue l : kahn deg (q :: queue) l -> NoDup (l ++ [q]).
Proof.
  intros K. apply (sublist_NoDup _ (l ++ q :: queue)); [apply (k_nodup _ _ _ K)|].
  apply sublist_app; [done|]. apply sublist_skip, sublist_nil_l.
Qed.

(** Whoever waits for the head waits for something. *)
Lemma kahn_waiting deg q queue l n :
  kahn deg (q :: queue) l -> d !! node_id n = Some n -> q ∈ dependencies n ->
  exists k, deg !! node_id n = Some (S k).
Proof.
  intros K Hn Hq. destruct (k_deg _ _ _ K _ n Hn) as (k & Hk & Ht).
  pose proof (taken_within n (l ++ [q]) (kahn_head _ _ _ _ K)) as Hw. rewrite taken_snoc in Hw.
  rewrite decide_True in Hw by done. destruct k as [|k]; [lia|by exists k].
Qed.

(** What the head depends on was taken before it. *)
Lemma kahn_order_step deg q queue l l1 x l2 y :
  kahn deg (q :: queue) l -> l ++ [q] = l1 ++ x :: l2 -> depends d x y -> y ∈ l1.
Proof.
  intros K E Hxy. destruct (decide (l2 = [])) as [->|Hl2].
  - apply app_inj_tail in E as [<- <-]. destruct Hxy as (n & Hn & Hy).
    destruct (k_deg _ _ _ K q n Hn) as (k & Hk & Ht).
    assert (Hk0 : deg !! q = Some 0) by (apply (k_ready _ _ _ K); set_solver).
    pose proof (k_nodup _ _ _ K) as Hnd. apply NoDup_app in Hnd as [Hnl _].
    eapply (taken_all n l Hnl); [|done]. rewrite Hk in Hk0. injection Hk0 as ->. lia.
  - destruct (exists_last Hl2) as (l3 & z & ->). rewrite app_comm_cons, app_assoc in E.
    apply app_inj_tail in E as [-> _]. by eapply (k_order _ _ _ K).
Qed.

(** The loop over the nodes, by what it does to the degree of each. *)
Lemma relax_values deg q queue l :
  kahn deg (q :: queue) l ->
  exists deg' new, relax q (values listing d) deg queue = Some (deg', new ++ queue) /\
    (forall x n, d !! x = Some n -> deg' !! x = if decide (q ∈ dependencies n) then pred <$> deg !! x else deg !! x) /\
    (forall x, d !! x = None -> deg' !! x = deg !! x) /\ NoDup new /\
    (forall x, x ∈ new <-> exists n, d !! x = Some n /\ q ∈ dependencies n /\ deg !! x = Some 1).
Proof.
  intros K. destruct (relax_spec q (values listing d) deg queue values_nodup) as (deg' & new & Hr & H1 & H2 & H3 & H4).
  { intros n Hn Hq. apply values_node in Hn. by eapply kahn_waiting. }
  exists deg', new. split; [done|]. split; [|split; [|split; [done|]]].
  - intros x n Hn. pose proof (Hkeyed x n Hn) as <-. case_decide as Hq.
    + apply H1; [by apply values_node|done].
    + apply H2. intros m Hm E. apply values_node in Hm. rewrite E in Hm. by replace m with n by congruence.
  - intros x Hn. apply H2. intros m Hm E. apply values_node in Hm. congruence.
  - intros x. rewrite H4. split.
    + intros (n & Hn & <- & H). exists n. by apply values_node in Hn.
    + intros (n & Hn & H). exists n. rewrite values_node. pose proof (Hkeyed x n Hn) as <-. done.
Qed.

Lemma kahn_taken deg q queue l :
  kahn deg (q :: queue) l ->
  exists deg' queue', relax q (values listing d) deg queue = Some (deg', queue') /\ kahn deg' queue' (l ++ [q]).
Proof.
  intros K. pose proof (kahn_head _ _ _ _ K) as Hql.
  destruct (relax_values deg q queue l K) as (deg' & new & Hr & Hnode & Hnone & Hnd & Hnew).
  exists deg', (new ++ queue). split; [done|]. constructor.
  - intros x n Hn. destruct (k_deg _ _ _ K x n Hn) as (k & Hk & Ht). rewrite (Hnode x n Hn), Hk, taken_snoc.
    pose proof (taken_within n (l ++ [q]) Hql) as Hw. rewrite taken_snoc in Hw.
    case_decide; cbn; eexists; (split; [done|]); lia.
  - intros x Hx. destruct (d !! x) as [n|] eqn:Hn; [done|]. rewrite <- Hn. apply (k_dom _ _ _ K). by rewrite <- Hnone.
  - assert (Hp : Permutation ((l ++ [q]) ++ new ++ queue) (new ++ (l ++ q :: queue))) by solve_Permutation.
    rewrite Hp. apply NoDup_app. split; [done|]. split; [|apply (k_nodup _ _ _ K)].
    intros x (n & _ & _ & E)%Hnew Hx%(k_ready _ _ _ K). congruence.
  - intros x. transitivity (x ∈ new \/ x ∈ l ++ q :: queue); [set_solver|]. rewrite (k_ready _ _ _ K), Hnew.
    destruct (d !! x) as [n|] eqn:Hn.
    + destruct (k_deg _ _ _ K x n Hn) as (k & Hk & _). rewrite (Hnode x n Hn), Hk. case_decide as Hq; cbn.
      * split; [intros [(m & _ & _ & [= ->])|[= ->]]; done|].
        intros [= Hp]. destruct k as [|[|k]]; [by right|left; by exists n|done].
      * split; [|by right]. intros [(m & [= ->] & Hqm & _)|?]; done.
    + rewrite Hnone by done. split; [|by right]. intros [(m & ? & _)|?]; done.
  - intros l1 x l2 E y Hxy. by eapply kahn_order_step.
Qed.

Lemma sort_loop_spec fuel deg queue l :
  kahn deg queue l -> size d < fuel + length l ->
  exists deg' l', sort_loop listing fuel d deg queue l = Some l' /\ kahn deg' [] l'.
Proof.
  revert deg queue l. induction fuel as [|fuel IH]; intros deg queue l K Hf.
  - exfalso. pose proof (k_nodup _ _ _ K) as Hn.
    assert (Hs : list_to_set (l ++ queue) ⊆ (dom d : gset ProofId)).
    { intros x Hx%elem_of_list_to_set. apply elem_of_dom, (k_dom _ _ _ K). exists 0. by apply (k_ready _ _ _ K). }
    apply subseteq_size in Hs. rewrite size_list_to_set in Hs by done. rewrite size_dom, length_app in Hs. lia.
  - cbn [sort_loop]. destruct queue as [|q queue]; [by exists deg, l|].
    destruct (kahn_taken deg q queue l K) as (deg' & queue' & -> & K').
    apply (IH deg' queue' (l ++ [q]) K'). rewrite length_app. cbn. lia.
Qed.

Lemma fold_degrees_out ns (m : gmap ProofId nat) x :
  (forall n, n ∈ ns -> node_id n <> x) ->
  fold_left (fun deg n => <[node_id n := length (dependencies n)]> deg) ns m !! x = m !! x.
Proof.
  revert m. induction ns as [|n ns IH]; intros m Hx; [done|]. cbn [fold_left].
  rewrite IH by (intros k Hk; apply Hx; by right). rewrite lookup_insert_ne; [done|]. apply Hx. left.
Qed.

Lemma fold_degrees_in ns (m : gmap ProofId nat) n :
  NoDup (map node_id ns) -> n ∈ ns ->
  fold_left (fun deg n => <[node_id n := length (dependencies n)]> deg) ns m !! node_id n
  = Some (length (dependencies n)).
Proof.
  revert m. induction ns as [|k ns IH]; intros m Hd Hn; [by apply not_elem_of_nil in Hn|].
  cbn [map] in Hd. apply NoDup_cons in Hd as [Hk Hd]. cbn [fold_left].
  apply elem_of_cons in Hn as [->|Hn]; [|by apply IH].
  rewrite fold_degrees_out; [by rewrite lookup_insert_eq|].
  intros j Hj E. apply Hk, list_elem_of_fmap. by exists j.
Qed.

Lemma fold_zeros ids (m : gmap ProofId nat) x :
  x ∉ ids -> fold_left (fun deg id => <[id := 0]> deg) ids m !! x = m !! x.
Proof.
  revert m. induction ids as [|i ids IH]; intros m Hx; [done|]. cbn [fold_left].
  apply not_elem_of_cons in Hx as [Hi Hx]. rewrite IH by done. by rewrite lookup_insert_ne.
Qed.

Lemma in_degrees_lookup x : in_degrees listing d !! x = (fun n => length (dependencies n)) <$> d !! x.
Proof.
  unfold in_degrees. destruct (d !! x) as [n|] eqn:Hn.
  - pose proof (Hkeyed x n Hn) as <-. apply fold_degrees_in; [apply values_nodup|by apply values_node].
  - rewrite fold_degrees_out by (intros n Hv E; apply values_node in Hv; congruence).
    rewrite fold_zeros; [apply lookup_empty|]. rewrite keys_elem by done. rewrite Hn. by intros [? ?].
Qed.

Lemma kahn_start (degrees_listing : gmap ProofId nat -> list (ProofId * nat)) :
  (forall m, Permutation (degrees_listing m) (map_to_list m)) ->
  kahn (in_degrees listing d)
    (rev (map fst (filter (fun p => snd p = 0) (degrees_listing (in_degrees listing d))))) [].
Proof.
  intros Hg. set (deg := in_degrees listing d). constructor.
  - intros x n Hn. exists (length (dependencies n)). unfold deg. rewrite in_degrees_lookup, Hn. split; [done|].
    unfold taken. cbn. lia.
  - intros x. unfold deg. rewrite in_degrees_lookup. intros [k Hk]. destruct (d !! x); [done|done].
  - cbn [app]. rewrite <- Permutation_rev.
    eapply (sublist_NoDup _ (map fst (degrees_listing deg))).
    + rewrite (Permutation_map fst (Hg deg)). apply NoDup_fst_map_to_list.
    + clear. induction (degrees_listing deg) as [|p l IH]; [constructor|]. rewrite filter_cons.
      case_decide; cbn; by constructor.
  - intros x. cbn [app]. rewrite <- Permutation_rev, list_elem_of_fmap. split.
    + intros ([i k] & -> & [Hk Hi]%list_elem_of_filter). cbn in *. subst k. rewrite Hg in Hi. by apply elem_of_map_to_list in Hi.
    + intros E. exists (x, 0). split; [done|]. apply list_elem_of_filter. split; [done|]. rewrite Hg. by apply elem_of_map_to_list.
  - intros l1 x l2 E. by destruct l1.
Qed.

(** What the end of the loop means. *)
Lemma kahn_order deg l : kahn deg [] l -> length l = size d -> forall x, is_Some (d !! x) -> x ∈ l.
Proof.
  intros K Hlen x Hx. pose proof (k_nodup _ _ _ K) as Hn. rewrite app_nil_r in Hn.
  assert (Hs : list_to_set l ⊆ (dom d : gset ProofId)).
  { intros y Hy%elem_of_list_to_set. apply elem_of_dom, (k_dom _ _ _ K). exists 0.
    apply (k_ready _ _ _ K). by rewrite app_nil_r. }
  assert (He : (list_to_set l : gset ProofId) = dom d).
  { apply set_subseteq_size_eq; [done|]. by rewrite size_list_to_set, size_dom, Hlen. }
  apply (elem_of_list_to_set (C := gset ProofId)). rewrite He. by apply elem_of_dom.
Qed.

Lemma ordered_before deg l l1 x l2 y : kahn deg [] l -> l = l1 ++ x :: l2 -> tc (depends d) x y -> y ∈ l1.
Proof.
  intros K E Ht. revert l1 l2 E. induction Ht as [x y Hxy|x z y Hxz Hzy IH]; intros l1 l2 E.
  - by eapply (k_order _ _ _ K).
  - assert (Hz : z ∈ l1) by (by eapply (k_order _ _ _ K)).
    apply list_elem_of_split in Hz as (l3 & l4 & ->).
    apply (elem_of_app l3). left. eapply (IH l3 (l4 ++ x :: l2)). by rewrite E, <- app_assoc.
Qed.

Lemma kahn_end_sound deg l :
  kahn deg [] l -> length l = size d ->
  ~ cyclic d /\ complete d /\ forall x n, d !! x = Some n -> NoDup (dependencies n).
Proof.
  intros K Hlen. pose proof (kahn_order deg l K Hlen) as Hall. pose proof (k_nodup _ _ _ K) as Hn.
  pose proof (k_ready _ _ _ K) as Hready. rewrite app_nil_r in Hn, Hready.
  assert (Hin : forall x y, depends d x y -> is_Some (d !! x)) by (intros x y (n & ? & _); by exists n).
  split; [|split].
  - intros [x Hx]. assert (Hd : is_Some (d !! x)) by (inversion Hx; subst; by eapply Hin).
    apply Hall, list_elem_of_split in Hd as (l1 & l2 & E).
    pose proof (ordered_before deg l l1 x l2 x K E Hx) as Hx1. subst l. apply NoDup_app in Hn as (_ & Hd & _).
    apply (Hd x Hx1). left.
  - intros x y Hxy. destruct (list_elem_of_split l x (Hall x (Hin x y Hxy))) as (l1 & l2 & E).
    pose proof (k_order _ _ _ K l1 x l2 E y Hxy) as Hy. apply (k_dom _ _ _ K). exists 0. apply Hready.
    subst l. set_solver.
  - intros x n Hx. destruct (k_deg _ _ _ K x n Hx) as (k & Hk & Ht).
    assert (Hx0 : x ∈ l) by (apply Hall; by exists n). apply Hready in Hx0. rewrite Hx0 in Hk. injection Hk as <-.
    by apply (taken_all n l Hn).
Qed.

(** Without a way round, nobody waits for ever. *)
Lemma kahn_end_complete deg l :
  kahn deg [] l -> ~ cyclic d -> complete d -> (forall x n, d !! x = Some n -> NoDup (dependencies n)) ->
  length l = size d.
Proof.
  intros K Ha Hc Hdup. pose proof (k_nodup _ _ _ K) as Hn.
  pose proof (k_ready _ _ _ K) as Hready. rewrite app_nil_r in Hn, Hready.
  assert (Hall : forall x, is_Some (d !! x) -> x ∈ l).
  { intros x Hx.
    assert (Hsn : sn (depends d) x).
    { apply tc_finite_sn; [intros z Hz; apply Ha; by exists z|]. exists (elements (mentioned d)).
      intros y Hy. apply elem_of_elements. clear -Hy. induction Hy; [by eapply depends_mentioned|done]. }
    revert Hx. induction Hsn as [x _ IH]. intros [n Hx].
    assert (Hdeps : forall y, y ∈ dependencies n -> y ∈ l).
    { intros y Hy. apply IH; [by exists n|]. apply (Hc x). by exists n. }
    destruct (k_deg _ _ _ K x n Hx) as (k & Hk & Ht). apply Hready. rewrite Hk. f_equal.
    assert (length (dependencies n) <= taken n l); [|lia].
    apply submseteq_length, NoDup_submseteq; [by apply (Hdup x)|].
    intros y Hy. apply list_elem_of_filter. split; [done|by apply Hdeps]. }
  assert (He : (list_to_set l : gset ProofId) = dom d).
  { apply set_eq. intros y. rewrite elem_of_list_to_set, elem_of_dom. split; [|by apply Hall].
    intros Hy%Hready. apply (k_dom _ _ _ K). by exists 0. }
  by rewrite <- (size_list_to_set (C := gset ProofId) l Hn), He, size_dom.
Qed.
End Sorting.

(** ** Lemmas: the depth *)

(** A chain of [k] nodes from one node on, each depending on the one before. *)
Inductive path (d : ProofDag) : ProofId -> nat -> Prop :=
| path_one x : is_Some (d !! x) -> path d x 1
| path_step x y k : is_Some (d !! x) -> depends d y x -> path d y k -> path d x (S k).
Definition height (d : ProofDag) (x : ProofId) (h : nat) : Prop := path d x h /\ forall k, path d x k -> k <= h.
Definition memo_ok (d : ProofDag) (memo : gmap ProofId nat) : Prop := forall x h, memo !! x = Some h -> height d x h.

Lemma path_bound d x k : ~ cyclic d -> path d x k -> k <= size d.
Proof.
  intros Ha Hp.
  assert (H : exists l, length l = k /\ NoDup l /\ forall y, y ∈ l -> is_Some (d !! y) /\ (y = x \/ tc (depends d) y x)).
  { induction Hp as [x Hx|x y k Hx Hyx Hp (l & Hlen & Hn & Hl)].
    - exists [x]. split; [done|]. split; [apply NoDup_singleton|]. intros y ->%list_elem_of_singleton. by split; [|left].
    - exists (x :: l). split; [cbn; lia|]. split.
      + apply NoDup_cons. split; [|done]. intros [_ [E|Ht]]%Hl; apply Ha; exists x.
        * constructor. by rewrite E at 1.
        * by eapply tc_r.
      + intros z [->|Hz]%elem_of_cons; [by split; [|left]|]. destruct (Hl z Hz) as [Hs [->|Ht]]; (split; [done|]); right.
        * by constructor.
        * by eapply tc_r. }
  destruct H as (l & <- & Hn & Hl). rewrite <- (size_list_to_set (C := gset ProofId) l Hn), <- (size_dom (D := gset ProofId) d).
  apply subseteq_size. intros y [Hy _]%elem_of_list_to_set%Hl. by apply elem_of_dom.
Qed.

Lemma greatest_spec d (depth : ProofNode -> gmap ProofId nat -> option (nat * gmap ProofId nat)) ns memo :
  (forall n memo, n ∈ ns -> memo_ok d memo ->
     exists h memo', depth n memo = Some (h, memo') /\ height d (node_id n) h /\ memo_ok d memo') ->
  memo_ok d memo ->
  exists m memo', greatest depth ns memo = Some (m, memo') /\ memo_ok d memo' /\
    (forall n k, n ∈ ns -> path d (node_id n) k -> k <= m) /\
    ((m = 0 /\ ns = []) \/ exists n, n ∈ ns /\ path d (node_id n) m).
Proof.
  revert memo. induction ns as [|n ns IH]; intros memo Hd Hm; cbn [greatest].
  - exists 0, memo. split; [done|]. split; [done|]. split; [by intros n k ?%not_elem_of_nil|by left].
  - destruct (Hd n memo (list_elem_of_here _ _) Hm) as (h & memo1 & -> & [Hh Hmax] & Hm1).
    destruct (IH memo1) as (m & memo2 & -> & Hm2 & Hall & Hsome); [intros k mm Hk; apply Hd; by right|done|].
    exists (Nat.max h m), memo2. split; [done|]. split; [done|]. split.
    + intros k j [->|Hk]%elem_of_cons Hj; [specialize (Hmax j Hj); lia|specialize (Hall k j Hk Hj); lia].
    + right. destruct (Nat.max_spec h m) as [[Hlt ->]|[_ ->]]; [|exists n; split; [left|done]].
      destruct Hsome as [[-> _]|(k & Hk & Hp)]; [lia|]. exists k. split; [by right|done].
Qed.

Lemma node_depth_spec listing d fuel n memo :
  Permutation (listing d) (map_to_list d) -> (forall id n, d !! id = Some n -> node_id n = id) ->
  d !! node_id n = Some n -> (forall k, path d (node_id n) k -> k <= fuel) -> memo_ok d memo ->
  exists h memo', node_depth listing fuel d n memo = Some (h, memo') /\ height d (node_id n) h /\ memo_ok d memo'.
Proof.
  intros Hl Hk. revert n memo. induction fuel as [|fuel IH]; intros n memo Hn Hf Hm.
  { specialize (Hf 1 (path_one d _ (ex_intro _ n Hn))). lia. }
  cbn [node_depth]. destruct (memo !! node_id n) as [h|] eqn:E; [by exists h, memo; auto|].
  set (children := filter (fun c => node_id n ∈ dependencies c) (values listing d)).
  assert (Hc : forall c, c ∈ children <-> d !! node_id c = Some c /\ node_id n ∈ dependencies c).
  { intros c. unfold children. rewrite list_elem_of_filter, values_node by done. tauto. }
  destruct (greatest_spec d (node_depth listing fuel d) children memo) as (m & memo' & -> & Hm' & Hall & Hsome).
  { intros c mm [Hc1 Hc2]%Hc Hmm. apply IH; [done| |done]. intros k Hp. specialize (Hf (S k)).
    apply le_S_n, Hf. eapply path_step; [by exists n| |exact Hp]. by exists c. }
  { done. }
  assert (Hh : height d (node_id n) (S m)).
  { split.
    - destruct Hsome as [[-> _]|(c & [Hc1 Hc2]%Hc & Hp)]; [constructor; by exists n|].
      eapply path_step; [by exists n| |exact Hp]. by exists c.
    - intros k Hp. inversion Hp as [? ?|? y j ? (c & Hy & Hc2) Hj]; subst; [lia|].
      pose proof (Hk y c Hy) as <-. apply le_n_S, (Hall c); [by apply Hc|done]. }
  exists (S m), (<[node_id n := S m]> memo'). split; [done|]. split; [done|].
  intros x h. destruct (decide (node_id n = x)) as [<-|Hne].
  - rewrite lookup_insert_eq. by intros [= <-].
  - rewrite lookup_insert_ne by done. apply Hm'.
Qed.

(** ** What the graph leaves open *)

Definition demo_node (i : Byte.byte) (deps : list Byte.byte) : ProofNode :=
  mkProofNode (fill32 i) (PReplay (mkReplayProof (fill32 i) "bitcoin" [])) (map fill32 deps) metadata_default.
Definition inserted (l : list ProofNode) : ProofDag := fold_left (fun d n => snd (add_node n d)) l dag_new.

(** A proof inserted again, with dependencies that did not exist before, closes a cycle. *)
Definition demo_cycle : list ProofNode :=
  [demo_node Byte.x01 []; demo_node Byte.x02 [Byte.x01]; demo_node Byte.x03 [Byte.x02];
   demo_node Byte.x02 [Byte.x01; Byte.x03]].
Lemma reinserted_closes_cycle :
  map (fun l => verify_acyclic map_to_list (inserted l)) [take 3 demo_cycle; demo_cycle] = [Some true; Some false].
Proof. by vm_compute. Qed.

(** The depth of such a graph is never found. *)
Lemma depth_diverges fuel : depth map_to_list fuel (inserted demo_cycle) = None.
Proof.
  unfold depth. change (roots map_to_list (inserted demo_cycle)) with [demo_node Byte.x01 []]. cbn [greatest].
  assert (H : forall fuel, node_depth map_to_list fuel (inserted demo_cycle) (demo_node Byte.x02 [Byte.x01; Byte.x03]) ∅ = None /\
                           node_depth map_to_list fuel (inserted demo_cycle) (demo_node Byte.x03 [Byte.x02]) ∅ = None).
  { clear. induction fuel as [|fuel [IH2 IH3]]; [done|]. split; cbn [node_depth].
    - change (∅ !! _) with (@None nat).
      change (filter _ (values map_to_list (inserted demo_cycle))) with [demo_node Byte.x03 [Byte.x02]].
      cbn [greatest]. by rewrite IH3.
    - change (∅ !! _) with (@None nat).
      change (filter _ (values map_to_list (inserted demo_cycle))) with [demo_node Byte.x02 [Byte.x01; Byte.x03]].
      cbn [greatest]. by rewrite IH2. }
  destruct fuel as [|fuel]; [done|]. cbn [node_depth]. change (∅ !! _) with (@None nat).
  change (filter _ (values map_to_list (inserted demo_cycle))) with [demo_node Byte.x02 [Byte.x01; Byte.x03]].
  cbn [greatest]. by rewrite (proj1 (H fuel)).
Qed.

(** A dependency listed twice is waited for twice: a graph without cycles has no order. *)
Lemma duplicate_has_no_order :
  let d := inserted [demo_node Byte.x01 []; demo_node Byte.x02 [Byte.x01; Byte.x01]] in
  verify_structure map_to_list d = Some true /\ topological_sort map_to_list map_to_list d = Some None.
Proof. by vm_compute. Qed.

(** A node does not expire, whatever the time: its two dates are compared with each other. *)
Lemma expires_by_itself n c t : (0 < t)%N -> is_expired (with_expires_at t (with_created_at c n)) = (t <? c)%N.
Proof. intros H. unfold is_expired. cbn. by rewrite (proj2 (N.ltb_lt 0 t) H). Qed.

(** How many of the proofs composed must hold is not part of a proof's identifier. *)
Lemma threshold_not_identified sha256 children proof m n deps :
  node_id (node_new sha256 (PComposite children (Threshold m) proof) deps)
  = node_id (node_new sha256 (PComposite children (Threshold n) proof) deps).
Proof. done. Qed.

(** ** Theorems *)

Lemma add_node_keyed n d :
  (forall id m, d !! id = Some m -> node_id m = id) ->
  forall id m, snd (add_node n d) !! id = Some m -> node_id m = id.
Proof.
  intros Hk id m. unfold add_node. destruct (forallb _ _); [|apply Hk]. cbn [snd].
  destruct (decide (node_id n = id)) as [E|E]; [subst id; rewrite lookup_insert_eq; by intros [= <-]|].
  rewrite lookup_insert_ne by done. apply Hk.
Qed.

(** the checks of a graph.  However the map is listed, the search for cycles ends and finds
    one exactly when a proof depends on itself in some steps; the structure is accepted exactly
    when none does and every dependency is in the graph. *)
Theorem structure_exact (listing : ProofDag -> list (ProofId * ProofNode)) (d : ProofDag)
    (Hl : Permutation (listing d) (map_to_list d)) :
  (exists b, verify_acyclic listing d = Some b /\ (b = true <-> ~ cyclic d)) /\
  (exists b, verify_structure listing d = Some b /\ (b = true <-> ~ cyclic d /\ complete d)).
Proof.
  destruct (verify_structure_spec listing d Hl) as [Hs Hc].
  destruct (verify_acyclic_spec listing d Hl) as [[Ha Hn]|[Ha Hn]]; rewrite Hs, Ha.
  - split; [by exists true|]. eexists. split; [done|]. rewrite bool_decide_eq_true_2 by done. cbn [andb]. tauto.
  - split; [exists false; split; [done|]; split; [done|tauto]|]. exists false. split; [done|]. split; [done|tauto].
Qed.

(** insertion.  Proofs inserted once each, in any order, those with a missing dependency
    being refused, always make a graph whose structure is accepted and in which every node is
    under its own identifier. *)
Theorem insertion_safe (listing : ProofDag -> list (ProofId * ProofNode))
    (Hl : forall d, Permutation (listing d) (map_to_list d)) (l : list ProofNode) (Hd : NoDup (map node_id l)) :
  verify_structure listing (inserted l) = Some true /\
  (forall id n, inserted l !! id = Some n -> node_id n = id /\ n ∈ l).
Proof.
  assert (H : (complete (inserted l) /\ ~ cyclic (inserted l)) /\
              (forall id n, inserted l !! id = Some n -> node_id n = id /\ n ∈ l)).
  { induction l as [|n l IH] using rev_ind.
    - split; [|by intros id n].
      assert (Hno : forall x y, ~ depends dag_new x y) by (by intros x y (n & Hx & _)).
      split; [by intros x y ?%Hno|]. intros [x Hx]. inversion Hx; subst; by eapply Hno.
    - rewrite map_app in Hd. apply NoDup_app in Hd as (Hd & Hn & _). destruct (IH Hd) as [[Hc Ha] Hin].
      unfold inserted. rewrite fold_left_app. cbn [fold_left]. fold (inserted l).
      assert (Hnew : inserted l !! node_id n = None).
      { destruct (inserted l !! node_id n) as [m|] eqn:E; [|done]. apply Hin in E as [E Hm].
        destruct (Hn (node_id n)); [|left]. rewrite <- E. apply list_elem_of_fmap. by exists m. }
      split.
      + destruct (fst (add_node n (inserted l))) eqn:E; [by apply add_new_acyclic|].
        unfold add_node in *. by destruct (forallb _ _).
      + intros id m Hm. split; [apply (add_node_keyed n (inserted l)); [by intros i k [? _]%Hin|exact Hm]|].
        unfold add_node in Hm. destruct (forallb _ _); cbn [snd] in Hm; [|apply Hin in Hm; set_solver].
        destruct (decide (node_id n = id)) as [E|E].
        * rewrite E, lookup_insert_eq in Hm. injection Hm as <-. set_solver.
        * rewrite lookup_insert_ne in Hm by done. apply Hin in Hm. set_solver. }
  destruct H as [[Hc Ha] Hin]. split; [|done].
  destruct (verify_structure_spec listing (inserted l) (Hl _)) as [-> Hs].
  destruct (verify_acyclic_spec listing (inserted l) (Hl _)) as [[-> _]|[_ Hn]]; [|done].
  by rewrite (proj2 Hs Hc).
Qed.

(** the order.  In a graph built by insertion, and however the maps are listed, the sort
    ends without an overflow.  It gives an order exactly when there is no cycle, every
    dependency is in the graph and no node lists one twice; and the order has each node once,
    after everything it depends on. *)
Theorem topological_sort_exact (listing : ProofDag -> list (ProofId * ProofNode))
    (degrees_listing : gmap ProofId nat -> list (ProofId * nat)) (d : ProofDag)
    (Hl : Permutation (listing d) (map_to_list d))
    (Hg : forall m, Permutation (degrees_listing m) (map_to_list m))
    (Hkeyed : forall id n, d !! id = Some n -> node_id n = id) :
  match topological_sort listing degrees_listing d with
  | Some (Some l) =>
      (~ cyclic d /\ complete d /\ forall x n, d !! x = Some n -> NoDup (dependencies n)) /\
      NoDup l /\ (forall x, x ∈ l <-> is_Some (d !! x)) /\
      (forall l1 x l2 y, l = l1 ++ x :: l2 -> depends d x y -> y ∈ l1)
  | Some None => ~ (~ cyclic d /\ complete d /\ forall x n, d !! x = Some n -> NoDup (dependencies n))
  | None => False
  end.
Proof.
  pose proof (kahn_start listing d Hl Hkeyed degrees_listing Hg) as K0.
  destruct (sort_loop_spec listing d Hl Hkeyed (S (size d)) _ _ _ K0 ltac:(cbn; lia)) as (deg & l & Hr & K).
  unfold topological_sort. rewrite Hr. destruct (decide (length l = size d)) as [Hlen|Hlen].
  - split; [by eapply kahn_end_sound|]. pose proof (k_nodup _ _ _ _ K) as Hn. rewrite app_nil_r in Hn.
    split; [done|]. split.
    + intros x. split; [|by eapply kahn_order]. intros Hx. apply (k_dom _ _ _ _ K). exists 0.
      apply (k_ready _ _ _ _ K). by rewrite app_nil_r.
    + intros l1 x l2 y E Hxy. by eapply (k_order _ _ _ _ K).
  - intros (Ha & Hc & Hdup). by apply Hlen, (kahn_end_complete d deg l K).
Qed.

(** the depth.  In a graph built by insertion and without a cycle, a recursion no deeper
    than the graph is large finds the depth: the length of the longest chain, each proof
    depending on the one before, from a proof that depends on nothing. *)
Theorem depth_exact (listing : ProofDag -> list (ProofId * ProofNode)) (d : ProofDag)
    (Hl : Permutation (listing d) (map_to_list d))
    (Hkeyed : forall id n, d !! id = Some n -> node_id n = id) (Ha : ~ cyclic d) :
  exists h, depth listing (size d) d = Some h /\
    (forall n k, n ∈ roots listing d -> path d (node_id n) k -> k <= h) /\
    ((h = 0 /\ roots listing d = []) \/ exists n, n ∈ roots listing d /\ path d (node_id n) h).
Proof.
  destruct (greatest_spec d (node_depth listing (size d) d) (roots listing d) ∅) as (h & memo & Hr & _ & H1 & H2).
  - intros n memo Hn Hm. unfold roots in Hn. apply list_elem_of_filter in Hn as [_ Hn].
    apply (values_node listing d Hl Hkeyed) in Hn. apply node_depth_spec; [done|done|done| |done].
    intros k. by apply path_bound.
  - intros x h. by rewrite lookup_empty.
  - exists h. unfold depth. rewrite Hr. by split.
Qed.

(** ** Witnesses *)

Definition demo_proofs : list ProofNode :=
  [demo_node Byte.x01 []; demo_node Byte.x02 [Byte.x01]; demo_node Byte.x03 [Byte.x01; Byte.x02]].

Lemma demo_keyed id n : inserted demo_proofs !! id = Some n -> node_id n = id.
Proof.
  intros H. assert (Hf : map_Forall (fun i m => node_id m = i) (inserted demo_proofs)).
  { repeat apply map_Forall_insert_2; try done. }
  by apply Hf.
Qed.

Lemma structure_exact_witness :
  exists b, verify_structure map_to_list (inserted demo_proofs) = Some b /\
            (b = true <-> ~ cyclic (inserted demo_proofs) /\ complete (inserted demo_proofs)).
Proof. exact (proj2 (structure_exact map_to_list (inserted demo_proofs) (Permutation_refl _))). Defined.

Lemma insertion_safe_witness : verify_structure map_to_list (inserted demo_proofs) = Some true.
Proof.
  apply (insertion_safe map_to_list (fun d => Permutation_refl _) demo_proofs).
  apply (bool_decide_unpack _). by vm_compute.
Defined.

Lemma topological_sort_exact_witness :
  match topological_sort map_to_list map_to_list (inserted demo_proofs) with
  | Some (Some l) => forall x, x ∈ l <-> is_Some (inserted demo_proofs !! x)
  | _ => False
  end.
Proof.
  pose proof (topological_sort_exact map_to_list map_to_list (inserted demo_proofs) (Permutation_refl _)
                (fun m => Permutation_refl _) demo_keyed) as H.
  assert (E : topological_sort map_to_list map_to_list (inserted demo_proofs)
              = Some (Some [fill32 Byte.x01; fill32 Byte.x02; fill32 Byte.x03])) by (apply (bool_decide_unpack _); by vm_compute).
  rewrite E in *. apply H.
Defined.

Lemma depth_exact_witness : exists h, depth map_to_list (size (inserted demo_proofs)) (inserted demo_proofs) = Some h /\ 3 <= h.
Proof.
  destruct (depth_exact map_to_list (inserted demo_proofs) (Permutation_refl _) demo_keyed) as (h & Hd & _ & _).
  - destruct (verify_acyclic_spec map_to_list (inserted demo_proofs) (Permutation_refl _)) as [[_ Ha]|[Hf _]]; [exact Ha|].
    assert (E : verify_acyclic map_to_list (inserted demo_proofs) = Some true) by (by vm_compute). congruence.
  - exists h. split; [exact Hd|]. assert (E : depth map_to_list (size (inserted demo_proofs)) (inserted demo_proofs) = Some 3)
      by (by vm_compute). rewrite E in Hd. injection Hd as <-. lia.
Defined.
