(* ===== verification/RuntimeParts.v ===== *)
(** * Parts of the runtime (csv-runtime/src/recovery.rs, queue.rs, backpressure.rs, config.rs,
    event_bus.rs, chain_discovery.rs, adapter_registry.rs)

    The checkpoint manager of the coordinator, its task queue and pressure, its configuration,
    the bus of its events, the discovery of chains from configuration files and the registry
    of their adapters.  Times are nanoseconds since the epoch; TOML is read by a parameter into
    the values its specification names, and a directory is listed in any order. *)

From S2P Require Import Prelude Ord Bytes Hashing Text TransferState.

(** ** Checkpoints (recovery.rs) *)

(** [CheckpointId::from_timestamp]: milliseconds, in 64 bits. *)
Definition CheckpointId := N.
Definition from_timestamp (now : N) : CheckpointId := (now / 1000000 mod 2 ^ 64)%N.

Record RecoveryCheckpoint := mkRecovery {
  rc_id : CheckpointId; rc_timestamp : N; rc_transfer_id : string; rc_stage : TransferStage;
  rc_data : bytes; committed : bool
}.
Record ReplayCheckpoint := mkReplay {
  rp_id : CheckpointId; rp_timestamp : N; consumed_replay_ids : list Hash; pending_replay_ids : list Hash;
  rp_data : bytes
}.
(** The clock is read twice. *)
Definition ReplayCheckpoint_new (t t' : N) (consumed pending : list Hash) (data : bytes) : ReplayCheckpoint :=
  mkReplay (from_timestamp t) t' consumed pending data.
Definition rp_is_consumed (id : Hash) (c : ReplayCheckpoint) : bool := bool_decide (id ∈ consumed_replay_ids c).
Definition rp_is_pending (id : Hash) (c : ReplayCheckpoint) : bool := bool_decide (id ∈ pending_replay_ids c).

Record VerificationResult := mkVerification { vr_component : string; vr_passed : bool; vr_error : option string; vr_timestamp : N }.
Record VerificationCheckpoint := mkVerificationCheckpoint {
  vc_id : CheckpointId; vc_timestamp : N; vc_transfer_id : string;
  verification_results : gmap string VerificationResult; vc_passed : bool; vc_data : bytes
}.
Definition VerificationCheckpoint_new (t t' : N) (transfer : string) (results : gmap string VerificationResult)
    (passed : bool) (data : bytes) : VerificationCheckpoint :=
  mkVerificationCheckpoint (from_timestamp t) t' transfer results passed data.
Definition get_result (component : string) (c : VerificationCheckpoint) : option VerificationResult :=
  verification_results c !! component.

Record CheckpointManager := mkManager {
  recovery_checkpoints : gmap string RecoveryCheckpoint;
  replay_checkpoints : gmap CheckpointId ReplayCheckpoint;
  verification_checkpoints : gmap string VerificationCheckpoint
}.
Definition manager_new : CheckpointManager := mkManager ∅ ∅ ∅.

Definition create_recovery_checkpoint (t t' : N) (transfer : string) (stage : TransferStage) (data : bytes)
    (m : CheckpointManager) : CheckpointId * CheckpointManager :=
  let c := mkRecovery (from_timestamp t) t' transfer stage data false in
  (rc_id c, mkManager (<[transfer := c]> (recovery_checkpoints m)) (replay_checkpoints m) (verification_checkpoints m)).
Definition commit_recovery_checkpoint (transfer : string) (m : CheckpointManager) : bool * CheckpointManager :=
  match recovery_checkpoints m !! transfer with
  | Some c =>
      (true, mkManager (<[transfer := mkRecovery (rc_id c) (rc_timestamp c) (rc_transfer_id c) (rc_stage c) (rc_data c) true]>
                          (recovery_checkpoints m)) (replay_checkpoints m) (verification_checkpoints m))
  | None => (false, m)
  end.
Definition get_recovery_checkpoint (transfer : string) (m : CheckpointManager) : option RecoveryCheckpoint :=
  recovery_checkpoints m !! transfer.
Definition create_replay_checkpoint (t t' : N) (consumed pending : list Hash) (data : bytes) (m : CheckpointManager)
  : CheckpointId * CheckpointManager :=
  let c := ReplayCheckpoint_new t t' consumed pending data in
  (rp_id c, mkManager (recovery_checkpoints m) (<[rp_id c := c]> (replay_checkpoints m)) (verification_checkpoints m)).
Definition get_replay_checkpoint (id : CheckpointId) (m : CheckpointManager) : option ReplayCheckpoint :=
  replay_checkpoints m !! id.
Definition create_verification_checkpoint (t t' : N) (transfer : string) (results : gmap string VerificationResult)
    (passed : bool) (data : bytes) (m : CheckpointManager) : CheckpointId * CheckpointManager :=
  let c := VerificationCheckpoint_new t t' transfer results passed data in
  (vc_id c, mkManager (recovery_checkpoints m) (replay_checkpoints m) (<[transfer := c]> (verification_checkpoints m))).
Definition get_verification_checkpoint (transfer : string) (m : CheckpointManager) : option VerificationCheckpoint :=
  verification_checkpoints m !! transfer.
Definition clear_transfer_checkpoints (transfer : string) (m : CheckpointManager) : CheckpointManager :=
  mkManager (delete transfer (recovery_checkpoints m)) (replay_checkpoints m) (delete transfer (verification_checkpoints m)).
Definition clear_all (m : CheckpointManager) : CheckpointManager := manager_new.

(** ** Queue and pressure *)

Inductive TaskQueueError := Full | Empty.
(** The vector of tasks; it is taken from its end. *)
Record TaskQueue (T : Type) := mkQueue { capacity : nat; items : list T }.
Arguments mkQueue {T}.
Arguments capacity {T}.
Arguments items {T}.
Definition queue_new {T} (n : nat) : TaskQueue T := mkQueue n [].
Definition push {T} (x : T) (q : TaskQueue T) : result TaskQueueError (TaskQueue T) :=
  reject (capacity q <=? length (items q)) with Full ;; Ok (mkQueue (capacity q) (items q ++ [x])).
Definition pop {T} (q : TaskQueue T) : result TaskQueueError (T * TaskQueue T) :=
  match rev (items q) with
  | x :: l => Ok (x, mkQueue (capacity q) (rev l))
  | [] => Err Empty
  end.
Definition queue_is_full {T} (q : TaskQueue T) : bool := capacity q <=? length (items q).

(** [BackpressureSink]'s methods over a depth and its maximum, machine words of 64 bits: [None]
    is the overflow of the product. *)
Definition usize_max : N := 2 ^ 64 - 1.
Definition is_under_pressure (depth max : N) : option bool :=
  if (max * 3 <=? usize_max)%N then Some (max * 3 / 4 <=? depth)%N else None.
Definition pressure_level (depth max : N) : option N :=
  if (max =? 0)%N then Some 0%N
  else if (depth * 100 <=? usize_max)%N then Some (depth * 100 / max mod 256)%N else None.

Inductive BackpressureMode := Reject | DropOldest | Block.
Definition mode_text (m : BackpressureMode) : string :=
  match m with Reject => "Reject" | DropOldest => "DropOldest" | Block => "Block" end.
Record AdmissionLimits := mkLimits { al_max_queue_depth : N; al_mode : BackpressureMode }.
Definition limits_default : AdmissionLimits := mkLimits 1000 Reject.

(** ** Configuration (config.rs) *)

Definition secs (n : N) : N := (n * 1000000000)%N.
Record RpcConfig := mkRpc { rpc_allow_fallback : bool; max_concurrent_connections : N; connection_timeout : N; request_timeout : N }.
(** The multiplier in tenths. *)
Record RetryConfig := mkRetry { cfg_max_retries : N; initial_delay : N; max_delay : N; backoff_tenths : N }.
Record TimeoutConfig := mkTimeout { lock_timeout : N; mint_timeout : N; verification_timeout : N }.
Record LeaseConfig := mkLease { default_duration : N; max_duration : N; renewal_threshold : N }.
Record CircuitBreakerConfig := mkBreaker { failure_threshold : N; open_timeout : N; success_threshold : N }.
(** It has the fields of [AdmissionLimits]. *)
Definition BackpressureConfig : Type := AdmissionLimits.
Record OperationalConfig := mkConfig {
  cfg_rpc : RpcConfig; cfg_retry : RetryConfig; cfg_timeout : TimeoutConfig; cfg_lease : LeaseConfig;
  cfg_breaker : CircuitBreakerConfig; cfg_backpressure : BackpressureConfig
}.
Definition production : OperationalConfig :=
  mkConfig (mkRpc false 10 (secs 30) (secs 60)) (mkRetry 3 (secs 5) (secs 60) 20)
    (mkTimeout (secs 300) (secs 300) (secs 120)) (mkLease (secs 3600) (secs 86400) (secs 300))
    (mkBreaker 5 (secs 60) 2) (mkLimits 1000 Reject).
Definition development : OperationalConfig :=
  mkConfig (mkRpc true 5 (secs 10) (secs 30)) (mkRetry 5 (secs 1) (secs 30) 15)
    (mkTimeout (secs 120) (secs 120) (secs 60)) (mkLease (secs 1800) (secs 7200) (secs 300))
    (mkBreaker 10 (secs 30) 1) (mkLimits 500 DropOldest).

Inductive ConfigValidationError :=
| InvalidLeaseDuration (m : string) | InvalidRetryConfig (m : string) | InvalidCircuitBreakerConfig (m : string)
| InvalidTimeoutConfig (m : string).
Definition config_message (e : ConfigValidationError) : string :=
  match e with
  | InvalidLeaseDuration m => "Invalid lease duration: " +:+ m
  | InvalidRetryConfig m => "Invalid retry config: " +:+ m
  | InvalidCircuitBreakerConfig m => "Invalid circuit breaker config: " +:+ m
  | InvalidTimeoutConfig m => "Invalid timeout config: " +:+ m
  end.
Definition config_validate (c : OperationalConfig) : result ConfigValidationError unit :=
  reject (max_duration (cfg_lease c) <? default_duration (cfg_lease c))%N
    with InvalidLeaseDuration "Default lease duration cannot exceed max duration" ;;
  reject (cfg_max_retries (cfg_retry c) =? 0)%N with InvalidRetryConfig "Max retries must be at least 1" ;;
  reject (failure_threshold (cfg_breaker c) =? 0)%N
    with InvalidCircuitBreakerConfig "Failure threshold must be at least 1" ;;
  Ok tt.

(** ** Events (event_bus.rs) *)

(** A bus over the events [E]; what a subscriber does with one is a step of the world [W]. *)
Definition EventBus (E W : Type) : Type := list (E -> W -> W).
Definition bus_new {E W} : EventBus E W := [].
Definition subscribe {E W} (s : E -> W -> W) (b : EventBus E W) : EventBus E W := b ++ [s].
Definition emit {E W} (e : E) (b : EventBus E W) (w : W) : W := fold_left (fun w s => s e w) b w.

(** ** Discovery of chains (chain_discovery.rs) *)

(** The values of TOML; dates and floats are only told apart from the rest. *)
Inductive Toml :=
| TString (s : string) | TInteger (z : Z) | TFloat | TBoolean (b : bool) | TDatetime
| TArray (l : list Toml) | TTable (m : list (string * Toml)).
Definition toml_get (key : string) (v : Toml) : option Toml :=
  match v with TTable m => snd <$> find (fun p => bool_decide (fst p = key)) m | _ => None end.
Definition as_str (v : Toml) : option string := match v with TString s => Some s | _ => None end.
Definition as_array (v : Toml) : option (list Toml) := match v with TArray l => Some l | _ => None end.
Definition as_integer (v : Toml) : option Z := match v with TInteger z => Some z | _ => None end.
Definition as_bool (v : Toml) : option bool := match v with TBoolean b => Some b | _ => None end.

(** [value.get(key).and_then(read)] *)
Definition member {A} (key : string) (read : Toml -> option A) (v : Toml) : option A :=
  match toml_get key v with Some x => read x | None => None end.

Inductive ChainDiscoveryError := LockPoisoned (m : string) | Io (m : string) | TomlParse (m : string).
Record ChainConfig := mkChain {
  cc_id : string; cc_name : string; cc_network : string; rpc_urls : list string;
  block_explorer_urls : list string; start_block : N; contract_address : option string; enabled : bool
}.

Definition readable (endpoint : Toml) : bool :=
  match member "capabilities" as_array endpoint with
  | Some l => existsb (fun c => bool_decide (as_str c = Some "read"%string)) l
  | None => false
  end.
Definition endpoint_urls (v : Toml) : list string :=
  match member "rpc_policy" (member "endpoints" as_array) v with
  | Some l => omap (M := list) (fun e => member "url" as_str e) (filter (fun e => readable e = true) l)
  | None => []
  end.
Definition contract_of (v : Toml) : option string :=
  match member "contract_address" as_str v with
  | Some a => Some a
  | None => match toml_get "custom_settings" v with
            | Some (TTable m) => member "contract_address" as_str (TTable m)
            | _ => None
            end
  end.
(** [load_from_toml], from the text of the file; [as u64] wraps. *)
Definition config_of (toml : string -> result string Toml) (content : string) : result ChainDiscoveryError ChainConfig :=
  v ← map_err TomlParse (toml content);
  id ← ok_or (TomlParse "Missing chain_id") (member "chain_id" as_str v);
  Ok (mkChain id (default id (member "chain_name" as_str v))
        (default "mainnet"%string (member "default_network" as_str v))
        (endpoint_urls v)
        (match member "block_explorer_urls" as_array v with Some l => omap (M := list) as_str l | None => [] end)
        (Z.to_N (default 0%Z (member "start_block" as_integer v) mod 2 ^ 64))
        (contract_of v)
        (default true (member "enabled" as_bool v))).

Notation ChainConfigs := (gmap string ChainConfig).

Section Discovery.
(** [str::to_lowercase], which [ChainId::new] applies. *)
Variable lowercase : string -> string.
Variable toml : string -> result string Toml.
Definition register_chain (c : ChainConfig) (m : ChainConfigs) : ChainConfigs := <[lowercase (cc_id c) := c]> m.
Definition get_config (chain : string) (m : ChainConfigs) : option ChainConfig := m !! chain.
Definition get_rpc_url (chain : string) (m : ChainConfigs) : option string :=
  match m !! chain with Some c => head (rpc_urls c) | None => None end.
Definition is_chain_enabled (chain : string) (m : ChainConfigs) : bool :=
  match m !! chain with Some c => enabled c | None => false end.
Definition enabled_chains (m : ChainConfigs) : list string :=
  map fst (filter (fun p => enabled (snd p) = true) (map_to_list m)).

(** An entry of a directory: its extension, and its text when it can be read. *)
Record Entry := mkEntry { extension : option string; text : result string string }.
Fixpoint load_entries (l : list (result string Entry)) (count : nat) (m : ChainConfigs)
  : result ChainDiscoveryError nat * ChainConfigs :=
  match l with
  | [] => (Ok count, m)
  | Err e :: _ => (Err (Io e), m)
  | Ok e :: l' =>
      if decide (extension e = Some "toml"%string) then
        match t ← map_err Io (text e); config_of toml t with
        | Ok c => load_entries l' (S count) (register_chain c m)
        | Err _ => load_entries l' count m
        end
      else load_entries l' count m
  end.
(** [load_from_directory]; [None] is a directory that does not exist. *)
Definition load_from_directory (name : string) (dir : option (list (result string Entry))) (m : ChainConfigs)
  : result ChainDiscoveryError nat * ChainConfigs :=
  match dir with
  | None => (Err (Io ("Chains directory '" +:+ name +:+ "' does not exist")), m)
  | Some l => load_entries l 0 m
  end.
End Discovery.

(** ** The registry of adapters (adapter_registry.rs) *)

(** The chain adapters [A] by the identifier each gives itself. *)
Notation Adapters A := (gmap string A).
Definition register_adapter {A} (chain_id : A -> string) (a : A) (r : Adapters A) : Adapters A :=
  <[chain_id a := a]> r.
Definition adapter {A E} (missing : string -> E) (chain : string) (r : Adapters A) : result E A :=
  ok_or (missing ("Adapter not found for chain: " +:+ chain)) (r !! chain).
(** Every port of the registry: it finds the adapter and calls it. *)
Definition dispatch {A E R} (missing : string -> E) (call : A -> result E R) (chain : string) (r : Adapters A)
  : result E R := a ← adapter missing chain r; call a.
Definition registry_capabilities {A C} (capabilities : A -> C) (chain : string) (r : Adapters A) : option C :=
  capabilities <$> r !! chain.
(** [shared_snapshot]: the handles are shared, the table is not. *)
Definition shared_snapshot {A} (r : Adapters A) : Adapters A := r.

(** ** Lemmas *)

Lemma pop_push {T} (x : T) q q' : push x q = Ok q' -> pop q' = Ok (x, q).
Proof.
  unfold push. rewrite guard_err_ok. intros [_ [= <-]]. unfold pop. cbn [items capacity].
  rewrite rev_app_distr. cbn. rewrite rev_involutive. by destruct q.
Qed.

Lemma pop_items {T} (q : TaskQueue T) x q' :
  pop q = Ok (x, q') <-> items q = items q' ++ [x] /\ capacity q' = capacity q.
Proof.
  unfold pop. destruct (rev (items q)) as [|y l] eqn:E.
  - split; [done|]. intros [Hq _]. rewrite Hq, rev_app_distr in E. done.
  - apply (f_equal (@rev T)) in E. rewrite rev_involutive in E. cbn in E. split.
    + by intros [= -> <-].
    + intros [Hq Hc]. rewrite E in Hq. apply app_inj_tail in Hq as [Hq ->]. rewrite Hq, <- Hc. by destruct q'.
Qed.

(** ** What the parts leave open *)

(** The queue serves its latest task first. *)
Lemma queue_serves_latest :
  (q ← push 1 (queue_new 3); q ← push 2 q; '(x, _) ← pop q; Ok x) = Ok 2.
Proof. done. Qed.

(** Two and a half times as full as it may be, the pressure is four per cent more than full. *)
Lemma pressure_wraps : pressure_level 260 100 = Some 4%N /\ is_under_pressure 0 1 = Some true.
Proof. done. Qed.

(** Two replay checkpoints of one millisecond are one. *)
Lemma checkpoints_collide :
  let m := snd (create_replay_checkpoint 1000000 1000000 [fill32 Byte.x01] [] [] manager_new) in
  let '(id, m) := create_replay_checkpoint 1999999 1999999 [] [] [] m in
  (id, size (replay_checkpoints m), rp_is_consumed (fill32 Byte.x01) <$> get_replay_checkpoint id m)
  = (1%N, 1, Some false).
Proof. by vm_compute. Qed.

(** A configured block before the first becomes one of the last. *)
Lemma negative_start_block toml content :
  toml content = Ok (TTable [("chain_id"%string, TString "x"); ("start_block"%string, TInteger (-1))]) ->
  start_block <$> match config_of toml content with Ok c => Some c | Err _ => None end = Some (2 ^ 64 - 1)%N.
Proof. intros H. unfold config_of. by rewrite H. Qed.

(** A chain registered by a name with capitals is not found under it. *)
Lemma capitals_not_found lowercase c m chain :
  lowercase (cc_id c) = lowercase chain -> lowercase chain <> chain -> m !! chain = None ->
  get_config chain (register_chain lowercase c m) = None.
Proof. intros E Hne H. unfold get_config, register_chain. rewrite E. by rewrite lookup_insert_ne. Qed.

(** ** Theorems *)

(** Calls of the manager. *)
Inductive manager_op :=
| CreateRecovery (t t' : N) (transfer : string) (stage : TransferStage) (data : bytes) | Commit (transfer : string)
| CreateReplay (t t' : N) (consumed pending : list Hash) (data : bytes)
| CreateVerification (t t' : N) (transfer : string) (results : gmap string VerificationResult) (passed : bool) (data : bytes)
| ClearTransfer (transfer : string) | ClearAll.
Definition manager_step (m : CheckpointManager) (o : manager_op) : CheckpointManager :=
  match o with
  | CreateRecovery t t' tr st d => snd (create_recovery_checkpoint t t' tr st d m)
  | Commit tr => snd (commit_recovery_checkpoint tr m)
  | CreateReplay t t' c p d => snd (create_replay_checkpoint t t' c p d m)
  | CreateVerification t t' tr r p d => snd (create_verification_checkpoint t t' tr r p d m)
  | ClearTransfer tr => clear_transfer_checkpoints tr m
  | ClearAll => clear_all m
  end.
(** What the calls say last of a transfer. *)
Definition recovery_step (transfer : string) (c : option RecoveryCheckpoint) (o : manager_op) : option RecoveryCheckpoint :=
  match o with
  | CreateRecovery t t' tr st d =>
      if decide (tr = transfer) then Some (mkRecovery (from_timestamp t) t' tr st d false) else c
  | Commit tr =>
      if decide (tr = transfer)
      then (fun c => mkRecovery (rc_id c) (rc_timestamp c) (rc_transfer_id c) (rc_stage c) (rc_data c) true) <$> c else c
  | ClearTransfer tr => if decide (tr = transfer) then None else c
  | ClearAll => None
  | _ => c
  end.

(** checkpoints.  After any calls of the manager, the recovery checkpoint of a transfer is
    the one created last since the transfer was cleared, under the transfer's name, and it is
    committed exactly when a commit came after it; other transfers do not touch it. *)
Theorem recovery_checkpoint_exact (ops : list manager_op) (transfer : string) :
  get_recovery_checkpoint transfer (fold_left manager_step ops manager_new)
  = fold_left (recovery_step transfer) ops None.
Proof.
  unfold get_recovery_checkpoint. induction ops as [|o ops IH] using rev_ind; [done|].
  rewrite !fold_left_app. cbn [fold_left]. rewrite <- IH. clear IH. generalize (fold_left manager_step ops manager_new).
  intros m. destruct o as [t t' tr st d|tr|t t' c p d|t t' tr r p d|tr|]; cbn; [| |done|done| |done].
  - case_decide as E; [subst tr; by rewrite lookup_insert_eq|by rewrite lookup_insert_ne].
  - unfold commit_recovery_checkpoint. destruct (recovery_checkpoints m !! tr) as [c|] eqn:Hc; cbn.
    + case_decide as E; [subst tr; by rewrite lookup_insert_eq, Hc|by rewrite lookup_insert_ne].
    + case_decide as E; [subst tr; by rewrite Hc|done].
  - case_decide as E; [subst tr; by rewrite lookup_delete_eq|by rewrite lookup_delete_ne].
Qed.

(** Calls of the queue; a refused one leaves it as it was. *)
Definition queue_step {T} (q : TaskQueue T) (o : option T) : TaskQueue T :=
  match o with
  | Some x => match push x q with Ok q' => q' | Err _ => q end
  | None => match pop q with Ok (_, q') => q' | Err _ => q end
  end.

(** the task queue.  Through any calls it holds no more than its capacity; a task is
    refused exactly when it is full, and what is pushed is what is taken next, leaving the
    queue as it was. *)
Theorem task_queue_exact {T : Type} (n : nat) (ops : list (option T)) (x : T) :
  let q := fold_left queue_step ops (queue_new n) in
  length (items q) <= n /\
  match push x q with
  | Ok q' => queue_is_full q = false /\ pop q' = Ok (x, q)
  | Err e => queue_is_full q = true /\ e = Full
  end.
Proof.
  intros q. assert (H : length (items q) <= capacity q /\ capacity q = n).
  { unfold q. clear q. induction ops as [|o ops IH] using rev_ind; [cbn; split; [lia|done]|].
    rewrite fold_left_app. cbn [fold_left]. revert IH. generalize (fold_left queue_step ops (queue_new n)).
    intros q [IH Hn]. destruct o as [y|]; cbn [queue_step].
    - destruct (push y q) as [q'|] eqn:E; [|done]. unfold push in E. apply guard_err_ok in E as [Hlt%Nat.leb_gt [= <-]].
      cbn. rewrite length_app. cbn. split; [lia|done].
    - destruct (pop q) as [[y q']|] eqn:E; [|done]. apply pop_items in E as [E Hc]. rewrite E, length_app in IH.
      cbn in IH. rewrite Hc. split; [lia|done]. }
  destruct H as [Hlen Hcap]. split; [lia|]. destruct (push x q) as [q'|e] eqn:E.
  - split; [|by apply pop_push]. unfold push in E. by apply guard_err_ok in E as [E _].
  - unfold push in E. unfold queue_is_full. revert E.
    destruct (capacity q <=? length (items q)); [by intros [= <-]|done].
Qed.

(** configurations.  A configuration is accepted exactly when the usual lease is no longer
    than the longest, something is retried and the breaker has a threshold; both presets are. *)
Theorem config_validate_exact (c : OperationalConfig) :
  (config_validate c = Ok tt <->
   (default_duration (cfg_lease c) <= max_duration (cfg_lease c))%N /\ cfg_max_retries (cfg_retry c) <> 0%N /\
   failure_threshold (cfg_breaker c) <> 0%N) /\
  config_validate production = Ok tt /\ config_validate development = Ok tt.
Proof.
  split; [|done]. unfold config_validate. rewrite !guard_err_ok, N.ltb_ge, !N.eqb_neq. tauto.
Qed.

(** discovery.  What a directory that can be listed leaves is what registering, in order,
    the configurations of its readable TOML files leaves, and their number; a file that does
    not parse is passed over. *)
Theorem discovery_exact (lowercase : string -> string) (toml : string -> result string Toml)
    (l : list Entry) (name : string) (m : ChainConfigs) :
  let parsed := omap (fun e => if decide (extension e = Some "toml"%string)
                               then match t ← map_err Io (text e); config_of toml t with Ok c => Some c | Err _ => None end
                               else None) l in
  load_from_directory lowercase toml name (Some (map Ok l)) m
  = (Ok (length parsed), fold_left (fun m c => register_chain lowercase c m) parsed m).
Proof.
  unfold load_from_directory. cbn zeta.
  match goal with |- context [omap ?f l] => set (parse := f) end.
  replace (length (omap parse l)) with (0 + length (omap parse l)) by done. generalize 0 as k. revert m.
  induction l as [|e l IH]; intros m k; [by rewrite Nat.add_0_r|].
  replace (omap parse (e :: l)) with (match parse e with Some c => c :: omap parse l | None => omap parse l end)
    by (cbn; by destruct (parse e)).
  cbn [map load_entries].
  assert (E : parse e = if decide (extension e = Some "toml"%string)
                        then match t ← map_err Io (text e); config_of toml t with Ok c => Some c | Err _ => None end
                        else None) by done.
  rewrite E. case_decide; [|apply IH]. destruct (_ ≫= _) as [c|]; [|apply IH].
  rewrite IH. cbn [length fold_left]. by rewrite Nat.add_succ_r.
Qed.

(** dispatch.  After any registrations, a call for a chain is answered by the adapter
    registered last under that chain's identifier, and refused when there is none. *)
Theorem dispatch_exact {A E R : Type} (chain_id : A -> string) (missing : string -> E) (call : A -> result E R)
    (l : list A) (chain : string) :
  dispatch missing call chain (fold_left (fun r a => register_adapter chain_id a r) l ∅)
  = match find (fun a => bool_decide (chain_id a = chain)) (rev l) with
    | Some a => call a
    | None => Err (missing ("Adapter not found for chain: " +:+ chain))
    end.
Proof.
  unfold dispatch, adapter. induction l as [|a l IH] using rev_ind.
  - cbn. by rewrite lookup_empty.
  - rewrite fold_left_app, rev_app_distr. cbn [fold_left rev app find]. unfold register_adapter at 1.
    case_bool_decide as E'.
    + rewrite E', lookup_insert_eq. done.
    + rewrite lookup_insert_ne by done. apply IH.
Qed.
