(* ===== verification/Wallet.v ===== *)
(** * Keys and wallets (csv-keys: bip44.rs, keystore.rs, file_keystore.rs; csv-wallet: format.rs,
    seal_custody.rs, keystore.rs, wallet.rs, signer.rs)

    Keys derived from a seed along a path, with their addresses; the encrypted key file and
    the directory that holds key files, with its session; the portable wallet file; and the
    wallet, its signers and the seals it has in custody.  Key derivation functions, ciphers,
    hashes and curves are parameters, with the laws of an authenticated cipher where something
    is opened again; CBOR and JSON are parameters.  The clock and what the operating system's
    generator draws are arguments; poisoned locks and disks that fail are left out. *)

From S2P Require Import Prelude Bytes Text Hashing Seal ProofTaxonomy Sanad.

(** ** Derivation (csv-keys/src/bip44.rs) *)

Definition HARDENED : N := 2147483648.

Record DerivationPath := mkPath {
  purpose : N; path_coin_type : N; path_account : N; path_change : N; address_index : N }.
Global Instance DerivationPath_eq_dec : EqDecision DerivationPath.
Proof. solve_decision. Defined.

Definition new_bip44 (coin_type account change address_index : N) : DerivationPath :=
  mkPath (N.lor 44 HARDENED) (N.lor coin_type HARDENED) (N.lor account HARDENED) change address_index.
Definition new_bip86 (account address_index : N) : DerivationPath :=
  mkPath (N.lor 86 HARDENED) (N.lor 1 HARDENED) (N.lor account HARDENED) 0 address_index.

(** [x & 0x7FFF_FFFF] *)
Definition soft (n : N) : N := N.land n 2147483647.
Definition slash (n : N) : string := "/" +:+ pretty n.

Definition to_string_path (p : DerivationPath) : string :=
  "m" +:+ slash (soft (purpose p)) +:+ "'/" +:+ (if (HARDENED <=? path_coin_type p)%N then "" else "not") +:+
  pretty (soft (path_coin_type p)) +:+ "'" +:+ slash (soft (path_account p)) +:+ "'" +:+
  slash (path_change p) +:+ slash (address_index p).

(** [coin_type], of the name of a [ChainId] *)
Definition coin_type (chain : string) : N :=
  if bool_decide (chain = "bitcoin"%string) then 0
  else if bool_decide (chain = "ethereum"%string) then 60
  else if bool_decide (chain = "sui"%string) then 784
  else if bool_decide (chain = "aptos"%string) then 637
  else if bool_decide (chain = "solana"%string) then 501 else 0.

Definition derivation_path (chain : string) (account address_index : N) : DerivationPath :=
  if bool_decide (chain = "bitcoin"%string) then new_bip86 account address_index
  else new_bip44 (coin_type chain) account 0 address_index.

(** The path a secp256k1 key is derived on. *)
Definition secp_path (p : DerivationPath) : string :=
  if (soft (purpose p) =? 86)%N
  then "m" +:+ slash (soft (purpose p)) +:+ "'" +:+ slash (soft (path_coin_type p)) +:+ "'" +:+
       slash (soft (path_account p)) +:+ "'" +:+ slash (path_change p) +:+ slash (address_index p)
  else "m" +:+ slash (soft (purpose p)) +:+ slash (soft (path_coin_type p)) +:+
       slash (soft (path_account p)) +:+ slash (path_change p) +:+ slash (address_index p).

(** The crates of key derivation: the bip32 key of a seed at a path, HMAC-SHA512 (64 bytes),
    the public key of a secret on each curve, and the compressed form of a point. *)
Record DeriveCrates := mkDeriveCrates {
  bip32 : bytes -> string -> result Bip44Error Bytes32;
  hmac_sha512 : bytes -> bytes -> bytes;
  secp_public : bytes -> result string bytes;   (* SecretKey::from_slice, then its point *)
  compress : bytes -> bytes;                    (* PublicKey::serialize *)
  ed_public : bytes -> bytes                    (* VerifyingKey of SigningKey::from_bytes *)
}.

Section Derivation.
Variable (d : DeriveCrates) (k : KeyCrates).

(** [derive_ed25519_child]: one turn per level of the path *)
Definition ed25519_levels (p : DerivationPath) : list (N * bool) :=
  [(purpose p, true); (path_coin_type p, true); (path_account p, true); (path_change p, false);
   (address_index p, false)].
Definition ed25519_step (current : bytes) (level : N * bool) : bytes :=
  take 32 (hmac_sha512 d current
    ((if level.2 then [Byte.x00] else []) ++ current ++ u32_be level.1)).
Definition derive_ed25519_child (master_key : bytes) (p : DerivationPath) : bytes :=
  fold_left ed25519_step (ed25519_levels p) master_key.

(** [key[0] &= 248; key[31] &= 127; key[31] |= 64] *)
Definition on_byte (f : N -> N) (b : byte) : byte := byte_of (f (Byte.to_N b)).
Definition clamp (key : bytes) : bytes :=
  alter (on_byte (fun n => N.lor (N.land n 127) 64)) 31 (alter (on_byte (fun n => N.land n 248)) 0 key).

Definition derive_ed25519 (seed : bytes) (p : DerivationPath) : bytes :=
  clamp (derive_ed25519_child (take 32 (hmac_sha512 d (as_bytes "ed25519 seed") seed)) p).

(** [derive_secp256k1] *)
Definition derive_secp256k1 (seed : bytes) (p : DerivationPath) : result Bip44Error bytes :=
  key ← bip32 d seed (secp_path p); Ok (b32 key).

Definition on_secp (chain : string) : bool :=
  bool_decide (chain = "bitcoin"%string) || bool_decide (chain = "ethereum"%string).
Definition derive_key_from_path (seed : bytes) (p : DerivationPath) (chain : string)
  : result Bip44Error bytes :=
  if on_secp chain then derive_secp256k1 seed p else Ok (derive_ed25519 seed p).
Definition derive_key (seed : bytes) (chain : string) (account address_index : N)
  : result Bip44Error bytes :=
  derive_key_from_path seed (derivation_path chain account address_index) chain.

Definition five_chains : list string := ["bitcoin"; "ethereum"; "sui"; "aptos"; "solana"]%string.
Definition derive_key_from_name (seed : bytes) (chain_name : string) (account address_index : N)
  : result Bip44Error bytes :=
  if bool_decide (chain_name ∈ five_chains) then derive_key seed chain_name account address_index
  else Err (InvalidPath ("Unknown chain: " +:+ chain_name)).

(** [generate_addresses]: the loop stops at the first failure; the index is cast to [u32]. *)
Fixpoint generate_from (seed : bytes) (chain : string) (account : N) (i : N) (count : nat)
  : result Bip44Error (list bytes) :=
  match count with
  | O => Ok []
  | S n => key ← derive_key seed chain account (wrap32 i);
           keys ← generate_from seed chain account (i + 1)%N n; Ok (key :: keys)
  end.
Definition generate_addresses (seed : bytes) (chain : string) (account : N) (count : nat)
  : result Bip44Error (list bytes) := generate_from seed chain account 0 count.

Definition derive_all_chain_keys (seed : bytes) (account : N) : gmap string bytes :=
  fold_left (fun keys chain =>
    match derive_key_from_name seed chain account 0 with Ok key => <[chain := key]> keys | Err _ => keys end)
    five_chains ∅.

(** [derive_*_address_from_key] *)
Definition secp_key (key : bytes) : result Bip44Error bytes :=
  map_err (fun e => DerivationFailed ("Invalid secp256k1 key: " +:+ e)) (secp_public d key).
Definition derive_bitcoin_address_from_key (key : bytes) (network : Network) : result Bip44Error string :=
  pk ← secp_key key; Ok (p2tr k pk (match network with Mainnet => true | _ => false end)).
Definition derive_ethereum_address_from_key (key : bytes) : result Bip44Error string :=
  pk ← secp_key key; Ok (hex_address (drop 12 (b32 (ka_keccak256 k (drop 1 (uncompressed k pk)))))).
Definition derive_sui_address_from_key (key : bytes) : string :=
  hex_address (b32 (ka_blake2b k (Byte.x00 :: ed_public d key))).
Definition derive_aptos_address_from_key (key : bytes) : string :=
  hex_address (b32 (ka_sha3_256 k (ed_public d key ++ [Byte.x00]))).
Definition derive_solana_address_from_key (key : bytes) : string := bs58 k (ed_public d key).

Definition derive_address_from_key_with_network (key : bytes) (chain : string) (network : Network)
  : result Bip44Error string :=
  reject negb (length key =? 32) with InvalidSeedLength (length key) ;;
  if bool_decide (chain = "bitcoin"%string) then derive_bitcoin_address_from_key key network
  else if bool_decide (chain = "ethereum"%string) then derive_ethereum_address_from_key key
  else if bool_decide (chain = "sui"%string) then Ok (derive_sui_address_from_key key)
  else if bool_decide (chain = "aptos"%string) then Ok (derive_aptos_address_from_key key)
  else if bool_decide (chain = "solana"%string) then Ok (derive_solana_address_from_key key)
  else Err (UnsupportedChain chain).
Definition derive_address_from_key (key : bytes) (chain : string) : result Bip44Error string :=
  derive_address_from_key_with_network key chain Testnet.
Definition derive_address_from_chain_id_with_network (key : bytes) (chain : string) (network : Network)
  : result Bip44Error string :=
  reject negb (bool_decide (chain ∈ five_chains)) with UnsupportedChain chain ;;
  derive_address_from_key_with_network key chain network.

(** The public key a signer of the chain publishes. *)
Definition public_key_bytes (key : bytes) (chain : string) : result string bytes :=
  if on_secp chain then compress d <$> secp_public d key else Ok (ed_public d key).
End Derivation.

(** ** The portable wallet file (csv-wallet/src/format.rs) *)

Definition MAGIC : bytes := as_bytes "CSVW".
Definition FORMAT_VERSION : N := 1.
Definition PAYLOAD_SCHEMA_VERSION : N := 1.
Definition SALT_LEN : nat := 32.
Definition NONCE_LEN : nat := 12.
Definition KEY_LEN : N := 32.
Definition TAG_LEN : N := 16.
Definition MAX_ENVELOPE_BYTES : N := 8 * 1024 * 1024.
Definition MAX_PLAINTEXT_BYTES : N := 4 * 1024 * 1024.
Definition MIN_MEMORY_KIB : N := 32 * 1024.
Definition MAX_MEMORY_KIB : N := 1024 * 1024.
Definition MIN_ITERATIONS : N := 1.
Definition MAX_ITERATIONS : N := 16.
Definition MIN_PARALLELISM : N := 1.
Definition MAX_PARALLELISM : N := 16.

Inductive FormatError :=
| EnvelopeTooLarge (n : N) | PayloadTooLarge | MalformedEnvelope | UnknownVersion (v : N)
| UnsupportedKdf | UnsupportedCipher | KdfParamsOutOfBounds | InvalidCryptoLengths
| KeyDerivation | Decryption | NoncanonicalPayload | Encoding.

(** Enumerations of one constructor so far: the checks against it are written out. *)
Inductive KdfId := Argon2id.
Inductive CipherId := Aes256Gcm.
Global Instance KdfId_eq_dec : EqDecision KdfId. Proof. solve_decision. Defined.
Global Instance CipherId_eq_dec : EqDecision CipherId. Proof. solve_decision. Defined.

Record KdfParams := mkKdf {
  kdf_algorithm : KdfId; memory_kib : N; iterations : N; parallelism : N; output_len : N }.
Definition DEFAULT_KDF : KdfParams := mkKdf Argon2id (64 * 1024) 3 4 KEY_LEN.

Definition kdf_validate (p : KdfParams) : result FormatError unit :=
  reject negb (bool_decide (kdf_algorithm p = Argon2id)) with UnsupportedKdf ;;
  reject negb (output_len p =? KEY_LEN)%N with KdfParamsOutOfBounds ;;
  let in_range :=
    (MIN_MEMORY_KIB <=? memory_kib p)%N && (memory_kib p <=? MAX_MEMORY_KIB)%N &&
    (MIN_ITERATIONS <=? iterations p)%N && (iterations p <=? MAX_ITERATIONS)%N &&
    (MIN_PARALLELISM <=? parallelism p)%N && (parallelism p <=? MAX_PARALLELISM)%N in
  reject negb in_range with KdfParamsOutOfBounds ;; Ok tt.

Record WalletHeader := mkHeader {
  magic : bytes; format_version : N; header_kdf : KdfParams; header_cipher : CipherId;
  header_salt : bytes; header_nonce : bytes }.
Record WalletEnvelope := mkWalletEnvelope { header : WalletHeader; envelope_ciphertext : bytes }.

Inductive KeySourceKind := Mnemonic | Seed | PrivateKey.
Record KeySource := mkSource { source_id : string; source_kind : KeySourceKind; source_secret : bytes }.
Record DerivationProfile := mkProfile { profile_source : string; profile_path : string; profile_name : string }.
Record KnownAccount := mkAccount { account_chain : string; account_address : string; account_label : string }.
Record WalletPayload := mkPayload {
  schema_version : N; key_sources : list KeySource; derivation_profiles : list DerivationProfile;
  accounts : list KnownAccount; labels : gmap string string }.
Definition payload_new : WalletPayload := mkPayload PAYLOAD_SCHEMA_VERSION [] [] [] ∅.

(** The crates: Argon2id over the accepted parameters, AES-256-GCM with associated data, and
    canonical CBOR of the three types. *)
Record WalletCrates := mkWalletCrates {
  argon_params : N -> N -> N -> bool;
  argon2 : N -> N -> N -> bytes -> bytes -> option Bytes32;
  gcm_seal : bytes -> bytes -> bytes -> bytes -> option bytes;
  gcm_open : bytes -> bytes -> bytes -> bytes -> option bytes
}.
Record WalletCbor := mkWalletCbor {
  header_cbor : WalletHeader -> option bytes;
  payload_cbor : WalletPayload -> option bytes; payload_of_cbor : bytes -> option WalletPayload;
  envelope_cbor : WalletEnvelope -> option bytes; envelope_of_cbor : bytes -> option WalletEnvelope
}.
Class WalletLaws (w : WalletCrates) (c : WalletCbor) : Prop := {
  gcm_roundtrip k n m a x : gcm_seal w k n m a = Some x -> gcm_open w k n x a = Some m;
  gcm_length k n m a x : gcm_seal w k n m a = Some x -> blen x = (blen m + TAG_LEN)%N;
  payload_roundtrip p b : payload_cbor c p = Some b -> payload_of_cbor c b = Some p;
  envelope_roundtrip e b : envelope_cbor c e = Some b -> envelope_of_cbor c b = Some e
}.

Section Portable.
Variable (w : WalletCrates) (c : WalletCbor).

Definition wallet_derive_key (passphrase : string) (p : KdfParams) (salt : bytes) : result FormatError bytes :=
  _ ← kdf_validate p;
  reject negb (length salt =? SALT_LEN) with InvalidCryptoLengths ;;
  reject negb (argon_params w (memory_kib p) (iterations p) (parallelism p)) with KdfParamsOutOfBounds ;;
  key ← ok_or KeyDerivation
    (argon2 w (memory_kib p) (iterations p) (parallelism p) (as_bytes passphrase) salt);
  Ok (b32 key).

(** [seal] *)
Definition wallet_seal (payload : WalletPayload) (passphrase : string) (kdf : KdfParams) (salt nonce : bytes)
  : result FormatError bytes :=
  reject negb (length salt =? SALT_LEN) || negb (length nonce =? NONCE_LEN) with InvalidCryptoLengths ;;
  plaintext ← ok_or Encoding (payload_cbor c payload);
  reject (MAX_PLAINTEXT_BYTES <? blen plaintext)%N with PayloadTooLarge ;;
  let hd := mkHeader MAGIC FORMAT_VERSION kdf Aes256Gcm salt nonce in
  aad ← ok_or Encoding (header_cbor c hd);
  key ← wallet_derive_key passphrase kdf salt;
  ct ← ok_or Encoding (gcm_seal w key nonce plaintext aad);
  b ← ok_or Encoding (envelope_cbor c (mkWalletEnvelope hd ct));
  reject (MAX_ENVELOPE_BYTES <? blen b)%N with EnvelopeTooLarge (blen b) ;;
  Ok b.

(** [encrypt_with_params], with what the generator draws for the two buffers *)
Definition encrypt_with_params (payload : WalletPayload) (passphrase : string) (kdf : KdfParams)
    (salt nonce : option bytes) : result FormatError bytes :=
  _ ← kdf_validate kdf;
  salt ← ok_or Encoding salt; nonce ← ok_or Encoding nonce;
  wallet_seal payload passphrase kdf salt nonce.
Definition wallet_encrypt (payload : WalletPayload) (passphrase : string) (salt nonce : option bytes) :=
  encrypt_with_params payload passphrase DEFAULT_KDF salt nonce.

(** [decrypt] *)
Definition wallet_decrypt (b : bytes) (passphrase : string) : result FormatError WalletPayload :=
  reject (MAX_ENVELOPE_BYTES <? blen b)%N with EnvelopeTooLarge (blen b) ;;
  env ← ok_or MalformedEnvelope (envelope_of_cbor c b);
  let hd := header env in
  let ct := envelope_ciphertext env in
  reject negb (bool_decide (magic hd = MAGIC)) with MalformedEnvelope ;;
  reject negb (format_version hd =? FORMAT_VERSION)%N with UnknownVersion (format_version hd) ;;
  reject negb (bool_decide (header_cipher hd = Aes256Gcm)) with UnsupportedCipher ;;
  _ ← kdf_validate (header_kdf hd);
  reject negb (length (header_salt hd) =? SALT_LEN) || negb (length (header_nonce hd) =? NONCE_LEN)
    with InvalidCryptoLengths ;;
  reject (blen ct <? TAG_LEN)%N || (MAX_PLAINTEXT_BYTES <? blen ct - TAG_LEN)%N with Decryption ;;
  aad ← ok_or MalformedEnvelope (header_cbor c hd);
  key ← wallet_derive_key passphrase (header_kdf hd) (header_salt hd);
  plaintext ← ok_or Decryption (gcm_open w key (header_nonce hd) ct aad);
  reject (MAX_PLAINTEXT_BYTES <? blen plaintext)%N with PayloadTooLarge ;;
  payload ← ok_or NoncanonicalPayload (payload_of_cbor c plaintext);
  recoded ← ok_or NoncanonicalPayload (payload_cbor c payload);
  reject negb (bool_decide (recoded = plaintext)) with NoncanonicalPayload ;;
  reject negb (schema_version payload =? PAYLOAD_SCHEMA_VERSION)%N with UnknownVersion (schema_version payload) ;;
  Ok payload.
End Portable.

(** ** Key files (csv-keys/src/keystore.rs) *)

Inductive KeystoreError :=
| EncryptionFailed (m : string) | DecryptionFailed (m : string) | KsInvalidFormat (m : string)
| KdfError (m : string) | KsIo (m : string) | KsSerialization (m : string).

(** [KeystoreError::to_string] *)
Definition keystore_error_text (e : KeystoreError) : string :=
  match e with
  | EncryptionFailed m => "Encryption failed: " +:+ m
  | DecryptionFailed m => "Decryption failed: " +:+ m
  | KsInvalidFormat m => "Invalid keystore format: " +:+ m
  | KdfError m => "KDF error: " +:+ m
  | KsIo m => "File I/O error: " +:+ m
  | KsSerialization m => "Serialization error: " +:+ m
  end.

(** What a call can end with besides a value: an error, or a panic. *)
Inductive failure (E : Type) := Error (e : E) | Panicked.
Global Arguments Error {E} e. Global Arguments Panicked {E}.

Inductive KdfType := Scrypt | ScryptTest | Pbkdf2.
Global Instance KdfType_eq_dec : EqDecision KdfType. Proof. solve_decision. Defined.

Record FileKdfParams := mkFileKdf {
  dklen : N; kdf_salt : string; kdf_n : option N; kdf_r : option N; kdf_p : option N;
  kdf_c : option N; kdf_prf : option string }.
Record CryptoParams := mkCrypto {
  cp_cipher : string; cp_ciphertext : string; cp_iv : string; cp_kdf : string;
  cp_kdfparams : FileKdfParams; cp_mac : string }.
Record KeystoreFile := mkKeystoreFile { kf_version : N; kf_id : N; kf_crypto : CryptoParams }.

(** The crates: scrypt with the logarithm of its cost, PBKDF2 over HMAC-SHA256 with its
    rounds, AES-256-GCM without associated data, SHA3-256, and the text of a hex error. *)
Record KeystoreCrates := mkKeystoreCrates {
  scrypt : N -> N -> N -> bytes -> bytes -> result string Bytes32;
  pbkdf2 : N -> bytes -> bytes -> Bytes32;
  aes_encrypt : bytes -> bytes -> bytes -> result string bytes;
  aes_decrypt : bytes -> bytes -> bytes -> result string bytes;
  sha3_256 : bytes -> Bytes32;
  hex_error : bytes -> string
}.
Class KeystoreLaws (w : KeystoreCrates) : Prop :=
  aes_roundtrip k n m x : aes_encrypt w k n m = Ok x -> aes_decrypt w k n x = Ok m.

Section KeyFiles.
Variable w : KeystoreCrates.

(** [hex::decode] of a field, with the field's prefix on its error *)
Definition unhex (what s : string) : result (failure KeystoreError) bytes :=
  ok_or (Error (KsInvalidFormat ("Invalid " +:+ what +:+ ": " +:+ hex_error w (as_bytes s))))
        (hex_decode (as_bytes s)).

(** [derive_key] *)
Definition keystore_derive_key (passphrase : string) (salt : bytes) (t : KdfType)
  : result KeystoreError bytes :=
  match t with
  | Scrypt => b32 <$> map_err KdfError (scrypt w 18 8 1 (as_bytes passphrase) salt)
  | ScryptTest => b32 <$> map_err KdfError (scrypt w 10 8 1 (as_bytes passphrase) salt)
  | Pbkdf2 => Ok (b32 (pbkdf2 w 100000 (as_bytes passphrase) salt))
  end.

Definition calculate_mac (derived_key ciphertext : bytes) : bytes := b32 (sha3_256 w (derived_key ++ ciphertext)).

Definition hex_text (b : bytes) : string := of_bytes (hex_encode b).

(** [KdfParams] as a key file records them *)
Definition recorded_params (t : KdfType) (salt : bytes) : FileKdfParams :=
  match t with
  | Scrypt => mkFileKdf 32 (hex_text salt) (Some 262144%N) (Some 8%N) (Some 1%N) None None
  | ScryptTest => mkFileKdf 32 (hex_text salt) (Some 1024%N) (Some 8%N) (Some 1%N) None None
  | Pbkdf2 => mkFileKdf 32 (hex_text salt) None None None (Some 100000%N) (Some "hmac-sha256"%string)
  end.
Definition kdf_name (t : KdfType) : string := match t with Pbkdf2 => "pbkdf2" | _ => "scrypt" end.

(** [KeystoreFile::encrypt], with what the generator draws for the salt, the vector (whose
    generator panics when it fails) and the identifier *)
Definition keystore_encrypt (secret_key : Bytes32) (passphrase : string) (t : KdfType)
    (salt : result string Bytes32) (iv : option bytes) (uuid : N) : result (failure KeystoreError) KeystoreFile :=
  salt ← map_err (fun e => Error (EncryptionFailed ("RNG failed: " +:+ e))) salt;
  iv ← ok_or Panicked iv;
  derived ← map_err Error (keystore_derive_key passphrase (b32 salt) t);
  ct ← map_err (fun e => Error (EncryptionFailed e)) (aes_encrypt w derived (take 12 iv) (b32 secret_key));
  Ok (mkKeystoreFile 3 uuid (mkCrypto "aes-256-gcm" (hex_text ct) (hex_text iv) (kdf_name t)
    (recorded_params t (b32 salt)) (hex_text (calculate_mac derived ct)))).

Definition file_kdf (f : KeystoreFile) : option KdfType :=
  if bool_decide (cp_kdf (kf_crypto f) = "scrypt"%string)
  then Some (if (default 262144 (kdf_n (cp_kdfparams (kf_crypto f))) <=? 4096)%N then ScryptTest else Scrypt)
  else if bool_decide (cp_kdf (kf_crypto f) = "pbkdf2"%string) then Some Pbkdf2 else None.

Definition MAC_MISMATCH : string := "MAC verification failed - wrong passphrase?".

(** [KeystoreFile::decrypt] *)
Definition keystore_decrypt (f : KeystoreFile) (passphrase : string)
  : result (failure KeystoreError) Bytes32 :=
  salt ← unhex "salt" (kdf_salt (cp_kdfparams (kf_crypto f)));
  t ← ok_or (Error (KsInvalidFormat "Unknown KDF")) (file_kdf f);
  derived ← map_err Error (keystore_derive_key passphrase salt t);
  ct ← unhex "ciphertext" (cp_ciphertext (kf_crypto f));
  actual_mac ← unhex "MAC" (cp_mac (kf_crypto f));
  reject negb (bool_decide (calculate_mac derived ct = actual_mac)) with Error (DecryptionFailed MAC_MISMATCH) ;;
  iv ← unhex "IV" (cp_iv (kf_crypto f));
  reject length iv <? 12 with Panicked ;;
  plaintext ← map_err (fun e => Error (DecryptionFailed e)) (aes_decrypt w derived (take 12 iv) ct);
  match to_b32 plaintext with
  | Some key => Ok key
  | None => Err (Error (DecryptionFailed "Decrypted key has wrong length"))
  end.

(** [create_keystore] *)
Definition create_keystore (passphrase : string) (key : Bytes32) (salt : result string Bytes32)
    (iv : option bytes) (uuid : N) : result (failure KeystoreError) (KeystoreFile * Bytes32) :=
  f ← keystore_encrypt key passphrase Scrypt salt iv uuid; Ok (f, key).
End KeyFiles.

(** ** A directory of key files (csv-keys/src/file_keystore.rs) *)

Inductive FileKeystoreError :=
| FkCrypto (m : string) | FkIo (m : string) | FkSerialization (m : string)
| KeyNotFound (id : string) | InvalidPassphrase | FkKeystore (e : KeystoreError).

Record KeyEntry := mkEntry {
  entry_id : string; entry_chain : string; entry_label : option string; entry_created_at : N;
  entry_file_id : string }.
Record KeystoreMeta := mkMeta { meta_version : N; meta_keys : list KeyEntry }.
Definition meta_default : KeystoreMeta := mkMeta 1 [].

Definition meta_find (m : KeystoreMeta) (id : string) : option KeyEntry :=
  List.find (fun e => bool_decide (entry_id e = id)) (meta_keys m).
Definition meta_add (m : KeystoreMeta) (e : KeyEntry) : KeystoreMeta := mkMeta (meta_version m) (meta_keys m ++ [e]).
Definition meta_remove (m : KeystoreMeta) (id : string) : KeystoreMeta :=
  mkMeta (meta_version m) (filter (fun e => entry_id e <> id) (meta_keys m)).

(** Nanoseconds of a clock that does not run back. *)
Definition SESSION_TIMEOUT : N := 15 * 60 * 1000000000.
Record FileSession := mkSession { start_time : N; cached_keys : gmap string Bytes32 }.
Definition session_valid (now : N) (s : FileSession) : bool := (now - start_time s <? SESSION_TIMEOUT)%N.
Definition get_cached (now : N) (s : FileSession) (id : string) : option Bytes32 :=
  if session_valid now s then cached_keys s !! id else None.

(** The directory is the map of its files' contents. *)
Record FileKeystore := mkFileKeystore {
  keystore_dir : gmap string string; session : option FileSession; meta : KeystoreMeta }.

Definition META_FILE : string := "meta.json".

(** JSON of a key file and of the metadata, and the text of an identifier. *)
Record KeystoreJson := mkKeystoreJson {
  file_json : KeystoreFile -> result string string; file_of_json : string -> result string KeystoreFile;
  meta_json : KeystoreMeta -> result string string; meta_of_json : string -> result string KeystoreMeta;
  uuid_text : N -> string; not_found : string
}.
Class JsonLaws (j : KeystoreJson) : Prop := {
  file_json_roundtrip f s : file_json j f = Ok s -> file_of_json j s = Ok f;
  meta_json_roundtrip m s : meta_json j m = Ok s -> meta_of_json j s = Ok m
}.

Section FileStore.
Variable (w : KeystoreCrates) (j : KeystoreJson).

Definition key_path (file_id : string) : string := "keystore-" +:+ file_id +:+ ".json".

(** [with_dir]: what a process that starts finds in the directory. *)
Definition open_dir (files : gmap string string) : result FileKeystoreError FileKeystore :=
  m ← match files !! META_FILE with
      | Some s => map_err FkSerialization (meta_of_json j s)
      | None => Ok meta_default
      end;
  Ok (mkFileKeystore files None m).

Definition write_file (st : FileKeystore) (path contents : string) : FileKeystore :=
  mkFileKeystore (<[path := contents]> (keystore_dir st)) (session st) (meta st).
Definition with_meta (st : FileKeystore) (m : KeystoreMeta) : FileKeystore :=
  mkFileKeystore (keystore_dir st) (session st) m.

(** [save_to], [load_from] *)
Definition save_to (st : FileKeystore) (f : KeystoreFile) : FileKeystore * result KeystoreError unit :=
  match file_json j f with
  | Err e => (st, Err (KsSerialization e))
  | Ok s => (write_file st (key_path (uuid_text j (kf_id f))) s, Ok tt)
  end.
Definition load_from (st : FileKeystore) (path : string) : result KeystoreError KeystoreFile :=
  s ← ok_or (KsIo (not_found j)) (keystore_dir st !! path); map_err KsSerialization (file_of_json j s).

(** The metadata written after it was changed in memory. *)
Definition write_meta {A} (st : FileKeystore) (a : A) : FileKeystore * result (failure FileKeystoreError) A :=
  match meta_json j (meta st) with
  | Err e => (st, Err (Error (FkSerialization e)))
  | Ok s => (write_file st META_FILE s, Ok a)
  end.

Definition lift_failure (r : failure KeystoreError) : failure FileKeystoreError :=
  match r with Error e => Error (FkKeystore e) | Panicked => Panicked end.

(** [store_key]; [created_at] is the second it is called in *)
Definition store_key (st : FileKeystore) (id chain : string) (label : option string) (key : Bytes32)
    (passphrase : string) (salt : result string Bytes32) (iv : option bytes) (uuid created_at : N)
  : FileKeystore * result (failure FileKeystoreError) unit :=
  match keystore_encrypt w key passphrase Scrypt salt iv uuid with
  | Err e => (st, Err (lift_failure e))
  | Ok f =>
      match save_to st f with
      | (st, Err e) => (st, Err (Error (FkKeystore e)))
      | (st, Ok _) => write_meta (with_meta st (meta_add (meta st)
                        (mkEntry id chain label created_at (uuid_text j (kf_id f))))) tt
      end
  end.

(** [find_keystore_file_for_id] *)
Definition find_file (st : FileKeystore) (id : string) : result FileKeystoreError string :=
  e ← ok_or (KeyNotFound id) (meta_find (meta st) id); Ok (key_path (entry_file_id e)).

(** The error of a decryption: told apart by its text. *)
Definition decrypt_error (r : failure KeystoreError) : failure FileKeystoreError :=
  match r with
  | Panicked => Panicked
  | Error e => Error (match String.index 0 "MAC verification failed" (keystore_error_text e) with
                      | Some _ => InvalidPassphrase | None => FkCrypto (keystore_error_text e) end)
  end.

Definition open_entry (st : FileKeystore) (id passphrase : string)
  : result (failure FileKeystoreError) Bytes32 :=
  path ← map_err Error (find_file st id);
  f ← map_err (fun e => Error (FkKeystore e)) (load_from st path);
  map_err decrypt_error (keystore_decrypt w f passphrase).

(** [retrieve_key] *)
Definition retrieve_key (st : FileKeystore) (now : N) (id passphrase : string)
  : FileKeystore * result (failure FileKeystoreError) Bytes32 :=
  match session st ≫= (fun s => get_cached now s id) with
  | Some key => (st, Ok key)
  | None =>
      match open_entry st id passphrase with
      | Err e => (st, Err e)
      | Ok key =>
          (mkFileKeystore (keystore_dir st)
             ((fun s => mkSession (start_time s) (<[id := key]> (cached_keys s))) <$> session st) (meta st), Ok key)
      end
  end.

Definition start_session (st : FileKeystore) (now : N) : FileKeystore :=
  mkFileKeystore (keystore_dir st) (Some (mkSession now ∅)) (meta st).
Definition end_session (st : FileKeystore) : FileKeystore := mkFileKeystore (keystore_dir st) None (meta st).
Definition is_session_active (st : FileKeystore) (now : N) : bool :=
  match session st with Some s => session_valid now s | None => false end.

(** [delete_key] *)
Definition delete_key (st : FileKeystore) (id : string) : FileKeystore * result (failure FileKeystoreError) unit :=
  let forget st := write_meta (with_meta st (meta_remove (meta st) id)) tt in
  match find_file st id with
  | Err _ => forget st
  | Ok path =>
      match keystore_dir st !! path with
      | None => (st, Err (Error (FkIo (not_found j))))
      | Some _ => forget (mkFileKeystore (delete path (keystore_dir st)) (session st) (meta st))
      end
  end.

Definition list_keys (st : FileKeystore) : list string := map entry_id (meta_keys (meta st)).

(** [export_key], [import_key], [verify_passphrase] *)
Definition export_key (st : FileKeystore) (id : string) : result FileKeystoreError KeystoreFile :=
  path ← find_file st id; map_err FkKeystore (load_from st path).
Definition import_key (st : FileKeystore) (f : KeystoreFile) (chain : string) (label : option string) (created_at : N)
  : FileKeystore * result (failure FileKeystoreError) string :=
  let id := uuid_text j (kf_id f) in
  match save_to st f with
  | (st, Err e) => (st, Err (Error (FkKeystore e)))
  | (st, Ok _) => write_meta (with_meta st (meta_add (meta st) (mkEntry id chain label created_at id))) id
  end.
Definition verify_passphrase (st : FileKeystore) (id passphrase : string)
  : result (failure FileKeystoreError) unit :=
  _ ← open_entry st id passphrase; Ok tt.
End FileStore.

(** ** Seals in custody (csv-wallet/src/seal_custody.rs) *)

Global Instance SealPoint_countable : Countable SealPoint :=
  inj_countable' (fun s => (seal_id s, seal_nonce s, seal_version s))
                 (fun t => mkSealPoint t.1.1 t.1.2 t.2) (fun s => match s with mkSealPoint _ _ _ => eq_refl end).

Inductive WalletError :=
| SealCustodyError (m : string) | UnsupportedChainError (chain : string)
| WalletKeyDerivation (m : string) | KeyGeneration (m : string) | SigningFailed (m : string).

Record SealCustodyRecord := mkCustody {
  custody_chain : string; custody_key_id : string; custody_public_key : bytes; consumed : bool }.
Notation SealCustody := (gmap SealPoint SealCustodyRecord).

Definition same_key (x y : SealCustodyRecord) : bool :=
  bool_decide (custody_chain x = custody_chain y) && bool_decide (custody_key_id x = custody_key_id y) &&
  bool_decide (custody_public_key x = custody_public_key y).

(** [record] *)
Definition custody_record (m : SealCustody) (seal : SealPoint) (r : SealCustodyRecord)
  : SealCustody * result WalletError unit :=
  match m !! seal with
  | Some existing =>
      if negb (same_key existing r)
      then (m, Err (SealCustodyError "seal already under a different controlling key"))
      else (m, Ok tt)
  | None => (<[seal := r]> m, Ok tt)
  end.
Definition custody_of (m : SealCustody) (seal : SealPoint) : option SealCustodyRecord := m !! seal.
Definition controls (m : SealCustody) (seal : SealPoint) : bool :=
  match m !! seal with Some r => negb (consumed r) | None => false end.
Definition is_consumed (m : SealCustody) (seal : SealPoint) : bool :=
  match m !! seal with Some r => consumed r | None => false end.
Definition mark_consumed (m : SealCustody) (seal : SealPoint) : SealCustody * result WalletError unit :=
  match m !! seal with
  | None => (m, Err (SealCustodyError "cannot consume a seal the wallet does not control"))
  | Some r =>
      if consumed r then (m, Err (SealCustodyError "seal already consumed (double-spend prevented)"))
      else (<[seal := mkCustody (custody_chain r) (custody_key_id r) (custody_public_key r) true]> m, Ok tt)
  end.

(** Calls hold the lock throughout: what callers do together is a list of calls. *)
Inductive CustodyCall := RecordSeal (seal : SealPoint) (r : SealCustodyRecord) | MarkConsumed (seal : SealPoint).
Definition custody_call (m : SealCustody) (a : CustodyCall) : SealCustody * result WalletError unit :=
  match a with RecordSeal s r => custody_record m s r | MarkConsumed s => mark_consumed m s end.
Fixpoint custody_run (m : SealCustody) (l : list CustodyCall) : SealCustody * list (result WalletError unit) :=
  match l with
  | [] => (m, [])
  | a :: l => let '(m, r) := custody_call m a in let '(m, rs) := custody_run m l in (m, r :: rs)
  end.

(** ** Secrets by name (csv-wallet/src/keystore.rs, csv-protocol/src/secret.rs) *)

Inductive SecretHandle := FromBytes (key : bytes) | FromSeed (seed : bytes).
Notation KeyStore := (gmap string SecretHandle).

Definition pad32 (secret : bytes) : bytes := take 32 secret ++ replicate (32 - length secret) Byte.x00.
Definition handle_of (secret : bytes) : SecretHandle :=
  if length secret =? 64 then FromSeed secret else FromBytes (pad32 secret).
Definition add_key (m : KeyStore) (id : string) (secret : bytes) : KeyStore := <[id := handle_of secret]> m.
Definition add_handle (m : KeyStore) (id : string) (h : SecretHandle) : KeyStore := <[id := h]> m.
Definition get_key (m : KeyStore) (id : string) : option SecretHandle := m !! id.
Definition remove_key (m : KeyStore) (id : string) : option SecretHandle * KeyStore := (m !! id, delete id m).

(** ** The wallet (csv-wallet/src/wallet.rs, signer.rs) *)

Record MemorySigner := mkSigner {
  signer_id : string; signer_chain : string; secret_key : bytes; public_key : bytes; scheme : SignatureScheme }.

(** The crates that sign: an ECDSA signature over a 32-byte digest, the Ed25519 signature, and
    ML-DSA-65, which is a feature of the build. *)
Record SignCrates := mkSignCrates {
  sign_ecdsa : bytes -> bytes -> result string bytes;
  sign_ed25519 : bytes -> bytes -> bytes;
  ml_dsa : option (bytes -> bytes -> result string bytes)
}.

Record WalletConfig := mkWalletConfig { wallet_id : string; chains : list string; test_mode : bool }.
Record WalletManager := mkWallet {
  wallet_config : WalletConfig; keystore : KeyStore; signers : gmap string MemorySigner;
  seal_custody : SealCustody }.
Definition wallet_new (config : WalletConfig) : WalletManager := mkWallet config ∅ ∅ ∅.

Section Manager.
Variable (d : DeriveCrates) (k : KeyCrates) (s : SignCrates) (lower : string -> string).
(** [Display] of an error of derivation, and [restore_from_mnemonic]: the seed of a phrase *)
Variable (show : Bip44Error -> string) (restore : string -> option string -> result string bytes).

(** [derive_public_key] *)
Definition derive_public_key (secret : bytes) (sc : SignatureScheme) : result WalletError bytes :=
  match sc with
  | Secp256k1 => map_err (fun e => WalletKeyDerivation ("Invalid secp256k1 secret key: " +:+ e))
                   (compress d <$> secp_public d secret)
  | Ed25519 =>
      reject negb (length secret =? 32)
        with WalletKeyDerivation "Invalid Ed25519 secret key: must be 32 bytes" ;;
      Ok (ed_public d secret)
  | MlDsa65 => Err (WalletKeyDerivation
      "ML-DSA-65 public keys cannot be derived from a secret key; generate the keypair with WalletManager::generate_ml_dsa65_keypair")
  end.

(** The scheme of a chain, by the spelling of the configuration *)
Definition scheme_of (chain : string) : SignatureScheme :=
  if bool_decide (chain = "solana"%string) || bool_decide (chain = "sui"%string) ||
     bool_decide (chain = "aptos"%string) then Ed25519 else Secp256k1.

(** One turn of [from_mnemonic]'s loop *)
Definition key_name (chain : string) : string := chain +:+ ":0:0".
Definition chain_signer (seed : bytes) (chain : string) : result WalletError (bytes * MemorySigner) :=
  key ← map_err (fun e => WalletKeyDerivation ("Failed to derive key for " +:+ chain +:+ ": " +:+ show e))
          (derive_key d seed (lower chain) 0 0);
  pk ← derive_public_key key (scheme_of chain);
  Ok (key, mkSigner (key_name chain) chain key pk (scheme_of chain)).
Fixpoint add_chains (seed : bytes) (w : WalletManager) (l : list string) : result WalletError WalletManager :=
  match l with
  | [] => Ok w
  | chain :: l =>
      x ← chain_signer seed chain;
      add_chains seed (mkWallet (wallet_config w) (add_key (keystore w) (key_name chain) x.1)
                         (<[chain := x.2]> (signers w)) (seal_custody w)) l
  end.
Definition from_mnemonic (config : WalletConfig) (mnemonic : string) (passphrase : option string)
  : result WalletError WalletManager :=
  seed ← map_err (fun e => KeyGeneration ("Failed to restore from mnemonic: " +:+ e)) (restore mnemonic passphrase);
  add_chains seed (wallet_new config) (chains config).

Definition add_signer (w : WalletManager) (chain : string) (x : MemorySigner) : WalletManager :=
  mkWallet (wallet_config w) (keystore w) (<[chain := x]> (signers w)) (seal_custody w).
Definition get_signer (w : WalletManager) (chain : string) : option MemorySigner := signers w !! chain.

(** [MemorySigner::sign]: the signature with its scheme *)
Definition signer_sign (x : MemorySigner) (message : bytes) : result WalletError (bytes * SignatureScheme) :=
  match scheme x with
  | Secp256k1 =>
      _ ← map_err (fun e => SigningFailed ("Invalid secret key: " +:+ e)) (secp_public d (secret_key x));
      b ← map_err (fun e => SigningFailed ("Invalid message: " +:+ e)) (sign_ecdsa s (secret_key x) message);
      Ok (b, Secp256k1)
  | Ed25519 =>
      reject negb (length (secret_key x) =? 32) with SigningFailed "Invalid secret key length" ;;
      Ok (sign_ed25519 s (secret_key x) message, Ed25519)
  | MlDsa65 =>
      match ml_dsa s with
      | Some sign => b ← map_err (fun e => SigningFailed ("ML-DSA-65 signing failed: " +:+ e))
                           (sign message (secret_key x)); Ok (b, MlDsa65)
      | None => Err (SigningFailed
          "ML-DSA-65 signing requires the 'pq' feature to be enabled on csv-wallet")
      end
  end.
Definition wallet_sign (w : WalletManager) (chain : string) (message : bytes)
  : result WalletError (bytes * SignatureScheme) :=
  x ← ok_or (UnsupportedChainError chain) (get_signer w chain); signer_sign x message.
Definition wallet_public_key (w : WalletManager) (chain : string) : result WalletError bytes :=
  x ← ok_or (UnsupportedChainError chain) (get_signer w chain); Ok (public_key x).

(** [assign_seal_custody] *)
Definition assign_seal_custody (w : WalletManager) (seal : SealPoint) (chain : string)
  : WalletManager * result WalletError SealCustodyRecord :=
  match get_signer w chain with
  | None => (w, Err (UnsupportedChainError chain))
  | Some x =>
      let r := mkCustody chain (signer_id x) (public_key x) false in
      match custody_record (seal_custody w) seal r with
      | (m, Err e) => (mkWallet (wallet_config w) (keystore w) (signers w) m, Err e)
      | (m, Ok _) => (mkWallet (wallet_config w) (keystore w) (signers w) m, Ok r)
      end
  end.

(** [derive_funding_address] *)
Definition derive_funding_address (seed : bytes) (chain : string) (account index : N) : result WalletError string :=
  reject length seed <? 64
    with WalletKeyDerivation ("Seed must be at least 64 bytes, got " +:+ show_nat (length seed)) ;;
  key ← ok_or (UnsupportedChainError chain) (derive_all_chain_keys d (take 64 seed) account !! lower chain);
  map_err (fun e => WalletKeyDerivation ("Failed to derive address: " +:+ show e))
    (derive_address_from_key d k key (lower chain)).
End Manager.

(** ** Lemmas *)

Lemma ok_or_ok {E A} (e : E) (o : option A) a : ok_or e o = Ok a <-> o = Some a.
Proof. destruct o; simpl; naive_solver. Qed.

Lemma kdf_validate_ok p : kdf_validate p = Ok tt <->
  output_len p = KEY_LEN /\ (MIN_MEMORY_KIB <= memory_kib p <= MAX_MEMORY_KIB)%N /\
  (MIN_ITERATIONS <= iterations p <= MAX_ITERATIONS)%N /\ (MIN_PARALLELISM <= parallelism p <= MAX_PARALLELISM)%N.
Proof.
  unfold kdf_validate. rewrite !guard_err_ok. destruct (kdf_algorithm p). rewrite bool_decide_true by done.
  rewrite !negb_false_iff, !andb_true_iff, N.eqb_eq, !N.leb_le. tauto.
Qed.
Lemma unit_ok {E} (r : result E unit) x : r = Ok x <-> r = Ok tt.
Proof. by destruct x. Qed.

(** ** Wallet files *)

(** Everything a file has to be before a key is derived from it. *)
Record bounded_file (c : WalletCbor) (b : bytes) (env : WalletEnvelope) : Prop := {
  file_small : (blen b <= MAX_ENVELOPE_BYTES)%N;
  file_read : envelope_of_cbor c b = Some env;
  file_magic : magic (header env) = MAGIC;
  file_version : format_version (header env) = FORMAT_VERSION;
  file_kdf_bounds : kdf_validate (header_kdf (header env)) = Ok tt;
  file_salt : length (header_salt (header env)) = SALT_LEN;
  file_nonce : length (header_nonce (header env)) = NONCE_LEN;
  file_ciphertext : (TAG_LEN <= blen (envelope_ciphertext env) <= MAX_PLAINTEXT_BYTES + TAG_LEN)%N
}.

(** What is left of a decryption of a file within bounds. *)
Definition open_bounded (w : WalletCrates) (c : WalletCbor) (env : WalletEnvelope) (passphrase : string)
  : result FormatError WalletPayload :=
  let hd := header env in
  aad ← ok_or MalformedEnvelope (header_cbor c hd);
  key ← wallet_derive_key w passphrase (header_kdf hd) (header_salt hd);
  plaintext ← ok_or Decryption (gcm_open w key (header_nonce hd) (envelope_ciphertext env) aad);
  reject (MAX_PLAINTEXT_BYTES <? blen plaintext)%N with PayloadTooLarge ;;
  payload ← ok_or NoncanonicalPayload (payload_of_cbor c plaintext);
  recoded ← ok_or NoncanonicalPayload (payload_cbor c payload);
  reject negb (bool_decide (recoded = plaintext)) with NoncanonicalPayload ;;
  reject negb (schema_version payload =? PAYLOAD_SCHEMA_VERSION)%N with UnknownVersion (schema_version payload) ;;
  Ok payload.

(** A decryption either looks at no crate, or is of a file within bounds. *)
Lemma wallet_decrypt_split c b :
  (exists env, bounded_file c b env /\ forall w pw, wallet_decrypt w c b pw = open_bounded w c env pw) \/
  (exists e, forall w pw, wallet_decrypt w c b pw = Err e).
Proof.
  unfold wallet_decrypt, guard_err.
  destruct (N.ltb_spec MAX_ENVELOPE_BYTES (blen b)) as [|Hb]; [by right; eexists|].
  destruct (envelope_of_cbor c b) as [env|] eqn:Henv; [|by right; eexists]. cbn [ok_or mbind result_bind].
  case_bool_decide as Hmagic; [|by right; eexists]. cbn [negb].
  destruct (N.eqb_spec (format_version (header env)) FORMAT_VERSION) as [Hv|]; [|by right; eexists]. cbn [negb].
  case_bool_decide; [|by right; eexists]. cbn [negb].
  destruct (kdf_validate _) as [[]|] eqn:Hk; [|by right; eexists]. cbn [mbind result_bind].
  destruct (Nat.eqb_spec (length (header_salt (header env))) SALT_LEN) as [Hs|]; [|by right; eexists]. cbn [negb orb].
  destruct (Nat.eqb_spec (length (header_nonce (header env))) NONCE_LEN) as [Hn|]; [|by right; eexists]. cbn [negb].
  destruct (N.ltb_spec (blen (envelope_ciphertext env)) TAG_LEN) as [|Ht]; [by right; eexists|]. cbn [orb].
  destruct (N.ltb_spec MAX_PLAINTEXT_BYTES (blen (envelope_ciphertext env) - TAG_LEN)) as [|Hp]; [by right; eexists|].
  left. exists env. split; [|done]. split; auto. lia.
Qed.

Lemma wallet_decrypt_bounded w c b env pw :
  bounded_file c b env -> wallet_decrypt w c b pw = open_bounded w c env pw.
Proof.
  intros [Hb Hr Hm Hv Hk Hs Hn Ht]. unfold wallet_decrypt, guard_err.
  rewrite (proj2 (N.ltb_ge _ _) Hb), Hr. cbn [ok_or mbind result_bind].
  rewrite bool_decide_true by done. cbn [negb]. rewrite Hv, N.eqb_refl. cbn [negb].
  rewrite bool_decide_true by (by destruct (header_cipher _)). cbn [negb].
  rewrite Hk. cbn [mbind result_bind]. rewrite Hs, Hn, !Nat.eqb_refl. cbn [negb orb].
  rewrite (proj2 (N.ltb_ge _ _)) by lia. cbn [orb]. by rewrite (proj2 (N.ltb_ge _ _)) by lia.
Qed.

(** the portable wallet file.  Whatever is encrypted is decrypted under the same
    passphrase to the payload that went in, when that has the schema version the reader knows,
    and refused with its version otherwise; every payload that is read has that version. *)
Theorem wallet_roundtrip (w : WalletCrates) (c : WalletCbor) `{!WalletLaws w c} (p : WalletPayload)
    (pw : string) (kdf : KdfParams) (salt nonce : option bytes) (b : bytes)
    (H : encrypt_with_params w c p pw kdf salt nonce = Ok b) :
  wallet_decrypt w c b pw =
    (if (schema_version p =? PAYLOAD_SCHEMA_VERSION)%N then Ok p else Err (UnknownVersion (schema_version p))) /\
  forall b' pw' q, wallet_decrypt w c b' pw' = Ok q -> schema_version q = PAYLOAD_SCHEMA_VERSION.
Proof.
  split.
  - unfold encrypt_with_params in H.
    apply bind_ok in H as ([] & Hk & H). apply bind_ok in H as (sa & _ & H). apply bind_ok in H as (no & _ & H).
    unfold wallet_seal in H. apply guard_err_ok in H as [[Hs Hn]%orb_false_iff H].
    apply negb_false_iff, Nat.eqb_eq in Hs, Hn.
    apply bind_ok in H as (m & Hm%ok_or_ok & H). apply guard_err_ok in H as [Hlen%N.ltb_ge H].
    apply bind_ok in H as (aad & Ha%ok_or_ok & H). apply bind_ok in H as (key & Hkey & H).
    apply bind_ok in H as (ct & Hct%ok_or_ok & H). apply bind_ok in H as (out & Hout%ok_or_ok & H).
    apply guard_err_ok in H as [Hbig%N.ltb_ge [= ->]].
    rewrite (wallet_decrypt_bounded w c b (mkWalletEnvelope (mkHeader MAGIC FORMAT_VERSION kdf Aes256Gcm sa no) ct)).
    + unfold open_bounded. cbn [header header_kdf header_salt header_nonce envelope_ciphertext].
      rewrite Ha. cbn [ok_or mbind result_bind]. rewrite Hkey. cbn [mbind result_bind].
      rewrite (gcm_roundtrip _ _ _ _ _ Hct). cbn [ok_or mbind result_bind].
      unfold guard_err. rewrite (proj2 (N.ltb_ge _ _) Hlen), (payload_roundtrip _ _ Hm).
      cbn [ok_or mbind result_bind]. rewrite Hm. cbn [ok_or mbind result_bind].
      rewrite bool_decide_true by done. cbn [negb]. by destruct (_ =? _)%N.
    + pose proof (gcm_length _ _ _ _ _ Hct). split; try done.
      { by apply envelope_roundtrip. } cbn. unfold TAG_LEN in *. lia.
  - intros b' pw' q Hq. destruct (wallet_decrypt_split c b') as [(env & _ & E)|[e E]]; rewrite E in Hq; [|done].
    unfold open_bounded in Hq. do 3 (apply bind_ok in Hq as (? & _ & Hq)). apply guard_err_ok in Hq as [_ Hq].
    do 2 (apply bind_ok in Hq as (? & _ & Hq)). apply guard_err_ok in Hq as [_ Hq].
    apply guard_err_ok in Hq as [Hv%negb_false_iff%N.eqb_eq [= <-]]. done.
Qed.

(** nothing is spent on a file before it is within bounds.  If the answer to a file
    depends on the key derivation, the cipher or the passphrase at all, then the file is small,
    reads as an envelope of this version, asks for memory, rounds and lanes within the accepted
    ranges, and holds a ciphertext no longer than the largest payload with its tag. *)
Theorem wallet_costs_bounded (w w' : WalletCrates) (c : WalletCbor) (b : bytes) (pw pw' : string)
    (H : wallet_decrypt w c b pw <> wallet_decrypt w' c b pw') :
  exists env, bounded_file c b env /\
    let p := header_kdf (header env) in
    (memory_kib p <= 1048576 /\ iterations p <= 16 /\ parallelism p <= 16 /\
     blen (envelope_ciphertext env) <= 4194320)%N.
Proof.
  destruct (wallet_decrypt_split c b) as [(env & Hb & _)|[e E]]; [|by rewrite !E in H].
  exists env. split; [done|]. destruct Hb as [_ _ _ _ Hk _ _ Ht].
  apply kdf_validate_ok in Hk as (_ & Hm & Hi & Hp).
  unfold MAX_MEMORY_KIB, MAX_ITERATIONS, MAX_PARALLELISM, MAX_PLAINTEXT_BYTES, TAG_LEN in *. cbn. lia.
Qed.

(** ** Key files *)

Lemma hex_text_bytes b : hex_decode (as_bytes (hex_text b)) = Some b.
Proof. unfold hex_text. by rewrite as_bytes_of_bytes, hex_decode_encode. Qed.
Lemma unhex_text w what b : unhex w what (hex_text b) = Ok b.
Proof. unfold unhex. by rewrite hex_text_bytes. Qed.

(** An encrypted key file, opened up to its MAC. *)
Lemma keystore_encrypt_inv w key pw t salt iv uuid f :
  keystore_encrypt w key pw t salt iv uuid = Ok f ->
  exists sa v derived ct, salt = Ok sa /\ iv = Some v /\ keystore_derive_key w pw (b32 sa) t = Ok derived /\
    aes_encrypt w derived (take 12 v) (b32 key) = Ok ct /\
    f = mkKeystoreFile 3 uuid (mkCrypto "aes-256-gcm" (hex_text ct) (hex_text v) (kdf_name t)
          (recorded_params t (b32 sa)) (hex_text (calculate_mac w derived ct))).
Proof.
  unfold keystore_encrypt. intros H. apply bind_ok in H as (sa & Hsa%map_err_ok & H).
  apply bind_ok in H as (v & Hv%ok_or_ok & H). apply bind_ok in H as (de & Hde%map_err_ok & H).
  apply bind_ok in H as (ct & Hct%map_err_ok & [= <-]). eauto 10.
Qed.

Lemma file_kdf_recorded uuid t sa ct v mac :
  file_kdf (mkKeystoreFile 3 uuid (mkCrypto "aes-256-gcm" ct v (kdf_name t) (recorded_params t sa) mac)) = Some t.
Proof. by destruct t. Qed.
Lemma recorded_salt t sa : kdf_salt (recorded_params t sa) = hex_text sa.
Proof. by destruct t. Qed.

(** key files.  A file opens under the passphrase it was made with, to the key that went
    in.  Under any other passphrase it opens to nothing: the MAC is reported as wrong, unless
    the two passphrases derive one key or SHA3-256 collides. *)
Theorem keystore_opens (w : KeystoreCrates) `{!KeystoreLaws w} (key : Bytes32) (pw pw' : string) (t : KdfType)
    (salt : result string Bytes32) (iv : bytes) (uuid : N) (f : KeystoreFile) (Hiv : length iv = 16)
    (H : keystore_encrypt w key pw t salt (Some iv) uuid = Ok f) :
  keystore_decrypt w f pw = Ok key /\
  (keystore_decrypt w f pw' = Err (Error (DecryptionFailed MAC_MISMATCH)) \/
   (exists e, keystore_decrypt w f pw' = Err (Error (KdfError e))) \/
   (exists sa, salt = Ok sa /\ keystore_derive_key w pw' (b32 sa) t = keystore_derive_key w pw (b32 sa) t) \/
   exists x y, x <> y /\ sha3_256 w x = sha3_256 w y).
Proof.
  apply keystore_encrypt_inv in H as (sa & v & de & ct & -> & [= <-] & Hde & Hct & ->).
  unfold keystore_decrypt. rewrite file_kdf_recorded. cbn [kf_crypto cp_kdfparams cp_ciphertext cp_mac cp_iv].
  rewrite recorded_salt, !unhex_text. cbn [ok_or mbind result_bind]. rewrite Hde. cbn [map_err mbind result_bind].
  rewrite bool_decide_true by done. unfold guard_err. cbn [negb]. rewrite Hiv. cbn [Nat.ltb Nat.leb].
  split.
  { rewrite (aes_roundtrip _ _ _ _ Hct). cbn [map_err mbind result_bind]. by rewrite to_b32_b32. }
  destruct (keystore_derive_key w pw' (b32 sa) t) as [de'|e] eqn:Hde'.
  2: { right; left. cbn. destruct e; try (by eexists); destruct t; unfold keystore_derive_key in Hde';
       try (destruct (scrypt _ _ _ _ _ _); discriminate); discriminate. }
  cbn [map_err mbind result_bind]. case_bool_decide as Hmac; [|by left].
  right; right. unfold calculate_mac in Hmac. apply b32_inj in Hmac.
  destruct (decide (de' = de)) as [->|Hne]; [left; exists sa; by rewrite Hde'|right].
  exists (de' ++ ct), (de ++ ct). split; [|done]. by intros ?%app_inv_tail.
Qed.

(** what a key file says of its own derivation is not read: two files that agree in
    everything but the recorded length, block size, lanes, rounds and pseudo-random function,
    and whose costs lie on one side of 4096, open alike.  A file that asks scrypt for any cost
    other than 1024 and 262144 is opened with one of these two. *)
Theorem keystore_params_ignored (w : KeystoreCrates) (f : KeystoreFile) (pw : string)
    (dk : N) (n r p cc : option N) (prf : option string)
    (Hn : (default 262144 n <=? 4096)%N = (default 262144 (kdf_n (cp_kdfparams (kf_crypto f))) <=? 4096)%N) :
  keystore_decrypt w (mkKeystoreFile (kf_version f) (kf_id f)
    (mkCrypto (cp_cipher (kf_crypto f)) (cp_ciphertext (kf_crypto f)) (cp_iv (kf_crypto f)) (cp_kdf (kf_crypto f))
      (mkFileKdf dk (kdf_salt (cp_kdfparams (kf_crypto f))) n r p cc prf) (cp_mac (kf_crypto f)))) pw =
  keystore_decrypt w f pw.
Proof.
  unfold keystore_decrypt, file_kdf. cbn [kf_crypto cp_cipher cp_ciphertext cp_iv cp_kdf cp_kdfparams cp_mac kdf_salt kdf_n].
  by rewrite Hn.
Qed.

(** the MAC of a key file covers its ciphertext and not its vector.  A file whose vector
    is cut below twelve bytes still passes the MAC, and opening it panics. *)
Theorem keystore_vector_unbound (w : KeystoreCrates) (key : Bytes32) (pw : string) (t : KdfType)
    (salt : result string Bytes32) (iv : option bytes) (uuid : N) (f : KeystoreFile) (short : bytes)
    (H : keystore_encrypt w key pw t salt iv uuid = Ok f) (Hs : length short < 12) :
  keystore_decrypt w (mkKeystoreFile (kf_version f) (kf_id f)
    (mkCrypto (cp_cipher (kf_crypto f)) (cp_ciphertext (kf_crypto f)) (hex_text short) (cp_kdf (kf_crypto f))
      (cp_kdfparams (kf_crypto f)) (cp_mac (kf_crypto f)))) pw = Err Panicked.
Proof.
  apply keystore_encrypt_inv in H as (sa & v & de & ct & -> & _ & Hde & Hct & ->).
  cbn [kf_crypto cp_cipher cp_ciphertext cp_iv cp_kdf cp_kdfparams cp_mac kf_version kf_id].
  unfold keystore_decrypt. rewrite file_kdf_recorded. cbn [kf_crypto cp_kdfparams cp_ciphertext cp_mac cp_iv].
  rewrite recorded_salt, !unhex_text. cbn [ok_or mbind result_bind]. rewrite Hde. cbn [map_err mbind result_bind].
  rewrite bool_decide_true by done. unfold guard_err. cbn [negb].
  by rewrite (proj2 (Nat.ltb_lt _ _) Hs).
Qed.

(** ** The directory of key files *)

Section Directory.
Context (w : KeystoreCrates) (j : KeystoreJson) `{!KeystoreLaws w} `{!JsonLaws j}.

Lemma key_path_not_meta x : key_path x <> META_FILE.
Proof. done. Qed.
Lemma key_path_inj x y : key_path x = key_path y -> x = y.
Proof.
  unfold key_path. intros H. apply (f_equal as_bytes) in H. rewrite !as_bytes_app in H.
  apply app_inv_head, app_inv_tail in H. by apply as_bytes_inj.
Qed.

Lemma find_file_entry st id e : meta_find (meta st) id = Some e -> find_file st id = Ok (key_path (entry_file_id e)).
Proof. unfold find_file. by intros ->. Qed.

Lemma meta_find_add m e id :
  meta_find (meta_add m e) id =
  match meta_find m id with Some x => Some x | None => if bool_decide (entry_id e = id) then Some e else None end.
Proof.
  unfold meta_find, meta_add. cbn [meta_keys].
  induction (meta_keys m) as [|x l IH]; cbn; [done|].
  destruct (bool_decide (entry_id x = id)); [done|]. apply IH.
Qed.
Lemma meta_find_remove m id x :
  meta_find (meta_remove m id) x = if bool_decide (x = id) then None else meta_find m x.
Proof.
  unfold meta_find, meta_remove. cbn [meta_keys].
  induction (meta_keys m) as [|y l IH]; [cbn; by case_bool_decide|].
  rewrite filter_cons. destruct (decide (entry_id y <> id)) as [Hy|Hy]; cbn [List.find].
  - destruct (bool_decide_reflect (entry_id y = x)) as [<-|]; [by rewrite bool_decide_false|done].
  - apply dec_stable in Hy. rewrite IH. case_bool_decide; [done|]. by rewrite (bool_decide_false (entry_id y = x)) by congruence.
Qed.

(** What a call that wrote the metadata has done. *)
Lemma write_meta_ok {A} st (a : A) st' b : write_meta j st a = (st', Ok b) ->
  exists s, meta_json j (meta st) = Ok s /\ b = a /\ session st' = session st /\ meta st' = meta st /\
            keystore_dir st' = <[META_FILE := s]> (keystore_dir st).
Proof. unfold write_meta. destruct (meta_json j (meta st)) as [s|] eqn:E; [|done]. intros [= <- <-]. by exists s. Qed.

Lemma store_key_ok st id chain label key pw salt iv uuid at_ st' :
  store_key w j st id chain label key pw salt iv uuid at_ = (st', Ok tt) ->
  exists f s sm, keystore_encrypt w key pw Scrypt salt iv uuid = Ok f /\ file_json j f = Ok s /\
    let e := mkEntry id chain label at_ (uuid_text j uuid) in
    meta_json j (meta_add (meta st) e) = Ok sm /\ meta st' = meta_add (meta st) e /\ session st' = session st /\
    keystore_dir st' = <[META_FILE := sm]> (<[key_path (uuid_text j uuid) := s]> (keystore_dir st)).
Proof.
  unfold store_key. destruct (keystore_encrypt _ _ _ _ _ _ _) as [f|] eqn:Hf; [|done].
  assert (Hid : kf_id f = uuid).
  { apply keystore_encrypt_inv in Hf as (? & ? & ? & ? & _ & _ & _ & _ & ->). done. }
  unfold save_to. rewrite Hid. destruct (file_json j f) as [s|] eqn:Hs; [|done].
  intros (sm & Hsm & _ & Hse & Hm & Hd)%write_meta_ok. exists f, s, sm.
  by rewrite Hd, Hm, Hse.
Qed.

Lemma load_from_at st path s f : keystore_dir st !! path = Some s -> file_of_json j s = Ok f -> load_from j st path = Ok f.
Proof. unfold load_from. intros -> H. cbn. by rewrite H. Qed.

Lemma retrieve_uncached st now id pw :
  (session st ≫= fun s => get_cached now s id) = None -> (retrieve_key w j st now id pw).2 = open_entry w j st id pw.
Proof. unfold retrieve_key. intros ->. by destruct (open_entry _ _ _ _ _). Qed.

(** Opening reads the metadata and one file. *)
Lemma open_entry_frame st st' id e pw :
  meta_find (meta st) id = Some e -> meta_find (meta st') id = Some e ->
  keystore_dir st' !! key_path (entry_file_id e) = keystore_dir st !! key_path (entry_file_id e) ->
  open_entry w j st' id pw = open_entry w j st id pw.
Proof.
  intros H H' Hd. unfold open_entry. rewrite (find_file_entry _ _ _ H), (find_file_entry _ _ _ H').
  cbn [map_err mbind result_bind]. unfold load_from. by rewrite Hd.
Qed.
End Directory.

(** the directory of key files.  A key stored under a new name is listed last and is
    retrieved under its passphrase, now and by a process that opens the directory later. *)
Theorem file_keystore_roundtrip (w : KeystoreCrates) (j : KeystoreJson) `{!KeystoreLaws w} `{!JsonLaws j}
    (st st' : FileKeystore) (id chain : string) (label : option string) (key : Bytes32) (pw : string)
    (salt : result string Bytes32) (iv : bytes) (uuid at_ now : N) (Hiv : length iv = 16)
    (Hnew : meta_find (meta st) id = None)
    (H : store_key w j st id chain label key pw salt (Some iv) uuid at_ = (st', Ok tt)) :
  list_keys st' = list_keys st ++ [id] /\
  ((session st ≫= fun s => get_cached now s id) = None -> (retrieve_key w j st' now id pw).2 = Ok key) /\
  exists later, open_dir j (keystore_dir st') = Ok later /\ list_keys later = list_keys st' /\
                (retrieve_key w j later now id pw).2 = Ok key.
Proof.
  apply store_key_ok in H as (f & s & sm & Hf & Hs & Hsm & Hm & Hse & Hd).
  assert (Hfind : meta_find (meta st') id = Some (mkEntry id chain label at_ (uuid_text j uuid))).
  { by rewrite Hm, meta_find_add, Hnew, bool_decide_true. }
  assert (Hfile : keystore_dir st' !! key_path (uuid_text j uuid) = Some s).
  { rewrite Hd, lookup_insert_ne by (apply not_eq_sym, key_path_not_meta). by rewrite lookup_insert_eq. }
  assert (Hopen : forall q, meta q = meta st' -> keystore_dir q = keystore_dir st' -> open_entry w j q id pw = Ok key).
  { intros q Hq Hqd. unfold open_entry. rewrite (find_file_entry q id _ ltac:(by rewrite Hq)).
    cbn [map_err mbind result_bind]. rewrite (load_from_at j q _ s f) by (rewrite ?Hqd; auto using file_json_roundtrip).
    cbn [map_err mbind result_bind].
    destruct (keystore_opens w key pw pw Scrypt salt iv uuid f Hiv Hf) as [-> _]. done. }
  repeat split.
  - unfold list_keys. rewrite Hm. apply map_app.
  - intros Hc. rewrite retrieve_uncached by (by rewrite Hse). by apply Hopen.
  - exists (mkFileKeystore (keystore_dir st') None (meta st')).
    assert (Hmeta : keystore_dir st' !! META_FILE = Some sm) by (by rewrite Hd, lookup_insert_eq).
    unfold open_dir. rewrite Hmeta, (meta_json_roundtrip _ _ Hsm), <- Hm. split; [done|]. split; [done|].
    rewrite retrieve_uncached by done. by apply Hopen.
Qed.

(** storing under a name that is taken.  The new key is written and listed, and then not
    found: the name keeps opening to the key it opened to, under the passphrase of that one.
    Deleting the name removes both entries and the file of the first. *)
Theorem store_again_keeps_first (w : KeystoreCrates) (j : KeystoreJson) `{!JsonLaws j}
    (st st' : FileKeystore) (id chain : string) (label : option string) (key : Bytes32) (pw : string)
    (salt : result string Bytes32) (iv : option bytes) (uuid at_ : N) (e : KeyEntry)
    (Hold : meta_find (meta st) id = Some e) (Hfresh : entry_file_id e <> uuid_text j uuid)
    (H : store_key w j st id chain label key pw salt iv uuid at_ = (st', Ok tt)) :
  list_keys st' = list_keys st ++ [id] /\
  (forall pw', open_entry w j st' id pw' = open_entry w j st id pw') /\
  (forall gone, delete_key j st' id = (gone, Ok tt) ->
    meta_find (meta gone) id = None /\ is_Some (keystore_dir gone !! key_path (uuid_text j uuid))).
Proof.
  apply store_key_ok in H as (f & s & sm & Hf & Hs & Hsm & Hm & Hse & Hd).
  assert (Hfind : meta_find (meta st') id = Some e) by (by rewrite Hm, meta_find_add, Hold).
  split; [unfold list_keys; rewrite Hm; apply map_app|]. split.
  - intros pw'. apply (open_entry_frame w j st st' id e pw' Hold Hfind).
    rewrite Hd, !lookup_insert_ne; [done| |apply not_eq_sym, key_path_not_meta].
    intros Hp. by apply Hfresh, eq_sym, key_path_inj.
  - intros gone. unfold delete_key. rewrite (find_file_entry _ _ _ Hfind).
    destruct (keystore_dir st' !! _) eqn:Hfile; [|done].
    intros (s' & _ & _ & _ & Hmg & Hdg)%write_meta_ok.
    rewrite Hmg. cbn [meta with_meta]. rewrite meta_find_remove, bool_decide_true by done. split; [done|].
    rewrite Hdg, lookup_insert_ne by (apply not_eq_sym, key_path_not_meta). cbn [keystore_dir with_meta].
    rewrite lookup_delete_ne by (intros Hp; by apply Hfresh, key_path_inj).
    rewrite Hd, lookup_insert_ne by (apply not_eq_sym, key_path_not_meta). rewrite lookup_insert_eq. by eexists.
Qed.

(** a key that was retrieved in a session is given out by that session to every later
    call, under any passphrase, even after the key was deleted, until the session times out. *)
Theorem session_outlives_delete (w : KeystoreCrates) (j : KeystoreJson) (st st' : FileKeystore) (s : FileSession)
    (now later : N) (id pw pw' : string) (key : Bytes32)
    (Hs : session st = Some s) (Hlater : (later - start_time s < SESSION_TIMEOUT)%N)
    (H : retrieve_key w j st now id pw = (st', Ok key)) :
  (retrieve_key w j st' later id pw').2 = Ok key /\
  (retrieve_key w j (delete_key j st' id).1 later id pw').2 = Ok key.
Proof.
  assert (Hc : exists s', session st' = Some s' /\ get_cached later s' id = Some key).
  { unfold retrieve_key in H. rewrite Hs in H. cbn [mbind option_bind] in H. revert H.
    unfold get_cached, session_valid. destruct (N.ltb_spec (now - start_time s) SESSION_TIMEOUT).
    - destruct (cached_keys s !! id) as [x|] eqn:Hx.
      + intros [= <- <-]. exists s. split; [done|]. by rewrite (proj2 (N.ltb_lt _ _) Hlater).
      + destruct (open_entry _ _ _ _ _); [|done]. intros [= <- <-]. eexists. split; [done|].
        cbn. rewrite (proj2 (N.ltb_lt _ _) Hlater). by rewrite lookup_insert_eq.
    - destruct (open_entry _ _ _ _ _); [|done]. intros [= <- <-]. eexists. split; [done|].
      cbn. rewrite (proj2 (N.ltb_lt _ _) Hlater). by rewrite lookup_insert_eq. }
  destruct Hc as (s' & Hs' & Hg).
  assert (Hd : session (delete_key j st' id).1 = Some s').
  { unfold delete_key, write_meta. repeat case_match; done. }
  split; unfold retrieve_key; [rewrite Hs'|rewrite Hd]; cbn [mbind option_bind]; by rewrite Hg.
Qed.

(** importing an export.  The imported file takes the place of the one it came from, and
    deleting the imported key removes the file of both: the first key can then be listed, but
    neither retrieved, nor exported, nor deleted. *)
Theorem reimport_breaks (w : KeystoreCrates) (j : KeystoreJson) `{!JsonLaws j} (st st1 st2 : FileKeystore)
    (id id' chain : string) (label : option string) (at_ : N) (e : KeyEntry) (f : KeystoreFile)
    (He : meta_find (meta st) id = Some e) (Hfile : entry_file_id e = uuid_text j (kf_id f))
    (Hid : id <> uuid_text j (kf_id f)) (Hnew : meta_find (meta st) (uuid_text j (kf_id f)) = None)
    (Hexport : export_key j st id = Ok f)
    (Himport : import_key j st f chain label at_ = (st1, Ok id')) (Hdelete : delete_key j st1 id' = (st2, Ok tt)) :
  id ∈ list_keys st2 /\
  (forall pw, open_entry w j st2 id pw = Err (Error (FkKeystore (KsIo (not_found j))))) /\
  export_key j st2 id = Err (FkKeystore (KsIo (not_found j))) /\
  delete_key j st2 id = (st2, Err (Error (FkIo (not_found j)))).
Proof.
  unfold import_key, save_to in Himport. destruct (file_json j f) as [s|] eqn:Hs; [|done].
  apply write_meta_ok in Himport as (sm & _ & -> & _ & Hm1 & Hd1). cbn [meta with_meta write_file keystore_dir] in Hm1, Hd1.
  assert (Hfind1 : meta_find (meta st1) (uuid_text j (kf_id f)) =
                   Some (mkEntry (uuid_text j (kf_id f)) chain label at_ (uuid_text j (kf_id f)))).
  { by rewrite Hm1, meta_find_add, Hnew, bool_decide_true. }
  unfold delete_key in Hdelete. rewrite (find_file_entry _ _ _ Hfind1) in Hdelete. cbn [entry_file_id] in Hdelete.
  destruct (keystore_dir st1 !! key_path _) eqn:Hk; [|done].
  apply write_meta_ok in Hdelete as (sm2 & _ & _ & _ & Hm2 & Hd2). cbn [meta with_meta keystore_dir] in Hm2, Hd2.
  assert (Hfind2 : meta_find (meta st2) id = Some e).
  { rewrite Hm2, meta_find_remove, bool_decide_false by done. by rewrite Hm1, meta_find_add, He. }
  assert (Hgone : keystore_dir st2 !! key_path (entry_file_id e) = None).
  { rewrite Hd2, Hfile, lookup_insert_ne by (apply not_eq_sym, key_path_not_meta). apply lookup_delete_eq. }
  split; [|split; [|split]].
  - unfold list_keys. unfold meta_find in Hfind2. apply find_some in Hfind2 as [Hin Heq]. apply bool_decide_eq_true in Heq.
    apply list_elem_of_In, in_map_iff. by exists e.
  - intros pw. unfold open_entry. rewrite (find_file_entry _ _ _ Hfind2). cbn [map_err mbind result_bind].
    unfold load_from. by rewrite Hgone.
  - unfold export_key. rewrite (find_file_entry _ _ _ Hfind2). cbn [mbind result_bind]. unfold load_from. by rewrite Hgone.
  - unfold delete_key. rewrite (find_file_entry _ _ _ Hfind2). by rewrite Hgone.
Qed.

(** Every key that is listed has a file of its own. *)
Definition files_kept (st : FileKeystore) : Prop :=
  NoDup (map entry_file_id (meta_keys (meta st))) /\
  forall e, e ∈ meta_keys (meta st) -> is_Some (keystore_dir st !! key_path (entry_file_id e)).

Lemma files_kept_meta {A} j st (a : A) : files_kept st -> files_kept (write_meta j st a).1.
Proof.
  intros [Hn Hf]. unfold write_meta. destruct (meta_json j (meta st)); [|done].
  split; [done|]. intros e He. cbn. rewrite lookup_insert_ne by (apply not_eq_sym, key_path_not_meta). by apply Hf.
Qed.

(** the directory stays complete.  Storing under an identifier that no key of the
    directory has, retrieving, and deleting keep every listed key a file of its own, also when
    a call fails on the way. *)
Theorem directory_complete (w : KeystoreCrates) (j : KeystoreJson) `{!JsonLaws j} (st : FileKeystore)
    (H : files_kept st) (id chain : string) (label : option string) (key : Bytes32) (pw : string)
    (salt : result string Bytes32) (iv : option bytes) (uuid at_ now : N)
    (Hfresh : uuid_text j uuid ∉ map entry_file_id (meta_keys (meta st))) :
  files_kept (store_key w j st id chain label key pw salt iv uuid at_).1 /\
  files_kept (retrieve_key w j st now id pw).1 /\ files_kept (delete_key j st id).1.
Proof.
  destruct H as [Hn Hf]. split; [|split].
  - unfold store_key. destruct (keystore_encrypt _ _ _ _ _ _ _) as [f|] eqn:Hk; [|done].
    assert (Hid : kf_id f = uuid).
    { apply keystore_encrypt_inv in Hk as (? & ? & ? & ? & _ & _ & _ & _ & ->). done. }
    unfold save_to. rewrite Hid. destruct (file_json j f) as [s|]; [|done]. apply files_kept_meta. split.
    + cbn. rewrite map_app. apply NoDup_app. split; [done|]. split; [|apply NoDup_singleton].
      intros x Hx Hy%list_elem_of_singleton. by subst x.
      + cbn. intros e [He|He]%elem_of_app; [|apply list_elem_of_singleton in He as ->; by rewrite lookup_insert_eq].
      destruct (decide (key_path (uuid_text j uuid) = key_path (entry_file_id e))) as [->|];
        [by rewrite lookup_insert_eq|]. rewrite lookup_insert_ne by done. by apply Hf.
  - unfold retrieve_key. repeat case_match; done.
  - assert (Hsub : forall e, e ∈ meta_keys (meta_remove (meta st) id) -> e ∈ meta_keys (meta st) /\ entry_id e <> id).
    { cbn. intros e [? ?]%list_elem_of_filter. done. }
    assert (Hnd : NoDup (map entry_file_id (meta_keys (meta_remove (meta st) id)))).
    { cbn. eapply sublist_NoDup; [exact Hn|]. apply fmap_sublist, sublist_filter. }
    unfold delete_key. destruct (find_file st id) as [path|] eqn:Hp.
    + unfold find_file in Hp. apply bind_ok in Hp as (e & He%ok_or_ok & [= <-]).
      apply find_some in He as [Hin Hid]. apply list_elem_of_In in Hin. apply bool_decide_eq_true in Hid.
      destruct (keystore_dir st !! _); [|done]. apply files_kept_meta. split; [done|]. cbn.
      intros x Hx. destruct (Hsub _ Hx) as [Hx' Hne].
      rewrite lookup_delete_ne; [by apply Hf|]. intros Heq%key_path_inj.
      apply Hne. rewrite <- Hid. f_equal. apply list_elem_of_lookup in Hin as [n Hn'].
      apply list_elem_of_lookup in Hx' as [m Hm'].
      assert (n = m) as ->; [|congruence].
      eapply (NoDup_lookup _ n m _ Hn); rewrite list_lookup_fmap; [by rewrite Hn'|by rewrite Hm', Heq].
    + apply files_kept_meta. split; [done|]. intros x Hx. by apply Hf, Hsub.
Qed.

(** ** Seals in custody *)

(** How often a seal was closed in a run. *)
Fixpoint closes (seal : SealPoint) (l : list CustodyCall) (rs : list (result WalletError unit)) : nat :=
  match l, rs with
  | MarkConsumed s :: l, Ok _ :: rs => (if bool_decide (s = seal) then 1 else 0) + closes seal l rs
  | _ :: l, _ :: rs => closes seal l rs
  | _, _ => 0
  end.

(** What a call may do to a record that is there. *)
Definition custody_le (x y : option SealCustodyRecord) : Prop :=
  forall r, x = Some r -> exists r', y = Some r' /\ custody_chain r' = custody_chain r /\
    custody_key_id r' = custody_key_id r /\ custody_public_key r' = custody_public_key r /\
    (consumed r = true -> consumed r' = true).
Global Instance custody_le_preorder : PreOrder custody_le.
Proof.
  split.
  - intros x r ->. by exists r.
  - intros x y z Hxy Hyz r Hr. destruct (Hxy r Hr) as (r' & Hr' & ? & ? & ? & Hc).
    destruct (Hyz r' Hr') as (r'' & Hr'' & ? & ? & ? & Hc'). exists r''. repeat split; try congruence. auto.
Qed.

Lemma custody_call_le m a s : custody_le (m !! s) ((custody_call m a).1 !! s).
Proof.
  destruct a as [s' r|s']; cbn; unfold custody_record, mark_consumed; destruct (m !! s') as [x|] eqn:Hx; try done.
  - by destruct (negb _).
  - destruct (decide (s = s')) as [->|]; cbn; [by rewrite Hx|by rewrite lookup_insert_ne].
  - destruct (consumed x) eqn:Hc; cbn; [done|]. destruct (decide (s = s')) as [->|]; [|by rewrite lookup_insert_ne].
    rewrite Hx, lookup_insert_eq. intros r [= <-]. eexists. split; [done|]. cbn. naive_solver.
Qed.
Lemma custody_run_le l : forall m s, custody_le (m !! s) ((custody_run m l).1 !! s).
Proof.
  induction l as [|a l IH]; intros m s; [done|]. cbn.
  pose proof (custody_call_le m a s) as H. destruct (custody_call m a) as [m' r]. cbn in H.
  specialize (IH m' s). destruct (custody_run m' l). cbn in *. by etrans.
Qed.

Lemma consumed_le m m' s : custody_le (m !! s) (m' !! s) -> is_consumed m s = true -> is_consumed m' s = true.
Proof.
  unfold is_consumed. intros H. destruct (m !! s) as [r|] eqn:Hr; [|done]. intros Hc.
  destruct (H r eq_refl) as (r' & -> & _ & _ & _ & Hk). auto.
Qed.

Lemma mark_consumed_ok m s m' r : mark_consumed m s = (m', Ok r) -> controls m s = true /\ is_consumed m' s = true.
Proof.
  unfold mark_consumed, controls, is_consumed. destruct (m !! s) as [x|]; [|done].
  destruct (consumed x); [done|]. intros [= <- <-]. by rewrite lookup_insert_eq.
Qed.

Lemma closes_run s l : forall m m' rs, custody_run m l = (m', rs) ->
  closes s l rs <= 1 /\ (is_consumed m s = true -> closes s l rs = 0) /\
  (closes s l rs = 1 -> is_consumed m' s = true).
Proof.
  induction l as [|a l IH]; intros m m' rs; cbn; [by intros [= <- <-]; repeat split; lia|].
  pose proof (custody_call_le m a s) as Hle. destruct (custody_call m a) as [m1 r] eqn:Ha.
  pose proof (custody_run_le l m1 s) as Hrun. destruct (custody_run m1 l) as [m2 rs'] eqn:Hr.
  intros [= <- <-]. cbn in Hle, Hrun. destruct (IH _ _ _ Hr) as (H1 & H2 & H3).
  pose proof (consumed_le m m1 s Hle) as Hc.
  destruct a as [s' x|s']; [by repeat split; auto|]. destruct r as [[]|]; [|by repeat split; auto].
  case_bool_decide as Hs; [|by repeat split; auto]. subst s'.
  apply mark_consumed_ok in Ha as [Hk Hm1]. rewrite (H2 Hm1). split; [lia|]. split.
  - unfold controls, is_consumed in *. destruct (m !! s); [|done]. by destruct (consumed _).
  - intros _. by apply (consumed_le m1 m2 s Hrun).
Qed.

(** custody.  Whatever calls are made, in whatever order: a seal is closed at most once,
    never when it was consumed before, and is consumed afterwards; a seal under custody stays
    there under the key it was recorded with, and once consumed stays consumed. *)
Theorem custody_once (m : SealCustody) (l : list CustodyCall) (s : SealPoint) :
  let '(m', rs) := custody_run m l in
  closes s l rs <= 1 /\ (is_consumed m s = true -> closes s l rs = 0) /\
  (closes s l rs = 1 -> is_consumed m' s = true) /\ custody_le (m !! s) (m' !! s).
Proof.
  pose proof (custody_run_le l m s) as Hle. destruct (custody_run m l) as [m' rs] eqn:E.
  destruct (closes_run s l m m' rs E) as (? & ? & ?). by repeat split.
Qed.

(** ** Derivation *)

Lemma soft_hardened a : (a < HARDENED)%N -> soft (N.lor a HARDENED) = a.
Proof.
  intros Ha. unfold soft. rewrite N.land_lor_distr_l.
  change 2147483647%N with (N.ones 31). change (N.land HARDENED (N.ones 31)) with 0%N.
  rewrite N.lor_0_r, N.land_ones. by apply N.mod_small.
Qed.
Lemma five_cases c : c ∈ five_chains -> c = "bitcoin"%string \/ c = "ethereum"%string \/ c = "sui"%string \/
  c = "aptos"%string \/ c = "solana"%string.
Proof. unfold five_chains. set_solver. Qed.

Lemma all_chain_keys_lookup d seed account c :
  derive_all_chain_keys d seed account !! c =
  if bool_decide (c ∈ five_chains)
  then match derive_key d seed c account 0 with Ok key => Some key | Err _ => None end else None.
Proof.
  unfold derive_all_chain_keys.
  assert (H : forall l (m : gmap string bytes), (forall x, x ∈ l -> x ∈ five_chains) -> NoDup l ->
    (forall x, x ∈ l -> m !! x = None) ->
    fold_left (fun keys chain => match derive_key_from_name d seed chain account 0 with
      Ok key => <[chain := key]> keys | Err _ => keys end) l m !! c =
    if bool_decide (c ∈ l) then match derive_key d seed c account 0 with Ok key => Some key | Err _ => None end
    else m !! c).
  { induction l as [|x l IH]; intros m Hin Hnd Hm; cbn [fold_left]; [by rewrite bool_decide_false by apply not_elem_of_nil|].
    apply NoDup_cons in Hnd as [Hx Hnd]. assert (Hx5 : x ∈ five_chains) by (apply Hin; left).
    assert (derive_key_from_name d seed x account 0 = derive_key d seed x account 0) as ->
      by (unfold derive_key_from_name; by rewrite bool_decide_true).
    rewrite IH; [| |done|].
    - destruct (decide (c = x)) as [->|Hne].
      + rewrite (bool_decide_false (x ∈ l)), (bool_decide_true (x ∈ x :: l)) by (done || left).
        destruct (derive_key d seed x account 0); [by rewrite lookup_insert_eq|]. apply Hm. left.
      + rewrite (bool_decide_ext (c ∈ x :: l) (c ∈ l)) by (rewrite elem_of_cons; naive_solver).
        case_bool_decide; [done|]. destruct (derive_key d seed x account 0); [by rewrite lookup_insert_ne|done].
    - intros y Hy. apply Hin. by right.
    - intros y Hy. destruct (derive_key d seed x account 0); [|apply Hm; by right].
      rewrite lookup_insert_ne by (intros ->; done). apply Hm. by right. }
  rewrite H; [done|done|by apply (bool_decide_unpack _); vm_compute|done].
Qed.

(** derivation paths.  On the five chains of the program a path determines its chain, its
    account and its address.  Chains the program does not know all have one path and one key. *)
Theorem paths_distinct (c c' : string) (a a' i i' : N) (Ha : (a < HARDENED)%N) (Ha' : (a' < HARDENED)%N)
    (Hc : c ∈ five_chains) (Hc' : c' ∈ five_chains) (H : derivation_path c a i = derivation_path c' a' i') :
  c = c' /\ a = a' /\ i = i' /\
  (forall d seed x y, x ∉ five_chains -> y ∉ five_chains -> derive_key d seed x a i = derive_key d seed y a i).
Proof.
  assert (Hlor : N.lor a HARDENED = N.lor a' HARDENED -> a = a').
  { intros E. rewrite <- (soft_hardened a Ha), <- (soft_hardened a' Ha'). by rewrite E. }
  split; [|split; [|split]].
  - apply five_cases in Hc, Hc'. naive_solver.
  - apply five_cases in Hc, Hc'. naive_solver.
  - apply five_cases in Hc, Hc'. naive_solver.
  - intros d seed x y Hx Hy. unfold five_chains in Hx, Hy.
    unfold derive_key, derive_key_from_path, derivation_path, coin_type, on_secp.
    rewrite !bool_decide_false by set_solver. done.
Qed.

(** What the crates document of their own forms: a public key is parsed from its compressed
    form, and an Ed25519 key is its own. *)
Class DeriveLaws (d : DeriveCrates) (k : KeyCrates) : Prop := {
  compress_parse x p : secp_public d x = Ok p -> point_parse k (compress d p) = Ok p /\ length (compress d p) = 33;
  ed_parse x : ed_point k (ed_public d x) = Ok (ed_public d x) /\ length (ed_public d x) = 32
}.

(** an address is that of the key and that of its public key: on every chain and network,
    the address computed from a secret key is the one an ownership proof recomputes from the
    public key a signer publishes for it. *)
Theorem address_of_key_agrees (d : DeriveCrates) (k : KeyCrates) `{!DeriveLaws d k} (key pk : bytes)
    (chain : string) (network : Network) (Hlen : length key = 32) (H : public_key_bytes d key chain = Ok pk) :
  derive_address_from_key_with_network d k key chain network = derive_address_from_pubkey_with_network k pk chain network.
Proof.
  unfold derive_address_from_key_with_network, derive_address_from_pubkey_with_network. rewrite Hlen. cbn [guard_err Nat.eqb negb].
  unfold public_key_bytes in H.
  assert (Hsecp : on_secp chain = true -> secp_key d key = secp256k1_pubkey_from_bytes k pk).
  { intros E. rewrite E in H. destruct (secp_public d key) as [p|] eqn:Hp; [|done]. injection H as <-.
    destruct (compress_parse _ _ Hp) as [Hpp Hl]. unfold secp_key, secp256k1_pubkey_from_bytes.
    by rewrite Hp, Hl, Hpp. }
  assert (Hed : on_secp chain = false -> ed25519_verifying_key_from_bytes k pk = Ok (ed_public d key)).
  { intros E. rewrite E in H. injection H as <-. destruct (ed_parse key) as [Hp Hl].
    unfold ed25519_verifying_key_from_bytes. by rewrite Hl, Hp. }
  unfold derive_bitcoin_address_from_key, derive_bitcoin_address_from_pubkey, derive_ethereum_address_from_key,
    derive_ethereum_address_from_pubkey, derive_sui_address_from_pubkey, derive_aptos_address_from_pubkey,
    derive_solana_address_from_pubkey.
  case_bool_decide as H1; [by rewrite Hsecp by (by subst)|]. case_bool_decide as H2; [by rewrite Hsecp by (by subst)|].
  assert (Hno : on_secp chain = false) by (unfold on_secp; by rewrite !bool_decide_false).
  by rewrite !(Hed Hno).
Qed.

(** ** The wallet *)

Lemma key_name_inj x y : key_name x = key_name y -> x = y.
Proof.
  unfold key_name. intros H. apply (f_equal as_bytes) in H. rewrite !as_bytes_app in H.
  apply app_inv_tail in H. by apply as_bytes_inj.
Qed.

Lemma chain_signer_ok d lower show seed chain key x : chain_signer d lower show seed chain = Ok (key, x) ->
  derive_key d seed (lower chain) 0 0 = Ok key /\ derive_public_key d key (scheme_of chain) = Ok (public_key x) /\
  x = mkSigner (key_name chain) chain key (public_key x) (scheme_of chain).
Proof.
  unfold chain_signer. intros H. apply bind_ok in H as (k' & Hk%map_err_ok & H).
  apply bind_ok in H as (pk & Hp & [= <- <-]). done.
Qed.

Lemma add_chains_ok d lower show seed l : forall w w', add_chains d lower show seed w l = Ok w' ->
  wallet_config w' = wallet_config w /\ seal_custody w' = seal_custody w /\
  (forall c, c ∈ l -> exists key x, chain_signer d lower show seed c = Ok (key, x) /\
     signers w' !! c = Some x /\ keystore w' !! key_name c = Some (handle_of key)) /\
  (forall c, c ∉ l -> signers w' !! c = signers w !! c /\ keystore w' !! key_name c = keystore w !! key_name c).
Proof.
  induction l as [|a l IH]; intros w w'; cbn.
  { intros [= <-]. repeat split; auto; by intros c ?%elem_of_nil. }
  intros H. apply bind_ok in H as ([key x] & Hx & H). apply IH in H as (Hc & Hs & Hin & Hout). cbn in Hc, Hs, Hout.
  split; [done|]. split; [done|]. split.
  - intros c Hc'. destruct (decide (c ∈ l)) as [Hl|Hl]; [by apply Hin|].
    apply elem_of_cons in Hc' as [->|]; [|done]. destruct (Hout a Hl) as [E1 E2].
    exists key, x. split; [done|]. rewrite E1, E2. unfold add_key. by rewrite !lookup_insert_eq.
  - intros c [Hne Hl]%not_elem_of_cons. destruct (Hout c Hl) as [E1 E2]. rewrite E1, E2.
    unfold add_key. rewrite !lookup_insert_ne; [done| |done]. intros ?%key_name_inj. by subst.
Qed.

(** a wallet from a phrase.  When it is made, every configured chain has one signer, under
    the name of the chain's first address: its secret is the one derived from the seed for the
    chain, which is also stored under that name, and its public key is that secret's.  No other
    chain signs. *)
Theorem from_mnemonic_exact (d : DeriveCrates) (s : SignCrates) (lower : string -> string) (show : Bip44Error -> string)
    (restore : string -> option string -> result string bytes) (config : WalletConfig) (phrase : string)
    (passphrase : option string) (w : WalletManager)
    (H : from_mnemonic d lower show restore config phrase passphrase = Ok w) :
  exists seed, restore phrase passphrase = Ok seed /\ wallet_config w = config /\ seal_custody w = ∅ /\
  (forall c, c ∈ chains config -> exists key x, derive_key d seed (lower c) 0 0 = Ok key /\
     derive_public_key d key (scheme_of c) = Ok (public_key x) /\ get_signer w c = Some x /\
     x = mkSigner (key_name c) c key (public_key x) (scheme_of c) /\
     get_key (keystore w) (key_name c) = Some (handle_of key)) /\
  (forall c msg, c ∉ chains config -> wallet_sign d s w c msg = Err (UnsupportedChainError c)).
Proof.
  unfold from_mnemonic in H. apply bind_ok in H as (seed & Hr%map_err_ok & H). exists seed. split; [done|].
  apply add_chains_ok in H as (-> & -> & Hin & Hout). split; [done|]. split; [done|]. split.
  - intros c (key & x & Hx & Hs & Hk)%Hin. apply chain_signer_ok in Hx as (Hd & Hp & Heq). exists key, x.
    by repeat split.
  - intros c msg [Hn _]%Hout. unfold wallet_sign, get_signer. by rewrite Hn.
Qed.

(** the scheme of a chain is chosen by its spelling, its key by its name in lower case.
    A configuration that spells an Ed25519 chain with a capital gets the clamped Ed25519 key of
    the chain, in a signer that signs with it on secp256k1. *)
Theorem scheme_by_spelling (d : DeriveCrates) (lower : string -> string) (show : Bip44Error -> string) (seed : bytes)
    (chain : string) (key : bytes) (x : MemorySigner)
    (Hfix : forall c, c ∈ five_chains -> lower c = c) (Hchain : lower chain ∈ ["sui"; "aptos"; "solana"]%string)
    (Hspelt : chain <> lower chain) (H : chain_signer d lower show seed chain = Ok (key, x)) :
  key = derive_ed25519 d seed (derivation_path (lower chain) 0 0) /\ scheme x = Secp256k1 /\
  scheme_of (lower chain) = Ed25519.
Proof.
  apply chain_signer_ok in H as (Hk & _ & ->). cbn [scheme].
  assert (Hno : forall c, c ∈ five_chains -> chain <> c) by (intros c Hc ->; by rewrite (Hfix c Hc) in Hspelt).
  split; [|split].
  - unfold derive_key, derive_key_from_path, on_secp in Hk.
    rewrite !bool_decide_false in Hk by (intros E; rewrite E in Hchain; set_solver). cbn in Hk. congruence.
  - unfold scheme_of. rewrite !bool_decide_false; [done|..]; apply Hno; unfold five_chains; set_solver.
  - unfold scheme_of. apply elem_of_cons in Hchain as [->|[->|[->|[]%elem_of_nil]%elem_of_cons]%elem_of_cons]; reflexivity.
Qed.

(** funding addresses.  The address is that of the chain's key at the account's first
    index, whatever index is asked for; the seed is cut to 64 bytes, and a chain outside the
    five, or one whose key cannot be derived, is not supported. *)
Theorem funding_address_exact (d : DeriveCrates) (k : KeyCrates) (lower : string -> string) (show : Bip44Error -> string)
    (seed : bytes) (chain : string) (account index : N) :
  derive_funding_address d k lower show seed chain account index =
  (if length seed <? 64 then Err (WalletKeyDerivation ("Seed must be at least 64 bytes, got " +:+ show_nat (length seed)))
   else if bool_decide (lower chain ∈ five_chains)
   then match derive_key d (take 64 seed) (lower chain) account 0 with
        | Ok key => map_err (fun e => WalletKeyDerivation ("Failed to derive address: " +:+ show e))
                      (derive_address_from_key d k key (lower chain))
        | Err _ => Err (UnsupportedChainError chain)
        end
   else Err (UnsupportedChainError chain)).
Proof.
  unfold derive_funding_address, guard_err. destruct (length seed <? 64); [done|].
  rewrite all_chain_keys_lookup. case_bool_decide; [|done]. by destruct (derive_key _ _ _ _ _).
Qed.

(** custody assigned by a wallet.  A new seal comes under the chain's signer.  A seal the
    signer already has stays as it is, consumed or not, and the record that is returned says
    that it is not consumed; a seal of another key is refused. *)
Theorem assign_custody_exact (w : WalletManager) (seal : SealPoint) (chain : string) (x : MemorySigner)
    (H : get_signer w chain = Some x) :
  let fresh := mkCustody chain (signer_id x) (public_key x) false in
  let '(w', r) := assign_seal_custody w seal chain in
  signers w' = signers w /\
  match custody_of (seal_custody w) seal with
  | None => r = Ok fresh /\ custody_of (seal_custody w') seal = Some fresh
  | Some old => w' = w /\ r = (if same_key old fresh then Ok fresh
      else Err (SealCustodyError "seal already under a different controlling key"))
  end.
Proof.
  unfold assign_seal_custody, custody_of, custody_record. rewrite H.
  destruct (seal_custody w !! seal) as [old|] eqn:E; cbn.
  - destruct (same_key _ _); cbn; by destruct w.
  - by rewrite lookup_insert_eq.
Qed.

(** secrets by name.  A secret of 64 bytes is kept as a seed; any other is cut or padded
    with zeros to 32 bytes, so secrets that differ in trailing zeros, or after 32 bytes, are
    kept as one. *)
Theorem secrets_cut (secret : bytes) :
  (length secret = 64 -> handle_of secret = FromSeed secret) /\
  (length secret = 32 -> handle_of secret = FromBytes secret) /\
  (length secret < 32 -> handle_of (secret ++ [Byte.x00]) = handle_of secret) /\
  (forall rest, 32 <= length secret -> length secret <> 64 -> length (secret ++ rest) <> 64 ->
     handle_of (secret ++ rest) = handle_of secret).
Proof.
  unfold handle_of. split; [|split; [|split]].
  - intros ->. done.
  - intros H. rewrite H. cbn. unfold pad32. by rewrite H, take_ge, app_nil_r by lia.
  - intros H. rewrite length_app. cbn [length].
    rewrite !(proj2 (Nat.eqb_neq _ _)) by lia. f_equal. unfold pad32. rewrite !take_ge by (rewrite ?length_app; cbn; lia).
    rewrite length_app, <- app_assoc. cbn [length app]. f_equal.
    by replace (32 - length secret) with (S (32 - (length secret + 1))) by lia.
  - intros rest H Hne Hne'. rewrite !(proj2 (Nat.eqb_neq _ _)) by done. f_equal. unfold pad32.
    rewrite take_app_le by done. rewrite length_app.
    by replace (32 - (length secret + length rest)) with (32 - length secret) by lia.
Qed.

(** ** Concrete wallets *)

Global Instance KdfParams_eq_dec : EqDecision KdfParams. Proof. solve_decision. Defined.
Global Instance WalletHeader_eq_dec : EqDecision WalletHeader. Proof. solve_decision. Defined.
Global Instance WalletEnvelope_eq_dec : EqDecision WalletEnvelope. Proof. solve_decision. Defined.
Global Instance KeySourceKind_eq_dec : EqDecision KeySourceKind. Proof. solve_decision. Defined.
Global Instance KeySource_eq_dec : EqDecision KeySource. Proof. solve_decision. Defined.
Global Instance DerivationProfile_eq_dec : EqDecision DerivationProfile. Proof. solve_decision. Defined.
Global Instance KnownAccount_eq_dec : EqDecision KnownAccount. Proof. solve_decision. Defined.
Global Instance WalletPayload_eq_dec : EqDecision WalletPayload. Proof. solve_decision. Defined.
Global Instance FileKdfParams_eq_dec : EqDecision FileKdfParams. Proof. solve_decision. Defined.
Global Instance CryptoParams_eq_dec : EqDecision CryptoParams. Proof. solve_decision. Defined.
Global Instance KeystoreFile_eq_dec : EqDecision KeystoreFile. Proof. solve_decision. Defined.
Global Instance KeyEntry_eq_dec : EqDecision KeyEntry. Proof. solve_decision. Defined.
Global Instance KeystoreMeta_eq_dec : EqDecision KeystoreMeta. Proof. solve_decision. Defined.

Global Instance KeystoreError_eq_dec : EqDecision KeystoreError. Proof. solve_decision. Defined.
Global Instance failure_eq_dec {E} `{EqDecision E} : EqDecision (failure E). Proof. solve_decision. Defined.

Global Instance FileKeystoreError_eq_dec : EqDecision FileKeystoreError. Proof. solve_decision. Defined.

Definition demo_tag : bytes := replicate 16 Byte.x07.
Definition demo_open (x : bytes) : option bytes :=
  if bool_decide (drop (length x - 16) x = demo_tag) then Some (take (length x - 16) x) else None.
Lemma demo_open_tag m : demo_open (m ++ demo_tag) = Some m.
Proof.
  unfold demo_open. rewrite length_app. change (length demo_tag) with 16.
  replace (length m + 16 - 16) with (length m) by lia. by rewrite drop_app_length, take_app_length, bool_decide_true.
Qed.

Definition demo_payload : WalletPayload :=
  mkPayload 1 [mkSource "primary" Seed [Byte.x01; Byte.x02]] [] [mkAccount "bitcoin" "bc1q" "cold"] {["a"%string := "b"%string]}.
Definition demo_salt : bytes := replicate 32 Byte.x03.
Definition demo_nonce : bytes := replicate 12 Byte.x04.
Definition demo_envelope : WalletEnvelope :=
  mkWalletEnvelope (mkHeader MAGIC FORMAT_VERSION DEFAULT_KDF Aes256Gcm demo_salt demo_nonce) ([Byte.x01] ++ demo_tag).
Definition demo_wallet_crates (strong : bool) : WalletCrates :=
  mkWalletCrates (fun _ _ _ => strong) (fun _ _ _ _ _ => Some zero32)
    (fun _ _ m _ => Some (m ++ demo_tag)) (fun _ _ x _ => demo_open x).
(** An encoding of one value. *)
Definition enc_one {A} `{EqDecision A} (x : A) (b : bytes) (y : A) : option bytes := if bool_decide (y = x) then Some b else None.
Definition dec_one {A} (x : A) (b c : bytes) : option A := if bool_decide (c = b) then Some x else None.
Lemma enc_dec_one {A} `{EqDecision A} (x : A) b y c : enc_one x b y = Some c -> dec_one x b c = Some y.
Proof. unfold enc_one, dec_one. case_bool_decide as H; [|done]. intros [= <-]. subst. by rewrite bool_decide_true. Qed.
Definition demo_wallet_cbor : WalletCbor :=
  mkWalletCbor (fun _ => Some [Byte.x09]) (enc_one demo_payload [Byte.x01]) (dec_one demo_payload [Byte.x01])
    (enc_one demo_envelope [Byte.x02]) (dec_one demo_envelope [Byte.x02]).
Global Instance demo_wallet_laws : WalletLaws (demo_wallet_crates true) demo_wallet_cbor.
Proof.
  split; cbn.
  - intros k n m a x [= <-]. apply demo_open_tag.
  - intros k n m a x [= <-]. unfold blen. rewrite length_app. by rewrite Nat2N.inj_add.
  - intros p b. apply enc_dec_one.
  - intros e b. apply enc_dec_one.
Qed.

Lemma wallet_roundtrip_witness :
  encrypt_with_params (demo_wallet_crates true) demo_wallet_cbor demo_payload "pw" DEFAULT_KDF
    (Some demo_salt) (Some demo_nonce) = Ok [Byte.x02] /\
  wallet_decrypt (demo_wallet_crates true) demo_wallet_cbor [Byte.x02] "pw" = Ok demo_payload.
Proof.
  split; [by vm_compute|].
  apply (wallet_roundtrip (demo_wallet_crates true) demo_wallet_cbor demo_payload "pw" DEFAULT_KDF
    (Some demo_salt) (Some demo_nonce) [Byte.x02]). by vm_compute.
Defined.

Lemma wallet_costs_bounded_witness :
  exists env, bounded_file demo_wallet_cbor [Byte.x02] env /\
    (blen (envelope_ciphertext env) <= 4194320)%N.
Proof.
  destruct (wallet_costs_bounded (demo_wallet_crates true) (demo_wallet_crates false) demo_wallet_cbor [Byte.x02] "pw" "pw")
    as (env & Hb & _ & _ & _ & H).
  - by vm_compute.
  - by exists env.
Defined.

Definition demo_one : Bytes32 := fill32 Byte.x01.
Definition demo_keystore_crates : KeystoreCrates :=
  mkKeystoreCrates (fun _ _ _ pass _ => match pass with [] => Ok zero32 | _ => Ok demo_one end) (fun _ _ _ => zero32)
    (fun _ _ m => Ok (m ++ demo_tag)) (fun _ _ x => ok_or "bad tag"%string (demo_open x))
    (fun x => match x with Byte.x00 :: _ => zero32 | _ => demo_one end) (fun _ => "hex"%string).
Global Instance demo_keystore_laws : KeystoreLaws demo_keystore_crates.
Proof. intros k n m x [= <-]. cbn. by rewrite demo_open_tag. Qed.

Definition demo_iv : bytes := replicate 16 Byte.x05.
Definition demo_key_file : KeystoreFile :=
  mkKeystoreFile 3 7 (mkCrypto "aes-256-gcm" (hex_text (b32 demo_one ++ demo_tag)) (hex_text demo_iv) "scrypt"
    (recorded_params Scrypt (b32 zero32)) (hex_text (b32 demo_one))).

Lemma keystore_opens_witness :
  keystore_decrypt demo_keystore_crates demo_key_file "pw" = Ok demo_one /\
  keystore_decrypt demo_keystore_crates demo_key_file "" = Err (Error (DecryptionFailed MAC_MISMATCH)).
Proof.
  split; [|by apply (bool_decide_unpack _); vm_compute].
  apply (keystore_opens demo_keystore_crates demo_one "pw" "" Scrypt (Ok zero32) demo_iv 7 demo_key_file); [done|].
  by apply (bool_decide_unpack _); vm_compute.
Defined.

Definition demo_entry : KeyEntry := mkEntry "alice" "bitcoin" None 5 "seven".
Definition demo_json : KeystoreJson :=
  mkKeystoreJson (fun f => ok_or "json"%string (if bool_decide (f = demo_key_file) then Some "file"%string else None))
    (fun s => ok_or "json"%string (if bool_decide (s = "file"%string) then Some demo_key_file else None))
    (fun m => ok_or "json"%string (if bool_decide (m = mkMeta 1 [demo_entry]) then Some "meta"%string else None))
    (fun s => ok_or "json"%string (if bool_decide (s = "meta"%string) then Some (mkMeta 1 [demo_entry]) else None))
    (fun _ => "seven"%string) "No such file or directory".
Global Instance demo_json_laws : JsonLaws demo_json.
Proof.
  split; cbn; intros x y.
  - case_bool_decide; [|done]. intros [= <-]. by subst.
  - case_bool_decide; [|done]. intros [= <-]. by subst.
Qed.

Definition empty_dir : FileKeystore := mkFileKeystore ∅ None meta_default.
Definition demo_store : FileKeystore * result (failure FileKeystoreError) unit :=
  store_key demo_keystore_crates demo_json empty_dir "alice" "bitcoin" None demo_one "pw" (Ok zero32) (Some demo_iv) 7 5.
Lemma demo_key_stored : demo_store.2 = Ok tt.
Proof. unfold demo_store, store_key. by vm_compute. Qed.

Lemma file_keystore_roundtrip_witness :
  list_keys demo_store.1 = ["alice"%string] /\
  (retrieve_key demo_keystore_crates demo_json demo_store.1 0 "alice" "pw").2 = Ok demo_one.
Proof.
  destruct (file_keystore_roundtrip demo_keystore_crates demo_json empty_dir demo_store.1 "alice" "bitcoin" None demo_one
    "pw" (Ok zero32) demo_iv 7 5 0) as (Hl & Hr & _); [done|done| |].
  - fold demo_store. rewrite <- demo_key_stored. by destruct demo_store.
  - split; [exact Hl|]. by apply Hr.
Defined.

Lemma session_outlives_delete_witness :
  let st := (retrieve_key demo_keystore_crates demo_json (start_session demo_store.1 0) 1 "alice" "pw").1 in
  (retrieve_key demo_keystore_crates demo_json (delete_key demo_json st "alice").1 2 "alice" "wrong").2 = Ok demo_one.
Proof.
  intros st.
  apply (session_outlives_delete demo_keystore_crates demo_json (start_session demo_store.1 0) st
    (mkSession 0 ∅) 1 2 "alice" "pw" "wrong" demo_one); [done|by vm_compute|].
  assert (H : (retrieve_key demo_keystore_crates demo_json (start_session demo_store.1 0) 1 "alice" "pw").2 = Ok demo_one)
    by (apply (bool_decide_unpack _); by vm_compute).
  unfold st. by destruct (retrieve_key _ _ _ _ _ _); cbn in *; subst.
Defined.
