(* ===== verification/Celestia.v ===== *)
(** * Celestia (csv-adapters/csv-celestia: namespace.rs, proof_id.rs, blob.rs, commitment.rs,
    ipfs.rs, metadata.rs, types.rs, da_layer.rs, client.rs, seal_protocol.rs)

    Proofs are kept as blobs in namespaces of the chain; large ones go to IPFS and leave a
    reference on the chain.  Here are the identifiers with their byte forms, blobs and their
    commitments, metadata, the layer that stores and reads back, its client, and the seals of
    the adapter.  What the chain and IPFS answer are records of functions over a state, with
    the one law that what was put is got back; the adapter's mocks are an instance.  The
    parser and printer of CIDs, JSON and the clock are parameters; times to wait are left out. *)

From S2P Require Import Prelude Ord Bytes Hashing Text Seal Dag ProofTaxonomy.
From S2P Require Consignment ChainProofs CodecRules.

Inductive CelestiaError :=
| InvalidInput (m : string) | InvalidNamespace (m : string) | BlobTooLarge (size max : N) | EmptyBlob
| CommitmentVerificationFailed (m : string) | InvalidProofId (m : string) | RpcError (m : string)
| NetworkError (m : string) | IpfsError (m : string) | InvalidCid (m : string) | DataNotFound (m : string)
| InclusionTimeout (attempts : N) | SerializationError (m : string) | DeserializationError (m : string)
| SealProtocolError (m : string) | FraudProofError (m : string) | MetadataValidationFailed (m : string)
| InvalidHeight (h : N) | NamespaceMismatch (expected actual : string) | FeatureNotEnabled (f : string)
| InternalError (m : string).

Definition is_retryable (e : CelestiaError) : bool :=
  match e with RpcError _ | NetworkError _ | InclusionTimeout _ | DataNotFound _ => true | _ => false end.
Definition is_ipfs_error (e : CelestiaError) : bool :=
  match e with IpfsError _ | InvalidCid _ => true | _ => false end.

Definition MAX_BLOB_SIZE : N := 2 * 1024 * 1024.
Definition MAX_IPFS_DATA_SIZE : N := 100 * 1024 * 1024.

(** ** Namespaces (namespace.rs): arrays of 28 bytes *)

Notation Namespace := bytes.
Definition NAMESPACE_SIZE : nat := 28.
Definition CSV_MAGIC : bytes := as_bytes "csv" ++ [Byte.x00].
Definition namespace_ok (n : Namespace) : Prop := length n = NAMESPACE_SIZE.

Definition namespace_from_slice (b : bytes) : result CelestiaError Namespace :=
  reject negb (length b =? NAMESPACE_SIZE)
    with InvalidNamespace ("Expected 28 bytes, got " +:+ show_nat (length b)) ;; Ok b.

(** [Namespace::csv]: the version, the magic, the two fields, and zeros *)
Definition csv_namespace (chain_id sanad_type : bytes) : Namespace :=
  [Byte.x00] ++ CSV_MAGIC ++ chain_id ++ sanad_type ++ replicate 11 Byte.x00.
Definition namespace_to_hex (n : Namespace) : string := of_bytes (hex_encode n).
Definition is_csv (n : Namespace) : bool := bool_decide (take 4 (drop 1 n) = CSV_MAGIC).
Definition chain_id (n : Namespace) : option bytes := if is_csv n then Some (take 4 (drop 5 n)) else None.
Definition sanad_type (n : Namespace) : option bytes := if is_csv n then Some (take 8 (drop 9 n)) else None.

(** A name padded to the field with zeros, as the byte-string literals write it. *)
Definition field (s : string) : bytes := as_bytes s ++ [Byte.x00].
Definition bitcoin_stark : Namespace := csv_namespace (field "btc") (as_bytes "stark-v1").
Definition sui_stark : Namespace := csv_namespace (field "sui") (as_bytes "stark-v1").
Definition solana_stark : Namespace := csv_namespace (field "sol") (as_bytes "stark-v1").
Definition ethereum_stark : Namespace := csv_namespace (field "eth") (as_bytes "stark-v1").
Definition aptos_stark : Namespace := csv_namespace (field "apt") (as_bytes "stark-v1").
Definition fraud_proofs : Namespace := csv_namespace (field "all") (as_bytes "fraud-pr").
Definition metadata_ns : Namespace := csv_namespace (field "all") (as_bytes "metadata").

(** ** Proof identifiers and locations (proof_id.rs) *)

Record ProofId := mkProofId { pid_height : N; pid_namespace : Namespace; pid_commitment : Bytes32 }.
Global Instance ProofId_eq_dec : EqDecision ProofId. Proof. solve_decision. Defined.
Definition PROOF_ID_SIZE : nat := 68.
Definition proof_id_ok (p : ProofId) : Prop := (pid_height p <= u64_max)%N /\ namespace_ok (pid_namespace p).

Definition proof_id_to_bytes (p : ProofId) : bytes :=
  u64_le (pid_height p) ++ pid_namespace p ++ b32 (pid_commitment p).
Definition proof_id_from_bytes (b : bytes) : result CelestiaError ProofId :=
  reject negb (length b =? PROOF_ID_SIZE)
    with InvalidProofId ("Expected 68 bytes, got " +:+ show_nat (length b)) ;;
  ns ← namespace_from_slice (take 28 (drop 8 b));
  Ok (mkProofId (of_le_bytes (take 8 b)) ns (default zero32 (to_b32 (drop 36 b)))).
(** [short] *)
Definition short (p : ProofId) : string := String.substring 0 16 (of_bytes (hex_encode (proof_id_to_bytes p))).

Inductive ProofLocation :=
| Celestia (proof_id : ProofId)
| IpfsBacked (anchor_height : N) (cid : string) (namespace : Namespace)
| Hybrid (metadata_id : ProofId) (data_cid : string).
Global Instance ProofLocation_eq_dec : EqDecision ProofLocation. Proof. solve_decision. Defined.

Definition location_height (l : ProofLocation) : N :=
  match l with Celestia p => pid_height p | IpfsBacked h _ _ => h | Hybrid p _ => pid_height p end.
Definition location_namespace (l : ProofLocation) : Namespace :=
  match l with Celestia p => pid_namespace p | IpfsBacked _ _ n => n | Hybrid p _ => pid_namespace p end.
Definition location_cid (l : ProofLocation) : option string :=
  match l with Celestia _ => None | IpfsBacked _ c _ => Some c | Hybrid _ c => Some c end.
Definition uses_ipfs (l : ProofLocation) : bool := match l with Celestia _ => false | _ => true end.

(** A text behind its length, which is cut to 16 bits. *)
Definition cid_bytes (s : string) : bytes := le_bytes 2 (slen s mod 65536) ++ as_bytes s.

Definition location_to_bytes (l : ProofLocation) : bytes :=
  match l with
  | Celestia p => Byte.x01 :: proof_id_to_bytes p
  | IpfsBacked h c n => Byte.x02 :: u64_le h ++ n ++ cid_bytes c
  | Hybrid p c => Byte.x03 :: proof_id_to_bytes p ++ cid_bytes c
  end.

(** The text behind its length at [at_] bytes into the input, which is at least [at_ + 2] long. *)
Definition read_cid (b : bytes) (at_ : nat) : result CelestiaError string :=
  let cid_len := N.to_nat (of_le_bytes (take 2 (drop at_ b))) in
  reject length b <? at_ + 2 + cid_len with DeserializationError "CID data truncated" ;;
  map_err (fun e => DeserializationError ("Invalid CID UTF8: " +:+ utf8_error_message e))
    (from_utf8 (take cid_len (drop (at_ + 2) b))).

Definition location_from_bytes (b : bytes) : result CelestiaError ProofLocation :=
  match b with
  | [] => Err (DeserializationError "Empty bytes for ProofLocation")
  | Byte.x01 :: rest =>
      reject length b <? 69 with DeserializationError "Insufficient bytes for Celestia ProofLocation" ;;
      p ← proof_id_from_bytes (take 68 rest); Ok (Celestia p)
  | Byte.x02 :: rest =>
      reject length b <? 39 with DeserializationError "Insufficient bytes for IPFS ProofLocation" ;;
      n ← namespace_from_slice (take 28 (drop 8 rest));
      cid ← read_cid b 37; Ok (IpfsBacked (of_le_bytes (take 8 rest)) cid n)
  | Byte.x03 :: rest =>
      reject length b <? 71 with DeserializationError "Insufficient bytes for Hybrid ProofLocation" ;;
      p ← proof_id_from_bytes (take 68 rest);
      cid ← read_cid b 69; Ok (Hybrid p cid)
  | d :: _ => Err (DeserializationError ("Unknown ProofLocation discriminant: " +:+ pretty (Byte.to_N d)))
  end.

(** ** Blobs and commitments (blob.rs, commitment.rs) *)

Section Hashed.
Variable sha256 : bytes -> Bytes32.

(** [from_name] *)
Definition from_name (name : string) : Namespace := Byte.x00 :: take 27 (b32 (sha256 (as_bytes name))).

Definition proof_id_hash (p : ProofId) : Bytes32 := sha256 (proof_id_to_bytes p).

(** The cached commitment of a blob is the one computed from it: it is set when the blob is made
    and left out when it is serialized. *)
Record Blob := mkBlob { blob_namespace : Namespace; blob_data : bytes }.
Definition commitment_compute (n : Namespace) (data : bytes) : Bytes32 := sha256 (n ++ data).
Definition blob_commitment (b : Blob) : Bytes32 := commitment_compute (blob_namespace b) (blob_data b).
Definition blob_new (n : Namespace) (data : bytes) : result CelestiaError Blob :=
  reject (blen data =? 0)%N with EmptyBlob ;;
  reject (MAX_BLOB_SIZE <? blen data)%N with BlobTooLarge (blen data) MAX_BLOB_SIZE ;;
  Ok (mkBlob n data).
Definition verify_commitment (b : Blob) (expected : Bytes32) : bool := bool_decide (blob_commitment b = expected).
Definition blob_to_bytes (b : Blob) : bytes := blob_namespace b ++ blob_data b.
Definition blob_from_bytes (b : bytes) : result CelestiaError Blob :=
  reject length b <? 29
    with DeserializationError "Blob too small (need at least 29 bytes: 28 namespace + 1 data)" ;;
  n ← namespace_from_slice (take 28 b); blob_new n (drop 28 b).
(** [share_count]: a division by zero panics *)
Definition share_count (b : Blob) (share_size : N) : option N :=
  if (share_size =? 0)%N then None else Some ((blen (blob_data b) + share_size - 1) / share_size)%N.

Record CommitmentProof := mkCommitmentProof {
  cp_height : N; cp_namespace : Namespace; cp_commitment : Bytes32; row_root : Bytes32; row_index : N;
  share_index : N; row_proof : list Bytes32; data_root : Bytes32; data_proof : list Bytes32;
  cp_block_hash : Bytes32; share_range : N * N }.
Definition commitment_proof_new (h : N) (n : Namespace) (c row data block : Bytes32) : CommitmentProof :=
  mkCommitmentProof h n c row 0 0 [] data [] block (0%N, 0%N).
Definition zeros (h : Bytes32) : bool := bool_decide (h = zero32).
Definition commitment_verify_structure (p : CommitmentProof) : result CelestiaError unit :=
  reject zeros (row_root p) with CommitmentVerificationFailed "Missing row root" ;;
  reject zeros (data_root p) with CommitmentVerificationFailed "Missing data root" ;;
  reject zeros (cp_block_hash p) with CommitmentVerificationFailed "Missing block hash" ;; Ok tt.
Definition commitment_proof_id (p : CommitmentProof) : ProofId := mkProofId (cp_height p) (cp_namespace p) (cp_commitment p).

(** [AvailabilityProof]: the confidence is the quotient of the two counters, which are [u32] *)
Record AvailabilityProof := mkAvailability { av_height : N; av_data_root : Bytes32; samples : N; successful : N }.
Definition availability_new (h : N) (root : Bytes32) : AvailabilityProof := mkAvailability h root 0 0.
Definition add_sample (success : bool) (a : AvailabilityProof) : AvailabilityProof :=
  mkAvailability (av_height a) (av_data_root a) (wrap32 (samples a + 1))
    (if success then wrap32 (successful a + 1) else successful a).

Inductive FraudEvidence :=
| MissingShare (row share : N) | InvalidMerkleProof (index : N) (expected actual : Bytes32)
| InvalidNamespaceEvidence (expected actual : Namespace) | IpfsUnavailable (cid error : string)
| ContentMismatch (cid : string) (computed : Bytes32).
Record FraudProof := mkFraud {
  challenged_height : N; challenged_commitment : Bytes32; evidence : FraudEvidence;
  challenger_signature : bytes; challenge_time : N }.
Definition fraud_new (h : N) (c : Bytes32) (e : FraudEvidence) (now : N) : FraudProof := mkFraud h c e [] now.
Definition fraud_verify_structure (p : FraudProof) : result CelestiaError unit :=
  reject bool_decide (challenger_signature p = []) with FraudProofError "Missing challenger signature" ;;
  reject zeros (challenged_commitment p) with FraudProofError "Invalid challenged commitment" ;; Ok tt.

(** ** References to IPFS (ipfs.rs) *)

Record IpfsCid := mkCid { cid_text : string; cid_version : N; cid_codec : N; cid_hash_code : N; cid_hash : bytes }.

(** The CID crate: the version, codec, hash code and digest of a text, and the text of a
    version 1 CID of raw data under a SHA-256 digest. *)
Record CidCrate := mkCidCrate {
  cid_parse : string -> result string (N * N * N * bytes);
  cid_v1_raw : Bytes32 -> string
}.
Variable cids : CidCrate.

Definition cid_from_string (s : string) : result CelestiaError IpfsCid :=
  x ← map_err (fun e => InvalidCid ("Failed to parse CID: " +:+ e)) (cid_parse cids s);
  Ok (mkCid s x.1.1.1 x.1.1.2 x.1.2 x.2).
Definition cid_from_data (data : bytes) : result CelestiaError IpfsCid :=
  reject (blen data =? 0)%N with InvalidCid "Cannot create CID from empty data" ;;
  reject (MAX_IPFS_DATA_SIZE <? blen data)%N
    with InvalidCid ("Data too large: " +:+ pretty (blen data) +:+ " bytes (max: " +:+ pretty MAX_IPFS_DATA_SIZE +:+ ")") ;;
  Ok (mkCid (cid_v1_raw cids (sha256 data)) 1 85 18 (b32 (sha256 data))).
Definition verify_data (c : IpfsCid) (data : bytes) : bool :=
  match cid_from_data data with Ok x => bool_decide (cid_text x = cid_text c) | Err _ => false end.

Record IpfsReference := mkReference {
  ref_cid : IpfsCid; ref_size : N; ref_content_type : option string; ref_pinned : bool; ref_timestamp : N }.
Definition to_anchor_bytes (r : IpfsReference) : bytes :=
  cid_bytes (cid_text (ref_cid r)) ++ u64_le (ref_size r) ++ u64_le (ref_timestamp r) ++
  [if ref_pinned r then Byte.x01 else Byte.x00].
Definition from_anchor_bytes (b : bytes) : result CelestiaError IpfsReference :=
  reject length b <? 19 with DeserializationError "Insufficient bytes for IPFS reference" ;;
  let cid_len := N.to_nat (of_le_bytes (take 2 b)) in
  reject length b <? 2 + cid_len + 17 with DeserializationError "CID data truncated" ;;
  s ← map_err (fun e => DeserializationError ("Invalid CID UTF8: " +:+ utf8_error_message e))
        (from_utf8 (take cid_len (drop 2 b)));
  cid ← cid_from_string s;
  let rest := drop (2 + cid_len) b in
  Ok (mkReference cid (of_le_bytes (take 8 rest)) None
        (match drop 16 rest with Byte.x01 :: _ => true | _ => false end) (of_le_bytes (take 8 (drop 8 rest)))).

(** ** Metadata (metadata.rs, types.rs) *)

Record ProofInfo := mkProofInfo {
  pi_size : N; pi_format : string; pi_proof_system : string; pi_estimated_ms : N; pi_public_inputs : N;
  pi_circuit_id : option string; pi_verifier_key_ref : option ProofLocation }.
Record VerificationRequirements := mkRequirements {
  min_celestia_depth : N; require_ipfs_available : bool; req_inclusion : bool; req_finality : bool;
  challenge_stake_bps : N }.
Definition requirements_default : VerificationRequirements := mkRequirements 1 false true true 1000.

(** [extra], a JSON map, is carried as its text. *)
Record SanadMetadata := mkMetadata {
  md_id : Bytes32; md_sanad_type : string; md_source_chain : string; md_target_chain : option string;
  md_location : ProofLocation; md_commitment : Bytes32; md_info : ProofInfo;
  md_verification : VerificationRequirements; md_created_at : N; md_expires_at : option N; md_extra : string }.

Definition compute_id (l : ProofLocation) (c : Bytes32) : Bytes32 := sha256 (location_to_bytes l ++ b32 c).
Definition metadata_new (kind source : string) (l : ProofLocation) (c : Bytes32) (info : ProofInfo) (now : N)
  : SanadMetadata :=
  mkMetadata (compute_id l c) kind source None l c info requirements_default now None "{}".
Definition metadata_verify_structure (now : N) (m : SanadMetadata) : result CelestiaError unit :=
  reject negb (bool_decide (md_id m = compute_id (md_location m) (md_commitment m)))
    with MetadataValidationFailed "ID mismatch - possible tampering" ;;
  match md_expires_at m with
  | Some e => reject (e <? now)%N with MetadataValidationFailed "Metadata has expired" ;; Ok tt
  | None => Ok tt
  end.
Definition metadata_proof_id (m : SanadMetadata) : ProofId :=
  match md_location m with
  | Celestia p => p
  | IpfsBacked h _ n => mkProofId h n (md_commitment m)
  | Hybrid p _ => p
  end.

Record CelestiaMetadata := mkCelMetadata {
  cm_location : ProofLocation; cm_created_at : N; cm_expires_at : option N; cm_content_type : string;
  cm_original_size : N; cm_compression : option string; cm_encoding : string; cm_checksums : list (string * Bytes32) }.
Definition cel_metadata_new (l : ProofLocation) (content_type : string) (size now : N) : CelestiaMetadata :=
  mkCelMetadata l now None content_type size None "raw" [].
Definition add_checksum (algorithm : string) (h : Bytes32) (m : CelestiaMetadata) : CelestiaMetadata :=
  mkCelMetadata (cm_location m) (cm_created_at m) (cm_expires_at m) (cm_content_type m) (cm_original_size m)
    (cm_compression m) (cm_encoding m) (cm_checksums m ++ [(algorithm, h)]).
Definition with_expiration (e : N) (m : CelestiaMetadata) : CelestiaMetadata :=
  mkCelMetadata (cm_location m) (cm_created_at m) (Some e) (cm_content_type m) (cm_original_size m)
    (cm_compression m) (cm_encoding m) (cm_checksums m).
(** The first entry of the algorithm decides. *)
Fixpoint checksum_from (l : list (string * Bytes32)) (algorithm : string) (data : bytes) : bool :=
  match l with
  | [] => false
  | (algo, expected) :: l =>
      if bool_decide (algo = algorithm)
      then bool_decide (algorithm = "sha256"%string) && bool_decide (sha256 data = expected)
      else checksum_from l algorithm data
  end.
Definition verify_checksum (m : CelestiaMetadata) := checksum_from (cm_checksums m).
Definition to_celestia_metadata (now : N) (m : SanadMetadata) : CelestiaMetadata :=
  let c := add_checksum "sha256" (md_commitment m)
             (cel_metadata_new (md_location m) (pi_format (md_info m)) (pi_size (md_info m)) now) in
  match md_expires_at m with Some e => with_expiration e c | None => c end.

Record MetadataBatch := mkBatch {
  batch_id : Bytes32; entries : list SanadMetadata; merkle_root : Bytes32; batch_timestamp : N }.
Definition compute_merkle_root (l : list SanadMetadata) : Bytes32 :=
  match l with [] => zero32 | _ => sha256 (flat_map (fun e => b32 (md_id e)) l) end.
Definition batch_new (l : list SanadMetadata) (now : N) : MetadataBatch :=
  let root := compute_merkle_root l in mkBatch (sha256 (b32 root ++ u64_le now)) l root now.
Definition find_by_id (b : MetadataBatch) (id : Bytes32) : option SanadMetadata :=
  List.find (fun e => bool_decide (md_id e = id)) (entries b).

Inductive ChallengeStatus :=
| Unchallenged | ChPending (challenger : string) (at_ stake : N)
| ChSuccessful (challenger : string) (at_ : N) (fraud : FraudProof) | ChRejected (challenger : string) (at_ : N) (reason : string).
Record ChallengeRecord := mkChallenge {
  ch_sanad_id : Bytes32; ch_challenger : string; ch_time : N; ch_evidence : FraudEvidence; ch_stake : N;
  ch_status : ChallengeStatus; ch_height : N; ch_tx_hash : Bytes32 }.
Definition challenge_new (sanad : Bytes32) (challenger : string) (e : FraudEvidence) (stake height : N)
    (tx : Bytes32) (now : N) : ChallengeRecord :=
  mkChallenge sanad challenger now e stake (ChPending "" now stake) height tx.
Definition set_status (s : ChallengeStatus) (c : ChallengeRecord) : ChallengeRecord :=
  mkChallenge (ch_sanad_id c) (ch_challenger c) (ch_time c) (ch_evidence c) (ch_stake c) s (ch_height c) (ch_tx_hash c).
Definition succeed (f : FraudProof) (resolver : string) (now : N) (c : ChallengeRecord) : ChallengeRecord :=
  set_status (ChSuccessful resolver now f) c.
Definition reject_challenge (reason resolver : string) (now : N) (c : ChallengeRecord) : ChallengeRecord :=
  set_status (ChRejected resolver now reason) c.
Definition is_pending (c : ChallengeRecord) : bool := match ch_status c with ChPending _ _ _ => true | _ => false end.
Definition is_successful (c : ChallengeRecord) : bool := match ch_status c with ChSuccessful _ _ _ => true | _ => false end.

(** ** Points, anchors and headers (types.rs) *)

Record CelestiaSealPoint := mkCelSeal {
  seal_proof_id : ProofId; seal_height : N; seal_consumed : bool; consumption_tx : option Bytes32;
  ipfs_cid : option string }.
Definition cel_seal_new (p : ProofId) (h : N) : CelestiaSealPoint := mkCelSeal p h false None None.
Definition with_ipfs (cid : string) (s : CelestiaSealPoint) : CelestiaSealPoint :=
  mkCelSeal (seal_proof_id s) (seal_height s) (seal_consumed s) (consumption_tx s) (Some cid).
Definition consume (tx : Bytes32) (s : CelestiaSealPoint) : CelestiaSealPoint :=
  mkCelSeal (seal_proof_id s) (seal_height s) true (Some tx) (ipfs_cid s).
Definition seal_is_valid (s : CelestiaSealPoint) : bool := negb (seal_consumed s).
(** [to_core_seal]: the constructor's checks, or no check at all *)
Definition to_core_seal (s : CelestiaSealPoint) : SealPoint :=
  match SealPoint_new (proof_id_to_bytes (seal_proof_id s)) (Some (seal_height s)) None with
  | Ok p => p
  | Err _ => mkSealPoint (proof_id_to_bytes (seal_proof_id s)) (Some (seal_height s)) None
  end.

Record CelestiaAnchor := mkCelAnchor {
  location : ProofLocation; an_height : N; an_block_hash : Bytes32; an_timestamp : N; an_commitment : Bytes32;
  an_inclusion_proof : option CommitmentProof; an_tx_hash : Bytes32 }.
Definition cel_anchor_new (l : ProofLocation) (h : N) (block : Bytes32) (c tx : Bytes32) (now : N) : CelestiaAnchor :=
  mkCelAnchor l h block now c None tx.
Definition anchor_proof_id (a : CelestiaAnchor) : ProofId :=
  match location a with
  | Celestia p => p
  | l => mkProofId (an_height a) (location_namespace l) (an_commitment a)
  end.

Record CelestiaFinalityProof := mkCelFinality {
  fp_height : N; fp_block_hash : Bytes32; fp_data_root : Bytes32; quorum_signatures : list bytes; has_finality : bool }.
Definition finality_new (h : N) (block root : Bytes32) : CelestiaFinalityProof := mkCelFinality h block root [] false.
Definition with_quorum (sigs : list bytes) (p : CelestiaFinalityProof) : CelestiaFinalityProof :=
  mkCelFinality (fp_height p) (fp_block_hash p) (fp_data_root p) sigs (negb (bool_decide (sigs = []))).
Definition finality_verify_structure (p : CelestiaFinalityProof) : result CelestiaError unit :=
  reject zeros (fp_block_hash p) with InvalidProofId "Missing block hash" ;;
  reject zeros (fp_data_root p) with InvalidProofId "Missing data root" ;; Ok tt.

Record CelestiaHeader := mkCelHeader {
  hd_chain_id : string; hd_height : N; hd_time : N; hd_hash : Bytes32; hd_data_root : Bytes32 }.
Definition header_verify (expected : N) (h : CelestiaHeader) : result CelestiaError unit :=
  reject negb (hd_height h =? expected)%N with InvalidHeight (hd_height h) ;;
  reject zeros (hd_hash h) with InvalidProofId "Invalid block hash" ;; Ok tt.

(** ** The layer of data availability (da_layer.rs) *)

(** What the chain and IPFS answer, over a state of theirs; reading leaves it as it is. *)
Record Net (S : Type) := mkNet {
  rpc_submit : Namespace -> bytes -> S -> result CelestiaError (N * Bytes32) * S;
  rpc_get_blob : N -> Namespace -> Bytes32 -> S -> result CelestiaError bytes;
  rpc_latest_height : S -> result CelestiaError N;
  rpc_header : N -> S -> result CelestiaError CelestiaHeader;
  rpc_commitment_proof : N -> Bytes32 -> S -> result CelestiaError CommitmentProof;
  rpc_finality : N -> S -> result CelestiaError CelestiaFinalityProof;
  ipfs_put : bytes -> S -> result CelestiaError IpfsCid * S;
  ipfs_get : IpfsCid -> S -> result CelestiaError bytes
}.
Arguments rpc_submit {S}. Arguments rpc_get_blob {S}. Arguments rpc_latest_height {S}. Arguments rpc_header {S}.
Arguments rpc_commitment_proof {S}. Arguments rpc_finality {S}. Arguments ipfs_put {S}. Arguments ipfs_get {S}.

(** What the layer counts on: a blob is got back under what submitting it returned, data under
    the text of the CID that putting it returned, and submitting keeps what IPFS has. *)
Class NetLaws {S} (n : Net S) : Prop := {
  submitted_is_read ns data h c s s' : rpc_submit n ns data s = (Ok (h, c), s') -> rpc_get_blob n h ns c s' = Ok data;
  put_is_got data cid s s' : ipfs_put n data s = (Ok cid, s') ->
    exists parsed, cid_from_string (cid_text cid) = Ok parsed /\ ipfs_get n parsed s' = Ok data;
  submit_keeps_ipfs ns data x s s' cid d : rpc_submit n ns data s = (Ok x, s') ->
    ipfs_get n cid s = Ok d -> ipfs_get n cid s' = Ok d
}.

Record DaLayerConfig := mkDaConfig { da_namespace : Namespace; ipfs_threshold : N }.
Definition da_config_default : DaLayerConfig := mkDaConfig metadata_ns (1024 * 1024).
(** [without_ipfs]: the threshold is the largest [usize]. *)
Definition without_ipfs (c : DaLayerConfig) : DaLayerConfig := mkDaConfig (da_namespace c) u64_max.

Section Layer.
Context {S : Type} (net : Net S).
Record DaLayer := mkLayer { layer_config : DaLayerConfig; has_ipfs : bool }.

Definition should_use_ipfs (l : DaLayer) (size : N) : bool := has_ipfs l && (ipfs_threshold (layer_config l) <=? size)%N.

Definition submit_with_auto_ipfs (l : DaLayer) (now : N) (b : Blob) (s : S) : result CelestiaError ProofLocation * S :=
  if should_use_ipfs l (blen (blob_data b)) then
    match ipfs_put net (blob_data b) s with
    | (Err e, s) => (Err e, s)
    | (Ok cid, s) =>
        let r := mkReference cid (blen (blob_data b)) (Some "application/octet-stream"%string) true now in
        match rpc_submit net (blob_namespace b) (to_anchor_bytes r) s with
        | (Err e, s) => (Err e, s)
        | (Ok (h, c), s) => (Ok (Hybrid (mkProofId h (blob_namespace b) c) (cid_text cid)), s)
        end
    end
  else
    match rpc_submit net (blob_namespace b) (blob_data b) s with
    | (Err e, s) => (Err e, s)
    | (Ok (h, c), s) => (Ok (Celestia (mkProofId h (blob_namespace b) c)), s)
    end.

Definition submit_blob (l : DaLayer) (now : N) (b : Blob) (s : S) : result CelestiaError ProofId * S :=
  match submit_with_auto_ipfs l now b s with
  | (Err e, s) => (Err e, s)
  | (Ok (Celestia p), s) => (Ok p, s)
  | (Ok (Hybrid p _), s) => (Ok p, s)
  | (Ok _, s) => (Err (InternalError "Unexpected IPFS-only location from submit"), s)
  end.
Definition get_blob (p : ProofId) (s : S) : result CelestiaError Blob :=
  data ← rpc_get_blob net (pid_height p) (pid_namespace p) (pid_commitment p) s; blob_new (pid_namespace p) data.
Definition verify_availability (p : ProofId) (s : S) : bool :=
  is_ok (rpc_get_blob net (pid_height p) (pid_namespace p) (pid_commitment p) s).
Definition store_on_ipfs (l : DaLayer) (now : N) (data : bytes) (ns : Namespace) (s : S)
  : result CelestiaError ProofLocation * S :=
  if has_ipfs l then
    match ipfs_put net data s with
    | (Err e, s) => (Err e, s)
    | (Ok cid, s) =>
        match rpc_submit net ns (to_anchor_bytes (mkReference cid (blen data) None false now)) s with
        | (Err e, s) => (Err e, s)
        | (Ok (h, _), s) => (Ok (IpfsBacked h (cid_text cid) ns), s)
        end
    end
  else (Err (FeatureNotEnabled "IPFS not configured"), s).
Definition get_from_ipfs (l : DaLayer) (cid : IpfsCid) (s : S) : result CelestiaError bytes :=
  if has_ipfs l then ipfs_get net cid s else Err (FeatureNotEnabled "IPFS not configured").

(** [submit_metadata], [get_metadata]: JSON is a parameter *)
Definition submit_metadata (to_json : SanadMetadata -> result string string) (l : DaLayer) (now : N) (m : SanadMetadata) (s : S)
  : result CelestiaError ProofId * S :=
  match to_json m with
  | Err e => (Err (SerializationError ("JSON: " +:+ e)), s)
  | Ok json =>
      match blob_new (da_namespace (layer_config l)) (as_bytes json) with
      | Err e => (Err e, s)
      | Ok b => submit_blob l now b s
      end
  end.
Definition get_metadata (of_json : string -> result string SanadMetadata) (p : ProofId) (s : S)
  : result CelestiaError SanadMetadata :=
  b ← get_blob p s;
  json ← map_err (fun e => DeserializationError ("Invalid UTF8 in metadata: " +:+ utf8_error_message e))
           (from_utf8 (blob_data b));
  map_err (fun e => DeserializationError ("JSON: " +:+ e)) (of_json json).

(** ** The client (client.rs) *)

Record CelestiaClient := mkClient { client_layer : DaLayer; default_namespace : Namespace }.
Definition client_store (c : CelestiaClient) (now : N) (data : bytes) (ns : option Namespace) (s : S)
  : result CelestiaError ProofLocation * S :=
  match blob_new (default (default_namespace c) ns) data with
  | Err e => (Err e, s)
  | Ok b => match submit_blob (client_layer c) now b s with
            | (Ok p, s) => (Ok (Celestia p), s) | (Err e, s) => (Err e, s) end
  end.
Definition store_large (c : CelestiaClient) (now : N) (data : bytes) (ns : option Namespace) (s : S) :=
  store_on_ipfs (client_layer c) now data (default (default_namespace c) ns) s.
Definition retrieve (c : CelestiaClient) (l : ProofLocation) (s : S) : result CelestiaError bytes :=
  match l with
  | Celestia p => b ← get_blob p s; Ok (blob_data b)
  | IpfsBacked _ cid _ | Hybrid _ cid => x ← cid_from_string cid; get_from_ipfs (client_layer c) x s
  end.
Definition verify_data_at (c : CelestiaClient) (l : ProofLocation) (expected : Bytes32) (s : S)
  : result CelestiaError bool :=
  data ← retrieve c l s; Ok (bool_decide (commitment_compute (location_namespace l) data = expected)).
Definition client_create_seal (c : CelestiaClient) (s : S) : result CelestiaError CelestiaSealPoint :=
  h ← rpc_latest_height net s; Ok (cel_seal_new (mkProofId h (default_namespace c) zero32) h).

(** [wait_for_availability]: the states the attempts find *)
Fixpoint wait_from (p : ProofId) (states : list S) : bool :=
  match states with [] => false | s :: l => verify_availability p s || wait_from p l end.
Definition wait_for_availability (p : ProofId) (states : list S) : result CelestiaError unit :=
  if wait_from p states then Ok tt else Err (InclusionTimeout (blen states)).

(** ** The seal protocol (seal_protocol.rs) *)

(** What a method of the adapter fails with: an I/O error of invalid input, or the crate's. *)
Inductive SealError := Io (m : string) | Cel (e : CelestiaError).

(** What the network is asked, and the namespace of the adapter. *)
Definition publish (commitment : Hash) (p : CelestiaSealPoint) (now : N) (s : S) : result SealError CelestiaAnchor :=
  reject negb (seal_is_valid p) with Io "Seal already consumed" ;;
  h ← map_err Cel (rpc_header net (seal_height p) s);
  reject zeros (hd_hash h) with Cel (InvalidProofId "Celestia header is missing block hash") ;;
  Ok (cel_anchor_new (Celestia (seal_proof_id p)) (seal_height p) (hd_hash h) commitment
        (pid_commitment (seal_proof_id p)) now).

Definition mismatch (what : string) : SealError := Cel (CommitmentVerificationFailed what).
Definition verify_inclusion (a : CelestiaAnchor) (s : S) : result SealError CommitmentProof :=
  let id := anchor_proof_id a in
  reject negb (pid_height id =? an_height a)%N with mismatch "Anchor height does not match proof location" ;;
  p ← map_err Cel (rpc_commitment_proof net (pid_height id) (pid_commitment id) s);
  _ ← map_err Cel (commitment_verify_structure p);
  reject negb (cp_height p =? an_height a)%N with mismatch "Celestia inclusion proof height mismatch" ;;
  reject negb (bool_decide (cp_namespace p = pid_namespace id))
    with Cel (NamespaceMismatch (namespace_to_hex (pid_namespace id)) (namespace_to_hex (cp_namespace p))) ;;
  reject negb (bool_decide (cp_commitment p = an_commitment a)) with mismatch "Celestia inclusion proof commitment mismatch" ;;
  reject negb (bool_decide (cp_block_hash p = an_block_hash a)) with mismatch "Celestia inclusion proof block hash mismatch" ;;
  Ok p.

Definition invalid_proof (what : string) : SealError := Cel (InvalidProofId what).
Definition verify_finality (a : CelestiaAnchor) (s : S) : result SealError CelestiaFinalityProof :=
  let id := anchor_proof_id a in
  reject negb (pid_height id =? an_height a)%N with invalid_proof "Anchor height does not match proof location" ;;
  p ← map_err Cel (rpc_finality net (pid_height id) s);
  _ ← map_err Cel (finality_verify_structure p);
  reject negb (has_finality p) with invalid_proof "Celestia finality proof is missing quorum evidence" ;;
  reject negb (fp_height p =? an_height a)%N with invalid_proof "Celestia finality proof height mismatch" ;;
  reject negb (bool_decide (fp_block_hash p = an_block_hash a))
    with invalid_proof "Celestia finality proof block hash mismatch" ;;
  Ok p.

Definition enforce_seal (p : CelestiaSealPoint) : result SealError unit :=
  reject negb (seal_is_valid p) with Io "Seal has been consumed" ;; Ok tt.

(** [create_seal]: [now] is in seconds *)
Definition create_seal (ns : Namespace) (value : option N) (now : N) : CelestiaSealPoint :=
  let height := default 1%N value in
  let c := sha256 (as_bytes "CSV-CELESTIA-SEAL-" ++ ns ++ u64_le height ++ u64_le now) in
  cel_seal_new (mkProofId height ns c) height.

Definition cel_domain_separator : bytes :=
  map byte_of [138; 62; 241; 156; 43; 77; 94; 111; 122; 139; 156; 13; 30; 47; 58; 75; 92; 109; 126; 143; 154; 11; 28;
    45; 62; 79; 90; 107; 124; 141; 158; 15]%N.
Definition commitment_string (ns : Namespace) (contract_id previous_commitment payload_hash : Hash)
    (p : CelestiaSealPoint) : bytes :=
  cel_domain_separator ++ b32 contract_id ++ b32 previous_commitment ++ b32 payload_hash ++
  proof_id_to_bytes (seal_proof_id p) ++ ns.
Definition cel_hash_commitment (ns : Namespace) (contract_id previous_commitment payload_hash : Hash)
    (p : CelestiaSealPoint) : Hash :=
  sha256 (commitment_string ns contract_id previous_commitment payload_hash p).

(** The node of [build_proof_bundle] *)
Definition cel_node (d : Consignment.DagSegment) : DAGNode :=
  mkNode (csv_tagged_hash sha256 (as_bytes "dag-node-id")
            (b32 (Consignment.anchor_from d) ++ b32 (Consignment.anchor_to d)))
    (Consignment.transition_data d) [Consignment.segment_proof d] [] [Consignment.anchor_from d].

Definition cel_build_proof_bundle (a : CelestiaAnchor) (d : Consignment.DagSegment) (s : S)
  : result SealError ProofBundle :=
  i ← verify_inclusion a s;
  f ← verify_finality a s;
  seal_ref ← map_err (fun e => Io ("Invalid seal: " +:+ e)) (SealPoint_new (location_to_bytes (location a)) (Some (an_height a)) None);
  anchor_ref ← map_err (fun e => Io ("Invalid anchor: " +:+ e))
                 (CommitAnchor_new (b32 (an_tx_hash a)) (an_height a) (b32 (an_commitment a)));
  inc ← map_err (fun e => Io ("Invalid inclusion proof: " +:+ e))
          (InclusionProof_new (flat_map b32 (row_proof i) ++ flat_map b32 (data_proof i)) (cp_block_hash i)
             (cp_height i) (row_index i));
  fin ← map_err (fun e => Io ("Invalid finality proof: " +:+ e))
          (FinalityProof_new (b32 (an_block_hash a)) (an_height a) (negb (bool_decide (quorum_signatures f = []))));
  let segment := mkSegment [cel_node d] (canonical_id sha256 (cel_node d)) in
  map_err (fun e => Io ("Failed to build proof bundle: " +:+ e))
    (with_signature_scheme Secp256k1 segment (flat_map signatures (nodes segment)) seal_ref anchor_ref inc fin).

Definition submit_and_seal (l : DaLayer) (ns : Namespace) (now : N) (data : bytes) (s : S)
  : result CelestiaError (ProofId * CelestiaSealPoint) * S :=
  match blob_new ns data with
  | Err e => (Err e, s)
  | Ok b => match submit_blob l now b s with
            | (Err e, s) => (Err e, s) | (Ok p, s) => (Ok (p, cel_seal_new p (pid_height p)), s) end
  end.
Definition create_ipfs_seal (l : DaLayer) (ns : Namespace) (now : N) (data : bytes) (s : S)
  : result CelestiaError (ProofId * CelestiaSealPoint) * S :=
  match store_on_ipfs l now data ns s with
  | (Err e, s) => (Err e, s)
  | (Ok loc, s) =>
      match (match loc with
             | Hybrid p _ => Some p | IpfsBacked h _ _ => Some (mkProofId h ns zero32) | Celestia _ => None end) with
      | None => (Err (InternalError "Expected hybrid or ipfs-backed location"), s)
      | Some p => (Ok (p, with_ipfs (default ""%string (location_cid loc)) (cel_seal_new p (pid_height p))), s)
      end
  end.
End Layer.

(** ** The mocks of the crate (da_layer.rs, ipfs.rs) *)

Record MockNet := mkMock {
  current_height : N; storage : gmap (N * string * Bytes32) bytes; mock_ipfs : gmap string bytes }.
(** [[height as u8; 32]] *)
Definition byte_hash (h : N) : Bytes32 := fill32 (byte_of (h mod 256)).
Definition short_hex (c : Bytes32) : string := String.substring 0 8 (of_bytes (hex_encode (take 4 (b32 c)))).
Definition mock_submit (ns : Namespace) (data : bytes) (m : MockNet) : result CelestiaError (N * Bytes32) * MockNet :=
  let c := commitment_compute ns data in
  (Ok (current_height m, c),
   mkMock (current_height m) (<[(current_height m, namespace_to_hex ns, c) := data]> (storage m)) (mock_ipfs m)).
Definition mock_get_blob (h : N) (ns : Namespace) (c : Bytes32) (m : MockNet) : result CelestiaError bytes :=
  ok_or (DataNotFound ("Blob at height " +:+ pretty h +:+ " with commitment " +:+ short_hex c +:+ " not found"))
    (storage m !! (h, namespace_to_hex ns, c)).
Definition mock_header (h : N) (m : MockNet) : result CelestiaError CelestiaHeader :=
  Ok (mkCelHeader "celestia-mock" h 0 (byte_hash h) (byte_hash h)).
Definition mock_commitment_proof (h : N) (c : Bytes32) (m : MockNet) : result CelestiaError CommitmentProof :=
  Ok (commitment_proof_new h metadata_ns c (byte_hash h) (byte_hash h) (byte_hash h)).
Definition mock_finality (h : N) (m : MockNet) : result CelestiaError CelestiaFinalityProof :=
  Ok (with_quorum [[Byte.x01; Byte.x02; Byte.x03]] (finality_new h (byte_hash h) (byte_hash h))).
Definition mock_put (data : bytes) (m : MockNet) : result CelestiaError IpfsCid * MockNet :=
  match cid_from_data data with
  | Err e => (Err e, m)
  | Ok cid => (Ok cid, mkMock (current_height m) (storage m) (<[cid_text cid := data]> (mock_ipfs m)))
  end.
Definition mock_get (cid : IpfsCid) (m : MockNet) : result CelestiaError bytes :=
  ok_or (IpfsError ("CID not found: " +:+ cid_text cid)) (mock_ipfs m !! cid_text cid).
Definition mock_net : Net MockNet :=
  mkNet MockNet mock_submit mock_get_blob (fun m => Ok (current_height m)) mock_header mock_commitment_proof mock_finality
    mock_put mock_get.
End Hashed.
Arguments rpc_submit {S}. Arguments rpc_get_blob {S}. Arguments rpc_latest_height {S}. Arguments rpc_header {S}.
Arguments rpc_commitment_proof {S}. Arguments rpc_finality {S}. Arguments ipfs_put {S}. Arguments ipfs_get {S}.
Arguments mkNet {S}.

(** ** Identifiers *)

Lemma slice_to_b32 b : length b = 32 -> exists h, to_b32 b = Some h /\ b32 h = b.
Proof. intros H. destruct (to_b32 b) as [h|] eqn:E; [by exists h; apply to_b32_Some in E|]. by apply to_b32_None in E. Qed.

Lemma namespace_from_slice_ok b n : namespace_from_slice b = Ok n <-> n = b /\ namespace_ok b.
Proof.
  unfold namespace_from_slice, namespace_ok. rewrite guard_err_ok, negb_false_iff, Nat.eqb_eq. split; [|by intros [-> ?]].
  by intros [H [= ->]].
Qed.

Lemma proof_id_length p : proof_id_ok p -> length (proof_id_to_bytes p) = 68.
Proof. intros [_ Hn]. unfold proof_id_to_bytes. rewrite !length_app, length_u64_le, b32_length, Hn. done. Qed.

(** proof identifiers.  A byte string is read as an identifier exactly when it is the
    writing of that identifier, so the reader accepts one form of each and nothing else. *)
Theorem proof_id_codec_exact (b : bytes) (p : ProofId) :
  proof_id_from_bytes b = Ok p <-> proof_id_ok p /\ b = proof_id_to_bytes p.
Proof.
  unfold proof_id_from_bytes. rewrite guard_err_ok, negb_false_iff, Nat.eqb_eq. split.
  - intros [Hl H]. apply bind_ok in H as (n & Hn & [= <-]). apply namespace_from_slice_ok in Hn as [-> Hn].
    unfold PROOF_ID_SIZE in Hl.
    destruct (slice_to_b32 (drop 36 b)) as (h & Hh & Hb); [rewrite length_drop; lia|]. rewrite Hh. change (default zero32 (Some h)) with h.
    assert (H8 : length (take 8 b) = 8) by (rewrite length_take; lia). split.
    + split; [|done]. cbn. pose proof (of_le_bytes_bound (take 8 b)) as Hbd. unfold blen in Hbd. rewrite H8 in Hbd.
      unfold u64_max. cbn in Hbd. lia.
    + unfold proof_id_to_bytes. cbn [pid_height pid_namespace pid_commitment].
      pose proof (le_bytes_of_le_bytes (take 8 b)) as He. rewrite H8 in He. unfold u64_le. rewrite He, Hb.
      rewrite <- (take_drop 8 b) at 1. f_equal. rewrite <- (take_drop 28 (drop 8 b)) at 1. f_equal. by rewrite drop_drop.
  - intros [[Hh Hn] ->]. split; [by apply proof_id_length|].
    unfold proof_id_to_bytes. rewrite (drop_app_length' (u64_le (pid_height p)) _ 8) by (by rewrite length_u64_le).
    unfold namespace_ok, NAMESPACE_SIZE in Hn. rewrite (take_app_length' (pid_namespace p) _ 28) by done. rewrite (proj2 (namespace_from_slice_ok _ _)) by done. cbn [mbind result_bind].
    rewrite (take_app_length' (u64_le (pid_height p)) _ 8) by (by rewrite length_u64_le). rewrite CodecRules.of_u64_le by done.
    rewrite app_assoc, (drop_app_length' _ _ 36) by (by rewrite length_app, length_u64_le, Hn). rewrite to_b32_b32. by destruct p.
Qed.

Lemma proof_id_roundtrip p : proof_id_ok p -> proof_id_from_bytes (proof_id_to_bytes p) = Ok p.
Proof. intros H. by apply proof_id_codec_exact. Qed.

(** The field [read_cid] reads, in a longer input. *)
Lemma read_cid_written pre s junk :
  is_utf8 s = true -> (slen s < 65536)%N -> read_cid (pre ++ cid_bytes s ++ junk) (length pre) = Ok s.
Proof.
  intros Hu Hs. unfold read_cid, cid_bytes, guard_err.
  assert (Hlen : of_le_bytes (take 2 (drop (length pre) (pre ++ (le_bytes 2 (slen s mod 65536) ++ as_bytes s) ++ junk)))
                 = slen s).
  { rewrite drop_app_length, <- app_assoc, take_app_length' by (by rewrite length_le_bytes).
    rewrite of_le_bytes_le_bytes. change (256 ^ N.of_nat 2)%N with 65536%N. by rewrite N.Div0.mod_mod, N.mod_small. }
  rewrite Hlen. rewrite !length_app, length_le_bytes. unfold slen, blen. rewrite Nat2N.id.
  rewrite (proj2 (Nat.ltb_ge _ _)) by lia.
  rewrite <- drop_drop, drop_app_length, <- app_assoc, drop_app_length' by (by rewrite length_le_bytes).
  rewrite take_app_length, from_utf8_as_bytes by done. done.
Qed.

Definition cid_fits (s : string) : Prop := is_utf8 s = true /\ (slen s < 65536)%N.
Definition location_ok (l : ProofLocation) : Prop :=
  match l with
  | Celestia p => proof_id_ok p
  | IpfsBacked h c n => (h <= u64_max)%N /\ namespace_ok n /\ is_utf8 c = true
  | Hybrid p c => proof_id_ok p /\ is_utf8 c = true
  end.
Definition location_fits (l : ProofLocation) : Prop :=
  forall c, location_cid l = Some c -> (slen c < 65536)%N.

Lemma length_cid_bytes s : length (cid_bytes s) = 2 + length (as_bytes s).
Proof. unfold cid_bytes. by rewrite length_app, length_le_bytes. Qed.

Lemma location_reads l junk : location_ok l -> location_fits l ->
  location_from_bytes (location_to_bytes l ++ junk) = Ok l.
Proof.
  destruct l as [p|h c n|p c]; cbn [location_ok location_to_bytes]; unfold location_fits; cbn [location_cid].
  - intros Hp _. cbn [app location_from_bytes].
    assert (Hl : length (Byte.x01 :: proof_id_to_bytes p ++ junk) <? 69 = false).
    { apply Nat.ltb_ge. cbn [length]. rewrite length_app, (proof_id_length p Hp). lia. }
    rewrite Hl. cbn [guard_err].
    by rewrite take_app_length', proof_id_roundtrip by (rewrite ?proof_id_length; done).
  - intros (Hh & Hn & Hu) Hf. unfold namespace_ok, NAMESPACE_SIZE in Hn. specialize (Hf c eq_refl).
    cbn [app location_from_bytes].
    assert (Hl : length (Byte.x02 :: (u64_le h ++ n ++ cid_bytes c) ++ junk) <? 39 = false).
    { apply Nat.ltb_ge. cbn [length]. rewrite !length_app, length_u64_le, Hn, length_cid_bytes. lia. }
    rewrite Hl. cbn [guard_err]. rewrite <- !app_assoc, (drop_app_length' (u64_le h) _ 8) by (by rewrite length_u64_le).
    rewrite (take_app_length' n _ 28) by done. rewrite (proj2 (namespace_from_slice_ok n n)) by done. cbn [mbind result_bind].
    pose proof (read_cid_written (Byte.x02 :: u64_le h ++ n) c junk Hu Hf) as Hr.
    cbn [length app] in Hr. rewrite length_app, length_u64_le, Hn, <- app_assoc in Hr. change (S (8 + 28)) with 37 in Hr. rewrite Hr. cbn [mbind result_bind].
    by rewrite (take_app_length' (u64_le h) _ 8), CodecRules.of_u64_le by (rewrite ?length_u64_le; done).
  - intros [Hp Hu] Hf. specialize (Hf c eq_refl). cbn [app location_from_bytes].
    assert (Hl : length (Byte.x03 :: (proof_id_to_bytes p ++ cid_bytes c) ++ junk) <? 71 = false).
    { apply Nat.ltb_ge. cbn [length]. rewrite !length_app, (proof_id_length p Hp), length_cid_bytes. lia. }
    rewrite Hl. cbn [guard_err]. rewrite <- !app_assoc, take_app_length' by (rewrite ?proof_id_length; done).
    rewrite proof_id_roundtrip by done. cbn [mbind result_bind].
    pose proof (read_cid_written (Byte.x03 :: proof_id_to_bytes p) c junk Hu Hf) as Hr.
    cbn [length app] in Hr. rewrite (proof_id_length p Hp) in Hr. change (S 68) with 69 in Hr. by rewrite Hr.
Qed.

Lemma read_cid_short b at_ s : read_cid b at_ = Ok s -> (slen s < 65536)%N.
Proof.
  unfold read_cid. intros [_ H]%guard_err_ok. apply map_err_ok, from_utf8_ok in H as [_ H].
  unfold slen. rewrite H. unfold blen. rewrite length_take.
  pose proof (of_le_bytes_bound (take 2 (drop at_ b))) as Hb. unfold blen in Hb.
  assert (256 ^ N.of_nat (length (take 2 (drop at_ b))) <= 65536)%N.
  { change 65536%N with (256 ^ 2)%N. apply N.pow_le_mono_r; [done|]. rewrite length_take. lia. }
  lia.
Qed.

(** proof locations.  A location is read back, whatever follows it, exactly when its CID is
    shorter than 65536 bytes: the length is written in 16 bits, so a longer one is never read
    back as it was, and what follows a location is not looked at. *)
Theorem location_codec (l : ProofLocation) (junk : bytes) (Hok : location_ok l) :
  location_from_bytes (location_to_bytes l ++ junk) = Ok l <-> location_fits l.
Proof.
  split; [|by apply location_reads]. intros H c Hc. unfold location_from_bytes in H.
  destruct l as [p|h x n|p x]; cbn [location_to_bytes app] in H; [done| |]; injection Hc as <-;
    apply guard_err_ok in H as [_ H]; apply bind_ok in H as (? & _ & H); apply bind_ok in H as (s & Hs & H);
    apply read_cid_short in Hs; congruence.
Qed.

(** namespaces.  A namespace of the program is of its size, is recognised as the program's,
    and gives back the chain and the type it was made of; the seven that have names differ. *)
Theorem csv_namespace_exact (chain kind : bytes) (Hc : length chain = 4) (Hk : length kind = 8) :
  namespace_ok (csv_namespace chain kind) /\ is_csv (csv_namespace chain kind) = true /\
  chain_id (csv_namespace chain kind) = Some chain /\ sanad_type (csv_namespace chain kind) = Some kind /\
  NoDup [bitcoin_stark; sui_stark; solana_stark; ethereum_stark; aptos_stark; fraud_proofs; metadata_ns].
Proof.
  assert (Hcsv : is_csv (csv_namespace chain kind) = true) by (by apply bool_decide_true).
  split; [|split; [done|split; [|split]]].
  - unfold namespace_ok, csv_namespace. rewrite !length_app, Hc, Hk. done.
  - unfold chain_id. rewrite Hcsv. unfold csv_namespace. f_equal.
    change (drop 5 ([Byte.x00] ++ CSV_MAGIC ++ chain ++ kind ++ replicate 11 Byte.x00)) with
      (chain ++ kind ++ replicate 11 Byte.x00). by rewrite take_app_length' by done.
  - unfold sanad_type. rewrite Hcsv. unfold csv_namespace. f_equal.
    change (drop 9 ([Byte.x00] ++ CSV_MAGIC ++ chain ++ kind ++ replicate 11 Byte.x00)) with
      (drop 4 (chain ++ kind ++ replicate 11 Byte.x00)). by rewrite (drop_app_length' chain), take_app_length' by done.
  - by apply (bool_decide_unpack _); vm_compute.
Qed.

(** ** Blobs *)

Lemma blob_new_ok ns data b : blob_new ns data = Ok b <-> b = mkBlob ns data /\ (0 < blen data <= MAX_BLOB_SIZE)%N.
Proof.
  unfold blob_new. rewrite !guard_err_ok, N.eqb_neq, N.ltb_ge. split.
  - intros (? & ? & [= <-]). split; [done|lia].
  - intros [-> ?]. repeat split; lia.
Qed.

(** blobs.  A blob is made exactly of one byte to two mebibytes, and is read back from its
    bytes; its commitment, in namespaces of the right size, is that of no other blob, unless
    the two blobs' bytes collide. *)
Theorem blob_exact (sha256 : bytes -> Bytes32) (ns : Namespace) (data : bytes) (Hns : namespace_ok ns) :
  (is_ok (blob_new ns data) = true <-> (0 < blen data <= 2097152)%N) /\
  (forall b, blob_new ns data = Ok b -> blob_from_bytes (blob_to_bytes b) = Ok b) /\
  (forall b, namespace_ok (blob_namespace b) -> verify_commitment sha256 b (blob_commitment sha256 (mkBlob ns data)) = true ->
     b = mkBlob ns data \/ collision_in sha256 [blob_namespace b ++ blob_data b; ns ++ data]).
Proof.
  split; [|split].
  - split.
    + intros [b Hb%blob_new_ok]%is_ok_inv. by destruct Hb.
    + intros H. by rewrite (proj2 (blob_new_ok ns data _) (conj eq_refl H)).
  - intros b [-> H]%blob_new_ok. unfold blob_from_bytes, blob_to_bytes. cbn [blob_namespace blob_data].
    unfold namespace_ok, NAMESPACE_SIZE in Hns. unfold blen in H.
    rewrite length_app, Hns. rewrite (proj2 (Nat.ltb_ge _ _)) by lia. cbn [guard_err].
    rewrite take_app_length', drop_app_length' by done. rewrite (proj2 (namespace_from_slice_ok ns ns)) by done.
    cbn [mbind result_bind]. by apply blob_new_ok.
  - intros [ns' data'] Hb H%bool_decide_eq_true. unfold blob_commitment, commitment_compute in H.
    cbn [blob_namespace blob_data] in *. hash_inj H. left.
    apply app_inj_1 in H as [-> ->]; [done|]. unfold namespace_ok in *. congruence.
Qed.

(** references.  The bytes left on the chain for data on IPFS are read back to the
    reference, but for its content type, which is not written. *)
Theorem anchor_bytes_roundtrip (cids : CidCrate) (r : IpfsReference) (Hs : (ref_size r <= u64_max)%N)
    (Ht : (ref_timestamp r <= u64_max)%N) (Hfits : cid_fits (cid_text (ref_cid r)))
    (Hcid : cid_from_string cids (cid_text (ref_cid r)) = Ok (ref_cid r)) :
  from_anchor_bytes cids (to_anchor_bytes r) =
  Ok (mkReference (ref_cid r) (ref_size r) None (ref_pinned r) (ref_timestamp r)).
Proof.
  destruct Hfits as [Hu Hl]. unfold from_anchor_bytes, to_anchor_bytes, cid_bytes.
  set (s := cid_text (ref_cid r)) in *. set (tail := u64_le (ref_size r) ++ u64_le (ref_timestamp r) ++ _).
  assert (Htail : length tail = 17) by (unfold tail; by rewrite !length_app, !length_u64_le).
  assert (Hlen : of_le_bytes (take 2 ((le_bytes 2 (slen s mod 65536) ++ as_bytes s) ++ tail)) = slen s).
  { rewrite <- app_assoc, take_app_length' by (by rewrite length_le_bytes).
    rewrite of_le_bytes_le_bytes. change (256 ^ N.of_nat 2)%N with 65536%N. by rewrite N.Div0.mod_mod, N.mod_small. }
  rewrite Hlen. rewrite !length_app, length_le_bytes, Htail. unfold slen, blen. rewrite Nat2N.id.
  rewrite !(proj2 (Nat.ltb_ge _ _)) by lia. cbn [guard_err].
  rewrite <- !app_assoc, (drop_app_length' (le_bytes 2 _) _ 2) by (by rewrite length_le_bytes).
  rewrite take_app_length, from_utf8_as_bytes by done. cbn [map_err mbind result_bind]. rewrite Hcid. cbn [mbind result_bind].
  rewrite app_assoc, (drop_app_length' (_ ++ as_bytes s) tail) by (by rewrite length_app, length_le_bytes).
  assert (H8 : forall v k, take 8 (u64_le v ++ k) = u64_le v)
    by (intros v k; apply take_app_length'; by rewrite length_u64_le).
  assert (D8 : forall v k, drop 8 (u64_le v ++ k) = k)
    by (intros v k; apply drop_app_length'; by rewrite length_u64_le).
  unfold tail. change 16 with (8 + 8). rewrite <- drop_drop, !D8, !H8, !CodecRules.of_u64_le by done.
  by destruct (ref_pinned r).
Qed.

(** ** Metadata *)

Lemma location_prefix l l' junk junk' : location_ok l -> location_ok l' -> location_fits l -> location_fits l' ->
  location_to_bytes l ++ junk = location_to_bytes l' ++ junk' -> l = l'.
Proof.
  intros H H' Hf Hf' E. pose proof (location_reads l junk H Hf) as R. rewrite E, location_reads in R by done. congruence.
Qed.

(** the identifier of metadata.  It binds the location of the proof and its commitment,
    unless what is hashed for the two collides, and nothing else: what passes the check for tampering still passes it after the type, the
    chains, what is said of the proof, the requirements or the extra fields are replaced. *)
Theorem metadata_id_binds (sha256 : bytes -> Bytes32) (now : N) (m m' : SanadMetadata)
    (Hm : metadata_verify_structure sha256 now m = Ok tt) (Hm' : metadata_verify_structure sha256 now m' = Ok tt)
    (Hok : location_ok (md_location m) /\ location_fits (md_location m))
    (Hok' : location_ok (md_location m') /\ location_fits (md_location m')) (H : md_id m = md_id m') :
  ((md_location m = md_location m' /\ md_commitment m = md_commitment m') \/
   collision_in sha256 [location_to_bytes (md_location m) ++ b32 (md_commitment m);
                        location_to_bytes (md_location m') ++ b32 (md_commitment m')]) /\
  forall kind source target info req extra,
    metadata_verify_structure sha256 now
      (mkMetadata (md_id m) kind source target (md_location m) (md_commitment m) info req (md_created_at m)
         (md_expires_at m) extra) = Ok tt.
Proof.
  split; [|done]. unfold metadata_verify_structure in Hm, Hm'.
  apply guard_err_ok in Hm as [Hi%negb_false_iff%bool_decide_eq_true _].
  apply guard_err_ok in Hm' as [Hi'%negb_false_iff%bool_decide_eq_true _].
  rewrite Hi, Hi' in H. unfold compute_id in H. hash_inj H. left.
  assert (Hl : md_location m = md_location m') by (eapply location_prefix; [..|exact H]; tauto).
  split; [done|]. rewrite Hl in H. apply app_inv_head in H. by apply b32_inj.
Qed.

(** the checksum of derived metadata.  It is entered as a SHA-256 of the data and is the
    commitment of the blob, which hashes the namespace before the data: checking it against
    the data fails, unless those two strings collide. *)
Theorem derived_checksum_fails (sha256 : bytes -> Bytes32) (now : N) (m : SanadMetadata) (ns : Namespace) (data : bytes)
    (Hns : namespace_ok ns) (Hm : md_commitment m = commitment_compute sha256 ns data) :
  verify_checksum sha256 (to_celestia_metadata now m) "sha256" data = false \/ collision_in sha256 [data; ns ++ data].
Proof.
  assert (E : verify_checksum sha256 (to_celestia_metadata now m) "sha256" data = bool_decide (sha256 data = md_commitment m)).
  { unfold verify_checksum, to_celestia_metadata. by destruct (md_expires_at m). }
  rewrite E, Hm. clear E. case_bool_decide as H; [right|by left].
  unfold commitment_compute in H. apply (collision_in_intro _ _ data (ns ++ data)); [pick|pick| |done].
  intros Hd. apply (f_equal length) in Hd. rewrite length_app, Hns in Hd. unfold NAMESPACE_SIZE in Hd. lia.
Qed.

(** What is hashed for the root of a batch that is not empty. *)
Definition batch_preimage (l : list SanadMetadata) : bytes := flat_map (fun e => b32 (md_id e)) l.

Lemma flat_ids_inj (l l' : list SanadMetadata) :
  flat_map (fun e => b32 (md_id e)) l = flat_map (fun e => b32 (md_id e)) l' -> map md_id l = map md_id l'.
Proof.
  revert l'. induction l as [|x l IH]; intros [|y l']; cbn; [done| | |].
  - intros H. apply (f_equal length) in H. rewrite length_app, b32_length in H. done.
  - intros H. apply (f_equal length) in H. rewrite length_app, b32_length in H. done.
  - intros H. apply app_inj_1 in H as [H1%b32_inj H2]; [|by rewrite !b32_length]. by rewrite H1, (IH _ H2).
Qed.

(** the root of a batch binds the identifiers of its entries and their order, unless the
    joined identifiers of the two collide, or those of one are hashed to the zeros that stand
    for an empty batch. *)
Theorem batch_root_binds (sha256 : bytes -> Bytes32) (l l' : list SanadMetadata) (now now' : N)
    (H : merkle_root (batch_new sha256 l now) = merkle_root (batch_new sha256 l' now')) :
  map md_id l = map md_id l' \/ collision_in sha256 [batch_preimage l; batch_preimage l'] \/
  (l = [] /\ sha256 (batch_preimage l') = zero32) \/ (l' = [] /\ sha256 (batch_preimage l) = zero32).
Proof.
  cbn [batch_new merkle_root] in H. unfold compute_merkle_root in H.
  destruct l as [|x l]; [|destruct l' as [|y l']; [by auto|]]; [destruct l'; by auto|].
  unfold batch_preimage. hash_inj H. left. by apply flat_ids_inj.
Qed.

(** ** Storing and reading back *)

Section Stored.
Context {S : Type} (sha256 : bytes -> Bytes32) (cids : CidCrate) (net : Net S) `{!NetLaws cids net}.

Lemma submit_with_auto_ipfs_small l now b s loc s' :
  should_use_ipfs l (blen (blob_data b)) = false -> submit_with_auto_ipfs net l now b s = (Ok loc, s') ->
  exists h c, loc = Celestia (mkProofId h (blob_namespace b) c) /\
              rpc_get_blob net h (blob_namespace b) c s' = Ok (blob_data b).
Proof.
  unfold submit_with_auto_ipfs. intros ->. destruct (rpc_submit net _ _ s) as [[[h c]|] s1] eqn:E; [|done].
  intros [= <- <-]. exists h, c. split; [done|]. by apply (submitted_is_read cids) in E.
Qed.

Lemma submit_with_auto_ipfs_large l now b s loc s' :
  should_use_ipfs l (blen (blob_data b)) = true -> submit_with_auto_ipfs net l now b s = (Ok loc, s') ->
  exists h c cid r, loc = Hybrid (mkProofId h (blob_namespace b) c) (cid_text cid) /\ ref_cid r = cid /\
    ref_size r = blen (blob_data b) /\
    rpc_get_blob net h (blob_namespace b) c s' = Ok (to_anchor_bytes r) /\
    exists parsed, cid_from_string cids (cid_text cid) = Ok parsed /\ ipfs_get net parsed s' = Ok (blob_data b).
Proof.
  unfold submit_with_auto_ipfs. intros ->. destruct (ipfs_put net _ s) as [[cid|] s1] eqn:Ep; [|done].
  destruct (rpc_submit net _ _ s1) as [[[h c]|] s2] eqn:E; [|done]. intros [= <- <-].
  apply (put_is_got cids) in Ep as (parsed & Hp & Hg). exists h, c, cid, (mkReference cid (blen (blob_data b)) (Some "application/octet-stream"%string) true now). split; [done|]. split; [done|]. split; [done|].
  split; [by eapply (submitted_is_read cids)|]. exists parsed. split; [done|]. by eapply (submit_keeps_ipfs cids).
Qed.

Lemma client_store_inv (c : CelestiaClient) now data ns s loc s' :
  client_store net c now data ns s = (Ok loc, s') ->
  let n := default (default_namespace c) ns in
  let b := mkBlob n data in
  (0 < blen data <= MAX_BLOB_SIZE)%N /\
  exists l, submit_with_auto_ipfs net (client_layer c) now b s = (Ok l, s') /\
    match l with Celestia p => loc = Celestia p | Hybrid p _ => loc = Celestia p | IpfsBacked _ _ _ => False end.
Proof.
  unfold client_store. destruct (blob_new _ data) as [b|] eqn:Hb; [|done]. apply blob_new_ok in Hb as [-> Hlen].
  unfold submit_blob. destruct (submit_with_auto_ipfs _ _ _ _ _) as [[l|] s1] eqn:E; [|done].
  destruct l as [p| |p cid]; [..|]; intros H; [| by injection H|]; injection H as <- <-; split; try done; by eexists.
Qed.
End Stored.

(** the client's store.  Data below the threshold of IPFS is retrieved from the location that
    storing it returned.  Data at the threshold or above goes to IPFS, and the location returned
    names the reference left on the chain as if it were the data: what is retrieved from it is
    the bytes of that reference and nothing else.  What the method for large data stores is
    retrieved as it was. *)
Theorem client_reads_back {S} (cids : CidCrate) (net : Net S) `{!NetLaws cids net} (c : CelestiaClient) (now : N)
    (data : bytes) (ns : option Namespace) (s s' : S) (loc : ProofLocation) :
  (client_store net c now data ns s = (Ok loc, s') ->
   if should_use_ipfs (client_layer c) (blen data)
   then exists r, ref_size r = blen data /\ forall out, retrieve cids net c loc s' = Ok out -> out = to_anchor_bytes r
   else retrieve cids net c loc s' = Ok data) /\
  (store_large net c now data ns s = (Ok loc, s') -> retrieve cids net c loc s' = Ok data).
Proof.
  split.
  - intros (Hlen & l & Hl & Hloc)%client_store_inv. destruct (should_use_ipfs _ _) eqn:Hu.
    + apply (submit_with_auto_ipfs_large cids) in Hl as (h & x & cid & r & -> & _ & Hr & Hg & _); [|done..].
      subst loc. exists r. split; [done|]. intros out. cbn [retrieve]. unfold get_blob. cbn in Hg |- *.
      rewrite Hg. cbn [mbind result_bind]. intros H. apply bind_ok in H as (b & [-> _]%blob_new_ok & [= <-]). done.
    + apply (submit_with_auto_ipfs_small cids) in Hl as (h & x & -> & Hg); [|done..]. subst loc. cbn [retrieve]. unfold get_blob.
      cbn in Hg |- *. rewrite Hg. cbn [mbind result_bind].
      by rewrite (proj2 (blob_new_ok _ _ _) (conj eq_refl Hlen)).
  - unfold store_large, store_on_ipfs. destruct (has_ipfs _) eqn:Hi; [|done].
    destruct (ipfs_put net data s) as [[cid|] s1] eqn:Ep; [|done].
    destruct (rpc_submit net _ _ s1) as [[[h x]|] s2] eqn:E; [|done]. intros [= <- <-]. cbn [retrieve].
    apply (put_is_got cids) in Ep as (parsed & Hp & Hg). rewrite Hp. cbn [mbind result_bind]. unfold get_from_ipfs. rewrite Hi.
    by eapply (submit_keeps_ipfs cids).
Qed.

(** waiting.  The wait succeeds exactly when one of its attempts finds the blob. *)
Theorem wait_exact {S} (net : Net S) (p : ProofId) (states : list S) :
  wait_for_availability net p states = Ok tt <-> Exists (fun s => verify_availability net p s = true) states.
Proof.
  unfold wait_for_availability. assert (H : wait_from net p states = true <-> Exists (fun s => verify_availability net p s = true) states).
  { induction states as [|s l IH]; cbn; [by rewrite Exists_nil|]. by rewrite orb_true_iff, IH, Exists_cons. }
  rewrite <- H. by destruct (wait_from _ _ _).
Qed.

(** ** Seals *)

Lemma verify_inclusion_ok {S} (net : Net S) a s p : verify_inclusion net a s = Ok p <->
  pid_height (anchor_proof_id a) = an_height a /\
  rpc_commitment_proof net (an_height a) (pid_commitment (anchor_proof_id a)) s = Ok p /\
  commitment_verify_structure p = Ok tt /\ cp_height p = an_height a /\
  cp_namespace p = pid_namespace (anchor_proof_id a) /\ cp_commitment p = an_commitment a /\
  cp_block_hash p = an_block_hash a.
Proof.
  unfold verify_inclusion. rewrite guard_err_ok, negb_false_iff, N.eqb_eq. split.
  - intros [Hh H]. apply bind_ok in H as (q & Hq%map_err_ok & H). apply bind_ok in H as ([] & Hs%map_err_ok & H).
    rewrite !guard_err_ok, !negb_false_iff, N.eqb_eq, !bool_decide_eq_true in H.
    destruct H as (? & ? & ? & ? & [= <-]). by rewrite Hh in Hq.
  - intros (Hh & Hq & Hs & H1 & H2 & H3 & H4). split; [done|]. rewrite Hh, Hq. cbn [map_err mbind result_bind].
    rewrite Hs. cbn [map_err mbind result_bind]. rewrite H1, H2, H3, H4, N.eqb_refl, !bool_decide_true by done. done.
Qed.

Lemma cel_verify_finality_ok {S} (net : Net S) a s f : verify_finality net a s = Ok f ->
  rpc_finality net (an_height a) s = Ok f /\ has_finality f = true /\ fp_height f = an_height a /\
  fp_block_hash f = an_block_hash a.
Proof.
  unfold verify_finality. rewrite guard_err_ok, negb_false_iff, N.eqb_eq. intros [Hh H].
  apply bind_ok in H as (q & Hq%map_err_ok & H). apply bind_ok in H as ([] & Hs%map_err_ok & H).
  rewrite !guard_err_ok, !negb_false_iff, N.eqb_eq, !bool_decide_eq_true in H.
  destruct H as (? & ? & ? & [= <-]). by rewrite Hh in Hq.
Qed.

(** publishing puts nothing on the chain.  It changes no seal, so a seal that is valid
    publishes any two commitments, one after the other; and on a chain that answers with the
    proof it is asked for, the anchor verifies only when the commitment published is the one the
    seal was made with. *)
Theorem publish_unbound {S} (net : Net S) (c c' : Hash) (p : CelestiaSealPoint) (now now' : N) (s s' : S)
    (a : CelestiaAnchor) (H : publish net c p now s = Ok a) :
  (exists a', publish net c' p now' s = Ok a' /\ an_commitment a' = c' /\ location a' = location a) /\
  enforce_seal p = Ok tt /\
  ((forall h x q, rpc_commitment_proof net h x s' = Ok q -> cp_commitment q = x) ->
   is_ok (verify_inclusion net a s') = true -> c = pid_commitment (seal_proof_id p)).
Proof.
  unfold publish in *. apply guard_err_ok in H as [Hv H]. apply bind_ok in H as (hd & Hh & H).
  apply guard_err_ok in H as [Hz [= <-]]. rewrite Hv, Hh. cbn [guard_err mbind result_bind]. rewrite Hz.
  split; [by eexists|]. split; [unfold enforce_seal; by rewrite Hv|].
  intros Hhonest [q Hq]%is_ok_inv. apply verify_inclusion_ok in Hq as (_ & Hq & _ & _ & _ & Hc & _). cbn in Hq, Hc.
  apply Hhonest in Hq. congruence.
Qed.

(** bundles.  A bundle is built exactly over an anchor whose inclusion and finality the chain
    confirms at one height and block.  It counts the height of the block as its
    confirmations, and its inclusion proof names no leaf: the validator of chain proofs refuses
    every such bundle. *)
Theorem celestia_bundle_refused {S} (sha256 : bytes -> Bytes32) (net : Net S) (a : CelestiaAnchor)
    (d : Consignment.DagSegment) (s : S) (b : ProofBundle) (H : cel_build_proof_bundle sha256 net a d s = Ok b) :
  is_ok (verify_inclusion net a s) = true /\ is_ok (verify_finality net a s) = true /\
  confirmations (finality_proof b) = an_height a /\
  bundle_signatures b = [Consignment.segment_proof d] /\
  ChainProofs.validate_bundle sha256 b <> ChainProofs.Valid.
Proof.
  unfold cel_build_proof_bundle in H. apply bind_ok in H as (i & Hi & H). apply bind_ok in H as (f & Hf & H).
  apply bind_ok in H as (sr & _ & H). apply bind_ok in H as (ar & _ & H).
  apply bind_ok in H as (inc & Hinc%map_err_ok & H). apply bind_ok in H as (fin & Hfin%map_err_ok & H).
  apply map_err_ok in H. apply guard_err_ok in Hinc as [_ [= <-]]. apply guard_err_ok in Hfin as [_ [= <-]].
  apply guard_err_ok in H as [_ [= <-]]. rewrite Hi, Hf. split; [done|]. split; [done|]. split; [done|].
  split; [done|]. by apply ChainProofs.zero_leaf_refused.
Qed.

(** the commitment of the adapter binds contract, predecessor, payload, the seal's
    identifier and the namespace, unless what is hashed for the two collides. *)
Theorem cel_commitment_binds (sha256 : bytes -> Bytes32) (ns ns' : Namespace) (c c' prev prev' pl pl' : Hash)
    (p p' : CelestiaSealPoint) (Hp : proof_id_ok (seal_proof_id p)) (Hp' : proof_id_ok (seal_proof_id p'))
    (H : cel_hash_commitment sha256 ns c prev pl p = cel_hash_commitment sha256 ns' c' prev' pl' p') :
  (ns, c, prev, pl, seal_proof_id p) = (ns', c', prev', pl', seal_proof_id p') \/
  collision_in sha256 [commitment_string ns c prev pl p; commitment_string ns' c' prev' pl' p'].
Proof.
  unfold cel_hash_commitment in H. hash_inj H. left. unfold commitment_string in H.
  apply app_inv_head in H.
  apply app_inj_1 in H as [->%b32_inj H]; [|by rewrite !b32_length].
  apply app_inj_1 in H as [->%b32_inj H]; [|by rewrite !b32_length].
  apply app_inj_1 in H as [->%b32_inj H]; [|by rewrite !b32_length].
  apply app_inj_1 in H as [E ->]; [|by rewrite !proof_id_length].
  apply (f_equal proof_id_from_bytes) in E. rewrite !proof_id_roundtrip in E by done. congruence.
Qed.

(** the crate's mocks keep what the layer counts on, when the CID crate reads the text it
    writes: what the client stores and retrieves on them is as on any chain. *)
Theorem mock_net_laws (sha256 : bytes -> Bytes32) (cids : CidCrate)
    (Hcids : forall h, is_ok (cid_parse cids (cid_v1_raw cids h)) = true) : NetLaws cids (mock_net sha256 cids).
Proof.
  split; cbn.
  - intros ns data h c s s' [= <- <- <-]. unfold mock_get_blob. cbn. by rewrite lookup_insert_eq.
  - intros data cid s s'. unfold mock_put. destruct (cid_from_data sha256 cids data) as [x|] eqn:E; [|done].
    intros [= <- <-]. unfold cid_from_data in E. apply guard_err_ok in E as [_ [_ [= <-]]%guard_err_ok].
    destruct (is_ok_inv _ (Hcids (sha256 data))) as [y Hy]. unfold cid_from_string. cbn [cid_text]. rewrite Hy.
    cbn [map_err mbind result_bind]. eexists. split; [done|]. unfold mock_get. cbn. by rewrite lookup_insert_eq.
  - intros ns data x s s' cid d [= _ <-]. done.
Qed.

(** ** On the mocks *)

Definition demo_hash (b : bytes) : Bytes32 := match b with Byte.x00 :: _ => fill32 Byte.x01 | _ => zero32 end.
Definition demo_cids : CidCrate := mkCidCrate (fun _ => Ok (1, 85, 18, [])%N) (fun _ => "bafk"%string).
Definition demo_client : CelestiaClient := mkClient (mkLayer (mkDaConfig metadata_ns 4) true) metadata_ns.
Definition demo_mock : MockNet := mkMock 100 ∅ ∅.

Lemma client_reads_back_witness :
  exists loc s', client_store (mock_net demo_hash demo_cids) demo_client 7 [Byte.x05] None demo_mock = (Ok loc, s') /\
    retrieve demo_cids (mock_net demo_hash demo_cids) demo_client loc s' = Ok [Byte.x05].
Proof.
  pose proof (mock_net_laws demo_hash demo_cids (fun _ => eq_refl)) as Hlaws.
  eexists _, _. split; [reflexivity|].
  refine (proj1 (client_reads_back demo_cids (mock_net demo_hash demo_cids) demo_client 7 [Byte.x05] None demo_mock _ _) _).
  reflexivity.
Defined.

Lemma publish_unbound_witness :
  exists a, publish (mock_net demo_hash demo_cids) zero32 (create_seal demo_hash metadata_ns (Some 5%N) 9) 9 demo_mock = Ok a /\
    exists a', publish (mock_net demo_hash demo_cids) (fill32 Byte.x02) (create_seal demo_hash metadata_ns (Some 5%N) 9) 9 demo_mock = Ok a' /\
      an_commitment a' = fill32 Byte.x02.
Proof.
  eexists. split; [reflexivity|].
  edestruct (publish_unbound (mock_net demo_hash demo_cids) zero32 (fill32 Byte.x02)
    (create_seal demo_hash metadata_ns (Some 5%N) 9) 9 9 demo_mock demo_mock) as [(a' & H & Hc & _) _]; [reflexivity|].
  by exists a'.
Defined.

Lemma location_codec_witness :
  location_from_bytes (location_to_bytes (IpfsBacked 5 "bafk" metadata_ns) ++ [Byte.x09]) = Ok (IpfsBacked 5 "bafk" metadata_ns).
Proof.
  apply (location_codec (IpfsBacked 5 "bafk" metadata_ns) [Byte.x09]); [by repeat split|]. by intros c [= <-].
Defined.
